(* ===== verification/_CoqProject ===== *)
-Q . S2P
Prelude.v
Words.v
ArtKey.v
KeyPrefix.v
SortedAssoc.v
Simd.v
InodeBase.v
InodeSpec.v
Inode4.v
Inode16.v
Inode48.v
Inode256.v
Inode.v
Heap.v
Buffer.v
KeyCodec.v
CodecSpec.v
CodecOrder.v
Stats.v
Leaf.v
Tree.v
Db.v
DbLookup.v
DbInsert.v
DbRemove.v
DbMap.v
DbTrace.v
DbCount.v
Iterator.v
IterSpec.v
SeekSpec.v
ScanSpec.v
Samples.v
NodeTheorems.v
CodecTheorems.v
ScanTheorems.v
Threads.v
OptimisticLock.v
LockTheorems.v
QsbrState.v
Qsbr.v
QsbrRequests.v
QsbrInv.v
QsbrSteps.v
QsbrSafety.v
QsbrContinue.v
QsbrTheorems.v
QsbrPtr.v
QsbrPtrTheorems.v
MutexDb.v
MutexTheorems.v
OlcState.v
Olc.v
OlcIter.v
OlcSystem.v
OlcLost.v
OlcLogic.v
OlcCounters.v
OlcTree.v
OlcSurgery.v
OlcInv.v
OlcFacts.v
OlcSteps.v
OlcClear.v
OlcEdit.v
OlcChanges.v
OlcRules.v
OlcUse.v
OlcWalk.v
OlcGet.v
OlcPositions.v
OlcScan.v
OlcInsert.v
OlcRemove.v
OlcSolo.v
OlcPool.v
OlcCount.v
OlcTheorems.v
DbTheorems.v
Findings.v
