(* ===== verification/Prelude.v ===== *)
(** * UnoDB: a verification of the Adaptive Radix Tree and its building blocks

    UnoDB is a header-only C++ library: an Adaptive Radix Tree over binary
    comparable keys, in a single-threaded flavour ([src/art.hpp]), one behind a
    mutex ([src/mutex_art.hpp]) and one with optimistic lock coupling
    ([src/olc_art.hpp]), the last built on an optimistic lock
    ([src/optimistic_lock.hpp]) and on quiescent-state-based reclamation
    ([src/qsbr.hpp], [src/qsbr.cpp]).  This development models the
    single-threaded index with everything below it, the key codec, the
    iterator and its scans, the index behind a mutex, the optimistic lock, the
    reclamation, and the index with optimistic lock coupling with its iterator,
    its scans and its counters.

    ** How the files follow the code

    Each mapped definition carries the file, the lines and the name of the C++
    entity it translates in its doc comment.

    - [Prelude]: automation and list lemmas.  [Words]: machine words as [Z]
      with explicit wrap-around, byte access, byte swap, bit counting
      ([src/portability_builtins.hpp], [src/node_type.hpp]).
    - [ArtKey] (compare, get_u64, basic_art_key, tree_depth of
      [src/art_internal.hpp]); [KeyPrefix] (the packed word of key_prefix of
      [src/art_internal_impl.hpp]).
    - [SortedAssoc]: sorted association lists, the abstract state of a node.
      [Simd]: the SSE intrinsics byte by byte and the SWAR search.
    - [InodeBase], [Inode4], [Inode16], [Inode48], [Inode256], [Inode]: the
      four node types of [src/art_internal_impl.hpp] and the dispatch on them.
      [InodeSpec] is the interface they promise to the index (classes of
      operations with laws), discharged by each of them.
    - [Heap] ([src/heap.hpp], [src/test_heap.hpp]): allocation over a parameter
      for posix_memalign, the failure injector, the state-and-exception monad of
      the mutating code, and computations that never throw when the allocator
      does not fail.
    - [Buffer], [KeyCodec] ([src/art_common.hpp], [src/art_internal.hpp],
      [src/duckdb_encode_decode.hpp]): the growing buffer, the key encoder and
      decoder; [CodecSpec], [CodecOrder]: what the codes mean and
      how they are ordered.
    - [Stats] (the counters of [src/art.hpp]), [Leaf] (leaves of
      [src/art_internal_impl.hpp]), [Tree] (node pointers as a tagged union,
      and the bindings of a subtree).
    - [Db] ([src/art.hpp]): get, insert, remove, clear, empty, destructor;
      [DbLookup], [DbInsert], [DbRemove]: each against the bindings; [DbMap]:
      the index as a finite map; [DbTrace]: sequences of calls; [DbCount]: the
      counters.
    - [Iterator] ([src/art.hpp]): the iterator's stack and key buffer, seek,
      and the three scans; [IterSpec], [SeekSpec], [ScanSpec]: where the
      iterator stands, where a search goes, what a scan visits.
    - [Threads]: interleaved executions.  [OptimisticLock]
      ([src/optimistic_lock.hpp]): the version word and the steps of threads
      over one lock.
    - [QsbrState] (the packed state word), [Qsbr] (every operation of the
      reclamation, one atomic access per step), [QsbrRequests] (conservation of
      requests), [QsbrInv], [QsbrSteps], [QsbrSafety], [QsbrContinue] (the
      invariant and its preservation by every step).
    - [QsbrPtr] ([src/qsbr_ptr.hpp], [src/qsbr_ptr.cpp]): the pointers and spans
      that register themselves with their thread in debug builds, over the
      objects of one thread.
    - [MutexDb] ([src/mutex_art.hpp]): the operations under the mutex and the
      threads that call them.
    - [OlcState], [Olc] ([src/olc_art.hpp]): the shared memory with nodes at
      addresses, and the operations as interaction trees over accesses to it;
      [OlcIter]: its iterator, with the versions of the locks on the path, and
      its scans; [OlcSystem]: the calls, threads that interleave their accesses,
      their histories, and the atomic index.  [OlcLost]: checking short histories by
      search, and an execution that is not linearizable.
    - [OlcLogic], [OlcRules], [OlcUse]: a rely-guarantee logic for programs over
      atomic accesses and its rules.  [OlcTree], [OlcSurgery], [OlcWalk]:
      the tree over addresses, what the changes of nodes do to it,
      and where a key leads in it.  [OlcInv], [OlcFacts], [OlcSteps], [OlcEdit],
      [OlcChanges]: the invariant with its ghost state, what a thread knows that
      others cannot spoil, and every kind of change.  [OlcGet], [OlcInsert],
      [OlcRemove]: each operation in the logic; [OlcPositions], [OlcScan]: what
      a position of a node gives, with lookups that prefixes change under, and the
      iterator and the scans in the logic;
      [OlcPool]: all threads together.
    - [OlcClear]: what a program does that no other thread disturbs, deletion, and
      the index while no call is in flight.  [OlcSolo]: lookups and scans then.
      [OlcCounters], [OlcCount]: what the nodes amount to, that every operation
      counts what it allocates and gives up, and that the counters lag behind by no
      more than the calls in flight have yet to count.
    - [Samples]: concrete inputs for the witnesses.  [NodeTheorems],
      [CodecTheorems], [ScanTheorems], [LockTheorems],
      [QsbrTheorems], [QsbrPtrTheorems], [MutexTheorems], [OlcTheorems],
      [DbTheorems], [Findings]: the properties.

    ** What the theorems show

    - [DbTheorems]: any sequence of calls over integer keys answers as a finite
      map does, with a reliable allocator and with one that may fail at any
      call (each call then either answers or throws and leaves the map as it
      was); every operation on every branch, for view keys under their stated
      contract; exact counters after any sequence of calls; clear and the
      destructor take every node out of them.
    - [ScanTheorems]: a scan visits every entry once and in order, forward or
      in reverse, until told to stop; scans from a key and over a range; next
      and prior undo each other.
    - [NodeTheorems]: search, insertion, removal, growth, shrinking and
      iteration of the four node types.  [CodecTheorems]: the order of keys,
      prefixes, what the encoder writes and how that compares, round trips.
    - [LockTheorems]: optimistic reads are consistent, writers exclusive,
      obsolescence final.
    - [QsbrTheorems]: nothing is freed while another thread may hold it, no
      request is lost or executed twice, the word counts the threads.
    - [QsbrPtrTheorems]: the pointers registered with a thread are those its
      live objects hold, so that the assertions of quiescent and pause fail
      exactly when one is held; a loop over a span visits its elements and
      leaves nothing registered.
    - [MutexTheorems]: the index behind a mutex behaves as if one thread made
      the calls in turn; a value handed out with its guard stays in the index.
    - [OlcTheorems]: all of it for executions of the index with optimistic lock
      coupling whose calls have integer keys, with any allocation failures.
      Histories are linearizable as long as no removal puts a prefix before that of
      a node while a lookup is in flight; [OlcLost]: without that proviso a lookup
      can miss a stored key.  The others do not need the proviso.  Histories without
      the lookups are those of an atomic index with the bindings of the leaves;
      every binding that a scan shows was in the index at a moment of the scan;
      no access is undefined; waiting threads do not wait for each other; nodes
      are retired once and none leaks; the counters are exact whenever no call is in
      flight; then clear and the destructor end and release every node once, and
      lookups and scans that no other thread disturbs end and do what those of the
      single-threaded index do.
    - [Findings], and the last theorem of [QsbrTheorems]: where the code does
      not do what it means to, by concrete executions that show what can happen.

    ** Modelling decisions

    - Release-build semantics: assertions are compiled out, and what they guard
      against is undefined behaviour ([None], or [UB] in the monad) where the
      code would then read or write out of range.  The single-threaded index is
      modelled with its statistics and, for the failure injector, as in the
      build that tests allocation failures; the lock and the reclamation in the
      release build without statistics; [QsbrPtr], whose code is for debug
      builds, in the debug build, with addresses that do not wrap around.
    - The x86-64 build with SSE 4.2 and the portable build are both modelled
      where they differ (parameter [Target]); AVX2 and aarch64 are not.
    - Addresses are not modelled: a tree is a value, a slot update is a new
      value, and children that a node gives up are returned to the caller that
      deletes them.  What posix_memalign answers is a parameter of the model.
    - Loops whose recursion is not structural take fuel, and the theorems show
      that it is enough: the key size plus one for the descent of get, insert,
      remove and seek (a node consumes at least one key byte); the height of
      the tree for traversals and deletion; the length of the stack plus one
      for next and prior; the number of leaves plus one for scans.  They are
      statements of termination with an answer, not of partial correctness.
    - The caller's scan function is a function with its own state; it does not
      throw and does not change the index.  The growth of the iterator's
      std::stack, of the reclamation's request vectors and its list nodes is
      taken not to fail.
    - Threads interleave one atomic access at a time; atomics are sequentially
      consistent, so that fences do nothing; a weak compare-and-swap may fail
      spuriously.  Theorems about threads hold for all interleavings and any
      number of threads (up to max_qsbr_threads), over fewer than 2^62 steps,
      so that neither the lock's versions nor the 64-bit counters come round.
    - The index with optimistic lock coupling takes one step for a call on a
      lock, a load or store of a pointer, an update of a counter, or a method of a
      node that reads or changes the node.  A leaf never changes, so that a pointer
      to it carries what it holds: reading the key or the value of the leaf an
      iterator stands at is no step of its own.  Releasing a node and handing it to
      the reclamation are defined only where a node of the pointer's kind is.  Any
      step may find the memory exhausted where it allocates.  Programs may restart
      for ever; the theorems hold at every moment of every execution, for any
      number of threads.
    - clear and the destructor of that index are only for a thread that has it to
      itself: a call of clear is one event, possible while no call is in flight, in
      which the whole of its program runs ([OlcSystem.alone]).  The recursion of the
      deletion has the number of nodes in memory as fuel, which no path exceeds, and
      five steps are given for each node, of which it takes at most four.
    - The caller's function of a concurrent scan is a function with its own state;
      the threads of [OlcSystem] collect what they are shown and stop when they
      like.  A scan is no atomic operation: the atomic index shows it bindings one
      at a time, while other calls take effect, and says nothing of those it leaves
      out ([Findings] has scans that go astray).
    - A retired node stays in memory and its address is not given out again: that
      is what the reclamation is for ([QsbrTheorems]), and the two are not composed.

    ** Not modelled

    - Of [src/olc_art.hpp]: test_only_iterator and dumping.  View keys are
      translated but the theorems are about integer keys.
    - The statistics of the reclamation (Boost accumulators), its thread-local
      instance and thread wrapper.
    - Dumping to streams, assertion and portability macros, and the test,
      benchmark, fuzzing and example programs. *)

From stdpp Require Export prelude list list_numbers gmap.
From Stdlib Require Export ZArith Lia.


Declare Scope unodb_scope.
Delimit Scope unodb_scope with unodb.
#[global] Open Scope Z_scope.
#[global] Open Scope unodb_scope.

(** ** Proof automation shared by every component *)

Create HintDb unodb.
#[export] Hint Extern 5 (_ ≤ _) => lia : unodb.
#[export] Hint Extern 5 (_ < _) => lia : unodb.
#[export] Hint Extern 5 (_ <= _)%nat => lia : unodb.
#[export] Hint Extern 5 (_ < _)%nat => lia : unodb.

(** Destruct every existential and conjunction of the context. *)
Ltac deex :=
  repeat match goal with
    | H : ∃ x, _ |- _ => let x' := fresh x in destruct H as [x' H]
    | H : _ ∧ _ |- _ => destruct H
    end.

(** Case analysis on boolean tests on integers, with the test as hypothesis. *)
Ltac zcase :=
  match goal with
  | |- context [Z.eqb ?a ?b] => destruct (Z.eqb_spec a b)
  | |- context [Z.ltb ?a ?b] => destruct (Z.ltb_spec a b)
  | |- context [Z.leb ?a ?b] => destruct (Z.leb_spec a b)
  | |- context [Nat.eqb ?a ?b] => destruct (Nat.eqb_spec a b)
  | |- context [Nat.ltb ?a ?b] => destruct (Nat.ltb_spec a b)
  | |- context [Nat.leb ?a ?b] => destruct (Nat.leb_spec a b)
  end.

Ltac zcases := repeat (zcase; try lia).

(** ** Lists *)

Section lists.
Context {A : Type}.
Implicit Types l : list A.

Lemma lookup_take_Some (l : list A) (n i : nat) (x : A) :
  take n l !! i = Some x ↔ l !! i = Some x ∧ (i < n)%nat.
Proof.
  destruct (decide (i < n)%nat).
  - rewrite lookup_take_lt by done. naive_solver.
  - rewrite lookup_take_ge by lia. naive_solver lia.
Qed.
End lists.

Lemma NoDup_omap_inj {A B} (f : A → option B) (l : list A) :
  NoDup l → (∀ x y z, f x = Some z → f y = Some z → x = y) → NoDup (omap f l).
Proof.
  intros Hl Hf. induction Hl as [|x l Hx Hl IH]; [constructor|]. cbn.
  destruct (f x) as [z|] eqn:E; [|done]. constructor; [|done].
  intros (y & Hy & Hfy)%list_elem_of_omap. by rewrite (Hf x y z E Hfy) in Hx.
Qed.

Lemma take_take_le {A} (l : list A) i n : (i ≤ n)%nat → take i (take n l) = take i l.
Proof. intros. rewrite take_take. f_equal. lia. Qed.

(** Filtering a list is filtering its positions. *)
Lemma filter_seq_lookup {A} `{Inhabited A} (Q : A → Prop) `{!∀ x, Decision (Q x)} (l : list A) :
  filter Q l = (λ i, l !!! i) <$> filter (λ i, Q (l !!! i)) (seq 0 (length l)).
Proof.
  induction l as [|x l IH]; [done|]. cbn [length seq]. rewrite <- fmap_S_seq, filter_cons.
  assert (Hrec : (λ i, (x :: l) !!! i) <$> filter (λ i, Q ((x :: l) !!! i)) (S <$> seq 0 (length l)) = filter Q l).
  { rewrite IH. clear IH. generalize (seq 0 (length l)). intros js. induction js as [|j js IH]; [done|]. cbn [fmap list_fmap].
    rewrite !filter_cons. simpl. case_decide; cbn [fmap list_fmap]; [f_equal|]; exact IH. }
  rewrite filter_cons. simpl. case_decide; cbn [fmap list_fmap]; rewrite Hrec; done.
Qed.
