(* ===== verification/Words.v ===== *)
(** Machine words: fixed-width unsigned integers as [Z] with their wrap-around
    written out, their little-endian bytes, and the bit-counting builtins. *)

From S2P Require Import Prelude.

(** ** Bytes and words *)

(** A value of [std::byte] or [std::uint8_t]. *)
Definition is_byte (b : Z) : Prop := 0 ≤ b < 256.

#[export] Instance is_byte_dec b : Decision (is_byte b).
Proof. unfold is_byte. apply _. Defined.

(** A byte string: the contents of a key or of a value. *)
Definition is_bytes (l : list Z) : Prop := Forall is_byte l.

#[export] Instance is_bytes_dec l : Decision (is_bytes l).
Proof. unfold is_bytes. apply _. Defined.

(** Conversion to an unsigned type of [w] bits. *)
Definition wrap (w z : Z) : Z := z mod 2 ^ w.
Abbreviation wrap8 := (wrap 8).
Abbreviation wrap16 := (wrap 16).
Abbreviation wrap32 := (wrap 32).
Abbreviation wrap64 := (wrap 64).

(** Conversion of a [w]-bit pattern to the signed type of the same width. *)
Definition swrap (w z : Z) : Z := (z + 2 ^ (w - 1)) mod 2 ^ w - 2 ^ (w - 1).

Lemma wrap_small w z : 0 ≤ z < 2 ^ w → wrap w z = z.
Proof. apply Z.mod_small. Qed.

Lemma wrap_range w z : 0 ≤ w → 0 ≤ wrap w z < 2 ^ w.
Proof. intros. apply Z.mod_pos_bound, Z.pow_pos_nonneg; lia. Qed.

Lemma wrap_wrap w z : wrap w (wrap w z) = wrap w z.
Proof. unfold wrap. destruct (decide (2 ^ w = 0)) as [->|]; [by rewrite !Z.mod_0_r|]. by rewrite Zmod_mod. Qed.

Lemma swrap_small w z : 0 < w → - 2 ^ (w - 1) ≤ z < 2 ^ (w - 1) → swrap w z = z.
Proof.
  intros Hw Hz. unfold swrap.
  assert (2 ^ w = 2 * 2 ^ (w - 1)).
  { rewrite <- Z.pow_succ_r by lia. f_equal. lia. }
  rewrite Z.mod_small; lia.
Qed.

(** The byte at index [i] of the object representation of a little-endian
    integer [w]. *)
Definition byte_at (w : Z) (i : nat) : Z := Z.land (w ≫ (8 * Z.of_nat i)) 255.

(** The object representation of an integer of [n] bytes (little-endian), and
    the integer with a given object representation ([std::memcpy]). *)
Definition le_bytes (n : nat) (w : Z) : list Z := byte_at w <$> seq 0 n.

#[global] Arguments byte_at : simpl never.
#[global] Arguments le_bytes : simpl never.

Fixpoint le_word (l : list Z) : Z :=
  match l with
  | [] => 0
  | b :: l' => b + 256 * le_word l'
  end.

Lemma byte_at_div w i : byte_at w i = (w / 2 ^ (8 * Z.of_nat i)) mod 256.
Proof.
  unfold byte_at. change 255 with (Z.ones 8).
  rewrite Z.land_ones, Z.shiftr_div_pow2 by lia. done.
Qed.

Lemma byte_at_is_byte w i : is_byte (byte_at w i).
Proof. rewrite byte_at_div. apply Z.mod_pos_bound. lia. Qed.

Lemma testbit_byte_at w i j :
  0 ≤ j →
  Z.testbit (byte_at w i) j = bool_decide (j < 8) && Z.testbit w (8 * Z.of_nat i + j).
Proof.
  intros Hj. unfold byte_at. rewrite Z.land_spec, Z.shiftr_spec by lia.
  change 255 with (Z.ones 8).
  case_bool_decide.
  - rewrite Z.ones_spec_low by lia. rewrite andb_true_r, andb_true_l. f_equal. lia.
  - rewrite Z.ones_spec_high by lia. by rewrite andb_false_r.
Qed.

Lemma byte_at_eq_bits w1 w2 i :
  byte_at w1 i = byte_at w2 i ↔
  ∀ j, 0 ≤ j < 8 → Z.testbit w1 (8 * Z.of_nat i + j) = Z.testbit w2 (8 * Z.of_nat i + j).
Proof.
  split.
  - intros Heq j Hj. pose proof (f_equal (λ z, Z.testbit z j) Heq) as Hb. simpl in Hb.
    rewrite !testbit_byte_at in Hb by lia.
    rewrite !bool_decide_eq_true_2 in Hb by lia. done.
  - intros Hbits. apply Z.bits_inj'. intros j Hj.
    rewrite !testbit_byte_at by lia. case_bool_decide; [|done]. by rewrite Hbits by lia.
Qed.

Lemma byte_at_lor w1 w2 i : byte_at (Z.lor w1 w2) i = Z.lor (byte_at w1 i) (byte_at w2 i).
Proof. unfold byte_at. by rewrite Z.shiftr_lor, Z.land_lor_distr_l. Qed.

Lemma byte_at_0 i : byte_at 0 i = 0.
Proof. unfold byte_at. by rewrite Z.shiftr_0_l, Z.land_0_l. Qed.

Lemma byte_at_shiftr w (n i : nat) :
  byte_at (w ≫ (8 * Z.of_nat n)) i = byte_at w (n + i).
Proof. unfold byte_at. rewrite Z.shiftr_shiftr by lia. do 2 f_equal. lia. Qed.

Lemma byte_at_shiftl_ge w (n i : nat) :
  (n ≤ i)%nat → byte_at (w ≪ (8 * Z.of_nat n)) i = byte_at w (i - n).
Proof.
  intros. unfold byte_at. rewrite Z.shiftr_shiftl_r by lia. do 2 f_equal. lia.
Qed.

Lemma byte_at_shiftl_lt w (n i : nat) :
  (i < n)%nat → byte_at (w ≪ (8 * Z.of_nat n)) i = 0.
Proof.
  intros. apply Z.bits_inj'. intros j Hj. rewrite testbit_byte_at, Z.bits_0 by lia.
  case_bool_decide; [|done]. rewrite Z.shiftl_spec_low by lia. done.
Qed.

Lemma byte_at_ones w (n i : nat) :
  byte_at (Z.land w (Z.ones (8 * Z.of_nat n))) i = if decide (i < n)%nat then byte_at w i else 0.
Proof.
  apply Z.bits_inj'. intros j Hj. rewrite testbit_byte_at, Z.land_spec by lia.
  case_decide.
  - rewrite testbit_byte_at by lia. case_bool_decide; [|done].
    rewrite Z.ones_spec_low by lia. by rewrite andb_true_r.
  - rewrite Z.bits_0. case_bool_decide; [|done].
    rewrite Z.ones_spec_high by lia. by rewrite andb_false_r.
Qed.

Lemma byte_at_cons b w i :
  is_byte b →
  byte_at (b + 256 * w) i = match i with O => b | S i' => byte_at w i' end.
Proof.
  unfold is_byte. intros Hb. rewrite byte_at_div. destruct i as [|i].
  - simpl. rewrite Z.div_1_r. Z.div_mod_to_equations. lia.
  - rewrite byte_at_div.
    replace (2 ^ (8 * Z.of_nat (S i))) with (256 * 2 ^ (8 * Z.of_nat i)).
    2:{ change 256 with (2 ^ 8). rewrite <- Z.pow_add_r by lia. f_equal. lia. }
    rewrite <- Z.div_div by lia. do 2 f_equal. Z.div_mod_to_equations. lia.
Qed.

Lemma byte_at_le_word l i : is_bytes l → byte_at (le_word l) i = default 0 (l !! i).
Proof.
  intros Hl. revert i. induction Hl as [|b l Hb Hl IH]; intros i; simpl le_word.
  - rewrite byte_at_0. done.
  - rewrite byte_at_cons by done. destruct i; [done|]. by rewrite IH.
Qed.

Lemma le_word_range l : is_bytes l → 0 ≤ le_word l < 2 ^ (8 * Z.of_nat (length l)).
Proof.
  unfold is_bytes, is_byte. induction 1 as [|b l Hb Hl IH]; simpl le_word; [done|].
  simpl length. replace (2 ^ (8 * Z.of_nat (S (length l))))
    with (256 * 2 ^ (8 * Z.of_nat (length l))); [lia|].
  change 256 with (2 ^ 8). rewrite <- Z.pow_add_r by lia. f_equal. lia.
Qed.

Lemma length_le_bytes n w : length (le_bytes n w) = n.
Proof. unfold le_bytes. by rewrite length_fmap, length_seq. Qed.

Lemma lookup_le_bytes n w i : (i < n)%nat → le_bytes n w !! i = Some (byte_at w i).
Proof. intros. unfold le_bytes. rewrite list_lookup_fmap, lookup_seq_lt by done. done. Qed.

Lemma le_bytes_is_bytes n w : is_bytes (le_bytes n w).
Proof. apply Forall_fmap, Forall_true. intros. apply byte_at_is_byte. Qed.

#[export] Hint Resolve le_bytes_is_bytes byte_at_is_byte : unodb.

Lemma word_ext (n : nat) w1 w2 :
  0 ≤ w1 < 2 ^ (8 * Z.of_nat n) → 0 ≤ w2 < 2 ^ (8 * Z.of_nat n) →
  (∀ i, (i < n)%nat → byte_at w1 i = byte_at w2 i) → w1 = w2.
Proof.
  intros H1 H2 Heq. apply Z.bits_inj'. intros j Hj.
  destruct (decide (j < 8 * Z.of_nat n)).
  - assert (Hd : j = 8 * Z.of_nat (Z.to_nat (j / 8)) + j mod 8).
    { rewrite Z2Nat.id by (apply Z.div_pos; lia). apply Z.div_mod. lia. }
    rewrite Hd. apply byte_at_eq_bits.
    + apply Heq. enough (j / 8 < Z.of_nat n) by lia. apply Z.div_lt_upper_bound; lia.
    + apply Z.mod_pos_bound. lia.
  - rewrite <- (Z.mod_small w1 (2 ^ (8 * Z.of_nat n))) by done.
    rewrite <- (Z.mod_small w2 (2 ^ (8 * Z.of_nat n))) by done.
    rewrite !Z.mod_pow2_bits_high by lia. done.
Qed.

Lemma le_bytes_le_word l : is_bytes l → le_bytes (length l) (le_word l) = l.
Proof.
  intros Hl. apply list_eq_same_length with (length l); [done|apply length_le_bytes|].
  intros i x y Hi Hx Hy. rewrite lookup_le_bytes in Hx by done.
  rewrite byte_at_le_word, Hy in Hx by done. by simplify_eq.
Qed.

Lemma le_word_le_bytes n w : 0 ≤ w < 2 ^ (8 * Z.of_nat n) → le_word (le_bytes n w) = w.
Proof.
  intros Hw. apply (word_ext n); [|done|].
  - pose proof (le_word_range (le_bytes n w)) as Hr. rewrite length_le_bytes in Hr.
    auto with unodb.
  - intros i Hi. rewrite byte_at_le_word by auto with unodb. by rewrite lookup_le_bytes.
Qed.

(** [__builtin_bswap16/32/64]: reverse the order of the [n] bytes of [x].
    [src/portability_builtins.hpp:23-55] bswap *)
Definition bswap (n : nat) (x : Z) : Z := le_word (reverse (le_bytes n x)).

Lemma is_bytes_reverse l : is_bytes l → is_bytes (reverse l).
Proof. unfold is_bytes. by rewrite Forall_reverse. Qed.
#[export] Hint Resolve is_bytes_reverse : unodb.

Lemma le_bytes_bswap n x : le_bytes n (bswap n x) = reverse (le_bytes n x).
Proof.
  unfold bswap.
  pose proof (le_bytes_le_word (reverse (le_bytes n x))) as Hl.
  rewrite length_reverse, length_le_bytes in Hl. auto with unodb.
Qed.

Lemma bswap_range n x : 0 ≤ bswap n x < 2 ^ (8 * Z.of_nat n).
Proof.
  unfold bswap. pose proof (le_word_range (reverse (le_bytes n x))) as Hr.
  rewrite length_reverse, length_le_bytes in Hr. auto with unodb.
Qed.

Lemma bswap_involutive n x : 0 ≤ x < 2 ^ (8 * Z.of_nat n) → bswap n (bswap n x) = x.
Proof.
  intros. unfold bswap at 1. rewrite le_bytes_bswap, reverse_involutive.
  by apply le_word_le_bytes.
Qed.

(** ** Bit counting *)

Fixpoint pos_ctz (p : positive) : nat :=
  match p with
  | xO p' => S (pos_ctz p')
  | _ => 0
  end.

(** [std::countr_zero] on an unsigned integer of [w] bits. *)
Definition countr_zero (w : nat) (x : Z) : nat :=
  match x with
  | Zpos p => pos_ctz p
  | _ => w
  end.

Fixpoint pos_popcount (p : positive) : nat :=
  match p with
  | xH => 1
  | xO p' => pos_popcount p'
  | xI p' => S (pos_popcount p')
  end.

(** [std::popcount] *)
Definition popcount (x : Z) : nat :=
  match x with
  | Zpos p => pos_popcount p
  | _ => 0
  end.

(** [std::bit_ceil] on [std::size_t]: the least power of two not below [x]. *)
Definition bit_ceil (x : Z) : Z := if x <=? 1 then 1 else 2 ^ Z.log2_up x.

Lemma countr_zero_spec w x :
  0 < x →
  Z.testbit x (Z.of_nat (countr_zero w x)) = true ∧
  ∀ j, 0 ≤ j < Z.of_nat (countr_zero w x) → Z.testbit x j = false.
Proof.
  intros Hx. destruct x as [|p|p]; [lia| |lia]. simpl. clear Hx.
  induction p as [p IH|p IH|]; simpl pos_ctz.
  - split; [done|lia].
  - destruct IH as [IH1 IH2]. rewrite Pos2Z.inj_xO, Nat2Z.inj_succ. split.
    + rewrite Z.testbit_even_succ by lia. done.
    + intros j Hj. destruct (decide (j = 0)) as [->|]; [done|].
      replace j with (Z.succ (j - 1)) by lia. rewrite Z.testbit_even_succ by lia.
      apply IH2. lia.
  - split; [done|lia].
Qed.

Lemma countr_zero_unique w x n :
  0 ≤ x → Z.testbit x (Z.of_nat n) = true →
  (∀ j, 0 ≤ j < Z.of_nat n → Z.testbit x j = false) → countr_zero w x = n.
Proof.
  intros Hx Hn Hlow.
  assert (0 < x) as Hpos. { destruct (decide (x = 0)) as [->|]; [|lia]. by rewrite Z.bits_0 in Hn. }
  destruct (countr_zero_spec w x Hpos) as [Ht Hl].
  destruct (lt_eq_lt_dec (countr_zero w x) n) as [[|]|]; [|done|].
  - rewrite Hlow in Ht by lia. done.
  - rewrite Hl in Hn by lia. done.
Qed.

Lemma bit_ceil_spec x :
  0 ≤ x → x ≤ bit_ceil x ∧ (1 < x → bit_ceil x < 2 * x) ∧ ∃ k, 0 ≤ k ∧ bit_ceil x = 2 ^ k.
Proof.
  intros Hx. unfold bit_ceil. zcases.
  - split_and!; [lia|lia|]. by exists 0.
  - pose proof (Z.log2_up_spec x ltac:(lia)) as [Hlo Hhi].
    split_and!; [done| |eexists; split; [|done]; apply Z.log2_up_nonneg].
    intros _. replace (Z.log2_up x) with (Z.succ (Z.pred (Z.log2_up x))) by lia.
    rewrite Z.pow_succ_r; [lia|]. pose proof (Z.log2_up_pos x). lia.
Qed.

Lemma byte_at_wrap64 w (i : nat) : byte_at (wrap64 w) i = if decide (i < 8)%nat then byte_at w i else 0.
Proof.
  replace (wrap64 w) with (Z.land w (Z.ones (8 * Z.of_nat 8))) by (by rewrite Z.land_ones).
  apply byte_at_ones.
Qed.

Lemma shiftl_1_ones n : 0 ≤ n → (1 ≪ n) - 1 = Z.ones n.
Proof. intros. unfold Z.ones. lia. Qed.

Lemma byte_at_small b i : is_byte b → byte_at b i = if decide (i = 0%nat) then b else 0.
Proof.
  intros Hb. replace b with (b + 256 * 0) at 1 by lia. rewrite byte_at_cons by done.
  destruct i; case_decide; try done. apply byte_at_0.
Qed.

Lemma wrap64_lor a b : wrap64 (Z.lor a b) = Z.lor (wrap64 a) (wrap64 b).
Proof. unfold wrap. rewrite <- !Z.land_ones by lia. apply Z.land_lor_distr_l. Qed.

Lemma lor_range n a b : 0 ≤ n → 0 ≤ a < 2 ^ n → 0 ≤ b < 2 ^ n → 0 ≤ Z.lor a b < 2 ^ n.
Proof.
  intros Hn Ha Hb. replace (Z.lor a b) with (Z.lor a b mod 2 ^ n).
  - apply Z.mod_pos_bound. lia.
  - rewrite <- Z.land_ones, Z.land_lor_distr_l, !Z.land_ones, !Z.mod_small by lia. done.
Qed.

Lemma land_range n a b : 0 ≤ n → 0 ≤ b < 2 ^ n → 0 ≤ Z.land a b < 2 ^ n.
Proof.
  intros Hn Hb. replace (Z.land a b) with (Z.land a b mod 2 ^ n).
  - apply Z.mod_pos_bound. lia.
  - rewrite <- !Z.land_ones, <- Z.land_assoc, (Z.land_ones b), (Z.mod_small b) by lia. done.
Qed.
