(* ===== verification/ArtKey.v ===== *)
(** Binary-comparable keys: [compare], [get_u64], [basic_art_key] and
    [tree_depth] of [art_internal.hpp], with the lexicographic order on byte
    strings that the rest of the development uses as their specification. *)

From S2P Require Import Prelude Words.

(** ** Lexicographic order on byte strings (specification) *)

Fixpoint lex (a b : list Z) : comparison :=
  match a, b with
  | [], [] => Eq
  | [], _ :: _ => Lt
  | _ :: _, [] => Gt
  | x :: a', y :: b' => match x ?= y with Eq => lex a' b' | c => c end
  end.

Definition lex_lt (a b : list Z) : Prop := lex a b = Lt.

(** [diverge a b n]: the two keys agree on exactly their first [n] bytes, and
    both have a byte after them. *)
Definition diverge (a b : list Z) (n : nat) : Prop :=
  take n a = take n b ∧ ∃ x y, a !! n = Some x ∧ b !! n = Some y ∧ x ≠ y.

(** Neither key is a prefix of the other: the contract of the index. *)
Definition prefix_free (a b : list Z) : Prop := ∃ n, diverge a b n.

(** Length of the longest common prefix. *)
Fixpoint lcp (a b : list Z) : nat :=
  match a, b with
  | x :: a', y :: b' => if x =? y then S (lcp a' b') else 0
  | _, _ => 0
  end.

(** ** Comparison of byte strings *)

(** The sign of [std::memcmp] on the first [n] bytes. *)
Fixpoint memcmp (n : nat) (a b : list Z) : Z :=
  match n, a, b with
  | S n', x :: a', y :: b' => if x <? y then -1 else if y <? x then 1 else memcmp n' a' b'
  | _, _, _ => 0
  end.

(** [src/art_internal.hpp:41-68] compare *)
Definition compare (a b : list Z) : Z :=
  let alen := length a in
  let blen := length b in
  let shared_length := Nat.min alen blen in
  let ret := memcmp shared_length a b in
  if negb (ret =? 0) then ret
  else if (alen =? blen)%nat then 0 else if (alen <? blen)%nat then -1 else 1.

(** First 64 bits of an encoded key, zero padded ([std::memcpy] into a zeroed
    [std::uint64_t]).
    [src/art_internal.hpp:70-80] get_u64 *)
Definition get_u64_view (key : list Z) : Z := le_word (take (Nat.min (length key) 8) key).

(** ** [basic_art_key] *)

(** A [key_view]: the address it points to and the bytes there. *)
Record span := Span { span_data : Z; span_bytes : list Z }.

Definition subspan (s : span) (n : nat) : span :=
  Span (span_data s + Z.of_nat n) (drop n (span_bytes s)).

(** [basic_art_key<std::uint64_t>] and [basic_art_key<key_view>]: the two
    branches of every [if constexpr] of the class.
    [src/art_internal.hpp:239-251] basic_art_key *)
Inductive art_key :=
  | KInt (key : Z)
  | KView (key : span).

(** [src/art_internal.hpp:107-117] make_binary_comparable *)
Definition make_binary_comparable (k : Z) : Z := bswap 8 k.

(** The constructor from a fixed-width integer.
    [src/art_internal.hpp:120-126] basic_art_key(KeyType) *)
Definition art_key_of_int (key : Z) : art_key := KInt (make_binary_comparable key).

(** The constructor from a key view. *)
Definition art_key_of_view (key : span) : art_key := KView key.

(** [src/art_internal.hpp:184-190] get_key_view *)
Definition get_key_view (k : art_key) : list Z :=
  match k with
  | KView s => span_bytes s
  | KInt key => le_bytes 8 key
  end.

(** The object representation of a [key_view]: its pointer, then its size. *)
Definition span_repr (s : span) : list Z :=
  le_bytes 8 (span_data s) ++ le_bytes 8 (Z.of_nat (length (span_bytes s))).

(** Comparison of two keys of the same type.  For [key_view] keys the code
    compares the object representations of the views.
    [src/art_internal.hpp:133-143] cmp(basic_art_key) *)
Definition cmp_key (k key2 : art_key) : option Z :=
  match k, key2 with
  | KView s, KView s2 => Some (compare (span_repr s) (span_repr s2))
  | KInt key, KInt key2 => Some (memcmp 8 (le_bytes 8 key) (le_bytes 8 key2))
  | _, _ => None
  end.

(** Comparison with a key view.
    [src/art_internal.hpp:145-156] cmp(key_view) *)
Definition cmp (k : art_key) (key2 : list Z) : Z :=
  match k with
  | KView s => compare (span_bytes s) key2
  | KInt key => compare (le_bytes 8 key) key2
  end.

(** [None] is an access past the end of the key.
    [src/art_internal.hpp:158-171] operator[] *)
Definition index (k : art_key) (i : nat) : option Z :=
  match k with
  | KView s => span_bytes s !! i
  | KInt key => if (i <? 8)%nat then Some (byte_at key i) else None
  end.

(** [src/art_internal.hpp:193-205] get_u64 *)
Definition get_u64 (k : art_key) : Z :=
  match k with
  | KView s => get_u64_view (span_bytes s)
  | KInt key => key
  end.

(** [None] is the undefined behaviour of a [subspan] past the end, or of a
    shift by the full width of the integer.
    [src/art_internal.hpp:207-226] shift_right *)
Definition shift_right (k : art_key) (num_bytes : nat) : option art_key :=
  match k with
  | KView s =>
      if (num_bytes <=? length (span_bytes s))%nat then Some (KView (subspan s num_bytes))
      else None
  | KInt key =>
      if (num_bytes * 8 <? 64)%nat then Some (KInt (key ≫ (8 * Z.of_nat num_bytes))) else None
  end.

(** [src/art_internal.hpp:228-237] size *)
Definition key_size_of (k : art_key) : nat :=
  match k with
  | KView s => length (span_bytes s)
  | KInt _ => 8
  end.

(** ** [tree_depth]: a 32-bit counter of consumed key bytes *)

(** [src/art_internal.hpp:286-287] tree_depth *)
Definition tree_depth := Z.

(** [src/art_internal.hpp:302-308] operator++ *)
Definition depth_inc (d : tree_depth) : tree_depth := wrap32 (d + 1).

(** [src/art_internal.hpp:310-312] operator+= *)
Definition depth_add (d : tree_depth) (delta : Z) : tree_depth := wrap32 (d + delta).

(** ** Well-formed keys *)

Definition key_wf (k : art_key) : Prop :=
  match k with
  | KInt key => 0 ≤ key < 2 ^ 64
  | KView s => is_bytes (span_bytes s)
  end.

(** What is left of a key once its first [d] bytes are consumed. *)
Definition shifted (k : art_key) (d : nat) : art_key :=
  match k with
  | KInt key => KInt (key ≫ (8 * Z.of_nat d))
  | KView s => KView (subspan s d)
  end.

(** ** Lemmas: order *)

Lemma lex_refl a : lex a a = Eq.
Proof. induction a as [|x a IH]; simpl; [done|]. by rewrite Z.compare_refl. Qed.

Lemma lex_eq a b : lex a b = Eq → a = b.
Proof.
  revert b. induction a as [|x a IH]; intros [|y b]; simpl; try done.
  destruct (Z.compare_spec x y) as [->| |]; [|done|done]. intros. f_equal. by apply IH.
Qed.

Lemma lex_antisym a b : lex b a = CompOpp (lex a b).
Proof.
  revert b. induction a as [|x a IH]; intros [|y b]; simpl; try done.
  rewrite (Z.compare_antisym x y). by destruct (x ?= y); simpl.
Qed.

Lemma lex_lt_irrefl a : ¬ lex_lt a a.
Proof. unfold lex_lt. by rewrite lex_refl. Qed.

Lemma lex_lt_trans a b c : lex_lt a b → lex_lt b c → lex_lt a c.
Proof.
  unfold lex_lt. revert b c. induction a as [|x a IH]; intros [|y b] [|z c]; simpl; try done.
  destruct (Z.compare_spec x y), (Z.compare_spec y z); subst; try done; intros.
  - rewrite Z.compare_refl. by eapply IH.
  - by destruct (Z.compare_spec y z); [lia| |lia].
  - by destruct (Z.compare_spec x z); [lia| |lia].
  - by destruct (Z.compare_spec x z); [lia| |lia].
Qed.

Lemma lex_app_l p a b : lex (p ++ a) (p ++ b) = lex a b.
Proof. induction p as [|x p IH]; simpl; [done|]. by rewrite Z.compare_refl. Qed.

(** Keys that leave a common path by different bytes compare as those bytes. *)
Lemma lex_lt_branch p x y a b : x < y → lex_lt (p ++ x :: a) (p ++ y :: b).
Proof. intros. unfold lex_lt. rewrite lex_app_l. simpl. by destruct (Z.compare_spec x y); [lia| |lia]. Qed.

Lemma lex_lt_not_eq a b : lex_lt a b → a ≠ b.
Proof. intros H ->. by apply lex_lt_irrefl in H. Qed.

#[export] Instance lex_lt_dec a b : Decision (lex_lt a b).
Proof. unfold lex_lt. apply _. Defined.

(** ** Lemmas: [compare] is the lexicographic order *)

Definition comparison_sign (c : comparison) : Z :=
  match c with Lt => -1 | Eq => 0 | Gt => 1 end.

Lemma compare_nil_nil : compare [] [] = 0.
Proof. done. Qed.

Lemma compare_cons x y a b :
  compare (x :: a) (y :: b) = if x <? y then -1 else if y <? x then 1 else compare a b.
Proof. unfold compare. simpl. by zcases. Qed.

Lemma compare_lex a b : compare a b = comparison_sign (lex a b).
Proof.
  revert b. induction a as [|x a IH]; intros [|y b]; [done..|].
  rewrite compare_cons, IH. simpl.
  zcases; destruct (Z.compare_spec x y); try lia; done.
Qed.

Lemma compare_zero a b : compare a b = 0 ↔ a = b.
Proof.
  rewrite compare_lex. split.
  - intros H. apply lex_eq. by destruct (lex a b).
  - intros ->. by rewrite lex_refl.
Qed.

Lemma compare_neg a b : compare a b < 0 ↔ lex_lt a b.
Proof. rewrite compare_lex. unfold lex_lt. destruct (lex a b); simpl; split; (done || lia). Qed.

Lemma compare_pos a b : compare a b > 0 ↔ lex_lt b a.
Proof. rewrite compare_lex. unfold lex_lt. rewrite (lex_antisym a b). destruct (lex a b); simpl; split; (done || lia). Qed.

Lemma cmp_compare k l : cmp k l = compare (get_key_view k) l.
Proof. by destruct k. Qed.

(** ** Lemmas: keys as byte strings *)

Lemma length_get_key_view k : length (get_key_view k) = key_size_of k.
Proof. destruct k; [apply length_le_bytes|done]. Qed.

(** Integer keys compare as their bytes do. *)
Lemma cmp_key_bytes a b : cmp_key (art_key_of_int a) (art_key_of_int b) =
  Some (comparison_sign (lex (get_key_view (art_key_of_int a)) (get_key_view (art_key_of_int b)))).
Proof.
  cbn [art_key_of_int cmp_key]. f_equal. rewrite <- compare_lex. unfold compare. rewrite !length_get_key_view.
  cbn [art_key_of_int key_size_of Nat.min Nat.eqb get_key_view]. by destruct (memcmp 8 _ _).
Qed.

Lemma get_key_view_is_bytes k : key_wf k → is_bytes (get_key_view k).
Proof. destruct k; simpl; auto with unodb. Qed.

(** Word and view of a fixed-width key agree with the big-endian reading of the
    application's integer. *)
Lemma get_key_view_of_int k : get_key_view (art_key_of_int k) = reverse (le_bytes 8 k).
Proof. unfold art_key_of_int, make_binary_comparable. simpl. apply le_bytes_bswap. Qed.

Lemma art_key_of_int_wf k : key_wf (art_key_of_int k).
Proof. apply (bswap_range 8). Qed.

Lemma shifted_0 k : shifted k 0 = k.
Proof.
  destruct k as [z|[a l]]; simpl; [by rewrite Z.shiftr_0_r|].
  unfold subspan; simpl. by rewrite drop_0, Z.add_0_r.
Qed.

Lemma shift_right_shifted k (d n : nat) :
  (d + n ≤ key_size_of k)%nat → (n < 8)%nat →
  shift_right (shifted k d) n = Some (shifted k (d + n)).
Proof.
  intros Hd Hn. destruct k as [z|[a l]]; simpl in *.
  - rewrite (proj2 (Nat.ltb_lt _ _)) by lia. rewrite Z.shiftr_shiftr by lia. do 3 f_equal. lia.
  - rewrite length_drop, (proj2 (Nat.leb_le _ _)) by lia. unfold subspan; simpl.
    rewrite drop_drop. do 3 f_equal. lia.
Qed.

Lemma index_shifted k (d i : nat) :
  (d + i < key_size_of k)%nat → (i < 8)%nat →
  index (shifted k d) i = get_key_view k !! (d + i)%nat.
Proof.
  intros Hd Hi. destruct k as [z|[a l]]; simpl in *.
  - rewrite (proj2 (Nat.ltb_lt _ _)) by lia. rewrite byte_at_shiftr, lookup_le_bytes by lia. done.
  - by rewrite lookup_drop.
Qed.

Lemma byte_at_get_u64_view l i :
  is_bytes l → byte_at (get_u64_view l) i = if decide (i < 8)%nat then default 0 (l !! i) else 0.
Proof.
  intros Hl. unfold get_u64_view. rewrite byte_at_le_word by (by apply Forall_take).
  destruct (decide (i < length l)%nat) as [Hi|Hi].
  - case_decide; [rewrite lookup_take_lt by lia; done|]. rewrite lookup_take_ge by lia. done.
  - rewrite lookup_take_ge by lia. rewrite (lookup_ge_None_2 l i) by lia. by case_decide.
Qed.

Lemma get_u64_view_range l : is_bytes l → 0 ≤ get_u64_view l < 2 ^ 64.
Proof.
  intros Hl. unfold get_u64_view.
  pose proof (le_word_range (take (Nat.min (length l) 8) l)) as Hr.
  rewrite length_take in Hr. specialize (Hr ltac:(by apply Forall_take)).
  split; [lia|]. eapply Z.lt_le_trans; [apply Hr|]. apply Z.pow_le_mono_r; lia.
Qed.

(** The first bytes of the word of a shifted key are the next bytes of the key,
    padded with zeros. *)
Lemma byte_at_get_u64_shifted k (d i : nat) :
  key_wf k → (i < 8)%nat →
  byte_at (get_u64 (shifted k d)) i = default 0 (get_key_view k !! (d + i)%nat).
Proof.
  intros Hk Hi. destruct k as [z|[a l]]; simpl in *.
  - rewrite byte_at_shiftr. destruct (decide (d + i < 8)%nat).
    + by rewrite lookup_le_bytes.
    + rewrite lookup_ge_None_2 by (rewrite length_le_bytes; lia). simpl.
      rewrite byte_at_div. rewrite Z.div_small; [done|]. split; [lia|].
      eapply Z.lt_le_trans; [apply Hk|]. apply Z.pow_le_mono_r; lia.
  - rewrite byte_at_get_u64_view by (by apply Forall_drop).
    rewrite decide_True by done. by rewrite lookup_drop.
Qed.

Lemma get_u64_shifted_range k d : key_wf k → 0 ≤ get_u64 (shifted k d) < 2 ^ 64.
Proof.
  destruct k as [z|[a l]]; simpl; intros Hk.
  - rewrite Z.shiftr_div_pow2 by lia. pose proof (Z.pow_pos_nonneg 2 (8 * Z.of_nat d) ltac:(lia) ltac:(lia)).
    split; [apply Z.div_pos; lia|]. apply Z.div_lt_upper_bound; [lia|]. nia.
  - apply get_u64_view_range. by apply Forall_drop.
Qed.

(** ** Lemmas: divergence of keys *)

Lemma diverge_sym a b n : diverge a b n → diverge b a n.
Proof. intros [Ht (x & y & Hx & Hy & Hne)]. split; [done|]. exists y, x. by split_and!. Qed.

Lemma prefix_free_sym a b : prefix_free a b → prefix_free b a.
Proof. intros [n Hn]. exists n. by apply diverge_sym. Qed.

Lemma diverge_lookup_lt a b n i : diverge a b n → (i < n)%nat → a !! i = b !! i.
Proof.
  intros [Ht _] Hi. rewrite <- (lookup_take_lt a n i), <- (lookup_take_lt b n i) by done. by rewrite Ht.
Qed.

Lemma diverge_length a b n : diverge a b n → (n < length a)%nat ∧ (n < length b)%nat.
Proof. intros [_ (x & y & Hx%lookup_lt_Some & Hy%lookup_lt_Some & _)]. done. Qed.

Lemma diverge_unique a b n n' : diverge a b n → diverge a b n' → n = n'.
Proof.
  intros Hn Hn'. destruct (Nat.lt_trichotomy n n') as [Hlt|[|Hlt]]; [|done|].
  - pose proof (diverge_lookup_lt _ _ _ _ Hn' Hlt) as Heq. destruct Hn as [_ (x & y & Hx & Hy & Hxy)].
    congruence.
  - pose proof (diverge_lookup_lt _ _ _ _ Hn Hlt) as Heq. destruct Hn' as [_ (x & y & Hx & Hy & Hxy)].
    congruence.
Qed.

(** Keys that share a path part after it. *)
Lemma diverge_prefix p a b n : p `prefix_of` a → p `prefix_of` b → diverge a b n → (length p ≤ n)%nat.
Proof.
  intros [a' ->] [b' ->] [_ (x & y & Hx & Hy & Hxy)]. destruct (decide (length p ≤ n)%nat) as [|Hn]; [done|].
  rewrite !lookup_app_l in Hx, Hy by lia. by simplify_eq.
Qed.

Lemma prefix_snoc (l p : list Z) b : take (length p) l = p → l !! length p = Some b → (p ++ [b]) `prefix_of` l.
Proof.
  intros Ht Hb. exists (drop (S (length p)) l). rewrite <- app_assoc. rewrite <- Ht at 1.
  symmetry. by apply take_drop_middle.
Qed.

Lemma diverge_ne a b n : diverge a b n → a ≠ b.
Proof. intros [_ (x & y & Hx & Hy & Hne)] ->. by simplify_eq. Qed.

(** Distinct strings of the same length are never prefixes of each other. *)
Lemma same_length_prefix_free a b : length a = length b → a ≠ b → prefix_free a b.
Proof.
  revert b. induction a as [|x a IH]; intros [|y b] Hlen Hne; simplify_eq/=.
  destruct (decide (x = y)) as [->|Hxy].
  - destruct (IH b) as [n [Ht (u & v & Hu & Hv & Huv)]]; [done|congruence|].
    exists (S n). split; [simpl; by rewrite Ht|]. by exists u, v.
  - exists 0%nat. split; [done|]. by exists x, y.
Qed.

(** The byte at which two keys part decides their order. *)
Lemma lex_diverge a b n x y : diverge a b n → a !! n = Some x → b !! n = Some y → lex a b = (x ?= y).
Proof.
  intros [Ht (x' & y' & Hx' & Hy' & Hne)] Hx Hy. rewrite Hx in Hx'. rewrite Hy in Hy'.
  injection Hx' as <-. injection Hy' as <-.
  rewrite <- (take_drop_middle _ _ _ Hx), <- (take_drop_middle _ _ _ Hy), Ht, lex_app_l. cbn.
  by destruct (Z.compare_spec x y).
Qed.
