(* ===== verification/KeyPrefix.v ===== *)
(** The compressed key prefix of an internal node: up to seven bytes and their
    number packed in one 64-bit word ([key_prefix] and [key_prefix_snapshot] of
    [art_internal_impl.hpp]). *)

From S2P Require Import Prelude Words ArtKey.

(** The word of the union: bytes 0-6 are [f.key_prefix], byte 7 is
    [f.key_prefix_length].
    [src/art_internal_impl.hpp:609-625] key_prefix *)
Definition key_prefix := Z.

(** [src/art_internal_impl.hpp:549-549] key_prefix_capacity *)
Definition key_prefix_capacity : nat := 7.

(** [src/art_internal_impl.hpp:728-728] key_bytes_mask *)
Definition key_bytes_mask : Z := 0x00FFFFFFFFFFFFFF.

(** [src/art_internal_impl.hpp:730-734] length_to_word *)
Definition length_to_word (length : nat) : Z := wrap64 (Z.of_nat length ≪ 56).

(** [src/art_internal_impl.hpp:736-743] shared_len *)
Definition shared_len (k1 k2 : Z) (clamp_byte_pos : nat) : nat :=
  let diff := Z.lxor k1 k2 in
  let clamped := Z.lor diff (wrap64 (1 ≪ (Z.of_nat clamp_byte_pos * 8))) in
  (countr_zero 64 clamped / 8)%nat.

(** [None] is the undefined behaviour of a [subspan] past the end of [k1].
    [src/art_internal_impl.hpp:745-753] make_u64 *)
Definition make_u64 (k1 : list Z) (shifted_k2 : art_key) (depth : tree_depth) : option Z :=
  if Z.of_nat (length k1) <? depth then None
  else
    let k1 := drop (Z.to_nat depth) k1 in
    let k1_u64 := Z.land (get_u64_view k1) key_bytes_mask in
    Some (Z.lor k1_u64
            (length_to_word (shared_len k1_u64 (get_u64 shifted_k2) key_prefix_capacity))).

(** The constructor that keeps the first bytes of another node's prefix.
    [src/art_internal_impl.hpp:634-639] key_prefix(unsigned, const key_prefix&) *)
Definition prefix_of_source (key_prefix_len : nat) (source_key_prefix : key_prefix) : key_prefix :=
  Z.lor (Z.land source_key_prefix key_bytes_mask) (length_to_word key_prefix_len).

(** [src/art_internal_impl.hpp:671-676] length *)
Definition prefix_length (w : key_prefix) : nat := Z.to_nat (byte_at w 7).

(** [src/art_internal_impl.hpp:645-659] get_shared_length *)
Definition get_shared_length (w : key_prefix) (shifted_key_u64 : Z) : nat :=
  shared_len shifted_key_u64 w (prefix_length w).

(** [src/art_internal_impl.hpp:678-686] cut *)
Definition cut (w : key_prefix) (cut_len : nat) : key_prefix :=
  Z.lor (Z.land (w ≫ (Z.of_nat cut_len * 8)) key_bytes_mask)
        (length_to_word (prefix_length w - cut_len)).

(** [src/art_internal_impl.hpp:688-706] prepend *)
Definition prepend (w prefix1 : key_prefix) (prefix2 : Z) : key_prefix :=
  let prefix1_bit_length := Z.of_nat (prefix_length prefix1) * 8 in
  let prefix1_mask := (1 ≪ prefix1_bit_length) - 1 in
  let prefix3_bit_length := Z.of_nat (prefix_length w) * 8 in
  let prefix3_mask := (1 ≪ prefix3_bit_length) - 1 in
  let prefix3 := Z.land w prefix3_mask in
  let shifted_prefix3 := wrap64 (prefix3 ≪ (prefix1_bit_length + 8)) in
  let shifted_prefix2 := wrap64 (prefix2 ≪ prefix1_bit_length) in
  let masked_prefix1 := Z.land prefix1 prefix1_mask in
  Z.lor (Z.lor (Z.lor shifted_prefix3 shifted_prefix2) masked_prefix1)
        (length_to_word (prefix_length w + prefix_length prefix1 + 1)).

(** [src/art_internal_impl.hpp:708-712] operator[] *)
Definition prefix_index (w : key_prefix) (i : nat) : Z := byte_at w i.

(** A snapshot is a copy of the word; its bytes as a view.
    [src/art_internal_impl.hpp:551-577] key_prefix_snapshot *)
Definition snapshot_key_view (w : key_prefix) : list Z := le_bytes (prefix_length w) w.

(** The number of key bytes the snapshot shares with a key.
    [src/art_internal_impl.hpp:585-591] key_prefix_snapshot::get_shared_length *)
Definition snapshot_get_shared_length (w : key_prefix) (shifted_key_u64 : Z) : nat :=
  shared_len shifted_key_u64 w (prefix_length w).

#[global] Arguments prefix_length : simpl never.
#[global] Arguments snapshot_key_view : simpl never.
#[global] Arguments length_to_word : simpl never.
#[global] Arguments shared_len : simpl never.
#[global] Arguments cut : simpl never.
#[global] Arguments prepend : simpl never.
#[global] Arguments prefix_of_source : simpl never.

(** ** Specification: the word as a string of at most seven bytes *)

Definition prefix_wf (w : key_prefix) : Prop := 0 ≤ w < 2 ^ 64 ∧ (prefix_length w ≤ 7)%nat.

(** The bytes of a prefix, as a string. *)
Abbreviation prefix_bytes := snapshot_key_view.

(** ** Lemmas: the fields of the word *)

Lemma byte_7_length_to_word (n : nat) : (n ≤ 7)%nat → byte_at (length_to_word n) 7 = Z.of_nat n.
Proof.
  intros. unfold length_to_word. rewrite byte_at_wrap64, decide_True by lia.
  change 56 with (8 * Z.of_nat 7). rewrite byte_at_shiftl_ge by lia.
  by rewrite byte_at_small by (unfold is_byte; lia).
Qed.

Lemma prefix_length_length_to_word (x : Z) (n : nat) :
  (n ≤ 7)%nat → prefix_length (Z.lor (Z.land x key_bytes_mask) (length_to_word n)) = n.
Proof.
  intros Hn. unfold prefix_length. rewrite byte_at_lor, byte_7_length_to_word by done.
  change key_bytes_mask with (Z.ones (8 * Z.of_nat 7)). rewrite byte_at_ones.
  rewrite decide_False by lia. rewrite Z.lor_0_l. lia.
Qed.

Lemma byte_at_length_to_word (n i : nat) : (i < 7)%nat → byte_at (length_to_word n) i = 0.
Proof.
  intros. unfold length_to_word. rewrite byte_at_wrap64, decide_True by lia.
  change 56 with (8 * Z.of_nat 7). by apply byte_at_shiftl_lt.
Qed.

Lemma byte_at_with_length (x : Z) (n i : nat) :
  (i < 7)%nat → byte_at (Z.lor (Z.land x key_bytes_mask) (length_to_word n)) i = byte_at x i.
Proof.
  intros. rewrite byte_at_lor, byte_at_length_to_word, Z.lor_0_r by done.
  change key_bytes_mask with (Z.ones (8 * Z.of_nat 7)). rewrite byte_at_ones.
  by rewrite decide_True.
Qed.

Lemma length_to_word_range n : 0 ≤ length_to_word n < 2 ^ 64.
Proof. apply wrap_range. lia. Qed.

Lemma with_length_wf (x : Z) (n : nat) :
  (n ≤ 7)%nat → prefix_wf (Z.lor (Z.land x key_bytes_mask) (length_to_word n)).
Proof.
  intros. split; [|by rewrite prefix_length_length_to_word].
  apply lor_range; [lia| |apply length_to_word_range].
  apply land_range; [lia|]. unfold key_bytes_mask. lia.
Qed.

Lemma length_prefix_bytes w : length (prefix_bytes w) = prefix_length w.
Proof. apply length_le_bytes. Qed.

Lemma lookup_prefix_bytes w i : (i < prefix_length w)%nat → prefix_bytes w !! i = Some (prefix_index w i).
Proof. apply lookup_le_bytes. Qed.

Lemma prefix_bytes_is_bytes w : is_bytes (prefix_bytes w).
Proof. apply le_bytes_is_bytes. Qed.

(** ** [shared_len] is the length of the common prefix, clamped *)

Lemma shared_len_clamped (k1 k2 : Z) (c : nat) :
  (c < 8)%nat → 0 ≤ k1 → 0 ≤ k2 →
  let n := shared_len k1 k2 c in
  (n ≤ c)%nat ∧ (∀ i, (i < n)%nat → byte_at k1 i = byte_at k2 i) ∧
  ((n < c)%nat → byte_at k1 n ≠ byte_at k2 n).
Proof.
  intros Hc H1 H2. unfold shared_len.
  rewrite (wrap_small 64) by (rewrite Z.shiftl_1_l; split; [lia|]; apply Z.pow_lt_mono_r; lia).
  set (bit := Z.of_nat c * 8).
  assert (Htb : ∀ j, 0 ≤ j → Z.testbit (Z.lor (Z.lxor k1 k2) (1 ≪ bit)) j
    = xorb (Z.testbit k1 j) (Z.testbit k2 j) || bool_decide (j = bit)).
  { intros j Hj. rewrite Z.lor_spec, Z.lxor_spec, Z.shiftl_1_l, Z.pow2_bits_eqb by lia.
    f_equal. case_bool_decide; zcases; done. }
  assert (Hpos : 0 < Z.lor (Z.lxor k1 k2) (1 ≪ bit)).
  { enough (0 ≤ Z.lor (Z.lxor k1 k2) (1 ≪ bit) ∧ Z.lor (Z.lxor k1 k2) (1 ≪ bit) ≠ 0) by lia.
    split; [apply Z.lor_nonneg; split; [by apply Z.lxor_nonneg|apply Z.shiftl_nonneg; lia]|].
    intros H0. pose proof (Htb bit ltac:(lia)) as Hb. rewrite H0, Z.bits_0 in Hb.
    rewrite bool_decide_eq_true_2, orb_true_r in Hb by done. done. }
  destruct (countr_zero_spec 64 _ Hpos) as [Hset Hlow].
  set (t := countr_zero 64 _) in *.
  assert (Hdm : t = (8 * (t / 8) + t mod 8)%nat) by (apply Nat.div_mod_eq).
  assert (Hmod : (t mod 8 < 8)%nat) by (apply Nat.mod_upper_bound; lia).
  assert (Hle : Z.of_nat t ≤ bit).
  { destruct (decide (Z.of_nat t ≤ bit)) as [|Hgt]; [done|]. exfalso.
    pose proof (Hlow bit ltac:(lia)) as Hb. rewrite Htb in Hb by lia.
    rewrite bool_decide_eq_true_2, orb_true_r in Hb by done. done. }
  set (n := (t / 8)%nat) in *. simpl. split_and!; [lia| |].
  - intros i Hi. apply byte_at_eq_bits. intros j Hj.
    pose proof (Hlow (8 * Z.of_nat i + j) ltac:(lia)) as Hb. rewrite Htb in Hb by lia.
    apply orb_false_iff in Hb as [Hb _]. by apply xorb_eq.
  - intros Hlt Heq. rewrite byte_at_eq_bits in Heq. rewrite Htb in Hset by lia.
    rewrite bool_decide_eq_false_2, orb_false_r in Hset by lia.
    specialize (Heq (Z.of_nat (t mod 8)%nat) ltac:(lia)).
    replace (8 * Z.of_nat n + Z.of_nat (t mod 8)%nat) with (Z.of_nat t) in Heq by lia.
    rewrite Heq, xorb_nilpotent in Hset. done.
Qed.

Lemma shared_len_le k1 k2 c : (c < 8)%nat → 0 ≤ k1 → 0 ≤ k2 → (shared_len k1 k2 c ≤ c)%nat.
Proof. intros. by apply shared_len_clamped. Qed.

Lemma shared_len_full k1 k2 c :
  (c < 8)%nat → 0 ≤ k1 → 0 ≤ k2 →
  shared_len k1 k2 c = c ↔ ∀ i, (i < c)%nat → byte_at k1 i = byte_at k2 i.
Proof.
  intros Hc H1 H2. destruct (shared_len_clamped k1 k2 c Hc H1 H2) as (Hle & Heq & Hne).
  split; [intros Hn i Hi; apply Heq; lia|].
  intros Hall. destruct (decide (shared_len k1 k2 c < c)%nat); [|lia].
  exfalso. by apply Hne, Hall.
Qed.

(** ** Lemmas: the operations on the prefix as a string *)

Lemma prefix_bytes_eq w l :
  length l = prefix_length w → (∀ i, (i < prefix_length w)%nat → l !! i = Some (prefix_index w i)) →
  prefix_bytes w = l.
Proof.
  intros Hlen Hl. apply list_eq_same_length with (prefix_length w); [done|apply length_prefix_bytes|].
  intros i x y Hi Hx Hy. rewrite lookup_prefix_bytes in Hx by done. rewrite Hl in Hy by done.
  by simplify_eq.
Qed.

Lemma prefix_of_source_bytes w n :
  (n ≤ 7)%nat → (n ≤ prefix_length w)%nat →
  prefix_bytes (prefix_of_source n w) = take n (prefix_bytes w).
Proof.
  intros Hn Hw. assert (prefix_length (prefix_of_source n w) = n) as Hlen
    by (by apply prefix_length_length_to_word).
  apply prefix_bytes_eq; rewrite Hlen.
  - rewrite length_take, length_prefix_bytes. lia.
  - intros i Hi. rewrite lookup_take_lt, lookup_prefix_bytes by lia.
    unfold prefix_index, prefix_of_source. by rewrite byte_at_with_length by lia.
Qed.

Lemma prefix_of_source_wf w n : (n ≤ 7)%nat → prefix_wf (prefix_of_source n w).
Proof. apply with_length_wf. Qed.

Lemma cut_wf w n : prefix_wf w → prefix_wf (cut w n).
Proof. intros [_ Hw]. apply with_length_wf. lia. Qed.

Lemma cut_bytes w n :
  prefix_wf w → (0 < n ≤ prefix_length w)%nat → prefix_bytes (cut w n) = drop n (prefix_bytes w).
Proof.
  intros [_ Hw] Hn.
  assert (prefix_length (cut w n) = prefix_length w - n)%nat as Hlen
    by (apply prefix_length_length_to_word; lia).
  apply prefix_bytes_eq; rewrite Hlen.
  - rewrite length_drop, length_prefix_bytes. lia.
  - intros i Hi. rewrite lookup_drop, lookup_prefix_bytes by lia. f_equal.
    unfold prefix_index, cut. rewrite byte_at_with_length by lia.
    replace (Z.of_nat n * 8) with (8 * Z.of_nat n) by lia. by rewrite byte_at_shiftr.
Qed.

Lemma prepend_wf_bytes w p b :
  prefix_wf w → prefix_wf p → is_byte b → (prefix_length w + prefix_length p < 7)%nat →
  prefix_wf (prepend w p b) ∧ prefix_bytes (prepend w p b) = prefix_bytes p ++ b :: prefix_bytes w.
Proof.
  intros [Hw _] [Hp _] Hb Hlen. unfold prepend.
  set (lw := prefix_length w) in *. set (lp := prefix_length p) in *.
  replace (Z.of_nat lp * 8) with (8 * Z.of_nat lp) by lia.
  replace (Z.of_nat lw * 8) with (8 * Z.of_nat lw) by lia.
  rewrite !shiftl_1_ones by lia.
  replace (8 * Z.of_nat lp + 8) with (8 * Z.of_nat (S lp)) by lia.
  set (w' := Z.lor _ _).
  assert (Hat : ∀ i, (i < 7)%nat → byte_at w' i =
    if decide (i < lp)%nat then byte_at p i else if decide (i = lp) then b
    else if decide (i < lp + 1 + lw)%nat then byte_at w (i - S lp) else 0).
  { intros i Hi. unfold w'. rewrite !byte_at_lor, byte_at_length_to_word, Z.lor_0_r by done.
    rewrite !byte_at_wrap64, !(decide_True (P := (i < 8)%nat)), byte_at_ones by lia.
    repeat case_decide; subst; try lia.
    - by rewrite !byte_at_shiftl_lt by lia.
    - rewrite byte_at_shiftl_lt, byte_at_shiftl_ge, Nat.sub_diag, (byte_at_small b) by (lia || done).
      by rewrite decide_True, Z.lor_0_l, Z.lor_0_r.
    - rewrite !byte_at_shiftl_ge, byte_at_ones, (byte_at_small b) by (lia || done).
      by rewrite decide_True, decide_False, !Z.lor_0_r by lia.
    - rewrite !byte_at_shiftl_ge, byte_at_ones, (byte_at_small b) by (lia || done).
      by rewrite !decide_False by lia. }
  assert (Hw' : 0 ≤ w' < 2 ^ 64).
  { unfold w'. repeat apply lor_range; try lia;
      [apply wrap_range; lia|apply wrap_range; lia| |apply length_to_word_range].
    rewrite Z.land_comm. apply land_range; [lia|]. apply Hp. }
  assert (Hl : prefix_length w' = (lw + lp + 1)%nat).
  { unfold prefix_length, w'. rewrite !byte_at_lor, byte_7_length_to_word, !byte_at_wrap64 by lia.
    rewrite !(decide_True (P := (7 < 8)%nat)) by lia. rewrite byte_at_ones.
    rewrite (byte_at_shiftl_ge _ (S lp)), byte_at_ones by lia.
    rewrite (byte_at_shiftl_ge b lp), (byte_at_small b) by (lia || done).
    rewrite !decide_False, !Z.lor_0_l by lia. lia. }
  split; [split; [done|lia]|].
  apply prefix_bytes_eq; rewrite Hl.
  - rewrite length_app, length_cons, !length_prefix_bytes. fold lw lp. lia.
  - intros i Hi. unfold prefix_index. rewrite Hat by lia. repeat case_decide; subst; try lia.
    + rewrite lookup_app_l by (rewrite length_prefix_bytes; lia). by apply lookup_prefix_bytes.
    + rewrite list_lookup_middle by (by rewrite length_prefix_bytes). done.
    + rewrite lookup_app_r by (rewrite length_prefix_bytes; fold lp; lia).
      rewrite length_prefix_bytes. fold lp. rewrite lookup_cons_ne_0 by lia.
      replace (pred (i - lp)) with (i - S lp)%nat by lia. apply lookup_prefix_bytes. fold lw. lia.
Qed.

(** ** Lemmas: prefixes against keys *)

(** [prefix_at e d w]: the bytes of [w] are those of the key [e] from [d] on,
    and [e] has one more byte after them. *)
Definition prefix_at (e : list Z) (d : nat) (w : key_prefix) : Prop :=
  take (prefix_length w) (drop d e) = prefix_bytes w ∧ (d + prefix_length w < length e)%nat.

Lemma prefix_at_lookup e d w i :
  prefix_at e d w → (i < prefix_length w)%nat → e !! (d + i)%nat = Some (prefix_index w i).
Proof.
  intros [He _] Hi. rewrite <- lookup_prefix_bytes by done. rewrite <- He.
  by rewrite lookup_take_lt, lookup_drop.
Qed.

(** The path through the prefix, as a prefix of the key. *)
Lemma prefix_at_take e p w :
  p `prefix_of` e → prefix_at e (length p) w → take (length p + prefix_length w) e = p ++ prefix_bytes w.
Proof.
  intros [x ->] [He _]. rewrite drop_app_length in He. by rewrite take_app_add, He.
Qed.

(** What the shared length tells about the searched key: it either covers the
    whole prefix, and then the key follows the stored key through it, or the two
    keys part at exactly the first byte not shared. *)
Lemma shared_length_cases k e d w :
  key_wf k → is_bytes e → prefix_wf w → prefix_at e d w →
  take d (get_key_view k) = take d e → (get_key_view k = e ∨ prefix_free (get_key_view k) e) →
  let n := get_shared_length w (get_u64 (shifted k d)) in
  (n = prefix_length w ∧ take (d + prefix_length w) (get_key_view k) = take (d + prefix_length w) e ∧
   (d + prefix_length w < length (get_key_view k))%nat) ∨
  ((n < prefix_length w)%nat ∧ diverge (get_key_view k) e (d + n)).
Proof.
  intros Hk He [Hw Hlen] Hat Htake Hfree. unfold get_shared_length.
  pose proof (get_u64_shifted_range k d Hk) as Hu.
  destruct (shared_len_clamped (get_u64 (shifted k d)) w (prefix_length w))
    as (Hle & Heq & Hne); [lia..|].
  set (n := shared_len _ _ _) in *. simpl. set (l := get_key_view k) in *.
  assert (Hbyte : ∀ i, (i < prefix_length w)%nat →
    byte_at (get_u64 (shifted k d)) i = byte_at w i ↔ default 0 (l !! (d + i)%nat) = default 0 (e !! (d + i)%nat)).
  { intros i Hi. rewrite (prefix_at_lookup e d w i) by done. simpl. unfold prefix_index.
    by rewrite byte_at_get_u64_shifted by (done || lia). }
  assert (Hd : ∀ m, diverge l e m → (d ≤ m)%nat).
  { intros m [_ (x & y & Hx & Hy & Hxy)]. destruct (decide (d ≤ m)%nat); [done|]. exfalso.
    rewrite <- (lookup_take_lt l d m), Htake, (lookup_take_lt e d m) in Hx by lia. congruence. }
  assert (Hm : ∀ m, diverge l e m → (m < d + prefix_length w)%nat →
    byte_at (get_u64 (shifted k d)) (m - d) ≠ byte_at w (m - d)).
  { intros m Hm Hlt. pose proof (Hd m Hm). destruct Hm as [_ (x & y & Hx & Hy & Hxy)].
    rewrite Hbyte by lia. replace (d + (m - d))%nat with m by lia. by rewrite Hx, Hy. }
  destruct (decide (n = prefix_length w)) as [Hfull|Hpart]; [left|right].
  - split; [done|]. destruct Hfree as [->|[m Hm']]; [by split; [|apply Hat]|].
    assert (d + prefix_length w ≤ m)%nat as Hge.
    { destruct (decide (d + prefix_length w ≤ m)%nat); [done|]. exfalso.
      pose proof (Hd m Hm'). apply (Hm m Hm'); [lia|]. apply Heq. lia. }
    split; [|apply diverge_length in Hm'; lia].
    destruct Hm' as [Ht _]. apply (f_equal (take (d + prefix_length w))) in Ht.
    by rewrite !take_take, !Nat.min_l in Ht by lia.
  - split; [lia|]. specialize (Hne ltac:(lia)).
    assert (l ≠ e) as Hdiff. { intros ->. rewrite Hbyte in Hne by lia. done. }
    destruct Hfree as [?|[m Hm']]; [done|].
    enough (m = d + n)%nat as <- by done.
    destruct (lt_eq_lt_dec m (d + n)) as [[Hlt|]|Hgt]; [|done|].
    + exfalso. pose proof (Hd m Hm'). apply (Hm m Hm'); [lia|]. apply Heq. lia.
    + exfalso. rewrite Hbyte in Hne by lia. apply Hne. by rewrite (diverge_lookup_lt l e m).
Qed.

(** The prefix of the node created for two keys that part after [n] more
    bytes. *)
Lemma make_u64_diverge e k (d n : nat) :
  key_wf k → is_bytes e → diverge e (get_key_view k) (d + n) → (n ≤ 7)%nat →
  ∃ w, make_u64 e (shifted k d) (Z.of_nat d) = Some w ∧ prefix_wf w ∧ prefix_length w = n ∧
       prefix_at e d w.
Proof.
  intros Hk He Hdiv Hn. pose proof (diverge_length _ _ _ Hdiv) as [Hle Hlk].
  unfold make_u64. rewrite (proj2 (Z.ltb_ge _ _)), Nat2Z.id by lia.
  set (u := Z.land (get_u64_view (drop d e)) key_bytes_mask).
  assert (Hde : is_bytes (drop d e)) by (by apply Forall_drop).
  assert (Hu : 0 ≤ u < 2 ^ 64) by (apply land_range; [lia|]; unfold key_bytes_mask; lia).
  assert (Hub : ∀ i, (i < 7)%nat → byte_at u i = default 0 (e !! (d + i)%nat)).
  { intros i Hi. unfold u. change key_bytes_mask with (Z.ones (8 * Z.of_nat 7)).
    rewrite byte_at_ones, decide_True, byte_at_get_u64_view, decide_True, lookup_drop by (done || lia). done. }
  assert (Hs : shared_len u (get_u64 (shifted k d)) key_prefix_capacity = n).
  { pose proof (get_u64_shifted_range k d Hk) as Hr.
    destruct (shared_len_clamped u (get_u64 (shifted k d)) key_prefix_capacity) as (H1 & H2 & H3);
      [unfold key_prefix_capacity; lia..|]. unfold key_prefix_capacity in *.
    set (s := shared_len _ _ _) in *.
    destruct (lt_eq_lt_dec s n) as [[Hlt|]|Hgt]; [|done|]; exfalso.
    - apply H3; [lia|]. rewrite Hub, byte_at_get_u64_shifted by (done || lia).
      by rewrite (diverge_lookup_lt e (get_key_view k) (d + n)) by (done || lia).
    - specialize (H2 n ltac:(lia)). rewrite Hub, byte_at_get_u64_shifted in H2 by (done || lia).
      destruct Hdiv as [_ (x & y & Hx & Hy & Hxy)]. by rewrite Hx, Hy in H2. }
  rewrite Hs. eexists. split; [done|].
  replace u with (Z.land u key_bytes_mask) by (unfold u; by rewrite <- Z.land_assoc, Z.land_diag).
  assert (Hpl := prefix_length_length_to_word u n Hn).
  split; [by apply with_length_wf|]. split; [done|]. split; [|by rewrite Hpl].
  symmetry. apply prefix_bytes_eq; rewrite Hpl.
  - rewrite length_take, length_drop. lia.
  - intros i Hi. rewrite lookup_take_lt, lookup_drop by lia. unfold prefix_index.
    rewrite byte_at_with_length, Hub by lia.
    destruct (lookup_lt_is_Some_2 e (d + i)) as [x Hx]; [lia|]. by rewrite Hx.
Qed.
