(* ===== verification/SortedAssoc.v ===== *)
(** Sorted association lists: the abstract map of every component of the index.
    An internal node is a sorted list of (key byte, child), a subtree a sorted
    list of (key, value). *)

From Stdlib Require Import Sorted.
From S2P Require Import Prelude ArtKey.

(** A decidable strict total order, as a three-way comparison. *)
Class Ord (K : Type) := kcmp : K → K → comparison.

Class OrdLaws (K : Type) `{Ord K} := {
  kcmp_refl : ∀ a, kcmp a a = Eq;
  kcmp_eq : ∀ a b, kcmp a b = Eq → a = b;
  kcmp_antisym : ∀ a b, kcmp b a = CompOpp (kcmp a b);
  kcmp_trans : ∀ a b c, kcmp a b = Lt → kcmp b c = Lt → kcmp a c = Lt;
}.

#[export] Instance Z_ord : Ord Z := Z.compare.

#[export] Instance Z_ord_laws : OrdLaws Z.
Proof.
  split; unfold kcmp, Z_ord.
  - apply Z.compare_refl.
  - apply Z.compare_eq.
  - intros. apply Z.compare_antisym.
  - intros a b c. rewrite !Z.compare_lt_iff. lia.
Qed.

#[export] Instance bytes_ord : Ord (list Z) := lex.

#[export] Instance bytes_ord_laws : OrdLaws (list Z).
Proof.
  split; [apply lex_refl|apply lex_eq|apply lex_antisym|apply lex_lt_trans].
Qed.

Section assoc.
Context {K V : Type} {HO : Ord K} {HK : OrdLaws K}.
Implicit Types (k : K) (v : V) (l : list (K * V)).

Definition klt k1 k2 : Prop := kcmp k1 k2 = Lt.

Fixpoint assoc k l : option V :=
  match l with
  | [] => None
  | (k', v) :: l' => match kcmp k k' with Eq => Some v | _ => assoc k l' end
  end.

Fixpoint ins k v l : list (K * V) :=
  match l with
  | [] => [(k, v)]
  | (k', v') :: l' =>
      match kcmp k k' with
      | Lt => (k, v) :: l
      | Eq => (k, v) :: l'
      | Gt => (k', v') :: ins k v l'
      end
  end.

Fixpoint del k l : list (K * V) :=
  match l with
  | [] => []
  | (k', v') :: l' =>
      match kcmp k k' with
      | Lt => l
      | Eq => l'
      | Gt => (k', v') :: del k l'
      end
  end.

Definition sorted l : Prop := StronglySorted (λ p q, klt p.1 q.1) l.

(** All keys of [l] are below (above) [k]. *)
Definition below l k : Prop := Forall (λ p, klt p.1 k) l.
Definition above l k : Prop := Forall (λ p, klt k p.1) l.

Lemma klt_irrefl k : ¬ klt k k.
Proof. unfold klt. by rewrite kcmp_refl. Qed.

Lemma klt_trans k1 k2 k3 : klt k1 k2 → klt k2 k3 → klt k1 k3.
Proof. apply kcmp_trans. Qed.

Lemma klt_gt k1 k2 : klt k1 k2 → kcmp k2 k1 = Gt.
Proof. unfold klt. intros H. by rewrite kcmp_antisym, H. Qed.

Lemma gt_klt k1 k2 : kcmp k1 k2 = Gt → klt k2 k1.
Proof. unfold klt. intros H. by rewrite kcmp_antisym, H. Qed.

Lemma sorted_nil : sorted [].
Proof. constructor. Qed.

Lemma sorted_cons k v l : sorted ((k, v) :: l) ↔ above l k ∧ sorted l.
Proof.
  split.
  - intros Hs. apply StronglySorted_inv in Hs as [Hs Hf]. done.
  - intros [Ha Hs]. by constructor.
Qed.

Lemma sorted_app l1 l2 :
  sorted (l1 ++ l2) ↔ sorted l1 ∧ sorted l2 ∧ ∀ p q, p ∈ l1 → q ∈ l2 → klt p.1 q.1.
Proof.
  induction l1 as [|[k v] l1 IH]; simpl.
  - split; [|naive_solver]. intros. split_and!; [constructor|done|]. intros p q Hp. by apply elem_of_nil in Hp.
  - rewrite !sorted_cons, IH. unfold above. rewrite Forall_app, !Forall_forall. split.
    + intros [[H1 H2] (H3 & H4 & H5)]. split_and!; try done.
      intros p q [->|Hp]%elem_of_cons Hq; [by apply H2|by apply H5].
    + intros [[H1 H2] [H3 H4]]. split_and!; try done.
      * intros q Hq. apply (H4 (k, v)); [apply elem_of_cons; by left|done].
      * intros p q Hp Hq. apply H4; [apply elem_of_cons; by right|done].
Qed.

Lemma assoc_above k l : above l k → assoc k l = None.
Proof.
  induction 1 as [|[k' v'] l Hk _ IH]; simpl; [done|]. unfold klt in Hk; simpl in Hk. by rewrite Hk.
Qed.

Lemma assoc_below k l : below l k → assoc k l = None.
Proof.
  induction 1 as [|[k' v'] l Hk _ IH]; simpl; [done|]. simpl in Hk; by rewrite (klt_gt _ _ Hk).
Qed.

Lemma ins_above k v l : above l k → ins k v l = (k, v) :: l.
Proof. destruct 1 as [|[k' v'] l Hk _]; simpl; [done|]. unfold klt in Hk; simpl in Hk. by rewrite Hk. Qed.

Lemma del_above k l : above l k → del k l = l.
Proof. destruct 1 as [|[k' v'] l Hk _]; simpl; [done|]. unfold klt in Hk; simpl in Hk. by rewrite Hk. Qed.

(** The three operations act inside the middle of a list whose ends are below
    and above the key. *)
Lemma assoc_app_below k l1 l2 : below l1 k → assoc k (l1 ++ l2) = assoc k l2.
Proof. induction 1 as [|[k' v'] l Hk _ IH]; simpl; [done|]. simpl in Hk; by rewrite (klt_gt _ _ Hk). Qed.

Lemma ins_app_below k v l1 l2 : below l1 k → ins k v (l1 ++ l2) = l1 ++ ins k v l2.
Proof. induction 1 as [|[k' v'] l Hk _ IH]; simpl; [done|]. simpl in Hk; by rewrite (klt_gt _ _ Hk), IH. Qed.

Lemma del_app_below k l1 l2 : below l1 k → del k (l1 ++ l2) = l1 ++ del k l2.
Proof. induction 1 as [|[k' v'] l Hk _ IH]; simpl; [done|]. simpl in Hk; by rewrite (klt_gt _ _ Hk), IH. Qed.

Lemma assoc_app_above k l1 l2 : above l2 k → assoc k (l1 ++ l2) = assoc k l1.
Proof.
  intros Ha. induction l1 as [|[k' v'] l IH]; simpl; [by apply assoc_above|]. by rewrite IH.
Qed.

Lemma ins_app_above k v l1 l2 : above l2 k → ins k v (l1 ++ l2) = ins k v l1 ++ l2.
Proof.
  intros Ha. induction l1 as [|[k' v'] l IH]; simpl; [by apply ins_above|].
  destruct (kcmp k k'); [done..|]. by rewrite IH.
Qed.

Lemma del_app_above k l1 l2 : above l2 k → del k (l1 ++ l2) = del k l1 ++ l2.
Proof.
  intros Ha. induction l1 as [|[k' v'] l IH]; simpl; [by apply del_above|].
  destruct (kcmp k k'); [done..|]. by rewrite IH.
Qed.

Lemma assoc_middle k l1 m l2 : below l1 k → above l2 k → assoc k (l1 ++ m ++ l2) = assoc k m.
Proof. intros. by rewrite assoc_app_below, assoc_app_above. Qed.

Lemma ins_middle k v l1 m l2 :
  below l1 k → above l2 k → ins k v (l1 ++ m ++ l2) = l1 ++ ins k v m ++ l2.
Proof. intros. by rewrite ins_app_below, ins_app_above. Qed.

Lemma del_middle k l1 m l2 :
  below l1 k → above l2 k → del k (l1 ++ m ++ l2) = l1 ++ del k m ++ l2.
Proof. intros. by rewrite del_app_below, del_app_above. Qed.

Definition here k (o : option V) : list (K * V) :=
  match o with Some v => [(k, v)] | None => [] end.

Lemma assoc_here k o : assoc k (here k o) = o.
Proof. destruct o; simpl; [by rewrite kcmp_refl|done]. Qed.

Lemma ins_here k v o : ins k v (here k o) = here k (Some v).
Proof. destruct o; simpl; [by rewrite kcmp_refl|done]. Qed.

Lemma del_here k o : del k (here k o) = [].
Proof. destruct o; simpl; [by rewrite kcmp_refl|done]. Qed.

Lemma assoc_single_eq k v : assoc k [(k, v)] = Some v.
Proof. simpl. by rewrite kcmp_refl. Qed.

Lemma assoc_single_ne k k' v : k ≠ k' → assoc k [(k', v)] = None.
Proof. intros Hne. simpl. destruct (kcmp k k') eqn:Hc; [|done..]. by apply kcmp_eq in Hc. Qed.

Lemma sorted_single k v : sorted [(k, v)].
Proof. apply sorted_cons. split; [constructor|apply sorted_nil]. Qed.

(** A sorted list splits at any key. *)
Lemma sorted_split k l :
  sorted l → ∃ l1 l2, l = l1 ++ here k (assoc k l) ++ l2 ∧ below l1 k ∧ above l2 k.
Proof.
  induction l as [|[k' v'] l IH]; simpl; intros Hs.
  - exists [], []. split_and!; [done|constructor..].
  - apply sorted_cons in Hs as [Ha Hs]. destruct (kcmp k k') eqn:E.
    + apply kcmp_eq in E as ->. exists [], l. split_and!; [done|constructor|done].
    + exists [], ((k', v') :: l).
      assert (above l k) by (eapply Forall_impl; [exact Ha|]; intros p; by apply klt_trans).
      rewrite assoc_above by done. split_and!; [done|constructor|by constructor].
    + destruct (IH Hs) as (l1 & l2 & Heq & Hb & Hab). exists ((k', v') :: l1), l2.
      split_and!; [simpl; by rewrite <- Heq| |done]. constructor; [by apply gt_klt|done].
Qed.

Lemma split_sorted k o l1 l2 :
  sorted l1 → sorted l2 → below l1 k → above l2 k → sorted (l1 ++ here k o ++ l2).
Proof.
  unfold below, above. rewrite !Forall_forall. intros H1 H2 Hb Ha.
  assert (Hcross : ∀ p q, p ∈ l1 → q ∈ l2 → klt p.1 q.1).
  { intros p q Hp Hq. eapply klt_trans; [by apply Hb|by apply Ha]. }
  apply sorted_app. split_and!; [done| |].
  - destruct o; simpl; [|done]. apply sorted_cons. by rewrite <- Forall_forall in Ha.
  - intros p q Hp Hq. destruct o; simpl in Hq; [|by apply Hcross].
    apply elem_of_cons in Hq as [->|Hq]; [by apply Hb|by apply Hcross].
Qed.

Lemma sorted_middle l1 m l2 : sorted (l1 ++ m ++ l2) → sorted l1 ∧ sorted m ∧ sorted l2.
Proof. rewrite !sorted_app. naive_solver. Qed.

Lemma ins_split k v l1 o l2 :
  below l1 k → above l2 k → ins k v (l1 ++ here k o ++ l2) = l1 ++ (k, v) :: l2.
Proof. intros. by rewrite ins_middle, ins_here. Qed.

Lemma del_split k l1 o l2 :
  below l1 k → above l2 k → del k (l1 ++ here k o ++ l2) = l1 ++ l2.
Proof. intros. by rewrite del_middle, del_here. Qed.

Lemma ins_sorted k v l : sorted l → sorted (ins k v l).
Proof.
  intros Hs. destruct (sorted_split k l Hs) as (l1 & l2 & Heq & Hb & Ha).
  rewrite Heq in Hs |- *. apply sorted_middle in Hs as (H1 & _ & H2).
  rewrite ins_split by done. by apply (split_sorted k (Some v)).
Qed.

Lemma del_incl k l p : p ∈ del k l → p ∈ l.
Proof.
  induction l as [|[k' v'] l IH]; simpl; [done|]. destruct (kcmp k k'); rewrite ?elem_of_cons; naive_solver.
Qed.

Lemma del_sorted k l : sorted l → sorted (del k l).
Proof.
  intros Hs. destruct (sorted_split k l Hs) as (l1 & l2 & Heq & Hb & Ha).
  rewrite Heq in Hs |- *. apply sorted_middle in Hs as (H1 & _ & H2).
  rewrite del_split by done. by apply (split_sorted k None).
Qed.

Lemma assoc_elem k v l : sorted l → assoc k l = Some v ↔ (k, v) ∈ l.
Proof.
  intros Hs. split.
  - destruct (sorted_split k l Hs) as (l1 & l2 & Heq & _). intros Hk. rewrite Heq, Hk.
    apply elem_of_app. right. by apply elem_of_cons; left.
  - intros Hin. apply list_elem_of_split in Hin as (l1 & l2 & ->).
    apply sorted_app in Hs as (_ & [Ha Hs2]%sorted_cons & Hc).
    rewrite assoc_app_below; [simpl; by rewrite kcmp_refl|].
    apply Forall_forall. intros p Hp. apply (Hc p (k, v)); [done|]. by apply elem_of_cons; left.
Qed.

Lemma assoc_ins k k' v l :
  sorted l → assoc k' (ins k v l) = match kcmp k' k with Eq => Some v | _ => assoc k' l end.
Proof.
  intros Hs. induction l as [|[k1 v1] l IH]; simpl; [done|].
  apply sorted_cons in Hs as [Ha Hs]. destruct (kcmp k k1) eqn:E; simpl.
  - apply kcmp_eq in E as ->. by destruct (kcmp k' k1).
  - destruct (kcmp k' k) eqn:E'; done.
  - destruct (kcmp k' k1) eqn:E1; [|by apply IH..].
    apply kcmp_eq in E1 as ->. by rewrite kcmp_antisym, E.
Qed.

Lemma assoc_del k k' l :
  sorted l → assoc k' (del k l) = match kcmp k' k with Eq => None | _ => assoc k' l end.
Proof.
  intros Hs. destruct (sorted_split k l Hs) as (l1 & l2 & Heq & Hb & Ha).
  set (o := assoc k l) in *. clearbody o. subst l.
  rewrite del_split by done.
  destruct (kcmp k' k) eqn:E.
  - apply kcmp_eq in E as ->. by rewrite assoc_app_below, assoc_above.
  - destruct o as [v|]; simpl; [|done].
    induction l1 as [|[k1 v1] l1 IH]; simpl; [by rewrite E|].
    inversion Hb; subst. simpl in Hs. apply sorted_cons in Hs as [_ Hs]. by rewrite IH.
  - destruct o as [v|]; simpl; [|done].
    induction l1 as [|[k1 v1] l1 IH]; simpl; [by rewrite E|].
    inversion Hb; subst. simpl in Hs. apply sorted_cons in Hs as [_ Hs]. by rewrite IH.
Qed.

Lemma assoc_ins_eq k v l : sorted l → assoc k (ins k v l) = Some v.
Proof. intros. by rewrite assoc_ins, kcmp_refl. Qed.

Lemma assoc_ins_ne k k' v l : sorted l → k' ≠ k → assoc k' (ins k v l) = assoc k' l.
Proof. intros. rewrite assoc_ins by done. destruct (kcmp k' k) eqn:Hc; [by apply kcmp_eq in Hc|done..]. Qed.

Lemma assoc_del_eq k l : sorted l → assoc k (del k l) = None.
Proof. intros. by rewrite assoc_del, kcmp_refl. Qed.

Lemma assoc_del_ne k k' l : sorted l → k' ≠ k → assoc k' (del k l) = assoc k' l.
Proof. intros. rewrite assoc_del by done. destruct (kcmp k' k) eqn:Hc; [by apply kcmp_eq in Hc|done..]. Qed.

Lemma sorted_NoDup_keys l : sorted l → NoDup l.*1.
Proof.
  induction l as [|[k v] l IH]; simpl; intros Hs; [constructor|].
  apply sorted_cons in Hs as [Ha Hs]. constructor; [|by apply IH].
  intros (p & Hp & Hin)%list_elem_of_fmap. unfold above in Ha. rewrite Forall_forall in Ha.
  specialize (Ha p Hin). rewrite <- Hp in Ha. by apply klt_irrefl in Ha.
Qed.
End assoc.

(** ** Byte-keyed lists *)

Lemma below_byte {V} (l : list (Z * V)) b : below l b ↔ Forall (λ p, p.1 < b) l.
Proof.
  unfold below. apply Forall_proper; [|done]. intros p. unfold klt, kcmp, Z_ord.
  by rewrite Z.compare_lt_iff.
Qed.

Lemma above_byte {V} (l : list (Z * V)) b : above l b ↔ Forall (λ p, b < p.1) l.
Proof.
  unfold above. apply Forall_proper; [|done]. intros p. unfold klt, kcmp, Z_ord.
  by rewrite Z.compare_lt_iff.
Qed.

(** ** Positions in a sorted list *)

Section positions.
Context {K V : Type} {HO : Ord K} {HK : OrdLaws K}.
Implicit Types (k : K) (v : V) (l : list (K * V)).

Lemma sorted_at l i k v :
  sorted l → l !! i = Some (k, v) → below (take i l) k ∧ above (drop (S i) l) k.
Proof.
  intros Hs Hi. rewrite <- (take_drop_middle _ _ _ Hi) in Hs.
  apply sorted_app in Hs as (_ & [Ha _]%sorted_cons & Hc). split; [|done].
  apply Forall_forall. intros p Hp. apply (Hc p (k, v)); [done|by apply elem_of_cons; left].
Qed.

Lemma assoc_at l i k v : sorted l → l !! i = Some (k, v) → assoc k l = Some v.
Proof. intros. apply assoc_elem; [done|]. by eapply list_elem_of_lookup_2. Qed.

Lemma ins_at l i k v v' : sorted l → l !! i = Some (k, v) → ins k v' l = <[i := (k, v')]> l.
Proof.
  intros Hs Hi. destruct (sorted_at _ _ _ _ Hs Hi) as [Hb Ha].
  rewrite <- (take_drop_middle _ _ _ Hi) at 1. rewrite ins_app_below by done.
  simpl. rewrite kcmp_refl. by rewrite insert_take_drop by by eapply lookup_lt_Some.
Qed.

Lemma del_at l i k v : sorted l → l !! i = Some (k, v) → del k l = take i l ++ drop (S i) l.
Proof.
  intros Hs Hi. destruct (sorted_at _ _ _ _ Hs Hi) as [Hb Ha].
  rewrite <- (take_drop_middle _ _ _ Hi) at 1. rewrite del_app_below by done.
  simpl. by rewrite kcmp_refl.
Qed.

Lemma at_inj l i j k v w : sorted l → l !! i = Some (k, v) → l !! j = Some (k, w) → i = j.
Proof.
  intros Hs Hi Hj. pose proof (sorted_NoDup_keys _ Hs) as Hnd.
  apply (NoDup_lookup l.*1 i j k Hnd); rewrite list_lookup_fmap; [by rewrite Hi|by rewrite Hj].
Qed.
End positions.

(** The first and the last entry that satisfy a test: what the iteration
    functions of a node look for. *)

Section first_last.
Context {A : Type} (P : A → Prop) `{∀ x, Decision (P x)}.
Implicit Types l : list A.

Lemma filter_none l : (∀ j y, l !! j = Some y → ¬ P y) → filter P l = [].
Proof.
  induction l as [|a l IH]; intros Hl; [done|]. rewrite filter_cons_False by by apply (Hl 0%nat).
  apply IH. intros j y Hj. by apply (Hl (S j)).
Qed.

Lemma filter_all l : Forall P l → filter P l = l.
Proof. induction 1 as [|a l Ha _ IH]; [done|]. by rewrite filter_cons_True, IH. Qed.

Lemma head_filter_at l i x :
  l !! i = Some x → P x → (∀ j y, (j < i)%nat → l !! j = Some y → ¬ P y) →
  head (filter P l) = Some x.
Proof.
  revert i. induction l as [|a l IH]; intros [|i] Hi Hx Hlt; simplify_eq/=.
  - by rewrite filter_cons_True.
  - rewrite filter_cons_False; [|apply (Hlt 0%nat); [lia|done]].
    apply (IH i); [done..|]. intros j y Hj. apply (Hlt (S j)). lia.
Qed.

Lemma last_filter_at l i x :
  l !! i = Some x → P x → (∀ j y, (i < j)%nat → l !! j = Some y → ¬ P y) →
  last (filter P l) = Some x.
Proof.
  intros Hi Hx Hgt. rewrite <- (take_drop_middle _ _ _ Hi), filter_app, filter_cons_True by done.
  assert (filter P (drop (S i) l) = []) as ->.
  { apply filter_none. intros j y Hj. rewrite lookup_drop in Hj. apply (Hgt (S i + j)%nat y); [lia|done]. }
  by rewrite last_snoc.
Qed.

End first_last.

(** ** Extensionality, and lists indexed by key bytes *)

Section assoc_ext.
Context {K V : Type} {HO : Ord K} {HK : OrdLaws K}.
Implicit Types (k : K) (v : V) (l : list (K * V)).

(** A sorted list is determined by its lookups. *)
Lemma sorted_ext l1 l2 :
  sorted l1 → sorted l2 → (∀ k, assoc k l1 = assoc k l2) → l1 = l2.
Proof.
  revert l2. induction l1 as [|[k1 v1] l1 IH]; intros [|[k2 v2] l2] H1 H2 Heq.
  - done.
  - specialize (Heq k2). simpl in Heq. by rewrite kcmp_refl in Heq.
  - specialize (Heq k1). simpl in Heq. by rewrite kcmp_refl in Heq.
  - apply sorted_cons in H1 as [Ha1 Hs1]. apply sorted_cons in H2 as [Ha2 Hs2].
    assert (k1 = k2) as <-.
    { pose proof (Heq k1) as He1. pose proof (Heq k2) as He2. simpl in He1, He2.
      rewrite kcmp_refl in He1, He2.
      destruct (kcmp k1 k2) eqn:E; [by apply kcmp_eq|..]; exfalso.
      - rewrite (assoc_above k1) in He1; [done|].
        eapply Forall_impl; [exact Ha2|]. intros p. by apply klt_trans.
      - apply gt_klt in E as E'. rewrite (assoc_above k2 l1) in He2.
        + unfold klt in E'. by rewrite E' in He2.
        + eapply Forall_impl; [exact Ha1|]. intros p. by apply klt_trans. }
    pose proof (Heq k1) as He1. simpl in He1. rewrite !kcmp_refl in He1. simplify_eq.
    f_equal. apply IH; [done..|]. intros k. specialize (Heq k). simpl in Heq.
    destruct (kcmp k k1) eqn:E; [|done..]. apply kcmp_eq in E as ->.
    by rewrite !assoc_above.
Qed.

Lemma length_ins_None k v l : sorted l → assoc k l = None → length (ins k v l) = S (length l).
Proof.
  intros Hs Hk. destruct (sorted_split k l Hs) as (l1 & l2 & Heq & Hb & Ha).
  rewrite Hk in Heq. rewrite Heq at 1. rewrite ins_split by done. rewrite Heq.
  simpl. rewrite !length_app. simpl. lia.
Qed.

Lemma length_ins_Some k v l : sorted l → is_Some (assoc k l) → length (ins k v l) = length l.
Proof.
  intros Hs [x Hk]. destruct (sorted_split k l Hs) as (l1 & l2 & Heq & Hb & Ha).
  rewrite Hk in Heq. rewrite Heq at 1. rewrite ins_split by done. rewrite Heq.
  simpl. rewrite !length_app. simpl. lia.
Qed.

Lemma length_del_Some k l : sorted l → is_Some (assoc k l) → length l = S (length (del k l)).
Proof.
  intros Hs [x Hk]. destruct (sorted_split k l Hs) as (l1 & l2 & Heq & Hb & Ha).
  rewrite Hk in Heq. rewrite Heq. rewrite del_split by done.
  simpl. rewrite !length_app. simpl. lia.
Qed.
End assoc_ext.

(** The entries of a node indexed directly by the key byte. *)
Definition idx_entries {V} (f : nat → option V) (bs : list nat) : list (Z * V) :=
  omap (λ b, (λ v, (Z.of_nat b, v)) <$> f b) bs.

#[global] Arguments idx_entries : simpl never.

Section idx_entries.
Context {V : Type}.
Implicit Types f : nat → option V.

Lemma elem_of_idx_entries f bs b v :
  (b, v) ∈ idx_entries f bs ↔ ∃ i, i ∈ bs ∧ b = Z.of_nat i ∧ f i = Some v.
Proof.
  unfold idx_entries. rewrite list_elem_of_omap. split.
  - intros (i & Hi & Hf). apply fmap_Some in Hf as (x & Hx & Heq). simplify_eq. by exists i.
  - intros (i & Hi & -> & Hf). exists i. by rewrite Hf.
Qed.

Lemma idx_entries_sorted f a n : sorted (idx_entries f (seq a n)).
Proof.
  revert a. induction n as [|n IH]; intros a; [constructor|].
  cbn [seq]. unfold idx_entries. cbn [omap list_omap].
  destruct (f a) as [v|]; [|apply IH]. apply sorted_cons. split; [|apply IH].
  apply above_byte, Forall_forall. intros [b w] Hp.
  apply elem_of_idx_entries in Hp as (i & Hi & -> & _). apply elem_of_seq in Hi. simpl. lia.
Qed.

Lemma assoc_idx_entries f a n b :
  assoc b (idx_entries f (seq a n)) =
  if decide (Z.of_nat a ≤ b < Z.of_nat (a + n)) then f (Z.to_nat b) else None.
Proof.
  apply option_eq. intros v. rewrite assoc_elem by apply idx_entries_sorted.
  rewrite elem_of_idx_entries. split.
  - intros (i & Hi & -> & Hf). apply elem_of_seq in Hi. rewrite decide_True, Nat2Z.id by lia. done.
  - case_decide; [|done]. intros Hf. exists (Z.to_nat b). split_and!; [|lia|done].
    apply elem_of_seq. lia.
Qed.

Lemma idx_entries_ins f f' b v :
  (b < 256)%nat → f' b = Some v → (∀ i, i ≠ b → f' i = f i) →
  idx_entries f' (seq 0 256) = ins (Z.of_nat b) v (idx_entries f (seq 0 256)).
Proof.
  intros Hb Hv Hf. apply sorted_ext; [apply idx_entries_sorted|apply ins_sorted, idx_entries_sorted|].
  intros k. rewrite assoc_ins, !assoc_idx_entries by apply idx_entries_sorted.
  unfold kcmp, Z_ord. destruct (Z.compare_spec k (Z.of_nat b)) as [->| |].
  - rewrite decide_True, Nat2Z.id by lia. done.
  - case_decide; [|done]. apply Hf. lia.
  - case_decide; [|done]. apply Hf. lia.
Qed.

Lemma idx_entries_del f f' b :
  f' b = None → (∀ i, i ≠ b → f' i = f i) →
  idx_entries f' (seq 0 256) = del (Z.of_nat b) (idx_entries f (seq 0 256)).
Proof.
  intros Hv Hf. apply sorted_ext; [apply idx_entries_sorted|apply del_sorted, idx_entries_sorted|].
  intros k. rewrite assoc_del, !assoc_idx_entries by apply idx_entries_sorted.
  unfold kcmp, Z_ord. destruct (Z.compare_spec k (Z.of_nat b)) as [->| |].
  - rewrite Nat2Z.id. by case_decide.
  - case_decide; [|done]. apply Hf. lia.
  - case_decide; [|done]. apply Hf. lia.
Qed.

Lemma idx_entries_ext f f' bs : (∀ i, i ∈ bs → f i = f' i) → idx_entries f bs = idx_entries f' bs.
Proof.
  intros Hf. induction bs as [|i bs IH]; [done|]. unfold idx_entries in *. cbn.
  rewrite Hf by (apply elem_of_cons; by left).
  rewrite IH; [done|]. intros. apply Hf. apply elem_of_cons. by right.
Qed.
End idx_entries.

(** The entries beyond one of them. *)
Lemma filter_above {V} (l1 l2 : list (Z * V)) b c :
  sorted (l1 ++ (b, c) :: l2) → filter (λ p : Z * V, b < p.1) (l1 ++ (b, c) :: l2) = l2.
Proof.
  intros (H1 & H2 & Hx)%sorted_app. apply sorted_cons in H2 as [Ha _]. rewrite above_byte in Ha.
  rewrite filter_app, filter_cons_False by (simpl; lia). rewrite filter_none, filter_all; [done| |].
  - eapply Forall_impl; [exact Ha|]. simpl. lia.
  - intros j y Hj%list_elem_of_lookup_2 Hlt. specialize (Hx y (b, c) Hj ltac:(apply elem_of_cons; by left)).
    change (Z.compare y.1 b = Lt) in Hx. rewrite Z.compare_lt_iff in Hx. simpl in *. lia.
Qed.

Lemma filter_below {V} (l1 l2 : list (Z * V)) b c :
  sorted (l1 ++ (b, c) :: l2) → filter (λ p : Z * V, p.1 < b) (l1 ++ (b, c) :: l2) = l1.
Proof.
  intros (H1 & H2 & Hx)%sorted_app. apply sorted_cons in H2 as [Ha _]. rewrite above_byte in Ha.
  rewrite filter_app, filter_cons_False by (simpl; lia). rewrite filter_all, filter_none; [apply app_nil_r| |].
  - intros j y Hj%list_elem_of_lookup_2 Hlt. rewrite Forall_forall in Ha. specialize (Ha y Hj). simpl in *. lia.
  - apply Forall_forall. intros y Hy. specialize (Hx y (b, c) Hy ltac:(apply elem_of_cons; by left)).
    change (Z.compare y.1 b = Lt) in Hx. rewrite Z.compare_lt_iff in Hx. simpl in *. lia.
Qed.
