(* ===== verification/Simd.v ===== *)
(** Byte search in small arrays: the SSE intrinsics the x86-64 build uses, the
    bit tricks of the portable build, and their common specification as the
    index of the first byte that satisfies a test. *)

From S2P Require Import Prelude Words.

(** Build configuration: whether [UNODB_DETAIL_X86_64] is defined.  When it is
    not, the model follows the portable branch (neither x86-64 nor AArch64).
    [uninit_byte] is what an indeterminate byte of a fresh node holds. *)
Class Target := {
  x86_64 : bool;
  uninit_byte : Z;
  uninit_byte_is_byte : is_byte uninit_byte;
}.

(** ** Specification: first index that satisfies a test *)

Fixpoint first_index (l : list bool) : option nat :=
  match l with
  | [] => None
  | true :: _ => Some 0%nat
  | false :: l' => S <$> first_index l'
  end.

Fixpoint count_true (l : list bool) : nat :=
  match l with
  | [] => 0
  | b :: l' => (if b then 1 else 0) + count_true l'
  end.

Lemma first_index_Some l i :
  first_index l = Some i → l !! i = Some true ∧ ∀ j, (j < i)%nat → l !! j = Some false.
Proof.
  revert i. induction l as [|[] l IH]; simpl; intros i Hi; [done| |].
  - simplify_eq. split; [done|lia].
  - apply fmap_Some in Hi as (k & [Hk Hlt]%IH & ->). split; [done|].
    intros [|j] Hj; [done|]. apply Hlt. lia.
Qed.

Lemma first_index_None l : first_index l = None → ∀ j, l !! j ≠ Some true.
Proof.
  induction l as [|[] l IH]; simpl; [done..|].
  intros Hn%fmap_None [|j]; [done|]. by apply IH.
Qed.

Lemma first_index_take l m : first_index (take m l) = i ← first_index l; guard (i < m)%nat;; Some i.
Proof.
  revert m. induction l as [|[] l IH]; intros [|m]; simpl; try done.
  - by destruct (first_index l).
  - rewrite IH. destruct (first_index l) as [i|]; simpl; [|done].
    destruct (decide (i < m)%nat).
    + by rewrite !option_guard_True by lia.
    + by rewrite !option_guard_False by lia.
Qed.

Lemma first_index_app l1 l2 :
  first_index (l1 ++ l2) =
  match first_index l1 with Some i => Some i | None => Nat.add (length l1) <$> first_index l2 end.
Proof.
  induction l1 as [|[] l1 IH]; simpl; [by destruct (first_index l2)|done|]. rewrite IH.
  destruct (first_index l1); simpl; [done|]. by destruct (first_index l2).
Qed.

(** How many bytes are below [b], in a list split at [b]. *)
Lemma count_true_split (l1 l2 : list Z) (f : Z → bool) :
  Forall (λ k, f k = true) l1 → Forall (λ k, f k = false) l2 →
  count_true (f <$> (l1 ++ l2)) = length l1.
Proof.
  intros H1 H2. induction H1 as [|k l1 Hk _ IH]; simpl.
  - induction H2 as [|k l2 Hk _ IH]; simpl; [done|]. by rewrite Hk.
  - rewrite Hk. by f_equal.
Qed.

Lemma first_index_split (l1 l2 : list Z) (f : Z → bool) :
  Forall (λ k, f k = false) l1 → Forall (λ k, f k = true) l2 →
  default (length (l1 ++ l2)) (first_index (f <$> (l1 ++ l2))) = length l1.
Proof.
  intros H1 H2. induction H1 as [|k l1 Hk _ IH]; simpl.
  - by destruct H2 as [|k l2 Hk _]; simpl; [|rewrite Hk].
  - rewrite Hk. revert IH. change (list_fmap Z bool f (l1 ++ l2)) with (f <$> (l1 ++ l2)).
    destruct (first_index _); simpl; congruence.
Qed.

(** ** The bit field that a byte mask reduces to *)

Fixpoint bits_of (l : list bool) : Z :=
  match l with
  | [] => 0
  | b :: l' => Z.b2z b + 2 * bits_of l'
  end.

(** A 128-bit register as its 16 bytes. *)
Definition m128 := list Z.

Definition _mm_set1_epi8 (b : Z) : m128 := replicate 16 b.
Definition _mm_cvtsi32_si128 (w : Z) : m128 := le_bytes 4 w ++ replicate 12 0.
Definition _mm_cmpeq_epi8 (x y : m128) : m128 :=
  zip_with (λ a b, if a =? b then 255 else 0) x y.
Definition _mm_max_epu8 (x y : m128) : m128 := zip_with Z.max x y.
(** The most significant bit of each byte. *)
Definition _mm_movemask_epi8 (x : m128) : Z := bits_of ((λ b, Z.testbit b 7) <$> x).

(** [src/art_internal_impl.hpp:52-56] _mm_cmple_epu8 *)
Definition _mm_cmple_epu8 (x y : m128) : m128 := _mm_cmpeq_epi8 (_mm_max_epu8 y x) y.

(** ** The portable bit tricks on a 32-bit word of four bytes *)

(** [src/art_internal_impl.hpp:60-65] has_zero_byte *)
Definition has_zero_byte (v : Z) : Z :=
  wrap32 (Z.land (Z.land (wrap64 (v - 0x01010101)) (wrap32 (Z.lnot v))) 0x80808080).

(** [src/art_internal_impl.hpp:67-70] contains_byte *)
Definition contains_byte (v b : Z) : Z :=
  has_zero_byte (Z.lxor v (wrap32 (0xFFFFFFFF / 255 * b))).

(** ** The search for a null pointer among eight *)

(** [_mm_cmpeq_epi64] against zero on two pointers, given which are null. *)
Definition _mm_cmpeq_epi64_zero (nulls : list bool) : m128 :=
  mjoin ((λ z : bool, replicate 8 (if z then 255 else 0)) <$> nulls).

(** The four 32-bit lanes of a register. *)
Definition lanes32 (x : m128) : list Z :=
  (λ i, le_word (take 4 (drop (4 * i) x))) <$> seq 0 4.

(** Signed saturation of a 32-bit lane to 16 bits. *)
Definition saturate16 (w : Z) : Z := Z.max (-32768) (Z.min 32767 (swrap 32 w)).

Definition _mm_packs_epi32 (x y : m128) : m128 :=
  mjoin ((λ w, le_bytes 2 (wrap16 (saturate16 w))) <$> (lanes32 x ++ lanes32 y)).

(** The comparison mask the SSE4.2 loop computes for eight pointers. *)
Definition null_mask (nulls : list bool) : Z :=
  let cmp k := _mm_cmpeq_epi64_zero (take 2 (drop (2 * k) nulls)) in
  let vec01_cmp := _mm_packs_epi32 (cmp 0%nat) (cmp 1%nat) in
  let vec23_cmp := _mm_packs_epi32 (cmp 2%nat) (cmp 3%nat) in
  let vec_cmp := _mm_packs_epi32 vec01_cmp vec23_cmp in
  _mm_movemask_epi8 vec_cmp.

(** ** Lemmas: bit fields *)

Lemma bits_of_nonneg l : 0 ≤ bits_of l.
Proof. induction l as [|[] l IH]; simpl; lia. Qed.

Lemma bits_of_zero l : bits_of l = 0 ↔ first_index l = None.
Proof.
  induction l as [|[] l IH]; simpl; [done| |].
  - split; [|done]. pose proof (bits_of_nonneg l). lia.
  - rewrite fmap_None, <- IH. lia.
Qed.

Lemma pos_ctz_xO w x : 0 < x → countr_zero w (2 * x) = S (countr_zero w x).
Proof. by destruct x. Qed.

Lemma countr_zero_bits_of w l i : first_index l = Some i → countr_zero w (bits_of l) = i.
Proof.
  revert i. induction l as [|[] l IH]; simpl; intros i Hi; [done| |].
  - simplify_eq. pose proof (bits_of_nonneg l). by destruct (bits_of l); [..|lia].
  - apply fmap_Some in Hi as (j & Hj & ->).
    change (countr_zero w (2 * bits_of l) = S j).
    rewrite pos_ctz_xO; [by rewrite (IH j)|]. pose proof (bits_of_nonneg l).
    enough (bits_of l ≠ 0) by lia. rewrite bits_of_zero. congruence.
Qed.

Lemma popcount_bits_of l : popcount (bits_of l) = count_true l.
Proof.
  induction l as [|b l IH]; simpl; [done|]. rewrite <- IH.
  pose proof (bits_of_nonneg l). destruct b, (bits_of l); simpl; try done; lia.
Qed.

(** Masking with [(1 << n) - 1] keeps the first [n] tests. *)
Lemma bits_of_take l (n : nat) : Z.land (bits_of l) ((1 ≪ Z.of_nat n) - 1) = bits_of (take n l).
Proof.
  rewrite shiftl_1_ones, Z.land_ones by lia. revert n.
  induction l as [|b l IH]; intros n.
  - simpl. rewrite take_nil. simpl. apply Z.mod_0_l. lia.
  - destruct n as [|n]; [by rewrite Z.mod_1_r|].
    simpl take. cbn [bits_of]. rewrite <- IH, Nat2Z.inj_succ, Z.pow_succ_r by lia.
    pose proof (Z.pow_pos_nonneg 2 (Z.of_nat n) ltac:(lia) ltac:(lia)).
    rewrite (Z.div_mod (bits_of l) (2 ^ Z.of_nat n)) at 1 by lia.
    pose proof (Z.mod_pos_bound (bits_of l) (2 ^ Z.of_nat n) ltac:(lia)).
    replace (Z.b2z b + 2 * _) with
      (Z.b2z b + 2 * (bits_of l mod 2 ^ Z.of_nat n) + bits_of l / 2 ^ Z.of_nat n * (2 * 2 ^ Z.of_nat n)) by lia.
    rewrite Z_mod_plus_full, Z.mod_small; destruct b; simpl Z.b2z; lia.
Qed.

Lemma movemask_cmpeq (x y : m128) :
  _mm_movemask_epi8 (_mm_cmpeq_epi8 x y) = bits_of (zip_with Z.eqb x y).
Proof.
  unfold _mm_movemask_epi8, _mm_cmpeq_epi8. f_equal.
  revert y. induction x as [|a x IH]; intros [|b y]; simpl; [done..|].
  f_equal; [|apply IH]. by destruct (a =? b).
Qed.

Lemma zip_with_replicate {A B C} (f : A → B → C) n x (l : list B) :
  (length l ≤ n)%nat → zip_with f (replicate n x) l = f x <$> l.
Proof.
  revert n. induction l as [|b l IH]; intros [|n] Hn; simpl in *; try done; [lia|].
  f_equal. apply IH. lia.
Qed.

Lemma zip_with_replicate_r {A B C} (f : A → B → C) n x (l : list A) :
  (length l ≤ n)%nat → zip_with f l (replicate n x) = (λ a, f a x) <$> l.
Proof.
  revert n. induction l as [|b l IH]; intros [|n] Hn; simpl in *; try done; [lia|].
  f_equal. apply IH. lia.
Qed.

(** Equality search: the lanes that equal [b]. *)
Lemma movemask_eq_byte (b : Z) (ks : m128) :
  (length ks ≤ 16)%nat →
  _mm_movemask_epi8 (_mm_cmpeq_epi8 (_mm_set1_epi8 b) ks) = bits_of (Z.eqb b <$> ks).
Proof. intros. rewrite movemask_cmpeq. unfold _mm_set1_epi8. by rewrite zip_with_replicate. Qed.

Lemma zip_with_max_eqb (x y : list Z) :
  zip_with Z.eqb (zip_with Z.max y x) y = zip_with Z.leb x y.
Proof.
  revert y. induction x as [|a x IH]; intros [|b y]; simpl; [done..|].
  f_equal; [|apply IH]. zcases; lia.
Qed.

(** Unsigned [<=] search, with the replicated byte on either side. *)
Lemma movemask_le_byte_r (b : Z) (ks : m128) :
  (length ks ≤ 16)%nat →
  _mm_movemask_epi8 (_mm_cmple_epu8 ks (_mm_set1_epi8 b)) = bits_of ((λ k, k <=? b) <$> ks).
Proof.
  intros. unfold _mm_cmple_epu8. rewrite movemask_cmpeq, zip_with_max_eqb.
  unfold _mm_set1_epi8. by rewrite zip_with_replicate_r.
Qed.

Lemma movemask_le_byte_l (b : Z) (ks : m128) :
  (length ks ≤ 16)%nat →
  _mm_movemask_epi8 (_mm_cmple_epu8 (_mm_set1_epi8 b) ks) = bits_of (Z.leb b <$> ks).
Proof.
  intros. unfold _mm_cmple_epu8. rewrite movemask_cmpeq, zip_with_max_eqb.
  unfold _mm_set1_epi8. by rewrite zip_with_replicate.
Qed.

(** ** Lemmas: [contains_byte] finds the first equal byte *)

(** Repeat the byte [c] in [n] bytes. *)
Fixpoint rep_byte (c : Z) (n : nat) : Z :=
  match n with O => 0 | S n' => c + 256 * rep_byte c n' end.

(** [has_zero_byte] on unbounded integers, for any number of bytes. *)
Definition zero_bits (v : Z) (n : nat) : Z :=
  Z.land (Z.land (v - rep_byte 1 n) (Z.lnot v)) (rep_byte 128 n).

Lemma testbit_cons_byte c z j :
  is_byte c → 0 ≤ j →
  Z.testbit (c + 256 * z) j = if decide (j < 8) then Z.testbit c j else Z.testbit z (j - 8).
Proof.
  unfold is_byte. intros Hc Hj. case_decide.
  - rewrite <- (Z.mod_pow2_bits_low (c + 256 * z) 8) by lia. f_equal.
    change (2 ^ 8) with 256. Z.div_mod_to_equations. lia.
  - replace j with (j - 8 + 8) at 1 by lia. rewrite <- Z.div_pow2_bits by lia. f_equal.
    change (2 ^ 8) with 256. Z.div_mod_to_equations. lia.
Qed.

Lemma land_cons_byte a b x y :
  is_byte a → is_byte b → Z.land (a + 256 * x) (b + 256 * y) = Z.land a b + 256 * Z.land x y.
Proof.
  intros Ha Hb. assert (is_byte (Z.land a b)) by (apply (land_range 8); unfold is_byte in *; lia).
  apply Z.bits_inj'. intros j Hj. rewrite Z.land_spec, !testbit_cons_byte by done.
  by case_decide; rewrite Z.land_spec.
Qed.

Lemma lnot_cons_byte b v : is_byte b → Z.lnot (b + 256 * v) = (255 - b) + 256 * Z.lnot v.
Proof. unfold Z.lnot. lia. Qed.

(** One byte of the trick: no borrow leaves a non-zero byte, whose result bit is
    clear; at a zero byte the result bit is set. *)
Lemma zero_byte_test b : is_byte b → b ≠ 0 → Z.land (Z.land (b - 1) (255 - b)) 128 = 0.
Proof.
  unfold is_byte. intros Hb Hne.
  assert (Hall : forallb (λ b, Z.land (Z.land (b - 1) (255 - b)) 128 =? 0) (seqZ 1 255) = true)
    by (by vm_compute).
  rewrite forallb_forall in Hall. apply Z.eqb_eq, Hall, list_elem_of_In, elem_of_seqZ. lia.
Qed.

Lemma zero_bits_cons_ne b v n :
  is_byte b → b ≠ 0 → zero_bits (b + 256 * v) (S n) = 256 * zero_bits v n.
Proof.
  unfold is_byte. intros Hb Hne. unfold zero_bits. cbn [rep_byte].
  rewrite lnot_cons_byte by done.
  replace (b + 256 * v - (1 + 256 * rep_byte 1 n)) with ((b - 1) + 256 * (v - rep_byte 1 n)) by lia.
  rewrite !land_cons_byte, zero_byte_test by (try apply (land_range 8); unfold is_byte; lia). lia.
Qed.

Lemma zero_bits_cons_zero v n : ∃ x, zero_bits (0 + 256 * v) (S n) = 128 + 256 * x.
Proof.
  unfold zero_bits. cbn [rep_byte]. rewrite lnot_cons_byte by (unfold is_byte; lia).
  replace (0 + 256 * v - (1 + 256 * rep_byte 1 n)) with (255 + 256 * (v - rep_byte 1 n - 1)) by lia.
  rewrite !land_cons_byte by (try apply (land_range 8); unfold is_byte; lia).
  by eexists.
Qed.

Lemma rep_byte_nonneg c n : 0 ≤ c → 0 ≤ rep_byte c n.
Proof. intros. induction n; simpl; lia. Qed.

Lemma zero_bits_nonneg v n : 0 ≤ zero_bits v n.
Proof. apply Z.land_nonneg. right. apply rep_byte_nonneg. lia. Qed.

Lemma countr_zero_256 w x : 0 < x → countr_zero w (256 * x) = (8 + countr_zero w x)%nat.
Proof. by destruct x. Qed.

Lemma countr_zero_128 w x : 0 ≤ 128 + 256 * x → countr_zero w (128 + 256 * x) = 7%nat.
Proof. intros. replace (128 + 256 * x) with (128 * (1 + 2 * x)) by lia. by destruct x; [..|lia]. Qed.

Lemma zero_bits_first_index l :
  is_bytes l →
  match first_index (Z.eqb 0 <$> l) with
  | None => zero_bits (le_word l) (length l) = 0
  | Some i => zero_bits (le_word l) (length l) ≠ 0 ∧
              (countr_zero 32 (zero_bits (le_word l) (length l)) / 8)%nat = i
  end.
Proof.
  induction 1 as [|b l Hb Hl IH]; [done|]. cbn [le_word length fmap list_fmap].
  destruct (Z.eqb_spec 0 b) as [<-|Hne]; cbn [first_index].
  - destruct (zero_bits_cons_zero (le_word l) (length l)) as [x Hx].
    pose proof (zero_bits_nonneg (0 + 256 * le_word l) (S (length l))) as Hnn.
    rewrite Hx in Hnn |- *. rewrite countr_zero_128 by done. split; [lia|done].
  - rewrite zero_bits_cons_ne by done.
    change (list_fmap Z bool (Z.eqb 0) l) with (Z.eqb 0 <$> l).
    destruct (first_index (Z.eqb 0 <$> l)) as [i|]; cbn [fmap option_fmap option_map]; [|lia].
    destruct IH as [Hz Hc]. pose proof (zero_bits_nonneg (le_word l) (length l)).
    split; [lia|]. rewrite countr_zero_256 by lia.
    change (8 + countr_zero 32 (zero_bits (le_word l) (length l)))%nat
      with (1 * 8 + countr_zero 32 (zero_bits (le_word l) (length l)))%nat.
    rewrite Nat.div_add_l by lia. lia.
Qed.

Lemma has_zero_byte_zero_bits v : 0 ≤ v < 2 ^ 32 → has_zero_byte v = zero_bits v 4.
Proof.
  intros Hv. unfold has_zero_byte, zero_bits.
  change 0x01010101 with (rep_byte 1 4). change 0x80808080 with (rep_byte 128 4).
  unfold wrap. rewrite <- !Z.land_ones by lia. apply Z.bits_inj'. intros j Hj.
  rewrite !Z.land_spec.
  destruct (decide (j < 32)).
  - rewrite !Z.ones_spec_low by lia. by rewrite !andb_true_r.
  - assert (Z.testbit (rep_byte 128 4) j = false) as ->.
    { rewrite <- (Z.mod_small (rep_byte 128 4) (2 ^ 32)) by done.
      apply Z.mod_pow2_bits_high. lia. }
    by rewrite !andb_false_r.
Qed.

Lemma lxor_is_byte a b : is_byte a → is_byte b → is_byte (Z.lxor a b).
Proof.
  intros Ha Hb.
  replace (Z.lxor a b) with (Z.lxor a b mod 2 ^ 8); [apply (wrap_range 8); lia|].
  apply Z.bits_inj'. intros j Hj. destruct (decide (j < 8)).
  - by rewrite Z.mod_pow2_bits_low.
  - rewrite Z.mod_pow2_bits_high, Z.lxor_spec by lia. unfold is_byte in *.
    rewrite <- (Z.mod_small a (2 ^ 8)), <- (Z.mod_small b (2 ^ 8)) by lia.
    by rewrite !Z.mod_pow2_bits_high by lia.
Qed.

Lemma lxor_cons_byte a b x y :
  is_byte a → is_byte b → Z.lxor (a + 256 * x) (b + 256 * y) = Z.lxor a b + 256 * Z.lxor x y.
Proof.
  intros Ha Hb. pose proof (lxor_is_byte a b Ha Hb).
  apply Z.bits_inj'. intros j Hj. rewrite Z.lxor_spec, !testbit_cons_byte by done.
  by case_decide; rewrite Z.lxor_spec.
Qed.

Lemma lxor_rep_byte l b :
  is_bytes l → is_byte b →
  Z.lxor (le_word l) (rep_byte b (length l)) = le_word ((λ k, Z.lxor k b) <$> l).
Proof.
  intros Hl Hb. induction Hl as [|k l Hk Hl IH]; [done|].
  cbn [le_word length rep_byte fmap list_fmap]. by rewrite lxor_cons_byte, IH.
Qed.

(** The portable search of a four-byte node is the search for the first equal
    byte. *)
Lemma contains_byte_first_index l b :
  is_bytes l → is_byte b → length l = 4%nat →
  match first_index (Z.eqb b <$> l) with
  | None => contains_byte (le_word l) b = 0
  | Some i => contains_byte (le_word l) b ≠ 0 ∧
              (countr_zero 32 (contains_byte (le_word l) b) / 8)%nat = i
  end.
Proof.
  intros Hl Hb Hlen. unfold contains_byte.
  replace (wrap32 (0xFFFFFFFF / 255 * b)) with (rep_byte b (length l)).
  2:{ rewrite Hlen. unfold is_byte in Hb. change (0xFFFFFFFF / 255) with 16843009.
      cbn [rep_byte]. rewrite wrap_small; lia. }
  rewrite lxor_rep_byte by done.
  set (l' := (λ k, Z.lxor k b) <$> l).
  assert (Hl' : is_bytes l').
  { apply Forall_fmap. eapply Forall_impl; [exact Hl|]. intros. by apply lxor_is_byte. }
  assert (length l' = 4%nat) as Hlen' by (by unfold l'; rewrite length_fmap).
  rewrite has_zero_byte_zero_bits.
  2:{ pose proof (le_word_range l' Hl') as Hr. by rewrite Hlen' in Hr. }
  pose proof (zero_bits_first_index l' Hl') as H. rewrite Hlen' in H.
  replace (Z.eqb 0 <$> l') with (Z.eqb b <$> l) in H; [done|].
  unfold l'. rewrite <- list_fmap_compose. apply list_fmap_ext. intros i k _.
  change ((Z.eqb 0 ∘ (λ k0, Z.lxor k0 b)) k) with (Z.eqb 0 (Z.lxor k b)).
  destruct (Z.eqb_spec b k) as [->|Hne]; [by rewrite Z.lxor_nilpotent|].
  symmetry. apply Z.eqb_neq. intros H0%eq_sym%Z.lxor_eq. congruence.
Qed.

(** ** Lemmas: the null mask finds the first null pointer *)

Definition null_mask_ok (l : list bool) : bool :=
  match first_index l with
  | None => null_mask l =? 0
  | Some i => negb (null_mask l =? 0) && ((countr_zero 64 (null_mask l) + 1) / 2 =? i)%nat
  end.

(** All the boolean lists of length [n]. *)
Fixpoint bool_lists (n : nat) : list (list bool) :=
  match n with
  | O => [[]]
  | S n' => (cons true <$> bool_lists n') ++ (cons false <$> bool_lists n')
  end.

Lemma elem_of_bool_lists l : l ∈ bool_lists (length l).
Proof.
  induction l as [|[] l IH]; simpl; apply elem_of_app || by apply elem_of_cons; left.
  - left. by apply list_elem_of_fmap_2.
  - right. by apply list_elem_of_fmap_2.
Qed.

Lemma null_mask_all : forallb null_mask_ok (bool_lists 8) = true.
Proof. by vm_compute. Qed.

Lemma null_mask_spec l :
  length l = 8%nat →
  match first_index l with
  | None => null_mask l = 0
  | Some i => null_mask l ≠ 0 ∧ ((countr_zero 64 (null_mask l) + 1) / 2)%nat = i
  end.
Proof.
  intros Hl. pose proof null_mask_all as Hall. rewrite forallb_forall in Hall.
  specialize (Hall l). rewrite <- list_elem_of_In, <- Hl in Hall. specialize (Hall (elem_of_bool_lists l)).
  unfold null_mask_ok in Hall. destruct (first_index l).
  - apply andb_true_iff in Hall as [H1%negb_true_iff%Z.eqb_neq H2%Nat.eqb_eq]. done.
  - by apply Z.eqb_eq.
Qed.
