(* ===== verification/InodeBase.v ===== *)
(** What all internal node types share: the header [basic_inode_impl], node
    pointers as an interface, the scanning loops, and the sorted parallel arrays
    of the two smaller node types. *)

From Stdlib Require Import Sorted.
From S2P Require Import Prelude Words ArtKey KeyPrefix SortedAssoc Simd.

(** ** Interfaces *)

(** What a node needs of its child pointers: the null pointer, the tag test for
    leaves, the key stored in a leaf, and access to the prefix word of the
    internal node a pointer refers to.  The slots of a fresh node that the code
    leaves uninitialised hold [null_ptr] in the model; no theorem depends on
    their contents. *)
Class NodePtr (P : Type) := {
  null_ptr : P;
  is_null : P → bool;
  is_leaf : P → bool;
  leaf_key_view : P → list Z;
  ptr_key_prefix : P → key_prefix;
  ptr_map_prefix : (key_prefix → key_prefix) → P → P;
  is_null_null_ptr : is_null null_ptr = true;
  is_null_map_prefix : ∀ f p, is_null (ptr_map_prefix f p) = is_null p;
}.

#[export] Instance node_ptr_inhabited `{NodePtr P} : Inhabited P := populate null_ptr.

(** ** The header *)

(** [src/node_type.hpp:26-34] node_type *)
Inductive node_type := LEAF | I4 | I16 | I48 | I256.

#[export] Instance node_type_eq_dec : EqDecision node_type.
Proof. solve_decision. Defined.

(** The fields of [basic_inode_impl]: the prefix word and the 8-bit count, in
    which 256 children are 0.
    [src/art_internal_impl.hpp:1144-1148] basic_inode_impl *)
Record inode_impl := Impl {
  k_prefix : key_prefix;
  children_count : Z;
}.

(** [src/art_internal_impl.hpp:1150-1150] child_not_found_i *)
Definition child_not_found_i : Z := 0xFF.

(** The index of the child in the node and the slot that holds the pointer to
    it, or no slot.
    [src/art_internal_impl.hpp:823-830] find_result *)
Definition find_result := (Z * option nat)%type.

(** [src/art_internal_impl.hpp:1152-1154] child_not_found *)
Definition child_not_found : find_result := (child_not_found_i, None).

(** The header of a node made from a full smaller or a minimal larger node. *)
Definition with_count (i : inode_impl) (c : Z) : inode_impl := Impl (k_prefix i) c.
Definition with_prefix (i : inode_impl) (w : key_prefix) : inode_impl := Impl w (children_count i).

(** ** The four layouts *)

(** [src/art_internal_impl.hpp:1680-1697] basic_inode_4 *)
Record inode_4 (P : Type) := Inode4 {
  i4_impl : inode_impl;
  i4_keys : list Z;
  i4_children : list P;
}.

(** [src/art_internal_impl.hpp:2089-2104] basic_inode_16 *)
Record inode_16 (P : Type) := Inode16 {
  i16_impl : inode_impl;
  i16_keys : list Z;
  i16_children : list P;
}.

(** [src/art_internal_impl.hpp:2562-2645] basic_inode_48 *)
Record inode_48 (P : Type) := Inode48 {
  i48_impl : inode_impl;
  child_indexes : list Z;
  pointer_array : list P;
}.

(** [src/art_internal_impl.hpp:2899-2901] basic_inode_256 *)
Record inode_256 (P : Type) := Inode256 {
  i256_impl : inode_impl;
  i256_children : list P;
}.

#[global] Arguments Inode4 {P} _ _ _.
#[global] Arguments i4_impl {P} _.
#[global] Arguments i4_keys {P} _.
#[global] Arguments i4_children {P} _.
#[global] Arguments Inode16 {P} _ _ _.
#[global] Arguments i16_impl {P} _.
#[global] Arguments i16_keys {P} _.
#[global] Arguments i16_children {P} _.
#[global] Arguments Inode48 {P} _ _ _.
#[global] Arguments i48_impl {P} _.
#[global] Arguments child_indexes {P} _.
#[global] Arguments pointer_array {P} _.
#[global] Arguments Inode256 {P} _ _.
#[global] Arguments i256_impl {P} _.
#[global] Arguments i256_children {P} _.

(** ** Loops over indexes *)

(** [for (i = start; i < start + n; ++i) if (p(i)) return i;] *)
Fixpoint find_up (p : nat → bool) (i n : nat) : option nat :=
  match n with
  | O => None
  | S n' => if p i then Some i else find_up p (S i) n'
  end.

(** [for (i = n - 1; i >= 0; --i) if (p(i)) return i;] *)
Fixpoint find_down (p : nat → bool) (n : nat) : option nat :=
  match n with
  | O => None
  | S i => if p i then Some i else find_down p i
  end.

Lemma find_up_Some p i n j :
  find_up p i n = Some j → (i ≤ j < i + n)%nat ∧ p j = true ∧ ∀ j', (i ≤ j' < j)%nat → p j' = false.
Proof.
  revert i. induction n as [|n IH]; intros i; simpl; [done|]. destruct (p i) eqn:Hp.
  - intros. simplify_eq. split; [lia|split; [done|intros; lia]].
  - intros (Hr & Hj & Hl)%IH. split; [lia|split; [done|]]. intros j' Hj'.
    destruct (decide (j' = i)) as [->|]; [done|]. apply Hl. lia.
Qed.

Lemma find_up_None p i n : find_up p i n = None → ∀ j, (i ≤ j < i + n)%nat → p j = false.
Proof.
  revert i. induction n as [|n IH]; intros i; simpl; [lia|]. destruct (p i) eqn:Hp; [done|].
  intros Hn j Hj. destruct (decide (j = i)) as [->|]; [done|]. eapply IH; [done|lia].
Qed.

Lemma find_down_Some p n j :
  find_down p n = Some j → (j < n)%nat ∧ p j = true ∧ ∀ j', (j < j' < n)%nat → p j' = false.
Proof.
  induction n as [|n IH]; simpl; [done|]. destruct (p n) eqn:Hp.
  - intros. simplify_eq. split; [lia|split; [done|intros; lia]].
  - intros (Hr & Hj & Hl)%IH. split; [lia|split; [done|]]. intros j' Hj'.
    destruct (decide (j' = n)) as [->|]; [done|]. apply Hl. lia.
Qed.

Lemma find_down_None p n : find_down p n = None → ∀ j, (j < n)%nat → p j = false.
Proof.
  induction n as [|n IH]; simpl; [lia|]. destruct (p n) eqn:Hp; [done|].
  intros Hn j Hj. destruct (decide (j = n)) as [->|]; [done|]. apply IH; [done|lia].
Qed.

Lemma find_up_unique p i n j :
  (i ≤ j < i + n)%nat → p j = true → (∀ j', (i ≤ j' < j)%nat → p j' = false) → find_up p i n = Some j.
Proof.
  intros Hj Hp Hl. destruct (find_up p i n) as [j'|] eqn:E.
  - apply find_up_Some in E as (? & Hp' & Hl'). f_equal.
    destruct (lt_eq_lt_dec j j') as [[|]|]; [|done|].
    + rewrite Hl' in Hp by lia. done.
    + rewrite Hl in Hp' by lia. done.
  - rewrite (find_up_None _ _ _ E) in Hp by lia. done.
Qed.

Lemma find_down_unique p n j :
  (j < n)%nat → p j = true → (∀ j', (j < j' < n)%nat → p j' = false) → find_down p n = Some j.
Proof.
  intros Hj Hp Hl. destruct (find_down p n) as [j'|] eqn:E.
  - apply find_down_Some in E as (? & Hp' & Hl'). f_equal.
    destruct (lt_eq_lt_dec j j') as [[|]|]; [|done|].
    + rewrite Hl in Hp' by lia. done.
    + rewrite Hl' in Hp by lia. done.
  - rewrite (find_down_None _ _ E) in Hp by lia. done.
Qed.

(** ** Arrays with a prefix in use *)

(** [for (i = hi; i > pos; --i) a[i] = a[i - 1];] *)
Fixpoint shift_up {A} `{Inhabited A} (a : list A) (pos hi : nat) : list A :=
  match hi with
  | O => a
  | S i => if (pos <? hi)%nat then shift_up (<[hi := a !!! i]> a) pos i else a
  end.

(** [for (i = lo; i < lo + n; ++i) a[i] = a[i + 1];] *)
Fixpoint shift_down {A} `{Inhabited A} (a : list A) (lo n : nat) : list A :=
  match n with
  | O => a
  | S n' => shift_down (<[lo := a !!! (S lo)]> a) (S lo) n'
  end.

(** [std::copy_backward(a + first, a + last, a + d_last)] on one array. *)
Fixpoint copy_backward {A} `{Inhabited A} (a : list A) (first last d_last : nat) : list A :=
  match last, d_last with
  | S l, S d => if (first <? last)%nat then copy_backward (<[d := a !!! l]> a) first l d else a
  | _, _ => a
  end.

(** [while (n-- > 0) dst[di++] = src[si++];] *)
Fixpoint copy_range {A} `{Inhabited A} (dst src : list A) (di si n : nat) : list A :=
  match n with
  | O => dst
  | S n' => copy_range (<[di := src !!! si]> dst) src (S di) (S si) n'
  end.

Section arrays.
Context {A : Type} `{Inhabited A}.
Implicit Types a : list A.

Lemma length_shift_up a pos hi : length (shift_up a pos hi) = length a.
Proof.
  revert a. induction hi as [|i IH]; intros a; [done|]. cbn [shift_up].
  destruct (pos <? S i)%nat; [|done]. by rewrite IH, length_insert.
Qed.

Lemma length_shift_down a lo n : length (shift_down a lo n) = length a.
Proof.
  revert a lo. induction n as [|n IH]; intros a lo; [done|]. cbn [shift_down].
  by rewrite IH, length_insert.
Qed.

Lemma lookup_shift_up a pos hi j :
  (hi < length a)%nat →
  shift_up a pos hi !! j =
  if decide (pos < j ≤ hi)%nat then a !! pred j else a !! j.
Proof.
  revert a. induction hi as [|i IH]; intros a Hl; cbn [shift_up].
  - case_decide; [lia|done].
  - destruct (Nat.ltb_spec pos (S i)) as [Hp|Hp]; [|by rewrite decide_False by lia].
    rewrite IH by (rewrite length_insert; lia).
    destruct (decide (j = S i)) as [->|Hj].
    + rewrite decide_False, decide_True by lia.
      rewrite list_lookup_insert_eq by lia. symmetry. apply list_lookup_lookup_total_lt. lia.
    + destruct (decide (pos < j ≤ i)%nat).
      * rewrite decide_True by lia. rewrite list_lookup_insert_ne by lia. done.
      * rewrite decide_False by lia. rewrite list_lookup_insert_ne by lia. done.
Qed.

Lemma lookup_shift_down a lo n j :
  (lo + n < length a)%nat →
  shift_down a lo n !! j =
  if decide (lo ≤ j < lo + n)%nat then a !! S j else a !! j.
Proof.
  revert a lo. induction n as [|n IH]; intros a lo Hl; cbn [shift_down].
  - case_decide; [lia|done].
  - rewrite IH by (rewrite length_insert; lia).
    destruct (decide (j = lo)) as [->|Hj].
    + rewrite decide_False, decide_True by lia.
      rewrite list_lookup_insert_eq by lia. symmetry. apply list_lookup_lookup_total_lt. lia.
    + destruct (decide (S lo ≤ j < S lo + n)%nat).
      * rewrite decide_True by lia. rewrite list_lookup_insert_ne by lia. done.
      * rewrite decide_False by lia. rewrite list_lookup_insert_ne by lia. done.
Qed.

Lemma length_copy_range a src di si n : length (copy_range a src di si n) = length a.
Proof.
  revert a di si. induction n as [|n IH]; intros; [done|]. cbn [copy_range].
  by rewrite IH, length_insert.
Qed.

Lemma lookup_copy_range a src di si n j :
  (di + n ≤ length a)%nat → (si + n ≤ length src)%nat →
  copy_range a src di si n !! j =
  if decide (di ≤ j < di + n)%nat then src !! (si + (j - di))%nat else a !! j.
Proof.
  revert a di si. induction n as [|n IH]; intros a di si Ha Hs; cbn [copy_range].
  - by rewrite decide_False by lia.
  - rewrite IH by (rewrite ?length_insert; lia).
    destruct (decide (j = di)) as [->|Hj].
    + rewrite decide_False, decide_True by lia.
      rewrite list_lookup_insert_eq by lia. rewrite Nat.sub_diag, Nat.add_0_r.
      symmetry. apply list_lookup_lookup_total_lt. lia.
    + rewrite list_lookup_insert_ne by done.
      destruct (decide (S di ≤ j < S di + n)%nat).
      * rewrite decide_True by lia. f_equal. lia.
      * by rewrite decide_False by lia.
Qed.

(** Copying the first [n + 1] elements of [src] without element [i]. *)
Lemma copy_skip a src i n :
  (i ≤ n)%nat → (n < length src)%nat → (n ≤ length a)%nat →
  take n (copy_range (copy_range a src 0 0 i) src i (S i) (n - i))
  = take i src ++ drop (S i) (take (S n) src).
Proof.
  intros Hi Hs Ha. apply list_eq. intros j.
  destruct (decide (j < n)%nat).
  - rewrite lookup_take_lt by done.
    rewrite !lookup_copy_range by (rewrite ?length_copy_range; lia).
    destruct (decide (j < i)%nat).
    + rewrite decide_False, decide_True by lia.
      rewrite lookup_app_l by (rewrite length_take; lia). rewrite lookup_take_lt by lia.
      f_equal. lia.
    + rewrite decide_True by lia. rewrite lookup_app_r by (rewrite length_take; lia).
      rewrite length_take, lookup_drop, Nat.min_l, lookup_take_lt by lia. done.
  - rewrite lookup_take_ge by lia. symmetry. apply lookup_ge_None.
    rewrite length_app, length_take, length_drop, length_take. lia.
Qed.

(** Copying the first [n] elements of [src] with [x] put at position [i]. *)
Lemma copy_insert a src i n x :
  (i ≤ n)%nat → (n ≤ length src)%nat → (n < length a)%nat →
  take (S n) (copy_range (<[i := x]> (copy_range a src 0 0 i)) src (S i) i (n - i))
  = take i src ++ x :: drop i (take n src).
Proof.
  intros Hi Hs Ha. apply list_eq. intros j.
  destruct (decide (j < S n)%nat).
  - rewrite lookup_take_lt by done.
    rewrite !lookup_copy_range by (rewrite ?length_insert, ?length_copy_range; lia).
    destruct (lt_eq_lt_dec j i) as [[Hj| ->]|Hj].
    + rewrite decide_False by lia. rewrite list_lookup_insert_ne by lia.
      rewrite lookup_copy_range, decide_True by lia.
      rewrite lookup_app_l by (rewrite length_take; lia). rewrite lookup_take_lt by lia.
      f_equal. lia.
    + rewrite decide_False by lia.
      rewrite list_lookup_insert_eq by (rewrite length_copy_range; lia).
      rewrite list_lookup_middle by (rewrite length_take; lia). done.
    + rewrite decide_True by lia. rewrite lookup_app_r by (rewrite length_take; lia).
      rewrite length_take, Nat.min_l, lookup_cons_ne_0, lookup_drop, lookup_take_lt by lia.
      f_equal. lia.
  - rewrite lookup_take_ge by lia. symmetry. apply lookup_ge_None.
    rewrite length_app, length_take. simpl. rewrite length_drop, length_take. lia.
Qed.

Lemma Forall_shift_up (Q : A → Prop) a pos hi :
  (hi < length a)%nat → Forall Q a → Forall Q (shift_up a pos hi).
Proof.
  rewrite !Forall_lookup. intros Hl Ha j x. rewrite lookup_shift_up by done.
  case_decide; apply Ha.
Qed.

Lemma Forall_shift_down (Q : A → Prop) a lo n :
  (lo + n < length a)%nat → Forall Q a → Forall Q (shift_down a lo n).
Proof.
  rewrite !Forall_lookup. intros Hl Ha j x. rewrite lookup_shift_down by done.
  case_decide; apply Ha.
Qed.

Lemma Forall_copy_range (Q : A → Prop) a src di si n :
  (di + n ≤ length a)%nat → (si + n ≤ length src)%nat →
  Forall Q a → Forall Q src → Forall Q (copy_range a src di si n).
Proof.
  rewrite !Forall_lookup. intros Hl Hl2 Ha Hs j x. rewrite lookup_copy_range by done.
  case_decide; [apply Hs|apply Ha].
Qed.

Lemma shift_up_none a pos : shift_up a pos pos = a.
Proof. destruct pos as [|i]; [done|]. cbn [shift_up]. by rewrite Nat.ltb_irrefl. Qed.

(** [copy_backward] by one place is the insertion loop. *)
Lemma copy_backward_shift_up a pos hi : copy_backward a pos hi (S hi) = shift_up a pos hi.
Proof.
  revert a. induction hi as [|i IH]; intros a; [done|]. cbn [copy_backward shift_up].
  destruct (pos <? S i)%nat; [|done]. apply IH.
Qed.

(** Opening a gap at [pos] among the first [n] elements and filling it. *)
Lemma insert_gap a pos n x :
  (pos ≤ n)%nat → (n < length a)%nat →
  take (S n) (<[pos := x]> (shift_up a pos n)) = take pos a ++ x :: drop pos (take n a).
Proof.
  intros Hp Hn. apply list_eq. intros j.
  destruct (decide (j < S n)%nat).
  - rewrite lookup_take_lt by done.
    destruct (lt_eq_lt_dec j pos) as [[Hj| ->]|Hj].
    + rewrite list_lookup_insert_ne, lookup_shift_up, decide_False by lia.
      rewrite lookup_app_l by (rewrite length_take; lia). by rewrite lookup_take_lt.
    + rewrite list_lookup_insert_eq by (rewrite length_shift_up; lia).
      rewrite list_lookup_middle by (rewrite length_take; lia). done.
    + rewrite list_lookup_insert_ne, lookup_shift_up, decide_True by lia.
      rewrite lookup_app_r by (rewrite length_take; lia). rewrite length_take, Nat.min_l by lia.
      rewrite lookup_cons_ne_0 by lia. rewrite lookup_drop, lookup_take_lt by lia. f_equal. lia.
  - rewrite lookup_take_ge by lia. symmetry. apply lookup_ge_None.
    rewrite length_app, length_take. simpl. rewrite length_drop, length_take. lia.
Qed.

(** Closing the gap left by element [i] among the first [n + 1]. *)
Lemma remove_gap a i n :
  (i ≤ n)%nat → (n < length a)%nat →
  take n (shift_down a i (n - i)) = take i a ++ drop (S i) (take (S n) a).
Proof.
  intros Hi Hn. apply list_eq. intros j.
  destruct (decide (j < n)%nat).
  - rewrite lookup_take_lt, lookup_shift_down by lia.
    destruct (decide (j < i)%nat).
    + rewrite decide_False by lia. rewrite lookup_app_l by (rewrite length_take; lia).
      by rewrite lookup_take_lt.
    + rewrite decide_True by lia. rewrite lookup_app_r by (rewrite length_take; lia).
      rewrite length_take, lookup_drop, Nat.min_l, lookup_take_lt by lia. f_equal. lia.
  - rewrite lookup_take_ge by lia. symmetry. apply lookup_ge_None.
    rewrite length_app, length_take, length_drop, length_take. lia.
Qed.
End arrays.

(** ** Parallel sorted arrays of key bytes and children *)

(** The first [n] pairs of the two arrays. *)
Definition arr_entries {P} (n : nat) (ks : list Z) (cs : list P) : list (Z * P) :=
  zip (take n ks) (take n cs).

(** The key bytes in use, strictly increasing. *)
Definition keys_sorted (n : nat) (ks : list Z) : Prop := StronglySorted Z.lt (take n ks).

Section arr.
Context {P : Type}.
Implicit Types (ks : list Z) (cs : list P).

Lemma lookup_arr_entries n ks cs i b c :
  arr_entries n ks cs !! i = Some (b, c) ↔ (i < n)%nat ∧ ks !! i = Some b ∧ cs !! i = Some c.
Proof.
  unfold arr_entries. rewrite lookup_zip_Some. simpl. rewrite !lookup_take_Some. naive_solver.
Qed.

Lemma length_arr_entries n ks cs :
  (n ≤ length ks)%nat → (n ≤ length cs)%nat → length (arr_entries n ks cs) = n.
Proof. intros. unfold arr_entries. rewrite length_zip_with, !length_take. lia. Qed.

Lemma arr_entries_fst n ks cs :
  (n ≤ length ks)%nat → (n ≤ length cs)%nat → (arr_entries n ks cs).*1 = take n ks.
Proof. intros. unfold arr_entries. apply fst_zip. rewrite !length_take. lia. Qed.

Lemma sorted_fst (es : list (Z * P)) : sorted es ↔ StronglySorted Z.lt es.*1.
Proof.
  induction es as [|[b c] es IH]; simpl; [split; constructor|].
  rewrite sorted_cons, above_byte. split.
  - intros [Ha Hs]. constructor; [by apply IH|].
    by apply (Forall_fmap fst).
  - intros Hs. apply StronglySorted_inv in Hs as [Hs Hf]. split; [|by apply IH].
    by apply (Forall_fmap fst) in Hf.
Qed.

Lemma arr_entries_sorted n ks cs :
  (n ≤ length ks)%nat → (n ≤ length cs)%nat →
  keys_sorted n ks ↔ sorted (arr_entries n ks cs).
Proof. intros. by rewrite sorted_fst, arr_entries_fst. Qed.

(** A sorted list of bytes splits at a byte it does not hold. *)
Lemma sorted_bytes_split (l : list Z) b :
  StronglySorted Z.lt l → b ∉ l →
  ∃ l1 l2, l = l1 ++ l2 ∧ Forall (λ k, k < b) l1 ∧ Forall (λ k, b < k) l2.
Proof.
  induction 1 as [|k l Hs IH Hf]; intros Hb; [by exists [], []|].
  apply not_elem_of_cons in Hb as [Hne Hb].
  destruct (decide (k < b)).
  - destruct (IH Hb) as (l1 & l2 & -> & H1 & H2). exists (k :: l1), l2. split_and!; auto.
  - exists [], (k :: l). split_and!; [done|constructor|]. constructor; [lia|].
    eapply Forall_impl; [exact Hf|]. simpl. lia.
Qed.

Lemma arr_entries_app n ks cs l1 l2 :
  (n ≤ length ks)%nat → (n ≤ length cs)%nat → take n ks = l1 ++ l2 →
  arr_entries n ks cs = zip l1 (take (length l1) cs) ++ zip l2 (drop (length l1) (take n cs)).
Proof.
  intros Hk Hc Heq. unfold arr_entries. rewrite Heq.
  assert (length l1 + length l2 = n)%nat as Hlen.
  { rewrite <- length_app, <- Heq, length_take. lia. }
  rewrite <- (take_drop (length l1) (take n cs)) at 1.
  rewrite zip_with_app by (rewrite !length_take; lia).
  by rewrite take_take, Nat.min_l by lia.
Qed.

Lemma Forall_zip_fst {A B} (Q : A → Prop) (l : list A) (k : list B) :
  Forall Q l → Forall (λ p, Q p.1) (zip l k).
Proof.
  intros Hl. revert k. induction Hl; intros [|y k]; simpl; constructor; auto.
Qed.

(** Insertion in a gap opened at the right position. *)
Lemma arr_insert `{Inhabited P} n ks cs b c l1 l2 :
  (n < length ks)%nat → (n < length cs)%nat → take n ks = l1 ++ l2 →
  Forall (λ k, k < b) l1 → Forall (λ k, b < k) l2 →
  arr_entries (S n) (<[length l1 := b]> (shift_up ks (length l1) n))
    (<[length l1 := c]> (shift_up cs (length l1) n))
  = ins b c (arr_entries n ks cs).
Proof.
  intros Hk Hc Heq H1 H2.
  assert (length l1 + length l2 = n)%nat as Hlen.
  { rewrite <- length_app, <- Heq, length_take. lia. }
  rewrite (arr_entries_app n ks cs l1 l2) by (done || lia).
  rewrite ins_app_below by (by apply below_byte, (Forall_zip_fst (λ k, k < b))).
  rewrite ins_above by (by apply above_byte, (Forall_zip_fst (λ k, b < k))).
  unfold arr_entries. rewrite !insert_gap by lia.
  assert (take (length l1) ks = l1) as ->.
  { replace (take (length l1) ks) with (take (length l1) (take n ks)).
    - by rewrite Heq, take_app_length.
    - rewrite take_take. f_equal. lia. }
  rewrite Heq, drop_app_length.
  rewrite zip_with_app by (rewrite length_take; lia). done.
Qed.

(** Removal by closing the gap at position [i]. *)
Lemma arr_remove `{Inhabited P} n ks cs i b c :
  (n < length ks)%nat → (n < length cs)%nat → keys_sorted (S n) ks →
  arr_entries (S n) ks cs !! i = Some (b, c) →
  arr_entries n (shift_down ks i (n - i)) (shift_down cs i (n - i))
  = del b (arr_entries (S n) ks cs).
Proof.
  intros Hk Hc Hs%(arr_entries_sorted _ _ cs) Hi; [|lia..].
  pose proof Hi as (Hin & Hbi & Hci)%lookup_arr_entries.
  rewrite (del_at _ _ _ _ Hs Hi). unfold arr_entries. rewrite !remove_gap by lia.
  rewrite zip_with_app by (rewrite !length_take; lia).
  by rewrite zip_with_take, zip_with_drop, !take_take, !Nat.min_l by lia.
Qed.

(** Storing through the slot of an entry. *)
Lemma arr_set n ks cs i b c c' :
  (n ≤ length ks)%nat → (n ≤ length cs)%nat → keys_sorted n ks →
  arr_entries n ks cs !! i = Some (b, c) →
  arr_entries n ks (<[i := c']> cs) = ins b c' (arr_entries n ks cs).
Proof.
  intros Hk Hc Hs%(arr_entries_sorted _ _ cs) Hi; [|lia..].
  pose proof Hi as (Hin & Hbi & Hci)%lookup_arr_entries.
  rewrite (ins_at _ _ _ _ _ Hs Hi). unfold arr_entries. rewrite take_insert_lt by lia.
  rewrite (insert_zip_with pair (take n ks) (take n cs) i b c').
  rewrite (list_insert_id (take n ks)); [done|]. by rewrite lookup_take_lt.
Qed.

(** Searching the key bytes in use. *)
Lemma arr_find n ks cs b :
  (n ≤ length ks)%nat → (n ≤ length cs)%nat → keys_sorted n ks →
  match first_index (Z.eqb b <$> take n ks) with
  | Some i => ∃ c, arr_entries n ks cs !! i = Some (b, c) ∧ cs !! i = Some c
  | None => assoc b (arr_entries n ks cs) = None
  end.
Proof.
  intros Hk Hc Hs. apply (arr_entries_sorted _ _ cs) in Hs; [|done..].
  destruct (first_index _) as [i|] eqn:E.
  - apply first_index_Some in E as [Hi _]. rewrite list_lookup_fmap in Hi.
    apply fmap_Some in Hi as (b' & [Hb Hin]%lookup_take_Some & Heq%eq_sym%Z.eqb_eq). subst b'.
    destruct (lookup_lt_is_Some_2 cs i) as [c Hci]; [lia|]. exists c.
    by rewrite lookup_arr_entries.
  - apply eq_None_not_Some. intros [c Ha%assoc_elem]; [|done].
    apply list_elem_of_lookup in Ha as (i & (Hin & Hb & _)%lookup_arr_entries).
    apply (first_index_None _ E i). by rewrite list_lookup_fmap, lookup_take_lt, Hb; simpl; rewrite ?Z.eqb_refl.
Qed.
End arr.

(** The scan of the first [n] bytes is the search for the first that passes. *)
Lemma find_up_first_index (p : Z → bool) ks n :
  (n ≤ length ks)%nat → find_up (λ i, p (ks !!! i)) 0 n = first_index (p <$> take n ks).
Proof.
  intros Hn. destruct (first_index _) as [i|] eqn:E.
  - apply first_index_Some in E as [Hi Hlt]. rewrite list_lookup_fmap in Hi.
    apply fmap_Some in Hi as (k & [Hk Hin]%lookup_take_Some & Hp).
    apply find_up_unique; [lia|by rewrite (list_lookup_total_correct _ _ _ Hk)|].
    intros j Hj. specialize (Hlt j ltac:(lia)). rewrite list_lookup_fmap, lookup_take_lt in Hlt by lia.
    apply fmap_Some in Hlt as (k' & Hk' & Hp'). by rewrite (list_lookup_total_correct _ _ _ Hk').
  - destruct (find_up _ 0 n) as [i|] eqn:E2; [|done]. apply find_up_Some in E2 as (Hi & Hp & _).
    exfalso. apply (first_index_None _ E i). rewrite list_lookup_fmap, lookup_take_lt by lia.
    destruct (lookup_lt_is_Some_2 ks i) as [k Hk]; [lia|].
    rewrite (list_lookup_total_correct _ _ _ Hk) in Hp. by rewrite Hk; simpl; rewrite Hp.
Qed.

(** ** Positions of entries in a dense node *)

(** The [iter_result] of a node without the node itself: the key byte and the
    child index. *)
Definition iter_pos := (Z * Z)%type.

Section dense.
Context {P : Type}.
Implicit Types es : list (Z * P).

(** [ci] is the index of entry [(b, c)]. *)
Definition dense_at es (ci b : Z) (c : P) : Prop := 0 ≤ ci ∧ es !! Z.to_nat ci = Some (b, c).

Lemma dense_next es ci b c :
  sorted es → dense_at es ci b c →
  head (filter (λ p, b < p.1) es) = es !! S (Z.to_nat ci).
Proof.
  intros Hs [Hn Hi]. destruct (sorted_at _ _ _ _ Hs Hi) as [Hb Ha].
  rewrite <- (take_drop_middle _ _ _ Hi) at 1. rewrite below_byte in Hb. rewrite above_byte in Ha.
  rewrite filter_app, filter_cons_False by (simpl; lia).
  rewrite (filter_none _ (take _ _)).
  2:{ intros j y Hj%list_elem_of_lookup_2. rewrite Forall_forall in Hb. specialize (Hb y Hj). lia. }
  rewrite filter_all by done. simpl. by rewrite head_lookup, lookup_drop, Nat.add_0_r.
Qed.

Lemma dense_prior es ci b c :
  sorted es → dense_at es ci b c →
  last (filter (λ p, p.1 < b) es) = if decide (ci = 0) then None else es !! Z.to_nat (ci - 1).
Proof.
  intros Hs [Hn Hi]. destruct (sorted_at _ _ _ _ Hs Hi) as [Hb Ha].
  rewrite <- (take_drop_middle _ _ _ Hi) at 1. rewrite below_byte in Hb. rewrite above_byte in Ha.
  rewrite filter_app, filter_cons_False by (simpl; lia).
  rewrite (filter_none _ (drop _ _)), app_nil_r.
  2:{ intros j y Hj%list_elem_of_lookup_2. rewrite Forall_forall in Ha. specialize (Ha y Hj). lia. }
  rewrite filter_all by done. apply lookup_lt_Some in Hi.
  rewrite last_lookup, length_take, Nat.min_l by lia. case_decide as E.
  - subst ci. done.
  - rewrite lookup_take_lt by lia. f_equal. lia.
Qed.
End dense.

(** The iteration functions of a dense node, for any key and child arrays. *)

Section dense_iteration.
Context {P : Type} (ks : list Z) (cs : list P) (n : nat).
Context (Hk : (n ≤ length ks)%nat) (Hc : (n ≤ length cs)%nat) (Hs : keys_sorted n ks).

Let es := arr_entries n ks cs.

Definition dense_pos_of (e : option (Z * P)) (r : option iter_pos) : Prop :=
  match e with
  | None => r = None
  | Some (b, c) => ∃ i, r = Some (b, i) ∧ dense_at es i b c
  end.

Lemma dense_sorted : sorted es.
Proof. by apply arr_entries_sorted. Qed.

Lemma dense_length : length es = n.
Proof. by apply length_arr_entries. Qed.

Lemma dense_pos_of_lookup (i : Z) :
  0 ≤ i →
  dense_pos_of (es !! Z.to_nat i) (if decide (i < Z.of_nat n) then Some (ks !!! Z.to_nat i, i) else None).
Proof.
  intros Hi. pose proof dense_length as Hl. case_decide as Hlt.
  - destruct (lookup_lt_is_Some_2 es (Z.to_nat i)) as [[b c] Hbc]; [lia|]. rewrite Hbc.
    exists i. pose proof Hbc as (_ & Hb & _)%lookup_arr_entries.
    split; [|by split]. by rewrite (list_lookup_total_correct _ _ _ Hb).
  - by rewrite lookup_ge_None_2 by lia.
Qed.

Lemma dense_at_range (i b : Z) c : dense_at es i b c → 0 ≤ i < Z.of_nat n.
Proof. intros [Hi Hl]. apply lookup_lt_Some in Hl. rewrite dense_length in Hl. lia. Qed.

Lemma dense_begin : (0 < n)%nat → dense_pos_of (head es) (Some (ks !!! 0%nat, 0)).
Proof.
  intros Hn. pose proof (dense_pos_of_lookup 0 ltac:(lia)) as Hp.
  rewrite decide_True in Hp by lia. by rewrite head_lookup.
Qed.

Lemma dense_last : (0 < n)%nat →
  dense_pos_of (last es) (Some (ks !!! Z.to_nat (Z.of_nat n - 1), Z.of_nat n - 1)).
Proof.
  intros Hn. pose proof (dense_pos_of_lookup (Z.of_nat n - 1) ltac:(lia)) as Hp.
  rewrite decide_True in Hp by lia. rewrite last_lookup, dense_length.
  by replace (pred n) with (Z.to_nat (Z.of_nat n - 1)) by lia.
Qed.

Lemma dense_next_pos (i b : Z) c :
  dense_at es i b c →
  dense_pos_of (head (filter (λ p, b < p.1) es))
    (if decide (i + 1 < Z.of_nat n) then Some (ks !!! Z.to_nat (i + 1), i + 1) else None).
Proof.
  intros Hat. pose proof (dense_at_range _ _ _ Hat). rewrite (dense_next _ _ _ _ dense_sorted Hat).
  pose proof (dense_pos_of_lookup (i + 1) ltac:(lia)) as Hp.
  by replace (Z.to_nat (i + 1)) with (S (Z.to_nat i)) in * by lia.
Qed.

Lemma dense_prior_pos (i b : Z) c :
  dense_at es i b c →
  dense_pos_of (last (filter (λ p, p.1 < b) es))
    (if decide (i = 0) then None else Some (ks !!! Z.to_nat (i - 1), i - 1)).
Proof.
  intros Hat. pose proof (dense_at_range _ _ _ Hat). rewrite (dense_prior _ _ _ _ dense_sorted Hat).
  case_decide; [done|]. pose proof (dense_pos_of_lookup (i - 1) ltac:(lia)) as Hp.
  by rewrite decide_True in Hp by lia.
Qed.

Lemma dense_key_at (i : nat) p : es !! i = Some p → ks !!! i = p.1 ∧ (i < n)%nat.
Proof.
  destruct p as [b c]. intros (Hi & Hb & _)%lookup_arr_entries. split; [|done].
  by rewrite (list_lookup_total_correct _ _ _ Hb).
Qed.

Lemma dense_gte b :
  dense_pos_of (head (filter (λ p, b ≤ p.1) es))
    (i ← find_up (λ i, b <=? ks !!! i) 0 n; Some (ks !!! i, Z.of_nat i)).
Proof.
  destruct (find_up _ 0 n) as [i|] eqn:E; simpl.
  - apply find_up_Some in E as (Hi & Hb%Z.leb_le & Hlt).
    pose proof (dense_pos_of_lookup (Z.of_nat i) ltac:(lia)) as Hp.
    rewrite decide_True, Nat2Z.id in Hp by lia.
    destruct (lookup_lt_is_Some_2 es i) as [p Hbc]; [rewrite dense_length; lia|].
    destruct (dense_key_at _ _ Hbc) as [Hkb _].
    erewrite head_filter_at; [by rewrite <- Hbc|exact Hbc|lia|].
    intros j q Hj [Hq _]%dense_key_at. specialize (Hlt j ltac:(lia)). rewrite Hq in Hlt. lia.
  - rewrite filter_none; [done|]. intros j q Hq. destruct (dense_key_at _ _ Hq) as [Hkq Hj].
    pose proof (find_up_None _ _ _ E j ltac:(lia)) as Hf. simpl in Hf. lia.
Qed.

Lemma dense_lte b :
  dense_pos_of (last (filter (λ p, p.1 ≤ b) es))
    (i ← find_down (λ i, ks !!! i <=? b) n; Some (ks !!! i, Z.of_nat i)).
Proof.
  destruct (find_down _ n) as [i|] eqn:E; simpl.
  - apply find_down_Some in E as (Hi & Hb%Z.leb_le & Hlt).
    pose proof (dense_pos_of_lookup (Z.of_nat i) ltac:(lia)) as Hp.
    rewrite decide_True, Nat2Z.id in Hp by lia.
    destruct (lookup_lt_is_Some_2 es i) as [p Hbc]; [rewrite dense_length; lia|].
    destruct (dense_key_at _ _ Hbc) as [Hkb _].
    erewrite last_filter_at; [by rewrite <- Hbc|exact Hbc|lia|].
    intros j q Hj [Hq Hjn]%dense_key_at. specialize (Hlt j ltac:(lia)). rewrite Hq in Hlt. lia.
  - rewrite filter_none; [done|]. intros j q Hq. destruct (dense_key_at _ _ Hq) as [Hkq Hj].
    pose proof (find_down_None _ _ E j ltac:(lia)) as Hf. simpl in Hf. lia.
Qed.
End dense_iteration.

(** ** Well-formed dense nodes *)

(** [lo] and [cap] are the minimum size and the capacity of the node type. *)
Record dense_wf {P} `{NodePtr P} (lo cap : nat) (i : inode_impl) (ks : list Z) (cs : list P) : Prop := {
  dw_keys : length ks = cap;
  dw_children : length cs = cap;
  dw_bytes : is_bytes ks;
  dw_count : Z.of_nat lo ≤ children_count i ≤ Z.of_nat cap;
  dw_sorted : keys_sorted (Z.to_nat (children_count i)) ks;
  dw_prefix : prefix_wf (k_prefix i);
  dw_nonnull : Forall (λ c, is_null c = false) (take (Z.to_nat (children_count i)) cs);
}.

Definition dense_entries {P} (i : inode_impl) (ks : list Z) (cs : list P) : list (Z * P) :=
  arr_entries (Z.to_nat (children_count i)) ks cs.

Section dense_wf.
Context {P : Type} `{NodePtr P} (lo cap : nat).
Implicit Types (i : inode_impl) (ks : list Z) (cs : list P).

(** The side conditions of the array lemmas. *)
Lemma dense_wf_arrays i ks cs :
  dense_wf lo cap i ks cs →
  let n := Z.to_nat (children_count i) in
  (n ≤ length ks)%nat ∧ (n ≤ length cs)%nat ∧ keys_sorted n ks.
Proof. intros [Hk Hc _ Hn Hs _ _]. simpl. split_and!; [lia..|done]. Qed.

Lemma dense_wf_sorted i ks cs : dense_wf lo cap i ks cs → sorted (dense_entries i ks cs).
Proof. intros (Hk & Hc & Hs)%dense_wf_arrays. by apply arr_entries_sorted. Qed.

Lemma dense_wf_bytes i ks cs :
  dense_wf lo cap i ks cs → Forall (λ p, is_byte p.1) (dense_entries i ks cs).
Proof.
  intros Hw. apply Forall_lookup. intros j [b c] (_ & Hb & _)%lookup_arr_entries.
  by eapply Forall_lookup_1 in Hb; [|apply (dw_bytes _ _ _ _ _ Hw)].
Qed.

Lemma dense_wf_nonnull i ks cs :
  dense_wf lo cap i ks cs → Forall (λ p, is_null p.2 = false) (dense_entries i ks cs).
Proof.
  intros Hw. apply Forall_lookup. intros j [b c] (Hj & _ & Hc)%lookup_arr_entries. simpl.
  apply (Forall_lookup_1 _ _ j _ (dw_nonnull _ _ _ _ _ Hw)). by rewrite lookup_take_lt.
Qed.

Lemma dense_wf_length i ks cs :
  dense_wf lo cap i ks cs → Z.of_nat (length (dense_entries i ks cs)) = children_count i.
Proof.
  intros Hw. destruct (dense_wf_arrays _ _ _ Hw) as (? & ? & ?). unfold dense_entries.
  rewrite length_arr_entries by done. pose proof (dw_count _ _ _ _ _ Hw). lia.
Qed.

Lemma dense_wf_children i ks cs :
  dense_wf lo cap i ks cs → (dense_entries i ks cs).*2 = take (Z.to_nat (children_count i)) cs.
Proof.
  intros (? & ? & ?)%dense_wf_arrays. unfold dense_entries, arr_entries. apply snd_zip.
  rewrite !length_take. lia.
Qed.

Lemma dense_wf_with_prefix i ks cs w :
  dense_wf lo cap i ks cs → prefix_wf w → dense_wf lo cap (with_prefix i w) ks cs.
Proof. intros []. by split. Qed.

Lemma dense_wf_find i ks cs b :
  dense_wf lo cap i ks cs →
  match first_index (Z.eqb b <$> take (Z.to_nat (children_count i)) ks) with
  | Some s => ∃ c, dense_entries i ks cs !! s = Some (b, c) ∧ cs !! s = Some c
  | None => assoc b (dense_entries i ks cs) = None
  end.
Proof. intros (? & ? & ?)%dense_wf_arrays. by apply arr_find. Qed.

Lemma dense_wf_store i ks cs s b c c' :
  dense_wf lo cap i ks cs → dense_entries i ks cs !! s = Some (b, c) → is_null c' = false →
  dense_wf lo cap i ks (<[s := c']> cs) ∧
  dense_entries i ks (<[s := c']> cs) = ins b c' (dense_entries i ks cs).
Proof.
  intros Hw Hs Hn. destruct (dense_wf_arrays _ _ _ Hw) as (Hk & Hc & Hsk). split.
  - destruct Hw. split; [done| |done..|]; [by rewrite length_insert|].
    apply lookup_arr_entries in Hs as (Hlt & _ & _). rewrite take_insert_lt by done.
    by apply Forall_insert.
  - by eapply arr_set.
Qed.

(** A byte that is not in the node splits its key bytes. *)
Lemma dense_wf_split i ks cs b :
  dense_wf lo cap i ks cs → assoc b (dense_entries i ks cs) = None →
  ∃ l1 l2, take (Z.to_nat (children_count i)) ks = l1 ++ l2 ∧
    Forall (λ k, k < b) l1 ∧ Forall (λ k, b < k) l2.
Proof.
  intros Hw Ha. destruct (dense_wf_arrays _ _ _ Hw) as (Hk & Hc & Hs).
  apply sorted_bytes_split; [done|]. intros Hin.
  rewrite <- (arr_entries_fst _ _ cs) in Hin by done.
  apply list_elem_of_fmap in Hin as ([b' c] & -> & Hin).
  apply assoc_elem in Hin; [|by apply arr_entries_sorted]. unfold dense_entries in Ha. simpl in *. congruence.
Qed.

Lemma dense_wf_insert i ks cs b c l1 l2 :
  let n := Z.to_nat (children_count i) in
  dense_wf lo cap i ks cs → (n < cap)%nat → is_byte b → is_null c = false →
  take n ks = l1 ++ l2 → Forall (λ k, k < b) l1 → Forall (λ k, b < k) l2 →
  let ks' := <[length l1 := b]> (shift_up ks (length l1) n) in
  let cs' := <[length l1 := c]> (shift_up cs (length l1) n) in
  dense_wf lo cap (with_count i (children_count i + 1)) ks' cs' ∧
  dense_entries (with_count i (children_count i + 1)) ks' cs' = ins b c (dense_entries i ks cs).
Proof.
  intros n Hw Hn Hb Hc Heq H1 H2 ks' cs'.
  pose proof (dw_count _ _ _ _ _ Hw) as Hcnt.
  assert (length ks = cap ∧ length cs = cap) as [Hlk Hlc] by by destruct Hw.
  assert (Hlen : (length l1 ≤ n)%nat).
  { apply (f_equal length) in Heq. rewrite length_app, length_take in Heq. lia. }
  assert (Hent : dense_entries (with_count i (children_count i + 1)) ks' cs' = ins b c (dense_entries i ks cs)).
  { unfold dense_entries, with_count. simpl. replace (Z.to_nat (children_count i + 1)) with (S n) by lia.
    eapply arr_insert; by (done || lia). }
  split; [|done].
  assert (Hkl : length ks' = cap) by (unfold ks'; by rewrite length_insert, length_shift_up).
  assert (Hcl : length cs' = cap) by (unfold cs'; by rewrite length_insert, length_shift_up).
  split; simpl; [done|done| |lia| | |].
  - apply Forall_insert; [|done]. apply Forall_shift_up; [lia|by destruct Hw].
  - apply (arr_entries_sorted _ _ cs'); [lia..|]. unfold dense_entries in Hent. simpl in Hent.
    rewrite Hent. by apply ins_sorted, dense_wf_sorted.
  - by destruct Hw.
  - replace (Z.to_nat (children_count i + 1)) with (S n) by lia. unfold cs'.
    rewrite insert_gap by lia. pose proof (dw_nonnull _ _ _ _ _ Hw) as Hnn.
    apply Forall_app. split.
    + replace (take (length l1) cs) with (take (length l1) (take n cs)); [by apply Forall_take|].
      rewrite take_take. f_equal. lia.
    + constructor; [done|]. by apply Forall_drop.
Qed.

Lemma dense_wf_remove i ks cs s b c :
  let n := Z.to_nat (children_count i - 1) in
  dense_wf lo cap i ks cs → Z.of_nat lo < children_count i →
  dense_entries i ks cs !! s = Some (b, c) →
  let ks' := shift_down ks s (n - s) in
  let cs' := shift_down cs s (n - s) in
  dense_wf lo cap (with_count i (children_count i - 1)) ks' cs' ∧
  dense_entries (with_count i (children_count i - 1)) ks' cs' = del b (dense_entries i ks cs).
Proof.
  intros n Hw Hn Hs ks' cs'.
  pose proof (dw_count _ _ _ _ _ Hw) as Hcnt.
  assert (length ks = cap ∧ length cs = cap) as [Hlk Hlc] by by destruct Hw.
  pose proof Hs as (Hsn & _ & _)%lookup_arr_entries.
  destruct (dense_wf_arrays _ _ _ Hw) as (_ & _ & Hsrt).
  unfold dense_entries in *. simpl. change (Z.to_nat (children_count i - 1)) with n.
  replace (Z.to_nat (children_count i)) with (S n) in * by lia.
  assert (Hent : arr_entries n ks' cs' = del b (arr_entries (S n) ks cs)).
  { eapply arr_remove; by (done || lia). }
  split; [|done].
  assert (Hkl : length ks' = cap) by (unfold ks'; by rewrite length_shift_down).
  assert (Hcl : length cs' = cap) by (unfold cs'; by rewrite length_shift_down).
  split; simpl; [done|done| |lia| | |].
  - apply Forall_shift_down; [lia|by destruct Hw].
  - apply (arr_entries_sorted _ _ cs'); [lia..|]. fold n. rewrite Hent.
    apply del_sorted. by apply arr_entries_sorted; [lia..|].
  - by destruct Hw.
  - fold n. unfold cs'. rewrite remove_gap by lia. pose proof (dw_nonnull _ _ _ _ _ Hw) as Hnn.
    replace (Z.to_nat (children_count i)) with (S n) in Hnn by lia.
    apply Forall_app. split; [|by apply Forall_drop].
    replace (take s cs) with (take s (take (S n) cs)); [by apply Forall_take|].
    rewrite take_take. f_equal. lia.
Qed.
End dense_wf.
