(* ===== verification/InodeSpec.v ===== *)
(** The interface between the internal node types and the code that uses them: a
    node is a sorted list of (key byte, child), and each operation is a function
    of that list.  [Inode4], [Inode16], [Inode48] and [Inode256] each discharge
    it, and the tree is verified against it alone. *)

From S2P Require Import Prelude Words KeyPrefix SortedAssoc Simd InodeBase.

Class InodeOps (P T : Type) := {
  min_size : T → Z;
  capacity : T → Z;
  header : T → inode_impl;
  set_prefix : key_prefix → T → T;
  (** The abstract value: key bytes and children in key order. *)
  entries : T → list (Z * P);
  node_wf : T → Prop;
  (** [child_at n i b c]: child index [i] stands for the entry [(b, c)]. *)
  child_at : T → Z → Z → P → Prop;
  find_child : T → Z → find_result;
  (** Load and store through the pointer of a [find_result]. *)
  slot_load : T → nat → option P;
  slot_store : T → nat → P → T;
  get_child : T → Z → option P;
  begin_ : T → option iter_pos;
  last_ : T → option iter_pos;
  next : T → Z → option iter_pos;
  prior : T → Z → option iter_pos;
  gte_key_byte : T → Z → option iter_pos;
  lte_key_byte : T → Z → option iter_pos;
  (** The children in the order in which [delete_subtree] visits them. *)
  all_children : T → list P;
}.

(** The position an iteration step must return for the entry it must reach. *)
Definition pos_of `{InodeOps P T} (n : T) (e : option (Z * P)) (r : option iter_pos) : Prop :=
  match e with
  | None => r = None
  | Some (b, c) => ∃ i, r = Some (b, i) ∧ child_at n i b c
  end.

(** Number of children, reading the 8-bit count of a node whose capacity is
    256. *)
Definition count_of (count : Z) : Z := if count =? 0 then 256 else count.

Class InodeLaws (P T : Type) `{NodePtr P} `{InodeOps P T} := {
  wf_sorted : ∀ (n : T), node_wf n → sorted (entries n);
  wf_bytes : ∀ (n : T), node_wf n → Forall (λ p : Z * P, is_byte p.1) (entries n);
  wf_nonnull : ∀ (n : T), node_wf n → Forall (λ p : Z * P, is_null p.2 = false) (entries n);
  wf_prefix : ∀ (n : T), node_wf n → prefix_wf (k_prefix (header n));
  wf_count : ∀ (n : T), node_wf n →
    count_of (children_count (header n)) = Z.of_nat (length (entries n)) ∧
    min_size n ≤ Z.of_nat (length (entries n)) ≤ capacity n;
  min_size_ge_2 : ∀ (n : T), 2 ≤ min_size n;

  child_at_entry : ∀ (n : T) i b c, node_wf n → child_at n i b c → assoc b (entries n) = Some c;
  get_child_at : ∀ (n : T) i b c, node_wf n → child_at n i b c → get_child n i = Some c;

  set_prefix_spec : ∀ (n : T) w, node_wf n → prefix_wf w →
    node_wf (set_prefix w n) ∧ entries (set_prefix w n) = entries n ∧
    header (set_prefix w n) = with_prefix (header n) w;

  (** Lookup of a key byte. *)
  find_child_spec : ∀ (n : T) b, node_wf n → is_byte b →
    match assoc b (entries n) with
    | None => find_child n b = child_not_found
    | Some c => ∃ i s, find_child n b = (i, Some s) ∧ child_at n i b c ∧ slot_load n s = Some c
    end;
  slot_store_spec : ∀ (n : T) b i s c, node_wf n → is_byte b → find_child n b = (i, Some s) → is_null c = false →
    node_wf (slot_store n s c) ∧ entries (slot_store n s c) = ins b c (entries n) ∧
    header (slot_store n s c) = header n;

  (** Iteration. *)
  begin_spec : ∀ (n : T), node_wf n → pos_of n (head (entries n)) (begin_ n);
  last_spec : ∀ (n : T), node_wf n → pos_of n (last (entries n)) (last_ n);
  next_spec : ∀ (n : T) i b c, node_wf n → child_at n i b c →
    pos_of n (head (filter (λ p : Z * P, b < p.1) (entries n))) (next n i);
  prior_spec : ∀ (n : T) i b c, node_wf n → child_at n i b c →
    pos_of n (last (filter (λ p : Z * P, p.1 < b) (entries n))) (prior n i);
  gte_spec : ∀ (n : T) b, node_wf n → is_byte b →
    pos_of n (head (filter (λ p : Z * P, b ≤ p.1) (entries n))) (gte_key_byte n b);
  lte_spec : ∀ (n : T) b, node_wf n → is_byte b →
    pos_of n (last (filter (λ p : Z * P, p.1 ≤ b) (entries n))) (lte_key_byte n b);

  all_children_spec : ∀ (n : T), node_wf n → all_children n ≡ₚ (entries n).*2;
}.

(** ** Dense nodes discharge the interface

    [inode_4] and [inode_16] keep sorted parallel arrays and differ in size and
    in how they search: the laws follow from the shape of the operations and the
    meaning of the search. *)

(** [(keys[i], i)], what the iteration functions of a dense node return. *)
Definition result_at (ks : list Z) (child_index : Z) : iter_pos := (ks !!! Z.to_nat child_index, child_index).

Class DenseNode (P T : Type) `{NodePtr P} `{InodeOps P T} (lo cap : nat)
    (ks : T → list Z) (cs : T → list P) (extra : T → Prop) := {
  d_min n : min_size n = Z.of_nat lo;
  d_cap n : capacity n = Z.of_nat cap;
  d_bounds : (2 ≤ lo ∧ cap < 256)%nat;
  d_wf n : node_wf n ↔ dense_wf lo cap (header n) (ks n) (cs n) ∧ extra n;
  d_entries n : entries n = dense_entries (header n) (ks n) (cs n);
  d_at n : child_at n = dense_at (entries n);
  d_get n i : get_child n i = cs n !! Z.to_nat i;
  d_load n s : slot_load n s = cs n !! s;
  d_prefix w n : header (set_prefix w n) = with_prefix (header n) w ∧
    ks (set_prefix w n) = ks n ∧ cs (set_prefix w n) = cs n ∧ (extra n → extra (set_prefix w n));
  d_store n s c : header (slot_store n s c) = header n ∧
    ks (slot_store n s c) = ks n ∧ cs (slot_store n s c) = <[s := c]> (cs n) ∧
    (extra n → extra (slot_store n s c));
  d_begin n : begin_ n = Some (result_at (ks n) 0);
  d_last n : last_ n = Some (result_at (ks n) (wrap8 (children_count (header n) - 1)));
  d_next n i : next n i =
    if children_count (header n) <=? wrap8 (i + 1) then None else Some (result_at (ks n) (wrap8 (i + 1)));
  d_prior n i : prior n i = if i =? 0 then None else Some (result_at (ks n) (wrap8 (i - 1)));
  d_gte n b : gte_key_byte n b =
    i ← find_up (λ i, b <=? ks n !!! i) 0 (Z.to_nat (children_count (header n)));
    Some (result_at (ks n) (Z.of_nat i));
  d_lte n b : lte_key_byte n b =
    i ← find_down (λ i, ks n !!! i <=? b) (Z.to_nat (children_count (header n)));
    Some (result_at (ks n) (Z.of_nat i));
  d_all n : all_children n = take (Z.to_nat (children_count (header n))) (cs n);
  d_find n b : node_wf n → is_byte b → find_child n b =
    match first_index (Z.eqb b <$> take (Z.to_nat (children_count (header n))) (ks n)) with
    | Some s => (Z.of_nat s, Some s)
    | None => child_not_found
    end;
}.

Section dense_laws.
Context {P T : Type} `{DN : DenseNode P T lo cap ks cs extra}.
Implicit Types n : T.

Lemma dense_node_wf n : node_wf n → dense_wf lo cap (header n) (ks n) (cs n).
Proof. by intros [? _]%d_wf. Qed.

Lemma dense_node_arrays n : node_wf n →
  let m := Z.to_nat (children_count (header n)) in
  (m ≤ length (ks n))%nat ∧ (m ≤ length (cs n))%nat ∧ keys_sorted m (ks n) ∧
  Z.of_nat m = children_count (header n) ∧ 2 ≤ children_count (header n) < 256.
Proof.
  intros Hw%dense_node_wf. destruct (dense_wf_arrays _ _ _ _ _ Hw) as (? & ? & ?).
  pose proof (dw_count _ _ _ _ _ Hw). destruct d_bounds. simpl. split_and!; (done || lia).
Qed.

Lemma dense_at_bounds n i b c : node_wf n → child_at n i b c → 0 ≤ i < children_count (header n).
Proof.
  intros Hw. rewrite d_at, d_entries. destruct (dense_node_arrays _ Hw) as (? & ? & ? & <- & ?).
  by apply dense_at_range.
Qed.

Lemma dense_find_at n b :
  node_wf n → is_byte b →
  match assoc b (entries n) with
  | None => find_child n b = child_not_found
  | Some c => ∃ s, find_child n b = (Z.of_nat s, Some s) ∧ entries n !! s = Some (b, c)
  end.
Proof.
  intros Hw Hb. rewrite d_find by done. pose proof (dense_node_wf _ Hw) as Hd.
  pose proof (dense_wf_find _ _ _ _ _ b Hd) as Hf. rewrite d_entries.
  destruct (first_index _) as [s|]; [|by rewrite Hf].
  destruct Hf as (c & He & _).
  rewrite (assoc_at _ _ _ _ (dense_wf_sorted _ _ _ _ _ Hd) He). by exists s.
Qed.

Lemma dense_node_find n b :
  node_wf n → is_byte b →
  match assoc b (entries n) with
  | None => find_child n b = child_not_found
  | Some c => ∃ i s, find_child n b = (i, Some s) ∧ child_at n i b c ∧ slot_load n s = Some c
  end.
Proof.
  intros Hw Hb. pose proof (dense_find_at n b Hw Hb) as Hf.
  destruct (assoc b (entries n)) as [c|]; [|done]. destruct Hf as (s & -> & Hs).
  exists (Z.of_nat s), s. rewrite d_at, d_load. split_and!; [done|split; [lia|by rewrite Nat2Z.id]|].
  rewrite d_entries in Hs. by apply lookup_arr_entries in Hs as (_ & _ & ?).
Qed.

Lemma dense_node_store n b i s c :
  node_wf n → is_byte b → find_child n b = (i, Some s) → is_null c = false →
  node_wf (slot_store n s c) ∧ entries (slot_store n s c) = ins b c (entries n) ∧
  header (slot_store n s c) = header n.
Proof.
  intros Hw Hb Hf Hc. pose proof (dense_find_at n b Hw Hb) as Hs. rewrite Hf in Hs.
  destruct (assoc b (entries n)) as [c0|]; [|done]. destruct Hs as (s' & [= -> <-] & Hs).
  rewrite d_entries in Hs.
  destruct (dense_wf_store _ _ _ _ _ s b c0 c (dense_node_wf _ Hw) Hs Hc) as [Hw' He].
  destruct (d_store n s c) as (Hh & Hk & Hcs & Hx).
  rewrite d_wf, !d_entries, Hh, Hk, Hcs. apply d_wf in Hw as [_ ?]. split_and!; auto.
Qed.

Lemma dense_node_next n i b c :
  node_wf n → child_at n i b c → pos_of n (head (filter (λ p : Z * P, b < p.1) (entries n))) (next n i).
Proof.
  intros Hw Hat. pose proof (dense_at_bounds _ _ _ _ Hw Hat).
  destruct (dense_node_arrays _ Hw) as (? & ? & ? & Hm & ?).
  unfold pos_of. rewrite d_at, d_entries in *. rewrite d_next, (wrap_small 8) by lia.
  pose proof (dense_next_pos _ _ _ ltac:(done) ltac:(done) ltac:(done) _ _ _ Hat) as Hp. rewrite Hm in Hp.
  destruct (Z.leb_spec (children_count (header n)) (i + 1));
    [rewrite decide_False in Hp by lia|rewrite decide_True in Hp by lia]; done.
Qed.

Lemma dense_node_prior n i b c :
  node_wf n → child_at n i b c → pos_of n (last (filter (λ p : Z * P, p.1 < b) (entries n))) (prior n i).
Proof.
  intros Hw Hat. pose proof (dense_at_bounds _ _ _ _ Hw Hat).
  destruct (dense_node_arrays _ Hw) as (? & ? & ? & Hm & ?).
  unfold pos_of. rewrite d_at, d_entries in *. rewrite d_prior.
  pose proof (dense_prior_pos _ _ _ ltac:(done) ltac:(done) ltac:(done) _ _ _ Hat) as Hp.
  destruct (Z.eqb_spec i 0); [by rewrite decide_True in Hp by lia|].
  rewrite (wrap_small 8) by lia. by rewrite decide_False in Hp by lia.
Qed.

Lemma dense_node_last n : node_wf n → pos_of n (last (entries n)) (last_ n).
Proof.
  intros Hw. destruct (dense_node_arrays _ Hw) as (? & ? & ? & Hm & ?).
  unfold pos_of. rewrite d_at, d_entries, d_last, (wrap_small 8), <- Hm by lia.
  apply dense_last; by (done || lia).
Qed.

Lemma dense_node_gte n b : node_wf n → pos_of n (head (filter (λ p : Z * P, b ≤ p.1) (entries n))) (gte_key_byte n b).
Proof.
  intros Hw. destruct (dense_node_arrays _ Hw) as (? & ? & ? & Hm & ?).
  unfold pos_of. rewrite d_at, d_entries, d_gte.
  pose proof (dense_gte _ _ _ ltac:(done) ltac:(done) b) as Hp.
  destruct (find_up _ _ _); [|done]. cbn [mbind option_bind] in *.
  unfold result_at. by rewrite Nat2Z.id.
Qed.

Lemma dense_node_lte n b : node_wf n → pos_of n (last (filter (λ p : Z * P, p.1 ≤ b) (entries n))) (lte_key_byte n b).
Proof.
  intros Hw. destruct (dense_node_arrays _ Hw) as (? & ? & ? & Hm & ?).
  unfold pos_of. rewrite d_at, d_entries, d_lte.
  pose proof (dense_lte _ _ _ ltac:(done) ltac:(done) b) as Hp.
  destruct (find_down _ _); [|done]. cbn [mbind option_bind] in *.
  unfold result_at. by rewrite Nat2Z.id.
Qed.

Lemma dense_laws : InodeLaws P T.
Proof.
  split.
  - intros n Hw%dense_node_wf. rewrite d_entries. by eapply dense_wf_sorted.
  - intros n Hw%dense_node_wf. rewrite d_entries. by eapply dense_wf_bytes.
  - intros n Hw%dense_node_wf. rewrite d_entries. by eapply dense_wf_nonnull.
  - by intros n []%dense_node_wf.
  - intros n Hw. destruct (dense_node_arrays _ Hw) as (? & ? & ? & Hm & ?).
    apply dense_node_wf in Hw. rewrite d_entries, d_min, d_cap, (dense_wf_length _ _ _ _ _ Hw).
    pose proof (dw_count _ _ _ _ _ Hw). unfold count_of. by zcases.
  - intros n. rewrite d_min. destruct d_bounds. lia.
  - intros n i b c Hw%dense_node_wf. rewrite d_at, d_entries. intros [_ Hat].
    eapply assoc_at; [by eapply dense_wf_sorted|done].
  - intros n i b c _. rewrite d_at, d_entries, d_get. by intros [_ (_ & _ & Hc)%lookup_arr_entries].
  - intros n w [Hw Hu]%d_wf Hp. destruct (d_prefix w n) as (Hh & Hk & Hcs & Hx).
    rewrite d_wf, !d_entries, Hh, Hk, Hcs. split_and!; auto. by apply dense_wf_with_prefix.
  - apply dense_node_find.
  - apply dense_node_store.
  - intros n Hw. destruct (dense_node_arrays _ Hw) as (? & ? & ? & Hm & ?).
    unfold pos_of. rewrite d_at, d_entries, d_begin. apply dense_begin; by (done || lia).
  - apply dense_node_last.
  - apply dense_node_next.
  - apply dense_node_prior.
  - intros n b Hw _. by apply dense_node_gte.
  - intros n b Hw _. by apply dense_node_lte.
  - intros n Hw%dense_node_wf. rewrite d_all, d_entries. by erewrite dense_wf_children.
Qed.
End dense_laws.

(** ** Byte-indexed nodes discharge the interface

    [inode_48] and [inode_256] are indexed by the key byte: the child index of an
    entry is its key byte, and iteration scans the 256 byte values. *)

Section idx_scan.
Context {P : Type} (f : nat → option P).

Definition mapped (i : nat) : bool := bool_decide (is_Some (f i)).

Lemma idx_entries_app bs bs' : idx_entries f (bs ++ bs') = idx_entries f bs ++ idx_entries f bs'.
Proof. unfold idx_entries. apply omap_app. Qed.

Lemma idx_entries_cons i bs :
  idx_entries f (i :: bs) =
  match f i with Some c => (Z.of_nat i, c) :: idx_entries f bs | None => idx_entries f bs end.
Proof. unfold idx_entries. cbn. by destruct (f i). Qed.

Definition idx_result (r : option nat) : option (Z * P) :=
  i ← r; c ← f i; Some (Z.of_nat i, c).

Lemma head_idx_entries a n : head (idx_entries f (seq a n)) = idx_result (find_up mapped a n).
Proof.
  revert a. induction n as [|n IH]; intros a; [done|]. cbn [seq find_up].
  rewrite idx_entries_cons. unfold mapped at 1. destruct (f a) as [c|] eqn:E.
  - rewrite bool_decide_true by done. unfold idx_result. simpl. by rewrite E.
  - rewrite bool_decide_false by (by intros []). apply IH.
Qed.

Lemma last_idx_entries n : last (idx_entries f (seq 0 n)) = idx_result (find_down mapped n).
Proof.
  induction n as [|n IH]; [done|]. rewrite seq_S, idx_entries_app, idx_entries_cons. cbn [find_down Nat.add].
  change (idx_entries f []) with (@nil (Z * P)).
  unfold mapped at 1. destruct (f n) as [c|] eqn:E.
  - rewrite bool_decide_true, last_snoc by done. unfold idx_result. simpl. by rewrite E.
  - rewrite bool_decide_false by (by intros []). by rewrite app_nil_r.
Qed.

Lemma filter_idx_entries (Q : Z → Prop) `{!∀ z, Decision (Q z)} `{!∀ p : Z * P, Decision (Q p.1)} bs :
  filter (λ p : Z * P, Q p.1) (idx_entries f bs) = idx_entries f (filter (λ i, Q (Z.of_nat i)) bs).
Proof.
  induction bs as [|i bs IH]; [done|]. rewrite idx_entries_cons, (filter_cons (λ i, Q (Z.of_nat i))).
  destruct (f i) as [c|] eqn:E.
  - destruct (decide (Q (Z.of_nat i))) as [HQ|HQ].
    + by rewrite filter_cons_True, IH, idx_entries_cons, E.
    + by rewrite filter_cons_False, IH.
  - rewrite IH. case_decide; [|done]. by rewrite idx_entries_cons, E.
Qed.

Lemma idx_ge (b : nat) :
  (b ≤ 256)%nat →
  head (filter (λ p : Z * P, Z.of_nat b ≤ p.1) (idx_entries f (seq 0 256))) =
  idx_result (find_up mapped b (256 - b)).
Proof.
  intros Hb. rewrite (filter_idx_entries (λ z, Z.of_nat b ≤ z)).
  replace 256%nat with (b + (256 - b))%nat at 1 by lia. rewrite seq_app, filter_app.
  rewrite filter_none, filter_all; [apply head_idx_entries| |].
  - apply Forall_forall. intros i Hi%elem_of_seq. lia.
  - intros j y Hy%list_elem_of_lookup_2%elem_of_seq. lia.
Qed.

Lemma idx_lt (b : nat) :
  (b ≤ 256)%nat →
  last (filter (λ p : Z * P, p.1 < Z.of_nat b) (idx_entries f (seq 0 256))) =
  idx_result (find_down mapped b).
Proof.
  intros Hb. rewrite (filter_idx_entries (λ z, z < Z.of_nat b)).
  replace 256%nat with (b + (256 - b))%nat at 1 by lia. rewrite seq_app, filter_app.
  rewrite filter_all, filter_none, app_nil_r; [apply last_idx_entries| |].
  - intros j y Hy%list_elem_of_lookup_2%elem_of_seq. lia.
  - apply Forall_forall. intros i Hi%elem_of_seq. lia.
Qed.
End idx_scan.

(** [(i, i)]: in an indexed node the key byte is the child index. *)
Definition byte_result (r : option nat) : option iter_pos := i ← r; Some (Z.of_nat i, Z.of_nat i).

Class IndexedNode (P T : Type) `{NodePtr P} `{InodeOps P T} (lo cap : nat)
    (f : T → nat → option P) := {
  x_min n : min_size n = Z.of_nat lo;
  x_cap n : capacity n = Z.of_nat cap;
  x_bounds : (2 ≤ lo ∧ cap ≤ 256)%nat;
  x_entries n : entries n = idx_entries (f n) (seq 0 256);
  x_at n : child_at n = λ i b c, i = b ∧ is_byte b ∧ f n (Z.to_nat b) = Some c;
  x_prefix n : node_wf n → prefix_wf (k_prefix (header n));
  x_count n : node_wf n →
    children_count (header n) = wrap8 (Z.of_nat (length (entries n))) ∧
    (lo ≤ length (entries n) ≤ cap)%nat;
  x_nonnull n i c : node_wf n → f n i = Some c → is_null c = false;
  x_get n i c : node_wf n → is_byte i → f n (Z.to_nat i) = Some c → get_child n i = Some c;
  x_set_prefix n w : node_wf n → prefix_wf w →
    node_wf (set_prefix w n) ∧ header (set_prefix w n) = with_prefix (header n) w ∧ f (set_prefix w n) = f n;
  x_find n b : node_wf n → is_byte b →
    match f n (Z.to_nat b) with
    | None => find_child n b = child_not_found
    | Some c => ∃ s, find_child n b = (b, Some s) ∧ slot_load n s = Some c ∧
        ∀ c', is_null c' = false → node_wf (slot_store n s c') ∧ header (slot_store n s c') = header n ∧
          f (slot_store n s c') (Z.to_nat b) = Some c' ∧
          ∀ i, i ≠ Z.to_nat b → f (slot_store n s c') i = f n i
    end;
  x_begin n : node_wf n → begin_ n = byte_result (find_up (mapped (f n)) 0 256);
  x_last n : node_wf n → last_ n = byte_result (find_down (mapped (f n)) 256);
  x_next n i : node_wf n → is_byte i →
    next n i = byte_result (find_up (mapped (f n)) (Z.to_nat i + 1) (256 - (Z.to_nat i + 1)));
  x_prior n i : node_wf n → is_byte i → prior n i = byte_result (find_down (mapped (f n)) (Z.to_nat i));
  x_gte n b : node_wf n → is_byte b →
    gte_key_byte n b = byte_result (find_up (mapped (f n)) (Z.to_nat b) (256 - Z.to_nat b));
  x_lte n b : node_wf n → is_byte b → lte_key_byte n b = byte_result (find_down (mapped (f n)) (Z.to_nat b + 1));
  x_all n : node_wf n → all_children n ≡ₚ (entries n).*2;
}.

Section indexed_laws.
Context {P T : Type} `{IN : IndexedNode P T lo cap f}.
Implicit Types n : T.

Lemma assoc_indexed n b : is_byte b → assoc b (entries n) = f n (Z.to_nat b).
Proof.
  intros Hb. rewrite x_entries, assoc_idx_entries. unfold is_byte in Hb. by rewrite decide_True by lia.
Qed.

(** A scan over the byte values ends at the entry that the filtered list gives. *)
Lemma pos_of_idx n r :
  (∀ i, r = Some i → (i < 256)%nat ∧ mapped (f n) i = true) →
  pos_of n (idx_result (f n) r) (byte_result r).
Proof.
  intros Hr. destruct r as [i|]; [|done]. destruct (Hr i eq_refl) as [Hi Hm].
  apply bool_decide_eq_true in Hm as [c Hc]. unfold idx_result. simpl. rewrite Hc. simpl.
  exists (Z.of_nat i). rewrite x_at. split; [done|]. rewrite Nat2Z.id. unfold is_byte. by split_and!; try lia.
Qed.

Lemma find_up_mapped n a m i :
  (a + m ≤ 256)%nat → find_up (mapped (f n)) a m = Some i → (i < 256)%nat ∧ mapped (f n) i = true.
Proof. intros Ha (? & ? & _)%find_up_Some. split; [lia|done]. Qed.

Lemma find_down_mapped n m i :
  (m ≤ 256)%nat → find_down (mapped (f n)) m = Some i → (i < 256)%nat ∧ mapped (f n) i = true.
Proof. intros Ha (? & ? & _)%find_down_Some. split; [lia|done]. Qed.

Lemma indexed_ge n (b : nat) (z : Z) :
  (b ≤ 256)%nat → z = Z.of_nat b →
  pos_of n (head (filter (λ p : Z * P, z ≤ p.1) (entries n)))
    (byte_result (find_up (mapped (f n)) b (256 - b))).
Proof.
  intros Hb ->. rewrite x_entries, idx_ge by done. apply pos_of_idx.
  intros i. apply find_up_mapped. lia.
Qed.

Lemma indexed_lt n (b : nat) (z : Z) :
  (b ≤ 256)%nat → z = Z.of_nat b →
  pos_of n (last (filter (λ p : Z * P, p.1 < z) (entries n))) (byte_result (find_down (mapped (f n)) b)).
Proof.
  intros Hb ->. rewrite x_entries, idx_lt by done. apply pos_of_idx.
  intros i. by apply find_down_mapped.
Qed.

Lemma indexed_find n b :
  node_wf n → is_byte b →
  match assoc b (entries n) with
  | None => find_child n b = child_not_found
  | Some c => ∃ i s, find_child n b = (i, Some s) ∧ child_at n i b c ∧ slot_load n s = Some c
  end.
Proof.
  intros Hw Hb. rewrite assoc_indexed by done. pose proof (x_find n b Hw Hb) as Hf.
  destruct (f n (Z.to_nat b)) as [c|] eqn:E; [|done]. destruct Hf as (s & Hs & Hl & _).
  exists b, s. rewrite x_at. by split_and!.
Qed.

Lemma indexed_store n b i s c :
  node_wf n → is_byte b → find_child n b = (i, Some s) → is_null c = false →
  node_wf (slot_store n s c) ∧ entries (slot_store n s c) = ins b c (entries n) ∧
  header (slot_store n s c) = header n.
Proof.
  intros Hw Hb Hf Hc. pose proof (x_find n b Hw Hb) as Hx. rewrite Hf in Hx.
  destruct (f n (Z.to_nat b)) as [c0|]; [|done]. destruct Hx as (s' & [= <- <-] & _ & Hst).
  destruct (Hst c Hc) as (Hw' & Hh & Hb' & Ho). split_and!; [done| |done].
  rewrite !x_entries. unfold is_byte in Hb. rewrite <- (Z2Nat.id i) by lia.
  apply idx_entries_ins; [lia|done|done].
Qed.

Lemma indexed_laws : InodeLaws P T.
Proof.
  split.
  - intros n _. rewrite x_entries. apply idx_entries_sorted.
  - intros n _. rewrite x_entries. apply Forall_forall. intros [b c] (i & Hi & -> & _)%elem_of_idx_entries.
    apply elem_of_seq in Hi. unfold is_byte. simpl. lia.
  - intros n Hw. rewrite x_entries. apply Forall_forall. intros [b c] (i & Hi & -> & Hf)%elem_of_idx_entries.
    by eapply x_nonnull.
  - apply x_prefix.
  - intros n Hw. destruct (x_count n Hw) as [-> Hc]. rewrite x_min, x_cap. destruct x_bounds.
    split; [|lia]. unfold count_of, wrap. change (2 ^ 8) with 256.
    destruct (decide (length (entries n) = 256%nat)) as [->|]; [done|].
    rewrite Z.mod_small by lia. by zcases.
  - intros n. rewrite x_min. destruct x_bounds. lia.
  - intros n i b c Hw. rewrite x_at. intros (-> & Hb & Hf). by rewrite assoc_indexed.
  - intros n i b c Hw. rewrite x_at. intros (-> & Hb & Hf). by apply x_get.
  - intros n w Hw Hp. destruct (x_set_prefix n w Hw Hp) as (? & ? & Hf).
    split_and!; [done| |done]. by rewrite !x_entries, Hf.
  - apply indexed_find.
  - apply indexed_store.
  - intros n Hw. rewrite x_begin, x_entries, head_idx_entries by done. apply pos_of_idx.
    intros i. by apply find_up_mapped.
  - intros n Hw. rewrite x_last, x_entries, last_idx_entries by done. apply pos_of_idx.
    intros i. by apply find_down_mapped.
  - intros n i b c Hw. rewrite x_at. intros (-> & Hb & _). unfold is_byte in Hb. rewrite x_next by done.
    rewrite (list_filter_iff (λ p : Z * P, b < p.1) (λ p : Z * P, b + 1 ≤ p.1)) by (intros; lia).
    apply indexed_ge; lia.
  - intros n i b c Hw. rewrite x_at. intros (-> & Hb & _). unfold is_byte in Hb. rewrite x_prior by done.
    apply indexed_lt; lia.
  - intros n b Hw Hb. unfold is_byte in Hb. rewrite x_gte by done. apply indexed_ge; lia.
  - intros n b Hw Hb. unfold is_byte in Hb. rewrite x_lte by done.
    rewrite (list_filter_iff (λ p : Z * P, p.1 ≤ b) (λ p : Z * P, p.1 < b + 1)) by (intros; lia).
    apply indexed_lt; lia.
  - apply x_all.
Qed.
End indexed_laws.

(** From here on reasoned about through its lemmas only. *)
#[global] Opaque idx_entries.
