(* ===== verification/Inode4.v ===== *)
(** The internal node with two to four children: sorted key bytes in one word,
    searched with SSE instructions or with bit tricks. *)

From S2P Require Import Prelude Words ArtKey KeyPrefix SortedAssoc Simd InodeBase InodeSpec.

(** ** Operations *)

Section inode_4.
Context {P : Type} `{NodePtr P} `{Target}.
Implicit Types n : inode_4 P.

(** The key bytes read as one word. *)
Definition keys_integer n : Z := le_word (i4_keys n).

(** [src/art_internal_impl.hpp:1720-1722] unused_key_byte *)
Definition unused_key_byte : Z := 0xFF.

(** [src/art_internal_impl.hpp:1658-1678] add_two_to_empty *)
Definition add_two_to_empty n (key1 : Z) (child1 : P) (key2 : Z) (child2 : P) : inode_4 P :=
  let key1_i := if key1 <? key2 then 0%nat else 1%nat in
  let key2_i := (1 - key1_i)%nat in
  let keys := <[key2_i := key2]> (<[key1_i := key1]> (i4_keys n)) in
  let children := <[key2_i := child2]> (<[key1_i := child1]> (i4_children n)) in
  let keys := if x86_64 then keys else <[3%nat := unused_key_byte]> (<[2%nat := unused_key_byte]> keys) in
  Inode4 (i4_impl n) keys children.

(** A node whose arrays are not initialised yet. *)
Definition raw_inode_4 (i : inode_impl) : inode_4 P :=
  Inode4 i (replicate 4 uninit_byte) (replicate 4 null_ptr).

(** The header of a node for two leaves: the prefix the two keys share.
    [src/art_internal_impl.hpp:1293-1296] basic_inode_4 *)
Definition new_for_leaves (k1 : list Z) (shifted_k2 : art_key) (depth : tree_depth) : option (inode_4 P) :=
  w ← make_u64 k1 shifted_k2 depth; Some (raw_inode_4 (Impl w 2)).

(** [src/art_internal_impl.hpp:1379-1387] init *)
Definition init_leaves n (k1 : list Z) (shifted_k2 : art_key) (depth : tree_depth)
    (child1 child2 : P) : option (inode_4 P) :=
  let k2_next_byte_depth := prefix_length (k_prefix (i4_impl n)) in
  let k1_next_byte_depth := depth_add depth (Z.of_nat k2_next_byte_depth) in
  key1 ← k1 !! Z.to_nat k1_next_byte_depth;
  key2 ← index shifted_k2 k2_next_byte_depth;
  Some (add_two_to_empty n key1 child1 key2 child2).

(** [src/art_internal_impl.hpp:1298-1304] basic_inode_4 *)
Definition create_leaves (k1 : list Z) (shifted_k2 : art_key) (depth : tree_depth)
    (child1 child2 : P) : option (inode_4 P) :=
  n ← new_for_leaves k1 shifted_k2 depth; init_leaves n k1 shifted_k2 depth child1 child2.

(** The header of a node above [source_node]: the first [len] bytes of its prefix.
    [src/art_internal_impl.hpp:1306-1308] basic_inode_4 *)
Definition new_for_prefix (source_node : P) (len : nat) : inode_4 P :=
  raw_inode_4 (Impl (prefix_of_source len (ptr_key_prefix source_node)) 2).

(** The source node loses the prefix bytes that moved up and the byte that leads
    to it.
    [src/art_internal_impl.hpp:1327-1339] init *)
Definition init_prefix n (source_node : P) (shared_prefix_len : nat) (depth : tree_depth)
    (child1 : P) : option (inode_4 P) :=
  let source_key_prefix := ptr_key_prefix source_node in
  let diff_key_byte_i := depth_add depth (Z.of_nat shared_prefix_len) in
  let source_node_key_byte := prefix_index source_key_prefix shared_prefix_len in
  let source_node := ptr_map_prefix (λ w, cut w (shared_prefix_len + 1)) source_node in
  new_key_byte ← leaf_key_view child1 !! Z.to_nat diff_key_byte_i;
  Some (add_two_to_empty n source_node_key_byte source_node new_key_byte child1).

(** [src/art_internal_impl.hpp:1310-1316] basic_inode_4 *)
Definition create_prefix (source_node : P) (len : nat) (depth : tree_depth) (child1 : P)
    : option (inode_4 P) :=
  init_prefix (new_for_prefix source_node len) source_node len depth child1.

(** Shrinking a node of five: all children but the deleted one, which is
    returned for reclamation.
    [src/art_internal_impl.hpp:1344-1376] init *)
Definition init_from_16 n (source_node : inode_16 P) (child_to_delete : Z) : option (inode_4 P * P) :=
  let d := Z.to_nat child_to_delete in
  reclaimed ← i16_children source_node !! d;
  if (4 <? d)%nat then None
  else Some (
    Inode4 (i4_impl n)
      (copy_range (copy_range (i4_keys n) (i16_keys source_node) 0 0 d) (i16_keys source_node) d (S d) (4 - d))
      (copy_range (copy_range (i4_children n) (i16_children source_node) 0 0 d) (i16_children source_node) d (S d) (4 - d)),
    reclaimed).

(** [src/art_internal_impl.hpp:1321-1325] basic_inode_4 *)
Definition create_from_16 (source_node : inode_16 P) (child_to_delete : Z) : option (inode_4 P * P) :=
  init_from_16 (raw_inode_4 (with_count (i16_impl source_node) 4)) source_node child_to_delete.

(** [src/art_internal_impl.hpp:1701-1718] get_insert_pos *)
Definition get_insert_pos n (insert_key_byte : Z) (node_key_mask : Z) : nat :=
  let replicated_insert_key_byte := _mm_set1_epi8 insert_key_byte in
  let node_keys_in_sse_reg := _mm_cvtsi32_si128 (keys_integer n) in
  let le_node_key_positions := _mm_cmple_epu8 node_keys_in_sse_reg replicated_insert_key_byte in
  let bit_field := Z.land (_mm_movemask_epi8 le_node_key_positions) node_key_mask in
  popcount bit_field.

(** How many of the first [m] key bytes of the word are below [key_byte]. *)
Definition bytes_lt n (key_byte : Z) (m : nat) : nat :=
  count_true ((λ i, Z.land (keys_integer n ≫ (8 * Z.of_nat i)) 0xFF <? key_byte) <$> seq 0 m).

(** Writing position 4 or above is out of bounds.
    [src/art_internal_impl.hpp:1389-1426] add_to_nonfull *)
Definition add_to_nonfull n (child : P) (depth : tree_depth) (count : Z) : option (inode_4 P) :=
  key_byte ← leaf_key_view child !! Z.to_nat depth;
  let insert_pos_index :=
    if x86_64 then get_insert_pos n key_byte ((1 ≪ count) - 1) else bytes_lt n key_byte 3 in
  if 4 <=? count then None
  else
    let keys := <[insert_pos_index := key_byte]> (shift_up (i4_keys n) insert_pos_index (Z.to_nat count)) in
    let children := <[insert_pos_index := child]> (shift_up (i4_children n) insert_pos_index (Z.to_nat count)) in
    Some (Inode4 (with_count (i4_impl n) (wrap8 (count + 1))) keys children).

(** The removed child is returned for reclamation.
    [src/art_internal_impl.hpp:1431-1456] remove *)
Definition remove n (child_index : Z) : option (inode_4 P * P) :=
  let count := children_count (i4_impl n) in
  let i := Z.to_nat child_index in
  let moves := (Z.to_nat (count - 1) - i)%nat in
  reclaimed ← i4_children n !! i;
  let keys := shift_down (i4_keys n) i moves in
  let children := shift_down (i4_children n) i moves in
  let keys := if x86_64 then keys else <[(i + moves)%nat := unused_key_byte]> keys in
  Some (Inode4 (with_count (i4_impl n) (wrap8 (count - 1))) keys children, reclaimed).

(** The last child, with the prefix and key byte of this node put before its own
    prefix, and the deleted child.
    [src/art_internal_impl.hpp:1460-1480] leave_last_child *)
Definition leave_last_child n (child_to_delete : Z) : option (P * P) :=
  child_to_delete_ptr ← i4_children n !! Z.to_nat child_to_delete;
  let child_to_leave := if child_to_delete =? 0 then 1%nat else 0%nat in
  child_to_leave_ptr ← i4_children n !! child_to_leave;
  let child_to_leave_ptr :=
    if is_leaf child_to_leave_ptr then child_to_leave_ptr
    else ptr_map_prefix (λ w, prepend w (k_prefix (i4_impl n)) (i4_keys n !!! child_to_leave)) child_to_leave_ptr in
  Some (child_to_leave_ptr, child_to_delete_ptr).

(** [src/art_internal_impl.hpp:1483-1544] find_child *)
Definition find_child n (key_byte : Z) : find_result :=
  if x86_64 then
    let replicated_search_key := _mm_set1_epi8 key_byte in
    let keys_in_sse_reg := _mm_cvtsi32_si128 (keys_integer n) in
    let matching_key_positions := _mm_cmpeq_epi8 replicated_search_key keys_in_sse_reg in
    let mask := (1 ≪ children_count (i4_impl n)) - 1 in
    let bit_field := Z.land (_mm_movemask_epi8 matching_key_positions) mask in
    if negb (bit_field =? 0) then
      let i := countr_zero 32 bit_field in (Z.of_nat i, Some i)
    else child_not_found
  else
    let match_ := contains_byte (keys_integer n) key_byte in
    if match_ =? 0 then child_not_found
    else
      let result := (countr_zero 32 match_ / 8)%nat in
      if children_count (i4_impl n) <=? Z.of_nat result then child_not_found
      else (Z.of_nat result, Some result).

(** [src/art_internal_impl.hpp:1546-1549] get_child *)
Definition get_child n (child_index : Z) : option P := i4_children n !! Z.to_nat child_index.

(** [src/art_internal_impl.hpp:1551-1558] begin *)
Definition begin n : iter_pos := result_at (i4_keys n) 0.

(** [src/art_internal_impl.hpp:1560-1573] last *)
Definition last n : iter_pos := result_at (i4_keys n) (wrap8 (children_count (i4_impl n) - 1)).

(** [src/art_internal_impl.hpp:1575-1590] next *)
Definition next n (child_index : Z) : option iter_pos :=
  let nchildren := children_count (i4_impl n) in
  let next_index := wrap8 (child_index + 1) in
  if nchildren <=? next_index then None else Some (result_at (i4_keys n) next_index).

(** [src/art_internal_impl.hpp:1592-1599] prior *)
Definition prior n (child_index : Z) : option iter_pos :=
  if child_index =? 0 then None else Some (result_at (i4_keys n) (wrap8 (child_index - 1))).

(** [src/art_internal_impl.hpp:1601-1616] gte_key_byte *)
Definition gte_key_byte n (key_byte : Z) : option iter_pos :=
  let nchildren := children_count (i4_impl n) in
  i ← find_up (λ i, key_byte <=? i4_keys n !!! i) 0 (Z.to_nat nchildren);
  Some (result_at (i4_keys n) (Z.of_nat i)).

(** [src/art_internal_impl.hpp:1618-1634] lte_key_byte *)
Definition lte_key_byte n (key_byte : Z) : option iter_pos :=
  let children_count_ := children_count (i4_impl n) in
  i ← find_down (λ i, i4_keys n !!! i <=? key_byte) (Z.to_nat children_count_);
  Some (result_at (i4_keys n) (Z.of_nat i)).

(** The children in the order of deletion.
    [src/art_internal_impl.hpp:1636-1641] delete_subtree *)
Definition all_children n : list P := take (Z.to_nat (children_count (i4_impl n))) (i4_children n).

End inode_4.

(** ** Well-formedness *)

Section spec.
Context {P : Type} `{NodePtr P} `{Target}.
Implicit Types n : inode_4 P.

Definition i4_entries n : list (Z * P) := dense_entries (i4_impl n) (i4_keys n) (i4_children n).

(** The portable build keeps 0xFF in the key bytes that are not in use. *)
Definition unused_ok n : Prop :=
  x86_64 = false →
  ∀ j, (Z.to_nat (children_count (i4_impl n)) ≤ j < 4)%nat → i4_keys n !! j = Some unused_key_byte.

Definition i4_wf n : Prop := dense_wf 2 4 (i4_impl n) (i4_keys n) (i4_children n) ∧ unused_ok n.

(** ** Search *)

Lemma i4_keys_take n : dense_wf 2 4 (i4_impl n) (i4_keys n) (i4_children n) →
  length (i4_keys n) = 4%nat ∧ is_bytes (i4_keys n) ∧ 2 ≤ children_count (i4_impl n) ≤ 4 ∧
  length (i4_children n) = 4%nat.
Proof. intros []. by split_and!; try lia. Qed.

(** The SSE register holds the key bytes and zeros. *)
Lemma cvtsi32_keys n :
  length (i4_keys n) = 4%nat → is_bytes (i4_keys n) →
  _mm_cvtsi32_si128 (keys_integer n) = i4_keys n ++ replicate 12 0.
Proof.
  intros Hl Hb. unfold _mm_cvtsi32_si128, keys_integer.
  pose proof (le_bytes_le_word _ Hb) as He. rewrite Hl in He. by rewrite He.
Qed.

Lemma i4_find_child_bytes n b :
  length (i4_keys n) = 4%nat → is_bytes (i4_keys n) → 0 ≤ children_count (i4_impl n) ≤ 4 → is_byte b →
  find_child n b =
  match first_index (Z.eqb b <$> take (Z.to_nat (children_count (i4_impl n))) (i4_keys n)) with
  | Some s => (Z.of_nat s, Some s)
  | None => child_not_found
  end.
Proof.
  intros Hl Hk Hn Hb. unfold find_child.
  set (m := Z.to_nat (children_count (i4_impl n))).
  assert (children_count (i4_impl n) = Z.of_nat m) as -> by lia.
  destruct x86_64.
  - rewrite cvtsi32_keys, movemask_eq_byte by (rewrite ?length_app; simpl; lia || done).
    rewrite bits_of_take, <- fmap_take, take_app_le by lia.
    destruct (first_index _) as [s|] eqn:E.
    + rewrite (countr_zero_bits_of _ _ _ E).
      destruct (Z.eqb_spec (bits_of (Z.eqb b <$> take m (i4_keys n))) 0) as [Hz%bits_of_zero|]; [congruence|done].
    + apply bits_of_zero in E. by rewrite E.
  - pose proof (contains_byte_first_index _ b Hk Hb Hl) as Hc. fold (keys_integer n) in Hc.
    rewrite fmap_take. rewrite (first_index_take _ m).
    destruct (first_index (Z.eqb b <$> i4_keys n)) as [s|]; cbn [mbind option_bind].
    + destruct Hc as [Hne ->]. rewrite (proj2 (Z.eqb_neq _ _) Hne).
      destruct (Z.leb_spec (Z.of_nat m) (Z.of_nat s)).
      * by rewrite option_guard_False by lia.
      * by rewrite option_guard_True by lia.
    + by rewrite Hc.
Qed.

Lemma i4_find_child_first n b :
  i4_wf n → is_byte b →
  find_child n b =
  match first_index (Z.eqb b <$> take (Z.to_nat (children_count (i4_impl n))) (i4_keys n)) with
  | Some s => (Z.of_nat s, Some s)
  | None => child_not_found
  end.
Proof. intros [Hw _] Hb. destruct (i4_keys_take _ Hw) as (Hl & Hk & Hn & _). apply i4_find_child_bytes; (done || lia). Qed.

(** ** Insertion position *)

Lemma get_insert_pos_split n b (m : nat) l1 l2 :
  length (i4_keys n) = 4%nat → is_bytes (i4_keys n) → (m ≤ 4)%nat →
  take m (i4_keys n) = l1 ++ l2 → Forall (λ k, k < b) l1 → Forall (λ k, b < k) l2 →
  get_insert_pos n b ((1 ≪ Z.of_nat m) - 1) = length l1.
Proof.
  intros Hl Hk Hm Heq H1 H2. unfold get_insert_pos.
  rewrite cvtsi32_keys, movemask_le_byte_r by (rewrite ?length_app; simpl; lia || done).
  rewrite bits_of_take, popcount_bits_of, <- fmap_take, take_app_le, Heq by lia.
  apply count_true_split; eapply Forall_impl; [exact H1| |exact H2|]; simpl; intros; lia.
Qed.

Lemma bytes_lt_take n b (m : nat) :
  length (i4_keys n) = 4%nat → is_bytes (i4_keys n) → (m ≤ 4)%nat →
  bytes_lt n b m = count_true ((λ k, k <? b) <$> take m (i4_keys n)).
Proof.
  intros Hl Hk Hm. unfold bytes_lt. f_equal.
  apply list_eq_same_length with m; [by rewrite length_fmap, length_take, Hl; lia|by rewrite length_fmap, length_seq|].
  intros j x y Hj. rewrite !list_lookup_fmap, lookup_seq_lt, lookup_take_lt by done. simpl.
  intros Hx Hy. simplify_eq. apply fmap_Some in Hy as (k & Hkj & ->).
  change (Z.land (keys_integer n ≫ (8 * Z.of_nat j)) 255) with (byte_at (le_word (i4_keys n)) j).
  by rewrite byte_at_le_word, Hkj.
Qed.

Lemma bytes_lt_split n b (m m' : nat) l1 l2 :
  length (i4_keys n) = 4%nat → is_bytes (i4_keys n) → is_byte b → (m' ≤ m ≤ 4)%nat →
  (∀ j, (m' ≤ j < 4)%nat → i4_keys n !! j = Some unused_key_byte) →
  take m' (i4_keys n) = l1 ++ l2 → Forall (λ k, k < b) l1 → Forall (λ k, b < k) l2 →
  bytes_lt n b m = length l1.
Proof.
  intros Hl Hk Hb Hm Hu Heq H1 H2. rewrite bytes_lt_take by (done || lia).
  rewrite <- (take_drop m' (take m (i4_keys n))), take_take, Nat.min_l, Heq, <- app_assoc by lia.
  apply count_true_split; [eapply Forall_impl; [exact H1|simpl; lia]|].
  apply Forall_app. split; [eapply Forall_impl; [exact H2|simpl; lia]|].
  apply Forall_lookup. intros j k. rewrite lookup_drop. intros [Hj Hlt]%lookup_take_Some.
  rewrite Hu in Hj by lia. simplify_eq. unfold unused_key_byte, is_byte in *. lia.
Qed.

(** ** The interface *)

#[export] Instance inode_4_ops : InodeOps P (inode_4 P) := {|
  min_size _ := 2;
  capacity _ := 4;
  header := i4_impl;
  set_prefix w n := Inode4 (with_prefix (i4_impl n) w) (i4_keys n) (i4_children n);
  entries := i4_entries;
  node_wf := i4_wf;
  child_at n := dense_at (i4_entries n);
  InodeSpec.find_child := find_child;
  slot_load n s := i4_children n !! s;
  slot_store n s c := Inode4 (i4_impl n) (i4_keys n) (<[s := c]> (i4_children n));
  InodeSpec.get_child := get_child;
  begin_ n := Some (begin n);
  last_ n := Some (last n);
  InodeSpec.next := next;
  InodeSpec.prior := prior;
  InodeSpec.gte_key_byte := gte_key_byte;
  InodeSpec.lte_key_byte := lte_key_byte;
  InodeSpec.all_children := all_children;
|}.

#[export] Instance inode_4_dense : DenseNode P (inode_4 P) 2 4 i4_keys i4_children unused_ok.
Proof. split; try done; [lia|]. apply i4_find_child_first. Qed.

#[export] Instance inode_4_laws : InodeLaws P (inode_4 P).
Proof. apply dense_laws. Qed.

(** ** Mutation *)

Lemma i4_count n : i4_wf n → Z.of_nat (length (i4_entries n)) = children_count (i4_impl n).
Proof. intros [Hw _]. by apply (dense_wf_length 2 4). Qed.

Lemma i4_add n c depth b :
  i4_wf n → children_count (i4_impl n) < 4 →
  leaf_key_view c !! Z.to_nat depth = Some b → is_byte b → is_null c = false →
  assoc b (i4_entries n) = None →
  ∃ n', add_to_nonfull n c depth (children_count (i4_impl n)) = Some n' ∧ i4_wf n' ∧
    i4_entries n' = ins b c (i4_entries n) ∧ k_prefix (i4_impl n') = k_prefix (i4_impl n).
Proof.
  intros [Hw Hu] Hlt Hb Hbb Hc Ha. destruct (i4_keys_take _ Hw) as (Hl & Hk & Hn & _).
  destruct (dense_wf_split _ _ _ _ _ _ Hw Ha) as (l1 & l2 & Heq & H1 & H2).
  unfold add_to_nonfull. rewrite Hb. cbn [mbind option_bind].
  replace (if x86_64 then _ else _) with (length l1).
  2:{ destruct x86_64 eqn:E; symmetry.
      - rewrite <- (Z2Nat.id (children_count _)) by lia. by eapply get_insert_pos_split; try done; lia.
      - eapply bytes_lt_split; try done; [lia|by apply Hu]. }
  rewrite (proj2 (Z.leb_gt _ _)), (wrap_small 8) by lia. eexists. split; [done|].
  destruct (dense_wf_insert _ _ _ _ _ b c l1 l2 Hw ltac:(lia) Hbb Hc Heq H1 H2) as [Hw' He].
  split_and!; [|done..]. split; [done|]. intros Hx j. simpl. intros Hj.
  apply (f_equal length) in Heq. rewrite length_app, length_take in Heq.
  rewrite list_lookup_insert_ne, lookup_shift_up, decide_False by lia. apply Hu; [done|lia].
Qed.

Lemma i4_remove n i b c :
  i4_wf n → 2 < children_count (i4_impl n) → child_at n i b c →
  ∃ n', remove n i = Some (n', c) ∧ i4_wf n' ∧ i4_entries n' = del b (i4_entries n) ∧
    k_prefix (i4_impl n') = k_prefix (i4_impl n).
Proof.
  intros [Hw Hu] Hlt [Hi Hat]. destruct (i4_keys_take _ Hw) as (Hl & Hk & Hn & Hlc).
  pose proof Hat as (Hin & Hbi & Hci)%lookup_arr_entries.
  destruct (dense_wf_remove _ _ _ _ _ (Z.to_nat i) b c Hw ltac:(lia) Hat) as [Hw' He].
  unfold remove. rewrite Hci. cbn [mbind option_bind]. rewrite (wrap_small 8) by lia.
  eexists. split; [done|]. unfold i4_wf, unused_ok, i4_entries. simpl.
  destruct x86_64 eqn:E; [split_and!; by try congruence|].
  set (m := Z.to_nat (children_count (i4_impl n) - 1)) in *.
  assert (Hpos : (Z.to_nat i + (m - Z.to_nat i) = m)%nat) by lia. rewrite Hpos.
  split_and!; [|..|done].
  - destruct Hw'. simpl in *. split; simpl; [by rewrite length_insert|done| |done| |done..].
    + apply Forall_insert; [done|]. by unfold is_byte, unused_key_byte.
    + unfold keys_sorted. by rewrite take_insert_ge by lia.
  - intros _ j Hj. destruct (decide (j = m)) as [->|].
    + rewrite list_lookup_insert_eq; [done|]. rewrite length_shift_down. lia.
    + rewrite list_lookup_insert_ne, lookup_shift_down, decide_False by lia. apply Hu; [done|lia].
  - rewrite <- He. unfold dense_entries, arr_entries. simpl. fold m. by rewrite take_insert_ge by lia.
Qed.

(** Two children in key order. *)
Lemma i4_add_two i key1 c1 key2 c2 :
  children_count i = 2 → prefix_wf (k_prefix i) → is_byte key1 → is_byte key2 → key1 ≠ key2 →
  is_null c1 = false → is_null c2 = false →
  let n := add_two_to_empty (raw_inode_4 i) key1 c1 key2 c2 in
  i4_wf n ∧ i4_entries n = ins key2 c2 [(key1, c1)] ∧ i4_impl n = i.
Proof.
  intros Hi Hp H1 H2 Hne Hc1 Hc2 n. unfold n, add_two_to_empty. cbn [i4_impl i4_keys i4_children raw_inode_4].
  assert (Hu := uninit_byte_is_byte).
  assert (Hnn := is_null_null_ptr).
  set (pos := if key1 <? key2 then 0%nat else 1%nat).
  assert (Hcase : (key1 < key2 ∧ pos = 0%nat) ∨ (key2 < key1 ∧ pos = 1%nat)) by (unfold pos; zcases; lia).
  clearbody pos. unfold i4_wf, i4_entries, dense_entries. simpl i4_impl. rewrite Hi.
  split; [|split; [|done]].
  2:{ simpl. unfold kcmp, Z_ord.
      destruct Hcase as [[Hlt ->]|[Hlt ->]], x86_64; simpl; by destruct (Z.compare_spec key2 key1); try lia. }
  split.
  - split; simpl; rewrite ?Hi;
      destruct Hcase as [[Hlt ->]|[Hlt ->]], x86_64; simpl; try done; try lia;
      unfold keys_sorted; simpl; repeat constructor; (done || unfold is_byte, unused_key_byte in *; lia).
  - unfold unused_ok. simpl. rewrite Hi. intros Hx [|[|[|[|j]]]] Hj; try lia; rewrite Hx;
      destruct Hcase as [[Hlt ->]|[Hlt ->]]; done.
Qed.

(** A new node over two leaves: the prefix is what the keys share after
    [depth], the key bytes are the first ones that differ. *)
Lemma i4_create_leaves e k (d m : nat) c1 c2 :
  key_wf k → is_bytes e → diverge e (get_key_view k) (d + m) → (m ≤ 7)%nat →
  Z.of_nat (length e) < 2 ^ 32 → is_null c1 = false → is_null c2 = false →
  ∃ n b1 b2, create_leaves e (shifted k d) (Z.of_nat d) c1 c2 = Some n ∧ i4_wf n ∧
    e !! (d + m)%nat = Some b1 ∧ get_key_view k !! (d + m)%nat = Some b2 ∧ b1 ≠ b2 ∧
    i4_entries n = ins b2 c2 [(b1, c1)] ∧
    prefix_length (k_prefix (i4_impl n)) = m ∧ prefix_at e d (k_prefix (i4_impl n)).
Proof.
  intros Hk He Hdiv Hm Hlen Hc1 Hc2. pose proof Hdiv as [_ (b1 & b2 & Hb1 & Hb2 & Hne)].
  destruct (make_u64_diverge e k d m Hk He Hdiv Hm) as (w & Hw & Hwf & Hwl & Hat).
  unfold create_leaves, new_for_leaves. rewrite Hw. cbn [mbind option_bind].
  unfold init_leaves. simpl i4_impl. simpl k_prefix. rewrite Hwl.
  apply lookup_lt_Some in Hb1 as Hlt1. apply lookup_lt_Some in Hb2 as Hlt2.
  unfold depth_add. rewrite (wrap_small 32) by lia.
  replace (Z.to_nat (Z.of_nat d + Z.of_nat m)) with (d + m)%nat by lia.
  rewrite Hb1. cbn [mbind option_bind].
  rewrite index_shifted, Hb2 by (rewrite <- ?length_get_key_view; lia). cbn [mbind option_bind].
  eexists _, b1, b2. split; [done|].
  assert (is_byte b1) by (by eapply Forall_lookup_1 in Hb1).
  assert (is_byte b2) by (by eapply Forall_lookup_1 in Hb2; [|by apply get_key_view_is_bytes]).
  destruct (i4_add_two (Impl w 2) b1 c1 b2 c2) as (Hn & Hen & Hi); [done..|].
  rewrite Hi. by split_and!.
Qed.

(** A new node above one whose prefix the new key leaves after [len] bytes. *)
Lemma i4_create_prefix src len d child b :
  let w := ptr_key_prefix src in
  prefix_wf w → (len < prefix_length w)%nat → Z.of_nat (d + len) < 2 ^ 32 →
  leaf_key_view child !! (d + len)%nat = Some b → is_byte b → b ≠ prefix_index w len →
  is_null src = false → is_null child = false →
  ∃ n, create_prefix src len (Z.of_nat d) child = Some n ∧ i4_wf n ∧
    i4_entries n = ins b child [(prefix_index w len, ptr_map_prefix (λ w, cut w (len + 1)) src)] ∧
    prefix_bytes (k_prefix (i4_impl n)) = take len (prefix_bytes w).
Proof.
  intros w [Hw Hl] Hlen Hd Hb Hbb Hne Hs Hc. fold w in Hl.
  unfold create_prefix, init_prefix, depth_add. rewrite (wrap_small 32) by lia.
  replace (Z.to_nat (Z.of_nat d + Z.of_nat len)) with (d + len)%nat by lia.
  rewrite Hb. cbn [mbind option_bind]. fold w. eexists. split; [done|].
  unfold new_for_prefix. fold w.
  destruct (i4_add_two (Impl (prefix_of_source len w) 2) (prefix_index w len)
    (ptr_map_prefix (λ w, cut w (len + 1)) src) b child) as (Hn & Hen & Hi); try done.
  - apply prefix_of_source_wf. lia.
  - apply byte_at_is_byte.
  - by rewrite is_null_map_prefix.
  - rewrite Hi. split_and!; try done. apply prefix_of_source_bytes; lia.
Qed.

(** Of two children one goes and the other is left. *)
Lemma i4_two_children n i b c :
  i4_wf n → children_count (i4_impl n) = 2 → child_at n i b c →
  let j := if i =? 0 then 1%nat else 0%nat in
  i4_children n !! Z.to_nat i = Some c ∧ ∃ c', i4_children n !! j = Some c' ∧ i4_keys n !!! j ≠ b ∧
    assoc (i4_keys n !!! j) (i4_entries n) = Some c' ∧ del b (i4_entries n) = [(i4_keys n !!! j, c')].
Proof.
  intros Hw Hcnt [Hi Hat] j. pose proof (i4_count n Hw) as Hlen.
  pose proof (wf_sorted n Hw) as Hs. simpl in Hs, Hat. pose proof Hat as (Hin & Hbi & Hci)%lookup_arr_entries.
  split; [done|]. destruct (lookup_lt_is_Some_2 (i4_entries n) j) as [[b' c'] Hj].
  { unfold j. destruct (i =? 0); lia. }
  pose proof Hj as (Hjn & Hbj & Hcj)%lookup_arr_entries. rewrite (list_lookup_total_correct _ _ _ Hbj). exists c'. split_and!.
  - done.
  - intros ->. assert (j = Z.to_nat i) as Heq by (eapply (at_inj _ _ _ _ _ _ Hs); [exact Hj|exact Hat]). unfold j in Heq.
    destruct (Z.eqb_spec i 0); lia.
  - by eapply assoc_at.
  - rewrite (del_at _ _ _ _ Hs Hat). revert Hj Hat Hlen. rewrite Hcnt. unfold j.
    destruct (i4_entries n) as [|p1 [|p2 [|]]]; simpl; try lia. intros Hj Hat _.
    destruct (Z.eqb_spec i 0) as [->|]; simplify_eq/=; [done|].
    assert (Z.to_nat i = 1%nat) as -> by lia. by simplify_eq/=.
Qed.

(** Removing one of two children leaves the other, with the node's prefix and
    key byte moved in front of its own prefix when it is an internal node. *)
Lemma i4_leave_last n i b c :
  i4_wf n → children_count (i4_impl n) = 2 → child_at n i b c →
  ∃ b' c', del b (i4_entries n) = [(b', c')] ∧ assoc b' (i4_entries n) = Some c' ∧ b' ≠ b ∧
    leave_last_child n i = Some (
      if is_leaf c' then c' else ptr_map_prefix (λ w, prepend w (k_prefix (i4_impl n)) b') c', c).
Proof.
  intros Hw Hcnt Hat. destruct (i4_two_children n i b c Hw Hcnt Hat) as (Hci & c' & Hcj & Hne & Ha & Hdel).
  exists (i4_keys n !!! (if i =? 0 then 1%nat else 0%nat)), c'. split_and!; try done.
  unfold leave_last_child. rewrite Hci. cbn [mbind option_bind]. by rewrite Hcj.
Qed.

Lemma i4_from_16 (src : inode_16 P) i b c :
  dense_wf 5 16 (i16_impl src) (i16_keys src) (i16_children src) → children_count (i16_impl src) = 5 →
  dense_at (dense_entries (i16_impl src) (i16_keys src) (i16_children src)) i b c →
  ∃ n, create_from_16 src i = Some (n, c) ∧ i4_wf n ∧
    i4_entries n = del b (dense_entries (i16_impl src) (i16_keys src) (i16_children src)) ∧
    k_prefix (i4_impl n) = k_prefix (i16_impl src).
Proof.
  intros Hw Hcnt [Hi Hat]. pose proof (dense_wf_sorted _ _ _ _ _ Hw) as Hs.
  pose proof (dense_wf_bytes _ _ _ _ _ Hw) as Hbytes. pose proof (dense_wf_nonnull _ _ _ _ _ Hw) as Hnn.
  destruct (dense_wf_arrays _ _ _ _ _ Hw) as (Hkl & Hcl & Hks).
  pose proof Hat as (Hin & Hbi & Hci)%lookup_arr_entries.
  unfold dense_entries in *. rewrite Hcnt in *. change (Z.to_nat 5) with 5%nat in *.
  unfold create_from_16, init_from_16. rewrite Hci. cbn [mbind option_bind].
  destruct (Nat.ltb_spec 4 (Z.to_nat i)); [lia|]. eexists. split; [done|].
  cbn [raw_inode_4 i4_keys i4_children i4_impl]. set (s := Z.to_nat i) in *.
  set (ks' := copy_range (copy_range (replicate 4 uninit_byte) _ _ _ _) _ _ _ _).
  set (cs' := copy_range (copy_range (replicate 4 null_ptr) _ _ _ _) _ _ _ _).
  assert (Hent : arr_entries 4 ks' cs' = del b (arr_entries 5 (i16_keys src) (i16_children src))).
  { rewrite (del_at _ _ _ _ Hs Hat). unfold arr_entries, ks', cs'.
    rewrite !copy_skip by (rewrite ?length_replicate; lia).
    rewrite zip_with_app by (rewrite !length_take; lia).
    by rewrite zip_with_take, zip_with_drop, !take_take, !Nat.min_l by lia. }
  assert (Hk4 : length ks' = 4%nat) by (unfold ks'; by rewrite !length_copy_range).
  assert (Hc4 : length cs' = 4%nat) by (unfold cs'; by rewrite !length_copy_range).
  unfold i4_wf, i4_entries, dense_entries. cbn [i4_keys i4_children i4_impl with_count children_count k_prefix].
  change (Z.to_nat 4) with 4%nat. split_and!; [| |done..].
  - split; cbn [children_count k_prefix with_count]; [done|done| |lia| | |].
    + unfold ks'. destruct Hw as [Hlk _ Hb _ _ _ _]. apply Forall_copy_range; [rewrite length_copy_range, length_replicate; lia|lia| |done].
      apply Forall_copy_range; [rewrite length_replicate; lia|lia| |done].
      apply Forall_replicate, uninit_byte_is_byte.
    + apply (arr_entries_sorted _ _ cs'); [change (Z.to_nat 4) with 4%nat; lia..|].
      change (Z.to_nat 4) with 4%nat. rewrite Hent. by apply del_sorted.
    + by destruct Hw.
    + unfold cs'. change (Z.to_nat 4) with 4%nat. rewrite copy_skip by (rewrite ?length_replicate; lia).
      pose proof (dw_nonnull _ _ _ _ _ Hw) as Hcn. rewrite Hcnt in Hcn. change (Z.to_nat 5) with 5%nat in Hcn.
      apply Forall_app. split; [|by apply Forall_drop].
      replace (take s (i16_children src)) with (take s (take 5 (i16_children src))); [by apply Forall_take|].
      rewrite take_take. f_equal. lia.
  - intros _ j. cbn [i4_impl children_count with_count]. lia.
Qed.
End spec.
