(* ===== verification/Inode16.v ===== *)
(** The internal node with five to sixteen children: sorted key bytes in one
    128-bit register. *)

From S2P Require Import Prelude Words ArtKey KeyPrefix SortedAssoc Simd InodeBase InodeSpec Inode4.

(** ** Operations *)

Section inode_16.
Context {P : Type} `{NodePtr P} `{Target}.
Implicit Types n : inode_16 P.

(** [src/art_internal_impl.hpp:2560-2560] empty_child *)
Definition empty_child : Z := 0xFF.

(** A node whose arrays are not initialised yet. *)
Definition raw_inode_16 (i : inode_impl) : inode_16 P :=
  Inode16 i (replicate 16 uninit_byte) (replicate 16 null_ptr).

(** Growing a full node of four: its children and the new one, in key order.
    [src/art_internal_impl.hpp:1778-1815] init *)
Definition init_from_4 n (source_node : inode_4 P) (child : P) (depth : tree_depth) : option (inode_16 P) :=
  key_byte ← leaf_key_view child !! Z.to_nat depth;
  let insert_pos_index :=
    if x86_64 then get_insert_pos source_node key_byte 0xF else bytes_lt source_node key_byte 4 in
  let i := insert_pos_index in
  Some (Inode16 (i16_impl n)
    (copy_range (<[i := key_byte]> (copy_range (i16_keys n) (i4_keys source_node) 0 0 i))
      (i4_keys source_node) (S i) i (4 - i))
    (copy_range (<[i := child]> (copy_range (i16_children n) (i4_children source_node) 0 0 i))
      (i4_children source_node) (S i) i (4 - i))).

(** [src/art_internal_impl.hpp:1765-1770] basic_inode_16 *)
Definition create_from_4 (source_node : inode_4 P) (child : P) (depth : tree_depth) : option (inode_16 P) :=
  init_from_4 (raw_inode_16 (with_count (i4_impl source_node) 5)) source_node child depth.

(** The scan over the key bytes of a node of 48, from byte [256 - fuel] on;
    reading past byte 255 is out of bounds. *)
Fixpoint gather (indexes : list Z) (ptrs : list P) (keys : list Z) (children : list P)
    (next_child : nat) (fuel : nat) : option (list Z * list P) :=
  match fuel with
  | O => None
  | S fuel' =>
      let i := (256 - fuel)%nat in
      source_child_i ← indexes !! i;
      if source_child_i =? empty_child then gather indexes ptrs keys children next_child fuel'
      else
        source_child_ptr ← ptrs !! Z.to_nat source_child_i;
        let keys := <[next_child := Z.of_nat i]> keys in
        let children := <[next_child := source_child_ptr]> children in
        if (S next_child =? 16)%nat then Some (keys, children)
        else gather indexes ptrs keys children (S next_child) fuel'
  end.

(** Shrinking a node of 17; the deleted child is returned for reclamation.
    [src/art_internal_impl.hpp:1817-1847] init *)
Definition init_from_48 n (source_node : inode_48 P) (child_to_delete : Z) : option (inode_16 P * P) :=
  children_i ← child_indexes source_node !! Z.to_nat child_to_delete;
  reclaimed ← pointer_array source_node !! Z.to_nat children_i;
  let indexes := <[Z.to_nat child_to_delete := empty_child]> (child_indexes source_node) in
  '(keys, children) ← gather indexes (pointer_array source_node) (i16_keys n) (i16_children n) 0 256;
  Some (Inode16 (i16_impl n) keys children, reclaimed).

(** [src/art_internal_impl.hpp:1772-1776] basic_inode_16 *)
Definition create_from_48 (source_node : inode_48 P) (child_to_delete : Z) : option (inode_16 P * P) :=
  init_from_48 (raw_inode_16 (with_count (i48_impl source_node) 16)) source_node child_to_delete.

(** [std::lower_bound] over the first [n] of the sorted [keys]. *)
Definition lower_bound (keys : list Z) (n : nat) (key_byte : Z) : nat :=
  default n (find_up (λ i, key_byte <=? keys !!! i) 0 n).

(** [src/art_internal_impl.hpp:2051-2087] get_sorted_key_array_insert_position *)
Definition get_sorted_key_array_insert_position n (key_byte : Z) : nat :=
  let count := children_count (i16_impl n) in
  if x86_64 then
    let replicated_insert_key := _mm_set1_epi8 key_byte in
    let lesser_key_positions := _mm_cmple_epu8 replicated_insert_key (i16_keys n) in
    let mask := (1 ≪ count) - 1 in
    let bit_field := Z.land (_mm_movemask_epi8 lesser_key_positions) mask in
    if negb (bit_field =? 0) then countr_zero 32 bit_field else Z.to_nat count
  else lower_bound (i16_keys n) (Z.to_nat count) key_byte.

(** Writing position 16 or above is out of bounds.
    [src/art_internal_impl.hpp:1849-1881] add_to_nonfull *)
Definition add_to_nonfull n (child : P) (depth : tree_depth) (count : Z) : option (inode_16 P) :=
  key_byte ← leaf_key_view child !! Z.to_nat depth;
  let insert_pos_index := get_sorted_key_array_insert_position n key_byte in
  if 16 <=? count then None
  else
    let '(keys, children) :=
      if negb (Z.of_nat insert_pos_index =? count) then
        (copy_backward (i16_keys n) insert_pos_index (Z.to_nat count) (S (Z.to_nat count)),
         copy_backward (i16_children n) insert_pos_index (Z.to_nat count) (S (Z.to_nat count)))
      else (i16_keys n, i16_children n) in
    Some (Inode16 (with_count (i16_impl n) (wrap8 (count + 1)))
      (<[insert_pos_index := key_byte]> keys) (<[insert_pos_index := child]> children)).

(** The removed child is returned for reclamation.
    [src/art_internal_impl.hpp:1886-1906] remove *)
Definition remove n (child_index : Z) : option (inode_16 P * P) :=
  let count := children_count (i16_impl n) in
  let i := Z.to_nat child_index in
  let moves := (Z.to_nat (count - 1) - i)%nat in
  reclaimed ← i16_children n !! i;
  Some (Inode16 (with_count (i16_impl n) (wrap8 (count - 1)))
    (shift_down (i16_keys n) i moves) (shift_down (i16_children n) i moves), reclaimed).

(** [src/art_internal_impl.hpp:1909-1952] find_child *)
Definition find_child n (key_byte : Z) : find_result :=
  if x86_64 then
    let replicated_search_key := _mm_set1_epi8 key_byte in
    let matching_key_positions := _mm_cmpeq_epi8 replicated_search_key (i16_keys n) in
    let mask := (1 ≪ children_count (i16_impl n)) - 1 in
    let bit_field := Z.land (_mm_movemask_epi8 matching_key_positions) mask in
    if negb (bit_field =? 0) then
      let i := countr_zero 32 bit_field in (Z.of_nat i, Some i)
    else child_not_found
  else
    match find_up (λ i, key_byte =? i16_keys n !!! i) 0 (Z.to_nat (children_count (i16_impl n))) with
    | Some i => (Z.of_nat i, Some i)
    | None => child_not_found
    end.

(** [src/art_internal_impl.hpp:1954-1957] get_child *)
Definition get_child n (child_index : Z) : option P := i16_children n !! Z.to_nat child_index.

(** [src/art_internal_impl.hpp:1959-1965] begin *)
Definition begin n : iter_pos := result_at (i16_keys n) 0.

(** [src/art_internal_impl.hpp:1967-1975] last *)
Definition last n : iter_pos := result_at (i16_keys n) (wrap8 (children_count (i16_impl n) - 1)).

(** [src/art_internal_impl.hpp:1977-1985] next *)
Definition next n (child_index : Z) : option iter_pos :=
  let nchildren := children_count (i16_impl n) in
  let next_index := wrap8 (child_index + 1) in
  if nchildren <=? next_index then None else Some (result_at (i16_keys n) next_index).

(** [src/art_internal_impl.hpp:1987-1994] prior *)
Definition prior n (child_index : Z) : option iter_pos :=
  if child_index =? 0 then None else Some (result_at (i16_keys n) (wrap8 (child_index - 1))).

(** [src/art_internal_impl.hpp:1996-2011] lte_key_byte *)
Definition lte_key_byte n (key_byte : Z) : option iter_pos :=
  let children_count_ := children_count (i16_impl n) in
  i ← find_down (λ i, i16_keys n !!! i <=? key_byte) (Z.to_nat children_count_);
  Some (result_at (i16_keys n) (Z.of_nat i)).

(** [src/art_internal_impl.hpp:2013-2028] gte_key_byte *)
Definition gte_key_byte n (key_byte : Z) : option iter_pos :=
  let children_count_ := children_count (i16_impl n) in
  i ← find_up (λ i, key_byte <=? i16_keys n !!! i) 0 (Z.to_nat children_count_);
  Some (result_at (i16_keys n) (Z.of_nat i)).

(** The children in the order of deletion.
    [src/art_internal_impl.hpp:2030-2034] delete_subtree *)
Definition all_children n : list P := take (Z.to_nat (children_count (i16_impl n))) (i16_children n).

End inode_16.

(** ** Specifications *)

Section spec.
Context {P : Type} `{NodePtr P} `{Target}.
Implicit Types n : inode_16 P.

Definition i16_entries n : list (Z * P) := dense_entries (i16_impl n) (i16_keys n) (i16_children n).

Definition i16_wf n : Prop := dense_wf 5 16 (i16_impl n) (i16_keys n) (i16_children n).

Lemma i16_bounds n : i16_wf n →
  length (i16_keys n) = 16%nat ∧ length (i16_children n) = 16%nat ∧ 5 ≤ children_count (i16_impl n) ≤ 16.
Proof. intros []. by split_and!; try lia. Qed.

Lemma i16_find_child_first n b :
  i16_wf n → is_byte b →
  find_child n b =
  match first_index (Z.eqb b <$> take (Z.to_nat (children_count (i16_impl n))) (i16_keys n)) with
  | Some s => (Z.of_nat s, Some s)
  | None => child_not_found
  end.
Proof.
  intros Hw Hb. destruct (i16_bounds _ Hw) as (Hl & _ & Hn). unfold find_child.
  destruct x86_64; [|by rewrite find_up_first_index by lia].
  set (m := Z.to_nat (children_count (i16_impl n))).
  assert (children_count (i16_impl n) = Z.of_nat m) as -> by lia.
  rewrite movemask_eq_byte, bits_of_take, <- fmap_take by lia.
  destruct (first_index _) as [s|] eqn:E.
  - rewrite (countr_zero_bits_of _ _ _ E).
    destruct (Z.eqb_spec (bits_of (Z.eqb b <$> take m (i16_keys n))) 0) as [Hz%bits_of_zero|]; [congruence|done].
  - apply bits_of_zero in E. by rewrite E.
Qed.

#[export] Instance inode_16_ops : InodeOps P (inode_16 P) := {|
  min_size _ := 5;
  capacity _ := 16;
  header := i16_impl;
  set_prefix w n := Inode16 (with_prefix (i16_impl n) w) (i16_keys n) (i16_children n);
  entries := i16_entries;
  node_wf := i16_wf;
  child_at n := dense_at (i16_entries n);
  InodeSpec.find_child := find_child;
  slot_load n s := i16_children n !! s;
  slot_store n s c := Inode16 (i16_impl n) (i16_keys n) (<[s := c]> (i16_children n));
  InodeSpec.get_child := get_child;
  begin_ n := Some (begin n);
  last_ n := Some (last n);
  InodeSpec.next := next;
  InodeSpec.prior := prior;
  InodeSpec.gte_key_byte := gte_key_byte;
  InodeSpec.lte_key_byte := lte_key_byte;
  InodeSpec.all_children := all_children;
|}.

#[export] Instance inode_16_dense : DenseNode P (inode_16 P) 5 16 i16_keys i16_children (λ _, True).
Proof.
  split; try done; [lia| |].
  - intros n. split; [done|by intros []].
  - apply i16_find_child_first.
Qed.

#[export] Instance inode_16_laws : InodeLaws P (inode_16 P).
Proof. apply (dense_laws (DN := inode_16_dense)). Qed.

(** Both builds insert before the first greater key byte. *)
Lemma i16_insert_pos n b l1 l2 :
  i16_wf n → take (Z.to_nat (children_count (i16_impl n))) (i16_keys n) = l1 ++ l2 →
  Forall (λ k, k < b) l1 → Forall (λ k, b < k) l2 →
  get_sorted_key_array_insert_position n b = length l1.
Proof.
  intros Hw Heq H1 H2. destruct (i16_bounds _ Hw) as (Hl & _ & Hn).
  assert (Hdef : default (Z.to_nat (children_count (i16_impl n)))
    (first_index (Z.leb b <$> take (Z.to_nat (children_count (i16_impl n))) (i16_keys n))) = length l1).
  { rewrite Heq. rewrite <- (first_index_split l1 l2 (Z.leb b)).
    - f_equal. apply (f_equal length) in Heq. rewrite length_take in Heq. lia.
    - eapply Forall_impl; [exact H1|]. simpl. lia.
    - eapply Forall_impl; [exact H2|]. simpl. lia. }
  unfold get_sorted_key_array_insert_position, lower_bound.
  destruct x86_64; [|by rewrite find_up_first_index by lia].
  set (m := Z.to_nat (children_count (i16_impl n))) in *.
  assert (children_count (i16_impl n) = Z.of_nat m) as -> by lia.
  rewrite movemask_le_byte_l, bits_of_take, <- fmap_take by lia.
  destruct (first_index _) as [s|] eqn:E; simpl in Hdef.
  - rewrite (countr_zero_bits_of _ _ _ E).
    destruct (Z.eqb_spec (bits_of (Z.leb b <$> take m (i16_keys n))) 0) as [Hz%bits_of_zero|]; [congruence|done].
  - apply bits_of_zero in E. by rewrite E.
Qed.

Lemma i16_add n c depth b :
  i16_wf n → children_count (i16_impl n) < 16 →
  leaf_key_view c !! Z.to_nat depth = Some b → is_byte b → is_null c = false →
  assoc b (i16_entries n) = None →
  ∃ n', add_to_nonfull n c depth (children_count (i16_impl n)) = Some n' ∧ i16_wf n' ∧
    i16_entries n' = ins b c (i16_entries n) ∧ k_prefix (i16_impl n') = k_prefix (i16_impl n).
Proof.
  intros Hw Hlt Hb Hbb Hc Ha. destruct (i16_bounds _ Hw) as (Hl & Hlc & Hn).
  destruct (dense_wf_split _ _ _ _ _ _ Hw Ha) as (l1 & l2 & Heq & H1 & H2).
  unfold add_to_nonfull. rewrite Hb. cbn [mbind option_bind].
  rewrite (i16_insert_pos _ _ _ _ Hw Heq H1 H2).
  rewrite (proj2 (Z.leb_gt _ _)), (wrap_small 8) by lia.
  destruct (dense_wf_insert _ _ _ _ _ b c l1 l2 Hw ltac:(lia) Hbb Hc Heq H1 H2) as [Hw' He].
  rewrite <- !copy_backward_shift_up in *.
  destruct (Z.eqb_spec (Z.of_nat (length l1)) (children_count (i16_impl n))) as [Hend|Hin];
    (eexists; split; [done|]); [|done].
  assert (Z.to_nat (children_count (i16_impl n)) = length l1) as Hm by lia.
  rewrite Hm, !copy_backward_shift_up, !shift_up_none in * by done. done.
Qed.

Lemma i16_remove n i b c :
  i16_wf n → 5 < children_count (i16_impl n) → child_at n i b c →
  ∃ n', remove n i = Some (n', c) ∧ i16_wf n' ∧ i16_entries n' = del b (i16_entries n) ∧
    k_prefix (i16_impl n') = k_prefix (i16_impl n).
Proof.
  intros Hw Hlt [Hi Hat]. destruct (i16_bounds _ Hw) as (Hl & Hlc & Hn).
  pose proof Hat as (Hin & Hbi & Hci)%lookup_arr_entries.
  destruct (dense_wf_remove _ _ _ _ _ (Z.to_nat i) b c Hw ltac:(lia) Hat) as [Hw' He].
  unfold remove. rewrite Hci. cbn [mbind option_bind]. rewrite (wrap_small 8) by lia.
  by eexists.
Qed.

(** Growing a full node of four. *)
Lemma i16_from_4 (src : inode_4 P) c depth b :
  i4_wf src → children_count (i4_impl src) = 4 →
  leaf_key_view c !! Z.to_nat depth = Some b → is_byte b → is_null c = false →
  assoc b (i4_entries src) = None →
  ∃ n, create_from_4 src c depth = Some n ∧ i16_wf n ∧
    i16_entries n = ins b c (i4_entries src) ∧ k_prefix (i16_impl n) = k_prefix (i4_impl src).
Proof.
  intros [Hw Hu] Hcnt Hb Hbb Hc Ha. destruct (i4_keys_take _ Hw) as (Hl & Hk & Hn & Hlc).
  destruct (dense_wf_split _ _ _ _ _ _ Hw Ha) as (l1 & l2 & Heq & H1 & H2).
  pose proof (dense_wf_sorted _ _ _ _ _ Hw) as Hs. pose proof (dense_wf_nonnull _ _ _ _ _ Hw) as Hnn.
  unfold i4_entries, dense_entries in *. rewrite Hcnt in *. change (Z.to_nat 4) with 4%nat in *.
  unfold create_from_4, init_from_4. rewrite Hb. cbn [mbind option_bind].
  replace (if x86_64 then _ else _) with (length l1).
  2:{ destruct x86_64 eqn:E; symmetry.
      - change 0xF with ((1 ≪ Z.of_nat 4) - 1). by eapply get_insert_pos_split.
      - eapply (bytes_lt_split _ _ 4 4); try done; lia. }
  eexists. split; [done|]. cbn [raw_inode_16 i16_keys i16_children i16_impl].
  assert (Hlen : (length l1 ≤ 4)%nat).
  { apply (f_equal length) in Heq. rewrite length_app, length_take in Heq. lia. }
  set (ks' := copy_range (<[_ := b]> _) _ _ _ _). set (cs' := copy_range (<[_ := c]> _) _ _ _ _).
  assert (Hk16 : length ks' = 16%nat) by (unfold ks'; by rewrite length_copy_range, length_insert, length_copy_range).
  assert (Hc16 : length cs' = 16%nat) by (unfold cs'; by rewrite length_copy_range, length_insert, length_copy_range).
  assert (Hent : arr_entries 5 ks' cs' = ins b c (arr_entries 4 (i4_keys src) (i4_children src))).
  { rewrite (arr_entries_app 4 _ _ l1 l2) by (done || lia).
    rewrite ins_app_below by (by apply below_byte, (Forall_zip_fst (λ k, k < b))).
    rewrite ins_above by (by apply above_byte, (Forall_zip_fst (λ k, b < k))).
    unfold arr_entries, ks', cs'. rewrite !copy_insert by (rewrite ?length_replicate; lia).
    assert (take (length l1) (i4_keys src) = l1) as ->.
    { replace (take (length l1) (i4_keys src)) with (take (length l1) (take 4 (i4_keys src))).
      - by rewrite Heq, take_app_length.
      - rewrite take_take. f_equal. lia. }
    rewrite Heq, drop_app_length. rewrite zip_with_app by (rewrite length_take; lia). done. }
  unfold i16_wf, i16_entries, dense_entries. cbn [i16_keys i16_children i16_impl with_count children_count k_prefix].
  change (Z.to_nat 5) with 5%nat. split_and!; [|done..].
  split; cbn [children_count k_prefix with_count]; [done|done| |lia| | |].
  - unfold ks'. apply Forall_copy_range; [rewrite length_insert, length_copy_range, length_replicate; lia|lia| |done].
    apply Forall_insert; [|done].
    apply Forall_copy_range; [rewrite length_replicate; lia|lia| |done].
    apply Forall_replicate, uninit_byte_is_byte.
  - apply (arr_entries_sorted _ _ cs'); [change (Z.to_nat 5) with 5%nat; lia..|].
    change (Z.to_nat 5) with 5%nat. rewrite Hent. by apply ins_sorted.
  - by destruct Hw.
  - unfold cs'. change (Z.to_nat 5) with 5%nat. rewrite copy_insert by (rewrite ?length_replicate; lia).
    pose proof (dw_nonnull _ _ _ _ _ Hw) as Hcn. rewrite Hcnt in Hcn. change (Z.to_nat 4) with 4%nat in Hcn.
    apply Forall_app. split; [|constructor; [done|by apply Forall_drop]].
    replace (take (length l1) (i4_children src)) with (take (length l1) (take 4 (i4_children src)));
      [by apply Forall_take|].
    rewrite take_take. f_equal. lia.
Qed.
End spec.
