(* ===== verification/Inode48.v ===== *)
(** The internal node with 17 to 48 children: 256 indexes into 48 pointers. *)

From S2P Require Import Prelude Words ArtKey KeyPrefix SortedAssoc Simd InodeBase InodeSpec Inode4 Inode16.

(** ** Operations *)

Section inode_48.
Context {P : Type} `{NodePtr P} `{Target}.
Implicit Types n : inode_48 P.

(** A node whose pointers are not initialised yet; the indexes are, to
    [empty_child]. *)
Definition raw_inode_48 (i : inode_impl) : inode_48 P :=
  Inode48 i (replicate 256 empty_child) (replicate 48 null_ptr).

(** [for (i = lo; i < 48; i++) pointer_array[i] = nullptr;] *)
Definition null_from (ptrs : list P) (lo : nat) : list P := take lo ptrs ++ replicate (48 - lo) null_ptr.

(** Growing a full node of 16.
    [src/art_internal_impl.hpp:2164-2194] init *)
Definition init_from_16 n (source_node : inode_16 P) (child : P) (depth : tree_depth) : option (inode_48 P) :=
  let indexes := foldl (λ idx i, <[Z.to_nat (i16_keys source_node !!! i) := Z.of_nat i]> idx)
    (child_indexes n) (seq 0 16) in
  let ptrs := copy_range (pointer_array n) (i16_children source_node) 0 0 16 in
  key_byte ← leaf_key_view child !! Z.to_nat depth;
  let indexes := <[Z.to_nat key_byte := 16]> indexes in
  let ptrs := <[16%nat := child]> ptrs in
  Some (Inode48 (i48_impl n) indexes (null_from ptrs (Z.to_nat (children_count (i48_impl n))))).

(** [src/art_internal_impl.hpp:2149-2155] basic_inode_48 *)
Definition create_from_16 (source_node : inode_16 P) (child : P) (depth : tree_depth) : option (inode_48 P) :=
  init_from_16 (raw_inode_48 (with_count (i16_impl source_node) 17)) source_node child depth.

(** The scan over the children of a node of 256, from byte [256 - fuel] on. *)
Fixpoint scatter (source : list P) (indexes : list Z) (ptrs : list P) (next_child : nat) (fuel : nat)
    : list Z * list P :=
  match fuel with
  | O => (indexes, ptrs)
  | S fuel' =>
      let child_i := (256 - fuel)%nat in
      let child_ptr := source !!! child_i in
      if is_null child_ptr then scatter source indexes ptrs next_child fuel'
      else
        let indexes := <[child_i := Z.of_nat next_child]> indexes in
        let ptrs := <[next_child := child_ptr]> ptrs in
        if (S next_child =? 48)%nat then (indexes, ptrs)
        else scatter source indexes ptrs (S next_child) fuel'
  end.

(** Shrinking a node of 49; the deleted child is returned for reclamation.
    [src/art_internal_impl.hpp:2199-2222] init *)
Definition init_from_256 n (source_node : inode_256 P) (child_to_delete : Z) : option (inode_48 P * P) :=
  reclaimed ← i256_children source_node !! Z.to_nat child_to_delete;
  let source := <[Z.to_nat child_to_delete := null_ptr]> (i256_children source_node) in
  let '(indexes, ptrs) := scatter source (child_indexes n) (pointer_array n) 0 256 in
  Some (Inode48 (i48_impl n) indexes ptrs, reclaimed).

(** [src/art_internal_impl.hpp:2157-2162] basic_inode_48 *)
Definition create_from_256 (source_node : inode_256 P) (child_to_delete : Z) : option (inode_48 P * P) :=
  init_from_256 (raw_inode_48 (with_count (i256_impl source_node) 48)) source_node child_to_delete.

(** The SSE4.2 loop: [i] counts vectors of two pointers, four vectors a round;
    reading past the array is out of bounds. *)
Fixpoint find_null_sse (ptrs : list P) (i : nat) (fuel : nat) : option nat :=
  match fuel with
  | O => None
  | S fuel' =>
      let cmp_mask := null_mask (is_null <$> take 8 (drop (2 * i) ptrs)) in
      if negb (cmp_mask =? 0) then Some (2 * i + (countr_zero 64 cmp_mask + 1) / 2)%nat
      else find_null_sse ptrs (i + 4) fuel'
  end.

(** [src/art_internal_impl.hpp:2225-2348] add_to_nonfull *)
Definition add_to_nonfull n (child : P) (depth : tree_depth) (count : Z) : option (inode_48 P) :=
  key_byte ← leaf_key_view child !! Z.to_nat depth;
  i ← (if x86_64 then find_null_sse (pointer_array n) 0 6
       else find_up (λ i, is_null (pointer_array n !!! i)) 0 48);
  let indexes := <[Z.to_nat key_byte := wrap8 (Z.of_nat i)]> (child_indexes n) in
  let ptrs := <[i := child]> (pointer_array n) in
  Some (Inode48 (with_count (i48_impl n) (wrap8 (count + 1))) indexes ptrs).

(** The child that [direct_remove_child_pointer] hands over for reclamation.
    [src/art_internal_impl.hpp:2542-2557] remove_child_pointer *)
Definition remove_child_pointer n (child_index : Z) : option P :=
  children_i ← child_indexes n !! Z.to_nat child_index;
  pointer_array n !! Z.to_nat children_i.

(** [src/art_internal_impl.hpp:2350-2356] remove *)
Definition remove n (child_index : Z) : option (inode_48 P * P) :=
  reclaimed ← remove_child_pointer n child_index;
  children_i ← child_indexes n !! Z.to_nat child_index;
  let ptrs := <[Z.to_nat children_i := null_ptr]> (pointer_array n) in
  let indexes := <[Z.to_nat child_index := empty_child]> (child_indexes n) in
  Some (Inode48 (with_count (i48_impl n) (wrap8 (children_count (i48_impl n) - 1))) indexes ptrs, reclaimed).

(** [src/art_internal_impl.hpp:2358-2367] find_child *)
Definition find_child n (key_byte : Z) : find_result :=
  let child_i := child_indexes n !!! Z.to_nat key_byte in
  if negb (child_i =? empty_child) then (key_byte, Some (Z.to_nat child_i)) else child_not_found.

(** [src/art_internal_impl.hpp:2369-2388] get_child *)
Definition get_child n (child_index : Z) : option P :=
  child_i ← child_indexes n !! Z.to_nat child_index;
  if child_i =? empty_child then Some null_ptr else pointer_array n !! Z.to_nat child_i.

(** [child_indexes[i] != empty_child] *)
Definition used n (i : nat) : bool := negb (child_indexes n !!! i =? empty_child).

(** [src/art_internal_impl.hpp:2390-2409] begin *)
Definition begin n : option iter_pos := byte_result (find_up (used n) 0 256).

(** [src/art_internal_impl.hpp:2411-2429] last *)
Definition last n : option iter_pos := byte_result (find_down (used n) 256).

(** [src/art_internal_impl.hpp:2431-2444] next *)
Definition next n (child_index : Z) : option iter_pos :=
  byte_result (find_up (used n) (Z.to_nat child_index + 1) (256 - (Z.to_nat child_index + 1))).

(** [src/art_internal_impl.hpp:2446-2458] prior *)
Definition prior n (child_index : Z) : option iter_pos :=
  byte_result (find_down (used n) (Z.to_nat child_index)).

(** [src/art_internal_impl.hpp:2460-2474] lte_key_byte *)
Definition lte_key_byte n (key_byte : Z) : option iter_pos :=
  byte_result (find_down (used n) (Z.to_nat key_byte + 1)).

(** [src/art_internal_impl.hpp:2476-2490] gte_key_byte *)
Definition gte_key_byte n (key_byte : Z) : option iter_pos :=
  byte_result (find_up (used n) (Z.to_nat key_byte) (256 - Z.to_nat key_byte)).

(** The children in the order of deletion.
    [src/art_internal_impl.hpp:2492-2509] delete_subtree *)
Definition all_children n : list P := filter (λ c, is_null c = false) (take 48 (pointer_array n)).

End inode_48.

(** ** Well-formedness *)

Section spec.
Context {P : Type} `{NodePtr P} `{Target}.
Implicit Types n : inode_48 P.

(** The child that byte [b] leads to. *)
Definition i48_child n (b : nat) : option P :=
  s ← child_indexes n !! b;
  if s =? empty_child then None else pointer_array n !! Z.to_nat s.

Definition i48_entries n : list (Z * P) := idx_entries (i48_child n) (seq 0 256).

(** The used indexes are a bijection onto the non-null pointers. *)
Record i48_shape n : Prop := {
  w48_indexes : length (child_indexes n) = 256%nat;
  w48_ptrs : length (pointer_array n) = 48%nat;
  w48_idx : ∀ b s, child_indexes n !! b = Some s → s ≠ empty_child →
    ∃ c, 0 ≤ s ∧ pointer_array n !! Z.to_nat s = Some c ∧ is_null c = false;
  w48_inj : ∀ b b' s, child_indexes n !! b = Some s → child_indexes n !! b' = Some s →
    s ≠ empty_child → b = b';
  w48_surj : ∀ s c, pointer_array n !! s = Some c → is_null c = false →
    ∃ b, child_indexes n !! b = Some (Z.of_nat s);
  w48_prefix : prefix_wf (k_prefix (i48_impl n));
}.

Definition i48_wf n : Prop :=
  i48_shape n ∧ children_count (i48_impl n) = Z.of_nat (length (i48_entries n)) ∧
  (17 ≤ length (i48_entries n) ≤ 48)%nat.

Lemma i48_child_slot n b c :
  i48_shape n → i48_child n b = Some c →
  ∃ s, child_indexes n !! b = Some (Z.of_nat s) ∧ (s < 48)%nat ∧ pointer_array n !! s = Some c ∧ is_null c = false.
Proof.
  intros Hw. unfold i48_child. destruct (child_indexes n !! b) as [s|] eqn:Hs; [|done].
  cbn [mbind option_bind]. destruct (Z.eqb_spec s empty_child) as [|Hne]; [done|]. intros Hc.
  destruct (w48_idx _ Hw _ _ Hs Hne) as (c' & Hpos & Hc' & Hn). simplify_eq.
  exists (Z.to_nat s). rewrite Z2Nat.id by done. split_and!; [done| |done..].
  apply lookup_lt_Some in Hc. by rewrite (w48_ptrs _ Hw) in Hc.
Qed.

Lemma i48_slot_child n b s c :
  child_indexes n !! b = Some (Z.of_nat s) → pointer_array n !! s = Some c → (s < 48)%nat →
  i48_child n b = Some c.
Proof.
  intros Hs Hc Hlt. unfold i48_child. rewrite Hs. cbn [mbind option_bind].
  rewrite (proj2 (Z.eqb_neq _ _)) by (unfold empty_child; lia). by rewrite Nat2Z.id.
Qed.

Lemma i48_mapped n b : i48_shape n → (b < 256)%nat → used n b = mapped (i48_child n) b.
Proof.
  intros Hw Hb. unfold used, mapped, i48_child.
  destruct (lookup_lt_is_Some_2 (child_indexes n) b) as [s Hs]; [by rewrite (w48_indexes _ Hw)|].
  rewrite (list_lookup_total_correct _ _ _ Hs), Hs. cbn [mbind option_bind].
  destruct (Z.eqb_spec s empty_child) as [|Hne]; [by rewrite bool_decide_false by (by intros [])|].
  destruct (w48_idx _ Hw _ _ Hs Hne) as (c & _ & -> & _). by rewrite bool_decide_true.
Qed.

(** The children in key order are the non-null pointers, in another order. *)
Lemma i48_children_perm n :
  i48_shape n → filter (λ c, is_null c = false) (pointer_array n) ≡ₚ (i48_entries n).*2.
Proof.
  intros Hw.
  set (slot := λ b : nat, s ← child_indexes n !! b; if s =? empty_child then None else Some (Z.to_nat s)).
  assert (Hslot : ∀ b s, slot b = Some s ↔ child_indexes n !! b = Some (Z.of_nat s) ∧ (s < 48)%nat).
  { intros b s. unfold slot. destruct (child_indexes n !! b) as [z|] eqn:Hz; cbn [mbind option_bind]; [|naive_solver].
    destruct (Z.eqb_spec z empty_child) as [->|Hne].
    - split; [done|]. unfold empty_child. intros [? ?]. simplify_eq. lia.
    - destruct (w48_idx _ Hw _ _ Hz Hne) as (c & Hpos & Hc%lookup_lt_Some & _).
      rewrite (w48_ptrs _ Hw) in Hc. split; [intros; simplify_eq; split; [f_equal|]; lia|].
      intros [? ?]. simplify_eq. f_equal. lia. }
  transitivity ((λ s, pointer_array n !!! s) <$> filter (λ s, is_null (pointer_array n !!! s) = false) (seq 0 48)).
  { rewrite <- (w48_ptrs _ Hw). by rewrite filter_seq_lookup. }
  transitivity ((λ s, pointer_array n !!! s) <$> omap slot (seq 0 256)).
  - apply fmap_Permutation, NoDup_Permutation.
    + apply NoDup_filter, NoDup_seq.
    + apply NoDup_omap_inj; [apply NoDup_seq|]. intros b b' s [Hb Hlt]%Hslot [Hb' _]%Hslot.
      eapply (w48_inj _ Hw); [done..|]. unfold empty_child. lia.
    + intros s. rewrite list_elem_of_filter, list_elem_of_omap, elem_of_seq. split.
      * intros [Hn Hlt]. destruct (lookup_lt_is_Some_2 (pointer_array n) s) as [c Hc]; [rewrite (w48_ptrs _ Hw); lia|].
        rewrite (list_lookup_total_correct _ _ _ Hc) in Hn. destruct (w48_surj _ Hw _ _ Hc Hn) as [b Hb].
        exists b. split; [|apply Hslot; split; [done|lia]]. apply elem_of_seq.
        apply lookup_lt_Some in Hb. rewrite (w48_indexes _ Hw) in Hb. lia.
      * intros (b & _ & [Hb Hlt]%Hslot). split; [|lia].
        destruct (w48_idx _ Hw _ _ Hb) as (c & _ & Hc & Hn); [unfold empty_child; lia|].
        rewrite Nat2Z.id in Hc. by rewrite (list_lookup_total_correct _ _ _ Hc).
  - unfold i48_entries. generalize (seq 0 256). intros bs.
    induction bs as [|b bs IH]; [done|]. rewrite idx_entries_cons. cbn [omap list_omap].
    unfold i48_child at 1, slot at 1.
    destruct (child_indexes n !! b) as [z|] eqn:Hz; cbn [mbind option_bind]; [|exact IH].
    destruct (Z.eqb_spec z empty_child) as [|Hne]; [exact IH|].
    destruct (w48_idx _ Hw _ _ Hz Hne) as (c & Hpos & Hc & _). rewrite Hc. cbn.
    rewrite (list_lookup_total_correct _ _ _ Hc). by constructor.
Qed.

Lemma i48_count_ptrs n :
  i48_shape n → length (i48_entries n) = length (filter (λ c, is_null c = false) (pointer_array n)).
Proof. intros Hw%i48_children_perm%Permutation_length. rewrite Hw. by rewrite length_fmap. Qed.

(** ** The interface *)

Lemma i48_child_ext n n' :
  (∀ b, child_indexes n' !! b = child_indexes n !! b) → pointer_array n' = pointer_array n →
  i48_child n' = i48_child n.
Proof. destruct n, n'. simpl. intros Hi ->. by rewrite (list_eq _ _ Hi). Qed.

(** Storing a child in the slot of a byte. *)
Lemma i48_store n b s c c' :
  i48_wf n → child_indexes n !! b = Some (Z.of_nat s) → (s < 48)%nat → pointer_array n !! s = Some c →
  is_null c = false → is_null c' = false →
  let n' := Inode48 (i48_impl n) (child_indexes n) (<[s := c']> (pointer_array n)) in
  i48_wf n' ∧ i48_child n' b = Some c' ∧ ∀ b', b' ≠ b → i48_child n' b' = i48_child n b'.
Proof.
  intros (Hw & Hcnt & Hlen) Hb Hs Hc Hn Hn' n'.
  assert (Hother : ∀ b', b' ≠ b → i48_child n' b' = i48_child n b').
  { intros b' Hne. unfold i48_child. simpl. destruct (child_indexes n !! b') as [s'|] eqn:Hb'; [|done].
    cbn [mbind option_bind]. destruct (Z.eqb_spec s' empty_child) as [|He]; [done|].
    apply list_lookup_insert_ne. intros Heq. apply Hne. eapply (w48_inj _ Hw); [exact Hb'| |done].
    destruct (w48_idx _ Hw _ _ Hb' He) as (? & ? & _). rewrite Hb. f_equal. lia. }
  assert (Hthis : i48_child n' b = Some c').
  { apply (i48_slot_child n' b s); [done| |done]. simpl. apply list_lookup_insert_eq.
    by apply lookup_lt_Some in Hc. }
  assert (Hw' : i48_shape n').
  { destruct Hw as [Hi Hp Hidx Hinj Hsurj Hpre]. split; simpl; [done|by rewrite length_insert| |done| |done].
    - intros b0 s0 Hb0 He. destruct (Hidx _ _ Hb0 He) as (c0 & Hpos & Hc0 & Hn0).
      destruct (decide (Z.to_nat s0 = s)) as [<-|].
      + exists c'. rewrite list_lookup_insert_eq by by apply lookup_lt_Some in Hc0. done.
      + exists c0. by rewrite list_lookup_insert_ne.
    - intros s0 c0 [(-> & <- & _)|[_ Hc0]]%list_lookup_insert_Some Hn0; [by exists b|by eapply Hsurj]. }
  split; [|done]. split; [done|].
  assert (length (i48_entries n') = length (i48_entries n)) as ->; [|done].
  rewrite !i48_count_ptrs by done. simpl.
  rewrite <- (take_drop_middle _ _ _ Hc), insert_app_r_alt, !filter_app by (rewrite length_take; lia).
  rewrite length_take, Nat.min_l by (apply lookup_lt_Some in Hc; lia). rewrite Nat.sub_diag. simpl.
  by rewrite !filter_cons_True, !length_app.
Qed.

#[export] Instance inode_48_ops : InodeOps P (inode_48 P) := {|
  min_size _ := 17;
  capacity _ := 48;
  header := i48_impl;
  set_prefix w n := Inode48 (with_prefix (i48_impl n) w) (child_indexes n) (pointer_array n);
  entries := i48_entries;
  node_wf := i48_wf;
  child_at n i b c := i = b ∧ is_byte b ∧ i48_child n (Z.to_nat b) = Some c;
  InodeSpec.find_child := find_child;
  slot_load n s := pointer_array n !! s;
  slot_store n s c := Inode48 (i48_impl n) (child_indexes n) (<[s := c]> (pointer_array n));
  InodeSpec.get_child := get_child;
  begin_ := begin;
  last_ := last;
  InodeSpec.next := next;
  InodeSpec.prior := prior;
  InodeSpec.gte_key_byte := gte_key_byte;
  InodeSpec.lte_key_byte := lte_key_byte;
  InodeSpec.all_children := all_children;
|}.

Lemma find_up_ext (p q : nat → bool) a m :
  (∀ i, (a ≤ i < a + m)%nat → p i = q i) → find_up p a m = find_up q a m.
Proof.
  revert a. induction m as [|m IH]; intros a Hpq; [done|]. cbn [find_up].
  rewrite Hpq by lia. rewrite IH; [done|]. intros. apply Hpq. lia.
Qed.

Lemma find_down_ext (p q : nat → bool) m :
  (∀ i, (i < m)%nat → p i = q i) → find_down p m = find_down q m.
Proof.
  induction m as [|m IH]; intros Hpq; [done|]. cbn [find_down].
  rewrite Hpq by lia. rewrite IH; [done|]. intros. apply Hpq. lia.
Qed.

#[export] Instance inode_48_indexed : IndexedNode P (inode_48 P) 17 48 i48_child.
Proof.
  split; [reflexivity|reflexivity|lia|reflexivity|reflexivity|..].
  - by intros n [[] _].
  - intros n (_ & Hc & Hl). change (entries n) with (i48_entries n). change (header n) with (i48_impl n).
    split; [|exact Hl]. rewrite Hc, (wrap_small 8) by lia. reflexivity.
  - by intros n i c [Hw _] (s & _ & _ & _ & ?)%i48_child_slot.
  - intros n i c [Hw _] Hi Hf. destruct (i48_child_slot _ _ _ Hw Hf) as (s & Hs & Hlt & Hc & _).
    change (InodeSpec.get_child n i) with (get_child n i). unfold get_child. rewrite Hs. cbn [mbind option_bind].
    rewrite (proj2 (Z.eqb_neq _ _)) by (unfold empty_child; lia). by rewrite Nat2Z.id.
  - intros n w (Hw & Hc & Hl) Hp.
    assert (i48_child (Inode48 (with_prefix (i48_impl n) w) (child_indexes n) (pointer_array n)) = i48_child n)
      as Hx by by apply i48_child_ext.
    split; [|split; [reflexivity|exact Hx]]. split; [destruct Hw; by split|].
    assert (i48_entries (set_prefix w n) = i48_entries n) as -> by (unfold i48_entries; exact (f_equal (λ f, idx_entries f (seq 0 256)) Hx)).
    by split.
  - intros n b Hw Hb. unfold is_byte in Hb. change (InodeSpec.find_child n b) with (find_child n b). unfold find_child.
    destruct (i48_child n (Z.to_nat b)) as [c|] eqn:Hf.
    + destruct (i48_child_slot _ _ _ (proj1 Hw) Hf) as (s & Hs & Hlt & Hc & Hn).
      rewrite (list_lookup_total_correct _ _ _ Hs).
      rewrite (proj2 (Z.eqb_neq _ _)) by (unfold empty_child; lia). exists s. rewrite Nat2Z.id.
      split_and!; [done..|]. intros c' Hc'.
      destruct (i48_store n _ s c c' Hw Hs Hlt Hc Hn Hc') as (? & ? & ?). by split_and!.
    + pose proof (i48_mapped n (Z.to_nat b) (proj1 Hw) ltac:(lia)) as Hm. unfold used, mapped in Hm.
      rewrite Hf in Hm. rewrite bool_decide_false in Hm by (by intros []). by rewrite Hm.
  - intros n [Hw _]. change (begin_ n) with (begin n). unfold begin. f_equal. apply find_up_ext. intros. apply i48_mapped; [done|lia].
  - intros n [Hw _]. change (last_ n) with (last n). unfold last. f_equal. apply find_down_ext. intros. apply i48_mapped; [done|lia].
  - intros n i [Hw _] Hi. unfold is_byte in Hi. change (InodeSpec.next n i) with (next n i). unfold next. f_equal. apply find_up_ext. intros. apply i48_mapped; [done|lia].
  - intros n i [Hw _] Hi. unfold is_byte in Hi. change (InodeSpec.prior n i) with (prior n i). unfold prior. f_equal. apply find_down_ext. intros. apply i48_mapped; [done|lia].
  - intros n i [Hw _] Hi. unfold is_byte in Hi. change (InodeSpec.gte_key_byte n i) with (gte_key_byte n i). unfold gte_key_byte. f_equal. apply find_up_ext. intros. apply i48_mapped; [done|lia].
  - intros n i [Hw _] Hi. unfold is_byte in Hi. change (InodeSpec.lte_key_byte n i) with (lte_key_byte n i). unfold lte_key_byte. f_equal. apply find_down_ext. intros. apply i48_mapped; [done|lia].
  - intros n [Hw _]. change (InodeSpec.all_children n) with (all_children n). unfold all_children. rewrite take_ge by (by rewrite (w48_ptrs _ Hw)).
    by apply i48_children_perm.
Qed.

#[export] Instance inode_48_laws : InodeLaws P (inode_48 P).
Proof. apply (indexed_laws (IN := inode_48_indexed)). Qed.

(** ** Insertion and removal *)

Lemma find_null_sse_first ptrs i fuel :
  length ptrs = (2 * i + 8 * fuel)%nat →
  find_null_sse ptrs i fuel = Nat.add (2 * i) <$> first_index (is_null <$> drop (2 * i) ptrs).
Proof.
  revert i. induction fuel as [|fuel IH]; intros i Hl; cbn [find_null_sse].
  - rewrite drop_ge by lia. done.
  - assert (is_null <$> drop (2 * i) ptrs =
      (is_null <$> take 8 (drop (2 * i) ptrs)) ++ (is_null <$> drop 8 (drop (2 * i) ptrs))) as ->
      by by rewrite <- fmap_app, take_drop.
    rewrite first_index_app.
    pose proof (null_mask_spec (is_null <$> take 8 (drop (2 * i) ptrs))) as Hm.
    rewrite length_fmap, length_take, length_drop in Hm. specialize (Hm ltac:(lia)).
    destruct (first_index (is_null <$> take 8 (drop (2 * i) ptrs))) as [j|].
    + destruct Hm as [Hne Hj]. rewrite (proj2 (Z.eqb_neq _ _) Hne), Hj. done.
    + rewrite Hm. cbn [negb Z.eqb]. rewrite IH, drop_drop by lia.
      replace (2 * (i + 4))%nat with (2 * i + 8)%nat by lia.
      rewrite length_fmap, length_take, length_drop, Nat.min_l by lia.
      destruct (first_index _) as [k|]; [|done]. cbn [fmap option_fmap option_map]. f_equal. lia.
Qed.

(** Both builds find the first null pointer. *)
Lemma find_null ptrs :
  length ptrs = 48%nat →
  (if x86_64 then find_null_sse ptrs 0 6 else find_up (λ i, is_null (ptrs !!! i)) 0 48) =
  first_index (is_null <$> ptrs).
Proof.
  intros Hl. destruct x86_64.
  - rewrite find_null_sse_first by lia. simpl. by destruct (first_index _).
  - destruct (first_index _) as [s|] eqn:E.
    + apply first_index_Some in E as [Hs Hlt]. rewrite list_lookup_fmap in Hs.
      apply fmap_Some in Hs as (c & Hc & Hn). apply lookup_lt_Some in Hc as Hs.
      apply find_up_unique; [lia|by rewrite (list_lookup_total_correct _ _ _ Hc)|].
      intros j Hj. specialize (Hlt j ltac:(lia)). rewrite list_lookup_fmap in Hlt.
      apply fmap_Some in Hlt as (c' & Hc' & Hn'). by rewrite (list_lookup_total_correct _ _ _ Hc').
    + destruct (find_up _ 0 48) as [s|] eqn:E2; [|done]. apply find_up_Some in E2 as (Hs & Hn & _).
      exfalso. apply (first_index_None _ E s). rewrite list_lookup_fmap.
      destruct (lookup_lt_is_Some_2 ptrs s) as [c Hc]; [lia|].
      rewrite (list_lookup_total_correct _ _ _ Hc) in Hn. by rewrite Hc; simpl; rewrite Hn.
Qed.

Lemma i48_free_slot n :
  i48_wf n → (length (i48_entries n) < 48)%nat →
  ∃ s p, first_index (is_null <$> pointer_array n) = Some s ∧ pointer_array n !! s = Some p ∧
    is_null p = true ∧ (s < 48)%nat.
Proof.
  intros (Hw & _ & _) Hlt. pose proof (w48_ptrs _ Hw) as Hl.
  destruct (first_index _) as [s|] eqn:E.
  - apply first_index_Some in E as [Hs _]. rewrite list_lookup_fmap in Hs.
    apply fmap_Some in Hs as (c & Hc & Hn). exists s, c. apply lookup_lt_Some in Hc as ?.
    split_and!; [done..|lia].
  - exfalso. rewrite i48_count_ptrs in Hlt by done. rewrite filter_all in Hlt; [lia|].
    apply Forall_lookup. intros s c Hc. pose proof (first_index_None _ E s) as Hn.
    rewrite list_lookup_fmap, Hc in Hn. simpl in Hn. by destruct (is_null c).
Qed.

Lemma i48_assoc n b : is_byte b → assoc b (i48_entries n) = i48_child n (Z.to_nat b).
Proof. unfold is_byte, i48_entries. intros. by rewrite assoc_idx_entries, decide_True by lia. Qed.

(** Linking byte [b] to the free slot [s]. *)
Lemma i48_link n i b s c p :
  i48_shape n → i48_child n b = None → (b < 256)%nat → (s < 48)%nat →
  pointer_array n !! s = Some p → is_null p = true → is_null c = false →
  let n' := Inode48 (with_count (i48_impl n) i) (<[b := Z.of_nat s]> (child_indexes n))
              (<[s := c]> (pointer_array n)) in
  i48_shape n' ∧ i48_child n' b = Some c ∧ ∀ b', b' ≠ b → i48_child n' b' = i48_child n b'.
Proof.
  intros Hw Hb Hlt Hs Hp Hnp Hc n'. pose proof (w48_indexes _ Hw) as Hil. pose proof (w48_ptrs _ Hw) as Hpl.
  assert (Hfree : ∀ b', child_indexes n !! b' ≠ Some (Z.of_nat s)).
  { intros b' Hb'. destruct (w48_idx _ Hw _ _ Hb') as (c' & _ & Hc' & Hn'); [unfold empty_child; lia|].
    rewrite Nat2Z.id in Hc'. congruence. }
  assert (Hne : ∀ b' s' c', child_indexes n !! b' = Some s' → 0 ≤ s' →
    pointer_array n !! Z.to_nat s' = Some c' → Z.to_nat s' ≠ s).
  { intros b' s' c' Hb' Hpos Hc' <-. apply (Hfree b'). rewrite Hb'. f_equal. lia. }
  split_and!.
  - split; simpl; [by rewrite length_insert|by rewrite length_insert| | | |apply Hw].
    + intros b' s' [(-> & <- & _)|[Hbb Hb']]%list_lookup_insert_Some He.
      * exists c. rewrite Nat2Z.id, list_lookup_insert_eq by lia. split_and!; [lia|done..].
      * destruct (w48_idx _ Hw _ _ Hb' He) as (c' & Hpos & Hc' & Hn'). exists c'.
        rewrite list_lookup_insert_ne by (by apply not_eq_sym, (Hne b' s' c')). done.
    + intros b1 b2 s' [(-> & <- & _)|[Hb1 Hs1]]%list_lookup_insert_Some
        [(-> & Heq & _)|[Hb2 Hs2]]%list_lookup_insert_Some He; [done|by apply Hfree in Hs2|by subst; apply Hfree in Hs1|].
      by eapply (w48_inj _ Hw).
    + intros s' c' [(-> & <- & _)|[Hss Hc']]%list_lookup_insert_Some Hn'.
      * exists b. by rewrite list_lookup_insert_eq by lia.
      * destruct (w48_surj _ Hw _ _ Hc' Hn') as [b' Hb']. exists b'.
        rewrite list_lookup_insert_ne; [done|]. intros <-.
        unfold i48_child in Hb. rewrite Hb' in Hb. cbn [mbind option_bind] in Hb.
        apply lookup_lt_Some in Hc'.
        rewrite (proj2 (Z.eqb_neq _ _)), Nat2Z.id in Hb by (unfold empty_child; lia).
        by apply lookup_ge_None in Hb; lia.
  - apply (i48_slot_child n' b s); simpl; [by rewrite list_lookup_insert_eq by lia..|done].
  - intros b' Hbb. unfold i48_child. simpl. rewrite list_lookup_insert_ne by done.
    destruct (child_indexes n !! b') as [s'|] eqn:Hs'; [|done]. cbn [mbind option_bind].
    destruct (Z.eqb_spec s' empty_child) as [|He]; [done|].
    destruct (w48_idx _ Hw _ _ Hs' He) as (c' & Hpos & Hc' & _).
    apply list_lookup_insert_ne. by apply not_eq_sym, (Hne b' s' c').
Qed.

Lemma i48_add n c depth b :
  i48_wf n → children_count (i48_impl n) < 48 →
  leaf_key_view c !! Z.to_nat depth = Some b → is_byte b → is_null c = false →
  assoc b (i48_entries n) = None →
  ∃ n', add_to_nonfull n c depth (children_count (i48_impl n)) = Some n' ∧ i48_wf n' ∧
    i48_entries n' = ins b c (i48_entries n) ∧ k_prefix (i48_impl n') = k_prefix (i48_impl n).
Proof.
  intros Hw Hlt Hb Hbb Hc Ha. pose proof Hw as (Hsh & Hcnt & Hlen).
  destruct (i48_free_slot n Hw ltac:(lia)) as (s & p & Hs & Hp & Hnp & Hs48).
  unfold add_to_nonfull. rewrite Hb. cbn [mbind option_bind].
  rewrite find_null, Hs by apply Hsh. cbn [mbind option_bind].
  rewrite !(wrap_small 8) by lia. eexists. split; [done|].
  assert (Hf : i48_child n (Z.to_nat b) = None) by by rewrite <- i48_assoc.
  unfold is_byte in Hbb.
  destruct (i48_link n (children_count (i48_impl n) + 1) (Z.to_nat b) s c p) as (Hw' & Hb' & Ho); try done; [lia|].
  assert (He : i48_entries (Inode48 (with_count (i48_impl n) (children_count (i48_impl n) + 1))
    (<[Z.to_nat b := Z.of_nat s]> (child_indexes n)) (<[s := c]> (pointer_array n))) = ins b c (i48_entries n)).
  { unfold i48_entries. rewrite <- (Z2Nat.id b) at 2 by lia. apply idx_entries_ins; [lia|done|done]. }
  split_and!; [|done..]. split; [done|]. rewrite He.
  rewrite length_ins_None by (done || apply idx_entries_sorted). simpl. lia.
Qed.

(** Unlinking byte [b]. *)
Lemma i48_unlink n b c i :
  i48_shape n → i48_child n b = Some c →
  ∃ s, child_indexes n !! b = Some (Z.of_nat s) ∧ pointer_array n !! s = Some c ∧
    let n' := Inode48 (with_count (i48_impl n) i) (<[b := empty_child]> (child_indexes n))
                (<[s := null_ptr]> (pointer_array n)) in
    i48_shape n' ∧ i48_child n' b = None ∧ ∀ b', b' ≠ b → i48_child n' b' = i48_child n b'.
Proof.
  intros Hw Hf. destruct (i48_child_slot _ _ _ Hw Hf) as (s & Hs & Hlt & Hc & Hn).
  exists s. split; [done|]. split; [done|]. intros n'.
  assert (Hne : ∀ b' s', b' ≠ b → child_indexes n !! b' = Some s' → s' ≠ empty_child → 0 ≤ s' → s ≠ Z.to_nat s').
  { intros b' s' Hbb Hb' He Hpos ->. rewrite Z2Nat.id in Hs by done. apply Hbb. by eapply (w48_inj _ Hw). }
  split_and!.
  - pose proof (w48_indexes _ Hw). pose proof (w48_ptrs _ Hw).
    split; simpl; [by rewrite length_insert|by rewrite length_insert| | | |apply Hw].
    + intros b' s' [(-> & <- & _)|[Hbb Hb']]%list_lookup_insert_Some He; [done|].
      destruct (w48_idx _ Hw _ _ Hb' He) as (c' & Hpos & Hc' & Hn'). exists c'.
      rewrite list_lookup_insert_ne by (by apply (Hne b')). done.
    + intros b1 b2 s' [(-> & <- & _)|[Hb1 Hs1]]%list_lookup_insert_Some
        [(-> & Heq & _)|[Hb2 Hs2]]%list_lookup_insert_Some He; [done|done|congruence|].
      by eapply (w48_inj _ Hw).
    + intros s' c' [(-> & <- & _)|[Hss Hc']]%list_lookup_insert_Some Hn'; [by rewrite is_null_null_ptr in Hn'|].
      destruct (w48_surj _ Hw _ _ Hc' Hn') as [b' Hb']. exists b'.
      rewrite list_lookup_insert_ne; [done|]. intros <-. rewrite Hs in Hb'. by simplify_eq.
  - unfold i48_child. simpl. apply lookup_lt_Some in Hs. by rewrite list_lookup_insert_eq.
  - intros b' Hbb. unfold i48_child. simpl. rewrite list_lookup_insert_ne by done.
    destruct (child_indexes n !! b') as [s'|] eqn:Hs'; [|done]. cbn [mbind option_bind].
    destruct (Z.eqb_spec s' empty_child) as [|He]; [done|].
    destruct (w48_idx _ Hw _ _ Hs' He) as (c' & Hpos & Hc' & _).
    apply list_lookup_insert_ne. by apply (Hne b').
Qed.

Lemma i48_remove n i b c :
  i48_wf n → 17 < children_count (i48_impl n) → child_at n i b c →
  ∃ n', remove n i = Some (n', c) ∧ i48_wf n' ∧ i48_entries n' = del b (i48_entries n) ∧
    k_prefix (i48_impl n') = k_prefix (i48_impl n).
Proof.
  intros (Hw & Hcnt & Hlen) Hlt (-> & Hb & Hf). unfold is_byte in Hb.
  destruct (i48_unlink n (Z.to_nat b) c (children_count (i48_impl n) - 1) Hw Hf) as (s & Hs & Hc & Hw' & Hf' & Ho).
  unfold remove, remove_child_pointer. rewrite Hs. cbn [mbind option_bind]. rewrite Nat2Z.id, Hc.
  cbn [mbind option_bind]. rewrite (wrap_small 8) by lia. eexists. split; [done|].
  set (n' := Inode48 _ _ _) in *.
  assert (He : i48_entries n' = del b (i48_entries n)).
  { unfold i48_entries. rewrite <- (Z2Nat.id b) by lia. by apply idx_entries_del. }
  split_and!; [|done..]. split; [done|]. rewrite He.
  assert (Hin : assoc b (i48_entries n) = Some c) by by rewrite i48_assoc.
  pose proof (length_del_Some b (i48_entries n) (idx_entries_sorted _ _ _) (ex_intro _ c Hin)). simpl. lia.
Qed.

(** ** Construction from another node type *)

(** Consecutive slots for the key bytes of a list. *)
Fixpoint assign (idx : list Z) (ks : list Z) (next : nat) : list Z :=
  match ks with
  | [] => idx
  | k :: ks' => assign (<[Z.to_nat k := Z.of_nat next]> idx) ks' (S next)
  end.

Lemma assign_app idx ks1 ks2 next :
  assign idx (ks1 ++ ks2) next = assign (assign idx ks1 next) ks2 (next + length ks1).
Proof.
  revert idx next. induction ks1 as [|k ks1 IH]; intros idx next; simpl; [by rewrite Nat.add_0_r|].
  rewrite IH. f_equal. lia.
Qed.

Lemma length_assign idx ks next : length (assign idx ks next) = length idx.
Proof. revert idx next. induction ks as [|k ks IH]; intros; simpl; [done|]. by rewrite IH, length_insert. Qed.

Lemma assign_lookup idx ks next b s :
  NoDup ks → Forall is_byte ks → length idx = 256%nat →
  assign idx ks next !! b = Some s ↔
  (∃ j, ks !! j = Some (Z.of_nat b) ∧ s = Z.of_nat (next + j)) ∨ (Z.of_nat b ∉ ks ∧ idx !! b = Some s).
Proof.
  intros Hnd. revert idx next. induction Hnd as [|k ks Hk Hnd IH]; intros idx next Hb Hl; simpl.
  - split; [|by intros [(j & Hj & _)|[_ ?]]]. intros. right. split; [|done]. apply not_elem_of_nil.
  - apply Forall_cons in Hb as [Hkb Hb]. unfold is_byte in Hkb.
    rewrite IH by (rewrite ?length_insert; done). rewrite list_lookup_insert_Some, not_elem_of_cons. split.
    + intros [(j & Hj & ->)|[Hni [(Heq & <- & _)|[Hne Hi]]]].
      * left. exists (S j). split; [done|lia].
      * left. exists 0%nat. simpl. split; [f_equal; lia|lia].
      * right. split_and!; [lia|done..].
    + intros [([|j] & Hj & ->)|[[Hne Hni] Hi]]; simplify_eq/=.
      * right. split; [done|]. left. split_and!; lia.
      * left. exists j. split; [done|lia].
      * right. split; [done|]. right. split; [lia|done].
Qed.

Lemma foldl_assign idx ks a m :
  (a + m ≤ length ks)%nat →
  foldl (λ idx i, <[Z.to_nat (ks !!! i) := Z.of_nat i]> idx) idx (seq a m) = assign idx (take m (drop a ks)) a.
Proof.
  revert idx a. induction m as [|m IH]; intros idx a Hl; [done|]. cbn [seq foldl].
  destruct (lookup_lt_is_Some_2 ks a) as [k Hk]; [lia|].
  rewrite IH by lia. rewrite (list_lookup_total_correct _ _ _ Hk).
  by rewrite (drop_S _ _ _ Hk).
Qed.

(** A node whose slots were filled in the order of [es]. *)
Lemma i48_make n es es' :
  child_indexes n = assign (replicate 256 empty_child) es.*1 0 →
  length (pointer_array n) = 48%nat → take (length es) (pointer_array n) = es.*2 →
  (∀ j c, (length es ≤ j)%nat → pointer_array n !! j = Some c → is_null c = true) →
  NoDup es.*1 → Forall (λ p, is_byte p.1) es → Forall (λ p, is_null p.2 = false) es →
  (17 ≤ length es ≤ 48)%nat → children_count (i48_impl n) = Z.of_nat (length es) →
  prefix_wf (k_prefix (i48_impl n)) → sorted es' → (∀ p, p ∈ es' ↔ p ∈ es) →
  i48_wf n ∧ i48_entries n = es'.
Proof.
  intros Hidx Hpl Hpt Hnull Hnd Hby Hnn Hlen Hcnt Hpre Hs' Hiff.
  assert (Hlook : ∀ b s, child_indexes n !! b = Some s → s ≠ empty_child →
    ∃ j c, es !! j = Some (Z.of_nat b, c) ∧ s = Z.of_nat j).
  { intros b s Hb Hne. rewrite Hidx, assign_lookup in Hb; [|done|by apply Forall_fmap|done].
    destruct Hb as [(j & Hj & ->)|[_ [-> _]%lookup_replicate]]; [|done].
    rewrite list_lookup_fmap in Hj. apply fmap_Some in Hj as ([b' c] & Hj & Heq). simpl in Heq. subst b'.
    by exists j, c. }
  assert (Hlook2 : ∀ j b c, es !! j = Some (b, c) → child_indexes n !! Z.to_nat b = Some (Z.of_nat j)).
  { intros j b c Hj. pose proof (Forall_lookup_1 _ _ _ _ Hby Hj) as Hb. unfold is_byte in Hb. simpl in Hb.
    rewrite Hidx, assign_lookup; [|done|by apply Forall_fmap|done]. left. exists j.
    rewrite list_lookup_fmap, Hj. simpl. split; [f_equal; lia|done]. }
  assert (Hptr : ∀ j b c, es !! j = Some (b, c) → pointer_array n !! j = Some c).
  { intros j b c Hj. apply lookup_lt_Some in Hj as Hlt. rewrite <- (lookup_take_lt _ (length es)) by done.
    by rewrite Hpt, list_lookup_fmap, Hj. }
  assert (Hsh : i48_shape n).
  { split; [by rewrite Hidx, length_assign|done| | | |done].
    - intros b s Hb Hne. destruct (Hlook _ _ Hb Hne) as (j & c & Hj & ->). exists c. rewrite Nat2Z.id.
      split_and!; [lia|by eapply Hptr|by apply (Forall_lookup_1 _ _ _ _ Hnn Hj)].
    - intros b b' s Hb Hb' Hne. destruct (Hlook _ _ Hb Hne) as (j & c & Hj & ->).
      destruct (Hlook _ _ Hb' Hne) as (j' & c' & Hj' & Heq). assert (j' = j) as -> by lia.
      rewrite Hj in Hj'. injection Hj'. lia.
    - intros s c Hc Hn. destruct (decide (s < length es)%nat).
      + destruct (lookup_lt_is_Some_2 es s) as [[b c'] Hb]; [done|]. by exists (Z.to_nat b); eapply Hlook2.
      + rewrite (Hnull s c) in Hn by (done || lia). done. }
  assert (Hent : i48_entries n = es').
  { apply sorted_ext; [apply idx_entries_sorted|done|]. intros b. apply option_eq. intros c.
    rewrite (assoc_elem b c es'), Hiff by done. unfold i48_entries. rewrite assoc_idx_entries. split.
    - case_decide as Hb; [|done]. intros Hc. destruct (i48_child_slot _ _ _ Hsh Hc) as (s & Hs & Hlt & Hcs & _).
      destruct (Hlook _ _ Hs) as (j & c' & Hj & Heq); [unfold empty_child; lia|].
      assert (j = s) as -> by lia. rewrite Z2Nat.id in Hj by lia.
      rewrite (Hptr _ _ _ Hj) in Hcs. simplify_eq. by eapply list_elem_of_lookup_2.
    - intros (j & Hj)%list_elem_of_lookup. pose proof (Forall_lookup_1 _ _ _ _ Hby Hj) as Hb.
      unfold is_byte in Hb. simpl in Hb. rewrite decide_True by lia.
      apply lookup_lt_Some in Hj as Hlt. eapply i48_slot_child; [by eapply Hlook2|by eapply Hptr|lia]. }
  split; [|done]. split; [done|]. rewrite Hcnt.
  assert (length (i48_entries n) = length es) as ->; [|lia].
  apply Permutation_length, NoDup_Permutation; [|by eapply NoDup_fmap_1|by rewrite Hent].
  eapply NoDup_fmap_1, sorted_NoDup_keys, idx_entries_sorted.
Qed.

Lemma elem_of_ins_fresh b c (l : list (Z * P)) p :
  sorted l → assoc b l = None → p ∈ ins b c l ↔ p ∈ l ++ [(b, c)].
Proof.
  intros Hs Ha. destruct (sorted_split b l Hs) as (l1 & l2 & Heq & Hb & Hab). rewrite Ha in Heq. simpl in Heq.
  rewrite Heq. rewrite (ins_split b c l1 None l2) by done.
  rewrite !elem_of_app, elem_of_cons, list_elem_of_singleton. naive_solver.
Qed.

(** Growing a full node of 16. *)
Lemma i48_from_16 (src : inode_16 P) c depth b :
  i16_wf src → children_count (i16_impl src) = 16 →
  leaf_key_view c !! Z.to_nat depth = Some b → is_byte b → is_null c = false →
  assoc b (i16_entries src) = None →
  ∃ n, create_from_16 src c depth = Some n ∧ i48_wf n ∧
    i48_entries n = ins b c (i16_entries src) ∧ k_prefix (i48_impl n) = k_prefix (i16_impl src).
Proof.
  intros Hw Hcnt Hb Hbb Hc Ha. destruct (i16_bounds _ Hw) as (Hl & Hlc & _).
  pose proof (wf_sorted src Hw) as Hs. pose proof (wf_bytes src Hw) as Hby. pose proof (wf_nonnull src Hw) as Hnn.
  change (entries src) with (i16_entries src) in *.
  assert (Hfst : (i16_entries src).*1 = i16_keys src).
  { unfold i16_entries, dense_entries. rewrite Hcnt, arr_entries_fst by (simpl; lia). apply take_ge. simpl. lia. }
  assert (Hsnd : (i16_entries src).*2 = i16_children src).
  { unfold i16_entries. rewrite (dense_wf_children 5 16), Hcnt by done. apply take_ge. simpl. lia. }
  assert (Hlen : length (i16_entries src) = 16%nat) by by rewrite <- (length_fmap fst), Hfst.
  unfold create_from_16, init_from_16. rewrite Hb. cbn [mbind option_bind].
  rewrite foldl_assign, drop_0, take_ge by lia. eexists. split; [done|].
  cbn [raw_inode_48 child_indexes pointer_array i48_impl].
  set (ptrs := copy_range (replicate 48 null_ptr) (i16_children src) 0 0 16).
  assert (Hpl : length ptrs = 48%nat) by (unfold ptrs; by rewrite length_copy_range, length_replicate).
  assert (Hpt : take 16 ptrs = i16_children src).
  { apply list_eq. intros j. destruct (decide (j < 16)%nat).
    - rewrite lookup_take_lt by done. unfold ptrs. rewrite lookup_copy_range, decide_True by (rewrite ?length_replicate; lia).
      f_equal. lia.
    - rewrite lookup_take_ge by lia. symmetry. apply lookup_ge_None. lia. }
  set (n := Inode48 _ _ _).
  destruct (i48_make n (i16_entries src ++ [(b, c)]) (ins b c (i16_entries src))) as [Hn He].
  - simpl. rewrite fmap_app, assign_app, Hfst. simpl. by rewrite Hl.
  - unfold n, null_from. cbn [pointer_array i48_impl with_count children_count]. change (Z.to_nat 17) with 17%nat.
    rewrite length_app, length_take, length_insert, Hpl, length_replicate. done.
  - unfold n, null_from. rewrite length_app, Hlen, fmap_app, Hsnd. cbn [pointer_array i48_impl with_count children_count].
    change (Z.to_nat 17) with 17%nat. rewrite take_app_le by (rewrite length_take, length_insert; simpl; lia).
    rewrite take_take. change (Nat.min _ _) with 17%nat.
    rewrite (take_S_r _ _ c) by (rewrite list_lookup_insert_eq; [done|lia]).
    rewrite take_insert_ge by lia. by rewrite Hpt.
  - intros j c0. rewrite length_app, Hlen. unfold n, null_from. cbn [pointer_array i48_impl with_count children_count].
    change (Z.to_nat 17) with 17%nat. intros Hj. simpl in Hj.
    rewrite lookup_app_r by (rewrite length_take, length_insert; lia).
    intros [-> _]%lookup_replicate. apply is_null_null_ptr.
  - rewrite fmap_app. simpl. apply NoDup_app. split_and!; [by apply sorted_NoDup_keys| |apply NoDup_singleton].
    intros b' Hb' ->%list_elem_of_singleton. apply list_elem_of_fmap in Hb' as ([b0 c0] & -> & Hin).
    simpl in *. apply assoc_elem in Hin; [congruence|done].
  - apply Forall_app. by split; [|constructor].
  - apply Forall_app. by split; [|constructor].
  - rewrite length_app, Hlen. simpl. lia.
  - rewrite length_app, Hlen. done.
  - exact (dw_prefix _ _ _ _ _ Hw).
  - by apply ins_sorted.
  - intros p. by apply elem_of_ins_fresh.
  - done.
Qed.

Lemma take_insert_S {A} (l : list A) i x : (i < length l)%nat → take (S i) (<[i := x]> l) = take i l ++ [x].
Proof.
  intros. rewrite (take_S_r _ _ x) by by rewrite list_lookup_insert_eq. by rewrite take_insert_ge by lia.
Qed.

(** Compacting the used bytes of a node of 48, from byte [256 - fuel] on. *)
Lemma gather_spec n keys children next fuel start es :
  start = (256 - fuel)%nat → es = idx_entries (i48_child n) (seq start fuel) →
  (fuel ≤ 256)%nat → length (child_indexes n) = 256%nat →
  (∀ b s, child_indexes n !! b = Some s → s ≠ empty_child → is_Some (pointer_array n !! Z.to_nat s)) →
  length keys = 16%nat → length children = 16%nat → (0 < length es)%nat → (next + length es = 16)%nat →
  gather (child_indexes n) (pointer_array n) keys children next fuel =
  Some (take next keys ++ es.*1, take next children ++ es.*2).
Proof.
  revert keys children next start es.
  induction fuel as [|fuel IH]; intros keys children next start es Hst Hes Hf Hi Hp Hk Hc Hpos Hlen; subst start es.
  - cbn [seq] in Hpos. change (idx_entries (i48_child n) []) with (@nil (Z * P)) in Hpos. simpl in Hpos. lia.
  - cbn [seq] in *. rewrite idx_entries_cons in *.
    replace (S (256 - S fuel)) with (256 - fuel)%nat in * by lia. cbn [gather].
    set (i := (256 - S fuel)%nat) in *.
    destruct (lookup_lt_is_Some_2 (child_indexes n) i) as [s Hs]; [lia|]. rewrite Hs. cbn [mbind option_bind].
    destruct (Z.eqb_spec s empty_child) as [->|Hne].
    + assert (i48_child n i = None) as Hn by (unfold i48_child; by rewrite Hs).
      rewrite Hn in *. by eapply IH; try lia.
    + destruct (Hp _ _ Hs Hne) as [c Hptr].
      assert (i48_child n i = Some c) as Hn.
      { unfold i48_child. rewrite Hs. cbn [mbind option_bind]. by rewrite (proj2 (Z.eqb_neq _ _) Hne). }
      rewrite Hn, Hptr in *. cbn [mbind option_bind length fmap list_fmap fst snd] in *.
      destruct (Nat.eqb_spec (S next) 16) as [He|He].
      * assert (Hnil : idx_entries (i48_child n) (seq (256 - fuel) fuel) = []) by (apply length_zero_iff_nil; lia).
        rewrite Hnil. cbn [fmap list_fmap]. rewrite <- !take_insert_S by lia.
        by rewrite !take_ge by (rewrite length_insert; lia).
      * erewrite IH by (rewrite ?length_insert; (reflexivity || done || lia)).
        rewrite !take_insert_S by lia. by rewrite <- !app_assoc.
Qed.

Lemma i48_bytes n : i48_wf n → Forall (λ p, is_byte p.1) (i48_entries n).
Proof. exact (wf_bytes n). Qed.

Lemma i48_nonnull n : i48_wf n → Forall (λ p, is_null p.2 = false) (i48_entries n).
Proof. exact (wf_nonnull n). Qed.

(** Shrinking a node of 17. *)
Lemma i16_from_48 (src : inode_48 P) i b c :
  i48_wf src → children_count (i48_impl src) = 17 → child_at src i b c →
  ∃ n : inode_16 P, create_from_48 src i = Some (n, c) ∧ i16_wf n ∧
    i16_entries n = del b (i48_entries src) ∧ k_prefix (i16_impl n) = k_prefix (i48_impl src).
Proof.
  intros (Hw & Hcnt & Hlen) H17 (-> & Hb & Hf). pose proof Hb as Hbr. unfold is_byte in Hbr.
  destruct (i48_child_slot _ _ _ Hw Hf) as (s & Hs & Hs48 & Hc & Hnn).
  set (src' := Inode48 (i48_impl src) (<[Z.to_nat b := empty_child]> (child_indexes src)) (pointer_array src)).
  assert (He : i48_entries src' = del b (i48_entries src)).
  { unfold i48_entries. rewrite <- (Z2Nat.id b) by lia. apply idx_entries_del.
    - unfold i48_child, src'. simpl. apply lookup_lt_Some in Hs. by rewrite list_lookup_insert_eq.
    - intros b' Hne. unfold i48_child, src'. simpl. by rewrite list_lookup_insert_ne. }
  assert (Hin : assoc b (i48_entries src) = Some c) by by rewrite i48_assoc.
  pose proof (length_del_Some b (i48_entries src) (idx_entries_sorted _ _ _) (ex_intro _ c Hin)) as Hdl.
  rewrite <- He in Hdl.
  assert (Hg : gather (<[Z.to_nat b := empty_child]> (child_indexes src)) (pointer_array src)
    (i16_keys (raw_inode_16 (P := P) (with_count (i48_impl src) 16)))
    (i16_children (raw_inode_16 (with_count (i48_impl src) 16))) 0 256 =
    Some ((i48_entries src').*1, (i48_entries src').*2)).
  { apply (gather_spec src' _ _ 0 256 0 (i48_entries src'));
      [reflexivity|reflexivity|lia| | |reflexivity|reflexivity|lia..].
    - simpl. by rewrite length_insert, (w48_indexes _ Hw).
    - intros b' s' [(_ & <- & _)|[_ Hs']]%list_lookup_insert_Some Hne; [done|].
      destruct (w48_idx _ Hw _ _ Hs' Hne) as (c' & _ & ? & _). by exists c'. }
  unfold create_from_48, init_from_48. rewrite Hg, Hs. cbn [mbind option_bind]. rewrite Nat2Z.id, Hc.
  cbn [mbind option_bind raw_inode_16 i16_keys i16_children i16_impl].
  eexists. split; [done|].
  assert (Hl16 : length (i48_entries src') = 16%nat) by lia.
  assert (Hes : sorted (i48_entries src')) by apply idx_entries_sorted.
  assert (Hsub : ∀ p, p ∈ i48_entries src' → p ∈ i48_entries src).
  { intros [b0 c0]. unfold i48_entries at 2. rewrite <- !assoc_elem by apply idx_entries_sorted.
    fold (i48_entries src). rewrite He, assoc_del by apply idx_entries_sorted. by destruct (kcmp b0 b). }
  assert (Hent : arr_entries 16 (i48_entries src').*1 (i48_entries src').*2 = i48_entries src').
  { unfold arr_entries. rewrite !take_ge by (rewrite length_fmap; lia). apply zip_fst_snd. }
  unfold i16_wf, i16_entries, dense_entries. cbn [i16_keys i16_children i16_impl with_count children_count k_prefix].
  change (Z.to_nat 16) with 16%nat. split_and!; [|by rewrite Hent|done].
  assert (Hwf : i48_wf src) by exact (conj Hw (conj Hcnt Hlen)).
  split; cbn [children_count k_prefix with_count]; [by rewrite length_fmap|by rewrite length_fmap| |lia| |apply Hw|].
  - apply Forall_fmap, Forall_forall. intros p Hp%Hsub.
    pose proof (i48_bytes src Hwf) as Hby. rewrite Forall_forall in Hby. by apply Hby.
  - apply (arr_entries_sorted _ _ (i48_entries src').*2); change (Z.to_nat 16) with 16%nat; rewrite ?length_fmap; [lia..|].
    by rewrite Hent.
  - change (Z.to_nat 16) with 16%nat. apply Forall_take, Forall_fmap, Forall_forall. intros p Hp%Hsub.
    pose proof (i48_nonnull src Hwf) as Hnl. rewrite Forall_forall in Hnl. by apply Hnl.
Qed.
End spec.
