(* ===== verification/Inode256.v ===== *)
(** The internal node with 49 to 256 children: one pointer per key byte. *)

From S2P Require Import Prelude Words ArtKey KeyPrefix SortedAssoc Simd InodeBase InodeSpec Inode4 Inode16 Inode48.

(** ** Operations *)

Section inode_256.
Context {P : Type} `{NodePtr P} `{Target}.
Implicit Types n : inode_256 P.

Definition raw_inode_256 (i : inode_impl) : inode_256 P := Inode256 i (replicate 256 null_ptr).

(** The copy of the children of a node of 48, from byte [256 - fuel] on: the
    children array and the byte of the last child. *)
Fixpoint spread (indexes : list Z) (ptrs : list P) (children : list P) (children_copied : nat) (fuel : nat)
    : option (list P * nat) :=
  match fuel with
  | O => None
  | S fuel' =>
      let i := (256 - fuel)%nat in
      children_i ← indexes !! i;
      if children_i =? empty_child then spread indexes ptrs (<[i := null_ptr]> children) children_copied fuel'
      else
        child ← ptrs !! Z.to_nat children_i;
        let children := <[i := child]> children in
        if (S children_copied =? 48)%nat then Some (children, i)
        else spread indexes ptrs children (S children_copied) fuel'
  end.

(** Growing a full node of 48.
    [src/art_internal_impl.hpp:2690-2717] init *)
Definition init_from_48 n (source_node : inode_48 P) (child : P) (depth : tree_depth) : option (inode_256 P) :=
  '(children, i) ← spread (child_indexes source_node) (pointer_array source_node) (i256_children n) 0 256;
  let children := take (S i) children ++ replicate (256 - S i) null_ptr in
  key_byte ← leaf_key_view child !! Z.to_nat depth;
  Some (Inode256 (i256_impl n) (<[Z.to_nat key_byte := child]> children)).

(** [src/art_internal_impl.hpp:2683-2688] basic_inode_256 *)
Definition create_from_48 (source_node : inode_48 P) (child : P) (depth : tree_depth) : option (inode_256 P) :=
  init_from_48 (raw_inode_256 (with_count (i48_impl source_node) 49)) source_node child depth.

(** [src/art_internal_impl.hpp:2719-2730] add_to_nonfull *)
Definition add_to_nonfull n (child : P) (depth : tree_depth) (count : Z) : option (inode_256 P) :=
  key_byte ← leaf_key_view child !! Z.to_nat depth;
  Some (Inode256 (with_count (i256_impl n) (wrap8 (count + 1))) (<[Z.to_nat key_byte := child]> (i256_children n))).

(** The removed child is returned for reclamation.
    [src/art_internal_impl.hpp:2735-2742] remove *)
Definition remove n (child_index : Z) : option (inode_256 P * P) :=
  reclaimed ← i256_children n !! Z.to_nat child_index;
  Some (Inode256 (with_count (i256_impl n) (wrap8 (children_count (i256_impl n) - 1)))
    (<[Z.to_nat child_index := null_ptr]> (i256_children n)), reclaimed).

(** [children[i] != nullptr] *)
Definition present n (i : nat) : bool := negb (is_null (i256_children n !!! i)).

(** [src/art_internal_impl.hpp:2745-2751] find_child *)
Definition find_child n (key_byte : Z) : find_result :=
  if present n (Z.to_nat key_byte) then (key_byte, Some (Z.to_nat key_byte)) else child_not_found.

(** [src/art_internal_impl.hpp:2753-2756] get_child *)
Definition get_child n (child_index : Z) : option P := i256_children n !! Z.to_nat child_index.

(** [src/art_internal_impl.hpp:2758-2773] begin *)
Definition begin n : option iter_pos := byte_result (find_up (present n) 0 256).

(** [src/art_internal_impl.hpp:2775-2789] last *)
Definition last n : option iter_pos := byte_result (find_down (present n) 256).

(** [src/art_internal_impl.hpp:2791-2805] next *)
Definition next n (child_index : Z) : option iter_pos :=
  byte_result (find_up (present n) (Z.to_nat child_index + 1) (256 - (Z.to_nat child_index + 1))).

(** [src/art_internal_impl.hpp:2807-2819] prior *)
Definition prior n (child_index : Z) : option iter_pos :=
  byte_result (find_down (present n) (Z.to_nat child_index)).

(** [src/art_internal_impl.hpp:2821-2836] lte_key_byte *)
Definition lte_key_byte n (key_byte : Z) : option iter_pos :=
  byte_result (find_down (present n) (Z.to_nat key_byte + 1)).

(** [src/art_internal_impl.hpp:2838-2853] gte_key_byte *)
Definition gte_key_byte n (key_byte : Z) : option iter_pos :=
  byte_result (find_up (present n) (Z.to_nat key_byte) (256 - Z.to_nat key_byte)).

(** [src/art_internal_impl.hpp:2855-2877] for_each_child *)
Definition for_each_child n {A} (func : nat → P → A → A) (a : A) : A :=
  foldl (λ a i, let child_ptr := i256_children n !!! i in if is_null child_ptr then a else func i child_ptr a)
    a (seq 0 256).

(** The children in the order of deletion.
    [src/art_internal_impl.hpp:2879-2883] delete_subtree *)
Definition all_children n : list P := for_each_child n (λ _ child acc, acc ++ [child]) [].

End inode_256.

(** ** Specifications *)

Section spec.
Context {P : Type} `{NodePtr P} `{Target}.
Implicit Types n : inode_256 P.

Definition i256_child n (b : nat) : option P :=
  c ← i256_children n !! b; if is_null c then None else Some c.

Definition i256_entries n : list (Z * P) := idx_entries (i256_child n) (seq 0 256).

Definition i256_wf n : Prop :=
  length (i256_children n) = 256%nat ∧ prefix_wf (k_prefix (i256_impl n)) ∧
  children_count (i256_impl n) = wrap8 (Z.of_nat (length (i256_entries n))) ∧
  (49 ≤ length (i256_entries n))%nat.

Lemma i256_child_Some n b c :
  i256_child n b = Some c ↔ i256_children n !! b = Some c ∧ is_null c = false.
Proof.
  unfold i256_child. destruct (i256_children n !! b) as [c'|]; cbn [mbind option_bind]; [|naive_solver].
  destruct (is_null c') eqn:E; naive_solver congruence.
Qed.

Lemma i256_mapped n b : length (i256_children n) = 256%nat → (b < 256)%nat → present n b = mapped (i256_child n) b.
Proof.
  intros Hl Hb. unfold present, mapped, i256_child.
  destruct (lookup_lt_is_Some_2 (i256_children n) b) as [c Hc]; [lia|].
  rewrite (list_lookup_total_correct _ _ _ Hc), Hc. cbn [mbind option_bind].
  destruct (is_null c); [by rewrite bool_decide_false by (by intros [])|by rewrite bool_decide_true].
Qed.

Lemma i256_assoc n b : is_byte b → assoc b (i256_entries n) = i256_child n (Z.to_nat b).
Proof. unfold is_byte, i256_entries. intros. by rewrite assoc_idx_entries, decide_True by lia. Qed.

Lemma length_idx_entries {V} (f : nat → option V) bs : (length (idx_entries f bs) ≤ length bs)%nat.
Proof. induction bs as [|b bs IH]; [done|]. rewrite idx_entries_cons. destruct (f b); simpl; lia. Qed.

(** The child of byte [b] replaced. *)
Lemma i256_child_insert n i b c b' :
  length (i256_children n) = 256%nat → (b < 256)%nat →
  i256_child (Inode256 i (<[b := c]> (i256_children n))) b' =
  if decide (b' = b) then (if is_null c then None else Some c) else i256_child n b'.
Proof.
  intros Hl Hb. unfold i256_child. simpl. case_decide as Hd.
  - subst b'. by rewrite list_lookup_insert_eq by lia.
  - by rewrite list_lookup_insert_ne.
Qed.

Lemma i256_entries_insert n i b c :
  length (i256_children n) = 256%nat → is_byte b → is_null c = false →
  i256_entries (Inode256 i (<[Z.to_nat b := c]> (i256_children n))) = ins b c (i256_entries n).
Proof.
  unfold is_byte. intros Hl Hb Hc. unfold i256_entries. rewrite <- (Z2Nat.id b) at 2 by lia.
  apply idx_entries_ins; [lia| |]; intros; rewrite i256_child_insert by lia.
  - by rewrite decide_True, Hc.
  - by rewrite decide_False.
Qed.

Lemma i256_entries_delete n i b :
  length (i256_children n) = 256%nat → is_byte b →
  i256_entries (Inode256 i (<[Z.to_nat b := null_ptr]> (i256_children n))) = del b (i256_entries n).
Proof.
  unfold is_byte. intros Hl Hb. unfold i256_entries. rewrite <- (Z2Nat.id b) at 2 by lia.
  apply idx_entries_del; intros; rewrite i256_child_insert by lia.
  - by rewrite decide_True, is_null_null_ptr.
  - by rewrite decide_False.
Qed.

Lemma i256_all_children n : length (i256_children n) = 256%nat → all_children n = (i256_entries n).*2.
Proof.
  intros Hl. unfold all_children, for_each_child, i256_entries.
  assert (Hgen : ∀ a m acc, (a + m ≤ 256)%nat →
    foldl (λ acc i, let child_ptr := i256_children n !!! i in
      if is_null child_ptr then acc else acc ++ [child_ptr]) acc (seq a m) =
    acc ++ (idx_entries (i256_child n) (seq a m)).*2).
  { intros a m. revert a. induction m as [|m IH]; intros a acc Ha; cbn [seq foldl].
    - change (idx_entries (i256_child n) []) with (@nil (Z * P)). by rewrite app_nil_r.
    - rewrite idx_entries_cons. unfold i256_child at 1.
      destruct (lookup_lt_is_Some_2 (i256_children n) a) as [c Hc]; [lia|].
      rewrite (list_lookup_total_correct _ _ _ Hc), Hc. cbn [mbind option_bind].
      destruct (is_null c); rewrite IH by lia; [done|]. by rewrite <- app_assoc. }
  by apply (Hgen 0%nat 256%nat []).
Qed.

#[export] Instance inode_256_ops : InodeOps P (inode_256 P) := {|
  min_size _ := 49;
  capacity _ := 256;
  header := i256_impl;
  set_prefix w n := Inode256 (with_prefix (i256_impl n) w) (i256_children n);
  entries := i256_entries;
  node_wf := i256_wf;
  child_at n i b c := i = b ∧ is_byte b ∧ i256_child n (Z.to_nat b) = Some c;
  InodeSpec.find_child := find_child;
  slot_load n s := i256_children n !! s;
  slot_store n s c := Inode256 (i256_impl n) (<[s := c]> (i256_children n));
  InodeSpec.get_child := get_child;
  begin_ := begin;
  last_ := last;
  InodeSpec.next := next;
  InodeSpec.prior := prior;
  InodeSpec.gte_key_byte := gte_key_byte;
  InodeSpec.lte_key_byte := lte_key_byte;
  InodeSpec.all_children := all_children;
|}.

Lemma i256_find n b :
  i256_wf n → is_byte b →
  match i256_child n (Z.to_nat b) with
  | None => find_child n b = child_not_found
  | Some c => ∃ s, find_child n b = (b, Some s) ∧ i256_children n !! s = Some c ∧
      ∀ c', is_null c' = false →
        let n' := Inode256 (i256_impl n) (<[s := c']> (i256_children n)) in
        i256_wf n' ∧ i256_impl n' = i256_impl n ∧ i256_child n' (Z.to_nat b) = Some c' ∧
        ∀ i, i ≠ Z.to_nat b → i256_child n' i = i256_child n i
  end.
Proof.
  intros (Hl & Hp & Hc & Hlen) Hb. pose proof Hb as Hbr. unfold is_byte in Hbr.
  unfold find_child. rewrite i256_mapped by lia. unfold mapped.
  destruct (i256_child n (Z.to_nat b)) as [c|] eqn:Hf; [|by rewrite bool_decide_false by (by intros [])].
  rewrite bool_decide_true by done. exists (Z.to_nat b).
  apply i256_child_Some in Hf as Hcn. split; [done|]. split; [apply Hcn|]. intros c' Hc'. cbv zeta. set (n' := Inode256 (i256_impl n) _).
  assert (He : i256_entries n' = ins b c' (i256_entries n)) by by apply i256_entries_insert.
  assert (Hle : length (i256_entries n') = length (i256_entries n)).
  { rewrite He. apply length_ins_Some; [apply idx_entries_sorted|]. by rewrite i256_assoc, Hf. }
  split_and!.
  - split; [by unfold n'; simpl; rewrite length_insert|]. split; [done|]. by rewrite Hle.
  - done.
  - unfold n'. rewrite i256_child_insert, decide_True by lia. by rewrite Hc'.
  - intros i Hi. unfold n'. by rewrite i256_child_insert, decide_False by lia.
Qed.

#[export] Instance inode_256_indexed : IndexedNode P (inode_256 P) 49 256 i256_child.
Proof.
  split; [reflexivity|reflexivity|lia|reflexivity|reflexivity|..].
  - by intros n (_ & ? & _).
  - intros n (_ & _ & Hc & Hl). split; [exact Hc|]. split; [exact Hl|].
    etransitivity; [apply length_idx_entries|]. by rewrite length_seq.
  - by intros n i c _ [_ ?]%i256_child_Some.
  - by intros n i c _ _ [? _]%i256_child_Some.
  - intros n w (Hl & _ & Hc) Hp. split; [|split; reflexivity]. exact (conj Hl (conj Hp Hc)).
  - intros n b Hw Hb. by apply i256_find.
  - intros n (Hl & _). change (begin_ n) with (begin n). unfold begin. f_equal. apply find_up_ext. intros. apply i256_mapped; [done|lia].
  - intros n (Hl & _). change (last_ n) with (last n). unfold last. f_equal. apply find_down_ext. intros. apply i256_mapped; [done|lia].
  - intros n i (Hl & _) Hi. unfold is_byte in Hi. change (InodeSpec.next n i) with (next n i). unfold next. f_equal. apply find_up_ext. intros. apply i256_mapped; [done|lia].
  - intros n i (Hl & _) Hi. unfold is_byte in Hi. change (InodeSpec.prior n i) with (prior n i). unfold prior. f_equal. apply find_down_ext. intros. apply i256_mapped; [done|lia].
  - intros n i (Hl & _) Hi. unfold is_byte in Hi. change (InodeSpec.gte_key_byte n i) with (gte_key_byte n i). unfold gte_key_byte. f_equal. apply find_up_ext. intros. apply i256_mapped; [done|lia].
  - intros n i (Hl & _) Hi. unfold is_byte in Hi. change (InodeSpec.lte_key_byte n i) with (lte_key_byte n i). unfold lte_key_byte. f_equal. apply find_down_ext. intros. apply i256_mapped; [done|lia].
  - intros n (Hl & _). change (InodeSpec.all_children n) with (all_children n). by rewrite i256_all_children.
Qed.

#[export] Instance inode_256_laws : InodeLaws P (inode_256 P).
Proof. apply (indexed_laws (IN := inode_256_indexed)). Qed.

(** ** Mutation *)

Lemma i256_count n : i256_wf n → (length (i256_entries n) ≤ 256)%nat.
Proof. intros _. etransitivity; [apply length_idx_entries|]. by rewrite length_seq. Qed.

(** A node with a free byte holds fewer than 256 children. *)
Lemma i256_count_free n b : is_byte b → assoc b (i256_entries n) = None → (length (i256_entries n) < 256)%nat.
Proof.
  unfold is_byte. intros Hb Ha. rewrite i256_assoc in Ha by done. unfold i256_entries.
  replace 256%nat with (Z.to_nat b + S (255 - Z.to_nat b))%nat at 1 by lia.
  rewrite seq_app, idx_entries_app, length_app. cbn [seq Nat.add]. rewrite idx_entries_cons, Ha.
  pose proof (length_idx_entries (i256_child n) (seq 0 (Z.to_nat b))) as H1.
  pose proof (length_idx_entries (i256_child n) (seq (S (Z.to_nat b)) (255 - Z.to_nat b))) as H2.
  rewrite !length_seq in *. lia.
Qed.

Lemma wrap8_succ z : wrap8 (wrap8 z + 1) = wrap8 (z + 1).
Proof. unfold wrap. rewrite Z.add_mod_idemp_l; lia. Qed.

Lemma wrap8_pred z : wrap8 (wrap8 z - 1) = wrap8 (z - 1).
Proof. unfold wrap. rewrite Zminus_mod_idemp_l. done. Qed.

Lemma i256_add n c depth b :
  i256_wf n → leaf_key_view c !! Z.to_nat depth = Some b → is_byte b → is_null c = false →
  assoc b (i256_entries n) = None →
  ∃ n', add_to_nonfull n c depth (children_count (i256_impl n)) = Some n' ∧ i256_wf n' ∧
    i256_entries n' = ins b c (i256_entries n) ∧ k_prefix (i256_impl n') = k_prefix (i256_impl n).
Proof.
  intros (Hl & Hp & Hc & Hlen) Hb Hbb Hn Ha. unfold add_to_nonfull. rewrite Hb. cbn [mbind option_bind].
  eexists. split; [done|]. rewrite i256_entries_insert by done. split_and!; [|done..].
  split; [by simpl; rewrite length_insert|]. split; [done|].
  rewrite i256_entries_insert, length_ins_None by (done || apply idx_entries_sorted). split; [|lia].
  simpl. rewrite Hc, wrap8_succ. f_equal. lia.
Qed.

Lemma i256_remove n i b c :
  i256_wf n → (49 < length (i256_entries n))%nat → child_at n i b c →
  ∃ n', remove n i = Some (n', c) ∧ i256_wf n' ∧ i256_entries n' = del b (i256_entries n) ∧
    k_prefix (i256_impl n') = k_prefix (i256_impl n).
Proof.
  intros (Hl & Hp & Hc & Hlen) Hlt (-> & Hb & Hf).
  assert (Ha : assoc b (i256_entries n) = Some c) by by rewrite i256_assoc.
  apply i256_child_Some in Hf as [Hci Hn]. unfold remove. rewrite Hci. cbn [mbind option_bind].
  eexists. split; [done|]. rewrite i256_entries_delete by done. split_and!; [|done..].
  pose proof (length_del_Some b (i256_entries n) (idx_entries_sorted _ _ _) (ex_intro _ c Ha)) as Hdl.
  split; [by simpl; rewrite length_insert|]. split; [done|].
  rewrite i256_entries_delete by done. split; [|lia]. simpl. rewrite Hc, wrap8_pred. f_equal. lia.
Qed.

(** ** Growing a full node of 48 *)

Lemma spread_spec (src : inode_48 P) children copied fuel start es :
  start = (256 - fuel)%nat → es = idx_entries (i48_child src) (seq start fuel) →
  (fuel ≤ 256)%nat → i48_shape src → length children = 256%nat →
  (0 < length es)%nat → (copied + length es = 48)%nat →
  ∃ ch i, spread (child_indexes src) (pointer_array src) children copied fuel = Some (ch, i) ∧
    (start ≤ i < 256)%nat ∧ length ch = 256%nat ∧
    (∀ j, (j < start)%nat → ch !! j = children !! j) ∧
    (∀ j, (start ≤ j ≤ i)%nat → ch !! j = Some (default null_ptr (i48_child src j))) ∧
    (∀ j, (i < j < 256)%nat → i48_child src j = None).
Proof.
  intros Hst Hes Hf Hw. revert children copied start es Hst Hes Hf.
  induction fuel as [|fuel IH]; intros children copied start es Hst Hes Hf Hl Hpos Hlen; subst start es.
  - cbn [seq] in Hpos. change (idx_entries (i48_child src) []) with (@nil (Z * P)) in Hpos. simpl in Hpos. lia.
  - cbn [seq] in *. rewrite idx_entries_cons in *.
    replace (S (256 - S fuel)) with (256 - fuel)%nat in * by lia. cbn [spread].
    set (b := (256 - S fuel)%nat) in *. pose proof (w48_indexes _ Hw) as Hil.
    destruct (lookup_lt_is_Some_2 (child_indexes src) b) as [s Hs]; [lia|]. rewrite Hs. cbn [mbind option_bind].
    destruct (Z.eqb_spec s empty_child) as [->|Hne].
    + assert (i48_child src b = None) as Hn by (unfold i48_child; by rewrite Hs).
      rewrite Hn in *. edestruct (IH (<[b := null_ptr]> children) copied) as (ch & i & Hsp & Hi & Hcl & Hlow & Hmid & Hhi);
        [reflexivity|reflexivity|lia|by rewrite length_insert|lia..|].
      exists ch, i. split_and!; [done|lia..|done| | |done].
      * intros j Hj. rewrite Hlow by lia. by rewrite list_lookup_insert_ne by lia.
      * intros j Hj. destruct (decide (j = b)) as [->|]; [|apply Hmid; lia].
        rewrite Hlow, list_lookup_insert_eq, Hn by lia. done.
    + destruct (w48_idx _ Hw _ _ Hs Hne) as (c & Hps & Hptr & Hnn).
      assert (i48_child src b = Some c) as Hn.
      { unfold i48_child. rewrite Hs. cbn [mbind option_bind]. by rewrite (proj2 (Z.eqb_neq _ _) Hne). }
      rewrite Hn, Hptr in *. cbn [mbind option_bind length] in *.
      destruct (Nat.eqb_spec (S copied) 48) as [He|He].
      * assert (Hnil : idx_entries (i48_child src) (seq (256 - fuel) fuel) = []) by (apply length_zero_iff_nil; lia).
        exists (<[b := c]> children), b. split_and!; [done|lia..|by rewrite length_insert| | |].
        -- intros j Hj. by rewrite list_lookup_insert_ne by lia.
        -- intros j Hj. assert (j = b) as -> by lia. rewrite list_lookup_insert_eq, Hn by lia. done.
        -- intros j Hj. destruct (i48_child src j) as [c'|] eqn:Hc'; [|done]. exfalso.
           assert ((Z.of_nat j, c') ∈ idx_entries (i48_child src) (seq (256 - fuel) fuel)) as Hin.
           { apply elem_of_idx_entries. exists j. rewrite elem_of_seq. split_and!; [lia..|done|done]. }
           rewrite Hnil in Hin. by apply elem_of_nil in Hin.
      * edestruct (IH (<[b := c]> children) (S copied)) as (ch & i & Hsp & Hi & Hcl & Hlow & Hmid & Hhi);
          [reflexivity|reflexivity|lia|by rewrite length_insert|lia..|].
        exists ch, i. split_and!; [done|lia..|done| | |done].
        -- intros j Hj. rewrite Hlow by lia. by rewrite list_lookup_insert_ne by lia.
        -- intros j Hj. destruct (decide (j = b)) as [->|]; [|apply Hmid; lia].
           rewrite Hlow, list_lookup_insert_eq, Hn by lia. done.
Qed.

Lemma i256_from_48 (src : inode_48 P) c depth b :
  i48_wf src → children_count (i48_impl src) = 48 →
  leaf_key_view c !! Z.to_nat depth = Some b → is_byte b → is_null c = false →
  assoc b (i48_entries src) = None →
  ∃ n, create_from_48 src c depth = Some n ∧ i256_wf n ∧
    i256_entries n = ins b c (i48_entries src) ∧ k_prefix (i256_impl n) = k_prefix (i48_impl src).
Proof.
  intros (Hw & Hcnt & Hlen) H48 Hb Hbb Hc Ha.
  destruct (spread_spec src (i256_children (raw_inode_256 (with_count (i48_impl src) 49))) 0 256 0 (i48_entries src))
    as (ch & i & Hsp & Hi & Hcl & _ & Hmid & Hhi); [reflexivity|reflexivity|lia|done|reflexivity|lia..|].
  unfold create_from_48, init_from_48. rewrite Hsp. cbn [mbind option_bind]. rewrite Hb. cbn [mbind option_bind].
  eexists. split; [done|].
  set (ch' := take (S i) ch ++ replicate (256 - S i) null_ptr).
  set (n0 := Inode256 (i256_impl (raw_inode_256 (P := P) (with_count (i48_impl src) 49))) ch').
  assert (Hl' : length (i256_children n0) = 256%nat).
  { simpl. unfold ch'. rewrite length_app, length_take, length_replicate. lia. }
  assert (He0 : i256_entries n0 = i48_entries src).
  { unfold i256_entries, i48_entries. apply idx_entries_ext. intros j Hj%elem_of_seq.
    unfold i256_child. simpl. unfold ch'. destruct (decide (j ≤ i)%nat).
    - rewrite lookup_app_l, lookup_take_lt, Hmid by (rewrite ?length_take; lia). cbn [mbind option_bind].
      destruct (i48_child src j) as [c'|] eqn:Hc'; simpl; [|by rewrite is_null_null_ptr].
      by destruct (i48_child_slot _ _ _ Hw Hc') as (_ & _ & _ & _ & ->).
    - rewrite lookup_app_r, length_take, lookup_replicate_2, Hhi by (rewrite ?length_take; lia).
      cbn [mbind option_bind]. by rewrite is_null_null_ptr. }
  assert (He : i256_entries (Inode256 (i256_impl n0) (<[Z.to_nat b := c]> (i256_children n0))) = ins b c (i48_entries src)).
  { rewrite i256_entries_insert by done. by rewrite He0. }
  split; [|split; [exact He|reflexivity]].
  split; [by simpl; unfold ch'; rewrite length_insert|]. split; [apply Hw|].
  change (Inode256 _ _) with (Inode256 (i256_impl n0) (<[Z.to_nat b := c]> (i256_children n0))). rewrite He.
  rewrite length_ins_None by (done || apply idx_entries_sorted). split; [|lia]. simpl.
  assert (length (i48_entries src) = 48%nat) as -> by lia. done.
Qed.

(** ** Shrinking a node of 49 *)

Lemma scatter_spec n idx ptrs next fuel start es :
  start = (256 - fuel)%nat → es = idx_entries (i256_child n) (seq start fuel) →
  (fuel ≤ 256)%nat → length (i256_children n) = 256%nat → length ptrs = 48%nat → (next + length es ≤ 48)%nat →
  ∃ ptrs', scatter (i256_children n) idx ptrs next fuel = (assign idx es.*1 next, ptrs') ∧
    length ptrs' = 48%nat ∧ take (next + length es) ptrs' = take next ptrs ++ es.*2.
Proof.
  intros Hst Hes Hf Hl. revert idx ptrs next start es Hst Hes Hf.
  induction fuel as [|fuel IH]; intros idx ptrs next start es Hst Hes Hf Hp Hlen; subst start es.
  - cbn [seq] in *. change (idx_entries (i256_child n) []) with (@nil (Z * P)) in *.
    exists ptrs. simpl. rewrite Nat.add_0_r, app_nil_r. done.
  - cbn [seq] in *. rewrite idx_entries_cons in *.
    replace (S (256 - S fuel)) with (256 - fuel)%nat in * by lia. cbn [scatter].
    set (b := (256 - S fuel)%nat) in *.
    destruct (lookup_lt_is_Some_2 (i256_children n) b) as [c Hc]; [lia|].
    rewrite (list_lookup_total_correct _ _ _ Hc).
    destruct (is_null c) eqn:Hn.
    + assert (i256_child n b = None) as Hx by (unfold i256_child; rewrite Hc; cbn [mbind option_bind]; by rewrite Hn).
      rewrite Hx in *. by eapply IH; try lia.
    + assert (i256_child n b = Some c) as Hx by by apply i256_child_Some.
      rewrite Hx in *. cbn [length fmap list_fmap fst snd assign] in *. rewrite Nat2Z.id.
      destruct (Nat.eqb_spec (S next) 48) as [He|He].
      * assert (Hnil : idx_entries (i256_child n) (seq (256 - fuel) fuel) = []) by (apply length_zero_iff_nil; lia).
        rewrite Hnil. cbn [list_fmap assign length]. exists (<[next := c]> ptrs).
        split; [done|]. split; [by rewrite length_insert|].
        replace (next + 1)%nat with (S next) by lia. apply take_insert_S. lia.
      * destruct (IH (<[b := Z.of_nat next]> idx) (<[next := c]> ptrs) (S next) (256 - fuel)%nat _ eq_refl eq_refl)
          as (ptrs' & Hs & Hpl & Htk); [lia|by rewrite length_insert|lia|].
        exists ptrs'. split; [exact Hs|]. split; [done|].
        replace (next + S (length (idx_entries (i256_child n) (seq (256 - fuel) fuel))))%nat
          with (S next + length (idx_entries (i256_child n) (seq (256 - fuel) fuel)))%nat by lia.
        rewrite Htk, take_insert_S by lia. by rewrite <- app_assoc.
Qed.

Lemma i256_bytes n : i256_wf n → Forall (λ p, is_byte p.1) (i256_entries n).
Proof. exact (wf_bytes n). Qed.

Lemma i256_nonnull n : i256_wf n → Forall (λ p, is_null p.2 = false) (i256_entries n).
Proof. exact (wf_nonnull n). Qed.

Lemma i48_from_256 (src : inode_256 P) i b c :
  i256_wf src → length (i256_entries src) = 49%nat → child_at src i b c →
  ∃ n : inode_48 P, create_from_256 src i = Some (n, c) ∧ i48_wf n ∧
    i48_entries n = del b (i256_entries src) ∧ k_prefix (i48_impl n) = k_prefix (i256_impl src).
Proof.
  intros Hwf H49 (-> & Hb & Hf). pose proof Hwf as (Hl & Hp & _).
  assert (Ha : assoc b (i256_entries src) = Some c) by by rewrite i256_assoc.
  apply i256_child_Some in Hf as [Hci Hn].
  set (src' := Inode256 (i256_impl src) (<[Z.to_nat b := null_ptr]> (i256_children src))).
  assert (He : i256_entries src' = del b (i256_entries src)) by by apply i256_entries_delete.
  pose proof (length_del_Some b (i256_entries src) (idx_entries_sorted _ _ _) (ex_intro _ c Ha)) as Hdl.
  rewrite <- He in Hdl.
  destruct (scatter_spec src' (child_indexes (raw_inode_48 (P := P) (with_count (i256_impl src) 48)))
    (pointer_array (raw_inode_48 (P := P) (with_count (i256_impl src) 48))) 0 256 0 (i256_entries src'))
    as (ptrs & Hs & Hpl & Htk); [reflexivity|reflexivity|lia| |reflexivity|lia|].
  { simpl. by rewrite length_insert. }
  unfold create_from_256, init_from_256. rewrite Hci. cbn [mbind option_bind].
  change (<[Z.to_nat b := null_ptr]> (i256_children src)) with (i256_children src'). rewrite Hs.
  eexists. split; [done|].
  assert (Hes : sorted (i256_entries src')) by apply idx_entries_sorted.
  assert (Hsub : ∀ p, p ∈ i256_entries src' → p ∈ i256_entries src).
  { intros [b0 c0]. unfold i256_entries at 2. rewrite <- !assoc_elem by apply idx_entries_sorted.
    fold (i256_entries src). rewrite He, assoc_del by apply idx_entries_sorted. by destruct (kcmp b0 b). }
  assert (Hl48 : length (i256_entries src') = 48%nat) by lia.
  rewrite take_0, Hl48 in Htk. cbn [Nat.add app] in Htk.
  set (n := Inode48 _ _ _).
  destruct (i48_make n (i256_entries src') (i256_entries src')) as [Hn' He'];
    [done|exact Hpl|by rewrite Hl48| |by apply sorted_NoDup_keys| | |lia|by rewrite Hl48|exact Hp|done|done|].
  - intros j c0 Hj Hc0. apply lookup_lt_Some in Hc0. unfold n in Hc0. simpl in Hc0. lia.
  - apply Forall_forall. intros p Hin%Hsub. pose proof (i256_bytes src Hwf) as Hby.
    rewrite Forall_forall in Hby. by apply Hby.
  - apply Forall_forall. intros p Hin%Hsub. pose proof (i256_nonnull src Hwf) as Hby.
    rewrite Forall_forall in Hby. by apply Hby.
  - split; [done|]. by rewrite He', He.
Qed.
End spec.
