(* ===== verification/Inode.v ===== *)
(** Internal nodes of any type: [basic_inode_impl]'s dispatch on the node type, as
    an instance of the node interface. *)

From S2P Require Import Prelude Words ArtKey KeyPrefix SortedAssoc Simd InodeBase.
From S2P Require Import Inode4 Inode16 Inode48 Inode256.
From S2P Require Import InodeSpec.

(** What a pointer with a tag other than [LEAF] refers to.
    [src/art_internal_impl.hpp:268-285] basic_inode_def *)
Inductive inode (P : Type) :=
  | N4 (n : inode_4 P)
  | N16 (n : inode_16 P)
  | N48 (n : inode_48 P)
  | N256 (n : inode_256 P).

#[global] Arguments N4 {P} _.
#[global] Arguments N16 {P} _.
#[global] Arguments N48 {P} _.
#[global] Arguments N256 {P} _.

Section inode.
Context {P : Type} `{NodePtr P} `{Target}.
Implicit Types n : inode P.

Definition type n : node_type :=
  match n with N4 _ => I4 | N16 _ => I16 | N48 _ => I48 | N256 _ => I256 end.

(** [src/art_internal_impl.hpp:849-851] get_key_prefix *)
Definition get_key_prefix n : key_prefix :=
  match n with
  | N4 n => k_prefix (i4_impl n)
  | N16 n => k_prefix (i16_impl n)
  | N48 n => k_prefix (i48_impl n)
  | N256 n => k_prefix (i256_impl n)
  end.

(** The node with its prefix word written through [get_key_prefix()].
    [src/art_internal_impl.hpp:853-853] get_key_prefix *)
Definition set_key_prefix (w : key_prefix) n : inode P :=
  match n with
  | N4 n => N4 (Inode4 (with_prefix (i4_impl n) w) (i4_keys n) (i4_children n))
  | N16 n => N16 (Inode16 (with_prefix (i16_impl n) w) (i16_keys n) (i16_children n))
  | N48 n => N48 (Inode48 (with_prefix (i48_impl n) w) (child_indexes n) (pointer_array n))
  | N256 n => N256 (Inode256 (with_prefix (i256_impl n) w) (i256_children n))
  end.

(** [src/art_internal_impl.hpp:855-858] get_children_count *)
Definition get_children_count n : Z :=
  match n with
  | N4 n => children_count (i4_impl n)
  | N16 n => children_count (i16_impl n)
  | N48 n => children_count (i48_impl n)
  | N256 n => children_count (i256_impl n)
  end.

(** The minimum size of a node type, as the 8-bit count is compared with it.
    [src/art_internal_impl.hpp:1183-1185] MinSize *)
Definition inode_min_size (t : node_type) : Z :=
  match t with I4 => 2 | I16 => 5 | I48 => 17 | I256 => 49 | LEAF => 0 end.

(** [src/art_internal_impl.hpp:1220-1222] capacity *)
Definition inode_capacity (t : node_type) : Z :=
  match t with I4 => 4 | I16 => 16 | I48 => 48 | I256 => 256 | LEAF => 0 end.

(** [src/art_internal_impl.hpp:1216-1218] is_min_size *)
Definition is_min_size n : bool := get_children_count n =? inode_min_size (type n).

(** [src/art_internal_impl.hpp:920-939] find_child *)
Definition find_child n (key_byte : Z) : find_result :=
  match n with
  | N4 n => Inode4.find_child n key_byte
  | N16 n => Inode16.find_child n key_byte
  | N48 n => Inode48.find_child n key_byte
  | N256 n => Inode256.find_child n key_byte
  end.

(** [src/art_internal_impl.hpp:941-966] get_child *)
Definition get_child n (child_index : Z) : option P :=
  match n with
  | N4 n => Inode4.get_child n child_index
  | N16 n => Inode16.get_child n child_index
  | N48 n => Inode48.get_child n child_index
  | N256 n => Inode256.get_child n child_index
  end.

(** [src/art_internal_impl.hpp:968-988] begin *)
Definition begin n : option iter_pos :=
  match n with
  | N4 n => Some (Inode4.begin n)
  | N16 n => Some (Inode16.begin n)
  | N48 n => Inode48.begin n
  | N256 n => Inode256.begin n
  end.

(** [src/art_internal_impl.hpp:990-1009] last *)
Definition last n : option iter_pos :=
  match n with
  | N4 n => Some (Inode4.last n)
  | N16 n => Some (Inode16.last n)
  | N48 n => Inode48.last n
  | N256 n => Inode256.last n
  end.

(** [src/art_internal_impl.hpp:1011-1037] next *)
Definition next n (child_index : Z) : option iter_pos :=
  match n with
  | N4 n => Inode4.next n child_index
  | N16 n => Inode16.next n child_index
  | N48 n => Inode48.next n child_index
  | N256 n => Inode256.next n child_index
  end.

(** [src/art_internal_impl.hpp:1039-1065] prior *)
Definition prior n (child_index : Z) : option iter_pos :=
  match n with
  | N4 n => Inode4.prior n child_index
  | N16 n => Inode16.prior n child_index
  | N48 n => Inode48.prior n child_index
  | N256 n => Inode256.prior n child_index
  end.

(** [src/art_internal_impl.hpp:1067-1090] lte_key_byte *)
Definition lte_key_byte n (key_byte : Z) : option iter_pos :=
  match n with
  | N4 n => Inode4.lte_key_byte n key_byte
  | N16 n => Inode16.lte_key_byte n key_byte
  | N48 n => Inode48.lte_key_byte n key_byte
  | N256 n => Inode256.lte_key_byte n key_byte
  end.

(** [src/art_internal_impl.hpp:1092-1115] gte_key_byte *)
Definition gte_key_byte n (key_byte : Z) : option iter_pos :=
  match n with
  | N4 n => Inode4.gte_key_byte n key_byte
  | N16 n => Inode16.gte_key_byte n key_byte
  | N48 n => Inode48.gte_key_byte n key_byte
  | N256 n => Inode256.gte_key_byte n key_byte
  end.

(** The dispatch of [delete_subtree] to the node types. *)
Definition all_children n : list P :=
  match n with
  | N4 n => Inode4.all_children n
  | N16 n => Inode16.all_children n
  | N48 n => Inode48.all_children n
  | N256 n => Inode256.all_children n
  end.

#[export] Instance inode_ops : InodeOps P (inode P) := {|
  min_size n := inode_min_size (type n);
  capacity n := inode_capacity (type n);
  header n := match n with N4 n => header n | N16 n => header n | N48 n => header n | N256 n => header n end;
  set_prefix := set_key_prefix;
  entries n := match n with N4 n => entries n | N16 n => entries n | N48 n => entries n | N256 n => entries n end;
  node_wf n := match n with N4 n => node_wf n | N16 n => node_wf n | N48 n => node_wf n | N256 n => node_wf n end;
  child_at n :=
    match n with N4 n => child_at n | N16 n => child_at n | N48 n => child_at n | N256 n => child_at n end;
  InodeSpec.find_child := find_child;
  slot_load n := match n with N4 n => slot_load n | N16 n => slot_load n | N48 n => slot_load n | N256 n => slot_load n end;
  slot_store n s c :=
    match n with
    | N4 n => N4 (slot_store n s c) | N16 n => N16 (slot_store n s c)
    | N48 n => N48 (slot_store n s c) | N256 n => N256 (slot_store n s c)
    end;
  InodeSpec.get_child := get_child;
  begin_ := begin;
  last_ := last;
  InodeSpec.next := next;
  InodeSpec.prior := prior;
  InodeSpec.gte_key_byte := gte_key_byte;
  InodeSpec.lte_key_byte := lte_key_byte;
  InodeSpec.all_children := all_children;
|}.

#[local] Opaque Inode4.all_children Inode16.all_children Inode48.all_children Inode256.all_children.

#[export] Instance inode_laws : InodeLaws P (inode P).
Proof.
  split.
  - intros [n|n|n|n]; exact (wf_sorted n).
  - intros [n|n|n|n]; exact (wf_bytes n).
  - intros [n|n|n|n]; exact (wf_nonnull n).
  - intros [n|n|n|n]; exact (wf_prefix n).
  - intros [n|n|n|n]; exact (wf_count n).
  - intros [n|n|n|n]; exact (min_size_ge_2 n).
  - intros [n|n|n|n]; exact (child_at_entry n).
  - intros [n|n|n|n]; exact (get_child_at n).
  - intros [n|n|n|n] w Hw Hp; destruct (set_prefix_spec n w Hw Hp) as (Hx & He & Hh);
      (split; [exact Hx|split; [exact He|exact Hh]]).
  - intros [n|n|n|n]; exact (find_child_spec n).
  - intros [n|n|n|n] b i s c Hw Hb Hf Hc; destruct (slot_store_spec n b i s c Hw Hb Hf Hc) as (Hx & He & Hh);
      (split; [exact Hx|split; [exact He|exact Hh]]).
  - intros [n|n|n|n]; exact (begin_spec n).
  - intros [n|n|n|n]; exact (last_spec n).
  - intros [n|n|n|n]; exact (next_spec n).
  - intros [n|n|n|n]; exact (prior_spec n).
  - intros [n|n|n|n]; exact (gte_spec n).
  - intros [n|n|n|n]; exact (lte_spec n).
  - intros [n|n|n|n]; exact (all_children_spec n).
Qed.

(** ** Mutation, by node type *)

Definition add_to_nonfull n (child : P) (depth : tree_depth) (children_count : Z) : option (inode P) :=
  match n with
  | N4 n => N4 <$> Inode4.add_to_nonfull n child depth children_count
  | N16 n => N16 <$> Inode16.add_to_nonfull n child depth children_count
  | N48 n => N48 <$> Inode48.add_to_nonfull n child depth children_count
  | N256 n => N256 <$> Inode256.add_to_nonfull n child depth children_count
  end.

(** [larger_derived_type]; there is none for [inode_256].
    [src/art_internal_impl.hpp:1224-1225] larger_derived_type *)
Definition larger_type (t : node_type) : node_type :=
  match t with I4 => I16 | I16 => I48 | I48 | I256 => I256 | LEAF => LEAF end.

(** [larger_derived_type(db_instance, inode, leaf, depth)] *)
Definition create_larger n (child : P) (depth : tree_depth) : option (inode P) :=
  match n with
  | N4 n => N16 <$> Inode16.create_from_4 n child depth
  | N16 n => N48 <$> Inode48.create_from_16 n child depth
  | N48 n => N256 <$> Inode256.create_from_48 n child depth
  | N256 _ => None
  end.

(** [smaller_derived_type], for the types other than [inode_4]. *)
Definition smaller_type (t : node_type) : node_type :=
  match t with I256 => I48 | I48 => I16 | I16 | I4 => I4 | LEAF => LEAF end.

(** [smaller_derived_type(db_instance, inode, child_i)] and the child it hands
    over for reclamation. *)
Definition create_smaller n (child_to_delete : Z) : option (inode P * P) :=
  match n with
  | N4 _ => None
  | N16 n => '(n', r) ← Inode4.create_from_16 n child_to_delete; Some (N4 n', r)
  | N48 n => '(n', r) ← Inode16.create_from_48 n child_to_delete; Some (N16 n', r)
  | N256 n => '(n', r) ← Inode48.create_from_256 n child_to_delete; Some (N48 n', r)
  end.

Definition remove n (child_index : Z) : option (inode P * P) :=
  match n with
  | N4 n => '(n', r) ← Inode4.remove n child_index; Some (N4 n', r)
  | N16 n => '(n', r) ← Inode16.remove n child_index; Some (N16 n', r)
  | N48 n => '(n', r) ← Inode48.remove n child_index; Some (N48 n', r)
  | N256 n => '(n', r) ← Inode256.remove n child_index; Some (N256 n', r)
  end.

(** ** Laws of the mutations *)

Lemma get_children_count_header n : get_children_count n = children_count (header n).
Proof. by destruct n. Qed.

Lemma get_key_prefix_header n : get_key_prefix n = k_prefix (header n).
Proof. by destruct n. Qed.

Lemma inode_count n : node_wf n →
  inode_min_size (type n) ≤ Z.of_nat (length (entries n)) ≤ inode_capacity (type n) ∧
  count_of (get_children_count n) = Z.of_nat (length (entries n)).
Proof. intros Hw. rewrite get_children_count_header. by destruct (wf_count n Hw). Qed.

Lemma inode_count_small n : node_wf n → type n ≠ I256 →
  get_children_count n = Z.of_nat (length (entries n)).
Proof.
  intros Hw Ht. destruct (inode_count n Hw) as [Hr Hc]. revert Hc. unfold count_of.
  destruct (Z.eqb_spec (get_children_count n) 0); [|done]. intros Hc.
  destruct n; simpl in *; (done || lia).
Qed.

Lemma is_min_size_spec n : node_wf n →
  is_min_size n = true ↔ Z.of_nat (length (entries n)) = inode_min_size (type n).
Proof.
  intros Hw. destruct (inode_count n Hw) as [Hr Hc]. unfold is_min_size. revert Hc. unfold count_of.
  rewrite Z.eqb_eq. destruct (Z.eqb_spec (get_children_count n) 0) as [->|]; [|by intros ->].
  intros Hc. destruct n; simpl in *; lia.
Qed.

(** A new leaf under a byte that is not in the node. *)
Lemma inode_add n c depth b :
  node_wf n → get_children_count n ≠ inode_capacity (type n) →
  leaf_key_view c !! Z.to_nat depth = Some b → is_byte b → is_null c = false → assoc b (entries n) = None →
  ∃ n', add_to_nonfull n c depth (get_children_count n) = Some n' ∧ node_wf n' ∧
    entries n' = ins b c (entries n) ∧ get_key_prefix n' = get_key_prefix n ∧ type n' = type n.
Proof.
  intros Hw Hne Hb Hbb Hc Ha. destruct (inode_count n Hw) as [Hr Hcnt].
  assert (Hlt : type n ≠ I256 → get_children_count n < inode_capacity (type n)).
  { intros Ht. rewrite inode_count_small in * by done. lia. }
  destruct n as [n|n|n|n]; simpl in *.
  - destruct (i4_add n c depth b) as (n' & -> & ? & ? & ?); [done|by apply Hlt|done..|]. by exists (N4 n').
  - destruct (i16_add n c depth b) as (n' & -> & ? & ? & ?); [done|by apply Hlt|done..|]. by exists (N16 n').
  - destruct (i48_add n c depth b) as (n' & -> & ? & ? & ?); [done|by apply Hlt|done..|]. by exists (N48 n').
  - destruct (i256_add n c depth b) as (n' & -> & ? & ? & ?); [done..|]. by exists (N256 n').
Qed.

(** The same when the node is full: the next larger type. *)
Lemma inode_grow n c depth b :
  node_wf n → type n ≠ I256 → get_children_count n = inode_capacity (type n) →
  leaf_key_view c !! Z.to_nat depth = Some b → is_byte b → is_null c = false → assoc b (entries n) = None →
  ∃ n', create_larger n c depth = Some n' ∧ node_wf n' ∧
    entries n' = ins b c (entries n) ∧ get_key_prefix n' = get_key_prefix n ∧ type n' = larger_type (type n).
Proof.
  intros Hw Ht Hcnt Hb Hbb Hc Ha. destruct n as [n|n|n|n]; simpl in *; [..|done].
  - destruct (i16_from_4 n c depth b) as (n' & -> & ? & ? & ?); [done..|]. by exists (N16 n').
  - destruct (i48_from_16 n c depth b) as (n' & -> & ? & ? & ?); [done..|]. by exists (N48 n').
  - destruct (i256_from_48 n c depth b) as (n' & -> & ? & ? & ?); [done..|]. by exists (N256 n').
Qed.

(** Removal of an entry from a node above its minimum size. *)
Lemma inode_remove n i b c :
  node_wf n → is_min_size n = false → child_at n i b c →
  ∃ n', remove n i = Some (n', c) ∧ node_wf n' ∧
    entries n' = del b (entries n) ∧ get_key_prefix n' = get_key_prefix n ∧ type n' = type n.
Proof.
  intros Hw Hmin Hat. destruct (inode_count n Hw) as [Hr Hcnt].
  assert (Hlt : inode_min_size (type n) < Z.of_nat (length (entries n))).
  { assert (Z.of_nat (length (entries n)) ≠ inode_min_size (type n)); [|lia].
    rewrite <- is_min_size_spec by done. congruence. }
  assert (Hlt' : type n ≠ I256 → inode_min_size (type n) < get_children_count n).
  { intros Ht. by rewrite inode_count_small. }
  destruct n as [n|n|n|n]; simpl in *.
  - destruct (i4_remove n i b c) as (n' & -> & ? & ? & ?); [done|by apply Hlt'|done|]. by exists (N4 n').
  - destruct (i16_remove n i b c) as (n' & -> & ? & ? & ?); [done|by apply Hlt'|done|]. by exists (N16 n').
  - destruct (i48_remove n i b c) as (n' & -> & ? & ? & ?); [done|by apply Hlt'|done|]. by exists (N48 n').
  - destruct (i256_remove n i b c) as (n' & -> & ? & ? & ?); [done|lia|done|]. by exists (N256 n').
Qed.

(** The same at the minimum size: the next smaller type. *)
Lemma inode_shrink n i b c :
  node_wf n → type n ≠ I4 → is_min_size n = true → child_at n i b c →
  ∃ n', create_smaller n i = Some (n', c) ∧ node_wf n' ∧
    entries n' = del b (entries n) ∧ get_key_prefix n' = get_key_prefix n ∧ type n' = smaller_type (type n).
Proof.
  intros Hw Ht Hmin Hat. apply is_min_size_spec in Hmin as Hlen; [|done].
  apply Z.eqb_eq in Hmin. destruct n as [n|n|n|n]; simpl in *; [done|..].
  - destruct (i4_from_16 n i b c) as (n' & -> & ? & ? & ?); [done..|]. by exists (N4 n').
  - destruct (i16_from_48 n i b c) as (n' & -> & ? & ? & ?); [done..|]. by exists (N16 n').
  - destruct (i48_from_256 n i b c) as (n' & -> & ? & ? & ?); [done|lia|done|]. by exists (N48 n').
Qed.
(** A node of 256 is never taken for full: its count is in eight bits. *)
Lemma inode_256_not_full n : node_wf n → type n = I256 → get_children_count n ≠ inode_capacity (type n).
Proof.
  destruct n as [n|n|n|n]; try done. intros (_ & _ & Hc & _) _. cbn [get_children_count inode_capacity type].
  rewrite Hc. pose proof (wrap_range 8 (Z.of_nat (length (i256_entries n))) ltac:(lia)). lia.
Qed.

Lemma inode_prefix_wf n : node_wf n → prefix_wf (get_key_prefix n).
Proof. intros Hw. rewrite get_key_prefix_header. exact (wf_prefix n Hw). Qed.

Lemma inode_nonempty n : node_wf n → entries n ≠ [].
Proof. intros Hw Hnil. destruct (wf_count n Hw) as [_ Hc]. pose proof (min_size_ge_2 n). rewrite Hnil in Hc. cbn [length] in Hc. lia. Qed.

(** Storing back what a slot holds changes nothing. *)
Lemma slot_store_same n s c : slot_load n s = Some c → slot_store n s c = n.
Proof.
  destruct n as [n|n|n|n]; simpl; intros Hs; destruct n; simpl in *; by rewrite list_insert_id.
Qed.

Lemma type_slot_store n s c : type (slot_store n s c) = type n.
Proof. by destruct n. Qed.

Lemma get_key_prefix_slot_store n s c : get_key_prefix (slot_store n s c) = get_key_prefix n.
Proof. by destruct n. Qed.
End inode.
