(* ===== verification/Heap.v ===== *)
(** Effects: the result type of an operation, the state monad the index code is
    translated into, and allocation with its failure injection; and that nothing
    throws [bad_alloc] with an allocator that never fails. *)

From S2P Require Import Prelude Words.

(** ** Outcomes and the monad *)

(** Exceptions the index throws. *)
Inductive exn := bad_alloc | length_error.

#[export] Instance exn_eq_dec : EqDecision exn.
Proof. solve_decision. Defined.

(** [UB] is undefined behaviour, [OutOfFuel] a loop cut short by the model. *)
Inductive res (A : Type) :=
  | Ret (a : A)
  | Throw (e : exn)
  | UB
  | OutOfFuel.

#[global] Arguments Ret {A} _.
#[global] Arguments Throw {A} _.
#[global] Arguments UB {A}.
#[global] Arguments OutOfFuel {A}.

(** An action on a state: also the state at a throw is observable. *)
Definition M (S A : Type) : Type := S → res A * S.

Definition ret {S A} (a : A) : M S A := λ s, (Ret a, s).
Definition bind {S A B} (m : M S A) (f : A → M S B) : M S B :=
  λ s, match m s with
       | (Ret a, s') => f a s'
       | (Throw e, s') => (Throw e, s')
       | (UB, s') => (UB, s')
       | (OutOfFuel, s') => (OutOfFuel, s')
       end.
Definition throw {S A} (e : exn) : M S A := λ s, (Throw e, s).
Definition ub {S A} : M S A := λ s, (UB, s).
Definition out_of_fuel {S A} : M S A := λ s, (OutOfFuel, s).
Definition get {S} : M S S := λ s, (Ret s, s).
Definition modify {S} (f : S → S) : M S unit := λ s, (Ret tt, f s).
(** A partial operation: [None] is undefined behaviour. *)
Definition of_option {S A} (o : option A) : M S A :=
  match o with Some a => ret a | None => ub end.

(** Stack unwinding: [cleanup] is the destructor of an object in scope. *)
Definition on_throw {S A} (cleanup : M S unit) (m : M S A) : M S A :=
  λ s, match m s with
       | (Throw e, s') => let '(_, s'') := cleanup s' in (Throw e, s'')
       | r => r
       end.

Declare Scope monad_scope.
Delimit Scope monad_scope with monad.
Notation "x <- m ; k" := (bind m (λ x, k)) (at level 100, m at next level, right associativity) : monad_scope.
Notation "' p <- m ; k" := (bind m (λ p, k)) (at level 100, p pattern, m at next level, right associativity) : monad_scope.
Notation "m ;; k" := (bind m (λ _, k)) (at level 100, right associativity) : monad_scope.

Lemma bind_ret {S A B} (a : A) (f : A → M S B) s : bind (ret a) f s = f a s.
Proof. done. Qed.

Lemma bind_Ret {S A B} (m : M S A) (f : A → M S B) s a s' : m s = (Ret a, s') → bind m f s = f a s'.
Proof. unfold bind. by intros ->. Qed.

Lemma bind_Throw {S A B} (m : M S A) (f : A → M S B) s e s' : m s = (Throw e, s') → bind m f s = (Throw e, s').
Proof. unfold bind. by intros ->. Qed.

Lemma bind_assoc {S A B C} (m : M S A) (f : A → M S B) (g : B → M S C) s :
  bind (bind m f) g s = bind m (λ a, bind (f a) g) s.
Proof. unfold bind. by destruct (m s) as [[] s']. Qed.

(** ** [allocation_failure_injector] *)

(** [src/test_heap.hpp:94-104] allocation_failure_injector *)
Record injector := Injector {
  allocation_counter : Z;
  fail_on_nth_allocation_ : Z;
  paused : bool;
}.

(** [src/test_heap.hpp:37-46] reset *)
Definition reset (i : injector) : injector := Injector 0 0 (paused i).

(** [src/test_heap.hpp:48-55] fail_on_nth_allocation *)
Definition fail_on_nth_allocation (n : Z) (i : injector) : injector :=
  Injector (allocation_counter i) n (paused i).

(** Whether the call throws [bad_alloc], and the new counters.
    [src/test_heap.hpp:59-77] maybe_fail *)
Definition maybe_fail (i : injector) : bool * injector :=
  if paused i then (false, i)
  else
    let fail_counter := fail_on_nth_allocation_ i in
    if negb (fail_counter =? 0) then
      let allocation_counter_ := allocation_counter i in
      (wrap64 (fail_counter - 1) <=? allocation_counter_,
       Injector (wrap64 (allocation_counter_ + 1)) fail_counter (paused i))
    else (false, i).

(** [src/test_heap.hpp:117-121] pause_heap_faults *)
Definition pause_heap_faults (on : bool) (i : injector) : injector :=
  Injector (allocation_counter i) (fail_on_nth_allocation_ i) on.

(** ** Allocation *)

(** [ndebug] is whether [NDEBUG] is defined.  [posix_memalign n size] tells
    whether the [n]-th system allocation succeeds, for [size] bytes. *)
Class Allocator := {
  ndebug : bool;
  posix_memalign : nat → Z → bool;
}.

Record heap := Heap {
  heap_injector : injector;
  heap_calls : nat;
}.

(** The address is not modelled: the node itself is the allocated object.
    [src/heap.hpp:34-71] allocate_aligned *)
Definition allocate_aligned `{Allocator} (size : Z) : M heap unit := λ h,
  let '(fails, i) := if ndebug then (false, heap_injector h) else maybe_fail (heap_injector h) in
  if fails then (Throw bad_alloc, Heap i (heap_calls h))
  else
    let h' := Heap i (S (heap_calls h)) in
    if posix_memalign (heap_calls h) size then (Ret tt, h') else (Throw bad_alloc, h').

(** Allocation returns or throws [bad_alloc], never anything else. *)
Lemma allocate_aligned_cases `{Allocator} size h :
  ∃ h', allocate_aligned size h = (Ret tt, h') ∨ allocate_aligned size h = (Throw bad_alloc, h').
Proof.
  unfold allocate_aligned. destruct (if ndebug then _ else _) as [[] i]; [by eexists; right|].
  destruct (posix_memalign _ _); eexists; [by left|by right].
Qed.

(** The injector, armed at [n], lets exactly [n - 1] allocations through. *)
Fixpoint injected (k : nat) (i : injector) : list bool :=
  match k with O => [] | S k' => let '(b, i') := maybe_fail i in b :: injected k' i' end.

Lemma maybe_fail_armed c n :
  0 ≤ c → 0 < n < 2 ^ 64 → c + 1 < 2 ^ 64 →
  maybe_fail (Injector c n false) = (n - 1 <=? c, Injector (c + 1) n false).
Proof.
  intros. unfold maybe_fail. cbn [paused fail_on_nth_allocation_ allocation_counter].
  rewrite (proj2 (Z.eqb_neq n 0)), !wrap_small by lia. done.
Qed.

Lemma injected_armed k c n :
  0 ≤ c → 0 < n < 2 ^ 64 → c + Z.of_nat k < 2 ^ 64 →
  injected k (Injector c n false) = (λ j, n - 1 <=? c + Z.of_nat j) <$> seq 0 k.
Proof.
  revert c. induction k as [|k IH]; intros c Hc Hn Hk; [done|].
  cbn [injected]. rewrite maybe_fail_armed, IH by lia. cbn [seq fmap list_fmap]. rewrite Z.add_0_r. f_equal.
  rewrite <- fmap_S_seq. change (list_fmap nat bool) with (fmap (M := list) (A := nat) (B := bool)).
  rewrite <- list_fmap_compose. apply list_fmap_ext. intros j x _.
  unfold compose. f_equal. lia.
Qed.

(** ** Reliable allocation *)

Definition reliable `{Allocator} : Prop := ndebug = true ∧ ∀ n size, posix_memalign n size = true.

Definition no_bad_alloc {S A} (m : M S A) : Prop := ∀ s s', m s ≠ (Throw bad_alloc, s').

Lemma nba_ret {S A} (a : A) : no_bad_alloc (ret a : M S A).
Proof. by intros s s'. Qed.

Lemma nba_of_option {S A} (o : option A) : no_bad_alloc (of_option o : M S A).
Proof. by intros s s'; destruct o. Qed.

Lemma nba_ub {S A} : no_bad_alloc (ub : M S A).
Proof. by intros s s'. Qed.

Lemma nba_out_of_fuel {S A} : no_bad_alloc (out_of_fuel : M S A).
Proof. by intros s s'. Qed.

Lemma nba_get {S} : no_bad_alloc (get : M S S).
Proof. by intros s s'. Qed.

Lemma nba_modify {S} (f : S → S) : no_bad_alloc (modify f).
Proof. by intros s s'. Qed.

Lemma nba_bind {S A B} (m : M S A) (f : A → M S B) :
  no_bad_alloc m → (∀ a, no_bad_alloc (f a)) → no_bad_alloc (bind m f).
Proof.
  intros Hm Hf s s'. unfold bind. specialize (Hm s). destruct (m s) as [[a|[]| |] s1]; try done.
  - apply Hf.
  - by specialize (Hm s1).
Qed.

Lemma nba_on_throw {S A} (c : M S unit) (m : M S A) : no_bad_alloc m → no_bad_alloc (on_throw c m).
Proof.
  intros Hm s s'. unfold on_throw. specialize (Hm s). destruct (m s) as [[a|x| |] s1]; try done.
  destruct (c s1) as [? s2]. intros [= -> _]. by apply (Hm s1).
Qed.

Lemma nba_allocate_aligned `{Allocator} size : reliable → no_bad_alloc (allocate_aligned size).
Proof. intros [Hn Hm] h h'. unfold allocate_aligned. by rewrite Hn, Hm. Qed.

Create HintDb nba discriminated.
#[export] Hint Constants Opaque : nba.
#[export] Hint Resolve nba_ret nba_of_option nba_ub nba_out_of_fuel nba_get nba_modify nba_on_throw : nba.

(** One step through the structure of an operation. *)
Ltac nba_step :=
  first
    [ progress (cbn [fst snd])
    | match goal with |- no_bad_alloc (bind _ _) => apply nba_bind; [|intros ?] end
    | match goal with |- no_bad_alloc (match ?x with _ => _ end) => destruct x end
    | solve [eauto with nba]
    | match goal with |- no_bad_alloc (on_throw _ _) => apply nba_on_throw end ].

Ltac nba := repeat nba_step.
