(* ===== verification/Buffer.v ===== *)
(** The growing byte buffer behind [key_buffer] and [key_encoder]: an array of 256
    bytes in the object, replaced by allocations of the next power of two. *)

From S2P Require Import Prelude Words Simd Heap.

(** [src/art_common.hpp:120-129] INITIAL_BUFFER_CAPACITY *)
Definition INITIAL_BUFFER_CAPACITY : Z := 256.

(** [live] counts the heap blocks the object has allocated and not freed.
    [src/art_internal.hpp:620-631] key_buffer *)
Record key_buffer := KeyBuffer {
  buf : list Z;
  cap : Z;
  off : Z;
  live : Z;
  buf_heap : heap;
}.

Section buffer.
Context `{Target, Allocator}.
#[local] Open Scope monad_scope.

(** A new object: the memory of the internal buffer is not initialised. *)
Definition new_buffer (h : heap) : key_buffer :=
  KeyBuffer (replicate 256 uninit_byte) INITIAL_BUFFER_CAPACITY 0 0 h.

Definition allocate_buffer (size : Z) : M key_buffer (list Z) := λ b,
  let '(r, h) := allocate_aligned size (buf_heap b) in
  match r with
  | Ret _ => (Ret (replicate (Z.to_nat size) uninit_byte), KeyBuffer (buf b) (cap b) (off b) (live b + 1) h)
  | Throw e => (Throw e, KeyBuffer (buf b) (cap b) (off b) (live b) h)
  | UB => (UB, b)
  | OutOfFuel => (OutOfFuel, b)
  end.

Definition free_buffer : M key_buffer unit :=
  modify (λ b, KeyBuffer (buf b) (cap b) (off b) (live b - 1) (buf_heap b)).

(** [std::memcpy(mem + i, bytes, n)], undefined outside of [mem]. *)
Definition memcpy (mem : list Z) (i : Z) (bytes : list Z) : option (list Z) :=
  if bool_decide (0 ≤ i ∧ i + Z.of_nat (length bytes) ≤ Z.of_nat (length mem)) then
    Some (take (Z.to_nat i) mem ++ bytes ++ drop (Z.to_nat i + length bytes) mem)
  else None.

(** [std::bit_ceil] is undefined above 2^63.
    [src/art_common.hpp:159-176] ensure_capacity *)
Definition ensure_capacity (min_capacity : Z) : M key_buffer unit :=
  if 2 ^ 63 <? min_capacity then ub
  else
    let asize := bit_ceil min_capacity in
    tmp <- allocate_buffer asize;
    b <- get;
    tmp <- of_option (memcpy tmp 0 (take (Z.to_nat (off b)) (buf b)));
    (if INITIAL_BUFFER_CAPACITY <? cap b then free_buffer else ret tt);;
    modify (λ b, KeyBuffer tmp asize (off b) (live b) (buf_heap b)).

(** [src/art_internal.hpp:546-553] ensure_available *)
Definition ensure_available (req : Z) : M key_buffer unit :=
  b <- get;
  if cap b <? wrap64 (off b + req) then ensure_capacity (wrap64 (off b + req)) else ret tt.

(** [src/art_internal.hpp:571-572] reset *)
Definition reset_buffer : M key_buffer unit := modify (λ b, KeyBuffer (buf b) (cap b) 0 (live b) (buf_heap b)).

(** [src/art_internal.hpp:574-579] get_key_view *)
Definition buffer_view (b : key_buffer) : list Z := take (Z.to_nat (off b)) (buf b).

(** The bytes go where [off] says, which then moves past them. *)
Definition write_bytes (bytes : list Z) : M key_buffer unit :=
  b <- get;
  mem <- of_option (memcpy (buf b) (off b) bytes);
  modify (λ b, KeyBuffer mem (cap b) (wrap64 (off b + Z.of_nat (length bytes))) (live b) (buf_heap b)).

(** [src/art_internal.hpp:583-587] push *)
Definition push_byte (v : Z) : M key_buffer unit :=
  ensure_available 1;;
  write_bytes [v].

(** [src/art_internal.hpp:589-595] push *)
Definition push_view (v : list Z) : M key_buffer unit :=
  ensure_available (Z.of_nat (length v));;
  write_bytes v.

(** [src/art_internal.hpp:599-603] pop *)
Definition pop_bytes (n : Z) : M key_buffer unit :=
  modify (λ b, KeyBuffer (buf b) (cap b) (wrap64 (off b - n)) (live b) (buf_heap b)).

(** [src/art_internal.hpp:564-569] ~key_buffer *)
Definition destroy_buffer : M key_buffer unit :=
  b <- get;
  if INITIAL_BUFFER_CAPACITY <? cap b then free_buffer else ret tt.

(** ** What the buffer promises *)

(** The buffer holds the byte string [l]; it owns a heap block exactly when it
    has outgrown the internal array. *)
Definition holds (b : key_buffer) (l : list Z) : Prop :=
  buffer_view b = l ∧ off b = Z.of_nat (length l) ∧ Z.of_nat (length (buf b)) = cap b ∧
  INITIAL_BUFFER_CAPACITY ≤ cap b ≤ 2 ^ 63 ∧ off b ≤ cap b ∧
  live b = (if INITIAL_BUFFER_CAPACITY <? cap b then 1 else 0).

(** An operation that adds [bytes] at the end, or throws [bad_alloc] when they do
    not fit the capacity, perhaps with some of them added. *)
Definition appends (m : M key_buffer unit) (bytes : list Z) : Prop :=
  ∀ b l, holds b l → Z.of_nat (length (l ++ bytes)) ≤ 2 ^ 63 →
  ∃ r b', m b = (r, b') ∧
    ((r = Ret tt ∧ holds b' (l ++ bytes) ∧ cap b ≤ cap b') ∨
     (r = Throw bad_alloc ∧ cap b < Z.of_nat (length (l ++ bytes)) ∧ ∃ k, holds b' (l ++ take k bytes))).

Lemma new_buffer_holds h : holds (new_buffer h) [].
Proof.
  unfold holds, new_buffer. cbn [buf cap off live]. rewrite length_replicate. unfold INITIAL_BUFFER_CAPACITY.
  split_and!; (done || lia).
Qed.

Lemma memcpy_spec mem i bytes :
  0 ≤ i → i + Z.of_nat (length bytes) ≤ Z.of_nat (length mem) →
  ∃ mem', memcpy mem i bytes = Some mem' ∧ length mem' = length mem ∧
    take (Z.to_nat i + length bytes) mem' = take (Z.to_nat i) mem ++ bytes.
Proof.
  intros Hi Hl. unfold memcpy. rewrite bool_decide_true by done. eexists. split; [done|]. split.
  - rewrite !length_app, length_take, length_drop. lia.
  - rewrite app_assoc. apply take_app_length'. rewrite length_app, length_take. lia.
Qed.

Lemma bit_ceil_bounds x : INITIAL_BUFFER_CAPACITY < x ≤ 2 ^ 63 → x ≤ bit_ceil x ≤ 2 ^ 63 ∧ INITIAL_BUFFER_CAPACITY < bit_ceil x.
Proof.
  unfold INITIAL_BUFFER_CAPACITY. intros Hx. destruct (bit_ceil_spec x ltac:(lia)) as (Hlo & Hhi & _).
  split; [|lia]. split; [done|]. unfold bit_ceil. rewrite (proj2 (Z.leb_gt _ _)) by lia.
  apply Z.pow_le_mono_r; [lia|]. apply Z.log2_up_le_pow2; lia.
Qed.

Lemma holds_view b l : holds b l → buffer_view b = l.
Proof. by intros [? _]. Qed.

Lemma ensure_available_spec req b l :
  holds b l → 0 ≤ req → Z.of_nat (length l) + req ≤ 2 ^ 63 →
  ∃ r b', ensure_available req b = (r, b') ∧
    ((r = Ret tt ∧ holds b' l ∧ off b' + req ≤ cap b' ∧ cap b ≤ cap b') ∨
     (r = Throw bad_alloc ∧ holds b' l ∧ cap b < Z.of_nat (length l) + req)).
Proof.
  intros Hb Hreq Hsz. pose proof Hb as (Hv & Ho & Hl & Hc & Hoc & Hlive).
  unfold ensure_available, bind at 1, get. rewrite (wrap_small 64) by lia.
  destruct (Z.ltb_spec (cap b) (off b + req)) as [Hlt|Hge].
  2: { eexists _, b. split; [done|]. left. split_and!; [done..|lia]. }
  unfold ensure_capacity. rewrite (proj2 (Z.ltb_ge _ _)) by lia.
  pose proof (bit_ceil_bounds (off b + req) ltac:(lia)) as [Hbc Hbc'].
  unfold bind at 1, allocate_buffer.
  destruct (allocate_aligned_cases (bit_ceil (off b + req)) (buf_heap b)) as [h [->| ->]].
  2: { eexists _, _. split; [done|]. right. split_and!; [done..|]. lia. }
  unfold bind at 1, get. cbn [buf off].
  destruct (memcpy_spec (replicate (Z.to_nat (bit_ceil (off b + req))) uninit_byte) 0 (take (Z.to_nat (off b)) (buf b)))
    as (mem & -> & Hml & Hmt); [lia|rewrite length_take, length_replicate; lia|].
  rewrite length_replicate in Hml. cbn [of_option]. rewrite bind_ret. cbn [take app] in Hmt.
  change (take (Z.to_nat 0) _) with (@nil Z) in Hmt. cbn [app] in Hmt.
  rewrite length_take, Nat.min_l in Hmt by lia. change (Z.to_nat 0 + Z.to_nat (off b))%nat with (Z.to_nat (off b)) in Hmt.
  assert (Htake : take (Z.to_nat (off b)) mem = l) by (by rewrite Hmt).
  exists (Ret tt), (KeyBuffer mem (bit_ceil (off b + req)) (off b) 1 h). split.
  - unfold bind, free_buffer, modify, ret. cbn [buf cap off live buf_heap]. rewrite Hlive.
    by destruct (INITIAL_BUFFER_CAPACITY <? cap b).
  - left. split; [done|]. split; [|cbn [off cap]; lia].
    unfold holds, buffer_view. cbn [buf cap off live]. rewrite Hml, (proj2 (Z.ltb_lt _ _)) by lia.
    split_and!; [done|done|lia..].
Qed.

Lemma write_bytes_spec bytes b l :
  holds b l → off b + Z.of_nat (length bytes) ≤ cap b →
  ∃ b', write_bytes bytes b = (Ret tt, b') ∧ holds b' (l ++ bytes) ∧ cap b' = cap b.
Proof.
  intros (Hv & Ho & Hl & Hc & Hoc & Hlive) Hfit. unfold write_bytes, bind, get.
  destruct (memcpy_spec (buf b) (off b) bytes) as (mem & -> & Hml & Hmt); [lia|lia|].
  cbn [of_option ret modify]. eexists. split; [done|].
  unfold holds, buffer_view. cbn [buf cap off live]. rewrite (wrap_small 64) by lia.
  rewrite Z2Nat.inj_add, Nat2Z.id by lia. unfold buffer_view in Hv. rewrite Hmt, Hv, Hml, length_app.
  split; [|done]. split_and!; [done|lia..|done].
Qed.

(** Room, then the bytes. *)
Lemma reserve_append bytes : appends (ensure_available (Z.of_nat (length bytes));; write_bytes bytes) bytes.
Proof.
  intros b l Hb Hsz. rewrite length_app in Hsz |- *.
  destruct (ensure_available_spec (Z.of_nat (length bytes)) b l Hb) as (r & b' & Hrun & Hcase); [lia|lia|].
  unfold bind. rewrite Hrun. destruct Hcase as [(-> & Hb' & Hfit & Hcap)|(-> & Hb' & Hcap)].
  - destruct (write_bytes_spec bytes b' l Hb' Hfit) as (b'' & -> & Hb'' & Hc). eexists _, _. split; [done|]. left.
    split_and!; [done..|lia].
  - eexists _, _. split; [done|]. right. split; [done|]. split; [lia|]. exists 0%nat. by rewrite take_0, app_nil_r.
Qed.

(** Room made in advance. *)
Lemma ensure_appends req m bytes :
  appends m bytes → 0 ≤ req ≤ Z.of_nat (length bytes) → appends (ensure_available req;; m) bytes.
Proof.
  intros Hm Hreq b l Hb Hsz. rewrite length_app in *.
  destruct (ensure_available_spec req b l Hb) as (r & b' & Hrun & Hcase); [lia|lia|].
  unfold bind. rewrite Hrun. destruct Hcase as [(-> & Hb' & Hfit & Hcap)|(-> & Hb' & Hcap)].
  - destruct (Hm b' l Hb') as (r & b'' & -> & [(-> & ? & ?)|(-> & ? & ?)]); [by rewrite length_app| |];
      eexists _, _; (split; [done|]); [left|right]; rewrite ?length_app in *; split_and!; (done || lia).
  - eexists _, _. split; [done|]. right. split; [done|]. split; [lia|]. exists 0%nat. by rewrite take_0, app_nil_r.
Qed.

Lemma push_byte_appends v : appends (push_byte v) [v].
Proof. apply reserve_append. Qed.

Lemma push_view_appends v : appends (push_view v) v.
Proof. apply reserve_append. Qed.

Lemma appends_nil : appends (ret tt) [].
Proof. intros b l Hb _. eexists _, _. split; [done|]. left. by rewrite app_nil_r. Qed.

Lemma appends_bind m1 m2 l1 l2 : appends m1 l1 → appends m2 l2 → appends (m1;; m2) (l1 ++ l2).
Proof.
  intros H1 H2 b l Hb Hsz. rewrite app_assoc in Hsz |- *.
  assert (Hsz1 : Z.of_nat (length (l ++ l1)) ≤ 2 ^ 63) by (rewrite length_app in Hsz; lia).
  destruct (H1 b l Hb Hsz1) as (r & b' & Hrun & Hcase). unfold bind. rewrite Hrun.
  destruct Hcase as [(-> & Hb' & Hcap)|(-> & Hcap & k & Hb')].
  - destruct (H2 b' (l ++ l1) Hb' Hsz) as (r & b'' & -> & [(-> & ? & ?)|(-> & ? & k & Hb'')]);
      eexists _, _; (split; [done|]); [left|right]; (split; [done|]).
    + split; [done|lia].
    + split; [lia|]. exists (length l1 + k)%nat. by rewrite take_app_add, app_assoc.
  - eexists _, _. split; [done|]. right. split; [done|]. rewrite (length_app (l ++ l1)). split; [lia|].
    exists (Nat.min k (length l1)). rewrite take_app_le by lia. replace (take (Nat.min k (length l1)) l1) with (take k l1); [done|].
    destruct (decide (k ≤ length l1)%nat); [by rewrite Nat.min_l|]. by rewrite Nat.min_r, !take_ge by lia.
Qed.

Lemma pop_bytes_edits (n : nat) b l :
  holds b l → (n ≤ length l)%nat →
  ∃ b', pop_bytes (Z.of_nat n) b = (Ret tt, b') ∧ holds b' (take (length l - n) l).
Proof.
  intros (Hv & Ho & Hl & Hc & Hoc & Hlive) Hn. eexists. split; [done|].
  unfold holds, buffer_view in *. cbn [buf cap off live]. rewrite (wrap_small 64) by lia.
  split_and!; [|rewrite length_take; lia|lia..|done].
  rewrite <- Hv, take_take. f_equal. rewrite Hv. lia.
Qed.

Lemma reset_holds b l : holds b l → ∃ b', reset_buffer b = (Ret tt, b') ∧ holds b' [].
Proof.
  intros (Hv & Ho & Hl & Hc & Hoc & Hlive). eexists. split; [done|].
  unfold holds, buffer_view. cbn [buf cap off live]. split_and!; (done || lia).
Qed.

(** The destructor leaves no block behind. *)
Lemma destroy_live b l : holds b l → ∃ b', destroy_buffer b = (Ret tt, b') ∧ live b' = 0.
Proof.
  intros (_ & _ & _ & _ & _ & Hlive). unfold destroy_buffer, bind, get.
  destruct (INITIAL_BUFFER_CAPACITY <? cap b); eexists; (split; [done|]); cbn [live]; lia.
Qed.
End buffer.
