(* ===== verification/KeyCodec.v ===== *)
(** [key_encoder] and [key_decoder]: byte strings that compare as the values they
    encode. *)

From S2P Require Import Prelude Words ArtKey Simd Heap Buffer.

(** ** Floating point values, as their bit patterns

    [w] is the width, [m] the number of mantissa bits. *)

Record float_format := FloatFormat { f_width : Z; f_mant : Z }.
Definition float32 : float_format := FloatFormat 32 23.
Definition float64 : float_format := FloatFormat 64 52.

Section float.
Variable f : float_format.
Let w := f_width f.
Let m := f_mant f.

(** [src/duckdb_encode_decode.hpp:42-53] msb *)
Definition msb : Z := 2 ^ (w - 1).
Definition max_uint : Z := 2 ^ w - 1.

(** The bits below the sign, and those of an infinity. *)
Definition magnitude (x : Z) : Z := Z.land x (2 ^ (w - 1) - 1).
Definition infinity : Z := 2 ^ (w - 1) - 2 ^ m.
Definition quiet_NaN : Z := infinity + 2 ^ (m - 1).

Definition isnan (x : Z) : bool := infinity <? magnitude x.
Definition isinf (x : Z) : bool := magnitude x =? infinity.
Definition negative (x : Z) : bool := negb (Z.land x msb =? 0).

(** [src/duckdb_encode_decode.hpp:73-90] encode_floating_point *)
Definition encode_floating_point (x : Z) : Z :=
  if isnan x then max_uint
  else if isinf x then (if negb (negative x) then max_uint - 1 else 0)
  else if Z.land x msb =? 0 then Z.lor x msb
  else wrap w (Z.lnot x).

(** [src/duckdb_encode_decode.hpp:100-119] decode_floating_point *)
Definition decode_floating_point (input : Z) : Z :=
  if input =? max_uint then quiet_NaN
  else if input =? max_uint - 1 then infinity
  else if input =? 0 then Z.lor infinity msb
  else if negb (Z.land input msb =? 0) then Z.lxor input msb
  else wrap w (Z.lnot input).
End float.

(** ** [key_encoder] *)

(** [src/art_common.hpp:210-210] pad *)
Definition pad : Z := 0.

(** [src/art_common.hpp:217-218] maxlen *)
Definition maxlen : Z := 65535 - 1 - 2.

(** [src/art_common.hpp:225-226] msb8 *)
Definition msb8 : Z := 2 ^ 7.
(** [src/art_common.hpp:228-229] msb16 *)
Definition msb16 : Z := 2 ^ 15.
(** [src/art_common.hpp:231-232] msb32 *)
Definition msb32 : Z := 2 ^ 31.
(** [src/art_common.hpp:234-235] msb64 *)
Definition msb64 : Z := 2 ^ 63.

(** The big-endian form of an integer of [n] bytes.
    [src/art_common.hpp:239-247] make_binary_comparable_integral *)
Definition make_binary_comparable_integral (n : nat) (v : Z) : Z := bswap n v.

Section encoder.
Context `{Target, Allocator}.
#[local] Open Scope monad_scope.

(** [src/art_common.hpp:270-276] ensure_available *)
Definition enc_ensure_available (req : Z) : M key_buffer unit := ensure_available req.

(** [src/art_common.hpp:278-283] reset *)
Definition enc_reset : M key_buffer unit := reset_buffer.

(** [src/art_common.hpp:285-289] get_key_view *)
Definition enc_get_key_view (b : key_buffer) : list Z := buffer_view b.

(** [src/art_common.hpp:293-305] append_bytes *)
Definition append_bytes (data : list Z) : M key_buffer unit :=
  enc_ensure_available (Z.of_nat (length data));;
  write_bytes data.

(** [src/art_common.hpp:367-373] encode *)
Definition encode_uint8 (v : Z) : M key_buffer unit :=
  enc_ensure_available 1;;
  write_bytes (le_bytes 1 v).

(** [src/art_common.hpp:377-385] encode *)
Definition encode_uint16 (v : Z) : M key_buffer unit :=
  enc_ensure_available 2;;
  let u := make_binary_comparable_integral 2 v in
  write_bytes (le_bytes 2 u).

(** [src/art_common.hpp:387-395] encode *)
Definition encode_uint32 (v : Z) : M key_buffer unit :=
  enc_ensure_available 4;;
  let u := make_binary_comparable_integral 4 v in
  write_bytes (le_bytes 4 u).

(** [src/art_common.hpp:397-405] encode *)
Definition encode_uint64 (v : Z) : M key_buffer unit :=
  enc_ensure_available 8;;
  let u := make_binary_comparable_integral 8 v in
  write_bytes (le_bytes 8 u).

(** [src/art_common.hpp:313-323] encode *)
Definition encode_int8 (v : Z) : M key_buffer unit :=
  let u := wrap8 (if 0 <=? v then msb8 + wrap8 v else msb8 - wrap8 (- (v + 1)) - 1) in
  encode_uint8 u.

(** [src/art_common.hpp:325-334] encode *)
Definition encode_int16 (v : Z) : M key_buffer unit :=
  let u := wrap16 (if 0 <=? v then msb16 + wrap16 v else msb16 - wrap16 (- (v + 1)) - 1) in
  encode_uint16 u.

(** [src/art_common.hpp:336-345] encode *)
Definition encode_int32 (v : Z) : M key_buffer unit :=
  let u := if 0 <=? v then wrap32 (msb32 + wrap32 v) else wrap32 (wrap32 (msb32 - wrap32 (- (v + 1))) - 1) in
  encode_uint32 u.

(** [src/art_common.hpp:347-356] encode *)
Definition encode_int64 (v : Z) : M key_buffer unit :=
  let u := if 0 <=? v then wrap64 (msb64 + wrap64 v) else wrap64 (wrap64 (msb64 - wrap64 (- (v + 1))) - 1) in
  encode_uint64 u.

(** [src/art_common.hpp:414-425] encode *)
Definition encode_float (v : Z) : M key_buffer unit := encode_uint32 (encode_floating_point float32 v).

(** [src/art_common.hpp:427-438] encode *)
Definition encode_double (v : Z) : M key_buffer unit := encode_uint64 (encode_floating_point float64 v).

(** The loop of [encode_text] that drops trailing pad bytes. *)
Fixpoint strip_pad (sz : nat) (text : list Z) : nat :=
  match sz with
  | O => O
  | S sz' => if negb (text !!! sz' =? pad) then sz else strip_pad sz' text
  end.

(** [src/art_common.hpp:445-488] encode_text *)
Definition encode_text (text : list Z) : M key_buffer unit :=
  let text := if maxlen <? Z.of_nat (length text) then take (Z.to_nat maxlen) text else text in
  let sz := strip_pad (length text) text in
  let text := take sz text in
  enc_ensure_available (Z.of_nat sz + 1 + 2);;
  let padlen := wrap16 (maxlen - Z.of_nat sz) in
  append_bytes text;;
  encode_uint8 pad;;
  encode_uint16 padlen.
End encoder.

(** ** [key_decoder] *)

(** [src/art_common.hpp:544-546] key_decoder *)
Record key_decoder := KeyDecoder {
  dec_buf : list Z;
  dec_off : nat;
}.

(** A value and the decoder after it; [None] is a read past the end. *)
Definition dec (A : Type) : Type := key_decoder → option (A * key_decoder).

Definition new_decoder (kv : list Z) : key_decoder := KeyDecoder kv 0.

(** [std::memcpy] of [n] bytes from the current offset. *)
Definition read_bytes (n : nat) : dec Z := λ d,
  if bool_decide (dec_off d + n ≤ length (dec_buf d))%nat then
    Some (le_word (take n (drop (dec_off d) (dec_buf d))), KeyDecoder (dec_buf d) (dec_off d + n))
  else None.

Definition dec_map {A B} (g : A → B) (m : dec A) : dec B := λ d, match m d with Some (a, d) => Some (g a, d) | None => None end.

(** [src/art_common.hpp:567-575] decode_binary_comparable_integral *)
Definition decode_binary_comparable_integral (n : nat) (u : Z) : Z := bswap n u.

(** [src/art_common.hpp:640-645] decode *)
Definition decode_uint8 : dec Z := read_bytes 1.

(** [src/art_common.hpp:649-657] decode *)
Definition decode_uint16 : dec Z := dec_map (decode_binary_comparable_integral 2) (read_bytes 2).

(** [src/art_common.hpp:659-667] decode *)
Definition decode_uint32 : dec Z := dec_map (decode_binary_comparable_integral 4) (read_bytes 4).

(** [src/art_common.hpp:669-677] decode *)
Definition decode_uint64 : dec Z := dec_map (decode_binary_comparable_integral 8) (read_bytes 8).

(** [src/art_common.hpp:589-597] decode *)
Definition decode_int8 : dec Z :=
  dec_map (λ u, swrap 8 (if msb8 <=? u then u - msb8 else Z.lnot (wrap8 (msb8 - 1 - u)))) decode_uint8.

(** [src/art_common.hpp:599-607] decode *)
Definition decode_int16 : dec Z :=
  dec_map (λ u, swrap 16 (if msb16 <=? u then u - msb16 else Z.lnot (wrap16 (msb16 - 1 - u)))) decode_uint16.

(** [src/art_common.hpp:609-618] decode *)
Definition decode_int32 : dec Z :=
  dec_map (λ u, if msb32 <=? u then swrap 32 (u - msb32) else - swrap 32 (wrap32 (wrap32 (msb32 - 1) - u)) - 1)
    decode_uint32.

(** [src/art_common.hpp:620-629] decode *)
Definition decode_int64 : dec Z :=
  dec_map (λ u, if msb64 <=? u then swrap 64 (u - msb64) else - swrap 64 (wrap64 (wrap64 (msb64 - 1) - u)) - 1)
    decode_uint64.

(** [src/art_common.hpp:686-700] decode *)
Definition decode_float : dec Z := dec_map (decode_floating_point float32) decode_uint32.

(** [src/art_common.hpp:702-716] decode *)
Definition decode_double : dec Z := dec_map (decode_floating_point float64) decode_uint64.
