(* ===== verification/CodecSpec.v ===== *)
(** Keys of several fields: what the encoder writes, that the decoder reads it
    back, and that the bytes compare as the fields; floating point numbers against
    the comparison of IEEE 754, as the Standard Library specifies it. *)

From Stdlib Require Import SpecFloat.
From S2P Require Import Prelude Words ArtKey Simd Heap Buffer KeyCodec.

(** ** Floating point numbers *)

Section spec.
Variable f : float_format.
Notation w := (f_width f).
Notation m := (f_mant f).
Hypothesis Hf : 1 ≤ m < w - 2.

(** The number a bit pattern stands for. *)
Definition exponent_min : Z := 2 - 2 ^ (w - m - 2) - m.

Definition to_spec (x : Z) : spec_float :=
  let s := negative f x in
  let a := magnitude f x in
  if isnan f x then S754_nan
  else if isinf f x then S754_infinity s
  else if a =? 0 then S754_zero s
  else if a <? 2 ^ m then S754_finite s (Z.to_pos a) exponent_min
  else S754_finite s (Z.to_pos (2 ^ m + a mod 2 ^ m)) (exponent_min + a / 2 ^ m - 1).

Definition is_pattern (x : Z) : Prop := 0 ≤ x < 2 ^ w.

(** ** Sign and magnitude *)

Lemma msb_pos : 0 < msb f.
Proof. unfold msb. apply Z.pow_pos_nonneg; lia. Qed.

Lemma pow_w : 2 ^ w = 2 * msb f.
Proof. unfold msb. rewrite <- Z.pow_succ_r by lia. f_equal. lia. Qed.

Lemma magnitude_mod x : magnitude f x = x mod msb f.
Proof. unfold magnitude, msb. rewrite Z.sub_1_r, <- Z.ones_equiv. apply Z.land_ones. lia. Qed.

Lemma magnitude_range x : 0 ≤ magnitude f x < msb f.
Proof. rewrite magnitude_mod. apply Z.mod_pos_bound, msb_pos. Qed.

Lemma land_msb x : is_pattern x → Z.land x (msb f) = if msb f <=? x then msb f else 0.
Proof.
  unfold is_pattern. intros Hx. rewrite pow_w in Hx. apply Z.bits_inj'. intros i Hi.
  rewrite Z.land_spec. unfold msb at 1. destruct (decide (i = w - 1)) as [->|Hne].
  - rewrite Z.pow2_bits_true by lia. rewrite andb_true_r.
    assert (Ht : Z.testbit x (w - 1) = (msb f <=? x)).
    { rewrite Z.testbit_eqb by lia. fold (msb f). destruct (Z.leb_spec (msb f) x).
      - replace (x / msb f) with 1; [done|]. apply Z.div_unique with (x - msb f); lia.
      - rewrite Z.div_small by lia. done. }
    rewrite Ht. destruct (msb f <=? x); [|by rewrite Z.bits_0]. unfold msb. by rewrite Z.pow2_bits_true by lia.
  - rewrite Z.pow2_bits_false by lia. rewrite andb_false_r. destruct (msb f <=? x); [|by rewrite Z.bits_0].
    unfold msb. by rewrite Z.pow2_bits_false by lia.
Qed.

Lemma negative_leb x : is_pattern x → negative f x = (msb f <=? x).
Proof.
  intros Hx. unfold negative. rewrite land_msb by done. pose proof msb_pos.
  destruct (msb f <=? x); [|done]. by rewrite (proj2 (Z.eqb_neq _ _)) by lia.
Qed.

(** A pattern is its sign bit and its magnitude. *)
Lemma pattern_split x : is_pattern x → x = (if negative f x then msb f else 0) + magnitude f x.
Proof.
  intros Hx. rewrite negative_leb, magnitude_mod by done. unfold is_pattern in Hx. rewrite pow_w in Hx.
  destruct (Z.leb_spec (msb f) x).
  - replace (x mod msb f) with (x - msb f); [lia|]. apply Z.mod_unique with 1; lia.
  - rewrite Z.mod_small; lia.
Qed.

Lemma land_msb_small x : 0 ≤ x < msb f → Z.land x (msb f) = 0.
Proof. intros Hx. rewrite land_msb by (unfold is_pattern; rewrite pow_w; lia). by rewrite (proj2 (Z.leb_gt _ _)) by lia. Qed.

Lemma lor_msb x : 0 ≤ x < msb f → Z.lor x (msb f) = msb f + x.
Proof. intros Hx%land_msb_small. rewrite <- Z.lxor_lor, <- Z.add_nocarry_lxor by done. lia. Qed.

Lemma lxor_msb x : 0 ≤ x < msb f → Z.lxor (msb f + x) (msb f) = x.
Proof.
  intros Hx%land_msb_small. rewrite Z.add_comm, Z.add_nocarry_lxor by done.
  by rewrite Z.lxor_assoc, Z.lxor_nilpotent, Z.lxor_0_r.
Qed.

Lemma wrap_lnot x : is_pattern x → wrap w (Z.lnot x) = 2 * msb f - 1 - x.
Proof.
  unfold is_pattern, wrap. intros Hx. rewrite pow_w in *. symmetry. apply Z.mod_unique with (-1); [lia|].
  unfold Z.lnot. lia.
Qed.

Lemma infinity_bounds : msb f < 2 * infinity f ∧ infinity f + 2 ≤ msb f ∧ 2 ^ m < infinity f.
Proof.
  unfold infinity. fold (msb f).
  assert (Hm : 2 ^ 1 ≤ 2 ^ m) by (apply Z.pow_le_mono_r; lia).
  assert (Hw : 4 * 2 ^ m ≤ msb f).
  { unfold msb. change 4 with (2 ^ 2). rewrite <- Z.pow_add_r by lia. apply Z.pow_le_mono_r; lia. }
  lia.
Qed.

(** ** The encoding, in terms of sign and magnitude *)

Lemma magnitude_cases x :
  is_pattern x →
  (isnan f x = true ∧ infinity f < magnitude f x < msb f) ∨
  (isnan f x = false ∧ isinf f x = true ∧ magnitude f x = infinity f) ∨
  (isnan f x = false ∧ isinf f x = false ∧ 0 ≤ magnitude f x < infinity f).
Proof.
  intros Hx. pose proof (magnitude_range x) as Hr. unfold isnan, isinf.
  destruct (Z.ltb_spec (infinity f) (magnitude f x)); [left; split; [done|lia]|right].
  destruct (Z.eqb_spec (magnitude f x) (infinity f)); [left|right]; split_and!; (done || lia).
Qed.

(** An integer that orders the patterns as the encoding does. *)
Definition signed_magnitude (x : Z) : Z := if negative f x then -1 - magnitude f x else magnitude f x.

Lemma encode_finite x :
  is_pattern x → isnan f x = false → isinf f x = false →
  encode_floating_point f x = msb f + signed_magnitude x.
Proof.
  intros Hx Hn Hi. unfold encode_floating_point, signed_magnitude. rewrite Hn, Hi, land_msb, negative_leb by done.
  pose proof msb_pos. pose proof (pattern_split x Hx) as Hs. rewrite negative_leb in Hs by done.
  destruct (Z.leb_spec (msb f) x).
  - rewrite (proj2 (Z.eqb_neq _ _)), wrap_lnot by (done || lia). lia.
  - cbn [Z.eqb]. rewrite lor_msb by (pose proof (magnitude_range x); lia). lia.
Qed.

(** Encodings compare as signed magnitudes. *)
Lemma encode_compare x y :
  is_pattern x → is_pattern y → isnan f x = false → isnan f y = false →
  (encode_floating_point f x ?= encode_floating_point f y) = (signed_magnitude x ?= signed_magnitude y).
Proof.
  intros Hx Hy Hnx Hny. destruct infinity_bounds as (Hi1 & Hi2 & Hi3).
  assert (Hval : ∀ z, is_pattern z → isnan f z = false →
    (isinf f z = true ∧ magnitude f z = infinity f ∧
      encode_floating_point f z = if negative f z then 0 else 2 * msb f - 2) ∨
    (0 ≤ magnitude f z < infinity f ∧ encode_floating_point f z = msb f + signed_magnitude z)).
  { intros z Hz Hn. destruct (magnitude_cases z Hz) as [(? & _)|[(_ & Hinf & Hm)|(_ & Hinf & Hm)]]; [congruence|left|right].
    - split_and!; [done..|]. unfold encode_floating_point, max_uint. rewrite Hn, Hinf, pow_w.
      destruct (negative f z); [done|]. cbn [negb]. lia.
    - split; [done|]. by apply encode_finite. }
  assert (H1m : 2 ≤ 2 ^ m) by (change 2 with (2 ^ 1) at 1; apply Z.pow_le_mono_r; lia).
  assert (Hi4 : infinity f = msb f - 2 ^ m) by done.
  destruct (Hval x Hx Hnx) as [(_ & Hmx & ->)|(Hmx & ->)], (Hval y Hy Hny) as [(_ & Hmy & ->)|(Hmy & ->)];
    unfold signed_magnitude; destruct (negative f x), (negative f y);
    repeat match goal with |- context [?a ?= ?b] => destruct (Z.compare_spec a b) end; (done || lia).
Qed.

(** ** IEEE comparison, in the same terms *)

Definition expo (a : Z) : Z := if a <? 2 ^ m then exponent_min else exponent_min + a / 2 ^ m - 1.
Definition mant (a : Z) : Z := if a <? 2 ^ m then a else 2 ^ m + a mod 2 ^ m.

Lemma mant_pos a : 0 < a → 0 < mant a.
Proof.
  intros Ha. unfold mant. assert (0 < 2 ^ m) by (apply Z.pow_pos_nonneg; lia).
  pose proof (Z.mod_pos_bound a (2 ^ m)). zcases; lia.
Qed.

(** Exponent first, then mantissa, compare as the patterns. *)
Lemma expo_mant_compare a b :
  0 < a → 0 < b →
  match expo a ?= expo b with Eq => mant a ?= mant b | c => c end = (a ?= b).
Proof.
  intros Ha Hb. assert (HM : 0 < 2 ^ m) by (apply Z.pow_pos_nonneg; lia). unfold expo, mant.
  pose proof (Z.div_mod a (2 ^ m) ltac:(lia)) as Hda. pose proof (Z.mod_pos_bound a (2 ^ m) HM).
  pose proof (Z.div_mod b (2 ^ m) ltac:(lia)) as Hdb. pose proof (Z.mod_pos_bound b (2 ^ m) HM).
  set (qa := a / 2 ^ m) in *. set (qb := b / 2 ^ m) in *. set (ra := a mod 2 ^ m) in *. set (rb := b mod 2 ^ m) in *.
  set (M := 2 ^ m) in *. clearbody qa qb ra rb M.
  assert (Hqa : M ≤ a → 1 ≤ qa) by nia. assert (Hqb : M ≤ b → 1 ≤ qb) by nia.
  destruct (Z.ltb_spec a M), (Z.ltb_spec b M);
    repeat match goal with |- context [?x ?= ?y] => destruct (Z.compare_spec x y) end; (done || nia).
Qed.

Lemma to_spec_finite x :
  is_pattern x → isnan f x = false → isinf f x = false → 0 < magnitude f x →
  to_spec x = S754_finite (negative f x) (Z.to_pos (mant (magnitude f x))) (expo (magnitude f x)).
Proof.
  intros Hx Hn Hi Hm. unfold to_spec, expo, mant. rewrite Hn, Hi, (proj2 (Z.eqb_neq _ _)) by lia.
  by destruct (magnitude f x <? 2 ^ m).
Qed.

Lemma finite_compare s1 s2 a b :
  0 < a → 0 < b →
  SFcompare (S754_finite s1 (Z.to_pos (mant a)) (expo a)) (S754_finite s2 (Z.to_pos (mant b)) (expo b)) =
  Some ((if s1 then -1 - a else a) ?= (if s2 then -1 - b else b)).
Proof.
  intros Ha Hb. pose proof (expo_mant_compare a b Ha Hb) as Hc.
  pose proof (Z2Pos.inj_compare (mant a) (mant b) (mant_pos a Ha) (mant_pos b Hb)) as Hm.
  cbn [SFcompare]. f_equal. change (Pos.compare_cont Eq) with Pos.compare. rewrite Hm in Hc.
  destruct s1, s2.
  - replace (-1 - a ?= -1 - b) with (CompOpp (a ?= b)).
    + rewrite <- Hc. by destruct (expo a ?= expo b).
    + destruct (Z.compare_spec a b), (Z.compare_spec (-1 - a) (-1 - b)); (done || lia).
  - symmetry. apply Z.compare_lt_iff. lia.
  - symmetry. apply Z.compare_gt_iff. lia.
  - rewrite <- Hc. by destruct (expo a ?= expo b).
Qed.

Lemma spec_compare x y :
  is_pattern x → is_pattern y → isnan f x = false → isnan f y = false →
  SFcompare (to_spec x) (to_spec y) =
  Some (if (magnitude f x =? 0) && (magnitude f y =? 0) then Eq else signed_magnitude x ?= signed_magnitude y).
Proof.
  intros Hx Hy Hnx Hny. destruct infinity_bounds as (Hi1 & Hi2 & Hi3).
  assert (HM : 0 < 2 ^ m) by (apply Z.pow_pos_nonneg; lia).
  assert (Hval : ∀ z, is_pattern z → isnan f z = false →
    (magnitude f z = infinity f ∧ to_spec z = S754_infinity (negative f z)) ∨
    (magnitude f z = 0 ∧ to_spec z = S754_zero (negative f z)) ∨
    (0 < magnitude f z < infinity f ∧
      to_spec z = S754_finite (negative f z) (Z.to_pos (mant (magnitude f z))) (expo (magnitude f z)))).
  { intros z Hz Hn. destruct (magnitude_cases z Hz) as [(? & _)|[(_ & Hinf & Hm)|(_ & Hinf & Hm)]]; [congruence|left|right].
    - split; [done|]. unfold to_spec. by rewrite Hn, Hinf.
    - destruct (decide (magnitude f z = 0)) as [Hz0|Hz0]; [left|right].
      + split; [done|]. unfold to_spec. by rewrite Hn, Hinf, Hz0.
      + split; [lia|]. by apply to_spec_finite; [..|lia]. }
  unfold signed_magnitude.
  destruct (Hval x Hx Hnx) as [(Hmx & ->)|[(Hmx & ->)|(Hmx & ->)]],
    (Hval y Hy Hny) as [(Hmy & ->)|[(Hmy & ->)|(Hmy & ->)]];
    destruct (Z.eqb_spec (magnitude f x) 0), (Z.eqb_spec (magnitude f y) 0); try lia; cbn [andb];
    try (rewrite finite_compare by lia; done);
    destruct (negative f x), (negative f y); cbn [SFcompare];
    repeat match goal with |- context [?a ?= ?b] => destruct (Z.compare_spec a b) end; (done || lia).
Qed.

(** ** Decoding *)

Lemma encode_range x : is_pattern x → 0 ≤ encode_floating_point f x < 2 ^ w.
Proof.
  intros Hx. rewrite pow_w. destruct infinity_bounds as (Hi1 & Hi2 & Hi3).
  pose proof msb_pos. pose proof (magnitude_range x).
  assert (Hmx : max_uint f = 2 * msb f - 1) by (unfold max_uint; by rewrite pow_w).
  destruct (isnan f x) eqn:Hn; [unfold encode_floating_point; rewrite Hn; lia|].
  destruct (isinf f x) eqn:Hi; [unfold encode_floating_point; rewrite Hn, Hi; destruct (negative f x); simpl; lia|].
  rewrite encode_finite by done. unfold signed_magnitude. destruct (negative f x); lia.
Qed.

(** Only NaN takes the largest code. *)
Lemma encode_number x : is_pattern x → isnan f x = false → encode_floating_point f x < max_uint f.
Proof.
  intros Hx Hn. destruct infinity_bounds as (Hi1 & Hi2 & Hi3). pose proof msb_pos.
  assert (Hmx : max_uint f = 2 * msb f - 1) by (unfold max_uint; by rewrite pow_w).
  destruct (magnitude_cases x Hx) as [(? & _)|[(_ & Hinf & Hm)|(_ & Hinf & Hm)]]; [congruence|..].
  - unfold encode_floating_point. rewrite Hn, Hinf. destruct (negative f x); cbn [negb]; lia.
  - rewrite encode_finite by done. unfold signed_magnitude. destruct (negative f x); lia.
Qed.

Lemma decode_encode x :
  is_pattern x →
  decode_floating_point f (encode_floating_point f x) = if isnan f x then quiet_NaN f else x.
Proof.
  intros Hx. destruct infinity_bounds as (Hi1 & Hi2 & Hi3). pose proof msb_pos as Hmsb.
  assert (H1m : 2 ≤ 2 ^ m) by (change 2 with (2 ^ 1) at 1; apply Z.pow_le_mono_r; lia).
  assert (Hi4 : infinity f = msb f - 2 ^ m) by done.
  assert (Hmx : max_uint f = 2 * msb f - 1) by (unfold max_uint; by rewrite pow_w).
  pose proof (pattern_split x Hx) as Hs.
  unfold decode_floating_point.
  destruct (magnitude_cases x Hx) as [(Hn & Hm)|[(Hn & Hinf & Hm)|(Hn & Hinf & Hm)]].
  - unfold encode_floating_point. rewrite Hn. by rewrite Z.eqb_refl.
  - unfold encode_floating_point. rewrite Hn, Hinf. destruct (negative f x); cbn [negb].
    + rewrite !(proj2 (Z.eqb_neq 0 _)) by lia. cbn [Z.eqb]. rewrite lor_msb by lia. lia.
    + rewrite (proj2 (Z.eqb_neq _ _)), Z.eqb_refl by lia. lia.
  - rewrite encode_finite, Hn by done. unfold signed_magnitude. pose proof (magnitude_range x) as Hr.
    destruct (negative f x).
    + rewrite !(proj2 (Z.eqb_neq _ _)) by lia.
      rewrite land_msb by (unfold is_pattern; rewrite pow_w; lia). rewrite (proj2 (Z.leb_gt _ _)) by lia.
      cbn [Z.eqb negb]. rewrite wrap_lnot by (unfold is_pattern; rewrite pow_w; lia). lia.
    + rewrite !(proj2 (Z.eqb_neq (msb f + _) _)) by lia.
      rewrite land_msb by (unfold is_pattern; rewrite pow_w; lia). rewrite (proj2 (Z.leb_le _ _)) by lia.
      rewrite (proj2 (Z.eqb_neq _ _)) by lia. cbn [negb]. rewrite lxor_msb by lia. lia.
Qed.
End spec.

(** ** Big-endian integers *)

Definition be_bytes (n : nat) (v : Z) : list Z := reverse (le_bytes n v).

Lemma length_be_bytes n v : length (be_bytes n v) = n.
Proof. unfold be_bytes. by rewrite length_reverse, length_le_bytes. Qed.

Lemma be_bytes_is_bytes n v : is_bytes (be_bytes n v).
Proof. unfold be_bytes. auto with unodb. Qed.

Lemma be_bytes_S n v : be_bytes (S n) v = byte_at v n :: be_bytes n v.
Proof. unfold be_bytes, le_bytes. by rewrite seq_S, fmap_app, reverse_app. Qed.

Lemma wrap_split n v :
  wrap (8 * Z.of_nat (S n)) v = byte_at v n * 2 ^ (8 * Z.of_nat n) + wrap (8 * Z.of_nat n) v.
Proof.
  unfold wrap. rewrite byte_at_div. replace (8 * Z.of_nat (S n)) with (8 * Z.of_nat n + 8) by lia.
  rewrite Z.pow_add_r by lia. change (2 ^ 8) with 256.
  rewrite Z.rem_mul_r; [lia|..|lia]. pose proof (Z.pow_pos_nonneg 2 (8 * Z.of_nat n)). lia.
Qed.

(** The bytes compare as the integers. *)
Lemma lex_be_bytes_wrap n a b :
  lex (be_bytes n a) (be_bytes n b) = (wrap (8 * Z.of_nat n) a ?= wrap (8 * Z.of_nat n) b).
Proof.
  induction n as [|n IH]; [by unfold wrap; rewrite !Z.mod_1_r|].
  rewrite !be_bytes_S, !wrap_split. cbn [lex]. rewrite IH.
  pose proof (wrap_range (8 * Z.of_nat n) a ltac:(lia)). pose proof (wrap_range (8 * Z.of_nat n) b ltac:(lia)).
  pose proof (byte_at_is_byte a n). pose proof (byte_at_is_byte b n). unfold is_byte in *.
  set (M := 2 ^ (8 * Z.of_nat n)) in *. clearbody M.
  set (x := byte_at a n) in *. set (y := byte_at b n) in *. clearbody x y.
  destruct (Z.compare_spec x y);
    repeat match goal with |- context [?p ?= ?q] => destruct (Z.compare_spec p q) end; (done || nia).
Qed.

Lemma lex_be_bytes n a b :
  0 ≤ a < 2 ^ (8 * Z.of_nat n) → 0 ≤ b < 2 ^ (8 * Z.of_nat n) → lex (be_bytes n a) (be_bytes n b) = (a ?= b).
Proof. intros. by rewrite lex_be_bytes_wrap, !wrap_small. Qed.

(** Strings of one length first, then what follows. *)
Lemma lex_app_same a b x y :
  length a = length b → lex (a ++ x) (b ++ y) = match lex a b with Eq => lex x y | c => c end.
Proof.
  revert b. induction a as [|p a IH]; intros [|q b] Hl; simplify_eq/=; [done|].
  destruct (p ?= q); [by apply IH|done..].
Qed.

(** ** Fields *)

Inductive num_type := U8 | U16 | U32 | U64 | I8 | I16 | I32 | I64 | F32 | F64.

(** A value of a field: an integer, the bits of a float, or text. *)
Inductive field :=
  | Num (t : num_type) (v : Z)
  | Text (text : list Z).

Definition width (t : num_type) : nat :=
  match t with U8 | I8 => 1 | U16 | I16 => 2 | U32 | I32 | F32 => 4 | U64 | I64 | F64 => 8 end.

Definition num_ok (t : num_type) (v : Z) : Prop :=
  match t with
  | U8 | U16 | U32 | U64 | F32 | F64 => 0 ≤ v < 2 ^ (8 * Z.of_nat (width t))
  | I8 | I16 | I32 | I64 => - 2 ^ (8 * Z.of_nat (width t) - 1) ≤ v < 2 ^ (8 * Z.of_nat (width t) - 1)
  end.

(** The unsigned integer whose big-endian bytes are stored. *)
Definition code (t : num_type) (v : Z) : Z :=
  match t with
  | U8 | U16 | U32 | U64 => v
  | I8 | I16 | I32 | I64 => v + 2 ^ (8 * Z.of_nat (width t) - 1)
  | F32 => encode_floating_point float32 v
  | F64 => encode_floating_point float64 v
  end.

(** Text as it is stored: cut to [maxlen] bytes, without trailing pad bytes. *)
Definition normalize (text : list Z) : list Z :=
  let text := take (Z.to_nat maxlen) text in take (strip_pad (length text) text) text.

Definition field_bytes (x : field) : list Z :=
  match x with
  | Num t v => be_bytes (width t) (code t v)
  | Text text =>
      let text := normalize text in text ++ [pad] ++ be_bytes 2 (maxlen - Z.of_nat (length text))
  end.

Definition field_ok (x : field) : Prop :=
  match x with Num t v => num_ok t v | Text text => is_bytes text end.

Lemma code_range t v : num_ok t v → 0 ≤ code t v < 2 ^ (8 * Z.of_nat (width t)).
Proof. destruct t; cbn; try lia; intros Hv; [by apply (encode_range float32)|by apply (encode_range float64)]. Qed.

(** ** What the encoder writes *)

Section encoder.
Context `{Target, Allocator}.
#[local] Open Scope monad_scope.

Definition encode_num (t : num_type) (v : Z) : M key_buffer unit :=
  match t with
  | U8 => encode_uint8 v | U16 => encode_uint16 v | U32 => encode_uint32 v | U64 => encode_uint64 v
  | I8 => encode_int8 v | I16 => encode_int16 v | I32 => encode_int32 v | I64 => encode_int64 v
  | F32 => encode_float v | F64 => encode_double v
  end.

Definition encode_field (x : field) : M key_buffer unit :=
  match x with Num t v => encode_num t v | Text text => encode_text text end.

Fixpoint encode_fields (xs : list field) : M key_buffer unit :=
  match xs with [] => ret tt | x :: xs => encode_field x;; encode_fields xs end.

Lemma append_bytes_appends l : appends (append_bytes l) l.
Proof. apply reserve_append. Qed.

Lemma encode_uint8_appends v : appends (encode_uint8 v) (be_bytes 1 v).
Proof. exact (reserve_append (le_bytes 1 v)). Qed.

Lemma encode_uint_appends n v :
  appends (ensure_available (Z.of_nat n);; write_bytes (le_bytes n (bswap n v))) (be_bytes n v).
Proof.
  rewrite le_bytes_bswap. fold (be_bytes n v). pose proof (reserve_append (be_bytes n v)) as Ha.
  by rewrite length_be_bytes in Ha.
Qed.

Lemma encode_num_appends t v : num_ok t v → appends (encode_num t v) (be_bytes (width t) (code t v)).
Proof.
  intros Hv. destruct t; cbn [encode_num width code];
    [apply encode_uint8_appends|apply (encode_uint_appends 2)|apply (encode_uint_appends 4)|apply (encode_uint_appends 8)
    | | | | |apply (encode_uint_appends 4)|apply (encode_uint_appends 8)].
  all: unfold num_ok in Hv; cbn [width] in Hv.
  - unfold encode_int8.
    assert (wrap8 (if 0 <=? v then msb8 + wrap8 v else msb8 - wrap8 (- (v + 1)) - 1) = v + 2 ^ (8 * Z.of_nat 1 - 1)) as ->;
      [|apply encode_uint8_appends].
    unfold msb8. destruct (Z.leb_spec 0 v).
    + rewrite (wrap_small 8 v), wrap_small by lia. lia.
    + rewrite (wrap_small 8 (- (v + 1))), wrap_small by lia. lia.
  - unfold encode_int16.
    assert (wrap16 (if 0 <=? v then msb16 + wrap16 v else msb16 - wrap16 (- (v + 1)) - 1) = v + 2 ^ (8 * Z.of_nat 2 - 1)) as ->;
      [|apply (encode_uint_appends 2)].
    unfold msb16. destruct (Z.leb_spec 0 v).
    + rewrite (wrap_small 16 v), wrap_small by lia. lia.
    + rewrite (wrap_small 16 (- (v + 1))), wrap_small by lia. lia.
  - unfold encode_int32.
    assert ((if 0 <=? v then wrap32 (msb32 + wrap32 v) else wrap32 (wrap32 (msb32 - wrap32 (- (v + 1))) - 1)) =
      v + 2 ^ (8 * Z.of_nat 4 - 1)) as ->; [|apply (encode_uint_appends 4)].
    unfold msb32. destruct (Z.leb_spec 0 v).
    + rewrite (wrap_small 32 v), wrap_small by lia. lia.
    + rewrite (wrap_small 32 (- (v + 1))), (wrap_small 32 (2 ^ 31 - - (v + 1))), wrap_small by lia. lia.
  - unfold encode_int64.
    assert ((if 0 <=? v then wrap64 (msb64 + wrap64 v) else wrap64 (wrap64 (msb64 - wrap64 (- (v + 1))) - 1)) =
      v + 2 ^ (8 * Z.of_nat 8 - 1)) as ->; [|apply (encode_uint_appends 8)].
    unfold msb64. destruct (Z.leb_spec 0 v).
    + rewrite (wrap_small 64 v), wrap_small by lia. lia.
    + rewrite (wrap_small 64 (- (v + 1))), (wrap_small 64 (2 ^ 63 - - (v + 1))), wrap_small by lia. lia.
Qed.

(** ** Text *)

Lemma strip_pad_le sz text : (strip_pad sz text ≤ sz)%nat.
Proof. induction sz as [|sz IH]; cbn [strip_pad]; [done|]. destruct (negb _); lia. Qed.

Lemma length_normalize text : Z.of_nat (length (normalize text)) ≤ maxlen.
Proof.
  unfold normalize. rewrite length_take.
  pose proof (strip_pad_le (length (take (Z.to_nat maxlen) text)) (take (Z.to_nat maxlen) text)) as Hs.
  rewrite length_take in *. assert (0 ≤ maxlen) by done. lia.
Qed.

Lemma encode_text_appends text : appends (encode_text text) (field_bytes (Text text)).
Proof.
  unfold encode_text. cbn [field_bytes].
  replace (if maxlen <? Z.of_nat (length text) then take (Z.to_nat maxlen) text else text) with (take (Z.to_nat maxlen) text).
  2: { destruct (Z.ltb_spec maxlen (Z.of_nat (length text))); [done|]. by rewrite take_ge by lia. }
  pose proof (length_normalize text) as Hlen.
  set (t := take (Z.to_nat maxlen) text). change (take (strip_pad (length t) t) t) with (normalize text).
  replace (strip_pad (length t) t) with (length (normalize text)).
  2: { unfold normalize. fold t. rewrite length_take. pose proof (strip_pad_le (length t) t). lia. }
  apply ensure_appends.
  - apply appends_bind; [apply append_bytes_appends|]. apply appends_bind; [apply encode_uint8_appends|].
    rewrite (wrap_small 16) by (unfold maxlen in *; lia). apply (encode_uint_appends 2).
  - rewrite !length_app, length_be_bytes. cbn [length]. lia.
Qed.

Lemma encode_field_appends x : field_ok x → appends (encode_field x) (field_bytes x).
Proof. destruct x; intros Hx; [by apply encode_num_appends|apply encode_text_appends]. Qed.

(** The bytes of a key. *)
Definition key_of (xs : list field) : list Z := concat (field_bytes <$> xs).

Lemma encode_fields_appends xs : Forall field_ok xs → appends (encode_fields xs) (key_of xs).
Proof.
  induction 1 as [|x xs Hx _ IH]; [apply appends_nil|].
  unfold key_of. cbn [encode_fields fmap list_fmap concat]. by apply appends_bind; [apply encode_field_appends|].
Qed.

Lemma normalize_is_bytes text : is_bytes text → is_bytes (normalize text).
Proof. intros Ht. unfold normalize, is_bytes in *. by repeat apply Forall_take. Qed.

Lemma key_of_is_bytes xs : Forall field_ok xs → is_bytes (key_of xs).
Proof.
  unfold key_of, is_bytes. induction 1 as [|x xs Hx _ IH]; [constructor|]. cbn [fmap list_fmap concat].
  apply Forall_app. split; [|exact IH]. destruct x as [t v|text]; cbn [field_bytes]; [apply be_bytes_is_bytes|].
  apply Forall_app. split; [by apply normalize_is_bytes|]. apply Forall_app. split; [by repeat constructor|apply be_bytes_is_bytes].
Qed.

(** ** Keys by the encoder *)

(** The outcome of an encoding: done, or out of memory when the key outgrows the
    array in the encoder. *)
Definition encoded (xs : list field) (r : res unit) : Prop :=
  r = Ret tt ∨ (r = Throw bad_alloc ∧ 256 < Z.of_nat (length (key_of xs))).

(** A new encoder to which the fields were given one after the other has the key. *)
Definition encodes (xs : list field) (k : list Z) : Prop :=
  Z.of_nat (length (key_of xs)) ≤ 2 ^ 63 ∧ ∃ h b, encode_fields xs (new_buffer h) = (Ret tt, b) ∧ enc_get_key_view b = k.

Lemma encoder_run xs h : Forall field_ok xs → Z.of_nat (length (key_of xs)) ≤ 2 ^ 63 →
  ∃ r b, encode_fields xs (new_buffer h) = (r, b) ∧ encoded xs r ∧ (r = Ret tt → enc_get_key_view b = key_of xs).
Proof.
  intros Hxs Hsz. destruct (encode_fields_appends xs Hxs (new_buffer h) [] (new_buffer_holds h) Hsz) as (r & b & Hrun & Hcase).
  exists r, b. split; [done|]. destruct Hcase as [(-> & Hb & _)|(-> & Hcap & _)].
  - split; [by left|]. intros _. by apply holds_view.
  - split; [by right|done].
Qed.

Lemma encodes_key_of xs k : Forall field_ok xs → encodes xs k → k = key_of xs.
Proof.
  intros Hxs (Hsz & h & b & Hrun & <-). destruct (encoder_run xs h Hxs Hsz) as (r & b' & Hrun' & _ & Hb).
  rewrite Hrun in Hrun'. injection Hrun' as <- <-. by apply Hb.
Qed.
End encoder.

(** ** What the decoder reads *)

Definition decode_num (t : num_type) : dec Z :=
  match t with
  | U8 => decode_uint8 | U16 => decode_uint16 | U32 => decode_uint32 | U64 => decode_uint64
  | I8 => decode_int8 | I16 => decode_int16 | I32 => decode_int32 | I64 => decode_int64
  | F32 => decode_float | F64 => decode_double
  end.

(** Every NaN is read back as the one canonical NaN, every other value as
    itself. *)
Definition canonical (t : num_type) (v : Z) : Z :=
  match t with
  | F32 => if isnan float32 v then quiet_NaN float32 else v
  | F64 => if isnan float64 v then quiet_NaN float64 else v
  | _ => v
  end.

Lemma read_bytes_at n pre l post :
  length l = n →
  read_bytes n (KeyDecoder (pre ++ l ++ post) (length pre)) =
  Some (le_word l, KeyDecoder (pre ++ l ++ post) (length pre + n)).
Proof.
  intros <-. unfold read_bytes. cbn [dec_buf dec_off]. rewrite bool_decide_true by (rewrite !length_app; lia).
  by rewrite drop_app_length, take_app_length.
Qed.

Lemma read_uint_at n c pre post :
  0 ≤ c < 2 ^ (8 * Z.of_nat n) →
  dec_map (bswap n) (read_bytes n) (KeyDecoder (pre ++ be_bytes n c ++ post) (length pre)) =
  Some (c, KeyDecoder (pre ++ be_bytes n c ++ post) (length pre + n)).
Proof.
  intros Hc. unfold dec_map. rewrite (read_bytes_at n) by apply length_be_bytes.
  change (le_word (be_bytes n c)) with (bswap n c). by rewrite bswap_involutive.
Qed.

Lemma dec_map_at {A B} (g : A → B) (m : dec A) d a d' : m d = Some (a, d') → dec_map g m d = Some (g a, d').
Proof. unfold dec_map. by intros ->. Qed.

Lemma decode_num_at t v pre post :
  num_ok t v →
  decode_num t (KeyDecoder (pre ++ field_bytes (Num t v) ++ post) (length pre)) =
  Some (canonical t v, KeyDecoder (pre ++ field_bytes (Num t v) ++ post) (length pre + width t)).
Proof.
  intros Hv. pose proof (code_range t v Hv) as Hc. cbn [field_bytes].
  assert (H8 : ∀ c, 0 ≤ c < 256 →
    decode_uint8 (KeyDecoder (pre ++ be_bytes 1 c ++ post) (length pre)) =
    Some (c, KeyDecoder (pre ++ be_bytes 1 c ++ post) (length pre + 1))).
  { intros c Hc8. unfold decode_uint8. rewrite (read_bytes_at 1) by done. do 2 f_equal. exact (le_word_le_bytes 1 c Hc8). }
  unfold num_ok in Hv. destruct t; cbn [decode_num width canonical code] in *.
  - by apply H8.
  - by apply (read_uint_at 2).
  - by apply (read_uint_at 4).
  - by apply (read_uint_at 8).
  - unfold decode_int8. erewrite (dec_map_at _ decode_uint8) by by apply H8. do 2 f_equal. unfold msb8.
    destruct (Z.leb_spec (2 ^ 7) (v + 2 ^ (8 * Z.of_nat 1 - 1))).
    + rewrite swrap_small by lia. lia.
    + rewrite wrap_small, swrap_small by (unfold Z.lnot; lia). unfold Z.lnot. lia.
  - unfold decode_int16. erewrite (dec_map_at _ decode_uint16) by by apply (read_uint_at 2). do 2 f_equal. unfold msb16.
    destruct (Z.leb_spec (2 ^ 15) (v + 2 ^ (8 * Z.of_nat 2 - 1))).
    + rewrite swrap_small by lia. lia.
    + rewrite wrap_small, swrap_small by (unfold Z.lnot; lia). unfold Z.lnot. lia.
  - unfold decode_int32. erewrite (dec_map_at _ decode_uint32) by by apply (read_uint_at 4). do 2 f_equal. unfold msb32.
    destruct (Z.leb_spec (2 ^ 31) (v + 2 ^ (8 * Z.of_nat 4 - 1))).
    + rewrite swrap_small by lia. lia.
    + rewrite (wrap_small 32 (2 ^ 31 - 1)), wrap_small, swrap_small by lia. lia.
  - unfold decode_int64. erewrite (dec_map_at _ decode_uint64) by by apply (read_uint_at 8). do 2 f_equal. unfold msb64.
    destruct (Z.leb_spec (2 ^ 63) (v + 2 ^ (8 * Z.of_nat 8 - 1))).
    + rewrite swrap_small by lia. lia.
    + rewrite (wrap_small 64 (2 ^ 63 - 1)), wrap_small, swrap_small by lia. lia.
  - unfold decode_float. erewrite (dec_map_at _ decode_uint32) by by apply (read_uint_at 4).
    do 2 f_equal. by apply (decode_encode float32).
  - unfold decode_double. erewrite (dec_map_at _ decode_uint64) by by apply (read_uint_at 8).
    do 2 f_equal. by apply (decode_encode float64).
Qed.

(** Reading several numbers. *)
Fixpoint decode_nums (ts : list num_type) (d : key_decoder) : option (list Z * key_decoder) :=
  match ts with
  | [] => Some ([], d)
  | t :: ts =>
      match decode_num t d with
      | Some (v, d) => match decode_nums ts d with Some (vs, d) => Some (v :: vs, d) | None => None end
      | None => None
      end
  end.

Definition num_field (p : num_type * Z) : field := Num p.1 p.2.

Lemma decode_nums_at vs pre :
  Forall (λ p : num_type * Z, num_ok p.1 p.2) vs →
  decode_nums vs.*1 (KeyDecoder (pre ++ key_of (num_field <$> vs)) (length pre)) =
  Some ((λ p : num_type * Z, canonical p.1 p.2) <$> vs,
    KeyDecoder (pre ++ key_of (num_field <$> vs)) (length (pre ++ key_of (num_field <$> vs)))).
Proof.
  intros Hvs. revert pre. induction Hvs as [|[t v] vs Hv _ IH]; intros pre.
  - by rewrite app_nil_r.
  - change (key_of (num_field <$> ((t, v) :: vs))) with (field_bytes (Num t v) ++ key_of (num_field <$> vs)).
    change ((t, v) :: vs).*1 with (t :: vs.*1). cbn [decode_nums fst snd] in *. rewrite decode_num_at by done.
    specialize (IH (pre ++ field_bytes (Num t v))). rewrite <- !app_assoc in IH.
    rewrite (length_app pre (field_bytes (Num t v))) in IH.
    replace (length (field_bytes (Num t v))) with (width t) in IH by (symmetry; apply length_be_bytes).
    by rewrite IH.
Qed.
