(* ===== verification/CodecOrder.v ===== *)
(** Encoded keys compare as the sequences of their fields, and are never proper
    prefixes of each other. *)

From Stdlib Require Import SpecFloat.
From S2P Require Import Prelude Words ArtKey Simd Heap Buffer KeyCodec CodecSpec.

(** ** The order of values *)

(** Numbers as IEEE 754 orders them, with -0 before +0 and NaN after everything. *)
Definition float_compare (f : float_format) (x y : Z) : comparison :=
  match isnan f x, isnan f y with
  | true, true => Eq
  | true, false => Gt
  | false, true => Lt
  | false, false =>
      match SFcompare (to_spec f x) (to_spec f y) with
      | Some Eq => match negative f x, negative f y with true, false => Lt | false, true => Gt | _, _ => Eq end
      | Some c => c
      | None => Eq
      end
  end.

Definition num_compare (t : num_type) (x y : Z) : comparison :=
  match t with F32 => float_compare float32 x y | F64 => float_compare float64 x y | _ => x ?= y end.

(** Text up to the maximum length. *)
Definition text_compare (a b : list Z) : comparison := lex (take (Z.to_nat maxlen) a) (take (Z.to_nat maxlen) b).

Definition field_compare (x y : field) : comparison :=
  match x, y with
  | Num t a, Num _ b => num_compare t a b
  | Text a, Text b => text_compare a b
  | Num _ _, Text _ => Lt
  | Text _, Num _ _ => Gt
  end.

Fixpoint fields_compare (xs ys : list field) : comparison :=
  match xs, ys with
  | x :: xs, y :: ys => match field_compare x y with Eq => fields_compare xs ys | c => c end
  | [], [] => Eq
  | [], _ => Lt
  | _, [] => Gt
  end.

(** Fields of one column: the same kind, and text without NUL bytes. *)
Definition same_column (x y : field) : Prop :=
  match x, y with
  | Num t a, Num u b => t = u ∧ num_ok t a ∧ num_ok t b
  | Text a, Text b => Forall (λ c, 0 < c < 256) a ∧ Forall (λ c, 0 < c < 256) b
  | _, _ => False
  end.

Lemma same_columns_ok xs ys : Forall2 same_column xs ys → Forall field_ok xs ∧ Forall field_ok ys.
Proof.
  assert (Htext : ∀ l, Forall (λ c, 0 < c < 256) l → is_bytes l).
  { intros l Hl. eapply Forall_impl; [exact Hl|]. unfold is_byte. cbn. lia. }
  induction 1 as [|x y xs ys Hc _ [IHx IHy]]; [done|].
  destruct x as [t a|a], y as [u b|b]; try done; [destruct Hc as (<- & Ha & Hb)|destruct Hc as [Ha%Htext Hb%Htext]];
    (split; constructor; done).
Qed.

(** ** Numbers *)

Lemma encode_float_compare f x y :
  1 ≤ f_mant f < f_width f - 2 → is_pattern f x → is_pattern f y →
  (encode_floating_point f x ?= encode_floating_point f y) = float_compare f x y.
Proof.
  intros Hf Hx Hy. unfold float_compare.
  assert (Hnan : ∀ z, isnan f z = true → encode_floating_point f z = max_uint f)
    by (intros z Hn; unfold encode_floating_point; by rewrite Hn).
  destruct (isnan f x) eqn:Hnx, (isnan f y) eqn:Hny.
  - rewrite !Hnan by done. apply Z.compare_refl.
  - rewrite (Hnan x) by done. apply Z.compare_gt_iff. by apply encode_number.
  - rewrite (Hnan y) by done. apply Z.compare_lt_iff. by apply encode_number.
  - rewrite encode_compare, spec_compare by done. unfold signed_magnitude.
    pose proof (magnitude_range f Hf x). pose proof (magnitude_range f Hf y).
    destruct (Z.eqb_spec (magnitude f x) 0), (Z.eqb_spec (magnitude f y) 0); cbn [andb];
      destruct (negative f x), (negative f y);
      repeat match goal with |- context [?a ?= ?b] => destruct (Z.compare_spec a b) end; (done || lia).
Qed.

Lemma code_compare t a b : num_ok t a → num_ok t b → (code t a ?= code t b) = num_compare t a b.
Proof.
  intros Ha Hb. destruct t; cbn [code num_compare]; try done;
    try (apply encode_float_compare; [done|exact Ha|exact Hb]);
    match goal with |- (_ ?= _) = (?a ?= ?b) => destruct (Z.compare_spec a b) end;
    [apply Z.compare_eq_iff|apply Z.compare_lt_iff|apply Z.compare_gt_iff|apply Z.compare_eq_iff|apply Z.compare_lt_iff
    |apply Z.compare_gt_iff|apply Z.compare_eq_iff|apply Z.compare_lt_iff|apply Z.compare_gt_iff|apply Z.compare_eq_iff
    |apply Z.compare_lt_iff|apply Z.compare_gt_iff]; lia.
Qed.

(** ** Text *)

Lemma strip_pad_text (text : list Z) sz :
  Forall (λ c, 0 < c < 256) text → (sz ≤ length text)%nat → strip_pad sz text = sz.
Proof.
  intros Ht Hsz. destruct sz as [|sz]; cbn [strip_pad]; [done|].
  destruct (lookup_lt_is_Some_2 text sz Hsz) as [c Hc]. rewrite (list_lookup_total_correct _ _ _ Hc).
  pose proof (Forall_lookup_1 _ _ _ _ Ht Hc) as Hr. simpl in Hr. unfold pad.
  by rewrite (proj2 (Z.eqb_neq _ _)) by lia.
Qed.

Lemma normalize_text text : Forall (λ c, 0 < c < 256) text → normalize text = take (Z.to_nat maxlen) text.
Proof.
  intros Ht. unfold normalize. rewrite strip_pad_text by (done || by apply Forall_take). by apply take_ge.
Qed.

(** The pad byte ends a text before any of its bytes. *)
Lemma lex_padded a b x y :
  Forall (λ c, 0 < c < 256) a → Forall (λ c, 0 < c < 256) b →
  lex (a ++ pad :: x) (b ++ pad :: y) = match lex a b with Eq => lex x y | c => c end.
Proof.
  intros Ha. revert b. induction Ha as [|p a Hp Ha IH]; intros b Hb; destruct Hb as [|q b Hq Hb]; cbn [app lex].
  - done.
  - unfold pad. by rewrite (proj2 (Z.compare_lt_iff _ _)) by lia.
  - unfold pad. by rewrite (proj2 (Z.compare_gt_iff _ _)) by lia.
  - destruct (p ?= q); [by apply IH|done..].
Qed.

Lemma lex_text a b x y :
  Forall (λ c, 0 < c < 256) a → Forall (λ c, 0 < c < 256) b →
  lex (field_bytes (Text a) ++ x) (field_bytes (Text b) ++ y) =
  match text_compare a b with Eq => lex x y | c => c end.
Proof.
  intros Ha Hb. cbn [field_bytes]. rewrite !normalize_text by done. unfold text_compare.
  set (m := Z.to_nat maxlen). rewrite <- !app_assoc. cbn [app]. rewrite lex_padded by by apply Forall_take.
  destruct (lex (take m a) (take m b)) eqn:Hl; [|done..]. apply lex_eq in Hl. by rewrite Hl, lex_app_l.
Qed.

(** ** Keys *)

Lemma lex_field x y r s :
  same_column x y →
  lex (field_bytes x ++ r) (field_bytes y ++ s) = match field_compare x y with Eq => lex r s | c => c end.
Proof.
  destruct x as [t a|a], y as [u b|b]; intros Hc; try done.
  - destruct Hc as (<- & Ha & Hb). cbn [field_bytes field_compare].
    rewrite lex_app_same by by rewrite !length_be_bytes.
    by rewrite lex_be_bytes, code_compare by (done || by apply code_range).
  - destruct Hc as [Ha Hb]. by apply lex_text.
Qed.

Lemma lex_keys xs ys : Forall2 same_column xs ys → lex (key_of xs) (key_of ys) = fields_compare xs ys.
Proof.
  induction 1 as [|x y xs ys Hc _ IH]; [done|]. unfold key_of. cbn [fmap list_fmap concat fields_compare].
  rewrite lex_field by done. fold (key_of xs) (key_of ys). by rewrite IH.
Qed.

(** ** No key is a proper prefix of another *)

Lemma diverge_app a b x y n : diverge a b n → diverge (a ++ x) (b ++ y) n.
Proof.
  intros Hd. destruct (diverge_length _ _ _ Hd) as [Ha Hb]. destruct Hd as [Ht (p & q & Hp & Hq & Hne)].
  split; [by rewrite !take_app_le by lia|]. exists p, q. by rewrite !lookup_app_l by lia.
Qed.

Lemma diverge_app_r p a b n : diverge a b n → diverge (p ++ a) (p ++ b) (length p + n).
Proof.
  intros [Ht (x & y & Hx & Hy & Hne)]. split; [by rewrite !take_app_add, Ht|]. exists x, y.
  rewrite !lookup_app_r by lia. by rewrite Nat.add_sub_swap, Nat.sub_diag by lia.
Qed.

Lemma text_prefix_free a b :
  Forall (λ c, 0 < c < 256) a → Forall (λ c, 0 < c < 256) b → a ≠ b → ∀ x y, prefix_free (a ++ pad :: x) (b ++ pad :: y).
Proof.
  intros Ha. revert b. induction Ha as [|p a Hp Ha IH]; intros b Hb Hne x y; destruct Hb as [|q b Hq Hb]; [done|..].
  - exists 0%nat. split; [done|]. exists pad, q. split_and!; [done..|]. unfold pad. lia.
  - exists 0%nat. split; [done|]. exists p, pad. split_and!; [done..|]. unfold pad. lia.
  - destruct (decide (p = q)) as [->|Hpq].
    + destruct (IH b Hb ltac:(congruence) x y) as [n Hn]. exists (S n). exact (diverge_app_r [q] _ _ _ Hn).
    + exists 0%nat. split; [done|]. by exists p, q.
Qed.

Lemma field_prefix_free x y :
  same_column x y → field_bytes x = field_bytes y ∨ prefix_free (field_bytes x) (field_bytes y).
Proof.
  destruct x as [t a|a], y as [u b|b]; intros Hc; try done.
  - destruct Hc as (<- & _). destruct (decide (field_bytes (Num t a) = field_bytes (Num t b))); [by left|right].
    apply same_length_prefix_free; [|done]. cbn [field_bytes]. by rewrite !length_be_bytes.
  - destruct Hc as [Ha Hb]. cbn [field_bytes]. rewrite !normalize_text by done.
    destruct (decide (take (Z.to_nat maxlen) a = take (Z.to_nat maxlen) b)) as [->|]; [by left|right].
    cbn [app]. by apply text_prefix_free; [apply Forall_take..|].
Qed.

Lemma keys_prefix_free xs ys :
  Forall2 same_column xs ys → key_of xs = key_of ys ∨ prefix_free (key_of xs) (key_of ys).
Proof.
  induction 1 as [|x y xs ys Hc _ IH]; [by left|]. unfold key_of. cbn [fmap list_fmap concat].
  fold (key_of xs) (key_of ys). destruct (field_prefix_free x y Hc) as [->|[n Hn]].
  - destruct IH as [->|[n Hn]]; [by left|right]. eexists. by apply diverge_app_r.
  - right. exists n. by apply diverge_app.
Qed.

(** ** Integer keys of the index *)

Lemma lex_int_keys a b : 0 ≤ a < 2 ^ 64 → 0 ≤ b < 2 ^ 64 →
  lex (get_key_view (art_key_of_int a)) (get_key_view (art_key_of_int b)) = (a ?= b).
Proof. intros Ha Hb. rewrite !get_key_view_of_int. exact (lex_be_bytes 8 a b Ha Hb). Qed.

Lemma cmp_key_int a b : 0 ≤ a < 2 ^ 64 → 0 ≤ b < 2 ^ 64 →
  cmp_key (art_key_of_int a) (art_key_of_int b) = Some (comparison_sign (a ?= b)).
Proof. intros Ha Hb. by rewrite cmp_key_bytes, (lex_int_keys a b Ha Hb). Qed.
