(* ===== verification/Stats.v ===== *)
(** The statistics a database keeps: memory use, node counts by type, and counts
    of node growth, shrinkage and prefix splits, all in 64 bits. *)

From stdpp Require Import functions.
From S2P Require Import Prelude Words InodeBase Heap.

(** [src/art.hpp:632-643] db *)
Record stats := Stats {
  current_memory_use : Z;
  node_counts : node_type → Z;
  growing_inode_counts : node_type → Z;
  shrinking_inode_counts : node_type → Z;
  key_prefix_splits : Z;
}.

Definition no_stats : stats := Stats 0 (λ _, 0) (λ _, 0) (λ _, 0) 0.

(** The sizes of the internal nodes.
    [src/art.hpp:716-800] sizeof *)
Definition sizeof_inode (t : node_type) : Z :=
  match t with I4 => 48 | I16 => 160 | I48 => 656 | I256 => 2064 | LEAF => 0 end.

(** [src/art.hpp:591-598] increase_memory_use *)
Definition increase_memory_use (delta : Z) (s : stats) : stats :=
  Stats (wrap64 (current_memory_use s + delta)) (node_counts s) (growing_inode_counts s)
    (shrinking_inode_counts s) (key_prefix_splits s).

(** [src/art.hpp:600-605] decrease_memory_use *)
Definition decrease_memory_use (delta : Z) (s : stats) : stats :=
  Stats (wrap64 (current_memory_use s - delta)) (node_counts s) (growing_inode_counts s)
    (shrinking_inode_counts s) (key_prefix_splits s).

Definition update_node_count (t : node_type) (f : Z → Z) (s : stats) : stats :=
  Stats (current_memory_use s) (<[t := wrap64 (f (node_counts s t))]> (node_counts s))
    (growing_inode_counts s) (shrinking_inode_counts s) (key_prefix_splits s).

(** [src/art.hpp:607-610] increment_leaf_count *)
Definition increment_leaf_count (leaf_size : Z) (s : stats) : stats :=
  update_node_count LEAF (λ c, c + 1) (increase_memory_use leaf_size s).

(** [src/art.hpp:612-617] decrement_leaf_count *)
Definition decrement_leaf_count (leaf_size : Z) (s : stats) : stats :=
  update_node_count LEAF (λ c, c - 1) (decrease_memory_use leaf_size s).

(** [src/art.hpp:1498-1505] increment_inode_count *)
Definition increment_inode_count (t : node_type) (s : stats) : stats :=
  increase_memory_use (sizeof_inode t) (update_node_count t (λ c, c + 1) s).

(** [src/art.hpp:1507-1515] decrement_inode_count *)
Definition decrement_inode_count (t : node_type) (s : stats) : stats :=
  decrease_memory_use (sizeof_inode t) (update_node_count t (λ c, c - 1) s).

(** [src/art.hpp:1517-1526] account_growing_inode *)
Definition account_growing_inode (t : node_type) (s : stats) : stats :=
  Stats (current_memory_use s) (node_counts s)
    (<[t := wrap64 (growing_inode_counts s t + 1)]> (growing_inode_counts s))
    (shrinking_inode_counts s) (key_prefix_splits s).

(** [src/art.hpp:1528-1536] account_shrinking_inode *)
Definition account_shrinking_inode (t : node_type) (s : stats) : stats :=
  Stats (current_memory_use s) (node_counts s) (growing_inode_counts s)
    (<[t := wrap64 (shrinking_inode_counts s t + 1)]> (shrinking_inode_counts s)) (key_prefix_splits s).

(** [++key_prefix_splits] *)
Definition count_prefix_split (s : stats) : stats :=
  Stats (current_memory_use s) (node_counts s) (growing_inode_counts s) (shrinking_inode_counts s)
    (wrap64 (key_prefix_splits s + 1)).

(** What the part of [clear] that follows the deletion resets.
    [src/art.hpp:1482-1494] clear *)
Definition clear_stats (s : stats) : stats :=
  Stats 0
    (<[I256 := 0]> (<[I48 := 0]> (<[I16 := 0]> (<[I4 := 0]> (node_counts s)))))
    (growing_inode_counts s) (shrinking_inode_counts s) (key_prefix_splits s).

(** ** What node creation and deletion do to the counters *)

(** The counters as one family: memory use at [None], the count of a node type at
    [Some t]. *)
Definition tally (s : stats) (o : option node_type) : Z :=
  match o with None => current_memory_use s | Some t => node_counts s t end.

Definition leaf_cost (size : Z) (o : option node_type) : Z :=
  match o with None => size | Some t => if decide (t = LEAF) then 1 else 0 end.

Definition inode_cost (t : node_type) (o : option node_type) : Z :=
  match o with None => sizeof_inode t | Some t' => if decide (t' = t) then 1 else 0 end.

(** The counters hold [x] in 64 bits. *)
Definition tally_is (s : stats) (x : option node_type → Z) : Prop := ∀ o, tally s o = wrap64 (x o).

Lemma wrap64_add a b : wrap64 (wrap64 a + b) = wrap64 (a + b).
Proof. unfold wrap. by rewrite Zplus_mod_idemp_l. Qed.

Lemma wrap64_sub a b : wrap64 (wrap64 a - b) = wrap64 (a - b).
Proof. unfold wrap. by rewrite Zminus_mod_idemp_l. Qed.

Lemma tally_is_ext s x y : tally_is s x → (∀ o, x o = y o) → tally_is s y.
Proof. intros Hx He o. by rewrite Hx, He. Qed.

Ltac tally_solve :=
  let o := fresh "o" in
  intros Hx o; pose proof (Hx None) as Hn; destruct o as [t'|]; simpl in *;
  [pose proof (Hx (Some t')) as Ht; simpl in Ht; case_decide; subst;
   [rewrite fn_lookup_insert|rewrite fn_lookup_insert_ne by done]; rewrite Ht;
   rewrite ?wrap64_add, ?wrap64_sub, ?Z.add_0_r, ?Z.sub_0_r; done
  |rewrite Hn; rewrite ?wrap64_add, ?wrap64_sub; done].

Lemma tally_increment_leaf s x size :
  tally_is s x → tally_is (increment_leaf_count size s) (λ o, x o + leaf_cost size o).
Proof. tally_solve. Qed.

Lemma tally_decrement_leaf s x size :
  tally_is s x → tally_is (decrement_leaf_count size s) (λ o, x o - leaf_cost size o).
Proof. tally_solve. Qed.

Lemma tally_increment_inode s x t :
  tally_is s x → tally_is (increment_inode_count t s) (λ o, x o + inode_cost t o).
Proof. tally_solve. Qed.

Lemma tally_decrement_inode s x t :
  tally_is s x → tally_is (decrement_inode_count t s) (λ o, x o - inode_cost t o).
Proof. tally_solve. Qed.

Lemma tally_growing s x t : tally_is s x → tally_is (account_growing_inode t s) x.
Proof. intros Hx o. by rewrite <- Hx; destruct o. Qed.

Lemma tally_shrinking s x t : tally_is s x → tally_is (account_shrinking_inode t s) x.
Proof. intros Hx o. by rewrite <- Hx; destruct o. Qed.

Lemma tally_prefix_split s x : tally_is s x → tally_is (count_prefix_split s) x.
Proof. intros Hx o. by rewrite <- Hx; destruct o. Qed.
