(* ===== verification/Leaf.v ===== *)
(** Leaves: the key and value bytes of an entry, and their creation. *)

From S2P Require Import Prelude Words ArtKey InodeBase Heap Stats.

(** [src/art_internal_impl.hpp:216-225] basic_leaf *)
Record basic_leaf := Leaf {
  key_size : Z;
  value_size : Z;
  data : list Z;
}.

#[export] Instance basic_leaf_eq_dec : EqDecision basic_leaf.
Proof. solve_decision. Defined.

(** [src/art_internal_impl.hpp:99-105] max_key_size *)
Definition max_key_size : Z := 2 ^ 32 - 1.
Definition max_value_size : Z := 2 ^ 32 - 1.

(** [src/art_internal_impl.hpp:112-123] basic_leaf *)
Definition leaf_of (k : art_key) (v : list Z) : basic_leaf :=
  let ks := wrap32 (Z.of_nat (key_size_of k)) in
  let vs := wrap32 (Z.of_nat (length v)) in
  Leaf ks vs (take (Z.to_nat ks) (get_key_view k) ++ take (Z.to_nat vs) v).

(** [src/art_internal_impl.hpp:146-151] get_key_view *)
Definition leaf_get_key_view (l : basic_leaf) : list Z := take (Z.to_nat (key_size l)) (data l).

(** The key as the type the index was instantiated with: [fixed] for
    [std::uint64_t] keys, [addr] the address of the data of a view.
    [src/art_internal_impl.hpp:126-144] get_key *)
Definition leaf_get_key (fixed : bool) (addr : Z) (l : basic_leaf) : art_key :=
  if fixed then art_key_of_int (bswap 8 (le_word (take 8 (data l))))
  else art_key_of_view (Span addr (leaf_get_key_view l)).

(** [src/art_internal_impl.hpp:164-171] cmp *)
Definition leaf_cmp (l : basic_leaf) (k : art_key) : Z := cmp k (leaf_get_key_view l).

(** [src/art_internal_impl.hpp:155-162] matches *)
Definition matches (l : basic_leaf) (k : art_key) : bool := leaf_cmp l k =? 0.

(** [src/art_internal_impl.hpp:176-179] get_value_view *)
Definition get_value_view (l : basic_leaf) : list Z :=
  take (Z.to_nat (value_size l)) (drop (Z.to_nat (key_size l)) (data l)).

(** [sizeof(basic_leaf)] for an empty header: two 32-bit sizes, one data byte and
    its padding. *)
Definition sizeof_leaf : Z := 12.

(** [src/art_internal_impl.hpp:202-215] compute_size *)
Definition compute_size (key_size val_size : Z) : Z := wrap64 (sizeof_leaf + key_size + val_size - 1).

(** [src/art_internal_impl.hpp:186-189] get_size *)
Definition get_size (l : basic_leaf) : Z := compute_size (key_size l) (value_size l).

(** ** Creation and deletion, with their effects on the database *)

Record env := Env {
  env_stats : stats;
  env_heap : heap;
}.

Definition with_stats (f : stats → stats) : M env unit :=
  modify (λ e, Env (f (env_stats e)) (env_heap e)).

Definition allocate `{Allocator} (size : Z) : M env unit := λ e,
  let '(r, h) := allocate_aligned size (env_heap e) in (r, Env (env_stats e) h).

(** [src/art_internal_impl.hpp:229-265] make_db_leaf_ptr *)
Definition make_db_leaf_ptr `{Allocator} (k : art_key) (v : list Z) : M env basic_leaf := (
  let too_long := match k with KView _ => max_key_size <? Z.of_nat (key_size_of k) | KInt _ => false end in
  if too_long then throw length_error
  else if max_value_size <? Z.of_nat (length v) then throw length_error
  else
    let size := compute_size (wrap32 (Z.of_nat (key_size_of k))) (wrap32 (Z.of_nat (length v))) in
    allocate size;;
    with_stats (increment_leaf_count size);;
    ret (leaf_of k v))%monad.

(** [src/art_internal_impl.hpp:286-299] basic_db_leaf_deleter *)
Definition delete_leaf (l : basic_leaf) : M env unit := with_stats (decrement_leaf_count (get_size l)).

(** [src/art_internal_impl.hpp:301-311] basic_db_inode_deleter *)
Definition delete_inode (t : node_type) : M env unit := with_stats (decrement_inode_count t).

(** The allocation of an internal node; its construction follows.
    [src/art_internal_impl.hpp:383-399] make_db_inode_unique_ptr *)
Definition allocate_inode `{Allocator} (t : node_type) : M env unit := (
  allocate (sizeof_inode t);;
  with_stats (increment_inode_count t))%monad.

(** ** Well-formed leaves *)

(** The leaf holds the entry [(k, v)]. *)
Definition leaf_holds (l : basic_leaf) (k v : list Z) : Prop :=
  key_size l = Z.of_nat (length k) ∧ value_size l = Z.of_nat (length v) ∧ data l = k ++ v ∧
  is_bytes k ∧ Z.of_nat (length k) < 2 ^ 32 ∧ Z.of_nat (length v) < 2 ^ 32.

Lemma leaf_holds_key l k v : leaf_holds l k v → leaf_get_key_view l = k.
Proof.
  intros (Hk & _ & Hd & _). unfold leaf_get_key_view. rewrite Hk, Hd, Nat2Z.id. apply take_app_length.
Qed.

Lemma leaf_holds_value l k v : leaf_holds l k v → get_value_view l = v.
Proof.
  intros (Hk & Hv & Hd & _). unfold get_value_view. rewrite Hk, Hv, Hd, !Nat2Z.id, drop_app_length.
  by apply take_ge.
Qed.

Lemma leaf_holds_matches l k v key :
  leaf_holds l k v → matches l key = true ↔ get_key_view key = k.
Proof.
  intros Hl. unfold matches, leaf_cmp. rewrite cmp_compare, (leaf_holds_key _ _ _ Hl).
  by rewrite Z.eqb_eq, compare_zero.
Qed.

Lemma leaf_of_holds k v :
  key_wf k → Z.of_nat (key_size_of k) < 2 ^ 32 → Z.of_nat (length v) < 2 ^ 32 →
  leaf_holds (leaf_of k v) (get_key_view k) v.
Proof.
  intros Hk Hkl Hvl. unfold leaf_holds, leaf_of. simpl. rewrite !(wrap_small 32) by lia.
  rewrite length_get_key_view, !Nat2Z.id. split_and!; try done.
  - rewrite take_ge by (rewrite length_get_key_view; lia). by rewrite take_ge by lia.
  - by apply get_key_view_is_bytes.
Qed.

(** The bytes of memory a leaf takes. *)
Definition leaf_bytes (k v : list Z) : Z := 11 + Z.of_nat (length k) + Z.of_nat (length v).

Lemma leaf_holds_size l k v : leaf_holds l k v → get_size l = leaf_bytes k v.
Proof.
  intros (Hk & Hv & _ & _ & ? & ?). unfold get_size, compute_size, sizeof_leaf, leaf_bytes. rewrite Hk, Hv.
  rewrite wrap_small by lia. lia.
Qed.
