(* ===== verification/Tree.v ===== *)
(** The tree: what a node pointer refers to, and the sorted list of bindings a
    subtree represents. *)

From S2P Require Import Prelude Words ArtKey KeyPrefix SortedAssoc Simd InodeBase.
From S2P Require Import Inode4 Inode16 Inode48 Inode256 Heap Stats Leaf.
From S2P Require Import Inode InodeSpec.

(** ** Node pointers *)

(** A tagged pointer and what it points to; the graph of nodes is a tree.
    [src/art_internal.hpp:402-527] basic_node_ptr *)
Inductive node_ptr :=
  | Null
  | LeafP (l : basic_leaf)
  | InodeP (n : inode node_ptr).

(** The tag of the null pointer is 0, that of a leaf. *)
Definition ptr_type (p : node_ptr) : node_type :=
  match p with Null | LeafP _ => LEAF | InodeP n => type n end.

#[export] Instance node_ptr_ops : NodePtr node_ptr.
Proof.
  refine {|
    null_ptr := Null;
    is_null p := match p with Null => true | _ => false end;
    is_leaf p := bool_decide (ptr_type p = LEAF);
    leaf_key_view p := match p with LeafP l => leaf_get_key_view l | _ => [] end;
    ptr_key_prefix p := match p with InodeP n => get_key_prefix n | _ => 0 end;
    ptr_map_prefix f p := match p with InodeP n => InodeP (set_key_prefix (f (get_key_prefix n)) n) | p => p end;
  |}.
  - reflexivity.
  - by intros f [].
Defined.

(** An upper bound on the length of the paths below a pointer. *)
Fixpoint height (p : node_ptr) : nat :=
  match p with
  | Null => 0
  | LeafP _ => 1
  | InodeP n =>
      S (match n with
         | N4 n => foldr Nat.max 0%nat (map height (i4_children n))
         | N16 n => foldr Nat.max 0%nat (map height (i16_children n))
         | N48 n => foldr Nat.max 0%nat (map height (pointer_array n))
         | N256 n => foldr Nat.max 0%nat (map height (i256_children n))
         end)
  end.

(** ** The bindings of a subtree *)

(** [rep pre p kvs]: the subtree at [p], reached through the key bytes [pre],
    holds exactly the entries [kvs], in key order. *)
Inductive rep `{Target} : list Z → node_ptr → list (list Z * list Z) → Prop :=
  | rep_leaf pre l k v : leaf_holds l k v → pre `prefix_of` k → rep pre (LeafP l) [(k, v)]
  | rep_inode pre n kvs :
      node_wf n → reps (pre ++ prefix_bytes (get_key_prefix n)) (entries n) kvs → rep pre (InodeP n) kvs
with reps `{Target} : list Z → list (Z * node_ptr) → list (list Z * list Z) → Prop :=
  | reps_nil pre : reps pre [] []
  | reps_cons pre b c es kv kvs : rep (pre ++ [b]) c kv → reps pre es kvs → reps pre ((b, c) :: es) (kv ++ kvs).

Scheme rep_mut := Induction for rep Sort Prop
  with reps_mut := Induction for reps Sort Prop.
Combined Scheme rep_reps_ind from rep_mut, reps_mut.

(** The bindings of a whole database. *)
Definition root_rep `{Target} (root : node_ptr) (kvs : list (list Z * list Z)) : Prop :=
  (root = Null ∧ kvs = []) ∨ rep [] root kvs.

(** ** Keys of a subtree *)

(** What holds of each stored key and value. *)
Definition entry_ok (kv : list Z * list Z) : Prop :=
  is_bytes kv.1 ∧ Z.of_nat (length kv.1) < 2 ^ 32 ∧ Z.of_nat (length kv.2) < 2 ^ 32.

Section rep.
Context `{Target}.

Lemma rep_node_wf pre n kvs : rep pre (InodeP n) kvs → node_wf n.
Proof. by inversion 1. Qed.

Lemma rep_reps_keys :
  (∀ pre p kvs, rep pre p kvs → kvs ≠ [] ∧ Forall (λ kv, pre `prefix_of` kv.1 ∧ entry_ok kv) kvs) ∧
  (∀ pre es kvs, reps pre es kvs →
    (es ≠ [] → kvs ≠ []) ∧ Forall (λ kv, ∃ b, b ∈ es.*1 ∧ (pre ++ [b]) `prefix_of` kv.1 ∧ entry_ok kv) kvs).
Proof.
  apply rep_reps_ind.
  - intros pre l k v (_ & _ & _ & Hb & Hk & Hv) Hp. split; [done|]. constructor; [|done]. by split.
  - intros pre n kvs Hw Hr [Hne IH]. split; [by apply Hne, inode_nonempty|].
    eapply Forall_impl; [exact IH|]. intros kv (b & _ & Hp & Hok). split; [|done].
    etransitivity; [|exact Hp]. rewrite <- app_assoc. by apply prefix_app_r.
  - intros pre. by split.
  - intros pre b c es kv kvs Hr [Hne IHr] Hrs [_ IHs]. split; [by intros _ [? _]%app_nil|]. apply Forall_app. split.
    + eapply Forall_impl; [exact IHr|]. intros e [Hp Hok]. exists b. split_and!; [|done..]. apply elem_of_cons. by left.
    + eapply Forall_impl; [exact IHs|]. intros e (b' & Hb & Hp & Hok). exists b'. split_and!; [|done..].
      apply elem_of_cons. by right.
Qed.

Lemma rep_nonempty pre p kvs : rep pre p kvs → kvs ≠ [].
Proof. intros Hr. by apply rep_reps_keys in Hr as [? _]. Qed.

Lemma rep_keys pre p kvs : rep pre p kvs → Forall (λ kv, pre `prefix_of` kv.1 ∧ entry_ok kv) kvs.
Proof. intros Hr. by apply rep_reps_keys in Hr as [_ ?]. Qed.

Lemma reps_keys pre es kvs :
  reps pre es kvs → Forall (λ kv, ∃ b, b ∈ es.*1 ∧ (pre ++ [b]) `prefix_of` kv.1 ∧ entry_ok kv) kvs.
Proof. intros Hr. by apply rep_reps_keys in Hr as [_ ?]. Qed.

Lemma reps_app pre es1 es2 kvs :
  reps pre (es1 ++ es2) kvs ↔ ∃ kvs1 kvs2, kvs = kvs1 ++ kvs2 ∧ reps pre es1 kvs1 ∧ reps pre es2 kvs2.
Proof.
  split.
  - revert kvs. induction es1 as [|[b c] es1 IH]; intros kvs Hr.
    + exists [], kvs. split_and!; [done|constructor|done].
    + inversion Hr as [|? ? ? ? kv kvs' Hc Hes]; subst.
      destruct (IH _ Hes) as (k1 & k2 & -> & H1 & H2). exists (kv ++ k1), k2.
      rewrite app_assoc. split_and!; [done|by constructor|done].
  - intros (k1 & k2 & -> & H1 & H2). revert k1 H1. induction es1 as [|[b c] es1 IH]; intros k1 H1.
    + by inversion H1.
    + inversion H1 as [|? ? ? ? kv kvs' Hc Hes]; subst. rewrite <- app_assoc. constructor; [done|by apply IH].
Qed.

Lemma reps_single pre b c kvs : reps pre [(b, c)] kvs ↔ rep (pre ++ [b]) c kvs.
Proof.
  split.
  - intros Hr. inversion Hr as [|? ? ? ? kv kvs' Hc Hes]; subst. inversion Hes; subst. by rewrite app_nil_r.
  - intros Hr. rewrite <- (app_nil_r kvs). constructor; [done|constructor].
Qed.

Lemma rep_child_wf pre n kvs b m : rep pre (InodeP n) kvs → (b, InodeP m) ∈ entries n → node_wf m.
Proof.
  intros Hr (l1 & l2 & He)%list_elem_of_split. inversion Hr as [|? ? ? _ Hrs]; subst. rewrite He in Hrs.
  apply reps_app in Hrs as (k1 & k2 & _ & _ & Hrs). inversion Hrs as [|? ? ? ? ? ? Hc _]; subst.
  by eapply rep_node_wf.
Qed.

(** Keys under different bytes compare as the bytes. *)
Lemma branch_lt pre b b' (k k' : list Z) :
  (pre ++ [b]) `prefix_of` k → (pre ++ [b']) `prefix_of` k' → b < b' → klt k k'.
Proof.
  intros [x ->] [x' ->] Hb. rewrite <- !app_assoc. by apply lex_lt_branch.
Qed.

Lemma reps_below pre es kvs b key :
  reps pre es kvs → below es b → (pre ++ [b]) `prefix_of` key → below kvs key.
Proof.
  intros Hr%reps_keys Hb Hp. rewrite below_byte in Hb. unfold below. rewrite Forall_forall in Hr |- *.
  intros kv Hin. destruct (Hr kv Hin) as (b' & Hb' & Hp' & _). eapply branch_lt; [exact Hp'|exact Hp|].
  apply list_elem_of_fmap in Hb' as (p & -> & Hp0). rewrite Forall_forall in Hb. by apply Hb.
Qed.

Lemma reps_above pre es kvs b key :
  reps pre es kvs → above es b → (pre ++ [b]) `prefix_of` key → above kvs key.
Proof.
  intros Hr%reps_keys Hb Hp. rewrite above_byte in Hb. unfold above. rewrite Forall_forall in Hr |- *.
  intros kv Hin. destruct (Hr kv Hin) as (b' & Hb' & Hp' & _). eapply branch_lt; [exact Hp|exact Hp'|].
  apply list_elem_of_fmap in Hb' as (p & -> & Hp0). rewrite Forall_forall in Hb. by apply Hb.
Qed.

(** The bindings of a subtree are in key order. *)
Lemma rep_reps_sorted :
  (∀ pre p kvs, rep pre p kvs → sorted kvs) ∧
  (∀ pre es kvs, reps pre es kvs → sorted es → sorted kvs).
Proof.
  apply rep_reps_ind.
  - intros. apply sorted_cons. split; [constructor|apply sorted_nil].
  - intros pre n kvs Hw Hr IH. by apply IH, wf_sorted.
  - intros. apply sorted_nil.
  - intros pre b c es kv kvs Hr IHr Hrs IHs [Ha Hs]%sorted_cons. apply sorted_app. split_and!; [done|by apply IHs|].
    intros p q Hp Hq. pose proof (rep_keys _ _ _ Hr) as Hk. rewrite Forall_forall in Hk.
    destruct (Hk p Hp) as [Hpre _]. pose proof (reps_above _ _ _ _ _ Hrs Ha Hpre) as Hab.
    unfold above in Hab. rewrite Forall_forall in Hab. by apply Hab.
Qed.

Lemma rep_sorted pre p kvs : rep pre p kvs → sorted kvs.
Proof. apply rep_reps_sorted. Qed.

(** ** Focusing on the child under a key byte *)

(** The bindings of the children split around those under byte [b], and
    replacing, adding or deleting the child under [b] does the same to its
    bindings. *)
Lemma reps_focus pre (es : list (Z * node_ptr)) kvs b :
  sorted es → reps pre es kvs →
  ∃ L kv R, kvs = L ++ kv ++ R ∧
    match assoc b es with Some c => rep (pre ++ [b]) c kv | None => kv = [] end ∧
    (∀ key, (pre ++ [b]) `prefix_of` key → below L key ∧ above R key) ∧
    (∀ c' kv', rep (pre ++ [b]) c' kv' → reps pre (ins b c' es) (L ++ kv' ++ R)) ∧
    reps pre (del b es) (L ++ R).
Proof.
  intros Hs Hr. destruct (sorted_split b es Hs) as (l1 & l2 & Heq & Hb & Ha).
  set (o := assoc b es) in *. clearbody o. subst es.
  apply reps_app in Hr as (L & kvs2 & -> & HL & (kv & R & -> & Hkv & HR)%reps_app).
  exists L, kv, R. split; [done|]. split_and!.
  - destruct o; simpl in Hkv; [by apply reps_single|by inversion Hkv].
  - intros key Hp. split; [by eapply reps_below|by eapply reps_above].
  - intros c' kv' Hc'. rewrite ins_split by done. apply reps_app. exists L, (kv' ++ R).
    split_and!; [done..|]. by constructor.
  - rewrite del_split by done. apply reps_app. by exists L, R.
Qed.

(** ** Moving prefix bytes between a node and its path *)

Lemma set_key_prefix_spec (n : inode node_ptr) w :
  node_wf n → prefix_wf w →
  node_wf (set_key_prefix w n) ∧ entries (set_key_prefix w n) = entries n ∧
  get_key_prefix (set_key_prefix w n) = w ∧ type (set_key_prefix w n) = type n.
Proof.
  intros Hw Hp. destruct (set_prefix_spec n w Hw Hp) as (H1 & H2 & H3).
  split_and!; [exact H1|exact H2| |by destruct n].
  rewrite get_key_prefix_header. etransitivity; [exact (f_equal k_prefix H3)|]. done.
Qed.

Lemma rep_split_prefix pre n kvs len :
  rep pre (InodeP n) kvs → let w := get_key_prefix n in (len < prefix_length w)%nat →
  rep (pre ++ take len (prefix_bytes w) ++ [prefix_index w len])
    (InodeP (set_key_prefix (cut w (len + 1)) n)) kvs.
Proof.
  intros Hr w Hlen. inversion Hr as [|? ? ? Hw Hrs]; subst.
  assert (Hp : prefix_wf w) by (unfold w; rewrite get_key_prefix_header; by apply wf_prefix).
  destruct (set_key_prefix_spec n (cut w (len + 1)) Hw (cut_wf _ _ Hp)) as (Hw' & He & Hg & _).
  constructor; [done|]. rewrite Hg, He, cut_bytes by (done || lia).
  replace (_ ++ _) with (pre ++ prefix_bytes w); [done|].
  rewrite <- !app_assoc. f_equal. rewrite <- (take_drop_middle (prefix_bytes w) len (prefix_index w len)) at 1
    by by apply lookup_prefix_bytes.
  by rewrite Nat.add_1_r.
Qed.

Lemma rep_prepend pre p kvs w b :
  rep (pre ++ prefix_bytes w ++ [b]) p kvs → prefix_wf w → is_byte b →
  (prefix_length (ptr_key_prefix p) + prefix_length w < 7)%nat ∨ is_leaf p = true →
  rep pre (if is_leaf p then p else ptr_map_prefix (λ w', prepend w' w b) p) kvs.
Proof.
  intros Hr Hw Hb Hlen. inversion Hr as [pre' l k v Hl Hp|pre' n kvs' Hwn Hrs]; subst.
  - simpl. constructor; [done|]. etransitivity; [|exact Hp]. by apply prefix_app_r.
  - assert (Hleaf : is_leaf (InodeP n) = false) by (by destruct n). rewrite Hleaf in *.
    destruct Hlen as [Hlen|]; [|done].
    change (ptr_key_prefix (InodeP n)) with (get_key_prefix n) in Hlen.
    change (ptr_map_prefix (λ w', prepend w' w b) (InodeP n))
      with (InodeP (set_key_prefix (prepend (get_key_prefix n) w b) n)).
    assert (Hp : prefix_wf (get_key_prefix n)) by (rewrite get_key_prefix_header; by apply wf_prefix).
    destruct (prepend_wf_bytes (get_key_prefix n) w b) as [Hwf Hbytes]; [done..|].
    destruct (set_key_prefix_spec n _ Hwn Hwf) as (Hw' & He & Hg & _).
    constructor; [done|]. rewrite Hg, He, Hbytes. revert Hrs. by rewrite <- !app_assoc.
Qed.

Lemma rep_weaken_leaf pre pre' l kvs : rep (pre ++ pre') (LeafP l) kvs → rep pre (LeafP l) kvs.
Proof.
  intros Hr. inversion Hr as [? ? k v Hl Hp|]; subst. constructor; [done|].
  etransitivity; [|exact Hp]. by apply prefix_app_r.
Qed.
End rep.

(** ** Compact key sets

    The prefix of a node holds at most seven bytes, so the code supports only
    sets of keys in which no key runs more than seven bytes without leaving
    another key.  [compact_at d]: below depth [d], the point where two keys part
    lies at most eight bytes after a point where one of them leaves a third key. *)
Definition compact_at (d : nat) (ks : list (list Z)) : Prop :=
  ∀ e e' n, e ∈ ks → e' ∈ ks → diverge e e' n →
    (n ≤ d + 7)%nat ∨ ∃ e'' n', e'' ∈ ks ∧ diverge e e'' n' ∧ (n' < n ≤ n' + 8)%nat.

Definition compact (ks : list (list Z)) : Prop := compact_at 0 ks.

(** Keys of at most eight bytes, [std::uint64_t] keys among them, are compact. *)
Lemma short_keys_compact ks : Forall (λ k, (length k ≤ 8)%nat) ks → compact ks.
Proof.
  rewrite Forall_forall. intros Hl e e' n He _ Hd. left. apply diverge_length in Hd.
  specialize (Hl e He). lia.
Qed.

(** Compactness is inherited by the keys of a subtree. *)
Lemma compact_descend d d' ks sub :
  compact_at d ks → (d ≤ d')%nat → sub ⊆ ks →
  (∀ e e'' n', e ∈ sub → e'' ∈ ks → e'' ∉ sub → diverge e e'' n' → (n' < d')%nat) →
  compact_at d' sub.
Proof.
  intros Hc Hd Hsub Hout e e' n He He' Hdiv.
  destruct (Hc e e' n (Hsub _ He) (Hsub _ He') Hdiv) as [?|(e'' & n' & He'' & Hdiv'' & Hn)]; [left; lia|].
  destruct (decide (e'' ∈ sub)) as [Hin|Hin]; [right; by exists e'', n'|].
  left. pose proof (Hout e e'' n' He He'' Hin Hdiv''). lia.
Qed.

Lemma compact_perm d ks ks' : ks ⊆ ks' → ks' ⊆ ks → compact_at d ks → compact_at d ks'.
Proof.
  intros H1 H2 Hc e e' n He He' Hd. destruct (Hc e e' n) as [?|(e'' & n' & ? & ?)]; [by apply H2|by apply H2|done|by left|].
  right. exists e'', n'. split; [by apply H1|done].
Qed.

(** Keys that agree on a path and keys that leave it by another byte part inside
    the path. *)
Lemma diverge_path pre b (k e : list Z) n :
  (pre ++ [b]) `prefix_of` k → ¬ (pre ++ [b]) `prefix_of` e → diverge k e n → (n < length pre + 1)%nat.
Proof.
  intros [x ->] He [Ht _]. destruct (decide (n < length pre + 1)%nat) as [|Hn]; [done|]. exfalso.
  apply He. exists (drop (length pre + 1) e). rewrite <- (take_drop (length pre + 1) e) at 1. f_equal.
  apply (f_equal (take (length pre + 1))) in Ht. rewrite !take_take, !Nat.min_l in Ht by lia.
  rewrite <- Ht. rewrite take_app_le by (rewrite length_app; simpl; lia).
  apply take_ge. rewrite length_app. simpl. lia.
Qed.

(** The keys under one byte of a node are compact below it. *)
Lemma compact_focus d path b ks sub :
  compact_at d ks → (d ≤ length path + 1)%nat → sub ⊆ ks →
  (∀ e, e ∈ sub → (path ++ [b]) `prefix_of` e) → (∀ e, e ∈ ks → (path ++ [b]) `prefix_of` e → e ∈ sub) →
  compact_at (length path + 1) sub.
Proof.
  intros Hc Hd Hsub Hin Hout. eapply compact_descend; [exact Hc|lia|done|].
  intros e e'' n He He'' Hnin Hdiv. eapply diverge_path; [by apply Hin| |exact Hdiv].
  intros Hp. by apply Hnin, Hout.
Qed.

(** ** Totals over the nodes of a tree *)

Section total.
Context `{Target}.

(** What one node accounts for in the statistics. *)
Definition node_cost (o : option node_type) (p : node_ptr) : Z :=
  match p with
  | Null => 0
  | LeafP l => leaf_cost (get_size l) o
  | InodeP n => inode_cost (type n) o
  end.

Definition sum (l : list Z) : Z := foldr Z.add 0 l.

Fixpoint total_upto (fuel : nat) (o : option node_type) (p : node_ptr) : Z :=
  match fuel with
  | O => 0
  | S fuel' =>
      node_cost o p +
      match p with InodeP n => sum (total_upto fuel' o <$> (entries n).*2) | _ => 0 end
  end.

Definition total (o : option node_type) (p : node_ptr) : Z := total_upto (height p) o p.

Lemma foldr_max_le (l : list nat) x : x ∈ l → (x ≤ foldr Nat.max 0%nat l)%nat.
Proof. induction l as [|y l IH]; [by intros ?%elem_of_nil|]. simpl. intros [->|Hx%IH]%elem_of_cons; lia. Qed.

Lemma height_in_array (c : node_ptr) cs : c ∈ cs → (height c ≤ foldr Nat.max 0%nat (map height cs))%nat.
Proof. intros Hc. apply foldr_max_le. by apply list_elem_of_fmap_2. Qed.

(** The children of a node are lower than the node. *)
Lemma height_child (n : inode node_ptr) b c :
  node_wf n → (b, c) ∈ entries n → (height c < height (InodeP n))%nat.
Proof.
  intros Hw Hin. destruct n as [n|n|n|n]; cbn [height]; apply Nat.lt_succ_r, height_in_array.
  - apply list_elem_of_lookup in Hin as (i & (_ & _ & Hc)%lookup_arr_entries). by eapply list_elem_of_lookup_2.
  - apply list_elem_of_lookup in Hin as (i & (_ & _ & Hc)%lookup_arr_entries). by eapply list_elem_of_lookup_2.
  - apply elem_of_idx_entries in Hin as (i & _ & _ & Hc). destruct Hw as [Hw _].
    apply i48_child_slot in Hc as (s & _ & _ & Hc & _); [|done]. by eapply list_elem_of_lookup_2.
  - apply elem_of_idx_entries in Hin as (i & _ & _ & [Hc _]%i256_child_Some). by eapply list_elem_of_lookup_2.
Qed.

Lemma rep_reps_total :
  (∀ pre p kvs, rep pre p kvs → ∀ o fuel, (height p ≤ fuel)%nat → total_upto fuel o p = total o p) ∧
  (∀ pre es kvs, reps pre es kvs →
    ∀ o fuel, (∀ b c, (b, c) ∈ es → (height c ≤ fuel)%nat) →
    total_upto fuel o <$> es.*2 = total o <$> es.*2).
Proof.
  apply rep_reps_ind.
  - intros pre l k v Hl Hp o [|fuel] Hf; simpl in *; [lia|done].
  - intros pre n kvs Hw Hr IH o [|fuel] Hf; [simpl in Hf; lia|].
    unfold total. destruct (height (InodeP n)) as [|h] eqn:Hh; [simpl in Hh; lia|]. cbn [total_upto]. f_equal.
    rewrite !IH; [done|..]; intros b c Hin; pose proof (height_child n b c Hw Hin); lia.
  - done.
  - intros pre b c es kv kvs Hr IHr Hrs IHs o fuel Hf. cbn [fmap list_fmap snd]. f_equal.
    + apply IHr, (Hf b). apply elem_of_cons. by left.
    + apply IHs. intros b' c' Hin. apply (Hf b'). apply elem_of_cons. by right.
Qed.

Lemma total_inode pre n kvs o :
  rep pre (InodeP n) kvs → total o (InodeP n) = inode_cost (type n) o + sum (total o <$> (entries n).*2).
Proof.
  intros Hr. inversion Hr as [|? ? ? Hw Hrs]; subst. unfold total at 1.
  destruct (height (InodeP n)) as [|h] eqn:Hh; [simpl in Hh; lia|]. cbn [total_upto node_cost]. f_equal.
  f_equal. eapply rep_reps_total; [exact Hrs|]. intros b c Hin. pose proof (height_child n b c Hw Hin). lia.
Qed.

Lemma sum_perm l1 l2 : l1 ≡ₚ l2 → sum l1 = sum l2.
Proof. unfold sum. induction 1; simpl; lia. Qed.

Lemma sum_app l1 l2 : sum (l1 ++ l2) = sum l1 + sum l2.
Proof. unfold sum. induction l1 as [|x l1 IH]; simpl; [done|]. rewrite IH. lia. Qed.

(** Replacing or adding a child, and deleting it, in the sum over children. *)
Lemma sum_ins (f : node_ptr → Z) b c (es : list (Z * node_ptr)) :
  sorted es →
  sum (f <$> (ins b c es).*2) = sum (f <$> es.*2) + f c - match assoc b es with Some c' => f c' | None => 0 end.
Proof.
  intros Hs. destruct (sorted_split b es Hs) as (l1 & l2 & Heq & Hb & Ha).
  set (o := assoc b es) in *. clearbody o. subst es. rewrite ins_split by done.
  rewrite !fmap_app. cbn [fmap list_fmap snd]. rewrite !sum_app.
  change (sum (f c :: ?l)) with (f c + sum l). destruct o as [c'|]; simpl; lia.
Qed.

Lemma sum_del (f : node_ptr → Z) b (es : list (Z * node_ptr)) :
  sorted es →
  sum (f <$> (del b es).*2) = sum (f <$> es.*2) - match assoc b es with Some c' => f c' | None => 0 end.
Proof.
  intros Hs. destruct (sorted_split b es Hs) as (l1 & l2 & Heq & Hb & Ha).
  set (o := assoc b es) in *. clearbody o. subst es. rewrite del_split by done.
  rewrite !fmap_app, !sum_app. destruct o as [c'|]; simpl; lia.
Qed.
(** The total of a node after an entry was written. *)
Lemma total_ins pre n n' kvs kvs' b c o :
  rep pre (InodeP n) kvs → rep pre (InodeP n') kvs' → entries n' = ins b c (entries n) →
  total o (InodeP n') - total o (InodeP n) =
    inode_cost (type n') o - inode_cost (type n) o + total o c -
    match assoc b (entries n) with Some c' => total o c' | None => 0 end.
Proof.
  intros Hr Hr' He. rewrite (total_inode _ _ _ _ Hr), (total_inode _ _ _ _ Hr'), He.
  inversion Hr as [|? ? ? Hwf _]; subst. rewrite sum_ins by by apply wf_sorted. lia.
Qed.

Lemma total_del pre n n' kvs kvs' b o :
  rep pre (InodeP n) kvs → rep pre (InodeP n') kvs' → entries n' = del b (entries n) →
  total o (InodeP n') - total o (InodeP n) =
    inode_cost (type n') o - inode_cost (type n) o -
    match assoc b (entries n) with Some c' => total o c' | None => 0 end.
Proof.
  intros Hr Hr' He. rewrite (total_inode _ _ _ _ Hr), (total_inode _ _ _ _ Hr'), He.
  inversion Hr as [|? ? ? Hwf _]; subst. rewrite sum_del by by apply wf_sorted. lia.
Qed.

Lemma total_leaf o l : total o (LeafP l) = leaf_cost (get_size l) o.
Proof. unfold total. cbn [height total_upto node_cost]. lia. Qed.

Lemma total_set_prefix pre pre' n kvs kvs' w o :
  rep pre (InodeP n) kvs → rep pre' (InodeP (set_key_prefix w n)) kvs' → prefix_wf w →
  total o (InodeP (set_key_prefix w n)) = total o (InodeP n).
Proof.
  intros Hr Hr' Hw. rewrite (total_inode _ _ _ _ Hr), (total_inode _ _ _ _ Hr').
  inversion Hr as [|? ? ? Hwf _]; subst. destruct (set_key_prefix_spec n w Hwf Hw) as (_ & He & _ & Ht).
  by rewrite He, Ht.
Qed.
End total.
