(* ===== verification/Db.v ===== *)
(** The index itself: [db] of [art.hpp], with its lookup, insertion, removal and
    deletion. *)

From S2P Require Import Prelude Words ArtKey KeyPrefix SortedAssoc Simd InodeBase.
From S2P Require Import Inode4 Inode16 Inode48 Inode256 Heap Stats Leaf.
From S2P Require Import InodeSpec Inode Tree.

(** ** The state *)

(** The slot that holds a node pointer, [root] of the database to begin with, and
    the rest of the database: statistics and the heap.
    [src/art.hpp:633-633] root *)
Record world := World {
  slot : node_ptr;
  wenv : env;
}.

(** A new, empty index. *)
Definition new_db (h : heap) : world := World Null (Env no_stats h).

Definition lift {A} (m : M env A) : M world A := λ w,
  let '(r, e) := m (wenv w) in (r, World (slot w) e).

Definition get_slot : M world node_ptr := λ w, (Ret (slot w), w).
Definition set_slot (p : node_ptr) : M world unit := λ w, (Ret tt, World p (wenv w)).

Fixpoint for_each {S A} (f : A → M S unit) (l : list A) : M S unit :=
  match l with [] => ret tt | a :: l => (f a;; for_each f l)%monad end.

Section db.
Context `{Target, Allocator}.
#[local] Open Scope monad_scope.

(** Running [m] with the slot at the child slot [s] of node [n]: what it leaves
    there, returning or throwing, is then in the node. *)
Definition focus {A} (n : inode node_ptr) (s : nat) (m : M world A) : M world A := λ w,
  match slot_load n s with
  | None => (UB, w)
  | Some c => let '(r, w') := m (World c (wenv w)) in (r, World (InodeP (slot_store n s (slot w'))) (wenv w'))
  end.

(** ** Lookup *)

(** The loop of [get_internal].
    [src/art.hpp:891-922] get_internal *)
Fixpoint get_loop (fuel : nat) (node : node_ptr) (k remaining_key : art_key) : M world (option (list Z)) :=
  match fuel with
  | O => out_of_fuel
  | S fuel =>
      match node with
      | Null => ub
      | LeafP leaf => ret (if matches leaf k then Some (get_value_view leaf) else None)
      | InodeP inode =>
          let key_prefix := get_key_prefix inode in
          let key_prefix_length := prefix_length key_prefix in
          if (get_shared_length key_prefix (get_u64 remaining_key) <? key_prefix_length)%nat then ret None
          else
            remaining_key <- of_option (shift_right remaining_key key_prefix_length);
            key_byte <- of_option (index remaining_key 0);
            match (find_child inode key_byte).2 with
            | None => ret None
            | Some s =>
                child <- of_option (slot_load inode s);
                remaining_key <- of_option (shift_right remaining_key 1);
                get_loop fuel child k remaining_key
            end
      end
  end.

(** Every pass of the loop consumes a byte of the key. *)
Definition loop_fuel (k : art_key) : nat := S (key_size_of k).

Definition get_internal (k : art_key) : M world (option (list Z)) :=
  node <- get_slot;
  match node with Null => ret None | _ => get_loop (loop_fuel k) node k k end.

(** ** Insertion *)

(** Allocating and constructing an internal node; [cleanup] releases what the
    caller owns when the allocation fails.
    [src/art_internal_impl.hpp:1200-1206] create *)
Definition create {A} (t : node_type) (cleanup : M env unit) (construct : option A) : M env A :=
  on_throw cleanup (allocate_inode t);;
  of_option construct.

(** Returns the slot of an existing child to go on with.
    [src/art.hpp:812-840] add_or_choose_subtree *)
Definition add_or_choose_subtree (inode : inode node_ptr) (key_byte : Z) (k : art_key) (v : list Z)
    (depth : tree_depth) : M world (option nat) :=
  match (find_child inode key_byte).2 with
  | Some child => ret (Some child)
  | None =>
      leaf <- lift (make_db_leaf_ptr k v);
      let children_count := get_children_count inode in
      if negb (bool_decide (type inode = I256)) && (children_count =? inode_capacity (type inode)) then
        larger_node <- lift (create (larger_type (type inode)) (delete_leaf leaf)
                               (create_larger inode (LeafP leaf) depth));
        lift (delete_inode (type inode));;
        set_slot (InodeP larger_node);;
        lift (with_stats (account_growing_inode (larger_type (type inode))));;
        ret None
      else
        inode <- of_option (add_to_nonfull inode (LeafP leaf) depth children_count);
        set_slot (InodeP inode);;
        ret None
  end.

(** The loop of [insert_internal].
    [src/art.hpp:929-1000] insert_internal *)
Fixpoint insert_loop (fuel : nat) (insert_key : art_key) (v : list Z) (depth : tree_depth)
    (remaining_key : art_key) : M world bool :=
  match fuel with
  | O => out_of_fuel
  | S fuel =>
      node <- get_slot;
      match node with
      | Null => ub
      | LeafP leaf =>
          let existing_key := leaf_get_key_view leaf in
          if cmp insert_key existing_key =? 0 then ret false
          else
            new_leaf <- lift (make_db_leaf_ptr insert_key v);
            new_node <- lift (create I4 (delete_leaf new_leaf)
              (create_leaves existing_key remaining_key depth (LeafP leaf) (LeafP new_leaf)));
            set_slot (InodeP (N4 new_node));;
            lift (with_stats (account_growing_inode I4));;
            ret true
      | InodeP inode =>
          let key_prefix := get_key_prefix inode in
          let key_prefix_length := prefix_length key_prefix in
          let shared_prefix_len := get_shared_length key_prefix (get_u64 remaining_key) in
          if (shared_prefix_len <? key_prefix_length)%nat then
            leaf <- lift (make_db_leaf_ptr insert_key v);
            new_node <- lift (create I4 (delete_leaf leaf)
              (create_prefix node shared_prefix_len depth (LeafP leaf)));
            set_slot (InodeP (N4 new_node));;
            lift (with_stats (account_growing_inode I4));;
            lift (with_stats count_prefix_split);;
            ret true
          else
            let depth := depth_add depth (Z.of_nat key_prefix_length) in
            remaining_key <- of_option (shift_right remaining_key key_prefix_length);
            key_byte <- of_option (index remaining_key 0);
            node <- add_or_choose_subtree inode key_byte insert_key v depth;
            match node with
            | None => ret true
            | Some s =>
                remaining_key <- of_option (shift_right remaining_key 1);
                focus inode s (insert_loop fuel insert_key v (depth_inc depth) remaining_key)
            end
      end
  end.

Definition insert_internal (insert_key : art_key) (v : list Z) : M world bool :=
  root <- get_slot;
  match root with
  | Null =>
      leaf <- lift (make_db_leaf_ptr insert_key v);
      set_slot (LeafP leaf);;
      ret true
  | _ => insert_loop (loop_fuel insert_key) insert_key v 0 insert_key
  end.

(** ** Removal *)

(** The deletion of a leaf taken out of a node. *)
Definition reclaim_leaf (p : node_ptr) : M env unit :=
  match p with LeafP leaf => delete_leaf leaf | _ => ub end.

(** [None] when the key is not there, [Some None] once it has been removed, and
    otherwise the slot of the child to go on with.
    [src/art.hpp:846-881] remove_or_choose_subtree *)
Definition remove_or_choose_subtree (inode : inode node_ptr) (key_byte : Z) (k : art_key)
    : M world (option (option nat)) :=
  let '(child_i, child_ptr) := find_child inode key_byte in
  match child_ptr with
  | None => ret None
  | Some s =>
      child_ptr_val <- of_option (slot_load inode s);
      match child_ptr_val with
      | InodeP _ => ret (Some (Some s))
      | Null => ub
      | LeafP leaf =>
          if negb (matches leaf k) then ret None
          else if is_min_size inode then
            match inode with
            | N4 n =>
                ' (child_to_leave, deleted) <- of_option (leave_last_child n child_i);
                lift (reclaim_leaf deleted);;
                set_slot child_to_leave;;
                lift (delete_inode I4)
            | _ =>
                lift (allocate_inode (smaller_type (type inode)));;
                ' (new_node, deleted) <- of_option (create_smaller inode child_i);
                lift (reclaim_leaf deleted);;
                lift (delete_inode (type inode));;
                set_slot (InodeP new_node)
            end;;
            lift (with_stats (account_shrinking_inode (type inode)));;
            ret (Some None)
          else
            ' (inode, deleted) <- of_option (remove inode child_i);
            lift (reclaim_leaf deleted);;
            set_slot (InodeP inode);;
            ret (Some None)
      end
  end.

(** The loop of [remove_internal].
    [src/art.hpp:1004-1048] remove_internal *)
Fixpoint remove_loop (fuel : nat) (remove_key : art_key) (depth : tree_depth) (remaining_key : art_key)
    : M world bool :=
  match fuel with
  | O => out_of_fuel
  | S fuel =>
      node <- get_slot;
      match node with
      | Null | LeafP _ => ub
      | InodeP inode =>
          let key_prefix := get_key_prefix inode in
          let key_prefix_length := prefix_length key_prefix in
          let shared_prefix_len := get_shared_length key_prefix (get_u64 remaining_key) in
          if (shared_prefix_len <? key_prefix_length)%nat then ret false
          else
            let depth := depth_add depth (Z.of_nat key_prefix_length) in
            remaining_key <- of_option (shift_right remaining_key key_prefix_length);
            key_byte <- of_option (index remaining_key 0);
            remove_result <- remove_or_choose_subtree inode key_byte remove_key;
            match remove_result with
            | None => ret false
            | Some None => ret true
            | Some (Some s) =>
                remaining_key <- of_option (shift_right remaining_key 1);
                focus inode s (remove_loop fuel remove_key (depth_inc depth) remaining_key)
            end
      end
  end.

Definition remove_internal (remove_key : art_key) : M world bool :=
  root <- get_slot;
  match root with
  | Null => ret false
  | LeafP root_leaf =>
      if matches root_leaf remove_key then
        set_slot Null;;
        lift (delete_leaf root_leaf);;
        ret true
      else ret false
  | InodeP _ => remove_loop (loop_fuel remove_key) remove_key 0 remove_key
  end.

(** ** Deletion of subtrees *)

(** [src/art_internal_impl.hpp:426-510] delete_subtree *)
Fixpoint delete_subtree (fuel : nat) (node : node_ptr) : M env unit :=
  match fuel with
  | O => out_of_fuel
  | S fuel =>
      match node with
      | Null => ret tt
      | LeafP leaf => delete_leaf leaf
      | InodeP inode => for_each (delete_subtree fuel) (all_children inode);; delete_inode (type inode)
      end
  end.

(** [src/art.hpp:1471-1480] delete_root_subtree *)
Definition delete_root_subtree : M world unit :=
  root <- get_slot;
  match root with Null => ret tt | _ => lift (delete_subtree (height root) root) end.

(** [src/art.hpp:1482-1494] clear *)
Definition clear : M world unit :=
  delete_root_subtree;;
  set_slot Null;;
  lift (with_stats clear_stats).

(** The destructor.
    [src/art.hpp:886-889] ~db *)
Definition db_destroy : M world unit := delete_root_subtree.

(** ** The interface *)

(** [src/art.hpp:143-146] empty *)
Definition empty : M world bool :=
  root <- get_slot;
  ret (match root with Null => true | _ => false end).

(** The key of a call: an integer, or the bytes at an address. *)
Inductive key_arg := IntKey (k : Z) | ViewKey (addr : Z) (bytes : list Z).

Definition art_key_of (k : key_arg) : art_key :=
  match k with IntKey k => art_key_of_int k | ViewKey addr bytes => art_key_of_view (Span addr bytes) end.

(** [src/art.hpp:132-141] get *)
Definition db_get (search_key : key_arg) : M world (option (list Z)) := get_internal (art_key_of search_key).

(** [src/art.hpp:148-167] insert *)
Definition db_insert (insert_key : key_arg) (v : list Z) : M world bool := insert_internal (art_key_of insert_key) v.

(** [src/art.hpp:169-181] remove *)
Definition db_remove (search_key : key_arg) : M world bool := remove_internal (art_key_of search_key).
End db.
