(* ===== verification/DbLookup.v ===== *)
(** One step down the tree, shared by lookup, insertion and removal, and the
    correctness of lookup. *)

From S2P Require Import Prelude Words ArtKey KeyPrefix SortedAssoc Simd InodeBase.
From S2P Require Import Inode4 Inode16 Inode48 Inode256 Heap Stats Leaf.
From S2P Require Import InodeSpec Inode Tree Db.

(** The contract of the keys of an index: a searched key is no proper prefix of a
    stored key, nor the other way round. *)
Definition search_ok (k : art_key) (ks : list (list Z)) : Prop :=
  key_wf k ∧ Forall (λ e, get_key_view k = e ∨ prefix_free (get_key_view k) e) ks.

Lemma search_ok_sub k ks ks' : search_ok k ks → ks' ⊆ ks → search_ok k ks'.
Proof. intros [Hk Hks] Hsub. split; [done|]. rewrite Forall_forall in *. intros e He. by apply Hks, Hsub. Qed.

Section lookup.
Context `{Target, Allocator}.

(** Every key of a node's subtree runs through the node's prefix. *)
Lemma rep_prefix_at pre n kvs e :
  rep pre (InodeP n) kvs → e ∈ kvs.*1 →
  let w := get_key_prefix n in
  prefix_wf w ∧ is_bytes e ∧ Z.of_nat (length e) < 2 ^ 32 ∧ prefix_at e (length pre) w ∧
  (pre ++ prefix_bytes w) `prefix_of` e.
Proof.
  intros Hr He w. inversion Hr as [|? ? ? Hw Hrs]; subst. fold w in Hrs.
  apply list_elem_of_fmap in He as (kv & -> & Hin).
  apply reps_keys in Hrs. rewrite Forall_forall in Hrs.
  destruct (Hrs kv Hin) as (b & _ & [x Hp] & Hb & Hlen & _). rewrite <- app_assoc in Hp.
  pose proof (inode_prefix_wf n Hw : prefix_wf w) as Hwf.
  split_and!; [done..| |].
  - unfold prefix_at. rewrite Hp. rewrite <- (length_prefix_bytes w), <- !app_assoc, drop_app_length.
    rewrite take_app_length. split; [done|]. rewrite !length_app. cbn [length]. lia.
  - rewrite Hp, <- !app_assoc. exists ([b] ++ x). by rewrite app_assoc.
Qed.

(** At a node reached by the searched key, either the key leaves the prefix
    after [sh] bytes, and with it every stored key, or the loop can go on with
    the next byte of the key. *)
Lemma descend pre n kvs k :
  rep pre (InodeP n) kvs → pre `prefix_of` get_key_view k → search_ok k kvs.*1 →
  let w := get_key_prefix n in let d := length pre in let len := prefix_length w in
  let sh := get_shared_length w (get_u64 (shifted k d)) in
  prefix_wf w ∧ Z.of_nat (d + len) + 1 < 2 ^ 32 ∧
  (((sh < len)%nat ∧ ∀ e, e ∈ kvs.*1 → diverge (get_key_view k) e (d + sh)) ∨
   (sh = len ∧ ∃ b, is_byte b ∧ (pre ++ prefix_bytes w ++ [b]) `prefix_of` get_key_view k ∧
     (d + len < key_size_of k)%nat ∧
     shift_right (shifted k d) len = Some (shifted k (d + len)) ∧
     index (shifted k (d + len)) 0 = Some b ∧
     shift_right (shifted k (d + len)) 1 = Some (shifted k (d + len + 1)))).
Proof.
  intros Hr Hpre [Hk Hks] w d len sh. rewrite Forall_forall in Hks.
  assert (Hcases : ∀ e, e ∈ kvs.*1 → prefix_wf w ∧ Z.of_nat (d + len) < 2 ^ 32 - 1 ∧ (pre ++ prefix_bytes w) `prefix_of` e ∧
    ((sh = len ∧ take (d + len) (get_key_view k) = take (d + len) e ∧ (d + len < length (get_key_view k))%nat) ∨
     ((sh < len)%nat ∧ diverge (get_key_view k) e (d + sh)))).
  { intros e He. destruct (rep_prefix_at _ _ _ _ Hr He) as (Hw & Hb & Hlen & Hat & Hp). fold w in Hw, Hat, Hp.
    split; [done|]. split; [destruct Hat; unfold d, len; lia|]. split; [done|].
    apply (shared_length_cases k e d w); [done..| |by apply Hks].
    destruct Hpre as [x ->]. destruct Hp as [y ->]. unfold d. by rewrite <- app_assoc, !take_app_length. }
  destruct kvs as [|[e0 v0] kvs]; [by apply rep_nonempty in Hr|].
  destruct (Hcases e0) as (Hw & Hd & [y Hy] & Hc); [apply elem_of_cons; by left|].
  split; [done|]. split; [lia|]. destruct Hc as [(Hsh & Ht & Hlt)|[Hsh _]].
  - right. split; [done|]. destruct (lookup_lt_is_Some_2 (get_key_view k) (d + len)) as [b Hb]; [done|].
    rewrite length_get_key_view in Hlt. destruct Hw as [_ Hl].
    exists b. split_and!; [|exists (drop (S (d + len)) (get_key_view k))|done| | |].
    + eapply Forall_lookup_1; [by apply get_key_view_is_bytes|done].
    + rewrite <- (take_drop_middle _ _ _ Hb) at 1. rewrite Ht, Hy.
      rewrite take_app_length' by (rewrite length_app, length_prefix_bytes; done). by rewrite <- !app_assoc.
    + apply shift_right_shifted; unfold len; lia.
    + rewrite index_shifted by lia. by rewrite Nat.add_0_r.
    + apply shift_right_shifted; lia.
  - left. split; [done|]. intros e He. destruct (Hcases e He) as (_ & _ & _ & [(? & _)|[_ ?]]); [lia|done].
Qed.

(** A key that leaves every stored key is not stored. *)
Lemma assoc_diverge key (kvs : list (list Z * list Z)) n :
  sorted kvs → (∀ e, e ∈ kvs.*1 → diverge key e n) → assoc key kvs = None.
Proof.
  intros Hs Hd. destruct (assoc key kvs) as [v|] eqn:Ha; [|done]. apply assoc_elem in Ha; [|done].
  exfalso. eapply diverge_ne; [apply (Hd key)|done]. apply list_elem_of_fmap. by exists (key, v).
Qed.

Lemma find_child_entry (n : inode node_ptr) b :
  node_wf n → is_byte b →
  match assoc b (entries n) with
  | None => find_child n b = child_not_found
  | Some c => ∃ i s, find_child n b = (i, Some s) ∧ child_at n i b c ∧ slot_load n s = Some c
  end.
Proof. exact (find_child_spec n b). Qed.

(** The searched key can go on into the child it selects. *)
Lemma search_ok_middle k (L kv R : list (list Z * list Z)) :
  search_ok k (L ++ kv ++ R).*1 → search_ok k kv.*1.
Proof. intros Hs. eapply search_ok_sub; [done|]. intros e. rewrite !fmap_app, !elem_of_app. by auto. Qed.

Lemma rep_key_prefix pre p kvs e : rep pre p kvs → e ∈ kvs.*1 → pre `prefix_of` e.
Proof.
  intros Hr (kv & -> & Hin)%list_elem_of_fmap. apply rep_keys in Hr. rewrite Forall_forall in Hr.
  by destruct (Hr kv Hin).
Qed.

(** The keys that run through a path are the ones below it. *)
Lemma middle_keys path (L kv R : list (list Z * list Z)) e :
  (∀ key, path `prefix_of` key → below L key ∧ above R key) →
  e ∈ (L ++ kv ++ R).*1 → path `prefix_of` e → e ∈ kv.*1.
Proof.
  intros Hlr He Hp. destruct (Hlr e Hp) as [HL HR]. rewrite !fmap_app, !elem_of_app in He.
  unfold below, above in HL, HR. rewrite Forall_forall in HL, HR.
  destruct He as [Hi|[?|Hi]]; [|done|]; apply list_elem_of_fmap in Hi as (x & -> & Hx); exfalso;
    eapply (klt_irrefl x.1); auto.
Qed.

Lemma focus_run {A} (n : inode node_ptr) s c (m : M world A) p e r c' e' :
  slot_load n s = Some c → m (World c e) = (r, World c' e') →
  focus n s m (World p e) = (r, World (InodeP (slot_store n s c')) e').
Proof. intros Hl Hm. unfold focus. rewrite Hl. cbn [wenv]. by rewrite Hm. Qed.

(** ** Lookup *)

Lemma get_loop_spec fuel k pre p kvs w :
  rep pre p kvs → pre `prefix_of` get_key_view k → search_ok k kvs.*1 →
  (key_size_of k < length pre + fuel)%nat →
  get_loop fuel p k (shifted k (length pre)) w = (Ret (assoc (get_key_view k) kvs), w).
Proof.
  revert pre p kvs. induction fuel as [|fuel IH]; intros pre p kvs Hr Hpre Hok Hfuel.
  { destruct Hpre as [x Hx]. apply (f_equal length) in Hx. rewrite length_get_key_view, length_app in Hx. lia. }
  destruct p as [|l|n]; [by inversion Hr| |].
  - inversion Hr as [? ? k0 v0 Hl Hp|]; subst. cbn [get_loop]. unfold ret. do 2 f_equal.
    pose proof (leaf_holds_matches l k0 v0 k Hl) as Hm. destruct (matches l k).
    + rewrite (proj1 Hm eq_refl), assoc_single_eq. by rewrite (leaf_holds_value _ _ _ Hl).
    + rewrite assoc_single_ne; [done|]. intros Heq. by apply Hm in Heq.
  - pose proof (rep_sorted _ _ _ Hr) as Hsort.
    destruct (descend _ _ _ _ Hr Hpre Hok) as (Hw & Hd & Hcase). cbn [get_loop].
    destruct Hcase as [[Hsh Hdiv]|(Hsh & b & Hb & Hpb & Hlt & Hs1 & Hidx & Hs2)].
    + rewrite (proj2 (Nat.ltb_lt _ _)) by done. unfold ret. by rewrite (assoc_diverge _ _ _ Hsort Hdiv).
    + rewrite (proj2 (Nat.ltb_ge _ _)) by lia. rewrite Hs1. cbn [of_option]. rewrite bind_ret, Hidx.
      cbn [of_option]. rewrite bind_ret.
      inversion Hr as [|? ? ? Hwf Hrs]; subst. pose proof (wf_sorted n Hwf) as Hse.
      destruct (reps_focus _ _ _ b Hse Hrs) as (L & kv & R & -> & Hc & Hlr & _ & _).
      destruct (Hlr (get_key_view k)) as [HL HR]; [by rewrite <- app_assoc|].
      rewrite assoc_middle by done. pose proof (find_child_entry n b Hwf Hb) as Hf.
      destruct (assoc b (entries n)) as [c|].
      * destruct Hf as (i & s & -> & _ & Hl). cbn [snd]. rewrite Hl. cbn [of_option]. rewrite bind_ret, Hs2.
        cbn [of_option]. rewrite bind_ret.
        specialize (IH ((pre ++ prefix_bytes (get_key_prefix n)) ++ [b]) c kv Hc).
        rewrite !length_app, length_prefix_bytes in IH. cbn [length] in IH.
        apply IH; [by rewrite <- app_assoc|by eapply search_ok_middle|lia].
      * rewrite Hf. cbn [snd child_not_found]. by subst kv.
Qed.

Lemma get_internal_spec k root kvs e :
  root_rep root kvs → search_ok k kvs.*1 →
  get_internal k (World root e) = (Ret (assoc (get_key_view k) kvs), World root e).
Proof.
  intros [[-> ->]|Hr] Hok; [done|]. unfold get_internal, get_slot, bind. cbn [slot].
  destruct root as [|l|n]; [by inversion Hr|..];
    rewrite <- (shifted_0 k) at 3; change 0%nat with (length (@nil Z));
    (apply get_loop_spec; [done|by apply prefix_nil|done|unfold loop_fuel; simpl; lia]).
Qed.
End lookup.
