(* ===== verification/DbInsert.v ===== *)
(** Correctness of insertion: result, new contents, exceptions and statistics. *)

From S2P Require Import Prelude Words ArtKey KeyPrefix SortedAssoc Simd InodeBase.
From S2P Require Import Inode4 Inode16 Inode48 Inode256 Heap Stats Leaf.
From S2P Require Import InodeSpec Inode Tree Db DbLookup.

(** The limits on the sizes of a key and a value. *)
Definition allowed (k : art_key) (v : list Z) : Prop :=
  Z.of_nat (key_size_of k) < 2 ^ 32 ∧ Z.of_nat (length v) < 2 ^ 32.

(** From [e] to [e'] the counters changed by [dx]. *)
Definition accounted (e e' : env) (dx : option node_type → Z) : Prop :=
  ∀ x, tally_is (env_stats e) x → tally_is (env_stats e') (λ o, x o + dx o).

Lemma accounted_trans e1 e2 e3 d1 d2 d :
  accounted e1 e2 d1 → accounted e2 e3 d2 → (∀ o, d1 o + d2 o = d o) → accounted e1 e3 d.
Proof.
  intros H1 H2 Hd x Hx. eapply tally_is_ext; [by apply H2, H1|]. intros o. simpl. rewrite <- Hd. lia.
Qed.

Lemma accounted_app e1 e2 e3 d1 d2 :
  accounted e1 e2 d1 → accounted e2 e3 d2 → accounted e1 e3 (λ o, d1 o + d2 o).
Proof. intros H1 H2. by eapply accounted_trans. Qed.

Lemma accounted_ext e e' d d' : accounted e e' d → (∀ o, d o = d' o) → accounted e e' d'.
Proof. intros H1 Hd x Hx. eapply tally_is_ext; [by apply H1|]. intros o. simpl. by rewrite Hd. Qed.

Lemma accounted_same e e' : env_stats e = env_stats e' → accounted e e' (λ _, 0).
Proof. intros He x Hx. rewrite <- He. eapply tally_is_ext; [done|]. intros. lia. Qed.

(** A counter update that leaves the tallies alone. *)
Lemma accounted_silent f e :
  (∀ s x, tally_is s x → tally_is (f s) x) → accounted e (Env (f (env_stats e)) (env_heap e)) (λ _, 0).
Proof. intros Hf x Hx. simpl. apply Hf. eapply tally_is_ext; [done|]. intros. simpl. lia. Qed.

Section insert.
Context `{Target, Allocator}.

(** ** Creation *)

Lemma allocate_cases size e :
  ∃ e', env_stats e' = env_stats e ∧ (allocate size e = (Ret tt, e') ∨ allocate size e = (Throw bad_alloc, e')).
Proof.
  unfold allocate. destruct (allocate_aligned_cases size (env_heap e)) as [h [->| ->]]; eexists; split;
    [|by left| |by right]; done.
Qed.

Lemma max_sizes k v :
  (max_key_size <? Z.of_nat (key_size_of k)) = false ∧ (max_value_size <? Z.of_nat (length v)) = false ↔
  allowed k v.
Proof. unfold allowed, max_key_size, max_value_size. rewrite !Z.ltb_ge. lia. Qed.

Lemma make_leaf_cases k v e :
  ∃ r e', make_db_leaf_ptr k v e = (r, e') ∧
    ((r = Ret (leaf_of k v) ∧ allowed k v ∧ accounted e e' (leaf_cost (get_size (leaf_of k v)))) ∨
     (∃ x, r = Throw x ∧ (x = length_error ↔ ¬ allowed k v) ∧ accounted e e' (λ _, 0))).
Proof.
  unfold make_db_leaf_ptr. pose proof (max_sizes k v) as Hm.
  replace (match k with KView _ => _ | KInt _ => false end) with (max_key_size <? Z.of_nat (key_size_of k))
    by (destruct k; [by apply Z.ltb_ge|done]).
  destruct (max_key_size <? _).
  { eexists _, _. split; [done|]. right. eexists. split; [done|]. split; [|by apply accounted_same].
    rewrite <- Hm. by split; [intros _ [? _]|]. }
  destruct (max_value_size <? _).
  { eexists _, _. split; [done|]. right. eexists. split; [done|]. split; [|by apply accounted_same].
    rewrite <- Hm. by split; [intros _ [_ ?]|]. }
  destruct Hm as [Hm _]. set (size := compute_size _ _).
  destruct (allocate_cases size e) as (e' & Hs & [Ha|Ha]); unfold bind at 1; rewrite Ha.
  - eexists _, _. split; [done|]. left. split; [done|]. split; [by apply Hm|].
    intros x Hx. rewrite <- Hs in Hx. simpl. by apply tally_increment_leaf.
  - eexists _, _. split; [done|]. right. eexists. split; [done|]. split; [|by apply accounted_same].
    split; [done|]. intros []. by apply Hm.
Qed.

Lemma allocate_inode_cases t e :
  ∃ r e', allocate_inode t e = (r, e') ∧
    ((r = Ret tt ∧ accounted e e' (inode_cost t)) ∨ (r = Throw bad_alloc ∧ accounted e e' (λ _, 0))).
Proof.
  unfold allocate_inode. destruct (allocate_cases (sizeof_inode t) e) as (e' & Hs & [Ha|Ha]);
    unfold bind; rewrite Ha; eexists _, _; (split; [done|]); [left|right]; (split; [done|]).
  - intros x Hx. rewrite <- Hs in Hx. simpl. by apply tally_increment_inode.
  - by apply accounted_same.
Qed.

Lemma delete_leaf_accounted l e :
  ∃ e', delete_leaf l e = (Ret tt, e') ∧ accounted e e' (λ o, - leaf_cost (get_size l) o).
Proof.
  eexists. split; [done|]. intros x Hx. simpl. eapply tally_is_ext; [by apply tally_decrement_leaf|].
  intros o. simpl. lia.
Qed.

Lemma delete_inode_accounted t e :
  ∃ e', delete_inode t e = (Ret tt, e') ∧ accounted e e' (λ o, - inode_cost t o).
Proof.
  eexists. split; [done|]. intros x Hx. simpl. eapply tally_is_ext; [by apply tally_decrement_inode|].
  intros o. simpl. lia.
Qed.

Lemma create_cases {A} t leaf (construct : option A) a e :
  construct = Some a →
  ∃ r e', create t (delete_leaf leaf) construct e = (r, e') ∧
    ((r = Ret a ∧ accounted e e' (inode_cost t)) ∨
     (r = Throw bad_alloc ∧ accounted e e' (λ o, - leaf_cost (get_size leaf) o))).
Proof.
  intros ->. unfold create, on_throw, bind.
  destruct (allocate_inode_cases t e) as (r & e' & -> & [[-> Ha]|[-> Ha]]).
  - eexists _, _. split; [done|]. by left.
  - destruct (delete_leaf_accounted leaf e') as (e'' & -> & Hd). eexists _, _. split; [done|]. right.
    split; [done|]. eapply accounted_trans; [done|done|]. intros. simpl. lia.
Qed.

(** ** Contents *)

(** A leaf under a new byte. *)
Lemma reps_add_leaf pre es kvs b l key v :
  sorted es → reps pre es kvs → assoc b es = None → leaf_holds l key v → (pre ++ [b]) `prefix_of` key →
  reps pre (ins b (LeafP l) es) (ins key v kvs) ∧ assoc key kvs = None.
Proof.
  intros Hs Hr Ha Hl Hp. destruct (reps_focus _ _ _ b Hs Hr) as (L & kv & R & -> & Hc & Hlr & Hins & _).
  destruct (Hlr key Hp) as [HL HR]. rewrite Ha in Hc. subst kv.
  rewrite ins_middle, assoc_middle by done. split; [|done]. apply (Hins (LeafP l) [(key, v)]). by constructor.
Qed.

(** What an insertion of [(k, v)] in a subtree does. *)
Definition inserted (k : art_key) (v : list Z) (pre : list Z) (p : node_ptr) (kvs : list (list Z * list Z))
    (e : env) (r : res bool) (p' : node_ptr) (e' : env) : Prop :=
  match assoc (get_key_view k) kvs with
  | Some _ => r = Ret false ∧ p' = p ∧ e' = e
  | None =>
      (r = Ret true ∧ allowed k v ∧ rep pre p' (ins (get_key_view k) v kvs) ∧
       accounted e e' (λ o, total o p' - total o p)) ∨
      (∃ x, r = Throw x ∧ (x = length_error ↔ ¬ allowed k v) ∧ p' = p ∧ accounted e e' (λ _, 0))
  end.

(** ** The three ways to add a leaf *)

Lemma lift_bind {A B} (m : M env A) (f : A → M world B) p e r e' :
  m e = (r, e') →
  bind (lift m) f (World p e) =
    match r with
    | Ret a => f a (World p e')
    | Throw x => (Throw x, World p e')
    | UB => (UB, World p e')
    | OutOfFuel => (OutOfFuel, World p e')
    end.
Proof. intros Hm. unfold bind, lift. cbn [wenv slot]. rewrite Hm. by destruct r. Qed.

(** A new leaf and a new node of four above it and what was there. *)
Lemma split_cases k v p e (construct : basic_leaf → option (inode_4 node_ptr)) (rest : M world bool) :
  (allowed k v → is_Some (construct (leaf_of k v))) →
  (∀ p' e1, ∃ e2, rest (World p' e1) = (Ret true, World p' e2) ∧ accounted e1 e2 (λ _, 0)) →
  ∃ r p' e',
    (leaf <- lift (make_db_leaf_ptr k v);
     new_node <- lift (create I4 (delete_leaf leaf) (construct leaf));
     set_slot (InodeP (N4 new_node));;
     rest)%monad (World p e) = (r, World p' e') ∧
    ((r = Ret true ∧ allowed k v ∧ (∃ n, construct (leaf_of k v) = Some n ∧ p' = InodeP (N4 n)) ∧
      accounted e e' (λ o, leaf_cost (get_size (leaf_of k v)) o + inode_cost I4 o)) ∨
     (∃ x, r = Throw x ∧ (x = length_error ↔ ¬ allowed k v) ∧ p' = p ∧ accounted e e' (λ _, 0))).
Proof.
  intros Hc Hrest. destruct (make_leaf_cases k v e) as (r1 & e1 & Hm & Hcase). rewrite (lift_bind _ _ _ _ _ _ Hm).
  destruct Hcase as [(-> & Hal & H1)|(x & -> & Hx & H1)]; [|eexists _, _, _; split; [done|]; right; by exists x].
  destruct (Hc Hal) as [n Hn]. destruct (create_cases I4 (leaf_of k v) _ n e1 Hn) as (r2 & e2 & Hm2 & Hcase).
  rewrite (lift_bind _ _ _ _ _ _ Hm2). destruct Hcase as [[-> H2]|[-> H2]].
  - unfold bind at 1, set_slot. cbn [wenv]. destruct (Hrest (InodeP (N4 n)) e2) as (e3 & -> & H3).
    eexists _, _, _. split; [done|]. left. split_and!; [done..|by exists n|].
    eapply accounted_trans; [exact H1| |done]. eapply accounted_trans; [exact H2|exact H3|]. intros. simpl. lia.
  - eexists _, _, _. split; [done|]. right. exists bad_alloc. split_and!; [done| |done|].
    + split; [done|]. by intros [].
    + eapply accounted_trans; [exact H1|exact H2|]. intros. simpl. lia.
Qed.

Lemma counting_cases f (rest : M world bool) :
  (∀ s x, tally_is s x → tally_is (f s) x) →
  (∀ p' e1, ∃ e2, rest (World p' e1) = (Ret true, World p' e2) ∧ accounted e1 e2 (λ _, 0)) →
  ∀ p' e1, ∃ e2, (lift (with_stats f);; rest)%monad (World p' e1) = (Ret true, World p' e2) ∧
    accounted e1 e2 (λ _, 0).
Proof.
  intros Hf Hrest p' e1. erewrite lift_bind by done.
  destruct (Hrest p' (Env (f (env_stats e1)) (env_heap e1))) as (e2 & -> & H2). exists e2. split; [done|].
  eapply accounted_trans; [by apply accounted_silent|exact H2|done].
Qed.

Lemma ret_cases p' e1 :
  ∃ e2, (ret true : M world bool) (World p' e1) = (Ret true, World p' e2) ∧ accounted e1 e2 (λ _, 0).
Proof. exists e1. split; [done|by apply accounted_same]. Qed.

(** Splitting a leaf. *)
Lemma insert_leaf_case fuel k v pre l kvs e :
  rep pre (LeafP l) kvs → pre `prefix_of` get_key_view k → search_ok k kvs.*1 →
  compact_at (length pre) (get_key_view k :: kvs.*1) →
  ∃ r p' e',
    insert_loop (S fuel) k v (Z.of_nat (length pre)) (shifted k (length pre)) (World (LeafP l) e) =
      (r, World p' e') ∧
    inserted k v pre (LeafP l) kvs e r p' e'.
Proof.
  intros Hr Hpre [Hk Hks] Hcomp. inversion Hr as [? ? k0 v0 Hl Hp|]; subst.
  cbn [insert_loop]. unfold bind at 1, get_slot. cbn [slot]. unfold inserted.
  rewrite cmp_compare, (leaf_holds_key _ _ _ Hl). destruct (Z.eqb_spec (compare (get_key_view k) k0) 0) as [Heq|Hne].
  { apply compare_zero in Heq. rewrite Heq, assoc_single_eq. eexists _, _, _. split; [done|]. by split_and!. }
  rewrite compare_zero in Hne. rewrite assoc_single_ne by done.
  apply Forall_cons in Hks as [[?|[n Hn]] _]; [done|]. simpl in Hn.
  pose proof (diverge_prefix _ _ _ _ Hpre Hp Hn) as Hd.
  assert (Hm : (n ≤ length pre + 7)%nat).
  { destruct (Hcomp (get_key_view k) k0 n) as [?|(e'' & n' & He'' & Hd'' & Hn')]; [set_solver..|done|done|].
    exfalso. simpl in He''. rewrite elem_of_cons, list_elem_of_singleton in He''. destruct He'' as [->| ->].
    - by apply diverge_ne in Hd''.
    - assert (n = n') as ->; [|lia]. by eapply diverge_unique. }
  replace n with (length pre + (n - length pre))%nat in Hn by lia. set (m := (n - length pre)%nat) in *.
  pose proof Hl as (_ & _ & _ & Hk0 & Hk0l & _).
  destruct (i4_create_leaves k0 k (length pre) m (LeafP l) (LeafP (leaf_of k v))) as
    (n4 & b1 & b2 & Hcr & Hwf & Hb1 & Hb2 & Hb12 & Hen & Hpl & Hpa); [done|done|by apply diverge_sym|lia|done..|].
  destruct (split_cases k v (LeafP l) e
    (λ leaf, create_leaves k0 (shifted k (length pre)) (Z.of_nat (length pre)) (LeafP l) (LeafP leaf))
    (lift (with_stats (account_growing_inode I4));; ret true)%monad) as (r & p' & e' & Heq & Hcase).
  { by rewrite Hcr. }
  { apply counting_cases; [intros s x; apply tally_growing|apply ret_cases]. }
  exists r, p', e'. split; [exact Heq|].
  destruct Hcase as [(-> & Hal & (n4' & Hcr' & ->) & Hacc)|?]; [left|by right].
  rewrite Hcr in Hcr'. injection Hcr' as <-.
  assert (Hrep : rep pre (InodeP (N4 n4)) (ins (get_key_view k) v [(k0, v0)])).
  { pose proof (prefix_at_take _ _ _ Hp Hpa) as Ht. rewrite Hpl in Ht.
    assert (Hlen : length (pre ++ prefix_bytes (k_prefix (i4_impl n4))) = (length pre + m)%nat)
      by (rewrite length_app, length_prefix_bytes; lia).
    constructor; [exact Hwf|]. change (entries (N4 n4)) with (i4_entries n4). rewrite Hen.
    change (get_key_prefix (N4 n4)) with (k_prefix (i4_impl n4)).
    apply reps_add_leaf; [apply sorted_single| |by apply assoc_single_ne|by apply leaf_of_holds; destruct Hal|].
    - apply reps_single. constructor; [done|]. apply prefix_snoc; by rewrite Hlen.
    - apply prefix_snoc; rewrite Hlen; [|done]. destruct Hn as [Hn _]. by rewrite Hn. }
  split_and!; [done..|]. eapply accounted_ext; [exact Hacc|]. intros o. cbn beta.
  rewrite (total_inode _ _ _ _ Hrep). change (entries (N4 n4)) with (i4_entries n4).
  rewrite Hen, sum_ins by apply sorted_single. rewrite assoc_single_ne by done.
  cbn [fmap list_fmap snd sum foldr]. rewrite !total_leaf. cbn [type]. lia.
Qed.

(** Splitting the prefix of a node. *)
Lemma create_prefix_rep k v pre n kvs sh :
  rep pre (InodeP n) kvs → pre `prefix_of` get_key_view k → key_wf k → allowed k v →
  let w := get_key_prefix n in
  (sh < prefix_length w)%nat → (∀ e, e ∈ kvs.*1 → diverge (get_key_view k) e (length pre + sh)) →
  ∃ n4, create_prefix (InodeP n) sh (Z.of_nat (length pre)) (LeafP (leaf_of k v)) = Some n4 ∧
    rep pre (InodeP (N4 n4)) (ins (get_key_view k) v kvs) ∧
    ∀ o, total o (InodeP (N4 n4)) = total o (InodeP n) + leaf_cost (get_size (leaf_of k v)) o + inode_cost I4 o.
Proof.
  intros Hr Hpre Hk [Hkl Hvl] w Hsh Hdiv. pose proof (leaf_of_holds k v Hk Hkl Hvl) as Hl.
  pose proof (rep_sorted _ _ _ Hr) as Hsort.
  destruct kvs as [|[e0 v0] kvs0] eqn:Hkvs; [by apply rep_nonempty in Hr|]. rewrite <- Hkvs in *.
  assert (He0 : e0 ∈ kvs.*1) by (rewrite Hkvs; apply elem_of_cons; by left).
  destruct (rep_prefix_at _ _ _ _ Hr He0) as (Hw & _ & He0l & Hat & [y Hy]). fold w in Hw, Hat, Hy.
  destruct (Hdiv e0 He0) as [Ht (b & b0 & Hb & Hb0 & Hbb)].
  pose proof (prefix_at_lookup _ _ _ _ Hat Hsh) as Hidx. rewrite Hb0 in Hidx. injection Hidx as ->.
  pose proof (Forall_lookup_1 _ _ _ _ (get_key_view_is_bytes k Hk) Hb) as Hbyte.
  destruct (i4_create_prefix (InodeP n) sh (length pre) (LeafP (leaf_of k v)) b) as
    (n4 & Hcr & Hwf & Hen & Hbytes);
    [exact Hw|exact Hsh|destruct Hat; lia| |exact Hbyte|exact Hbb|done..|].
  { change (leaf_key_view (LeafP (leaf_of k v))) with (leaf_get_key_view (leaf_of k v)).
    by rewrite (leaf_holds_key _ _ _ Hl). }
  change (ptr_key_prefix (InodeP n)) with w in *.
  change (ptr_map_prefix (λ w, cut w (sh + 1)) (InodeP n)) with (InodeP (set_key_prefix (cut w (sh + 1)) n)) in Hen.
  pose proof (rep_split_prefix _ _ _ sh Hr Hsh) as Hsplit. fold w in Hsplit. rewrite app_assoc in Hsplit.
  assert (Hrep : rep pre (InodeP (N4 n4)) (ins (get_key_view k) v kvs)).
  { constructor; [exact Hwf|]. change (entries (N4 n4)) with (i4_entries n4).
    change (get_key_prefix (N4 n4)) with (k_prefix (i4_impl n4)). rewrite Hen, Hbytes.
    assert (Hlen : length (pre ++ take sh (prefix_bytes w)) = (length pre + sh)%nat)
      by (rewrite length_app, length_take, length_prefix_bytes; lia).
    apply reps_add_leaf; [apply sorted_single|by apply reps_single|by apply assoc_single_ne|done|].
    apply prefix_snoc; rewrite Hlen; [|done].
    rewrite Ht, Hy, <- app_assoc, take_app_add. f_equal. by rewrite take_app_le by (rewrite length_prefix_bytes; lia). }
  exists n4. split; [done|]. split; [done|]. intros o.
  rewrite (total_inode _ _ _ _ Hrep). change (entries (N4 n4)) with (i4_entries n4).
  rewrite Hen, sum_ins by apply sorted_single. rewrite assoc_single_ne by done.
  cbn [fmap list_fmap snd sum foldr]. rewrite (total_set_prefix _ _ _ _ _ _ _ Hr Hsplit) by by apply cut_wf.
  rewrite total_leaf. cbn [type]. lia.
Qed.

(** Adding the leaf to the node, in place or in the next larger type. *)
Lemma add_cases k v p n b d e :
  node_wf n → key_wf k → is_byte b → assoc b (entries n) = None →
  get_key_view k !! d = Some b →
  ∃ r p' e', add_or_choose_subtree n b k v (Z.of_nat d) (World p e) = (r, World p' e') ∧
    ((r = Ret None ∧ allowed k v ∧
      (∃ n', p' = InodeP n' ∧ node_wf n' ∧ entries n' = ins b (LeafP (leaf_of k v)) (entries n) ∧
         get_key_prefix n' = get_key_prefix n ∧
         accounted e e' (λ o, leaf_cost (get_size (leaf_of k v)) o + inode_cost (type n') o - inode_cost (type n) o))) ∨
     (∃ x, r = Throw x ∧ (x = length_error ↔ ¬ allowed k v) ∧ p' = p ∧ accounted e e' (λ _, 0))).
Proof.
  intros Hw Hk Hb Ha Hd. pose proof (find_child_entry n b Hw Hb) as Hf. rewrite Ha in Hf.
  unfold add_or_choose_subtree. rewrite Hf. cbn [snd child_not_found].
  destruct (make_leaf_cases k v e) as (r1 & e1 & Hm & Hcase). rewrite (lift_bind _ _ _ _ _ _ Hm).
  destruct Hcase as [(-> & Hal & H1)|(x & -> & Hx & H1)]; [|eexists _, _, _; split; [done|]; right; by exists x].
  pose proof (leaf_of_holds k v Hk (proj1 Hal) (proj2 Hal)) as Hl.
  assert (Hlk : leaf_key_view (LeafP (leaf_of k v)) !! Z.to_nat (Z.of_nat d) = Some b).
  { rewrite Nat2Z.id. change (leaf_get_key_view (leaf_of k v) !! d = Some b). by rewrite (leaf_holds_key _ _ _ Hl). }
  destruct (bool_decide (type n = I256)) eqn:Ht; cbn [negb andb];
    [|destruct (Z.eqb_spec (get_children_count n) (inode_capacity (type n))) as [Hfull|Hfull]].
  2: {
    apply bool_decide_eq_false in Ht.
    destruct (inode_grow n _ _ b Hw Ht Hfull Hlk Hb eq_refl Ha) as (n' & Hcr & Hw' & He' & Hp' & Ht').
    destruct (create_cases (larger_type (type n)) (leaf_of k v) _ n' e1 Hcr) as (r2 & e2 & Hm2 & Hcase).
    rewrite (lift_bind _ _ _ _ _ _ Hm2). destruct Hcase as [[-> H2]|[-> H2]].
    - destruct (delete_inode_accounted (type n) e2) as (e3 & Hm3 & H3). rewrite (lift_bind _ _ _ _ _ _ Hm3).
      unfold bind at 1, set_slot. cbn [wenv]. erewrite lift_bind by done.
      eexists _, _, _. split; [done|]. left. split_and!; [done..|]. exists n'. split_and!; [done..|].
      eapply accounted_ext; [eapply accounted_app; [exact H1|]; eapply accounted_app; [exact H2|];
        eapply accounted_app; [exact H3|by apply accounted_silent; intros s y; apply tally_growing]|].
      intros o. rewrite Ht'. cbn beta. lia.
    - eexists _, _, _. split; [done|]. right. exists bad_alloc. split_and!; [done| |done|].
      + split; [done|]. by intros [].
      + eapply accounted_trans; [exact H1|exact H2|]. intros. simpl. lia. }
  all: destruct (inode_add n (LeafP (leaf_of k v)) (Z.of_nat d) b Hw) as (n' & Hadd & Hw' & He' & Hp' & Ht');
    [|exact Hlk|exact Hb|done|exact Ha|].
  1: apply inode_256_not_full; [done|]; by apply bool_decide_eq_true in Ht.
  2: done.
  all: rewrite Hadd; cbn [of_option]; rewrite bind_ret; eexists _, _, _; (split; [done|]); left;
    split_and!; [done..|]; exists n'; split_and!; [done..|];
    eapply accounted_ext; [exact H1|]; intros o; rewrite Ht'; lia.
Qed.

(** ** The loop *)

Lemma rep_not_null pre p kvs : rep pre p kvs → is_null p = false.
Proof. by inversion 1. Qed.

(** What an insertion in a child does, seen from its parent. *)
Lemma inserted_child k v pre n kvs b i s c kv (L R : list (list Z * list Z)) e r c' e' :
  let pre' := pre ++ prefix_bytes (get_key_prefix n) in
  rep pre (InodeP n) kvs → is_byte b → find_child n b = (i, Some s) → slot_load n s = Some c →
  assoc b (entries n) = Some c → kvs = L ++ kv ++ R →
  below L (get_key_view k) → above R (get_key_view k) →
  (∀ c' kv', rep (pre' ++ [b]) c' kv' → reps pre' (ins b c' (entries n)) (L ++ kv' ++ R)) →
  inserted k v (pre' ++ [b]) c kv e r c' e' →
  inserted k v pre (InodeP n) kvs e r (InodeP (slot_store n s c')) e'.
Proof.
  intros pre' Hr Hb Hf Hl Ha -> HL HR Hins Hc. unfold inserted in *. rewrite assoc_middle by done.
  destruct (assoc (get_key_view k) kv).
  { destruct Hc as (-> & -> & ->). by rewrite slot_store_same. }
  destruct Hc as [(-> & Hal & Hrep & Hacc)|(x & -> & Hx & -> & Hacc)].
  - left. inversion Hr as [|? ? ? Hwf _]; subst.
    destruct (slot_store_spec n b i s c' Hwf Hb Hf (rep_not_null _ _ _ Hrep)) as (Hw' & He' & _).
    assert (Hrep' : rep pre (InodeP (slot_store n s c')) (ins (get_key_view k) v (L ++ kv ++ R))).
    { constructor; [done|]. rewrite get_key_prefix_slot_store, He', ins_middle by done. by apply Hins. }
    split_and!; [done..|]. eapply accounted_ext; [exact Hacc|]. intros o. cbn beta.
    rewrite (total_ins _ _ _ _ _ _ _ _ Hr Hrep' He'), Ha, type_slot_store. lia.
  - right. exists x. by rewrite slot_store_same.
Qed.

(** A leaf added to the node itself. *)
Lemma inserted_here k v pre n kvs b e e' n' :
  rep pre (InodeP n) kvs → key_wf k → allowed k v → assoc b (entries n) = None →
  (pre ++ prefix_bytes (get_key_prefix n) ++ [b]) `prefix_of` get_key_view k →
  node_wf n' → entries n' = ins b (LeafP (leaf_of k v)) (entries n) → get_key_prefix n' = get_key_prefix n →
  accounted e e' (λ o, leaf_cost (get_size (leaf_of k v)) o + inode_cost (type n') o - inode_cost (type n) o) →
  inserted k v pre (InodeP n) kvs e (Ret true) (InodeP n') e'.
Proof.
  intros Hr Hk Hal Ha Hp Hw' He' Hp' Hacc. inversion Hr as [|? ? ? Hwf Hrs]; subst. rewrite app_assoc in Hp.
  destruct (reps_add_leaf _ _ _ b (leaf_of k v) (get_key_view k) v (wf_sorted n Hwf) Hrs Ha) as [Hrs' Hnone];
    [by apply leaf_of_holds; destruct Hal|done|].
  unfold inserted. rewrite Hnone. left.
  assert (Hrep' : rep pre (InodeP n') (ins (get_key_view k) v kvs)) by (constructor; [done|by rewrite Hp', He']).
  split_and!; [done..|]. eapply accounted_ext; [exact Hacc|]. intros o. cbn beta.
  rewrite (total_ins _ _ _ _ _ _ _ _ Hr Hrep' He'), Ha, total_leaf. lia.
Qed.

Lemma inserted_throw k v pre p kvs e e' x :
  assoc (get_key_view k) kvs = None → (x = length_error ↔ ¬ allowed k v) → accounted e e' (λ _, 0) →
  inserted k v pre p kvs e (Throw x) p e'.
Proof. intros Ha Hx Hacc. unfold inserted. rewrite Ha. right. by exists x. Qed.

Lemma insert_loop_spec fuel k v pre p kvs e :
  rep pre p kvs → pre `prefix_of` get_key_view k → search_ok k kvs.*1 →
  compact_at (length pre) (get_key_view k :: kvs.*1) → (key_size_of k < length pre + fuel)%nat →
  ∃ r p' e',
    insert_loop fuel k v (Z.of_nat (length pre)) (shifted k (length pre)) (World p e) = (r, World p' e') ∧
    inserted k v pre p kvs e r p' e'.
Proof.
  revert pre p kvs e. induction fuel as [|fuel IH]; intros pre p kvs e Hr Hpre Hok Hcomp Hfuel.
  { destruct Hpre as [x Hx]. apply (f_equal length) in Hx. rewrite length_get_key_view, length_app in Hx. lia. }
  destruct p as [|l|n]; [by inversion Hr|by apply insert_leaf_case|].
  pose proof (rep_sorted _ _ _ Hr) as Hsort. pose proof Hok as [Hk _].
  destruct (descend _ _ _ _ Hr Hpre Hok) as (Hw & Hd & Hcase). cbn [insert_loop].
  unfold bind at 1, get_slot. cbn [slot].
  destruct Hcase as [[Hsh Hdiv]|(Hsh & b & Hb & Hpb & Hlt & Hs1 & Hidx & Hs2)].
  - rewrite (proj2 (Nat.ltb_lt _ _)) by done. unfold inserted. rewrite (assoc_diverge _ _ _ Hsort Hdiv).
    set (sh := get_shared_length _ _) in *.
    destruct (split_cases k v (InodeP n) e
      (λ leaf, create_prefix (InodeP n) sh (Z.of_nat (length pre)) (LeafP leaf))
      (lift (with_stats (account_growing_inode I4));; lift (with_stats count_prefix_split);; ret true)%monad)
      as (r & p' & e' & Heq & Hcase).
    { intros Hal. destruct (create_prefix_rep k v pre n kvs sh Hr Hpre Hk Hal Hsh Hdiv) as (n4 & -> & _). done. }
    { apply counting_cases; [intros s x; apply tally_growing|].
      apply counting_cases; [intros s x; apply tally_prefix_split|apply ret_cases]. }
    exists r, p', e'. split; [exact Heq|]. destruct Hcase as [(-> & Hal & (n4 & Hcr & ->) & Hacc)|?]; [left|by right].
    destruct (create_prefix_rep k v pre n kvs sh Hr Hpre Hk Hal Hsh Hdiv) as (n4' & Hcr' & Hrep & Htot).
    rewrite Hcr' in Hcr. injection Hcr as <-. split_and!; [done..|].
    eapply accounted_ext; [exact Hacc|]. intros o. cbn beta. rewrite Htot. lia.
  - rewrite (proj2 (Nat.ltb_ge _ _)) by lia. rewrite Hs1. cbn [of_option]. rewrite bind_ret, Hidx.
    cbn [of_option]. rewrite bind_ret. pose proof Hr as Hr0. inversion Hr as [|? ? ? Hwf Hrs]; subst.
    pose proof (find_child_entry n b Hwf Hb) as Hf.
    destruct (reps_focus _ _ _ b (wf_sorted n Hwf) Hrs) as (L & kv & R & -> & Hc & Hlr & Hins & _).
    destruct (Hlr (get_key_view k)) as [HL HR]; [by rewrite <- app_assoc|].
    unfold depth_add at 1 2. rewrite (wrap_small 32) by lia. rewrite <- Nat2Z.inj_add.
    set (d := (length pre + prefix_length (get_key_prefix n))%nat) in *.
    assert (Hlen : length (pre ++ prefix_bytes (get_key_prefix n)) = d)
      by (rewrite length_app, length_prefix_bytes; done).
    destruct (assoc b (entries n)) as [c|] eqn:Ha.
    + destruct Hf as (i & s & Hf & _ & Hl). unfold bind at 1, add_or_choose_subtree. rewrite Hf. cbn [snd].
      unfold ret. rewrite Hs2. cbn [of_option]. rewrite bind_ret.
      unfold depth_inc. rewrite (wrap_small 32) by lia. change 1 with (Z.of_nat 1). rewrite <- Nat2Z.inj_add.
      destruct (IH ((pre ++ prefix_bytes (get_key_prefix n)) ++ [b]) c kv e Hc) as (r & c' & e' & Hrun & Hin).
      * by rewrite <- app_assoc.
      * by eapply search_ok_middle.
      * rewrite length_app, Hlen. cbn [length]. rewrite <- Hlen.
        apply (compact_focus (length pre) _ b (get_key_view k :: (L ++ kv ++ R).*1)); [done|rewrite Hlen; lia|..].
        { intros e0. rewrite !elem_of_cons, !fmap_app, !elem_of_app. tauto. }
        { intros e0 [->|He]%elem_of_cons; [by rewrite <- app_assoc|]. by eapply rep_key_prefix. }
        { intros e0 [->|He]%elem_of_cons Hp; apply elem_of_cons; [by left|right]. by eapply middle_keys. }
      * rewrite length_app, Hlen. cbn [length]. lia.
      * rewrite length_app, Hlen in Hrun. cbn [length] in Hrun.
        eexists _, _, _. split; [by eapply focus_run|]. by eapply inserted_child.
    + subst kv. destruct (add_cases k v (InodeP n) n b d e Hwf Hk Hb Ha) as (r & p' & e' & Hrun & Hcase).
      { destruct Hpb as [x ->]. rewrite app_assoc, <- app_assoc, <- Hlen. by apply list_lookup_middle. }
      destruct Hcase as [(-> & Hal & n' & -> & Hw' & He' & Hp' & Hacc)|(x & -> & Hx & -> & Hacc)].
      * rewrite (bind_Ret _ _ _ _ _ Hrun). eexists _, _, _. split; [done|]. by eapply inserted_here.
      * rewrite (bind_Throw _ _ _ _ _ Hrun). eexists _, _, _. split; [done|].
        apply inserted_throw; [by rewrite assoc_middle|done|done].
Qed.

(** ** The whole operation *)

Definition db_inserted (k : art_key) (v : list Z) (root : node_ptr) (kvs : list (list Z * list Z))
    (e : env) (r : res bool) (root' : node_ptr) (e' : env) : Prop :=
  match assoc (get_key_view k) kvs with
  | Some _ => r = Ret false ∧ root' = root ∧ e' = e
  | None =>
      (r = Ret true ∧ allowed k v ∧ root_rep root' (ins (get_key_view k) v kvs) ∧
       accounted e e' (λ o, total o root' - total o root)) ∨
      (∃ x, r = Throw x ∧ (x = length_error ↔ ¬ allowed k v) ∧ root' = root ∧ accounted e e' (λ _, 0))
  end.

Lemma insert_empty k v e :
  key_wf k →
  ∃ r root' e', insert_internal k v (World Null e) = (r, World root' e') ∧ db_inserted k v Null [] e r root' e'.
Proof.
  intros Hk. unfold insert_internal, bind at 1, get_slot. cbn [slot]. unfold db_inserted. cbn [assoc].
  destruct (make_leaf_cases k v e) as (r & e1 & Hm & Hcase). rewrite (lift_bind _ _ _ _ _ _ Hm).
  destruct Hcase as [(-> & [Hkl Hvl] & Hacc)|(x & -> & Hx & Hacc)]; eexists _, _, _; (split; [done|]);
    [left|right; by exists x].
  split_and!; [done..| |].
  - right. constructor; [by apply leaf_of_holds|by apply prefix_nil].
  - eapply accounted_ext; [exact Hacc|]. intros o. rewrite total_leaf. unfold total. cbn [height total_upto]. lia.
Qed.

Lemma insert_internal_spec k v root kvs e :
  root_rep root kvs → search_ok k kvs.*1 → compact (get_key_view k :: kvs.*1) →
  ∃ r root' e', insert_internal k v (World root e) = (r, World root' e') ∧ db_inserted k v root kvs e r root' e'.
Proof.
  intros [[-> ->]|Hr] Hok Hc; [by apply insert_empty; destruct Hok|].
  destruct (insert_loop_spec (loop_fuel k) k v [] root kvs e Hr) as (r & root' & e' & Hrun & Hin);
    [apply prefix_nil|done|exact Hc|unfold loop_fuel; simpl; lia|].
  cbn [length] in Hrun. rewrite shifted_0 in Hrun. change (Z.of_nat 0) with 0 in Hrun.
  exists r, root', e'. split.
  - unfold insert_internal, bind, get_slot. cbn [slot]. pose proof (rep_not_null _ _ _ Hr).
    destruct root; [done|exact Hrun..].
  - unfold db_inserted, inserted in *. destruct (assoc _ kvs); [done|].
    destruct Hin as [(? & ? & ? & ?)|?]; [left|by right]. split_and!; [done..|by right|done].
Qed.
End insert.
