(* ===== verification/DbRemove.v ===== *)
(** Correctness of removal and of the deletion of subtrees. *)

From S2P Require Import Prelude Words ArtKey KeyPrefix SortedAssoc Simd InodeBase.
From S2P Require Import Inode4 Inode16 Inode48 Inode256 Heap Stats Leaf.
From S2P Require Import InodeSpec Inode Tree Db DbLookup DbInsert.

Section remove.
Context `{Target, Allocator}.

(** What a removal of [k] from a subtree does. *)
Definition removed (k : art_key) (pre : list Z) (p : node_ptr) (kvs : list (list Z * list Z))
    (e : env) (r : res bool) (p' : node_ptr) (e' : env) : Prop :=
  match assoc (get_key_view k) kvs with
  | None => r = Ret false ∧ p' = p ∧ e' = e
  | Some _ =>
      (r = Ret true ∧ rep pre p' (del (get_key_view k) kvs) ∧ accounted e e' (λ o, total o p' - total o p)) ∨
      (r = Throw bad_alloc ∧ p' = p ∧ accounted e e' (λ _, 0))
  end.

Lemma removed_absent k pre p kvs e :
  assoc (get_key_view k) kvs = None → removed k pre p kvs e (Ret false) p e.
Proof. intros Ha. unfold removed. by rewrite Ha. Qed.

(** ** Merging a node of four with its last child *)

(** Two keys of a node part right after its prefix. *)
Lemma rep_inode_diverge pre n kvs :
  rep pre (InodeP n) kvs →
  ∃ e1 e2, e1 ∈ kvs.*1 ∧ e2 ∈ kvs.*1 ∧ diverge e1 e2 (length pre + prefix_length (get_key_prefix n)).
Proof.
  intros Hr. inversion Hr as [|? ? ? Hw Hrs]; subst.
  destruct (inode_count n Hw) as [Hc _]. pose proof (min_size_ge_2 n) as Hm.
  change (min_size n) with (inode_min_size (type n)) in Hm.
  pose proof (wf_sorted n Hw) as Hs. set (path := pre ++ prefix_bytes (get_key_prefix n)) in *.
  assert (Hlen : length path = (length pre + prefix_length (get_key_prefix n))%nat)
    by (unfold path; rewrite length_app, length_prefix_bytes; done).
  destruct (entries n) as [|[b1 c1] [|[b2 c2] es]]; cbn [length] in Hc; [lia..|].
  inversion Hrs as [|? ? ? ? kv1 kvs' Hc1 Hrs']; subst.
  inversion Hrs' as [|? ? ? ? kv2 kvs'' Hc2 _]; subst.
  apply sorted_cons in Hs as [Ha _]. rewrite above_byte in Ha. apply Forall_cons in Ha as [Hb _]. simpl in Hb.
  destruct kv1 as [|[e1 v1] kv1]; [by apply rep_nonempty in Hc1|].
  destruct kv2 as [|[e2 v2] kv2]; [by apply rep_nonempty in Hc2|].
  destruct (rep_key_prefix _ _ _ e1 Hc1) as [x1 H1]; [apply elem_of_cons; by left|].
  destruct (rep_key_prefix _ _ _ e2 Hc2) as [x2 H2]; [apply elem_of_cons; by left|].
  exists e1, e2. rewrite <- Hlen. split_and!.
  - apply elem_of_cons. by left.
  - rewrite !fmap_app, !elem_of_app. right. left. apply elem_of_cons. by left.
  - rewrite <- app_assoc in H1, H2. cbn [app] in H1, H2. split; [by rewrite H1, H2, !take_app_length|].
    exists b1, b2. rewrite H1, H2, !list_lookup_middle by done. split_and!; [done..|lia].
Qed.

(** In a compact key set the merged prefix fits. *)
Lemma compact_merge d path n kvs :
  rep path (InodeP n) kvs → compact_at d kvs.*1 →
  (length path + prefix_length (get_key_prefix n) ≤ d + 7)%nat.
Proof.
  intros Hr Hc. destruct (rep_inode_diverge _ _ _ Hr) as (e1 & e2 & H1 & H2 & Hd).
  destruct (Hc e1 e2 _ H1 H2 Hd) as [?|(e3 & n' & H3 & Hd' & Hn)]; [done|]. exfalso.
  destruct (rep_prefix_at _ _ _ _ Hr H1) as (_ & _ & _ & _ & Hp1).
  destruct (rep_prefix_at _ _ _ _ Hr H3) as (_ & _ & _ & _ & Hp3).
  pose proof (diverge_prefix _ _ _ _ Hp1 Hp3 Hd') as Hn'. rewrite length_app, length_prefix_bytes in Hn'. lia.
Qed.

(** Removing one of the two children of a node of four. *)
Lemma leave_last_rep pre (n : inode_4 node_ptr) kvs kvs' i b l :
  let es := i4_entries n in
  rep pre (InodeP (N4 n)) kvs → children_count (i4_impl n) = 2 → child_at (N4 n) i b (LeafP l) →
  reps (pre ++ prefix_bytes (k_prefix (i4_impl n))) (del b es) kvs' → compact_at (length pre) kvs'.*1 →
  ∃ p', leave_last_child n i = Some (p', LeafP l) ∧ rep pre p' kvs' ∧
    ∀ o, total o (InodeP (N4 n)) = inode_cost I4 o + leaf_cost (get_size l) o + total o p'.
Proof.
  intros es Hr Hcnt Hat Hrs' Hc. inversion Hr as [|? ? ? Hwf Hrs]; subst.
  destruct (i4_leave_last n i b (LeafP l) Hwf Hcnt Hat) as (b' & c' & Hdel & Ha' & Hne & Hl). fold es in Hdel, Ha'.
  rewrite Hl. set (w := k_prefix (i4_impl n)) in *. clear Hl.
  pose proof (inode_prefix_wf (N4 n) Hwf : prefix_wf w) as Hw.
  assert (Hb' : is_byte b').
  { pose proof (wf_bytes (N4 n) Hwf) as Hb. rewrite Forall_forall in Hb.
    apply (Hb (b', c')), assoc_elem; [exact (wf_sorted (N4 n) Hwf)|exact Ha']. }
  rewrite Hdel in Hrs'. apply reps_single in Hrs'. rewrite <- app_assoc in Hrs'.
  assert (Hfit : (prefix_length (ptr_key_prefix c') + prefix_length w < 7)%nat ∨ is_leaf c' = true).
  { destruct c' as [| |n2]; [by right..|left]. pose proof (compact_merge _ _ _ _ Hrs' Hc) as Hm.
    rewrite !length_app, length_prefix_bytes in Hm. cbn [length] in Hm.
    change (ptr_key_prefix (InodeP n2)) with (get_key_prefix n2). lia. }
  pose proof (rep_prepend _ _ _ _ _ Hrs' Hw Hb' Hfit) as Hrep. eexists. split; [done|]. split; [exact Hrep|].
  intros o. rewrite (total_inode _ _ _ _ Hr).
  pose proof (sum_del (total o) b es (wf_sorted (N4 n) Hwf)) as Hsum.
  pose proof (child_at_entry (N4 n) i b (LeafP l) Hwf Hat : assoc b es = Some (LeafP l)) as Hab.
  rewrite Hab, Hdel, total_leaf in Hsum. cbn [fmap list_fmap snd sum foldr] in Hsum.
  change (entries (N4 n)) with es. fold (sum (total o <$> es.*2)) in Hsum. cbn [type].
  assert (Hmap : total o (if is_leaf c' then c' else ptr_map_prefix (λ w', prepend w' w b') c') = total o c').
  { destruct c' as [| |n2]; [done..|]. revert Hrep. destruct (is_leaf (InodeP n2)) eqn:Hlf; [by destruct n2|].
    intros Hrep. destruct Hfit as [Hfit|]; [|done].
    eapply (total_set_prefix _ _ _ _ _ _ _ Hrs' Hrep).
    destruct (prepend_wf_bytes (get_key_prefix n2) w b') as [? _]; [|done..].
    apply inode_prefix_wf. by inversion Hrs'. }
  rewrite Hmap. lia.
Qed.

(** ** Removing a leaf from its node *)

Definition leaf_removed pre n kvs' e (r : res (option (option nat))) p' e' : Prop :=
  (r = Ret (Some None) ∧ rep pre p' kvs' ∧ accounted e e' (λ o, total o p' - total o (InodeP n))) ∨
  (r = Throw bad_alloc ∧ p' = InodeP n ∧ accounted e e' (λ _, 0)).

(** The node that replaces [n] has all its children but the leaf. *)
Lemma leaf_removed_entries pre n kvs kvs' b l n' e e' :
  rep pre (InodeP n) kvs → assoc b (entries n) = Some (LeafP l) →
  reps (pre ++ prefix_bytes (get_key_prefix n)) (del b (entries n)) kvs' →
  node_wf n' → entries n' = del b (entries n) → get_key_prefix n' = get_key_prefix n →
  accounted e e' (λ o, inode_cost (type n') o - inode_cost (type n) o - leaf_cost (get_size l) o) →
  leaf_removed pre n kvs' e (Ret (Some None)) (InodeP n') e'.
Proof.
  intros Hr Ha Hrs' Hw' He' Hp' Hacc. left.
  assert (Hrep : rep pre (InodeP n') kvs') by (constructor; [done|by rewrite Hp', He']).
  split_and!; [done..|]. eapply accounted_ext; [exact Hacc|]. intros o. cbn beta.
  rewrite (total_del _ _ _ _ _ _ _ Hr Hrep He'), Ha, total_leaf. lia.
Qed.

(** At the minimum size. *)
Lemma shrink_cases pre n kvs kvs' i b l e :
  rep pre (InodeP n) kvs → is_min_size n = true → type n ≠ I4 →
  child_at n i b (LeafP l) → assoc b (entries n) = Some (LeafP l) →
  reps (pre ++ prefix_bytes (get_key_prefix n)) (del b (entries n)) kvs' →
  ∃ r p' e',
    ((lift (allocate_inode (smaller_type (type n)));;
      ' (new_node, deleted) <- of_option (create_smaller n i);
      lift (reclaim_leaf deleted);;
      lift (delete_inode (type n));;
      set_slot (InodeP new_node));;
     lift (with_stats (account_shrinking_inode (type n)));;
     ret (Some None))%monad (World (InodeP n) e) = (r, World p' e') ∧
    leaf_removed pre n kvs' e r p' e'.
Proof.
  intros Hr Hmin Ht Hat Ha Hrs'. inversion Hr as [|? ? ? Hw _]; subst.
  rewrite bind_assoc.
  destruct (allocate_inode_cases (smaller_type (type n)) e) as (r1 & e1 & Hm1 & [[-> H1]|[-> H1]]);
    rewrite (lift_bind _ _ _ _ _ _ Hm1); [|by eexists _, _, _; split; [done|right]].
  destruct (inode_shrink n i b (LeafP l) Hw Ht Hmin Hat) as (n' & -> & Hw' & He' & Hp' & Ht').
  cbn [of_option]. rewrite bind_assoc, bind_ret, bind_assoc. cbn [reclaim_leaf].
  destruct (delete_leaf_accounted l e1) as (e2 & Hm2 & H2). rewrite (lift_bind _ _ _ _ _ _ Hm2), bind_assoc.
  destruct (delete_inode_accounted (type n) e2) as (e3 & Hm3 & H3). rewrite (lift_bind _ _ _ _ _ _ Hm3).
  eexists _, _, _. split; [done|]. eapply leaf_removed_entries; [done..|].
  eapply accounted_ext; [eapply accounted_app; [exact H1|]; eapply accounted_app; [exact H2|];
    eapply accounted_app; [exact H3|by apply accounted_silent; intros s y; apply tally_shrinking]|].
  intros o. rewrite Ht'. cbn beta. lia.
Qed.

Lemma leave_cases pre n kvs kvs' i b l e :
  rep pre (InodeP (N4 n)) kvs → is_min_size (N4 n) = true → child_at (N4 n) i b (LeafP l) →
  reps (pre ++ prefix_bytes (get_key_prefix (N4 n))) (del b (entries (N4 n))) kvs' →
  compact_at (length pre) kvs'.*1 →
  ∃ r p' e',
    ((' (child_to_leave, deleted) <- of_option (leave_last_child n i);
      lift (reclaim_leaf deleted);;
      set_slot child_to_leave;;
      lift (delete_inode I4));;
     lift (with_stats (account_shrinking_inode I4));;
     ret (Some None))%monad (World (InodeP (N4 n)) e) = (r, World p' e') ∧
    leaf_removed pre (N4 n) kvs' e r p' e'.
Proof.
  intros Hr Hmin Hat Hrs' Hc.
  destruct (leave_last_rep pre n kvs kvs' i b l Hr) as (p' & -> & Hrep & Htot); [|done..|].
  { unfold is_min_size in Hmin. by apply Z.eqb_eq in Hmin. }
  cbn [of_option]. rewrite bind_assoc, bind_ret, bind_assoc. cbn [reclaim_leaf].
  destruct (delete_leaf_accounted l e) as (e1 & Hm1 & H1). rewrite (lift_bind _ _ _ _ _ _ Hm1), bind_assoc.
  unfold bind at 1, set_slot. cbn [wenv].
  destruct (delete_inode_accounted I4 e1) as (e2 & Hm2 & H2). rewrite (lift_bind _ _ _ _ _ _ Hm2).
  eexists _, _, _. split; [done|]. left. split_and!; [done..|].
  eapply accounted_ext; [eapply accounted_app; [exact H1|]; eapply accounted_app; [exact H2|];
    by apply accounted_silent; intros s y; apply tally_shrinking|].
  intros o. rewrite Htot. cbn [slot]. lia.
Qed.

Lemma remove_leaf_cases k pre n kvs kvs' b l e :
  rep pre (InodeP n) kvs → is_byte b → assoc b (entries n) = Some (LeafP l) → matches l k = true →
  reps (pre ++ prefix_bytes (get_key_prefix n)) (del b (entries n)) kvs' →
  compact_at (length pre) kvs'.*1 →
  ∃ r p' e', remove_or_choose_subtree n b k (World (InodeP n) e) = (r, World p' e') ∧
    leaf_removed pre n kvs' e r p' e'.
Proof.
  intros Hr Hb Ha Hm Hrs' Hc. inversion Hr as [|? ? ? Hw _]; subst.
  pose proof (find_child_entry n b Hw Hb) as Hf. rewrite Ha in Hf. destruct Hf as (i & s & Hf & Hat & Hl).
  unfold remove_or_choose_subtree. rewrite Hf, Hl. cbn [of_option]. rewrite bind_ret, Hm. cbn [negb].
  destruct (is_min_size n) eqn:Hmin.
  - destruct n as [n|n|n|n].
    + exact (leave_cases pre n kvs kvs' i b l e Hr Hmin Hat Hrs' Hc).
    + by apply (shrink_cases pre (N16 n) kvs kvs' i b l e).
    + by apply (shrink_cases pre (N48 n) kvs kvs' i b l e).
    + by apply (shrink_cases pre (N256 n) kvs kvs' i b l e).
  - destruct (inode_remove n i b (LeafP l) Hw Hmin Hat) as (n' & -> & Hw' & He' & Hp' & Ht').
    cbn [of_option]. rewrite bind_ret. cbn [reclaim_leaf].
    destruct (delete_leaf_accounted l e) as (e2 & Hm2 & H2). rewrite (lift_bind _ _ _ _ _ _ Hm2).
    eexists _, _, _. split; [done|]. eapply leaf_removed_entries; [done..|].
    eapply accounted_ext; [exact H2|]. intros o. rewrite Ht'. lia.
Qed.

(** ** The loop *)

(** What a removal in a child does, seen from its parent. *)
Lemma removed_child k pre n kvs b i s c kv (L R : list (list Z * list Z)) e r c' e' :
  let pre' := pre ++ prefix_bytes (get_key_prefix n) in
  rep pre (InodeP n) kvs → is_byte b → find_child n b = (i, Some s) → slot_load n s = Some c →
  assoc b (entries n) = Some c → kvs = L ++ kv ++ R →
  below L (get_key_view k) → above R (get_key_view k) →
  (∀ c' kv', rep (pre' ++ [b]) c' kv' → reps pre' (ins b c' (entries n)) (L ++ kv' ++ R)) →
  removed k (pre' ++ [b]) c kv e r c' e' →
  removed k pre (InodeP n) kvs e r (InodeP (slot_store n s c')) e'.
Proof.
  intros pre' Hr Hb Hf Hl Ha -> HL HR Hins Hc. unfold removed in *. rewrite assoc_middle by done.
  destruct (assoc (get_key_view k) kv).
  2: { destruct Hc as (-> & -> & ->). by rewrite slot_store_same. }
  destruct Hc as [(-> & Hrep & Hacc)|(-> & -> & Hacc)].
  - left. inversion Hr as [|? ? ? Hwf _]; subst.
    destruct (slot_store_spec n b i s c' Hwf Hb Hf (rep_not_null _ _ _ Hrep)) as (Hw' & He' & _).
    assert (Hrep' : rep pre (InodeP (slot_store n s c')) (del (get_key_view k) (L ++ kv ++ R))).
    { constructor; [done|]. rewrite get_key_prefix_slot_store, He', del_middle by done. by apply Hins. }
    split_and!; [done..|]. eapply accounted_ext; [exact Hacc|]. intros o. cbn beta.
    rewrite (total_ins _ _ _ _ _ _ _ _ Hr Hrep' He'), Ha, type_slot_store. lia.
  - right. by rewrite slot_store_same.
Qed.

(** What the removal of a leaf of the node does. *)
Lemma removed_here k pre n kvs l kv (L R : list (list Z * list Z)) path e :
  rep path (LeafP l) kv → kvs = L ++ kv ++ R → below L (get_key_view k) → above R (get_key_view k) →
  if matches l k then
    del (get_key_view k) kvs = L ++ R ∧
    ∀ r' r p' e', leaf_removed pre n (L ++ R) e r' p' e' →
      r = (match r' with Ret _ => Ret true | Throw x => Throw x | UB => UB | OutOfFuel => OutOfFuel end) →
      removed k pre (InodeP n) kvs e r p' e'
  else removed k pre (InodeP n) kvs e (Ret false) (InodeP n) e.
Proof.
  intros Hc -> HL HR. inversion Hc as [? ? k0 v0 Hl Hp|]; subst.
  pose proof (leaf_holds_matches l k0 v0 k Hl) as Hm. destruct (matches l k).
  - assert (del (get_key_view k) (L ++ [(k0, v0)] ++ R) = L ++ R) as Hd.
    { rewrite del_middle, <- (proj1 Hm eq_refl) by done. f_equal. exact (f_equal (λ l, l ++ R) (del_here _ (Some v0))). }
    split; [done|]. intros r' r p' e' Hlr ->. unfold removed.
    rewrite assoc_middle, Hd, <- (proj1 Hm eq_refl), assoc_single_eq by done.
    destruct Hlr as [(-> & ? & ?)|(-> & ? & ?)]; [by left|by right].
  - apply removed_absent. rewrite assoc_middle by done. apply assoc_single_ne. intros Heq. by apply Hm in Heq.
Qed.

Lemma remove_loop_spec fuel k pre n kvs e :
  rep pre (InodeP n) kvs → pre `prefix_of` get_key_view k → search_ok k kvs.*1 →
  compact_at (length pre) (del (get_key_view k) kvs).*1 → (key_size_of k < length pre + fuel)%nat →
  ∃ r p' e',
    remove_loop fuel k (Z.of_nat (length pre)) (shifted k (length pre)) (World (InodeP n) e) = (r, World p' e') ∧
    removed k pre (InodeP n) kvs e r p' e'.
Proof.
  revert pre n kvs e. induction fuel as [|fuel IH]; intros pre n kvs e Hr Hpre Hok Hcomp Hfuel.
  { destruct Hpre as [x Hx]. apply (f_equal length) in Hx. rewrite length_get_key_view, length_app in Hx. lia. }
  pose proof (rep_sorted _ _ _ Hr) as Hsort. pose proof Hok as [Hk _].
  destruct (descend _ _ _ _ Hr Hpre Hok) as (Hw & Hd & Hcase). cbn [remove_loop].
  unfold bind at 1, get_slot. cbn [slot].
  destruct Hcase as [[Hsh Hdiv]|(Hsh & b & Hb & Hpb & Hlt & Hs1 & Hidx & Hs2)].
  { rewrite (proj2 (Nat.ltb_lt _ _)) by done. eexists _, _, _. split; [done|].
    by apply removed_absent, (assoc_diverge _ _ _ Hsort Hdiv). }
  rewrite (proj2 (Nat.ltb_ge _ _)) by lia. rewrite Hs1. cbn [of_option]. rewrite bind_ret, Hidx.
  cbn [of_option]. rewrite bind_ret. pose proof Hr as Hr0. inversion Hr as [|? ? ? Hwf Hrs]; subst.
  pose proof (find_child_entry n b Hwf Hb) as Hf.
  destruct (reps_focus _ _ _ b (wf_sorted n Hwf) Hrs) as (L & kv & R & -> & Hc & Hlr & Hins & Hdel).
  destruct (Hlr (get_key_view k)) as [HL HR]; [by rewrite <- app_assoc|].
  unfold depth_add. rewrite (wrap_small 32) by lia. rewrite <- Nat2Z.inj_add.
  set (d := (length pre + prefix_length (get_key_prefix n))%nat) in *.
  assert (Hlen : length (pre ++ prefix_bytes (get_key_prefix n)) = d)
    by (rewrite length_app, length_prefix_bytes; done).
  destruct (assoc b (entries n)) as [c|] eqn:Ha.
  2: { subst kv. unfold bind at 1, remove_or_choose_subtree. rewrite Hf. eexists _, _, _. split; [done|].
    apply removed_absent. by rewrite assoc_middle. }
  destruct Hf as (i & s & Hf & _ & Hl). destruct c as [|l|n2]; [by inversion Hc| |].
  - pose proof (removed_here k pre n _ l kv L R _ e Hc eq_refl HL HR) as Hh. destruct (matches l k) eqn:Hm.
    + destruct Hh as [Hdk Hh]. rewrite Hdk in Hcomp.
      destruct (remove_leaf_cases k pre n _ (L ++ R) b l e Hr Hb Ha Hm Hdel Hcomp) as (r & p' & e' & Hrun & Hlrm).
      unfold bind at 1. rewrite Hrun. specialize (Hh r _ p' e' Hlrm eq_refl).
      destruct Hlrm as [(-> & _)|(-> & _)]; by eexists _, _, _.
    + unfold bind at 1, remove_or_choose_subtree. rewrite Hf, Hl. cbn [of_option]. rewrite bind_ret, Hm.
      by eexists _, _, _.
  - unfold bind at 1, remove_or_choose_subtree. rewrite Hf, Hl. cbn [of_option]. rewrite bind_ret.
    unfold ret at 1. rewrite Hs2. cbn [of_option]. rewrite bind_ret.
    unfold depth_inc. rewrite (wrap_small 32) by lia. change 1 with (Z.of_nat 1). rewrite <- Nat2Z.inj_add.
    destruct (IH ((pre ++ prefix_bytes (get_key_prefix n)) ++ [b]) n2 kv e Hc) as (r & c' & e' & Hrun & Hin).
    + by rewrite <- app_assoc.
    + by eapply search_ok_middle.
    + rewrite length_app, Hlen. cbn [length]. rewrite <- Hlen. rewrite del_middle in Hcomp by done.
      apply (compact_focus (length pre) _ b _ _ Hcomp); [rewrite Hlen; lia|..].
      { intros e0. rewrite !fmap_app, !elem_of_app. tauto. }
      { intros e0 (x & -> & He%del_incl)%list_elem_of_fmap. eapply rep_key_prefix; [exact Hc|].
        by apply list_elem_of_fmap_2. }
      { intros e0 He Hp. by eapply middle_keys. }
    + rewrite length_app, Hlen. cbn [length]. lia.
    + rewrite length_app, Hlen in Hrun. cbn [length] in Hrun.
      eexists _, _, _. split; [by eapply focus_run|]. by eapply removed_child.
Qed.

(** ** The whole operation *)

Definition db_removed (k : art_key) (root : node_ptr) (kvs : list (list Z * list Z))
    (e : env) (r : res bool) (root' : node_ptr) (e' : env) : Prop :=
  match assoc (get_key_view k) kvs with
  | None => r = Ret false ∧ root' = root ∧ e' = e
  | Some _ =>
      (r = Ret true ∧ root_rep root' (del (get_key_view k) kvs) ∧
       accounted e e' (λ o, total o root' - total o root)) ∨
      (r = Throw bad_alloc ∧ root' = root ∧ accounted e e' (λ _, 0))
  end.

Lemma total_Null o : total o Null = 0.
Proof. done. Qed.

Lemma remove_root_leaf k l kvs e :
  rep [] (LeafP l) kvs →
  ∃ r root' e', remove_internal k (World (LeafP l) e) = (r, World root' e') ∧
    db_removed k (LeafP l) kvs e r root' e'.
Proof.
  intros Hr. inversion Hr as [? ? k0 v0 Hl Hp|]; subst. unfold remove_internal, bind at 1, get_slot. cbn [slot].
  pose proof (leaf_holds_matches l k0 v0 k Hl) as Hm. unfold db_removed. destruct (matches l k).
  - rewrite (proj1 Hm eq_refl), assoc_single_eq. eexists _, _, _. split; [done|]. left.
    split; [done|]. split; [left; split; [done|exact (del_here k0 (Some v0))]|].
    intros x Hx. cbn [slot wenv]. eapply tally_is_ext; [by apply tally_decrement_leaf|].
    intros o. cbn beta. rewrite total_leaf, total_Null. lia.
  - rewrite assoc_single_ne; [by eexists _, _, _|]. intros Heq. by apply Hm in Heq.
Qed.

Lemma remove_internal_spec k root kvs e :
  root_rep root kvs → search_ok k kvs.*1 → compact (del (get_key_view k) kvs).*1 →
  ∃ r root' e', remove_internal k (World root e) = (r, World root' e') ∧ db_removed k root kvs e r root' e'.
Proof.
  intros [[-> ->]|Hr] Hok Hc; [by eexists _, _, _|].
  destruct root as [|l|n]; [by inversion Hr|by apply remove_root_leaf|].
  destruct (remove_loop_spec (loop_fuel k) k [] n kvs e Hr) as (r & root' & e' & Hrun & Hin);
    [apply prefix_nil|done|exact Hc|unfold loop_fuel; simpl; lia|].
  cbn [length] in Hrun. rewrite shifted_0 in Hrun. exists r, root', e'. split; [exact Hrun|].
  unfold db_removed, removed in *. destruct (assoc _ kvs); [|done].
  destruct Hin as [(? & ? & ?)|?]; [left|by right]. split_and!; [done|by right|done].
Qed.

(** ** Deletion of subtrees *)

Lemma for_each_accounted {A} (f : A → M env unit) (g : option node_type → A → Z) (l : list A) e :
  Forall (λ c, ∀ e, ∃ e', f c e = (Ret tt, e') ∧ accounted e e' (λ o, - g o c)) l →
  ∃ e', for_each f l e = (Ret tt, e') ∧ accounted e e' (λ o, - sum (g o <$> l)).
Proof.
  intros Hl. revert e. induction Hl as [|c l Hc Hl IH]; intros e.
  - exists e. split; [done|]. by apply accounted_same.
  - destruct (Hc e) as (e1 & H1 & Ha1). destruct (IH e1) as (e2 & H2 & Ha2). exists e2. cbn [for_each].
    rewrite (bind_Ret _ _ _ _ _ H1). split; [done|].
    eapply accounted_trans; [exact Ha1|exact Ha2|]. intros o. cbn [fmap list_fmap sum foldr].
    fold (sum (g o <$> l)). lia.
Qed.

(** Deleting a subtree accounts for each of its nodes once. *)
Lemma delete_subtree_reps :
  (∀ pre p kvs, rep pre p kvs → ∀ fuel e, (height p ≤ fuel)%nat →
    ∃ e', delete_subtree fuel p e = (Ret tt, e') ∧ accounted e e' (λ o, - total o p)) ∧
  (∀ pre es kvs, reps pre es kvs → ∀ fuel, (∀ b c, (b, c) ∈ es → (height c ≤ fuel)%nat) →
    Forall (λ c, ∀ e, ∃ e', delete_subtree fuel c e = (Ret tt, e') ∧ accounted e e' (λ o, - total o c)) es.*2).
Proof.
  apply rep_reps_ind.
  - intros pre l k v Hl Hp [|fuel] e Hf; [cbn [height] in Hf; lia|]. cbn [delete_subtree].
    destruct (delete_leaf_accounted l e) as (e' & -> & Ha). exists e'. split; [done|].
    eapply accounted_ext; [exact Ha|]. intros o. by rewrite total_leaf.
  - intros pre n kvs Hw Hr IH [|fuel] e Hf; [cbn [height] in Hf; lia|]. cbn [delete_subtree].
    pose proof (all_children_spec n Hw : all_children n ≡ₚ _) as Hperm.
    destruct (for_each_accounted (delete_subtree fuel) total (all_children n) e) as (e1 & H1 & Ha1).
    { rewrite Hperm. apply IH. intros b c Hin. pose proof (height_child n b c Hw Hin). lia. }
    rewrite (bind_Ret _ _ _ _ _ H1). destruct (delete_inode_accounted (type n) e1) as (e2 & -> & Ha2).
    exists e2. split; [done|]. eapply accounted_trans; [exact Ha1|exact Ha2|]. intros o. cbn beta.
    rewrite (total_inode pre n kvs o) by by constructor. rewrite (sum_perm _ (total o <$> (entries n).*2)); [lia|].
    by rewrite Hperm.
  - constructor.
  - intros pre b c es kv kvs Hr IHr Hrs IHs fuel Hf. cbn [fmap list_fmap snd]. constructor.
    + intros e. apply IHr, (Hf b), elem_of_cons. by left.
    + apply IHs. intros b' c' Hin. apply (Hf b'), elem_of_cons. by right.
Qed.

Lemma delete_root_spec root kvs e :
  root_rep root kvs →
  ∃ e', delete_root_subtree (World root e) = (Ret tt, World root e') ∧ accounted e e' (λ o, - total o root).
Proof.
  intros [[-> ->]|Hr]; [exists e; split; [done|by apply accounted_same]|].
  destruct (proj1 delete_subtree_reps _ _ _ Hr (height root) e) as (e' & Hrun & Ha); [lia|].
  exists e'. split; [|done]. pose proof (rep_not_null _ _ _ Hr).
  assert (Hl : lift (delete_subtree (height root) root) (World root e) = (Ret tt, World root e'))
    by (unfold lift; cbn [wenv]; by rewrite Hrun).
  unfold delete_root_subtree, bind, get_slot. cbn [slot]. destruct root; [done|exact Hl..].
Qed.
End remove.
