(* ===== verification/DbMap.v ===== *)
(** The abstract specification of the index: a finite map from key bytes to value
    bytes, and what ties a database to it. *)

From S2P Require Import Prelude Words ArtKey KeyPrefix SortedAssoc Simd InodeBase.
From S2P Require Import Inode4 Inode16 Inode48 Inode256 Heap Stats Leaf.
From S2P Require Import InodeSpec Inode Tree Db DbLookup DbInsert DbRemove.

(** ** Sorted lists as finite maps *)

Section map.
Implicit Types (l : list (list Z * list Z)).

Definition map_of l : gmap (list Z) (list Z) := list_to_map l.

Lemma map_of_lookup l k : sorted l → map_of l !! k = assoc k l.
Proof.
  intros Hs. destruct (assoc k l) as [v|] eqn:Ha.
  - apply elem_of_list_to_map; [by apply sorted_NoDup_keys|]. by apply assoc_elem.
  - apply not_elem_of_list_to_map. intros (p & -> & Hp)%list_elem_of_fmap. destruct p as [k v].
    apply assoc_elem in Hp; [|done]. simpl in Ha. congruence.
Qed.

Lemma map_of_ins l k v : sorted l → map_of (ins k v l) = <[k := v]> (map_of l).
Proof.
  intros Hs. apply map_eq. intros k'. rewrite map_of_lookup by by apply ins_sorted.
  destruct (decide (k' = k)) as [->|]; [by rewrite assoc_ins_eq, lookup_insert_eq|].
  by rewrite assoc_ins_ne, lookup_insert_ne, map_of_lookup.
Qed.

Lemma map_of_del l k : sorted l → map_of (del k l) = delete k (map_of l).
Proof.
  intros Hs. apply map_eq. intros k'. rewrite map_of_lookup by by apply del_sorted.
  destruct (decide (k' = k)) as [->|]; [by rewrite assoc_del_eq, lookup_delete_eq|].
  by rewrite assoc_del_ne, lookup_delete_ne, map_of_lookup.
Qed.

Lemma elem_of_map_keys l k : sorted l → k ∈ l.*1 ↔ is_Some (map_of l !! k).
Proof.
  intros Hs. rewrite map_of_lookup by done. split.
  - intros ([k' v] & -> & Hp)%list_elem_of_fmap. exists v. by apply assoc_elem.
  - intros [v Hv]. apply list_elem_of_fmap. exists (k, v). split; [done|]. by apply assoc_elem in Hv.
Qed.

Lemma map_of_size l : sorted l → size (map_of l) = length l.
Proof.
  intros Hs. unfold map_of. rewrite <- (length_map_to_list), map_to_list_to_map; [done|].
  by apply sorted_NoDup_keys.
Qed.
End map.

(** ** The invariant *)

(** The bytes of a key of the interface. *)
Definition key_bytes (k : key_arg) : list Z := get_key_view (art_key_of k).

(** Keys the caller may pass: 64-bit integers, or byte strings. *)
Definition key_arg_ok (k : key_arg) : Prop :=
  match k with IntKey _ => True | ViewKey _ bytes => is_bytes bytes end.

Section repr.
Context `{Target, Allocator}.

(** The database [w] holds the map [m], and its statistics are those of its
    nodes. *)
Definition db_repr (w : world) (m : gmap (list Z) (list Z)) : Prop :=
  ∃ kvs, root_rep (slot w) kvs ∧ m = map_of kvs ∧
    tally_is (env_stats (wenv w)) (λ o, total o (slot w)).

(** The contract on a key passed to the index that holds [m]. *)
Definition key_contract (k : key_arg) (m : gmap (list Z) (list Z)) : Prop :=
  key_arg_ok k ∧ ∀ e, is_Some (m !! e) → key_bytes k = e ∨ prefix_free (key_bytes k) e.

(** The keys of [m], with [k] added, are ones the prefix of a node can hold. *)
Definition compact_map (m : gmap (list Z) (list Z)) : Prop := compact (map_to_list m).*1.

Lemma art_key_of_wf k : key_arg_ok k → key_wf (art_key_of k).
Proof. destruct k; [intros _; apply art_key_of_int_wf|done]. Qed.

Lemma root_rep_sorted root kvs : root_rep root kvs → sorted kvs.
Proof. intros [[_ ->]|Hr]; [apply sorted_nil|by eapply rep_sorted]. Qed.

Lemma key_contract_search k kvs :
  sorted kvs → key_contract k (map_of kvs) → search_ok (art_key_of k) kvs.*1.
Proof.
  intros Hs [Hok Hc]. split; [by apply art_key_of_wf|]. apply Forall_forall. intros e He.
  apply Hc. by apply elem_of_map_keys.
Qed.

Lemma compact_map_keys kvs : sorted kvs → compact_map (map_of kvs) → compact kvs.*1.
Proof.
  intros Hs. assert (Hk : ∀ k, k ∈ kvs.*1 ↔ k ∈ (map_to_list (map_of kvs)).*1).
  { intros k. rewrite (elem_of_map_keys kvs) by done. rewrite list_elem_of_fmap. split.
    - intros [v Hv]. exists (k, v). split; [done|]. by apply elem_of_map_to_list.
    - intros ([k' v] & -> & Hin). apply elem_of_map_to_list in Hin. by exists v. }
  by apply compact_perm; intros k; apply Hk.
Qed.

Lemma compact_map_ins k v kvs : sorted kvs → compact_map (<[k := v]> (map_of kvs)) → compact (k :: kvs.*1).
Proof.
  intros Hs Hc. rewrite <- map_of_ins in Hc by done. apply compact_map_keys in Hc; [|by apply ins_sorted].
  assert (Hk : ∀ k', k' ∈ (ins k v kvs).*1 ↔ k' ∈ k :: kvs.*1).
  { intros k'. rewrite elem_of_cons, !elem_of_map_keys, map_of_ins, lookup_insert_is_Some'; [naive_solver|done..|].
    by apply ins_sorted. }
  revert Hc. by apply compact_perm; intros k' ?; apply Hk.
Qed.

(** ** The operations against the map *)

Lemma db_get_repr w m k :
  db_repr w m → key_contract k m → db_get k w = (Ret (m !! key_bytes k), w).
Proof.
  intros (kvs & Hr & -> & _) Hc. pose proof (root_rep_sorted _ _ Hr) as Hs. destruct w as [root e].
  rewrite map_of_lookup by done. by apply get_internal_spec, key_contract_search.
Qed.

Lemma db_insert_repr w m k v :
  db_repr w m → key_contract k m → compact_map (<[key_bytes k := v]> m) →
  ∃ r w', db_insert k v w = (r, w') ∧
    match m !! key_bytes k with
    | Some _ => r = Ret false ∧ w' = w
    | None =>
        (r = Ret true ∧ allowed (art_key_of k) v ∧ db_repr w' (<[key_bytes k := v]> m)) ∨
        (∃ x, r = Throw x ∧ (x = length_error ↔ ¬ allowed (art_key_of k) v) ∧ slot w' = slot w ∧ db_repr w' m)
    end.
Proof.
  intros (kvs & Hr & -> & Ht) Hc Hcm. pose proof (root_rep_sorted _ _ Hr) as Hs. destruct w as [root e].
  cbn [slot wenv] in *.
  destruct (insert_internal_spec (art_key_of k) v root kvs e Hr) as (r & root' & e' & Hrun & Hin).
  { by apply key_contract_search. }
  { by eapply compact_map_ins. }
  exists r, (World root' e'). split; [exact Hrun|]. rewrite map_of_lookup by done. unfold db_inserted in Hin.
  fold (key_bytes k) in Hin. destruct (assoc (key_bytes k) kvs); [by destruct Hin as (-> & -> & ->)|].
  destruct Hin as [(-> & Hal & Hrep & Hacc)|(x & -> & Hx & -> & Hacc)]; [left|right].
  - split_and!; [done..|]. eexists. split; [exact Hrep|]. split; [by rewrite map_of_ins|].
    eapply tally_is_ext; [by apply Hacc|]. intros o. cbn [slot]. lia.
  - exists x. split_and!; [done..|]. exists kvs. split_and!; [done..|].
    eapply tally_is_ext; [by apply Hacc|]. intros o. cbn [slot]. lia.
Qed.

Lemma db_remove_repr w m k :
  db_repr w m → key_contract k m → compact_map (delete (key_bytes k) m) →
  ∃ r w', db_remove k w = (r, w') ∧
    match m !! key_bytes k with
    | None => r = Ret false ∧ w' = w
    | Some _ =>
        (r = Ret true ∧ db_repr w' (delete (key_bytes k) m)) ∨
        (r = Throw bad_alloc ∧ slot w' = slot w ∧ db_repr w' m)
    end.
Proof.
  intros (kvs & Hr & -> & Ht) Hc Hcm. pose proof (root_rep_sorted _ _ Hr) as Hs. destruct w as [root e].
  cbn [slot wenv] in *. rewrite <- map_of_del in Hcm by done.
  destruct (remove_internal_spec (art_key_of k) root kvs e Hr) as (r & root' & e' & Hrun & Hin).
  { by apply key_contract_search. }
  { apply compact_map_keys; [by apply del_sorted|done]. }
  exists r, (World root' e'). split; [exact Hrun|]. rewrite map_of_lookup by done. unfold db_removed in Hin.
  fold (key_bytes k) in Hin. destruct (assoc (key_bytes k) kvs); [|by destruct Hin as (-> & -> & ->)].
  destruct Hin as [(-> & Hrep & Hacc)|(-> & -> & Hacc)]; [left|right].
  - split; [done|]. eexists. split; [exact Hrep|]. split; [by rewrite map_of_del|].
    eapply tally_is_ext; [by apply Hacc|]. intros o. cbn [slot]. lia.
  - split_and!; [done..|]. exists kvs. split_and!; [done..|].
    eapply tally_is_ext; [by apply Hacc|]. intros o. cbn [slot]. lia.
Qed.

Lemma db_empty_repr w m : db_repr w m → empty w = (Ret (bool_decide (m = ∅)), w).
Proof.
  intros (kvs & Hr & -> & _). unfold empty, bind, get_slot, ret. cbn [slot]. do 2 f_equal.
  destruct Hr as [[-> ->]|Hr]; [by rewrite bool_decide_true|].
  pose proof (rep_not_null _ _ _ Hr) as Hn. rewrite bool_decide_false; [by destruct (slot w)|].
  intros Hm. pose proof (map_of_size kvs (rep_sorted _ _ _ Hr)) as Hsz. rewrite Hm, map_size_empty in Hsz.
  destruct kvs; [by apply rep_nonempty in Hr|done].
Qed.

(** After the nodes are gone every counter reads zero, the leaf count that
    [clear] does not reset included. *)
Lemma delete_root_repr w m :
  db_repr w m →
  ∃ e', delete_root_subtree w = (Ret tt, World (slot w) e') ∧ tally_is (env_stats e') (λ _, 0).
Proof.
  intros (kvs & Hr & _ & Ht). destruct w as [root e]. cbn [slot wenv] in *.
  destruct (delete_root_spec root kvs e Hr) as (e' & Hrun & Hacc). exists e'. split; [done|].
  eapply tally_is_ext; [by apply Hacc|]. intros o. cbn beta. lia.
Qed.

Lemma delete_root_tally w m :
  db_repr w m → ∃ e', delete_root_subtree w = (Ret tt, World (slot w) e') ∧ ∀ o, tally (env_stats e') o = 0.
Proof.
  intros Hw. destruct (delete_root_repr w m Hw) as (e' & Hrun & Ht). exists e'. split; [done|]. intros o. by rewrite Ht.
Qed.

Lemma db_repr_tally w m : db_repr w m → ∀ o, tally (env_stats (wenv w)) o = wrap64 (total o (slot w)).
Proof. by intros (kvs & _ & _ & Ht). Qed.

Lemma db_clear_repr w m :
  db_repr w m →
  ∃ w', clear w = (Ret tt, w') ∧ slot w' = Null ∧ db_repr w' ∅ ∧ ∀ o, tally (env_stats (wenv w')) o = 0.
Proof.
  intros Hw. destruct (delete_root_repr w m Hw) as (e' & Hrun & Ht). unfold clear, bind. rewrite Hrun.
  cbn [slot wenv set_slot lift with_stats modify]. eexists. split; [done|]. split; [done|]. cbn [slot wenv env_stats].
  assert (Hz : ∀ o, tally (clear_stats (env_stats e')) o = 0).
  { intros [t|]; [|done]. pose proof (Ht (Some t)) as Hl. cbn [tally] in *. unfold clear_stats. cbn [node_counts].
    destruct t; [exact Hl|done..]. }
  split; [|exact Hz]. exists []. split; [by left|]. split; [done|]. intros o. cbn [slot]. by rewrite Hz, total_Null.
Qed.
End repr.
