(* ===== verification/DbTrace.v ===== *)
(** Sequences of operations: the index refines the map specification, call by
    call, including the calls that throw. *)

From S2P Require Import Prelude Words ArtKey KeyPrefix SortedAssoc Simd InodeBase.
From S2P Require Import Inode4 Inode16 Inode48 Inode256 Heap Stats Leaf.
From S2P Require Import InodeSpec Inode Tree Db DbLookup DbInsert DbRemove DbMap Heap.

(** ** Operations and their specification *)

Inductive op :=
  | OpGet (k : key_arg)
  | OpInsert (k : key_arg) (v : list Z)
  | OpRemove (k : key_arg)
  | OpEmpty
  | OpClear.

Inductive answer :=
  | Found (v : option (list Z))
  | Bool (b : bool)
  | Done.

(** The operation on a finite map. *)
Definition spec_op (o : op) (m : gmap (list Z) (list Z)) : answer * gmap (list Z) (list Z) :=
  match o with
  | OpGet k => (Found (m !! key_bytes k), m)
  | OpInsert k v =>
      match m !! key_bytes k with Some _ => (Bool false, m) | None => (Bool true, <[key_bytes k := v]> m) end
  | OpRemove k =>
      match m !! key_bytes k with None => (Bool false, m) | Some _ => (Bool true, delete (key_bytes k) m) end
  | OpEmpty => (Bool (bool_decide (m = ∅)), m)
  | OpClear => (Done, ∅)
  end.

(** A call either answers as the map does, or, an insertion or a removal, throws
    and leaves the map alone. *)
Definition spec_call (o : op) (m : gmap (list Z) (list Z)) (r : res answer) (m' : gmap (list Z) (list Z)) : Prop :=
  (r = Ret (spec_op o m).1 ∧ m' = (spec_op o m).2) ∨
  (m' = m ∧
   match o with
   | OpInsert k v => m !! key_bytes k = None ∧ ∃ x, r = Throw x ∧ (x = length_error ↔ ¬ allowed (art_key_of k) v)
   | OpRemove k => is_Some (m !! key_bytes k) ∧ r = Throw bad_alloc
   | _ => False
   end).

Inductive spec_run : list op → gmap (list Z) (list Z) → list (res answer) → gmap (list Z) (list Z) → Prop :=
  | spec_run_nil m : spec_run [] m [] m
  | spec_run_cons o os m r m' rs m'' :
      spec_call o m r m' → spec_run os m' rs m'' → spec_run (o :: os) m (r :: rs) m''.

(** The answers of the specification alone. *)
Fixpoint spec_answers (os : list op) (m : gmap (list Z) (list Z)) : list answer :=
  match os with [] => [] | o :: os => (spec_op o m).1 :: spec_answers os (spec_op o m).2 end.

Section trace.
Context `{Target, Allocator}.

Definition run_op (o : op) : M world answer := (
  match o with
  | OpGet k => x <- db_get k; ret (Found x)
  | OpInsert k v => x <- db_insert k v; ret (Bool x)
  | OpRemove k => x <- db_remove k; ret (Bool x)
  | OpEmpty => x <- empty; ret (Bool x)
  | OpClear => clear;; ret Done
  end)%monad.

(** A client that catches the exceptions and goes on. *)
Fixpoint run_ops (os : list op) (w : world) : list (res answer) * world :=
  match os with
  | [] => ([], w)
  | o :: os => let '(r, w) := run_op o w in let '(rs, w) := run_ops os w in (r :: rs, w)
  end.

(** What a call relies on. *)
Definition op_contract (o : op) (m : gmap (list Z) (list Z)) : Prop :=
  match o with
  | OpGet k => key_contract k m
  | OpInsert k v => key_contract k m ∧ compact_map (<[key_bytes k := v]> m)
  | OpRemove k => key_contract k m ∧ compact_map (delete (key_bytes k) m)
  | OpEmpty | OpClear => True
  end.

Lemma run_op_repr o w m :
  db_repr w m → op_contract o m →
  ∃ r w' m', run_op o w = (r, w') ∧ spec_call o m r m' ∧ db_repr w' m'.
Proof.
  intros Hw Hc. destruct o as [k|k v|k| |]; cbn [run_op op_contract] in *.
  - rewrite (bind_Ret _ _ _ _ _ (db_get_repr w m k Hw Hc)). eexists _, _, _. split; [done|]. by split; [left|].
  - destruct Hc as [Hk Hc]. destruct (db_insert_repr w m k v Hw Hk Hc) as (r & w' & Hrun & Hin).
    unfold bind. rewrite Hrun. unfold spec_call. cbn [spec_op]. destruct (m !! key_bytes k).
    + destruct Hin as [-> ->]. eexists _, _, _. split; [done|]. by split; [left|].
    + destruct Hin as [(-> & _ & Hw')|(x & -> & Hx & _ & Hw')]; eexists _, _, _; (split; [done|]).
      * by split; [left|].
      * split; [right; split; [done|]; split; [done|]; by exists x|done].
  - destruct Hc as [Hk Hc]. destruct (db_remove_repr w m k Hw Hk Hc) as (r & w' & Hrun & Hin).
    unfold bind. rewrite Hrun. unfold spec_call. cbn [spec_op]. destruct (m !! key_bytes k).
    + destruct Hin as [(-> & Hw')|(-> & _ & Hw')]; eexists _, _, _; (split; [done|]).
      * by split; [left|].
      * by split; [right|].
    + destruct Hin as [-> ->]. eexists _, _, _. split; [done|]. by split; [left|].
  - rewrite (bind_Ret _ _ _ _ _ (db_empty_repr w m Hw)). eexists _, _, _. split; [done|]. by split; [left|].
  - destruct (db_clear_repr w m Hw) as (w' & Hrun & _ & Hw' & _). rewrite (bind_Ret _ _ _ _ _ Hrun).
    eexists _, _, _. split; [done|]. by split; [left|].
Qed.

(** ** Integer keys satisfy the contracts *)

Definition is_int (k : key_arg) : Prop := match k with IntKey _ => True | ViewKey _ _ => False end.

Definition int_op (o : op) : Prop :=
  match o with OpGet k | OpInsert k _ | OpRemove k => is_int k | OpEmpty | OpClear => True end.

Definition int_map (m : gmap (list Z) (list Z)) : Prop := ∀ e, is_Some (m !! e) → length e = 8%nat.

Lemma int_key_length k : is_int k → length (key_bytes k) = 8%nat.
Proof. destruct k; [intros _|done]. unfold key_bytes. by rewrite length_get_key_view. Qed.

Lemma int_map_insert m k v : int_map m → is_int k → int_map (<[key_bytes k := v]> m).
Proof. intros Hm Hk e [<-|[_ ?]]%lookup_insert_is_Some; [by apply int_key_length|by apply Hm]. Qed.

Lemma int_map_delete m k : int_map m → int_map (delete k m).
Proof. intros Hm e [_ ?]%lookup_delete_is_Some. by apply Hm. Qed.

Lemma int_map_compact m : int_map m → compact_map m.
Proof.
  intros Hm. apply short_keys_compact, Forall_forall. intros e ([k v] & -> & Hin)%list_elem_of_fmap.
  apply elem_of_map_to_list in Hin. simpl. rewrite (Hm k); [done|]. by exists v.
Qed.

Lemma int_key_contract k m : is_int k → int_map m → key_contract k m.
Proof.
  intros Hk Hm. split; [by destruct k|]. intros e He. destruct (decide (key_bytes k = e)) as [|Hne]; [by left|right].
  apply same_length_prefix_free; [|done]. by rewrite int_key_length, (Hm e).
Qed.

Lemma int_op_contract o m : int_op o → int_map m → op_contract o m.
Proof.
  intros Ho Hm. destruct o; cbn in *; [by apply int_key_contract|..|done|done];
    (split; [by apply int_key_contract|]).
  - by apply int_map_compact, int_map_insert.
  - by apply int_map_compact, int_map_delete.
Qed.

Lemma spec_call_int o m r m' : int_op o → int_map m → spec_call o m r m' → int_map m'.
Proof.
  intros Ho Hm [[_ ->]|[-> _]]; [|done]. destruct o; cbn in *; [done|..|done|by intros e [? ?]].
  - destruct (m !! _); [done|by apply int_map_insert].
  - destruct (m !! _); [by apply int_map_delete|done].
Qed.

Lemma run_ops_int os w m :
  Forall int_op os → int_map m → db_repr w m →
  ∃ rs w' m', run_ops os w = (rs, w') ∧ spec_run os m rs m' ∧ db_repr w' m'.
Proof.
  intros Hos. revert w m. induction Hos as [|o os Ho Hos IH]; intros w m Hm Hw.
  - exists [], w, m. split_and!; [done|constructor|done].
  - destruct (run_op_repr o w m Hw (int_op_contract o m Ho Hm)) as (r & w' & m' & Hrun & Hcall & Hw').
    destruct (IH w' m' (spec_call_int _ _ _ _ Ho Hm Hcall) Hw') as (rs & w'' & m'' & Hruns & Hspec & Hw'').
    exists (r :: rs), w'', m''. cbn [run_ops]. rewrite Hrun, Hruns. split_and!; [done|by econstructor|done].
Qed.

Lemma spec_run_size os m rs m' : spec_run os m rs m' → (size m' ≤ size m + length os)%nat.
Proof.
  induction 1 as [m|o os m r m' rs m'' Hcall _ IH]; [lia|]. cbn [length]. enough (size m' ≤ S (size m))%nat by lia.
  destruct Hcall as [[_ ->]|[-> _]]; [|lia]. destruct o as [k|k v|k| |]; cbn [spec_op].
  - cbn. lia.
  - destruct (m !! key_bytes k) eqn:Hk; cbn; [lia|]. rewrite map_size_insert_None by done. lia.
  - destruct (m !! key_bytes k) eqn:Hk; cbn; [|lia]. rewrite map_size_delete, Hk. lia.
  - cbn. lia.
  - cbn. rewrite map_size_empty. lia.
Qed.

(** ** With an allocator that never fails *)

Lemma nba_lift {A} (m : M env A) : no_bad_alloc m → no_bad_alloc (lift m).
Proof. intros Hm w w'. unfold lift. specialize (Hm (wenv w)). destruct (m (wenv w)) as [r e]. intros [= -> _]. by apply (Hm e). Qed.

Lemma nba_focus {A} n s (m : M world A) : no_bad_alloc m → no_bad_alloc (focus n s m).
Proof.
  intros Hm w w'. unfold focus. destruct (slot_load n s) as [c|]; [|done].
  specialize (Hm (World c (wenv w))). destruct (m _) as [r w1]. intros [= -> _]. by apply (Hm w1).
Qed.

Hint Resolve nba_lift nba_focus : nba.

Context (Hrel : reliable).

Lemma nba_allocate size : no_bad_alloc (allocate size).
Proof.
  intros e e'. unfold allocate. pose proof (nba_allocate_aligned size Hrel (env_heap e)) as Hn.
  destruct (allocate_aligned size (env_heap e)) as [r h]. intros [= -> _]. by apply (Hn h).
Qed.

Hint Resolve nba_allocate : nba.

Ltac nba := repeat first
  [ nba_step
  | match goal with
    | |- no_bad_alloc (lift _) => apply nba_lift
    | |- no_bad_alloc (focus _ _ _) => apply nba_focus
    end
  | solve [by intros ? ?] ].

Lemma nba_make_leaf k v : no_bad_alloc (make_db_leaf_ptr k v).
Proof. unfold make_db_leaf_ptr. nba. Qed.

Lemma nba_allocate_inode t : no_bad_alloc (allocate_inode t).
Proof. unfold allocate_inode. nba. Qed.

Hint Resolve nba_make_leaf nba_allocate_inode : nba.

Lemma nba_create {A} t c (o : option A) : no_bad_alloc (create t c o).
Proof. unfold create. nba. Qed.

Lemma nba_reclaim p : no_bad_alloc (reclaim_leaf p).
Proof. unfold reclaim_leaf. nba. Qed.

Hint Resolve nba_create nba_reclaim : nba.

Lemma nba_add n b k v d : no_bad_alloc (add_or_choose_subtree n b k v d).
Proof. unfold add_or_choose_subtree. nba. Qed.

Lemma nba_remove_leaf n b k : no_bad_alloc (remove_or_choose_subtree n b k).
Proof. unfold remove_or_choose_subtree. nba. Qed.

Hint Resolve nba_add nba_remove_leaf : nba.

Lemma nba_insert_loop fuel k v d rk : no_bad_alloc (insert_loop fuel k v d rk).
Proof. revert d rk. induction fuel as [|fuel IH]; intros d rk; cbn [insert_loop]; [by intros ? ?|]. nba. Qed.

Lemma nba_remove_loop fuel k d rk : no_bad_alloc (remove_loop fuel k d rk).
Proof. revert d rk. induction fuel as [|fuel IH]; intros d rk; cbn [remove_loop]; [by intros ? ?|]. nba. Qed.

Hint Resolve nba_insert_loop nba_remove_loop : nba.

Lemma nba_insert k v : no_bad_alloc (db_insert k v).
Proof. unfold db_insert, insert_internal. nba. Qed.

Lemma nba_remove k : no_bad_alloc (db_remove k).
Proof. unfold db_remove, remove_internal. nba. Qed.

(** The values are not longer than a leaf can record. *)
Definition op_fits (o : op) : Prop :=
  match o with OpInsert k v => allowed (art_key_of k) v | _ => True end.

Lemma run_op_reliable o w m r w' m' :
  op_fits o → run_op o w = (r, w') → spec_call o m r m' → r = Ret (spec_op o m).1 ∧ m' = (spec_op o m).2.
Proof.
  intros Hfit Hrun [?|[-> Hc]]; [done|]. exfalso. destruct o as [k|k v|k| |]; try done; cbn [run_op] in Hrun.
  - destruct Hc as (_ & x & -> & Hx). destruct x; [|by apply Hx].
    eapply nba_bind; [apply nba_insert| |exact Hrun]. intros a. apply nba_ret.
  - destruct Hc as [_ ->]. eapply nba_bind; [apply nba_remove| |exact Hrun]. intros a. apply nba_ret.
Qed.

Lemma run_ops_reliable os w m :
  Forall int_op os → Forall op_fits os → int_map m → db_repr w m →
  (run_ops os w).1 = Ret <$> spec_answers os m.
Proof.
  intros Hos. revert w m. induction Hos as [|o os Ho Hos IH]; intros w m Hfit Hm Hw; [done|].
  apply Forall_cons in Hfit as [Hfo Hfit].
  destruct (run_op_repr o w m Hw (int_op_contract o m Ho Hm)) as (r & w' & m' & Hrun & Hcall & Hw').
  destruct (run_op_reliable o w m r w' m' Hfo Hrun Hcall) as [-> ->].
  cbn [run_ops spec_answers fmap list_fmap]. rewrite Hrun.
  specialize (IH w' _ Hfit (spec_call_int _ _ _ _ Ho Hm Hcall) Hw'). destruct (run_ops os w') as [rs w''].
  cbn [fst] in IH |- *. by rewrite IH.
Qed.

(** The map after a sequence of operations. *)
Fixpoint spec_map (os : list op) (m : gmap (list Z) (list Z)) : gmap (list Z) (list Z) :=
  match os with [] => m | o :: os => spec_map os (spec_op o m).2 end.

Lemma run_ops_reliable_repr os w m :
  Forall int_op os → Forall op_fits os → int_map m → db_repr w m →
  db_repr (run_ops os w).2 (spec_map os m) ∧ int_map (spec_map os m).
Proof.
  intros Hos. revert w m. induction Hos as [|o os Ho Hos IH]; intros w m Hfit Hm Hw; [done|].
  apply Forall_cons in Hfit as [Hfo Hfit].
  destruct (run_op_repr o w m Hw (int_op_contract o m Ho Hm)) as (r & w' & m' & Hrun & Hcall & Hw').
  destruct (run_op_reliable o w m r w' m' Hfo Hrun Hcall) as [-> ->].
  cbn [run_ops spec_map]. rewrite Hrun.
  specialize (IH w' _ Hfit (spec_call_int _ _ _ _ Ho Hm Hcall) Hw'). destruct (run_ops os w') as [rs w'']. done.
Qed.
End trace.

Lemma new_db_repr `{Target} h : db_repr (new_db h) ∅.
Proof. exists []. split; [by left|]. split; [done|]. by intros [[]|]. Qed.

Lemma int_map_empty : int_map ∅.
Proof. by intros e [? ?]. Qed.
