(* ===== verification/DbCount.v ===== *)
(** Node counts against the number of entries. *)

From S2P Require Import Prelude Words ArtKey KeyPrefix SortedAssoc Simd InodeBase.
From S2P Require Import Inode4 Inode16 Inode48 Inode256 Heap Stats Leaf.
From S2P Require Import InodeSpec Inode Tree Db DbLookup DbInsert DbRemove DbMap.

(** The number of internal nodes of a tree. *)
Definition inode_total `{Target} (p : node_ptr) : Z :=
  total (Some I4) p + total (Some I16) p + total (Some I48) p + total (Some I256) p.

(** The bytes of memory of the leaves of an index. *)
Definition entries_bytes (kvs : list (list Z * list Z)) : Z := sum ((λ kv, leaf_bytes kv.1 kv.2) <$> kvs).

Section count.
Context `{Target}.

Lemma rep_reps_leaf_count :
  (∀ pre p kvs, rep pre p kvs → total (Some LEAF) p = Z.of_nat (length kvs)) ∧
  (∀ pre es kvs, reps pre es kvs → sum (total (Some LEAF) <$> es.*2) = Z.of_nat (length kvs)).
Proof.
  apply rep_reps_ind.
  - intros. rewrite total_leaf. done.
  - intros pre n kvs Hw Hr IH. rewrite (total_inode pre n kvs) by by constructor. rewrite IH.
    by destruct n.
  - done.
  - intros pre b c es kv kvs Hr IHr Hrs IHs. cbn [fmap list_fmap snd sum foldr]. fold (sum (total (Some LEAF) <$> es.*2)).
    rewrite IHr, IHs, length_app. lia.
Qed.

Lemma inode_total_sum (l : list node_ptr) :
  sum (inode_total <$> l) = sum (total (Some I4) <$> l) + sum (total (Some I16) <$> l) +
    sum (total (Some I48) <$> l) + sum (total (Some I256) <$> l).
Proof. unfold sum, inode_total. induction l as [|p l IHl]; cbn [fmap list_fmap foldr] in *; lia. Qed.

(** Every internal node has two children or more, so there are fewer of them
    than leaves. *)
Lemma rep_reps_inode_count :
  (∀ pre p kvs, rep pre p kvs → inode_total p + 1 ≤ Z.of_nat (length kvs)) ∧
  (∀ pre es kvs, reps pre es kvs →
    sum (inode_total <$> es.*2) + Z.of_nat (length es) ≤ Z.of_nat (length kvs)).
Proof.
  apply rep_reps_ind.
  - intros. unfold inode_total. rewrite !total_leaf. cbn [leaf_cost length]. rewrite !decide_False by done. lia.
  - intros pre n kvs Hw Hr IH.
    assert (Hsum : inode_total (InodeP n) = 1 + sum (inode_total <$> (entries n).*2)).
    { unfold inode_total at 1. rewrite !(total_inode pre n kvs) by by constructor. rewrite inode_total_sum.
      destruct n; cbn [type inode_cost]; repeat case_decide; (done || lia). }
    rewrite Hsum. destruct (inode_count n Hw) as [Hc _]. pose proof (min_size_ge_2 n) as Hm.
    change (min_size n) with (inode_min_size (type n)) in Hm. lia.
  - intros. cbn. lia.
  - intros pre b c es kv kvs Hr IHr Hrs IHs. cbn [fmap list_fmap snd sum foldr length].
    fold (sum (inode_total <$> es.*2)). rewrite length_app. lia.
Qed.

(** The bytes of the leaves are part of the total. *)
Lemma rep_reps_memory :
  (∀ pre p kvs, rep pre p kvs →
    total None p = entries_bytes kvs + 48 * total (Some I4) p + 160 * total (Some I16) p +
      656 * total (Some I48) p + 2064 * total (Some I256) p) ∧
  (∀ pre es kvs, reps pre es kvs →
    sum (total None <$> es.*2) = entries_bytes kvs + 48 * sum (total (Some I4) <$> es.*2) +
      160 * sum (total (Some I16) <$> es.*2) + 656 * sum (total (Some I48) <$> es.*2) +
      2064 * sum (total (Some I256) <$> es.*2)).
Proof.
  apply rep_reps_ind.
  - intros pre l k v Hl Hp. rewrite !total_leaf. cbn [leaf_cost]. rewrite (leaf_holds_size _ _ _ Hl).
    rewrite !decide_False by done. unfold entries_bytes, sum. cbn. lia.
  - intros pre n kvs Hw Hr IH. rewrite !(total_inode pre n kvs) by by constructor. rewrite IH.
    destruct n; cbn [type inode_cost sizeof_inode]; repeat case_decide; (done || lia).
  - done.
  - intros pre b c es kv kvs Hr IHr Hrs IHs. cbn [fmap list_fmap snd sum foldr]. unfold sum in IHs.
    unfold entries_bytes in *. rewrite fmap_app, sum_app. unfold sum in *. cbn [fmap list_fmap snd foldr] in *. lia.
Qed.

Lemma sum_nonneg l : Forall (λ x, 0 ≤ x) l → 0 ≤ sum l.
Proof. unfold sum. induction 1; simpl; lia. Qed.

Lemma rep_reps_total_nonneg t :
  (∀ pre p kvs, rep pre p kvs → 0 ≤ total (Some t) p) ∧
  (∀ pre es kvs, reps pre es kvs → 0 ≤ sum (total (Some t) <$> es.*2)).
Proof.
  apply rep_reps_ind.
  - intros. rewrite total_leaf. simpl. case_decide; lia.
  - intros pre n kvs Hw Hr IH. rewrite (total_inode pre n kvs) by by constructor. cbn [inode_cost].
    case_decide; lia.
  - done.
  - intros pre b c es kv kvs Hr IHr Hrs IHs. cbn [fmap list_fmap snd sum foldr]. unfold sum in IHs.
    cbn [fmap list_fmap snd foldr] in *. lia.
Qed.

Lemma root_rep_counts root kvs :
  root_rep root kvs →
  total (Some LEAF) root = Z.of_nat (length kvs) ∧
  (∀ t, 0 ≤ total (Some t) root) ∧ (kvs ≠ [] → inode_total root < Z.of_nat (length kvs)) ∧
  (kvs = [] → inode_total root = 0) ∧
  total None root = entries_bytes kvs + 48 * total (Some I4) root + 160 * total (Some I16) root +
    656 * total (Some I48) root + 2064 * total (Some I256) root.
Proof.
  intros [[-> ->]|Hr]; [by split_and!|]. split_and!.
  - by eapply rep_reps_leaf_count.
  - intros t. by eapply rep_reps_total_nonneg.
  - intros _. pose proof (proj1 rep_reps_inode_count _ _ _ Hr). lia.
  - intros ->. by apply rep_nonempty in Hr.
  - by eapply rep_reps_memory.
Qed.

Lemma entries_bytes_map kvs :
  sorted kvs → entries_bytes (map_to_list (map_of kvs)) = entries_bytes kvs.
Proof.
  intros Hs. apply sum_perm. unfold map_of. by rewrite map_to_list_to_map by by apply sorted_NoDup_keys.
Qed.

(** The counters of an index of fewer than 2^64 entries. *)
Lemma db_repr_counts w m :
  db_repr w m → Z.of_nat (size m) < 2 ^ 64 →
  let s := env_stats (wenv w) in
  node_counts s LEAF = Z.of_nat (size m) ∧
  (∀ t, 0 ≤ node_counts s t) ∧
  node_counts s I4 + node_counts s I16 + node_counts s I48 + node_counts s I256 ≤ Z.of_nat (size m - 1) ∧
  current_memory_use s = wrap64 (entries_bytes (map_to_list m) + 48 * node_counts s I4 +
    160 * node_counts s I16 + 656 * node_counts s I48 + 2064 * node_counts s I256).
Proof.
  intros (kvs & Hr & -> & Ht) Hsz s. pose proof (root_rep_sorted _ _ Hr) as Hs.
  rewrite map_of_size in * by done. destruct (root_rep_counts _ _ Hr) as (Hl & Hnn & Hi & Hnil & Hm).
  assert (Hle : inode_total (slot w) ≤ Z.of_nat (length kvs - 1)).
  { destruct kvs as [|kv kvs]; [rewrite Hnil by done; done|]. specialize (Hi ltac:(done)). cbn [length] in *. lia. }
  assert (Hsmall : ∀ t, t ≠ LEAF → node_counts s t = total (Some t) (slot w)).
  { intros t Hne. pose proof (Ht (Some t)) as Hx. cbn [tally] in Hx. fold s in Hx. rewrite Hx.
    apply wrap_small. pose proof (Hnn I4). pose proof (Hnn I16). pose proof (Hnn I48). pose proof (Hnn I256).
    specialize (Hnn t). unfold inode_total in Hle. destruct t; [done|lia..]. }
  assert (Hleaf : node_counts s LEAF = Z.of_nat (length kvs)).
  { pose proof (Ht (Some LEAF)) as Hx. cbn [tally] in Hx. fold s in Hx. rewrite Hx, Hl. apply wrap_small. lia. }
  split; [done|]. split; [intros t; destruct (decide (t = LEAF)) as [->|]; [lia|by rewrite Hsmall]|].
  rewrite !Hsmall by done. split; [exact Hle|].
  pose proof (Ht None) as Hx. cbn [tally] in Hx. fold s in Hx. rewrite Hx, Hm, entries_bytes_map by done. done.
Qed.
End count.
