(* ===== verification/Iterator.v ===== *)
(** The iterator of [art.hpp]: a stack of the nodes on the path to a leaf, and the
    scans built on it. *)

From S2P Require Import Prelude Words ArtKey KeyPrefix SortedAssoc Simd InodeBase.
From S2P Require Import Inode4 Inode16 Inode48 Inode256 Heap Stats Leaf.
From S2P Require Import InodeSpec Inode Tree Db Buffer.

(** ** The state *)

(** A step of the path: an internal node, the key byte and child index it was left
    by, and its prefix; or the leaf at the end.
    [src/art_internal_impl.hpp:756-784] iter_result *)
Record stack_entry := IterResult {
  it_node : node_ptr;
  it_key_byte : Z;
  it_child_index : Z;
  it_prefix : key_prefix;
}.

(** The stack has its top first. The growth of the [std::stack] is taken not to fail.
    [src/art.hpp:409-445] stack_, keybuf_ *)
Record iterator := Iterator {
  db_root : node_ptr;
  stack_ : list stack_entry;
  keybuf_ : key_buffer;
}.

Section iterator.
Context `{Target, Allocator}.
#[local] Open Scope monad_scope.

(** [src/art.hpp:201-204] iterator *)
Definition new_iterator (root : node_ptr) (h : heap) : iterator := Iterator root [] (new_buffer h).

Definition with_keybuf {A} (m : M key_buffer A) : M iterator A := λ it,
  let '(r, b) := m (keybuf_ it) in (r, Iterator (db_root it) (stack_ it) b).

Definition set_stack (st : list stack_entry) : M iterator unit :=
  modify (λ it, Iterator (db_root it) st (keybuf_ it)).

(** [src/art.hpp:303-304] valid *)
Definition valid (it : iterator) : bool := match stack_ it with [] => false | _ => true end.

(** The top of the stack; of an empty stack, undefined.
    [src/art.hpp:386-390] top *)
Definition top : M iterator stack_entry :=
  it <- get;
  match stack_ it with [] => ub | e :: _ => ret e end.

(** The entry of an internal node at a position of one of its iteration
    functions. *)
Definition iter_result (inode : inode node_ptr) (pos : iter_pos) : stack_entry :=
  IterResult (InodeP inode) pos.1 pos.2 (get_key_prefix inode).

(** [src/art.hpp:341-354] push *)
Definition push_inode (node : node_ptr) (key_byte child_index : Z) (prefix : key_prefix) : M iterator unit :=
  it <- get;
  set_stack (IterResult node key_byte child_index prefix :: stack_ it);;
  with_keybuf (push_view (snapshot_key_view prefix));;
  with_keybuf (push_byte key_byte).

(** [src/art.hpp:356-366] push_leaf *)
Definition push_leaf (aleaf : node_ptr) : M iterator unit :=
  it <- get;
  set_stack (IterResult aleaf 0xFF 0xFF 0 :: stack_ it).

(** [src/art.hpp:368-375] push *)
Definition push (e : stack_entry) : M iterator unit :=
  (match ptr_type (it_node e) with LEAF => push_leaf (it_node e) | _ => ret tt end);;
  push_inode (it_node e) (it_key_byte e) (it_child_index e) (it_prefix e).

(** [src/art.hpp:377-384] pop *)
Definition pop : M iterator unit :=
  e <- top;
  with_keybuf (pop_bytes (Z.of_nat (prefix_length (it_prefix e))));;
  it <- get;
  set_stack (tl (stack_ it)).

(** [src/art.hpp:399-404] invalidate *)
Definition invalidate : M iterator unit :=
  set_stack [];;
  with_keybuf reset_buffer.

(** ** Traversal *)

(** [fuel] is the height of the node.
    [src/art.hpp:1139-1160] left_most_traversal *)
Fixpoint left_most_traversal (fuel : nat) (node : node_ptr) : M iterator unit :=
  match fuel with
  | O => out_of_fuel
  | S fuel =>
      match node with
      | Null => ub
      | LeafP _ => push_leaf node
      | InodeP inode =>
          e <- of_option (iter_result inode <$> Inode.begin inode);
          push e;;
          child <- of_option (get_child inode (it_child_index e));
          left_most_traversal fuel child
      end
  end.

(** [src/art.hpp:1162-1183] right_most_traversal *)
Fixpoint right_most_traversal (fuel : nat) (node : node_ptr) : M iterator unit :=
  match fuel with
  | O => out_of_fuel
  | S fuel =>
      match node with
      | Null => ub
      | LeafP _ => push_leaf node
      | InodeP inode =>
          e <- of_option (iter_result inode <$> Inode.last inode);
          push e;;
          child <- of_option (get_child inode (it_child_index e));
          right_most_traversal fuel child
      end
  end.

(** [src/art.hpp:1054-1066] first *)
Definition first : M iterator unit :=
  invalidate;;
  it <- get;
  match db_root it with Null => ret tt | node => left_most_traversal (height node) node end.

(** [src/art.hpp:1068-1077] last *)
Definition last : M iterator unit :=
  invalidate;;
  it <- get;
  match db_root it with Null => ret tt | node => right_most_traversal (height node) node end.

(** Each pass of the loop pops an entry. *)
Fixpoint next_loop (fuel : nat) : M iterator unit :=
  match fuel with
  | O => out_of_fuel
  | S fuel =>
      it <- get;
      match stack_ it with
      | [] => ret tt
      | e :: _ =>
          match it_node e with
          | Null => ub
          | LeafP _ => pop;; next_loop fuel
          | InodeP inode =>
              match iter_result inode <$> Inode.next inode (it_child_index e) with
              | None => pop;; next_loop fuel
              | Some e2 =>
                  pop;;
                  push e2;;
                  child <- of_option (get_child inode (it_child_index e2));
                  left_most_traversal (height child) child
              end
          end
      end
  end.

(** [src/art.hpp:1079-1107] next *)
Definition next : M iterator unit :=
  it <- get;
  next_loop (S (length (stack_ it))).

Fixpoint prior_loop (fuel : nat) : M iterator unit :=
  match fuel with
  | O => out_of_fuel
  | S fuel =>
      it <- get;
      match stack_ it with
      | [] => ret tt
      | e :: _ =>
          match it_node e with
          | Null => ub
          | LeafP _ => pop;; prior_loop fuel
          | InodeP inode =>
              match iter_result inode <$> Inode.prior inode (it_child_index e) with
              | None => pop;; prior_loop fuel
              | Some e2 =>
                  pop;;
                  push e2;;
                  child <- of_option (get_child inode (it_child_index e2));
                  right_most_traversal (height child) child
              end
          end
      end
  end.

(** [src/art.hpp:1109-1137] prior *)
Definition prior : M iterator unit :=
  it <- get;
  prior_loop (S (length (stack_ it))).

(** ** The current entry *)

(** The leaf at the top of the stack. *)
Definition current_leaf : M iterator basic_leaf :=
  e <- top;
  match it_node e with LeafP leaf => ret leaf | _ => ub end.

(** [src/art.hpp:1344-1358] get_key *)
Definition get_key : M iterator (list Z) :=
  leaf <- current_leaf;
  ret (leaf_get_key_view leaf).

(** [src/art.hpp:1361-1369] get_val *)
Definition get_val : M iterator (list Z) :=
  leaf <- current_leaf;
  ret (get_value_view leaf).

(** [src/art.hpp:317-332] cmp *)
Definition it_cmp (akey : art_key) : M iterator Z :=
  leaf <- current_leaf;
  ret (compare (leaf_get_key_view leaf) (get_key_view akey)).

(** ** Seeking *)

(** The loop that leaves a node with no child beyond the search key, forward.
    [src/art.hpp:1283-1295] seek *)
Fixpoint climb_fwd (fuel : nat) : M iterator unit :=
  match fuel with
  | O => out_of_fuel
  | S fuel =>
      it <- get;
      match stack_ it with
      | [] => ret tt
      | centry :: _ =>
          match it_node centry with
          | InodeP icnode =>
              match Inode.next icnode (it_child_index centry) with
              | Some _ =>
                  nchild <- of_option (get_child icnode (it_child_index centry));
                  left_most_traversal (height nchild) nchild
              | None => pop;; climb_fwd fuel
              end
          | _ => ub
          end
      end
  end.

(** The same, in reverse.
    [src/art.hpp:1313-1326] seek *)
Fixpoint climb_rev (fuel : nat) : M iterator unit :=
  match fuel with
  | O => out_of_fuel
  | S fuel =>
      it <- get;
      match stack_ it with
      | [] => ret tt
      | centry :: _ =>
          match it_node centry with
          | InodeP icnode =>
              match Inode.prior icnode (it_child_index centry) with
              | Some _ =>
                  nchild <- of_option (get_child icnode (it_child_index centry));
                  right_most_traversal (height nchild) nchild
              | None => pop;; climb_rev fuel
              end
          | _ => ub
          end
      end
  end.

(** [if (!empty()) pop();] *)
Definition pop_nonempty : M iterator unit :=
  it <- get;
  if valid it then pop else ret tt.

(** The result is [match]; every pass of the loop consumes a byte of the key.
    [src/art.hpp:1200-1341] seek *)
Fixpoint seek_loop (fuel : nat) (node : node_ptr) (k remaining_key : art_key) (fwd : bool) : M iterator bool :=
  match fuel with
  | O => out_of_fuel
  | S fuel =>
      match node with
      | Null => ub
      | LeafP leaf =>
          push_leaf node;;
          let cmp_ := leaf_cmp leaf k in
          if cmp_ =? 0 then ret true
          else if fwd then (if cmp_ <? 0 then ret tt else next);; ret false
          else (if 0 <? cmp_ then ret tt else prior);; ret false
      | InodeP inode =>
          let key_prefix := get_key_prefix inode in
          let key_prefix_length := prefix_length key_prefix in
          let shared_length := snapshot_get_shared_length key_prefix (get_u64 remaining_key) in
          if (shared_length <? key_prefix_length)%nat then
            key_byte <- of_option (index remaining_key shared_length);
            let cmp_ := key_byte - prefix_index key_prefix shared_length in
            if fwd then
              if cmp_ <? 0 then left_most_traversal (height node) node;; ret false
              else right_most_traversal (height node) node;; next;; ret false
            else
              if cmp_ <? 0 then left_most_traversal (height node) node;; prior;; ret false
              else right_most_traversal (height node) node;; ret false
          else
            remaining_key <- of_option (shift_right remaining_key key_prefix_length);
            key_byte <- of_option (index remaining_key 0);
            match find_child inode key_byte with
            | (_, None) =>
                if fwd then
                  match iter_result inode <$> gte_key_byte inode key_byte with
                  | None =>
                      pop_nonempty;;
                      it <- get;
                      climb_fwd (S (length (stack_ it)));;
                      ret false
                  | Some tmp =>
                      child <- of_option (get_child inode (it_child_index tmp));
                      push_inode node (it_key_byte tmp) (it_child_index tmp) (it_prefix tmp);;
                      left_most_traversal (height child) child;;
                      ret false
                  end
                else
                  match iter_result inode <$> lte_key_byte inode key_byte with
                  | None =>
                      pop_nonempty;;
                      it <- get;
                      climb_rev (S (length (stack_ it)));;
                      ret false
                  | Some tmp =>
                      child <- of_option (get_child inode (it_child_index tmp));
                      push_inode node (it_key_byte tmp) (it_child_index tmp) (it_prefix tmp);;
                      right_most_traversal (height child) child;;
                      ret false
                  end
            | (child_index, Some s) =>
                push_inode node key_byte child_index key_prefix;;
                child <- of_option (slot_load inode s);
                remaining_key <- of_option (shift_right remaining_key 1);
                seek_loop fuel child k remaining_key fwd
            end
      end
  end.

(** Positions the iterator; the result is [match].
    [src/art.hpp:1192-1199] seek *)
Definition seek (search_key : art_key) (fwd : bool) : M iterator bool :=
  invalidate;;
  it <- get;
  match db_root it with
  | Null => ret false
  | node => seek_loop (loop_fuel search_key) node search_key search_key fwd
  end.
End iterator.

(** ** Scans

    The caller's function sees the current key and value and may keep a state of
    its own, of type [F]; it asks for the scan to end by returning [true]. *)

Section scan.
Context `{Target, Allocator} {F : Type}.
#[local] Open Scope monad_scope.
Variable fn : list Z → list Z → F → bool * F.

Definition on_iterator {A} (m : M iterator A) : M (iterator * F) A := λ s,
  let '(r, it) := m s.1 in (r, (it, s.2)).

(** The function is applied to a visitor, which reads the iterator.
    [src/art_common.hpp:95-111] get_key, get_value *)
Definition visit_current : M (iterator * F) bool :=
  key <- on_iterator get_key;
  value <- on_iterator get_val;
  s <- get;
  let '(stop, f) := fn key value s.2 in
  modify (λ s, (s.1, f));;
  ret stop.

(** [while (it.valid() && continues) { if (fn(v)) break; step; }] *)
Fixpoint scan_loop (fuel : nat) (continues : M iterator bool) (step : M iterator unit) : M (iterator * F) unit :=
  match fuel with
  | O => out_of_fuel
  | S fuel =>
      s <- get;
      if valid s.1 then
        in_range <- on_iterator continues;
        if (in_range : bool) then
          stop <- visit_current;
          if (stop : bool) then ret tt
          else on_iterator step;; scan_loop fuel continues step
        else ret tt
      else ret tt
  end.

(** Every leaf is visited at most once. *)
Definition scan_fuel (root : node_ptr) : nat := S (Z.to_nat (total (Some LEAF) root)).

(** The life of an iterator within a scan: it is destroyed when the scan ends,
    also by an exception. *)
Definition with_iterator (m : nat → M (iterator * F) unit) : M (world * F) unit := λ s,
  let w := s.1 in
  let '(r, (it, f)) := m (scan_fuel (slot w)) (new_iterator (slot w) (env_heap (wenv w)), s.2) in
  let '(_, b) := destroy_buffer (keybuf_ it) in
  (r, (World (slot w) (Env (env_stats (wenv w)) (buf_heap b)), f)).

(** [src/art.hpp:1375-1395] scan *)
Definition scan (fwd : bool) : M (world * F) unit :=
  if fwd then with_iterator (λ fuel,
    on_iterator first;;
    scan_loop fuel (ret true) next)
  else with_iterator (λ fuel,
    on_iterator last;;
    scan_loop fuel (ret true) prior).

(** [src/art.hpp:1397-1419] scan_from *)
Definition scan_from (from_key : key_arg) (fwd : bool) : M (world * F) unit :=
  let from_key_ := art_key_of from_key in
  if fwd then with_iterator (λ fuel,
    on_iterator (seek from_key_ true);;
    scan_loop fuel (ret true) next)
  else with_iterator (λ fuel,
    on_iterator (seek from_key_ false);;
    scan_loop fuel (ret true) prior).

(** [src/art.hpp:1421-1469] scan_range *)
Definition scan_range (from_key to_key : key_arg) : M (world * F) unit :=
  let from_key_ := art_key_of from_key in
  let to_key_ := art_key_of to_key in
  ret_ <- of_option (cmp_key from_key_ to_key_);
  let fwd := ret_ <? 0 in
  if ret_ =? 0 then ret tt
  else if fwd then with_iterator (λ fuel,
    on_iterator (seek from_key_ true);;
    scan_loop fuel (c <- it_cmp to_key_; ret (c <? 0)) next)
  else with_iterator (λ fuel,
    on_iterator (seek from_key_ false);;
    scan_loop fuel (c <- it_cmp to_key_; ret (0 <? c)) prior).
End scan.
