(* ===== verification/IterSpec.v ===== *)
(** Where an iterator stands, and what its steps do to that place.

    A stack is the path from the root to a hole; the entries before and after the
    hole are those of the siblings passed on the way.  Every lemma holds in both
    directions. *)

From S2P Require Import Prelude Words ArtKey KeyPrefix SortedAssoc Simd InodeBase.
From S2P Require Import Inode4 Inode16 Inode48 Inode256 Heap Stats Leaf.
From S2P Require Import InodeSpec Inode Tree Db Buffer Iterator.

Notation kv := (list Z * list Z)%type.

(** ** Directions *)

(** What is still to come in direction [fwd], nearest first, between a part
    [before] and a part [after]. *)
Definition beyond {A} (fwd : bool) (before after : list A) : list A := if fwd then after else reverse before.

(** A list in the order of the direction. *)
Definition in_order {A} (fwd : bool) (l : list A) : list A := if fwd then l else reverse l.

Lemma beyond_app {A} fwd (b1 b2 a2 a1 : list A) :
  beyond fwd (b1 ++ b2) (a2 ++ a1) = beyond fwd b2 a2 ++ beyond fwd b1 a1.
Proof. destruct fwd; [done|]. apply reverse_app. Qed.

Section iter.
Context `{Target, Allocator}.

Definition edge (fwd : bool) (n : inode node_ptr) : option iter_pos := if fwd then begin n else Inode.last n.
Definition sibling (fwd : bool) (n : inode node_ptr) (i : Z) : option iter_pos :=
  if fwd then Inode.next n i else Inode.prior n i.
Definition traversal (fwd : bool) : nat → node_ptr → M iterator unit :=
  if fwd then left_most_traversal else right_most_traversal.
Definition step_loop (fwd : bool) : nat → M iterator unit := if fwd then next_loop else prior_loop.
Definition step (fwd : bool) : M iterator unit := if fwd then next else prior.

(** The first child in a direction. *)
Lemma edge_entry fwd (n : inode node_ptr) :
  node_wf n →
  ∃ es1 b c es2 i, entries n = es1 ++ (b, c) :: es2 ∧ beyond (negb fwd) es1 es2 = [] ∧
    edge fwd n = Some (b, i) ∧ child_at n i b c.
Proof.
  intros Hw. destruct fwd.
  - pose proof (begin_spec n Hw : pos_of n (head (entries n)) (begin n)) as Hp.
    destruct (entries n) as [|[b c] es] eqn:He; [by apply inode_nonempty in He|].
    destruct Hp as (i & Hp & Hat). by exists [], b, c, es, i.
  - pose proof (last_spec n Hw : pos_of n (list.last (entries n)) (Inode.last n)) as Hp.
    destruct (entries n) as [|[b c] es _] eqn:He using rev_ind; [by apply inode_nonempty in He|].
    rewrite last_snoc in Hp. destruct Hp as (i & Hp & Hat). by exists es, b, c, [], i.
Qed.
(** The next child in a direction. *)
Lemma sibling_pos fwd (n : inode node_ptr) es1 b c es2 i :
  node_wf n → entries n = es1 ++ (b, c) :: es2 → child_at n i b c →
  pos_of n (head (beyond fwd es1 es2)) (sibling fwd n i).
Proof.
  intros Hw He Hat. pose proof (wf_sorted n Hw) as Hs. rewrite He in Hs. destruct fwd; cbn [beyond sibling].
  - pose proof (next_spec n i b c Hw Hat : pos_of n _ (Inode.next n i)) as Hp. by rewrite He, filter_above in Hp.
  - pose proof (prior_spec n i b c Hw Hat : pos_of n _ (Inode.prior n i)) as Hp.
    rewrite He, filter_below in Hp by done. by rewrite head_reverse.
Qed.

(** ** Places in a tree *)

(** [ctx root stk c pre before after]: the path [stk] leads from [root], along the
    key bytes [pre], to the node [c]. *)
Inductive ctx (root : node_ptr) : list stack_entry → node_ptr → list Z → list kv → list kv → Prop :=
  | ctx_root : ctx root [] root [] [] []
  | ctx_step stk n pre before after es1 b c es2 k1 k2 i :
      ctx root stk (InodeP n) pre before after → node_wf n → entries n = es1 ++ (b, c) :: es2 →
      reps (pre ++ prefix_bytes (get_key_prefix n)) es1 k1 → reps (pre ++ prefix_bytes (get_key_prefix n)) es2 k2 →
      child_at n i b c →
      ctx root (iter_result n (b, i) :: stk) c ((pre ++ prefix_bytes (get_key_prefix n)) ++ [b])
        (before ++ k1) (k2 ++ after).

(** The bytes [pop] takes off the key buffer for the entries of a stack. *)
Fixpoint stack_bytes (stk : list stack_entry) : nat :=
  match stk with [] => 0 | e :: stk => prefix_length (it_prefix e) + stack_bytes stk end.

(** The stack, and a key buffer of at most [n] bytes from which it can be popped. *)
Definition it_at (it : iterator) (stk : list stack_entry) (n : nat) : Prop :=
  stack_ it = stk ∧ ∃ l, holds (keybuf_ it) l ∧ (stack_bytes stk ≤ length l ≤ n)%nat.

Definition leaf_entry (l : basic_leaf) : stack_entry := IterResult (LeafP l) 0xFF 0xFF 0.

(** On the leaf of entry [e], with [before] and [after] around it. *)
Definition positioned (it : iterator) (n : nat) (e : kv) (before after : list kv) : Prop :=
  ∃ l stk pre, ctx (db_root it) stk (LeafP l) pre before after ∧ leaf_holds l e.1 e.2 ∧ pre `prefix_of` e.1 ∧
    it_at it (leaf_entry l :: stk) n.

(** The entries [todo] of [all] are still to come, the current one first. *)
Definition stands (fwd : bool) (it : iterator) (n : nat) (todo all : list kv) : Prop :=
  match todo with
  | [] => it_at it [] n
  | e :: todo => ∃ before after, positioned it n e before after ∧ beyond fwd before after = todo ∧
      before ++ e :: after = all
  end.

Lemma it_at_weaken it stk n n' : it_at it stk n → (n ≤ n')%nat → it_at it stk n'.
Proof. intros (Hs & l & Hl & Hn) Hle. split; [done|]. exists l. split; [done|lia]. Qed.

Lemma stands_weaken fwd it n n' todo all : stands fwd it n todo all → (n ≤ n')%nat → stands fwd it n' todo all.
Proof.
  intros Hs Hle. destruct todo as [|e todo]; [by eapply it_at_weaken|].
  destruct Hs as (bf & af & (l & stk & pre & ? & ? & ? & Hat) & ? & ?). exists bf, af. split; [|done].
  exists l, stk, pre. split_and!; [done..|]. by eapply it_at_weaken.
Qed.

(** ** Runs *)

(** [m] returns in a state that satisfies [Q], or throws [bad_alloc] and leaves
    the key buffer whole. *)
Definition runs {A} (m : M iterator A) (it : iterator) (Q : A → iterator → Prop) : Prop :=
  ∃ r it', m it = (r, it') ∧ db_root it' = db_root it ∧
    ((∃ a, r = Ret a ∧ Q a it') ∨ (r = Throw bad_alloc ∧ ∃ l, holds (keybuf_ it') l)).

Lemma runs_ret {A} (a : A) it (Q : A → iterator → Prop) : Q a it → runs (ret a) it Q.
Proof. intros Hq. exists (Ret a), it. split_and!; [done..|]. left. by exists a. Qed.

Lemma runs_bind {A B} (m : M iterator A) (f : A → M iterator B) it Q R :
  runs m it Q → (∀ a it', db_root it' = db_root it → Q a it' → runs (f a) it' R) → runs (bind m f) it R.
Proof.
  intros (r & it' & Hm & Hr & [(a & -> & Hq)|(-> & Hl)]) Hf; unfold runs, bind; rewrite Hm.
  - destruct (Hf a it' Hr Hq) as (r & it'' & -> & Hr' & Hcase). exists r, it''. split_and!; [done|congruence|done].
  - exists (Throw bad_alloc), it'. split_and!; [done..|]. by right.
Qed.

Lemma runs_mono {A} (m : M iterator A) it (Q R : A → iterator → Prop) :
  runs m it Q → (∀ a it', db_root it' = db_root it → Q a it' → R a it') → runs m it R.
Proof.
  intros (r & it' & Hm & Hr & Hcase) Himp. exists r, it'. split_and!; [done..|].
  destruct Hcase as [(a & -> & Hq)|?]; [left; exists a; auto|by right].
Qed.

Lemma runs_step {A B} (m : M iterator A) (f : A → M iterator B) it a it' R :
  m it = (Ret a, it') → runs (f a) it' R → db_root it' = db_root it → runs (bind m f) it R.
Proof.
  intros Hm (r & it'' & Hf & Hr & Hcase) Hroot. exists r, it''. unfold bind. rewrite Hm. split_and!; [done|congruence|done].
Qed.

(** A buffer operation inside the iterator. *)
Lemma runs_append m bytes it l :
  appends m bytes → holds (keybuf_ it) l → Z.of_nat (length (l ++ bytes)) ≤ 2 ^ 63 →
  runs (with_keybuf m) it (λ _ it', stack_ it' = stack_ it ∧ holds (keybuf_ it') (l ++ bytes)).
Proof.
  intros Hm Hl Hsz. destruct (Hm _ _ Hl Hsz) as (r & b' & Hrun & Hcase).
  exists r, (Iterator (db_root it) (stack_ it) b'). unfold with_keybuf. rewrite Hrun. split_and!; [done..|].
  destruct Hcase as [(-> & Hb & _)|(-> & _ & k & Hb)]; [left; by exists tt|right; eauto].
Qed.

(** Room for [m] more bytes. *)
Definition room (n m : nat) : Prop := Z.of_nat (n + m) ≤ 2 ^ 63.

Lemma push_inode_spec it stk n p b i w :
  it_at it stk n → prefix_wf w → room n (prefix_length w + 1) →
  runs (push_inode p b i w) it (λ _ it', it_at it' (IterResult p b i w :: stk) (n + prefix_length w + 1)).
Proof.
  intros (Hs & l & Hl & Hn) Hw Hroom. unfold room in Hroom.
  assert (Hlen : length (snapshot_key_view w) = prefix_length w) by apply length_prefix_bytes.
  eapply (runs_step get); [done| |done]. eapply (runs_step (set_stack _)); [done| |done]. rewrite Hs.
  eapply runs_bind; [apply (runs_append _ (snapshot_key_view w) _ l); [apply push_view_appends|done|rewrite length_app; lia]|].
  intros [] it1 Hr1 [Hs1 Hl1]. cbn [stack_] in Hs1.
  eapply runs_mono; [apply (runs_append _ [b] _ (l ++ snapshot_key_view w)); [apply push_byte_appends|done|]|].
  { rewrite !length_app. cbn [length]. lia. }
  intros [] it2 Hr2 [Hs2 Hl2]. split; [by rewrite Hs2|]. eexists. split; [exact Hl2|].
  cbn [stack_bytes it_prefix]. rewrite !length_app. cbn [length]. lia.
Qed.

Lemma push_leaf_spec it stk n l : it_at it stk n →
  ∃ it', push_leaf (LeafP l) it = (Ret tt, it') ∧ db_root it' = db_root it ∧ it_at it' (leaf_entry l :: stk) n.
Proof.
  intros (Hs & bs & Hl & Hn). eexists. split; [done|]. split; [done|]. cbn [stack_ keybuf_]. rewrite Hs. split; [done|].
  by exists bs.
Qed.

Lemma pop_spec it e stk n : it_at it (e :: stk) n →
  ∃ it', pop it = (Ret tt, it') ∧ db_root it' = db_root it ∧ it_at it' stk n.
Proof.
  intros (Hs & l & Hl & Hn). cbn [stack_bytes] in Hn.
  destruct (pop_bytes_edits (prefix_length (it_prefix e)) (keybuf_ it) l) as (b' & Hp & Hb'); [done|lia|].
  eexists. split; [|split; [|split]].
  - unfold pop, bind at 1, top, bind at 1, get. rewrite Hs. cbn [ret]. unfold bind, with_keybuf. by rewrite Hp.
  - done.
  - cbn [stack_]. by rewrite Hs.
  - cbn [keybuf_]. eexists. split; [exact Hb'|]. rewrite length_take. lia.
Qed.

(** ** Descending *)

(** The length of the key nearest in a list. *)
Definition first_bytes (l : list kv) : nat := match l with [] => 0 | e :: _ => length e.1 end.

Lemma beyond_nil {A} fwd (l1 l2 : list A) : beyond fwd l1 l2 = [] → if fwd then l2 = [] else l1 = [].
Proof. destruct fwd; [done|]. cbn. intros Hr. apply (f_equal reverse) in Hr. by rewrite reverse_involutive in Hr. Qed.

(** Where nothing lies behind it, a part comes first. *)
Lemma in_order_behind {A} fwd (a m z : list A) :
  beyond (negb fwd) a z = [] → in_order fwd (a ++ m ++ z) = in_order fwd m ++ beyond fwd a z.
Proof.
  intros Hn%beyond_nil. destruct fwd; cbn in *; subst; [done|]. by rewrite app_nil_r, reverse_app.
Qed.

Lemma in_order_cons {A} fwd k1 (e : A) k2 :
  beyond (negb fwd) k1 k2 = [] → in_order fwd (k1 ++ e :: k2) = e :: beyond fwd k1 k2.
Proof. intros Hn. etransitivity; [exact (in_order_behind fwd k1 [e] k2 Hn)|by destruct fwd]. Qed.

Lemma in_order_nonempty {A} fwd (l : list A) : l ≠ [] → ∃ e l', in_order fwd l = e :: l' ∧ e ∈ l.
Proof.
  intros Hl. destruct (in_order fwd l) as [|e l'] eqn:E.
  - destruct fwd; [done|]. cbn in E. apply (f_equal reverse) in E. by rewrite reverse_involutive in E.
  - exists e, l'. split; [done|]. assert (He : e ∈ in_order fwd l) by (rewrite E; apply elem_of_cons; by left).
    destruct fwd; cbn in He; [done|]. by rewrite elem_of_reverse in He.
Qed.

Lemma reps_nil_inv pre k : reps pre [] k → k = [].
Proof. by inversion 1. Qed.

Lemma reps_beyond_nil fwd pre es1 es2 k1 k2 :
  reps pre es1 k1 → reps pre es2 k2 → beyond fwd es1 es2 = [] → beyond fwd k1 k2 = [].
Proof. intros H1 H2 Hn%beyond_nil. destruct fwd; subst; [by eapply reps_nil_inv|by apply reps_nil_inv in H1 as ->]. Qed.

Lemma push_iter_result (n : inode node_ptr) pos it :
  push (iter_result n pos) it = push_inode (InodeP n) pos.1 pos.2 (get_key_prefix n) it.
Proof. by destruct n. Qed.

Lemma push_spec it stk k (n : inode node_ptr) pos :
  it_at it stk k → node_wf n → room k (prefix_length (get_key_prefix n) + 1) →
  runs (push (iter_result n pos)) it
    (λ _ it', it_at it' (iter_result n pos :: stk) (k + prefix_length (get_key_prefix n) + 1)).
Proof.
  intros Hat Hw Hroom. unfold runs. rewrite push_iter_result.
  by apply push_inode_spec; [|apply inode_prefix_wf|].
Qed.

#[local] Open Scope monad_scope.

Lemma traversal_inode fwd fuel (n : inode node_ptr) :
  traversal fwd (S fuel) (InodeP n) = (e <- of_option (iter_result n <$> edge fwd n);
    push e;; child <- of_option (get_child n (it_child_index e)); traversal fwd fuel child)%monad.
Proof. by destruct fwd. Qed.

(** Pushing the entry of a child and going on below it. *)
Lemma push_child_spec {B} (n : inode node_ptr) b i c it stk k (f : M iterator B) R :
  it_at it stk k → node_wf n → child_at n i b c → room k (prefix_length (get_key_prefix n) + 1) →
  (∀ it', db_root it' = db_root it →
    it_at it' (iter_result n (b, i) :: stk) (k + prefix_length (get_key_prefix n) + 1) → runs f it' R) →
  runs (push (iter_result n (b, i));; f)%monad it R.
Proof.
  intros Hat Hw Hc Hroom Hf. eapply runs_bind; [by apply push_spec|]. intros [] it' Hr Hat'. by apply Hf.
Qed.

Lemma below_child_bytes pre (n : inode node_ptr) b c kc e :
  rep ((pre ++ prefix_bytes (get_key_prefix n)) ++ [b]) c kc → e ∈ kc →
  (length pre + prefix_length (get_key_prefix n) + 1 ≤ length e.1)%nat.
Proof.
  intros Hr He. apply rep_keys in Hr. rewrite Forall_forall in Hr. destruct (Hr e He) as [[x ->] _].
  rewrite !length_app, length_prefix_bytes. cbn [length]. lia.
Qed.

(** A traversal ends on the first entry of the subtree in its direction. *)
Lemma traversal_spec fwd fuel pre c kvs it stk before after n :
  rep pre c kvs → ctx (db_root it) stk c pre before after → it_at it stk n → (height c ≤ fuel)%nat →
  room n (first_bytes (in_order fwd kvs) - length pre) →
  runs (traversal fwd fuel c) it (λ _ it', ∃ k1 e k2, kvs = k1 ++ e :: k2 ∧ beyond (negb fwd) k1 k2 = [] ∧
    positioned it' (n + (length e.1 - length pre)) e (before ++ k1) (k2 ++ after)).
Proof.
  revert pre c kvs it stk before after n. induction fuel as [|fuel IH]; intros pre c kvs it stk before after n Hr Hctx Hat Hf Hroom.
  { destruct c; [by inversion Hr|cbn in Hf; lia..]. }
  destruct c as [|l|m]; [by inversion Hr| |].
  - inversion Hr as [? ? k v Hl Hp|]; subst. destruct (push_leaf_spec _ _ _ l Hat) as (it' & Hpush & Hroot & Hat').
    exists (Ret tt), it'. split_and!; [by destruct fwd|done|]. left. exists tt. split; [done|].
    exists [], (k, v), []. split_and!; [done|by destruct fwd|]. rewrite app_nil_r. exists l, stk, pre.
    rewrite Hroot. split_and!; [done..|]. eapply it_at_weaken; [exact Hat'|lia].
  - inversion Hr as [|? ? ? Hw Hrs]; subst.
    destruct (edge_entry fwd m Hw) as (es1 & b & c & es2 & i & He & Hbe & Hedge & Hat_i).
    rewrite He in Hrs. apply reps_app in Hrs as (k1 & kr & -> & H1 & H2).
    inversion H2 as [|? ? ? ? kc k2 Hc Hes2]; subst.
    pose proof (reps_beyond_nil (negb fwd) _ _ _ _ _ H1 Hes2 Hbe) as Hbk.
    destruct (in_order_nonempty fwd kc (rep_nonempty _ _ _ Hc)) as (e0 & rest & He0 & Hin).
    pose proof (below_child_bytes _ _ _ _ _ _ Hc Hin) as Hbytes.
    rewrite (in_order_behind fwd k1 kc k2 Hbk), He0 in Hroom. cbn [first_bytes app] in Hroom.
    rewrite traversal_inode, Hedge. cbn [fmap option_fmap option_map of_option].
    eapply runs_step; [done| |done]. apply (push_child_spec m b i c _ _ _ _ _ Hat Hw Hat_i).
    { unfold room in *. lia. }
    intros it' Hroot Hat'. cbn [it_child_index iter_result snd].
    pose proof (get_child_at m i b c Hw Hat_i : get_child m i = Some c) as ->.
    eapply runs_step; [done| |done].
    pose proof (height_child m b c Hw) as Hh. rewrite He in Hh.
    specialize (Hh ltac:(apply elem_of_app; right; apply elem_of_cons; by left)).
    eapply runs_mono.
    + apply (IH ((pre ++ prefix_bytes (get_key_prefix m)) ++ [b]) c kc it' (iter_result m (b, i) :: stk)
        (before ++ k1) (k2 ++ after) (n + prefix_length (get_key_prefix m) + 1)%nat Hc); [rewrite Hroot; by eapply ctx_step|exact Hat'|lia|].
      rewrite He0. cbn [first_bytes]. rewrite !length_app, length_prefix_bytes. cbn [length]. unfold room in *. lia.
    + intros [] it'' Hroot' (x1 & e & x2 & -> & Hx & l & stk' & pre' & Hctx' & Hl & Hp & Hat'').
      exists (k1 ++ x1), e, (x2 ++ k2). split; [by rewrite <- !app_assoc|]. split; [by rewrite beyond_app, Hx, Hbk|].
      rewrite <- !app_assoc in Hctx'. rewrite <- !app_assoc. exists l, stk', pre'. split_and!; [done..|].
      eapply it_at_weaken; [exact Hat''|]. rewrite !length_app, length_prefix_bytes. cbn [length].
      assert (Hex : e ∈ x1 ++ e :: x2) by (apply elem_of_app; right; apply elem_of_cons; by left).
      pose proof (below_child_bytes _ _ _ _ _ _ Hc Hex). lia.
Qed.

(** The same, as a place from which the rest is still to come. *)
Lemma traversal_stands fwd pre c kvs it stk before after n all :
  rep pre c kvs → ctx (db_root it) stk c pre before after → it_at it stk n → before ++ kvs ++ after = all →
  room n (first_bytes (in_order fwd kvs) - length pre) →
  runs (traversal fwd (height c) c) it (λ _ it', stands fwd it' (n + (first_bytes (in_order fwd kvs) - length pre))
    (in_order fwd kvs ++ beyond fwd before after) all).
Proof.
  intros Hr Hctx Hat <- Hroom. eapply runs_mono; [by eapply traversal_spec|].
  intros [] it' Hroot (k1 & e & k2 & -> & Hn & Hp). rewrite (in_order_cons _ _ _ _ Hn). cbn [app stands first_bytes].
  exists (before ++ k1), (k2 ++ after). split_and!; [done|apply beyond_app|by rewrite <- !app_assoc].
Qed.

(** Into a child of a node, pushing the node. *)
Lemma push_traversal_stands fwd (m : inode node_ptr) b i c kc it stk pre before after n all :
  let path := (pre ++ prefix_bytes (get_key_prefix m)) ++ [b] in
  rep path c kc → ctx (db_root it) (iter_result m (b, i) :: stk) c path before after → it_at it stk n →
  node_wf m → before ++ kc ++ after = all → room n (first_bytes (in_order fwd kc)) →
  runs (push_inode (InodeP m) b i (get_key_prefix m);; traversal fwd (height c) c) it
    (λ _ it', stands fwd it' (n + first_bytes (in_order fwd kc)) (in_order fwd kc ++ beyond fwd before after) all).
Proof.
  intros path Hr Hctx Hat Hw Hall Hroom.
  destruct (in_order_nonempty fwd kc (rep_nonempty _ _ _ Hr)) as (e0 & rest & He0 & Hin).
  pose proof (below_child_bytes _ _ _ _ _ _ Hr Hin) as Hbytes.
  assert (Hlen : length path = (length pre + prefix_length (get_key_prefix m) + 1)%nat)
    by (unfold path; by rewrite !length_app, length_prefix_bytes).
  rewrite He0 in Hroom. cbn [first_bytes] in Hroom. eapply runs_bind.
  { apply push_inode_spec; [done|by apply inode_prefix_wf|unfold room in *; lia]. }
  intros [] it2 Hroot2 Hat2. eapply runs_mono.
  - eapply (traversal_stands fwd path c kc); [done|by rewrite Hroot2|exact Hat2|exact Hall|].
    rewrite He0. cbn [first_bytes]. unfold room in *. lia.
  - intros [] it3 _ Hst. eapply stands_weaken; [exact Hst|]. rewrite He0. cbn [first_bytes]. lia.
Qed.

Lemma enter_child_stands fwd (m : inode node_ptr) b i c kc it stk pre before after n all :
  let path := (pre ++ prefix_bytes (get_key_prefix m)) ++ [b] in
  rep path c kc → ctx (db_root it) (iter_result m (b, i) :: stk) c path before after → it_at it stk n →
  node_wf m → child_at m i b c → before ++ kc ++ after = all → room n (first_bytes (in_order fwd kc)) →
  runs (push (iter_result m (b, i));; child <- of_option (get_child m i); traversal fwd (height child) child) it
    (λ _ it', stands fwd it' (n + first_bytes (in_order fwd kc)) (in_order fwd kc ++ beyond fwd before after) all).
Proof.
  intros path Hr Hctx Hat Hw Hati Hall Hroom. pose proof (get_child_at m i b c Hw Hati : get_child m i = Some c) as ->.
  pose proof (push_traversal_stands fwd m b i c kc it stk pre before after n all Hr Hctx Hat Hw Hall Hroom) as Hrun.
  unfold runs, bind in *. by rewrite push_iter_result.
Qed.

(** ** Stepping *)

(** At a node [n], with the children [mid] in the middle behind: either nothing is
    left beyond them in [n], or the nearest child beyond is the new hole. *)
Lemma hop_ctx fwd root stk (n : inode node_ptr) pre before after es1 mid es2 k1 km k2 r :
  ctx root stk (InodeP n) pre before after → node_wf n → entries n = es1 ++ mid ++ es2 →
  let path := pre ++ prefix_bytes (get_key_prefix n) in
  reps path es1 k1 → reps path mid km → reps path es2 k2 → pos_of n (head (beyond fwd es1 es2)) r →
  (r = None ∧ beyond fwd k1 k2 = []) ∨
  (∃ b c i kc k1' k2', r = Some (b, i) ∧ child_at n i b c ∧ rep (path ++ [b]) c kc ∧
    ctx root (iter_result n (b, i) :: stk) c (path ++ [b]) (before ++ k1') (k2' ++ after) ∧
    k1' ++ kc ++ k2' = k1 ++ km ++ k2 ∧ beyond fwd k1 k2 = in_order fwd kc ++ beyond fwd k1' k2').
Proof.
  intros Hctx Hw He path H1 Hm H2 Hr. destruct (beyond fwd es1 es2) as [|[b c] es] eqn:Hb.
  { left. split; [done|by eapply reps_beyond_nil]. }
  right. destruct Hr as (i & -> & Hat). destruct fwd; cbn [beyond] in Hb.
  - subst es2. inversion H2 as [|? ? ? ? kc k2' Hc H2']; subst. exists b, c, i, kc, (k1 ++ km), k2'.
    split_and!; [done..| |by rewrite <- !app_assoc|done].
    eapply (ctx_step _ _ _ _ _ _ (es1 ++ mid)); [done|done|by rewrite <- app_assoc| |done|done].
    apply reps_app. by exists k1, km.
  - apply (f_equal reverse) in Hb. rewrite reverse_involutive, reverse_cons in Hb. subst es1.
    apply reps_app in H1 as (k1' & kc & -> & H1 & Hc%reps_single). exists b, c, i, kc, k1', (km ++ k2).
    split_and!; [done..| |by rewrite <- !app_assoc|cbn; by rewrite reverse_app].
    rewrite <- app_assoc in He. eapply (ctx_step _ _ _ _ _ _ _ _ _ (mid ++ es2)); [done|done|exact He|done| |done].
    apply reps_app. by exists km, k2.
Qed.

(** One step up the stack. *)
Lemma ctx_up fwd root e stk c pre before after kc :
  ctx root (e :: stk) c pre before after → rep pre c kc →
  ∃ n pre' before' after' k1 k2, ctx root stk (InodeP n) pre' before' after' ∧ rep pre' (InodeP n) (k1 ++ kc ++ k2) ∧
    before = before' ++ k1 ∧ after = k2 ++ after' ∧ beyond fwd before after = beyond fwd k1 k2 ++ beyond fwd before' after'.
Proof.
  intros Hctx Hr. inversion Hctx as [|stk' m pre' bf af es1 b c' es2 k1 k2 i Hctx' Hw He H1 H2 Hati]; subst.
  exists m, pre', bf, af, k1, k2. split_and!; [done| |done|done|by rewrite beyond_app].
  constructor; [done|]. rewrite He. apply reps_app. exists k1, (kc ++ k2). split_and!; [done..|]. by constructor.
Qed.

Lemma step_loop_inode fwd fuel it (n : inode node_ptr) pos stk :
  stack_ it = iter_result n pos :: stk →
  step_loop fwd (S fuel) it =
    match iter_result n <$> sibling fwd n pos.2 with
    | None => (pop;; step_loop fwd fuel) it
    | Some e => (pop;; push e;; child <- of_option (get_child n (it_child_index e));
                 traversal fwd (height child) child) it
    end.
Proof.
  intros Hs. destruct fwd; cbn [step_loop next_loop prior_loop sibling traversal]; unfold bind at 1, get; rewrite Hs;
    cbn [it_node iter_result it_child_index];
    by destruct (iter_result n <$> _).
Qed.

Lemma step_loop_leaf fwd fuel it l stk :
  stack_ it = leaf_entry l :: stk → step_loop fwd (S fuel) it = (pop;; step_loop fwd fuel) it.
Proof. intros Hs. destruct fwd; cbn [step_loop next_loop prior_loop]; unfold bind at 1, get; by rewrite Hs. Qed.

(** From a hole, the loop reaches the nearest entry beyond it, or the end. *)
Lemma step_loop_spec fwd fuel stk it c pre before after kc n all :
  ctx (db_root it) stk c pre before after → rep pre c kc → before ++ kc ++ after = all →
  it_at it stk n → (length stk < fuel)%nat → room n (first_bytes (beyond fwd before after)) →
  runs (step_loop fwd fuel) it
    (λ _ it', stands fwd it' (n + first_bytes (beyond fwd before after)) (beyond fwd before after) all).
Proof.
  revert stk it c pre before after kc. induction fuel as [|fuel IH]; intros stk it c pre before after kc Hctx Hr Hall Hat Hf Hroom; [lia|].
  inversion Hctx as [|stk' m pre' bf af es1 b c' es2 k1 k2 i Hctx' Hw He H1 H2 Hati]; subst; pose proof Hat as [Hs _].
  { destruct fwd; (exists (Ret tt), it; split_and!; [|done|left; exists tt; split; [done|];
      eapply it_at_weaken; [exact Hat|lia]]); unfold step_loop, next_loop, prior_loop, bind, get; by rewrite Hs. }
  destruct (pop_spec _ _ _ _ Hat) as (it1 & Hpop & Hroot1 & Hat1).
  unfold runs. rewrite (step_loop_inode _ _ _ _ _ _ Hs). cbn [snd]. rewrite !beyond_app in *.
  assert (Hm : reps (pre' ++ prefix_bytes (get_key_prefix m)) [(b, c)] kc) by by apply reps_single.
  destruct (hop_ctx fwd _ _ _ _ _ _ _ [(b, c)] _ _ _ _ _ Hctx' Hw He H1 Hm H2 (sibling_pos fwd m _ _ _ _ _ Hw He Hati))
    as [[-> Hnil]|(b' & c'' & i' & kc' & k1' & k2' & -> & Hat' & Hr' & Hctx'' & Heq & Hby)].
  - rewrite Hnil in *. cbn [fmap option_fmap option_map app] in *. eapply runs_step; [exact Hpop| |done].
    apply (IH stk' it1 (InodeP m) pre' bf af (k1 ++ kc ++ k2)); [by rewrite Hroot1| |by rewrite <- !app_assoc|done|cbn [length] in Hf; lia|done].
    constructor; [done|]. rewrite He. apply reps_app. exists k1, (kc ++ k2). split_and!; [done..|]. by constructor.
  - cbn [fmap option_fmap option_map]. rewrite Hby in *.
    assert (Hroom' : room n (first_bytes (in_order fwd kc'))).
    { destruct (in_order_nonempty fwd kc' (rep_nonempty _ _ _ Hr')) as (e0 & rest & He0 & _). by rewrite He0 in *. }
    eapply runs_step; [exact Hpop| |done]. eapply runs_mono.
    + apply (enter_child_stands fwd m b' i' c'' kc' it1 stk' pre' (bf ++ k1') (k2' ++ af) n ((bf ++ k1) ++ kc ++ k2 ++ af) Hr');
        [by rewrite Hroot1|exact Hat1|done|exact Hat'| |done].
      rewrite <- !app_assoc. f_equal. rewrite (app_assoc kc' k2'), (app_assoc k1'), Heq. by rewrite <- !app_assoc.
    + intros [] it2 _ Hst. destruct (in_order_nonempty fwd kc' (rep_nonempty _ _ _ Hr')) as (e0 & rest & He0 & _).
      rewrite He0, beyond_app in *. by rewrite <- app_assoc.
Qed.

(** [next] and [prior] drop the first of the entries to come. *)
Lemma step_spec fwd it n e todo all :
  stands fwd it n (e :: todo) all → room n (first_bytes todo) →
  runs (step fwd) it (λ _ it', stands fwd it' (n + first_bytes todo) todo all).
Proof.
  intros (before & after & (l & stk & pre & Hctx & Hl & Hp & Hat) & <- & <-) Hroom.
  destruct (pop_spec _ _ _ _ Hat) as (it1 & Hpop & Hroot & Hat1). pose proof (proj1 Hat) as Hs.
  assert (Hrun : step fwd it = (pop;; step_loop fwd (S (length stk))) it).
  { rewrite <- (step_loop_leaf _ _ _ _ _ Hs). destruct fwd; unfold step, next, prior, bind at 1, get; by rewrite Hs. }
  unfold runs. rewrite Hrun. eapply runs_step; [exact Hpop| |done].
  apply (step_loop_spec fwd _ stk it1 (LeafP l) pre before after [e]); [by rewrite Hroot| |done|done|lia|done].
  destruct e as [k v]. by constructor.
Qed.

(** Turning round. *)
Lemma stands_turn fwd it n e todo all : stands fwd it n (e :: todo) all →
  ∃ behind, stands (negb fwd) it n (e :: behind) all ∧ in_order (negb fwd) all = reverse todo ++ e :: behind.
Proof.
  intros (before & after & Hp & <- & <-). exists (beyond (negb fwd) before after). split.
  - by exists before, after.
  - destruct fwd; cbn [negb in_order beyond]; [by rewrite reverse_app, reverse_cons, <- app_assoc|by rewrite reverse_involutive].
Qed.

(** [invalidate] leaves an empty stack and an empty key buffer. *)
Lemma invalidate_spec it l : holds (keybuf_ it) l →
  ∃ it', invalidate it = (Ret tt, it') ∧ db_root it' = db_root it ∧ it_at it' [] 0.
Proof.
  intros Hl. destruct (reset_holds _ _ Hl) as (b' & Hr & Hb').
  exists (Iterator (db_root it) [] b'). split; [|by split; [|split; [|exists []]]].
  unfold invalidate, bind, set_stack, modify, with_keybuf. cbn [keybuf_]. by rewrite Hr.
Qed.

Lemma new_iterator_at root h : it_at (new_iterator root h) [] 0.
Proof. split; [done|]. exists []. split; [apply new_buffer_holds|done]. Qed.

(** [first] and [last] have every entry still to come. *)
Definition extreme (fwd : bool) : M iterator unit := if fwd then first else last.

Lemma extreme_spec fwd it l all :
  holds (keybuf_ it) l → root_rep (db_root it) all → room 0 (first_bytes (in_order fwd all)) →
  runs (extreme fwd) it (λ _ it', stands fwd it' (first_bytes (in_order fwd all)) (in_order fwd all) all).
Proof.
  intros Hl Hrep Hroom. destruct (invalidate_spec it l Hl) as (it1 & Hinv & Hroot & Hat).
  assert (Hrun : extreme fwd it = (invalidate;; it <- get;
    match db_root it with Null => ret tt | node => traversal fwd (height node) node end) it) by by destruct fwd.
  unfold runs. rewrite Hrun. eapply runs_step; [exact Hinv| |done]. eapply runs_step; [done| |done].
  rewrite Hroot. destruct Hrep as [[-> ->]|Hr].
  - apply runs_ret. by destruct fwd.
  - assert (Hm : match db_root it with Null => ret tt | node => traversal fwd (height node) node end =
        traversal fwd (height (db_root it)) (db_root it)) by (destruct (db_root it); [by inversion Hr|done..]).
    rewrite Hm. eapply runs_mono.
    + eapply traversal_stands; [exact Hr|rewrite Hroot; constructor|exact Hat|cbn; by rewrite app_nil_r|].
      by rewrite Nat.sub_0_r.
    + intros [] it2 _ Hst. cbn [length] in Hst. rewrite Nat.sub_0_r in Hst.
      replace (in_order fwd all ++ beyond fwd [] []) with (in_order fwd all) in Hst by (destruct fwd; cbn; by rewrite app_nil_r).
      exact Hst.
Qed.

(** ** Reading *)

Lemma stands_valid fwd it n todo all : stands fwd it n todo all → valid it = match todo with [] => false | _ => true end.
Proof.
  intros Hs. unfold valid. destruct todo as [|e todo]; [by destruct Hs as [-> _]|].
  destruct Hs as (bf & af & (l & stk & pre & _ & _ & _ & [-> _]) & _). done.
Qed.

Lemma stands_leaf fwd it n e todo all : stands fwd it n (e :: todo) all →
  ∃ l, current_leaf it = (Ret l, it) ∧ leaf_holds l e.1 e.2.
Proof.
  intros (bf & af & (l & stk & pre & _ & Hl & _ & [Hs _]) & _). exists l. split; [|done].
  unfold current_leaf, top, bind, get. by rewrite Hs.
Qed.

Lemma get_key_spec fwd it n e todo all : stands fwd it n (e :: todo) all → get_key it = (Ret e.1, it).
Proof.
  intros (l & Hl & Hh)%stands_leaf. unfold get_key, bind. rewrite Hl. unfold ret. by rewrite (leaf_holds_key _ _ _ Hh).
Qed.

Lemma get_val_spec fwd it n e todo all : stands fwd it n (e :: todo) all → get_val it = (Ret e.2, it).
Proof.
  intros (l & Hl & Hh)%stands_leaf. unfold get_val, bind. rewrite Hl. unfold ret. by rewrite (leaf_holds_value _ _ _ Hh).
Qed.

Lemma it_cmp_spec fwd it n e todo all k :
  stands fwd it n (e :: todo) all → it_cmp k it = (Ret (compare e.1 (get_key_view k)), it).
Proof.
  intros (l & Hl & Hh)%stands_leaf. unfold it_cmp, bind. rewrite Hl. unfold ret. by rewrite (leaf_holds_key _ _ _ Hh).
Qed.
End iter.
