(* ===== verification/SeekSpec.v ===== *)
(** Seeking: where the iterator stands after [seek], and the searches for which
    that is not the nearest entry. *)

From S2P Require Import Prelude Words ArtKey KeyPrefix SortedAssoc Simd InodeBase.
From S2P Require Import Inode4 Inode16 Inode48 Inode256 Heap Stats Leaf.
From S2P Require Import InodeSpec Inode Tree Db DbLookup Buffer Iterator IterSpec.

(** The entries at or beyond a key, nearest first: what [seek] promises. *)
Definition from_here (fwd : bool) (key : list Z) (l : list kv) : list kv :=
  if fwd then filter (λ e, lex e.1 key ≠ Lt) l else reverse (filter (λ e, lex e.1 key ≠ Gt) l).

Lemma from_here_middle (fwd : bool) (key : list Z) (before m after : list kv) :
  below before key → above after key →
  from_here fwd key (before ++ m ++ after) = from_here fwd key m ++ beyond fwd before after.
Proof.
  intros Hb Ha. unfold below, above, klt, kcmp, bytes_ord in *. rewrite Forall_forall in Hb, Ha.
  destruct fwd; cbn [from_here beyond]; rewrite !filter_app.
  - rewrite (filter_none _ before), (filter_all _ after); [done| |].
    + apply Forall_forall. intros e He. rewrite lex_antisym, (Ha e He). done.
    + intros j e Hj%list_elem_of_lookup_2. rewrite (Hb e Hj). naive_solver.
  - rewrite (filter_all _ before), (filter_none _ after); [by rewrite app_nil_r, reverse_app| |].
    + intros j e Hj%list_elem_of_lookup_2. rewrite lex_antisym, (Ha e Hj). naive_solver.
    + apply Forall_forall. intros e He. by rewrite (Hb e He).
Qed.

Lemma from_here_all (fwd : bool) (key : list Z) (m : list kv) :
  Forall (λ e : kv, lex e.1 key = if fwd then Gt else Lt) m → from_here fwd key m = in_order fwd m.
Proof.
  intros Hm. rewrite Forall_forall in Hm.
  destruct fwd; cbn [from_here in_order]; rewrite filter_all; try done; apply Forall_forall; intros e He; by rewrite (Hm e He).
Qed.

Lemma from_here_none (fwd : bool) (key : list Z) (m : list kv) :
  Forall (λ e : kv, lex e.1 key = if fwd then Lt else Gt) m → from_here fwd key m = [].
Proof.
  intros Hm. rewrite Forall_forall in Hm. destruct fwd; cbn [from_here]; rewrite filter_none; try done;
    intros j e Hj%list_elem_of_lookup_2; rewrite (Hm e Hj); naive_solver.
Qed.

Section seek.
Context `{Target, Allocator}.
#[local] Open Scope monad_scope.

(** ** The searches that go astray

    When the search key follows the tree to an internal node but has no child at
    or beyond its byte there, [seek] looks for the nearest sibling of that node in
    the wrong place. *)
Fixpoint dead_end (fuel : nat) (fwd : bool) (node : node_ptr) (remaining_key : art_key) : bool :=
  match fuel, node with
  | S fuel, InodeP inode =>
      let w := get_key_prefix inode in
      if (get_shared_length w (get_u64 remaining_key) <? prefix_length w)%nat then false
      else
        match remaining_key ← shift_right remaining_key (prefix_length w);
              b ← index remaining_key 0; Some (remaining_key, b) with
        | None => false
        | Some (remaining_key, b) =>
            match (find_child inode b).2 with
            | Some s =>
                match child ← slot_load inode s; remaining_key ← shift_right remaining_key 1; Some (child, remaining_key) with
                | None => false
                | Some (child, remaining_key) => dead_end fuel fwd child remaining_key
                end
            | None => match (if fwd then gte_key_byte inode b else lte_key_byte inode b) with None => true | Some _ => false end
            end
        end
  | _, _ => false
  end.

(** ** The ends of the descent *)

Definition climb (fwd : bool) : nat → M iterator unit := if fwd then climb_fwd else climb_rev.
Definition nearest (fwd : bool) (n : inode node_ptr) (b : Z) : option iter_pos :=
  if fwd then gte_key_byte n b else lte_key_byte n b.

(** To the last entry of a subtree, and one step further. *)
Lemma over_stands fwd pre c kvs it stk before after n K all :
  rep pre c kvs → ctx (db_root it) stk c pre before after → it_at it stk n → before ++ kvs ++ after = all →
  Forall (λ e : kv, (length e.1 ≤ K)%nat) all → room n (2 * K) →
  runs (traversal (negb fwd) (height c) c;; step fwd) it (λ _ it', stands fwd it' (n + 2 * K) (beyond fwd before after) all).
Proof.
  intros Hr Hctx Hat Hall HK Hroom. subst all. rewrite !Forall_app in HK. destruct HK as (Hb & Hm & Ha).
  assert (Hfirst : ∀ l : list kv, Forall (λ e : kv, (length e.1 ≤ K)%nat) l → (first_bytes l ≤ K)%nat).
  { intros [|e l] Hl; [cbn; lia|]. by inversion Hl. }
  assert (Hin : (first_bytes (in_order (negb fwd) kvs) ≤ K)%nat).
  { apply Hfirst. destruct fwd; [by apply Forall_reverse|done]. }
  assert (Hbe : (first_bytes (beyond fwd before after) ≤ K)%nat).
  { apply Hfirst. destruct fwd; [done|by apply Forall_reverse]. }
  eapply runs_bind; [eapply traversal_spec; [done..|]; unfold room in *; lia|].
  intros [] it' Hroot (k1 & e & k2 & -> & Hn & Hp). rewrite negb_involutive in Hn.
  rewrite !Forall_app, Forall_cons in Hm.
  assert (Hst : stands fwd it' (n + K) (e :: beyond fwd before after) (before ++ (k1 ++ e :: k2) ++ after)).
  { eapply stands_weaken; [exists (before ++ k1), (k2 ++ after); split_and!;
      [exact Hp|by rewrite beyond_app, Hn|by rewrite <- !app_assoc]|]. lia. }
  eapply runs_mono; [eapply step_spec; [exact Hst|unfold room in *; lia]|].
  intros [] it'' _ Hst'. eapply stands_weaken; [exact Hst'|lia].
Qed.

Lemma climb_cons fwd fuel it (n : inode node_ptr) pos stk :
  stack_ it = iter_result n pos :: stk →
  climb fwd (S fuel) it =
    match sibling fwd n pos.2 with
    | None => (pop;; climb fwd fuel) it
    | Some _ => (child <- of_option (get_child n pos.2); traversal fwd (height child) child) it
    end.
Proof.
  intros Hs. destruct fwd; cbn [climb climb_fwd climb_rev sibling traversal]; unfold bind at 1, get; rewrite Hs;
    cbn [it_node iter_result it_child_index]; [by destruct (Inode.next n pos.2)|by destruct (Inode.prior n pos.2)].
Qed.

(** The climb from a dead end stays within the tree, and ends where it should
    when there is nothing left beyond. *)
Lemma climb_stands fwd fuel stk it c pre before after kc n K all :
  ctx (db_root it) stk c pre before after → rep pre c kc → before ++ kc ++ after = all →
  it_at it stk n → (length stk < fuel)%nat → Forall (λ e : kv, (length e.1 ≤ K)%nat) all → room n K →
  runs (climb fwd fuel) it (λ _ it', ∃ todo, stands fwd it' (n + K) todo all ∧ (beyond fwd before after = [] → todo = [])).
Proof.
  revert stk it c pre before after kc. induction fuel as [|fuel IH]; intros stk it c pre before after kc Hctx Hr Hall Hat Hf HK Hroom; [lia|].
  inversion Hctx as [|stk' m pre' bf af es1 b c' es2 k1 k2 i Hctx' Hw He H1 H2 Hati]; subst; pose proof Hat as [Hs _].
  { exists (Ret tt), it. split_and!; [destruct fwd; cbn [climb climb_fwd climb_rev]; unfold bind, get; by rewrite Hs|done|].
    left. exists tt. split; [done|]. exists []. split; [eapply it_at_weaken; [exact Hat|lia]|done]. }
  assert (Hm : reps (pre' ++ prefix_bytes (get_key_prefix m)) [(b, c)] kc) by by apply reps_single.
  unfold runs. rewrite (climb_cons _ _ _ _ _ _ Hs). cbn [snd]. rewrite !beyond_app.
  destruct (hop_ctx fwd _ _ _ _ _ _ _ [(b, c)] _ _ _ _ _ Hctx' Hw He H1 Hm H2 (sibling_pos fwd m _ _ _ _ _ Hw He Hati))
    as [[-> Hnil]|(b' & c'' & i' & kc' & k1' & k2' & -> & _ & Hr' & _ & _ & Hby)].
  - rewrite Hnil. destruct (pop_spec _ _ _ _ Hat) as (it1 & Hpop & Hroot1 & Hat1).
    eapply runs_step; [exact Hpop| |done].
    apply (IH stk' it1 (InodeP m) pre' bf af (k1 ++ kc ++ k2)); [by rewrite Hroot1| |by rewrite <- !app_assoc|done|cbn [length] in Hf; lia|done|done].
    constructor; [done|]. rewrite He. apply reps_app. exists k1, (kc ++ k2). split_and!; [done..|]. by constructor.
  - pose proof (get_child_at m i b c Hw Hati : get_child m i = Some c) as ->. eapply runs_step; [done| |done].
    assert (Hfst : (first_bytes (in_order fwd kc) ≤ K)%nat).
    { destruct (in_order_nonempty fwd kc (rep_nonempty _ _ _ Hr)) as (e0 & rest & -> & Hin). cbn [first_bytes].
      rewrite Forall_forall in HK. apply HK. rewrite !elem_of_app. auto. }
    eapply runs_mono; [eapply traversal_stands; [exact Hr|exact Hctx|exact Hat|done|unfold room in *; lia]|].
    intros [] it1 _ Hst. eexists. split; [eapply stands_weaken; [exact Hst|lia]|].
    intros Hnil. exfalso. rewrite Hby in Hnil. destruct (in_order_nonempty fwd kc' (rep_nonempty _ _ _ Hr')) as (? & ? & Hx & _).
    by rewrite Hx in Hnil.
Qed.

(** ** The loop *)

Section loop.
Variables (k : art_key) (all : list kv) (K : nat).
Hypotheses (Hshort : Forall (λ e : kv, (length e.1 ≤ K)%nat) all) (Hroom : room 0 (4 * K)).
Let key := get_key_view k.

(** What the loop must reach from the subtree [m], when [good] holds. *)
Definition sought (fwd : bool) (good : Prop) (found : bool) (it : iterator) : Prop :=
  found = bool_decide (key ∈ all.*1) ∧
  ∃ todo, stands fwd it (4 * K) todo all ∧ (good → todo = from_here fwd key all).

(** A hole [m] on the path of the key. *)
Definition on_path (before m after : list kv) : Prop :=
  before ++ m ++ after = all ∧ below before key ∧ above after key.

Lemma on_path_absent before m after :
  on_path before m after → Forall (λ e : kv, lex e.1 key ≠ Eq) m → bool_decide (key ∈ all.*1) = false.
Proof.
  intros (<- & Hb & Ha) Hm. apply bool_decide_false. intros (e & -> & He)%list_elem_of_fmap.
  unfold below, above, klt, kcmp, bytes_ord in *. rewrite Forall_forall in Hb, Ha, Hm. rewrite !elem_of_app in He.
  destruct He as [He|[He|He]]; [pose proof (Hb e He)|apply (Hm e He)|pose proof (Ha e He)]; by rewrite lex_refl in *.
Qed.

Lemma on_path_here fwd before m after : on_path before m after → from_here fwd key all = from_here fwd key m ++ beyond fwd before after.
Proof. intros (<- & Hb & Ha). by apply from_here_middle. Qed.

Lemma on_path_bytes before m after (l : list kv) : on_path before m after → l ⊆ all → (first_bytes l ≤ K)%nat.
Proof.
  intros _ Hl. destruct l as [|e l]; [cbn; lia|]. cbn. rewrite Forall_forall in Hshort. apply Hshort, Hl.
  apply elem_of_cons. by left.
Qed.

Lemma on_path_sub fwd before m after : on_path before m after → in_order fwd m ⊆ all ∧ beyond fwd before after ⊆ all.
Proof.
  intros (<- & _). split; intros e; rewrite !elem_of_app; destruct fwd; cbn; rewrite ?elem_of_reverse; auto.
Qed.

Lemma path_short pre c before m after : rep pre c m → on_path before m after → (length pre ≤ K)%nat.
Proof.
  intros Hr (<- & _). destruct m as [|e m]; [by apply rep_nonempty in Hr|].
  apply rep_keys in Hr. rewrite Forall_forall in Hr, Hshort.
  assert (He : e ∈ e :: m) by (apply elem_of_cons; by left).
  destruct (Hr e He) as [[x Hx] _]. specialize (Hshort e). rewrite Hx, length_app in Hshort.
  specialize (Hshort ltac:(rewrite !elem_of_app; auto)). lia.
Qed.

(** The whole subtree lies beyond the key: its nearest entry is the answer. *)
Lemma land_sought (fwd : bool) pre c m it stk before after good :
  rep pre c m → ctx (db_root it) stk c pre before after → it_at it stk (length pre) → on_path before m after →
  Forall (λ e : kv, lex e.1 key = if fwd then Gt else Lt) m →
  runs (traversal fwd (height c) c;; ret false) it (sought fwd good).
Proof.
  intros Hr Hctx Hat Hp Hm. pose proof (path_short _ _ _ _ _ Hr Hp). destruct (on_path_sub fwd _ _ _ Hp) as [Hs1 Hs2].
  pose proof (on_path_bytes _ _ _ _ Hp Hs1). eapply runs_bind.
  { eapply traversal_stands; [done..|apply Hp|unfold room in *; lia]. }
  intros [] it' _ Hst. apply runs_ret. split.
  - symmetry. eapply on_path_absent; [done|]. eapply Forall_impl; [exact Hm|]. intros e ->. by destruct fwd.
  - eexists. split; [eapply stands_weaken; [exact Hst|lia]|]. intros _.
    by rewrite (on_path_here fwd _ _ _ Hp), from_here_all.
Qed.

(** The whole subtree lies before the key: the answer is beyond it. *)
Lemma over_sought (fwd : bool) pre c m it stk before after good :
  rep pre c m → ctx (db_root it) stk c pre before after → it_at it stk (length pre) → on_path before m after →
  Forall (λ e : kv, lex e.1 key = if fwd then Lt else Gt) m →
  runs (traversal (negb fwd) (height c) c;; step fwd;; ret false) it (sought fwd good).
Proof.
  intros Hr Hctx Hat Hp Hm. pose proof (path_short _ _ _ _ _ Hr Hp).
  assert (Hrun : runs (traversal (negb fwd) (height c) c;; step fwd) it
    (λ _ it', stands fwd it' (length pre + 2 * K) (beyond fwd before after) all)).
  { eapply over_stands; [done..|apply Hp|done|unfold room in *; lia]. }
  eapply runs_bind in Hrun; [unfold runs in *; rewrite bind_assoc in Hrun; exact Hrun|].
  intros [] it' _ Hst. apply runs_ret. split.
  - symmetry. eapply on_path_absent; [done|]. eapply Forall_impl; [exact Hm|]. intros e ->. by destruct fwd.
  - eexists. split; [eapply stands_weaken; [exact Hst|lia]|]. intros _.
    by rewrite (on_path_here fwd _ _ _ Hp), from_here_none.
Qed.

Lemma leaf_sought fwd fuel pre l m it stk before after good :
  rep pre (LeafP l) m → ctx (db_root it) stk (LeafP l) pre before after → it_at it stk (length pre) →
  on_path before m after → runs (seek_loop (S fuel) (LeafP l) k (shifted k (length pre)) fwd) it (sought fwd good).
Proof.
  intros Hr Hctx Hat Hp. pose proof (path_short _ _ _ _ _ Hr Hp) as Hshort_pre.
  inversion Hr as [? ? k0 v0 Hl Hpre|]; subst. destruct (push_leaf_spec _ _ _ l Hat) as (it1 & Hpush & Hroot1 & Hat1).
  assert (Hst : stands fwd it1 (length pre) ((k0, v0) :: beyond fwd before after) all).
  { exists before, after. split_and!; [|done|apply Hp]. exists l, stk, pre. by rewrite Hroot1. }
  cbn [seek_loop]. eapply runs_step; [exact Hpush| |done]. unfold leaf_cmp.
  rewrite cmp_compare, (leaf_holds_key _ _ _ Hl), compare_lex. fold key.
  pose proof (on_path_here fwd _ _ _ Hp) as Hfrom.
  assert (Hstep : runs (step fwd;; ret false) it1 (λ f it', f = false ∧ stands fwd it' (4 * K) (beyond fwd before after) all)).
  { destruct (on_path_sub fwd _ _ _ Hp) as [_ Hs2]. pose proof (on_path_bytes _ _ _ _ Hp Hs2).
    eapply runs_bind; [eapply step_spec; [exact Hst|unfold room in *; lia]|].
    intros [] it2 _ Hst2. apply runs_ret. split; [done|]. eapply stands_weaken; [exact Hst2|lia]. }
  destruct (lex key k0) eqn:Hlex; cbn [comparison_sign Z.eqb Z.ltb Z.compare].
  - apply runs_ret. apply lex_eq in Hlex. split.
    + symmetry. apply bool_decide_true. destruct Hp as (<- & _). apply list_elem_of_fmap. exists (k0, v0). split; [done|].
      rewrite !elem_of_app. right. left. by apply list_elem_of_singleton.
    + eexists. split; [eapply stands_weaken; [exact Hst|lia]|]. intros _. rewrite Hfrom. subst k0.
      unfold from_here. destruct fwd; rewrite filter_cons_True; (done || by rewrite lex_refl).
  - assert (Habs : bool_decide (key ∈ all.*1) = false).
    { eapply on_path_absent; [exact Hp|]. constructor; [|constructor]. cbn. by rewrite lex_antisym, Hlex. }
    assert (Hgt : lex k0 key = Gt) by by rewrite lex_antisym, Hlex. destruct fwd; cbn [negb].
    + apply runs_ret. split; [done|]. eexists. split; [eapply stands_weaken; [exact Hst|lia]|]. intros _.
      rewrite Hfrom, from_here_all; [done|]. by constructor.
    + eapply runs_mono; [exact Hstep|]. intros f it2 _ [-> Hst2]. split; [done|]. eexists. split; [exact Hst2|].
      intros _. rewrite Hfrom, from_here_none; [done|]. by constructor.
  - assert (Habs : bool_decide (key ∈ all.*1) = false).
    { eapply on_path_absent; [exact Hp|]. constructor; [|constructor]. cbn. by rewrite lex_antisym, Hlex. }
    assert (Hgt : lex k0 key = Lt) by by rewrite lex_antisym, Hlex. destruct fwd; cbn [negb].
    + eapply runs_mono; [exact Hstep|]. intros f it2 _ [-> Hst2]. split; [done|]. eexists. split; [exact Hst2|].
      intros _. rewrite Hfrom, from_here_none; [done|]. by constructor.
    + apply runs_ret. split; [done|]. eexists. split; [eapply stands_weaken; [exact Hst|lia]|]. intros _.
      rewrite Hfrom, from_here_all; [done|]. by constructor.
Qed.

(** The children of a node around the byte of the key. *)
Lemma node_split pre n m b :
  rep pre (InodeP n) m → let path := pre ++ prefix_bytes (get_key_prefix n) in (path ++ [b]) `prefix_of` key →
  ∃ l1 l2 k1 kc k2, entries n = l1 ++ here b (assoc b (entries n)) ++ l2 ∧ below l1 b ∧ above l2 b ∧
    m = k1 ++ kc ++ k2 ∧ reps path l1 k1 ∧ reps path (here b (assoc b (entries n))) kc ∧ reps path l2 k2 ∧
    below k1 key ∧ above k2 key.
Proof.
  intros Hr path Hp. inversion Hr as [|? ? ? Hw Hrs]; subst.
  destruct (sorted_split b (entries n) (wf_sorted n Hw)) as (l1 & l2 & He & Hb & Ha).
  set (o := assoc b (entries n)) in *. rewrite He in Hrs.
  apply reps_app in Hrs as (k1 & kr & -> & H1 & (kc & k2 & -> & Hc & H2)%reps_app).
  exists l1, l2, k1, kc, k2. split_and!; [done..|by eapply reps_below|by eapply reps_above].
Qed.

(** The nearest child at or beyond a byte without a child. *)
Lemma nearest_pos fwd (n : inode node_ptr) b l1 l2 :
  node_wf n → is_byte b → entries n = l1 ++ l2 → below l1 b → above l2 b →
  pos_of n (head (beyond fwd l1 l2)) (nearest fwd n b).
Proof.
  intros Hw Hb He Hl1 Hl2. rewrite below_byte, Forall_forall in Hl1. rewrite above_byte, Forall_forall in Hl2. destruct fwd; cbn [nearest beyond].
  - pose proof (gte_spec n b Hw Hb : pos_of n _ (gte_key_byte n b)) as Hp.
    rewrite He, filter_app, filter_none, filter_all in Hp; [done| |].
    + apply Forall_forall. intros x Hx. specialize (Hl2 x Hx). lia.
    + intros j x Hx%list_elem_of_lookup_2. specialize (Hl1 x Hx). lia.
  - pose proof (lte_spec n b Hw Hb : pos_of n _ (lte_key_byte n b)) as Hp.
    rewrite He, filter_app, filter_all, filter_none, app_nil_r in Hp; [by rewrite head_reverse| |].
    + intros j x Hx%list_elem_of_lookup_2. specialize (Hl2 x Hx). lia.
    + apply Forall_forall. intros x Hx. specialize (Hl1 x Hx). lia.
Qed.

(** No child at or beyond the byte: the search goes on above. *)
Lemma climb_sought fwd pre n m it stk before after (good : Prop) :
  rep pre (InodeP n) m → ctx (db_root it) stk (InodeP n) pre before after → it_at it stk (length pre) →
  before ++ m ++ after = all → (length pre ≤ K)%nat → bool_decide (key ∈ all.*1) = false →
  (good → beyond fwd before after = [] ∧ from_here fwd key all = []) →
  runs (pop_nonempty;; it <- get; climb fwd (S (length (stack_ it)));; ret false) it (sought fwd good).
Proof.
  intros Hr Hctx Hat Hall Hlen Habs Hgood.
  assert (Hclimb : ∀ it1 stk1 c pre1 bf1 af1 kc1, db_root it1 = db_root it →
    ctx (db_root it) stk1 c pre1 bf1 af1 → rep pre1 c kc1 → bf1 ++ kc1 ++ af1 = all → it_at it1 stk1 (length pre) →
    (beyond fwd before after = [] → beyond fwd bf1 af1 = []) →
    runs (it <- get; climb fwd (S (length (stack_ it)));; ret false) it1 (sought fwd good)).
  { intros it1 stk1 c pre1 bf1 af1 kc1 Hroot1 Hctx1 Hr1 Hall1 Hat1 Hnil1. eapply runs_step; [done| |done].
    rewrite (proj1 Hat1). eapply runs_bind.
    { eapply climb_stands; [by rewrite Hroot1|exact Hr1|exact Hall1|exact Hat1|lia|exact Hshort|unfold room in *; lia]. }
    intros [] it2 _ (todo & Hst & Himp). apply runs_ret. split; [done|]. exists todo.
    split; [eapply stands_weaken; [exact Hst|lia]|]. intros [Hg1 Hg2]%Hgood. rewrite Hg2. by apply Himp, Hnil1. }
  destruct stk as [|e stk].
  - eapply runs_step; [|eapply Hclimb; [done|exact Hctx|exact Hr|exact Hall|exact Hat|done]|done].
    unfold pop_nonempty, bind, get, valid. by rewrite (proj1 Hat).
  - destruct (pop_spec _ _ _ _ Hat) as (it1 & Hpop & Hroot1 & Hat1).
    destruct (ctx_up fwd _ _ _ _ _ _ _ _ Hctx Hr) as (n' & pre' & bf' & af' & x1 & x2 & Hctx' & Hr' & -> & -> & Hbey).
    eapply runs_step; [|eapply Hclimb; [exact Hroot1|exact Hctx'|exact Hr'| |exact Hat1|]|done].
    + unfold pop_nonempty, bind at 1, get, valid. by rewrite (proj1 Hat).
    + by rewrite <- Hall, <- !app_assoc.
    + rewrite Hbey. by intros [_ ?]%app_nil.
Qed.

(** The key leaves the tree between the children of a node. *)
Lemma gap_sought fwd pre n m b it stk before after :
  rep pre (InodeP n) m → ctx (db_root it) stk (InodeP n) pre before after → it_at it stk (length pre) →
  on_path before m after → is_byte b → ((pre ++ prefix_bytes (get_key_prefix n)) ++ [b]) `prefix_of` key →
  assoc b (entries n) = None →
  runs (match iter_result n <$> nearest fwd n b with
        | None => pop_nonempty;; it <- get; climb fwd (S (length (stack_ it)));; ret false
        | Some tmp =>
            child <- of_option (get_child n (it_child_index tmp));
            push_inode (InodeP n) (it_key_byte tmp) (it_child_index tmp) (it_prefix tmp);;
            traversal fwd (height child) child;; ret false
        end) it (sought fwd (is_Some (nearest fwd n b) ∨ from_here fwd key all = [])).
Proof.
  intros Hr Hctx Hat Hp Hb Hpre Ha. pose proof (rep_node_wf _ _ _ Hr) as Hw.
  pose proof (path_short _ _ _ _ _ Hr Hp) as Hlen. pose proof (proj1 Hp) as Hall.
  destruct (node_split _ _ _ _ Hr Hpre) as (l1 & l2 & k1 & kc & k2 & He & Hb1 & Ha2 & -> & H1 & Hc & H2 & Hbk & Hak).
  rewrite Ha in He, Hc. cbn [here app] in He, Hc. apply reps_nil_inv in Hc as ->.
  assert (Hp' : on_path (before ++ k1) [] (k2 ++ after)).
  { destruct Hp as (_ & Hb0 & Ha0). split; [by rewrite <- Hall, <- !app_assoc|]. split; apply Forall_app; done. }
  assert (Habs : bool_decide (key ∈ all.*1) = false) by (eapply on_path_absent; [exact Hp'|done]).
  assert (Hfrom : from_here fwd key all = beyond fwd k1 k2 ++ beyond fwd before after).
  { rewrite (on_path_here fwd _ _ _ Hp'), beyond_app. by destruct fwd. }
  destruct (hop_ctx fwd _ _ _ _ _ _ _ [] _ _ _ _ _ Hctx Hw He H1 (reps_nil _) H2 (nearest_pos fwd n b l1 l2 Hw Hb He Hb1 Ha2))
    as [[Hnone Hnil]|(b' & c & i & kc & k1' & k2' & Hsome & Hati & Hrc & Hctx' & Heq & Hby)].
  - rewrite Hnone. eapply climb_sought; [exact Hr|exact Hctx|exact Hat|exact Hall|exact Hlen|exact Habs|].
    intros [[? ?]|Hg]; [done|]. split; [|exact Hg]. rewrite Hfrom in Hg. by apply app_nil in Hg as [_ ?].
  - rewrite Hsome. cbn [fmap option_fmap option_map iter_result it_key_byte it_child_index it_prefix fst snd].
    pose proof (get_child_at n i b' c Hw Hati : get_child n i = Some c) as ->. eapply runs_step; [done| |done].
    assert (Hp'' : before ++ (k1' ++ kc ++ k2') ++ after = all) by (by rewrite Heq).
    assert (Hfirst : (first_bytes (in_order fwd kc) ≤ K)%nat).
    { eapply on_path_bytes; [exact Hp|]. intros e Hin. rewrite <- Hp'', !elem_of_app.
      destruct fwd; cbn in Hin; rewrite ?elem_of_reverse in Hin; auto. }
    assert (Hrun : runs (push_inode (InodeP n) b' i (get_key_prefix n);; traversal fwd (height c) c) it
      (λ _ it', stands fwd it' (length pre + first_bytes (in_order fwd kc))
        (in_order fwd kc ++ beyond fwd (before ++ k1') (k2' ++ after)) all)).
    { eapply push_traversal_stands; [exact Hrc|exact Hctx'|exact Hat|exact Hw|by rewrite <- Hp'', <- !app_assoc|unfold room in *; lia]. }
    eapply runs_bind in Hrun; [unfold runs in *; rewrite bind_assoc in Hrun; exact Hrun|].
    intros [] it' _ Hst. apply runs_ret. split; [done|]. eexists. split; [eapply stands_weaken; [exact Hst|lia]|].
    intros _. rewrite Hfrom, Hby, beyond_app. by rewrite <- app_assoc.
Qed.

(** The key parts from every entry below a node within its prefix. *)
Lemma prefix_order pre n m sh :
  key_wf k → rep pre (InodeP n) m → (sh < prefix_length (get_key_prefix n))%nat →
  (∀ e, e ∈ m.*1 → diverge key e (length pre + sh)) →
  ∃ b, index (shifted k (length pre)) sh = Some b ∧ prefix_index (get_key_prefix n) sh ≠ b ∧
    ∀ e, e ∈ m → lex e.1 key = (prefix_index (get_key_prefix n) sh ?= b).
Proof.
  intros Hk Hr Hsh Hd. pose proof (rep_nonempty _ _ _ Hr) as Hne.
  destruct m as [|e0 m]; [done|]. assert (He0 : e0.1 ∈ (e0 :: m).*1) by (apply elem_of_cons; by left).
  destruct (rep_prefix_at _ _ _ _ Hr He0) as ([_ Hw] & _).
  pose proof (diverge_length _ _ _ (Hd _ He0)) as [Hlt _]. unfold key in Hlt.
  destruct (lookup_lt_is_Some_2 key (length pre + sh)) as [b Hb]; [done|]. exists b.
  assert (Hall : ∀ e, e ∈ e0 :: m → lex e.1 key = (prefix_index (get_key_prefix n) sh ?= b)).
  { intros e He. assert (He1 : e.1 ∈ (e0 :: m).*1) by (by apply list_elem_of_fmap_2).
    eapply lex_diverge; [apply diverge_sym, Hd, He1| |exact Hb].
    destruct (rep_prefix_at _ _ _ _ Hr He1) as (_ & _ & _ & Hat & _). by apply prefix_at_lookup. }
  split; [|split; [|exact Hall]].
  - rewrite length_get_key_view in Hlt. rewrite index_shifted by lia. done.
  - intros Heq. apply (diverge_ne _ _ _ (Hd _ He0)). symmetry. apply lex_eq.
    rewrite (Hall e0) by (apply elem_of_cons; by left). rewrite Heq. apply Z.compare_refl.
Qed.

Lemma dead_end_step fuel fwd (n : inode node_ptr) d b :
  get_shared_length (get_key_prefix n) (get_u64 (shifted k d)) = prefix_length (get_key_prefix n) →
  shift_right (shifted k d) (prefix_length (get_key_prefix n)) = Some (shifted k (d + prefix_length (get_key_prefix n))) →
  index (shifted k (d + prefix_length (get_key_prefix n))) 0 = Some b →
  dead_end (S fuel) fwd (InodeP n) (shifted k d) =
    match (find_child n b).2 with
    | Some s =>
        match child ← slot_load n s;
              remaining_key ← shift_right (shifted k (d + prefix_length (get_key_prefix n))) 1; Some (child, remaining_key) with
        | None => false
        | Some (child, remaining_key) => dead_end fuel fwd child remaining_key
        end
    | None => match nearest fwd n b with None => true | Some _ => false end
    end.
Proof.
  intros Hsh Hs Hi. cbn [dead_end]. rewrite Hsh, (proj2 (Nat.ltb_ge _ _)) by lia. rewrite Hs. cbn [mbind option_bind].
  rewrite Hi. cbn [mbind option_bind]. by destruct fwd.
Qed.

Lemma seek_loop_sought fwd fuel pre c m it stk before after :
  search_ok k all.*1 → rep pre c m → ctx (db_root it) stk c pre before after → it_at it stk (length pre) →
  on_path before m after → pre `prefix_of` key → (key_size_of k < length pre + fuel)%nat →
  runs (seek_loop fuel c k (shifted k (length pre)) fwd) it
    (sought fwd (dead_end fuel fwd c (shifted k (length pre)) = false ∨ from_here fwd key all = [])).
Proof.
  intros Hok. revert pre c m it stk before after. induction fuel as [|fuel IH]; intros pre c m it stk before after Hr Hctx Hat Hp Hpre Hf.
  { destruct Hpre as [x Hx]. apply (f_equal length) in Hx. unfold key in Hx. rewrite length_get_key_view, length_app in Hx. lia. }
  destruct c as [|l|n]; [by inversion Hr|by eapply leaf_sought|].
  assert (Hok' : search_ok k m.*1).
  { eapply search_ok_sub; [exact Hok|]. destruct Hp as (<- & _). intros e. rewrite !fmap_app, !elem_of_app. auto. }
  destruct (descend _ _ _ _ Hr Hpre Hok') as (Hw & Hd & Hcase). destruct Hcase as [[Hsh Hdiv]|(Hsh & b & Hb & Hpb & Hlt & Hs1 & Hidx & Hs2)].
  - destruct (prefix_order pre n m _ (proj1 Hok) Hr Hsh Hdiv) as (b & Hb & Hne & Hlex).
    cbn [seek_loop]. change (snapshot_get_shared_length ?w ?u) with (get_shared_length w u).
    rewrite (proj2 (Nat.ltb_lt _ _)) by done. rewrite Hb. eapply runs_step; [done| |done].
    assert (Hm : ∀ c, (prefix_index (get_key_prefix n) _ ?= b) = c → Forall (λ e : kv, lex e.1 key = c) m)
      by (intros c Hc; apply Forall_forall; intros e He; by rewrite Hlex).
    destruct (Z.ltb_spec (b - prefix_index (get_key_prefix n)
      (get_shared_length (get_key_prefix n) (get_u64 (shifted k (length pre))))) 0) as [Hlt|Hge].
    + assert (Hgt : Forall (λ e : kv, lex e.1 key = Gt) m) by (apply Hm, Z.compare_gt_iff; lia).
      destruct fwd; [by eapply (land_sought true)|by eapply (over_sought false)].
    + assert (Hlt : Forall (λ e : kv, lex e.1 key = Lt) m) by (apply Hm, Z.compare_lt_iff; lia).
      destruct fwd; [by eapply (over_sought true)|by eapply (land_sought false)].
  - rewrite (dead_end_step fuel fwd n _ b Hsh Hs1 Hidx). cbn [seek_loop].
    change (snapshot_get_shared_length ?w ?u) with (get_shared_length w u).
    rewrite (proj2 (Nat.ltb_ge _ _)) by lia. rewrite Hs1. eapply runs_step; [done| |done].
    rewrite Hidx. eapply runs_step; [done| |done].
    pose proof (rep_node_wf _ _ _ Hr) as Hwf. pose proof (find_child_entry n b Hwf Hb) as Hfind.
    rewrite app_assoc in Hpb. destruct (assoc b (entries n)) as [c|] eqn:Ha.
    + destruct Hfind as (i & s & -> & Hati & Hload). cbn [snd]. rewrite Hload, Hs2. cbn [mbind option_bind].
      destruct (node_split _ _ _ _ Hr Hpb) as (l1 & l2 & k1 & kc & k2 & He & _ & _ & -> & H1 & Hc & H2 & Hbk & Hak).
      rewrite Ha in He, Hc. cbn [here] in He, Hc. apply reps_single in Hc.
      assert (Hp' : on_path (before ++ k1) kc (k2 ++ after)).
      { destruct Hp as (Hall & Hb0 & Ha0). split; [by rewrite <- Hall, <- !app_assoc|]. split; apply Forall_app; done. }
      pose proof (path_short _ _ _ _ _ Hc Hp') as Hlen. rewrite !length_app, length_prefix_bytes in Hlen. cbn [length] in Hlen.
      eapply runs_bind; [apply push_inode_spec; [exact Hat|done|unfold room in *; lia]|].
      intros [] it1 Hroot1 Hat1. eapply runs_step; [done| |done]. eapply runs_step; [done| |done].
      specialize (IH ((pre ++ prefix_bytes (get_key_prefix n)) ++ [b]) c kc it1 (iter_result n (b, i) :: stk)
        (before ++ k1) (k2 ++ after) Hc).
      rewrite !length_app, length_prefix_bytes in IH. cbn [length] in IH.
      apply IH; [rewrite Hroot1; by eapply ctx_step|exact Hat1|exact Hp'|done|lia].
    + rewrite Hfind. cbn [snd child_not_found].
      pose proof (gap_sought fwd pre n m b it stk before after Hr Hctx Hat Hp Hb Hpb Ha) as Hgap.
      eapply (runs_mono _ _ (sought fwd (is_Some (nearest fwd n b) ∨ from_here fwd key all = []))); [destruct fwd; exact Hgap|].
      intros f it' _ [Hf' (todo & Hst & Himp)]. split; [done|]. exists todo. split; [done|].
      intros [Hg|Hg]; apply Himp; [left|by right]. by destruct (nearest fwd n b).
Qed.

(** [seek], from any state of the iterator. *)
Lemma seek_sought fwd it l :
  holds (keybuf_ it) l → root_rep (db_root it) all → search_ok k all.*1 →
  runs (seek k fwd) it
    (sought fwd (dead_end (loop_fuel k) fwd (db_root it) k = false ∨ from_here fwd key all = [])).
Proof.
  intros Hl Hrep Hok. destruct (invalidate_spec it l Hl) as (it1 & Hinv & Hroot & Hat).
  unfold seek. eapply runs_step; [exact Hinv| |done]. eapply runs_step; [done| |done]. rewrite Hroot.
  destruct Hrep as [[Hn Hnil]|Hr].
  - rewrite Hn. apply runs_ret. split; [rewrite Hnil; symmetry; apply bool_decide_false, not_elem_of_nil|].
    rewrite Hnil.
    exists []. split; [eapply it_at_weaken; [exact Hat|lia]|]. intros _. by destruct fwd.
  - assert (Hm : match db_root it with Null => ret false | node => seek_loop (loop_fuel k) node k k fwd end =
        seek_loop (loop_fuel k) (db_root it) k k fwd) by (destruct (db_root it); [by inversion Hr|done..]).
    rewrite Hm. pose proof (seek_loop_sought fwd (loop_fuel k) [] (db_root it) all it1 [] [] []) as Hloop.
    cbn [length] in Hloop. rewrite shifted_0 in Hloop. apply Hloop; [done..|rewrite Hroot; constructor|exact Hat| | |].
    + split; [by rewrite app_nil_r|]. split; constructor.
    + apply prefix_nil.
    + unfold loop_fuel. lia.
Qed.

(** The search for a stored key does not go astray. *)
Lemma dead_end_stored fwd fuel pre c m :
  rep pre c m → pre `prefix_of` key → search_ok k m.*1 → key ∈ m.*1 → dead_end fuel fwd c (shifted k (length pre)) = false.
Proof.
  revert pre c m. induction fuel as [|fuel IH]; intros pre c m Hr Hpre Hok Hin; [done|].
  destruct c as [|l|n]; [done..|].
  destruct (descend _ _ _ _ Hr Hpre Hok) as (_ & _ & [[Hsh _]|(Hsh & b & Hb & Hpb & _ & Hs1 & Hidx & Hs2)]).
  - cbn [dead_end]. by rewrite (proj2 (Nat.ltb_lt _ _)).
  - rewrite (dead_end_step fuel fwd n _ b Hsh Hs1 Hidx). rewrite app_assoc in Hpb.
    destruct (node_split _ _ _ _ Hr Hpb) as (l1 & l2 & k1 & kc & k2 & He & _ & _ & -> & _ & Hc & _ & Hbk & Hak).
    assert (Hkc : key ∈ kc.*1).
    { apply list_elem_of_fmap in Hin as (e & Heq & He'). unfold below, above in Hbk, Hak.
      rewrite Forall_forall in Hbk, Hak. rewrite !elem_of_app in He'. destruct He' as [He'|[He'|He']].
      - specialize (Hbk e He'). rewrite Heq in Hbk. by apply klt_irrefl in Hbk.
      - apply list_elem_of_fmap. by exists e.
      - specialize (Hak e He'). rewrite Heq in Hak. by apply klt_irrefl in Hak. }
    pose proof (find_child_entry n b (rep_node_wf _ _ _ Hr) Hb) as Hfind.
    destruct (assoc b (entries n)) as [c|]; [|apply reps_nil_inv in Hc as ->; by apply not_elem_of_nil in Hkc].
    destruct Hfind as (i & s & -> & _ & Hload). cbn [snd]. rewrite Hload, Hs2. cbn [mbind option_bind].
    apply reps_single in Hc. specialize (IH _ _ _ Hc). rewrite !length_app, length_prefix_bytes in IH.
    apply IH; [exact Hpb|by eapply search_ok_middle|done].
Qed.
End loop.
End seek.
