(* ===== verification/ScanSpec.v ===== *)
(** Scans: the caller's function meets the entries in order, from the place the
    iterator was put to the place where the scan leaves off. *)

From Stdlib Require Import Sorted.
From stdpp Require Import sorting.
From S2P Require Import Prelude Words ArtKey KeyPrefix SortedAssoc Simd InodeBase.
From S2P Require Import Inode4 Inode16 Inode48 Inode256 Heap Stats Leaf.
From S2P Require Import InodeSpec Inode Tree Db DbLookup DbMap DbCount Buffer Iterator IterSpec SeekSpec.

(** The caller's function over a list of entries, until it asks to stop. *)
Fixpoint visit {F} (fn : list Z → list Z → F → bool * F) (l : list kv) (f : F) : F :=
  match l with
  | [] => f
  | e :: l => let '(stop, f) := fn e.1 e.2 f in if stop then f else visit fn l f
  end.

(** The entries before the first that fails a test. *)
Fixpoint take_while (p : kv → bool) (l : list kv) : list kv :=
  match l with [] => [] | e :: l => if p e then e :: take_while p l else [] end.

Lemma take_while_all (l : list kv) : take_while (λ _, true) l = l.
Proof. induction l as [|e l IH]; [done|]. cbn. by rewrite IH. Qed.

(** The bytes of the keys of a list of entries. *)
Fixpoint key_volume (l : list kv) : nat := match l with [] => 0 | e :: l => length e.1 + key_volume l end.

Lemma key_volume_app l1 l2 : key_volume (l1 ++ l2) = (key_volume l1 + key_volume l2)%nat.
Proof. induction l1 as [|e l1 IH]; [done|]. cbn. rewrite IH. lia. Qed.

Lemma key_volume_perm l1 l2 : l1 ≡ₚ l2 → key_volume l1 = key_volume l2.
Proof. induction 1; cbn; lia. Qed.

Lemma key_volume_in_order fwd l : key_volume (in_order fwd l) = key_volume l.
Proof. destruct fwd; [done|]. apply key_volume_perm, reverse_Permutation. Qed.

Lemma key_volume_bound (l : list kv) : Forall (λ e : kv, (length e.1 ≤ key_volume l)%nat) l.
Proof.
  induction l as [|e l IH]; [done|]. cbn. constructor; [lia|]. eapply Forall_impl; [exact IH|]. cbn. lia.
Qed.

Lemma first_bytes_volume (l : list kv) : (first_bytes l ≤ key_volume l)%nat.
Proof. destruct l; cbn; lia. Qed.

Lemma stands_suffix `{Target} fwd it n todo all : stands fwd it n todo all → todo `suffix_of` in_order fwd all.
Proof.
  destruct todo as [|e todo]; [intros _; apply suffix_nil|]. intros (bf & af & _ & <- & <-). destruct fwd; cbn.
  - by exists bf.
  - exists (reverse af). by rewrite reverse_app, reverse_cons, <- app_assoc.
Qed.

Lemma suffix_volume (l l' : list kv) : l `suffix_of` l' → (key_volume l ≤ key_volume l')%nat ∧ (length l ≤ length l')%nat.
Proof. intros [x ->]. rewrite key_volume_app, length_app. lia. Qed.

Section scan.
Context `{Target, Allocator} {F : Type}.
#[local] Open Scope monad_scope.
Variable fn : list Z → list Z → F → bool * F.

(** How a scan over [l] ends: with all the visits the caller asked for, or with
    [bad_alloc] after some of them. *)
Definition visits (l : list kv) (f : F) (r : res unit) (f' : F) : Prop :=
  (r = Ret tt ∧ f' = visit fn l f) ∨ (r = Throw bad_alloc ∧ ∃ j, f' = visit fn (take j l) f).

Lemma visit_current_spec fwd it n e todo all f :
  stands fwd it n (e :: todo) all →
  visit_current fn (it, f) = (Ret (fn e.1 e.2 f).1, (it, (fn e.1 e.2 f).2)).
Proof.
  intros Hst. unfold visit_current, bind, on_iterator. cbn [fst snd].
  rewrite (get_key_spec _ _ _ _ _ _ Hst). cbn [fst snd]. rewrite (get_val_spec _ _ _ _ _ _ Hst). unfold get, modify.
  cbn [fst snd]. by destruct (fn e.1 e.2 f).
Qed.

Lemma scan_loop_spec fwd fuel (p : kv → bool) (continues : M iterator bool) it n todo all f :
  (∀ it n e todo, stands fwd it n (e :: todo) all → continues it = (Ret (p e), it)) →
  stands fwd it n todo all → (length todo < fuel)%nat → room n (key_volume (tl todo)) →
  ∃ r it' f', scan_loop fn fuel continues (step fwd) (it, f) = (r, (it', f')) ∧ db_root it' = db_root it ∧
    (∃ l, holds (keybuf_ it') l) ∧ visits (take_while p todo) f r f'.
Proof.
  intros Hp. revert it n todo f. induction fuel as [|fuel IH]; intros it n todo f Hst Hf Hroom; [lia|].
  assert (Hbuf : ∃ l, holds (keybuf_ it) l).
  { destruct todo as [|e todo]; [destruct Hst as (_ & l & ? & _); by exists l|].
    destruct Hst as (? & ? & (? & ? & ? & _ & _ & _ & _ & l & ? & _) & _). by exists l. }
  cbn [scan_loop]. unfold bind at 1, get. cbn [fst]. rewrite (stands_valid _ _ _ _ _ Hst).
  destruct todo as [|e todo].
  { exists (Ret tt), it, f. split_and!; [done..|]. by left. }
  unfold bind at 1, on_iterator at 1. cbn [fst snd]. rewrite (Hp _ _ _ _ Hst). cbn [take_while].
  destruct (p e); [|exists (Ret tt), it, f; split_and!; [done..|by left]].
  unfold bind at 1. rewrite (visit_current_spec _ _ _ _ _ _ _ Hst).
  unfold visits. cbn [visit]. destruct (fn e.1 e.2 f) as [stop f1] eqn:Hfn. cbn [fst snd]. destruct stop.
  { exists (Ret tt), it, f1. split_and!; [done..|]. by left. }
  cbn [tl length] in *. pose proof (first_bytes_volume todo) as Hfb.
  destruct (step_spec _ _ _ _ _ _ Hst) as (r & it1 & Hstep & Hroot1 & Hcase); [unfold room in *; lia|].
  unfold bind at 1, on_iterator at 1. cbn [fst snd]. rewrite Hstep. destruct Hcase as [(a & -> & Hst1)|(-> & Hl)].
  - destruct (IH it1 _ todo f1 Hst1) as (r & it2 & f2 & Hloop & Hroot2 & Hl2 & Hv); [lia| |].
    { destruct todo as [|e' todo]; unfold room in *; cbn [first_bytes key_volume tl] in *; lia. }
    exists r, it2, f2. split_and!; [done|congruence|done|]. destruct Hv as [[-> ->]|(-> & j & ->)]; [by left|right].
    split; [done|]. exists (S j). cbn [take visit]. by rewrite Hfn.
  - exists (Throw bad_alloc), it1, f1. split_and!; [done..|]. right. split; [done|]. exists 1%nat.
    cbn [take visit]. rewrite Hfn. by rewrite take_0.
Qed.

(** ** The three scans *)

Lemma scan_fuel_enough root all : root_rep root all → (length all < scan_fuel root)%nat.
Proof.
  unfold scan_fuel. intros [[_ ->]|Hr]; [cbn; lia|]. destruct rep_reps_leaf_count as [Hc _].
  rewrite (Hc _ _ _ Hr). lia.
Qed.

(** What a scan does to the database: nothing but the allocations of the key
    buffer, which are freed. *)
Definition scanned (w w' : world) : Prop := slot w' = slot w ∧ env_stats (wenv w') = env_stats (wenv w).

(** Putting the iterator somewhere and scanning from there. *)
Lemma with_iterator_spec {A} fwd (m : M iterator A) (p : kv → bool) continues w f all n (Q : list kv → Prop) :
  root_rep (slot w) all → room n (key_volume all) →
  (∀ it n e todo, stands fwd it n (e :: todo) all → continues it = (Ret (p e), it)) →
  (∃ todo, todo `suffix_of` in_order fwd all ∧ Q todo) →
  runs m (new_iterator (slot w) (env_heap (wenv w))) (λ _ it', ∃ todo, stands fwd it' n todo all ∧ Q todo) →
  ∃ r w' f', with_iterator (λ fuel, on_iterator m;; scan_loop fn fuel continues (step fwd)) (w, f) = (r, (w', f')) ∧
    scanned w w' ∧ ∃ todo, todo `suffix_of` in_order fwd all ∧ Q todo ∧ visits (take_while p todo) f r f'.
Proof.
  intros Hrep Hroom Hp (todo0 & Hsuf0 & HQ0) (r & it1 & Hm & Hroot1 & Hcase).
  assert (Hrun : ∃ r it2 f', (on_iterator m;; scan_loop fn (scan_fuel (slot w)) continues (step fwd))
      (new_iterator (slot w) (env_heap (wenv w)), f) = (r, (it2, f')) ∧
      (∃ l, holds (keybuf_ it2) l) ∧ ∃ todo, todo `suffix_of` in_order fwd all ∧ Q todo ∧ visits (take_while p todo) f r f').
  { unfold bind at 1, on_iterator at 1. cbn [fst snd]. rewrite Hm. destruct Hcase as [(a & -> & todo & Hst & HQ)|(-> & Hl)].
    - pose proof (stands_suffix _ _ _ _ _ Hst) as Hsuf. destruct (suffix_volume _ _ Hsuf) as [Hv Hlen].
      rewrite key_volume_in_order in Hv. pose proof (scan_fuel_enough _ _ Hrep) as Hfuel.
      replace (length (in_order fwd all)) with (length all) in Hlen by (destruct fwd; cbn; by rewrite ?length_reverse).
      destruct (scan_loop_spec fwd (scan_fuel (slot w)) p continues it1 n todo all f Hp Hst) as (r & it2 & f' & Hloop & _ & Hl & Hvis).
      + lia.
      + destruct todo as [|e todo]; cbn [tl key_volume] in *; unfold room in *; lia.
      + exists r, it2, f'. split; [exact Hloop|]. split; [done|]. by exists todo.
    - exists (Throw bad_alloc), it1, f. split_and!; [done..|]. exists todo0. split_and!; [done..|]. right. split; [done|].
      exists 0%nat. by rewrite take_0. }
  destruct Hrun as (r' & it2 & f' & Hrun & (l & Hl) & todo & Hsuf & HQ & Hvis).
  destruct (destroy_live _ _ Hl) as (b & Hdes & _).
  exists r', (World (slot w) (Env (env_stats (wenv w)) (buf_heap b))), f'.
  unfold with_iterator. cbn [fst snd]. rewrite Hrun, Hdes. split_and!; [done..|]. by exists todo.
Qed.

(** [scan] meets all entries in order. *)
Lemma scan_spec fwd w f all :
  root_rep (slot w) all → room 0 (2 * key_volume all) →
  ∃ r w' f', scan fn fwd (w, f) = (r, (w', f')) ∧ scanned w w' ∧ visits (in_order fwd all) f r f'.
Proof.
  intros Hrep Hroom. pose proof (first_bytes_volume (in_order fwd all)) as Hfb. rewrite key_volume_in_order in Hfb.
  destruct (with_iterator_spec fwd (extreme fwd) (λ _, true) (ret true) w f all (key_volume all) (λ todo, todo = in_order fwd all) Hrep)
    as (r & w' & f' & Hrun & Hsc & todo & _ & -> & Hvis).
  - unfold room in *. lia.
  - done.
  - by exists (in_order fwd all).
  - eapply runs_mono; [eapply extreme_spec; [apply new_buffer_holds|exact Hrep|unfold room in *; lia]|].
    intros [] it' _ Hst. exists (in_order fwd all). split; [|done]. eapply stands_weaken; [exact Hst|lia].
  - exists r, w', f'. rewrite take_while_all in Hvis. split_and!; [by destruct fwd|done|done].
Qed.

Lemma from_here_here fwd key (o : option (list Z)) : from_here fwd key (here key o) = here key o.
Proof. destruct o; [|by destruct fwd]. destruct fwd; cbn [from_here here]; rewrite filter_cons_True; (done || by rewrite lex_refl). Qed.

Lemma from_here_suffix fwd key all : sorted all → from_here fwd key all `suffix_of` in_order fwd all.
Proof.
  intros Hs. destruct (sorted_split key all Hs) as (l1 & l2 & He & Hb & Ha). rewrite He.
  rewrite from_here_middle, from_here_here by done. destruct fwd; cbn [in_order beyond].
  - by exists l1.
  - exists (reverse l2). rewrite !reverse_app, <- app_assoc. by destruct (assoc key all).
Qed.

(** [scan_from] meets the entries from the nearest one on, unless the search for
    it goes astray, and even then those of some part of the order up to its end. *)
Lemma seek_scan_spec k fwd p continues w f all :
  root_rep (slot w) all → search_ok (art_key_of k) all.*1 → room 0 (8 * key_volume all) →
  (∀ it n e todo, stands fwd it n (e :: todo) all → continues it = (Ret (p e), it)) →
  let k := art_key_of k in
  ∃ r w' f', with_iterator (λ fuel, on_iterator (seek k fwd);; scan_loop fn fuel continues (step fwd)) (w, f) = (r, (w', f')) ∧
    scanned w w' ∧ ∃ todo, todo `suffix_of` in_order fwd all ∧
      (dead_end (loop_fuel k) fwd (slot w) k = false ∨ from_here fwd (get_key_view k) all = [] →
       todo = from_here fwd (get_key_view k) all) ∧ visits (take_while p todo) f r f'.
Proof.
  intros Hrep Hok Hroom Hp k'.
  apply (with_iterator_spec fwd (seek k' fwd) p continues w f all (4 * key_volume all)); [done| |done| |].
  - unfold room in *. lia.
  - exists (from_here fwd (get_key_view k') all). split; [|done]. by eapply from_here_suffix, root_rep_sorted.
  - eapply runs_mono; [eapply (seek_sought k' all (key_volume all)); [apply key_volume_bound| |apply new_buffer_holds|exact Hrep|exact Hok]|].
    + unfold room in *. lia.
    + intros found it' _ [_ (todo & Hst & Himp)]. by exists todo.
Qed.

(** ** Ranges *)

(** The entries of a scan from one key to another, the second excluded. *)
Definition within (fwd : bool) (from to e : list Z) : bool :=
  if fwd then bool_decide (lex e from ≠ Lt) && bool_decide (lex e to = Lt)
  else bool_decide (lex e from ≠ Gt) && bool_decide (lex e to = Gt).

Lemma take_while_filter (p : kv → bool) (R : kv → kv → Prop) l :
  StronglySorted R l → (∀ x y, R x y → p y → p x) → take_while p l = filter p l.
Proof.
  intros Hs Hp. induction Hs as [|x l Hs IH Hx]; [done|]. cbn [take_while]. rewrite filter_cons. destruct (p x) eqn:Hpx.
  - rewrite decide_True by done. by rewrite IH.
  - rewrite decide_False by (by intros []). symmetry. apply filter_none. intros j y Hj%list_elem_of_lookup_2 Hy.
    rewrite Forall_forall in Hx. specialize (Hp x y (Hx y Hj) Hy). by rewrite Hpx in Hp.
Qed.

Lemma sorted_filter (q : kv → Prop) `{∀ e, Decision (q e)} (R : kv → kv → Prop) l :
  StronglySorted R l → StronglySorted R (filter q l).
Proof.
  induction 1 as [|x l Hs IH Hx]; [constructor|]. rewrite filter_cons. case_decide; [|done].
  constructor; [done|]. rewrite Forall_forall in *. intros y [_ Hy]%list_elem_of_filter. by apply Hx.
Qed.

Lemma sorted_impl {A} (R R' : A → A → Prop) l : (∀ x y, R x y → R' x y) → StronglySorted R l → StronglySorted R' l.
Proof. intros HR. induction 1 as [|x l Hs IH Hx]; constructor; [done|]. eapply Forall_impl; [exact Hx|]. intros y. apply HR. Qed.

Lemma sorted_reverse {A} (R : A → A → Prop) (l : list A) : StronglySorted R l → StronglySorted (λ x y, R y x) (reverse l).
Proof.
  induction 1 as [|x l Hs IH Hx]; [constructor|]. rewrite reverse_cons. apply StronglySorted_app_2; [|exact IH|repeat constructor].
  intros y z Hy ->%list_elem_of_singleton. rewrite elem_of_reverse in Hy. rewrite Forall_forall in Hx. by apply Hx.
Qed.

Lemma sorted_in_order (fwd : bool) (l : list kv) : sorted l → StronglySorted (λ x y : kv, lex x.1 y.1 = if fwd then Lt else Gt) (in_order fwd l).
Proof.
  destruct fwd; [done|]. intros Hs%sorted_reverse. cbn [in_order]. eapply sorted_impl; [|exact Hs].
  intros x y Hxy. cbn beta in Hxy. rewrite lex_antisym. by rewrite (Hxy : lex y.1 x.1 = Lt).
Qed.

Lemma take_while_range (fwd : bool) (from to : list Z) (all : list kv) :
  sorted all →
  take_while (λ e : kv, bool_decide (lex e.1 to = if fwd then Lt else Gt)) (from_here fwd from all) =
  filter (λ e : kv, within fwd from to e.1) (in_order fwd all).
Proof.
  intros Hs. assert (Hfrom : from_here fwd from all = filter (λ e : kv, lex e.1 from ≠ if fwd then Lt else Gt) (in_order fwd all)).
  { destruct fwd; cbn [from_here in_order]; [done|]. by rewrite <- filter_reverse. }
  rewrite Hfrom. rewrite (take_while_filter _ (λ x y : kv, lex x.1 y.1 = if fwd then Lt else Gt)).
  - rewrite list_filter_filter. apply list_filter_iff. intros e. unfold within.
    destruct fwd; rewrite andb_True, !bool_decide_spec; tauto.
  - by apply sorted_filter, sorted_in_order.
  - intros x y Hxy Hy%bool_decide_unpack. apply bool_decide_pack. destruct fwd.
    + by eapply lex_lt_trans.
    + rewrite lex_antisym, (lex_lt_trans to y.1 x.1); [done|..]; unfold lex_lt; by rewrite lex_antisym, ?Hxy, ?Hy.
Qed.
End scan.

(** ** With an allocator that never fails *)

Section reliable.
Context `{Target, Allocator} {F : Type}.
Variable fn : list Z → list Z → F → bool * F.
Context (Hrel : reliable).

Lemma nba_with_keybuf {A} (m : M key_buffer A) : no_bad_alloc m → no_bad_alloc (with_keybuf m).
Proof. intros Hm it it'. unfold with_keybuf. specialize (Hm (keybuf_ it)). destruct (m (keybuf_ it)) as [r b]. intros [= -> _]. by apply (Hm b). Qed.

Lemma nba_on_iterator {A} (m : M iterator A) : no_bad_alloc m → no_bad_alloc (on_iterator (F := F) m).
Proof. intros Hm s s'. unfold on_iterator. specialize (Hm s.1). destruct (m s.1) as [r it]. intros [= -> _]. by apply (Hm it). Qed.

Lemma nba_allocate_buffer size : no_bad_alloc (allocate_buffer size).
Proof.
  intros b b'. unfold allocate_buffer. pose proof (nba_allocate_aligned size Hrel (buf_heap b)) as Hn.
  destruct (allocate_aligned size (buf_heap b)) as [[|[]| |] h]; try done. by specialize (Hn h).
Qed.

Hint Resolve nba_with_keybuf nba_on_iterator nba_allocate_buffer : nba.

Ltac nba := repeat first
  [ nba_step
  | match goal with
    | |- no_bad_alloc (with_keybuf _) => apply nba_with_keybuf
    | |- no_bad_alloc (on_iterator _) => apply nba_on_iterator
    end ].

Lemma nba_push_view v : no_bad_alloc (push_view v).
Proof. unfold push_view, ensure_available, ensure_capacity, write_bytes, free_buffer. nba. Qed.

Lemma nba_push_byte v : no_bad_alloc (push_byte v).
Proof. unfold push_byte, ensure_available, ensure_capacity, write_bytes, free_buffer. nba. Qed.

Hint Resolve nba_push_view nba_push_byte : nba.

Lemma nba_push_inode p b i w : no_bad_alloc (push_inode p b i w).
Proof. unfold push_inode, set_stack. nba. Qed.

Lemma nba_pop : no_bad_alloc pop.
Proof. unfold pop, top, set_stack, pop_bytes. nba. Qed.

Hint Resolve nba_push_inode nba_pop : nba.

Lemma nba_push e : no_bad_alloc (push e).
Proof. unfold push, push_leaf, set_stack. nba. Qed.

Hint Resolve nba_push : nba.

Lemma nba_traversal fwd fuel p : no_bad_alloc (traversal fwd fuel p).
Proof.
  revert p. induction fuel as [|fuel IH]; intros p; [by destruct fwd; intros ? ?|].
  destruct p as [|l|n]; [by destruct fwd; intros ? ?..|]. rewrite traversal_inode. nba.
Qed.

Lemma nba_left p : no_bad_alloc (left_most_traversal (height p) p).
Proof. exact (nba_traversal true _ p). Qed.

Lemma nba_right p : no_bad_alloc (right_most_traversal (height p) p).
Proof. exact (nba_traversal false _ p). Qed.

Hint Resolve nba_left nba_right : nba.

Lemma nba_invalidate : no_bad_alloc invalidate.
Proof. unfold invalidate, set_stack, reset_buffer. nba. Qed.

Hint Resolve nba_invalidate : nba.

Lemma nba_next_loop fuel : no_bad_alloc (next_loop fuel).
Proof. induction fuel as [|fuel IH]; cbn [next_loop]; [by intros ? ?|]. nba. Qed.

Lemma nba_prior_loop fuel : no_bad_alloc (prior_loop fuel).
Proof. induction fuel as [|fuel IH]; cbn [prior_loop]; [by intros ? ?|]. nba. Qed.

Lemma nba_climb_fwd fuel : no_bad_alloc (climb_fwd fuel).
Proof. induction fuel as [|fuel IH]; cbn [climb_fwd]; [by intros ? ?|]. nba. Qed.

Lemma nba_climb_rev fuel : no_bad_alloc (climb_rev fuel).
Proof. induction fuel as [|fuel IH]; cbn [climb_rev]; [by intros ? ?|]. nba. Qed.

Hint Resolve nba_next_loop nba_prior_loop nba_climb_fwd nba_climb_rev : nba.

Lemma nba_step_iterator fwd : no_bad_alloc (step fwd).
Proof. destruct fwd; unfold step, next, prior; nba. Qed.

Lemma nba_next : no_bad_alloc next.
Proof. exact (nba_step_iterator true). Qed.

Lemma nba_prior : no_bad_alloc prior.
Proof. exact (nba_step_iterator false). Qed.

Hint Resolve nba_next nba_prior nba_step_iterator : nba.

Lemma nba_extreme fwd : no_bad_alloc (extreme fwd).
Proof.
  destruct fwd; [change (no_bad_alloc first)|change (no_bad_alloc last)]; unfold first, last;
    (apply nba_bind; [nba|]; intros _; apply nba_bind; [nba|]; intros it).
  - destruct (db_root it); [nba|exact (nba_left _)..].
  - destruct (db_root it); [nba|exact (nba_right _)..].
Qed.

Lemma nba_seek_loop fuel p k r fwd : no_bad_alloc (seek_loop fuel p k r fwd).
Proof.
  revert p r. induction fuel as [|fuel IH]; intros p r; cbn [seek_loop]; [by intros ? ?|].
  unfold pop_nonempty, push_leaf, set_stack. nba.
Qed.

Lemma nba_seek k fwd : no_bad_alloc (seek k fwd).
Proof.
  unfold seek. apply nba_bind; [nba|]. intros _. apply nba_bind; [nba|]. intros it.
  destruct (db_root it); [nba|apply nba_seek_loop..].
Qed.

Lemma nba_scan_loop fuel continues stp : no_bad_alloc continues → no_bad_alloc stp → no_bad_alloc (scan_loop fn fuel continues stp).
Proof.
  intros Hc Hs. induction fuel as [|fuel IH]; cbn [scan_loop]; [by intros ? ?|].
  unfold visit_current, get_key, get_val, current_leaf, top. nba.
Qed.

Lemma nba_with_iterator {A} fwd (m : M iterator A) continues :
  no_bad_alloc m → no_bad_alloc continues →
  no_bad_alloc (with_iterator (λ fuel, bind (on_iterator m) (λ _, scan_loop fn fuel continues (step fwd)))).
Proof.
  intros Hm Hc s s'. unfold with_iterator.
  assert (Hn : no_bad_alloc (bind (on_iterator m) (λ _, scan_loop fn (scan_fuel (slot s.1)) continues (step fwd)))).
  { apply nba_bind; [by apply nba_on_iterator|]. intros _. apply nba_scan_loop; [done|apply nba_step_iterator]. }
  specialize (Hn (new_iterator (slot s.1) (env_heap (wenv s.1)), s.2)).
  destruct (bind _ _ _) as [r [it f]]. destruct (destroy_buffer _) as [? b]. intros [= -> _]. by apply (Hn (it, f)).
Qed.

Lemma nba_scan fwd : no_bad_alloc (scan fn fwd).
Proof.
  pose proof (nba_with_iterator fwd (extreme fwd) (ret true) (nba_extreme fwd) (nba_ret true)) as Hn.
  unfold scan. destruct fwd; cbn [extreme step] in Hn; exact Hn.
Qed.

Lemma nba_scan_from k fwd : no_bad_alloc (scan_from fn k fwd).
Proof.
  pose proof (nba_with_iterator fwd (seek (art_key_of k) fwd) (ret true) (nba_seek _ fwd) (nba_ret true)) as Hn.
  unfold scan_from. destruct fwd; cbn [step] in Hn; exact Hn.
Qed.

Lemma nba_it_cmp k (g : Z → bool) : no_bad_alloc (bind (it_cmp k) (λ c, ret (g c))).
Proof. unfold it_cmp, current_leaf, top. nba. Qed.

Lemma nba_scan_range a b : no_bad_alloc (scan_range fn a b).
Proof.
  unfold scan_range. apply nba_bind; [nba|]. intros c. destruct (c =? 0); [nba|]. destruct (c <? 0).
  - exact (nba_with_iterator true (seek (art_key_of a) true) _ (nba_seek _ true) (nba_it_cmp _ _)).
  - exact (nba_with_iterator false (seek (art_key_of a) false) _ (nba_seek _ false) (nba_it_cmp _ _)).
Qed.
End reliable.
