(* ===== verification/Samples.v ===== *)
(** Concrete builds, allocators and databases, at which the theorems are
    instantiated. *)

From S2P Require Import Prelude Words ArtKey KeyPrefix SortedAssoc Simd InodeBase.
From S2P Require Import Inode4 Inode16 Inode48 Inode256 Heap Stats Leaf.
From S2P Require Import InodeSpec Inode Tree Db DbLookup DbInsert DbRemove DbMap Heap DbTrace.

(** The x86-64 and the portable builds; fresh memory reads as 0xCD. *)
Definition sse : Target := {| x86_64 := true; uninit_byte := 0xCD; uninit_byte_is_byte := ltac:(done) |}.
Definition portable : Target := {| x86_64 := false; uninit_byte := 0xCD; uninit_byte_is_byte := ltac:(done) |}.

(** A release build whose allocator never fails, and a debug build. *)
Definition plenty : Allocator := {| ndebug := true; posix_memalign _ _ := true |}.
Definition debug : Allocator := {| ndebug := false; posix_memalign _ _ := true |}.

Lemma plenty_reliable : @reliable plenty.
Proof. done. Qed.

Definition fresh_heap : heap := Heap (Injector 0 0 false) 0.

(** Six integer keys below nodes of four and sixteen, with a split prefix. *)
Definition sample_ops : list op :=
  [OpInsert (IntKey 0x101) [1]; OpInsert (IntKey 0x102) [2]; OpInsert (IntKey 0x103) [3];
   OpInsert (IntKey 0x104) [4; 4]; OpInsert (IntKey 0x105) []; OpInsert (IntKey 0x10101) [6]].

Definition sample_db : world := (@run_ops sse plenty sample_ops (new_db fresh_heap)).2.
Definition sample_map : gmap (list Z) (list Z) := spec_map sample_ops ∅.

Lemma sample_int : Forall int_op sample_ops.
Proof. by repeat constructor. Qed.

Lemma sample_fits : Forall op_fits sample_ops.
Proof. by repeat constructor. Qed.

Lemma sample_repr : @db_repr sse sample_db sample_map ∧ int_map sample_map.
Proof.
  apply (@run_ops_reliable_repr sse plenty plenty_reliable); [apply sample_int|apply sample_fits|apply int_map_empty|].
  apply new_db_repr.
Qed.

(** The root of the sample: a node of four with prefix [0 0 0 0 0] and an inner
    node and a leaf below it; and the node of sixteen below it. *)
Definition sample_node : inode node_ptr := Eval vm_compute in
  match slot sample_db with InodeP n => n | _ => N4 (@raw_inode_4 _ _ sse (Impl 0 0)) end.

Definition sample_node_16 : inode node_ptr := Eval vm_compute in
  match @slot_load _ _ (@inode_ops _ _ sse) sample_node 0 with Some (InodeP n) => n | _ => sample_node end.

Lemma sample_node_rep : ∃ kvs, @rep sse [] (InodeP sample_node) kvs.
Proof.
  destruct sample_repr as [(kvs & [[Hn _]|Hr] & _) _]; [by vm_compute in Hn|]. exists kvs.
  assert (Heq : slot sample_db = InodeP sample_node) by (vm_compute; reflexivity). by rewrite <- Heq.
Qed.

Lemma sample_node_wf : @node_wf _ _ (@inode_ops _ _ sse) sample_node.
Proof. destruct sample_node_rep as [kvs Hr]. exact (rep_node_wf _ _ _ Hr). Qed.

Lemma sample_node_16_wf : @node_wf _ _ (@inode_ops _ _ sse) sample_node_16.
Proof.
  destruct sample_node_rep as [kvs Hr]. apply (rep_child_wf _ _ _ 0 _ Hr). apply list_elem_of_lookup.
  exists 0%nat. vm_compute. reflexivity.
Qed.
