(* ===== verification/NodeTheorems.v ===== *)
(** What the internal nodes promise to the tree. *)

From S2P Require Import Prelude Words ArtKey KeyPrefix SortedAssoc Simd InodeBase.
From S2P Require Import Inode4 Inode16 Inode48 Inode256 Heap Stats Leaf.
From S2P Require Import InodeSpec Inode Tree Db DbLookup DbInsert DbRemove DbMap DbTrace Samples.

(** ** Walking a node *)

Section walk.
Context {P : Type} `{NodePtr P} `{Target}.

(** The entries met by following [next] (or [prior]) from a position. *)
Fixpoint walk (fuel : nat) (step : inode P → Z → option iter_pos) (n : inode P) (pos : option iter_pos)
    : option (list (Z * P)) :=
  match pos with
  | None => Some []
  | Some (b, i) =>
      match fuel with
      | O => None
      | S fuel =>
          c ← get_child n i;
          rest ← walk fuel step n (step n i);
          Some ((b, c) :: rest)
      end
  end.

Lemma walk_next (n : inode P) l1 l2 pos :
  node_wf n → entries n = l1 ++ l2 → pos_of n (head l2) pos →
  ∀ fuel, (length l2 ≤ fuel)%nat → walk fuel next n pos = Some l2.
Proof.
  intros Hw. revert l1 pos. induction l2 as [|[b c] l2 IH]; intros l1 pos He Hp fuel Hf.
  - simpl in Hp. subst pos. by destruct fuel.
  - destruct Hp as (i & -> & Hat). destruct fuel as [|fuel]; [cbn [length] in Hf; lia|]. cbn [walk].
    pose proof (get_child_at n i b c Hw Hat : get_child n i = Some c) as ->. cbn [mbind option_bind].
    rewrite (IH (l1 ++ [(b, c)]) (next n i)); [done|by rewrite <- app_assoc| |cbn [length] in Hf; lia].
    pose proof (next_spec n i b c Hw Hat : pos_of n _ (next n i)) as Hn.
    pose proof (wf_sorted n Hw) as Hs. rewrite He in Hn, Hs. by rewrite filter_above in Hn.
Qed.

Lemma walk_prior (n : inode P) l1 l2 pos :
  node_wf n → entries n = l1 ++ l2 → pos_of n (list.last l1) pos →
  ∀ fuel, (length l1 ≤ fuel)%nat → walk fuel prior n pos = Some (reverse l1).
Proof.
  intros Hw. revert l2 pos. induction l1 as [|[b c] l1 IH] using rev_ind; intros l2 pos He Hp fuel Hf.
  - simpl in Hp. subst pos. by destruct fuel.
  - rewrite last_snoc in Hp. rewrite length_app in Hf. cbn [length] in Hf.
    destruct Hp as (i & -> & Hat). destruct fuel as [|fuel]; [lia|]. cbn [walk].
    pose proof (get_child_at n i b c Hw Hat : get_child n i = Some c) as ->. cbn [mbind option_bind].
    rewrite <- app_assoc in He. cbn [app] in He.
    rewrite (IH ((b, c) :: l2) (prior n i)); [by rewrite reverse_snoc|done| |lia].
    pose proof (prior_spec n i b c Hw Hat : pos_of n _ (prior n i)) as Hn.
    pose proof (wf_sorted n Hw) as Hs. rewrite He in Hn, Hs. by rewrite filter_below in Hn.
Qed.
End walk.

(** C27: looking a key byte up in a node of any of the four types, by SSE
    comparison, bit tricks, indirection or direct index, finds exactly the child
    stored under it, as a child index and as a slot to load or store through. *)
Theorem node_search {P : Type} `{NodePtr P} `{Target} (n : inode P) (b : Z) :
  node_wf n → is_byte b →
  match assoc b (entries n) with
  | None => find_child n b = child_not_found
  | Some c => ∃ i s, find_child n b = (i, Some s) ∧ get_child n i = Some c ∧ slot_load n s = Some c
  end.
Proof.
  intros Hw Hb. pose proof (find_child_spec n b Hw Hb : match assoc b (entries n) with _ => _ end) as Hf.
  destruct (assoc b (entries n)); [|exact Hf]. destruct Hf as (i & s & Hf & Hat & Hl).
  exists i, s. split; [exact Hf|]. split; [exact (get_child_at n i b _ Hw Hat)|exact Hl].
Qed.

Lemma node_search_witness :
  is_byte 1 ∧
  match assoc 1 (@entries _ _ (@inode_ops _ _ sse) sample_node) with
  | None => @find_child _ _ sse sample_node 1 = child_not_found
  | Some c => ∃ i s, @find_child _ _ sse sample_node 1 = (i, Some s) ∧ get_child sample_node i = Some c ∧
      @slot_load _ _ (@inode_ops _ _ sse) sample_node s = Some c
  end.
Proof. split; [done|]. by apply (@node_search node_ptr node_ptr_ops sse sample_node 1 sample_node_wf). Defined.

(** the SSE search of a node of four agrees with the portable one, which
    finds a zero byte in the key word. *)
Theorem search_same_on_all_builds {P : Type} `{NodePtr P} (T1 T2 : Target) (n : inode_4 P) (b : Z) :
  @node_wf _ _ (@inode_4_ops P _ T1) n → @node_wf _ _ (@inode_4_ops P _ T2) n → is_byte b →
  @Inode4.find_child P T1 n b = @Inode4.find_child P T2 n b.
Proof.
  intros H1 H2 Hb.
  pose proof (@d_find _ _ _ _ _ _ _ _ _ (@inode_4_dense P _ T1) n b H1 Hb) as E1.
  pose proof (@d_find _ _ _ _ _ _ _ _ _ (@inode_4_dense P _ T2) n b H2 Hb) as E2.
  etransitivity; [exact E1|]. symmetry. exact E2.
Qed.

Definition sample_inode_4 : inode_4 node_ptr :=
  @add_two_to_empty _ portable (@raw_inode_4 _ _ portable (Impl 0 2)) 0x10 (LeafP (Leaf 1 0 [0x10])) 0xFF
    (LeafP (Leaf 1 0 [0xFF])).

Lemma sample_inode_4_wf :
  @node_wf _ _ (@inode_4_ops node_ptr _ sse) sample_inode_4 ∧
  @node_wf _ _ (@inode_4_ops node_ptr _ portable) sample_inode_4.
Proof.
  destruct (@i4_add_two node_ptr _ portable (Impl 0 2) 0x10 (LeafP (Leaf 1 0 [0x10])) 0xFF (LeafP (Leaf 1 0 [0xFF])))
    as ([Hw Hu] & _ & _); [done|split; [done|vm_compute; lia]|done..|].
  split; split; [exact Hw|done|exact Hw|exact Hu].
Qed.

Lemma search_same_on_all_builds_witness :
  is_byte 0xFF ∧ @Inode4.find_child node_ptr sse sample_inode_4 0xFF = @Inode4.find_child node_ptr portable sample_inode_4 0xFF.
Proof.
  split; [done|]. by apply (@search_same_on_all_builds node_ptr node_ptr_ops sse portable); [apply sample_inode_4_wf..|].
Defined.

(** C28: a node of any type takes a new child under a byte it does not have: in
    place when it has room, and otherwise in a node of the next larger type; the
    entries are the old ones and the new one, and the prefix is kept.  A node of
    256 is never full. *)
Theorem node_gains_child {P : Type} `{NodePtr P} `{Target} (n : inode P) (c : P) (depth : tree_depth) (b : Z) :
  node_wf n → leaf_key_view c !! Z.to_nat depth = Some b → is_byte b → is_null c = false →
  assoc b (entries n) = None →
  ∃ n', node_wf n' ∧ entries n' = ins b c (entries n) ∧ get_key_prefix n' = get_key_prefix n ∧
    if get_children_count n =? inode_capacity (type n)
    then create_larger n c depth = Some n' ∧ type n' = larger_type (type n) ∧ type n ≠ I256
    else add_to_nonfull n c depth (get_children_count n) = Some n' ∧ type n' = type n.
Proof.
  intros Hw Hb Hbb Hc Ha. destruct (Z.eqb_spec (get_children_count n) (inode_capacity (type n))) as [Hf|Hf].
  - assert (Ht : type n ≠ I256) by (intros Ht; by apply (inode_256_not_full n Hw Ht)).
    destruct (inode_grow n c depth b Hw Ht Hf Hb Hbb Hc Ha) as (n' & ? & ? & ? & ? & ?). by exists n'.
  - destruct (inode_add n c depth b Hw Hf Hb Hbb Hc Ha) as (n' & ? & ? & ? & ? & ?). by exists n'.
Qed.

Lemma node_gains_child_witness :
  let n := sample_node_16 in let c := LeafP (Leaf 8 0 [0; 0; 0; 0; 0; 0; 1; 9]) in
  let _ := sse in
  is_byte 9 ∧
  ∃ n', node_wf n' ∧ entries n' = ins 9 c (entries n) ∧ get_key_prefix n' = get_key_prefix n ∧
    if get_children_count n =? inode_capacity (type n)
    then create_larger n c 7 = Some n' ∧ type n' = larger_type (type n) ∧ type n ≠ I256
    else add_to_nonfull n c 7 (get_children_count n) = Some n' ∧ type n' = type n.
Proof.
  intros n c T. split; [done|].
  apply (@node_gains_child node_ptr node_ptr_ops sse n c 7 9); [exact sample_node_16_wf|done|done|done|].
  vm_compute. reflexivity.
Defined.

(** C29: a node of any type loses a child: in place when it has more than its
    minimum, and otherwise in a node of the next smaller type; the entries are
    the old ones without it, and the child comes back for reclamation.  (A node
    of four at its minimum gives way to its other child instead.) *)
Theorem node_loses_child {P : Type} `{NodePtr P} `{Target} (n : inode P) (i b : Z) (c : P) :
  node_wf n → child_at n i b c → type n ≠ I4 ∨ is_min_size n = false →
  ∃ n', node_wf n' ∧ entries n' = del b (entries n) ∧ get_key_prefix n' = get_key_prefix n ∧
    if is_min_size n
    then create_smaller n i = Some (n', c) ∧ type n' = smaller_type (type n)
    else remove n i = Some (n', c) ∧ type n' = type n.
Proof.
  intros Hw Hat Ht. destruct (is_min_size n) eqn:Hm.
  - destruct Ht as [Ht|]; [|done]. destruct (inode_shrink n i b c Hw Ht Hm Hat) as (n' & ? & ? & ? & ? & ?). by exists n'.
  - destruct (inode_remove n i b c Hw Hm Hat) as (n' & ? & ? & ? & ? & ?). by exists n'.
Qed.

Lemma node_loses_child_witness :
  let n := sample_node_16 in let c := LeafP (Leaf 8 1 [0; 0; 0; 0; 0; 0; 1; 3; 3]) in
  let _ := sse in
  child_at n 2 3 c ∧
  ∃ n', node_wf n' ∧ entries n' = del 3 (entries n) ∧ get_key_prefix n' = get_key_prefix n ∧
    if is_min_size n
    then create_smaller n 2 = Some (n', c) ∧ type n' = smaller_type (type n)
    else remove n 2 = Some (n', c) ∧ type n' = type n.
Proof.
  intros n c T. assert (Hat : child_at n 2 3 c) by (split; [done|vm_compute; reflexivity]). split; [exact Hat|].
  apply (@node_loses_child node_ptr node_ptr_ops sse n 2 3 c sample_node_16_wf Hat). left. vm_compute. done.
Defined.

(** C30: [begin] and then [next], from every position it returns, visit every
    child of a node once, in increasing key order, and [last] and [prior] the
    same in decreasing order; as many steps as the node has children are enough. *)
Theorem node_iteration {P : Type} `{NodePtr P} `{Target} (n : inode P) :
  node_wf n →
  walk (length (entries n)) next n (begin n) = Some (entries n) ∧
  walk (length (entries n)) prior n (last n) = Some (reverse (entries n)).
Proof.
  intros Hw. split.
  - apply (walk_next n [] (entries n)); [done|done|exact (begin_spec n Hw)|done].
  - apply (walk_prior n (entries n) []); [done|by rewrite app_nil_r|exact (last_spec n Hw)|done].
Qed.

Lemma node_iteration_witness :
  @walk _ _ (length (@entries _ _ (@inode_ops _ _ sse) sample_node_16)) next sample_node_16 (begin sample_node_16) =
    Some (@entries _ _ (@inode_ops _ _ sse) sample_node_16) ∧
  @walk _ _ (length (@entries _ _ (@inode_ops _ _ sse) sample_node_16)) prior sample_node_16 (last sample_node_16) =
    Some (reverse (@entries _ _ (@inode_ops _ _ sse) sample_node_16)).
Proof. apply (@node_iteration node_ptr node_ptr_ops sse sample_node_16 sample_node_16_wf). Defined.

(** [gte_key_byte] positions on the first child at or above the byte, and
    [lte_key_byte] on the last at or below it, or on none when there is none. *)
Theorem node_seek {P : Type} `{NodePtr P} `{Target} (n : inode P) (b : Z) :
  node_wf n → is_byte b →
  pos_of n (head (filter (λ p : Z * P, b ≤ p.1) (entries n))) (gte_key_byte n b) ∧
  pos_of n (list.last (filter (λ p : Z * P, p.1 ≤ b) (entries n))) (lte_key_byte n b).
Proof. intros Hw Hb. split; [exact (gte_spec n b Hw Hb)|exact (lte_spec n b Hw Hb)]. Qed.

Lemma node_seek_witness :
  is_byte 1 ∧
  @pos_of _ _ (@inode_ops _ _ sse) sample_node
    (head (filter (λ p : Z * node_ptr, 1 ≤ p.1) (@entries _ _ (@inode_ops _ _ sse) sample_node)))
    (gte_key_byte sample_node 1) ∧
  @pos_of _ _ (@inode_ops _ _ sse) sample_node
    (list.last (filter (λ p : Z * node_ptr, p.1 ≤ 1) (@entries _ _ (@inode_ops _ _ sse) sample_node)))
    (lte_key_byte sample_node 1).
Proof. split; [done|]. by apply (@node_seek node_ptr node_ptr_ops sse sample_node 1 sample_node_wf). Defined.
