(* ===== verification/CodecTheorems.v ===== *)
(** What keys, key prefixes, the failure injector, and the key encoder and decoder
    promise. *)

From Stdlib Require Import SpecFloat.
From S2P Require Import Prelude Words ArtKey KeyPrefix SortedAssoc Simd InodeBase.
From S2P Require Import Inode4 Inode16 Inode48 Inode256 Heap Stats Leaf.
From S2P Require Import InodeSpec Inode Tree Db DbLookup DbInsert DbRemove DbMap DbTrace Samples.
From S2P Require Import Buffer KeyCodec CodecSpec CodecOrder.

(** [compare] is the lexicographic order on byte strings: its sign decides
    less, equal and greater. *)
Theorem compare_is_lexicographic (a b : list Z) :
  (compare a b < 0 ↔ lex_lt a b) ∧ (compare a b = 0 ↔ a = b) ∧ (compare a b > 0 ↔ lex_lt b a).
Proof. split_and!; [apply compare_neg|apply compare_zero|apply compare_pos]. Qed.

(** 64-bit integer keys are byte-swapped into strings of eight bytes that
    compare as the integers, so the index orders integer keys by value. *)
Theorem integer_keys_in_order (a b : Z) :
  0 ≤ a < 2 ^ 64 → 0 ≤ b < 2 ^ 64 →
  cmp (art_key_of_int a) (get_key_view (art_key_of_int b)) = comparison_sign (a ?= b) ∧
  cmp_key (art_key_of_int a) (art_key_of_int b) = Some (comparison_sign (a ?= b)).
Proof.
  intros Ha Hb. split; [|by apply cmp_key_int]. by rewrite cmp_compare, compare_lex, lex_int_keys.
Qed.

Lemma integer_keys_in_order_witness :
  cmp (art_key_of_int 0x1FF) (get_key_view (art_key_of_int 0x200)) = -1 ∧
  cmp_key (art_key_of_int 0x1FF) (art_key_of_int 0x200) = Some (-1).
Proof. apply (integer_keys_in_order 0x1FF 0x200); lia. Defined.

(** [get_shared_length] counts, by one XOR and a count of trailing zeros, the
    leading prefix bytes that the rest of the key matches, the bytes past the end
    of a key reading as zero: those before it match, and it is the whole prefix
    or the next byte differs. *)
Theorem shared_length_is_common_prefix (w : key_prefix) (k : art_key) (d : nat) :
  prefix_wf w → key_wf k →
  let n := get_shared_length w (get_u64 (shifted k d)) in
  (n ≤ prefix_length w)%nat ∧
  (∀ i, (i < n)%nat → default 0 (get_key_view k !! (d + i)%nat) = prefix_index w i) ∧
  ((n < prefix_length w)%nat → default 0 (get_key_view k !! (d + n)%nat) ≠ prefix_index w n).
Proof.
  intros [Hw Hl] Hk n. pose proof (get_u64_shifted_range k d Hk) as Hr.
  destruct (shared_len_clamped (get_u64 (shifted k d)) w (prefix_length w)) as (Hle & Heq & Hne); [lia..|].
  fold (get_shared_length w (get_u64 (shifted k d))) in Hle, Heq, Hne. fold n in Hle, Heq, Hne.
  split; [done|]. split.
  - intros i Hi. rewrite <- byte_at_get_u64_shifted by (done || lia). by apply Heq.
  - intros Hlt. rewrite <- byte_at_get_u64_shifted by (done || lia). by apply Hne.
Qed.

Lemma shared_length_is_common_prefix_witness :
  let w := Z.lor 0x030201 (length_to_word 3) in
  let n := get_shared_length w (get_u64 (shifted (KView (Span 0 [9; 1; 2; 4])) 1)) in
  (n ≤ prefix_length w)%nat ∧
  (∀ i, (i < n)%nat → default 0 ([9; 1; 2; 4] !! (1 + i)%nat) = prefix_index w i) ∧
  ((n < prefix_length w)%nat → default 0 ([9; 1; 2; 4] !! (1 + n)%nat) ≠ prefix_index w n).
Proof.
  apply (shared_length_is_common_prefix (Z.lor 0x030201 (length_to_word 3)) (KView (Span 0 [9; 1; 2; 4])) 1).
  - split; [done|]. vm_compute. lia.
  - by repeat constructor.
Defined.

(** splitting a prefix in the middle, as an insertion does, and merging the
    parts around the byte between them, as a removal does, gives the prefix
    back. *)
Theorem prefix_split_merge (w : key_prefix) (n : nat) :
  prefix_wf w → (n < prefix_length w)%nat →
  let upper := prefix_of_source n w in let lower := cut w (n + 1) in
  prefix_bytes upper = take n (prefix_bytes w) ∧ prefix_bytes lower = drop (n + 1) (prefix_bytes w) ∧
  prefix_bytes (prepend lower upper (prefix_index w n)) = prefix_bytes w ∧
  prefix_wf (prepend lower upper (prefix_index w n)).
Proof.
  intros Hw Hn upper lower. pose proof Hw as [_ Hl].
  assert (Hu : prefix_bytes upper = take n (prefix_bytes w)) by (apply prefix_of_source_bytes; lia).
  assert (Hlo : prefix_bytes lower = drop (n + 1) (prefix_bytes w)) by (apply cut_bytes; [done|lia]).
  destruct (prepend_wf_bytes lower upper (prefix_index w n)) as [Hwf Hb].
  - by apply cut_wf.
  - apply prefix_of_source_wf. lia.
  - apply byte_at_is_byte.
  - rewrite <- !length_prefix_bytes, Hu, Hlo, length_take, length_drop, length_prefix_bytes. lia.
  - split_and!; [done..| |done]. rewrite Hb, Hu, Hlo, Nat.add_1_r. apply take_drop_middle. by apply lookup_prefix_bytes.
Qed.

Lemma prefix_split_merge_witness :
  let w := Z.lor 0x04030201 (length_to_word 4) in
  prefix_bytes (prefix_of_source 1 w) = [1] ∧ prefix_bytes (cut w 2) = [3; 4] ∧
  prefix_bytes (prepend (cut w 2) (prefix_of_source 1 w) (prefix_index w 1)) = [1; 2; 3; 4] ∧
  prefix_wf (prepend (cut w 2) (prefix_of_source 1 w) (prefix_index w 1)).
Proof.
  apply (prefix_split_merge (Z.lor 0x04030201 (length_to_word 4)) 1); [split; [done|]|]; vm_compute; lia.
Defined.

(** the failure injector, armed at [n], lets the next [n - 1] allocations
    through and fails every one after them, until it is reset. *)
Theorem injector_fails_from_nth (n : Z) (k : nat) (i : injector) :
  0 < n < 2 ^ 64 → Z.of_nat k < 2 ^ 64 → paused i = false →
  injected k (fail_on_nth_allocation n (reset i)) = (λ j, n - 1 <=? Z.of_nat j) <$> seq 0 k ∧
  injected k (reset i) = replicate k false.
Proof.
  intros Hn Hk Hp. unfold fail_on_nth_allocation, reset. cbn [allocation_counter paused]. rewrite Hp. split.
  - by rewrite injected_armed by lia.
  - induction k as [|k IH]; [done|]. cbn [injected replicate]. unfold maybe_fail at 1. cbn. f_equal. apply IH. lia.
Qed.

Lemma injector_fails_from_nth_witness :
  injected 4 (fail_on_nth_allocation 3 (reset (Injector 7 0 false))) = [false; false; true; true] ∧
  injected 4 (reset (Injector 7 0 false)) = [false; false; false; false].
Proof. apply (injector_fails_from_nth 3 4 (Injector 7 0 false)); [lia|lia|done]. Defined.

(** C31: what the encoder leaves in its buffer when it is given the fields of two
    keys of the same columns compares, by [compare], as the fields do one after the
    other: integers by value, floats as IEEE 754 compares them with -0 before +0 and
    NaN last, text lexicographically by its first 65532 bytes.  The texts have no zero
    bytes.  The encoder returns, or throws [bad_alloc] when a key outgrows its array.
    The keys have at most 2^63 bytes. *)
Theorem encoded_keys_in_order `{Target, Allocator} (xs ys : list field) (hx hy : heap) :
  Forall2 same_column xs ys → Z.of_nat (length (key_of xs)) ≤ 2 ^ 63 → Z.of_nat (length (key_of ys)) ≤ 2 ^ 63 →
  ∃ rx ry bx by', encode_fields xs (new_buffer hx) = (rx, bx) ∧ encode_fields ys (new_buffer hy) = (ry, by') ∧
    encoded xs rx ∧ encoded ys ry ∧
    (rx = Ret tt → ry = Ret tt →
     compare (enc_get_key_view bx) (enc_get_key_view by') = comparison_sign (fields_compare xs ys)).
Proof.
  intros Hcols Hx Hy. destruct (same_columns_ok xs ys Hcols) as [Hxs Hys].
  destruct (encoder_run xs hx Hxs Hx) as (rx & bx & Hrx & Hex & Hbx).
  destruct (encoder_run ys hy Hys Hy) as (ry & by' & Hry & Hey & Hby).
  exists rx, ry, bx, by'. split_and!; [done..|]. intros H1 H2. by rewrite Hbx, Hby, compare_lex, lex_keys.
Qed.

Lemma encoded_keys_in_order_witness :
  let xs := [Text [97; 98]; Num I32 (-5); Num F32 0xBF800000] in
  let ys := [Text [97; 98]; Num I32 (-5); Num F32 0x3F800000] in
  ∃ rx ry bx by', @encode_fields sse plenty xs (@new_buffer sse fresh_heap) = (rx, bx) ∧
    @encode_fields sse plenty ys (@new_buffer sse fresh_heap) = (ry, by') ∧ encoded xs rx ∧ encoded ys ry ∧
    (rx = Ret tt → ry = Ret tt → compare (enc_get_key_view bx) (enc_get_key_view by') = -1).
Proof.
  intros xs ys. apply (@encoded_keys_in_order sse plenty xs ys fresh_heap fresh_heap).
  - repeat constructor; cbn; lia.
  - vm_compute. done.
  - vm_compute. done.
Defined.

(** C32: a key that the encoder makes of some fields, used on an index whose keys it
    has made of fields of the same columns, is one of them or is not a prefix of
    them nor they of it: the contract of the index on byte-string keys.  The texts
    have no zero bytes. *)
Theorem encoded_keys_meet_contract `{Target, Allocator} (xs : list field) (k : list Z) (addr : Z) (m : gmap (list Z) (list Z)) :
  Forall field_ok xs → encodes xs k → (∀ e, is_Some (m !! e) → ∃ ys, Forall2 same_column xs ys ∧ encodes ys e) →
  key_contract (ViewKey addr k) m.
Proof.
  intros Hxs ->%encodes_key_of Hm; [|done]. split; [by apply key_of_is_bytes|]. intros e (ys & Hcols & He)%Hm.
  destruct (same_columns_ok xs ys Hcols) as [_ Hys]. rewrite (encodes_key_of ys e Hys He). by apply keys_prefix_free.
Qed.

Lemma encoded_keys_meet_contract_witness :
  key_contract (ViewKey 0 [97; 0; 255; 251; 1]) {[ [97; 98; 0; 255; 250; 7] := [1] ]}.
Proof.
  apply (@encoded_keys_meet_contract sse plenty [Text [97]; Num U8 1]).
  - repeat constructor; cbn; lia.
  - split; [vm_compute; done|]. exists fresh_heap. eexists. split; vm_compute; reflexivity.
  - intros e [v Hv%lookup_singleton_Some]. destruct Hv as [<- _]. exists [Text [97; 98]; Num U8 7].
    split; [repeat constructor; cbn; lia|]. split; [vm_compute; done|]. exists fresh_heap. eexists. split; vm_compute; reflexivity.
Defined.

(** C33: the decoder reads back, field after field, the numbers that were encoded:
    integers of every width and sign exactly, floats bit for bit, except that
    every NaN comes back as the canonical one. *)
Theorem decode_reads_encoded (vs : list (num_type * Z)) :
  Forall (λ p : num_type * Z, num_ok p.1 p.2) vs →
  ∃ d, decode_nums vs.*1 (new_decoder (key_of (num_field <$> vs))) =
    Some ((λ p : num_type * Z, canonical p.1 p.2) <$> vs, d) ∧ dec_off d = length (key_of (num_field <$> vs)).
Proof. intros Hvs. pose proof (decode_nums_at vs [] Hvs) as Hd. eexists. split; [exact Hd|done]. Qed.

Lemma decode_reads_encoded_witness :
  ∃ d, decode_nums [I8; U16; I64; F32] (new_decoder (key_of (num_field <$>
      [(I8, -128); (U16, 513); (I64, -2); (F32, 0x7F800001)]))) = Some ([-128; 513; -2; 0x7FC00000], d) ∧
    dec_off d = 15%nat.
Proof.
  apply (decode_reads_encoded [(I8, -128); (U16, 513); (I64, -2); (F32, 0x7F800001)]).
  repeat constructor; cbn; lia.
Defined.

(** C34: encoding fields into the growing buffer leaves exactly the bytes of the
    key there, however often the buffer was replaced on the way, or throws
    [bad_alloc] with some leading part of them, never without outgrowing the
    capacity; the destructor then frees the heap block, if there is one. *)
Theorem encoder_writes_key `{Target, Allocator} (xs : list field) (h : heap) :
  Forall field_ok xs → Z.of_nat (length (key_of xs)) ≤ 2 ^ 63 →
  ∃ r b, encode_fields xs (new_buffer h) = (r, b) ∧
    ((r = Ret tt ∧ enc_get_key_view b = key_of xs) ∨
     (r = Throw bad_alloc ∧ 256 < Z.of_nat (length (key_of xs)) ∧ ∃ k, enc_get_key_view b = take k (key_of xs))) ∧
    ∃ b', destroy_buffer b = (Ret tt, b') ∧ live b' = 0.
Proof.
  intros Hxs Hsz. destruct (encode_fields_appends xs Hxs (new_buffer h) [] (new_buffer_holds h) Hsz) as (r & b & Hrun & Hcase).
  exists r, b. split; [done|]. destruct Hcase as [(-> & Hb & _)|(-> & Hcap & k & Hb)].
  - split; [left; split; [done|by apply holds_view]|by eapply destroy_live].
  - split; [right; split_and!; [done|exact Hcap|exists k; by apply holds_view]|by eapply destroy_live].
Qed.

Lemma encoder_writes_key_witness :
  ∃ r b, @encode_fields sse plenty [Text (replicate 300 7); Num U64 5] (@new_buffer sse fresh_heap) = (r, b) ∧
    ((r = Ret tt ∧ enc_get_key_view b = key_of [Text (replicate 300 7); Num U64 5]) ∨
     (r = Throw bad_alloc ∧ 256 < Z.of_nat (length (key_of [Text (replicate 300 7); Num U64 5])) ∧
      ∃ k, enc_get_key_view b = take k (key_of [Text (replicate 300 7); Num U64 5]))) ∧
    ∃ b', destroy_buffer b = (Ret tt, b') ∧ live b' = 0.
Proof.
  apply (@encoder_writes_key sse plenty).
  - repeat constructor; cbn; lia.
  - vm_compute. done.
Defined.

(** for single and double precision, a number below another, as IEEE 754
    compares them, has the smaller code; infinities included. *)
Theorem float_codes_in_order (f : float_format) (x y : Z) :
  f = float32 ∨ f = float64 → is_pattern f x → is_pattern f y →
  SFltb (to_spec f x) (to_spec f y) = true → encode_floating_point f x < encode_floating_point f y.
Proof.
  intros Hf Hx Hy Hlt. assert (Hok : 1 ≤ f_mant f < f_width f - 2) by (destruct Hf as [->| ->]; done).
  rewrite <- Z.compare_lt_iff, (encode_float_compare f x y Hok Hx Hy). unfold float_compare, SFltb in *.
  destruct (isnan f x) eqn:Hnx.
  { unfold to_spec at 1 in Hlt. by rewrite Hnx in Hlt. }
  destruct (isnan f y) eqn:Hny.
  { done. }
  by destruct (SFcompare _ _) as [[]|].
Qed.

Lemma float_codes_in_order_witness :
  encode_floating_point float32 0xC0000000 < encode_floating_point float32 0x00000001.
Proof. apply float_codes_in_order; [by left|done|done|vm_compute; reflexivity]. Defined.
