(* ===== verification/ScanTheorems.v ===== *)
(** What the scans of an index promise to their callers. *)

From Stdlib Require Import Sorted.
From S2P Require Import Prelude Words ArtKey KeyPrefix SortedAssoc Simd InodeBase.
From S2P Require Import Inode4 Inode16 Inode48 Inode256 Heap Stats Leaf.
From S2P Require Import InodeSpec Inode Tree Db DbLookup DbInsert DbRemove DbMap DbTrace Samples.
From S2P Require Import CodecSpec CodecOrder Buffer Iterator IterSpec SeekSpec ScanSpec.

(** The bindings of a map, in ascending or descending order of their keys. *)
Definition in_key_order (fwd : bool) (m : gmap (list Z) (list Z)) (l : list kv) : Prop :=
  l ≡ₚ map_to_list m ∧ StronglySorted (λ a b : kv, lex a.1 b.1 = if fwd then Lt else Gt) l.

(** The bytes of all keys. *)
Definition map_volume (m : gmap (list Z) (list Z)) : nat := key_volume (map_to_list m).

(** At or beyond a key, in a direction. *)
Definition not_before (fwd : bool) (key e : list Z) : bool := bool_decide (lex e key ≠ if fwd then Lt else Gt).

Lemma map_of_perm all : sorted all → all ≡ₚ map_to_list (map_of all).
Proof. intros Hs. symmetry. apply map_to_list_to_map. by apply sorted_NoDup_keys. Qed.

Lemma in_order_key_order fwd all : sorted all → in_key_order fwd (map_of all) (in_order fwd all).
Proof.
  intros Hs. split; [|by apply sorted_in_order]. rewrite <- map_of_perm by done. destruct fwd; [done|apply reverse_Permutation].
Qed.

Lemma filter_key_order fwd all (p : list Z → bool) :
  sorted all →
  in_key_order fwd (filter (λ e : kv, p e.1) (map_of all)) (filter (λ e : kv, p e.1) (in_order fwd all)).
Proof.
  intros Hs. destruct (in_order_key_order fwd all Hs) as [Hp Ho]. split; [|by apply sorted_filter].
  rewrite map_filter_alt, map_to_list_to_map; [by rewrite Hp|].
  assert (Hnd : NoDup (map_to_list (map_of all)).*1) by apply NoDup_fst_map_to_list.
  revert Hnd. generalize (map_to_list (map_of all)). intros l. induction l as [|e l IH]; [constructor|].
  intros [Hx Hl]%NoDup_cons. rewrite filter_cons. case_decide; [|by apply IH]. cbn [fmap list_fmap].
  apply NoDup_cons. split; [|by apply IH]. intros (e' & He & [_ Hin]%list_elem_of_filter)%list_elem_of_fmap.
  apply Hx. rewrite He. by apply list_elem_of_fmap_2.
Qed.

Lemma from_here_filter fwd key all : from_here fwd key all = filter (λ e : kv, not_before fwd key e.1) (in_order fwd all).
Proof.
  destruct fwd; cbn [from_here in_order]; [|rewrite filter_reverse; f_equal];
    apply list_filter_iff; intros e; unfold not_before; by rewrite bool_decide_spec.
Qed.

Section scan.
Context `{Target, Allocator} {F : Type}.
Implicit Types (fn : list Z → list Z → F → bool * F) (m : gmap (list Z) (list Z)).

Lemma scanned_repr w w' all :
  root_rep (slot w) all → tally_is (env_stats (wenv w)) (λ o, total o (slot w)) → scanned w w' → db_repr w' (map_of all).
Proof. intros Hr Ht [Hs He]. exists all. rewrite Hs, He. done. Qed.

Lemma map_volume_of all : sorted all → map_volume (map_of all) = key_volume all.
Proof. intros Hs. symmetry. by apply key_volume_perm, map_of_perm. Qed.
End scan.

(** C23: a scan calls the function on every entry of the index exactly once, in
    ascending or descending order of the keys, until the function asks to stop.
    It leaves the index as it was.  Only when the iterator's key buffer has to
    grow can it end early, with [bad_alloc]; with a reliable allocator it never
    does. *)
Theorem scan_visits_all `{Target, Allocator} {F : Type} (fn : list Z → list Z → F → bool * F) (fwd : bool)
    (w : world) (m : gmap (list Z) (list Z)) (f : F) :
  db_repr w m → 2 * Z.of_nat (map_volume m) ≤ 2 ^ 63 →
  ∃ l r w' f', in_key_order fwd m l ∧ scan fn fwd (w, f) = (r, (w', f')) ∧ db_repr w' m ∧
    visits fn l f r f' ∧ (reliable → r = Ret tt ∧ f' = visit fn l f).
Proof.
  intros (all & Hr & -> & Ht) Hv. pose proof (root_rep_sorted _ _ Hr) as Hs. rewrite map_volume_of in Hv by done.
  destruct (scan_spec fn fwd w f all Hr) as (r & w' & f' & Hrun & Hsc & Hvis); [unfold room; lia|].
  exists (in_order fwd all), r, w', f'. split_and!; [by apply in_order_key_order|done|by eapply scanned_repr|done|].
  intros Hrel. destruct Hvis as [?|[-> _]]; [done|]. by destruct (nba_scan fn Hrel fwd _ _ Hrun).
Qed.

(** The function of the examples collects the keys it sees, up to a limit. *)
Definition collect (limit : nat) (k v : list Z) (acc : list (list Z)) : bool * list (list Z) :=
  (bool_decide (limit ≤ length acc)%nat, acc ++ [k]).

Lemma sample_volume : map_volume sample_map = 48%nat.
Proof. by vm_compute. Qed.

Lemma scan_visits_all_witness :
  ∃ l r w' f', in_key_order true sample_map l ∧ @scan sse plenty _ (collect 4) true (sample_db, []) = (r, (w', f')) ∧
    @db_repr sse w' sample_map ∧ visits (collect 4) l [] r f' ∧
    (@reliable plenty → r = Ret tt ∧ f' = visit (collect 4) l []).
Proof.
  apply (@scan_visits_all sse plenty); [apply sample_repr|]. rewrite sample_volume. done.
Defined.

(** The search for the start of a scan does not go astray: the key is stored, or
    its descent ends in a node with a child at or beyond it, or no entry is. *)
Definition well_sought `{Target} (fwd : bool) (w : world) (k : key_arg) (m : gmap (list Z) (list Z)) : Prop :=
  is_Some (m !! key_bytes k) ∨
  dead_end (loop_fuel (art_key_of k)) fwd (slot w) (art_key_of k) = false ∨
  (∀ e, is_Some (m !! e) → not_before fwd (key_bytes k) e = false).

Lemma well_sought_spec `{Target, Allocator} fwd w k all :
  root_rep (slot w) all → search_ok (art_key_of k) all.*1 → well_sought fwd w k (map_of all) →
  dead_end (loop_fuel (art_key_of k)) fwd (slot w) (art_key_of k) = false ∨
  from_here fwd (get_key_view (art_key_of k)) all = [].
Proof.
  intros Hr Hok Hw. pose proof (root_rep_sorted _ _ Hr) as Hs. destruct Hw as [Hin|[?|Hno]]; [left|by left|right].
  - destruct Hr as [[_ ->]|Hr]; [by destruct Hin|].
    rewrite <- (shifted_0 (art_key_of k)) at 2. change 0%nat with (length (@nil Z)).
    eapply dead_end_stored; [exact Hr|apply prefix_nil|exact Hok|]. by apply elem_of_map_keys.
  - rewrite from_here_filter. apply filter_none. intros j e Hj%list_elem_of_lookup_2.
    change (¬ not_before fwd (key_bytes k) e.1). rewrite (Hno e.1); [by intros []|].
    apply elem_of_map_keys; [done|]. apply list_elem_of_fmap_2.
    destruct fwd; cbn in Hj; [done|]. by rewrite elem_of_reverse in Hj.
Qed.

(** C24: a scan from a key calls the function on every entry at or beyond the key,
    in the order of the direction, until it asks to stop, provided the search for
    the key does not go astray; for a stored key it never does. *)
Theorem scan_from_visits `{Target, Allocator} {F : Type} (fn : list Z → list Z → F → bool * F) (from : key_arg)
    (fwd : bool) (w : world) (m : gmap (list Z) (list Z)) (f : F) :
  db_repr w m → key_contract from m → 8 * Z.of_nat (map_volume m) ≤ 2 ^ 63 → well_sought fwd w from m →
  ∃ l r w' f', in_key_order fwd (filter (λ e : kv, not_before fwd (key_bytes from) e.1) m) l ∧
    scan_from fn from fwd (w, f) = (r, (w', f')) ∧ db_repr w' m ∧
    visits fn l f r f' ∧ (reliable → r = Ret tt ∧ f' = visit fn l f).
Proof.
  intros (all & Hr & -> & Ht) Hc Hv Hw. pose proof (root_rep_sorted _ _ Hr) as Hs. rewrite map_volume_of in Hv by done.
  pose proof (key_contract_search from all Hs Hc) as Hok.
  pose proof (well_sought_spec fwd w from all Hr Hok Hw) as Hgood.
  destruct (seek_scan_spec fn from fwd (λ _, true) (ret true) w f all Hr Hok) as (r & w' & f' & Hrun & Hsc & todo & _ & Htodo & Hvis);
    [unfold room; lia|done|].
  specialize (Htodo Hgood). subst todo. rewrite take_while_all, from_here_filter in Hvis.
  exists (filter (λ e : kv, not_before fwd (key_bytes from) e.1) (in_order fwd all)), r, w', f'.
  assert (Hrun' : scan_from fn from fwd (w, f) = (r, (w', f'))) by by destruct fwd.
  split_and!; [by apply filter_key_order|exact Hrun'|by eapply scanned_repr|exact Hvis|].
  intros Hrel. destruct Hvis as [?|[-> _]]; [done|]. by destruct (nba_scan_from fn Hrel from fwd _ _ Hrun').
Qed.

Lemma sample_contract k : is_int k → key_contract k sample_map.
Proof. intros Hk. apply int_key_contract; [done|]. apply sample_repr. Qed.

Lemma scan_from_visits_witness :
  ∃ l r w' f', in_key_order false (filter (λ e : kv, not_before false (key_bytes (IntKey 0x103)) e.1) sample_map) l ∧
    @scan_from sse plenty _ (collect 9) (IntKey 0x103) false (sample_db, []) = (r, (w', f')) ∧ @db_repr sse w' sample_map ∧
    visits (collect 9) l [] r f' ∧ (@reliable plenty → r = Ret tt ∧ f' = visit (collect 9) l []).
Proof.
  apply (@scan_from_visits sse plenty); [apply sample_repr|by apply sample_contract|by rewrite sample_volume|].
  left. vm_compute. by eexists.
Defined.

(** whatever the key, a scan from it ends, without undefined behaviour, and
    calls the function on entries that follow one another up to the end of the
    order, once each: a search that goes astray only starts in another place. *)
Theorem scan_from_is_safe `{Target, Allocator} {F : Type} (fn : list Z → list Z → F → bool * F) (from : key_arg)
    (fwd : bool) (w : world) (m : gmap (list Z) (list Z)) (f : F) :
  db_repr w m → key_contract from m → 8 * Z.of_nat (map_volume m) ≤ 2 ^ 63 →
  ∃ skipped l r w' f', in_key_order fwd m (skipped ++ l) ∧ scan_from fn from fwd (w, f) = (r, (w', f')) ∧
    db_repr w' m ∧ visits fn l f r f'.
Proof.
  intros (all & Hr & -> & Ht) Hc Hv. pose proof (root_rep_sorted _ _ Hr) as Hs. rewrite map_volume_of in Hv by done.
  destruct (seek_scan_spec fn from fwd (λ _, true) (ret true) w f all Hr (key_contract_search from all Hs Hc))
    as (r & w' & f' & Hrun & Hsc & todo & [skipped Hsuf] & _ & Hvis); [unfold room; lia|done|].
  rewrite take_while_all in Hvis. exists skipped, todo, r, w', f'.
  split_and!; [rewrite <- Hsuf; by apply in_order_key_order|by destruct fwd|by eapply scanned_repr|exact Hvis].
Qed.

Lemma scan_from_is_safe_witness :
  ∃ skipped l r w' f', in_key_order true sample_map (skipped ++ l) ∧
    @scan_from sse plenty _ (collect 9) (IntKey 0x106) true (sample_db, []) = (r, (w', f')) ∧
    @db_repr sse w' sample_map ∧ visits (collect 9) l [] r f'.
Proof.
  apply (@scan_from_is_safe sse plenty); [apply sample_repr|by apply sample_contract|by rewrite sample_volume].
Defined.

(** The bound of a range scan, as the loop tests it. *)
Lemma range_test `{Target, Allocator} fwd k it n e todo all :
  stands fwd it n (e :: todo) all →
  (bind (it_cmp k) (λ c, ret (if fwd then c <? 0 else 0 <? c))) it =
    (Ret (bool_decide (lex e.1 (get_key_view k) = if fwd then Lt else Gt)), it).
Proof.
  intros Hst. unfold bind. rewrite (it_cmp_spec _ _ _ _ _ _ _ Hst), compare_lex. unfold ret. do 2 f_equal.
  by destruct fwd, (lex e.1 (get_key_view k)).
Qed.

(** C25: on integer keys, provided the search for [a] does not go astray, a range
    scan calls the function, in ascending order if [a < b] and in descending order if
    [a > b], on the entries from [a] on, included, up to [b], excluded, until it asks
    to stop; if [a = b], on none.  The search does not go astray for a stored key, nor
    when there is no entry at or beyond it; otherwise it must not end in a node
    without a child beyond the key.  In both directions the first key is included and
    the second is not.  The keys of the index take at most 2^60 bytes together. *)
Theorem scan_range_visits `{Target, Allocator} {F : Type} (fn : list Z → list Z → F → bool * F) (a b : Z)
    (w : world) (m : gmap (list Z) (list Z)) (f : F) :
  db_repr w m → int_map m → 0 ≤ a < 2 ^ 64 → 0 ≤ b < 2 ^ 64 → 8 * Z.of_nat (map_volume m) ≤ 2 ^ 63 →
  well_sought (a <? b) w (IntKey a) m →
  ∃ l r w' f', in_key_order (a <? b)
      (filter (λ e : kv, within (a <? b) (key_bytes (IntKey a)) (key_bytes (IntKey b)) e.1) m) l ∧
    scan_range fn (IntKey a) (IntKey b) (w, f) = (r, (w', f')) ∧ db_repr w' m ∧
    visits fn l f r f' ∧ (reliable → r = Ret tt ∧ f' = visit fn l f).
Proof.
  intros (all & Hr & -> & Ht) Him Ha Hb Hv Hw. pose proof (root_rep_sorted _ _ Hr) as Hs. rewrite map_volume_of in Hv by done.
  pose proof (key_contract_search (IntKey a) all Hs (int_key_contract (IntKey a) _ I Him)) as Hok.
  pose proof (well_sought_spec _ w (IntKey a) all Hr Hok Hw) as Hgood. set (fwd := a <? b) in *.
  set (l := filter (λ e : kv, within fwd (key_bytes (IntKey a)) (key_bytes (IntKey b)) e.1) (in_order fwd all)).
  assert (Hl : in_key_order fwd (filter (λ e : kv, within fwd (key_bytes (IntKey a)) (key_bytes (IntKey b)) e.1) (map_of all)) l)
    by by apply (filter_key_order fwd all (within fwd (key_bytes (IntKey a)) (key_bytes (IntKey b)))).
  assert (Hrel : ∀ r w' f', scan_range fn (IntKey a) (IntKey b) (w, f) = (r, (w', f')) → visits fn l f r f' →
    reliable → r = Ret tt ∧ f' = visit fn l f).
  { intros r w' f' Hrun [?|[-> _]] Hrel; [done|]. by destruct (nba_scan_range fn Hrel (IntKey a) (IntKey b) _ _ Hrun). }
  assert (Hcmp : cmp_key (art_key_of (IntKey a)) (art_key_of (IntKey b)) = Some (comparison_sign (a ?= b))) by by apply cmp_key_int.
  destruct (Z.eqb_spec a b) as [->|Hne].
  - exists l, (Ret tt), w, f.
    assert (Hrun : scan_range fn (IntKey b) (IntKey b) (w, f) = (Ret tt, (w, f))).
    { unfold scan_range. rewrite Hcmp, Z.compare_refl. done. }
    assert (Hnil : l = []).
    { apply filter_none. intros j e _. unfold within, fwd. rewrite Z.ltb_irrefl.
      destruct (lex e.1 (key_bytes (IntKey b))); by intros []. }
    split_and!; [exact Hl|exact Hrun|by exists all|left; by rewrite Hnil|].
    apply (Hrel _ _ _ Hrun). left. by rewrite Hnil.
  - destruct (seek_scan_spec fn (IntKey a) fwd (λ e : kv, bool_decide (lex e.1 (key_bytes (IntKey b)) = if fwd then Lt else Gt))
      (bind (it_cmp (art_key_of (IntKey b))) (λ c, ret (if fwd then c <? 0 else 0 <? c))) w f all Hr Hok)
      as (r & w' & f' & Hrun & Hsc & todo & _ & Htodo & Hvis); [unfold room; lia|intros; by eapply range_test|].
    specialize (Htodo Hgood). subst todo. rewrite take_while_range in Hvis by done.
    assert (Hrun' : scan_range fn (IntKey a) (IntKey b) (w, f) = (r, (w', f'))).
    { unfold scan_range. rewrite Hcmp. unfold fwd in Hrun.
      destruct (Z.compare_spec a b) as [|Hlt|Hgt]; [done| |];
        [rewrite (proj2 (Z.ltb_lt a b) Hlt) in Hrun|rewrite (proj2 (Z.ltb_ge a b)) in Hrun by lia]; exact Hrun. }
    exists l, r, w', f'. split_and!; [exact Hl|exact Hrun'|by eapply scanned_repr|exact Hvis|by apply (Hrel r w' f')].
Qed.

Lemma scan_range_visits_witness :
  ∃ l r w' f', in_key_order false
      (filter (λ e : kv, within false (key_bytes (IntKey 0x104)) (key_bytes (IntKey 0x102)) e.1) sample_map) l ∧
    @scan_range sse plenty _ (collect 9) (IntKey 0x104) (IntKey 0x102) (sample_db, []) = (r, (w', f')) ∧
    @db_repr sse w' sample_map ∧
    visits (collect 9) l [] r f' ∧ (@reliable plenty → r = Ret tt ∧ f' = visit (collect 9) l []).
Proof.
  apply (@scan_range_visits sse plenty _ (collect 9) 0x104 0x102); [apply sample_repr..|lia|lia|by rewrite sample_volume|].
  left. vm_compute. by eexists.
Defined.

(** [prior] undoes [next], and [next] undoes [prior]: from any entry but the
    last, or the first, the iterator comes back to it. *)
Theorem step_and_back `{Target, Allocator} (fwd : bool) (it : iterator) (n : nat) (e e' : kv) (todo all : list kv) :
  stands fwd it n (e :: e' :: todo) all → Z.of_nat (n + length e.1 + length e'.1) ≤ 2 ^ 63 →
  runs (bind (step fwd) (λ _, step (negb fwd))) it (λ _ it', ∃ n', stands fwd it' n' (e :: e' :: todo) all).
Proof.
  intros Hst Hroom. destruct (stands_turn _ _ _ _ _ _ Hst) as (behind & _ & Hord).
  eapply runs_bind; [eapply step_spec; [exact Hst|unfold room; cbn [first_bytes]; lia]|].
  intros [] it1 _ Hst1. destruct (stands_turn _ _ _ _ _ _ Hst1) as (behind1 & Hst1' & Hord1).
  assert (Hb : behind1 = e :: behind).
  { rewrite Hord, reverse_cons, <- app_assoc in Hord1. cbn [app] in Hord1. apply app_inv_head in Hord1. congruence. }
  subst behind1. eapply runs_mono; [eapply step_spec; [exact Hst1'|unfold room; cbn [first_bytes] in *; lia]|].
  intros [] it2 _ Hst2. cbn [first_bytes] in Hst2. destruct (stands_turn _ _ _ _ _ _ Hst2) as (todo2 & Hst2' & Hord2).
  rewrite negb_involutive in Hst2', Hord2. eexists.
  assert (Ht : todo2 = e' :: todo).
  { apply (f_equal reverse) in Hord.
    assert (Hall : in_order fwd all = reverse (in_order (negb fwd) all)) by (unfold in_order; destruct fwd; cbn [negb]; by rewrite ?reverse_involutive).
    rewrite Hall, Hord, reverse_app, reverse_cons, reverse_involutive, <- app_assoc in Hord2. cbn [app] in Hord2.
    apply app_inv_head in Hord2. congruence. }
  subst todo2. exact Hst2'.
Qed.

(** An iterator on the first entry of the sample. *)
Definition sample_iterator : iterator := (@first sse plenty (@new_iterator sse (slot sample_db) fresh_heap)).2.

Lemma sample_stands : ∃ all e e' todo, in_order true all = e :: e' :: todo ∧ length e.1 = 8%nat ∧ length e'.1 = 8%nat ∧
  @stands sse true sample_iterator 8 (e :: e' :: todo) all.
Proof.
  destruct sample_repr as [(all & Hr & Hm & _) Him]. pose proof (root_rep_sorted _ _ Hr) as Hs.
  assert (Hlen : ∀ e, e ∈ all → length e.1 = 8%nat).
  { intros e He. apply Him. rewrite Hm. apply elem_of_map_keys; [done|]. by apply list_elem_of_fmap_2. }
  assert (Hn : length all = 6%nat) by (rewrite <- (map_of_size all), <- Hm by done; by vm_compute).
  destruct all as [|e [|e' todo]]; [done..|]. exists (e :: e' :: todo), e, e', todo.
  split; [done|]. split; [apply Hlen; by left|]. split; [apply Hlen; right; by left|].
  destruct (@extreme_spec sse plenty true (@new_iterator sse (slot sample_db) fresh_heap) [] (e :: e' :: todo))
    as (r & it' & Hrun & _ & Hcase); [apply new_buffer_holds|exact Hr| |].
  - cbn [in_order first_bytes]. rewrite (Hlen e) by by left. done.
  - assert (Heq : it' = sample_iterator) by (unfold sample_iterator; change (@first sse plenty) with (@extreme sse plenty true); by rewrite Hrun).
    destruct Hcase as [(a & _ & Hst)|[Hr' _]].
    + cbn [in_order first_bytes] in Hst. rewrite (Hlen e) in Hst by by left. by rewrite <- Heq.
    + assert (Hok : (@extreme sse plenty true (@new_iterator sse (slot sample_db) fresh_heap)).1 = Ret tt) by (vm_compute; reflexivity).
      rewrite Hrun in Hok. cbn in Hok. by rewrite Hr' in Hok.
Qed.

Lemma step_and_back_witness :
  ∃ all e e' todo, runs (bind (@step sse plenty true) (λ _, @step sse plenty false)) sample_iterator
    (λ _ it', ∃ n', @stands sse true it' n' (e :: e' :: todo) all).
Proof.
  destruct sample_stands as (all & e & e' & todo & _ & He & He' & Hst). exists all, e, e', todo.
  apply (@step_and_back sse plenty true sample_iterator 8 e e' todo all); [exact Hst|]. rewrite He, He'. done.
Defined.
