(* ===== verification/Threads.v ===== *)
(** Concurrent executions: the steps of several threads interleaved one atomic
    access at a time, as a list of events run over a shared state.  An event
    that is not enabled in a state has no result. *)

From S2P Require Import Prelude.

(** ** Running a list of events *)

Section run.
Context {S E : Type} (step : E → S → option S).

Fixpoint run (es : list E) (s : S) : option S :=
  match es with
  | [] => Some s
  | e :: es => match step e s with Some s' => run es s' | None => None end
  end.

(** [along C es s]: every event of the execution happens in a state that
    allows it according to [C]. *)
Fixpoint along (C : E → S → bool) (es : list E) (s : S) : bool :=
  match es with
  | [] => true
  | e :: es => C e s && match step e s with Some s' => along C es s' | None => true end
  end.

Lemma run_app es1 es2 s : run (es1 ++ es2) s = match run es1 s with Some s' => run es2 s' | None => None end.
Proof. revert s. induction es1 as [|e es1 IH]; intros s; [done|]. simpl. destruct (step e s); [apply IH|done]. Qed.

(** An invariant, which may mention the number of steps made so far, holds
    after every execution whose length stays within a bound. *)
Lemma run_invariant (C : E → S → bool) (P : Z → S → Prop) (bound : Z) es s s' :
  (∀ n e s s', 0 ≤ n → n + 1 < bound → C e s = true → P n s → step e s = Some s' → P (n + 1) s') →
  P 0 s → along C es s = true → run es s = Some s' → Z.of_nat (length es) < bound → P (Z.of_nat (length es)) s'.
Proof.
  intros Hstep HP HC Hrun Hlen.
  enough (∀ n, 0 ≤ n → n + Z.of_nat (length es) < bound → P n s → P (n + Z.of_nat (length es)) s') as H.
  { apply (H 0); auto with lia. }
  clear HP Hlen. revert s HC Hrun. induction es as [|e es IH]; intros s HC Hrun n Hn Hb HP; simpl in *.
  - injection Hrun as ->. by rewrite Z.add_0_r.
  - destruct (C e s) eqn:Hc; [|done]. destruct (step e s) as [s1|] eqn:Hs; [|done].
    replace (n + Z.of_nat (Datatypes.S (length es))) with (n + 1 + Z.of_nat (length es)) by lia.
    apply IH with s1; [done..|lia|lia|]. apply Hstep with e s; auto with lia.
Qed.
End run.

Lemma along_mono {S E} (step : E → S → option S) f g es s : (∀ e s, f e s = true → g e s = true) →
  along step f es s = true → along step g es s = true.
Proof.
  intros Hfg. revert s. induction es as [|e es IH]; intros s; cbn [along]; [done|]. intros [Hf Hes]%andb_true_iff.
  apply andb_true_iff. split; [by apply Hfg|]. destruct (step e s); [by apply IH|done].
Qed.

Lemma along_true {S E} (step : E → S → option S) es s : along step (λ _ _, true) es s = true.
Proof. revert s. induction es as [|e es IH]; intros s; [done|]. simpl. destruct (step e s); [apply IH|done]. Qed.

(** ** Counting the threads that satisfy a predicate *)

Section count.
Context {A : Type}.

Fixpoint count (P : A → bool) (l : list A) : Z :=
  match l with [] => 0 | x :: l => Z.b2z (P x) + count P l end.

Lemma count_range P l : 0 ≤ count P l ≤ Z.of_nat (length l).
Proof. induction l as [|x l IH]; simpl; [lia|]. destruct (P x); simpl; lia. Qed.

Lemma count_insert P (l : list A) i x y :
  l !! i = Some x → count P (<[i:=y]> l) = count P l - Z.b2z (P x) + Z.b2z (P y).
Proof.
  revert i. induction l as [|z l IH]; intros [|i] Hi; simpl in *; simplify_eq; [lia|].
  change (list_insert i y l) with (<[i:=y]> l). rewrite (IH i Hi). lia.
Qed.

Lemma count_le P Q (l : list A) : (∀ x, P x = true → Q x = true) → count P l ≤ count Q l.
Proof.
  intros H. induction l as [|x l IH]; simpl; [lia|].
  destruct (P x) eqn:E; [rewrite (H x E)|destruct (Q x)]; simpl; lia.
Qed.

Lemma count_pos P (l : list A) i x : l !! i = Some x → P x = true → 1 ≤ count P l.
Proof.
  revert i. induction l as [|z l IH]; intros [|i] Hi HP; simpl in *; simplify_eq.
  - rewrite HP. pose proof (count_range P l). simpl. lia.
  - pose proof (IH i Hi HP). destruct (P z); simpl; lia.
Qed.

(** Two different positions count twice. *)
Lemma count_two P (l : list A) i j x y :
  l !! i = Some x → l !! j = Some y → i ≠ j → P x = true → P y = true → 2 ≤ count P l.
Proof.
  revert i j. induction l as [|z l IH]; intros [|i] [|j] Hi Hj Hij Hx Hy; simpl in *; simplify_eq.
  - rewrite Hx. pose proof (count_pos P l j y Hj Hy). simpl. lia.
  - rewrite Hy. pose proof (count_pos P l i x Hi Hx). simpl. lia.
  - assert (i ≠ j) by congruence. pose proof (IH i j Hi Hj H Hx Hy). destruct (P z); simpl; lia.
Qed.

Lemma count_zero P (l : list A) i x : count P l = 0 → l !! i = Some x → P x = false.
Proof. intros H Hi. destruct (P x) eqn:E; [|done]. pose proof (count_pos P l i x Hi E). lia. Qed.

Lemma count_one P (l : list A) i j x y :
  count P l ≤ 1 → l !! i = Some x → P x = true → l !! j = Some y → P y = true → i = j.
Proof.
  intros H Hi Hx Hj Hy. destruct (decide (i = j)) as [|Hij]; [done|].
  pose proof (count_two P l i j x y Hi Hj Hij Hx Hy). lia.
Qed.

Lemma count_none P (l : list A) : (∀ i x, l !! i = Some x → P x = false) → count P l = 0.
Proof.
  intros H. induction l as [|x l IH]; simpl; [done|]. rewrite (H 0%nat x eq_refl), IH; [done|].
  intros i y. apply (H (S i)).
Qed.

Lemma count_replicate P n x : P x = false → count P (replicate n x) = 0.
Proof. intros H. induction n as [|n IH]; simpl; [done|]. by rewrite H, IH. Qed.
End count.
