(* ===== verification/OptimisticLock.v ===== *)
(** The optimistic lock: a version word that readers compare and writers
    change.  A thread reads the protected fields between taking the version
    and checking that it is still the same; a writer replaces the version by a
    locked one with a compare-and-swap.  The word is a [Z] of 64 bits; the
    atomic accesses are sequentially consistent, one per step. *)

From S2P Require Import Prelude Words Threads.

(** ** The version word *)

(** [src/optimistic_lock.hpp:291-292] optimistic_lock::version_type::obsolete_lock_word *)
Definition obsolete_lock_word : Z := 1.

(** [src/optimistic_lock.hpp:298-302] optimistic_lock::version_type::is_write_locked *)
Definition is_write_locked (version : Z) : bool := negb (Z.land version 2 =? 0).

(** [src/optimistic_lock.hpp:304-308] optimistic_lock::version_type::is_free *)
Definition is_free (version : Z) : bool := Z.land version 3 =? 0.

(** [src/optimistic_lock.hpp:310-320] optimistic_lock::version_type::is_obsolete *)
Definition is_obsolete (version : Z) : bool := version =? obsolete_lock_word.

(** [src/optimistic_lock.hpp:322-328] optimistic_lock::version_type::set_locked_bit *)
Definition set_locked_bit (version : Z) : Z := wrap64 (version + 2).

(** [src/optimistic_lock.hpp:338-342] optimistic_lock::version_type::operator== *)
Definition version_eqb (version other : Z) : bool := version =? other.

(** [src/optimistic_lock.hpp:372-383] optimistic_lock::atomic_version_type::cas_acquire,
    with the new value of the word. *)
Definition cas_acquire (word expected new_val : Z) : bool * Z :=
  if word =? expected then (true, new_val) else (false, word).

(** [src/optimistic_lock.hpp:385-397] optimistic_lock::atomic_version_type::write_unlock *)
Definition write_unlock (word : Z) : Z := wrap64 (word + 2).

(** [src/optimistic_lock.hpp:399-414] optimistic_lock::atomic_version_type::write_unlock_and_obsolete *)
Definition write_unlock_and_obsolete (word : Z) : Z := obsolete_lock_word.

(** ** Read critical sections and write guards *)

(** [src/optimistic_lock.hpp:456-462] optimistic_lock::read_critical_section:
    whether its lock pointer is set, and the version taken. *)
Record read_critical_section := Rcs { rcs_lock : bool; version : Z }.

(** [src/optimistic_lock.hpp:489-498] optimistic_lock::read_critical_section::must_restart *)
Definition must_restart (rcs : read_critical_section) : bool := negb (rcs_lock rcs).

(** [src/optimistic_lock.hpp:676-697] optimistic_lock::try_read_lock:
    one turn of the loop, which goes round again while the word is locked. *)
Definition try_read_lock (word : Z) : option read_critical_section :=
  if is_free word then Some (Rcs true word)
  else if is_obsolete word then Some (Rcs false 0)
  else None.

(** [src/optimistic_lock.hpp:699-712] optimistic_lock::rehydrate_read_lock *)
Definition rehydrate_read_lock (version_tag : Z) : read_critical_section := Rcs true version_tag.

(** [src/optimistic_lock.hpp:752-766] optimistic_lock::check *)
Definition lock_check (word locked_version : Z) : bool := version_eqb locked_version word.

(** [src/optimistic_lock.hpp:500-525] optimistic_lock::read_critical_section::check *)
Definition check (word : Z) (rcs : read_critical_section) : bool := lock_check word (version rcs).

(** [src/optimistic_lock.hpp:768-782] optimistic_lock::try_read_unlock *)
Definition lock_try_read_unlock (word locked_version : Z) : bool := lock_check word locked_version.

(** [src/optimistic_lock.hpp:527-552] optimistic_lock::read_critical_section::try_read_unlock *)
Definition try_read_unlock (word : Z) (rcs : read_critical_section) : bool :=
  lock_try_read_unlock word (version rcs).

(** [src/optimistic_lock.hpp:784-795] optimistic_lock::try_upgrade_to_write_lock *)
Definition try_upgrade_to_write_lock (word locked_version : Z) : bool * Z :=
  cas_acquire word locked_version (set_locked_bit locked_version).

(** [src/optimistic_lock.hpp:648-664] optimistic_lock::write_guard::try_lock_upgrade:
    whether the guard's lock pointer is set, and the new word. *)
Definition try_lock_upgrade (word : Z) (rcs : read_critical_section) : bool * Z :=
  let '(upgrade_success, word') := try_upgrade_to_write_lock word (version rcs) in
  (if upgrade_success then rcs_lock rcs else false, word').

(** [src/optimistic_lock.hpp:601-605] optimistic_lock::write_guard::~write_guard *)
Definition write_guard_destroy (lock : bool) (word : Z) : Z :=
  if negb lock then word else write_unlock word.

(** [src/optimistic_lock.hpp:614-621] optimistic_lock::write_guard::unlock_and_obsolete *)
Definition unlock_and_obsolete (word : Z) : bool * Z := (false, write_unlock_and_obsolete word).

(** [src/optimistic_lock.hpp:623-630] optimistic_lock::write_guard::unlock *)
Definition unlock (word : Z) : bool * Z := (false, write_unlock word).

(** ** Threads that use one lock *)

(** What a thread is doing with the lock.  A read section remembers the fields
    read so far and the values seen; a released one can be resumed with its
    version ([rehydrate_read_lock]).  A guard remembers its lock pointer. *)
Inductive status :=
  | Outside
  | Reading (rcs : read_critical_section) (seen : list (nat * option Z))
  | Released (tag : Z) (seen : list (nat * option Z))
  | Guarding (lock : bool).

(** The lock, the fields it protects ([in_critical_section] members), and the
    threads. *)
Record system := System { word : Z; fields : gmap nat Z; threads : list status }.

Inductive action :=
  | TryReadLock
  | ReadField (f : nat)
  | Check
  | TryReadUnlock
  | Rehydrate
  | Upgrade
  | WriteField (f : nat) (x : Z)
  | Unlock
  | UnlockAndObsolete
  | DestroyGuard.

(** One action of one thread, in its own state and that of the lock.  Readers
    leave their section when told to restart. *)
Definition act (a : action) (st : status) (w : Z) (d : gmap nat Z) : option (status * Z * gmap nat Z) :=
  match a, st with
  | TryReadLock, Outside =>
      match try_read_lock w with
      | Some rcs => Some (if must_restart rcs then Outside else Reading rcs [], w, d)
      | None => Some (Outside, w, d)
      end
  | ReadField f, Reading rcs seen => Some (Reading rcs ((f, d !! f) :: seen), w, d)
  | Check, Reading rcs seen => Some (if check w rcs then st else Outside, w, d)
  | TryReadUnlock, Reading rcs seen =>
      Some (if try_read_unlock w rcs then Released (version rcs) seen else Outside, w, d)
  | Rehydrate, Released tag seen => Some (Reading (rehydrate_read_lock tag) seen, w, d)
  | Upgrade, Reading rcs seen => let '(lock, w') := try_lock_upgrade w rcs in Some (Guarding lock, w', d)
  | ReadField f, Guarding true => Some (st, w, d)
  | WriteField f x, Guarding true => Some (st, w, <[f:=x]> d)
  | Unlock, Guarding true => let '(lock, w') := unlock w in Some (Guarding lock, w', d)
  | UnlockAndObsolete, Guarding true => let '(lock, w') := unlock_and_obsolete w in Some (Guarding lock, w', d)
  | DestroyGuard, Guarding lock => Some (Outside, write_guard_destroy lock w, d)
  | _, _ => None
  end.

Definition lock_step (e : nat * action) (s : system) : option system :=
  match threads s !! fst e with
  | None => None
  | Some st =>
      match act (snd e) st (word s) (fields s) with
      | None => None
      | Some (st', w', d') => Some (System w' d' (<[fst e:=st']> (threads s)))
      end
  end.

(** [n] threads and an unlocked lock over given fields. *)
Definition lock_initial (n : nat) (d : gmap nat Z) : system := System 0 d (replicate n Outside).

Definition writing (st : status) : bool := match st with Guarding lock => lock | _ => false end.

(** The fields still have the values a thread has seen. *)
Definition up_to_date (d : gmap nat Z) (seen : list (nat * option Z)) : Prop :=
  Forall (λ '(f, x), d !! f = x) seen.

(** ** The version of the word only grows *)

Lemma is_free_spec w : is_free w = true ↔ w mod 4 = 0.
Proof. unfold is_free. change 3 with (Z.ones 2). rewrite Z.eqb_eq, Z.land_ones by lia. done. Qed.

Lemma is_write_locked_spec w : is_write_locked w = Z.testbit w 1.
Proof.
  unfold is_write_locked. destruct (Z.testbit w 1) eqn:E; destruct (Z.eqb_spec (Z.land w 2) 0) as [H|H]; try done; exfalso.
  - apply (f_equal (λ x, Z.testbit x 1)) in H. rewrite Z.land_spec, E, Z.bits_0 in H. done.
  - apply H. apply Z.bits_inj'. intros i Hi. rewrite Z.land_spec, Z.bits_0. change 2 with (2 ^ 1).
    rewrite Z.pow2_bits_eqb by lia. destruct (Z.eqb_spec 1 i) as [<-|]; [by rewrite E|]. apply andb_false_r.
Qed.

(** What holds of a thread: its version is that of a free word not later than
    the present one, and if it is the present one, nothing it saw has changed. *)
Definition section_ok (s : system) (v : Z) (seen : list (nat * option Z)) : Prop :=
  v mod 4 = 0 ∧ 0 ≤ v ∧ (v ≤ word s ∨ word s = obsolete_lock_word) ∧ (word s = v → up_to_date (fields s) seen).

Definition status_ok (s : system) (st : status) : Prop :=
  match st with
  | Reading rcs seen => rcs_lock rcs = true ∧ section_ok s (version rcs) seen
  | Released tag seen => section_ok s tag seen
  | _ => True
  end.

(** The word after [n] steps: obsolete, free, or locked by its one writer. *)
Definition word_ok (n : Z) (s : system) : Prop :=
  0 ≤ word s ≤ 1 + 2 * n ∧
  ((word s = obsolete_lock_word ∧ count writing (threads s) = 0) ∨
   (word s mod 4 = 0 ∧ count writing (threads s) = 0) ∨
   (word s mod 4 = 2 ∧ count writing (threads s) = 1)).

Definition lock_inv (n : Z) (s : system) : Prop :=
  word_ok n s ∧ Forall (status_ok s) (threads s).

(** The ways a step changes the word and the fields. *)
Inductive lock_change (w : Z) (d : gmap nat Z) : bool → bool → Z → gmap nat Z → Prop :=
  | change_none b : lock_change w d b b w d
  | change_lock : w mod 4 = 0 → lock_change w d false true (w + 2) d
  | change_write d' : w mod 4 = 2 → lock_change w d true true w d'
  | change_unlock : w mod 4 = 2 → lock_change w d true false (w + 2) d
  | change_obsolete : w mod 4 = 2 → lock_change w d true false obsolete_lock_word d.

Lemma act_change n s a i st st' w' d' :
  lock_inv n s → n + 1 < 2 ^ 62 → threads s !! i = Some st →
  act a st (word s) (fields s) = Some (st', w', d') →
  lock_change (word s) (fields s) (writing st) (writing st') w' d' ∧ status_ok (System w' d' (threads s)) st'.
Proof.
  intros [[Hr Hw] Hall] Hn Hi Ha. pose proof (Forall_lookup_1 _ _ _ _ Hall Hi) as Hst.
  assert (Hwrap : wrap64 (word s + 2) = word s + 2) by (apply wrap_small; lia).
  assert (Hm : writing st = true → word s mod 4 = 2).
  { intros Hwr. pose proof (count_pos _ _ _ _ Hi Hwr). destruct Hw as [[]|[[]|[]]]; lia. }
  destruct a, st as [|rcs seen|tag seen|[]]; simpl in Ha; try done.
  - unfold try_read_lock in Ha. destruct (is_free (word s)) eqn:Hf; [|destruct (is_obsolete (word s))];
      simplify_eq; (split; [constructor|]); simpl; try done.
    apply is_free_spec in Hf. repeat split; try done; [lia|by left|]. intros _. constructor.
  - simplify_eq. split; [constructor|]. destruct Hst as (? & ? & ? & ? & Hu). repeat split; try done.
    intros Heq. constructor; [done|]. by apply Hu.
  - simplify_eq. split; [constructor|done].
  - destruct (check _ _); simplify_eq; (split; [constructor|]); [exact Hst|done].
  - destruct (try_read_unlock _ _); simplify_eq; (split; [constructor|]); [apply Hst|done].
  - simplify_eq. split; [constructor|]. split; [done|exact Hst].
  - unfold try_lock_upgrade, try_upgrade_to_write_lock, cas_acquire, set_locked_bit in Ha. simpl in Hst.
    destruct Hst as (Hl & Hv & _). destruct (Z.eqb_spec (word s) (version rcs)) as [Heq|]; simplify_eq.
    + rewrite <- Heq, Hwrap, Hl. simpl. split; [|done]. rewrite <- Heq in Hv. by constructor.
    + split; [constructor|done].
  - simplify_eq. split; [|done]. constructor. by apply Hm.
  - change (Some (Guarding false, write_unlock (word s), fields s) = Some (st', w', d')) in Ha.
    unfold write_unlock in Ha. rewrite Hwrap in Ha. simplify_eq. split; [|done]. constructor. by apply Hm.
  - simplify_eq. split; [|done]. constructor. by apply Hm.
  - change (Some (Outside, write_unlock (word s), fields s) = Some (st', w', d')) in Ha.
    unfold write_unlock in Ha. rewrite Hwrap in Ha. simplify_eq. split; [|done]. constructor. by apply Hm.
  - simplify_eq. split; [constructor|done].
Qed.

(** A section of another thread stays as good as it was. *)
Lemma section_change s b b' w' d' ts v seen :
  0 ≤ word s → lock_change (word s) (fields s) b b' w' d' → section_ok s v seen → section_ok (System w' d' ts) v seen.
Proof.
  intros Hr Hc (Hv & H0 & Hle & Hu). unfold section_ok, obsolete_lock_word in *. cbn [word fields].
  assert (Hlt : word s mod 4 ≠ 1 → v ≤ word s).
  { intros Hk. destruct Hle as [|E]; [done|]. rewrite E in Hk. by destruct Hk. }
  inversion Hc; subst; (split; [done|split; [done|]]); try (split; [by auto|done]).
  - split; [left; lia|]. intros <-. rewrite Zplus_mod, H in Hv. done.
  - split; [left; lia|]. intros <-. lia.
  - split; [left; lia|]. intros <-. lia.
  - split; [by right|]. intros <-. done.
Qed.

Lemma lock_step_inv n e s s' :
  0 ≤ n → n + 1 < 2 ^ 62 → lock_inv n s → lock_step e s = Some s' → lock_inv (n + 1) s'.
Proof.
  intros Hn Hb Hinv Hs. unfold lock_step in Hs. destruct e as [i a]; simpl in Hs.
  destruct (threads s !! i) as [st|] eqn:Hi; [|done].
  destruct (act a st (word s) (fields s)) as [[[st' w'] d']|] eqn:Ha; simplify_eq.
  pose proof (act_change _ _ _ _ _ _ _ _ Hinv Hb Hi Ha) as [Hc Hok].
  destruct Hinv as [[Hr Hw] Hall]. split.
  - unfold word_ok in *. cbn [word threads]. rewrite (count_insert _ _ _ _ _ Hi).
    unfold obsolete_lock_word in *. clear Hall Hok Ha Hi Hb.
    revert Hc. generalize (writing st) (writing st'). intros b b' Hc.
    inversion Hc; subst; unfold obsolete_lock_word in *; cbn [Z.b2z]; (split; [lia|]); Z.to_euclidean_division_equations; lia.
  - apply Forall_insert; [|by destruct st'].
    eapply Forall_impl; [exact Hall|]. intros [|rcs seen|tag seen|]; simpl; try done.
    + intros [? Hsec]. split; [done|]. eapply section_change; eauto; lia.
    + intros Hsec. eapply section_change; eauto; lia.
Qed.

Lemma lock_reachable_inv ev nt d s :
  run lock_step ev (lock_initial nt d) = Some s → Z.of_nat (length ev) < 2 ^ 62 →
  lock_inv (Z.of_nat (length ev)) s.
Proof.
  intros Hrun Hlen. apply (run_invariant lock_step (λ _ _, true) lock_inv (2 ^ 62) ev (lock_initial nt d)); auto using along_true.
  - intros n e s1 s2 Hn Hb _ Hinv Hs. by apply lock_step_inv with e s1.
  - split; [|].
    + split; [simpl; lia|]. right; left. split; [done|]. by apply count_replicate.
    + apply Forall_forall. intros st Hst%elem_of_replicate. by destruct Hst as [-> _].
Qed.

(** Once obsolete, the lock stays so, and nobody changes the fields. *)
Lemma lock_step_obsolete n e s s' :
  lock_inv n s → n + 1 < 2 ^ 62 → is_obsolete (word s) = true → lock_step e s = Some s' →
  word s' = word s ∧ fields s' = fields s.
Proof.
  intros Hinv Hb Ho Hs. unfold lock_step in Hs. destruct e as [i a]; simpl in Hs.
  destruct (threads s !! i) as [st|] eqn:Hi; [|done].
  destruct (act a st (word s) (fields s)) as [[[st' w'] d']|] eqn:Ha; simplify_eq.
  pose proof (act_change _ _ _ _ _ _ _ _ Hinv Hb Hi Ha) as [Hc _].
  apply Z.eqb_eq in Ho. rewrite Ho in *.
  inversion Hc; subst; [done|..]; match goal with H : obsolete_lock_word mod 4 = _ |- _ => discriminate H end.
Qed.

Lemma lock_run_obsolete n es s s' :
  0 ≤ n → lock_inv n s → n + Z.of_nat (length es) < 2 ^ 62 → is_obsolete (word s) = true →
  run lock_step es s = Some s' → word s' = word s ∧ fields s' = fields s.
Proof.
  revert n s. induction es as [|e es IH]; intros n s Hn Hinv Hb Ho Hrun; simpl in Hrun, Hb; [by simplify_eq|].
  destruct (lock_step e s) as [s1|] eqn:Hs; [|done].
  destruct (lock_step_obsolete n e s s1) as [Hw Hf]; [done|lia|done|done|].
  rewrite <- Hw, <- Hf. apply (IH (n + 1)); [lia| |lia|by rewrite Hw|done].
  apply lock_step_inv with e s; auto with lia.
Qed.
