(* ===== verification/LockTheorems.v ===== *)
(** What the optimistic lock promises its users: consistent reads, exclusive
    writers, and the finality of obsolescence. *)

From S2P Require Import Prelude Words Threads OptimisticLock.

(** A schedule of two threads: the first reads two fields, the second then
    takes the lock, changes one of them and unlocks. *)
Definition two_fields : gmap nat Z := {[ 0%nat := 10; 1%nat := 20 ]}.
Definition read_both : list (nat * action) :=
  [(0%nat, TryReadLock); (0%nat, ReadField 0); (1%nat, TryReadLock); (0%nat, ReadField 1)].
Definition change_one : list (nat * action) := [(1%nat, Upgrade); (1%nat, WriteField 1 21); (1%nat, Unlock)].
Definition after (es : list (nat * action)) : system := default (lock_initial 0 ∅) (run lock_step es (lock_initial 2 two_fields)).

(** C20: A read section whose version still checks has seen one consistent state:
    whatever the threads did in between, every value it read is the present
    value of its field, and no thread is writing.  The same holds when the
    section is released and when it is upgraded to a write guard.  (The
    versions do not come round again within 2^62 steps.) *)
Theorem optimistic_reads_are_consistent (nt : nat) (d : gmap nat Z) (es : list (nat * action)) (s : system)
    (i : nat) (rcs : read_critical_section) (seen : list (nat * option Z))
    (Hrun : run lock_step es (lock_initial nt d) = Some s) (Hlen : Z.of_nat (length es) < 2 ^ 62)
    (Hi : threads s !! i = Some (Reading rcs seen))
    (Hcheck : check (word s) rcs = true ∨ try_read_unlock (word s) rcs = true ∨ fst (try_lock_upgrade (word s) rcs) = true) :
  up_to_date (fields s) seen ∧ count writing (threads s) = 0.
Proof.
  destruct (lock_reachable_inv es nt d s Hrun Hlen) as [[_ Hw] Hall].
  pose proof (Forall_lookup_1 _ _ _ _ Hall Hi) as (_ & Hv & _ & _ & Hu).
  assert (Heq : word s = version rcs).
  { destruct Hcheck as [H%Z.eqb_eq|[H%Z.eqb_eq|H]]; [by rewrite H|by rewrite H|].
    unfold try_lock_upgrade, try_upgrade_to_write_lock, cas_acquire in H.
    destruct (Z.eqb_spec (word s) (version rcs)); [done|discriminate H]. }
  split; [by apply Hu|]. rewrite <- Heq in Hv.
  destruct Hw as [[E _]|[[_ ?]|[E _]]]; [rewrite E in Hv; discriminate Hv|done|congruence].
Qed.

Lemma optimistic_reads_are_consistent_witness :
  (check (word (after read_both)) (Rcs true 0) = true ∧ up_to_date (fields (after read_both)) [(1%nat, Some 20); (0%nat, Some 10)]) ∧
  check (word (after (read_both ++ change_one))) (Rcs true 0) = false.
Proof.
  split; [split; [reflexivity|]|reflexivity].
  exact (proj1 (optimistic_reads_are_consistent 2 two_fields read_both (after read_both) 0 (Rcs true 0)
    [(1%nat, Some 20); (0%nat, Some 10)] eq_refl eq_refl eq_refl (or_introl eq_refl))).
Defined.

(** C21: Writers exclude one another: there is at most one guard that holds the
    lock, exactly while the word is write-locked, and the fields change only
    by its writes. *)
Theorem writers_are_exclusive (nt : nat) (d : gmap nat Z) (es : list (nat * action)) (s s' : system) (e : nat * action)
    (Hrun : run lock_step es (lock_initial nt d) = Some s) (Hlen : Z.of_nat (length es) + 1 < 2 ^ 62)
    (Hs : lock_step e s = Some s') :
  count writing (threads s) = Z.b2z (is_write_locked (word s)) ∧
  (fields s' ≠ fields s → threads s !! fst e = Some (Guarding true)).
Proof.
  destruct (lock_reachable_inv es nt d s Hrun ltac:(lia)) as [[_ Hw] Hall]. split.
  - rewrite is_write_locked_spec, Z.testbit_spec' by lia. change (2 ^ 1) with 2.
    unfold obsolete_lock_word in Hw. Z.to_euclidean_division_equations. lia.
  - unfold lock_step in Hs. destruct e as [i a]; simpl in *.
    destruct (threads s !! i) as [st|] eqn:Hi; [|done].
    destruct (act a st (word s) (fields s)) as [[[st' w'] d']|] eqn:Ha; simplify_eq. simpl.
    destruct a, st as [| | |[]]; simpl in Ha; try done; repeat case_match; simplify_eq; done.
Qed.

Lemma writers_are_exclusive_witness :
  count writing (threads (after (read_both ++ [(1%nat, Upgrade)]))) = 1 ∧
  lock_step (1%nat, WriteField 1 21) (after (read_both ++ [(1%nat, Upgrade)])) = Some (after (read_both ++ [(1%nat, Upgrade); (1%nat, WriteField 1 21)])).
Proof.
  split; [|reflexivity].
  exact (proj1 (writers_are_exclusive 2 two_fields (read_both ++ [(1%nat, Upgrade)]) _ _ (1%nat, WriteField 1 21) eq_refl eq_refl eq_refl)).
Defined.

(** Obsolescence is final: when the lock has been obsoleted, whatever the
    threads do later, the word and the fields stay as they are, no read lock is
    granted, and no read section checks, unlocks or upgrades. *)
Theorem obsolete_is_final (nt : nat) (d : gmap nat Z) (es1 es2 : list (nat * action)) (s s' : system)
    (Hrun : run lock_step es1 (lock_initial nt d) = Some s) (Hobs : is_obsolete (word s) = true)
    (Hrun' : run lock_step es2 s = Some s') (Hlen : Z.of_nat (length es1) + Z.of_nat (length es2) < 2 ^ 62) :
  word s' = word s ∧ fields s' = fields s ∧
  (∃ rcs, try_read_lock (word s') = Some rcs ∧ must_restart rcs = true) ∧
  (∀ i rcs seen, threads s' !! i = Some (Reading rcs seen) →
    check (word s') rcs = false ∧ try_read_unlock (word s') rcs = false ∧ fst (try_lock_upgrade (word s') rcs) = false).
Proof.
  pose proof (lock_reachable_inv es1 nt d s Hrun ltac:(lia)) as Hinv.
  destruct (lock_run_obsolete (Z.of_nat (length es1)) es2 s s') as [Hw Hf]; [lia|done|lia|done|done|].
  assert (Hrun2 : run lock_step (es1 ++ es2) (lock_initial nt d) = Some s') by (by rewrite run_app, Hrun).
  destruct (lock_reachable_inv _ _ _ _ Hrun2) as [_ Hall]; [rewrite length_app; lia|].
  split; [done|]. split; [done|]. apply Z.eqb_eq in Hobs. rewrite Hw, Hobs. split; [by exists (Rcs false 0)|].
  intros i rcs seen Hi. pose proof (Forall_lookup_1 _ _ _ _ Hall Hi) as (_ & Hv & _).
  assert (Hne : version rcs ≠ obsolete_lock_word) by (intros E; rewrite E in Hv; discriminate Hv).
  unfold try_read_unlock, lock_try_read_unlock, check, lock_check, version_eqb, try_lock_upgrade, try_upgrade_to_write_lock, cas_acquire.
  rewrite (proj2 (Z.eqb_neq _ _) Hne), (proj2 (Z.eqb_neq _ _) (not_eq_sym Hne)). done.
Qed.

Lemma obsolete_is_final_witness :
  let gone := after (read_both ++ [(1%nat, Upgrade); (1%nat, UnlockAndObsolete)]) in
  is_obsolete (word gone) = true ∧ check (word gone) (Rcs true 0) = false.
Proof.
  split; [reflexivity|].
  refine (proj1 (proj2 (proj2 (proj2 (obsolete_is_final 2 two_fields (read_both ++ [(1%nat, Upgrade); (1%nat, UnlockAndObsolete)]) []
    _ _ eq_refl eq_refl eq_refl eq_refl))) 0%nat (Rcs true 0) [(1%nat, Some 20); (0%nat, Some 10)] _)).
  reflexivity.
Defined.
