(* ===== verification/QsbrState.v ===== *)
(** The state word of the quiescent-state-based reclamation: a two-bit epoch,
    the number of threads, and the number of threads that have not yet been
    quiescent in the epoch, packed in 64 bits. *)

From S2P Require Import Prelude Words.

(** ** The epoch *)

(** [src/qsbr.hpp:88-89] qsbr_epoch::max *)
Definition epoch_max : Z := 3.

(** [src/qsbr.hpp:146-147] qsbr_epoch::max_count *)
Definition max_count : Z := epoch_max + 1.

(** [src/qsbr.hpp:113-121] qsbr_epoch::advance *)
Definition advance (epoch_val by_ : Z) : Z := wrap8 (wrap32 (epoch_val + by_) mod max_count).

(** [src/qsbr.hpp:128-137] qsbr_epoch::operator== *)
Definition epoch_eqb (epoch_val other : Z) : bool := epoch_val =? other.

(** ** The fields of the word *)

(** [src/qsbr.hpp:177-181] max_qsbr_threads *)
Definition max_qsbr_threads : Z := wrap32 ((2 ≪ 29) - 1).

(** [src/qsbr.hpp:416-417] qsbr_state::thread_count_mask *)
Definition thread_count_mask : Z := max_qsbr_threads.

(** [src/qsbr.hpp:422-425] qsbr_state::threads_in_previous_epoch_in_word_mask *)
Definition threads_in_previous_epoch_in_word_mask : Z := thread_count_mask.

(** [src/qsbr.hpp:427-428] qsbr_state::thread_count_in_word_offset *)
Definition thread_count_in_word_offset : Z := 32.

(** [src/qsbr.hpp:430-434] qsbr_state::thread_count_in_word_mask *)
Definition thread_count_in_word_mask : Z := wrap64 (thread_count_mask ≪ thread_count_in_word_offset).

(** [src/qsbr.hpp:436-437] qsbr_state::epoch_in_word_offset *)
Definition epoch_in_word_offset : Z := 62.

(** [src/qsbr.hpp:439-442] qsbr_state::one_thread_in_count *)
Definition one_thread_in_count : Z := wrap64 (1 ≪ thread_count_in_word_offset).

(** [src/qsbr.hpp:444-448] qsbr_state::one_thread_and_one_in_previous *)
Definition one_thread_and_one_in_previous : Z := Z.lor one_thread_in_count 1.

(** [src/qsbr.hpp:203-208] qsbr_state::do_get_epoch *)
Definition do_get_epoch (word : Z) : Z := wrap8 (word ≫ epoch_in_word_offset).

(** [src/qsbr.hpp:210-217] qsbr_state::do_get_thread_count *)
Definition do_get_thread_count (word : Z) : Z :=
  wrap32 (Z.land word thread_count_in_word_mask ≫ thread_count_in_word_offset).

(** [src/qsbr.hpp:219-226] qsbr_state::do_get_threads_in_previous_epoch *)
Definition do_get_threads_in_previous_epoch (word : Z) : Z :=
  wrap32 (Z.land word threads_in_previous_epoch_in_word_mask).

(** [src/qsbr.hpp:229-234] qsbr_state::get_epoch *)
Definition get_epoch (word : Z) : Z := do_get_epoch word.

(** [src/qsbr.hpp:236-241] qsbr_state::get_thread_count *)
Definition get_thread_count (word : Z) : Z := do_get_thread_count word.

(** [src/qsbr.hpp:243-248] qsbr_state::get_threads_in_previous_epoch *)
Definition get_threads_in_previous_epoch (word : Z) : Z := do_get_threads_in_previous_epoch word.

(** [src/qsbr.hpp:250-254] qsbr_state::single_thread_mode *)
Definition single_thread_mode (word : Z) : bool := get_thread_count word <? 2.

(** ** Changing the word *)

(** [src/qsbr.hpp:263-270] qsbr_state::make_from_epoch *)
Definition make_from_epoch (epoch : Z) : Z := wrap64 (epoch ≪ epoch_in_word_offset).

(** [src/qsbr.hpp:272-286] qsbr_state::inc_thread_count *)
Definition inc_thread_count (word : Z) : Z := wrap64 (word + one_thread_in_count).

(** [src/qsbr.hpp:288-303] qsbr_state::dec_thread_count *)
Definition dec_thread_count (word : Z) : Z := wrap64 (word - one_thread_in_count).

(** [src/qsbr.hpp:305-319] qsbr_state::inc_thread_count_and_threads_in_previous_epoch *)
Definition inc_thread_count_and_threads_in_previous_epoch (word : Z) : Z :=
  wrap64 (word + one_thread_and_one_in_previous).

(** [src/qsbr.hpp:321-337] qsbr_state::dec_thread_count_and_threads_in_previous_epoch *)
Definition dec_thread_count_and_threads_in_previous_epoch (word : Z) : Z :=
  wrap64 (word - one_thread_and_one_in_previous).

(** [src/qsbr.hpp:339-361] qsbr_state::inc_epoch_reset_previous *)
Definition inc_epoch_reset_previous (word : Z) : Z :=
  let old_epoch := get_epoch word in
  let new_epoch_in_word := make_from_epoch (advance old_epoch 1) in
  let new_thread_count_in_word := Z.land word thread_count_in_word_mask in
  let new_threads_in_previous :=
    Z.land (word ≫ thread_count_in_word_offset) threads_in_previous_epoch_in_word_mask in
  Z.lor (Z.lor new_epoch_in_word new_thread_count_in_word) new_threads_in_previous.

(** [src/qsbr.hpp:363-387] qsbr_state::inc_epoch_dec_thread_count_reset_previous *)
Definition inc_epoch_dec_thread_count_reset_previous (word : Z) : Z :=
  let old_thread_count := get_thread_count word in
  let new_word_with_epoch := make_from_epoch (advance (get_epoch word) 1) in
  let new_thread_count := wrap32 (old_thread_count - 1) in
  let new_word_with_thread_count := wrap64 (new_thread_count ≪ thread_count_in_word_offset) in
  let new_threads_in_previous := new_thread_count in
  Z.lor (Z.lor new_word_with_epoch new_word_with_thread_count) new_threads_in_previous.

(** [src/qsbr.hpp:389-397] qsbr_state::dec_thread_count_threads_in_previous_epoch_maybe_advance *)
Definition dec_thread_count_threads_in_previous_epoch_maybe_advance (word : Z) (advance_epoch : bool) : Z :=
  if advance_epoch then inc_epoch_dec_thread_count_reset_previous word
  else dec_thread_count_and_threads_in_previous_epoch word.

(** [src/qsbr.cpp:98-107] qsbr_state::atomic_fetch_dec_threads_in_previous_epoch:
    the old and the new word. *)
Definition atomic_fetch_dec_threads_in_previous_epoch (word : Z) : Z * Z := (word, wrap64 (word - 1)).

(** ** The word as a triple of fields *)

Definition pack (e c p : Z) : Z := e * 2 ^ 62 + c * 2 ^ 32 + p.

(** Fields that fit: what [assert_invariants] and the bit allocation ask. *)
Definition fits (e c p : Z) : Prop := 0 ≤ e ≤ epoch_max ∧ 0 ≤ c ≤ max_qsbr_threads ∧ 0 ≤ p ≤ max_qsbr_threads.

Lemma max_qsbr_threads_eq : max_qsbr_threads = 1073741823.
Proof. reflexivity. Qed.

Lemma fits_bounds e c p : fits e c p → 0 ≤ e < 4 ∧ 0 ≤ c < 2 ^ 30 ∧ 0 ≤ p < 2 ^ 30.
Proof. unfold fits, epoch_max. rewrite max_qsbr_threads_eq. lia. Qed.

Lemma pack_range e c p : fits e c p → 0 ≤ pack e c p < 2 ^ 64.
Proof. intros H%fits_bounds. unfold pack. lia. Qed.

Lemma pack_shiftr_32 e c p : fits e c p → pack e c p ≫ 32 = e * 2 ^ 30 + c.
Proof.
  intros H%fits_bounds. rewrite Z.shiftr_div_pow2 by lia. unfold pack.
  replace (e * 2 ^ 62 + c * 2 ^ 32 + p) with (p + (e * 2 ^ 30 + c) * 2 ^ 32) by lia.
  rewrite Z.div_add, Z.div_small by lia. lia.
Qed.

Lemma land_mask x : Z.land x threads_in_previous_epoch_in_word_mask = x mod 2 ^ 30.
Proof. change threads_in_previous_epoch_in_word_mask with (Z.ones 30). by rewrite Z.land_ones. Qed.

Lemma low_mod_30 x c : 0 ≤ c < 2 ^ 30 → (x * 2 ^ 30 + c) mod 2 ^ 30 = c.
Proof. intros. rewrite Z.add_comm, Z.mod_add, Z.mod_small by lia. done. Qed.

Lemma get_epoch_pack e c p : fits e c p → get_epoch (pack e c p) = e.
Proof.
  intros H%fits_bounds. unfold get_epoch, do_get_epoch, epoch_in_word_offset. rewrite Z.shiftr_div_pow2 by lia. unfold pack.
  replace (e * 2 ^ 62 + c * 2 ^ 32 + p) with ((c * 2 ^ 32 + p) + e * 2 ^ 62) by lia.
  rewrite Z.div_add, Z.div_small, wrap_small by lia. lia.
Qed.

Lemma get_thread_count_pack e c p : fits e c p → get_thread_count (pack e c p) = c.
Proof.
  intros H. pose proof (fits_bounds _ _ _ H). unfold get_thread_count, do_get_thread_count, thread_count_in_word_offset.
  rewrite Z.shiftr_land, pack_shiftr_32 by done. change (thread_count_in_word_mask ≫ 32) with (Z.ones 30).
  rewrite Z.land_ones, low_mod_30, wrap_small by lia. done.
Qed.

Lemma get_threads_in_previous_epoch_pack e c p : fits e c p → get_threads_in_previous_epoch (pack e c p) = p.
Proof.
  intros H%fits_bounds. unfold get_threads_in_previous_epoch, do_get_threads_in_previous_epoch. rewrite land_mask. unfold pack.
  replace (e * 2 ^ 62 + c * 2 ^ 32 + p) with ((e * 2 ^ 32 + c * 2 ^ 2) * 2 ^ 30 + p) by lia.
  rewrite low_mod_30, wrap_small by lia. done.
Qed.

Lemma advance_range e : 0 ≤ e ≤ epoch_max → 0 ≤ advance e 1 ≤ epoch_max.
Proof.
  unfold epoch_max, advance, max_count, epoch_max. intros. pose proof (Z.mod_pos_bound (wrap32 (e + 1)) (3 + 1)).
  rewrite wrap_small; lia.
Qed.

Lemma advance_ne e : 0 ≤ e ≤ epoch_max → advance e 1 ≠ e.
Proof. unfold epoch_max. intros. assert (e = 0 ∨ e = 1 ∨ e = 2 ∨ e = 3) as [->|[->|[->| ->]]] by lia; discriminate. Qed.

Lemma advance_inj e e' : 0 ≤ e ≤ epoch_max → 0 ≤ e' ≤ epoch_max → advance e 1 = advance e' 1 → e = e'.
Proof.
  unfold epoch_max. intros. assert (e = 0 ∨ e = 1 ∨ e = 2 ∨ e = 3) as Hc by lia.
  assert (e' = 0 ∨ e' = 1 ∨ e' = 2 ∨ e' = 3) as Hc' by lia.
  destruct Hc as [->|[->|[->| ->]]], Hc' as [->|[->|[->| ->]]]; done.
Qed.

(** Changing the counts adds to or subtracts from the word, without a carry
    into another field. *)
Lemma inc_thread_count_pack e c p :
  fits e (c + 1) p → inc_thread_count (pack e c p) = pack e (c + 1) p.
Proof.
  intros H. change (inc_thread_count (pack e c p)) with (wrap64 (pack e c p + 2 ^ 32)).
  replace (pack e c p + 2 ^ 32) with (pack e (c + 1) p) by (unfold pack; lia). by apply wrap_small, pack_range.
Qed.

Lemma dec_thread_count_pack e c p :
  fits e (c - 1) p → dec_thread_count (pack e c p) = pack e (c - 1) p.
Proof.
  intros H. change (dec_thread_count (pack e c p)) with (wrap64 (pack e c p - 2 ^ 32)).
  replace (pack e c p - 2 ^ 32) with (pack e (c - 1) p) by (unfold pack; lia). by apply wrap_small, pack_range.
Qed.

Lemma inc_both_pack e c p :
  fits e (c + 1) (p + 1) → inc_thread_count_and_threads_in_previous_epoch (pack e c p) = pack e (c + 1) (p + 1).
Proof.
  intros H. change (inc_thread_count_and_threads_in_previous_epoch (pack e c p)) with (wrap64 (pack e c p + (2 ^ 32 + 1))).
  replace (pack e c p + (2 ^ 32 + 1)) with (pack e (c + 1) (p + 1)) by (unfold pack; lia). by apply wrap_small, pack_range.
Qed.

Lemma dec_both_pack e c p :
  fits e (c - 1) (p - 1) → dec_thread_count_and_threads_in_previous_epoch (pack e c p) = pack e (c - 1) (p - 1).
Proof.
  intros H. change (dec_thread_count_and_threads_in_previous_epoch (pack e c p)) with (wrap64 (pack e c p - (2 ^ 32 + 1))).
  replace (pack e c p - (2 ^ 32 + 1)) with (pack e (c - 1) (p - 1)) by (unfold pack; lia). by apply wrap_small, pack_range.
Qed.

Lemma fetch_dec_pack e c p :
  fits e c (p - 1) → atomic_fetch_dec_threads_in_previous_epoch (pack e c p) = (pack e c p, pack e c (p - 1)).
Proof.
  intros H. unfold atomic_fetch_dec_threads_in_previous_epoch. f_equal.
  replace (pack e c p - 1) with (pack e c (p - 1)) by (unfold pack; lia). by apply wrap_small, pack_range.
Qed.

(** Fields that do not overlap are combined by addition. *)
Lemma lor_add k a b : 0 ≤ k → 0 ≤ b < 2 ^ k → Z.lor (a * 2 ^ k) b = a * 2 ^ k + b.
Proof.
  intros Hk Hb. rewrite <- Z.lxor_lor, Z.add_nocarry_lxor; [done|..];
    (apply Z.bits_inj'; intros i Hi; rewrite Z.land_spec, Z.bits_0;
     destruct (Z.lt_ge_cases i k); [rewrite Z.mul_pow2_bits_low by lia; done|];
     rewrite <- (Z.mod_small b (2 ^ k)), Z.mod_pow2_bits_high by lia; apply andb_false_r).
Qed.

Lemma lor_fields e c p : fits e c p → Z.lor (Z.lor (make_from_epoch e) (c * 2 ^ 32)) p = pack e c p.
Proof.
  intros H%fits_bounds. unfold make_from_epoch, epoch_in_word_offset. rewrite Z.shiftl_mul_pow2 by lia.
  rewrite wrap_small by lia. rewrite (lor_add 62 e) by lia.
  replace (e * 2 ^ 62 + c * 2 ^ 32) with ((e * 2 ^ 30 + c) * 2 ^ 32) by lia. rewrite lor_add by lia. unfold pack. lia.
Qed.

Lemma inc_epoch_reset_previous_pack e c p :
  fits e c p → inc_epoch_reset_previous (pack e c p) = pack (advance e 1) c c.
Proof.
  intros H. pose proof (fits_bounds _ _ _ H) as Hb. unfold inc_epoch_reset_previous.
  rewrite get_epoch_pack, land_mask by done. unfold thread_count_in_word_offset. rewrite pack_shiftr_32, low_mod_30 by (done || lia).
  replace (Z.land (pack e c p) thread_count_in_word_mask) with (c * 2 ^ 32).
  - apply lor_fields. destruct H as (He & Hc & Hp). split; [by apply advance_range|done].
  - change thread_count_in_word_mask with (Z.ones 30 ≪ 32).
    rewrite <- (get_thread_count_pack e c p) by done. apply Z.bits_inj'. intros i Hi.
    rewrite Z.land_spec, Z.shiftl_spec by lia. destruct (Z.lt_ge_cases i 32) as [Hlt|Hge].
    + rewrite Z.mul_pow2_bits_low by lia. rewrite (Z.testbit_neg_r (Z.ones 30)) by lia. by rewrite andb_false_r.
    + rewrite Z.mul_pow2_bits by lia. rewrite get_thread_count_pack by done.
      rewrite <- (low_mod_30 e c) at 1 by lia. rewrite <- (pack_shiftr_32 e c p) by done. rewrite <- Z.land_ones by lia.
      rewrite Z.land_spec, Z.shiftr_spec by lia. by rewrite Z.sub_add.
Qed.

Lemma inc_epoch_dec_thread_count_reset_previous_pack e c p :
  fits e c p → 0 < c → inc_epoch_dec_thread_count_reset_previous (pack e c p) = pack (advance e 1) (c - 1) (c - 1).
Proof.
  intros H Hpos. pose proof (fits_bounds _ _ _ H) as Hb. unfold inc_epoch_dec_thread_count_reset_previous.
  rewrite get_epoch_pack, get_thread_count_pack by done. rewrite (wrap_small 32) by lia.
  unfold thread_count_in_word_offset. rewrite Z.shiftl_mul_pow2 by lia. rewrite wrap_small by lia.
  apply lor_fields. destruct H as (He & Hc & Hp). split; [by apply advance_range|lia].
Qed.
