(* ===== verification/Qsbr.v ===== *)
(** Quiescent-state-based reclamation: the per-thread structure, the global
    state, and every operation as a sequence of steps with one atomic access
    each, so that the steps of several threads interleave.  Release build
    without statistics; atomics are sequentially consistent; a weak
    compare-and-swap may fail spuriously; the allocation of list nodes and the
    growth of request vectors are taken not to fail. *)

From S2P Require Import Prelude Threads QsbrState.

(** ** Data *)

(** A deallocation request is the pointer to deallocate. *)
Abbreviation request := Z (only parsing).

(** [src/qsbr.hpp:620-628] dealloc_vector_list_node:
    its address and its requests; the nodes that follow it are those that
    follow in the list. *)
Record orphan_node := Node { node_address : nat; node_requests : list request }.

(** [src/qsbr.hpp:843-873] qsbr_per_thread (data members) *)
Record qsbr_per_thread := MkThread {
  previous_interval_orphan_list_node : option nat;
  current_interval_orphan_list_node : option nat;
  quiescent_states_since_epoch_change : Z;
  last_seen_quiescent_state_epoch : Z;
  last_seen_epoch : Z;
  previous_interval_dealloc_requests : list request;
  current_interval_dealloc_requests : list request;
  paused : bool }.

(** [src/qsbr.hpp:1185-1197] qsbr (data members) *)
Record qsbr := MkQsbr {
  state : Z;
  orphaned_previous_interval_dealloc_requests : list orphan_node;
  orphaned_current_interval_dealloc_requests : list orphan_node }.

(** Assignments to the members of the per-thread structure. *)
Definition set_nodes (prev cur : option nat) (th : qsbr_per_thread) : qsbr_per_thread :=
  MkThread prev cur (quiescent_states_since_epoch_change th) (last_seen_quiescent_state_epoch th) (last_seen_epoch th)
    (previous_interval_dealloc_requests th) (current_interval_dealloc_requests th) (paused th).
Definition set_quiescent (n e : Z) (th : qsbr_per_thread) : qsbr_per_thread :=
  MkThread (previous_interval_orphan_list_node th) (current_interval_orphan_list_node th) n e (last_seen_epoch th)
    (previous_interval_dealloc_requests th) (current_interval_dealloc_requests th) (paused th).
Definition set_requests (e : Z) (prev cur : list request) (th : qsbr_per_thread) : qsbr_per_thread :=
  MkThread (previous_interval_orphan_list_node th) (current_interval_orphan_list_node th)
    (quiescent_states_since_epoch_change th) (last_seen_quiescent_state_epoch th) e prev cur (paused th).
Definition set_paused (b : bool) (th : qsbr_per_thread) : qsbr_per_thread :=
  MkThread (previous_interval_orphan_list_node th) (current_interval_orphan_list_node th)
    (quiescent_states_since_epoch_change th) (last_seen_quiescent_state_epoch th) (last_seen_epoch th)
    (previous_interval_dealloc_requests th) (current_interval_dealloc_requests th) b.

Definition set_state (w : Z) (g : qsbr) : qsbr :=
  MkQsbr w (orphaned_previous_interval_dealloc_requests g) (orphaned_current_interval_dealloc_requests g).
Definition set_orphans (prev cur : list orphan_node) (g : qsbr) : qsbr := MkQsbr (state g) prev cur.

(** ** Where a thread is *)

Inductive interval := Previous | Current.

(** Inside [epoch_change_barrier_and_handle_orphans]: the next access to the
    orphan lists, with the lists taken so far. *)
Inductive handling :=
  | Take_previous
  | Take_current (orphaned_previous_requests : list orphan_node)
  | Move_current (orphaned_current_requests : list orphan_node)
  | Append_current (orphaned_current_requests : list orphan_node).

(** The next atomic access of a thread, with the local variables it needs. *)
Inductive pc :=
  | Running
  | Paused
  | Registering (old_state : Z)
  | Registering_wait (old_epoch : Z)
  | Leaving_previous (single_thread : bool) (current_global_epoch : Z)
  | Changing_handle (single_thread : bool) (current_global_epoch : Z) (old_single_thread_mode : bool) (h : handling)
  | Changing_load (single_thread : bool) (current_global_epoch : Z)
  | Changing (single_thread : bool) (current_global_epoch : Z) (old_state : Z)
  | Unregistering_handle (old_state : Z) (h : handling)
  | Unregistering (epoch_change_prepared : bool) (old_state : Z)
  | Orphaning_load (i : interval)
  | Orphaning (i : interval) (list_node : orphan_node) (next : option nat).

(** ** Local computation of the per-thread structure *)

(** [src/qsbr.hpp:1347-1385] qsbr_per_thread::execute_previous_requests:
    the requests of the previous interval are executed last, by the destructor
    of a local variable of the whole function. *)
Definition execute_previous_requests (single_thread : bool) (dealloc_epoch : Z) (new_current_requests : list request)
    (th : qsbr_per_thread) : qsbr_per_thread * list request :=
  let requests_to_deallocate := previous_interval_dealloc_requests th in
  let current := current_interval_dealloc_requests th in
  if negb single_thread then
    (set_requests dealloc_epoch current new_current_requests th, requests_to_deallocate)
  else
    (set_requests dealloc_epoch [] new_current_requests th, current ++ requests_to_deallocate).

(** [src/qsbr.hpp:1327-1345] qsbr_per_thread::advance_last_seen_epoch *)
Definition advance_last_seen_epoch (single_thread : bool) (new_seen_epoch : Z) (new_current_requests : list request)
    (th : qsbr_per_thread) : qsbr_per_thread * list request :=
  if epoch_eqb new_seen_epoch (last_seen_epoch th) then (th, [])
  else execute_previous_requests single_thread new_seen_epoch new_current_requests th.

(** [src/qsbr.hpp:1267-1325] qsbr_per_thread::on_next_epoch_deallocate *)
Definition on_next_epoch_deallocate (current_qsbr_state : Z) (pointer : request) (th : qsbr_per_thread)
    : qsbr_per_thread * list request :=
  let current_global_epoch := get_epoch current_qsbr_state in
  let single_thread := single_thread_mode current_qsbr_state in
  if single_thread then
    let '(th, freed) := advance_last_seen_epoch single_thread current_global_epoch [] th in
    (th, freed ++ [pointer])
  else if negb (epoch_eqb (last_seen_epoch th) current_global_epoch) then
    advance_last_seen_epoch single_thread current_global_epoch [pointer] th
  else
    (set_requests (last_seen_epoch th) (previous_interval_dealloc_requests th)
       (current_interval_dealloc_requests th ++ [pointer]) th, []).

(** [src/qsbr.hpp:1387-1441] qsbr_per_thread::quiescent,
    up to the removal from the previous epoch, if it comes to that. *)
Definition quiescent (current_state : Z) (th : qsbr_per_thread) : qsbr_per_thread * pc * list request :=
  let current_global_epoch := get_epoch current_state in
  let single_thread := single_thread_mode current_state in
  let '(th, freed) := advance_last_seen_epoch single_thread current_global_epoch [] th in
  let th := if negb (epoch_eqb current_global_epoch (last_seen_quiescent_state_epoch th))
            then set_quiescent 0 current_global_epoch th else th in
  if quiescent_states_since_epoch_change th =? 0 then (th, Leaving_previous single_thread current_global_epoch, freed)
  else (set_quiescent (Words.wrap64 (quiescent_states_since_epoch_change th + 1)) (last_seen_quiescent_state_epoch th) th,
        Running, freed).

(** The end of [quiescent], after the removal from the previous epoch. *)
Definition quiescent_end (single_thread : bool) (new_global_epoch : Z) (th : qsbr_per_thread)
    : qsbr_per_thread * pc * list request :=
  if negb (epoch_eqb new_global_epoch (last_seen_quiescent_state_epoch th)) then
    let th := set_quiescent (quiescent_states_since_epoch_change th) new_global_epoch th in
    let '(th, freed) := execute_previous_requests single_thread new_global_epoch [] th in
    (th, Running, freed)
  else
    (set_quiescent (Words.wrap64 (quiescent_states_since_epoch_change th + 1)) (last_seen_quiescent_state_epoch th) th,
     Running, []).

(** ** Orphaned requests *)

(** [src/qsbr.cpp:196-211] free_orphan_list *)
Definition free_orphan_list (l : list orphan_node) : list request := concat (node_requests <$> l).

Definition head_address (l : list orphan_node) : option nat := node_address <$> head l.

(** [src/qsbr.cpp:463-499] qsbr::epoch_change_barrier_and_handle_orphans:
    one access to the orphan lists, and where it goes on; [None] when it
    returns.  The walk to the end of the list changes nothing another thread
    writes, and no other thread removes nodes meanwhile. *)
Definition handle_orphans (single_thread : bool) (h : handling) (g : qsbr)
    : option (qsbr * option handling * list request) :=
  let prev := orphaned_previous_interval_dealloc_requests g in
  let cur := orphaned_current_interval_dealloc_requests g in
  match h with
  | Take_previous => Some (set_orphans [] cur g, Some (Take_current prev), [])
  | Take_current taken =>
      if negb single_thread then Some (set_orphans prev [] g, Some (Move_current cur), free_orphan_list taken)
      else Some (set_orphans prev [] g, None, free_orphan_list taken ++ free_orphan_list cur)
  | Move_current taken =>
      match prev with
      | [] => Some (set_orphans taken cur g, None, [])
      | _ :: _ => Some (g, Some (Append_current taken), [])
      end
  | Append_current taken =>
      match prev with
      | [] => None
      | _ :: _ => Some (set_orphans (prev ++ taken) cur g, None, [])
      end
  end.

(** [src/qsbr.hpp:1474-1490] qsbr_per_thread::qsbr_pause, when the
    thread is unregistered and both its lists are orphaned. *)
Definition orphan_end (th : qsbr_per_thread) : qsbr_per_thread * pc :=
  (set_paused true (set_nodes None None (set_requests (last_seen_epoch th) [] [] th)), Paused).

Definition orphan_current (th : qsbr_per_thread) : qsbr_per_thread * pc :=
  match current_interval_dealloc_requests th with
  | [] => orphan_end th
  | _ :: _ => (th, Orphaning_load Current)
  end.

(** [src/qsbr.cpp:215-232] qsbr_per_thread::orphan_pending_requests, up to the
    first list that is not empty. *)
Definition orphan_pending_requests (th : qsbr_per_thread) : qsbr_per_thread * pc :=
  match previous_interval_dealloc_requests th with
  | [] => orphan_current th
  | _ :: _ => (th, Orphaning_load Previous)
  end.

(** [src/qsbr.cpp:154-182] add_to_orphan_list, up to the load
    of the head: the node released, with the requests moved into it. *)
Definition add_to_orphan_list (i : interval) (g : qsbr) (th : qsbr_per_thread) : option (qsbr_per_thread * pc) :=
  match i with
  | Previous =>
      match previous_interval_orphan_list_node th with
      | None => None
      | Some a => Some (set_nodes None (current_interval_orphan_list_node th)
                          (set_requests (last_seen_epoch th) [] (current_interval_dealloc_requests th) th),
                        Orphaning Previous (Node a (previous_interval_dealloc_requests th))
                          (head_address (orphaned_previous_interval_dealloc_requests g)))
      end
  | Current =>
      match current_interval_orphan_list_node th with
      | None => None
      | Some a => Some (set_nodes (previous_interval_orphan_list_node th) None
                          (set_requests (last_seen_epoch th) (previous_interval_dealloc_requests th) [] th),
                        Orphaning Current (Node a (current_interval_dealloc_requests th))
                          (head_address (orphaned_current_interval_dealloc_requests g)))
      end
  end.

(** ** Registering and unregistering *)

(** [src/qsbr.cpp:235-282] qsbr::register_thread:
    the state a thread tries to install. *)
Definition register_new_state (old_state : Z) : Z :=
  if (0 <? get_threads_in_previous_epoch old_state) || (get_thread_count old_state =? 0)
  then inc_thread_count_and_threads_in_previous_epoch old_state
  else inc_thread_count old_state.

(** [src/qsbr.hpp:1262-1264] qsbr_per_thread::qsbr_per_thread,
    with the epoch [register_thread] returned and the nodes the member
    initialisers allocate. *)
Definition construct (prev_node cur_node : nat) : qsbr_per_thread :=
  MkThread (Some prev_node) (Some cur_node) 0 0 0 [] [] false.

Definition registered (epoch : Z) (th : qsbr_per_thread) : qsbr_per_thread :=
  set_paused false (set_quiescent 0 epoch
    (set_requests epoch (previous_interval_dealloc_requests th) (current_interval_dealloc_requests th) th)).

(** [src/qsbr.hpp:1492-1507] qsbr_per_thread::qsbr_resume, before it registers *)
Definition qsbr_resume (prev_node cur_node : nat) (th : qsbr_per_thread) : qsbr_per_thread :=
  set_nodes (Some prev_node) (Some cur_node) th.

Definition remove_thread_from_old_epoch (th : qsbr_per_thread) (old_state : Z) : bool :=
  negb (epoch_eqb (last_seen_quiescent_state_epoch th) (get_epoch old_state)) ||
  (quiescent_states_since_epoch_change th =? 0).

Definition advance_epoch (th : qsbr_per_thread) (old_state : Z) : bool :=
  remove_thread_from_old_epoch th old_state && (get_threads_in_previous_epoch old_state =? 1).

(** [src/qsbr.cpp:285-371] qsbr::unregister_thread: the
    part of a turn of the loop before the compare-and-swap. *)
Definition unregister_thread (epoch_change_prepared : bool) (old_state : Z) (th : qsbr_per_thread) : pc :=
  if get_threads_in_previous_epoch old_state =? 0 then Unregistering epoch_change_prepared old_state
  else if advance_epoch th old_state && negb epoch_change_prepared then Unregistering_handle old_state Take_previous
  else Unregistering epoch_change_prepared old_state.

(** The state an unregistering thread tries to install. *)
Definition unregister_new_state (old_state : Z) (th : qsbr_per_thread) : Z :=
  if get_threads_in_previous_epoch old_state =? 0 then dec_thread_count old_state
  else if remove_thread_from_old_epoch th old_state then
    dec_thread_count_threads_in_previous_epoch_maybe_advance old_state (advance_epoch th old_state)
  else dec_thread_count old_state.

(** What it does once the state is installed. *)
Definition unregister_end (old_state : Z) (th : qsbr_per_thread) : qsbr_per_thread * pc * list request :=
  if get_threads_in_previous_epoch old_state =? 0 then (orphan_pending_requests th, [])
  else
    let old_epoch := get_epoch old_state in
    let old_single_thread_mode := single_thread_mode old_state in
    let '(th1, freed1) := advance_last_seen_epoch old_single_thread_mode old_epoch [] th in
    let '(th2, freed2) :=
      if advance_epoch th old_state then execute_previous_requests old_single_thread_mode (advance old_epoch 1) [] th1
      else (th1, []) in
    (orphan_pending_requests th2, freed1 ++ freed2).

(** ** The steps *)

(** What a thread does next: call an operation when it is not inside one, or
    go on with its next atomic access, a weak compare-and-swap failing
    spuriously if so chosen. *)
Inductive event :=
  | Construct
  | Resume
  | Deallocate (pointer : request)
  | Quiescent
  | Pause
  | Destroy
  | Continue (spurious : bool).

Record outcome := Outcome { o_global : qsbr; o_thread : qsbr_per_thread; o_pc : pc; o_freed : list request }.

Definition goes_on (g : qsbr) (r : qsbr_per_thread * pc * list request) : outcome :=
  Outcome g (fst (fst r)) (snd (fst r)) (snd r).

(** The calls.  A call reads the state word, its first atomic access.  The
    destructor of the per-thread structure pauses it unless it is paused. *)
Definition call (g : qsbr) (next_node : nat) (th : qsbr_per_thread) (p : pc) (ev : event) : option outcome :=
  match ev, p with
  | Construct, Paused => Some (Outcome g (construct next_node (S next_node)) (Registering (state g)) [])
  | Resume, Paused => Some (Outcome g (qsbr_resume next_node (S next_node) th) (Registering (state g)) [])
  | Deallocate pointer, Running =>
      let '(th, freed) := on_next_epoch_deallocate (state g) pointer th in Some (Outcome g th Running freed)
  | Quiescent, Running => Some (goes_on g (quiescent (state g) th))
  | Pause, Running | Destroy, Running => Some (Outcome g th (unregister_thread false (state g) th) [])
  | Destroy, Paused => Some (Outcome g th Paused [])
  | _, _ => None
  end.

(** [src/qsbr.cpp:420-451] qsbr::remove_thread_from_previous_epoch *)
Definition remove_thread_from_previous_epoch (g : qsbr) (single_thread : bool) (current_global_epoch : Z)
    (th : qsbr_per_thread) : outcome :=
  let '(old_state, new_state) := atomic_fetch_dec_threads_in_previous_epoch (state g) in
  if 1 <? get_threads_in_previous_epoch old_state then
    goes_on (set_state new_state g) (quiescent_end single_thread current_global_epoch th)
  else
    Outcome (set_state new_state g) th
      (Changing_handle single_thread current_global_epoch (single_thread_mode old_state) Take_previous) [].

(** [src/qsbr.cpp:501-527] qsbr::change_epoch: a
    compare-and-swap of its loop. *)
Definition change_epoch (g : qsbr) (single_thread : bool) (current_global_epoch old_state : Z) (spurious : bool)
    (th : qsbr_per_thread) : outcome :=
  if negb spurious && (state g =? old_state) then
    goes_on (set_state (inc_epoch_reset_previous old_state) g)
      (quiescent_end single_thread (advance current_global_epoch 1) th)
  else Outcome g th (Changing single_thread current_global_epoch (state g)) [].

(** The next atomic access of an operation under way. *)
Definition continue (g : qsbr) (th : qsbr_per_thread) (p : pc) (spurious : bool) : option outcome :=
  match p with
  | Running | Paused => None
  | Registering old_state =>
      if negb spurious && (state g =? old_state) then
        if (0 <? get_threads_in_previous_epoch old_state) || (get_thread_count old_state =? 0)
        then Some (Outcome (set_state (register_new_state old_state) g) (registered (get_epoch old_state) th) Running [])
        else Some (Outcome (set_state (register_new_state old_state) g) th (Registering_wait (get_epoch old_state)) [])
      else Some (Outcome g th (Registering (state g)) [])
  | Registering_wait old_epoch =>
      let new_epoch := get_epoch (state g) in
      if negb (epoch_eqb new_epoch old_epoch) then Some (Outcome g (registered new_epoch th) Running [])
      else Some (Outcome g th (Registering_wait old_epoch) [])
  | Leaving_previous single_thread current_global_epoch =>
      Some (remove_thread_from_previous_epoch g single_thread current_global_epoch th)
  | Changing_handle single_thread current_global_epoch old_single h =>
      match handle_orphans old_single h g with
      | Some (g', Some h', freed) =>
          Some (Outcome g' th (Changing_handle single_thread current_global_epoch old_single h') freed)
      | Some (g', None, freed) => Some (Outcome g' th (Changing_load single_thread current_global_epoch) freed)
      | None => None
      end
  | Changing_load single_thread current_global_epoch =>
      Some (Outcome g th (Changing single_thread current_global_epoch (state g)) [])
  | Changing single_thread current_global_epoch old_state =>
      Some (change_epoch g single_thread current_global_epoch old_state spurious th)
  | Unregistering_handle old_state h =>
      match handle_orphans (single_thread_mode old_state) h g with
      | Some (g', Some h', freed) => Some (Outcome g' th (Unregistering_handle old_state h') freed)
      | Some (g', None, freed) => Some (Outcome g' th (Unregistering true old_state) freed)
      | None => None
      end
  | Unregistering prepared old_state =>
      if negb spurious && (state g =? old_state) then
        Some (goes_on (set_state (unregister_new_state old_state th) g) (unregister_end old_state th))
      else Some (Outcome g th (unregister_thread prepared (state g) th) [])
  | Orphaning_load i =>
      match add_to_orphan_list i g th with Some (th', p') => Some (Outcome g th' p' []) | None => None end
  | Orphaning Previous node next =>
      let prev := orphaned_previous_interval_dealloc_requests g in
      if negb spurious && bool_decide (head_address prev = next) then
        let '(th', p') := orphan_current th in
        Some (Outcome (set_orphans (node :: prev) (orphaned_current_interval_dealloc_requests g) g) th' p' [])
      else Some (Outcome g th (Orphaning Previous node (head_address prev)) [])
  | Orphaning Current node next =>
      let cur := orphaned_current_interval_dealloc_requests g in
      if negb spurious && bool_decide (head_address cur = next) then
        let '(th', p') := orphan_end th in
        Some (Outcome (set_orphans (orphaned_previous_interval_dealloc_requests g) (node :: cur) g) th' p' [])
      else Some (Outcome g th (Orphaning Current node (head_address cur)) [])
  end.

Definition thread_step (g : qsbr) (next_node : nat) (th : qsbr_per_thread) (p : pc) (ev : event) : option outcome :=
  match ev with Continue spurious => continue g th p spurious | _ => call g next_node th p ev end.

(** ** The threads together *)

(** The system keeps, besides the state of the code, a record of what happened:
    the requests made, for each the threads that may still hold the pointer,
    and the deallocations executed with the holders at that moment.  A thread
    outside the operations may hold any pointer that was not yet requested for
    deallocation; it gives up all of them when it calls [quiescent] or pauses. *)
Record system := System {
  global : qsbr;
  threads : list (qsbr_per_thread * pc);
  next_node : nat;
  requested : list request;
  holders : gmap Z (gset nat);
  freed : list (request * gset nat) }.

Definition is_running (x : qsbr_per_thread * pc) : bool := match snd x with Running => true | _ => false end.

Definition running_threads (l : list (qsbr_per_thread * pc)) : gset nat :=
  list_to_set (filter (λ u, is_running <$> l !! u = Some true) (seq 0 (length l))).

Definition hold (hs : gmap Z (gset nat)) (p : request) : gset nat := default ∅ (hs !! p).

Definition note_event (t : nat) (ev : event) (s : system) : gmap Z (gset nat) :=
  match ev with
  | Deallocate p => <[p := running_threads (threads s) ∖ {[t]}]> (holders s)
  | Quiescent | Pause | Destroy => (λ h : gset nat, h ∖ {[t]}) <$> holders s
  | _ => holders s
  end.

Definition qsbr_step (e : nat * event) (s : system) : option system :=
  let '(t, ev) := e in
  match threads s !! t with
  | None => None
  | Some (th, p) =>
      match thread_step (global s) (next_node s) th p ev with
      | None => None
      | Some o =>
          let holders' := note_event t ev s in
          Some (System (o_global o) (<[t := (o_thread o, o_pc o)]> (threads s))
            (match ev with Construct | Resume => S (S (next_node s)) | _ => next_node s end)
            (match ev with Deallocate p => requested s ++ [p] | _ => requested s end)
            holders' (freed s ++ ((λ p, (p, hold holders' p)) <$> o_freed o)))
      end
  end.

(** A structure not yet constructed, and the system before any thread. *)
Definition no_thread : qsbr_per_thread := MkThread None None 0 0 0 [] [] true.
Definition qsbr_initial (n : nat) : system := System (MkQsbr 0 [] []) (replicate n (no_thread, Paused)) 0 [] ∅ [].

(** The requests that wait somewhere: in a thread, on its way to the orphan
    lists, in the lists, or taken from them. *)
Definition handling_requests (h : handling) : list request :=
  match h with
  | Take_previous => []
  | Take_current l | Move_current l | Append_current l => free_orphan_list l
  end.

Definition pc_requests (p : pc) : list request :=
  match p with
  | Changing_handle _ _ _ h | Unregistering_handle _ h => handling_requests h
  | Orphaning _ node _ => node_requests node
  | _ => []
  end.

Definition thread_requests (x : qsbr_per_thread * pc) : list request :=
  previous_interval_dealloc_requests (fst x) ++ current_interval_dealloc_requests (fst x) ++ pc_requests (snd x).

Definition pending (s : system) : list request :=
  free_orphan_list (orphaned_previous_interval_dealloc_requests (global s)) ++
  free_orphan_list (orphaned_current_interval_dealloc_requests (global s)) ++
  concat (thread_requests <$> threads s).

(** What the callers must see to: no pointer is requested for deallocation
    twice (a pointer stands for one allocation). *)
Definition requested_once (e : nat * event) (s : system) : bool :=
  match snd e with Deallocate p => negb (bool_decide (p ∈ requested s)) | _ => true end.

(** A thread that is about to end the epoch while it unregisters. *)
Definition ends_epoch (x : qsbr_per_thread * pc) : bool :=
  match snd x with Unregistering_handle _ _ | Unregistering true _ => true | _ => false end.

(** No thread registers while another one is about to end the epoch by
    unregistering. *)
Definition undisturbed (e : nat * event) (s : system) : bool :=
  match snd e, threads s !! fst e with
  | Continue _, Some (_, Registering _) => count ends_epoch (threads s) =? 0
  | _, _ => true
  end.
