(* ===== verification/QsbrRequests.v ===== *)
(** No deallocation request is lost or executed twice: what was requested is,
    up to order, what was freed and what is pending. *)

From S2P Require Import Prelude Threads QsbrState Qsbr.

(** Permutations of concatenations, by counting. *)
Lemma perm_count (l k : list Z) : (∀ x, count_occ Z.eq_dec l x = count_occ Z.eq_dec k x) → l ≡ₚ k.
Proof. apply (Permutation_count_occ Z.eq_dec). Qed.

Lemma count_occ_split (y : Z) (l : list Z) x :
  count_occ Z.eq_dec (y :: l) x = (count_occ Z.eq_dec [y] x + count_occ Z.eq_dec l x)%nat.
Proof. apply (count_occ_app Z.eq_dec [y] l). Qed.

Ltac perm :=
  let z := fresh "z" in apply perm_count; intros z;
  repeat match goal with H : _ ≡ₚ _ |- _ => apply (Permutation_count_occ Z.eq_dec) with (x := z) in H end;
  repeat match goal with |- context [count_occ _ (?y :: ?l) _] =>
    lazymatch l with [] => fail | _ => rewrite (count_occ_split y l) end end;
  rewrite ?count_occ_app, ?count_occ_nil in *; lia.

Lemma free_orphan_list_cons a l : free_orphan_list (a :: l) = node_requests a ++ free_orphan_list l.
Proof. done. Qed.

Lemma free_orphan_list_app l k : free_orphan_list (l ++ k) = free_orphan_list l ++ free_orphan_list k.
Proof. unfold free_orphan_list. by rewrite fmap_app, concat_app. Qed.

(** The lists a thread has emptied when it is at a given point. *)
Definition emptied (x : qsbr_per_thread * pc) : Prop :=
  match snd x with
  | Paused | Orphaning Current _ _ =>
      previous_interval_dealloc_requests (fst x) = [] ∧ current_interval_dealloc_requests (fst x) = []
  | Registering _ | Registering_wait _ =>
      previous_interval_dealloc_requests (fst x) = [] ∧ current_interval_dealloc_requests (fst x) = []
  | Orphaning_load Current | Orphaning Previous _ _ => previous_interval_dealloc_requests (fst x) = []
  | _ => True
  end.

Definition global_requests (g : qsbr) : list request :=
  free_orphan_list (orphaned_previous_interval_dealloc_requests g) ++
  free_orphan_list (orphaned_current_interval_dealloc_requests g).

Definition made (ev : event) : list request := match ev with Deallocate p => [p] | _ => [] end.

(** ** The local computations *)

Lemma execute_requests single e new th th' f :
  execute_previous_requests single e new th = (th', f) →
  f ++ previous_interval_dealloc_requests th' ++ current_interval_dealloc_requests th' ≡ₚ
  previous_interval_dealloc_requests th ++ current_interval_dealloc_requests th ++ new.
Proof. unfold execute_previous_requests. destruct single; intros H; cbn [negb] in H; simplify_eq; simpl; perm. Qed.

Lemma advance_requests single e new th th' f :
  advance_last_seen_epoch single e new th = (th', f) → (last_seen_epoch th = e → new = []) →
  f ++ previous_interval_dealloc_requests th' ++ current_interval_dealloc_requests th' ≡ₚ
  previous_interval_dealloc_requests th ++ current_interval_dealloc_requests th ++ new.
Proof.
  unfold advance_last_seen_epoch, epoch_eqb. intros H Hnew.
  destruct (Z.eqb_spec e (last_seen_epoch th)) as [->|]; [|by eapply execute_requests].
  simplify_eq. rewrite Hnew by done. by rewrite app_nil_r.
Qed.

Lemma quiescent_requests w th th' p f :
  quiescent w th = (th', p, f) → pc_requests p = [] ∧ emptied (th', p) ∧
  f ++ previous_interval_dealloc_requests th' ++ current_interval_dealloc_requests th' ≡ₚ
  previous_interval_dealloc_requests th ++ current_interval_dealloc_requests th.
Proof.
  unfold quiescent. destruct (advance_last_seen_epoch _ _ _ _) as [th1 f1] eqn:Ha. intros H.
  pose proof (advance_requests _ _ _ _ _ _ Ha (λ _, eq_refl)) as Hp. rewrite app_nil_r in Hp.
  destruct (negb _); destruct (_ =? 0); simplify_eq; done.
Qed.

Lemma quiescent_end_requests single e th th' p f :
  quiescent_end single e th = (th', p, f) → pc_requests p = [] ∧ emptied (th', p) ∧
  f ++ previous_interval_dealloc_requests th' ++ current_interval_dealloc_requests th' ≡ₚ
  previous_interval_dealloc_requests th ++ current_interval_dealloc_requests th.
Proof.
  unfold quiescent_end. destruct (negb _).
  - destruct (execute_previous_requests _ _ _ _) as [th1 f1] eqn:Ha. intros H. simplify_eq.
    pose proof (execute_requests _ _ _ _ _ _ Ha) as Hp. rewrite app_nil_r in Hp. done.
  - intros H. simplify_eq. done.
Qed.

Lemma orphan_requests th :
  thread_requests (orphan_pending_requests th) = thread_requests (th, Running) ∧ emptied (orphan_pending_requests th) ∧
  (previous_interval_dealloc_requests th = [] →
   thread_requests (orphan_current th) = thread_requests (th, Running) ∧ emptied (orphan_current th)).
Proof.
  unfold orphan_pending_requests, orphan_current, thread_requests.
  destruct (previous_interval_dealloc_requests th) eqn:H1, (current_interval_dealloc_requests th) eqn:H2;
    simpl; rewrite ?H1, ?H2; done.
Qed.

Lemma unregister_end_requests w th th' p f :
  unregister_end w th = (th', p, f) → emptied (th', p) ∧ f ++ thread_requests (th', p) ≡ₚ thread_requests (th, Running).
Proof.
  unfold unregister_end. destruct (_ =? 0).
  - intros H. injection H as H <-. rewrite <- H. destruct (orphan_requests th) as (-> & ? & _). done.
  - destruct (advance_last_seen_epoch _ _ _ _) as [th1 f1] eqn:Ha.
    pose proof (advance_requests _ _ _ _ _ _ Ha (λ _, eq_refl)) as Hp1.
    destruct (if advance_epoch th w then _ else _) as [th2 f2] eqn:He. intros H. injection H as H <-.
    rewrite <- H. destruct (orphan_requests th2) as (-> & ? & _). split; [done|].
    assert (Hp2 : f2 ++ previous_interval_dealloc_requests th2 ++ current_interval_dealloc_requests th2 ≡ₚ
              previous_interval_dealloc_requests th1 ++ current_interval_dealloc_requests th1).
    { destruct (advance_epoch th w); [|by simplify_eq]. pose proof (execute_requests _ _ _ _ _ _ He) as Hp. by rewrite app_nil_r in Hp. }
    unfold thread_requests. cbn [fst snd pc_requests]. perm.
Qed.

Lemma handle_requests single h g g' h' f :
  handle_orphans single h g = Some (g', h', f) →
  f ++ global_requests g' ++ match h' with Some h' => handling_requests h' | None => [] end ≡ₚ
  global_requests g ++ handling_requests h.
Proof.
  unfold handle_orphans, global_requests. destruct h as [|l|l|l]; simpl.
  - intros; simplify_eq; simpl. change (free_orphan_list []) with (@nil Z). perm.
  - destruct single; intros H; cbn [negb] in H; simplify_eq; simpl; change (free_orphan_list []) with (@nil Z); perm.
  - destruct (orphaned_previous_interval_dealloc_requests g) eqn:E; intros; simplify_eq; simpl;
      rewrite ?E; change (free_orphan_list []) with (@nil Z); perm.
  - destruct (orphaned_previous_interval_dealloc_requests g) eqn:E; intros; simplify_eq; simpl.
    change (o :: l0 ++ l) with ((o :: l0) ++ l). rewrite free_orphan_list_app. perm.
Qed.

(** ** The steps *)

Lemma call_requests g nn th p ev o :
  emptied (th, p) → call g nn th p ev = Some o →
  emptied (o_thread o, o_pc o) ∧
  made ev ++ global_requests g ++ thread_requests (th, p) ≡ₚ
  o_freed o ++ global_requests (o_global o) ++ thread_requests (o_thread o, o_pc o).
Proof.
  unfold call, thread_requests. intros Hem H.
  destruct ev, p; lazy beta iota in H; try discriminate H.
  - simplify_eq. destruct Hem as [E1 E2]. simpl in *. rewrite E1, E2. split; [done|]. simpl. perm.
  - simplify_eq. destruct Hem as [E1 E2]. simpl in *. rewrite E1, E2. split; [done|]. simpl. perm.
  - destruct (on_next_epoch_deallocate _ _ _) as [th' f] eqn:E. simplify_eq. split; [done|]. simpl.
    unfold on_next_epoch_deallocate, epoch_eqb in E. destruct (single_thread_mode _).
    + destruct (advance_last_seen_epoch _ _ _ _) as [th1 f1] eqn:Ha. simplify_eq.
      pose proof (advance_requests _ _ _ _ _ _ Ha (λ _, eq_refl)) as Hp. perm.
    + destruct (Z.eqb_spec (last_seen_epoch th) (get_epoch (state g))) as [|Hne]; simpl in E; simplify_eq.
      * simpl. perm.
      * pose proof (advance_requests _ _ _ _ _ _ E (λ e, False_ind _ (Hne e))) as Hp. perm.
  - destruct (quiescent (state g) th) as [[th' p'] f] eqn:E. simplify_eq.
    destruct (quiescent_requests _ _ _ _ _ E) as (Hq & He & Hp). split; [done|].
    unfold goes_on. cbn [o_thread o_pc o_freed o_global fst snd made pc_requests app]. rewrite Hq. perm.
  - simplify_eq. cbn [o_thread o_pc o_freed o_global fst snd made pc_requests app].
    unfold unregister_thread. destruct (_ =? 0); [done|]. destruct (_ && _); done.
  - simplify_eq. cbn [o_thread o_pc o_freed o_global fst snd made pc_requests app].
    unfold unregister_thread. destruct (_ =? 0); [done|]. destruct (_ && _); done.
  - simplify_eq. split; [exact Hem|]. simpl. perm.
Qed.

Lemma continue_requests g th p sp o :
  emptied (th, p) → continue g th p sp = Some o →
  emptied (o_thread o, o_pc o) ∧
  global_requests g ++ thread_requests (th, p) ≡ₚ
  o_freed o ++ global_requests (o_global o) ++ thread_requests (o_thread o, o_pc o).
Proof.
  intros Hem H. destruct p as [| |w|e|stm e|stm e os h|stm e|stm e w|w h|prep w|i|i node next]; unfold continue in H.
  - done.
  - done.
  - destruct (_ && _); [destruct (_ || _)|]; injection H as <-; done.
  - destruct (negb _); injection H as <-; done.
  - injection H as <-. unfold remove_thread_from_previous_epoch, atomic_fetch_dec_threads_in_previous_epoch.
    destruct (1 <? _); [|done]. destruct (quiescent_end _ _ _) as [[th' p'] f] eqn:E.
    destruct (quiescent_end_requests _ _ _ _ _ _ E) as (Hq & He & Hp). split; [done|].
    unfold thread_requests, goes_on. cbn [o_thread o_pc o_freed o_global fst snd pc_requests]. rewrite Hq.
    change (global_requests (set_state _ g)) with (global_requests g). perm.
  - destruct (handle_orphans os h g) as [[[g' [h'|]] f]|] eqn:E; simplify_eq; (split; [done|]);
      pose proof (handle_requests _ _ _ _ _ _ E) as Hp; unfold thread_requests;
      cbn [o_thread o_pc o_freed o_global fst snd pc_requests]; perm.
  - simplify_eq. done.
  - injection H as <-. unfold change_epoch. destruct (_ && _); [|done].
    destruct (quiescent_end _ _ _) as [[th' p'] f] eqn:E.
    destruct (quiescent_end_requests _ _ _ _ _ _ E) as (Hq & He & Hp). split; [done|].
    unfold thread_requests, goes_on. cbn [o_thread o_pc o_freed o_global fst snd pc_requests]. rewrite Hq.
    change (global_requests (set_state _ g)) with (global_requests g). perm.
  - destruct (handle_orphans _ h g) as [[[g' [h'|]] f]|] eqn:E; simplify_eq; (split; [done|]);
      pose proof (handle_requests _ _ _ _ _ _ E) as Hp; unfold thread_requests;
      cbn [o_thread o_pc o_freed o_global fst snd pc_requests]; perm.
  - destruct (_ && _).
    + injection H as <-. destruct (unregister_end w th) as [[th' p'] f] eqn:E.
      destruct (unregister_end_requests _ _ _ _ _ E) as (He & Hp). split; [done|].
      unfold goes_on. cbn [o_thread o_pc o_freed o_global fst snd].
      change (global_requests (set_state _ g)) with (global_requests g).
      change (thread_requests (th, Unregistering prep w)) with (thread_requests (th, Running)). perm.
    + simplify_eq. cbn [o_thread o_pc o_freed o_global]. unfold unregister_thread. destruct (_ =? 0); [done|]. destruct (_ && _); done.
  - destruct i; unfold add_to_orphan_list in H.
    + destruct (previous_interval_orphan_list_node th); [|done]. simplify_eq. split; [done|]. unfold thread_requests. simpl. perm.
    + destruct (current_interval_orphan_list_node th); [|done]. simplify_eq. split; [done|].
      unfold thread_requests. simpl. rewrite app_nil_r. done.
  - destruct i; destruct (_ && _); unfold orphan_current, orphan_end in H; unfold emptied in Hem; cbn [fst snd] in Hem.
    + destruct (current_interval_dealloc_requests th) eqn:E; simplify_eq; unfold thread_requests, global_requests;
        cbn [o_thread o_pc o_freed o_global fst snd pc_requests]; simpl; rewrite ?Hem, ?E; (split; [done|]);
        rewrite free_orphan_list_cons; perm.
    + simplify_eq. done.
    + destruct Hem as [E1 E2]. simplify_eq. unfold thread_requests, global_requests.
      cbn [o_thread o_pc o_freed o_global fst snd pc_requests]; simpl. rewrite E1, E2. split; [done|].
      rewrite free_orphan_list_cons. perm.
    + simplify_eq. done.
Qed.

Lemma concat_insert (l : list (qsbr_per_thread * pc)) t x y :
  l !! t = Some x →
  thread_requests y ++ concat (thread_requests <$> l) ≡ₚ thread_requests x ++ concat (thread_requests <$> <[t:=y]> l).
Proof.
  revert t. induction l as [|z l IH]; intros [|t] H; simpl in H; simplify_eq.
  - simpl. perm.
  - change (<[S t:=y]> (z :: l)) with (z :: <[t:=y]> l). cbn [fmap list_fmap concat].
    pose proof (IH t H) as Hp. fold (@fmap list list_fmap) in *. perm.
Qed.

(** Requests are conserved, and threads that are between operations while not
    registered hold none. *)
Definition conserved (s : system) : Prop :=
  requested s ≡ₚ (fst <$> freed s) ++ pending s ∧ Forall emptied (threads s).

Lemma qsbr_step_conserved e s s' : conserved s → qsbr_step e s = Some s' → conserved s'.
Proof.
  intros [Hreq Hem] H. unfold qsbr_step in H. destruct e as [t ev].
  destruct (threads s !! t) as [[th p]|] eqn:Ht; [|done].
  destruct (thread_step (global s) (next_node s) th p ev) as [o|] eqn:Ho; [|done]. injection H as <-.
  pose proof (Forall_lookup_1 _ _ _ _ Hem Ht) as He.
  assert (emptied (o_thread o, o_pc o) ∧
    made ev ++ global_requests (global s) ++ thread_requests (th, p) ≡ₚ
    o_freed o ++ global_requests (o_global o) ++ thread_requests (o_thread o, o_pc o)) as [He' Hp].
  { destruct ev; cbn [thread_step] in Ho; try by eapply call_requests. by eapply continue_requests. }
  split; [|by apply Forall_insert]. unfold pending in *. cbn [requested freed threads global] in *.
  pose proof (concat_insert _ _ _ (o_thread o, o_pc o) Ht) as Hc. unfold global_requests in Hp.
  rewrite fmap_app, <- list_fmap_compose. rewrite (list_fmap_ext _ id (o_freed o)) by done. rewrite list_fmap_id.
  replace (match ev with Deallocate p0 => requested s ++ [p0] | _ => requested s end) with (requested s ++ made ev)
    by (destruct ev; simpl; by rewrite ?app_nil_r).
  perm.
Qed.

Lemma qsbr_conserved es n s : run qsbr_step es (qsbr_initial n) = Some s → conserved s.
Proof.
  intros H. cut (conserved (qsbr_initial n)).
  - revert H. generalize (qsbr_initial n). induction es as [|e es IH]; intros s0 H Hc; simpl in H; [by simplify_eq|].
    destruct (qsbr_step e s0) as [s1|] eqn:Hs; [|done]. by apply (IH s1 H), (qsbr_step_conserved e s0).
  - split; [|by apply Forall_replicate]. unfold pending, qsbr_initial. cbn [threads global requested freed].
    rewrite fmap_replicate. change (thread_requests (no_thread, Paused)) with (@nil Z).
    assert (concat (replicate n (@nil Z)) = []) as ->; [clear H; by induction n|done].
Qed.
