(* ===== verification/QsbrInv.v ===== *)
(** The invariant of the reclamation.  Every pending request is graded by how
    many epoch changes it must still wait for: grade 0 when nobody holds the
    pointer any more, grade 1 when all its holders have yet to be quiescent in
    this epoch, grade 2 otherwise.  An epoch change lowers every grade. *)

From S2P Require Import Prelude Threads QsbrState Qsbr.

(** ** The threads counted in the state word *)

Definition counted (x : qsbr_per_thread * pc) : bool :=
  match snd x with
  | Paused | Registering _ | Orphaning_load _ | Orphaning _ _ _ => false
  | _ => true
  end.

Definition unquiescent (E : Z) (th : qsbr_per_thread) : bool :=
  negb (last_seen_quiescent_state_epoch th =? E) || (quiescent_states_since_epoch_change th =? 0).

Definition in_previous (E : Z) (x : qsbr_per_thread * pc) : bool :=
  match snd x with
  | Running | Leaving_previous _ _ | Unregistering_handle _ _ | Unregistering _ _ => unquiescent E (fst x)
  | Registering_wait old_epoch => negb (old_epoch =? E)
  | _ => false
  end.

(** The thread that is about to change the epoch, and whether it has already
    moved the current orphans to the previous interval. *)
Definition changer (x : qsbr_per_thread * pc) : bool :=
  match snd x with
  | Changing_handle _ _ _ _ | Changing_load _ _ | Changing _ _ _ | Unregistering_handle _ _ | Unregistering true _ => true
  | _ => false
  end.

Definition moved (x : qsbr_per_thread * pc) : bool :=
  match snd x with
  | Changing_load _ _ | Changing _ _ _ | Unregistering true _ => true
  | _ => false
  end.

(** ** Grades *)

Definition grade (E : Z) (s : system) (k : nat) (q : request) : Prop :=
  q ∈ requested s ∧
  match k with
  | 0%nat => hold (holders s) q = ∅
  | 1%nat => ∀ u, u ∈ hold (holders s) q → in_previous E <$> threads s !! u = Some true
  | _ => True
  end.

Lemma grade_S E s k q : grade E s k q → grade E s (S k) q.
Proof. intros [Hq H]. split; [done|]. destruct k as [|[|k]]; [|done..]. intros u. rewrite H. set_solver. Qed.

Lemma grade_2 E s k q : grade E s k q → (k ≤ 2)%nat → grade E s 2 q.
Proof. intros H Hk. destruct k as [|[|[|k]]]; [by repeat apply grade_S|by apply grade_S|done|lia]. Qed.

(** ** What holds of a thread at each point of the code *)

Section thread_ok.
Context (n E : Z) (G : nat → request → Prop) (own : request → Prop) (P : Z) (no_running : Prop).

Definition lists_ok (th : qsbr_per_thread) : Prop :=
  Forall (λ q, G 2 q ∧ own q) (current_interval_dealloc_requests th) ∧
  (last_seen_epoch th = E → Forall (G 1) (previous_interval_dealloc_requests th)) ∧
  (last_seen_epoch th ≠ E →
    Forall (G 0) (previous_interval_dealloc_requests th) ∧ Forall (G 1) (current_interval_dealloc_requests th)).

(** A registered thread has seen this epoch or the one before. *)
Definition member (th : qsbr_per_thread) : Prop :=
  0 ≤ quiescent_states_since_epoch_change th ≤ n ∧
  0 ≤ last_seen_quiescent_state_epoch th ≤ epoch_max ∧
  ((last_seen_quiescent_state_epoch th = E ∧ last_seen_epoch th = E) ∨
   (advance (last_seen_quiescent_state_epoch th) 1 = E ∧
    (last_seen_epoch th = E ∨ last_seen_epoch th = last_seen_quiescent_state_epoch th))) ∧
  lists_ok th.

Definition at_epoch (single : bool) (e : Z) (th : qsbr_per_thread) : Prop :=
  member th ∧ last_seen_quiescent_state_epoch th = E ∧ quiescent_states_since_epoch_change th = 0 ∧ e = E ∧
  (single = true → Forall (G 0) (current_interval_dealloc_requests th)).

Definition handling_ok (single : bool) (h : handling) : Prop :=
  (single = true → no_running) ∧
  Forall (G (match h with Take_current _ => 0 | _ => 2 end)) (handling_requests h).

Definition thread_ok (x : qsbr_per_thread * pc) : Prop :=
  let th := fst x in
  match snd x with
  | Paused | Registering _ => True
  | Registering_wait old_epoch => 0 ≤ old_epoch ≤ epoch_max ∧ (old_epoch = E ∨ advance old_epoch 1 = E)
  | Running => member th
  | Leaving_previous single e => at_epoch single e th
  | Changing_handle single e os h => at_epoch single e th ∧ P = 0 ∧ handling_ok os h
  | Changing_load single e | Changing single e _ => at_epoch single e th ∧ P = 0
  | Unregistering_handle w h => member th ∧ P = 1 ∧ unquiescent E th = true ∧ handling_ok (single_thread_mode w) h
  | Unregistering true w => member th ∧ P = 1 ∧ unquiescent E th = true
  | Unregistering false w => member th ∧ (get_threads_in_previous_epoch w = 0 ∨ advance_epoch th w = false)
  | Orphaning_load i =>
      Forall (G 1) (previous_interval_dealloc_requests th) ∧ Forall (G 2) (current_interval_dealloc_requests th)
  | Orphaning i node _ =>
      Forall (G 1) (previous_interval_dealloc_requests th) ∧ Forall (G 2) (current_interval_dealloc_requests th) ∧
      Forall (G (match i with Previous => 1 | Current => 2 end)) (node_requests node)
  end.
End thread_ok.

(** What holds of a thread goes on holding while grades fall, as long as the
    counts a changer relies on stay. *)
Lemma thread_ok_mono n n' E (G G' : nat → request → Prop) (own own' : request → Prop) P P' (nr nr' : Prop) x :
  n ≤ n' → (∀ k q, G k q → G' k q) → (∀ q, G 2%nat q → own q → own' q) →
  (changer x = true → P' = P ∧ (nr → nr')) →
  thread_ok n E G own P nr x → thread_ok n' E G' own' P' nr' x.
Proof.
  intros Hn HG Ho Hc. destruct x as [th p].
  assert (HF : ∀ k l, Forall (G k) l → Forall (G' k) l) by (intros k l Hl; eapply Forall_impl; [exact Hl|]; eauto).
  assert (HL : lists_ok E G own th → lists_ok E G' own' th).
  { intros (H1 & H2 & H3). split; [|split; [eauto|intros Hne; destruct (H3 Hne); eauto]].
    eapply Forall_impl; [exact H1|]. naive_solver. }
  assert (HM : member n E G own th → member n' E G' own' th).
  { intros (H1 & H2 & H3 & H4). split; [lia|]. split; [done|]. split; [done|]. by apply HL. }
  assert (HA : ∀ b e, at_epoch n E G own b e th → at_epoch n' E G' own' b e th).
  { intros b e (H1 & H2 & H3 & H4 & H5). split; [by apply HM|]. repeat split; eauto. }
  assert (HH : (nr → nr') → ∀ b h, handling_ok G nr b h → handling_ok G' nr' b h).
  { intros Hnr b h [H1 H2]. split; eauto. }
  unfold thread_ok, changer in *. cbn [fst snd] in *.
  destruct p as [| |w|e|b e|b e os h|b e|b e w|w h|[] w|i|i node next]; try done; auto;
    try (destruct (Hc eq_refl) as [-> Hnr]); naive_solver.
Qed.

(** ** The invariant *)

Definition no_running (l : list (qsbr_per_thread * pc)) : Prop := ∀ u x, l !! u = Some x → is_running x = false.

Record inv (n E : Z) (s : system) : Prop := {
  inv_size : Z.of_nat (length (threads s)) ≤ max_qsbr_threads;
  inv_epoch : 0 ≤ E ≤ epoch_max;
  inv_word : state (global s) = pack E (count counted (threads s)) (count (in_previous E) (threads s));
  inv_hold : ∀ q u, u ∈ hold (holders s) q → is_running <$> threads s !! u = Some true;
  inv_threads : ∀ t x, threads s !! t = Some x →
    thread_ok n E (grade E s) (λ q, t ∉ hold (holders s) q) (count (in_previous E) (threads s)) (no_running (threads s)) x;
  inv_changer : count changer (threads s) ≤ 1;
  inv_previous : Forall (grade E s (if count moved (threads s) =? 0 then 1%nat else 2%nat))
    (free_orphan_list (orphaned_previous_interval_dealloc_requests (global s)));
  inv_current : Forall (grade E s 2) (free_orphan_list (orphaned_current_interval_dealloc_requests (global s)));
  inv_freed : Forall (λ x, snd x = ∅) (freed s) }.

Lemma in_previous_counted E x : in_previous E x = true → counted x = true.
Proof. by destruct x as [th []]. Qed.

Lemma changer_counted x : changer x = true → counted x = true.
Proof. by destruct x as [th []]. Qed.

Lemma moved_changer x : moved x = true → changer x = true.
Proof. by destruct x as [th []]. Qed.

Lemma count_fits E (l : list (qsbr_per_thread * pc)) :
  Z.of_nat (length l) ≤ max_qsbr_threads → 0 ≤ E ≤ epoch_max → fits E (count counted l) (count (in_previous E) l).
Proof.
  intros Hl HE. pose proof (count_range counted l). pose proof (count_range (in_previous E) l). unfold fits. lia.
Qed.

Section facts.
Context (n E : Z) (s : system) (Hinv : inv n E s).

Lemma inv_get_epoch : get_epoch (state (global s)) = E.
Proof. rewrite (inv_word _ _ _ Hinv). apply get_epoch_pack, count_fits; apply Hinv. Qed.

Lemma inv_get_count : get_thread_count (state (global s)) = count counted (threads s).
Proof. rewrite (inv_word _ _ _ Hinv). apply get_thread_count_pack, count_fits; apply Hinv. Qed.

Lemma inv_get_previous : get_threads_in_previous_epoch (state (global s)) = count (in_previous E) (threads s).
Proof. rewrite (inv_word _ _ _ Hinv). apply get_threads_in_previous_epoch_pack, count_fits; apply Hinv. Qed.

Lemma inv_advance_epoch th :
  advance_epoch th (state (global s)) = unquiescent E th && (count (in_previous E) (threads s) =? 1).
Proof. unfold advance_epoch, remove_thread_from_old_epoch, epoch_eqb. by rewrite inv_get_epoch, inv_get_previous. Qed.

(** A thread that is not running holds nothing. *)
Lemma not_running_holds_none t x q : threads s !! t = Some x → is_running x = false → t ∉ hold (holders s) q.
Proof. intros Ht Hr Hin. pose proof (inv_hold _ _ _ Hinv _ _ Hin) as H. rewrite Ht in H. simpl in H. congruence. Qed.

(** While some other thread has yet to be quiescent, nobody changes the epoch. *)
Lemma in_previous_no_changer t x u y :
  threads s !! t = Some x → in_previous E x = true → threads s !! u = Some y → changer y = true → t = u.
Proof.
  intros Ht Hx Hu Hy. destruct (decide (t = u)) as [|Hne]; [done|exfalso].
  pose proof (count_pos _ _ _ _ Ht Hx) as Hpos. pose proof (inv_threads _ _ _ Hinv _ _ Hu) as Hok.
  assert (Htwo : in_previous E y = true → 2 ≤ count (in_previous E) (threads s)).
  { intros H. by apply (count_two _ _ t u x y). }
  destruct y as [th p]. unfold thread_ok, changer, in_previous in *. cbn [fst snd] in *.
  destruct p as [| |w|e|b e|b e os h|b e|b e w|w h|[] w|i|i node next]; try discriminate Hy; intuition lia.
Qed.

Lemma in_previous_changer_0 t x :
  threads s !! t = Some x → changer x = false → in_previous E x = true → count changer (threads s) = 0.
Proof.
  intros Ht Hc Hx. apply count_none. intros u y Hu. destruct (changer y) eqn:Hy; [|done].
  assert (t = u) as <- by (by apply (in_previous_no_changer t x u y)). congruence.
Qed.

(** With at most one thread, nobody else runs. *)
Lemma single_thread t x u y :
  single_thread_mode (state (global s)) = true → threads s !! t = Some x → counted x = true →
  threads s !! u = Some y → counted y = true → t = u.
Proof.
  unfold single_thread_mode. rewrite inv_get_count, Z.ltb_lt. intros Hc Ht Hx Hu Hy.
  eapply (count_one counted (threads s)); eauto. lia.
Qed.

Lemma running_counted x : is_running x = true → counted x = true.
Proof. by destruct x as [th []]. Qed.

Lemma single_hold t x q :
  single_thread_mode (state (global s)) = true → threads s !! t = Some x → counted x = true →
  t ∉ hold (holders s) q → hold (holders s) q = ∅.
Proof.
  intros Hs Ht Hx Hq. apply set_eq. intros u. split; [|set_solver]. intros Hu.
  pose proof (inv_hold _ _ _ Hinv _ _ Hu) as Hr. destruct (threads s !! u) as [y|] eqn:Hy; [|done]. simpl in Hr.
  assert (t = u) as ->; [|done]. eapply single_thread; eauto. apply running_counted. congruence.
Qed.

Lemma single_no_running t x :
  single_thread_mode (state (global s)) = true → threads s !! t = Some x → counted x = true → is_running x = false →
  no_running (threads s).
Proof.
  intros Hs Ht Hx Hr u y Hu. destruct (is_running y) eqn:Hy; [|done].
  assert (t = u) as -> by (eapply single_thread; eauto using running_counted). congruence.
Qed.

Lemma no_running_hold q : no_running (threads s) → hold (holders s) q = ∅.
Proof.
  intros Hn. apply set_eq. intros u. split; [|set_solver]. intros Hu.
  pose proof (inv_hold _ _ _ Hinv _ _ Hu) as Hr. destruct (threads s !! u) as [y|] eqn:Hy; [|done]. simpl in Hr.
  rewrite (Hn _ _ Hy) in Hr. discriminate Hr.
Qed.

(** When the only thread that has yet to be quiescent holds nothing, grade 1
    is grade 0. *)
Lemma grade_1_0 q : (∀ u y, threads s !! u = Some y → in_previous E y = true → is_running y = false) →
  grade E s 1 q → grade E s 0 q.
Proof.
  intros Hq [Hr H]. split; [done|]. apply set_eq. intros u. split; [|set_solver]. intros Hu. exfalso.
  pose proof (H u Hu) as Hp. pose proof (inv_hold _ _ _ Hinv _ _ Hu) as Hrun.
  destruct (threads s !! u) as [y|] eqn:Hy; [|done]. simpl in *.
  rewrite (Hq u y Hy) in Hrun; congruence.
Qed.
End facts.
