(* ===== verification/QsbrSteps.v ===== *)
(** Steps preserve the invariant: the general lemmas on steps that keep the
    epoch and on the step that advances it. *)

From S2P Require Import Prelude Threads QsbrState Qsbr QsbrInv.

(** The system after a thread has gone on with an operation. *)
Definition after (s : system) (t : nat) (g' : qsbr) (x' : qsbr_per_thread * pc) (f : list request) : system :=
  System g' (<[t:=x']> (threads s)) (next_node s) (requested s) (holders s)
    (freed s ++ ((λ p, (p, hold (holders s) p)) <$> f)).

Definition previous_orphans_ok (E : Z) (s : system) (l : list (qsbr_per_thread * pc)) (nodes : list orphan_node) : Prop :=
  Forall (grade E s (if count moved l =? 0 then 1%nat else 2%nat)) (free_orphan_list nodes).

(** ** Steps within an epoch *)

Section same_epoch.
Context (n E : Z) (s s' : system) (t : nat) (x x' : qsbr_per_thread * pc).
Hypothesis Hinv : inv n E s.
Hypothesis Ht : threads s !! t = Some x.
Hypothesis Hths : threads s' = <[t:=x']> (threads s).
Hypothesis Hreq : ∀ q, q ∈ requested s → q ∈ requested s'.
Hypothesis Hshrink : ∀ q, q ∈ requested s → hold (holders s') q ⊆ hold (holders s) q.
Hypothesis Hrun : ∀ q u, u ∈ hold (holders s') q → is_running <$> threads s !! u = Some true.
Hypothesis Hself : ∀ q, t ∈ hold (holders s') q → is_running x' = true ∧ in_previous E x' = in_previous E x.

Lemma same_epoch_grade k q : grade E s k q → grade E s' k q.
Proof.
  intros [Hq H]. split; [by apply Hreq|]. pose proof (Hshrink q Hq) as Hs. destruct k as [|[|k]]; [set_solver| |done].
  intros u Hu. rewrite Hths. destruct (decide (u = t)) as [->|Hne].
  - rewrite list_lookup_insert_eq by (by eapply lookup_lt_Some). simpl. destruct (Hself q Hu) as [_ ->].
    pose proof (H t (Hs t Hu)) as Hp. by rewrite Ht in Hp.
  - rewrite list_lookup_insert_ne by done. apply H, Hs, Hu.
Qed.

Lemma same_epoch_grades k l : Forall (grade E s k) l → Forall (grade E s' k) l.
Proof. intros H. eapply Forall_impl; [exact H|]. intros q. apply same_epoch_grade. Qed.

Lemma same_epoch :
  state (global s') = pack E (count counted (threads s')) (count (in_previous E) (threads s')) →
  (changer x' = true → changer x = true ∨ count changer (threads s) = 0) →
  (∀ u y, u ≠ t → threads s !! u = Some y → changer y = true →
    in_previous E x' = in_previous E x ∧ (is_running x' = true → is_running x = true)) →
  thread_ok (n + 1) E (grade E s') (λ q, t ∉ hold (holders s') q) (count (in_previous E) (threads s')) (no_running (threads s')) x' →
  previous_orphans_ok E s' (threads s') (orphaned_previous_interval_dealloc_requests (global s')) →
  Forall (grade E s' 2) (free_orphan_list (orphaned_current_interval_dealloc_requests (global s'))) →
  Forall (λ x, snd x = ∅) (freed s') →
  inv (n + 1) E s'.
Proof.
  intros Hword Hch Hothers Hok Hprev Hcur Hfreed.
  assert (Hlen : (t < length (threads s))%nat) by (by eapply lookup_lt_Some).
  split; [rewrite Hths, length_insert; apply Hinv|apply Hinv|done| | | |done|done|done].
  - intros q u Hu. rewrite Hths. destruct (decide (u = t)) as [->|Hne].
    + rewrite list_lookup_insert_eq by done. simpl. f_equal. by apply (Hself q).
    + rewrite list_lookup_insert_ne by done. by apply (Hrun q).
  - intros u y Hu. rewrite Hths in Hu. destruct (decide (u = t)) as [->|Hne].
    { rewrite list_lookup_insert_eq in Hu by done. injection Hu as <-. exact Hok. }
    rewrite list_lookup_insert_ne in Hu by done. eapply thread_ok_mono; [| | | |exact (inv_threads _ _ _ Hinv _ _ Hu)].
    + lia.
    + intros k q. apply same_epoch_grade.
    + intros q [Hq _] Hn Hin. by apply Hn, (Hshrink q Hq).
    + intros Hy. destruct (Hothers u y Hne Hu Hy) as [Hp Hr]. split.
      * rewrite Hths, (count_insert _ _ _ _ _ Ht), Hp. lia.
      * intros Hnr v z Hz. rewrite Hths in Hz. destruct (decide (v = t)) as [->|Hv].
        -- rewrite list_lookup_insert_eq in Hz by done. injection Hz as <-.
           destruct (is_running x') eqn:E1; [|done]. rewrite (Hnr t x Ht) in Hr. by specialize (Hr eq_refl).
        -- rewrite list_lookup_insert_ne in Hz by done. by apply (Hnr v).
  - rewrite Hths, (count_insert _ _ _ _ _ Ht). pose proof (inv_changer _ _ _ Hinv).
    destruct (changer x') eqn:E1; simpl; [|destruct (changer x); simpl; lia].
    destruct (Hch eq_refl) as [->|]; simpl; [lia|]. destruct (changer x); simpl; lia.
Qed.
End same_epoch.

(** Going on with an operation within an epoch. *)
Lemma continue_same n E s t x g' x' f :
  inv n E s → threads s !! t = Some x → (∀ q, t ∉ hold (holders s) q) →
  let l' := <[t:=x']> (threads s) in
  state g' = pack E (count counted l') (count (in_previous E) l') →
  (changer x' = true → changer x = true ∨ count changer (threads s) = 0) →
  (∀ u y, u ≠ t → threads s !! u = Some y → changer y = true → in_previous E x' = in_previous E x ∧ (is_running x' = true → is_running x = true)) →
  thread_ok (n + 1) E (grade E s) (λ q, t ∉ hold (holders s) q) (count (in_previous E) l') (no_running l') x' →
  previous_orphans_ok E s l' (orphaned_previous_interval_dealloc_requests g') →
  Forall (grade E s 2) (free_orphan_list (orphaned_current_interval_dealloc_requests g')) →
  Forall (grade E s 0) f →
  inv (n + 1) E (after s t g' x' f).
Proof.
  intros Hinv Ht Hnone l' Hword Hch Hothers Hok Hprev Hcur Hf.
  assert (Hmono : ∀ k q, grade E s k q → grade E (after s t g' x' f) k q).
  { intros k q. apply (same_epoch_grade n E s _ t x x'); try done; [apply (inv_hold _ _ _ Hinv)|].
    intros q' Hq'. by destruct (Hnone q'). }
  apply (same_epoch n E s _ t x x'); try done.
  - intros q u. apply (inv_hold _ _ _ Hinv).
  - intros q Hq. by destruct (Hnone q).
  - eapply thread_ok_mono; [| | | |exact Hok]; [lia|exact Hmono|done|]. intros _. split; [done|tauto].
  - eapply Forall_impl; [exact Hprev|]. apply Hmono.
  - apply Forall_app. split; [apply Hinv|]. apply Forall_fmap. eapply Forall_impl; [exact Hf|]. by intros q [_ H].
Qed.

(** ** The step that advances the epoch *)

Lemma next_epoch n E s t x g' x' f :
  inv n E s → threads s !! t = Some x → is_running x = false → changer x = true →
  (∀ u y, u ≠ t → threads s !! u = Some y → in_previous E y = false) →
  changer x' = false →
  let E' := advance E 1 in let l' := <[t:=x']> (threads s) in
  in_previous E' x' = counted x' →
  state g' = pack E' (count counted l') (count counted l') →
  ((∀ k q, grade E s k q → grade E' (after s t g' x' f) (pred k) q) →
   thread_ok (n + 1) E' (grade E' (after s t g' x' f)) (λ q, t ∉ hold (holders s) q) (count (in_previous E') l') (no_running l') x') →
  orphaned_previous_interval_dealloc_requests g' = orphaned_previous_interval_dealloc_requests (global s) →
  orphaned_current_interval_dealloc_requests g' = orphaned_current_interval_dealloc_requests (global s) →
  Forall (grade E s 1) f →
  inv (n + 1) E' (after s t g' x' f).
Proof.
  intros Hinv Ht Hnr Hchg Hout Hch' E' l' Hin' Hword Hok Hprev Hcur Hf.
  pose proof (inv_epoch _ _ _ Hinv) as HE. pose proof (advance_ne E HE) as Hne. fold E' in Hne.
  assert (Hlen : (t < length (threads s))%nat) by (by eapply lookup_lt_Some).
  pose proof (not_running_holds_none _ _ _ Hinv t x) as Hnone.
  assert (Hother : ∀ u y, u ≠ t → threads s !! u = Some y → changer y = false).
  { intros u y Hu Hy. destruct (changer y) eqn:Ec; [|done]. exfalso. apply Hu.
    symmetry. apply (count_one changer (threads s) t u x y); auto. apply Hinv. }
  (* every other registered thread has the whole new epoch before it *)
  assert (Hnew : ∀ u y, u ≠ t → threads s !! u = Some y → in_previous E' y = counted y).
  { intros u y Hu Hy. pose proof (Hout u y Hu Hy) as Hp. pose proof (Hother u y Hu Hy) as Hc.
    pose proof (inv_threads _ _ _ Hinv _ _ Hy) as Hy'.
    destruct y as [th p]. unfold in_previous, changer, counted, unquiescent in *. cbn [fst snd] in *.
    destruct p; try done; apply orb_false_iff in Hp || apply negb_false_iff in Hp;
      try (destruct Hp as [Hp _]; apply negb_false_iff in Hp); apply Z.eqb_eq in Hp; rewrite Hp;
      rewrite (proj2 (Z.eqb_neq E E')) by congruence; done. }
  assert (Hmono : ∀ k q, grade E s k q → grade E' (after s t g' x' f) (pred k) q).
  { intros k q [Hq H]. split; [done|]. destruct k as [|[|[|k]]]; try done; cbn [pred after holders threads].
    - apply set_eq. intros u. split; [|set_solver]. intros Hu. pose proof (H u Hu) as Hp.
      destruct (decide (u = t)) as [->|Hut]; [by destruct (Hnone q Ht Hnr)|].
      destruct (threads s !! u) as [y|] eqn:Hy; [|done]. simpl in Hp. rewrite (Hout u y Hut Hy) in Hp. discriminate Hp.
    - intros u Hu. pose proof (inv_hold _ _ _ Hinv _ _ Hu) as Hr.
      destruct (decide (u = t)) as [->|Hut]; [by destruct (Hnone q Ht Hnr)|].
      rewrite list_lookup_insert_ne by done. destruct (threads s !! u) as [y|] eqn:Hy; [|done]. simpl in *.
      rewrite (Hnew u y Hut Hy). f_equal. apply running_counted. congruence. }
  assert (Hdown : ∀ k q, grade E s k q → grade E' (after s t g' x' f) k q).
  { intros [|k] q H; [by apply (Hmono 0%nat)|]. by apply grade_S, (Hmono (S k)). }
  assert (Hcount : count (in_previous E') l' = count counted l').
  { apply Z.le_antisymm; [apply count_le, in_previous_counted|].
    assert (Hall : ∀ u y, l' !! u = Some y → in_previous E' y = counted y).
    { intros u y Hu. subst l'. destruct (decide (u = t)) as [->|Hut].
      - rewrite list_lookup_insert_eq in Hu by done. by simplify_eq.
      - rewrite list_lookup_insert_ne in Hu by done. by apply (Hnew u). }
    clear -Hall. induction l' as [|z l IH]; [done|]. simpl. rewrite (Hall 0%nat z eq_refl).
    pose proof (IH (λ u, Hall (S u))). lia. }
  split; cbn [after threads global holders requested freed].
  - rewrite length_insert. apply Hinv.
  - by apply advance_range.
  - fold l'. by rewrite Hcount.
  - intros q u Hu. destruct (decide (u = t)) as [->|Hut]; [by destruct (Hnone q Ht Hnr)|].
    rewrite list_lookup_insert_ne by done. by apply (inv_hold _ _ _ Hinv q).
  - intros u y Hu. destruct (decide (u = t)) as [->|Hut].
    { rewrite list_lookup_insert_eq in Hu by done. simplify_eq. by apply Hok. }
    rewrite list_lookup_insert_ne in Hu by done.
    pose proof (inv_threads _ _ _ Hinv _ _ Hu) as Hy. pose proof (Hout u y Hut Hu) as Hp. pose proof (Hother u y Hut Hu) as Hc.
    clear -Hy Hp Hc Hmono Hdown Hne HE. destruct y as [th p].
    assert (HF : ∀ k l, Forall (grade E s k) l → Forall (grade E' (after s t g' x' f) k) l)
      by (intros k l Hl; eapply Forall_impl; [exact Hl|]; apply Hdown).
    assert (HP : ∀ k l, Forall (grade E s k) l → Forall (grade E' (after s t g' x' f) (pred k)) l)
      by (intros k l Hl; eapply Forall_impl; [exact Hl|]; apply Hmono).
    assert (HM : unquiescent E th = false → member n E (grade E s) (λ q, u ∉ hold (holders s) q) th →
      member (n + 1) E' (grade E' (after s t g' x' f)) (λ q, u ∉ hold (holders s) q) th).
    { unfold unquiescent. intros Hq (H1 & H2 & H3 & H4 & H5 & _). apply orb_false_iff in Hq as [Hq _].
      apply negb_false_iff, Z.eqb_eq in Hq. assert (Hls : last_seen_epoch th = E).
      { destruct H3 as [[_ H3]|[H3 _]]; [done|]. rewrite Hq in H3. by destruct Hne. }
      split; [lia|]. split; [done|]. split; [right; rewrite Hq; auto|]. split; [|split].
      - eapply Forall_impl; [exact H4|]. intros q [Hq2 Ho]. split; [by apply Hdown|done].
      - intros He. rewrite Hls in He. by destruct Hne.
      - intros _. split; [by apply (HP 1%nat), H5|]. apply (HP 2%nat).
        eapply Forall_impl; [exact H4|]. by intros q [Hq2 _]. }
    unfold thread_ok, in_previous, changer in *. cbn [fst snd] in *.
    destruct p as [| |w|e|b e|b e os h|b e|b e w|w h|[] w|i|i node next]; try done; auto.
    + destruct Hy as [Hr _]. split; [done|]. apply negb_false_iff, Z.eqb_eq in Hp. subst e. by right.
    + destruct Hy as (_ & He & Hq & _). unfold unquiescent in Hp. rewrite Hq in Hp. apply orb_false_iff in Hp as [_ Hp]. done.
    + destruct Hy as [H1 H2]. split; [by apply HM|done].
    + destruct Hy as [H1 H2]. split; by apply HF.
    + destruct Hy as (H1 & H2 & H3). split; [by apply HF|]. split; by apply HF.
  - rewrite (count_insert _ _ _ _ _ Ht), Hchg, Hch'. simpl. pose proof (inv_changer _ _ _ Hinv). lia.
  - rewrite Hprev. eapply Forall_impl; [exact (inv_previous _ _ _ Hinv)|]. intros q Hq.
    assert (Hm : count moved l' = 0).
    { subst l'. pose proof (count_range moved (<[t:=x']> (threads s))).
      pose proof (count_le moved changer (<[t:=x']> (threads s)) moved_changer) as Hle.
      rewrite (count_insert changer _ _ _ _ Ht), Hchg, Hch' in Hle. simpl in Hle. pose proof (inv_changer _ _ _ Hinv). lia. }
    fold l'. rewrite Hm. simpl. apply (Hmono 2%nat). destruct (count moved (threads s) =? 0); [by apply grade_S|done].
  - rewrite Hcur. eapply Forall_impl; [exact (inv_current _ _ _ Hinv)|]. apply Hdown.
  - apply Forall_app. split; [apply Hinv|]. apply Forall_fmap. eapply Forall_impl; [exact Hf|].
    intros q Hq. by destruct (Hmono 1%nat q Hq) as [_ H].
Qed.

(** ** Bookkeeping *)

(** The invariant does not speak of the addresses of list nodes. *)
Lemma inv_ext n E s s' :
  global s' = global s → threads s' = threads s → requested s' = requested s → holders s' = holders s → freed s' = freed s →
  inv n E s → inv n E s'.
Proof.
  destruct s, s'; simpl; intros -> -> -> -> ->. intros []; split; done.
Qed.

(** A thread that gives up its pointers. *)
Definition release (s : system) (t : nat) : system :=
  System (global s) (threads s) (next_node s) (requested s) ((λ h : gset nat, h ∖ {[t]}) <$> holders s) (freed s).

Lemma hold_release s t q : hold (holders (release s t)) q = hold (holders s) q ∖ {[t]}.
Proof. unfold hold, release. cbn [holders]. rewrite lookup_fmap. destruct (holders s !! q); simpl; [done|set_solver]. Qed.

Lemma inv_release n E s t : inv n E s → inv n E (release s t).
Proof.
  intros Hinv. assert (Hg : ∀ k q, grade E s k q → grade E (release s t) k q).
  { intros k q [Hq H]. split; [done|]. destruct k as [|[|k]]; [| |done]; rewrite hold_release.
    - rewrite H. set_solver.
    - intros u Hu. apply H. set_solver. }
  destruct Hinv as [H1 H2 H3 H4 H5 H6 H7 H8 H9]. split; try done.
  - intros q u. rewrite hold_release. intros Hu. apply (H4 q). set_solver.
  - intros u x Hu. eapply thread_ok_mono; [| | | |exact (H5 u x Hu)]; [lia|exact Hg| |done].
    intros q _ Hn. cbv beta. rewrite hold_release. set_solver.
  - eapply Forall_impl; [exact H7|]. apply Hg.
Qed.

Section words.
Context (n E : Z) (s : system) (t : nat) (x x' : qsbr_per_thread * pc).
Hypothesis Hinv : inv n E s.
Hypothesis Ht : threads s !! t = Some x.

Lemma insert_fits : fits E (count counted (<[t:=x']> (threads s))) (count (in_previous E) (<[t:=x']> (threads s))).
Proof. apply count_fits; [rewrite length_insert|]; apply Hinv. Qed.

Lemma word_same :
  counted x' = counted x → in_previous E x' = in_previous E x →
  state (global s) = pack E (count counted (<[t:=x']> (threads s))) (count (in_previous E) (<[t:=x']> (threads s))).
Proof.
  intros Hc Hp. rewrite !(count_insert _ _ _ _ _ Ht), Hc, Hp, (inv_word _ _ _ Hinv). f_equal; lia.
Qed.

(** The orphans of the previous interval. *)
Lemma orphans_keep :
  moved x' = moved x →
  previous_orphans_ok E s (<[t:=x']> (threads s)) (orphaned_previous_interval_dealloc_requests (global s)).
Proof.
  intros Hm. unfold previous_orphans_ok. rewrite (count_insert _ _ _ _ _ Ht), Hm.
  replace (count moved (threads s) - _ + _) with (count moved (threads s)) by lia. apply Hinv.
Qed.

Lemma orphans_moved nodes :
  moved x' = true → Forall (grade E s 2) (free_orphan_list nodes) → previous_orphans_ok E s (<[t:=x']> (threads s)) nodes.
Proof.
  intros Hm Hg. unfold previous_orphans_ok. rewrite (count_insert _ _ _ _ _ Ht), Hm.
  assert (0 ≤ count moved (threads s) - Z.b2z (moved x)).
  { pose proof (count_range moved (threads s)). destruct (moved x) eqn:Ex; simpl; [|lia]. pose proof (count_pos _ _ _ _ Ht Ex). lia. }
  destruct (Z.eqb_spec (count moved (threads s) - Z.b2z (moved x) + Z.b2z true) 0); [simpl in *; lia|done].
Qed.

Lemma orphans_1 nodes :
  Forall (grade E s 1) (free_orphan_list nodes) → previous_orphans_ok E s (<[t:=x']> (threads s)) nodes.
Proof.
  intros Hg. unfold previous_orphans_ok. destruct (_ =? 0); [done|]. eapply Forall_impl; [exact Hg|]. apply grade_S.
Qed.

Lemma previous_grade_2 : Forall (grade E s 2) (free_orphan_list (orphaned_previous_interval_dealloc_requests (global s))).
Proof.
  eapply Forall_impl; [exact (inv_previous _ _ _ Hinv)|]. intros q. destruct (_ =? 0); [apply grade_S|done].
Qed.

(** Before the changer moves the orphans, those of the previous interval have grade 1. *)
Lemma previous_grade_1 :
  changer x = true → moved x = false →
  Forall (grade E s 1) (free_orphan_list (orphaned_previous_interval_dealloc_requests (global s))).
Proof.
  intros Hc Hm. pose proof (inv_previous _ _ _ Hinv) as Hp. assert (Hz : count moved (threads s) = 0).
  { apply count_none. intros u y Hu. destruct (moved y) eqn:Hy; [|done].
    assert (t = u) as <-.
    { apply (count_one changer (threads s) t u x y); auto using moved_changer. apply Hinv. }
    rewrite Ht in Hu. simplify_eq. congruence. }
  rewrite Hz in Hp. exact Hp.
Qed.
End words.

(** ** Threads that leave or change the epoch see only the past *)

Section alone.
Context (n E : Z) (s : system) (t : nat) (x : qsbr_per_thread * pc).
Hypothesis Hinv : inv n E s.
Hypothesis Ht : threads s !! t = Some x.
Hypothesis Hnone : ∀ q, t ∉ hold (holders s) q.

(** When at most this thread has yet to be quiescent, grade 1 is grade 0. *)
Lemma last_unquiescent_grade q :
  count (in_previous E) (threads s) = Z.b2z (in_previous E x) → grade E s 1 q → grade E s 0 q.
Proof.
  intros Hc Hg. pose proof Hg as [Hr H]. split; [done|]. apply set_eq. intros u. split; [|set_solver]. intros Hu. exfalso.
  pose proof (H u Hu) as Hp. destruct (decide (t = u)) as [->|Hne]; [by destruct (Hnone q)|].
  destruct (threads s !! u) as [y|] eqn:Hy; [|done]. simpl in Hp. injection Hp as Hp.
  pose proof (count_pos _ _ _ _ Hy Hp). destruct (in_previous E x) eqn:Ex; simpl in Hc; [|lia].
  pose proof (count_two _ _ t u x y Ht Hy Hne Ex Hp). lia.
Qed.

Lemma single_grade k q :
  single_thread_mode (state (global s)) = true → counted x = true → grade E s k q → grade E s 0 q.
Proof. intros Hs Hc [Hq _]. split; [done|]. eapply single_hold; eauto. Qed.
End alone.
