(* ===== verification/QsbrSafety.v ===== *)
(** Every step of every operation preserves the invariant of the reclamation,
    so that nothing is freed while a thread may hold it. *)

From S2P Require Import Prelude Threads QsbrState Qsbr QsbrInv QsbrSteps.

(** ** Local computations and grades *)

Section local.
Context (n E : Z) (G : nat → request → Prop) (own : request → Prop).
Hypothesis HG : ∀ k q, G k q → G (S k) q.

Lemma own_all (single : bool) (l : list request) :
  (single = true → ∀ q, G 2 q → own q → G 0 q) → Forall (λ q, G 2 q ∧ own q) l → single = true → Forall (G 0) l.
Proof. intros H Hl Hs. eapply Forall_impl; [exact Hl|]. intros q [? ?]. by apply H. Qed.

Lemma advance_ok single th th' f :
  member n E G own th → (single = true → ∀ q, G 2 q → own q → G 0 q) →
  advance_last_seen_epoch single E [] th = (th', f) →
  Forall (G 0) f ∧ member n E G own th' ∧ last_seen_epoch th' = E ∧
  last_seen_quiescent_state_epoch th' = last_seen_quiescent_state_epoch th ∧
  quiescent_states_since_epoch_change th' = quiescent_states_since_epoch_change th.
Proof.
  intros Hm Hsingle Ha. pose proof Hm as (H1 & H2 & H3 & H4 & H5 & H6). unfold advance_last_seen_epoch, epoch_eqb in Ha.
  destruct (Z.eqb_spec E (last_seen_epoch th)) as [Heq|Hne].
  { injection Ha as <- <-. split; [constructor|]. split; [exact Hm|done]. }
  destruct (H6 (not_eq_sym Hne)) as [Hp Hc]. unfold execute_previous_requests in Ha.
  assert (Hlsq : advance (last_seen_quiescent_state_epoch th) 1 = E) by (destruct H3 as [[_ H3]|[H3 _]]; [by destruct Hne|done]).
  destruct single; cbn [negb] in Ha; simplify_eq; simpl; (split; [|split; [|done]]).
  - apply Forall_app. split; [|done]. by apply (own_all true).
  - split; [done|]. split; [done|]. split; [by right; auto|]. split; [constructor|]. split; [constructor|done].
  - done.
  - split; [done|]. split; [done|]. split; [by right; auto|]. split; [constructor|]. split; [done|done].
Qed.

(** Orphaning what a thread has, when it has seen this epoch. *)
Lemma orphan_ok n' E' own' P nr th :
  Forall (G 1) (previous_interval_dealloc_requests th) → Forall (G 2) (current_interval_dealloc_requests th) →
  thread_ok n' E' G own' P nr (orphan_pending_requests th).
Proof.
  intros Hp Hc. unfold orphan_pending_requests, orphan_current.
  destruct (previous_interval_dealloc_requests th) eqn:E1; [|by split; cbn [fst]; [rewrite E1|]].
  destruct (current_interval_dealloc_requests th) eqn:E2; [done|]. split; cbn [fst]; [by rewrite E1|by rewrite E2].
Qed.
End local.

Lemma orphan_shape th :
  let x' := orphan_pending_requests th in
  counted x' = false ∧ (∀ E, in_previous E x' = false) ∧ changer x' = false ∧ moved x' = false ∧ is_running x' = false.
Proof.
  unfold orphan_pending_requests, orphan_current. destruct (previous_interval_dealloc_requests th); [|done].
  by destruct (current_interval_dealloc_requests th).
Qed.

(** Where a turn of the loop of [unregister_thread] leads. *)
Lemma unregister_turn n E s t th p prepared own :
  inv n E s → threads s !! t = Some (th, p) → (∀ q, t ∉ hold (holders s) q) →
  p = Running ∧ prepared = false ∨ (∃ w, p = Unregistering prepared w) →
  member n E (grade E s) own th →
  (prepared = true → count (in_previous E) (threads s) = 1 ∧ unquiescent E th = true) →
  let x' := (th, unregister_thread prepared (state (global s)) th) in
  let l' := <[t:=x']> (threads s) in
  thread_ok n E (grade E s) own (count (in_previous E) l') (no_running l') x' ∧
  counted x' = true ∧ in_previous E x' = unquiescent E th ∧ moved x' = prepared ∧ is_running x' = false ∧
  (changer x' = true → prepared = true ∨ count changer (threads s) = 0).
Proof.
  intros Hinv Ht Hnone Hp Hm Hprep x' l'.
  assert (Hin : in_previous E (th, p) = unquiescent E th) by (destruct Hp as [[-> _]|[w ->]]; done).
  assert (Hcnt : counted (th, p) = true) by (destruct Hp as [[-> _]|[w ->]]; done).
  assert (Hch : changer (th, p) = prepared) by (destruct Hp as [[-> ->]|[w ->]]; [done|by destruct prepared]).
  assert (HP : ∀ y, in_previous E y = unquiescent E th → count (in_previous E) (<[t:=y]> (threads s)) = count (in_previous E) (threads s)).
  { intros y Hy. rewrite (count_insert _ _ _ _ _ Ht), Hin, Hy. lia. }
  subst l' x'. unfold unregister_thread. rewrite (inv_get_previous _ _ _ Hinv), (inv_advance_epoch _ _ _ Hinv).
  destruct (Z.eqb_spec (count (in_previous E) (threads s)) 0) as [Hz|Hz].
  { destruct prepared; [destruct (Hprep eq_refl); lia|]. split_and!; try done.
    split; [exact Hm|left]. by rewrite (inv_get_previous _ _ _ Hinv). }
  destruct prepared; cbn [negb andb].
  { rewrite andb_false_r. destruct (Hprep eq_refl) as [H1 H2]. split_and!; try done; [|by left].
    split; [exact Hm|]. split; [by rewrite HP|done]. }
  rewrite andb_true_r. destruct (unquiescent E th) eqn:Hu; cbn [andb].
  - destruct (Z.eqb_spec (count (in_previous E) (threads s)) 1) as [H1|H1].
    + split_and!; try done.
      * split; [exact Hm|]. split; [by rewrite HP|]. split; [done|]. split; [|constructor].
        intros Hs u y Hy. destruct (decide (u = t)) as [->|Hne].
        { rewrite list_lookup_insert_eq in Hy by (by eapply lookup_lt_Some). by simplify_eq. }
        rewrite list_lookup_insert_ne in Hy by done. destruct (is_running y) eqn:Hr; [|done]. destruct Hne.
        symmetry. eapply (single_thread n E s Hinv); eauto using running_counted.
      * intros _. right. apply (in_previous_changer_0 n E s Hinv t (th, p)); [done..|by rewrite Hin].
    + split_and!; try done. split; [exact Hm|right]. rewrite (inv_advance_epoch _ _ _ Hinv); cbn [fst]; rewrite Hu. by apply Z.eqb_neq.
  - split_and!; try done. split; [exact Hm|right]. by rewrite (inv_advance_epoch _ _ _ Hinv); cbn [fst]; rewrite Hu.
Qed.

(** ** The calls *)

Section calls.
Context (n E : Z) (s : system) (t : nat) (th : qsbr_per_thread).
Hypothesis Hinv : inv n E s.
Hypothesis Hn : 0 ≤ n.
Hypothesis Hb : n + 1 < 2 ^ 62.

Lemma member_mono (G : nat → request → Prop) own x : member n E G own x → member (n + 1) E G own x.
Proof. intros (H1 & H2). split; [lia|done]. Qed.

(** A paused thread that starts to register, or is destroyed. *)
Lemma paused_step th' p' :
  threads s !! t = Some (th, Paused) → p' = Paused ∨ (∃ w, p' = Registering w) →
  inv (n + 1) E (after s t (global s) (th', p') []).
Proof.
  intros Ht Hp. pose proof (λ q, not_running_holds_none n E s Hinv t (th, Paused) q Ht eq_refl) as Hnone.
  apply (continue_same n E s t (th, Paused)); [done..| | | | | | |constructor].
  - apply (word_same n E s t (th, Paused)); auto; by destruct Hp as [->|[w ->]].
  - by destruct Hp as [->|[w ->]].
  - intros u y _ _ _. by destruct Hp as [->|[w ->]].
  - by destruct Hp as [->|[w ->]].
  - apply (orphans_keep n E s t (th, Paused)); auto. by destruct Hp as [->|[w ->]].
  - apply Hinv.
Qed.

(** A thread that starts to unregister. *)
Lemma pause_step :
  threads s !! t = Some (th, Running) →
  inv (n + 1) E (after (release s t) t (global s) (th, unregister_thread false (state (global s)) th) []).
Proof.
  intros Ht. pose proof (inv_release n E s t Hinv) as Hinv0. set (s0 := release s t) in *.
  assert (Hnone : ∀ q, t ∉ hold (holders s0) q) by (intros q; unfold s0; rewrite hold_release; set_solver).
  pose proof (inv_threads _ _ _ Hinv0 t _ Ht) as Hm. unfold thread_ok in Hm; cbn [fst snd] in Hm.
  destruct (unregister_turn n E s0 t th Running false _ Hinv0 Ht Hnone (or_introl (conj eq_refl eq_refl)) Hm)
    as (Hok & Hc & Hp & Hmv & Hr & Hch); [done|].
  change (state (global s)) with (state (global s0)). change (global s) with (global s0).
  apply (continue_same n E s0 t (th, Running)); [done..| | | | | | |try done].
  - apply (word_same n E s0 t (th, Running)); auto.
  - intros H. destruct (Hch H); [done|by right].
  - intros u y _ _ _. split; [done|congruence].
  - eapply thread_ok_mono; [| | | |exact Hok]; [lia|done|done|done].
  - by apply (orphans_keep n E s0 t (th, Running)).
  - apply Hinv0.
Qed.

Lemma single_all own (b : bool) x :
  inv n E s → threads s !! t = Some x → (∀ q, t ∉ hold (holders s) q) → counted x = true →
  b = single_thread_mode (state (global s)) → b = true → ∀ q, grade E s 2 q → own q → grade E s 0 q.
Proof. intros Hi Ht Hnone Hc -> Hs q Hg _. eapply single_grade; eauto. Qed.

Lemma quiescent_step th' p' f :
  threads s !! t = Some (th, Running) → quiescent (state (global s)) th = (th', p', f) →
  inv (n + 1) E (after (release s t) t (global s) (th', p') f).
Proof using Hinv Hn Hb.
  intros Ht Hq. pose proof (inv_release n E s t Hinv) as Hinv0. set (s0 := release s t) in *.
  assert (Hnone : ∀ q, t ∉ hold (holders s0) q) by (intros q; unfold s0; rewrite hold_release; set_solver).
  pose proof (inv_threads _ _ _ Hinv0 t _ Ht) as Hm. unfold thread_ok in Hm; cbn [fst snd] in Hm.
  change (state (global s)) with (state (global s0)) in Hq. change (global s) with (global s0).
  unfold quiescent in Hq. rewrite (inv_get_epoch _ _ _ Hinv0) in Hq.
  destruct (advance_last_seen_epoch _ _ _ _) as [th1 f1] eqn:Ha.
  set (own := λ q, t ∉ hold (holders s0) q) in *.
  assert (Hsingle : single_thread_mode (state (global s0)) = true → ∀ q, grade E s0 2 q → own q → grade E s0 0 q).
  { intros Hs q Hg _. by apply (single_grade n E s0 t (th, Running) Hinv0 Ht Hnone 2). }
  destruct (advance_ok n E (grade E s0) own _ _ _ _ Hm Hsingle Ha) as (Hf & Hm1 & Hls & Hlsq & Hqs).
  pose proof Hm1 as (H1 & H2 & H3 & H4 & H5 & H6).
  pose proof (own_all (grade E s0) own _ _ Hsingle H4) as Hcur.
  assert (Hshape : f = f1 ∧ (∀ P nr, thread_ok (n + 1) E (grade E s0) own P nr (th', p')) ∧ counted (th', p') = true ∧
      in_previous E (th', p') = unquiescent E th ∧ changer (th', p') = false ∧ moved (th', p') = false).
  { unfold epoch_eqb in Hq. rewrite Hlsq in Hq. unfold unquiescent. rewrite (Z.eqb_sym E) in Hq.
    destruct (Z.eqb_spec (last_seen_quiescent_state_epoch th) E) as [He|He]; cbn [negb orb] in *.
    - rewrite Hqs in Hq. destruct (Z.eqb_spec (quiescent_states_since_epoch_change th) 0) as [H0|H0]; injection Hq as <- <- <-.
      + split_and!; try done.
        * intros P nr. split; [by apply member_mono|]. cbn [fst]; split_and!; try done; congruence.
        * change (unquiescent E th1 = true). unfold unquiescent. rewrite Hlsq, Hqs, He, H0, Z.eqb_refl. done.
      + rewrite Hqs in H1.
        assert (Hw : Words.wrap64 (quiescent_states_since_epoch_change th + 1) = quiescent_states_since_epoch_change th + 1)
          by (apply Words.wrap_small; lia).
        rewrite Hw. split_and!; try done.
        * intros P nr. split; [simpl; lia|]. split; [done|]. split; [|done]. left. simpl. split; congruence.
        * unfold in_previous, unquiescent. simpl. rewrite Hlsq, He, Z.eqb_refl. apply Z.eqb_neq. lia.
    - cbn [quiescent_states_since_epoch_change set_quiescent Z.eqb] in Hq. injection Hq as <- <- <-. split_and!; try done.
      + intros P nr. split; [|done]. split; [simpl; lia|]. split; [apply Hinv|]. split; [by left|done].
      + unfold in_previous, unquiescent. simpl. by rewrite Z.eqb_refl. }
  destruct Hshape as (-> & Hok & Hc & Hp & Hch & Hmv).
  apply (continue_same n E s0 t (th, Running)); [done..| | | | | | |try done].
  - apply (word_same n E s0 t (th, Running)); auto.
  - congruence.
  - done.
  - apply Hok.
  - by apply (orphans_keep n E s0 t (th, Running)).
  - apply Hinv0.
Qed.
Lemma elem_of_running u : u ∈ running_threads (threads s) ↔ is_running <$> threads s !! u = Some true.
Proof.
  unfold running_threads. rewrite elem_of_list_to_set, list_elem_of_filter. split; [tauto|]. intros Hu. split; [done|].
  apply elem_of_seq. destruct (threads s !! u) eqn:Hx; [|done]. apply lookup_lt_Some in Hx. lia.
Qed.

(** A new request is held by the other running threads. *)
Definition noted (p : request) : gmap Z (gset nat) := <[p := running_threads (threads s) ∖ {[t]}]> (holders s).

Lemma hold_noted p q : hold (noted p) q = if decide (q = p) then running_threads (threads s) ∖ {[t]} else hold (holders s) q.
Proof.
  unfold hold, noted. destruct (decide (q = p)) as [->|Hne]; [by rewrite lookup_insert_eq|by rewrite lookup_insert_ne].
Qed.

Lemma deallocate_local (G : nat → request → Prop) (own : request → Prop) p th' f :
  member n E G own th → G 2%nat p → own p → get_epoch (state (global s)) = E →
  (single_thread_mode (state (global s)) = true → G 0%nat p ∧ ∀ q, G 2%nat q → own q → G 0%nat q) →
  on_next_epoch_deallocate (state (global s)) p th = (th', f) →
  Forall (G 0%nat) f ∧ member n E G own th' ∧
  last_seen_quiescent_state_epoch th' = last_seen_quiescent_state_epoch th ∧
  quiescent_states_since_epoch_change th' = quiescent_states_since_epoch_change th.
Proof.
  intros Hm Hp Hown He Hs Hd. unfold on_next_epoch_deallocate, epoch_eqb in Hd. rewrite He in Hd.
  destruct (single_thread_mode (state (global s))).
  - destruct (Hs eq_refl) as [Hp0 Hall]. destruct (advance_last_seen_epoch _ _ _ _) as [th1 f1] eqn:Ha. injection Hd as <- <-.
    destruct (advance_ok n E G own true th th1 f1 Hm (λ _, Hall) Ha) as (Hf & Hm1 & _ & H1 & H2).
    split_and!; try done. apply Forall_app. split; [done|by constructor].
  - destruct Hm as (H1 & H2 & H3 & H4 & H5 & H6). destruct (Z.eqb_spec (last_seen_epoch th) E) as [Heq|Hne]; cbn [negb] in Hd.
    + injection Hd as <- <-. split_and!; try done. split; [done|]. split; [done|]. split; [done|]. split; [|split; done].
      apply Forall_app. split; [done|by repeat constructor].
    + destruct (H6 Hne) as [Hp0 Hc1]. unfold advance_last_seen_epoch, epoch_eqb in Hd.
      rewrite (proj2 (Z.eqb_neq _ _) (not_eq_sym Hne)) in Hd. unfold execute_previous_requests in Hd. cbn [negb] in Hd.
      injection Hd as <- <-. split_and!; try done. split; [done|]. split; [done|].
      split; [right; split; [|by left]; destruct H3 as [[_ H3]|[H3 _]]; [by destruct Hne|done]|].
      split; [by repeat constructor|]. split; done.
Qed.

Lemma deallocate_kept w p th0 th' f :
  on_next_epoch_deallocate w p th0 = (th', f) →
  last_seen_quiescent_state_epoch th' = last_seen_quiescent_state_epoch th0 ∧
  quiescent_states_since_epoch_change th' = quiescent_states_since_epoch_change th0.
Proof using Type.
  unfold on_next_epoch_deallocate, advance_last_seen_epoch, execute_previous_requests. intros Hd.
  repeat case_match; simplify_eq; done.
Qed.

Lemma deallocate_step p th' f nn :
  threads s !! t = Some (th, Running) → p ∉ requested s →
  on_next_epoch_deallocate (state (global s)) p th = (th', f) →
  inv (n + 1) E (System (global s) (<[t:=(th', Running)]> (threads s)) nn (requested s ++ [p]) (noted p)
    (freed s ++ ((λ q, (q, hold (noted p) q)) <$> f))).
Proof.
  intros Ht Hp Hd. set (s' := System _ _ _ _ _ _).
  pose proof (inv_threads _ _ _ Hinv t _ Ht) as Hok.
  assert (Hne : ∀ q, q ∈ requested s → hold (noted p) q = hold (holders s) q).
  { intros q Hq. rewrite hold_noted. destruct (decide (q = p)) as [->|]; done. }
  assert (Hkept : last_seen_quiescent_state_epoch th' = last_seen_quiescent_state_epoch th ∧
                  quiescent_states_since_epoch_change th' = quiescent_states_since_epoch_change th)
    by exact (deallocate_kept _ _ _ _ _ Hd).
  assert (Hin : in_previous E (th', Running) = in_previous E (th, Running)).
  { destruct Hkept as [H1 H2]. unfold in_previous, unquiescent. cbn [fst snd]. by rewrite H1, H2. }
  assert (Hrun : ∀ q u, u ∈ hold (noted p) q → is_running <$> threads s !! u = Some true).
  { intros q u. rewrite hold_noted. destruct (decide (q = p)); [|apply (inv_hold _ _ _ Hinv)].
    intros Hu. apply elem_of_running. set_solver. }
  assert (Hreq : ∀ q, q ∈ requested s → q ∈ requested s') by (intros q Hq; apply elem_of_app; by left).
  assert (Hshrink : ∀ q, q ∈ requested s → hold (holders s') q ⊆ hold (holders s) q)
    by (intros q Hq; change (holders s') with (noted p); by rewrite Hne).
  assert (Hself : ∀ q, t ∈ hold (holders s') q → is_running (th', Running) = true ∧ in_previous E (th', Running) = in_previous E (th, Running)) by done.
  pose proof (same_epoch_grade n E s s' t _ _ Hinv Ht eq_refl Hreq Hshrink Hrun Hself) as Hmono.
  set (own q := t ∉ hold (noted p) q).
  assert (Hm : member n E (grade E s') own th).
  { apply (thread_ok_mono n n E (grade E s) (grade E s') (λ q, t ∉ hold (holders s) q) own (count (in_previous E) (threads s)) (count (in_previous E) (threads s)) (no_running (threads s)) (no_running (threads s)) (th, Running)) in Hok; [exact Hok|lia|exact Hmono| |done].
    intros q [Hq _]. unfold own. by rewrite Hne. }
  assert (Hownp : own p) by (unfold own; rewrite hold_noted, decide_True by done; set_solver).
  assert (Hp2 : grade E s' 2 p) by (split; [apply elem_of_app; right; by apply list_elem_of_singleton|done]).
  assert (Hsingle : single_thread_mode (state (global s)) = true → ∀ q, grade E s' 2 q → own q → grade E s' 0 q).
  { intros Hs q [Hq _] Ho. split; [done|]. change (holders s') with (noted p). apply set_eq. intros u. split; [|set_solver].
    intros Hu. pose proof (Hrun q u Hu) as Hr. destruct (threads s !! u) as [y|] eqn:Hy; [|done]. simpl in Hr. injection Hr as Hr.
    assert (t = u) as <-; [|by destruct Ho].
    eapply (single_thread n E s Hinv t (th, Running) u y); eauto using running_counted. }
  destruct (deallocate_local (grade E s') own p th' f Hm Hp2 Hownp (inv_get_epoch _ _ _ Hinv)) as (Hf & Hm' & _); [|done|].
  { intros Hs. split; [apply (Hsingle Hs); done|by apply Hsingle]. }
  apply (same_epoch n E s s' t (th, Running) (th', Running)); try done.
  - by apply (word_same n E s t (th, Running)).
  - by apply member_mono.
  - eapply Forall_impl; [exact (orphans_keep n E s t (th, Running) (th', Running) Hinv Ht eq_refl)|]. apply Hmono.
  - eapply Forall_impl; [apply Hinv|]. apply Hmono.
  - apply Forall_app. split; [apply Hinv|]. apply Forall_fmap. eapply Forall_impl; [exact Hf|]. by intros q [_ H].
Qed.
End calls.
