(* ===== verification/QsbrContinue.v ===== *)
(** Going on with an operation preserves the invariant of the reclamation. *)

From S2P Require Import Prelude Threads QsbrState Qsbr QsbrRequests QsbrInv QsbrSteps QsbrSafety.

(** Applies the lemma on steps within an epoch to a thread inside an operation. *)
Ltac same_epoch_step n E s t x Hinv :=
  apply (continue_same n E s t x);
  [done|done|intros q; by apply (not_running_holds_none n E s Hinv t x)|..|try by constructor].

(** A step of a thread that is inside an operation and not the changer, with
    neither the word nor the orphans changed. *)
Section step.
Context (n E : Z) (s : system) (t : nat).
Hypothesis Hinv : inv n E s.
Hypothesis Hn : 0 ≤ n.
Hypothesis Hb : n + 1 < 2 ^ 62.

Let own (q : request) : Prop := t ∉ hold (holders s) q.

Lemma no_running_insert x' : no_running (threads s) → is_running x' = false → no_running (<[t:=x']> (threads s)).
Proof using Type.
  intros Hnr Hx u y Hu. destruct (decide (u = t)) as [->|Hne].
  - destruct (decide (t < length (threads s))%nat) as [Hlt|Hge].
    + rewrite list_lookup_insert_eq in Hu by done. by simplify_eq.
    + rewrite list_insert_ge in Hu by lia. by apply (Hnr t).
  - rewrite list_lookup_insert_ne in Hu by done. by apply (Hnr u).
Qed.

(** A step after which the thread is where it was. *)
Lemma same_place x x' :
  threads s !! t = Some x → is_running x = false → is_running x' = false → counted x' = counted x →
  in_previous E x' = in_previous E x → changer x' = changer x → moved x' = moved x →
  (∀ P nr, thread_ok n E (grade E s) own P nr x → thread_ok n E (grade E s) own P nr x') →
  inv (n + 1) E (after s t (global s) x' []).
Proof.
  intros Ht Hr Hr' Hc Hp Hch Hm Hok.
  apply (continue_same n E s t x); [done|done|intros q; by apply (not_running_holds_none n E s Hinv t x)|..|constructor].
  - by apply (word_same n E s t x).
  - rewrite Hch. by left.
  - intros u y _ _ _. split; [done|congruence].
  - pose proof (inv_threads _ _ _ Hinv t x Ht) as Hx. apply Hok in Hx.
    eapply thread_ok_mono; [| | | |exact Hx]; [lia|done|done|]. intros Hcx. split.
    + rewrite (count_insert _ _ _ _ _ Ht), Hp. lia.
    + intros Hnr. by apply no_running_insert.
  - by apply (orphans_keep n E s t x).
  - apply Hinv.
Qed.

(** ** Registering *)

Lemma no_changer :
  count ends_epoch (threads s) = 0 →
  0 < count (in_previous E) (threads s) ∨ count counted (threads s) = 0 → count changer (threads s) = 0.
Proof.
  intros He Hcond. apply count_none. intros u y Hu. destruct (changer y) eqn:Hy; [exfalso|done].
  pose proof (count_pos _ _ _ _ Hu (changer_counted _ Hy)). pose proof (count_zero _ _ _ _ He Hu) as Hz.
  pose proof (inv_threads _ _ _ Hinv u y Hu) as Hok. destruct y as [th p]. unfold changer, ends_epoch, thread_ok in *. cbn [fst snd] in *.
  destruct p as [| |w|e|b e|b e os h|b e|b e w|w h|[] w|i|i node next]; try done; intuition lia.
Qed.

Lemma registered_member G th own' :
  previous_interval_dealloc_requests th = [] → current_interval_dealloc_requests th = [] →
  member (n + 1) E G own' (registered E th).
Proof.
  intros H1 H2. split; [simpl; lia|]. split; [apply Hinv|]. split; [by left|].
  unfold lists_ok. simpl. rewrite H1, H2. done.
Qed.

Lemma registered_in_previous th : in_previous E (registered E th, Running) = true.
Proof using Type. unfold in_previous, unquiescent. simpl. by rewrite Z.eqb_refl. Qed.

Lemma join_step th w :
  threads s !! t = Some (th, Registering w) → emptied (th, Registering w) → count ends_epoch (threads s) = 0 →
  0 < count (in_previous E) (threads s) ∨ count counted (threads s) = 0 →
  inv (n + 1) E (after s t (set_state (inc_thread_count_and_threads_in_previous_epoch (state (global s))) (global s))
    (registered E th, Running) []).
Proof.
  intros Ht [Hl1 Hl2] He Hcond. pose proof (no_changer He Hcond) as Hnc.
  same_epoch_step n E s t (th, Registering w) Hinv.
  - pose proof (insert_fits n E s t (registered E th, Running) Hinv) as Hfit.
    rewrite !(count_insert _ _ _ _ _ Ht), registered_in_previous in *. cbn [counted in_previous snd Z.b2z] in *.
    rewrite !Z.sub_0_r in *. cbn [set_state state]. rewrite (inv_word _ _ _ Hinv). by apply inc_both_pack.
  - by right.
  - intros u y _ Hu Hy. by rewrite (count_zero _ _ _ _ Hnc Hu) in Hy.
  - by apply registered_member.
  - by apply (orphans_keep n E s t (th, Registering w)).
  - apply Hinv.
Qed.

Lemma registering_step th w sp o :
  threads s !! t = Some (th, Registering w) → emptied (th, Registering w) → count ends_epoch (threads s) = 0 →
  continue (global s) th (Registering w) sp = Some o →
  inv (n + 1) E (after s t (o_global o) (o_thread o, o_pc o) (o_freed o)).
Proof.
  intros Ht Hl He Ho. unfold continue, register_new_state in Ho.
  destruct (negb sp && (state (global s) =? w)) eqn:Hcas; [|injection Ho as <-; by apply (same_place (th, Registering w))].
  apply andb_prop in Hcas as [_ Hw%Z.eqb_eq]. subst w.
  rewrite (inv_get_previous _ _ _ Hinv), (inv_get_count _ _ _ Hinv), (inv_get_epoch _ _ _ Hinv) in Ho.
  destruct (Z.ltb_spec 0 (count (in_previous E) (threads s))) as [Hpos|Hzero];
    [|destruct (Z.eqb_spec (count counted (threads s)) 0) as [Hc0|Hc0]]; cbn [orb] in Ho; injection Ho as <-;
    cbn [o_global o_thread o_pc o_freed]; [apply (join_step th (state (global s))); auto..|].
  same_epoch_step n E s t (th, Registering (state (global s))) Hinv.
  - pose proof (insert_fits n E s t (th, Registering_wait E) Hinv) as Hfit.
    rewrite !(count_insert _ _ _ _ _ Ht) in *. cbn [counted in_previous snd Z.b2z] in *. rewrite Z.eqb_refl in *. cbn [negb Z.b2z] in *.
    rewrite !Z.sub_0_r, (Z.add_0_r (count (in_previous E) _)) in *.
    cbn [set_state state]. rewrite (inv_word _ _ _ Hinv). by apply inc_thread_count_pack.
  - done.
  - intros u y _ _ _. split; [|done]. unfold in_previous. cbn [snd]. by rewrite Z.eqb_refl.
  - split; [apply Hinv|by left].
  - by apply (orphans_keep n E s t (th, Registering (state (global s)))).
  - apply Hinv.
Qed.

Lemma registering_wait_step th e sp o :
  threads s !! t = Some (th, Registering_wait e) → emptied (th, Registering_wait e) →
  continue (global s) th (Registering_wait e) sp = Some o →
  inv (n + 1) E (after s t (o_global o) (o_thread o, o_pc o) (o_freed o)).
Proof.
  intros Ht [Hl1 Hl2] Ho. unfold continue in Ho. rewrite (inv_get_epoch _ _ _ Hinv) in Ho. unfold epoch_eqb in Ho.
  destruct (Z.eqb_spec E e) as [<-|Hne]; cbn [negb] in Ho; injection Ho as <-; cbn [o_global o_thread o_pc o_freed]; [by apply (same_place (th, Registering_wait E))|].
  assert (Hin : in_previous E (th, Registering_wait e) = true).
  { unfold in_previous. cbn [snd]. by rewrite (proj2 (Z.eqb_neq e E)). }
  same_epoch_step n E s t (th, Registering_wait e) Hinv.
  - apply (word_same n E s t (th, Registering_wait e)); [done..|]. cbn [o_thread o_pc]. by rewrite registered_in_previous.
  - done.
  - intros u y Hu Hy Hc. by destruct (Hu (eq_sym (in_previous_no_changer n E s Hinv t _ u y Ht Hin Hy Hc))).
  - by apply registered_member.
  - by apply (orphans_keep n E s t (th, Registering_wait e)).
  - apply Hinv.
Qed.
(** ** Leaving the previous epoch *)

Lemma leaving_step th single e :
  threads s !! t = Some (th, Leaving_previous single e) →
  let o := remove_thread_from_previous_epoch (global s) single e th in
  inv (n + 1) E (after s t (o_global o) (o_thread o, o_pc o) (o_freed o)).
Proof.
  intros Ht. set (x := (th, Leaving_previous single e)) in *.
  pose proof (inv_threads _ _ _ Hinv t _ Ht) as Hok. unfold thread_ok in Hok; cbn [x fst snd] in Hok.
  pose proof Hok as (Hm & Hlsq & Hqs & He & Hcur).
  assert (Hin : in_previous E x = true) by (unfold in_previous, unquiescent; cbn [x fst snd]; by rewrite Hqs, orb_true_r).
  pose proof (count_pos _ _ _ _ Ht Hin) as Hpos.
  assert (Hnoc : ∀ u y, u ≠ t → threads s !! u = Some y → changer y = true → False).
  { intros u y Hu Hy Hc. by destruct (Hu (eq_sym (in_previous_no_changer n E s Hinv t _ u y Ht Hin Hy Hc))). }
  assert (Hw : ∀ x', counted x' = true → in_previous E x' = false →
    state (set_state (Words.wrap64 (state (global s) - 1)) (global s)) =
    pack E (count counted (<[t:=x']> (threads s))) (count (in_previous E) (<[t:=x']> (threads s)))).
  { intros x' H1 H2. pose proof (insert_fits n E s t x' Hinv) as Hfit.
    rewrite !(count_insert _ _ _ _ _ Ht), H1, H2, Hin in *. cbn [x counted snd Z.b2z set_state state] in *.
    rewrite Z.sub_add, Z.add_0_r, (inv_word _ _ _ Hinv) in *. pose proof (fetch_dec_pack _ _ _ Hfit) as Hd. by injection Hd. }
  unfold remove_thread_from_previous_epoch, atomic_fetch_dec_threads_in_previous_epoch.
  rewrite (inv_get_previous _ _ _ Hinv). destruct (Z.ltb_spec 1 (count (in_previous E) (threads s))) as [H1|H1].
  - unfold quiescent_end, epoch_eqb. rewrite Hlsq, He, Z.eqb_refl, Hqs. cbn [negb goes_on fst snd o_global o_thread o_pc o_freed].
    change (Words.wrap64 (0 + 1)) with 1.
    same_epoch_step n E s t x Hinv.
    + apply Hw; [done|]. unfold in_previous, unquiescent. simpl. by rewrite Z.eqb_refl.
    + done.
    + intros u y Hu Hy Hc. by destruct (Hnoc u y Hu Hy Hc).
    + destruct Hm as (H2 & H3 & H4 & H5). split; [simpl; lia|]. split; [apply Hinv|]. split; [|done].
      left. split; [done|]. simpl. destruct H4 as [[_ H4]|[H4 _]]; [done|]. rewrite Hlsq in H4.
      by destruct (advance_ne E (inv_epoch _ _ _ Hinv)).
    + by apply (orphans_keep n E s t x).
    + apply Hinv.
  - cbn [o_global o_thread o_pc o_freed]. set (x' := (th, Changing_handle _ _ _ _)).
    same_epoch_step n E s t x Hinv.
    + by apply Hw.
    + intros _. right. by apply (in_previous_changer_0 n E s Hinv t x).
    + intros u y Hu Hy Hc. by destruct (Hnoc u y Hu Hy Hc).
    + split; [split; [by apply member_mono|done]|]. split.
      * rewrite (count_insert _ _ _ _ _ Ht), Hin. simpl. lia.
      * split; [|constructor]. intros Hs. apply no_running_insert; [|done].
        by apply (single_no_running n E s Hinv t x).
    + by apply (orphans_keep n E s t x).
    + apply Hinv.
Qed.

(** ** Handling the orphans *)

Lemma handle_step th ctx single h g' h' f :
  threads s !! t = Some (th, ctx (Some h)) →
  (∀ k, counted (th, ctx k) = true ∧ changer (th, ctx k) = true ∧ is_running (th, ctx k) = false ∧
        moved (th, ctx k) = (match k with None => true | Some _ => false end) ∧
        in_previous E (th, ctx k) = in_previous E (th, ctx (Some h))) →
  count (in_previous E) (threads s) = Z.b2z (in_previous E (th, ctx (Some h))) →
  (∀ k P nr, thread_ok n E (grade E s) own P nr (th, ctx (Some k)) ↔
     thread_ok n E (grade E s) own P nr (th, ctx None) ∧ handling_ok (grade E s) nr single k) →
  handle_orphans single h (global s) = Some (g', h', f) →
  inv (n + 1) E (after s t g' (th, ctx h') f).
Proof.
  intros Ht Hctx Hlast Hok Hh. destruct (Hctx (Some h)) as (Hc & Hch & Hr & Hm & _). destruct (Hctx h') as (Hc' & Hch' & Hr' & Hm' & Hi').
  assert (Hnone : ∀ q, own q) by (intros q; by apply (not_running_holds_none n E s Hinv t (th, ctx (Some h)))).
  pose proof (inv_threads _ _ _ Hinv t _ Ht) as Hx. apply Hok in Hx as [Hbase [Hnr Hreqs]].
  pose proof (previous_grade_1 n E s t (th, ctx (Some h)) Hinv Ht Hch Hm) as Hprev1.
  pose proof (previous_grade_2 n E s Hinv) as Hprev2.
  pose proof (inv_current _ _ _ Hinv) as Hcur2.
  assert (H10 : ∀ l, Forall (grade E s 1) l → Forall (grade E s 0) l).
  { intros l Hl. eapply Forall_impl; [exact Hl|]. intros q. by apply (last_unquiescent_grade n E s t _ Hinv Ht Hnone). }
  assert (H20 : single = true → ∀ l, Forall (grade E s 2) l → Forall (grade E s 0) l).
  { intros Hs l Hl. eapply Forall_impl; [exact Hl|]. intros q [Hq _]. split; [done|].
    apply (no_running_hold n E s Hinv). by apply Hnr. }
  assert (Hgoal : state g' = state (global s) → Forall (grade E s 0) f →
    Forall (grade E s 2) (free_orphan_list (orphaned_current_interval_dealloc_requests g')) →
    Forall (grade E s (match h' with Some _ => 1 | None => 2 end)) (free_orphan_list (orphaned_previous_interval_dealloc_requests g')) →
    match h' with Some k => Forall (grade E s (match k with Take_current _ => 0 | _ => 2 end)) (handling_requests k) | None => True end →
    inv (n + 1) E (after s t g' (th, ctx h') f)).
  { intros Hw Hf Hcur Hprev Hreq'. same_epoch_step n E s t (th, ctx (Some h)) Hinv.
    - rewrite Hw. apply (word_same n E s t (th, ctx (Some h))); [done|done|congruence|done].
    - by left.
    - intros u y _ _ _. split; [done|congruence].
    - assert (Hx' : thread_ok n E (grade E s) own (count (in_previous E) (threads s)) (no_running (threads s)) (th, ctx h')).
      { destruct h' as [k|]; [|done]. apply Hok. done. }
      eapply thread_ok_mono; [| | | |exact Hx']; [lia|done|done|]. intros _. split.
      + rewrite (count_insert _ _ _ _ _ Ht), Hi'. lia.
      + intros Hn0. by apply no_running_insert.
    - destruct h'; [by apply orphans_1|by eapply orphans_moved].
    - done.
    - done. }
  destruct h as [|l|l|l]; cbn [handle_orphans handling_requests] in *.
  - injection Hh as <- <- <-. apply Hgoal; try done. by apply H10.
  - destruct single; cbn [negb] in Hh; injection Hh as <- <- <-; apply Hgoal; try done; try constructor.
    apply Forall_app. split; [done|by apply H20].
  - destruct (orphaned_previous_interval_dealloc_requests (global s)) eqn:Hp; injection Hh as <- <- <-.
    + by apply Hgoal.
    + apply Hgoal; try done. by rewrite Hp.
  - destruct (orphaned_previous_interval_dealloc_requests (global s)) as [|a l'] eqn:Hp; [done|]. injection Hh as <- <- <-.
    apply Hgoal; try done. change (orphaned_previous_interval_dealloc_requests _) with ((a :: l') ++ l).
    rewrite free_orphan_list_app. by apply Forall_app.
Qed.

Lemma changing_handle_step th single e os h sp o :
  threads s !! t = Some (th, Changing_handle single e os h) →
  continue (global s) th (Changing_handle single e os h) sp = Some o →
  inv (n + 1) E (after s t (o_global o) (o_thread o, o_pc o) (o_freed o)).
Proof.
  intros Ht Ho. unfold continue in Ho. destruct (handle_orphans os h (global s)) as [[[g' h'] f]|] eqn:Hh; [|done].
  pose (ctx (k : option handling) := match k with Some k => Changing_handle single e os k | None => Changing_load single e end).
  assert (Ho' : o = Outcome g' th (ctx h') f) by (destruct h'; by injection Ho). subst o.
  pose proof (inv_threads _ _ _ Hinv t _ Ht) as Hok.
  apply (handle_step th ctx os h g' h' f Ht); [by intros []| |intros k P nr; unfold thread_ok; simpl; tauto|done].
  destruct Hok as (_ & HP & _). by rewrite HP.
Qed.

Lemma unregistering_handle_step th w h sp o :
  threads s !! t = Some (th, Unregistering_handle w h) →
  continue (global s) th (Unregistering_handle w h) sp = Some o →
  inv (n + 1) E (after s t (o_global o) (o_thread o, o_pc o) (o_freed o)).
Proof.
  intros Ht Ho. unfold continue in Ho. destruct (handle_orphans (single_thread_mode w) h (global s)) as [[[g' h'] f]|] eqn:Hh; [|done].
  pose (ctx (k : option handling) := match k with Some k => Unregistering_handle w k | None => Unregistering true w end).
  assert (Ho' : o = Outcome g' th (ctx h') f) by (destruct h'; by injection Ho). subst o.
  pose proof (inv_threads _ _ _ Hinv t _ Ht) as Hok.
  apply (handle_step th ctx (single_thread_mode w) h g' h' f Ht); [by intros []| |intros k P nr; unfold thread_ok; simpl; tauto|done].
  destruct Hok as (_ & HP & Hu & _). rewrite HP. unfold in_previous. simpl in *. by rewrite Hu.
Qed.
(** ** Changing the epoch *)

Lemma changing_step th single e w sp :
  threads s !! t = Some (th, Changing single e w) →
  let o := change_epoch (global s) single e w sp th in
  inv (n + 1) E (after s t (o_global o) (o_thread o, o_pc o) (o_freed o)) ∨
  inv (n + 1) (advance E 1) (after s t (o_global o) (o_thread o, o_pc o) (o_freed o)).
Proof.
  intros Ht. set (x := (th, Changing single e w)) in *.
  pose proof (inv_threads _ _ _ Hinv t _ Ht) as [(Hm & Hlsq & Hqs & He & Hcur) HP]. cbn [x fst] in *.
  unfold change_epoch. destruct (negb sp && (state (global s) =? w)) eqn:Hcas.
  2: { left. cbn [o_global o_thread o_pc o_freed]. by apply (same_place x). }
  apply andb_prop in Hcas as [_ Hw%Z.eqb_eq]. subst w. right.
  pose proof (inv_epoch _ _ _ Hinv) as HE. pose proof (advance_ne E HE) as Hne.
  unfold quiescent_end, epoch_eqb. rewrite He, Hlsq, (proj2 (Z.eqb_neq _ _) Hne), Hqs. cbn [negb].
  destruct (execute_previous_requests _ _ _ _) as [th' f] eqn:Hex. cbn [goes_on fst snd o_global o_thread o_pc o_freed].
  destruct Hm as (H1 & H2 & H3 & H4 & H5 & H6).
  assert (Hls : last_seen_epoch th = E) by (destruct H3 as [[_ H3]|[H3 _]]; [done|by rewrite Hlsq in H3]).
  assert (Hf : Forall (grade E s 1) f ∧ last_seen_quiescent_state_epoch th' = advance E 1 ∧
    quiescent_states_since_epoch_change th' = 0 ∧ last_seen_epoch th' = advance E 1 ∧ current_interval_dealloc_requests th' = [] ∧
    Forall (grade E s 2) (previous_interval_dealloc_requests th')).
  { unfold execute_previous_requests in Hex. destruct single; cbn [negb] in Hex; injection Hex as <- <-; split_and!; try done.
    - apply Forall_app. split; [|by apply H5]. eapply Forall_impl; [exact (Hcur eq_refl)|]. apply grade_S.
    - by apply H5.
    - simpl. eapply Forall_impl; [exact H4|]. by intros q [Hq _]. }
  destruct Hf as (Hf & Ha & Hb' & Hc & Hd & Hp).
  assert (Hin' : in_previous (advance E 1) (th', Running) = true) by (unfold in_previous, unquiescent; simpl; by rewrite Hb', orb_true_r).
  assert (Hcnt : count counted (<[t:=(th', Running)]> (threads s)) = count counted (threads s)).
  { rewrite (count_insert _ _ _ _ _ Ht). simpl. lia. }
  apply (next_epoch n E s t x); try done.
  - intros u y _ Hy. by apply (count_zero _ _ _ _ HP Hy).
  - rewrite Hcnt. cbn [set_state state]. rewrite (inv_word _ _ _ Hinv).
    by apply inc_epoch_reset_previous_pack, count_fits; apply Hinv.
  - intros Hmono. unfold thread_ok. cbn [fst snd]. split; [lia|]. split; [rewrite Ha; by apply advance_range|]. split; [by left|].
    unfold lists_ok. cbn [fst]. rewrite Hc, Hd. split; [done|]. split; [|done]. intros _.
    eapply Forall_impl; [exact Hp|]. apply (Hmono 2%nat).
Qed.

(** ** Unregistering *)

Lemma unregistering_fail th prepared w :
  threads s !! t = Some (th, Unregistering prepared w) →
  inv (n + 1) E (after s t (global s) (th, unregister_thread prepared (state (global s)) th) []).
Proof.
  intros Ht. set (x := (th, Unregistering prepared w)) in *.
  pose proof (inv_threads _ _ _ Hinv t _ Ht) as Hok.
  assert (Hm : member n E (grade E s) own th) by (destruct prepared; apply Hok).
  assert (Hprep : prepared = true → count (in_previous E) (threads s) = 1 ∧ unquiescent E th = true) by (intros ->; apply Hok).
  assert (Hnone : ∀ q, own q) by (intros q; by apply (not_running_holds_none n E s Hinv t x)).
  destruct (unregister_turn n E s t th _ prepared own Hinv Ht Hnone (or_intror (ex_intro _ w eq_refl)) Hm Hprep)
    as (Hok' & Hc & Hp & Hmv & Hr & Hch).
  same_epoch_step n E s t x Hinv.
  - by apply (word_same n E s t x).
  - intros H. destruct (Hch H) as [->|]; [by left|by right].
  - intros u y _ _ _. split; [done|congruence].
  - eapply thread_ok_mono; [| | | |exact Hok']; [lia|done|done|done].
  - apply (orphans_keep n E s t x); try done. rewrite Hmv. by destruct prepared.
  - apply Hinv.
Qed.

(** A thread that leaves with its requests orphaned, the epoch staying. *)
Lemma unregistering_leave th prepared w th' f w' :
  threads s !! t = Some (th, Unregistering prepared w) → prepared = false →
  Forall (grade E s 1) (previous_interval_dealloc_requests th') → Forall (grade E s 2) (current_interval_dealloc_requests th') →
  Forall (grade E s 0) f →
  w' = pack E (count counted (threads s) - 1) (count (in_previous E) (threads s) - Z.b2z (unquiescent E th)) →
  inv (n + 1) E (after s t (set_state w' (global s)) (orphan_pending_requests th') f).
Proof.
  intros Ht -> H1 H2 Hf Hw. set (x := (th, Unregistering false w)) in *.
  destruct (orphan_shape th') as (Hc & Hp & Hch & Hmv & Hr).
  apply (continue_same n E s t x); [done|done|intros q; by apply (not_running_holds_none n E s Hinv t x)|..|done].
  - cbn [set_state state]. rewrite !(count_insert _ _ _ _ _ Ht), Hc, Hp, Hw. cbn [Z.b2z]. by rewrite !Z.add_0_r.
  - by rewrite Hch.
  - intros u y Hu Hy Hcy. rewrite Hp, Hr. split; [|done]. destruct (in_previous E x) eqn:Hin; [|done].
    by destruct (Hu (eq_sym (in_previous_no_changer n E s Hinv t _ u y Ht Hin Hy Hcy))).
  - by apply orphan_ok.
  - by apply (orphans_keep n E s t x).
  - apply Hinv.
Qed.

(** The last thread to be quiescent leaves, and the epoch advances. *)
Lemma unregistering_advance th w th1 f1 th2 f2 :
  threads s !! t = Some (th, Unregistering true w) → member n E (grade E s) own th1 → last_seen_epoch th1 = E →
  Forall (grade E s 0) f1 →
  execute_previous_requests (single_thread_mode (state (global s))) (advance E 1) [] th1 = (th2, f2) →
  inv (n + 1) (advance E 1)
    (after s t (set_state (inc_epoch_dec_thread_count_reset_previous (state (global s))) (global s))
       (orphan_pending_requests th2) (f1 ++ f2)).
Proof.
  intros Ht Hm Hls Hf1 Hex. set (x := (th, Unregistering true w)) in *.
  pose proof (inv_threads _ _ _ Hinv t _ Ht) as (_ & HP & Hu). cbn [x fst] in *.
  assert (Hin : in_previous E x = true) by done.
  assert (Hnone : ∀ q, own q) by (intros q; by apply (not_running_holds_none n E s Hinv t x)).
  destruct (orphan_shape th2) as (Hc & Hp & Hch & Hmv & Hr). destruct Hm as (_ & _ & _ & H4 & H5 & _). specialize (H5 Hls).
  assert (H2 : Forall (grade E s 2) (current_interval_dealloc_requests th1)).
  { eapply Forall_impl; [exact H4|]. by intros q [Hq _]. }
  assert (Hf : Forall (grade E s 1) f2 ∧ current_interval_dealloc_requests th2 = [] ∧
               Forall (grade E s 2) (previous_interval_dealloc_requests th2)).
  { unfold execute_previous_requests in Hex. destruct (single_thread_mode (state (global s))) eqn:Hs; cbn [negb] in Hex;
      injection Hex as <- <-; split_and!; try done.
    apply Forall_app. split; [|done]. eapply Forall_impl; [exact H2|]. intros q Hq. apply grade_S.
    by apply (single_grade n E s t x Hinv Ht Hnone 2). }
  destruct Hf as (Hf2 & Hcur & Hprev).
  pose proof (count_pos _ _ _ _ Ht (in_previous_counted _ _ Hin)) as Hcp.
  apply (next_epoch n E s t x); try done.
  - intros u y Huy Hy. destruct (in_previous E y) eqn:Hy'; [|done].
    pose proof (count_two _ _ _ _ _ _ Hy Ht Huy Hy' Hin). lia.
  - by rewrite Hp, Hc.
  - cbn [set_state state]. rewrite (count_insert _ _ _ _ _ Ht), Hc. cbn [x counted snd Z.b2z]. rewrite Z.add_0_r.
    rewrite (inv_word _ _ _ Hinv). apply inc_epoch_dec_thread_count_reset_previous_pack; [apply count_fits; apply Hinv|lia].
  - intros Hmono. apply orphan_ok; [|by rewrite Hcur]. eapply Forall_impl; [exact Hprev|]. apply (Hmono 2%nat).
  - apply Forall_app. split; [|done]. eapply Forall_impl; [exact Hf1|]. apply grade_S.
Qed.
Lemma unquiescent_seen th :
  member n E (grade E s) own th → unquiescent E th = false → last_seen_epoch th = E.
Proof.
  intros (_ & _ & H3 & _) Hu. unfold unquiescent in Hu. apply orb_false_iff in Hu as [Hu _].
  apply negb_false_iff, Z.eqb_eq in Hu. destruct H3 as [[_ H3]|[H3 _]]; [done|]. rewrite Hu in H3.
  by destruct (advance_ne E (inv_epoch _ _ _ Hinv)).
Qed.

(** The word after a thread has left without ending the epoch. *)
Lemma leave_word th p :
  threads s !! t = Some (th, p) → counted (th, p) = true → in_previous E (th, p) = unquiescent E th →
  (if unquiescent E th then dec_thread_count_and_threads_in_previous_epoch (state (global s)) else dec_thread_count (state (global s))) =
  pack E (count counted (threads s) - 1) (count (in_previous E) (threads s) - Z.b2z (unquiescent E th)).
Proof.
  intros Ht Hc Hp. pose proof (insert_fits n E s t (th, Paused) Hinv) as Hfit.
  rewrite !(count_insert _ _ _ _ _ Ht), Hc, Hp in Hfit. cbn [counted in_previous snd Z.b2z] in Hfit. rewrite !Z.add_0_r in Hfit.
  rewrite (inv_word _ _ _ Hinv). destruct (unquiescent E th); cbn [Z.b2z] in *; [by apply dec_both_pack|].
  rewrite Z.sub_0_r in *. by apply dec_thread_count_pack.
Qed.

Lemma unregistering_step th prepared w sp o :
  threads s !! t = Some (th, Unregistering prepared w) →
  continue (global s) th (Unregistering prepared w) sp = Some o →
  inv (n + 1) E (after s t (o_global o) (o_thread o, o_pc o) (o_freed o)) ∨
  inv (n + 1) (advance E 1) (after s t (o_global o) (o_thread o, o_pc o) (o_freed o)).
Proof.
  intros Ht Ho. unfold continue in Ho.
  destruct (negb sp && (state (global s) =? w)) eqn:Hcas; injection Ho as <-; cbn [o_global o_thread o_pc o_freed goes_on];
    [|left; by apply (unregistering_fail th prepared w)].
  apply andb_prop in Hcas as [_ Hw%Z.eqb_eq]. subst w. set (x := (th, Unregistering prepared (state (global s)))) in *.
  pose proof (inv_threads _ _ _ Hinv t _ Ht) as Hok.
  assert (Hm : member n E (grade E s) own th) by (destruct prepared; apply Hok).
  assert (Hprep : prepared = true → count (in_previous E) (threads s) = 1 ∧ unquiescent E th = true) by (intros ->; apply Hok).
  assert (Hnone : ∀ q, own q) by (intros q; by apply (not_running_holds_none n E s Hinv t x)).
  pose proof (leave_word th _ Ht eq_refl eq_refl) as Hleave.
  unfold unregister_end, unregister_new_state, remove_thread_from_old_epoch, epoch_eqb.
  rewrite (inv_get_previous _ _ _ Hinv), (inv_get_epoch _ _ _ Hinv), (inv_advance_epoch _ _ _ Hinv).
  change (negb (last_seen_quiescent_state_epoch th =? E) || (quiescent_states_since_epoch_change th =? 0)) with (unquiescent E th).
  destruct (Z.eqb_spec (count (in_previous E) (threads s)) 0) as [Hz|Hz].
  - left. assert (Hp : prepared = false) by (destruct prepared; [destruct (Hprep eq_refl); lia|done]).
    assert (Hu : unquiescent E th = false) by (apply (count_zero _ _ _ _ Hz Ht)). rewrite Hu in Hleave.
    pose proof (unquiescent_seen th Hm Hu) as Hls. destruct Hm as (_ & _ & _ & H4 & H5 & _).
    rewrite <- surjective_pairing.
    apply (unregistering_leave th prepared (state (global s))); try done; [by apply H5| |by rewrite Hleave, Hu].
    eapply Forall_impl; [exact H4|]. by intros q [Hq _].
  - destruct (advance_last_seen_epoch _ _ _ _) as [th1 f1] eqn:Ha.
    destruct (advance_ok n E (grade E s) own _ _ _ _ Hm (λ Hs q Hg _, single_grade n E s t x Hinv Ht Hnone 2 q Hs eq_refl Hg) Ha)
      as (Hf1 & Hm1 & Hls & _).
    destruct (unquiescent E th && (count (in_previous E) (threads s) =? 1)) eqn:Hadv.
    + right. apply andb_prop in Hadv as [Hu H1%Z.eqb_eq]. rewrite Hu. cbn [dec_thread_count_threads_in_previous_epoch_maybe_advance].
      destruct (execute_previous_requests _ _ _ _) as [th2 f2] eqn:Hex. cbn [fst snd]. rewrite <- surjective_pairing.
      assert (Hp : prepared = true).
      { destruct prepared; [done|]. destruct Hok as [_ [H0|H0]].
        - rewrite (inv_get_previous _ _ _ Hinv) in H0. by destruct Hz.
        - rewrite (inv_advance_epoch _ _ _ Hinv) in H0. cbn [x fst] in H0. rewrite Hu, H1 in H0. done. }
      unfold x in Ht. rewrite Hp in Ht. by apply (unregistering_advance th (state (global s)) th1 f1 th2 f2).
    + left. assert (Hp : prepared = false).
      { destruct prepared; [|done]. destruct (Hprep eq_refl) as [H1 Hu]. rewrite H1, Hu in Hadv. done. }
      cbn [fst snd dec_thread_count_threads_in_previous_epoch_maybe_advance]. rewrite <- surjective_pairing, app_nil_r.
      destruct Hm1 as (_ & _ & _ & H4 & H5 & _).
      apply (unregistering_leave th prepared (state (global s))); try done; [by apply H5|].
      eapply Forall_impl; [exact H4|]. by intros q [Hq _].
Qed.

(** ** Orphaning *)

Lemma orphaning_load_step th i sp o :
  threads s !! t = Some (th, Orphaning_load i) →
  continue (global s) th (Orphaning_load i) sp = Some o →
  inv (n + 1) E (after s t (o_global o) (o_thread o, o_pc o) (o_freed o)).
Proof.
  intros Ht Ho. unfold continue, add_to_orphan_list in Ho.
  destruct i; [destruct (previous_interval_orphan_list_node th)|destruct (current_interval_orphan_list_node th)]; try done;
    injection Ho as <-; cbn [o_global o_thread o_pc o_freed]; (eapply same_place; [exact Ht|done..|]);
    intros P nr [H1 H2]; (split; [|split]); simpl; done.
Qed.

Lemma orphan_current_shape th :
  let x' := orphan_current th in
  counted x' = false ∧ (∀ e, in_previous e x' = false) ∧ changer x' = false ∧ moved x' = false ∧ is_running x' = false.
Proof using Type. unfold orphan_current. by destruct (current_interval_dealloc_requests th). Qed.

Lemma orphaning_step th i node next sp o :
  threads s !! t = Some (th, Orphaning i node next) → emptied (th, Orphaning i node next) →
  continue (global s) th (Orphaning i node next) sp = Some o →
  inv (n + 1) E (after s t (o_global o) (o_thread o, o_pc o) (o_freed o)).
Proof.
  intros Ht Hem Ho. pose proof (inv_threads _ _ _ Hinv t _ Ht) as (H1 & H2 & H3). cbn [fst] in *.
  set (x := (th, Orphaning i node next)) in *. unfold continue in Ho.
  destruct i; destruct (_ && _);
    [destruct (orphan_current th) as [th' p'] eqn:Hoc| |destruct (orphan_end th) as [th' p'] eqn:Hoc|]; injection Ho as <-;
    cbn [o_global o_thread o_pc o_freed]; try (by apply (same_place x)).
  - destruct (orphan_current_shape th) as (Hc & Hp & Hch & Hmv & Hr). rewrite Hoc in *.
    same_epoch_step n E s t x Hinv.
    + by apply (word_same n E s t x).
    + congruence.
    + intros u y _ _ _. by rewrite Hp, Hr.
    + rewrite <- Hoc. unfold orphan_current. destruct (current_interval_dealloc_requests th) eqn:Ec; [done|]. split; cbn [fst]; [done|by rewrite Ec].
    + unfold previous_orphans_ok. change (free_orphan_list _) with
        (node_requests node ++ free_orphan_list (orphaned_previous_interval_dealloc_requests (global s))).
      apply Forall_app. split; [|by apply (orphans_keep n E s t x)].
      destruct (_ =? 0); [done|]. eapply Forall_impl; [exact H3|]. apply grade_S.
    + apply Hinv.
  - injection Hoc as <- <-. same_epoch_step n E s t x Hinv.
    + by apply (word_same n E s t x).
    + done.
    + done.
    + done.
    + by apply (orphans_keep n E s t x).
    + change (free_orphan_list _) with
        (node_requests node ++ free_orphan_list (orphaned_current_interval_dealloc_requests (global s))).
      apply Forall_app. split; [done|apply Hinv].
Qed.
End step.

(** ** Every step *)

Theorem qsbr_step_inv n E s s' e :
  0 ≤ n → n + 1 < 2 ^ 62 → Forall emptied (threads s) → requested_once e s = true → undisturbed e s = true →
  inv n E s → qsbr_step e s = Some s' → ∃ E', inv (n + 1) E' s'.
Proof.
  intros Hn Hb Hem Honce Hcalm Hinv Hs. unfold qsbr_step in Hs. destruct e as [t ev].
  destruct (threads s !! t) as [[th p]|] eqn:Ht; [|done].
  destruct (thread_step (global s) (next_node s) th p ev) as [o|] eqn:Ho; [|done]. injection Hs as <-.
  pose proof (Forall_lookup_1 _ _ _ _ Hem Ht) as He.
  destruct ev as [| |q| | | |sp]; cbn [thread_step note_event] in *.
  - exists E. destruct p; try discriminate Ho. injection Ho as <-.
    eapply inv_ext; [..|apply (paused_step n E s t th Hinv); [exact Ht|right; by eexists]]; done.
  - exists E. destruct p; try discriminate Ho. injection Ho as <-.
    eapply inv_ext; [..|apply (paused_step n E s t th Hinv); [exact Ht|right; by eexists]]; done.
  - exists E. destruct p; try discriminate Ho. unfold call in Ho.
    destruct (on_next_epoch_deallocate (state (global s)) q th) as [th' f] eqn:Hd. injection Ho as <-.
    apply (deallocate_step n E s t th Hinv Hn Hb q th' f (next_node s) Ht); [|done].
    unfold requested_once in Honce. simpl in Honce. by apply negb_true_iff, bool_decide_eq_false in Honce.
  - exists E. destruct p; try discriminate Ho. unfold call in Ho.
    destruct (quiescent (state (global s)) th) as [[th' p'] f] eqn:Hq. injection Ho as <-.
    eapply inv_ext; [..|exact (quiescent_step n E s t th Hinv Hn Hb th' p' f Ht Hq)]; done.
  - exists E. destruct p; try discriminate Ho. injection Ho as <-.
    eapply inv_ext; [..|exact (pause_step n E s t th Hinv Hn Hb Ht)]; done.
  - exists E. destruct p; try discriminate Ho; injection Ho as <-.
    + eapply inv_ext; [..|exact (pause_step n E s t th Hinv Hn Hb Ht)]; done.
    + eapply inv_ext; [..|apply (paused_step n E _ t th (inv_release n E s t Hinv) th Paused); [exact Ht|by left]]; done.
  - change (∃ E', inv (n + 1) E' (after s t (o_global o) (o_thread o, o_pc o) (o_freed o))).
    destruct p as [| |w|e|b e|b e os h|b e|b e w|w h|prep w|i|i node next].
    + done.
    + done.
    + exists E. eapply registering_step; try done.
      unfold undisturbed in Hcalm. simpl in Hcalm. rewrite Ht in Hcalm. by apply Z.eqb_eq.
    + exists E. by eapply registering_wait_step.
    + exists E. injection Ho as <-. by apply leaving_step.
    + exists E. by eapply changing_handle_step.
    + exists E. injection Ho as <-. by eapply same_place.
    + injection Ho as <-. destruct (changing_step n E s t Hinv Hn th b e w sp Ht); eauto.
    + exists E. by eapply unregistering_handle_step.
    + destruct (unregistering_step n E s t Hinv th prep w sp o Ht Ho); eauto.
    + exists E. by eapply orphaning_load_step.
    + exists E. by eapply orphaning_step.
Qed.
