(* ===== verification/QsbrTheorems.v ===== *)
(** What the reclamation promises: nothing is freed while another thread may
    hold it, nothing is lost or freed twice, and the state word counts the
    threads.  The last theorem shows what the first needs: a thread that
    registers while another ends the epoch by unregistering breaks it. *)

From S2P Require Import Prelude Threads QsbrState Qsbr QsbrRequests QsbrInv QsbrSteps QsbrSafety QsbrContinue.

(** The executions considered: pointers requested once, and no registration
    in the window in which an unregistering thread ends the epoch. *)
Definition proper (e : nat * event) (s : system) : bool := requested_once e s && undisturbed e s.

Lemma qsbr_initial_inv nt : Z.of_nat nt ≤ max_qsbr_threads → inv 0 0 (qsbr_initial nt).
Proof.
  intros Hnt.
  assert (Hz : ∀ P : qsbr_per_thread * pc → bool, P (no_thread, Paused) = false → count P (threads (qsbr_initial nt)) = 0)
    by (intros P HP; by apply count_replicate).
  split; try done.
  - unfold qsbr_initial. cbn [threads]. by rewrite length_replicate.
  - by rewrite !Hz.
  - intros t x Ht. unfold qsbr_initial in Ht. cbn [threads] in Ht. by apply lookup_replicate in Ht as [-> _].
  - by rewrite Hz.
Qed.

Lemma qsbr_reachable_inv es nt s :
  Z.of_nat nt ≤ max_qsbr_threads → run qsbr_step es (qsbr_initial nt) = Some s →
  along qsbr_step proper es (qsbr_initial nt) = true → Z.of_nat (length es) < 2 ^ 62 →
  ∃ E, inv (Z.of_nat (length es)) E s.
Proof.
  intros Hnt Hrun Hproper Hlen.
  apply (run_invariant qsbr_step proper (λ n s, conserved s ∧ ∃ E, inv n E s) (2 ^ 62) es (qsbr_initial nt) s); try done.
  - intros n e s1 s2 Hn Hb Hp [Hc [E Hinv]] Hs. apply andb_prop in Hp as [H1 H2].
    split; [by apply (qsbr_step_conserved e s1)|]. apply (qsbr_step_inv n E s1 s2 e); try done. apply Hc.
  - split; [by apply (qsbr_conserved [] nt)|]. exists 0. by apply qsbr_initial_inv.
Qed.

(** Two threads; the first requests a deallocation, both then pass through
    quiescent states until it is executed. *)
Definition register (t : nat) : list (nat * event) := [(t, Construct); (t, Continue false)].
Definition pass (t : nat) : list (nat * event) := [(t, Quiescent); (t, Continue false)].
Definition change (t : nat) : list (nat * event) :=
  [(t, Quiescent); (t, Continue false); (t, Continue false); (t, Continue false); (t, Continue false);
   (t, Continue false); (t, Continue true); (t, Continue false)].
Definition two_epochs : list (nat * event) :=
  register 0 ++ register 1 ++ [(0%nat, Deallocate 100)] ++ pass 0 ++ change 1 ++ pass 0 ++ change 1 ++ pass 0.
Definition qsbr_after (nt : nat) (es : list (nat * event)) : system :=
  default (qsbr_initial 0) (run qsbr_step es (qsbr_initial nt)).

(** C18: No memory is freed while another thread may hold a pointer to it:
    whenever a deallocation is executed, every thread that was running when it
    was requested has since been quiescent or has paused.  For any number of
    threads and any interleaving of their steps, provided that no pointer is
    requested twice and that no thread registers while another is ending the
    epoch by unregistering. *)
Theorem qsbr_frees_only_unheld (nt : nat) (es : list (nat * event)) (s : system)
    (Hnt : Z.of_nat nt ≤ max_qsbr_threads) (Hlen : Z.of_nat (length es) < 2 ^ 62)
    (Hrun : run qsbr_step es (qsbr_initial nt) = Some s)
    (Hproper : along qsbr_step proper es (qsbr_initial nt) = true) :
  Forall (λ '(p, holding), holding = ∅) (freed s).
Proof.
  destruct (qsbr_reachable_inv es nt s Hnt Hrun Hproper Hlen) as [E Hinv].
  eapply Forall_impl; [exact (inv_freed _ _ _ Hinv)|]. by intros [p h].
Qed.

Lemma qsbr_frees_only_unheld_witness :
  along qsbr_step proper two_epochs (qsbr_initial 2) = true ∧ fst <$> freed (qsbr_after 2 two_epochs) = [100] ∧
  Forall (λ '(p, holding), holding = ∅) (freed (qsbr_after 2 two_epochs)).
Proof.
  split; [vm_compute; reflexivity|]. split; [vm_compute; reflexivity|].
  apply (qsbr_frees_only_unheld 2 two_epochs); [vm_compute; discriminate|vm_compute; reflexivity|vm_compute; reflexivity|vm_compute; reflexivity].
Defined.

(** C19: No request is lost and none is executed twice: after any execution
    whatsoever, the requests made are, up to order, those executed and those
    still pending in some thread or orphan list. *)
Theorem qsbr_requests_conserved (nt : nat) (es : list (nat * event)) (s : system)
    (Hrun : run qsbr_step es (qsbr_initial nt) = Some s) :
  requested s ≡ₚ (fst <$> freed s) ++ pending s.
Proof. exact (proj1 (qsbr_conserved es nt s Hrun)). Qed.

Lemma qsbr_requests_conserved_witness :
  requested (qsbr_after 2 two_epochs) = [100] ∧
  requested (qsbr_after 2 two_epochs) ≡ₚ (fst <$> freed (qsbr_after 2 two_epochs)) ++ pending (qsbr_after 2 two_epochs).
Proof.
  split; [vm_compute; reflexivity|]. apply (qsbr_requests_conserved 2 two_epochs). vm_compute. reflexivity.
Defined.

(** C22: The state word counts the threads: its thread count is the number of
    registered threads, its second count the number of those that have yet to
    be quiescent in the epoch, and at most one thread is changing the epoch; in
    every execution in which no thread registers while another ends the epoch by
    unregistering, and no pointer is requested twice, of up to [max_qsbr_threads]
    threads and fewer than 2^62 steps. *)
Theorem qsbr_word_counts_threads (nt : nat) (es : list (nat * event)) (s : system)
    (Hnt : Z.of_nat nt ≤ max_qsbr_threads) (Hlen : Z.of_nat (length es) < 2 ^ 62)
    (Hrun : run qsbr_step es (qsbr_initial nt) = Some s)
    (Hproper : along qsbr_step proper es (qsbr_initial nt) = true) :
  let w := state (global s) in
  get_thread_count w = count counted (threads s) ∧
  get_threads_in_previous_epoch w = count (in_previous (get_epoch w)) (threads s) ∧
  get_threads_in_previous_epoch w ≤ get_thread_count w ≤ max_qsbr_threads ∧
  count changer (threads s) ≤ 1.
Proof.
  destruct (qsbr_reachable_inv es nt s Hnt Hrun Hproper Hlen) as [E Hinv]. cbv zeta.
  rewrite (inv_get_count _ _ _ Hinv), (inv_get_previous _ _ _ Hinv), (inv_get_epoch _ _ _ Hinv).
  split; [done|]. split; [done|]. split; [|apply Hinv]. split; [apply count_le, in_previous_counted|].
  apply (count_fits E); apply Hinv.
Qed.

Lemma qsbr_word_counts_threads_witness :
  get_thread_count (state (global (qsbr_after 2 (register 0 ++ register 1)))) = 2 ∧
  count changer (threads (qsbr_after 2 (register 0 ++ register 1))) ≤ 1.
Proof.
  split; [vm_compute; reflexivity|].
  apply (qsbr_word_counts_threads 2 (register 0 ++ register 1));
    [vm_compute; discriminate|vm_compute; reflexivity|vm_compute; reflexivity|vm_compute; reflexivity].
Defined.

(** Each change of the state word changes just the fields it means to,
    without a carry or a borrow between them, for all counts that fit their
    fields; the epoch goes round modulo four. *)
Theorem qsbr_word_fields (e c p : Z) (Hfits : fits e c p) :
  let fields w := (get_epoch w, get_thread_count w, get_threads_in_previous_epoch w) in
  let w := pack e c p in
  fields w = (e, c, p) ∧
  (c < max_qsbr_threads → fields (inc_thread_count w) = (e, c + 1, p)) ∧
  (0 < c → fields (dec_thread_count w) = (e, c - 1, p)) ∧
  (c < max_qsbr_threads → p < max_qsbr_threads →
    fields (inc_thread_count_and_threads_in_previous_epoch w) = (e, c + 1, p + 1)) ∧
  (0 < c → 0 < p → fields (dec_thread_count_and_threads_in_previous_epoch w) = (e, c - 1, p - 1)) ∧
  (0 < p → fields (snd (atomic_fetch_dec_threads_in_previous_epoch w)) = (e, c, p - 1)) ∧
  fields (inc_epoch_reset_previous w) = ((e + 1) mod 4, c, c) ∧
  (0 < c → fields (inc_epoch_dec_thread_count_reset_previous w) = ((e + 1) mod 4, c - 1, c - 1)).
Proof.
  assert (HF : ∀ e c p, fits e c p → (get_epoch (pack e c p), get_thread_count (pack e c p),
    get_threads_in_previous_epoch (pack e c p)) = (e, c, p)).
  { intros e' c' p' H. by rewrite get_epoch_pack, get_thread_count_pack, get_threads_in_previous_epoch_pack. }
  destruct Hfits as (He & Hc & Hp).
  assert (Hadv : advance e 1 = (e + 1) mod 4).
  { unfold epoch_max in He. assert (e = 0 ∨ e = 1 ∨ e = 2 ∨ e = 3) as [->|[->|[->| ->]]] by lia; done. }
  pose proof (advance_range e He) as Ha. cbv zeta. split_and!; intros.
  - by apply HF.
  - rewrite inc_thread_count_pack by (split; [done|lia]). apply HF. split; [done|lia].
  - rewrite dec_thread_count_pack by (split; [done|lia]). apply HF. split; [done|lia].
  - rewrite inc_both_pack by (split; [done|lia]). apply HF. split; [done|lia].
  - rewrite dec_both_pack by (split; [done|lia]). apply HF. split; [done|lia].
  - rewrite fetch_dec_pack by (split; [done|lia]). apply HF. split; [done|lia].
  - rewrite inc_epoch_reset_previous_pack, <- Hadv by done. apply HF. split; [done|lia].
  - rewrite inc_epoch_dec_thread_count_reset_previous_pack, <- Hadv by done. apply HF. split; [done|lia].
Qed.

Lemma qsbr_word_fields_witness :
  fits 3 5 2 ∧ (get_epoch (inc_epoch_reset_previous (pack 3 5 2)), get_thread_count (inc_epoch_reset_previous (pack 3 5 2)),
                get_threads_in_previous_epoch (inc_epoch_reset_previous (pack 3 5 2))) = (0, 5, 5).
Proof.
  assert (H : fits 3 5 2) by (repeat split; vm_compute; discriminate). split; [exact H|].
  exact (proj1 (proj2 (proj2 (proj2 (proj2 (proj2 (proj2 (qsbr_word_fields 3 5 2 H)))))))).
Defined.

(** Four threads.  The first is quiescent and goes on; the second requests the
    deallocation of something the first may hold, and leaves; the third, the
    last to be quiescent, starts to leave and moves the orphaned request to
    the previous interval; then the fourth registers, so that the third leaves
    without changing the epoch; the fourth is quiescent and changes it. *)
Definition registering_meanwhile : list (nat * event) :=
  register 0 ++ register 1 ++ register 2 ++ pass 0 ++
  [(1%nat, Deallocate 100); (1%nat, Pause); (1%nat, Continue false); (1%nat, Continue false); (1%nat, Continue false)] ++
  [(2%nat, Pause); (2%nat, Continue false); (2%nat, Continue false); (2%nat, Continue false)] ++
  register 3 ++
  [(2%nat, Continue false); (2%nat, Continue false)] ++
  [(3%nat, Quiescent); (3%nat, Continue false); (3%nat, Continue false); (3%nat, Continue false)].

(** C36: A thread that registers while another one ends the epoch by
    unregistering lets memory be freed too early: there is an execution, every
    step of which is one of the code and in which no pointer is requested
    twice, that frees memory which a running thread, not quiescent since the
    request, may still hold. *)
Theorem qsbr_registration_race_frees_early :
  ∃ s, run qsbr_step registering_meanwhile (qsbr_initial 4) = Some s ∧
    along qsbr_step requested_once registering_meanwhile (qsbr_initial 4) = true ∧
    ∃ h, (100, h) ∈ freed s ∧ 0%nat ∈ h ∧ is_running <$> threads s !! 0%nat = Some true.
Proof.
  exists (qsbr_after 4 registering_meanwhile). split; [vm_compute; reflexivity|]. split; [vm_compute; reflexivity|].
  exists {[0%nat]}. split; [|split; [set_solver|vm_compute; reflexivity]].
  replace (freed (qsbr_after 4 registering_meanwhile)) with [(100, {[0%nat]} : gset nat)] by (vm_compute; reflexivity).
  by apply list_elem_of_singleton.
Qed.
