(* ===== verification/QsbrPtr.v ===== *)
(** Pointers and spans to memory under reclamation, [qsbr_ptr] and
    [qsbr_ptr_span], in the debug build: each pointer object registers the
    pointer it holds with its thread, and the thread asserts that nothing is
    registered when it is quiescent, pauses or resumes.  The state is that of
    one thread: its registered pointers and the objects it has made, by
    identity, so that two operands may be the same object. *)

From stdpp Require Import gmultiset.
From S2P Require Import Prelude.

(** ** State *)

(** The members of a qsbr_ptr_span: the qsbr_ptr object it contains and the
    number of elements. *)
Record qsbr_ptr_span := Span { start : nat; length : Z }.

(** [active_ptrs] and [thread_paused] are members of the thread's structure;
    [objects] gives the [ptr] member of every live qsbr_ptr (0: nullptr). *)
Record ptr_state := PtrState {
  active_ptrs : gmultiset Z;
  thread_paused : bool;
  objects : gmap nat Z;
  spans : gmap nat qsbr_ptr_span;
  next_object : nat }.

Definition set_active (a : gmultiset Z) (s : ptr_state) : ptr_state :=
  PtrState a (thread_paused s) (objects s) (spans s) (next_object s).
Definition set_thread_paused (b : bool) (s : ptr_state) : ptr_state :=
  PtrState (active_ptrs s) b (objects s) (spans s) (next_object s).
Definition set_objects (m : gmap nat Z) (s : ptr_state) : ptr_state :=
  PtrState (active_ptrs s) (thread_paused s) m (spans s) (next_object s).
Definition set_spans (m : gmap nat qsbr_ptr_span) (s : ptr_state) : ptr_state :=
  PtrState (active_ptrs s) (thread_paused s) (objects s) m (next_object s).

Definition thread_start : ptr_state := PtrState ∅ false ∅ ∅ 0.

(** ** Effects *)

(** A call returns, fails an assertion, or is undefined: it uses an object
    that is not alive or dereferences nullptr. *)
Inductive result (A : Type) := Returns (a : A) (s : ptr_state) | AssertionFails | Undefined.
Arguments Returns {A}.
Arguments AssertionFails {A}.
Arguments Undefined {A}.

Definition M (A : Type) : Type := ptr_state → result A.

#[global] Instance M_ret : MRet M := λ A a s, Returns a s.
#[global] Instance M_bind : MBind M := λ A B f m s,
  match m s with Returns a s' => f a s' | AssertionFails => AssertionFails | Undefined => Undefined end.

Definition gets {A} (f : ptr_state → A) : M A := λ s, Returns (f s) s.
Definition modify (f : ptr_state → ptr_state) : M unit := λ s, Returns tt (f s).
Definition assert (b : ptr_state → bool) : M unit := λ s, if b s then Returns tt s else AssertionFails.

Definition require (b : bool) : M unit := λ s, if b then Returns tt s else Undefined.

(** Storage for an object, in which a constructor runs. *)
Definition fresh : M nat := λ s,
  Returns (next_object s) (PtrState (active_ptrs s) (thread_paused s) (objects s) (spans s) (S (next_object s))).

(** [src/qsbr_ptr.hpp:285-287] qsbr_ptr::get *)
Definition get (this : nat) : M Z := λ s, match objects s !! this with Some p => Returns p s | None => Undefined end.

(** Gives the member [ptr] of an object its value. *)
Definition set_ptr (this : nat) (p : Z) : M unit := modify (λ s, set_objects (<[this := p]> (objects s)) s).

(** ** Registration with the thread *)

(** [src/qsbr.cpp:134-139] qsbr_per_thread::register_active_ptr *)
Definition per_thread_register (ptr : Z) : M unit :=
  assert (λ _, negb (ptr =? 0));;
  assert (λ s, negb (thread_paused s));;
  modify (λ s, set_active ({[+ ptr +]} ⊎ active_ptrs s) s).

(** [src/qsbr.cpp:141-148] qsbr_per_thread::unregister_active_ptr *)
Definition per_thread_unregister (ptr : Z) : M unit :=
  assert (λ _, negb (ptr =? 0));;
  assert (λ s, negb (thread_paused s));;
  assert (λ s, bool_decide (ptr ∈ active_ptrs s));;
  modify (λ s, set_active (active_ptrs s ∖ {[+ ptr +]}) s).

(** [src/qsbr_ptr.cpp:20-22] qsbr_ptr_base::register_active_ptr *)
Definition register_active_ptr (ptr : Z) : M unit := if ptr =? 0 then mret tt else per_thread_register ptr.

(** [src/qsbr_ptr.cpp:24-26] qsbr_ptr_base::unregister_active_ptr *)
Definition unregister_active_ptr (ptr : Z) : M unit := if ptr =? 0 then mret tt else per_thread_unregister ptr.

(** [src/qsbr.hpp:1392-1393] qsbr_per_thread::quiescent, its assertions *)
Definition quiescent : M unit :=
  assert (λ s, negb (thread_paused s));;
  assert (λ s, bool_decide (active_ptrs s = ∅)).

(** [src/qsbr.hpp:1479-1484] qsbr_per_thread::qsbr_pause, its first
    assertions and the flag it sets *)
Definition qsbr_pause : M unit :=
  assert (λ s, negb (thread_paused s));;
  assert (λ s, bool_decide (active_ptrs s = ∅));;
  modify (set_thread_paused true).

(** [src/qsbr.hpp:1493-1506] qsbr_per_thread::qsbr_resume, its assertions on
    pointers and the flag it resets *)
Definition qsbr_resume : M unit :=
  assert thread_paused;;
  assert (λ s, bool_decide (active_ptrs s = ∅));;
  modify (set_thread_paused false).

Section qsbr_ptr.
(** The size of the elements pointed to, in bytes. *)
Variable sizeof_T : Z.

(** ** Pointers *)

(** [src/qsbr_ptr.hpp:72-72] qsbr_ptr::qsbr_ptr *)
Definition construct_null : M nat := this ← fresh; set_ptr this 0;; mret this.

(** [src/qsbr_ptr.hpp:77-83] qsbr_ptr::qsbr_ptr(pointer) *)
Definition construct (ptr_ : Z) : M nat :=
  this ← fresh; set_ptr this ptr_;; register_active_ptr ptr_;; mret this.

(** [src/qsbr_ptr.hpp:86-91] qsbr_ptr::qsbr_ptr(const qsbr_ptr&) *)
Definition copy (other : nat) : M nat :=
  ptr ← get other; this ← fresh; set_ptr this ptr;; register_active_ptr ptr;; mret this.

(** [src/qsbr_ptr.hpp:96-97] qsbr_ptr::qsbr_ptr(qsbr_ptr&&) *)
Definition move (other : nat) : M nat :=
  ptr ← get other; set_ptr other 0;; this ← fresh; set_ptr this ptr;; mret this.

(** [src/qsbr_ptr.hpp:102-106] qsbr_ptr::~qsbr_ptr *)
Definition destroy (this : nat) : M unit :=
  ptr ← get this; unregister_active_ptr ptr;; modify (λ s, set_objects (delete this (objects s)) s).

(** [src/qsbr_ptr.hpp:109-120] qsbr_ptr::operator=(const qsbr_ptr&) *)
Definition copy_assign (this other : nat) : M unit :=
  if (this =? other)%nat then mret tt
  else
    ptr ← get this; unregister_active_ptr ptr;;
    ptr ← get other; set_ptr this ptr;; register_active_ptr ptr.

(** [src/qsbr_ptr.hpp:123-130] qsbr_ptr::operator=(qsbr_ptr&&):
    [std::exchange] reads [other.ptr] and sets it to nullptr, before [ptr] is
    assigned. *)
Definition move_assign (this other : nat) : M unit :=
  ptr ← get this; unregister_active_ptr ptr;;
  ptr ← get other; set_ptr other 0;; set_ptr this ptr.

(** [src/qsbr_ptr.hpp:135-135] qsbr_ptr::operator*, the address of the element *)
Definition deref (this : nat) : M Z := ptr ← get this; require (negb (ptr =? 0));; mret ptr.

(** [src/qsbr_ptr.hpp:140-143] qsbr_ptr::operator[], the address of the element *)
Definition subscript (this : nat) (n : Z) : M Z :=
  ptr ← get this; require (negb (ptr =? 0));; mret (ptr + n * sizeof_T).

(** [src/qsbr_ptr.hpp:148-150] qsbr_ptr::operator-> *)
Definition arrow (this : nat) : M Z := get this.

(** [src/qsbr_ptr.hpp:154-163] qsbr_ptr::operator++() *)
Definition pre_increment (this : nat) : M unit :=
  ptr ← get this; unregister_active_ptr ptr;;
  set_ptr this (ptr + sizeof_T);; register_active_ptr (ptr + sizeof_T).

(** [src/qsbr_ptr.hpp:167-171] qsbr_ptr::operator++(int);
    the result is made in place *)
Definition post_increment (this : nat) : M nat := result ← copy this; pre_increment this;; mret result.

(** [src/qsbr_ptr.hpp:176-185] qsbr_ptr::operator--() *)
Definition pre_decrement (this : nat) : M unit :=
  ptr ← get this; unregister_active_ptr ptr;;
  set_ptr this (ptr - sizeof_T);; register_active_ptr (ptr - sizeof_T).

(** [src/qsbr_ptr.hpp:190-194] qsbr_ptr::operator--(int) *)
Definition post_decrement (this : nat) : M nat := result ← copy this; pre_decrement this;; mret result.

(** [src/qsbr_ptr.hpp:199-208] qsbr_ptr::operator+= *)
Definition add_assign (this : nat) (n : Z) : M unit :=
  ptr ← get this; unregister_active_ptr ptr;;
  set_ptr this (ptr + n * sizeof_T);; register_active_ptr (ptr + n * sizeof_T).

(** [src/qsbr_ptr.hpp:213-217] qsbr_ptr::operator+ *)
Definition add (this : nat) (n : Z) : M nat := result ← copy this; add_assign result n;; mret result.

(** [src/qsbr_ptr.hpp:220-223] operator+(difference_type, qsbr_ptr), with the
    copy its parameter is *)
Definition add_to (n : Z) (argument : nat) : M nat :=
  other ← copy argument; result ← add other n; destroy other;; mret result.

(** [src/qsbr_ptr.hpp:228-237] qsbr_ptr::operator-= *)
Definition sub_assign (this : nat) (n : Z) : M unit :=
  ptr ← get this; unregister_active_ptr ptr;;
  set_ptr this (ptr - n * sizeof_T);; register_active_ptr (ptr - n * sizeof_T).

(** [src/qsbr_ptr.hpp:242-246] qsbr_ptr::operator-(difference_type) *)
Definition sub (this : nat) (n : Z) : M nat := result ← copy this; sub_assign result n;; mret result.

(** A function of this pointer and of another one passed by value. *)
Definition by_value {A} (f : Z → Z → A) (this argument : nat) : M A :=
  other ← copy argument; p ← get this; q ← get other; destroy other;; mret (f p q).

(** [src/qsbr_ptr.hpp:249-252] qsbr_ptr::operator-(qsbr_ptr) *)
Definition distance : nat → nat → M Z := by_value (λ p q, (p - q) `quot` sizeof_T).

(** [src/qsbr_ptr.hpp:255-258] qsbr_ptr::operator== *)
Definition equal : nat → nat → M bool := by_value Z.eqb.

(** [src/qsbr_ptr.hpp:261-264] qsbr_ptr::operator<= *)
Definition less_equal : nat → nat → M bool := by_value Z.leb.

(** [src/qsbr_ptr.hpp:267-270] qsbr_ptr::operator>= *)
Definition greater_equal : nat → nat → M bool := by_value Z.geb.

(** [src/qsbr_ptr.hpp:273-276] qsbr_ptr::operator< *)
Definition less : nat → nat → M bool := by_value Z.ltb.

(** [src/qsbr_ptr.hpp:279-282] qsbr_ptr::operator> *)
Definition greater : nat → nat → M bool := by_value Z.gtb.

(** ** Spans *)

(** The span object [this], and its member [start]. *)
Definition get_span (this : nat) : M qsbr_ptr_span := λ s,
  match spans s !! this with Some x => Returns x s | None => Undefined end.
Definition set_span (this : nat) (x : qsbr_ptr_span) : M unit := modify (λ s, set_spans (<[this := x]> (spans s)) s).

(** [src/qsbr_ptr.hpp:305-306] qsbr_ptr_span::qsbr_ptr_span *)
Definition span_empty : M nat := start ← construct 0; this ← fresh; set_span this (Span start 0);; mret this.

(** [src/qsbr_ptr.hpp:313-314] qsbr_ptr_span::qsbr_ptr_span(const std::span&) *)
Definition span_construct (data size : Z) : M nat :=
  start ← construct data; this ← fresh; set_span this (Span start size);; mret this.

(** [src/qsbr_ptr.hpp:318-319] qsbr_ptr_span::qsbr_ptr_span(const qsbr_ptr_span&) *)
Definition span_copy (other : nat) : M nat :=
  x ← get_span other; start ← copy (start x); this ← fresh; set_span this (Span start (length x));; mret this.

(** [src/qsbr_ptr.hpp:322-322] qsbr_ptr_span::qsbr_ptr_span(qsbr_ptr_span&&): the
    length of the other span stays. *)
Definition span_move (other : nat) : M nat :=
  x ← get_span other; start ← move (start x); this ← fresh; set_span this (Span start (length x));; mret this.

(** [src/qsbr_ptr.hpp:325-325] qsbr_ptr_span::~qsbr_ptr_span *)
Definition span_destroy (this : nat) : M unit :=
  x ← get_span this; destroy (start x);; modify (λ s, set_spans (delete this (spans s)) s).

(** [src/qsbr_ptr.hpp:328-329] qsbr_ptr_span::operator=(const qsbr_ptr_span&) *)
Definition span_copy_assign (this other : nat) : M unit :=
  x ← get_span this; y ← get_span other;
  copy_assign (start x) (start y);; set_span this (Span (start x) (length y)).

(** [src/qsbr_ptr.hpp:332-333] qsbr_ptr_span::operator=(qsbr_ptr_span&&) *)
Definition span_move_assign (this other : nat) : M unit :=
  x ← get_span this; y ← get_span other;
  move_assign (start x) (start y);; set_span this (Span (start x) (length y)).

(** [src/qsbr_ptr.hpp:336-338] qsbr_ptr_span::begin *)
Definition span_begin (this : nat) : M nat := x ← get_span this; copy (start x).

(** [src/qsbr_ptr.hpp:342-344] qsbr_ptr_span::end *)
Definition span_end (this : nat) : M nat :=
  x ← get_span this; p ← get (start x); construct (p + length x * sizeof_T).

(** [src/qsbr_ptr.hpp:348-350] qsbr_ptr_span::size *)
Definition span_size (this : nat) : M Z := x ← get_span this; mret (length x).

(** ** A thread's calls *)

Inductive comparison := Equal | LessEqual | GreaterEqual | Less | Greater.

Definition compare (c : comparison) : nat → nat → M bool :=
  match c with
  | Equal => equal
  | LessEqual => less_equal
  | GreaterEqual => greater_equal
  | Less => less
  | Greater => greater
  end.

Inductive call :=
  | ConstructNull
  | Construct (ptr_ : Z)
  | Copy (other : nat)
  | Move (other : nat)
  | Destroy (this : nat)
  | CopyAssign (this other : nat)
  | MoveAssign (this other : nat)
  | Deref (this : nat)
  | Subscript (this : nat) (n : Z)
  | Arrow (this : nat)
  | PreIncrement (this : nat)
  | PostIncrement (this : nat)
  | PreDecrement (this : nat)
  | PostDecrement (this : nat)
  | AddAssign (this : nat) (n : Z)
  | Add (this : nat) (n : Z)
  | AddTo (n : Z) (other : nat)
  | SubAssign (this : nat) (n : Z)
  | Sub (this : nat) (n : Z)
  | Distance (this other : nat)
  | Compare (c : comparison) (this other : nat)
  | SpanEmpty
  | SpanConstruct (data size : Z)
  | SpanCopy (other : nat)
  | SpanMove (other : nat)
  | SpanDestroy (this : nat)
  | SpanCopyAssign (this other : nat)
  | SpanMoveAssign (this other : nat)
  | SpanBegin (this : nat)
  | SpanEnd (this : nat)
  | SpanSize (this : nat)
  | Quiescent
  | Pause
  | Resume.

Definition ignore {A} (m : M A) : M unit := m ≫= λ _, mret tt.

Definition perform (c : call) : M unit :=
  match c with
  | ConstructNull => ignore construct_null
  | Construct p => ignore (construct p)
  | Copy o => ignore (copy o)
  | Move o => ignore (move o)
  | Destroy o => destroy o
  | CopyAssign o o' => copy_assign o o'
  | MoveAssign o o' => move_assign o o'
  | Deref o => ignore (deref o)
  | Subscript o n => ignore (subscript o n)
  | Arrow o => ignore (arrow o)
  | PreIncrement o => pre_increment o
  | PostIncrement o => ignore (post_increment o)
  | PreDecrement o => pre_decrement o
  | PostDecrement o => ignore (post_decrement o)
  | AddAssign o n => add_assign o n
  | Add o n => ignore (add o n)
  | AddTo n o => ignore (add_to n o)
  | SubAssign o n => sub_assign o n
  | Sub o n => ignore (sub o n)
  | Distance o o' => ignore (distance o o')
  | Compare c o o' => ignore (compare c o o')
  | SpanEmpty => ignore span_empty
  | SpanConstruct data size => ignore (span_construct data size)
  | SpanCopy o => ignore (span_copy o)
  | SpanMove o => ignore (span_move o)
  | SpanDestroy o => span_destroy o
  | SpanCopyAssign o o' => span_copy_assign o o'
  | SpanMoveAssign o o' => span_move_assign o o'
  | SpanBegin o => ignore (span_begin o)
  | SpanEnd o => ignore (span_end o)
  | SpanSize o => ignore (span_size o)
  | Quiescent => quiescent
  | Pause => qsbr_pause
  | Resume => qsbr_resume
  end.

Fixpoint perform_all (cs : list call) : M unit :=
  match cs with [] => mret tt | c :: cs => perform c;; perform_all cs end.

(** A range-based [for] over a span: the addresses of the elements it visits.
    Its condition is [!(it == end)]. *)
Fixpoint visit_from (fuel it end_ : nat) : M (list Z) :=
  match fuel with
  | O => λ _ : ptr_state, Undefined
  | S fuel =>
      equal it end_ ≫= λ at_end : bool,
      if at_end then mret []
      else x ← deref it; pre_increment it;; l ← visit_from fuel it end_; mret (x :: l)
  end.

Definition visit (fuel this : nat) : M (list Z) :=
  it ← span_begin this; end_ ← span_end this;
  l ← visit_from fuel it end_;
  destroy end_;; destroy it;; mret l.
End qsbr_ptr.
