(* ===== verification/QsbrPtrTheorems.v ===== *)
(** What the debug checks of [qsbr_ptr] see: the pointers registered with the
    thread are exactly those its live objects hold, so that the assertions of
    quiescent and pause fail exactly when a pointer is held; and a loop over a
    span visits its elements and leaves nothing registered. *)

From stdpp Require Import gmultiset.
From S2P Require Import Prelude QsbrPtr.

(** ** The pointers held *)

Definition single (p : Z) : gmultiset Z := if p =? 0 then ∅ else {[+ p +]}.
Definition held (m : gmap nat Z) : gmultiset Z := list_to_set_disj (filter (λ p, p ≠ 0) (map_to_list m).*2).

Lemma held_insert_fresh (m : gmap nat Z) o p : m !! o = None → held (<[o := p]> m) = single p ⊎ held m.
Proof.
  intros Hm. unfold held, single.
  rewrite (list_to_set_disj_perm _ (filter (λ p, p ≠ 0) (p :: (map_to_list m).*2)))
    by (by rewrite map_to_list_insert).
  rewrite filter_cons. destruct (Z.eqb_spec p 0); case_decide; try done.
  multiset_solver.
Qed.

Lemma held_insert (m : gmap nat Z) o p : held (<[o := p]> m) = single p ⊎ held (delete o m).
Proof. rewrite <- insert_delete_eq. apply held_insert_fresh, lookup_delete_eq. Qed.

Lemma held_lookup (m : gmap nat Z) o p : m !! o = Some p → held m = single p ⊎ held (delete o m).
Proof. intros Hm. by rewrite <- held_insert, insert_id. Qed.

Lemma elem_of_held m p : p ∈ held m ↔ p ≠ 0 ∧ ∃ o, m !! o = Some p.
Proof.
  unfold held. rewrite elem_of_list_to_set_disj, list_elem_of_filter, list_elem_of_fmap. f_equiv. split.
  - intros ([o p'] & -> & Ho%elem_of_map_to_list). by exists o.
  - intros [o Ho%elem_of_map_to_list]. by exists (o, p).
Qed.

Lemma held_empty m : held m = ∅ ↔ ∀ o p, m !! o = Some p → p = 0.
Proof.
  split.
  - intros Hm o p Ho. destruct (decide (p = 0)); [done|]. assert (Hp : p ∈ held m) by (apply elem_of_held; eauto).
    rewrite Hm in Hp. by apply gmultiset_elem_of_empty in Hp.
  - intros Hm. destruct (gmultiset_choose_or_empty (held m)) as [[p Hp]|]; [|done].
    apply elem_of_held in Hp as [Hp [o Ho]]. by apply Hm in Ho.
Qed.

(** ** Calls on registration *)

Lemma set_active_same s a : a = active_ptrs s → set_active a s = s.
Proof. by intros ->; destruct s. Qed.

Lemma register_run p s :
  register_active_ptr p s =
  if (p =? 0) || negb (thread_paused s) then Returns tt (set_active (single p ⊎ active_ptrs s) s) else AssertionFails.
Proof.
  unfold register_active_ptr, per_thread_register, single, assert, modify, mbind, M_bind. destruct (p =? 0) eqn:Hp.
  - by rewrite set_active_same by multiset_solver.
  - cbn [negb orb]. by destruct (thread_paused s).
Qed.

Lemma unregister_run p s :
  (p ≠ 0 → p ∈ active_ptrs s) →
  unregister_active_ptr p s =
  if (p =? 0) || negb (thread_paused s) then Returns tt (set_active (active_ptrs s ∖ single p) s) else AssertionFails.
Proof.
  intros Ha. unfold unregister_active_ptr, per_thread_unregister, single, assert, modify, mbind, M_bind.
  destruct (p =? 0) eqn:Hp.
  - by rewrite set_active_same by multiset_solver.
  - apply Z.eqb_neq in Hp. cbn [negb orb]. destruct (thread_paused s); [done|]. cbn [negb].
    by rewrite bool_decide_eq_true_2 by auto.
Qed.

(** ** The invariant *)

Record wf (s : ptr_state) : Prop := {
  wf_active : active_ptrs s = held (objects s);
  wf_paused : thread_paused s = true → active_ptrs s = ∅;
  wf_fresh : ∀ o, is_Some (objects s !! o) → (o < next_object s)%nat;
  wf_start : ∀ i x, spans s !! i = Some x → (start x < next_object s)%nat;
  wf_distinct : ∀ i j x y, spans s !! i = Some x → spans s !! j = Some y → start x = start y → i = j }.

Lemma wf_thread_start : wf thread_start.
Proof. split; try done. by intros o [p Hp]. Qed.

(** What a call on pointers leaves alone. *)
Definition step (s s' : ptr_state) : Prop :=
  wf s' ∧ thread_paused s' = thread_paused s ∧ (next_object s <= next_object s')%nat.

Lemma step_refl s : wf s → step s s.
Proof. by split. Qed.

Lemma step_trans s1 s2 s3 : step s1 s2 → step s2 s3 → step s1 s3.
Proof. intros (_ & H1 & H2) (H3 & H4 & H5). split; [done|]. split; [congruence|lia]. Qed.

(** The call fails an assertion at most when the thread is paused. *)
Definition safely {A} (P : A → ptr_state → Prop) (m : M A) (s : ptr_state) : Prop :=
  match m s with Returns a s' => P a s' | AssertionFails => thread_paused s = true | Undefined => True end.

Lemma safely_bind {A B} (P : A → ptr_state → Prop) (Q : B → ptr_state → Prop) (m : M A) (f : A → M B) s :
  safely P m s → (∀ a s', P a s' → thread_paused s' = thread_paused s ∧ safely Q (f a) s') → safely Q (m ≫= f) s.
Proof.
  unfold safely, mbind, M_bind. intros Hm Hf. destruct (m s) as [a s'| |]; [|done|done].
  destruct (Hf a s' Hm) as [Hp Hq]. destruct (f a s'); congruence.
Qed.

Lemma safely_mono {A} (P Q : A → ptr_state → Prop) (m : M A) s :
  safely P m s → (∀ a s', P a s' → Q a s') → safely Q m s.
Proof. unfold safely. intros Hm HPQ. destruct (m s); auto. Qed.

(** A call that keeps the invariant. *)
Definition keeps {A} (m : M A) : Prop := ∀ s, wf s → safely (λ _, step s) m s.

Lemma keeps_bind {A B} (m : M A) (f : A → M B) : keeps m → (∀ a, keeps (f a)) → keeps (m ≫= f).
Proof.
  intros Hm Hf s Hs. apply (safely_bind (λ _, step s)); [by apply Hm|]. intros a s' Hs'. split; [apply Hs'|].
  apply (safely_mono (λ _, step s')); [apply Hf, Hs'|]. intros _ s''. by apply step_trans.
Qed.

Lemma keeps_ret {A} (a : A) : keeps (mret a).
Proof. intros s Hs. by apply step_refl. Qed.

Lemma keeps_ignore {A} (m : M A) : keeps m → keeps (ignore m).
Proof. intros Hm. apply keeps_bind; [done|]. intros _. apply keeps_ret. Qed.

Lemma keeps_get o : keeps (get o).
Proof. intros s Hs. unfold safely, get. destruct (objects s !! o); [by apply step_refl|done]. Qed.

Lemma keeps_require b : keeps (require b).
Proof. intros s Hs. unfold safely, require. destruct b; [by apply step_refl|done]. Qed.

Lemma keeps_get_span o : keeps (get_span o).
Proof. intros s Hs. unfold safely, get_span. destruct (spans s !! o); [by apply step_refl|done]. Qed.

(** The registrations, the objects and the supply of identities after a call. *)
Lemma step_pointers s a m n :
  wf s → a = held m → (thread_paused s = true → a = active_ptrs s) → (next_object s <= n)%nat →
  (∀ o, is_Some (m !! o) → is_Some (objects s !! o) ∨ (next_object s <= o < n)%nat) →
  step s (PtrState a (thread_paused s) m (spans s) n).
Proof.
  intros Hs Ha Hp Hn Hm. split; [|by split].
  split; cbn.
  - done.
  - intros Hpaused. rewrite Hp by done. by apply wf_paused.
  - intros o Ho. destruct (Hm o Ho) as [Ho'|]; [|lia]. apply wf_fresh in Ho'; [lia|done].
  - intros i x Hi. apply wf_start in Hi; [lia|done].
  - apply (wf_distinct _ Hs).
Qed.

Lemma wf_next s : wf s → objects s !! next_object s = None.
Proof.
  intros Hs. apply eq_None_not_Some. intros Ho%wf_fresh; [lia|done].
Qed.

(** ** The calls keep the invariant *)

Ltac show_state :=
  cbv beta iota; unfold set_active, set_objects; cbn [active_ptrs thread_paused objects spans next_object].

(** A call that makes an object, too. *)
Definition made (s : ptr_state) (o : nat) (s' : ptr_state) : Prop :=
  step s s' ∧ spans s' = spans s ∧ (next_object s <= o < next_object s')%nat.
Definition makes (m : M nat) : Prop := ∀ s, wf s → safely (made s) m s.

Lemma makes_keeps m : makes m → keeps m.
Proof. intros Hm s Hs. apply (safely_mono (made s)); [by apply Hm|]. by intros o s' []. Qed.

Lemma makes_get (f : Z → M nat) o : (∀ p, makes (f p)) → makes (get o ≫= f).
Proof.
  intros Hf s Hs. unfold safely, mbind, M_bind, get. destruct (objects s !! o) as [p|]; [|done]. by apply Hf.
Qed.

Lemma makes_register p : makes (this ← fresh; set_ptr this p;; register_active_ptr p;; mret this).
Proof.
  intros s Hs. unfold safely, mbind, M_bind, fresh, set_ptr, modify. rewrite register_run. cbn [thread_paused set_objects].
  destruct ((p =? 0) || _) eqn:Hp; [|by apply orb_false_iff in Hp as [_ ->%negb_false_iff]].
  show_state. split; [|split; [done|cbn; lia]]. apply step_pointers; [done| |intros Hpaused|lia|].
  - by rewrite held_insert_fresh, (wf_active s) by (done || by apply wf_next).
  - rewrite Hpaused in Hp. destruct (Z.eqb_spec p 0) as [->|]; [|done]. apply (left_id_L ∅ (⊎)).
  - intros o [q [[-> _]|[]]%lookup_insert_Some]; [lia|]. left. by exists q.
Qed.

Lemma keeps_construct_null : keeps construct_null.
Proof. apply makes_keeps. apply (makes_register 0). Qed.

Lemma makes_construct p : makes (construct p).
Proof. apply makes_register. Qed.

Lemma makes_copy o : makes (copy o).
Proof. apply makes_get, makes_register. Qed.

(** Setting the pointer of an object of which the old pointer is no longer
    registered and the new one is. *)
Lemma step_set s o p q a :
  wf s → objects s !! o = Some p → a ⊎ single p = active_ptrs s ⊎ single q →
  (thread_paused s = true → a = active_ptrs s) →
  step s (PtrState a (thread_paused s) (<[o := q]> (objects s)) (spans s) (next_object s)).
Proof.
  intros Hs Ho Ha Hp. apply step_pointers; [done| |done|lia|].
  - rewrite held_insert. rewrite (wf_active s Hs), (held_lookup _ _ _ Ho) in Ha. multiset_solver.
  - intros o' [x [[<- _]|[_ ?]]%lookup_insert_Some]; left; [by exists p|by exists x].
Qed.

Lemma held_registered s o p : wf s → objects s !! o = Some p → p ≠ 0 → p ∈ active_ptrs s.
Proof. intros Hs Ho Hp. rewrite (wf_active s Hs). apply elem_of_held. eauto. Qed.

(** The members that change the pointer by arithmetic. *)
Lemma keeps_retarget (f : Z → Z) this :
  keeps (ptr ← get this; unregister_active_ptr ptr;; set_ptr this (f ptr);; register_active_ptr (f ptr)).
Proof.
  intros s Hs. unfold safely, mbind, M_bind, get. destruct (objects s !! this) as [p|] eqn:Ho; [|done].
  rewrite unregister_run by (by apply (held_registered s this)).
  destruct ((p =? 0) || _) eqn:Hp; [|by apply orb_false_iff in Hp as [_ ->%negb_false_iff]].
  unfold set_ptr, modify. rewrite register_run. cbn [thread_paused set_objects set_active].
  destruct ((f p =? 0) || _) eqn:Hq; [|by apply orb_false_iff in Hq as [_ ->%negb_false_iff]].
  assert (Hpa : single p ⊆ active_ptrs s).
  { rewrite (wf_active s Hs), (held_lookup _ _ _ Ho). multiset_solver. }
  show_state. apply (step_set s this p); [done|done|multiset_solver|].
  intros Hpaused. rewrite Hpaused in Hp, Hq. unfold single.
  destruct (p =? 0), (f p =? 0); try done. multiset_solver.
Qed.

Lemma keeps_destroy this : keeps (destroy this).
Proof.
  intros s Hs. unfold destroy, safely, mbind, M_bind, modify, get. destruct (objects s !! this) as [p|] eqn:Ho; [|done].
  rewrite unregister_run by (by apply (held_registered s this)).
  destruct ((p =? 0) || _) eqn:Hp; [|by apply orb_false_iff in Hp as [_ ->%negb_false_iff]].
  show_state. apply step_pointers; [done| |intros Hpaused|lia|].
  - rewrite (wf_active s Hs), (held_lookup _ _ _ Ho). multiset_solver.
  - rewrite Hpaused in Hp. unfold single. destruct (p =? 0); [multiset_solver|done].
  - intros o [q [_ ?]%lookup_delete_Some]. left. by exists q.
Qed.

Lemma makes_move other : makes (move other).
Proof.
  intros s Hs. unfold move, safely, mbind, M_bind, modify, get, set_ptr, fresh.
  destruct (objects s !! other) as [p|] eqn:Ho; [|done].
  assert (Hne : other ≠ next_object s) by (intros ->; by rewrite wf_next in Ho).
  split; [|split; [done|cbn; lia]]. show_state. cbn [active_ptrs thread_paused objects spans next_object]. apply step_pointers; [done| |done|lia|].
  - rewrite held_insert_fresh by (rewrite lookup_insert_ne by done; by apply wf_next).
    rewrite held_insert, (wf_active s Hs), (held_lookup _ _ _ Ho). change (single 0) with (∅ : gmultiset Z). multiset_solver.
  - intros o [q [[-> _]|[_ [[-> _]|[_ ?]]%lookup_insert_Some]]%lookup_insert_Some]; [lia| |]; left; [by exists p|by exists q].
Qed.

Lemma keeps_copy_assign this other : keeps (copy_assign this other).
Proof.
  intros s Hs. unfold copy_assign. destruct (Nat.eqb_spec this other) as [|Hne]; [by apply keeps_ret|].
  unfold safely, mbind, M_bind, get. destruct (objects s !! this) as [p|] eqn:Ho; [|done].
  rewrite unregister_run by (by apply (held_registered s this)).
  destruct ((p =? 0) || _) eqn:Hp; [|by apply orb_false_iff in Hp as [_ ->%negb_false_iff]].
  cbn [objects set_active]. destruct (objects s !! other) as [q|]; [|done].
  unfold set_ptr, modify. rewrite register_run. cbn [thread_paused set_objects set_active].
  destruct ((q =? 0) || _) eqn:Hq; [|by apply orb_false_iff in Hq as [_ ->%negb_false_iff]].
  show_state. apply (step_set s this p); [done|done| |].
  - rewrite (wf_active s Hs), (held_lookup _ _ _ Ho). multiset_solver.
  - intros Hpaused. rewrite Hpaused in Hp, Hq. unfold single. destruct (p =? 0), (q =? 0); try done. multiset_solver.
Qed.

(** Assigning an object to itself by move is left out: see
    [self_move_unregisters]. *)
Lemma keeps_move_assign this other : this ≠ other → keeps (move_assign this other).
Proof.
  intros Hne s Hs. unfold move_assign.
  unfold safely, mbind, M_bind, get. destruct (objects s !! this) as [p|] eqn:Ho; [|done].
  rewrite unregister_run by (by apply (held_registered s this)).
  destruct ((p =? 0) || _) eqn:Hp; [|by apply orb_false_iff in Hp as [_ ->%negb_false_iff]].
  cbn [objects set_active]. destruct (objects s !! other) as [q|] eqn:Hq; [|done].
  unfold set_ptr, modify. show_state. apply step_pointers; [done| |intros Hpaused|lia|].
  - rewrite held_insert, delete_insert_ne by done. rewrite held_insert, (wf_active s Hs), (held_lookup _ _ _ Ho).
    rewrite (held_lookup (delete this (objects s)) other q) by (by rewrite lookup_delete_ne).
    change (single 0) with (∅ : gmultiset Z). multiset_solver.
  - rewrite Hpaused in Hp. unfold single. destruct (p =? 0); [multiset_solver|done].
  - intros o [x [[<- _]|[_ [[<- _]|[_ ?]]%lookup_insert_Some]]%lookup_insert_Some]; left; by eexists.
Qed.

Lemma keeps_by_value {A} (f : Z → Z → A) this other : keeps (by_value f this other).
Proof.
  apply keeps_bind; [apply makes_keeps, makes_copy|]. intros o. apply keeps_bind; [apply keeps_get|]. intros p.
  apply keeps_bind; [apply keeps_get|]. intros q. apply keeps_bind; [apply keeps_destroy|]. intros _. apply keeps_ret.
Qed.

(** A new span takes the pointer object just made for it. *)
Lemma keeps_new_span (m : M nat) n :
  makes m → keeps (start ← m; this ← fresh; set_span this (Span start n);; mret this).
Proof.
  intros Hm s Hs. apply (safely_bind (made s)); [by apply Hm|]. intros o s' (Hstep & Hspans & Ho).
  destruct Hstep as (Hs' & Hp & Hn). split; [done|].
  unfold safely, mbind, M_bind, fresh, set_span, modify, set_spans. cbn [active_ptrs thread_paused objects spans next_object].
  split; [|split; [done|cbn; lia]]. split; cbn [active_ptrs thread_paused objects spans next_object].
  - apply (wf_active _ Hs').
  - apply (wf_paused _ Hs').
  - intros o' Ho'%(wf_fresh _ Hs'). lia.
  - intros i x [[_ <-]|[_ Hx]]%lookup_insert_Some; [cbn; lia|]. apply (wf_start _ Hs') in Hx. lia.
  - assert (Hold : ∀ i x, spans s' !! i = Some x → (start x < o)%nat).
    { intros i x Hx. rewrite Hspans in Hx. apply (wf_start _ Hs) in Hx. lia. }
    intros i j x y [[<- <-]|[Hi Hx]]%lookup_insert_Some [[<- <-]|[Hj Hy]]%lookup_insert_Some Heq; cbn in Heq; try done.
    + apply Hold in Hy. lia.
    + apply Hold in Hx. lia.
    + by apply (wf_distinct _ Hs' _ _ _ _ Hx Hy).
Qed.

(** Giving a span the length of another, with its own pointer object. *)
Lemma keeps_set_span_length s s' this x n :
  wf s → spans s !! this = Some x → step s s' → spans s' = spans s →
  step s (set_spans (<[this := Span (start x) n]> (spans s')) s').
Proof.
  intros Hs Hx (Hs' & Hp & Hn) Hspans. split; [|by split].
  split; cbn [active_ptrs thread_paused objects spans next_object set_spans].
  - apply (wf_active _ Hs').
  - apply (wf_paused _ Hs').
  - apply (wf_fresh _ Hs').
  - rewrite Hspans. intros i y [[_ <-]|[_ Hy]]%lookup_insert_Some; [apply (wf_start _ Hs) in Hx; cbn; lia|].
    apply (wf_start _ Hs) in Hy. lia.
  - assert (Hold : ∀ i y, <[this:=Span (start x) n]> (spans s') !! i = Some y → ∃ z, spans s' !! i = Some z ∧ start z = start y).
    { rewrite Hspans. intros i y [[<- <-]|[_ Hy]]%lookup_insert_Some; by eexists. }
    intros i j y z (y' & Hy' & <-)%Hold (z' & Hz' & <-)%Hold. by apply (wf_distinct _ Hs').
Qed.

(** Calls on pointers leave the spans alone. *)
Definition spanless {A} (m : M A) : Prop := ∀ s, match m s with Returns _ s' => spans s' = spans s | _ => True end.

Lemma spanless_bind {A B} (m : M A) (f : A → M B) : spanless m → (∀ a, spanless (f a)) → spanless (m ≫= f).
Proof.
  intros Hm Hf s. unfold mbind, M_bind. specialize (Hm s). destruct (m s) as [a s'| |]; [|done|done].
  specialize (Hf a s'). destruct (f a s'); congruence.
Qed.

Lemma spanless_get o : spanless (get o).
Proof. intros s. unfold get. by destruct (objects s !! o). Qed.

Lemma spanless_ret {A} (a : A) : spanless (mret a).
Proof. done. Qed.

Lemma spanless_assert b : spanless (assert b).
Proof. intros s. unfold assert. by destruct (b s). Qed.

Lemma spanless_set_ptr o p : spanless (set_ptr o p).
Proof. done. Qed.

Lemma spanless_register p : spanless (register_active_ptr p).
Proof.
  intros s. rewrite register_run. by destruct (_ || _).
Qed.

Lemma spanless_unregister p : spanless (unregister_active_ptr p).
Proof.
  unfold unregister_active_ptr. destruct (p =? 0); [done|]. repeat (apply spanless_bind; [apply spanless_assert|intros _]). done.
Qed.

#[export] Hint Resolve spanless_bind spanless_get spanless_ret spanless_set_ptr spanless_register spanless_unregister : unodb.

Lemma spanless_copy_assign this other : spanless (copy_assign this other).
Proof. unfold copy_assign. destruct (this =? other)%nat; eauto 10 with unodb. Qed.

Lemma spanless_move_assign this other : spanless (move_assign this other).
Proof. unfold move_assign. eauto 10 with unodb. Qed.

(** The assignment of one span to another, by the assignment of its pointer. *)
Lemma keeps_span_assign (f : nat → nat → M unit) this other :
  (∀ s x y, wf s → spans s !! this = Some x → spans s !! other = Some y → safely (λ _, step s) (f (start x) (start y)) s) →
  (∀ o o', spanless (f o o')) →
  keeps (x ← get_span this; y ← get_span other; f (start x) (start y);; set_span this (Span (start x) (length y))).
Proof.
  intros Hf Hspanless s Hs. unfold safely, mbind, M_bind, get_span.
  destruct (spans s !! this) as [x|] eqn:Hx; [|done]. destruct (spans s !! other) as [y|] eqn:Hy; [|done].
  specialize (Hf s x y Hs Hx Hy). specialize (Hspanless (start x) (start y) s). unfold safely in Hf.
  destruct (f (start x) (start y) s) as [_ s'| |]; [|done|done]. by apply keeps_set_span_length.
Qed.

Lemma keeps_span_destroy this : keeps (span_destroy this).
Proof.
  apply keeps_bind; [apply keeps_get_span|]. intros x. apply keeps_bind; [apply keeps_destroy|]. intros _ s Hs.
  split; [|by split]. destruct Hs as [H1 H2 H3 H4 H5]. split; try done; cbn.
  - intros i y [_ Hy]%lookup_delete_Some. by apply (H4 i).
  - intros i j y z [_ Hy]%lookup_delete_Some [_ Hz]%lookup_delete_Some. by apply H5.
Qed.

(** An assignment by move whose operands are the same object. *)
Definition moves_to_itself (c : call) : bool :=
  match c with MoveAssign o o' | SpanMoveAssign o o' => (o =? o')%nat | _ => false end.

(** Calls of the thread itself rather than of its pointers. *)
Definition of_thread (c : call) : bool := match c with Quiescent | Pause | Resume => true | _ => false end.

Lemma keeps_pre_increment size this : keeps (pre_increment size this).
Proof. apply (keeps_retarget (λ p, p + size)). Qed.

Lemma keeps_pre_decrement size this : keeps (pre_decrement size this).
Proof. apply (keeps_retarget (λ p, p - size)). Qed.

Lemma keeps_add_assign size this n : keeps (add_assign size this n).
Proof. apply (keeps_retarget (λ p, p + n * size)). Qed.

Lemma keeps_sub_assign size this n : keeps (sub_assign size this n).
Proof. apply (keeps_retarget (λ p, p - n * size)). Qed.

Lemma keeps_of_copy o : keeps (copy o).
Proof. apply makes_keeps, makes_copy. Qed.

Lemma keeps_construct p : keeps (construct p).
Proof. apply makes_keeps, makes_construct. Qed.

Lemma keeps_span_copy_assign this other : keeps (span_copy_assign this other).
Proof.
  apply keeps_span_assign; [|apply spanless_copy_assign]. intros s x y Hs _ _. by apply keeps_copy_assign.
Qed.

Lemma keeps_span_move_assign this other : this ≠ other → keeps (span_move_assign this other).
Proof.
  intros Hne. apply keeps_span_assign; [|apply spanless_move_assign]. intros s x y Hs Hx Hy. apply keeps_move_assign; [|done].
  intros Heq. by apply Hne, (wf_distinct _ Hs _ _ _ _ Hx Hy).
Qed.

(** A span made from the pointer of another. *)
Lemma keeps_of_span (m : nat → M nat) other :
  (∀ o, makes (m o)) →
  keeps (x ← get_span other; start ← m (start x); this ← fresh; set_span this (Span start (length x));; mret this).
Proof. intros Hm. apply keeps_bind; [apply keeps_get_span|]. intros x. apply (keeps_new_span (m (start x)) (length x)), Hm. Qed.

Create HintDb keeps discriminated.
#[local] Hint Resolve keeps_get keeps_require keeps_ret keeps_get_span keeps_construct_null keeps_construct keeps_of_copy
  keeps_destroy keeps_copy_assign keeps_pre_increment keeps_pre_decrement keeps_add_assign keeps_sub_assign
  keeps_by_value keeps_span_destroy keeps_span_copy_assign : keeps.
#[local] Hint Resolve keeps_bind | 5 : keeps.
#[local] Hint Unfold deref subscript arrow post_increment post_decrement add add_to sub distance
  span_begin span_end span_size : keeps.

Lemma keeps_perform size c : of_thread c = false → moves_to_itself c = false → keeps (perform size c).
Proof.
  intros Hc Hself. destruct c; try done; try apply keeps_ignore; try (by autounfold with keeps; eauto 10 with keeps).
  - apply makes_keeps, makes_move.
  - by apply keeps_move_assign, Nat.eqb_neq.
  - destruct c; apply keeps_by_value.
  - apply keeps_new_span, makes_construct.
  - apply keeps_new_span, makes_construct.
  - apply keeps_of_span, makes_copy.
  - apply keeps_of_span, makes_move.
  - by apply keeps_span_move_assign, Nat.eqb_neq.
Qed.

(** ** Loops over spans *)

Definition next (s : ptr_state) : ptr_state :=
  PtrState (active_ptrs s) (thread_paused s) (objects s) (spans s) (S (next_object s)).

Lemma wf_next_object s : wf s → wf (next s).
Proof.
  intros [H1 H2 H3 H4 H5]. split; try done; cbn.
  - intros o Ho%H3. lia.
  - intros i x Hx%H4. lia.
Qed.

(** Passing a pointer by value leaves nothing behind. *)
Lemma by_value_run {A} (f : Z → Z → A) s this other p q :
  wf s → thread_paused s = false → objects s !! this = Some p → objects s !! other = Some q →
  by_value f this other s = Returns (f p q) (next s).
Proof.
  intros Hs Hp Hthis Hother. assert (Hne : this ≠ next_object s) by (intros ->; by rewrite wf_next in Hthis).
  unfold by_value, copy, destroy, get, set_ptr, fresh, modify, mbind, M_bind. rewrite Hother.
  cbn [objects set_objects]. rewrite register_run. cbn [thread_paused set_objects]. rewrite Hp, orb_true_r.
  cbn [objects set_active set_objects mret M_ret]. rewrite lookup_insert_ne, Hthis by done.
  cbn [objects set_active set_objects]. rewrite lookup_insert_eq. cbv beta iota.
  cbn [objects set_active set_objects]. rewrite lookup_insert_eq.
  rewrite unregister_run.
  2: { intros Hq. cbn [active_ptrs set_active]. unfold single. destruct (Z.eqb_spec q 0); [done|]. multiset_solver. }
  cbn [thread_paused set_objects set_active negb]. rewrite orb_true_r.
  cbn [objects active_ptrs thread_paused spans next_object set_active set_objects].
  rewrite delete_insert_id by (by apply wf_next). unfold next. rewrite Hp.
  assert ((single q ⊎ active_ptrs s) ∖ single q = active_ptrs s) as -> by multiset_solver. done.
Qed.

(** The call returns, with these objects, when the thread is not paused. *)
Definition returns {A} (m : M A) (s : ptr_state) (a : A) (objs : gmap nat Z) (n : nat) : Prop :=
  ∃ s', m s = Returns a s' ∧ wf s' ∧ thread_paused s' = false ∧ objects s' = objs ∧ spans s' = spans s ∧ next_object s' = n.

Lemma returns_intro {A} (m : M A) s a s' objs n :
  keeps m → wf s → thread_paused s = false → m s = Returns a s' →
  objects s' = objs → spans s' = spans s → next_object s' = n → returns m s a objs n.
Proof.
  intros Hm Hs Hp Hrun Hobjs Hspans Hn. specialize (Hm s Hs). unfold safely in Hm. rewrite Hrun in Hm.
  destruct Hm as (Hs' & Hp' & _). exists s'. by rewrite Hp', Hp.
Qed.

Lemma returns_bind {A B} (m : M A) (f : A → M B) s a objs n b objs' n' :
  returns m s a objs n →
  (∀ s', wf s' → thread_paused s' = false → objects s' = objs → spans s' = spans s → next_object s' = n →
     returns (f a) s' b objs' n') →
  returns (m ≫= f) s b objs' n'.
Proof.
  intros (s1 & Hm & Hs1 & Hp1 & Ho1 & Hsp1 & Hn1) Hf.
  destruct (Hf s1 Hs1 Hp1 Ho1 Hsp1 Hn1) as (s2 & Hrun & Hs2 & Hp2 & Ho2 & Hsp2 & Hn2).
  exists s2. unfold mbind, M_bind. rewrite Hm. split_and!; congruence.
Qed.

Lemma returns_ret {A} (a : A) s : wf s → thread_paused s = false → returns (mret a) s a (objects s) (next_object s).
Proof. intros Hs Hp. by exists s. Qed.

Lemma construct_returns p s :
  wf s → thread_paused s = false →
  returns (construct p) s (next_object s) (<[next_object s := p]> (objects s)) (S (next_object s)).
Proof.
  intros Hs Hp. eapply returns_intro; [apply keeps_construct|done|done| |..].
  - unfold construct, set_ptr, fresh, modify, mbind, M_bind. rewrite register_run.
    cbn [thread_paused set_objects]. rewrite Hp, orb_true_r. reflexivity.
  - done.
  - done.
  - done.
Qed.

Lemma copy_returns o p s :
  wf s → thread_paused s = false → objects s !! o = Some p →
  returns (copy o) s (next_object s) (<[next_object s := p]> (objects s)) (S (next_object s)).
Proof.
  intros Hs Hp Ho. destruct (construct_returns p s Hs Hp) as (s' & Hrun & H). exists s'. split; [|done].
  unfold copy, mbind at 1, M_bind at 1, get. by rewrite Ho.
Qed.

Lemma pre_increment_returns size o p s :
  wf s → thread_paused s = false → objects s !! o = Some p →
  returns (pre_increment size o) s tt (<[o := p + size]> (objects s)) (next_object s).
Proof.
  intros Hs Hp Ho. eapply returns_intro; [apply keeps_pre_increment|done|done| |..].
  - unfold pre_increment, mbind, M_bind, get. rewrite Ho, unregister_run by (by apply (held_registered s o)).
    rewrite Hp, orb_true_r. unfold set_ptr, modify. rewrite register_run.
    cbn [thread_paused set_objects set_active]. rewrite Hp, orb_true_r. reflexivity.
  - done.
  - done.
  - done.
Qed.

Lemma destroy_returns o p s :
  wf s → thread_paused s = false → objects s !! o = Some p →
  returns (destroy o) s tt (delete o (objects s)) (next_object s).
Proof.
  intros Hs Hp Ho. eapply returns_intro; [apply keeps_destroy|done|done| |..].
  - unfold destroy, mbind, M_bind, get. rewrite Ho, unregister_run by (by apply (held_registered s o)).
    rewrite Hp, orb_true_r. reflexivity.
  - done.
  - done.
  - done.
Qed.

Lemma equal_returns o o' p q s :
  wf s → thread_paused s = false → objects s !! o = Some p → objects s !! o' = Some q →
  returns (equal o o') s (p =? q) (objects s) (S (next_object s)).
Proof.
  intros Hs Hp Ho Ho'. exists (next s). unfold equal. rewrite (by_value_run _ s o o' p q) by done.
  split; [done|]. split; [by apply wf_next_object|]. done.
Qed.

(** The addresses of [n] elements from [p] on. *)
Definition addresses (size p : Z) (n : nat) : list Z := (λ i, p + Z.of_nat i * size) <$> seq 0 n.

Lemma addresses_S size p n : addresses size p (S n) = p :: addresses size (p + size) n.
Proof.
  unfold addresses. cbn [seq fmap list_fmap]. f_equal; [lia|]. rewrite <- fmap_S_seq, <- list_fmap_compose.
  apply list_fmap_ext. intros i x _. cbn. lia.
Qed.

Lemma deref_returns o p s :
  wf s → thread_paused s = false → objects s !! o = Some p → p ≠ 0 → returns (deref o) s p (objects s) (next_object s).
Proof.
  intros Hs Hp Ho Hnz. exists s. unfold deref, get, require, mbind, M_bind. rewrite Ho.
  apply Z.eqb_neq in Hnz. rewrite Hnz. done.
Qed.

Lemma visit_from_returns size it end_ n p s :
  size ≠ 0 → wf s → thread_paused s = false → it ≠ end_ →
  objects s !! it = Some p → objects s !! end_ = Some (p + Z.of_nat n * size) →
  Forall (λ x, x ≠ 0) (addresses size p n) →
  returns (visit_from size (S n) it end_) s (addresses size p n)
    (<[it := p + Z.of_nat n * size]> (objects s)) (S n + next_object s).
Proof.
  intros Hsize. revert p s. induction n as [|n IH]; intros p s Hs Hp Hne Hit Hend Hnz.
  - rewrite Z.add_0_r in *. cbn [visit_from]. eapply returns_bind; [by apply equal_returns|].
    intros s' Hs' Hp' Hobjs Hsp Hn. rewrite Z.eqb_refl, insert_id by done. rewrite <- Hobjs.
    replace (1 + next_object s)%nat with (next_object s') by done. by apply returns_ret.
  - rewrite addresses_S in *. apply Forall_cons in Hnz as [Hnz1 Hnz].
    assert (Hlen : p + Z.of_nat (S n) * size = p + size + Z.of_nat n * size) by lia. rewrite Hlen in *.
    remember (S n) as fuel. cbn [visit_from]. eapply returns_bind; [by apply equal_returns|].
    intros s1 Hs1 Hp1 Hobjs1 Hsp1 Hn1. destruct (Z.eqb_spec p (p + size + Z.of_nat n * size)) as [Heq|_]; [nia|].
    rewrite <- Hobjs1 in *. eapply returns_bind; [by apply deref_returns|].
    intros s2 Hs2 Hp2 Hobjs2 Hsp2 Hn2. rewrite <- Hobjs2 in *. eapply returns_bind; [by apply pre_increment_returns|].
    intros s3 Hs3 Hp3 Hobjs3 Hsp3 Hn3. subst fuel. eapply returns_bind.
    { apply (IH (p + size) s3 Hs3 Hp3 Hne); [| |done]; rewrite Hobjs3; [apply lookup_insert_eq|].
      by rewrite lookup_insert_ne. }
    intros s4 Hs4 Hp4 Hobjs4 Hsp4 Hn4. rewrite Hobjs3, insert_insert_eq in Hobjs4. rewrite <- Hobjs4.
    replace (S (S n) + next_object s)%nat with (next_object s4) by lia. by apply returns_ret.
Qed.

Lemma returns_eq {A} (m m' : M A) s a objs n : m s = m' s → returns m' s a objs n → returns m s a objs n.
Proof. unfold returns. by intros ->. Qed.

Lemma span_begin_returns o x p s :
  wf s → thread_paused s = false → spans s !! o = Some x → objects s !! start x = Some p →
  returns (span_begin o) s (next_object s) (<[next_object s := p]> (objects s)) (S (next_object s)).
Proof.
  intros Hs Hp Hx Ho. apply (returns_eq _ (copy (start x))); [|by apply copy_returns].
  unfold span_begin, get_span, mbind at 1, M_bind at 1. by rewrite Hx.
Qed.

Lemma span_end_returns size o x p s :
  wf s → thread_paused s = false → spans s !! o = Some x → objects s !! start x = Some p →
  returns (span_end size o) s (next_object s)
    (<[next_object s := p + length x * size]> (objects s)) (S (next_object s)).
Proof.
  intros Hs Hp Hx Ho. apply (returns_eq _ (construct (p + length x * size))); [|by apply construct_returns].
  unfold span_end, get_span, get, mbind, M_bind. by rewrite Hx, Ho.
Qed.

(** ** The theorems *)

Lemma thread_call_keeps size c s s' :
  wf s → of_thread c = true → perform size c s = Returns tt s' → wf s'.
Proof.
  intros [H1 H2 H3 H4 H5] Hc Hs'. destruct c; try done; cbn in Hs';
    unfold quiescent, qsbr_pause, qsbr_resume, assert, modify, mbind, M_bind in Hs'.
  - destruct (negb _); [|done]. destruct (bool_decide _); by simplify_eq.
  - destruct (negb _); [|done]. destruct (bool_decide_reflect (active_ptrs s = ∅)); by simplify_eq.
  - destruct (thread_paused s); [|done]. destruct (bool_decide _); simplify_eq. done.
Qed.

Lemma perform_wf size c s s' :
  moves_to_itself c = false → wf s → perform size c s = Returns tt s' → wf s'.
Proof.
  intros Hself Hs Hs'. destruct (of_thread c) eqn:Hc; [by apply (thread_call_keeps size c s)|].
  pose proof (keeps_perform size c Hc Hself s Hs) as H. unfold safely in H. rewrite Hs' in H. apply H.
Qed.

Lemma perform_all_wf size cs s s' :
  Forall (λ c, moves_to_itself c = false) cs → wf s → perform_all size cs s = Returns tt s' → wf s'.
Proof.
  intros Hcs. revert s. induction Hcs as [|c cs Hc Hcs IH]; intros s Hs; cbn; [by intros [= <-]|].
  unfold mbind, M_bind. destruct (perform size c s) as [[] s1| |] eqn:Hs1; [|done|done].
  apply IH. by apply (perform_wf size c s).
Qed.

(** A pointer of a live object, not nullptr. *)
Definition holds_pointer (s : ptr_state) : Prop := ∃ o p, objects s !! o = Some p ∧ p ≠ 0.

Lemma holds_pointer_active s : wf s → holds_pointer s ↔ active_ptrs s ≠ ∅.
Proof.
  intros Hs. rewrite (wf_active s Hs), held_empty. split.
  - intros (o & p & Ho & Hp) H. by apply Hp, (H o).
  - intros H. destruct (gmultiset_choose (held (objects s))) as [p [Hp [o Ho]]%elem_of_held]; [by rewrite held_empty|].
    by exists o, p.
Qed.

(** C35: After any calls of a thread on its pointers and spans none of which
    assigns an object to itself by move: the pointers registered with the thread are
    those its live objects hold, each as often as it is held; while the thread is not
    paused, no call on pointers but such an assignment fails an assertion; and the
    assertions of quiescent and pause fail exactly when the thread is paused or
    holds a pointer, those of resume exactly when it is not paused. *)
Theorem active_pointers_exact (size : Z) (cs : list call) (s : ptr_state)
    (Hcs : Forall (λ c, moves_to_itself c = false) cs)
    (Hrun : perform_all size cs thread_start = Returns tt s) :
  active_ptrs s = held (objects s) ∧
  (∀ c, of_thread c = false → moves_to_itself c = false → thread_paused s = false →
     perform size c s ≠ AssertionFails) ∧
  (∀ c, c = Quiescent ∨ c = Pause →
     perform size c s = AssertionFails ↔ thread_paused s = true ∨ holds_pointer s) ∧
  (perform size Resume s = AssertionFails ↔ thread_paused s = false).
Proof.
  assert (Hs : wf s) by (by apply (perform_all_wf size cs thread_start); [| apply wf_thread_start|]).
  split; [apply (wf_active s Hs)|]. split; [|split].
  - intros c Hc Hself Hp Hfail. pose proof (keeps_perform size c Hc Hself s Hs) as H.
    unfold safely in H. rewrite Hfail in H. congruence.
  - intros c Hc. rewrite holds_pointer_active by done.
    destruct Hc as [->| ->]; cbn; unfold quiescent, qsbr_pause, assert, modify, mbind, M_bind;
      (destruct (thread_paused s); cbn [negb]; [naive_solver|case_bool_decide; naive_solver]).
  - cbn. unfold qsbr_resume, assert, modify, mbind, M_bind. pose proof (wf_paused s Hs) as Hp.
    destruct (thread_paused s); [|naive_solver]. rewrite bool_decide_eq_true_2 by auto. naive_solver.
Qed.

(** A thread makes a span, copies and moves its pointers, and lets all go. *)
Definition thread_calls : list call :=
  [SpanConstruct 64 3; SpanBegin 1; Move 2; PostIncrement 3; AddTo 2 4; CopyAssign 2 3; SpanCopy 1; SpanMoveAssign 1 8].

Lemma active_pointers_exact_witness :
  let s := match perform_all 4 thread_calls thread_start with Returns _ s => s | _ => thread_start end in
  perform 4 Quiescent s = AssertionFails.
Proof.
  cbv zeta. apply (active_pointers_exact 4 thread_calls).
  - by repeat constructor.
  - vm_compute. reflexivity.
  - by left.
  - right. exists 2%nat, 68. by vm_compute.
Defined.

(** What assigning a pointer to itself by move does: the object keeps its
    pointer, but the pointer is no longer registered, so that quiescent sees
    none, and the destructor of the object fails its assertion. *)
Lemma self_move_unregisters :
  let s := match perform_all 1 [Construct 64; MoveAssign 0 0] thread_start with Returns _ s => s | _ => thread_start end in
  holds_pointer s ∧ perform 1 Quiescent s = Returns tt s ∧ perform 1 (Destroy 0) s = AssertionFails.
Proof. split; [by exists 0%nat, 64|]. by vm_compute. Qed.

(** A range-based [for] over a span visits the addresses of its elements, in
    order, and ends; the pointers made for it are gone afterwards, and the
    pointers registered with the thread are those registered before. *)
Theorem span_loop_visits (size : Z) (s : ptr_state) (o : nat) (x : qsbr_ptr_span) (p : Z) (n : nat)
    (Hsize : size ≠ 0) (Hs : wf s) (Hp : thread_paused s = false)
    (Hx : spans s !! o = Some x) (Hn : length x = Z.of_nat n) (Hstart : objects s !! start x = Some p)
    (Hnull : Forall (λ a, a ≠ 0) (addresses size p n)) :
  ∃ s', visit size (S n) o s = Returns (addresses size p n) s' ∧
    active_ptrs s' = active_ptrs s ∧ objects s' = objects s ∧ spans s' = spans s.
Proof.
  assert (Hfresh : ∀ k, (next_object s <= k)%nat → objects s !! k = None).
  { intros k Hk. apply eq_None_not_Some. intros Hk'%(wf_fresh s Hs). lia. }
  cut (∃ n', returns (visit size (S n) o) s (addresses size p n) (objects s) n').
  { intros (n' & s' & Hrun & Hs' & _ & Hobjs & Hsp & _). exists s'. by rewrite (wf_active s), (wf_active s'), Hobjs. }
  exists (S n + S (S (next_object s)))%nat. unfold visit. eapply returns_bind; [by eapply span_begin_returns|]. set (it := next_object s).
  assert (Hit : objects s !! it = None) by (by apply Hfresh).
  assert (Hend : objects s !! S it = None) by (apply Hfresh; unfold it; lia).
  assert (Hne : start x ≠ it) by congruence.
  intros s1 Hs1 Hp1 Hobjs1 Hsp1 Hn1. eapply returns_bind.
  { apply (span_end_returns size o x p s1 Hs1 Hp1); [by rewrite Hsp1|by rewrite Hobjs1, lookup_insert_ne]. }
  rewrite Hobjs1, Hn1, Hn. intros s2 Hs2 Hp2 Hobjs2 Hsp2 Hn2. eapply returns_bind.
  { apply (visit_from_returns size it (S it) n p s2 Hsize Hs2 Hp2); [lia| | |done]; rewrite Hobjs2;
      [rewrite lookup_insert_ne by lia|]; apply lookup_insert_eq. }
  rewrite Hobjs2. intros s3 Hs3 Hp3 Hobjs3 Hsp3 Hn3. eapply returns_bind.
  { eapply destroy_returns; [done..|]. rewrite Hobjs3, lookup_insert_ne by lia. apply lookup_insert_eq. }
  intros s4 Hs4 Hp4 Hobjs4 Hsp4 Hn4. eapply returns_bind.
  { eapply destroy_returns; [done..|]. rewrite Hobjs4, lookup_delete_ne, Hobjs3 by lia. apply lookup_insert_eq. }
  intros s5 Hs5 Hp5 Hobjs5 Hsp5 Hn5.
  assert (Hobjs : objects s5 = objects s).
  { rewrite Hobjs5, Hobjs4, Hobjs3. rewrite delete_insert_ne by lia. rewrite delete_insert_eq.
    rewrite delete_insert_eq, delete_insert_ne by lia. rewrite delete_insert_eq, !delete_id; [done..|].
    by rewrite lookup_delete_ne by lia. }
  rewrite <- Hobjs. replace (S n + S (S it))%nat with (next_object s5) by lia. by apply returns_ret.
Qed.

(** Over a span of three elements of four bytes. *)
Lemma span_loop_visits_witness :
  let s := match perform 4 (SpanConstruct 64 3) thread_start with Returns _ s => s | _ => thread_start end in
  ∃ s', visit 4 4 1 s = Returns [64; 68; 72] s' ∧
    active_ptrs s' = active_ptrs s ∧ objects s' = objects s ∧ spans s' = spans s.
Proof.
  cbv zeta. apply (span_loop_visits 4 _ 1 (Span 0 3) 64 3).
  - done.
  - apply (perform_wf 4 (SpanConstruct 64 3) thread_start); [done|apply wf_thread_start|by vm_compute].
  - by vm_compute.
  - by vm_compute.
  - done.
  - by vm_compute.
  - by repeat constructor.
Defined.
