(* ===== verification/MutexDb.v ===== *)
(** The index behind a mutex: [mutex_db] of [mutex_art.hpp].  Several threads
    call its operations; each runs the operation of the single-threaded index
    with the mutex held.  An operation is not atomic: it reads the index at one
    step and leaves it changed at a later one. *)

From S2P Require Import Prelude Words ArtKey KeyPrefix SortedAssoc Simd InodeBase.
From S2P Require Import Inode4 Inode16 Inode48 Inode256 Heap Stats Leaf.
From S2P Require Import InodeSpec Inode Tree Db DbTrace Buffer Iterator Threads.

(** ** The calls *)

(** The calls of the public interface.  The caller's function of a scan has a
    state of type [F], which the scan is given and which it returns. *)
Inductive call {F : Type} :=
  | Get (k : key_arg)
  | Insert (k : key_arg) (v : list Z)
  | Remove (k : key_arg)
  | Empty
  | Clear
  | Scan (f : F) (fwd : bool)
  | ScanFrom (from_key : key_arg) (f : F) (fwd : bool)
  | ScanRange (from_key to_key : key_arg) (f : F)
  | CurrentMemoryUse
  | NodeCount (t : node_type)
  | GrowingInodeCount (t : node_type)
  | ShrinkingInodeCount (t : node_type)
  | KeyPrefixSplits.
Arguments call : clear implicits.

Inductive mutex_answer {F : Type} :=
  | AnswerValue (v : option (list Z))
  | AnswerBool (b : bool)
  | AnswerVisited (f : F)
  | AnswerNumber (n : Z)
  | AnswerNone.
Arguments mutex_answer : clear implicits.

Section mutex_db.
Context `{Target, Allocator} {F : Type}.
Variable fn : list Z → list Z → F → bool * F.
#[local] Open Scope monad_scope.

(** ** What runs under the mutex *)

(** [src/mutex_art.hpp:44-53] mutex_db::get_internal, the call of the index *)
Definition mutex_get (k : key_arg) : M world (mutex_answer F) :=
  db_get_result <- get_internal (art_key_of k); ret (AnswerValue db_get_result).

(** [src/mutex_art.hpp:55-62] mutex_db::insert_internal *)
Definition mutex_insert (k : key_arg) (v : list Z) : M world (mutex_answer F) :=
  b <- insert_internal (art_key_of k) v; ret (AnswerBool b).

(** [src/mutex_art.hpp:64-68] mutex_db::remove_internal *)
Definition mutex_remove (k : key_arg) : M world (mutex_answer F) :=
  b <- remove_internal (art_key_of k); ret (AnswerBool b).

(** [src/mutex_art.hpp:85-88] mutex_db::empty *)
Definition mutex_empty : M world (mutex_answer F) := b <- empty; ret (AnswerBool b).

(** [src/mutex_art.hpp:123-127] mutex_db::clear *)
Definition mutex_clear : M world (mutex_answer F) := clear;; ret AnswerNone.

(** Runs a scan with the state of the caller's function. *)
Definition visiting (f : F) (m : M (world * F) unit) : M world (mutex_answer F) := λ w,
  match m (w, f) with
  | (Ret _, (w', f')) => (Ret (AnswerVisited f'), w')
  | (Throw x, (w', _)) => (Throw x, w')
  | (UB, (w', _)) => (UB, w')
  | (OutOfFuel, (w', _)) => (OutOfFuel, w')
  end.

(** [src/mutex_art.hpp:135-148] mutex_db::scan *)
Definition mutex_scan (f : F) (fwd : bool) : M world (mutex_answer F) := visiting f (scan fn fwd).

(** [src/mutex_art.hpp:150-166] mutex_db::scan_from *)
Definition mutex_scan_from (from_key : key_arg) (f : F) (fwd : bool) : M world (mutex_answer F) :=
  visiting f (scan_from fn from_key fwd).

(** [src/mutex_art.hpp:168-187] mutex_db::scan_range *)
Definition mutex_scan_range (from_key to_key : key_arg) (f : F) : M world (mutex_answer F) :=
  visiting f (scan_range fn from_key to_key).

(** [src/mutex_art.hpp:199-202] mutex_db::get_current_memory_use *)
Definition mutex_get_current_memory_use : M world (mutex_answer F) :=
  w <- get; ret (AnswerNumber (current_memory_use (env_stats (wenv w)))).

(** [src/mutex_art.hpp:204-208] mutex_db::get_node_count *)
Definition mutex_get_node_count (t : node_type) : M world (mutex_answer F) :=
  w <- get; ret (AnswerNumber (node_counts (env_stats (wenv w)) t)).

(** [src/mutex_art.hpp:215-219] mutex_db::get_growing_inode_count *)
Definition mutex_get_growing_inode_count (t : node_type) : M world (mutex_answer F) :=
  w <- get; ret (AnswerNumber (growing_inode_counts (env_stats (wenv w)) t)).

(** [src/mutex_art.hpp:226-230] mutex_db::get_shrinking_inode_count *)
Definition mutex_get_shrinking_inode_count (t : node_type) : M world (mutex_answer F) :=
  w <- get; ret (AnswerNumber (shrinking_inode_counts (env_stats (wenv w)) t)).

(** [src/mutex_art.hpp:237-240] mutex_db::get_key_prefix_splits *)
Definition mutex_get_key_prefix_splits : M world (mutex_answer F) :=
  w <- get; ret (AnswerNumber (key_prefix_splits (env_stats (wenv w)))).

Definition body (c : call F) : M world (mutex_answer F) :=
  match c with
  | Get k => mutex_get k
  | Insert k v => mutex_insert k v
  | Remove k => mutex_remove k
  | Empty => mutex_empty
  | Clear => mutex_clear
  | Scan f fwd => mutex_scan f fwd
  | ScanFrom k f fwd => mutex_scan_from k f fwd
  | ScanRange k1 k2 f => mutex_scan_range k1 k2 f
  | CurrentMemoryUse => mutex_get_current_memory_use
  | NodeCount t => mutex_get_node_count t
  | GrowingInodeCount t => mutex_get_growing_inode_count t
  | ShrinkingInodeCount t => mutex_get_shrinking_inode_count t
  | KeyPrefixSplits => mutex_get_key_prefix_splits
  end.

(** The scans are [noexcept]: an exception terminates the program. *)
Definition is_noexcept (c : call F) : bool :=
  match c with Scan _ _ | ScanFrom _ _ _ | ScanRange _ _ _ => true | _ => false end.

(** [src/mutex_art.hpp:246-256] mutex_db::key_found *)
Definition key_found (result : option (list Z)) : bool := match result with Some _ => true | None => false end.

(** The value with which [get] hands its guard to the caller, if it does. *)
Definition guarded_value (c : call F) (r : res (mutex_answer F)) : option (list Z) :=
  match c, r with Get _, Ret (AnswerValue (Some v)) => Some v | _, _ => None end.

(** ** The threads *)

(** A thread is outside, waits for the mutex, has it, runs the operation on the
    index as it found it, or owns the guard of a [get_result]. *)
Inductive thread_status :=
  | Idle
  | Waiting (c : call F)
  | Locked (c : call F)
  | Running (c : call F) (found : world)
  | Owning (k : key_arg) (v : list Z).

Inductive mutex_event := Call (c : call F) | Lock | Begin | End | Release.

(** [src/mutex_art.hpp:265-266] mutex_db (data members), with the owner of
    the mutex, the threads, and the record of the operations finished. *)
Record mutex_system := MutexSystem {
  db_ : world;
  mutex : option nat;
  statuses : list thread_status;
  history : list (call F * res (mutex_answer F));
}.

Definition set_status (t : nat) (st : thread_status) (m : option nat) (s : mutex_system) : mutex_system :=
  MutexSystem (db_ s) m (<[t:=st]> (statuses s)) (history s).

(** The end of an operation: the guard is released, also by an exception,
    except that [get] returns it with a value it has found.
    [src/mutex_art.hpp:44-53] mutex_db::get_internal, the guards *)
Definition finish (t : nat) (c : call F) (r : res (mutex_answer F)) (w : world) (s : mutex_system) : mutex_system :=
  let '(st, m) :=
    match c, guarded_value c r with Get k, Some v => (Owning k v, mutex s) | _, _ => (Idle, None) end in
  MutexSystem w m (<[t:=st]> (statuses s)) (history s ++ [(c, r)]).

Definition mutex_step (e : nat * mutex_event) (s : mutex_system) : option mutex_system :=
  let '(t, ev) := e in
  match ev, statuses s !! t with
  | Call c, Some Idle => Some (set_status t (Waiting c) (mutex s) s)
  | Lock, Some (Waiting c) => match mutex s with None => Some (set_status t (Locked c) (Some t) s) | Some _ => None end
  | Begin, Some (Locked c) => Some (set_status t (Running c (db_ s)) (mutex s) s)
  | End, Some (Running c found) =>
      let '(r, w) := body c found in
      match r with
      | Throw _ => if is_noexcept c then None else Some (finish t c r w s)
      | _ => Some (finish t c r w s)
      end
  | Release, Some (Owning _ _) => Some (set_status t Idle None s)
  | _, _ => None
  end.

Definition mutex_initial (n : nat) (w : world) : mutex_system := MutexSystem w None (replicate n Idle) [].

(** The same calls made by one thread, one after the other. *)
Fixpoint run_calls (cs : list (call F)) (w : world) : list (res (mutex_answer F)) * world :=
  match cs with
  | [] => ([], w)
  | c :: cs => let '(r, w) := body c w in let '(rs, w) := run_calls cs w in (r :: rs, w)
  end.

Lemma run_calls_app cs1 cs2 w :
  run_calls (cs1 ++ cs2) w = let '(r1, w1) := run_calls cs1 w in let '(r2, w2) := run_calls cs2 w1 in (r1 ++ r2, w2).
Proof.
  revert w. induction cs1 as [|c cs1 IH]; intros w; cbn [app run_calls].
  - by destruct (run_calls cs2 w).
  - destruct (body c w) as [r w1]. rewrite IH. destruct (run_calls cs1 w1) as [r1 w2].
    destruct (run_calls cs2 w2) as [r2 w3]. done.
Qed.

(** ** [get] leaves the index alone *)

Lemma get_loop_pure fuel node k rk w : (get_loop fuel node k rk w).2 = w.
Proof.
  revert node rk w. induction fuel as [|fuel IH]; intros node rk w; [done|]. cbn [get_loop].
  destruct node as [|leaf|inode]; [done|by destruct (matches leaf k)|]. cbv zeta.
  destruct (_ <? _)%nat; [done|]. unfold bind, of_option.
  destruct (shift_right rk _) as [rk1|]; [|done]. lazy beta iota delta [ret ub].
  destruct (index rk1 0) as [b|]; [|done]. lazy beta iota delta [ret ub].
  destruct (find_child inode b).2 as [sl|]; [|done]. destruct (slot_load inode sl) as [child|]; [|done]. lazy beta iota delta [ret ub].
  destruct (shift_right rk1 1) as [rk2|]; [|done]. lazy beta iota delta [ret ub]. apply IH.
Qed.

Lemma mutex_get_pure k w : (mutex_get k w).2 = w.
Proof.
  unfold mutex_get, get_internal, get_slot, bind. destruct (slot w) eqn:E; [done|..];
    match goal with |- context [get_loop ?f ?n ?k ?rk w] =>
      pose proof (get_loop_pure f n k rk w) as Hp; destruct (get_loop f n k rk w) as [[] w'] end; simpl in *; by subst.
Qed.

(** ** The invariant *)

Definition inside (st : thread_status) : bool :=
  match st with Idle | Waiting _ => false | _ => true end.

(** The thread that has the mutex is the only one inside; what it works on is
    the index as it is; and a value it owns is the one [get] returns now. *)
Record mutex_inv (w0 : world) (s : mutex_system) : Prop := {
  mutex_owner : ∀ t st, statuses s !! t = Some st → inside st = true → mutex s = Some t;
  mutex_running : ∀ t c w, statuses s !! t = Some (Running c w) → w = db_ s;
  mutex_owning : ∀ t k v, statuses s !! t = Some (Owning k v) → mutex_get k (db_ s) = (Ret (AnswerValue (Some v)), db_ s);
  mutex_sequential : run_calls (history s).*1 w0 = ((history s).*2, db_ s) }.

(** A step that leaves the index alone. *)
Lemma set_status_inv w0 s t st0 st m :
  mutex_inv w0 s → statuses s !! t = Some st0 →
  (inside st0 = true ∨ mutex s = None ∨ m = mutex s) →
  (inside st = true → m = Some t) → (inside st = false → inside st0 = true ∨ m = mutex s) →
  (∀ c w, st = Running c w → w = db_ s) →
  (∀ k v, st = Owning k v → mutex_get k (db_ s) = (Ret (AnswerValue (Some v)), db_ s)) →
  mutex_inv w0 (set_status t st m s).
Proof.
  intros Hinv Ht Hm Hin Hout Hrun Hown. assert (Hlt : (t < length (statuses s))%nat) by (by eapply lookup_lt_Some).
  split; cbn [set_status statuses db_ mutex history].
  - intros u x Hu Hx. destruct (decide (u = t)) as [->|Hne].
    + rewrite list_lookup_insert_eq in Hu by done. simplify_eq. by apply Hin.
    + rewrite list_lookup_insert_ne in Hu by done. pose proof (mutex_owner _ _ Hinv u x Hu Hx) as Ho.
      destruct Hm as [H1|[H1| ->]]; [|congruence|done].
      pose proof (mutex_owner _ _ Hinv t st0 Ht H1). congruence.
  - intros u c w Hu. destruct (decide (u = t)) as [->|Hne].
    + rewrite list_lookup_insert_eq in Hu by done. injection Hu as ->. by eapply Hrun.
    + rewrite list_lookup_insert_ne in Hu by done. by eapply (mutex_running _ _ Hinv).
  - intros u k v Hu. destruct (decide (u = t)) as [->|Hne].
    + rewrite list_lookup_insert_eq in Hu by done. injection Hu as ->. by apply Hown.
    + rewrite list_lookup_insert_ne in Hu by done. by eapply (mutex_owning _ _ Hinv).
  - apply Hinv.
Qed.

(** The end of an operation. *)
Lemma finish_inv w0 s t c found r w :
  mutex_inv w0 s → statuses s !! t = Some (Running c found) → body c found = (r, w) →
  mutex_inv w0 (finish t c r w s).
Proof.
  intros Hinv Ht Hb. assert (Hlt : (t < length (statuses s))%nat) by (by eapply lookup_lt_Some).
  pose proof (mutex_running _ _ Hinv t c found Ht) as ->. pose proof (mutex_owner _ _ Hinv t _ Ht eq_refl) as Ho.
  assert (Hother : ∀ u x, u ≠ t → statuses s !! u = Some x → inside x = false).
  { intros u x Hne Hu. destruct (inside x) eqn:Hx; [|done]. pose proof (mutex_owner _ _ Hinv u x Hu Hx). congruence. }
  assert (Hseq : run_calls (history s ++ [(c, r)]).*1 w0 = ((history s ++ [(c, r)]).*2, w)).
  { rewrite !fmap_app, run_calls_app, (mutex_sequential _ _ Hinv). cbn [fmap list_fmap run_calls fst snd]. by rewrite Hb. }
  assert (Hgen : ∀ st m, (inside st = true → m = Some t) → (∀ c' w', st ≠ Running c' w') →
    (∀ k v, st = Owning k v → mutex_get k w = (Ret (AnswerValue (Some v)), w)) →
    mutex_inv w0 (MutexSystem w m (<[t:=st]> (statuses s)) (history s ++ [(c, r)]))).
  { intros st m Hm Hnr Hown. split; cbn [statuses db_ mutex history]; [| | |exact Hseq].
    - intros u x Hu Hx. destruct (decide (u = t)) as [->|Hne].
      + rewrite list_lookup_insert_eq in Hu by done. simplify_eq. by apply Hm.
      + rewrite list_lookup_insert_ne in Hu by done. by rewrite (Hother u x Hne Hu) in Hx.
    - intros u c' w' Hu. destruct (decide (u = t)) as [->|Hne].
      + rewrite list_lookup_insert_eq in Hu by done. injection Hu as ->. by destruct (Hnr c' w').
      + rewrite list_lookup_insert_ne in Hu by done. by specialize (Hother u _ Hne Hu).
    - intros u k v Hu. destruct (decide (u = t)) as [->|Hne].
      + rewrite list_lookup_insert_eq in Hu by done. injection Hu as ->. by apply Hown.
      + rewrite list_lookup_insert_ne in Hu by done. by specialize (Hother u _ Hne Hu). }
  unfold finish. destruct c; try by apply Hgen.
  cbn [guarded_value]. destruct r as [[[v|]| | | |]| | |]; try by apply Hgen.
  apply Hgen; [done|done|]. intros k' v' [= <- <-]. pose proof (mutex_get_pure k (db_ s)) as Hp.
  cbn [body] in Hb. rewrite Hb in Hp. simpl in Hp. by subst w.
Qed.

Lemma mutex_step_inv w0 e s s' : mutex_inv w0 s → mutex_step e s = Some s' → mutex_inv w0 s'.
Proof.
  intros Hinv Hs. destruct e as [t ev]. unfold mutex_step in Hs.
  destruct ev, (statuses s !! t) as [st|] eqn:Ht; try done; destruct st; try done.
  - injection Hs as <-. eapply set_status_inv; eauto; done.
  - destruct (mutex s) eqn:Hm; [done|]. injection Hs as <-. eapply set_status_inv; eauto; try done.
  - injection Hs as <-. eapply set_status_inv; eauto; try done.
    + intros _. by apply (mutex_owner _ _ Hinv t _ Ht).
    + intros c' w' [= _ <-]. done.
  - destruct (body c found) as [r w] eqn:Hb. pose proof (finish_inv w0 s t c found r w Hinv Ht Hb) as Hf.
    destruct r; [by injection Hs as <-| |by injection Hs as <-..]. destruct (is_noexcept c); [done|by injection Hs as <-].
  - injection Hs as <-. eapply set_status_inv; eauto; done.
Qed.

Lemma mutex_reachable_inv es n w0 s : run mutex_step es (mutex_initial n w0) = Some s → mutex_inv w0 s.
Proof.
  intros Hrun. assert (Hbase : mutex_inv w0 (mutex_initial n w0)).
  { split; [|..|done]; unfold mutex_initial; cbn [statuses].
    - intros t st [-> _]%lookup_replicate. done.
    - intros t c w [Hu _]%lookup_replicate. discriminate Hu.
    - intros t k v [Hu _]%lookup_replicate. discriminate Hu. }
  revert Hbase Hrun. generalize (mutex_initial n w0). induction es as [|e es IH]; intros s0 Hbase Hrun; simpl in Hrun; [by simplify_eq|].
  destruct (mutex_step e s0) as [s1|] eqn:Hs; [|done]. apply (IH s1); [|done]. by apply (mutex_step_inv w0 e s0).
Qed.
End mutex_db.
