(* ===== verification/MutexTheorems.v ===== *)
(** What the index behind a mutex promises. *)

From S2P Require Import Prelude Words ArtKey KeyPrefix SortedAssoc Simd InodeBase.
From S2P Require Import Inode4 Inode16 Inode48 Inode256 Heap Stats Leaf.
From S2P Require Import InodeSpec Inode Tree Db DbTrace Buffer Iterator Samples Threads MutexDb.

(** A caller's function that collects the entries it is shown. *)
Definition collect (key value : list Z) (acc : list (list Z * list Z)) : bool * list (list Z * list Z) :=
  (false, acc ++ [(key, value)]).

Definition mutex_op (t : nat) (c : call (list (list Z * list Z))) : list (nat * mutex_event) :=
  [(t, Call c); (t, Lock); (t, Begin); (t, End)].

(** Three threads; the second waits while the first inserts, the first then
    keeps the value it looks up while the third waits to remove it. *)
Definition mutex_schedule : list (nat * mutex_event) :=
  [(0%nat, Call (Insert (IntKey 7) [1])); (1%nat, Call (Insert (IntKey 8) [2]));
   (0%nat, Lock); (0%nat, Begin); (0%nat, End); (1%nat, Lock); (1%nat, Begin); (1%nat, End)] ++
  mutex_op 1 (Scan [] true) ++ mutex_op 0 (Get (IntKey 7)) ++ [(2%nat, Call (Remove (IntKey 7)))].

Definition mutex_after : mutex_system :=
  default (mutex_initial 0 (new_db fresh_heap)) (run (@mutex_step sse plenty _ collect) mutex_schedule (mutex_initial 3 (new_db fresh_heap))).

(** C26: Whatever the threads do, the operations finished have returned what
    they return when one thread makes the same calls one after the other, in
    the order in which they finished, and the index is the one this leaves;
    the thread that has the mutex, in an operation or as the owner of a guard,
    is the only one; and as long as a thread owns the guard of a value it
    found, the index still maps the key to that value. *)
Theorem mutex_db_is_sequential `{Target, Allocator} {F : Type} (fn : list Z → list Z → F → bool * F)
    (nt : nat) (w0 : world) (es : list (nat * mutex_event)) (s : mutex_system) :
  run (mutex_step fn) es (mutex_initial nt w0) = Some s →
  run_calls fn (history s).*1 w0 = ((history s).*2, db_ s) ∧
  (∀ t st, statuses s !! t = Some st → inside st = true → mutex s = Some t) ∧
  (∀ t k v, statuses s !! t = Some (Owning k v) → db_get k (db_ s) = (Ret (Some v), db_ s)).
Proof.
  intros Hrun. pose proof (mutex_reachable_inv fn es nt w0 s Hrun) as Hinv.
  split; [apply Hinv|]. split; [apply Hinv|].
  intros t k v Ht. pose proof (mutex_owning _ _ _ Hinv t k v Ht) as Hget.
  unfold mutex_get, bind, db_get in *. destruct (get_internal (art_key_of k) (db_ s)) as [[r| | |] w]; try discriminate Hget.
  injection Hget as -> ->. done.
Qed.

Lemma mutex_db_is_sequential_witness :
  @run_calls sse plenty _ collect (history mutex_after).*1 (new_db fresh_heap) = ((history mutex_after).*2, db_ mutex_after) ∧
  mutex mutex_after = Some 0%nat ∧ @db_get sse (IntKey 7) (db_ mutex_after) = (Ret (Some [1]), db_ mutex_after).
Proof.
  assert (Hrun : run (@mutex_step sse plenty _ collect) mutex_schedule (mutex_initial 3 (new_db fresh_heap)) = Some mutex_after)
    by (vm_compute; reflexivity).
  destruct (@mutex_db_is_sequential sse plenty _ collect 3 (new_db fresh_heap) mutex_schedule mutex_after Hrun) as (H1 & H2 & H3).
  split; [exact H1|]. split; [apply (H2 0%nat (Owning (IntKey 7) [1])); [vm_compute; reflexivity|reflexivity]|].
  apply (H3 0%nat). vm_compute. reflexivity.
Defined.
