(* ===== verification/OlcState.v ===== *)
(** The shared memory of the index with optimistic lock coupling, and the
    accesses its operations are made of.  Nodes have addresses here: threads
    keep pointers to nodes that others change, replace and retire. *)

From ITree Require Import ITree.
From S2P Require Import Prelude Words ArtKey KeyPrefix Simd InodeBase.
From S2P Require Import Inode4 Inode16 Inode48 Inode256 Heap Stats Leaf.
From S2P Require Import InodeSpec Inode OptimisticLock.

(** ** Node pointers *)

Definition addr := nat.

(** A tagged pointer.  A leaf never changes once it is made, so that a pointer
    to one carries what is stored there; its lock is in the memory.
    [src/olc_art.hpp:84-84] olc_node_ptr *)
Inductive olc_ptr :=
  | PNull
  | PLeaf (a : addr) (l : basic_leaf)
  | PInode (a : addr) (t : node_type).

#[export] Instance olc_ptr_eq_dec : EqDecision olc_ptr.
Proof. solve_decision. Defined.

Definition ptr_addr (p : olc_ptr) : option addr :=
  match p with PNull => None | PLeaf a _ | PInode a _ => Some a end.

(** What the node types need of their child pointers.  The prefix of the node
    behind a pointer is in the memory, and the operations that read or change it
    are accesses of their own (below). *)
#[export] Instance olc_node_ptr_ops : NodePtr olc_ptr.
Proof.
  refine {|
    null_ptr := PNull;
    is_null p := match p with PNull => true | _ => false end;
    is_leaf p := match p with PInode _ _ => false | _ => true end;
    leaf_key_view p := match p with PLeaf _ l => leaf_get_key_view l | _ => [] end;
    ptr_key_prefix _ := 0;
    ptr_map_prefix _ p := p;
  |}; done.
Defined.

(** ** The memory *)

Inductive contents :=
  | LeafC (l : basic_leaf)
  | InodeC (n : inode olc_ptr).

(** A node: its header, which holds its lock, and the rest.
    [src/olc_art.hpp:38-60] olc_node_header *)
Record object := Object { node_lock : Z; node_contents : contents }.

(** [retired]: the nodes handed to the reclamation.  A retired node stays in
    memory as long as a thread may hold a pointer to it, and its address is not
    given out again.
    [src/olc_art.hpp:823-829] olc_db *)
Record shared := Shared {
  root_pointer_lock : Z;
  root : olc_ptr;
  nodes : gmap addr object;
  next_addr : addr;
  retired : list addr;
}.

(** [src/olc_art.hpp:188-188] olc_db() *)
Definition new_olc_db : shared := Shared 0 PNull ∅ 0%nat [].

(** The locks, and the places that hold a node pointer. *)
Inductive lock_ref := RootLock | NodeLock (a : addr).
Inductive slot_ref := RootSlot | ChildSlot (a : addr) (s : nat).

#[export] Instance lock_ref_eq_dec : EqDecision lock_ref.
Proof. solve_decision. Defined.

#[export] Instance lock_ref_countable : Countable lock_ref.
Proof.
  refine (inj_countable' (λ l, match l with RootLock => None | NodeLock a => Some a end)
    (λ o, match o with None => RootLock | Some a => NodeLock a end) _).
  by intros [].
Defined.

Definition lock_word (s : shared) (l : lock_ref) : option Z :=
  match l with RootLock => Some (root_pointer_lock s) | NodeLock a => node_lock <$> nodes s !! a end.

Definition set_lock_word (l : lock_ref) (w : Z) (s : shared) : shared :=
  match l with
  | RootLock => Shared w (root s) (nodes s) (next_addr s) (retired s)
  | NodeLock a => Shared (root_pointer_lock s) (root s)
      (alter (λ o, Object w (node_contents o)) a (nodes s)) (next_addr s) (retired s)
  end.

Definition inode_at (s : shared) (a : addr) : option (inode olc_ptr) :=
  match nodes s !! a with Some (Object _ (InodeC n)) => Some n | _ => None end.

Definition set_inode (a : addr) (n : inode olc_ptr) (s : shared) : shared :=
  Shared (root_pointer_lock s) (root s) (alter (λ o, Object (node_lock o) (InodeC n)) a (nodes s))
    (next_addr s) (retired s).

(** What a pointer is tagged with is what is there. *)
Definition points_to (p : olc_ptr) (c : contents) : bool :=
  match p, c with
  | PLeaf _ l, LeafC l' => bool_decide (l = l')
  | PInode _ t, InodeC n => bool_decide (type n = t)
  | _, _ => false
  end.

(** ** Counters *)

(** The atomic operations on the counters: [fetch_add], [fetch_sub], and the stores
    with which [clear] resets them; no operation reads them.
    [src/olc_art.hpp:835-857] olc_db *)
Inductive counting :=
  | MemoryAdd (delta : Z)
  | MemorySub (delta : Z)
  | NodeAdd (t : node_type)
  | NodeSub (t : node_type)
  | GrowingAdd (t : node_type)
  | ShrinkingAdd (t : node_type)
  | SplitsAdd
  | MemoryReset
  | NodeReset (t : node_type).

Definition count_one (u : counting) : stats → stats :=
  match u with
  | MemoryAdd delta => Stats.increase_memory_use delta
  | MemorySub delta => Stats.decrease_memory_use delta
  | NodeAdd t => update_node_count t (λ c, c + 1)
  | NodeSub t => update_node_count t (λ c, c - 1)
  | GrowingAdd t => Stats.account_growing_inode t
  | ShrinkingAdd t => Stats.account_shrinking_inode t
  | SplitsAdd => count_prefix_split
  | MemoryReset => λ s, Stats 0 (node_counts s) (growing_inode_counts s) (shrinking_inode_counts s) (key_prefix_splits s)
  | NodeReset t => update_node_count t (λ _, 0)
  end.

(** ** Accesses *)

(** An operation is a program over these accesses, each of them one step: a call
    on a lock, a load or a store of a pointer, a method of a node that reads or
    changes the node, an allocation, the release of a node by the deleter for its
    type, or an operation on a counter.  [Undefined] is undefined behaviour. *)
Variant access : Type → Type :=
  | TryReadLock (l : lock_ref) : access (option read_critical_section)
  | Check (l : lock_ref) (rcs : read_critical_section) : access bool
  | TryReadUnlock (l : lock_ref) (rcs : read_critical_section) : access bool
  | Upgrade (l : lock_ref) (rcs : read_critical_section) : access bool
  | Unlock (l : lock_ref) : access unit
  | UnlockAndObsolete (l : lock_ref) : access unit
  | LoadSlot (r : slot_ref) : access olc_ptr
  | StoreSlot (r : slot_ref) (p : olc_ptr) : access unit
  | ReadInode (a : addr) : access (inode olc_ptr)
  | InitInode (a : addr) (n : inode olc_ptr) : access unit
  | AddToNonfull (a : addr) (child : olc_ptr) (depth : tree_depth) (children_count : Z) : access unit
  | RemoveChild (a : addr) (child_index : Z) : access olc_ptr
  | CutPrefix (a : addr) (cut_len : nat) : access unit
  | PrependPrefix (a : addr) (prefix1 : key_prefix) (prefix2 : Z) : access unit
  | NewLeaf (l : basic_leaf) : access (option addr)
  | NewInode (n : inode olc_ptr) : access (option addr)
  | Free (p : olc_ptr) : access unit
  | Retire (p : olc_ptr) : access unit
  | Count (u : counting) : access unit
  | Undefined : access Empty_set.

(** A step on a lock word by one of the lock's operations. *)
Definition on_lock {A} (l : lock_ref) (f : Z → A * Z) (s : shared) : option (A * shared) :=
  w ← lock_word s l; let '(a, w') := f w in Some (a, set_lock_word l w' s).

Definition on_inode {A} (a : addr) (f : inode olc_ptr → option (inode olc_ptr * A)) (s : shared)
    : option (A * shared) :=
  n ← inode_at s a; r ← f n; let '(n', x) := r in Some (x, set_inode a n' s).

Definition new_object (c : contents) (s : shared) : shared :=
  Shared (root_pointer_lock s) (root s) (<[next_addr s := Object 0 c]> (nodes s)) (S (next_addr s)) (retired s).

Section access.
Context `{Target}.

(** [available] tells whether an allocation succeeds.  No result is an access to
    memory that is not there, or to a node of another kind. *)
Definition perform {X} (available : bool) (e : access X) (s : shared) : option (X * shared) :=
  match e in access X return option (X * shared) with
  | TryReadLock l => on_lock l (λ w, (try_read_lock w, w)) s
  | Check l rcs => on_lock l (λ w, (check w rcs, w)) s
  | TryReadUnlock l rcs => on_lock l (λ w, (try_read_unlock w rcs, w)) s
  | Upgrade l rcs => on_lock l (λ w, try_lock_upgrade w rcs) s
  | Unlock l => on_lock l (λ w, (tt, write_unlock w)) s
  | UnlockAndObsolete l => on_lock l (λ w, (tt, write_unlock_and_obsolete w)) s
  | LoadSlot RootSlot => Some (root s, s)
  | LoadSlot (ChildSlot a i) => n ← inode_at s a; p ← slot_load n i; Some (p, s)
  | StoreSlot RootSlot p =>
      Some (tt, Shared (root_pointer_lock s) p (nodes s) (next_addr s) (retired s))
  | StoreSlot (ChildSlot a i) p => on_inode a (λ n, old ← slot_load n i; Some (slot_store n i p, tt)) s
  | ReadInode a => n ← inode_at s a; Some (n, s)
  | InitInode a n' => on_inode a (λ n, if bool_decide (type n = type n') then Some (n', tt) else None) s
  | AddToNonfull a child depth count => on_inode a (λ n, n' ← add_to_nonfull n child depth count; Some (n', tt)) s
  | RemoveChild a i => on_inode a (λ n, remove n i) s
  | CutPrefix a len => on_inode a (λ n, Some (set_key_prefix (cut (get_key_prefix n) len) n, tt)) s
  | PrependPrefix a w b => on_inode a (λ n, Some (set_key_prefix (prepend (get_key_prefix n) w b) n, tt)) s
  | NewLeaf l => Some (if available then (Some (next_addr s), new_object (LeafC l) s) else (None, s))
  | NewInode n => Some (if available then (Some (next_addr s), new_object (InodeC n) s) else (None, s))
  | Free p => a ← ptr_addr p; o ← nodes s !! a;
      if points_to p (node_contents o)
      then Some (tt, Shared (root_pointer_lock s) (root s) (delete a (nodes s)) (next_addr s) (retired s)) else None
  | Retire p => a ← ptr_addr p; o ← nodes s !! a;
      if points_to p (node_contents o)
      then Some (tt, Shared (root_pointer_lock s) (root s) (nodes s) (next_addr s) (a :: retired s)) else None
  | Count _ => Some (tt, s)
  | Undefined => None
  end.
End access.
