(* ===== verification/Olc.v ===== *)
(** The operations of the index with optimistic lock coupling, as programs over
    the accesses to shared memory.  [None] in place of a result is the empty
    [std::optional] with which the code asks to be restarted. *)

From ITree Require Import ITree.
From S2P Require Import Prelude Words ArtKey KeyPrefix Simd InodeBase.
From S2P Require Import Inode4 Inode16 Inode48 Inode256 Heap Stats Leaf.
From S2P Require Import InodeSpec Inode OptimisticLock OlcState.

(** ** Programs *)

Abbreviation prog := (itree access).

Declare Scope prog_scope.
Delimit Scope prog_scope with prog.
Notation "x <- m ; k" := (ITree.bind m (λ x, k)) (at level 100, m at next level, right associativity) : prog_scope.
Notation "m ;; k" := (ITree.bind m (λ _, k)) (at level 100, right associativity) : prog_scope.
(** [if (!test) return r;] *)
Notation "'need' m 'else' r ; k" := (ITree.bind m (λ ok : bool, if ok then k else r))
  (at level 100, m at next level, r at next level, right associativity) : prog_scope.
#[local] Open Scope prog_scope.

Definition give {A} (a : A) : prog A := go (RetF a).
Definition do {A} (e : access A) : prog A := ITree.trigger e.

Definition undefined {A} : prog A := v <- do Undefined; match v : Empty_set with end.
Definition of_opt {A} (o : option A) : prog A := match o with Some a => give a | None => undefined end.

(** What a call that may throw gives. *)
Inductive outcome (A : Type) :=
  | Value (a : A)
  | Thrown (e : exn).
#[global] Arguments Value {A} _.
#[global] Arguments Thrown {A} _.

(** A critical section: the lock and what [try_read_lock] returned. *)
Record section := Sec { sec_lock : lock_ref; sec_rcs : read_critical_section }.

(** [src/olc_art.hpp:967-974] node_ptr_lock *)
Definition node_ptr_lock (node : olc_ptr) : prog lock_ref := of_opt (NodeLock <$> ptr_addr node).

(** The loop of [try_read_lock], which waits while the lock is write-locked.
    [src/optimistic_lock.hpp:676-697] optimistic_lock::try_read_lock *)
Definition read_lock (l : lock_ref) : prog section :=
  ITree.iter (λ _ : unit, r <- do (TryReadLock l);
    give (match r with Some rcs => inr (Sec l rcs) | None => inl tt end)) tt.

(** [src/optimistic_lock.hpp:496-498] read_critical_section::must_restart *)
Definition sec_restart (c : section) : bool := must_restart (sec_rcs c).
(** [src/optimistic_lock.hpp:519-525] read_critical_section::check *)
Definition checked (c : section) : prog bool := do (Check (sec_lock c) (sec_rcs c)).
(** [src/optimistic_lock.hpp:545-552] read_critical_section::try_read_unlock *)
Definition read_unlock (c : section) : prog bool := do (TryReadUnlock (sec_lock c) (sec_rcs c)).
(** [write_guard guard{std::move(c)}]; [!guard.must_restart()]
    [src/optimistic_lock.hpp:598-612] write_guard *)
Definition write_guard (c : section) : prog bool := do (Upgrade (sec_lock c) (sec_rcs c)).
(** The destructor of an active guard.
    [src/optimistic_lock.hpp:601-605] write_guard::~write_guard *)
Definition guard_exit (c : section) : prog unit := do (Unlock (sec_lock c)).
(** [src/olc_art.hpp:993-1004] obsolete *)
Definition obsolete (c : section) : prog unit := do (UnlockAndObsolete (sec_lock c)).

(** ** Statistics *)

(** With the lock in the header; the sizes are those of the release build.
    [src/olc_art.hpp:1130-1145] sizeof *)
Definition sizeof_inode (t : node_type) : Z :=
  match t with I4 => 56 | I16 => 176 | I48 => 672 | I256 => 2072 | LEAF => 0 end.

(** The header, two 32-bit sizes, one data byte and its padding. *)
Definition sizeof_leaf : Z := 24.

(** [src/art_internal_impl.hpp:202-215] compute_size *)
Definition compute_size (key_size val_size : Z) : Z := wrap64 (sizeof_leaf + key_size + val_size - 1).

(** [src/art_internal_impl.hpp:186-189] get_size *)
Definition get_size (l : basic_leaf) : Z := compute_size (key_size l) (value_size l).

(** [src/olc_art.hpp:2683-2688] increase_memory_use *)
Definition increase_memory_use (delta : Z) : prog unit := do (Count (MemoryAdd delta)).

(** [src/olc_art.hpp:2692-2700] decrease_memory_use *)
Definition decrease_memory_use (delta : Z) : prog unit := do (Count (MemorySub delta)).

(** [src/olc_art.hpp:795-798] increment_leaf_count *)
Definition increment_leaf_count (leaf_size : Z) : prog unit :=
  increase_memory_use leaf_size;; do (Count (NodeAdd LEAF)).

(** [src/olc_art.hpp:800-807] decrement_leaf_count *)
Definition decrement_leaf_count (leaf_size : Z) : prog unit :=
  decrease_memory_use leaf_size;; do (Count (NodeSub LEAF)).

(** [src/olc_art.hpp:2702-2709] increment_inode_count *)
Definition increment_inode_count (t : node_type) : prog unit :=
  do (Count (NodeAdd t));; increase_memory_use (sizeof_inode t).

(** [src/olc_art.hpp:2711-2721] decrement_inode_count *)
Definition decrement_inode_count (t : node_type) : prog unit :=
  do (Count (NodeSub t));; decrease_memory_use (sizeof_inode t).

(** [src/olc_art.hpp:2723-2731] account_growing_inode *)
Definition account_growing_inode (t : node_type) : prog unit := do (Count (GrowingAdd t)).

(** [src/olc_art.hpp:2733-2740] account_shrinking_inode *)
Definition account_shrinking_inode (t : node_type) : prog unit := do (Count (ShrinkingAdd t)).

Section olc.
Context `{Target}.

(** ** Nodes made before the locks are taken and filled afterwards *)

(** [larger_derived_type(db, inode)], the constructor alone. *)
Definition raw_larger (n : inode olc_ptr) : option (inode olc_ptr) :=
  match n with
  | N4 n => Some (N16 (raw_inode_16 (with_count (i4_impl n) 5)))
  | N16 n => Some (N48 (raw_inode_48 (with_count (i16_impl n) 17)))
  | N48 n => Some (N256 (raw_inode_256 (with_count (i48_impl n) 49)))
  | N256 _ => None
  end.

(** [larger_node->init(db, inode, guard, leaf, depth)], the copy alone. *)
Definition init_larger (n source_node : inode olc_ptr) (child : olc_ptr) (depth : tree_depth)
    : option (inode olc_ptr) :=
  match n, source_node with
  | N16 n, N4 src => N16 <$> Inode16.init_from_4 n src child depth
  | N48 n, N16 src => N48 <$> Inode48.init_from_16 n src child depth
  | N256 n, N48 src => N256 <$> Inode256.init_from_48 n src child depth
  | _, _ => None
  end.

(** [smaller_derived_type(db, inode)] *)
Definition raw_smaller (n : inode olc_ptr) : option (inode olc_ptr) :=
  match n with
  | N4 _ => None
  | N16 n => Some (N4 (raw_inode_4 (with_count (i16_impl n) 4)))
  | N48 n => Some (N16 (raw_inode_16 (with_count (i48_impl n) 16)))
  | N256 n => Some (N48 (raw_inode_48 (with_count (i256_impl n) 48)))
  end.

(** [smaller_node->init(db, inode, guard, child_i, child_guard)]: the copy and the
    child it hands over. *)
Definition init_smaller (n source_node : inode olc_ptr) (child_to_delete : Z) : option (inode olc_ptr * olc_ptr) :=
  match n, source_node with
  | N4 n, N16 src => p ← Inode4.init_from_16 n src child_to_delete; Some (N4 p.1, p.2)
  | N16 n, N48 src => p ← Inode16.init_from_48 n src child_to_delete; Some (N16 p.1, p.2)
  | N48 n, N256 src => p ← Inode48.init_from_256 n src child_to_delete; Some (N48 p.1, p.2)
  | _, _ => None
  end.

(** [inode_4(db, source_node, len)]
    [src/art_internal_impl.hpp:1306-1308] basic_inode_4 *)
Definition raw_for_prefix (source_node : inode olc_ptr) (len : nat) : inode_4 olc_ptr :=
  raw_inode_4 (Impl (prefix_of_source len (get_key_prefix source_node)) 2).

(** ** Allocation and reclamation *)

(** Lengths that a leaf cannot hold are refused before anything is allocated.
    [src/art_internal_impl.hpp:229-265] make_db_leaf_ptr *)
Definition make_leaf (k : art_key) (v : list Z) : prog (outcome olc_ptr) :=
  let too_long := match k with KView _ => max_key_size <? Z.of_nat (key_size_of k) | KInt _ => false end in
  if too_long then give (Thrown length_error)
  else if max_value_size <? Z.of_nat (length v) then give (Thrown length_error)
  else
    let size := compute_size (wrap32 (Z.of_nat (key_size_of k))) (wrap32 (Z.of_nat (length v))) in
    a <- do (NewLeaf (leaf_of k v));
    match a with
    | Some a => increment_leaf_count size;; give (Value (PLeaf a (leaf_of k v)))
    | None => give (Thrown bad_alloc)
    end.

(** [src/olc_art.hpp:1408-1420] create_leaf_if_needed *)
Definition create_leaf_if_needed (cached_leaf : option olc_ptr) (k : art_key) (v : list Z) : prog (outcome olc_ptr) :=
  match cached_leaf with Some leaf => give (Value leaf) | None => make_leaf k v end.

(** The new node with its header.
    [src/art_internal_impl.hpp:380-399] make_db_inode_unique_ptr *)
Definition make_inode (n : inode olc_ptr) : prog (outcome addr) :=
  a <- do (NewInode n);
  match a with
  | Some a => increment_inode_count (type n);; give (Value a)
  | None => give (Thrown bad_alloc)
  end.

(** The destructor of the unique pointer to an internal node.
    [src/art_internal_impl.hpp:301-311] basic_db_inode_deleter *)
Definition free_inode (a : addr) (t : node_type) : prog unit :=
  do (Free (PInode a t));; decrement_inode_count t.

(** The destructor of the unique pointer to a leaf.
    [src/art_internal_impl.hpp:287-299] basic_db_leaf_deleter *)
Definition free_leaf (cached_leaf : option olc_ptr) : prog unit :=
  match cached_leaf with
  | Some (PLeaf _ l as leaf) => do (Free leaf);; decrement_leaf_count (get_size l)
  | Some _ => undefined
  | None => give tt
  end.

(** [src/olc_art.hpp:935-954] db_leaf_qsbr_deleter *)
Definition retire_leaf (p : olc_ptr) : prog unit :=
  match p with PLeaf _ l => do (Retire p);; decrement_leaf_count (get_size l) | _ => undefined end.

(** [src/olc_art.hpp:903-920] db_inode_qsbr_deleter *)
Definition retire_inode (a : addr) (t : node_type) : prog unit :=
  do (Retire (PInode a t));; decrement_inode_count t.

(** ** Lookup *)

Abbreviation get_result := (option (list Z)).

(** One turn of the loop of [try_get]: the next node, the section of its parent
    and the rest of the key, or the result.
    [src/olc_art.hpp:1708-1762] try_get *)
Definition get_step (k : art_key) (st : olc_ptr * section * art_key)
    : prog (olc_ptr * section * art_key + option get_result) :=
  let '(node, parent_critical_section, remaining_key) := st in
  lock <- node_ptr_lock node;
  node_critical_section <- read_lock lock;
  if sec_restart node_critical_section then give (inr None) else
  need read_unlock parent_critical_section else give (inr None);
  match node with
  | PNull => undefined
  | PLeaf _ leaf =>
      if matches leaf k then
        need read_unlock node_critical_section else give (inr None);
        give (inr (Some (Some (get_value_view leaf))))
      else
        need read_unlock node_critical_section else give (inr None);
        give (inr (Some None))
  | PInode a _ =>
      inode <- do (ReadInode a);
      let key_prefix_length := prefix_length (get_key_prefix inode) in
      inode <- do (ReadInode a);
      let shared_key_prefix_length := get_shared_length (get_key_prefix inode) (get_u64 remaining_key) in
      if (shared_key_prefix_length <? key_prefix_length)%nat then
        need read_unlock node_critical_section else give (inr None);
        give (inr (Some None))
      else
        remaining_key <- of_opt (shift_right remaining_key key_prefix_length);
        key_byte <- of_opt (index remaining_key 0);
        inode <- do (ReadInode a);
        match (find_child inode key_byte).2 with
        | None =>
            need read_unlock node_critical_section else give (inr None);
            give (inr (Some None))
        | Some s =>
            child <- do (LoadSlot (ChildSlot a s));
            remaining_key <- of_opt (shift_right remaining_key 1);
            need checked node_critical_section else give (inr None);
            give (inl (child, node_critical_section, remaining_key))
        end
  end.

(** [src/olc_art.hpp:1674-1763] try_get *)
Definition try_get (k : art_key) : prog (option get_result) :=
  parent_critical_section <- read_lock RootLock;
  if sec_restart parent_critical_section then give None else
  node <- do (LoadSlot RootSlot);
  match node with
  | PNull =>
      need read_unlock parent_critical_section else give None;
      give (Some None)
  | _ =>
      need checked parent_critical_section else give None;
      ITree.iter (get_step k) (node, parent_critical_section, k)
  end.

(** [src/olc_art.hpp:1659-1672] get_internal *)
Definition get_internal (k : art_key) : prog get_result :=
  ITree.iter (λ _ : unit,
    result <- try_get k;
    give (match result with Some r => inr r | None => inl tt end)) tt.

(** ** Insertion *)

(** [larger_node->init(...)]: the source node is obsoleted, copied and handed to
    the reclamation.
    [src/olc_art.hpp:1164-1172] olc_inode_16::init *)
Definition init_from_smaller (larger_node : addr) (larger : inode olc_ptr) (source_node : addr)
    (source_node_guard : section) (child : olc_ptr) (depth : tree_depth) : prog unit :=
  obsolete source_node_guard;;
  source <- do (ReadInode source_node);
  larger <- of_opt (init_larger larger source child depth);
  do (InitInode larger_node larger);;
  retire_inode source_node (type source).

(** Restart ([None]), done ([Some None]), or the slot of the child to go on with;
    and what becomes of the cached leaf.
    [src/olc_art.hpp:1423-1481] olc_impl_helpers::add_or_choose_subtree *)
Definition add_or_choose_subtree (inode : addr) (t : node_type) (key_byte : Z) (k : art_key) (v : list Z)
    (depth : tree_depth) (node_critical_section : section) (node_in_parent : slot_ref)
    (parent_critical_section : section) (cached_leaf : option olc_ptr)
    : prog (outcome (option (option nat)) * option olc_ptr) :=
  n <- do (ReadInode inode);
  match (find_child n key_byte).2 with
  | Some child_in_parent => give (Value (Some (Some child_in_parent)), cached_leaf)
  | None =>
      leaf <- create_leaf_if_needed cached_leaf k v;
      match leaf with
      | Thrown e => give (Thrown e, cached_leaf)
      | Value leaf =>
          n <- do (ReadInode inode);
          let children_count := get_children_count n in
          if negb (bool_decide (t = I256)) && (children_count =? inode_capacity t) then
            n <- do (ReadInode inode);
            raw <- of_opt (raw_larger n);
            larger_node <- make_inode raw;
            match larger_node with
            | Thrown e => give (Thrown e, Some leaf)
            | Value larger_node =>
                need write_guard parent_critical_section
                  else (free_inode larger_node (type raw);; give (Value None, Some leaf));
                need write_guard node_critical_section
                  else (guard_exit parent_critical_section;; free_inode larger_node (type raw);; give (Value None, Some leaf));
                init_from_smaller larger_node raw inode node_critical_section leaf depth;;
                do (StoreSlot node_in_parent (PInode larger_node (larger_type t)));;
                guard_exit parent_critical_section;;
                account_growing_inode (larger_type t);;
                give (Value (Some None), None)
            end
          else
            need write_guard node_critical_section else give (Value None, Some leaf);
            need read_unlock parent_critical_section
              else (guard_exit node_critical_section;; give (Value None, Some leaf));
            do (AddToNonfull inode leaf depth children_count);;
            guard_exit node_critical_section;;
            give (Value (Some None), None)
      end
  end.

(** [olc_inode_4::init] above a node: the node's prefix loses what moved up.
    [src/art_internal_impl.hpp:1327-1339] init *)
Definition init_above (new_node : addr) (new : inode_4 olc_ptr) (source : addr) (source_node : olc_ptr)
    (shared_prefix_len : nat) (depth : tree_depth) (child1 : olc_ptr) : prog unit :=
  inode <- do (ReadInode source);
  let diff_key_byte_i := depth_add depth (Z.of_nat shared_prefix_len) in
  let source_node_key_byte := prefix_index (get_key_prefix inode) shared_prefix_len in
  do (CutPrefix source (shared_prefix_len + 1));;
  new_key_byte <- of_opt (leaf_key_view child1 !! Z.to_nat diff_key_byte_i);
  do (InitInode new_node (N4 (add_two_to_empty new source_node_key_byte source_node new_key_byte child1))).

(** The state of the loop of [try_insert]: the node, the section of its parent,
    its slot there, the depth, the rest of the key, and the cached leaf. *)
Record insert_state := InsertState {
  ins_node : olc_ptr;
  ins_parent : section;
  ins_slot : slot_ref;
  ins_depth : tree_depth;
  ins_key : art_key;
  ins_leaf : option olc_ptr;
}.

(** The result of [try_insert], with what is left in the cached leaf. *)
Definition insert_result := (outcome (option bool) * option olc_ptr)%type.

(** A leaf in place of the node: the two leaves get a common parent.
    [src/olc_art.hpp:1825-1861] try_insert *)
Definition insert_at_leaf (k : art_key) (v : list Z) (leaf : basic_leaf) (node_critical_section : section)
    (st : insert_state) : prog insert_result :=
  let existing_key := leaf_get_key_view leaf in
  if cmp k existing_key =? 0 then
    need read_unlock (ins_parent st) else give (Value None, ins_leaf st);
    need read_unlock node_critical_section else give (Value None, ins_leaf st);
    free_leaf (ins_leaf st);;
    give (Value (Some false), None)
  else
    cached <- create_leaf_if_needed (ins_leaf st) k v;
    match cached with
    | Thrown e => give (Thrown e, ins_leaf st)
    | Value cached =>
        new <- of_opt (new_for_leaves existing_key (ins_key st) (ins_depth st));
        new_node <- make_inode (N4 new);
        match new_node with
        | Thrown e => give (Thrown e, Some cached)
        | Value new_node =>
            need write_guard (ins_parent st) else (free_inode new_node I4;; give (Value None, Some cached));
            need write_guard node_critical_section
              else (guard_exit (ins_parent st);; free_inode new_node I4;; give (Value None, Some cached));
            new <- of_opt (init_leaves new existing_key (ins_key st) (ins_depth st) (ins_node st) cached);
            do (InitInode new_node (N4 new));;
            do (StoreSlot (ins_slot st) (PInode new_node I4));;
            guard_exit node_critical_section;;
            guard_exit (ins_parent st);;
            account_growing_inode I4;;
            give (Value (Some true), None)
        end
    end.

(** A node whose prefix the key leaves: a new node above it.
    [src/olc_art.hpp:1871-1896] try_insert *)
Definition insert_above (k : art_key) (v : list Z) (a : addr) (shared_prefix_length : nat)
    (node_critical_section : section) (st : insert_state) : prog insert_result :=
  cached <- create_leaf_if_needed (ins_leaf st) k v;
  match cached with
  | Thrown e => give (Thrown e, ins_leaf st)
  | Value cached =>
      inode <- do (ReadInode a);
      let new := raw_for_prefix inode shared_prefix_length in
      new_node <- make_inode (N4 new);
      match new_node with
      | Thrown e => give (Thrown e, Some cached)
      | Value new_node =>
          need write_guard (ins_parent st) else (free_inode new_node I4;; give (Value None, Some cached));
          need write_guard node_critical_section
            else (guard_exit (ins_parent st);; free_inode new_node I4;; give (Value None, Some cached));
          init_above new_node new a (ins_node st) shared_prefix_length (ins_depth st) cached;;
          do (StoreSlot (ins_slot st) (PInode new_node I4));;
          guard_exit node_critical_section;;
          guard_exit (ins_parent st);;
          account_growing_inode I4;;
          do (Count SplitsAdd);;
          give (Value (Some true), None)
      end
  end.

(** One turn of the loop.
    [src/olc_art.hpp:1819-1925] try_insert *)
Definition insert_step (k : art_key) (v : list Z) (st : insert_state) : prog (insert_state + insert_result) :=
  lock <- node_ptr_lock (ins_node st);
  node_critical_section <- read_lock lock;
  if sec_restart node_critical_section then give (inr (Value None, ins_leaf st)) else
  match ins_node st with
  | PNull => undefined
  | PLeaf _ leaf => r <- insert_at_leaf k v leaf node_critical_section st; give (inr r)
  | PInode a t =>
      inode <- do (ReadInode a);
      let key_prefix_length := prefix_length (get_key_prefix inode) in
      inode <- do (ReadInode a);
      let shared_prefix_length := get_shared_length (get_key_prefix inode) (get_u64 (ins_key st)) in
      if (shared_prefix_length <? key_prefix_length)%nat then
        r <- insert_above k v a shared_prefix_length node_critical_section st; give (inr r)
      else
        let depth := depth_add (ins_depth st) (Z.of_nat key_prefix_length) in
        remaining_key <- of_opt (shift_right (ins_key st) key_prefix_length);
        key_byte <- of_opt (index remaining_key 0);
        add_result <- add_or_choose_subtree a t key_byte k v depth node_critical_section (ins_slot st)
                        (ins_parent st) (ins_leaf st);
        let '(add_result, cached_leaf) := add_result in
        match add_result with
        | Thrown e => give (inr (Thrown e, cached_leaf))
        | Value None => give (inr (Value None, cached_leaf))
        | Value (Some None) => give (inr (Value (Some true), cached_leaf))
        | Value (Some (Some child_in_parent)) =>
            need read_unlock (ins_parent st) else give (inr (Value None, cached_leaf));
            child <- do (LoadSlot (ChildSlot a child_in_parent));
            remaining_key <- of_opt (shift_right remaining_key 1);
            need checked node_critical_section else give (inr (Value None, cached_leaf));
            give (inl (InsertState child node_critical_section (ChildSlot a child_in_parent) (depth_inc depth)
                         remaining_key cached_leaf))
        end
  end.

(** [src/olc_art.hpp:1780-1926] try_insert *)
Definition try_insert (k : art_key) (v : list Z) (cached_leaf : option olc_ptr) : prog insert_result :=
  parent_critical_section <- read_lock RootLock;
  if sec_restart parent_critical_section then give (Value None, cached_leaf) else
  node <- do (LoadSlot RootSlot);
  match node with
  | PNull =>
      leaf <- create_leaf_if_needed cached_leaf k v;
      match leaf with
      | Thrown e => give (Thrown e, cached_leaf)
      | Value leaf =>
          need write_guard parent_critical_section else give (Value None, Some leaf);
          do (StoreSlot RootSlot leaf);;
          guard_exit parent_critical_section;;
          give (Value (Some true), None)
      end
  | _ =>
      need checked parent_critical_section else give (Value None, cached_leaf);
      ITree.iter (insert_step k v) (InsertState node parent_critical_section RootSlot 0 k cached_leaf)
  end.

(** The cached leaf is released when the call returns or throws.
    [src/olc_art.hpp:1765-1778] insert_internal *)
Definition insert_internal (k : art_key) (v : list Z) : prog (outcome bool) :=
  ITree.iter (λ cached_leaf,
    result <- try_insert k v cached_leaf;
    let '(result, cached_leaf) := result in
    match result with
    | Value None => give (inl cached_leaf)
    | Value (Some b) => free_leaf cached_leaf;; give (inr (Value b))
    | Thrown e => free_leaf cached_leaf;; give (inr (Thrown e))
    end) None.

(** ** Removal *)

(** [smaller_node->init(...)]: the source node and the deleted child are
    obsoleted, the rest is copied, and both are handed to the reclamation.
    [src/olc_art.hpp:1227-1241] olc_inode_4::init *)
Definition init_from_larger (smaller_node : addr) (smaller : inode olc_ptr) (source_node : addr)
    (source_node_guard : section) (child_to_delete : Z) (child_guard : section) : prog unit :=
  obsolete source_node_guard;;
  obsolete child_guard;;
  source <- do (ReadInode source_node);
  r <- of_opt (init_smaller smaller source child_to_delete);
  do (InitInode smaller_node r.1);;
  retire_leaf r.2;;
  retire_inode source_node (type source).

(** What is left of a node of two children.
    [src/art_internal_impl.hpp:1460-1480] leave_last_child *)
Definition leave_last_child (a : addr) (child_to_delete : Z) : prog olc_ptr :=
  inode <- do (ReadInode a);
  match inode with
  | N4 n =>
      child_to_delete_ptr <- of_opt (i4_children n !! Z.to_nat child_to_delete);
      let child_to_leave := if child_to_delete =? 0 then 1%nat else 0%nat in
      child_to_leave_ptr <- of_opt (i4_children n !! child_to_leave);
      match child_to_leave_ptr with
      | PInode c _ => do (PrependPrefix c (k_prefix (i4_impl n)) (i4_keys n !!! child_to_leave))
      | _ => give tt
      end;;
      retire_leaf child_to_delete_ptr;;
      give child_to_leave_ptr
  | _ => undefined
  end.

(** The ways a turn of the removal ends, other than by an exception: no result,
    false, true with no child to go on with, true with the child's slot, section
    and pointer. *)
Inductive remove_choice :=
  | Restart
  | Absent
  | Removed
  | Descend (child_in_parent : nat) (child_critical_section : section) (child : olc_ptr).

(** The three ways to take a matching leaf out of its node.
    [src/olc_art.hpp:1536-1554] olc_impl_helpers::remove_or_choose_subtree *)
Definition remove_in_place (inode : addr) (child_i : Z) (parent_critical_section node_critical_section
    child_critical_section : section) : prog (outcome remove_choice) :=
  need read_unlock parent_critical_section else give (Value Restart);
  need write_guard node_critical_section else give (Value Restart);
  need write_guard child_critical_section else (guard_exit node_critical_section;; give (Value Restart));
  obsolete child_critical_section;;
  removed <- do (RemoveChild inode child_i);
  retire_leaf removed;;
  guard_exit node_critical_section;;
  give (Value Removed).

(** [src/olc_art.hpp:1558-1579] olc_impl_helpers::remove_or_choose_subtree *)
Definition remove_and_leave_last (inode : addr) (child_i : Z) (node_in_parent : slot_ref)
    (parent_critical_section node_critical_section child_critical_section : section)
    : prog (outcome remove_choice) :=
  need write_guard parent_critical_section else give (Value Restart);
  need write_guard node_critical_section else (guard_exit parent_critical_section;; give (Value Restart));
  need write_guard child_critical_section
    else (guard_exit node_critical_section;; guard_exit parent_critical_section;; give (Value Restart));
  obsolete node_critical_section;;
  obsolete child_critical_section;;
  last <- leave_last_child inode child_i;
  do (StoreSlot node_in_parent last);;
  retire_inode inode I4;;
  guard_exit parent_critical_section;;
  account_shrinking_inode I4;;
  give (Value Removed).

(** [src/olc_art.hpp:1580-1601] olc_impl_helpers::remove_or_choose_subtree *)
Definition remove_and_shrink (inode : addr) (t : node_type) (child_i : Z) (node_in_parent : slot_ref)
    (parent_critical_section node_critical_section child_critical_section : section)
    : prog (outcome remove_choice) :=
  n <- do (ReadInode inode);
  raw <- of_opt (raw_smaller n);
  smaller_node <- make_inode raw;
  match smaller_node with
  | Thrown e => give (Thrown e)
  | Value smaller_node =>
      need write_guard parent_critical_section else (free_inode smaller_node (type raw);; give (Value Restart));
      need write_guard node_critical_section
        else (guard_exit parent_critical_section;; free_inode smaller_node (type raw);; give (Value Restart));
      need write_guard child_critical_section
        else (guard_exit node_critical_section;; guard_exit parent_critical_section;;
              free_inode smaller_node (type raw);; give (Value Restart));
      init_from_larger smaller_node raw inode node_critical_section child_i child_critical_section;;
      do (StoreSlot node_in_parent (PInode smaller_node (smaller_type t)));;
      guard_exit parent_critical_section;;
      account_shrinking_inode t;;
      give (Value Removed)
  end.

(** [src/olc_art.hpp:1484-1609] olc_impl_helpers::remove_or_choose_subtree *)
Definition remove_or_choose_subtree (inode : addr) (t : node_type) (key_byte : Z) (k : art_key)
    (parent_critical_section node_critical_section : section) (node_in_parent : slot_ref)
    : prog (outcome remove_choice) :=
  n <- do (ReadInode inode);
  let '(child_i, found_child) := find_child n key_byte in
  match found_child with
  | None =>
      need read_unlock parent_critical_section else give (Value Restart);
      need read_unlock node_critical_section else give (Value Restart);
      give (Value Absent)
  | Some found_child =>
      child <- do (LoadSlot (ChildSlot inode found_child));
      need checked node_critical_section else give (Value Restart);
      child_lock <- node_ptr_lock child;
      child_critical_section <- read_lock child_lock;
      if sec_restart child_critical_section then give (Value Restart) else
      match child with
      | PNull => undefined
      | PInode _ _ =>
          need read_unlock parent_critical_section else give (Value Restart);
          give (Value (Descend found_child child_critical_section child))
      | PLeaf _ leaf =>
          if negb (matches leaf k) then
            need read_unlock parent_critical_section else give (Value Restart);
            need read_unlock node_critical_section else give (Value Restart);
            need read_unlock child_critical_section else give (Value Restart);
            give (Value Absent)
          else
            n <- do (ReadInode inode);
            let is_node_min_size := get_children_count n =? inode_min_size t in
            if negb is_node_min_size then
              remove_in_place inode child_i parent_critical_section node_critical_section child_critical_section
            else if bool_decide (t = I4) then
              remove_and_leave_last inode child_i node_in_parent
                parent_critical_section node_critical_section child_critical_section
            else
              remove_and_shrink inode t child_i node_in_parent
                parent_critical_section node_critical_section child_critical_section
      end
  end.

(** The state of the loop of [try_remove]. *)
Record remove_state := RemoveState {
  rem_node : olc_ptr;
  rem_parent : section;
  rem_section : section;
  rem_slot : slot_ref;
  rem_depth : tree_depth;
  rem_key : art_key;
}.

(** One turn of the loop.
    [src/olc_art.hpp:2000-2051] try_remove *)
Definition remove_step (k : art_key) (st : remove_state) : prog (remove_state + outcome (option bool)) :=
  match rem_node st with
  | PNull | PLeaf _ _ => undefined
  | PInode a t =>
      inode <- do (ReadInode a);
      let key_prefix_length := prefix_length (get_key_prefix inode) in
      inode <- do (ReadInode a);
      let shared_prefix_length := get_shared_length (get_key_prefix inode) (get_u64 (rem_key st)) in
      if (shared_prefix_length <? key_prefix_length)%nat then
        need read_unlock (rem_parent st) else give (inr (Value None));
        need read_unlock (rem_section st) else give (inr (Value None));
        give (inr (Value (Some false)))
      else
        let depth := depth_add (rem_depth st) (Z.of_nat key_prefix_length) in
        remaining_key <- of_opt (shift_right (rem_key st) key_prefix_length);
        key_byte <- of_opt (index remaining_key 0);
        opt_remove_result <- remove_or_choose_subtree a t key_byte k (rem_parent st) (rem_section st) (rem_slot st);
        match opt_remove_result with
        | Thrown e => give (inr (Thrown e))
        | Value Restart => give (inr (Value None))
        | Value Absent => give (inr (Value (Some false)))
        | Value Removed => give (inr (Value (Some true)))
        | Value (Descend child_in_parent child_critical_section child) =>
            remaining_key <- of_opt (shift_right remaining_key 1);
            give (inl (RemoveState child (rem_section st) child_critical_section (ChildSlot a child_in_parent)
                         (depth_inc depth) remaining_key))
        end
  end.

(** The leaf at the root.
    [src/olc_art.hpp:1971-1994] try_remove *)
Definition remove_root_leaf (k : art_key) (p : olc_ptr) (leaf : basic_leaf)
    (parent_critical_section node_critical_section : section) : prog (outcome (option bool)) :=
  if matches leaf k then
    need write_guard parent_critical_section else give (Value None);
    need write_guard node_critical_section else (guard_exit parent_critical_section;; give (Value None));
    obsolete node_critical_section;;
    do (StoreSlot RootSlot PNull);;
    retire_leaf p;;
    guard_exit parent_critical_section;;
    give (Value (Some true))
  else
    need read_unlock node_critical_section else give (Value None);
    give (Value (Some false)).

(** [src/olc_art.hpp:1939-2052] try_remove *)
Definition try_remove (k : art_key) : prog (outcome (option bool)) :=
  parent_critical_section <- read_lock RootLock;
  if sec_restart parent_critical_section then give (Value None) else
  node <- do (LoadSlot RootSlot);
  need checked parent_critical_section else give (Value None);
  match node with
  | PNull => give (Value (Some false))
  | _ =>
      lock <- node_ptr_lock node;
      node_critical_section <- read_lock lock;
      if sec_restart node_critical_section then give (Value None) else
      match node with
      | PLeaf _ leaf => remove_root_leaf k node leaf parent_critical_section node_critical_section
      | _ =>
          ITree.iter (remove_step k)
            (RemoveState node parent_critical_section node_critical_section RootSlot 0 k)
      end
  end.

(** [src/olc_art.hpp:1928-1937] remove_internal *)
Definition remove_internal (k : art_key) : prog (outcome bool) :=
  ITree.iter (λ _ : unit,
    result <- try_remove k;
    give (match result with
          | Value None => inl tt
          | Value (Some b) => inr (Value b)
          | Thrown e => inr (Thrown e)
          end)) tt.

(** ** Deletion of the index

    Only one thread may use the index then, so that no lock is taken. *)

Fixpoint for_each {A} (f : A → prog unit) (l : list A) : prog unit :=
  match l with [] => give tt | a :: l => f a;; for_each f l end.

(** The node goes after its children, by the deleter of its type.  [fuel] bounds
    the height.
    [src/art_internal_impl.hpp:426-510] delete_subtree *)
Fixpoint delete_subtree (fuel : nat) (node : olc_ptr) : prog unit :=
  match fuel with
  | O => undefined
  | S fuel =>
      match node with
      | PNull => undefined
      | PLeaf _ _ => free_leaf (Some node)
      | PInode a t =>
          inode <- do (ReadInode a);
          for_each (delete_subtree fuel) (all_children inode);;
          free_inode a t
      end
  end.

(** [src/olc_art.hpp:1625-1638] delete_root_subtree *)
Definition delete_root_subtree (fuel : nat) : prog unit :=
  root <- do (LoadSlot RootSlot);
  match root with PNull => give tt | _ => delete_subtree fuel root end.

(** [src/olc_art.hpp:1640-1657] clear *)
Definition olc_clear (fuel : nat) : prog unit :=
  delete_root_subtree fuel;;
  do (StoreSlot RootSlot PNull);;
  do (Count MemoryReset);;
  do (Count (NodeReset I4));;
  do (Count (NodeReset I16));;
  do (Count (NodeReset I48));;
  do (Count (NodeReset I256)).

(** The destructor.
    [src/olc_art.hpp:1617-1623] ~olc_db *)
Definition olc_destroy (fuel : nat) : prog unit := delete_root_subtree fuel.

(** [src/olc_art.hpp:203-204] empty *)
Definition olc_empty : prog bool :=
  p <- do (LoadSlot RootSlot);
  give (match p with PNull => true | _ => false end).
End olc.
