(* ===== verification/OlcIter.v ===== *)
(** The iterator of the index with optimistic lock coupling, and the scans built
    on it, as programs over the accesses to shared memory.  The stack and the key
    buffer belong to the iterator alone and are passed along; their growth is
    taken not to fail.  [false] is the result with which a [try_] member asks to
    be called again. *)

From ITree Require Import ITree.
From S2P Require Import Prelude Words ArtKey KeyPrefix Simd InodeBase.
From S2P Require Import Inode4 Inode16 Inode48 Inode256 Heap Stats Leaf.
From S2P Require Import InodeSpec Inode Tree Db OptimisticLock OlcState Olc.
#[local] Open Scope prog_scope.

(** ** The state *)

(** A node on the path, the key byte and child index it was left by, its prefix,
    and the version of its lock when these were read.
    [src/olc_art.hpp:298-310] iterator::stack_entry *)
Record stack_entry := StackEntry {
  e_node : olc_ptr;
  e_key_byte : Z;
  e_child_index : Z;
  e_prefix : key_prefix;
  e_version : Z;
}.

(** The stack has its top first.
    [src/olc_art.hpp:538-549] iterator::stack_, iterator::keybuf_ *)
Record iterator := Iterator {
  stack_ : list stack_entry;
  keybuf_ : list Z;
}.

(** [src/olc_art.hpp:315-316] iterator::iterator *)
Definition new_iterator : iterator := Iterator [] [].

(** [src/olc_art.hpp:418-418] iterator::valid *)
Definition valid (it : iterator) : bool := match stack_ it with [] => false | _ => true end.

(** [src/olc_art.hpp:435-449] iterator::try_push *)
Definition try_push_inode (node : olc_ptr) (key_byte child_index : Z) (prefix : key_prefix) (c : section)
    (it : iterator) : iterator :=
  Iterator (StackEntry node key_byte child_index prefix (version (sec_rcs c)) :: stack_ it)
    (keybuf_ it ++ snapshot_key_view prefix ++ [key_byte]).

(** [src/olc_art.hpp:452-461] iterator::try_push_leaf *)
Definition try_push_leaf (aleaf : olc_ptr) (c : section) (it : iterator) : iterator :=
  Iterator (StackEntry aleaf 0xFF 0xFF 0 (version (sec_rcs c)) :: stack_ it) (keybuf_ it).

(** The entry of node [node] at a position of one of its iteration functions,
    which also take a snapshot of its prefix.
    [src/olc_art.hpp:464-471] iterator::try_push *)
Definition try_push (node : olc_ptr) (n : inode olc_ptr) (pos : iter_pos) (c : section) (it : iterator) : iterator :=
  match node with
  | PLeaf _ _ => try_push_leaf node c it
  | _ => try_push_inode node pos.1 pos.2 (get_key_prefix n) c it
  end.

(** [src/olc_art.hpp:475-486] iterator::pop *)
Definition pop (it : iterator) : iterator :=
  match stack_ it with
  | [] => it
  | e :: st => Iterator st (take (length (keybuf_ it) - prefix_length (e_prefix e)) (keybuf_ it))
  end.

(** [src/olc_art.hpp:496-498] iterator::current_node *)
Definition current_node (it : iterator) : olc_ptr := match stack_ it with [] => PNull | e :: _ => e_node e end.

(** The key buffer is left as it is.
    [src/olc_art.hpp:504-507] iterator::invalidate *)
Definition invalidate (it : iterator) : iterator := Iterator [] (keybuf_ it).

(** The section of an entry, from the version it keeps. *)
Definition entry_section (e : stack_entry) : prog section :=
  lock <- node_ptr_lock (e_node e); give (Sec lock (rehydrate_read_lock (e_version e))).

Section iter.
Context `{Target}.

(** [inode->get_child(node_type, child_index)] *)
Definition load_child (a : addr) (child_index : Z) : prog olc_ptr :=
  n <- do (ReadInode a); of_opt (get_child n child_index).

(** What a [try_] member gives. *)
Abbreviation tried := (bool * iterator)%type.

(** ** Traversal *)

(** One turn of the loop of a traversal, which leaves each node by its outermost
    child on one side.
    [src/olc_art.hpp:2551-2578] iterator::try_left_most_traversal *)
Definition traversal_step (outermost : inode olc_ptr → option iter_pos) (s : iterator * olc_ptr * section)
    : prog (iterator * olc_ptr * section + tried) :=
  let '(it, node, parent_critical_section) := s in
  lock <- node_ptr_lock node;
  node_critical_section <- read_lock lock;
  if sec_restart node_critical_section then give (inr (false, it)) else
  need read_unlock parent_critical_section else give (inr (false, it));
  match node with
  | PNull => undefined
  | PLeaf _ _ =>
      let it := try_push_leaf node node_critical_section it in
      ok <- read_unlock node_critical_section;
      give (inr (ok, it))
  | PInode a _ =>
      n <- do (ReadInode a);
      t <- of_opt (outermost n);
      need checked node_critical_section else give (inr (false, it));
      let it := try_push node n t node_critical_section it in
      child <- load_child a t.2;
      need checked node_critical_section else give (inr (false, it));
      give (inl (it, child, node_critical_section))
  end.

Definition try_traversal (outermost : inode olc_ptr → option iter_pos) (node : olc_ptr) (parent_critical_section : section)
    (it : iterator) : prog tried :=
  need checked parent_critical_section else give (false, it);
  ITree.iter (traversal_step outermost) (it, node, parent_critical_section).

(** [src/olc_art.hpp:2541-2580] iterator::try_left_most_traversal *)
Definition try_left_most_traversal : olc_ptr → section → iterator → prog tried := try_traversal Inode.begin.

(** [src/olc_art.hpp:2588-2627] iterator::try_right_most_traversal *)
Definition try_right_most_traversal : olc_ptr → section → iterator → prog tried := try_traversal Inode.last.

(** ** The next and the prior entry *)

(** One turn of the loop, towards the siblings on one side and down to the nearest
    leaf there.
    [src/olc_art.hpp:2136-2175] iterator::try_next *)
Definition step_over (sibling : inode olc_ptr → Z → option iter_pos) (descend : olc_ptr → section → iterator → prog tried)
    (it : iterator) : prog (iterator + tried) :=
  match stack_ it with
  | [] => give (inr (true, it))
  | e :: _ =>
      node_critical_section <- entry_section e;
      need checked node_critical_section else give (inr (false, it));
      match e_node e with
      | PNull => undefined
      | PLeaf _ _ =>
          let it := pop it in
          need read_unlock node_critical_section else give (inr (false, it));
          give (inl it)
      | PInode a _ =>
          n <- do (ReadInode a);
          let nxt := sibling n (e_child_index e) in
          need checked node_critical_section else give (inr (false, it));
          match nxt with
          | None =>
              let it := pop it in
              need read_unlock node_critical_section else give (inr (false, it));
              give (inl it)
          | Some e2 =>
              let it := try_push (e_node e) n e2 node_critical_section (pop it) in
              child <- load_child a e2.2;
              need checked node_critical_section else give (inr (false, it));
              r <- descend child node_critical_section it;
              give (inr r)
          end
      end
  end.

(** [src/olc_art.hpp:2135-2177] iterator::try_next *)
Definition try_next : iterator → prog tried := ITree.iter (step_over Inode.next try_left_most_traversal).

(** [src/olc_art.hpp:2209-2247] iterator::try_prior *)
Definition try_prior : iterator → prog tried := ITree.iter (step_over Inode.prior try_right_most_traversal).

(** ** The first and the last entry *)

(** From the root to a leaf.
    [src/olc_art.hpp:2071-2079] iterator::try_first *)
Definition try_outermost (descend : olc_ptr → section → iterator → prog tried) (it : iterator) : prog tried :=
  let it := invalidate it in
  parent_critical_section <- read_lock RootLock;
  if sec_restart parent_critical_section then give (false, it) else
  node <- do (LoadSlot RootSlot);
  match node with
  | PNull => ok <- read_unlock parent_critical_section; give (ok, it)
  | _ => descend node parent_critical_section it
  end.

(** [src/olc_art.hpp:2070-2080] iterator::try_first *)
Definition try_first : iterator → prog tried := try_outermost try_left_most_traversal.

(** [src/olc_art.hpp:2094-2104] iterator::try_last *)
Definition try_last : iterator → prog tried := try_outermost try_right_most_traversal.

(** [while (!member()) spin_wait_loop_body();] *)
Definition until_done (member : iterator → prog tried) (it : iterator) : prog iterator :=
  ITree.iter (λ it, r <- member it; give (if r.1 : bool then inr r.2 else inl r.2)) it.

(** [src/olc_art.hpp:2059-2064] iterator::first *)
Definition first : iterator → prog iterator := until_done try_first.

(** [src/olc_art.hpp:2083-2088] iterator::last *)
Definition last : iterator → prog iterator := until_done try_last.

(** ** Seeking *)

(** What [try_seek] gives, with [match] last. *)
Abbreviation sought := (tried * bool)%type.

(** [src/olc_art.hpp:2263-2267] unlock_and_return *)
Definition unlock_and_return (c : section) (ret : tried) : prog tried :=
  ok <- read_unlock c;
  give (if ok : bool then ret.1 else false, ret.2).

(** [ret && step()] *)
Definition and_then (ret : tried) (step : iterator → prog tried) : prog tried :=
  if ret.1 then step ret.2 else give ret.

(** One turn of the loop that leaves a node with no child beyond the search key.
    [src/olc_art.hpp:2422-2443] iterator::try_seek *)
Definition climb_step (sibling : inode olc_ptr → Z → option iter_pos) (descend : olc_ptr → section → iterator → prog tried)
    (it : iterator) : prog (iterator + tried) :=
  match stack_ it with
  | [] => give (inr (true, it))
  | centry :: _ =>
      c_critical_section <- entry_section centry;
      need checked c_critical_section else give (inr (false, it));
      match e_node centry with
      | PInode a _ =>
          n <- do (ReadInode a);
          match sibling n (e_child_index centry) with
          | Some _ =>
              nchild <- load_child a (e_child_index centry);
              need checked c_critical_section else give (inr (false, it));
              r <- descend nchild c_critical_section it;
              give (inr r)
          | None =>
              let it := pop it in
              need read_unlock c_critical_section else give (inr (false, it));
              give (inl it)
          end
      | _ => undefined
      end
  end.

(** [if (!empty()) pop();] *)
Definition pop_nonempty (it : iterator) : iterator := if valid it then pop it else it.

(** Beyond a node with no child for the key byte: to the nearest one on one side,
    or up.
    [src/olc_art.hpp:2408-2461] iterator::try_seek *)
Definition seek_beyond (bound sibling : inode olc_ptr → Z → option iter_pos)
    (descend : olc_ptr → section → iterator → prog tried) (node : olc_ptr) (a : addr) (key_byte : Z)
    (parent_critical_section node_critical_section : section) (it : iterator) : prog tried :=
  n <- do (ReadInode a);
  match bound n key_byte with
  | None =>
      need read_unlock parent_critical_section else give (false, it);
      need read_unlock node_critical_section else give (false, it);
      ITree.iter (climb_step sibling descend) (pop_nonempty it)
  | Some tmp =>
      child <- load_child a tmp.2;
      need checked node_critical_section else give (false, it);
      need read_unlock parent_critical_section else give (false, it);
      descend child node_critical_section (try_push_inode node tmp.1 tmp.2 (get_key_prefix n) node_critical_section it)
  end.

(** Forward, and in reverse.
    [src/olc_art.hpp:2396-2517] iterator::try_seek *)
Definition seek_no_child (fwd : bool) : olc_ptr → addr → Z → section → section → iterator → prog tried :=
  if fwd then seek_beyond gte_key_byte Inode.next try_left_most_traversal
  else seek_beyond lte_key_byte Inode.prior try_right_most_traversal.

(** At a leaf.
    [src/olc_art.hpp:2321-2339] iterator::try_seek *)
Definition seek_leaf (k : art_key) (fwd : bool) (node : olc_ptr) (leaf : basic_leaf)
    (parent_critical_section node_critical_section : section) (it : iterator) : prog sought :=
  need read_unlock parent_critical_section else give (false, it, false);
  let it := try_push_leaf node node_critical_section it in
  let cmp_ := leaf_cmp leaf k in
  need read_unlock node_critical_section else give (false, it, false);
  if cmp_ =? 0 then give (true, it, true)
  else if fwd then
    r <- (if cmp_ <? 0 then give (true, it) else try_next it); give (r, false)
  else
    r <- (if 0 <? cmp_ then give (true, it) else try_prior it); give (r, false).

(** At a node whose prefix the key leaves; [cmp_] tells on which side.
    [src/olc_art.hpp:2359-2388] iterator::try_seek *)
Definition seek_mismatch (cmp_ : Z) (fwd : bool) (node : olc_ptr) (parent_critical_section node_critical_section : section)
    (it : iterator) : prog tried :=
  if fwd then
    if cmp_ <? 0 then
      r <- try_left_most_traversal node parent_critical_section it;
      unlock_and_return node_critical_section r
    else
      r <- try_right_most_traversal node parent_critical_section it;
      r <- unlock_and_return node_critical_section r;
      and_then r try_next
  else
    if cmp_ <? 0 then
      r <- try_left_most_traversal node parent_critical_section it;
      r <- unlock_and_return node_critical_section r;
      and_then r try_prior
    else
      r <- try_right_most_traversal node parent_critical_section it;
      unlock_and_return node_critical_section r.

(** One turn of the loop.
    [src/olc_art.hpp:2308-2531] iterator::try_seek *)
Definition seek_step (k : art_key) (fwd : bool) (s : iterator * olc_ptr * section * art_key)
    : prog (iterator * olc_ptr * section * art_key + sought) :=
  let '(it, node, parent_critical_section, remaining_key) := s in
  lock <- node_ptr_lock node;
  node_critical_section <- read_lock lock;
  if sec_restart node_critical_section then give (inr (false, it, false)) else
  need checked parent_critical_section else give (inr (false, it, false));
  match node with
  | PNull => undefined
  | PLeaf _ leaf =>
      r <- seek_leaf k fwd node leaf parent_critical_section node_critical_section it;
      give (inr r)
  | PInode a _ =>
      n <- do (ReadInode a);
      let key_prefix := get_key_prefix n in
      let key_prefix_length := prefix_length key_prefix in
      let shared_length := snapshot_get_shared_length key_prefix (get_u64 remaining_key) in
      if (shared_length <? key_prefix_length)%nat then
        key_byte <- of_opt (index remaining_key shared_length);
        r <- seek_mismatch (key_byte - prefix_index key_prefix shared_length) fwd node
          parent_critical_section node_critical_section it;
        give (inr (r, false))
      else
        remaining_key <- of_opt (shift_right remaining_key key_prefix_length);
        key_byte <- of_opt (index remaining_key 0);
        n <- do (ReadInode a);
        match find_child n key_byte with
        | (_, None) =>
            r <- seek_no_child fwd node a key_byte parent_critical_section node_critical_section it;
            give (inr (r, false))
        | (child_index, Some s) =>
            let it := try_push_inode node key_byte child_index key_prefix node_critical_section it in
            child <- do (LoadSlot (ChildSlot a s));
            remaining_key <- of_opt (shift_right remaining_key 1);
            need checked node_critical_section else give (inr (false, it, false));
            give (inl (it, child, node_critical_section, remaining_key))
        end
  end.

(** [src/olc_art.hpp:2284-2533] iterator::try_seek *)
Definition try_seek (search_key : art_key) (fwd : bool) (it : iterator) : prog sought :=
  let it := invalidate it in
  parent_critical_section <- read_lock RootLock;
  if sec_restart parent_critical_section then give (false, it, false) else
  node <- do (LoadSlot RootSlot);
  match node with
  | PNull => ok <- read_unlock parent_critical_section; give (ok, it, false)
  | _ =>
      need checked parent_critical_section else give (false, it, false);
      ITree.iter (seek_step search_key fwd) (it, node, parent_critical_section, search_key)
  end.

(** [src/olc_art.hpp:2250-2256] iterator::seek *)
Definition seek (search_key : art_key) (fwd : bool) : iterator → prog iterator :=
  until_done (λ it, r <- try_seek search_key fwd it; give r.1).

(** The leaf at the top of the stack. *)
Definition current_leaf (it : iterator) : option basic_leaf :=
  match current_node it with PLeaf _ leaf => Some leaf | _ => None end.

(** One turn of the loop that starts again from the key the iterator was at.
    [src/olc_art.hpp:2118-2130] iterator::next *)
Definition step_again (akey : art_key) (fwd : bool) (try_step : iterator → prog tried) (it : iterator) : prog (iterator + iterator) :=
  r <- try_seek akey fwd it;
  let '(ok, it, match_) := r in
  if negb ok then give (inl it)
  else if negb match_ then give (inr it)
  else
    r <- try_step it;
    give (if r.1 : bool then inr r.2 else inl r.2).

(** To the entry after, or before, that of the current leaf. [fixed] tells an index
    over [std::uint64_t] keys.
    [src/olc_art.hpp:2107-2132] iterator::next *)
Definition step_from_leaf (fixed : bool) (fwd : bool) (try_step : iterator → prog tried) (it : iterator) : prog iterator :=
  match current_node it with
  | PNull => give it
  | _ =>
      leaf <- of_opt (current_leaf it);
      let akey := leaf_get_key fixed 0 leaf in
      r <- try_step it;
      if r.1 : bool then give r.2 else ITree.iter (step_again akey fwd try_step) r.2
  end.

(** [src/olc_art.hpp:2107-2132] iterator::next *)
Definition next (fixed : bool) : iterator → prog iterator := step_from_leaf fixed true try_next.

(** [src/olc_art.hpp:2180-2205] iterator::prior *)
Definition prior (fixed : bool) : iterator → prog iterator := step_from_leaf fixed false try_prior.

(** ** The current entry *)

(** [src/olc_art.hpp:2631-2648] iterator::get_key *)
Definition get_key (it : iterator) : option (list Z) := leaf_get_key_view <$> current_leaf it.

(** [src/olc_art.hpp:2652-2662] iterator::get_val *)
Definition get_val (it : iterator) : option (list Z) := get_value_view <$> current_leaf it.

(** [src/olc_art.hpp:2665-2674] iterator::cmp *)
Definition cmp (it : iterator) (akey : art_key) : option Z :=
  (λ leaf, compare (leaf_get_key_view leaf) (get_key_view akey)) <$> current_leaf it.

(** ** Scans

    The caller's function sees the current key and value and may keep a state of
    its own, of type [F]; it asks for the scan to end by returning [true]. *)

Section scan.
Context {F : Type} (fixed : bool) (fn : list Z → list Z → F → bool * F).

(** One turn of [while (it.valid() && continues) { if (fn(v)) break; step; }] *)
Definition scan_turn (continues : iterator → option bool) (step : iterator → prog iterator) (s : iterator * F)
    : prog (iterator * F + F) :=
  let '(it, f) := s in
  if valid it then
    in_range <- of_opt (continues it);
    if (in_range : bool) then
      key <- of_opt (get_key it);
      value <- of_opt (get_val it);
      let '(stop, f) := fn key value f in
      if stop then give (inr f) else it <- step it; give (inl (it, f))
    else give (inr f)
  else give (inr f).

Definition scan_loop (continues : iterator → option bool) (step : iterator → prog iterator) (it : iterator) (f : F) : prog F :=
  ITree.iter (scan_turn continues step) (it, f).

Definition always (_ : iterator) : option bool := Some true.

(** [src/olc_art.hpp:577-595] scan *)
Definition scan (fwd : bool) (f : F) : prog F :=
  if fwd then
    it <- first new_iterator;
    scan_loop always (next fixed) it f
  else
    it <- last new_iterator;
    scan_loop always (prior fixed) it f.

(** [src/olc_art.hpp:610-630] scan_from *)
Definition scan_from (from_key : key_arg) (fwd : bool) (f : F) : prog F :=
  let from_key_ := art_key_of from_key in
  if fwd then
    it <- seek from_key_ true new_iterator;
    scan_loop always (next fixed) it f
  else
    it <- seek from_key_ false new_iterator;
    scan_loop always (prior fixed) it f.

(** [src/olc_art.hpp:648-696] scan_range *)
Definition scan_range (from_key to_key : key_arg) (f : F) : prog F :=
  let from_key_ := art_key_of from_key in
  let to_key_ := art_key_of to_key in
  ret <- of_opt (cmp_key from_key_ to_key_);
  let fwd := ret <? 0 in
  if ret =? 0 then give f
  else if fwd then
    it <- seek from_key_ true new_iterator;
    scan_loop (λ it, (λ c, c <? 0) <$> cmp it to_key_) (next fixed) it f
  else
    it <- seek from_key_ false new_iterator;
    scan_loop (λ it, (λ c, 0 <? c) <$> cmp it to_key_) (prior fixed) it f.
End scan.
End iter.
