(* ===== verification/OlcSystem.v ===== *)
(** Threads that use one index with optimistic lock coupling, their interleaved
    steps and the history of their calls; and the atomic index such a history is
    held against. *)

From ITree Require Import ITree.
From S2P Require Import Prelude Words Threads ArtKey KeyPrefix Simd InodeBase Heap Stats Leaf Inode Tree Db DbMap DbTrace.
From S2P Require Import OptimisticLock OlcState Olc OlcIter.

(** ** The calls *)

Definition map_outcome {A B} (f : A → B) (o : outcome A) : outcome B :=
  match o with Value a => Value (f a) | Thrown e => Thrown e end.

Section calls.
Context `{Target}.

(** [src/olc_art.hpp:192-201] get *)
Definition olc_get (search_key : key_arg) : prog (option (list Z)) := get_internal (art_key_of search_key).

(** [src/olc_art.hpp:206-231] insert *)
Definition olc_insert (insert_key : key_arg) (v : list Z) : prog (outcome bool) :=
  insert_internal (art_key_of insert_key) v.

(** [src/olc_art.hpp:233-245] remove *)
Definition olc_remove (search_key : key_arg) : prog (outcome bool) := remove_internal (art_key_of search_key).

(** What a thread runs for a call.  [clear] is only allowed while a single thread
    uses the index (below). *)
Definition program (o : op) : option (prog (outcome answer)) :=
  match o with
  | OpGet k => Some (ITree.map (λ r, Value (Found r)) (olc_get k))
  | OpInsert k v => Some (ITree.map (map_outcome Bool) (olc_insert k v))
  | OpRemove k => Some (ITree.map (map_outcome Bool) (olc_remove k))
  | OpEmpty => Some (ITree.map (λ b, Value (Bool b)) olc_empty)
  | OpClear => None
  end.

(** A key and its value. *)
Definition binding := (list Z * list Z)%type.

(** A scan of an index over [std::uint64_t] keys. *)
Inductive scan_request :=
  | ScanAll (fwd : bool)
  | ScanFrom (from_key : Z) (fwd : bool)
  | ScanRange (from_key to_key : Z).

(** The caller's function keeps what it was shown, and asks for the scan to end as
    it likes. *)
Definition collect (stops : list binding → bool) (key value : list Z) (shown : list binding) : bool * list binding :=
  let shown := shown ++ [(key, value)] in (stops shown, shown).

Definition scan_program (s : scan_request) (stops : list binding → bool) : prog (list binding) :=
  match s with
  | ScanAll fwd => scan true (collect stops) fwd []
  | ScanFrom from_key fwd => scan_from true (collect stops) (IntKey from_key) fwd []
  | ScanRange from_key to_key => scan_range true (collect stops) (IntKey from_key) (IntKey to_key) []
  end.
End calls.

(** ** The concurrent index *)

Inductive thread :=
  | Idle
  | Busy (o : op) (t : prog (outcome answer))
  | Scans (s : scan_request) (t : prog (list binding)).

(** What can be seen of a call: that it was made, and what it gave. *)
Inductive label :=
  | Invoked (o : op)
  | Returned (r : outcome answer)
  | ScanInvoked (s : scan_request)
  | Scanned (shown : list binding).

(** The index with its counters, the threads that use it, and the history, its
    latest event first. *)
Record config := Config {
  mem : shared;
  counters : stats;
  olc_threads : list thread;
  history : list (nat * label);
}.

(** A thread calls, makes one step, with the answer of the allocator should the
    step allocate, or returns. *)
Inductive move :=
  | Invoke (o : op)
  | InvokeScan (s : scan_request) (stops : list binding → bool)
  | Step (available : bool)
  | Return.

Definition is_clear (m : move) : bool := match m with Invoke OpClear => true | _ => false end.

Definition thread_step `{Target} (m : move) (t : thread) (s : shared) : option (thread * shared * list label) :=
  match m, t with
  | Invoke o, Idle => p ← program o; Some (Busy o p, s, [Invoked o])
  | Step available, Busy o p =>
      match observe p with
      | RetF _ => None
      | TauF p' => Some (Busy o p', s, [])
      | VisF e k => r ← perform available e s; let '(x, s') := r in Some (Busy o (k x), s', [])
      end
  | Return, Busy o p =>
      match observe p with
      | RetF r => Some (Idle, s, [Returned r])
      | _ => None
      end
  | InvokeScan s' stops, Idle => Some (Scans s' (scan_program s' stops), s, [ScanInvoked s'])
  | Step available, Scans s' p =>
      match observe p with
      | RetF _ => None
      | TauF p' => Some (Scans s' p', s, [])
      | VisF e k => r ← perform available e s; let '(x, s1) := r in Some (Scans s' (k x), s1, [])
      end
  | Return, Scans s' p =>
      match observe p with
      | RetF shown => Some (Idle, s, [Scanned shown])
      | _ => None
      end
  | _, _ => None
  end.

(** What a step of a program does to the counters. *)
Definition counted {X} (e : access X) : stats → stats := match e with Count u => count_one u | _ => id end.
Definition next_counted {R} (p : prog R) : stats → stats := match observe p with VisF e _ => counted e | _ => id end.

Definition thread_counted (m : move) (t : thread) : stats → stats :=
  match m, t with
  | Step _, Busy _ p => next_counted p
  | Step _, Scans _ p => next_counted p
  | _, _ => id
  end.

(** ** A thread alone *)

(** Where a program ends that no other thread disturbs, in fewer than [fuel]
    steps. *)
Fixpoint alone `{Target} {R} (fuel : nat) (p : prog R) (s : shared) (q : stats) : option (R * shared * stats) :=
  match fuel with
  | O => None
  | S fuel =>
      match observe p with
      | RetF r => Some (r, s, q)
      | TauF p => alone fuel p s q
      | VisF e k => r ← perform true e s; alone fuel (k r.1) r.2 (counted e q)
      end
  end.

(** No path has more nodes than the memory; and a node takes at most four steps. *)
Definition clear_fuel (s : shared) : nat := size (nodes s).
Definition clear_steps (s : shared) : nat := 10 + 5 * size (nodes s).

Definition is_idle (t : thread) : bool := match t with Idle => true | _ => false end.

(** [clear] is called when no other thread is in a call, and none calls before it
    returns. *)
Definition clear_step `{Target} (i : nat) (c : config) : option config :=
  if forallb is_idle (olc_threads c) then
    r ← alone (clear_steps (mem c)) (olc_clear (clear_fuel (mem c))) (mem c) (counters c);
    Some (Config r.1.2 r.2 (olc_threads c) ((i, Returned (Value Done)) :: (i, Invoked OpClear) :: history c))
  else None.

(** ** Threads together *)

Definition olc_step `{Target} (e : nat * move) (c : config) : option config :=
  t ← olc_threads c !! e.1;
  if is_clear e.2 then clear_step e.1 c else
  r ← thread_step e.2 t (mem c);
  let '(t', s', ls) := r in
  Some (Config s' (thread_counted e.2 t (counters c)) (<[e.1 := t']> (olc_threads c)) (((λ l, (e.1, l)) <$> ls) ++ history c)).

Definition olc_initial (n : nat) : config := Config new_olc_db no_stats (replicate n Idle) [].

(** ** The atomic index *)

Inductive call_state :=
  | NoCall
  | Pending (o : op)
  | Answered (r : outcome answer)
  | Scanning (s : scan_request) (shown : list binding).

Record atomic_config := AtomicConfig {
  bindings : gmap (list Z) (list Z);
  calls : list call_state;
  atomic_history : list (nat * label);
}.

Inductive atomic_move :=
  | AInvoke (o : op)
  | ATakeEffect
  | AThrow (e : exn)
  | AReturn
  | AScan (s : scan_request)
  | AShow (key : list Z)
  | AScanned.

Definition may_throw (o : op) : bool := match o with OpInsert _ _ | OpRemove _ => true | _ => false end.

(** The keys that a scan shows: those before the end of its range. *)
Definition scan_wants (s : scan_request) (key : list Z) : bool :=
  match s with
  | ScanRange from_key to_key =>
      let to_ := key_bytes (IntKey to_key) in
      match lex (key_bytes (IntKey from_key)) to_, lex key to_ with Lt, Lt | Gt, Gt => true | _, _ => false end
  | _ => true
  end.

(** A pending call takes effect at once, as the operation on a finite map, or
    throws and has none.  A scan shows bindings one by one, each at a moment when
    it is there. *)
Definition call_step (m : atomic_move) (c : call_state) (b : gmap (list Z) (list Z))
    : option (call_state * gmap (list Z) (list Z) * list label) :=
  match m, c with
  | AInvoke o, NoCall => Some (Pending o, b, [Invoked o])
  | ATakeEffect, Pending o => Some (Answered (Value (spec_op o b).1), (spec_op o b).2, [])
  | AThrow e, Pending o => if may_throw o then Some (Answered (Thrown e), b, []) else None
  | AReturn, Answered r => Some (NoCall, b, [Returned r])
  | AScan s, NoCall => Some (Scanning s [], b, [ScanInvoked s])
  | AShow key, Scanning s shown =>
      value ← b !! key;
      if scan_wants s key then Some (Scanning s (shown ++ [(key, value)]), b, []) else None
  | AScanned, Scanning s shown => Some (NoCall, b, [Scanned shown])
  | _, _ => None
  end.

Definition atomic_step (e : nat * atomic_move) (a : atomic_config) : option atomic_config :=
  c ← calls a !! e.1;
  r ← call_step e.2 c (bindings a);
  let '(c', b', ls) := r in
  Some (AtomicConfig b' (<[e.1 := c']> (calls a)) (((λ l, (e.1, l)) <$> ls) ++ atomic_history a)).

Definition atomic_initial (n : nat) : atomic_config := AtomicConfig ∅ (replicate n NoCall) [].

(** The history could be that of an index whose every call takes effect at one
    moment between its invocation and its return, and whose scans show what is
    there when they show it. *)
Definition linearizable (n : nat) (h : list (nat * label)) : Prop :=
  ∃ es a, run atomic_step es (atomic_initial n) = Some a ∧ atomic_history a = h.
