(* ===== verification/OlcLost.v ===== *)
(** Histories of a few calls can be checked against the atomic index by trying
    all moments at which the calls can take effect; and an execution of the index
    with optimistic lock coupling whose history does not pass. *)

From ITree Require Import ITree.
From S2P Require Import Prelude Words Threads ArtKey KeyPrefix Simd InodeBase Heap Stats Leaf Inode Tree Db DbMap DbTrace.
From S2P Require Import OptimisticLock OlcState Olc OlcSystem Samples.

(** ** Checking a history *)

#[export] Instance key_arg_eq_dec : EqDecision key_arg.
Proof. solve_decision. Defined.
#[export] Instance op_eq_dec : EqDecision op.
Proof. solve_decision. Defined.
#[export] Instance answer_eq_dec : EqDecision answer.
Proof. solve_decision. Defined.
#[export] Instance outcome_eq_dec {A} `{EqDecision A} : EqDecision (outcome A).
Proof. solve_decision. Defined.
#[export] Instance scan_request_eq_dec : EqDecision scan_request.
Proof. solve_decision. Defined.
#[export] Instance label_eq_dec : EqDecision label.
Proof. solve_decision. Defined.

(** The calls that have yet to take effect, and what can become of them. *)
Definition is_pending (c : call_state) : bool := match c with Pending _ => true | _ => false end.
Definition pending (a : atomic_config) : Z := count is_pending (calls a).

Definition effects (a : atomic_config) : list atomic_config :=
  i ← seq 0 (length (calls a));
  e ← [ATakeEffect; AThrow bad_alloc; AThrow length_error];
  match atomic_step (i, e) a with Some a' => [a'] | None => [] end.

Fixpoint within (k : nat) (l : list atomic_config) : list atomic_config :=
  match k with O => l | S k => l ++ within k (l ≫= effects) end.

Definition event (x : nat * label) (a : atomic_config) : list atomic_config :=
  match atomic_step (x.1, match x.2 with
    | Invoked o => AInvoke o | Returned _ => AReturn | ScanInvoked s => AScan s | Scanned _ => AScanned end) a with
  | Some a' => if decide (atomic_history a' = x :: atomic_history a) then [a'] else []
  | None => []
  end.

(** The states in which the atomic index can be after a history. *)
Fixpoint candidates (n : nat) (h : list (nat * label)) : list atomic_config :=
  within n (match h with [] => [atomic_initial n] | x :: h => candidates n h ≫= event x end).

Lemma within_here k l a : a ∈ l → a ∈ within k l.
Proof. destruct k; [done|]. intros Ha. apply elem_of_app. by left. Qed.

Lemma within_more k k' l a : (k ≤ k')%nat → a ∈ within k l → a ∈ within k' l.
Proof.
  revert k' l. induction k as [|k IH]; intros k' l Hk Ha; [by apply within_here|].
  destruct k' as [|k']; [lia|]. apply elem_of_app in Ha as [Ha|Ha]; apply elem_of_app; [by left|right].
  apply IH; [lia|done].
Qed.

Lemma within_step k l a a' : a ∈ within k l → a' ∈ effects a → a' ∈ within (S k) l.
Proof.
  revert l. induction k as [|k IH]; intros l Ha Ha'.
  - apply elem_of_app. right. apply list_elem_of_bind. eauto.
  - apply elem_of_app in Ha as [Ha|Ha]; apply elem_of_app; right; change (a' ∈ within (S k) (l ≫= effects)).
    + apply within_here, list_elem_of_bind. eauto.
    + by apply IH.
Qed.

Lemma atomic_step_spec i m a a' : atomic_step (i, m) a = Some a' →
  ∃ c c' ls, calls a !! i = Some c ∧ calls a' = <[i := c']> (calls a) ∧
    call_step m c (bindings a) = Some (c', bindings a', ls) ∧ atomic_history a' = ((λ l, (i, l)) <$> ls) ++ atomic_history a.
Proof.
  unfold atomic_step. cbn [fst snd]. destruct (calls a !! i) as [c|] eqn:Hc; [|done]. simpl.
  destruct (call_step m c (bindings a)) as [[[c' b'] ls]|] eqn:Hs; [|done]. simpl. intros [= <-].
  by exists c, c', ls.
Qed.

(** Histories without scans. *)
Definition is_scan (x : nat * label) : bool := match x.2 with ScanInvoked _ | Scanned _ => true | _ => false end.
Definition no_scans (h : list (nat * label)) : Prop := existsb is_scan h = false.
Definition is_scanning (c : call_state) : bool := match c with Scanning _ _ => true | _ => false end.
Definition none_scanning (a : atomic_config) : Prop := existsb is_scanning (calls a) = false.

Lemma not_scanning a i c : none_scanning a → calls a !! i = Some c → is_scanning c = false.
Proof.
  intros Ha Hc. destruct (is_scanning c) eqn:Hs; [|done]. unfold none_scanning in Ha.
  rewrite (proj2 (existsb_exists _ _)) in Ha; [done|]. exists c. split; [by eapply list_elem_of_In, list_elem_of_lookup_2|done].
Qed.

(** A move either takes effect silently, and one call less is pending, or adds an
    event to the history. *)
Lemma atomic_step_cases i m a a' : none_scanning a → atomic_step (i, m) a = Some a' →
  (atomic_history a' = atomic_history a ∧ pending a' = pending a - 1 ∧ a' ∈ effects a) ∨
  ∃ l, atomic_history a' = (i, l) :: atomic_history a ∧ a' ∈ event (i, l) a.
Proof.
  intros Hno Hs. destruct (atomic_step_spec _ _ _ _ Hs) as (c & c' & ls & Hc & Hc' & Hcs & Hh).
  pose proof (not_scanning _ _ _ Hno Hc) as Hnc.
  assert (Hin : (m = ATakeEffect ∨ ∃ e, m = AThrow e) → a' ∈ effects a).
  { intros Hm. apply list_elem_of_bind. exists i. split; [|apply elem_of_seq; apply lookup_lt_Some in Hc; lia].
    apply list_elem_of_bind. exists m. rewrite Hs. split; [by left|].
    destruct Hm as [->|[[] ->]]; set_solver. }
  assert (Hp : is_pending c = true → is_pending c' = false → pending a' = pending a - 1).
  { intros Ht Hf. unfold pending. rewrite Hc', (count_insert _ _ _ c) by done. rewrite Ht, Hf. simpl. lia. }
  destruct m, c; try discriminate Hcs; try discriminate Hnc; simpl in Hcs.
  - injection Hcs as <- _ <-. right. exists (Invoked o). split; [done|].
    unfold event. cbn [fst snd]. rewrite Hs, decide_True by done. by left.
  - injection Hcs as <- _ <-. left. split_and!; [done|by apply Hp|apply Hin; by left].
  - destruct (may_throw o); [|discriminate Hcs]. injection Hcs as <- _ <-. left. split_and!; [done|by apply Hp|apply Hin; eauto].
  - injection Hcs as <- _ <-. right. exists (Returned r). split; [done|].
    unfold event. cbn [fst snd]. rewrite Hs, decide_True by done. by left.
  - injection Hcs as <- _ <-. right. exists (ScanInvoked s). split; [done|].
    unfold event. cbn [fst snd]. rewrite Hs, decide_True by done. by left.
Qed.

Lemma no_scans_back i m a a' : atomic_step (i, m) a = Some a' → no_scans (atomic_history a') → no_scans (atomic_history a).
Proof.
  intros (c & c' & ls & _ & _ & _ & ->)%atomic_step_spec. unfold no_scans. rewrite existsb_app. by intros [_ ?]%orb_false_iff.
Qed.

(** Without scans in the history, no call is a scan. *)
Lemma atomic_step_no_scan i m a a' : none_scanning a → atomic_step (i, m) a = Some a' → no_scans (atomic_history a') → none_scanning a'.
Proof.
  intros Hno Hs Hh. destruct (atomic_step_spec _ _ _ _ Hs) as (c & c' & ls & Hc & Hc' & Hcs & Hh').
  pose proof (not_scanning _ _ _ Hno Hc) as Hnc. rewrite Hh' in Hh. unfold none_scanning. rewrite Hc'.
  assert (Hlt : (i < length (calls a))%nat) by by eapply lookup_lt_Some.
  assert (Hgen : is_scanning c' = false → existsb is_scanning (<[i:=c']> (calls a)) = false).
  { intros Hc2. destruct (existsb is_scanning _) eqn:He; [|done]. apply existsb_exists in He as (y & [j Hj]%list_elem_of_In%list_elem_of_lookup_1 & Hy).
    destruct (decide (j = i)) as [->|Hne]; [rewrite list_lookup_insert_eq in Hj by done; injection Hj as <-; congruence|].
    rewrite list_lookup_insert_ne in Hj by done. by rewrite (not_scanning _ _ _ Hno Hj) in Hy. }
  destruct m, c; try discriminate Hcs; try discriminate Hnc; simpl in Hcs;
    try (destruct (may_throw o); [|discriminate Hcs]); injection Hcs as <- _ <-; first [by apply Hgen|discriminate Hh].
Qed.

(** What no candidate state explains is not linearizable. *)
Lemma candidates_complete n h : linearizable n h → no_scans h → candidates n h ≠ [].
Proof.
  intros (es & a & Hrun & <-) Hno.
  enough (Hin : none_scanning a ∧ ∃ k, Z.of_nat k + pending a ≤ Z.of_nat n ∧ length (calls a) = n ∧
    a ∈ within k (match atomic_history a with [] => [atomic_initial n] | x :: h => candidates n h ≫= event x end)).
  { destruct Hin as (_ & k & Hk & _ & Hin). pose proof (proj1 (count_range is_pending (calls a))) as Hp.
    apply (within_more k n) in Hin; [|unfold pending in Hk; lia]. intros Heq.
    destruct (atomic_history a); simpl in Heq; rewrite Heq in Hin; by apply not_elem_of_nil in Hin. }
  revert a Hrun Hno. induction es as [|[i m] es IH] using rev_ind; intros a Hrun Hno.
  { injection Hrun as <-. split; [unfold none_scanning; cbn [atomic_initial calls]; clear; induction n as [|n IHn]; [done|exact IHn]|]. exists 0%nat. unfold pending. simpl. rewrite length_replicate. split_and!; [|done|by left].
    rewrite count_replicate by done. lia. }
  rewrite run_app in Hrun. destruct (run atomic_step es (atomic_initial n)) as [a0|]; [|done].
  cbn [run] in Hrun. destruct (atomic_step (i, m) a0) as [a1|] eqn:Hs; [|done]. injection Hrun as <-.
  destruct (IH a0 eq_refl) as (Hno0 & k & Hk & Hlen & Hin); [by eapply no_scans_back|].
  split; [by eapply atomic_step_no_scan|].
  assert (Hlen' : length (calls a1) = n).
  { destruct (atomic_step_spec _ _ _ _ Hs) as (? & ? & ? & _ & -> & _). by rewrite length_insert. }
  destruct (atomic_step_cases _ _ _ _ Hno0 Hs) as [(-> & Hp & He)|(l & -> & He)].
  - exists (S k). split_and!; [lia|done|]. by eapply within_step.
  - exists 0%nat. pose proof (count_range is_pending (calls a1)) as Hr. unfold pending in *. split_and!; [lia|done|].
    apply list_elem_of_bind. exists a0. split; [done|].
    pose proof (proj1 (count_range is_pending (calls a0))). apply (within_more k n) in Hin; [|lia].
    by destruct (atomic_history a0).
Qed.

(** ** A lookup that misses a key *)

(** One thread inserts [X], [Y] and [L], so that a node of two children, with [L]
    in one of them, is above the node with [X] and [Y]. The other thread looks [X]
    up and stops after it has left the upper node and before it reads the prefix of
    the lower one. The first thread removes [L], which merges the two nodes, and
    the lookup goes on. *)
Definition key_X : key_arg := IntKey 0x101.
Definition key_Y : key_arg := IntKey 0x102.
Definition key_L : key_arg := IntKey 0x200.

Definition call (i : nat) (o : op) (steps : nat) : list (nat * move) :=
  (i, Invoke o) :: replicate steps (i, Step true) ++ [(i, Return)].

Definition lost_get : list (nat * move) :=
  call 0 (OpInsert key_X [1]) 8 ++ call 0 (OpInsert key_Y [2]) 17 ++ call 0 (OpInsert key_L [3]) 23 ++
  (1%nat, Invoke (OpGet key_X)) :: replicate 13 (1%nat, Step true) ++
  call 0 (OpRemove key_L) 27 ++ replicate 3 (1%nat, Step true) ++ [(1%nat, Return)].

(** C40: a lookup can miss a key that was inserted before the lookup began and is
    never removed: try_get has released the parent, so that the node it is at may
    get another prefix before it reads it, by a removal that does not lock that
    node. No moments of effect explain such a history. *)
Theorem lookup_misses_stored_key :
  (history <$> run (@olc_step sse) lost_get (olc_initial 2)) = Some
    [(1%nat, Returned (Value (Found None)));
     (0%nat, Returned (Value (Bool true))); (0%nat, Invoked (OpRemove key_L));
     (1%nat, Invoked (OpGet key_X));
     (0%nat, Returned (Value (Bool true))); (0%nat, Invoked (OpInsert key_L [3]));
     (0%nat, Returned (Value (Bool true))); (0%nat, Invoked (OpInsert key_Y [2]));
     (0%nat, Returned (Value (Bool true))); (0%nat, Invoked (OpInsert key_X [1]))] ∧
  ∀ c, run (@olc_step sse) lost_get (olc_initial 2) = Some c → ¬ linearizable 2 (history c).
Proof.
  assert (Hrun : (history <$> run (@olc_step sse) lost_get (olc_initial 2)) = Some _) by (vm_compute; reflexivity).
  split; [rewrite Hrun; reflexivity|]. intros c Hc Hlin. rewrite Hc in Hrun. injection Hrun as Hh. rewrite Hh in Hlin.
  apply candidates_complete in Hlin; [|reflexivity]. apply Hlin. vm_compute. reflexivity.
Qed.
