(* ===== verification/OlcLogic.v ===== *)
(** A rely-guarantee logic for programs over atomic accesses: a program is safe
    in a world if, whatever the other threads do in between, each of its
    accesses is defined, keeps its promises to them, and leaves it safe; and if
    it ends, it ends as specified.  Safety counts steps, so that loops need no
    measure. *)

From ITree Require Import ITree.
From S2P Require Import Prelude.

Section logic.
Context {E : Type → Type} {S G : Type}.
(** What an access does to the memory, with the allocator's answer. *)
Context (perform : ∀ X, bool → E X → S → option (X * S)).
(** A step of another thread, from world to world; what the thread's own step
    must satisfy; and the worlds in which it is held to it. *)
Context (rely : S * G → S * G → Prop) (step_ok : ∀ X, E X → S * G → S * G → Prop) (live : S * G → Prop).

#[global] Arguments perform {X} _ _ _.
#[global] Arguments step_ok {X} _ _ _.

Definition assertion := (S * G)%type → Prop.

Definition stable (P : assertion) : Prop := ∀ w w', rely w w' → P w → P w'.

Fixpoint safe {R} (n : nat) (t : itree E R) (Q : R → assertion) (w : S * G) : Prop :=
  match n with
  | O => True
  | Datatypes.S n => ∀ w', rtc rely w w' →
      match observe t with
      | RetF r => Q r w'
      | TauF t => safe n t Q w'
      | VisF e k => live w' → ∀ available, ∃ x s', perform available e w'.1 = Some (x, s') ∧
          ∃ g', step_ok e w' (s', g') ∧ safe n (k x) Q (s', g')
      end
  end.

Definition safe_now {R} (n : nat) (t : itree E R) (Q : R → assertion) (w : S * G) : Prop :=
  match observe t with
  | RetF r => Q r w
  | TauF t => safe n t Q w
  | VisF e k => live w → ∀ available, ∃ x s', perform available e w.1 = Some (x, s') ∧
      ∃ g', step_ok e w (s', g') ∧ safe n (k x) Q (s', g')
  end.

Lemma safe_S {R} n (t : itree E R) Q w : safe (Datatypes.S n) t Q w ↔ ∀ w', rtc rely w w' → safe_now n t Q w'.
Proof. done. Qed.

Lemma stable_rtc P w w' : stable P → rtc rely w w' → P w → P w'.
Proof. intros HP. induction 1; eauto. Qed.

Lemma stable_and P Q : stable P → stable Q → stable (λ w, P w ∧ Q w).
Proof. intros HP HQ w w' Hr [??]. split; eauto. Qed.

Lemma stable_ex {A} (P : A → assertion) : (∀ a, stable (P a)) → stable (λ w, ∃ a, P a w).
Proof. intros HP w w' Hr [a Ha]. exists a. eapply HP; eauto. Qed.

Lemma stable_pure (P : Prop) : stable (λ _, P).
Proof. intros w w' _ HP. exact HP. Qed.

Lemma safe_ext {R} n (t t' : itree E R) Q w : observe t = observe t' → safe n t Q w → safe n t' Q w.
Proof. destruct n; simpl; [done|]. by intros ->. Qed.

Lemma safe_rely {R} n (t : itree E R) Q w w' : rtc rely w w' → safe n t Q w → safe n t Q w'.
Proof. destruct n; simpl; [done|]. intros Hr Hs w'' Hr'. apply Hs. by transitivity w'. Qed.

Lemma safe_stable {R} n (t : itree E R) Q : stable (safe n t Q).
Proof. intros w w' Hr. apply safe_rely. by apply rtc_once. Qed.

Lemma safe_mono {R} n m (t : itree E R) (Q Q' : R → assertion) w :
  (m ≤ n)%nat → (∀ r w', Q r w' → Q' r w') → safe n t Q w → safe m t Q' w.
Proof.
  intros Hm HQ. revert m t w Hm. induction n as [|n IH]; intros [|m] t w Hm; simpl; try done; [lia|].
  intros Hs w' Hr. specialize (Hs w' Hr). destruct (observe t).
  - auto.
  - apply IH; [lia|done].
  - intros Hlive av. destruct (Hs Hlive av) as (x & s' & Hp & g' & Hg & Hk). exists x, s'. split; [done|].
    exists g'. split; [done|]. apply IH; [lia|done].
Qed.

Lemma observe_bind {R T} (t : itree E R) (k : R → itree E T) :
  observe (ITree.bind t k) =
    match observe t with
    | RetF r => observe (k r)
    | TauF t => TauF (ITree.bind t k)
    | VisF e h => VisF e (λ x, ITree.bind (h x) k)
    end.
Proof.
  change (observe (ITree.bind t k)) with (observe (match observe t with
    | RetF r => k r
    | TauF t => go (TauF (ITree.bind t k))
    | VisF e h => go (VisF e (λ x, ITree.bind (h x) k))
    end)). by destruct (observe t).
Qed.

(** Sequencing. *)
Lemma safe_bind {R T} n (t : itree E R) (k : R → itree E T) Q w :
  safe n t (λ r, safe n (k r) Q) w → safe n (ITree.bind t k) Q w.
Proof.
  revert t w. induction n as [|n IH]; intros t w; [done|]. intros Hs.
  rewrite safe_S in *. intros w' Hr. specialize (Hs w' Hr). unfold safe_now in *. rewrite observe_bind.
  destruct (observe t) as [r|t'|X e h].
  - exact (Hs w' (rtc_refl _ _)).
  - apply IH. eapply safe_mono; [done| |exact Hs]. intros r w''. apply safe_mono; [lia|done].
  - intros Hlive av. destruct (Hs Hlive av) as (x & s' & Hp & g' & Hg & Hk). exists x, s'. split; [done|].
    exists g'. split; [done|]. apply IH. eapply safe_mono; [done| |exact Hk].
    intros r w''. apply safe_mono; [lia|done].
Qed.

Lemma safe_give {R} n (r : R) Q w : stable (Q r) → Q r w → safe n (go (RetF r)) Q w.
Proof. destruct n; simpl; [done|]. intros HQ Hq w' Hr. by eapply stable_rtc. Qed.

(** The first access of a program: what is known before it is known whatever the
    others did. *)
Lemma safe_access {R X} n (P : assertion) (e : E X) (k : X → itree E R) Q w :
  stable P → P w →
  (∀ w' available, live w' → P w' → ∃ x s' g', perform available e w'.1 = Some (x, s') ∧
     step_ok e w' (s', g') ∧ safe n (k x) Q (s', g')) →
  safe n (ITree.bind (ITree.trigger e) k) Q w.
Proof.
  intros HP Hp Hk. apply safe_bind. destruct n as [|n]; [done|]. rewrite safe_S. intros w' Hr.
  change (live w' → ∀ av, ∃ x s', perform av e w'.1 = Some (x, s') ∧ ∃ g', step_ok e w' (s', g') ∧
    safe n (go (RetF x)) (λ r, safe (Datatypes.S n) (k r) Q) (s', g')). intros Hlive av.
  destruct (Hk w' av Hlive) as (x & s' & g' & He & Hg & Hs); [by eapply stable_rtc|].
  exists x, s'. split; [done|]. exists g'. split; [done|].
  apply safe_give; [|exact Hs]. apply safe_stable.
Qed.

(** Loops: an invariant of the loop state. *)
Lemma safe_iter {A R} (I : A → assertion) (body : A → itree E (A + R)) (Q : R → assertion) :
  (∀ r, stable (Q r)) →
  (∀ n a w, I a w → safe n (body a) (λ r, match r with inl a => I a | inr r => Q r end) w) →
  ∀ n a w, I a w → safe n (ITree.iter body a) Q w.
Proof.
  intros HQ Hb n. induction n as [|n IH]; intros a w Ha; [done|].
  eapply (safe_ext _ (ITree.bind (body a) (λ r, match r with inl a => go (TauF (ITree.iter body a)) | inr r => go (RetF r) end))).
  { done. }
  apply safe_bind. eapply safe_mono; [done| |apply Hb, Ha]. intros [a'|r] w'.
  - intros Ha' w'' Hr. eapply safe_rely; [exact Hr|]. by apply IH.
  - intros Hq. by apply safe_give.
Qed.

(** Postconditions through [ITree.map]. *)
Lemma safe_map {R T} n (f : R → T) (t : itree E R) Q w :
  (∀ r, stable (Q r)) → safe n t (λ r, Q (f r)) w → safe n (ITree.map f t) Q w.
Proof.
  intros HQ Hs. apply safe_bind. eapply safe_mono; [done| |exact Hs]. intros r w' Hq. by apply safe_give.
Qed.
End logic.

#[global] Arguments stable {S G} rely P.
#[global] Arguments safe {E S G} perform rely step_ok live {R} n t Q w.
