(* ===== verification/OlcCounters.v ===== *)
(** The counters of the index with optimistic lock coupling: what the nodes in
    memory amount to, what each access does to that and to the counters, and that
    every operation counts exactly what it allocates and gives up. *)

From stdpp Require Import functions.
From ITree Require Import ITree.
From S2P Require Import Prelude Words Threads ArtKey KeyPrefix SortedAssoc Simd InodeBase Heap Stats Leaf InodeSpec Inode.
From S2P Require Import Db DbMap DbTrace OptimisticLock OlcState Olc OlcIter OlcSystem OlcLogic.
#[local] Open Scope prog_scope.

(** ** What a node counts for *)

(** In the memory use at [None], in the count of a node type at [Some t]. *)
Definition node_cost (t : node_type) (o : option node_type) : Z :=
  match o with None => Olc.sizeof_inode t | Some t' => if decide (t' = t) then 1 else 0 end.

Definition contents_cost `{Target} (C : contents) (o : option node_type) : Z :=
  match C with LeafC l => leaf_cost (Olc.get_size l) o | InodeC n => node_cost (type n) o end.

Definition ptr_cost (p : olc_ptr) (o : option node_type) : Z :=
  match p with PNull => 0 | PLeaf _ l => leaf_cost (Olc.get_size l) o | PInode _ t => node_cost t o end.

Lemma points_to_cost `{Target} p C o : points_to p C = true → contents_cost C o = ptr_cost p o.
Proof. destruct p, C; cbn [points_to]; intros Hp; try done; apply bool_decide_eq_true in Hp; by subst. Qed.

(** ** What an operation on a counter adds *)

Definition plain (u : counting) : bool := match u with MemoryReset | NodeReset _ => false | _ => true end.

Definition added (u : counting) (o : option node_type) : Z :=
  match u, o with
  | MemoryAdd delta, None => delta
  | MemorySub delta, None => - delta
  | NodeAdd t, Some t' => if decide (t' = t) then 1 else 0
  | NodeSub t, Some t' => if decide (t' = t) then -1 else 0
  | _, _ => 0
  end.

Lemma count_one_tally u q o x : plain u = true → tally q o = wrap64 x → tally (count_one u q) o = wrap64 (x + added u o).
Proof.
  intros Hp Hx. destruct u as [d|d|t|t|t|t| | |t]; try done; destruct o as [t'|]; cbn [added]; rewrite ?Z.add_0_r; try done.
  - cbn [tally] in *. change (wrap64 (current_memory_use q + d) = wrap64 (x + d)). by rewrite Hx, wrap64_add.
  - cbn [tally] in *. change (wrap64 (current_memory_use q - d) = wrap64 (x + - d)). by rewrite Hx, wrap64_sub.
  - cbn [tally count_one update_node_count node_counts] in *. case_decide as Ht.
    + subst. by rewrite fn_lookup_insert, Hx, wrap64_add.
    + by rewrite fn_lookup_insert_ne, Z.add_0_r.
  - cbn [tally count_one update_node_count node_counts] in *. case_decide as Ht.
    + subst. by rewrite fn_lookup_insert, Hx, wrap64_sub.
    + by rewrite fn_lookup_insert_ne, Z.add_0_r.
Qed.

(** ** The nodes in use *)

(** Those that are not retired. *)
Definition in_use (s : shared) : gmap addr object := filter (λ x, x.1 ∉ retired s) (nodes s).

Definition total (m : gmap addr Z) : Z := map_fold (λ _ z acc, z + acc) 0 m.

Lemma total_insert a z (m : gmap addr Z) : m !! a = None → total (<[a := z]> m) = z + total m.
Proof. intros Ha. unfold total. apply (map_fold_insert_L (λ _ z acc, z + acc) 0); [intros; lia|done]. Qed.

Lemma total_delete a z (m : gmap addr Z) : m !! a = Some z → total m = z + total (delete a m).
Proof. intros Ha. rewrite <- (insert_delete_id m a z) at 1 by done. apply total_insert. by rewrite lookup_delete_eq. Qed.

Section live.
Context `{Target} (o : option node_type).

Definition costs (s : shared) : gmap addr Z := (λ x, contents_cost (node_contents x) o) <$> in_use s.
Definition live_cost (s : shared) : Z := total (costs s).

Lemma lookup_costs s a : costs s !! a = if decide (a ∈ retired s) then None else (λ x, contents_cost (node_contents x) o) <$> nodes s !! a.
Proof.
  unfold costs, in_use. rewrite lookup_fmap, map_lookup_filter. destruct (nodes s !! a) as [x|] eqn:Ha; cbn [mbind option_bind fmap option_fmap option_map]; [|by destruct (decide _)].
  destruct (decide (a ∈ retired s)) as [Hr|Hr]; [rewrite option_guard_False; [done|by cbn; tauto]|by rewrite option_guard_True].
Qed.

(** Whether the shared memory is in order as far as the counters go. *)
Definition mem_ok (s : shared) : Prop :=
  NoDup (retired s) ∧ (∀ a, a ∈ retired s → is_Some (nodes s !! a)) ∧ (∀ a, is_Some (nodes s !! a) → (a < next_addr s)%nat).

(** What a step does to that, *)
Definition moved {X} (e : access X) : X → Z :=
  match e in access X return X → Z with
  | NewLeaf l => λ x, if x then leaf_cost (Olc.get_size l) o else 0
  | NewInode n => λ x, if x then node_cost (type n) o else 0
  | Free p => λ _, - ptr_cost p o
  | Retire p => λ _, - ptr_cost p o
  | _ => λ _, 0
  end.

(** and what it makes due: the part of it that is yet to be counted. *)
Definition due {X} (e : access X) (x : X) : Z := moved e x - match e with Count u => added u o | _ => 0 end.

Definition counts_plain {X} (e : access X) : bool := match e with Count u => plain u | _ => true end.

Lemma costs_ext s s' : retired s' = retired s →
  (∀ a, (λ x, contents_cost (node_contents x) o) <$> nodes s' !! a = (λ x, contents_cost (node_contents x) o) <$> nodes s !! a) → live_cost s' = live_cost s.
Proof.
  intros Hr Hn. unfold live_cost. f_equal. apply map_eq. intros a. rewrite !lookup_costs, Hr. by case_decide.
Qed.

Lemma on_lock_costs {A} l (f : Z → A * Z) s x s' : on_lock l f s = Some (x, s') → live_cost s' = live_cost s.
Proof.
  unfold on_lock. destruct (lock_word s l) as [v|]; [|done]. cbn [mbind option_bind]. destruct (f v) as [y v']. intros [= _ <-].
  apply costs_ext; [by destruct l|]. intros a. destruct l as [|b]; [done|]. cbn [set_lock_word nodes]. rewrite lookup_alter.
  case_decide; [subst|done]. by destruct (nodes s !! a).
Qed.

Lemma on_inode_costs {A} a (f : inode olc_ptr → option (inode olc_ptr * A)) s x s' : (∀ n n' y, f n = Some (n', y) → type n' = type n) →
  on_inode a f s = Some (x, s') → live_cost s' = live_cost s.
Proof.
  intros Hf. unfold on_inode, inode_at. destruct (nodes s !! a) as [[w [l|n]]|] eqn:Ha; try done. cbn [mbind option_bind].
  destruct (f n) as [[n' y]|] eqn:Hfn; [|done]. cbn [mbind option_bind]. intros [= _ <-]. specialize (Hf _ _ _ Hfn).
  apply costs_ext; [done|]. intros b. cbn [set_inode nodes]. rewrite lookup_alter. case_decide; [subst b|done].
  rewrite Ha. cbn. by rewrite Hf.
Qed.

Lemma new_object_costs C s : mem_ok s → live_cost (new_object C s) = live_cost s + contents_cost C o.
Proof.
  intros (_ & Hret & Hfresh). assert (Hn : nodes s !! next_addr s = None).
  { destruct (nodes s !! next_addr s) eqn:Hs; [|done]. specialize (Hfresh (next_addr s) ltac:(by eexists)). lia. }
  assert (Hr : next_addr s ∉ retired s) by (intros Hin%Hret; rewrite Hn in Hin; by destruct Hin).
  unfold live_cost. replace (costs (new_object C s)) with (<[next_addr s := contents_cost C o]> (costs s)).
  - rewrite total_insert; [lia|]. rewrite lookup_costs, Hn. by case_decide.
  - apply map_eq. intros a. rewrite lookup_costs. cbn [new_object retired nodes]. destruct (decide (a = next_addr s)) as [->|Hne].
    + rewrite !lookup_insert_eq. by rewrite decide_False.
    + rewrite !lookup_insert_ne by done. by rewrite lookup_costs.
Qed.

(** The node at [a] is no longer in use. *)
Lemma gone_costs a C s s' : nodes s !! a = Some C → a ∉ retired s → (∀ b, b ≠ a → b ∈ retired s' ↔ b ∈ retired s) →
  (∀ b, b ≠ a → nodes s' !! b = nodes s !! b) → a ∈ retired s' ∨ nodes s' !! a = None →
  live_cost s' = live_cost s - contents_cost (node_contents C) o.
Proof.
  intros Ha Hr Hret Hn Hgone. unfold live_cost. rewrite (total_delete a (contents_cost (node_contents C) o) (costs s)).
  - replace (delete a (costs s)) with (costs s'); [lia|]. apply map_eq. intros b. rewrite lookup_costs.
    destruct (decide (b = a)) as [->|Hne].
    + rewrite lookup_delete_eq. case_decide; [done|]. destruct Hgone as [|Hg]; [done|]. by rewrite Hg.
    + rewrite lookup_delete_ne, lookup_costs, Hn by done. destruct (decide (b ∈ retired s)) as [Hb|Hb].
      * by rewrite decide_True by by apply Hret.
      * by rewrite decide_False by by rewrite Hret.
  - rewrite lookup_costs, Ha. by rewrite decide_False.
Qed.

Lemma add_type (n n' : inode olc_ptr) c d k : add_to_nonfull n c d k = Some n' → type n' = type n.
Proof. destruct n; cbn [add_to_nonfull]; intros Ha; apply fmap_Some in Ha as (x & _ & ->); done. Qed.

Lemma remove_type (n n' : inode olc_ptr) i p : remove n i = Some (n', p) → type n' = type n.
Proof. destruct n; cbn [remove]; intros Ha; apply bind_Some in Ha as ([x y] & _ & [= <- _]); done. Qed.

Lemma perform_costs {X} av (e : access X) s x s' : mem_ok s → mem_ok s' → perform av e s = Some (x, s') →
  live_cost s' = live_cost s + moved e x.
Proof.
  intros Hok Hok' Hp. pose proof Hok' as (Hnd' & Hret' & _). pose proof Hok as (Hnd & Hret & Hfresh).
  assert (Hsame : live_cost s' = live_cost s → live_cost s' = live_cost s + 0) by (intros ->; lia).
  destruct e as [l|l c|l c|l c|l|l|[|a i]|[|a i] p|a|a n|a c d k|a i|a k|a w b|l|n|p|p|u|]; cbn [perform moved] in *.
  1-6: by apply Hsame; eapply on_lock_costs.
  - injection Hp as _ <-. lia.
  - destruct (inode_at s a); [|done]. cbn [mbind option_bind] in Hp. destruct (slot_load _ _); [|done]. injection Hp as _ <-. lia.
  - injection Hp as _ <-. by apply Hsame, costs_ext.
  - apply Hsame. eapply (on_inode_costs); [|exact Hp]. cbn beta. intros n n' y. destruct (slot_load n i); [|done]. intros [= <- _]. apply type_slot_store.
  - destruct (inode_at s a); [|done]. injection Hp as _ <-. lia.
  - apply Hsame. eapply (on_inode_costs); [|exact Hp]. cbn beta. intros n1 n' y. case_bool_decide; [|done]. by intros [= <- _].
  - apply Hsame. eapply (on_inode_costs); [|exact Hp]. cbn beta. intros n1 n' y. destruct (add_to_nonfull n1 c d k) eqn:Ha; [|done].
    intros [= <- _]. by eapply add_type.
  - apply Hsame. eapply (on_inode_costs); [|exact Hp]. intros n1 n' y. apply remove_type.
  - apply Hsame. eapply (on_inode_costs); [|exact Hp]. cbn beta. intros n1 n' y [= <- _]. by destruct n1.
  - apply Hsame. eapply (on_inode_costs); [|exact Hp]. cbn beta. intros n1 n' y [= <- _]. by destruct n1.
  - destruct av; injection Hp as <- <-; [|lia]. by rewrite new_object_costs.
  - destruct av; injection Hp as <- <-; [|lia]. by rewrite new_object_costs.
  - destruct (ptr_addr p) as [a|] eqn:Ha; [|done]. cbn [mbind option_bind] in Hp. destruct (nodes s !! a) as [C|] eqn:HC; [|done].
    cbn [mbind option_bind] in Hp. destruct (points_to p (node_contents C)) eqn:Hpt; [|done]. injection Hp as _ <-. rewrite <- (points_to_cost p _ o Hpt).
    rewrite (gone_costs a C s); try done; cbn [nodes retired].
    + intros Hr%Hret'. cbn [nodes] in Hr. rewrite lookup_delete_eq in Hr. by destruct Hr.
    + intros b Hb. by apply lookup_delete_ne.
    + right. apply lookup_delete_eq.
  - destruct (ptr_addr p) as [a|] eqn:Ha; [|done]. cbn [mbind option_bind] in Hp. destruct (nodes s !! a) as [C|] eqn:HC; [|done].
    cbn [mbind option_bind] in Hp. destruct (points_to p (node_contents C)) eqn:Hpt; [|done]. injection Hp as _ <-. rewrite <- (points_to_cost p _ o Hpt).
    cbn [retired] in Hnd'. apply NoDup_cons in Hnd' as [Hnr _].
    rewrite (gone_costs a C s); try done; cbn [nodes retired].
    + intros b Hb. rewrite elem_of_cons. naive_solver.
    + left. by left.
  - injection Hp as _ <-. lia.
  - done.
Qed.
End live.

(** ** Programs that count what they do *)

Section settled.
Context `{Target} (o : option node_type).

(** Run for [n] steps from a debt [d], whatever the accesses answer, the program
    ends with a result and a debt as specified. *)
Fixpoint settles {R} (n : nat) (t : prog R) (Q : R → Z → Prop) (d : Z) : Prop :=
  match n with
  | 0%nat => True
  | S n =>
      match observe t with
      | RetF r => Q r d
      | TauF t => settles n t Q d
      | VisF e k => counts_plain e = true ∧ ∀ x, settles n (k x) Q (d + due o e x)
      end
  end.

Definition settles_now {R} (n : nat) (t : prog R) (Q : R → Z → Prop) (d : Z) : Prop :=
  match observe t with
  | RetF r => Q r d
  | TauF t => settles n t Q d
  | VisF e k => counts_plain e = true ∧ ∀ x, settles n (k x) Q (d + due o e x)
  end.

Lemma settles_S {R} n (t : prog R) Q d : settles (S n) t Q d ↔ settles_now n t Q d.
Proof. done. Qed.

(** It ends with the debt it started from. *)
Definition settled {R} (t : prog R) : Prop := ∀ n d, settles n t (λ _ d', d' = d) d.

Lemma settles_mono {R} n m (t : prog R) (Q Q' : R → Z → Prop) d :
  (m ≤ n)%nat → (∀ r d, Q r d → Q' r d) → settles n t Q d → settles m t Q' d.
Proof.
  intros Hm HQ. revert m t d Hm. induction n as [|n IH]; intros [|m] t d Hm; cbn [settles]; try done; [lia|].
  destruct (observe t); [auto|apply IH; lia|]. intros [Hc Hx]. split; [done|]. intros x. apply IH; [lia|apply Hx].
Qed.

Lemma settles_bind {R T} n (t : prog R) (k : R → prog T) Q d :
  settles n t (λ r d, settles n (k r) Q d) d → settles n (ITree.bind t k) Q d.
Proof.
  revert t d. induction n as [|n IH]; intros t d; [done|]. rewrite !settles_S. unfold settles_now.
  rewrite observe_bind. destruct (observe t) as [r|t'|X e h].
  - done.
  - intros Hs. apply IH. eapply settles_mono; [done| |exact Hs]. intros r d' Hd. eapply settles_mono; [| |exact Hd]; [lia|done].
  - intros [Hc Hs]. split; [done|]. intros x. apply IH. eapply settles_mono; [done| |exact (Hs x)].
    intros r d' Hd. eapply settles_mono; [| |exact Hd]; [lia|done].
Qed.

Lemma settles_give {R} n (r : R) (Q : R → Z → Prop) d : Q r d → settles n (give r) Q d.
Proof. by destruct n. Qed.

Lemma settles_do {X} n (e : access X) (Q : X → Z → Prop) d : counts_plain e = true → (∀ x, Q x (d + due o e x)) → settles n (do e) Q d.
Proof.
  intros Hc HQ. destruct n as [|n]; [done|].
  change (counts_plain e = true ∧ ∀ x, settles n (go (RetF x) : prog X) Q (d + due o e x)). split; [done|]. intros x. by apply settles_give.
Qed.

(** One access and what follows. *)
Lemma settles_access {X R} n (e : access X) (k : X → prog R) Q d : counts_plain e = true →
  (∀ x, settles n (k x) Q (d + due o e x)) → settles n (ITree.bind (do e) k) Q d.
Proof. intros Hc Hk. by apply settles_bind, settles_do. Qed.

Lemma settled_give {R} (r : R) : settled (give r).
Proof. intros n d. by apply settles_give. Qed.

Lemma settled_do {X} (e : access X) : counts_plain e = true → (∀ x, due o e x = 0) → settled (do e).
Proof. intros Hc Hd n d. apply settles_do; [done|]. intros x. rewrite Hd. lia. Qed.

Lemma settled_bind {R T} (t : prog R) (k : R → prog T) : settled t → (∀ r, settled (k r)) → settled (ITree.bind t k).
Proof.
  intros Ht Hk n d. apply settles_bind. eapply settles_mono; [done| |apply Ht]. intros r d' ->. apply Hk.
Qed.

Lemma settled_iter {A R} (body : A → prog (A + R)) : (∀ a, settled (body a)) → ∀ a, settled (ITree.iter body a).
Proof.
  intros Hb a n. revert a. induction n as [|n IH]; intros a d; [done|].
  assert (Hx : settles (S n) (ITree.bind (body a) (λ lr, match lr with inl a => go (TauF (ITree.iter body a)) | inr r => go (RetF r) end)) (λ _ d', d' = d) d).
  { apply settles_bind. eapply settles_mono; [done| |apply Hb]. intros [a'|r] d' ->; [apply IH|done]. }
  exact Hx.
Qed.

Lemma settled_map {R T} (f : R → T) (t : prog R) : settled t → settled (ITree.map f t).
Proof. intros Ht. apply settled_bind; [done|]. intros r. apply settled_give. Qed.

Lemma settled_undefined {R} : settled (undefined : prog R).
Proof. apply settled_bind; [by apply settled_do|]. by intros []. Qed.

Lemma settled_of_opt {R} (x : option R) : settled (of_opt x).
Proof. destruct x; [apply settled_give|apply settled_undefined]. Qed.
End settled.

Create HintDb settled discriminated.
#[export] Hint Constants Opaque : settled.
#[export] Hint Resolve settled_give settled_undefined settled_of_opt : settled.

(** One step of the way through a program. *)
Ltac settle_step :=
  match goal with
  | |- settled _ (ITree.bind _ _) => apply settled_bind; [|intros]
  | |- settled _ (ITree.iter _ _) => apply settled_iter; intros
  | |- settled _ (ITree.map _ _) => apply settled_map
  | |- settled _ (do _) => by apply settled_do
  | |- settled _ (if ?b then _ else _) => destruct b
  | |- settled _ (let '_ := ?x in _) => destruct x
  | |- settled _ _ => solve [eauto with settled]
  end.
Ltac settle := intros; cbv zeta; repeat (settle_step; cbv zeta).

(** ** Every operation

    It counts what it allocates and what it gives up, whatever it meets on its
    way. *)

Section settled.
Context `{Target} (o : option node_type).

(** ** Nodes come and go with their cost *)

(** An access that makes something due, and the two operations on counters that
    settle it. *)
Lemma settled_counted {X} (e : access X) u1 u2 : plain u1 = true → plain u2 = true → counts_plain e = true →
  (∀ x, due o e x = added u1 o + added u2 o) → settled o (do e;; do (Count u1);; do (Count u2)).
Proof.
  intros H1 H2 He Hd n d. apply settles_access; [done|]. intros x. apply settles_access; [done|]. intros [].
  apply settles_do; [done|]. intros []. rewrite Hd. unfold due. cbn [moved]. lia.
Qed.

Lemma settled_allocated (e : access (option addr)) u1 u2 {R} (f : addr → R) (r : R) :
  plain u1 = true → plain u2 = true → counts_plain e = true → (∀ x, due o e x = if x then added u1 o + added u2 o else 0) →
  settled o (a <- do e; match a with Some a => (do (Count u1);; do (Count u2));; give (f a) | None => give r end).
Proof.
  intros H1 H2 He Hd n d. apply settles_access; [done|]. intros [a|]; [|apply settles_give; rewrite Hd; lia].
  apply settles_bind, settles_access; [done|]. intros []. apply settles_do; [done|]. intros []. apply settles_give.
  rewrite Hd. unfold due. cbn [moved]. lia.
Qed.

Lemma settled_read_lock l : settled o (read_lock l).
Proof. unfold read_lock. settle. Qed.
Lemma settled_checked c : settled o (checked c).
Proof. unfold checked. settle. Qed.
Lemma settled_read_unlock c : settled o (read_unlock c).
Proof. unfold read_unlock. settle. Qed.
Lemma settled_write_guard c : settled o (write_guard c).
Proof. unfold write_guard. settle. Qed.
Lemma settled_guard_exit c : settled o (guard_exit c).
Proof. unfold guard_exit. settle. Qed.
Lemma settled_obsolete c : settled o (obsolete c).
Proof. unfold obsolete. settle. Qed.
Lemma settled_node_ptr_lock p : settled o (node_ptr_lock p).
Proof. apply settled_of_opt. Qed.
Lemma settled_growing t : settled o (account_growing_inode t).
Proof. by apply settled_do. Qed.
Lemma settled_shrinking t : settled o (account_shrinking_inode t).
Proof. by apply settled_do. Qed.
#[local] Hint Resolve settled_read_lock settled_checked settled_read_unlock settled_write_guard settled_guard_exit settled_obsolete
  settled_node_ptr_lock settled_growing settled_shrinking : settled.

Lemma cost_of_leaf size : leaf_cost size o = added (MemoryAdd size) o + added (NodeAdd LEAF) o ∧ - leaf_cost size o = added (MemorySub size) o + added (NodeSub LEAF) o.
Proof. destruct o as [t|]; cbn; [case_decide|]; lia. Qed.

Lemma cost_of_node t : node_cost t o = added (NodeAdd t) o + added (MemoryAdd (Olc.sizeof_inode t)) o ∧ - node_cost t o = added (NodeSub t) o + added (MemorySub (Olc.sizeof_inode t)) o.
Proof. destruct o as [t'|]; cbn; [case_decide|]; lia. Qed.

Lemma settled_make_leaf k v : settled o (make_leaf k v).
Proof.
  unfold make_leaf. destruct (match k with KView _ => _ | KInt _ => _ end); [apply settled_give|].
  destruct (max_value_size <? _); [apply settled_give|]. set (size := Olc.compute_size _ _).
  apply (settled_allocated (NewLeaf (leaf_of k v)) (MemoryAdd size) (NodeAdd LEAF)); [done..|].
  intros [a|]; [|done]. unfold due. cbn [moved]. rewrite Z.sub_0_r. apply cost_of_leaf.
Qed.

Lemma settled_make_inode n : settled o (make_inode n).
Proof.
  apply (settled_allocated (NewInode n) (NodeAdd (type n)) (MemoryAdd (Olc.sizeof_inode (type n)))); [done..|].
  intros [a|]; [|done]. unfold due. cbn [moved]. rewrite Z.sub_0_r. apply cost_of_node.
Qed.

Lemma settled_free_inode a t : settled o (free_inode a t).
Proof. apply (settled_counted (Free (PInode a t))); [done..|]. intros x. unfold due. cbn [moved ptr_cost]. rewrite Z.sub_0_r. apply cost_of_node. Qed.

Lemma settled_retire_inode a t : settled o (retire_inode a t).
Proof. apply (settled_counted (Retire (PInode a t))); [done..|]. intros x. unfold due. cbn [moved ptr_cost]. rewrite Z.sub_0_r. apply cost_of_node. Qed.

Lemma settled_free_leaf p : settled o (free_leaf p).
Proof.
  destruct p as [[|a l|a t]|]; [apply settled_undefined| |apply settled_undefined|apply settled_give].
  apply (settled_counted (Free (PLeaf a l))); [done..|]. intros x. unfold due. cbn [moved ptr_cost]. rewrite Z.sub_0_r. apply cost_of_leaf.
Qed.

Lemma settled_retire_leaf p : settled o (retire_leaf p).
Proof.
  destruct p as [|a l|a t]; [apply settled_undefined| |apply settled_undefined].
  apply (settled_counted (Retire (PLeaf a l))); [done..|]. intros x. unfold due. cbn [moved ptr_cost]. rewrite Z.sub_0_r. apply cost_of_leaf.
Qed.
#[local] Hint Resolve settled_make_leaf settled_make_inode settled_free_inode settled_retire_inode settled_free_leaf settled_retire_leaf : settled.

(** ** The operations *)

Lemma settled_get k : settled o (olc_get k).
Proof. unfold olc_get, get_internal, try_get, get_step. settle. Qed.

Lemma settled_create_leaf c k v : settled o (create_leaf_if_needed c k v).
Proof. unfold create_leaf_if_needed. settle. Qed.
Lemma settled_init_above a n b p l d c : settled o (init_above a n b p l d c).
Proof. unfold init_above. settle. Qed.
Lemma settled_init_smaller a n b g c d : settled o (init_from_smaller a n b g c d).
Proof. unfold init_from_smaller. settle. Qed.
Lemma settled_init_larger a n b g c d : settled o (init_from_larger a n b g c d).
Proof. unfold init_from_larger. settle. Qed.
#[local] Hint Resolve settled_create_leaf settled_init_above settled_init_smaller settled_init_larger : settled.

Lemma settled_add a t b k v d c r p l : settled o (add_or_choose_subtree a t b k v d c r p l).
Proof. unfold add_or_choose_subtree. settle. Qed.
Lemma settled_insert_at_leaf k v l c st : settled o (insert_at_leaf k v l c st).
Proof. unfold insert_at_leaf. settle. Qed.
Lemma settled_insert_above k v a n c st : settled o (insert_above k v a n c st).
Proof. unfold insert_above. settle. Qed.
#[local] Hint Resolve settled_add settled_insert_at_leaf settled_insert_above : settled.

Lemma settled_insert k v : settled o (olc_insert k v).
Proof. unfold olc_insert, insert_internal, try_insert, insert_step. settle. Qed.

Lemma settled_leave_last a j : settled o (leave_last_child a j).
Proof. unfold leave_last_child. settle. Qed.
#[local] Hint Resolve settled_leave_last : settled.

Lemma settled_in_place a j p c l : settled o (remove_in_place a j p c l).
Proof. unfold remove_in_place. settle. Qed.
Lemma settled_merge a j r p c l : settled o (remove_and_leave_last a j r p c l).
Proof. unfold remove_and_leave_last. settle. Qed.
Lemma settled_shrink a t j r p c l : settled o (remove_and_shrink a t j r p c l).
Proof. unfold remove_and_shrink. settle. Qed.
#[local] Hint Resolve settled_in_place settled_merge settled_shrink : settled.

Lemma settled_choose a t b k p c r : settled o (remove_or_choose_subtree a t b k p c r).
Proof. unfold remove_or_choose_subtree. settle. Qed.
Lemma settled_root_leaf k p l c d : settled o (remove_root_leaf k p l c d).
Proof. unfold remove_root_leaf. settle. Qed.
#[local] Hint Resolve settled_choose settled_root_leaf : settled.

Lemma settled_remove k : settled o (olc_remove k).
Proof. unfold olc_remove, remove_internal, try_remove, remove_step. settle. Qed.

Lemma settled_empty : settled o olc_empty.
Proof. unfold olc_empty. settle. Qed.

Lemma program_settled x p : program x = Some p → settled o p.
Proof.
  destruct x; cbn [program]; intros [= <-]; apply settled_map;
    [apply settled_get|apply settled_insert|apply settled_remove|apply settled_empty].
Qed.

(** ** Scans *)

Lemma settled_entry e : settled o (entry_section e).
Proof. unfold entry_section. settle. Qed.
Lemma settled_load a i : settled o (load_child a i).
Proof. unfold load_child. settle. Qed.
#[local] Hint Resolve settled_entry settled_load : settled.

Lemma settled_traversal f p c it : settled o (try_traversal f p c it).
Proof. unfold try_traversal, traversal_step. settle. Qed.
#[local] Hint Resolve settled_traversal : settled.

Lemma settled_try_next it : settled o (try_next it).
Proof. unfold try_next, step_over, try_left_most_traversal. settle. Qed.
Lemma settled_try_prior it : settled o (try_prior it).
Proof. unfold try_prior, step_over, try_right_most_traversal. settle. Qed.
#[local] Hint Resolve settled_try_next settled_try_prior : settled.

Lemma settled_until m it : (∀ it, settled o (m it)) → settled o (until_done m it).
Proof. intros Hm. unfold until_done. settle. Qed.
Lemma settled_first it : settled o (first it).
Proof. apply settled_until. intros. unfold try_first, try_outermost, try_left_most_traversal. settle. Qed.
Lemma settled_last it : settled o (last it).
Proof. apply settled_until. intros. unfold try_last, try_outermost, try_right_most_traversal. settle. Qed.

Lemma settled_unlock c r : settled o (unlock_and_return c r).
Proof. unfold unlock_and_return. settle. Qed.
Lemma settled_and_then r f : (∀ it, settled o (f it)) → settled o (and_then r f).
Proof. unfold and_then. settle. Qed.
#[local] Hint Resolve settled_unlock settled_and_then : settled.

Lemma settled_beyond f g h p a b c d it : (∀ p c it, settled o (h p c it)) → settled o (seek_beyond f g h p a b c d it).
Proof. intros Hh. unfold seek_beyond, climb_step. settle. Qed.
Lemma settled_no_child fwd p a b c d it : settled o (seek_no_child fwd p a b c d it).
Proof. destruct fwd; apply settled_beyond; intros; apply settled_traversal. Qed.
Lemma settled_seek_leaf k fwd p l c d it : settled o (seek_leaf k fwd p l c d it).
Proof. unfold seek_leaf. settle. Qed.
Lemma settled_mismatch x fwd p c d it : settled o (seek_mismatch x fwd p c d it).
Proof. unfold seek_mismatch, try_left_most_traversal, try_right_most_traversal. settle. Qed.
#[local] Hint Resolve settled_no_child settled_seek_leaf settled_mismatch : settled.

Lemma settled_try_seek k fwd it : settled o (try_seek k fwd it).
Proof. unfold try_seek, seek_step. settle. Qed.
#[local] Hint Resolve settled_try_seek : settled.

Lemma settled_seek k fwd it : settled o (seek k fwd it).
Proof. apply settled_until. settle. Qed.

Lemma settled_from_leaf fixed fwd f it : (∀ it, settled o (f it)) → settled o (step_from_leaf fixed fwd f it).
Proof. intros Hf. unfold step_from_leaf, step_again. settle. Qed.
Lemma settled_next fixed it : settled o (next fixed it).
Proof. apply settled_from_leaf, settled_try_next. Qed.
Lemma settled_prior fixed it : settled o (prior fixed it).
Proof. apply settled_from_leaf, settled_try_prior. Qed.
#[local] Hint Resolve settled_first settled_last settled_seek settled_next settled_prior : settled.

Lemma settled_loop {F} (fn : list Z → list Z → F → bool * F) c f it x : (∀ it, settled o (f it)) → settled o (scan_loop fn c f it x).
Proof. intros Hf. unfold scan_loop, scan_turn. settle. Qed.
#[local] Hint Resolve settled_loop : settled.

Lemma scan_settled s stops : settled o (scan_program s stops).
Proof. destruct s; cbn [scan_program]; unfold scan, scan_from, scan_range; settle. Qed.
End settled.
