(* ===== verification/OlcTree.v ===== *)
(** The tree that the nodes in memory form, as a map from positions, the key bytes
    consumed on the way, to node pointers; what it means for it to hold the
    bindings of a map, and how the index's changes carry over to it. *)

From S2P Require Import Prelude Words ArtKey KeyPrefix SortedAssoc Simd InodeBase.
From S2P Require Import Heap Leaf InodeSpec Inode OptimisticLock OlcState.

(** The position behind the prefix of a node. *)
Definition full (q : list Z) (n : inode olc_ptr) : list Z := q ++ prefix_bytes (get_key_prefix n).

#[global] Arguments full : simpl never.

Section tree.
Context `{Target}.
Implicit Types (N : addr → option contents) (T : gmap (list Z) olc_ptr) (m : gmap (list Z) (list Z)).

(** A pointer tells what kind of node is there. *)
Definition points N (p : olc_ptr) : Prop :=
  match p with
  | PNull => False
  | PLeaf a l => N a = Some (LeafC l)
  | PInode a _ => ∃ n, N a = Some (InodeC n)
  end.

(** [T] is the tree in [N] below the root pointer [rt], with the bindings [m] of
    keys of eight bytes. *)
Record tree_ok N T (rt : olc_ptr) m : Prop := {
  t_root : T !! [] = match rt with PNull => None | _ => Some rt end;
  t_inj : ∀ q q' p p', T !! q = Some p → T !! q' = Some p' → ptr_addr p = ptr_addr p' → q = q';
  t_points : ∀ q p, T !! q = Some p → points N p;
  t_leaf : ∀ q a l, T !! q = Some (PLeaf a l) →
    ∃ k v, leaf_holds l k v ∧ length k = 8%nat ∧ q `prefix_of` k ∧ m !! k = Some v;
  t_inode : ∀ q a t n, T !! q = Some (PInode a t) → N a = Some (InodeC n) →
    node_wf n ∧ (length (full q n) < 8)%nat ∧ ∀ b, assoc b (entries n) = T !! (full q n ++ [b]);
  t_up : ∀ q p, T !! q = Some p → q ≠ [] →
    ∃ q0 a t n b, T !! q0 = Some (PInode a t) ∧ N a = Some (InodeC n) ∧ q = full q0 n ++ [b];
  t_map : ∀ k v, m !! k = Some v → ∃ q a l, T !! q = Some (PLeaf a l) ∧ leaf_holds l k v;
}.

Lemma leaf_holds_inj l k v k' v' : leaf_holds l k v → leaf_holds l k' v' → k = k' ∧ v = v'.
Proof.
  intros H1 H2. split.
  - by rewrite <- (leaf_holds_key _ _ _ H1), <- (leaf_holds_key _ _ _ H2).
  - by rewrite <- (leaf_holds_value _ _ _ H1), <- (leaf_holds_value _ _ _ H2).
Qed.

Lemma prefix_same_length (l1 l2 l : list Z) : l1 `prefix_of` l → l2 `prefix_of` l → length l1 = length l2 → l1 = l2.
Proof. intros [x ->] [y Hy] Hl. by apply app_inj_1 in Hy as [-> _]. Qed.

Lemma prefix_le (l1 l2 : list Z) : l1 `prefix_of` l2 → (length l1 ≤ length l2)%nat.
Proof. intros [x ->]. rewrite length_app. lia. Qed.

Lemma prefix_shorter (l1 l2 l : list Z) :
  l1 `prefix_of` l → l2 `prefix_of` l → (length l1 ≤ length l2)%nat → l1 `prefix_of` l2.
Proof.
  intros H1 H2 Hl. destruct (prefix_weak_total _ _ _ H1 H2) as [|H3]; [done|].
  by rewrite (prefix_length_eq _ _ H3 Hl).
Qed.

Lemma full_prefix q n : q `prefix_of` full q n.
Proof. by eexists. Qed.

Lemma full_le q n : (length q ≤ length (full q n))%nat.
Proof. unfold full. rewrite length_app. lia. Qed.

Lemma length_snoc (q : list Z) b : length (q ++ [b]) = S (length q).
Proof. rewrite length_app. cbn [length]. lia. Qed.

Section facts.
Context N T rt m (HT : tree_ok N T rt m).

Lemma t_pointed q p : T !! q = Some p → p ≠ PNull.
Proof. intros Hq ->. by apply (t_points _ _ _ _ HT) in Hq. Qed.

Lemma t_inode_at q a t : T !! q = Some (PInode a t) → ∃ n, N a = Some (InodeC n).
Proof. exact (t_points _ _ _ _ HT q (PInode a t)). Qed.

Lemma prefix_snoc_lt q n (b : Z) K : full q n ++ [b] `prefix_of` K → full q n `prefix_of` K.
Proof. intros HK. etrans; [|exact HK]. by eexists. Qed.

(** Of two nodes on the way to a key the lower one is below the branch of the
    upper one that the key takes. *)
Lemma tree_path qx px qy py K :
  T !! qx = Some px → T !! qy = Some py → qx `prefix_of` K → qy `prefix_of` K →
  (length qx ≤ length qy)%nat →
  qx = qy ∨ ∃ a t n b, px = PInode a t ∧ N a = Some (InodeC n) ∧ full qx n ++ [b] `prefix_of` K ∧
    (length (full qx n) < length qy)%nat ∧ is_Some (T !! (full qx n ++ [b])).
Proof.
  remember (length qx + length qy)%nat as s eqn:Hs. revert qx px qy py Hs.
  induction s as [s IH] using lt_wf_ind. intros qx px qy py -> Hx Hy HxK HyK Hle.
  destruct (decide (qy = [])) as [->|Hne].
  { left. destruct qx; [done|cbn [length] in Hle; lia]. }
  destruct (t_up _ _ _ _ HT qy py Hy Hne) as (q1 & a1 & t1 & n1 & b1 & Hq1 & Hn1 & ->).
  pose proof (prefix_snoc_lt _ _ _ _ HyK) as H1K.
  assert (Hq1K : q1 `prefix_of` K) by (etrans; [apply full_prefix|done]).
  pose proof (full_le q1 n1) as Hl1. rewrite length_snoc in *.
  destruct (decide (length qx ≤ length q1)%nat) as [Hle1|Hgt1].
  { destruct (IH (length qx + length q1)%nat ltac:(lia) qx px q1 (PInode a1 t1) eq_refl) as [->|(a & t & n & b & ? & ? & ? & ? & ?)];
      [done..| |]; right.
    - rewrite Hq1 in Hx. injection Hx as <-. exists a1, t1, n1, b1. split_and!; (done || lia || by eexists).
    - exists a, t, n, b. split_and!; (done || lia). }
  destruct (decide (qx = [])) as [->|Hxne]; [cbn [length] in Hgt1; lia|].
  destruct (t_up _ _ _ _ HT qx px Hx Hxne) as (q2 & a2 & t2 & n2 & b2 & Hq2 & Hn2 & ->).
  pose proof (prefix_snoc_lt _ _ _ _ HxK) as H2K.
  assert (Hq2K : q2 `prefix_of` K) by (etrans; [apply full_prefix|done]).
  pose proof (full_le q2 n2) as Hl2. rewrite !length_snoc in *.
  assert (Hsame : q2 = q1 → full q2 n2 ++ [b2] = full q1 n1 ++ [b1]).
  { intros ->. rewrite Hq1 in Hq2. injection Hq2 as <- <-. rewrite Hn1 in Hn2. injection Hn2 as <-.
    apply (prefix_same_length _ _ _ HxK HyK). by rewrite !length_snoc. }
  left. destruct (decide (length q2 ≤ length q1)%nat) as [Hle2|Hgt2].
  - destruct (IH (length q2 + length q1)%nat ltac:(lia) q2 (PInode a2 t2) q1 (PInode a1 t1) eq_refl)
      as [Heq|(a & t & n & b & [= <- <-] & Hn & _ & Hlt & _)]; [done..|by apply Hsame|].
    rewrite Hn2 in Hn. injection Hn as <-. lia.
  - destruct (IH (length q1 + length q2)%nat ltac:(lia) q1 (PInode a1 t1) q2 (PInode a2 t2) eq_refl)
      as [Heq|(a & t & n & b & [= <- <-] & Hn & _ & Hlt & _)]; [try done; lia..|by apply Hsame|].
    rewrite Hn1 in Hn. injection Hn as <-. lia.
Qed.

(** Two inner nodes whose prefixes end at the same position are one. *)
Lemma full_inj q a t n q' a' t' n' :
  T !! q = Some (PInode a t) → N a = Some (InodeC n) → T !! q' = Some (PInode a' t') → N a' = Some (InodeC n') →
  full q n = full q' n' → q = q' ∧ a = a' ∧ t = t' ∧ n = n'.
Proof.
  intros Hq Hn Hq' Hn' Heq.
  assert (q = q') as <-.
  { assert (Hp : q `prefix_of` full q n) by apply full_prefix.
    assert (Hp' : q' `prefix_of` full q n) by (rewrite Heq; apply full_prefix).
    pose proof (full_le q n) as Hl. pose proof (full_le q' n') as Hl'.
    rewrite Heq in Hl. destruct (decide (length q ≤ length q')%nat).
    - destruct (tree_path q _ q' _ (full q n) Hq Hq' Hp Hp') as [|(? & ? & x & ? & [= <- <-] & Hx & _ & Hlt & _)]; [lia|done|].
      rewrite Hn in Hx. injection Hx as <-. rewrite Heq in Hlt. lia.
    - destruct (tree_path q' _ q _ (full q n) Hq' Hq Hp' Hp) as [|(? & ? & x & ? & [= <- <-] & Hx & _ & Hlt & _)]; [lia|done|].
      rewrite Hn' in Hx. injection Hx as <-. lia. }
  rewrite Hq in Hq'. injection Hq' as <- <-. rewrite Hn in Hn'. by injection Hn' as <-.
Qed.

(** ** What a walk from the root concludes *)

Lemma leaf_position k v : m !! k = Some v →
  ∃ q a l, T !! q = Some (PLeaf a l) ∧ leaf_holds l k v ∧ q `prefix_of` k ∧ length k = 8%nat.
Proof.
  intros Hk. destruct (t_map _ _ _ _ HT k v Hk) as (q & a & l & Hq & Hl). exists q, a, l. split_and!; try done.
  - destruct (t_leaf _ _ _ _ HT q a l Hq) as (k' & v' & Hl' & _ & Hp & _). by destruct (leaf_holds_inj _ _ _ _ _ Hl Hl') as [-> _].
  - destruct (t_leaf _ _ _ _ HT q a l Hq) as (k' & v' & Hl' & ? & _). by destruct (leaf_holds_inj _ _ _ _ _ Hl Hl') as [-> _].
Qed.

Lemma walk_empty k : rt = PNull → m !! k = None.
Proof.
  intros Hrt. destruct (m !! k) as [v|] eqn:Hk; [|done]. exfalso.
  destruct (leaf_position k v Hk) as (q & a & l & Hq & _).
  assert (Hnil : ∀ s q p, (length q ≤ s)%nat → T !! q = Some p → False).
  { clear q Hq. induction s as [|s IH]; intros q p Hs Hq.
    - destruct q; [|cbn [length] in Hs; lia]. by rewrite (t_root _ _ _ _ HT), Hrt in Hq.
    - destruct (decide (q = [])) as [->|Hne]; [by rewrite (t_root _ _ _ _ HT), Hrt in Hq|].
      destruct (t_up _ _ _ _ HT q p Hq Hne) as (q0 & a0 & t0 & n0 & b0 & Hq0 & _ & ->).
      apply (IH q0 (PInode a0 t0)); [|exact Hq0]. rewrite length_snoc in Hs. pose proof (full_le q0 n0). lia. }
  by apply (Hnil (length q) q (PLeaf a l)).
Qed.

Lemma walk_leaf k q a l : T !! q = Some (PLeaf a l) → q `prefix_of` k →
  m !! k = if decide (leaf_get_key_view l = k) then Some (get_value_view l) else None.
Proof.
  intros Hq Hp. destruct (t_leaf _ _ _ _ HT q a l Hq) as (k' & v' & Hl & Hlen & _ & Hm).
  rewrite (leaf_holds_key _ _ _ Hl), (leaf_holds_value _ _ _ Hl). case_decide as Hk; [by subst|].
  destruct (m !! k) as [v|] eqn:Hkv; [|done]. exfalso.
  destruct (leaf_position k v Hkv) as (q2 & a2 & l2 & Hq2 & Hl2 & Hp2 & _).
  destruct (decide (length q ≤ length q2)%nat).
  - destruct (tree_path q _ q2 _ k Hq Hq2 Hp Hp2) as [<-|(? & ? & ? & ? & [=] & _)]; [lia|].
    rewrite Hq in Hq2. injection Hq2 as <- <-. by destruct (leaf_holds_inj _ _ _ _ _ Hl Hl2).
  - destruct (tree_path q2 _ q _ k Hq2 Hq Hp2 Hp) as [<-|(? & ? & ? & ? & [=] & _)]; [lia|].
    rewrite Hq in Hq2. injection Hq2 as <- <-. by destruct (leaf_holds_inj _ _ _ _ _ Hl Hl2).
Qed.

(** The key leaves the tree at a node: within its prefix or behind it. *)
Lemma walk_inode k q a t n : T !! q = Some (PInode a t) → N a = Some (InodeC n) → q `prefix_of` k →
  (full q n `prefix_of` k → ∀ b, k !! length (full q n) = Some b → assoc b (entries n) = None) →
  m !! k = None.
Proof.
  intros Hq Hn Hp Habs. destruct (m !! k) as [v|] eqn:Hkv; [|done]. exfalso.
  destruct (leaf_position k v Hkv) as (q2 & a2 & l2 & Hq2 & Hl2 & Hp2 & Hk8).
  assert (Hle : (length q ≤ length q2)%nat).
  { destruct (decide (length q ≤ length q2)%nat); [done|].
    destruct (tree_path q2 _ q _ k Hq2 Hq Hp2 Hp) as [<-|(? & ? & ? & ? & [=] & _)]; lia. }
  destruct (tree_path q _ q2 _ k Hq Hq2 Hp Hp2 Hle) as [<-|(? & ? & x & b & [= <- <-] & Hx & Hpb & _ & Hc)].
  { rewrite Hq in Hq2. discriminate Hq2. }
  rewrite Hn in Hx. injection Hx as <-.
  destruct (t_inode _ _ _ _ HT q a t n Hq Hn) as (_ & _ & Hch). rewrite <- Hch in Hc.
  rewrite Habs in Hc; [by destruct Hc|by eapply prefix_snoc_lt|].
  destruct Hpb as [r ->]. rewrite <- app_assoc. rewrite lookup_app_r by lia. by rewrite Nat.sub_diag.
Qed.
End facts.
End tree.
