(* ===== verification/OlcSurgery.v ===== *)
(** The changes the index makes to its tree: a child added, removed, a node
    replaced by another one, a node put above another one, and a node with one
    child left taken out. *)

From S2P Require Import Prelude Words ArtKey KeyPrefix SortedAssoc Simd InodeBase.
From S2P Require Import Heap Leaf InodeSpec Inode OptimisticLock OlcState OlcTree.

Section surgery.
Context `{Target}.
Implicit Types (N : addr → option contents) (T : gmap (list Z) olc_ptr) (m : gmap (list Z) (list Z)).

Lemma assoc_ins_dec {V} (b b' : Z) (c : V) es : sorted es →
  assoc b' (ins b c es) = if decide (b' = b) then Some c else assoc b' es.
Proof. intros Hs. case_decide as Hb; [subst; by apply assoc_ins_eq|by apply assoc_ins_ne]. Qed.

Lemma assoc_del_dec {V} (b b' : Z) (es : list (Z * V)) : sorted es →
  assoc b' (del b es) = if decide (b' = b) then None else assoc b' es.
Proof. intros Hs. case_decide as Hb; [subst; by apply assoc_del_eq|by apply assoc_del_ne]. Qed.

Lemma snoc_inj (q q' : list Z) b b' : q ++ [b] = q' ++ [b'] → q = q' ∧ b = b'.
Proof. intros Heq. apply app_inj_2 in Heq as [-> [= ->]]; done. Qed.

Lemma snoc_ne_nil (q : list Z) b : q ++ [b] ≠ [].
Proof. by destruct q. Qed.

(** The address is not in the tree. *)
Definition fresh_in T (a : addr) : Prop := ∀ q p, T !! q = Some p → ptr_addr p ≠ Some a.

Section at_node.
Context N T rt m (HT : tree_ok N T rt m).

Lemma child_of q a t n b : T !! q = Some (PInode a t) → N a = Some (InodeC n) →
  assoc b (entries n) = T !! (full q n ++ [b]).
Proof. intros Hq Hn. by apply (t_inode _ _ _ _ HT q a t n). Qed.

Lemma inode_wf_at q a t n : T !! q = Some (PInode a t) → N a = Some (InodeC n) → node_wf n ∧ sorted (entries n).
Proof.
  intros Hq Hn. destruct (t_inode _ _ _ _ HT q a t n Hq Hn) as (Hw & _). split; [done|by apply wf_sorted].
Qed.

(** A node's address occurs at its position only. *)
Lemma same_position q q' a p p' : T !! q = Some p → T !! q' = Some p' → ptr_addr p = Some a → ptr_addr p' = Some a → q = q'.
Proof. intros Hq Hq' Hp Hp'. apply (t_inj _ _ _ _ HT q q' p p'); congruence. Qed.

(** Where another node's child is, this node has none. *)
Lemma other_child q a t n q' a' t' n' b b' :
  T !! q = Some (PInode a t) → N a = Some (InodeC n) → T !! q' = Some (PInode a' t') → N a' = Some (InodeC n') →
  full q n ++ [b] = full q' n' ++ [b'] → a = a' ∧ q = q' ∧ b = b'.
Proof.
  intros Hq Hn Hq' Hn' [Heq ->]%snoc_inj. destruct (full_inj N T rt m HT q a t n q' a' t' n') as (? & ? & _); try done.
Qed.

(** ** A leaf is added to a node *)

Lemma tree_add q a t n n' N' la l b k v :
  T !! q = Some (PInode a t) → N a = Some (InodeC n) → fresh_in T la →
  N' a = Some (InodeC n') → N' la = Some (LeafC l) → (∀ y, y ≠ a → y ≠ la → N' y = N y) →
  node_wf n' → get_key_prefix n' = get_key_prefix n →
  entries n' = ins b (PLeaf la l) (entries n) → assoc b (entries n) = None →
  leaf_holds l k v → length k = 8%nat → full q n ++ [b] `prefix_of` k →
  m !! k = None ∧ tree_ok N' (<[full q n ++ [b] := PLeaf la l]> T) rt (<[k := v]> m).
Proof.
  intros Hq Hn Hla Hn' Hl HN Hw' Hpre He Hb Hlh Hk8 Hpk.
  destruct (inode_wf_at q a t n Hq Hn) as [_ Hs].
  assert (Hfull : ∀ q0, full q0 n' = full q0 n) by (intros; unfold full; by rewrite Hpre).
  assert (Hmk : m !! k = None).
  { apply (walk_inode N T rt m HT k q a t n Hq Hn).
    - etrans; [apply full_prefix|]. by eapply prefix_snoc_lt.
    - intros _ b' Hb'. destruct Hpk as [r Hpk]. rewrite Hpk, <- app_assoc, lookup_app_r in Hb' by lia.
      rewrite Nat.sub_diag in Hb'. by injection Hb' as <-. }
  split; [done|].
  assert (Hnew : T !! (full q n ++ [b]) = None) by by rewrite <- (child_of q a t n b Hq Hn).
  assert (Haq : ∀ y q0 p, T !! q0 = Some p → ptr_addr p = Some y → y ≠ la) by (intros y q0 p Hp Hy ->; by apply (Hla q0 p)).
  split.
  - rewrite lookup_insert_ne by apply snoc_ne_nil. apply (t_root _ _ _ _ HT).
  - intros q1 q2 p1 p2 [[<- <-]|[_ H1]]%lookup_insert_Some [[<- <-]|[_ H2]]%lookup_insert_Some Heq; try done.
    + symmetry in Heq. by apply (Hla q2 p2) in H2.
    + by apply (Hla q1 p1) in H1.
    + by apply (t_inj _ _ _ _ HT q1 q2 p1 p2).
  - intros q1 p [[<- <-]|[_ H1]]%lookup_insert_Some; [done|].
    pose proof (t_points _ _ _ _ HT q1 p H1) as Hpt. destruct p as [|y l'|y t']; simpl in *; [done|..].
    + destruct (decide (y = a)) as [->|]; [congruence|]. rewrite HN; [done|done|by eapply Haq].
    + destruct (decide (y = a)) as [->|]; [by exists n'|]. rewrite HN; [done|done|by eapply Haq].
  - intros q1 a1 l1 [[<- [= <- <-]]|[_ H1]]%lookup_insert_Some.
    + exists k, v. by rewrite lookup_insert_eq.
    + destruct (t_leaf _ _ _ _ HT q1 a1 l1 H1) as (k1 & v1 & ? & ? & ? & Hm1). exists k1, v1.
      rewrite lookup_insert_ne; [done|]. intros ->. congruence.
  - intros q1 a1 t1 n1 [[_ ?]|[_ H1]]%lookup_insert_Some H2; [done|].
    destruct (decide (a1 = a)) as [->|Hne].
    + assert (q1 = q) as -> by by eapply same_position. rewrite Hn' in H2. injection H2 as <-.
      rewrite Hq in H1. injection H1 as <-. destruct (t_inode _ _ _ _ HT q a t n Hq Hn) as (_ & Hlen & Hch).
      split_and!; [done|by rewrite Hfull|]. intros b'. rewrite Hfull, He, assoc_ins_dec by done.
      case_decide as Hbb; [subst b'; by rewrite lookup_insert_eq|].
      rewrite lookup_insert_ne; [apply Hch|]. by intros [_ ->]%snoc_inj.
    + rewrite HN in H2; [|done|by eapply Haq].
      destruct (t_inode _ _ _ _ HT q1 a1 t1 n1 H1 H2) as (? & ? & Hch). split_and!; [done..|].
      intros b'. rewrite lookup_insert_ne; [apply Hch|]. intros Heq.
      destruct (other_child _ _ _ _ _ _ _ _ _ _ Hq Hn H1 H2 Heq) as [-> _]. done.
  - intros q1 p H1 Hne.
    assert (Hup : ∀ q0 a0 t0 n0 b0, T !! q0 = Some (PInode a0 t0) → N a0 = Some (InodeC n0) → q1 = full q0 n0 ++ [b0] →
      ∃ q0 a t n1 b1, (<[full q n ++ [b]:=PLeaf la l]> T) !! q0 = Some (PInode a t) ∧ N' a = Some (InodeC n1) ∧ q1 = full q0 n1 ++ [b1]).
    { intros q0 a0 t0 n0 b0 Hq0 Hn0 ->. exists q0, a0, t0.
      assert (Hq0' : full q n ++ [b] ≠ q0) by (intros <-; congruence).
      destruct (decide (a0 = a)) as [->|].
      - exists n', b0. rewrite lookup_insert_ne, Hfull by done. rewrite Hn in Hn0. by injection Hn0 as <-.
      - exists n0, b0. rewrite lookup_insert_ne by done. rewrite HN; [done|done|by eapply Haq]. }
    apply lookup_insert_Some in H1 as [[<- <-]|[_ H1]]; [by apply (Hup q a t n b)|].
    destruct (t_up _ _ _ _ HT q1 p H1 Hne) as (q0 & a0 & t0 & n0 & b0 & ? & ? & ?). by eapply Hup.
  - intros k1 v1 [[<- <-]|[_ H1]]%lookup_insert_Some; [by exists (full q n ++ [b]), la, l; rewrite lookup_insert_eq|].
    destruct (t_map _ _ _ _ HT k1 v1 H1) as (q1 & a1 & l1 & Hq1 & ?). exists q1, a1, l1. split; [|done].
    rewrite lookup_insert_ne; [done|]. intros <-. congruence.
Qed.

(** A key has one leaf. *)
Lemma leaf_unique q a l q' a' l' k v v' :
  T !! q = Some (PLeaf a l) → T !! q' = Some (PLeaf a' l') → leaf_holds l k v → leaf_holds l' k v' → q = q'.
Proof.
  intros Hq Hq' Hl Hl'.
  destruct (t_leaf _ _ _ _ HT q a l Hq) as (k1 & v1 & Hl1 & _ & Hp & _).
  destruct (t_leaf _ _ _ _ HT q' a' l' Hq') as (k2 & v2 & Hl2 & _ & Hp' & _).
  destruct (leaf_holds_inj _ _ _ _ _ Hl Hl1) as [<- _]. destruct (leaf_holds_inj _ _ _ _ _ Hl' Hl2) as [<- _].
  destruct (decide (length q ≤ length q')%nat).
  - destruct (tree_path N T rt m HT q _ q' _ k Hq Hq' Hp Hp') as [|(? & ? & ? & ? & [=] & _)]; [lia|done].
  - destruct (tree_path N T rt m HT q' _ q _ k Hq' Hq Hp' Hp) as [|(? & ? & ? & ? & [=] & _)]; [lia|done].
Qed.

(** ** A leaf is taken out of a node *)

Lemma tree_remove q a t n n' N' la l b k v :
  T !! q = Some (PInode a t) → N a = Some (InodeC n) → N' a = Some (InodeC n') → (∀ y, y ≠ a → N' y = N y) →
  node_wf n' → get_key_prefix n' = get_key_prefix n →
  entries n' = del b (entries n) → assoc b (entries n) = Some (PLeaf la l) → leaf_holds l k v →
  tree_ok N' (delete (full q n ++ [b]) T) rt (delete k m).
Proof.
  intros Hq Hn Hn' HN Hw' Hpre He Hb Hlh.
  destruct (inode_wf_at q a t n Hq Hn) as [_ Hs].
  assert (Hfull : ∀ q0, full q0 n' = full q0 n) by (intros; unfold full; by rewrite Hpre).
  assert (Hold : T !! (full q n ++ [b]) = Some (PLeaf la l)) by by rewrite <- (child_of q a t n b Hq Hn).
  assert (Hlq : ∀ q1 a1 t1, T !! q1 = Some (PInode a1 t1) → full q n ++ [b] ≠ q1) by (intros q1 a1 t1 H1 <-; congruence).
  split.
  - rewrite lookup_delete_ne by apply snoc_ne_nil. apply (t_root _ _ _ _ HT).
  - intros q1 q2 p1 p2 [_ H1]%lookup_delete_Some [_ H2]%lookup_delete_Some. by apply (t_inj _ _ _ _ HT q1 q2 p1 p2).
  - intros q1 p [_ H1]%lookup_delete_Some.
    pose proof (t_points _ _ _ _ HT q1 p H1) as Hpt. destruct p as [|y l'|y t']; simpl in *; [done|..].
    + destruct (decide (y = a)) as [->|]; [congruence|]. by rewrite HN.
    + destruct (decide (y = a)) as [->|]; [by exists n'|]. by rewrite HN.
  - intros q1 a1 l1 [Hne H1]%lookup_delete_Some.
    destruct (t_leaf _ _ _ _ HT q1 a1 l1 H1) as (k1 & v1 & Hl1 & ? & ? & Hm1). exists k1, v1.
    rewrite lookup_delete_ne; [done|]. intros <-. apply Hne. by apply (leaf_unique _ la l q1 a1 l1 k v v1).
  - intros q1 a1 t1 n1 [_ H1]%lookup_delete_Some H2. destruct (decide (a1 = a)) as [->|Hne].
    + assert (q1 = q) as -> by by eapply same_position. rewrite Hn' in H2. injection H2 as <-.
      rewrite Hq in H1. injection H1 as <-. destruct (t_inode _ _ _ _ HT q a t n Hq Hn) as (_ & Hlen & Hch).
      split_and!; [done|by rewrite Hfull|]. intros b'. rewrite Hfull, He, assoc_del_dec by done.
      case_decide as Hbb; [subst b'; by rewrite lookup_delete_eq|].
      rewrite lookup_delete_ne; [apply Hch|]. by intros [_ ->]%snoc_inj.
    + rewrite HN in H2 by done. destruct (t_inode _ _ _ _ HT q1 a1 t1 n1 H1 H2) as (? & ? & Hch). split_and!; [done..|].
      intros b'. rewrite lookup_delete_ne; [apply Hch|]. intros Heq.
      destruct (other_child _ _ _ _ _ _ _ _ _ _ Hq Hn H1 H2 Heq) as [-> _]. done.
  - intros q1 p [_ H1]%lookup_delete_Some Hne.
    destruct (t_up _ _ _ _ HT q1 p H1 Hne) as (q0 & a0 & t0 & n0 & b0 & Hq0 & Hn0 & ->). exists q0, a0, t0.
    destruct (decide (a0 = a)) as [->|].
    + exists n', b0. rewrite lookup_delete_ne, Hfull by by eapply Hlq. rewrite Hn in Hn0. by injection Hn0 as <-.
    + exists n0, b0. rewrite lookup_delete_ne, HN by first [done|by eapply Hlq]. done.
  - intros k1 v1 [Hne H1]%lookup_delete_Some. destruct (t_map _ _ _ _ HT k1 v1 H1) as (q1 & a1 & l1 & Hq1 & Hl1).
    exists q1, a1, l1. split; [|done]. rewrite lookup_delete_ne; [done|]. intros <-.
    rewrite Hold in Hq1. injection Hq1 as <- <-. by destruct (leaf_holds_inj _ _ _ _ _ Hlh Hl1) as [-> _].
Qed.

(** ** The pointer at a position is replaced *)

(** [swapped X q p' N' rt']: the place that holds the pointer at [q], in the
    parent or at the root, now holds [p']; other nodes, but those in [X], are as
    they were. *)
Definition swapped (X : addr → Prop) (q : list Z) (p' : olc_ptr) N' (rt' : olc_ptr) : Prop :=
  (q = [] ∧ rt' = p' ∧ ∀ y, ¬ X y → N' y = N y) ∨
  (rt' = rt ∧ ∃ q0 x t n n' b, T !! q0 = Some (PInode x t) ∧ N x = Some (InodeC n) ∧ q = full q0 n ++ [b] ∧
    N' x = Some (InodeC n') ∧ (∀ y, y ≠ x → ¬ X y → N' y = N y) ∧
    node_wf n' ∧ get_key_prefix n' = get_key_prefix n ∧ entries n' = ins b p' (entries n)).

Section swap.
Context (X : addr → Prop) (q : list Z) (p' : olc_ptr) (N' : addr → option contents) (rt' : olc_ptr).
Context (Hsw : swapped X q p' N' rt').

Lemma swapped_leaf y l : ¬ X y → N y = Some (LeafC l) → N' y = Some (LeafC l).
Proof.
  intros Hy Hl. destruct Hsw as [(_ & _ & HN)|(_ & q0 & x & t & n & n' & b & _ & Hx & _ & _ & HN & _)]; [by rewrite HN|].
  rewrite HN; [done| |done]. intros ->. congruence.
Qed.

Lemma swapped_inode q1 a1 t1 n1 : T !! q1 = Some (PInode a1 t1) → ¬ X a1 → N a1 = Some (InodeC n1) →
  ∃ n1', N' a1 = Some (InodeC n1') ∧ get_key_prefix n1' = get_key_prefix n1 ∧ node_wf n1' ∧
    ∀ b, assoc b (entries n1') = if decide (full q1 n1 ++ [b] = q) then Some p' else assoc b (entries n1).
Proof.
  intros Hq1 HX Hn1. destruct (inode_wf_at q1 a1 t1 n1 Hq1 Hn1) as [Hw1 _].
  destruct Hsw as [(-> & _ & HN)|(_ & q0 & x & t & n & n' & b & Hq0 & Hx & -> & Hx' & HN & Hw & Hpre & He)].
  - exists n1. rewrite HN by done. split_and!; try done. intros b. rewrite decide_False by apply snoc_ne_nil. done.
  - destruct (decide (a1 = x)) as [->|Hne].
    + assert (q1 = q0) as -> by by eapply same_position. rewrite Hx in Hn1. injection Hn1 as <-.
      exists n'. split_and!; try done. intros b'. rewrite He, assoc_ins_dec by by eapply inode_wf_at.
      repeat case_decide; try done; [subst; done|]. by apply snoc_inj in H1 as [_ ->].
    + exists n1. rewrite HN by done. split_and!; try done. intros b'. rewrite decide_False; [done|]. intros Heq.
      by destruct (other_child _ _ _ _ _ _ _ _ _ _ Hq1 Hn1 Hq0 Hx Heq) as [-> _].
Qed.

Lemma swapped_root T' : p' ≠ PNull → T' !! q = Some p' → (q ≠ [] → T' !! [] = T !! []) →
  T' !! [] = match rt' with PNull => None | _ => Some rt' end.
Proof.
  intros Hp Hq HT'. destruct Hsw as [(-> & -> & _)|(-> & q0 & x & t & n & n' & b & _ & _ & -> & _)].
  - rewrite Hq. by destruct p'.
  - rewrite HT' by apply snoc_ne_nil. apply (t_root _ _ _ _ HT).
Qed.
End swap.

Lemma full_longer q0 n b : full q0 n ++ [b] ≠ q0.
Proof. intros Heq. apply (f_equal length) in Heq. rewrite length_snoc in Heq. pose proof (full_le q0 n). lia. Qed.

Lemma full_eq q0 n n' : get_key_prefix n' = get_key_prefix n → full q0 n' = full q0 n.
Proof. unfold full. by intros ->. Qed.

(** ** A node is replaced by one with the same contents *)

Lemma tree_rename q a t n a' t' N' rt' :
  T !! q = Some (PInode a t) → N a = Some (InodeC n) → fresh_in T a' → N' a' = Some (InodeC n) →
  swapped (eq a') q (PInode a' t') N' rt' →
  tree_ok N' (<[q := PInode a' t']> T) rt' m.
Proof.
  intros Hq Hn Hfr Hn' Hsw.
  assert (HX : ∀ y q0 p, T !! q0 = Some p → ptr_addr p = Some y → ¬ a' = y) by (intros y q0 p Hp Hy ->; by apply (Hfr q0 p)).
  assert (Hold : ∀ q1 a1 t1 n1, q1 ≠ q → T !! q1 = Some (PInode a1 t1) → N' a1 = Some (InodeC n1) →
    ∃ n0, N a1 = Some (InodeC n0) ∧ get_key_prefix n1 = get_key_prefix n0 ∧ node_wf n1 ∧
      ∀ b, assoc b (entries n1) = (<[q := PInode a' t']> T) !! (full q1 n0 ++ [b])).
  { intros q1 a1 t1 n1 Hne H1 H2. destruct (t_inode_at _ _ _ _ HT q1 a1 t1 H1) as [n0 Hn0].
    destruct (swapped_inode _ _ _ _ _ Hsw q1 a1 t1 n0 H1 ltac:(by eapply HX) Hn0) as (n0' & Hn0' & Hpre & Hw & Hch).
    rewrite Hn0' in H2. injection H2 as <-. exists n0. split_and!; try done. intros b. rewrite Hch.
    case_decide as Hb; [by rewrite Hb, lookup_insert_eq|]. rewrite lookup_insert_ne by done. by eapply child_of. }
  split.
  - eapply swapped_root; [exact Hsw|done|by rewrite lookup_insert_eq|]. intros Hne. by rewrite lookup_insert_ne.
  - intros q1 q2 p1 p2 [[<- <-]|[_ H1]]%lookup_insert_Some [[<- <-]|[_ H2]]%lookup_insert_Some Heq; try done.
    + symmetry in Heq. by apply (Hfr q2 p2) in H2.
    + by apply (Hfr q1 p1) in H1.
    + by apply (t_inj _ _ _ _ HT q1 q2 p1 p2).
  - intros q1 p [[<- <-]|[_ H1]]%lookup_insert_Some; [by exists n|].
    pose proof (t_points _ _ _ _ HT q1 p H1) as Hpt. destruct p as [|y l'|y t1]; simpl in *; [done|..].
    + eapply swapped_leaf; [exact Hsw|by eapply HX|done].
    + destruct Hpt as [n1 Hn1]. destruct (swapped_inode _ _ _ _ _ Hsw q1 y t1 n1 H1 ltac:(by eapply HX) Hn1) as (n1' & ? & _).
      by exists n1'.
  - intros q1 a1 l1 [[_ ?]|[_ H1]]%lookup_insert_Some; [done|]. by apply (t_leaf _ _ _ _ HT q1 a1 l1).
  - intros q1 a1 t1 n1 [[<- [= <- <-]]|[Hne H1]]%lookup_insert_Some H2.
    + rewrite Hn' in H2. injection H2 as <-. destruct (t_inode _ _ _ _ HT q a t n Hq Hn) as (? & ? & Hch).
      split_and!; [done..|]. intros b. rewrite lookup_insert_ne; [apply Hch|]. intros Heq. symmetry in Heq. by apply full_longer in Heq.
    + destruct (Hold q1 a1 t1 n1 (not_eq_sym Hne) H1 H2) as (n0 & Hn0 & Hpre & Hw & Hch).
      destruct (t_inode _ _ _ _ HT q1 a1 t1 n0 H1 Hn0) as (_ & Hlen & _).
      rewrite (full_eq q1 n0 n1 Hpre). by split_and!.
  - intros q1 p H1 Hne.
    assert (is_Some (T !! q1)) as [p1 Hp1] by (apply lookup_insert_Some in H1 as [[<- _]|[_ ?]]; by eexists).
    destruct (t_up _ _ _ _ HT q1 p1 Hp1 Hne) as (q0 & a0 & t0 & n0 & b0 & Hq0 & Hn0 & ->).
    destruct (decide (q0 = q)) as [->|Hqq].
    + rewrite Hq in Hq0. injection Hq0 as <- <-. rewrite Hn in Hn0. injection Hn0 as <-.
      exists q, a', t', n, b0. by rewrite lookup_insert_eq.
    + destruct (swapped_inode _ _ _ _ _ Hsw q0 a0 t0 n0 Hq0 ltac:(by eapply HX) Hn0) as (n0' & ? & Hpre & _).
      exists q0, a0, t0, n0', b0. rewrite lookup_insert_ne, (full_eq _ _ _ Hpre) by done. done.
  - intros k1 v1 H1. destruct (t_map _ _ _ _ HT k1 v1 H1) as (q1 & a1 & l1 & Hq1 & ?). exists q1, a1, l1.
    split; [|done]. rewrite lookup_insert_ne; [done|]. intros <-. congruence.
Qed.

(** ** A node is put above another one *)

(** The key bytes from a position up to where the node at [p] branches, or to the
    end of its key. *)
Definition stretch (p : olc_ptr) (q K : list Z) : Prop :=
  match p with
  | PNull => False
  | PLeaf _ l => K = leaf_get_key_view l
  | PInode a _ => ∃ n, N a = Some (InodeC n) ∧ K = full q n
  end.

Lemma stretch_position p q K : T !! q = Some p → stretch p q K → q `prefix_of` K.
Proof.
  intros Hq. destruct p as [|a l|a t]; simpl; [done|..].
  - intros ->. destruct (t_leaf _ _ _ _ HT q a l Hq) as (k & v & Hl & _ & Hp & _). by rewrite (leaf_holds_key _ _ _ Hl).
  - intros (n & _ & ->). apply full_prefix.
Qed.

(** No node branches inside the stretch of another one. *)
Lemma no_branch_inside q p K q1 a1 t1 n1 b :
  T !! q = Some p → stretch p q K → T !! q1 = Some (PInode a1 t1) → N a1 = Some (InodeC n1) →
  q `prefix_of` full q1 n1 → full q1 n1 ++ [b] `prefix_of` K → False.
Proof.
  intros Hq HK Hq1 Hn1 Hpre HbK.
  assert (HfK : full q1 n1 `prefix_of` K) by by eapply prefix_snoc_lt.
  assert (Hq1K : q1 `prefix_of` K) by (etrans; [apply full_prefix|done]).
  pose proof (stretch_position p q K Hq HK) as HqK.
  apply prefix_le in HbK. rewrite length_snoc in HbK. pose proof (full_le q1 n1).
  destruct (decide (length q ≤ length q1)%nat) as [Hle|Hgt].
  - destruct (tree_path N T rt m HT q p q1 _ K Hq Hq1 HqK Hq1K) as [<-|(a & t & n & b' & -> & Hn & _ & Hlt & _)]; [lia|..].
    + rewrite Hq in Hq1. injection Hq1 as ->. destruct HK as (nK & HnK & ->). rewrite Hn1 in HnK. injection HnK as <-. lia.
    + destruct HK as (nK & HnK & ->). rewrite Hn in HnK. injection HnK as <-. lia.
  - apply prefix_le in Hpre.
    destruct (tree_path N T rt m HT q1 _ q _ K Hq1 Hq Hq1K HqK) as [->|(a & t & n & b' & [= <- <-] & Hn & _ & Hlt & _)]; [lia|lia|].
    rewrite Hn1 in Hn. injection Hn as <-. lia.
Qed.

Lemma no_branch_at q p K n4 b1 : T !! q = Some p → stretch p q K → full q n4 ++ [b1] `prefix_of` K →
  ∀ q1 a1 t1 n1, T !! q1 = Some (PInode a1 t1) → N a1 = Some (InodeC n1) → full q1 n1 ≠ full q n4.
Proof.
  intros Hq HK HpK q1 a1 t1 n1 H1 Hn1 Heq.
  apply (no_branch_inside q p K q1 a1 t1 n1 b1 Hq HK H1 Hn1); rewrite Heq; [apply full_prefix|done].
Qed.

Lemma no_position_inside q p K n4 b1 : T !! q = Some p → stretch p q K → full q n4 ++ [b1] `prefix_of` K →
  ∀ b, T !! (full q n4 ++ [b]) = None.
Proof.
  intros Hq HK HpK b. destruct (T !! (full q n4 ++ [b])) as [p1|] eqn:E; [|done]. exfalso.
  destruct (t_up _ _ _ _ HT _ _ E) as (q0 & a0 & t0 & n0 & b0 & Hq0 & Hn0 & [Heq _]%snoc_inj); [apply snoc_ne_nil|].
  by apply (no_branch_at q p K n4 b1 Hq HK HpK q0 a0 t0 n0 Hq0 Hn0).
Qed.

Lemma tree_split q p a' t' n4 la l b1 b2 k v N' rt' K :
  T !! q = Some p → stretch p q K → fresh_in T a' → fresh_in T la → a' ≠ la →
  N' a' = Some (InodeC n4) → N' la = Some (LeafC l) → node_wf n4 → (length (full q n4) < 8)%nat → b1 ≠ b2 →
  (∀ b, assoc b (entries n4) = if decide (b = b1) then Some p else if decide (b = b2) then Some (PLeaf la l) else None) →
  full q n4 ++ [b1] `prefix_of` K →
  match p with
  | PInode a _ => ∃ n n', N a = Some (InodeC n) ∧ N' a = Some (InodeC n') ∧ node_wf n' ∧ entries n' = entries n ∧
      full (full q n4 ++ [b1]) n' = full q n
  | PLeaf a _ => N' a = N a
  | PNull => True
  end →
  leaf_holds l k v → length k = 8%nat → full q n4 ++ [b2] `prefix_of` k →
  swapped (λ y, y = a' ∨ y = la ∨ ptr_addr p = Some y) q (PInode a' t') N' rt' →
  m !! k = None ∧
  tree_ok N' (<[q := PInode a' t']> (<[full q n4 ++ [b1] := p]> (<[full q n4 ++ [b2] := PLeaf la l]> T))) rt' (<[k := v]> m).
Proof.
  intros Hq HK Hfr Hfl Hal Hn' Hl' Hw4 Hlen4 Hbb Hch4 HpK Hp Hlh Hk8 Hpk Hsw.
  set (c1 := full q n4 ++ [b1]) in *. set (c2 := full q n4 ++ [b2]) in *.
  assert (Hqf : q `prefix_of` full q n4) by apply full_prefix.
  assert (Hc12 : c1 ≠ c2) by (intros [_ ?]%snoc_inj; done).
  pose proof (no_branch_at q p K n4 b1 Hq HK HpK) as Hno.
  pose proof (no_position_inside q p K n4 b1 Hq HK HpK) as Hin. pose proof (Hin b1) as Hc1. pose proof (Hin b2) as Hc2. fold c1 in Hc1. fold c2 in Hc2.
  assert (Hqc1 : c1 ≠ q) by apply full_longer. assert (Hqc2 : c2 ≠ q) by apply full_longer.
  assert (HX : ∀ y q0 p0, q0 ≠ q → T !! q0 = Some p0 → ptr_addr p0 = Some y → ¬ (y = a' ∨ y = la ∨ ptr_addr p = Some y)).
  { intros y q0 p0 Hne H0 Hy [->|[->|Hpy]]; [by apply (Hfr q0 p0)|by apply (Hfl q0 p0)|].
    apply Hne. by apply (same_position q0 q y p0 p). }
  assert (Hmk : m !! k = None).
  { assert (Hnp : ¬ c1 `prefix_of` k).
    { intros Hc. apply Hc12, (prefix_same_length _ _ _ Hc Hpk). unfold c1, c2. by rewrite !length_snoc. }
    assert (Hqk : q `prefix_of` k) by (etrans; [exact Hqf|by eapply prefix_snoc_lt]).
    destruct p as [|a l0|a t]; [done|..].
    - rewrite (walk_leaf N T rt m HT k q a l0 Hq Hqk). rewrite decide_False; [done|]. intros <-. by rewrite HK in HpK.
    - destruct HK as (n & Hn & ->). apply (walk_inode N T rt m HT k q a t n Hq Hn Hqk). intros Hfk. destruct Hnp. by etrans. }
  split; [done|].
  assert (HT' : ∀ q1, (<[q := PInode a' t']> (<[c1 := p]> (<[c2 := PLeaf la l]> T))) !! q1 =
    if decide (q1 = q) then Some (PInode a' t') else if decide (q1 = c1) then Some p else if decide (q1 = c2) then Some (PLeaf la l) else T !! q1).
  { intros q1. destruct (decide (q1 = q)) as [->|]; [by rewrite lookup_insert_eq|rewrite lookup_insert_ne by done].
    destruct (decide (q1 = c1)) as [->|]; [by rewrite lookup_insert_eq|rewrite lookup_insert_ne by done].
    destruct (decide (q1 = c2)) as [->|]; [by rewrite lookup_insert_eq|by rewrite lookup_insert_ne by done]. }
  set (T' := <[q := PInode a' t']> (<[c1 := p]> (<[c2 := PLeaf la l]> T))) in *. clearbody T'.
  assert (HTo : ∀ q1, q1 ≠ q → is_Some (T !! q1) → T' !! q1 = T !! q1).
  { intros q1 Hne [p1 Hp1]. rewrite HT', decide_False by done. rewrite !decide_False; [done|..]; congruence. }
  assert (Hold : ∀ q1 a1 t1 n1, q1 ≠ q → T !! q1 = Some (PInode a1 t1) → N' a1 = Some (InodeC n1) →
    ∃ n0, N a1 = Some (InodeC n0) ∧ get_key_prefix n1 = get_key_prefix n0 ∧ node_wf n1 ∧
      ∀ b, assoc b (entries n1) = T' !! (full q1 n0 ++ [b])).
  { intros q1 a1 t1 n1 Hne H1 H2. destruct (t_inode_at _ _ _ _ HT q1 a1 t1 H1) as [n0 Hn0].
    destruct (swapped_inode _ _ _ _ _ Hsw q1 a1 t1 n0 H1 ltac:(by eapply HX) Hn0) as (n0' & Hn0' & Hpre & Hw & Hch).
    rewrite Hn0' in H2. injection H2 as <-. exists n0. split_and!; try done. intros b. rewrite Hch, HT'.
    case_decide as Hb; [done|]. rewrite !decide_False by (intros [? _]%snoc_inj; by eapply Hno). by eapply child_of. }
  split.
  - eapply swapped_root; [exact Hsw|done|by rewrite HT', decide_True|]. intros Hne. rewrite HT', decide_False by done.
    rewrite !decide_False; [done|..]; intros Heq; symmetry in Heq; by apply snoc_ne_nil in Heq.
  - intros q1 q2 p1 p2 H1 H2 Heq.
    assert (Hpos : ∀ q0 p0, T' !! q0 = Some p0 → ∃ o, ptr_addr p0 = Some o ∧
      ((q0 = q ∧ o = a') ∨ (q0 = c1 ∧ ptr_addr p = Some o) ∨ (q0 = c2 ∧ o = la) ∨ (q0 ≠ q ∧ T !! q0 = Some p0))).
    { intros q0 p0. rewrite HT'. repeat case_decide; intros E.
      - injection E as <-. exists a'. split; [done|auto 6].
      - injection E as <-. destruct p as [|y ?|y ?]; [done|..]; exists y; (split; [done|auto 6]).
      - injection E as <-. exists la. split; [done|auto 6].
      - pose proof (t_pointed _ _ _ _ HT q0 p0 E). destruct p0 as [|y ?|y ?]; [done|..]; exists y; (split; [done|auto 6]). }
    destruct (Hpos q1 p1 H1) as (o & Ho & Hc). destruct (Hpos q2 p2 H2) as (o2 & Ho2 & Hc'). rewrite Ho, Ho2 in Heq. injection Heq as <-.
    destruct Hc as [[-> ?]|[[-> ?]|[[-> ?]|[? E]]]], Hc' as [[-> ?]|[[-> ?]|[[-> ?]|[? E']]]]; subst; try done;
      try by (exfalso; first [eapply Hfr; done|eapply Hfl; done]).
    + exfalso. by apply (HX o q2 p2); auto.
    + exfalso. by apply (HX o q1 p1); auto.
    + by apply (t_inj _ _ _ _ HT q1 q2 p1 p2); rewrite ?Ho, ?Ho2.
  - intros q1 p1. rewrite HT'. repeat case_decide; intros E.
    + injection E as <-. by exists n4.
    + injection E as <-. destruct p as [|a l0|a t]; [done|..]; simpl.
      * rewrite Hp. apply (t_points _ _ _ _ HT q _ Hq).
      * destruct Hp as (n & n' & _ & ? & _). by exists n'.
    + by injection E as <-.
    + pose proof (t_points _ _ _ _ HT q1 p1 E) as Hpt. destruct p1 as [|y l'|y t1]; simpl in *; [done|..].
      * eapply swapped_leaf; [exact Hsw|by eapply HX|done].
      * destruct Hpt as [n1 Hn1]. destruct (swapped_inode _ _ _ _ _ Hsw q1 y t1 n1 E ltac:(by eapply HX) Hn1) as (n1' & ? & _).
        by exists n1'.
  - intros q1 a1 l1. rewrite HT'.
    assert (Hm' : ∀ q2, T !! q2 = Some (PLeaf a1 l1) → ∃ k1 v1, leaf_holds l1 k1 v1 ∧ length k1 = 8%nat ∧ q2 `prefix_of` k1 ∧ <[k:=v]> m !! k1 = Some v1).
    { intros q2 H2. destruct (t_leaf _ _ _ _ HT q2 a1 l1 H2) as (k1 & v1 & ? & ? & ? & ?). exists k1, v1.
      rewrite lookup_insert_ne; [done|]. intros <-. congruence. }
    repeat case_decide; intros E.
    + done.
    + injection E as ->. destruct (Hm' q Hq) as (k1 & v1 & Hl1 & ? & _ & ?). exists k1, v1. split_and!; try done.
      subst q1. simpl in HK. by rewrite <- (leaf_holds_key _ _ _ Hl1), <- HK.
    + injection E as <- <-. exists k, v. subst q1. by rewrite lookup_insert_eq.
    + by apply Hm'.
  - intros q1 a1 t1 n1. rewrite HT'. repeat case_decide; intros E E2.
    + injection E as <- <-. subst q1. rewrite Hn' in E2. injection E2 as <-. split_and!; [done..|]. intros b.
      rewrite Hch4, HT'. rewrite (decide_False (P := full q n4 ++ [b] = q)) by apply full_longer.
      destruct (decide (b = b1)) as [->|Hb1]; [by rewrite decide_True|].
      rewrite (decide_False (P := full q n4 ++ [b] = c1)) by (by intros [_ ?]%snoc_inj).
      destruct (decide (b = b2)) as [->|Hb2]; [by rewrite decide_True|].
      rewrite (decide_False (P := full q n4 ++ [b] = c2)) by (by intros [_ ?]%snoc_inj). by rewrite Hin.
    + injection E as ->. destruct Hp as (n & n' & Hn & Hna & Hwn & Hen & Hfull). subst q1.
      rewrite Hna in E2. injection E2 as <-. destruct (t_inode _ _ _ _ HT q a1 t1 n Hq Hn) as (_ & Hlen & Hch).
      rewrite Hfull. split_and!; [done..|]. intros b. rewrite Hen, Hch, HT'. rewrite decide_False by apply full_longer.
      rewrite decide_False by (rewrite <- Hfull; apply full_longer). rewrite decide_False; [done|].
      intros [Heq _]%snoc_inj. apply (Hno q a1 t1 n Hq Hn Heq).
    + done.
    + destruct (Hold q1 a1 t1 n1 H0 E E2) as (n0 & Hn0 & Hpre & Hw & Hch).
      destruct (t_inode _ _ _ _ HT q1 a1 t1 n0 E Hn0) as (_ & Hlen & _). rewrite (full_eq q1 n0 n1 Hpre). by split_and!.
  - intros q1 p1 H1 Hne. destruct (decide (q1 = c1)) as [->|Hn1]; [|destruct (decide (q1 = c2)) as [->|Hn2]].
    + exists q, a', t', n4, b1. by rewrite HT', decide_True.
    + exists q, a', t', n4, b2. by rewrite HT', decide_True.
    + assert (is_Some (T !! q1)) as [p2 Hp2].
      { rewrite HT' in H1. repeat case_decide; subst; try done; by eexists. }
      destruct (t_up _ _ _ _ HT q1 p2 Hp2 Hne) as (q0 & a0 & t0 & n0 & b0 & Hq0 & Hn0 & ->).
      destruct (decide (q0 = q)) as [->|Hqq].
      * rewrite Hq in Hq0. injection Hq0 as ->. destruct Hp as (n & n' & Hn & Hna & _ & _ & Hfull).
        rewrite Hn in Hn0. injection Hn0 as <-. exists c1, a0, t0, n', b0.
        rewrite HT', decide_False, decide_True, Hfull by done. done.
      * destruct (swapped_inode _ _ _ _ _ Hsw q0 a0 t0 n0 Hq0 ltac:(by eapply HX) Hn0) as (n0' & ? & Hpre & _).
        exists q0, a0, t0, n0', b0. rewrite HTo, (full_eq _ _ _ Hpre) by done. done.
  - intros k1 v1 [[<- <-]|[_ H1]]%lookup_insert_Some.
    + exists c2, la, l. rewrite HT', !decide_False, decide_True by done. done.
    + destruct (t_map _ _ _ _ HT k1 v1 H1) as (q1 & a1 & l1 & Hq1 & ?). destruct (decide (q1 = q)) as [->|Hqq].
      * rewrite Hq in Hq1. injection Hq1 as ->. exists c1, a1, l1. by rewrite HT', decide_False, decide_True by done.
      * exists q1, a1, l1. by rewrite HTo by done.
Qed.

(** ** A node with two children is replaced by one of them *)

Lemma tree_merge q a t n c b1 b2 la l k v N' rt' :
  T !! q = Some (PInode a t) → N a = Some (InodeC n) → b1 ≠ b2 →
  assoc b1 (entries n) = Some c → assoc b2 (entries n) = Some (PLeaf la l) →
  (∀ b, is_Some (assoc b (entries n)) → b = b1 ∨ b = b2) → leaf_holds l k v →
  match c with
  | PInode x _ => ∃ nc nc', N x = Some (InodeC nc) ∧ N' x = Some (InodeC nc') ∧ node_wf nc' ∧ entries nc' = entries nc ∧
      full q nc' = full (full q n ++ [b1]) nc
  | PLeaf x _ => N' x = N x
  | PNull => True
  end →
  swapped (λ y, y = a ∨ y = la ∨ ptr_addr c = Some y) q c N' rt' →
  tree_ok N' (<[q := c]> (delete (full q n ++ [b1]) (delete (full q n ++ [b2]) T))) rt' (delete k m).
Proof.
  intros Hq Hn Hbb Hb1 Hb2 Hb12 Hlh Hc Hsw.
  set (c1 := full q n ++ [b1]) in *. set (c2 := full q n ++ [b2]) in *.
  assert (Hc1 : T !! c1 = Some c) by (rewrite <- Hb1; symmetry; by apply (child_of q a t n b1)).
  assert (Hc2 : T !! c2 = Some (PLeaf la l)) by (rewrite <- Hb2; symmetry; by apply (child_of q a t n b2)).
  assert (Hc12 : c1 ≠ c2) by (intros [_ ?]%snoc_inj; done).
  assert (Hqc1 : c1 ≠ q) by apply full_longer. assert (Hqc2 : c2 ≠ q) by apply full_longer.
  assert (HX : ∀ y q0 p0, q0 ≠ q → q0 ≠ c1 → q0 ≠ c2 → T !! q0 = Some p0 → ptr_addr p0 = Some y →
    ¬ (y = a ∨ y = la ∨ ptr_addr c = Some y)).
  { intros y q0 p0 H1 H2 H3 H0 Hy [->|[->|Hcy]].
    - apply H1. by apply (same_position q0 q a p0 (PInode a t)).
    - apply H3. by apply (same_position q0 c2 la p0 (PLeaf la l)).
    - apply H2. by apply (same_position q0 c1 y p0 c). }
  assert (HT' : ∀ q1, (<[q := c]> (delete c1 (delete c2 T))) !! q1 =
    if decide (q1 = q) then Some c else if decide (q1 = c1) then None else if decide (q1 = c2) then None else T !! q1).
  { intros q1. destruct (decide (q1 = q)) as [->|]; [by rewrite lookup_insert_eq|rewrite lookup_insert_ne by done].
    destruct (decide (q1 = c1)) as [->|]; [by rewrite lookup_delete_eq|rewrite lookup_delete_ne by done].
    destruct (decide (q1 = c2)) as [->|]; [by rewrite lookup_delete_eq|by rewrite lookup_delete_ne by done]. }
  set (T' := <[q := c]> (delete c1 (delete c2 T))) in *. clearbody T'.
  assert (HTo : ∀ q1 p1, T' !! q1 = Some p1 → (q1 = q ∧ p1 = c) ∨ (q1 ≠ q ∧ q1 ≠ c1 ∧ q1 ≠ c2 ∧ T !! q1 = Some p1)).
  { intros q1 p1. rewrite HT'. repeat case_decide; intros E; simplify_eq; auto. }
  assert (HTn : ∀ q1, q1 ≠ q → q1 ≠ c1 → q1 ≠ c2 → T' !! q1 = T !! q1) by (intros; by rewrite HT', !decide_False).
  assert (Hcn : c ≠ PNull) by by eapply t_pointed.
  split.
  - eapply swapped_root; [exact Hsw|done|by rewrite HT', decide_True|]. intros Hne. apply HTn; [done|..];
      intros Heq; symmetry in Heq; by apply snoc_ne_nil in Heq.
  - intros q1 q2 p1 p2 [[-> ->]|(_ & Hd1 & _ & Hp1)]%HTo [[-> ->]|(_ & Hd2 & _ & Hp2)]%HTo Heq; try done.
    + by destruct Hd2; apply (t_inj _ _ _ _ HT q2 c1 p2 c).
    + by destruct Hd1; apply (t_inj _ _ _ _ HT q1 c1 p1 c).
    + by apply (t_inj _ _ _ _ HT q1 q2 p1 p2).
  - intros q1 p1 [[-> ->]|(? & ? & ? & H1)]%HTo.
    + pose proof (t_points _ _ _ _ HT c1 c Hc1) as Hpt. destruct c as [|x lx|x tx]; simpl in *; [done|..].
      * by rewrite Hc.
      * destruct Hc as (nc & nc' & _ & ? & _). by exists nc'.
    + pose proof (t_points _ _ _ _ HT q1 p1 H1) as Hpt. destruct p1 as [|y l'|y t1]; simpl in *; [done|..].
      * eapply swapped_leaf; [exact Hsw|by eapply HX|done].
      * destruct Hpt as [n1 Hn1]. destruct (swapped_inode _ _ _ _ _ Hsw q1 y t1 n1 H1 ltac:(by eapply HX) Hn1) as (n1' & ? & _).
        by exists n1'.
  - intros q1 a1 l1 Hq1.
    assert (Hm' : ∀ q2, q2 ≠ c2 → T !! q2 = Some (PLeaf a1 l1) → ∃ k1 v1, leaf_holds l1 k1 v1 ∧ length k1 = 8%nat ∧ q2 `prefix_of` k1 ∧ delete k m !! k1 = Some v1).
    { intros q2 Hne H2. destruct (t_leaf _ _ _ _ HT q2 a1 l1 H2) as (k1 & v1 & Hl1 & ? & ? & ?). exists k1, v1.
      rewrite lookup_delete_ne; [done|]. intros <-. apply Hne. by apply (leaf_unique q2 a1 l1 c2 la l k v1 v). }
    apply HTo in Hq1 as [[-> <-]|(? & ? & ? & H1)]; [|by apply Hm'].
    destruct (Hm' c1 Hc12 Hc1) as (k1 & v1 & ? & ? & Hp1 & ?). exists k1, v1. split_and!; try done.
    etrans; [|exact Hp1]. etrans; [apply full_prefix|]. by eexists.
  - intros q1 a1 t1 n1 [[-> <-]|(Hne & Hne1 & Hne2 & H1)]%HTo E2.
    + destruct Hc as (nc & nc' & Hnc & Hnc' & Hw & He & Hfull). rewrite Hnc' in E2. injection E2 as <-.
      destruct (t_inode _ _ _ _ HT c1 a1 t1 nc Hc1 Hnc) as (_ & Hlen & Hch). rewrite Hfull. split_and!; [done..|].
      assert (Hlt : (length (full q n) < length (full c1 nc))%nat).
      { pose proof (full_le c1 nc). unfold c1 in *. rewrite length_snoc in *. lia. }
      intros b. rewrite He, Hch, HTn; [done|..].
      * rewrite <- Hfull. apply full_longer.
      * intros [Heq _]%snoc_inj. rewrite Heq in Hlt. lia.
      * intros [Heq _]%snoc_inj. rewrite Heq in Hlt. lia.
    + destruct (t_inode_at _ _ _ _ HT q1 a1 t1 H1) as [n0 Hn0].
      destruct (swapped_inode _ _ _ _ _ Hsw q1 a1 t1 n0 H1 ltac:(by eapply HX) Hn0) as (n0' & Hn0' & Hpre & Hw & Hch).
      rewrite Hn0' in E2. injection E2 as <-. destruct (t_inode _ _ _ _ HT q1 a1 t1 n0 H1 Hn0) as (_ & Hlen & Hch0).
      rewrite (full_eq q1 n0 n0' Hpre). split_and!; [done..|]. intros b. rewrite Hch, HT'. case_decide; [done|].
      rewrite Hch0, !decide_False; [done|..]; intros Heq.
      * destruct (other_child _ _ _ _ _ _ _ _ _ _ H1 Hn0 Hq Hn Heq) as (_ & -> & _). done.
      * destruct (other_child _ _ _ _ _ _ _ _ _ _ H1 Hn0 Hq Hn Heq) as (_ & -> & _). done.
  - intros q1 p1 H1 Hne.
    assert (is_Some (T !! q1)) as [p2 Hp2] by (apply HTo in H1 as [[-> _]|(_ & _ & _ & ?)]; by eexists).
    destruct (t_up _ _ _ _ HT q1 p2 Hp2 Hne) as (q0 & a0 & t0 & n0 & b0 & Hq0 & Hn0 & Heq).
    destruct (decide (q0 = q)) as [->|Hq0q]; [|destruct (decide (q0 = c1)) as [->|Hq0c1]; [|destruct (decide (q0 = c2)) as [->|Hq0c2]]].
    + exfalso. rewrite Hq in Hq0. injection Hq0 as <- <-. rewrite Hn in Hn0. injection Hn0 as <-. subst q1.
      apply HTo in H1 as [[H1 _]|(_ & H1 & H2 & _)]; [by apply full_longer in H1|].
      rewrite <- (child_of q a t n b0 Hq Hn) in Hp2. destruct (Hb12 b0) as [->| ->]; [by eexists|done..].
    + rewrite Hc1 in Hq0. injection Hq0 as ->. destruct Hc as (nc & nc' & Hnc & Hnc' & _ & _ & Hfull).
      rewrite Hnc in Hn0. injection Hn0 as <-. exists q, a0, t0, nc', b0. by rewrite HT', decide_True, Hfull.
    + congruence.
    + destruct (swapped_inode _ _ _ _ _ Hsw q0 a0 t0 n0 Hq0 ltac:(by eapply HX) Hn0) as (n0' & ? & Hpre & _).
      exists q0, a0, t0, n0', b0. by rewrite HTn, (full_eq _ _ _ Hpre).
  - intros k1 v1 [Hk1 H1]%lookup_delete_Some. destruct (t_map _ _ _ _ HT k1 v1 H1) as (q1 & a1 & l1 & Hq1 & Hl1).
    destruct (decide (q1 = c1)) as [->|Hn1].
    + rewrite Hc1 in Hq1. injection Hq1 as ->. exists q, a1, l1. by rewrite HT', decide_True.
    + exists q1, a1, l1. split; [|done]. rewrite HTn; [done|congruence|done|]. intros ->. rewrite Hc2 in Hq1.
      injection Hq1 as <- <-. by destruct (leaf_holds_inj _ _ _ _ _ Hlh Hl1) as [-> _].
Qed.

(** ** The first leaf comes and the last one goes *)

Lemma tree_empty : rt = PNull → T = ∅ ∧ m = ∅.
Proof.
  intros Hrt. split; apply map_eq; intros x; rewrite lookup_empty; [|by eapply walk_empty].
  assert (Hnil : ∀ s q p, (length q ≤ s)%nat → T !! q = Some p → False).
  { induction s as [|s IH]; intros q p Hs Hq.
    - destruct q; [|cbn [length] in Hs; lia]. by rewrite (t_root _ _ _ _ HT), Hrt in Hq.
    - destruct (decide (q = [])) as [->|Hne]; [by rewrite (t_root _ _ _ _ HT), Hrt in Hq|].
      destruct (t_up _ _ _ _ HT q p Hq Hne) as (q0 & a0 & t0 & n0 & b0 & Hq0 & _ & ->).
      apply (IH q0 (PInode a0 t0)); [|exact Hq0]. rewrite length_snoc in Hs. pose proof (full_le q0 n0). lia. }
  destruct (T !! x) as [p|] eqn:Hx; [|done]. by destruct (Hnil (length x) x p).
Qed.

(** Every part of the tree has a leaf. *)
Lemma tree_leaf q p : T !! q = Some p → ∃ q' a l, T !! q' = Some (PLeaf a l).
Proof.
  assert (Hs : ∀ s q p, (8 ≤ length q + s)%nat → T !! q = Some p → ∃ q' a l, T !! q' = Some (PLeaf a l)).
  { clear q p. induction s as [|s IH]; intros q p Hs Hq; pose proof (t_points _ _ _ _ HT q p Hq) as Hp;
      (destruct p as [|a l|a t]; [done|by exists q, a, l|]); destruct Hp as [n Hn];
      destruct (t_inode _ _ _ _ HT q a t n Hq Hn) as (Hw & Hl & Hch); pose proof (full_le q n); [lia|].
    destruct (entries n) as [|[b x] es] eqn:He; [by apply inode_nonempty in He|].
    specialize (Hch b). cbn [assoc] in Hch. rewrite kcmp_refl in Hch. eapply IH; [|exact (eq_sym Hch)]. rewrite length_snoc. lia. }
  apply (Hs 8%nat). lia.
Qed.

Lemma tree_bindings : m = ∅ ↔ rt = PNull.
Proof.
  split; [|by intros [_ ?]%tree_empty]. intros Hm. destruct (decide (rt = PNull)) as [|Hrt]; [done|exfalso].
  pose proof (t_root _ _ _ _ HT) as Hr. assert (Hq : T !! [] = Some rt) by by destruct rt.
  destruct (tree_leaf _ _ Hq) as (q & a & l & Hl). destruct (t_leaf _ _ _ _ HT q a l Hl) as (k & v & _ & _ & _ & Hk).
  by rewrite Hm, lookup_empty in Hk.
Qed.

Lemma tree_first N' la l k v :
  rt = PNull → N' la = Some (LeafC l) → leaf_holds l k v → length k = 8%nat →
  m !! k = None ∧ tree_ok N' {[ [] := PLeaf la l ]} (PLeaf la l) (<[k := v]> m).
Proof.
  intros Hrt Hl Hlh Hk. destruct (tree_empty Hrt) as [_ Hm]. split; [by rewrite Hm|]. rewrite Hm.
  split.
  - by rewrite lookup_singleton_eq.
  - by intros q q' p p' [<- _]%lookup_singleton_Some [<- _]%lookup_singleton_Some.
  - by intros q p [<- <-]%lookup_singleton_Some.
  - intros q a l' [<- [= <- <-]]%lookup_singleton_Some. exists k, v. rewrite lookup_insert_eq. split_and!; try done.
    by eexists.
  - by intros q a t n [_ ?]%lookup_singleton_Some.
  - by intros q p [<- _]%lookup_singleton_Some.
  - intros k' v' [[<- <-]|[_ ?]]%lookup_insert_Some; [|done]. exists [], la, l. by rewrite lookup_singleton_eq.
Qed.

Lemma tree_last a l k v :
  rt = PLeaf a l → leaf_holds l k v → T = {[ [] := PLeaf a l ]} ∧ tree_ok N ∅ PNull (delete k m).
Proof.
  intros Hrt Hlh. pose proof (t_root _ _ _ _ HT) as Hroot. rewrite Hrt in Hroot.
  assert (Honly : ∀ q p, T !! q = Some p → q = []).
  { intros q p Hq. destruct (decide (q = [])) as [|Hne]; [done|exfalso].
    assert (Hs : ∀ s q p, (length q ≤ s)%nat → q ≠ [] → T !! q = Some p → False); [|by eapply (Hs (length q) q p)].
    clear q p Hq Hne. induction s as [|s IH]; intros q p Hs Hne Hq.
    - destruct q; [done|cbn [length] in Hs; lia].
    - destruct (t_up _ _ _ _ HT q p Hq Hne) as (q0 & a0 & t0 & n0 & b0 & Hq0 & _ & ->).
      destruct (decide (q0 = [])) as [->|Hne0]; [congruence|].
      apply (IH q0 (PInode a0 t0)); [|done|exact Hq0]. rewrite length_snoc in Hs. pose proof (full_le q0 n0). lia. }
  split.
  - apply map_eq. intros q. destruct (decide (q = [])) as [->|Hne]; [by rewrite lookup_singleton_eq|].
    rewrite lookup_singleton_ne by done. destruct (T !! q) as [p|] eqn:E; [|done]. by apply Honly in E.
  - split; try by intros *; rewrite ?lookup_empty.
    intros k' v' [Hne Hk']%lookup_delete_Some. exfalso.
    destruct (t_map _ _ _ _ HT k' v' Hk') as (q & a' & l' & Hq & Hl'). pose proof (Honly q _ Hq) as ->.
    rewrite Hroot in Hq. injection Hq as <- <-. by destruct (leaf_holds_inj _ _ _ _ _ Hlh Hl') as [-> _].
Qed.
End at_node.
End surgery.
