(* ===== verification/OlcInv.v ===== *)
(** What holds of the concurrent index at every moment, and what the step of one
    thread leaves alone for the others.  A ghost state records the tree, who
    holds which lock or keeps which node to itself, the bindings the tree stands
    for, and which call has taken effect. *)

From S2P Require Import Prelude Words Threads ArtKey KeyPrefix SortedAssoc Simd InodeBase.
From S2P Require Import Heap Leaf InodeSpec Inode Db DbTrace OptimisticLock OlcState Olc OlcSystem OlcTree.

(** ** Ghost state *)

(** A change that the tree and the memory do not agree on yet: what a locked node
    is about to store in one of its slots, or the prefix it had. *)
Inductive delayed :=
  | Stored (s : nat) (p : olc_ptr)
  | Uncut (x : key_prefix).

(** [gcalls]: what is known of the calls, each with the answers that have been
    right at some moment since it was made. *)
Record ghost := Ghost {
  tree : gmap (list Z) olc_ptr;
  owner : gmap lock_ref nat;
  private : gmap addr nat;
  pend : gmap lock_ref delayed;
  gbindings : gmap (list Z) (list Z);
  gcalls : list (call_state * list answer);
  clock : Z;
}.

Definition gworld := (shared * ghost)%type.

Definition slot_lock (r : slot_ref) : lock_ref := match r with RootSlot => RootLock | ChildSlot a _ => NodeLock a end.

Definition contents_at (s : shared) (a : addr) : option contents := node_contents <$> nodes s !! a.

Section inv.
Context `{Target}.
Implicit Types (w : gworld) (i : nat) (l : lock_ref) (n : inode olc_ptr).

Definition word w l : option Z := lock_word w.1 l.

Lemma inode_at_contents (s : shared) a n : inode_at s a = Some n ↔ contents_at s a = Some (InodeC n).
Proof. unfold inode_at, contents_at. destruct (nodes s !! a) as [[x [l|n']]|]; simpl; naive_solver. Qed.

(** The contents of nodes as the tree has them. *)
Definition with_delayed (d : option delayed) n : inode olc_ptr :=
  match d with None => n | Some (Stored s p) => slot_store n s p | Some (Uncut x) => set_key_prefix x n end.

Definition logical w (a : addr) : option contents :=
  match contents_at w.1 a with
  | Some (InodeC n) => Some (InodeC (with_delayed (pend w.2 !! NodeLock a) n))
  | c => c
  end.

Definition logical_root w : olc_ptr :=
  match pend w.2 !! RootLock with Some (Stored _ p) => p | _ => root w.1 end.

Definition visible w l : Prop :=
  match l with RootLock => True | NodeLock a => is_Some (nodes w.1 !! a) ∧ private w.2 !! a = None end.

Definition in_tree w (a : addr) : Prop := ∃ q p, tree w.2 !! q = Some p ∧ ptr_addr p = Some a.

(** A pointer to a node that all threads may know, of the kind its tag tells. *)
Definition valid_ptr w (p : olc_ptr) : Prop :=
  match p with
  | PNull => False
  | PLeaf a l => private w.2 !! a = None ∧ contents_at w.1 a = Some (LeafC l)
  | PInode a t => private w.2 !! a = None ∧ ∃ n, inode_at w.1 a = Some n ∧ type n = t
  end.

(** ** The invariant *)

(** The lock of the place where the pointer at a position is stored. *)
Definition parent_lock w (q : list Z) l : Prop :=
  (q = [] ∧ l = RootLock) ∨
  ∃ q0 x t n b, tree w.2 !! q0 = Some (PInode x t) ∧ logical w x = Some (InodeC n) ∧ q = full q0 n ++ [b] ∧ l = NodeLock x.

(** The lock of a node tells whether it is in the tree, in somebody's hands, or
    retired. *)
Definition node_state w (a : addr) (x : Z) : Prop :=
  match owner w.2 !! NodeLock a with
  | None => (x mod 4 = 0 ∧ in_tree w a) ∨ (x = 1 ∧ ¬ in_tree w a ∧ a ∈ retired w.1)
  | Some _ => (x mod 4 = 2 ∧ in_tree w a) ∨ x = 1
  end.

Record inv w : Prop := {
  i_tree : tree_ok (logical w) (tree w.2) (logical_root w) (gbindings w.2);
  i_valid : ∀ q p, tree w.2 !! q = Some p → valid_ptr w p;
  i_range : ∀ l x, word w l = Some x → 0 ≤ x ≤ 2 * clock w.2 + 1;
  i_root : root_pointer_lock w.1 mod 4 = match owner w.2 !! RootLock with None => 0 | Some _ => 2 end;
  i_node : ∀ a x, word w (NodeLock a) = Some x → private w.2 !! a = None → node_state w a x;
  i_wf : ∀ a n, inode_at w.1 a = Some n → private w.2 !! a = None → node_wf n;
  i_private : ∀ a i, private w.2 !! a = Some i →
    owner w.2 !! NodeLock a = None ∧ ¬ in_tree w a ∧ word w (NodeLock a) = Some 0;
  i_owner : ∀ l i, owner w.2 !! l = Some i → visible w l;
  i_pend : ∀ l x, pend w.2 !! l = Some x → is_Some (owner w.2 !! l);
  i_uncut : ∀ a x q t l, pend w.2 !! NodeLock a = Some (Uncut x) → tree w.2 !! q = Some (PInode a t) →
    parent_lock w q l → owner w.2 !! l = owner w.2 !! NodeLock a;
  i_pend_root : is_Some (pend w.2 !! RootLock) → root w.1 ≠ PNull ∧ logical_root w ≠ PNull;
  i_retired : NoDup (retired w.1) ∧ ∀ a, a ∈ retired w.1 → word w (NodeLock a) = Some 1;
  i_fresh : ∀ a, is_Some (nodes w.1 !! a) → (a < next_addr w.1)%nat;
}.

(** ** What a step leaves alone *)

(** Two nodes that differ at most in their prefix. *)
Definition same_node n n' : Prop := set_key_prefix 0 n = set_key_prefix 0 n'.

(** What thread [i] holds, or nobody does and nobody took: its word is as it was. *)
Definition undisturbed i w w' l : Prop :=
  owner w.2 !! l = Some i ∨ (owner w.2 !! l = None ∧ word w' l = word w l).

(** [kept i pp w w']: what a step of another thread keeps for thread [i].  Only a
    step with [pp], that puts a prefix before that of a node, changes a node that
    is not locked, and then only a node whose parent is. *)
Record kept i (pp : bool) w w' : Prop := {
  k_visible : ∀ l, visible w l → visible w' l;
  k_word : ∀ l x, visible w l → word w l = Some x →
    ∃ x', word w' l = Some x' ∧ (x ≤ x' ∨ x' = 1) ∧ (x = 1 → x' = 1);
  k_owner : ∀ l, owner w.2 !! l = Some i ↔ owner w'.2 !! l = Some i;
  k_owned : ∀ l, owner w.2 !! l = Some i → word w' l = word w l;
  k_pend : ∀ l, undisturbed i w w' l → pend w'.2 !! l = pend w.2 !! l;
  k_retired : ∀ a, owner w.2 !! NodeLock a = Some i → a ∈ retired w'.1 ↔ a ∈ retired w.1;
  k_gone : ∀ a, owner w.2 !! NodeLock a = Some i → in_tree w' a → in_tree w a;
  k_valid : ∀ p, valid_ptr w p → valid_ptr w' p;
  k_root : undisturbed i w w' RootLock → root w'.1 = root w.1 ∧ tree w'.2 !! [] = tree w.2 !! [];
  k_leaf : ∀ q a (l : basic_leaf), tree w.2 !! q = Some (PLeaf a l) → undisturbed i w w' (NodeLock a) →
    ∃ q', tree w'.2 !! q' = Some (PLeaf a l) ∧ q' `prefix_of` q ∧
      (∀ lp, parent_lock w q lp → undisturbed i w w' lp → q' = q);
  k_inode : ∀ q a t n, tree w.2 !! q = Some (PInode a t) → inode_at w.1 a = Some n → undisturbed i w w' (NodeLock a) →
    ∃ q' n', tree w'.2 !! q' = Some (PInode a t) ∧ inode_at w'.1 a = Some n' ∧ same_node n n' ∧
      full q' n' = full q n ∧ q' `prefix_of` q ∧ (pp = false → q' = q ∧ n' = n) ∧
      (∀ lp, parent_lock w q lp → undisturbed i w w' lp → q' = q ∧ n' = n);
  k_private : ∀ a, private w.2 !! a = Some i ↔ private w'.2 !! a = Some i;
  k_private_node : ∀ a, private w.2 !! a = Some i → nodes w'.1 !! a = nodes w.1 !! a;
  k_call : gcalls w'.2 !! i = gcalls w.2 !! i;
}.

(** Steps of the other threads, as a thread sees them; one that is looking up a
    key sees no prefix change ([reading]). *)
Definition rely i (reading : bool) w w' : Prop :=
  inv w' ∧ ∃ pp, kept i pp w w' ∧ (pp = true → reading = false).

Definition guar i (pp : bool) w w' : Prop := ∀ j, j ≠ i → kept j pp w w'.

(** ** Nodes up to their prefix *)

Lemma same_node_refl n : same_node n n.
Proof. done. Qed.

Lemma same_node_trans n1 n2 n3 : same_node n1 n2 → same_node n2 n3 → same_node n1 n3.
Proof. unfold same_node. congruence. Qed.

Lemma same_node_sym n1 n2 : same_node n1 n2 → same_node n2 n1.
Proof. done. Qed.

Lemma same_node_by {A} (f : inode olc_ptr → A) n n' :
  (∀ n, f (set_key_prefix 0 n) = f n) → same_node n n' → f n' = f n.
Proof. intros Hf Hs. by rewrite <- (Hf n), <- (Hf n'), Hs. Qed.

Lemma same_find_child n n' b : same_node n n' → find_child n' b = find_child n b.
Proof. apply (same_node_by (λ n, find_child n b)). by intros []. Qed.

Lemma same_entries n n' : same_node n n' → entries n' = entries n.
Proof. apply (same_node_by entries). by intros []. Qed.

Lemma same_count n n' : same_node n n' → get_children_count n' = get_children_count n.
Proof. apply same_node_by. by intros []. Qed.

Lemma same_type n n' : same_node n n' → type n' = type n.
Proof. apply same_node_by. by intros []. Qed.

Lemma same_slot_load n n' s : same_node n n' → slot_load n' s = slot_load n s.
Proof. apply (same_node_by (λ n, slot_load n s)). by intros []. Qed.

Lemma set_prefix_same (x : key_prefix) n : same_node n (set_key_prefix x n).
Proof. by destruct n. Qed.

Lemma get_set_prefix (x : key_prefix) n : get_key_prefix (set_key_prefix x n) = x.
Proof. by destruct n. Qed.

Lemma set_prefix_get n : set_key_prefix (get_key_prefix n) n = n.
Proof. destruct n as [n|n|n|n]; destruct n as [i ? ?] || destruct n as [i ?]; by destruct i. Qed.

Lemma same_node_eq n n' : same_node n n' → n' = set_key_prefix (get_key_prefix n') n.
Proof.
  intros Hs. rewrite <- (set_prefix_get n') at 1.
  assert (Hset : ∀ x y n, set_key_prefix x (set_key_prefix y n) = set_key_prefix x n) by (by intros x y []).
  by rewrite <- (Hset _ 0 n'), <- Hs, Hset.
Qed.
End inv.
