(* ===== verification/OlcFacts.v ===== *)
(** What a thread knows of the memory, and that it goes on knowing it: facts that
    hold as long as the versions it has seen are current, or the locks are its
    own. *)

From S2P Require Import Prelude Words Threads ArtKey KeyPrefix SortedAssoc Simd InodeBase.
From S2P Require Import Heap Leaf InodeSpec Inode Db DbTrace OptimisticLock OlcState Olc OlcSystem OlcLogic OlcTree OlcInv.

Section facts.
Context `{Target} (i : nat) (reading : bool).
Implicit Types (w : gworld) (n : inode olc_ptr).

Abbreviation fact := (gworld → Prop).

(** The fact survives the steps of the other threads. *)
Definition lasting (A : fact) : Prop := ∀ w w', inv w → rely i reading w w' → A w → A w'.

(** ** Facts about the thread's own *)

Lemma lasting_pure (P : Prop) : lasting (λ _, P).
Proof. by intros ?????. Qed.

Lemma lasting_and (A B : fact) : lasting A → lasting B → lasting (λ w, A w ∧ B w).
Proof. intros HA HB w w' Hi Hr [??]. split; eauto. Qed.

Lemma lasting_or (A B : fact) : lasting A → lasting B → lasting (λ w, A w ∨ B w).
Proof. intros HA HB w w' Hi Hr [?|?]; [left|right]; eauto. Qed.

Lemma lasting_ex {X} (A : X → fact) : (∀ x, lasting (A x)) → lasting (λ w, ∃ x, A x w).
Proof. intros HA w w' Hi Hr [x ?]. exists x. by eapply HA. Qed.

Lemma lasting_valid p : lasting (λ w, valid_ptr w p).
Proof. intros w w' _ (_ & pp & Hk & _). apply (k_valid _ _ _ _ Hk). Qed.

(** The state of the thread's call. *)
Definition calling (c : call_state) (answers : list answer) : fact := λ w, gcalls w.2 !! i = Some (c, answers).

Lemma lasting_calling c answers : lasting (calling c answers).
Proof. intros w w' _ (_ & pp & Hk & _). unfold calling. by rewrite (k_call _ _ _ _ Hk). Qed.

(** The locks the thread holds, and the nodes it has not published. *)
Definition locks (ls : list lock_ref) : fact := λ w, ∀ l, owner w.2 !! l = Some i ↔ l ∈ ls.
Definition privates (ps : list addr) : fact := λ w, ∀ a, private w.2 !! a = Some i ↔ a ∈ ps.

Lemma lasting_locks ls : lasting (locks ls).
Proof. intros w w' _ (_ & pp & Hk & _) Hl l. by rewrite <- (k_owner _ _ _ _ Hk). Qed.

Lemma lasting_privates ps : lasting (privates ps).
Proof. intros w w' _ (_ & pp & Hk & _) Hl a. by rewrite <- (k_private _ _ _ _ Hk). Qed.

(** A lock it holds, with its word and what is pending. *)
Definition locked (l : lock_ref) (x : Z) (o : option delayed) : fact := λ w,
  owner w.2 !! l = Some i ∧ word w l = Some x ∧ pend w.2 !! l = o.

Lemma lasting_locked l x o : lasting (locked l x o).
Proof.
  intros w w' _ (_ & pp & Hk & _) (Ho & Hw & Hp). unfold locked.
  rewrite <- (k_owner _ _ _ _ Hk), (k_owned _ _ _ _ Hk) by done. split_and!; [done..|].
  rewrite (k_pend _ _ _ _ Hk); [done|by left].
Qed.

(** A node of its own. *)
Definition mine (a : addr) (c : contents) : fact := λ w, private w.2 !! a = Some i ∧ contents_at w.1 a = Some c.

Lemma lasting_mine a c : lasting (mine a c).
Proof.
  intros w w' _ (_ & pp & Hk & _) [Hp Ha]. split; [by rewrite <- (k_private _ _ _ _ Hk)|].
  unfold contents_at. by rewrite (k_private_node _ _ _ _ Hk).
Qed.

(** Whether a node it has locked is retired, and that it is out of the tree. *)
Definition unretired (a : addr) : fact := λ w, owner w.2 !! NodeLock a = Some i ∧ a ∉ retired w.1.
Definition is_retired (a : addr) : fact := λ w, owner w.2 !! NodeLock a = Some i ∧ a ∈ retired w.1.
Definition gone (a : addr) : fact := λ w, owner w.2 !! NodeLock a = Some i ∧ ¬ in_tree w a.

Lemma lasting_unretired a : lasting (unretired a).
Proof.
  intros w w' _ (_ & pp & Hk & _) [Ho Ha]. split; [by rewrite <- (k_owner _ _ _ _ Hk)|].
  by rewrite (k_retired _ _ _ _ Hk).
Qed.

Lemma lasting_is_retired a : lasting (is_retired a).
Proof.
  intros w w' _ (_ & pp & Hk & _) [Ho Ha]. split; [by rewrite <- (k_owner _ _ _ _ Hk)|].
  by rewrite (k_retired _ _ _ _ Hk).
Qed.

Lemma lasting_gone a : lasting (gone a).
Proof.
  intros w w' _ (_ & pp & Hk & _) [Ho Ha]. split; [by rewrite <- (k_owner _ _ _ _ Hk)|].
  intros Hin. by apply Ha, (k_gone _ _ _ _ Hk).
Qed.

(** ** Facts under versions *)

(** A version that the lock had when it was free. *)
Definition seen (l : lock_ref) (v : Z) : fact := λ w,
  visible w l ∧ v mod 4 = 0 ∧ 0 ≤ v ∧ ∃ x, word w l = Some x ∧ (v ≤ x ∨ x = 1).

Lemma lasting_seen l v : lasting (seen l v).
Proof.
  intros w w' _ (_ & pp & Hk & _) (Hvis & Hv & H0 & x & Hx & Hle). split_and!; try done.
  - by apply (k_visible _ _ _ _ Hk).
  - destruct (k_word _ _ _ _ Hk l x Hvis Hx) as (x' & Hx' & Hxx & H1). exists x'. split; [done|].
    destruct Hle as [Hle|Hle]; [destruct Hxx; [left; lia|by right]|right; auto].
Qed.

(** The version is current, or the lock was taken with it. *)
Definition holds (l : lock_ref) (v : Z) : fact := λ w,
  word w l = Some v ∨ (owner w.2 !! l = Some i ∧ word w l = Some (v + 2)).

Lemma free_unowned w l v : inv w → visible w l → word w l = Some v → v mod 4 = 0 → owner w.2 !! l = None.
Proof.
  intros Hi Hvis Hw Hv. destruct l as [|a].
  - unfold word in Hw. simpl in Hw. injection Hw as Hw. pose proof (i_root _ Hi) as Hr. rewrite Hw, Hv in Hr.
    destruct (owner w.2 !! RootLock); [discriminate Hr|done].
  - pose proof (i_node _ Hi a v Hw (proj2 Hvis)) as Hn. unfold node_state in Hn.
    destruct (owner w.2 !! NodeLock a); [|done]. destruct Hn as [[Hn _]| ->]; [lia|done].
Qed.

Lemma free_in_tree w a v : inv w → visible w (NodeLock a) → word w (NodeLock a) = Some v → v mod 4 = 0 → in_tree w a.
Proof.
  intros Hi Hvis Hw Hv. pose proof (i_node _ Hi a v Hw (proj2 Hvis)) as Hn. unfold node_state in Hn.
  rewrite (free_unowned _ _ _ Hi Hvis Hw Hv) in Hn. destruct Hn as [[_ ?]|(-> & _)]; [done|done].
Qed.

(** What is held after a step of another thread was held before it, and was left
    alone. *)
Lemma holds_back w w' l v :
  inv w → rely i reading w w' → seen l v w → holds l v w' → holds l v w ∧ undisturbed i w w' l.
Proof.
  intros Hi (_ & pp & Hk & _) (Hvis & Hv & H0 & x & Hx & Hle) [Hw|[Ho Hw]].
  - destruct (k_word _ _ _ _ Hk l x Hvis Hx) as (x' & Hx' & Hxx & H1). rewrite Hw in Hx'. injection Hx' as <-.
    assert (x = v) as ->.
    { destruct Hle as [Hle|Hle]; [destruct Hxx as [|Hv1]; [lia|by rewrite Hv1 in Hv]|].
      rewrite (H1 Hle) in Hv. discriminate Hv. }
    split; [by left|]. right. split; [by eapply free_unowned|]. congruence.
  - apply (k_owner _ _ _ _ Hk) in Ho. rewrite (k_owned _ _ _ _ Hk) in Hw by done. split; [by right|by left].
Qed.

(** [given ls φ]: the versions of [ls] were seen, and while all of them are held,
    [φ]. *)
Definition held (ls : list (lock_ref * Z)) : fact := λ w, Forall (λ x, holds x.1 x.2 w) ls.
Definition given (ls : list (lock_ref * Z)) (φ : fact) : fact := λ w,
  Forall (λ x, seen x.1 x.2 w) ls ∧ (held ls w → φ w).

(** The fact survives as long as the locks of [ls] are left alone. *)
Definition steady (ls : list (lock_ref * Z)) (φ : fact) : Prop := ∀ w w',
  inv w → rely i reading w w' → Forall (λ x, undisturbed i w w' x.1) ls → φ w → φ w'.

Lemma lasting_given ls φ : steady ls φ → lasting (given ls φ).
Proof.
  intros Hs w w' Hi Hr [Hseen Hφ]. split.
  - eapply Forall_impl; [exact Hseen|]. intros [l v]. by apply lasting_seen.
  - intros Hheld. assert (Hb : Forall (λ x, holds x.1 x.2 w ∧ undisturbed i w w' x.1) ls).
    { apply Forall_forall. intros x Hx. rewrite Forall_forall in Hseen. unfold held in Hheld. rewrite Forall_forall in Hheld.
      by apply holds_back; auto. }
    apply (Hs w); [done..|eapply Forall_impl; [exact Hb|]; by intros ? []|].
    apply Hφ. eapply Forall_impl; [exact Hb|]. by intros ? [].
Qed.

Lemma steady_and ls (φ ψ : fact) : steady ls φ → steady ls ψ → steady ls (λ w, φ w ∧ ψ w).
Proof. intros H1 H2 w w' Hi Hr Hu [??]. split; eauto. Qed.

Lemma steady_pure ls (P : Prop) : steady ls (λ _, P).
Proof. by intros ??????. Qed.

Lemma steady_ex {X} ls (φ : X → fact) : (∀ x, steady ls (φ x)) → steady ls (λ w, ∃ x, φ x w).
Proof. intros Hφ w w' Hi Hr Hu [x ?]. exists x. by eapply Hφ. Qed.

Lemma steady_weaken ls ls' φ : (∀ x, x ∈ ls → x ∈ ls') → steady ls φ → steady ls' φ.
Proof.
  intros Hsub Hs w w' Hi Hr Hu. apply Hs; [done..|]. rewrite Forall_forall in *. auto.
Qed.

(** ** Where a pointer is stored *)

(** The place [r] holds [p], at position [c] of the tree. *)
Definition edge_at (r : slot_ref) (p : olc_ptr) (c : list Z) : fact := λ w,
  match r with
  | RootSlot => pend w.2 !! RootLock = None ∧ c = [] ∧ root w.1 = p
  | ChildSlot a s => pend w.2 !! NodeLock a = None ∧
      ∃ q t n b j, tree w.2 !! q = Some (PInode a t) ∧ inode_at w.1 a = Some n ∧ c = full q n ++ [b] ∧
        find_child n b = (j, Some s) ∧ assoc b (entries n) = Some p
  end.

Lemma logical_inode w a n : inode_at w.1 a = Some n → pend w.2 !! NodeLock a = None → logical w a = Some (InodeC n).
Proof. intros Hn Hp. apply inode_at_contents in Hn. unfold logical. by rewrite Hn, Hp.
Qed.

Lemma steady_edge r p c v : steady [(slot_lock r, v)] (edge_at r p c).
Proof.
  intros w w' Hi (_ & pp & Hk & _) [Hu _]%Forall_cons. simpl in Hu. destruct r as [|a s].
  - intros (Hp & -> & Hrt). simpl. rewrite (k_pend _ _ _ _ Hk RootLock) by exact Hu.
    destruct (k_root _ _ _ _ Hk Hu) as [-> _]. done.
  - intros (Hp & q & t & n & b & j & Hq & Hn & -> & Hf & Ha). simpl.
    rewrite (k_pend _ _ _ _ Hk (NodeLock a)) by exact Hu. split; [done|].
    destruct (k_inode _ _ _ _ Hk q a t n Hq Hn Hu) as (q' & n' & Hq' & Hn' & Hs & Hfull & _).
    exists q', t, n', b, j. by rewrite Hfull, (same_find_child _ _ _ Hs), (same_entries _ _ Hs).
Qed.

(** Such a pointer is in the tree. *)
Lemma edge_in_tree w r p c : inv w → edge_at r p c w → p ≠ PNull → tree w.2 !! c = Some p.
Proof.
  intros Hi He Hp. destruct r as [|a s].
  - destruct He as (Hpend & -> & Hr). rewrite (t_root _ _ _ _ (i_tree _ Hi)). unfold logical_root.
    rewrite Hpend, Hr. by destruct p.
  - destruct He as (Hpend & q & t & n & b & j & Hq & Hn & -> & _ & Ha).
    destruct (t_inode _ _ _ _ (i_tree _ Hi) q a t n Hq (logical_inode _ _ _ Hn Hpend)) as (_ & _ & Hch).
    by rewrite <- Hch.
Qed.

Lemma edge_parent w r p c : edge_at r p c w → parent_lock w c (slot_lock r).
Proof.
  destruct r as [|a s]; [intros (_ & -> & _); by left|].
  intros (Hp & q & t & n & b & j & Hq & Hn & -> & _). right. exists q, a, t, n, b. split_and!; try done. by apply logical_inode.
Qed.

(** Under its place, an inner node's position and contents; *)
Definition node_at (r : slot_ref) (a : addr) (t : node_type) (c : list Z) n : fact := λ w,
  edge_at r (PInode a t) c w ∧ inode_at w.1 a = Some n.

Lemma edge_valid w r p c : inv w → edge_at r p c w → p ≠ PNull → valid_ptr w p.
Proof. intros Hi He Hp. by eapply (i_valid _ Hi), edge_in_tree. Qed.

Lemma node_at_valid w r a t c n : inv w → edge_at r (PInode a t) c w → inode_at w.1 a = Some n → type n = t ∧ valid_ptr w (PInode a (type n)).
Proof.
  intros Hi He Hn. pose proof (edge_valid w r _ c Hi He ltac:(done)) as Hv. pose proof Hv as (_ & n' & Hn' & Ht).
  rewrite Hn in Hn'. injection Hn' as <-. split; [done|]. by rewrite Ht.
Qed.

Lemma steady_node r a t c n v v' : steady [(slot_lock r, v); (NodeLock a, v')] (node_at r a t c n).
Proof.
  intros w w' Hi Hr Hu [He Hn]. apply Forall_cons in Hu as [Hu1 [Hu2 _]%Forall_cons].
  split; [apply (steady_edge r _ c v w w' Hi Hr); [by apply Forall_singleton|done]|].
  pose proof (edge_in_tree _ _ _ _ Hi He ltac:(done)) as Hq. destruct Hr as (_ & pp & Hk & _).
  destruct (k_inode _ _ _ _ Hk c a t n Hq Hn Hu2) as (q' & n' & _ & Hn' & _ & _ & _ & _ & Hpar).
  by destruct (Hpar _ (edge_parent _ _ _ _ He) Hu1) as [_ <-].
Qed.

(** on its own, the position behind its prefix, and all but its prefix. It may
    move up, but not off the way to [c]. *)
Definition full_at (a : addr) (t : node_type) (c f : list Z) n : fact := λ w,
  pend w.2 !! NodeLock a = None ∧
  ∃ q n', tree w.2 !! q = Some (PInode a t) ∧ inode_at w.1 a = Some n' ∧ same_node n n' ∧ full q n' = f ∧
    q `prefix_of` c.

Lemma steady_full a t c f n v : steady [(NodeLock a, v)] (full_at a t c f n).
Proof.
  intros w w' Hi (_ & pp & Hk & _) [Hu _]%Forall_cons (Hp & q & n' & Hq & Hn & Hs & Hf & Hqc). simpl in Hu.
  destruct (k_inode _ _ _ _ Hk q a t n' Hq Hn Hu) as (q2 & n2 & Hq2 & Hn2 & Hs2 & Hf2 & Hq2q & _).
  split; [by rewrite (k_pend _ _ _ _ Hk)|].
  exists q2, n2. split_and!; try done; [by eapply same_node_trans|congruence|by etrans].
Qed.

(** A leaf lies on the way to a key. *)
Definition leaf_on_way (a : addr) (l : basic_leaf) (k : list Z) : fact := λ w,
  ∃ q, tree w.2 !! q = Some (PLeaf a l) ∧ q `prefix_of` k.

Lemma steady_leaf a l k v : steady [(NodeLock a, v)] (leaf_on_way a l k).
Proof.
  intros w w' Hi (_ & pp & Hk & _) [Hu _]%Forall_cons (q & Hq & Hp). simpl in Hu.
  destruct (k_leaf _ _ _ _ Hk q a l Hq Hu) as (q' & Hq' & Hpq & _). exists q'. split; [done|by etrans].
Qed.

(** For a reader, the position of an inner node, and its contents. *)
Definition inode_pos (a : addr) (t : node_type) (c : list Z) (o : option (inode olc_ptr)) : fact := λ w,
  pend w.2 !! NodeLock a = None ∧ tree w.2 !! c = Some (PInode a t) ∧
  ∃ n, inode_at w.1 a = Some n ∧ match o with Some n' => n = n' | None => True end.

Lemma steady_pos a t c o v : reading = true → steady [(NodeLock a, v)] (inode_pos a t c o).
Proof.
  intros Hrd w w' Hi (_ & pp & Hk & Hpp) [Hu _]%Forall_cons (Hp & Hq & n & Hn & Ho). simpl in Hu.
  split; [by rewrite (k_pend _ _ _ _ Hk)|].
  destruct (k_inode _ _ _ _ Hk c a t n Hq Hn Hu) as (q' & n' & Hq' & Hn' & _ & _ & _ & Hsame & _).
  destruct Hsame as [-> ->]; [destruct pp; [|done]; by rewrite Hpp in Hrd|]. eauto.
Qed.
End facts.
