(* ===== verification/OlcSteps.v ===== *)
(** What the thread's own steps do to the invariant and to the other threads:
    steps that leave the tree alone. *)

From S2P Require Import Prelude Words Threads ArtKey KeyPrefix SortedAssoc Simd InodeBase.
From S2P Require Import Heap Leaf InodeSpec Inode Db DbTrace OptimisticLock OlcState Olc OlcSystem OlcLogic OlcTree OlcInv.

(** ** What an access changes of the memory *)

Section memory.
Implicit Types (s : shared) (l : lock_ref) (a : addr).

Lemma lock_word_set l x s l' :
  lock_word (set_lock_word l x s) l' = if decide (l' = l) then (λ _, x) <$> lock_word s l else lock_word s l'.
Proof.
  destruct l as [|a], l' as [|b]; simpl; try done. case_decide as Hd.
  - injection Hd as ->. rewrite lookup_alter_eq. by destruct (nodes s !! a).
  - rewrite lookup_alter_ne; [done|]. intros ->. done.
Qed.

Lemma contents_set_lock l x s a : contents_at (set_lock_word l x s) a = contents_at s a.
Proof.
  destruct l as [|b]; [done|]. unfold contents_at. simpl. destruct (decide (a = b)) as [->|Hne].
  - rewrite lookup_alter_eq. by destruct (nodes s !! b).
  - by rewrite lookup_alter_ne.
Qed.

Lemma nodes_set_lock l x s a : is_Some (nodes (set_lock_word l x s) !! a) ↔ is_Some (nodes s !! a).
Proof.
  destruct l as [|b]; [done|]. simpl. rewrite lookup_alter. case_decide; subst; [|done]. by rewrite fmap_is_Some.
Qed.

Lemma lock_word_set_inode a n s l : lock_word (set_inode a n s) l = lock_word s l.
Proof.
  destruct l as [|b]; [done|]. simpl. destruct (decide (b = a)) as [->|Hne].
  - rewrite lookup_alter_eq. by destruct (nodes s !! a).
  - by rewrite lookup_alter_ne.
Qed.

Lemma contents_set_inode a n s b :
  contents_at (set_inode a n s) b = if decide (b = a) then (λ _, InodeC n) <$> contents_at s a else contents_at s b.
Proof.
  unfold contents_at. simpl. case_decide as Hd.
  - subst. rewrite lookup_alter_eq. by destruct (nodes s !! a).
  - by rewrite lookup_alter_ne.
Qed.

Lemma nodes_set_inode a n s b : is_Some (nodes (set_inode a n s) !! b) ↔ is_Some (nodes s !! b).
Proof. simpl. rewrite lookup_alter. case_decide; subst; [|done]. by rewrite fmap_is_Some. Qed.

Lemma inode_set_inode a n s b o : contents_at s a = Some o →
  inode_at (set_inode a n s) b = if decide (b = a) then Some n else inode_at s b.
Proof.
  intros Ha. apply option_eq. intros n'. rewrite inode_at_contents, contents_set_inode, Ha. simpl.
  case_decide; [naive_solver|]. by rewrite inode_at_contents.
Qed.
End memory.

Lemma tree_ok_ext `{Target} N N' T rt m :
  (∀ q p a, T !! q = Some p → ptr_addr p = Some a → N' a = N a) → tree_ok N T rt m → tree_ok N' T rt m.
Proof.
  intros HN HT. destruct HT as [H1 H2 H3 H4 H5 H6 H7]. split; try done.
  - intros q p Hq. specialize (H3 q p Hq). destruct p as [|a l|a t]; [done|..]; simpl in *; by erewrite HN.
  - intros q a t n Hq Hn. apply (H5 q a t n Hq). by erewrite <- HN.
  - intros q p Hq Hne. destruct (H6 q p Hq Hne) as (q0 & a & t & n & b & Hq0 & Hn & ->).
    exists q0, a, t, n, b. split_and!; [done| |done]. by erewrite HN.
Qed.

Section steps.
Context `{Target} (i : nat).
Implicit Types (w : gworld) (l : lock_ref) (n : inode olc_ptr).

Lemma valid_contents w p a : valid_ptr w p → ptr_addr p = Some a →
  private w.2 !! a = None ∧ is_Some (nodes w.1 !! a) ∧ is_Some (contents_at w.1 a).
Proof.
  intros Hv Hp.
  enough (private w.2 !! a = None ∧ is_Some (contents_at w.1 a)) as [? Hc].
  { split_and!; [done| |done]. by apply fmap_is_Some in Hc. }
  destruct p as [|b l|b t]; simpl in Hp; [done|..]; injection Hp as ->; destruct Hv as [? Hc]; (split; [done|]).
  - by rewrite Hc.
  - destruct Hc as (n & Hn & _). apply inode_at_contents in Hn. by rewrite Hn.
Qed.

(** ** Steps that leave the tree as it is *)

Record same_shape w w' : Prop := {
  sh_tree : tree w'.2 = tree w.2;
  sh_pend : pend w'.2 = pend w.2;
  sh_root : root w'.1 = root w.1;
  sh_public : ∀ a, is_Some (nodes w.1 !! a) → private w.2 !! a = None →
    contents_at w'.1 a = contents_at w.1 a ∧ is_Some (nodes w'.1 !! a) ∧ private w'.2 !! a = None;
}.

Section shape.
Context (w w' : gworld) (Hi : inv w) (Hs : same_shape w w').

Lemma sh_pointed q p a : tree w.2 !! q = Some p → ptr_addr p = Some a →
  contents_at w'.1 a = contents_at w.1 a ∧ is_Some (nodes w'.1 !! a) ∧ private w'.2 !! a = None.
Proof.
  intros Hq Hp. destruct (valid_contents _ _ _ (i_valid _ Hi _ _ Hq) Hp) as (? & ? & _). by apply (sh_public _ _ Hs).
Qed.

Lemma sh_inode q a t : tree w.2 !! q = Some (PInode a t) → inode_at w'.1 a = inode_at w.1 a.
Proof.
  intros Hq. destruct (sh_pointed q _ a Hq eq_refl) as (Hc & _). apply option_eq. intros n.
  by rewrite !inode_at_contents, Hc.
Qed.

Lemma sh_valid p : valid_ptr w p → valid_ptr w' p.
Proof.
  intros Hv. destruct (ptr_addr p) as [a|] eqn:Ha; [|by destruct p].
  destruct (valid_contents _ _ _ Hv Ha) as (H1 & H2 & _). destruct (sh_public _ _ Hs a H2 H1) as (Hc & _ & Hp).
  destruct p as [|b l|b t]; simpl in *; [done|..]; injection Ha as ->; (split; [done|]).
  - destruct Hv as [_ <-]. done.
  - destruct Hv as (_ & n & Hn & Ht). exists n. split; [|done]. apply inode_at_contents in Hn. apply inode_at_contents. congruence.
Qed.

Lemma sh_visible l : visible w l → visible w' l.
Proof. destruct l as [|a]; [done|]. intros [H1 H2]. by destruct (sh_public _ _ Hs a H1 H2) as (_ & ? & ?). Qed.

Lemma sh_in_tree a : in_tree w' a ↔ in_tree w a.
Proof. unfold in_tree. by rewrite (sh_tree _ _ Hs). Qed.

Lemma sh_tree_ok : gbindings w'.2 = gbindings w.2 → tree_ok (logical w') (tree w'.2) (logical_root w') (gbindings w'.2).
Proof.
  intros ->. rewrite (sh_tree _ _ Hs). unfold logical_root. rewrite (sh_pend _ _ Hs), (sh_root _ _ Hs).
  apply (tree_ok_ext (logical w)); [|apply (i_tree _ Hi)]. intros q p a Hq Hp.
  unfold logical. destruct (sh_pointed q p a Hq Hp) as (-> & _). by rewrite (sh_pend _ _ Hs).
Qed.

Lemma sh_logical q p a : tree w.2 !! q = Some p → ptr_addr p = Some a → logical w' a = logical w a.
Proof. intros Hq Hp. unfold logical. destruct (sh_pointed q p a Hq Hp) as (-> & _). by rewrite (sh_pend _ _ Hs). Qed.

Lemma sh_parent q l : parent_lock w' q l ↔ parent_lock w q l.
Proof.
  unfold parent_lock. rewrite (sh_tree _ _ Hs). split; (intros [?|(q0 & x & t & n & b & Hq & Hn & ?)]; [by left|right]);
    exists q0, x, t, n, b; (split; [done|split; [|done]]).
  - by rewrite <- (sh_logical q0 (PInode x t)).
  - by rewrite (sh_logical q0 (PInode x t)).
Qed.

(** The parent of a node whose cut prefix the tree still has is locked with it. *)
Lemma sh_uncut : (∀ l a x, pend w.2 !! NodeLock a = Some (Uncut x) → owner w.2 !! l = owner w.2 !! NodeLock a →
    owner w'.2 !! l = owner w'.2 !! NodeLock a) →
  ∀ a x q t l, pend w'.2 !! NodeLock a = Some (Uncut x) → tree w'.2 !! q = Some (PInode a t) →
  parent_lock w' q l → owner w'.2 !! l = owner w'.2 !! NodeLock a.
Proof.
  intros Ho a x q t l. rewrite (sh_pend _ _ Hs), (sh_tree _ _ Hs), sh_parent. intros Hp Hq Hl.
  apply (Ho l a x Hp). by apply (i_uncut _ Hi a x q t).
Qed.

(** What the other threads must be told besides. *)
Lemma kept_shape j :
  (∀ l x, visible w l → word w l = Some x → ∃ x', word w' l = Some x' ∧ (x ≤ x' ∨ x' = 1) ∧ (x = 1 → x' = 1)) →
  (∀ l, owner w.2 !! l = Some j ↔ owner w'.2 !! l = Some j) →
  (∀ l, owner w.2 !! l = Some j → word w' l = word w l) →
  (∀ a, owner w.2 !! NodeLock a = Some j → a ∈ retired w'.1 ↔ a ∈ retired w.1) →
  (∀ a, private w.2 !! a = Some j ↔ private w'.2 !! a = Some j) →
  (∀ a, private w.2 !! a = Some j → nodes w'.1 !! a = nodes w.1 !! a) →
  gcalls w'.2 !! j = gcalls w.2 !! j → kept j false w w'.
Proof.
  intros. split; try done.
  - apply sh_visible.
  - intros. by rewrite (sh_pend _ _ Hs).
  - intros a _. by rewrite sh_in_tree.
  - apply sh_valid.
  - by rewrite (sh_root _ _ Hs), (sh_tree _ _ Hs).
  - intros q a l Hq _. exists q. rewrite (sh_tree _ _ Hs). split_and!; by try done.
  - intros q a t n Hq Hn _. exists q, n. rewrite (sh_tree _ _ Hs), (sh_inode q a t Hq). by split_and!.
Qed.
End shape.

(** ** The ghost state after a step *)

Definition ticked (g : ghost) : ghost :=
  Ghost (tree g) (owner g) (private g) (pend g) (gbindings g) (gcalls g) (clock g + 1).
Definition with_owner (o : gmap lock_ref nat) (g : ghost) : ghost :=
  Ghost (tree g) o (private g) (pend g) (gbindings g) (gcalls g) (clock g).
Definition with_private (p : gmap addr nat) (g : ghost) : ghost :=
  Ghost (tree g) (owner g) p (pend g) (gbindings g) (gcalls g) (clock g).
Definition with_calls (b : gmap (list Z) (list Z)) (cs : list (call_state * list answer)) (g : ghost) : ghost :=
  Ghost (tree g) (owner g) (private g) (pend g) b cs (clock g).

Lemma guar_kept pp w w' : (∀ j, j ≠ i → kept j false w w') → guar i pp w w'.
Proof.
  intros Hk j Hj. specialize (Hk j Hj). split; try apply Hk. intros q a t n Hq Hn Hu.
  destruct (k_inode _ _ _ _ Hk q a t n Hq Hn Hu) as (q' & n' & ? & ? & ? & ? & ? & Hsame & ?). exists q', n'. split_and!; try done.
  intros _. by apply Hsame.
Qed.

Lemma word_tick w l x : 0 ≤ x ≤ 2 * clock w.2 + 1 → 0 ≤ x ≤ 2 * clock (ticked w.2) + 1.
Proof. simpl. lia. Qed.

(** ** Reading *)

Lemma shape_calls w b cs : same_shape w (w.1, ticked (with_calls b cs w.2)).
Proof. by split. Qed.

Lemma quiet_inv w cs : inv w → inv (w.1, ticked (with_calls (gbindings w.2) cs w.2)).
Proof. intros Hi. split; try apply Hi. intros l x Hx. apply (word_tick w l). by apply (i_range _ Hi l x). Qed.

Lemma quiet_guar w b x pp : inv w → guar i pp w (w.1, ticked (with_calls b (<[i := x]> (gcalls w.2)) w.2)).
Proof.
  intros Hi. apply guar_kept. intros j Hj. apply (kept_shape w _ Hi (shape_calls w _ _)); try done.
  - intros l y _ Hy. exists y. split_and!; [done|by left|done].
  - by apply list_lookup_insert_ne.
Qed.

(** A step that changes nothing is one that even the thread itself does not see. *)
Lemma tick_inv w : inv w → inv (w.1, ticked w.2).
Proof. apply (quiet_inv w (gcalls w.2)). Qed.

Lemma tick_kept w j : inv w → kept j false w (w.1, ticked w.2).
Proof.
  intros Hi. apply (kept_shape w _ Hi (shape_calls w (gbindings w.2) (gcalls w.2))); try done.
  intros l y _ Hy. exists y. split_and!; [done|by left|done].
Qed.

(** ** Locks *)

Lemma shape_relock w l x o : same_shape w (set_lock_word l x w.1, ticked (with_owner o w.2)).
Proof.
  split; [done..|by destruct l|]. intros a Ha Hp. cbn [fst]. by rewrite contents_set_lock, nodes_set_lock.
Qed.

(** The word of one lock changes, and who holds it. *)
Lemma relock_guar w l x x' o pp : inv w → visible w l → word w l = Some x → (x ≤ x' ∨ x' = 1) → (x = 1 → x' = 1) →
  (∀ l', l' ≠ l → o !! l' = owner w.2 !! l') → (∀ j, j ≠ i → owner w.2 !! l ≠ Some j ∧ o !! l ≠ Some j) →
  guar i pp w (set_lock_word l x' w.1, ticked (with_owner o w.2)).
Proof.
  intros Hi Hvis Hx Hle H1 Ho Hl. apply guar_kept. intros j Hj. destruct (Hl j Hj) as [Hl1 Hl2].
  assert (Hw : ∀ l', word (set_lock_word l x' w.1, ticked (with_owner o w.2)) l' = if decide (l' = l) then Some x' else word w l').
  { intros l'. unfold word in *. cbn [fst]. rewrite lock_word_set. case_decide; [|done]. by rewrite Hx. }
  apply (kept_shape w _ Hi (shape_relock w _ _ _)); try done.
  - intros l' y _ Hy. rewrite Hw. case_decide as Hd; [subst|exists y; split_and!; by try left].
    rewrite Hx in Hy. injection Hy as ->. by exists x'.
  - intros l'. cbn [snd owner ticked with_owner]. destruct (decide (l' = l)) as [->|Hne]; [by split|by rewrite Ho].
  - intros l' Hl'. rewrite Hw. rewrite decide_False; [done|]. by intros ->.
  - by destruct l.
  - destruct l as [|b]; [done|]. intros a Ha. simpl. rewrite lookup_alter_ne; [done|]. intros ->.
    destruct Hvis as [_ Hv]. simpl in Ha. congruence.
Qed.

Lemma relock_inv w l x x' o : inv w → visible w l → word w l = Some x → 0 ≤ x' ≤ 2 * clock w.2 + 3 →
  (∀ l', l' ≠ l → o !! l' = owner w.2 !! l') →
  match l with
  | RootLock => x' mod 4 = match o !! RootLock with None => 0 | Some _ => 2 end
  | NodeLock a => a ∉ retired w.1 ∧
      match o !! NodeLock a with
      | None => x' mod 4 = 0 ∧ in_tree w a
      | Some _ => (x' mod 4 = 2 ∧ in_tree w a) ∨ x' = 1
      end
  end →
  (is_Some (pend w.2 !! l) → is_Some (o !! l)) →
  (∀ a d, pend w.2 !! NodeLock a = Some (Uncut d) → o !! l = owner w.2 !! l ∨ owner w.2 !! NodeLock a ≠ owner w.2 !! l) →
  inv (set_lock_word l x' w.1, ticked (with_owner o w.2)).
Proof.
  intros Hi Hvis Hx Hr Ho Hst Hpend Hunc. set (w' := (set_lock_word l x' w.1, ticked (with_owner o w.2))).
  assert (Hs : same_shape w w') by apply shape_relock.
  assert (Hw : ∀ l', word w' l' = if decide (l' = l) then Some x' else word w l').
  { intros l'. unfold word in *. cbn [fst w']. rewrite lock_word_set. case_decide; [|done]. by rewrite Hx. }
  assert (Hin : ∀ a, inode_at w'.1 a = inode_at w.1 a).
  { intros a. apply option_eq. intros n. rewrite !inode_at_contents. unfold w'. cbn [fst]. by rewrite contents_set_lock. }
  split.
  - by apply (sh_tree_ok w).
  - intros q p Hq. apply (sh_valid w w' Hs), (i_valid _ Hi q). done.
  - intros l' y. rewrite Hw. cbn [snd w' ticked with_owner clock]. case_decide; [intros [= <-]; lia|].
    intros Hy. apply (i_range _ Hi) in Hy. lia.
  - destruct l as [|b]; [done|]. cbn [w' fst snd owner ticked with_owner]. rewrite Ho by done. apply (i_root _ Hi).
  - intros a y. rewrite Hw. unfold node_state. change (owner w'.2) with o. change (private w'.2) with (private w.2).
    case_decide as Hd.
    + subst. intros [= <-] Hp. destruct Hst as [Hret Hst].
      destruct (o !! NodeLock a); rewrite (sh_in_tree w w' Hs); [done|left; done].
    + intros Hy Hp. rewrite Ho by done. pose proof (i_node _ Hi a y Hy Hp) as Hn. unfold node_state in Hn.
      destruct (owner w.2 !! NodeLock a); rewrite !(sh_in_tree w w' Hs); by destruct l.
  - intros a n. rewrite Hin. apply (i_wf _ Hi).
  - intros a j Ha. destruct (i_private _ Hi a j Ha) as (H1 & H2 & H3). rewrite (sh_in_tree w w' Hs), Hw.
    assert (Hne : NodeLock a ≠ l) by (intros <-; destruct Hvis as [_ Hp]; simpl in Ha; congruence).
    rewrite decide_False by done. cbn [snd w' ticked with_owner owner]. by rewrite Ho.
  - intros l' j Hj. apply (sh_visible w w' Hs). destruct (decide (l' = l)) as [->|Hne]; [done|].
    apply (i_owner _ Hi l' j). cbn [snd w' ticked with_owner owner] in Hj. by rewrite Ho in Hj.
  - intros l' d Hd. cbn [snd w' ticked with_owner owner pend] in *. destruct (decide (l' = l)) as [->|Hne]; [eauto|].
    rewrite Ho by done. by eapply i_pend.
  - apply (sh_uncut w w' Hi Hs). change (owner w'.2) with o. intros l' a d Hd Heq.
    assert (Ho' : ∀ l0, o !! l0 = owner w.2 !! l0 ∨ (l0 = l ∧ owner w.2 !! NodeLock a ≠ owner w.2 !! l)).
    { intros l0. destruct (decide (l0 = l)) as [->|]; [|left; by apply Ho]. destruct (Hunc a d Hd); [by left|by right]. }
    destruct (Ho' l') as [->|[-> ?]], (Ho' (NodeLock a)) as [->|[<- ?]]; congruence.
  - intros Hpr. destruct (i_pend_root _ Hi Hpr) as [Hp1 Hp2]. by destruct l.
  - destruct (i_retired _ Hi) as [Hnd Hret]. replace (retired w'.1) with (retired w.1) by by destruct l.
    split; [done|]. intros a Ha. rewrite Hw. case_decide as Hd; [|by apply Hret]. subst. by destruct Hst.
  - intros a Ha. unfold w' in Ha. cbn [fst] in Ha. rewrite nodes_set_lock in Ha. apply (i_fresh _ Hi) in Ha. by destruct l.
Qed.

(** ** Nodes of the thread's own *)

(** The node at one address comes, goes or changes, and is nobody else's. *)
Definition with_node (a : addr) (o : option object) (s : shared) : shared :=
  Shared (root_pointer_lock s) (root s) (partial_alter (λ _, o) a (nodes s)) (Nat.max (next_addr s) (S a)) (retired s).

Lemma with_node_ne a o s b : b ≠ a → nodes (with_node a o s) !! b = nodes s !! b.
Proof. intros Hne. apply lookup_partial_alter_ne. congruence. Qed.

Lemma with_node_eq a o s : nodes (with_node a o s) !! a = o.
Proof. apply lookup_partial_alter_eq. Qed.

Section own_node.
Context (w : gworld) (a : addr) (o : option object) (p : gmap addr nat).
Context (Hi : inv w) (Ha : private w.2 !! a = Some i ∨ nodes w.1 !! a = None).
Context (Hp : ∀ b, b ≠ a → p !! b = private w.2 !! b).
Context (Hpa : match o with None => p !! a = None | Some x => p !! a = Some i ∧ node_lock x = 0 end).
Let w' : gworld := (with_node a o w.1, ticked (with_private p w.2)).

Lemma own_not_public : is_Some (nodes w.1 !! a) → private w.2 !! a ≠ None.
Proof. intros [x Hx] Hn. destruct Ha; congruence. Qed.

Lemma own_shape : same_shape w w'.
Proof.
  split; [done..|]. intros b Hb Hpb. assert (Hne : b ≠ a) by (intros ->; by apply own_not_public).
  unfold contents_at. unfold w'. cbn [fst snd private ticked with_private]. by rewrite !with_node_ne, Hp by done.
Qed.

Lemma own_word l : l ≠ NodeLock a → word w' l = word w l.
Proof. destruct l as [|b]; [done|]. intros Hne. unfold word, w'. cbn [fst lock_word]. rewrite with_node_ne; [done|]. by intros ->. Qed.

Lemma own_visible l : visible w l → l ≠ NodeLock a.
Proof. intros Hv ->. destruct Hv as [Hv1 Hv2]. by apply own_not_public. Qed.

Lemma own_guar pp : guar i pp w w'.
Proof.
  apply guar_kept. intros j Hj. apply (kept_shape w w' Hi own_shape); try done.
  - intros l x Hv Hx. exists x. rewrite own_word by by apply own_visible. split_and!; by try left.
  - intros l Hl. apply own_word, own_visible. by apply (i_owner _ Hi l j).
  - intros b. cbn [w' snd private ticked with_private]. destruct (decide (b = a)) as [->|Hne]; [|by rewrite Hp].
    split; intros Hb; exfalso.
    + destruct Ha as [Ha'|Hn]; [congruence|]. destruct (i_private _ Hi a j Hb) as (_ & _ & Hw).
      unfold word in Hw. simpl in Hw. by rewrite Hn in Hw.
    + destruct o; [destruct Hpa|]; congruence.
  - intros b Hb. assert (b ≠ a); [|by apply with_node_ne]. intros ->. destruct Ha as [Ha'|Hn]; [congruence|].
    destruct (i_private _ Hi a j Hb) as (_ & _ & Hw). unfold word in Hw. simpl in Hw. by rewrite Hn in Hw.
Qed.

Lemma own_not_in_tree : ¬ in_tree w a.
Proof.
  intros (q & x & Hq & Hx). destruct (valid_contents _ _ _ (i_valid _ Hi _ _ Hq) Hx) as (H1 & H2 & _). by apply own_not_public.
Qed.

Lemma own_unowned : owner w.2 !! NodeLock a = None.
Proof. destruct (owner w.2 !! NodeLock a) eqn:Ho; [|done]. by destruct (own_visible _ (i_owner _ Hi _ _ Ho)). Qed.

Lemma own_inv : inv w'.
Proof.
  pose proof own_shape as Hs.
  assert (Ht : ∀ b, in_tree w' b ↔ in_tree w b) by apply (sh_in_tree w w' Hs).
  assert (Hpb : ∀ b, b ≠ a → private w'.2 !! b = private w.2 !! b) by exact Hp.
  assert (Hwa : word w' (NodeLock a) = node_lock <$> o) by (unfold word, w'; cbn [fst lock_word]; by rewrite with_node_eq).
  split.
  - by apply (sh_tree_ok w).
  - intros q x Hq. apply (sh_valid w w' Hs), (i_valid _ Hi q). done.
  - intros l x. destruct (decide (l = NodeLock a)) as [->|Hne].
    + rewrite Hwa. destruct o as [y|]; [|done]. destruct Hpa as [_ Hy]. intros [= <-]. rewrite Hy. cbn [w' snd ticked with_private clock].
      pose proof (i_range _ Hi RootLock _ eq_refl). lia.
    + rewrite own_word by done. intros Hx. apply (word_tick w l), (i_range _ Hi l x Hx).
  - apply (i_root _ Hi).
  - intros b x Hx Hb. assert (Hne : b ≠ a).
    { intros ->. rewrite Hwa in Hx. destruct o; [|done]. change (p !! a = None) in Hb. destruct Hpa. congruence. }
    rewrite Hpb in Hb by done. rewrite own_word in Hx by congruence.
    pose proof (i_node _ Hi b x Hx Hb) as Hn. unfold node_state in *. change (owner w'.2) with (owner w.2).
    destruct (owner w.2 !! NodeLock b); rewrite !Ht; done.
  - intros b n Hn Hb. assert (Hne : b ≠ a).
    { intros ->. apply inode_at_contents in Hn. unfold contents_at, w' in Hn. cbn [fst] in Hn. rewrite with_node_eq in Hn.
      destruct o; [|done]. change (p !! a = None) in Hb. destruct Hpa. congruence. }
    rewrite Hpb in Hb by done. apply (i_wf _ Hi b n); [|done]. apply inode_at_contents in Hn. apply inode_at_contents.
    unfold contents_at, w' in *. cbn [fst] in Hn. by rewrite with_node_ne in Hn.
  - intros b j Hb. destruct (decide (b = a)) as [->|Hne].
    + split; [apply own_unowned|]. rewrite Ht, Hwa. split; [apply own_not_in_tree|].
      change (p !! a = Some j) in Hb. destruct o; [|congruence]. destruct Hpa as [_ <-]. done.
    + rewrite Hpb in Hb by done. destruct (i_private _ Hi b j Hb) as (H1 & H2 & H3). rewrite Ht, own_word by congruence. done.
  - intros l j Hj. apply (sh_visible w w' Hs). by apply (i_owner _ Hi l j).
  - apply (i_pend _ Hi).
  - by apply (sh_uncut w w' Hi Hs).
  - apply (i_pend_root _ Hi).
  - destruct (i_retired _ Hi) as [Hnd Hret]. split; [done|]. intros b Hb. rewrite own_word; [by apply Hret|].
    intros [= ->]. pose proof (Hret a Hb) as Hw. destruct Ha as [Hpr|Hn].
    + destruct (i_private _ Hi a i Hpr) as (_ & _ & Hw0). rewrite Hw in Hw0. discriminate Hw0.
    + unfold word in Hw. simpl in Hw. by rewrite Hn in Hw.
  - intros b Hb. unfold w' in Hb |- *. cbn [fst] in Hb |- *. change (next_addr (with_node a o w.1)) with (Nat.max (next_addr w.1) (S a)).
    destruct (decide (b = a)) as [->|Hne]; [lia|]. rewrite with_node_ne in Hb by done. apply (i_fresh _ Hi) in Hb. lia.
Qed.
End own_node.

Lemma new_object_with_node c (s : shared) : new_object c s = with_node (next_addr s) (Some (Object 0 c)) s.
Proof. unfold new_object, with_node. f_equal. lia. Qed.

Lemma free_with_node w a : inv w → is_Some (nodes w.1 !! a) →
  Shared (root_pointer_lock w.1) (root w.1) (delete a (nodes w.1)) (next_addr w.1) (retired w.1) = with_node a None w.1.
Proof. intros Hi Ha%(i_fresh _ Hi). unfold with_node. f_equal. lia. Qed.

Lemma set_inode_with_node w a n : inv w → private w.2 !! a = Some i →
  set_inode a n w.1 = with_node a (Some (Object 0 (InodeC n))) w.1.
Proof.
  intros Hi Ha. destruct (i_private _ Hi a i Ha) as (_ & _ & Hw). unfold word in Hw. simpl in Hw.
  destruct (nodes w.1 !! a) as [o|] eqn:Ho; [|done]. injection Hw as Hw.
  assert (Hlt : (a < next_addr w.1)%nat) by (apply (i_fresh _ Hi); by eexists).
  unfold set_inode, with_node. f_equal; [|lia]. apply map_eq. intros b. destruct (decide (b = a)) as [->|Hne].
  - rewrite lookup_alter_eq, lookup_partial_alter_eq, Ho. simpl. by rewrite Hw.
  - by rewrite lookup_alter_ne, lookup_partial_alter_ne.
Qed.

(** ** Retirement *)

Definition retire (a : addr) (s : shared) : shared :=
  Shared (root_pointer_lock s) (root s) (nodes s) (next_addr s) (a :: retired s).

Section retire.
Context (w : gworld) (a : addr) (o : gmap lock_ref nat).
Context (Hi : inv w) (Ho : owner w.2 !! NodeLock a = Some i) (Hw : word w (NodeLock a) = Some 1) (Hnr : a ∉ retired w.1).
Context (Hoo : ∀ l, l ≠ NodeLock a → o !! l = owner w.2 !! l) (Hpend : pend w.2 !! NodeLock a = None).
Context (Hoa : o !! NodeLock a = Some i ∨ (o !! NodeLock a = None ∧ ¬ in_tree w a)).
Let w' : gworld := (retire a w.1, ticked (with_owner o w.2)).

Lemma retire_shape : same_shape w w'.
Proof. by split. Qed.

Lemma retire_guar pp : guar i pp w w'.
Proof.
  apply guar_kept. intros j Hj. apply (kept_shape w w' Hi retire_shape); try done.
  - intros l x _ Hx. exists x. split_and!; by try left.
  - intros l. change (owner w'.2) with o. destruct (decide (l = NodeLock a)) as [->|Hne]; [|by rewrite Hoo].
    split; intros Hl; exfalso; [congruence|]. destruct Hoa as [|[]]; congruence.
  - intros b Hb. change (retired w'.1) with (a :: retired w.1). rewrite elem_of_cons. split; [|by right].
    intros [->|?]; [congruence|done].
Qed.

Lemma retire_inv : inv w'.
Proof.
  assert (Ht : ∀ b, in_tree w' b ↔ in_tree w b) by apply (sh_in_tree w w' retire_shape).
  assert (Hoo' : ∀ l, l ≠ NodeLock a → owner w'.2 !! l = owner w.2 !! l) by exact Hoo.
  split; try apply Hi.
  - intros l x Hx. by apply (word_tick w l), (i_range _ Hi l x).
  - rewrite Hoo' by done. apply (i_root _ Hi).
  - intros b x Hx Hb. change (word w (NodeLock b) = Some x) in Hx. pose proof (i_node _ Hi b x Hx Hb) as Hn.
    unfold node_state in *. change (retired w'.1) with (a :: retired w.1). destruct (decide (b = a)) as [->|Hne].
    + rewrite Hw in Hx. injection Hx as <-. change (owner w'.2) with o. destruct Hoa as [->|[-> Hnt]]; [by right|right].
      rewrite Ht. split_and!; [done..|apply elem_of_cons; by left].
    + rewrite Hoo' by congruence. destruct (owner w.2 !! NodeLock b); rewrite !Ht; [done|]. rewrite elem_of_cons. naive_solver.
  - intros b j Hb. destruct (i_private _ Hi b j Hb) as (H1 & H2 & H3). split_and!; [|by rewrite Ht|done].
    destruct (decide (b = a)) as [->|Hne]; [congruence|]. by rewrite Hoo' by congruence.
  - intros l j Hj. destruct (decide (l = NodeLock a)) as [->|Hne]; [by apply (i_owner _ Hi (NodeLock a) i)|].
    rewrite Hoo' in Hj by done. by apply (i_owner _ Hi l j).
  - intros l d Hd. change (pend w.2 !! l = Some d) in Hd. destruct (decide (l = NodeLock a)) as [->|Hne]; [congruence|].
    rewrite Hoo' by done. by eapply i_pend.
  - intros b x q t l Hd Hq Hl. apply (sh_parent w w' Hi retire_shape) in Hl.
    pose proof (i_uncut _ Hi b x q t l Hd Hq Hl) as Heq. change (pend w.2 !! NodeLock b = Some (Uncut x)) in Hd.
    rewrite (Hoo' (NodeLock b)) by (intros [= ->]; congruence). rewrite <- Heq.
    destruct (decide (l = NodeLock a)) as [->|Hne]; [|by apply Hoo']. change (o !! NodeLock a = owner w.2 !! NodeLock a).
    destruct Hoa as [|[_ Hn]]; [congruence|]. exfalso.
    destruct Hl as [[_ [=]]|(q0 & y & t0 & n & b0 & Hq0 & _ & _ & [= <-])]. apply Hn. by exists q0, (PInode a t0).
  - destruct (i_retired _ Hi) as [Hnd Hret]. split; [by constructor|]. intros b [->|Hb]%elem_of_cons; [done|].
    by apply Hret.
Qed.
End retire.
End steps.
