(* ===== verification/OlcClear.v ===== *)
(** The index with optimistic lock coupling while one thread has it to itself: what
    a program does that no other disturbs; which nodes a deletion takes, what it
    counts, and that it ends; and that every node is in the tree or retired while no
    thread is in a call. *)

From stdpp Require Import functions.
From ITree Require Import ITree.
From S2P Require Import Prelude Words Threads ArtKey KeyPrefix SortedAssoc Simd InodeBase Heap Stats Leaf InodeSpec Inode.
From S2P Require Import Db DbTrace OptimisticLock OlcState Olc OlcIter OlcSystem OlcLogic OlcCounters OlcTree OlcInv OlcFacts OlcSteps.
#[local] Open Scope prog_scope.

(** ** A program alone *)

Section ends.
Context `{Target}.

(** The program, started with these shared memory and counters, ends after [k]
    steps, with a result, and leaves those. *)
Inductive ends {R} : nat → prog R → shared → stats → R → shared → stats → Prop :=
  | ends_ret p r s q : observe p = RetF r → ends 0 p s q r s q
  | ends_tau k p p' s q r s' q' : observe p = TauF p' → ends k p' s q r s' q' → ends (S k) p s q r s' q'
  | ends_vis k p X (e : access X) f x s1 s q r s' q' : observe p = VisF e f → perform true e s = Some (x, s1) →
      ends k (f x) s1 (counted e q) r s' q' → ends (S k) p s q r s' q'.

Lemma ends_alone {R} k fuel (p : prog R) s q r s' q' : ends k p s q r s' q' → (k < fuel)%nat → alone fuel p s q = Some (r, s', q').
Proof.
  intros He. revert fuel. induction He as [p r s q Hp|k p p' s q r s' q' Hp _ IH|k p X e f x s1 s q r s' q' Hp Hx _ IH];
    intros [|fuel] Hlt; try lia; cbn [alone]; rewrite Hp; [done|apply IH; lia|].
  rewrite Hx. cbn [mbind option_bind fst snd]. apply IH. lia.
Qed.

Lemma ends_give {R} (r : R) s q : ends 0 (give r) s q r s q.
Proof. by constructor. Qed.

Lemma ends_of_opt {R} (o : option R) r s q : o = Some r → ends 0 (of_opt o) s q r s q.
Proof. intros ->. apply ends_give. Qed.

Lemma ends_bind {R T} k1 k2 (p : prog R) (f : R → prog T) s q r s1 q1 r2 s2 q2 :
  ends k1 p s q r s1 q1 → ends k2 (f r) s1 q1 r2 s2 q2 → ends (k1 + k2) (ITree.bind p f) s q r2 s2 q2.
Proof.
  intros He Hf. induction He as [p r s q Hp|k p p' s q r s' q' Hp _ IH|k p X e g x s1 s q r s' q' Hp Hx _ IH]; cbn [Nat.add].
  - assert (Hb : observe (ITree.bind p f) = observe (f r)) by (by rewrite observe_bind, Hp).
    inversion Hf as [p0 r0 s0 q0 H0|k0 p0 p' s0 q0 r0 s' q' H0 H1|k0 p0 X e g x s3 s0 q0 r0 s' q' H0 H1 H2]; subst.
    + apply ends_ret. by rewrite Hb.
    + eapply ends_tau; [by rewrite Hb|done].
    + eapply ends_vis; [by rewrite Hb|done|done].
  - eapply ends_tau; [by rewrite observe_bind, Hp|]. by apply IH.
  - eapply ends_vis; [by rewrite observe_bind, Hp|done|]. by apply IH.
Qed.

Lemma ends_do {X} (e : access X) s q x s' : perform true e s = Some (x, s') → ends 1 (do e) s q x s' (counted e q).
Proof. intros He. eapply (ends_vis 0 (do e) X e (λ x, go (RetF x))); [done|done|]. by constructor. Qed.

(** One access and what follows. *)
Lemma ends_step {X R} k (e : access X) (f : X → prog R) s q x s1 r s' q' : perform true e s = Some (x, s1) →
  ends k (f x) s1 (counted e q) r s' q' → ends (S k) (ITree.bind (do e) f) s q r s' q'.
Proof. intros He Hf. apply (ends_bind 1 k) with x s1 (counted e q); [by apply ends_do|done]. Qed.

Lemma ends_count {R} k u (f : unit → prog R) s q r s' q' :
  ends k (f tt) s (count_one u q) r s' q' → ends (S k) (ITree.bind (do (Count u)) f) s q r s' q'.
Proof. by apply (ends_step k (Count u)). Qed.

Lemma ends_count_last u s q : ends 1 (do (Count u)) s q tt s (count_one u q).
Proof. by apply (ends_do (Count u) s q tt s). Qed.

(** A loop that goes round once more, or not. *)
Lemma ends_iter_more {A R} k1 k2 (body : A → prog (A + R)) a a1 s q s1 q1 r s2 q2 :
  ends k1 (body a) s q (inl a1) s1 q1 → ends k2 (ITree.iter body a1) s1 q1 r s2 q2 →
  ends (k1 + S k2) (ITree.iter body a) s q r s2 q2.
Proof.
  intros Hb Hi. assert (Hx : ends (k1 + S k2) (ITree.bind (body a) (λ lr, match lr with inl a => go (TauF (ITree.iter body a)) | inr r => go (RetF r) end)) s q r s2 q2).
  { eapply ends_bind; [exact Hb|]. by eapply ends_tau. }
  inversion Hx as [p0 r0 s0 q0 H0|k0 p0 p' s0 q0 r0 s' q' H0 H1|k0 p0 X e g x s3 s0 q0 r0 s' q' H0 H1 H2]; subst.
  - by apply ends_ret.
  - by eapply ends_tau.
  - by eapply ends_vis.
Qed.

Lemma ends_iter_done {A R} k (body : A → prog (A + R)) a s q r s' q' :
  ends k (body a) s q (inr r) s' q' → ends k (ITree.iter body a) s q r s' q'.
Proof.
  intros Hb. assert (Hx : ends (k + 0) (ITree.bind (body a) (λ lr, match lr with inl a => go (TauF (ITree.iter body a)) | inr r => go (RetF r) end)) s q r s' q').
  { eapply ends_bind; [exact Hb|]. by constructor. }
  rewrite Nat.add_0_r in Hx. inversion Hx as [p0 r0 s0 q0 H0|k0 p0 p' s0 q0 r0 s1 q1 H0 H1|k0 p0 X e g x s3 s0 q0 r0 s1 q1 H0 H1 H2]; subst.
  - by apply ends_ret.
  - by eapply ends_tau.
  - by eapply ends_vis.
Qed.
End ends.

Section clear.
Context `{Target}.

(** ** The nodes of a subtree *)

(** In the order of their deletion, for subtrees of a height below [h]. *)
Fixpoint footprint (h : nat) (s : shared) (p : olc_ptr) : option (list addr) :=
  match h with
  | O => None
  | S h =>
      match p with
      | PNull => None
      | PLeaf a l => o ← nodes s !! a; if points_to p (node_contents o) then Some [a] else None
      | PInode a t =>
          n ← inode_at s a;
          if bool_decide (type n = t) then As ← mapM (footprint h s) (all_children n); Some (concat As ++ [a]) else None
      end
  end.

Lemma footprint_mono h h' s p A : (h ≤ h')%nat → footprint h s p = Some A → footprint h' s p = Some A.
Proof.
  revert h' p A. induction h as [|h IH]; intros [|h'] p A Hle; try done; [lia|]. cbn [footprint].
  destruct p as [|a l|a t]; [done..|]. destruct (inode_at s a) as [n|]; [|done]. cbn [mbind option_bind].
  case_bool_decide; [|done]. intros Hm. apply bind_Some in Hm as (As & HAs & [= <-]).
  apply bind_Some. exists As. split; [|done]. apply mapM_Some in HAs. apply mapM_Some.
  eapply Forall2_impl; [exact HAs|]. intros c B. apply IH. lia.
Qed.

Lemma footprint_positive h s p A : footprint h s p = Some A → (0 < length A)%nat.
Proof.
  destruct h as [|h]; [done|]. cbn [footprint]. destruct p as [|a l|a t]; [done|..].
  - destruct (nodes s !! a); [|done]. cbn [mbind option_bind]. destruct (points_to _ _); [|done]. intros [= <-]. cbn. lia.
  - destruct (inode_at s a) as [n|]; [|done]. cbn [mbind option_bind]. case_bool_decide; [|done].
    intros Hm. apply bind_Some in Hm as (As & _ & [= <-]). rewrite length_app. cbn. lia.
Qed.

Lemma length_in_concat {X} (ls : list (list X)) l : l ∈ ls → (length l ≤ length (concat ls))%nat.
Proof.
  induction 1 as [l ls|l l' ls _ IH]; cbn [concat]; rewrite length_app; lia.
Qed.

(** A subtree is no higher than it has nodes. *)
Lemma footprint_height h s p A : footprint h s p = Some A → footprint (length A) s p = Some A.
Proof.
  revert p A. induction h as [|h IH]; intros p A; [done|]. cbn [footprint]. destruct p as [|a l|a t]; [done|..].
  - destruct (nodes s !! a) as [x|] eqn:Hx; [|done]. cbn [mbind option_bind]. destruct (points_to _ _) eqn:Hp; [|done]. intros [= <-].
    cbn [length footprint]. rewrite Hx. cbn [mbind option_bind]. by rewrite Hp.
  - destruct (inode_at s a) as [n|] eqn:Hn; [|done]. cbn [mbind option_bind]. case_bool_decide as Ht; [|done].
    intros Hm. apply bind_Some in Hm as (As & HAs & [= <-]). rewrite length_app, Nat.add_1_r. cbn [footprint]. rewrite Hn. cbn [mbind option_bind].
    rewrite bool_decide_eq_true_2 by done. apply bind_Some. exists As. split; [|done]. apply mapM_Some in HAs. apply mapM_Some.
    apply Forall2_same_length_lookup_2; [by eapply Forall2_length|]. intros i c B Hc HB.
    apply (footprint_mono (length B)); [|exact (IH c B (Forall2_lookup_lr _ _ _ _ _ _ HAs Hc HB))].
    apply length_in_concat. by eapply list_elem_of_lookup_2.
Qed.

Lemma footprint_nodes h s p A a : footprint h s p = Some A → a ∈ A → is_Some (nodes s !! a).
Proof.
  revert p A. induction h as [|h IH]; intros p A; [done|]. cbn [footprint]. destruct p as [|b l|b t]; [done|..].
  - destruct (nodes s !! b) as [x|] eqn:Hx; [|done]. cbn [mbind option_bind]. destruct (points_to _ _) eqn:Hp; [|done]. intros [= <-] ->%list_elem_of_singleton.
    by rewrite Hx.
  - destruct (inode_at s b) as [n|] eqn:Hn; [|done]. cbn [mbind option_bind]. case_bool_decide as Ht; [|done].
    intros Hm. apply bind_Some in Hm as (As & HAs & [= <-]). intros [Ha|Ha]%elem_of_app.
    + apply list_elem_of_In, in_concat in Ha as (B & HB%list_elem_of_In & Ha%list_elem_of_In). apply mapM_Some in HAs.
      apply list_elem_of_lookup in HB as [i HB]. destruct (Forall2_lookup_r _ _ _ _ _ HAs HB) as (c & _ & Hc). by eapply IH.
    + apply list_elem_of_singleton in Ha as ->. unfold inode_at in Hn. by destruct (nodes s !! b).
Qed.

(** It depends on its nodes only. *)
Lemma footprint_ext h s s' p A : (∀ a, a ∈ A → nodes s' !! a = nodes s !! a) → footprint h s p = Some A → footprint h s' p = Some A.
Proof.
  revert p A. induction h as [|h IH]; intros p A Hext; [done|]. cbn [footprint]. destruct p as [|b l|b t]; [done|..].
  - destruct (nodes s !! b) as [x|] eqn:Hx; [|done]. cbn [mbind option_bind]. destruct (points_to _ _) eqn:Hp; [|done]. intros [= <-].
    rewrite Hext, Hx by by left. cbn [mbind option_bind]. by rewrite Hp.
  - destruct (inode_at s b) as [n|] eqn:Hn; [|done]. cbn [mbind option_bind]. case_bool_decide as Ht; [|done].
    intros Hm. apply bind_Some in Hm as (As & HAs & [= <-]). assert (Hn' : inode_at s' b = Some n).
    { unfold inode_at. rewrite Hext; [done|]. apply elem_of_app. right. by left. }
    rewrite Hn'. cbn [mbind option_bind]. rewrite bool_decide_eq_true_2 by done. apply bind_Some. exists As. split; [|done].
    apply mapM_Some in HAs. apply mapM_Some. apply Forall2_same_length_lookup_2; [by eapply Forall2_length|]. intros i c B Hc HB.
    apply IH; [|exact (Forall2_lookup_lr _ _ _ _ _ _ HAs Hc HB)]. intros a Ha. apply Hext, elem_of_app. left.
    apply list_elem_of_In, in_concat. exists B. split; apply list_elem_of_In; [by eapply list_elem_of_lookup_2|done].
Qed.

(** ** Deletion *)

Definition without (A : list addr) (s : shared) : shared :=
  Shared (root_pointer_lock s) (root s) (filter (λ x, x.1 ∉ A) (nodes s)) (next_addr s) (retired s).

Lemma without_lookup A s a : nodes (without A s) !! a = if decide (a ∈ A) then None else nodes s !! a.
Proof.
  cbn [without nodes]. rewrite map_lookup_filter. destruct (nodes s !! a); cbn [mbind option_bind]; [|by case_decide].
  case_decide; [by rewrite option_guard_False; [|cbn; tauto]|by rewrite option_guard_True].
Qed.

Lemma without_eq A s s' : root_pointer_lock s' = root_pointer_lock s → root s' = root s → next_addr s' = next_addr s → retired s' = retired s →
  (∀ a, nodes s' !! a = if decide (a ∈ A) then None else nodes s !! a) → s' = without A s.
Proof.
  intros H1 H2 H3 H4 Hn. destruct s' as [rl rt ns na rd]. cbn in *. subst. unfold without. f_equal.
  apply map_eq. intros a. rewrite Hn. symmetry. apply without_lookup.
Qed.

Lemma without_nil s : without [] s = s.
Proof. symmetry. apply without_eq; try done. Qed.

Lemma without_app A B s : without B (without A s) = without (A ++ B) s.
Proof.
  apply without_eq; try done. intros a. rewrite !without_lookup. destruct (decide (a ∈ A ++ B)) as [Hab|Hab]; rewrite elem_of_app in Hab.
  - destruct Hab; repeat case_decide; tauto.
  - rewrite !decide_False by tauto. done.
Qed.

(** What is counted for a list of nodes. *)
Definition spent (A : list addr) (s : shared) (o : option node_type) : Z :=
  foldr (λ a acc, default 0 ((λ x, contents_cost (node_contents x) o) <$> nodes s !! a) + acc) 0 A.

Lemma spent_app A B s o : spent (A ++ B) s o = spent A s o + spent B s o.
Proof. induction A as [|a A IH]; [done|]. cbn [app spent foldr] in *. unfold spent in *. lia. Qed.

Lemma spent_ext A s s' o : (∀ a, a ∈ A → nodes s' !! a = nodes s !! a) → spent A s' o = spent A s o.
Proof.
  induction A as [|a A IH]; intros Hext; [done|]. cbn [spent foldr]. rewrite Hext by by left. f_equal.
  apply IH. intros b Hb. apply Hext. by right.
Qed.

(** The counters go down by [x], and those of growth, shrinking and prefix splits
    stay. *)
Definition discounted (x : option node_type → Z) (q q' : stats) : Prop :=
  (∀ o y, tally q o = wrap64 y → tally q' o = wrap64 (y - x o)) ∧
  growing_inode_counts q' = growing_inode_counts q ∧ shrinking_inode_counts q' = shrinking_inode_counts q ∧
  key_prefix_splits q' = key_prefix_splits q.

Lemma discounted_none q : discounted (λ _, 0) q q.
Proof. split; [|done]. intros o y ->. by rewrite Z.sub_0_r. Qed.

Lemma discounted_trans x y q1 q2 q3 : discounted x q1 q2 → discounted y q2 q3 → discounted (λ o, x o + y o) q1 q3.
Proof.
  intros (H1 & H2 & H3 & H4) (G1 & G2 & G3 & G4). split_and!; try congruence.
  intros o z Hz. rewrite (G1 o (z - x o)) by by apply H1. f_equal. lia.
Qed.

Lemma discounted_ext x y q q' : (∀ o, x o = y o) → discounted x q q' → discounted y q q'.
Proof. intros Hxy [H1 H2]. split; [|done]. intros o z Hz. rewrite <- Hxy. by apply H1. Qed.

Lemma leaf_discounted size q : discounted (leaf_cost size) q (count_one (NodeSub LEAF) (count_one (MemorySub size) q)).
Proof.
  split; [|done]. intros o y Hy. rewrite (count_one_tally (NodeSub LEAF) _ o (y + added (MemorySub size) o));
    [|done|by apply count_one_tally]. f_equal. destruct o as [t|]; cbn; [case_decide|]; lia.
Qed.

Lemma inode_discounted t q : discounted (node_cost t) q (count_one (MemorySub (Olc.sizeof_inode t)) (count_one (NodeSub t) q)).
Proof.
  split; [|done]. intros o y Hy. rewrite (count_one_tally (MemorySub _) _ o (y + added (NodeSub t) o));
    [|done|by apply count_one_tally]. f_equal. destruct o as [t'|]; cbn; [case_decide|]; lia.
Qed.

(** One node is released. *)
Lemma free_perform s p a C : nodes s !! a = Some C → ptr_addr p = Some a → points_to p (node_contents C) = true →
  perform true (Free p) s = Some (tt, without [a] s).
Proof.
  intros Ha Hp Hpt. cbn [perform]. rewrite Hp. cbn [mbind option_bind]. rewrite Ha. cbn [mbind option_bind]. rewrite Hpt. do 2 f_equal.
  apply without_eq; try done. intros b. cbn [nodes]. destruct (decide (b = a)) as [->|Hne].
  - rewrite lookup_delete_eq. by rewrite decide_True by by left.
  - rewrite lookup_delete_ne by done. by rewrite decide_False by by intros ?%list_elem_of_singleton.
Qed.

Lemma spent_one a C s o : nodes s !! a = Some C → spent [a] s o = contents_cost (node_contents C) o.
Proof. intros Ha. cbn [spent foldr]. rewrite Ha. cbn. lia. Qed.

Definition deletes (p : prog unit) (A : list addr) (s : shared) (q : stats) : Prop :=
  ∃ k q', (k ≤ 4 * length A)%nat ∧ ends k p s q tt (without A s) q' ∧ discounted (spent A s) q q'.

Lemma each_deletes {X} (f : X → prog unit) (F : X → shared → option (list addr)) (xs : list X) As s q :
  (∀ x A s s', F x s = Some A → (∀ a, a ∈ A → nodes s' !! a = nodes s !! a) → F x s' = Some A) →
  (∀ x A s q, x ∈ xs → F x s = Some A → NoDup A → deletes (f x) A s q) →
  Forall2 (λ x A, F x s = Some A) xs As → NoDup (concat As) → deletes (for_each f xs) (concat As) s q.
Proof.
  intros Hext Hf HF. revert q Hf. remember s as s0 eqn:Hs. revert s Hs.
  revert HF. revert s0 As. induction xs as [|x xs IH]; intros s0 As HF s Hs q Hf Hnd; apply Forall2_cons_inv_l in HF || apply Forall2_nil_inv_l in HF.
  { subst. exists 0%nat, q. rewrite without_nil. split; [lia|]. split; [apply ends_give|apply discounted_none]. }
  destruct HF as (A & As' & HA & HF & ->). cbn [concat] in *. apply NoDup_app in Hnd as (HndA & Hdis & Hnd).
  destruct (Hf x A s0 q ltac:(by left) HA HndA) as (k1 & q1 & Hk1 & He1 & Hd1).
  assert (Hsame : ∀ a, a ∈ concat As' → nodes (without A s0) !! a = nodes s0 !! a).
  { intros a Ha. rewrite without_lookup, decide_False; [done|]. intros Hin. by apply (Hdis a). }
  destruct (IH (without A s0) As') with (s := without A s0) (q := q1) as (k2 & q2 & Hk2 & He2 & Hd2); try done.
  - apply Forall2_same_length_lookup_2; [by eapply Forall2_length|]. intros i y B Hy HB.
    apply (Hext y B s0); [by apply (Forall2_lookup_lr _ _ _ _ _ _ HF Hy HB)|]. intros a Ha. apply Hsame.
    apply list_elem_of_In, in_concat. exists B. split; apply list_elem_of_In; [by eapply list_elem_of_lookup_2|done].
  - intros y B s' q' Hy. apply Hf. by right.
  - exists (k1 + k2)%nat, q2. rewrite length_app. split; [lia|]. split.
    + cbn [for_each]. eapply ends_bind; [exact He1|]. by rewrite <- without_app.
    + eapply discounted_ext; [|by eapply discounted_trans]. intros o. rewrite spent_app. f_equal. by apply spent_ext.
Qed.

Lemma subtree_deletes h : ∀ p A s q, footprint h s p = Some A → NoDup A → deletes (delete_subtree h p) A s q.
Proof.
  induction h as [|h IH]; intros p A s q; [done|]. cbn [footprint delete_subtree]. destruct p as [|a l|a t]; [done|..].
  - destruct (nodes s !! a) as [C|] eqn:HC; [|done]. cbn [mbind option_bind]. destruct (points_to _ _) eqn:Hp; [|done]. intros [= <-] _.
    exists 3%nat, (count_one (NodeSub LEAF) (count_one (MemorySub (Olc.get_size l)) q)). split; [cbn; lia|]. split.
    + cbn [free_leaf]. unfold decrement_leaf_count. eapply ends_step; [by eapply free_perform|]. eapply ends_count. by apply ends_count_last.
    + eapply discounted_ext; [|apply leaf_discounted]. intros o. by rewrite (spent_one a C), (points_to_cost (PLeaf a l)).
  - destruct (inode_at s a) as [n|] eqn:Hn; [|done]. cbn [mbind option_bind]. case_bool_decide as Ht; [|done].
    intros Hm. apply bind_Some in Hm as (As & HAs & [= <-]). apply mapM_Some in HAs. intros (HndA & Hdis & _)%NoDup_app.
    destruct (each_deletes (delete_subtree h) (λ p s, footprint h s p) (all_children n) As s q) as (k & q1 & Hk & He & Hd); try done.
    { intros c B s1 s2 Hc Hext. by eapply footprint_ext. }
    { intros c B s1 q1 _. apply IH. }
    assert (HC : ∃ C, nodes s !! a = Some C ∧ node_contents C = InodeC n).
    { unfold inode_at in Hn. destruct (nodes s !! a) as [[w [|n']]|]; try done. injection Hn as ->. by eexists. }
    destruct HC as (C & HC & HCn). assert (Ha : a ∉ concat As) by (intros Hin; apply (Hdis a Hin); by left).
    assert (HC' : nodes (without (concat As) s) !! a = Some C) by (by rewrite without_lookup, decide_False).
    eexists (S (k + 3)), _. rewrite length_app. split; [cbn [length]; lia|]. split.
    + eapply (ends_step _ (ReadInode a)); [cbn [perform]; by rewrite Hn|]. eapply ends_bind; [exact He|].
      unfold free_inode. eapply ends_step; [eapply free_perform; [exact HC'|done|]|].
      { rewrite HCn. cbn [points_to]. by apply bool_decide_eq_true. }
      rewrite without_app. unfold decrement_inode_count. eapply ends_count. by apply ends_count_last.
    + eapply discounted_ext; [|eapply discounted_trans; [exact Hd|apply (inode_discounted t)]].
      intros o. rewrite spent_app. f_equal. rewrite (spent_one a C), HCn by done. cbn [contents_cost]. by rewrite Ht.
Qed.
End clear.

(** ** The index at rest *)

Section rest.
Context `{Target}.
Implicit Types (w : gworld).

(** Nothing is held, kept or pending. *)
Definition quiet w : Prop :=
  (∀ l, owner w.2 !! l = None) ∧ (∀ a, private w.2 !! a = None) ∧ (∀ l, pend w.2 !! l = None).

Lemma quiet_logical w a n : quiet w → inode_at w.1 a = Some n → logical w a = Some (InodeC n).
Proof. intros (_ & _ & Hp) Hn. by apply logical_inode. Qed.

Lemma quiet_root w : quiet w → logical_root w = root w.1.
Proof. intros (_ & _ & Hp). unfold logical_root. by rewrite Hp. Qed.

(** The children of a node in the tree. *)
Lemma quiet_children w q a t n : inv w → quiet w → tree w.2 !! q = Some (PInode a t) → inode_at w.1 a = Some n →
  (length (full q n) < 8)%nat ∧ ∀ b p, (b, p) ∈ entries n ↔ tree w.2 !! (full q n ++ [b]) = Some p.
Proof.
  intros Hi Hq Ht Hn. destruct (t_inode _ _ _ _ (i_tree _ Hi) q a t n Ht (quiet_logical w a n Hq Hn)) as (Hw & Hl & Hch).
  split; [done|]. intros b p. rewrite <- Hch. symmetry. apply assoc_elem. by apply wf_sorted.
Qed.

(** The pointers that lead from the root. *)
Inductive reachable (s : shared) : olc_ptr → Prop :=
  | reach_root : root s ≠ PNull → reachable s (root s)
  | reach_child a t n b p : reachable s (PInode a t) → inode_at s a = Some n → assoc b (entries n) = Some p → reachable s p.

(** They are those that the tree has. *)
Lemma reachable_tree w p : inv w → quiet w → reachable w.1 p ↔ ∃ q, tree w.2 !! q = Some p.
Proof.
  intros Hi Hp. assert (Hlog : ∀ a n, inode_at w.1 a = Some n → logical w a = Some (InodeC n)) by (intros; by apply quiet_logical).
  pose proof (t_root _ _ _ _ (i_tree _ Hi)) as Hroot. rewrite (quiet_root w Hp) in Hroot. split.
  - induction 1 as [Hn|a t n b p _ [q Hq] Hn Hb].
    + exists []. rewrite Hroot. by destruct (root w.1).
    + destruct (t_inode _ _ _ _ (i_tree _ Hi) q a t n Hq (Hlog a n Hn)) as (_ & _ & Hch). exists (full q n ++ [b]). by rewrite <- Hch.
  - intros [q Hq]. remember (length q) as m eqn:Hm. revert q p Hq Hm. induction m as [m IH] using lt_wf_ind. intros q p Hq Hm.
    destruct (decide (q = [])) as [->|Hne].
    + rewrite Hroot in Hq. assert (root w.1 = p) as <- by (destruct (root w.1); congruence). constructor. by destruct (root w.1).
    + destruct (t_up _ _ _ _ (i_tree _ Hi) q p Hq Hne) as (q0 & a & t & n & b & Hq0 & Hn & ->).
      destruct (t_inode _ _ _ _ (i_tree _ Hi) q0 a t n Hq0 Hn) as (_ & _ & Hch). rewrite <- Hch in Hq.
      pose proof (i_valid _ Hi _ _ Hq0) as (_ & n' & Hn' & _). assert (n' = n) as -> by (rewrite (Hlog a n' Hn') in Hn; congruence).
      apply (reach_child _ a t n b p); [|done|done]. apply (IH (length q0)) with q0; [|done|done].
      subst m. pose proof (full_le q0 n). rewrite length_snoc. lia.
Qed.

(** ** The nodes of the tree *)

(** The nodes at a position and below it. *)
Definition beneath w (q : list Z) (a : addr) : Prop := ∃ q' p, q `prefix_of` q' ∧ tree w.2 !! q' = Some p ∧ ptr_addr p = Some a.

Lemma beneath_disjoint w q b b' a : inv w → beneath w (q ++ [b]) a → beneath w (q ++ [b']) a → b = b'.
Proof.
  intros Hi (q1 & p1 & H1 & Hq1 & Ha1) (q2 & p2 & H2 & Hq2 & Ha2).
  assert (q1 = q2) as <- by (apply (t_inj _ _ _ _ (i_tree _ Hi) q1 q2 p1 p2 Hq1 Hq2); congruence).
  pose proof (prefix_same_length _ _ _ H1 H2 ltac:(by rewrite !length_snoc)) as He. by apply app_inj_tail in He as [_ ->].
Qed.

Lemma beneath_leaf w q a l : inv w → quiet w → tree w.2 !! q = Some (PLeaf a l) → ∀ x, beneath w q x ↔ x = a.
Proof.
  intros Hi Hq Ht x. split; [|intros ->; by exists q, (PLeaf a l)]. intros (q' & p & Hp & Hq' & Hx).
  destruct (tree_path _ _ _ _ (i_tree _ Hi) q (PLeaf a l) q' p q' Ht Hq' Hp ltac:(done) (prefix_le _ _ Hp)) as [<-|(? & ? & ? & ? & [=] & _)].
  rewrite Ht in Hq'. injection Hq' as <-. by injection Hx as <-.
Qed.

Lemma beneath_inode w q a t n : inv w → quiet w → tree w.2 !! q = Some (PInode a t) → inode_at w.1 a = Some n →
  ∀ x, beneath w q x ↔ x = a ∨ ∃ b p, (b, p) ∈ entries n ∧ beneath w (full q n ++ [b]) x.
Proof.
  intros Hi Hq Ht Hn x. destruct (quiet_children w q a t n Hi Hq Ht Hn) as [_ Hch]. split.
  - intros (q' & p & Hp & Hq' & Hx).
    destruct (tree_path _ _ _ _ (i_tree _ Hi) q _ q' p q' Ht Hq' Hp ltac:(done) (prefix_le _ _ Hp)) as [<-|(a' & t' & n' & b & [= <- <-] & Hn' & Hb & _ & [c Hc])].
    + left. rewrite Ht in Hq'. injection Hq' as <-. by injection Hx as <-.
    + right. rewrite (quiet_logical w a n Hq Hn) in Hn'. injection Hn' as <-. exists b, c. split; [by apply Hch|by exists q', p].
  - intros [->|(b & c & _ & (q' & p & Hp & ? & ?))]; [by exists q, (PInode a t)|]. exists q', p. split; [|done].
    etrans; [apply (full_prefix q n)|]. etrans; [|exact Hp]. by eexists.
Qed.

Lemma beneath_apart w q a t n b x : inv w → tree w.2 !! q = Some (PInode a t) → beneath w (full q n ++ [b]) x → x ≠ a.
Proof.
  intros Hi Ht (q' & p & Hp & Hq' & Hx) ->. assert (q = q') as <- by (by apply (t_inj _ _ _ _ (i_tree _ Hi) q q' (PInode a t) p)).
  apply prefix_le in Hp. rewrite length_snoc in Hp. pose proof (full_le q n). lia.
Qed.

(** Footprints of children side by side. *)
Lemma footprints w h base (es : list (Z * olc_ptr)) : inv w → NoDup es.*1 →
  (∀ b p, (b, p) ∈ es → ∃ A, footprint h w.1 p = Some A ∧ NoDup A ∧ ∀ x, x ∈ A ↔ beneath w (base ++ [b]) x) →
  ∃ As, mapM (footprint h w.1) es.*2 = Some As ∧ NoDup (concat As) ∧ ∀ x, x ∈ concat As ↔ ∃ b p, (b, p) ∈ es ∧ beneath w (base ++ [b]) x.
Proof.
  intros Hi. induction es as [|[b p] es IH]; intros Hnd Hes.
  - exists []. split; [done|]. split; [constructor|]. intros x. split; [by intros ?%elem_of_nil|]. by intros (? & ? & ?%elem_of_nil & _).
  - cbn [fmap list_fmap fst snd] in *. apply NoDup_cons in Hnd as [Hb Hnd].
    destruct (Hes b p ltac:(by left)) as (A & HA & HndA & HinA).
    destruct IH as (As & HAs & HndAs & HinAs); [done|intros b' p' Hin; apply Hes; by right|].
    exists (A :: As). split; [cbn [mapM]; by rewrite HA, HAs|]. cbn [concat]. split.
    + apply NoDup_app. split; [done|]. split; [|done]. intros x Hx1%HinA (b' & p' & Hin & Hx2)%HinAs.
      pose proof (beneath_disjoint w base b b' x Hi Hx1 Hx2) as <-. apply Hb. apply list_elem_of_fmap. by exists (b, p').
    + intros x. rewrite elem_of_app, HinA, HinAs. split.
      * intros [Hx|(b' & p' & Hin & Hx)]; [exists b, p; split; [by left|done]|exists b', p'; split; [by right|done]].
      * intros (b' & p' & [[= -> ->]|Hin]%elem_of_cons & Hx); [by left|right; by exists b', p'].
Qed.

Lemma tree_footprint w : inv w → quiet w → ∀ h q p, tree w.2 !! q = Some p → (8 - length q < h)%nat →
  ∃ A, footprint h w.1 p = Some A ∧ NoDup A ∧ ∀ x, x ∈ A ↔ beneath w q x.
Proof.
  intros Hi Hq. induction h as [|h IH]; intros q p Ht Hh; [lia|]. pose proof (i_valid _ Hi _ _ Ht) as Hv.
  destruct p as [|a l|a t]; [done|..].
  - destruct Hv as [_ Hc]. exists [a]. split_and!.
    + cbn [footprint]. unfold contents_at in Hc. destruct (nodes w.1 !! a) as [C|]; [|done]. injection Hc as Hc. cbn [mbind option_bind].
      rewrite Hc. cbn [points_to]. by rewrite bool_decide_eq_true_2.
    + apply NoDup_singleton.
    + intros x. rewrite list_elem_of_singleton. symmetry. by eapply beneath_leaf.
  - destruct Hv as (_ & n & Hn & Htype). destruct (quiet_children w q a t n Hi Hq Ht Hn) as [Hlen Hch].
    assert (Hw : node_wf n) by (apply (i_wf _ Hi a n Hn), Hq).
    destruct (Permutation_map_inv snd (entries n) (all_children_spec n Hw : all_children n ≡ₚ _)) as (es & Hes & Hperm).
    assert (Hin : ∀ e, e ∈ es ↔ e ∈ entries n) by (intros e; by rewrite Hperm).
    destruct (footprints w h (full q n) es Hi) as (As & HAs & Hnd & Hx).
    { rewrite <- Hperm. apply sorted_NoDup_keys. by apply wf_sorted. }
    { intros b p Hb%Hin%Hch. apply (IH (full q n ++ [b]) p Hb). rewrite length_snoc. pose proof (full_le q n). lia. }
    exists (concat As ++ [a]). split_and!.
    + cbn [footprint]. rewrite Hn. cbn [mbind option_bind]. rewrite bool_decide_eq_true_2 by done.
      change (map snd es) with es.*2 in Hes. by rewrite Hes, HAs.
    + apply NoDup_app. split; [done|]. split; [|apply NoDup_singleton]. intros x (b & p & _ & Hb)%Hx ->%list_elem_of_singleton.
      by eapply beneath_apart.
    + intros x. rewrite elem_of_app, list_elem_of_singleton, Hx, (beneath_inode w q a t n Hi Hq Ht Hn).
      setoid_rewrite Hin. tauto.
Qed.

Lemma length_le_size {X} (A : list addr) (m : gmap addr X) : NoDup A → (∀ a, a ∈ A → is_Some (m !! a)) → (length A ≤ size m)%nat.
Proof.
  intros Hnd Hin. rewrite <- (size_list_to_set (C := gset addr) A Hnd), <- size_dom. apply subseteq_size.
  intros a Ha%elem_of_list_to_set. by apply elem_of_dom, Hin.
Qed.

(** The nodes of the index, in the order of their deletion. *)
Lemma root_footprint w : inv w → quiet w → ∃ A, NoDup A ∧ (length A ≤ clear_fuel w.1)%nat ∧ (∀ x, x ∈ A ↔ in_tree w x) ∧
  match root w.1 with PNull => A = [] | p => footprint (clear_fuel w.1) w.1 p = Some A end.
Proof.
  intros Hi Hq. pose proof (t_root _ _ _ _ (i_tree _ Hi)) as Hroot. rewrite (quiet_root w Hq) in Hroot.
  destruct (decide (root w.1 = PNull)) as [Hr|Hr].
  - rewrite Hr in *. exists []. split_and!; [constructor|cbn; lia| |done]. intros x. split; [by intros ?%elem_of_nil|].
    assert (Hno : ∀ p, ¬ reachable w.1 p) by (induction 1; [congruence|done]).
    intros (q & p & Ht & _). destruct (Hno p). apply (reachable_tree w p Hi Hq). by exists q.
  - assert (Ht : tree w.2 !! [] = Some (root w.1)) by (rewrite Hroot; by destruct (root w.1)).
    destruct (tree_footprint w Hi Hq 9 [] _ Ht ltac:(cbn; lia)) as (A & HA & Hnd & Hin). exists A. split; [done|].
    assert (Hle : (length A ≤ clear_fuel w.1)%nat) by (apply length_le_size; [done|intros a; by eapply footprint_nodes]).
    split; [done|]. split.
    + intros x. rewrite Hin. unfold beneath, in_tree. split; [intros (q & p & _ & ?); by exists q, p|intros (q & p & ?); exists q, p; split; [apply prefix_nil|done]].
    + assert (Hf : footprint (clear_fuel w.1) w.1 (root w.1) = Some A) by (eapply footprint_mono; [exact Hle|by eapply footprint_height]).
      by destruct (root w.1).
Qed.

(** ** Deletion *)

Lemma in_tree_node w a : inv w → in_tree w a → is_Some (nodes w.1 !! a).
Proof.
  intros Hi (q & p & Hq & Ha). pose proof (i_valid _ Hi _ _ Hq) as Hv. destruct p as [|b l|b t]; [done|..]; injection Ha as ->.
  - destruct Hv as [_ Hv]. unfold contents_at in Hv. destruct (nodes w.1 !! a); [by eexists|done].
  - destruct Hv as (_ & n & Hn & _). unfold inode_at in Hn. destruct (nodes w.1 !! a); [by eexists|done].
Qed.

Lemma valid_points_to w p a C : valid_ptr w p → ptr_addr p = Some a → nodes w.1 !! a = Some C → points_to p (node_contents C) = true.
Proof.
  intros Hv Ha HC. destruct p as [|b l|b t]; [done|..]; injection Ha as ->.
  - destruct Hv as [_ Hv]. unfold contents_at in Hv. rewrite HC in Hv. injection Hv as ->. cbn [points_to]. by rewrite bool_decide_eq_true_2.
  - destruct Hv as (_ & n & Hn & Ht). unfold inode_at in Hn. rewrite HC in Hn. destruct C as [x [l|n']]; [done|]. injection Hn as ->.
    cbn [node_contents points_to]. by rewrite bool_decide_eq_true_2.
Qed.

(** A node is in the tree or retired, and not both. *)
Lemma quiet_node w a : inv w → quiet w → is_Some (nodes w.1 !! a) → in_tree w a ↔ a ∉ retired w.1.
Proof.
  intros Hi (Ho & Hp & _) [C HC]. assert (Hw : word w (NodeLock a) = Some (node_lock C)) by (unfold word; cbn; by rewrite HC).
  pose proof (i_node _ Hi a _ Hw (Hp a)) as Hn. unfold node_state in Hn. rewrite Ho in Hn. destruct (i_retired _ Hi) as [_ Hr]. split.
  - intros Hin Ha%Hr. rewrite Hw in Ha. injection Ha as Ha. destruct Hn as [[Hn _]|(_ & Hn & _)]; [by rewrite Ha in Hn|done].
  - intros Ha. destruct Hn as [[_ Hn]|(_ & _ & Hn)]; done.
Qed.

Lemma without_costs o A s : NoDup A → (∀ a, a ∈ A → is_Some (nodes s !! a) ∧ a ∉ retired s) →
  live_cost o (without A s) = live_cost o s - spent A s o.
Proof.
  revert s. induction A as [|a A IH]; intros s Hnd Hin; [rewrite without_nil; cbn; lia|]. apply NoDup_cons in Hnd as [Ha Hnd].
  destruct (Hin a ltac:(by left)) as [[C HC] Hr].
  assert (Hother : ∀ b, b ≠ a → nodes (without [a] s) !! b = nodes s !! b).
  { intros b Hb. rewrite without_lookup, decide_False; [done|]. by intros ?%list_elem_of_singleton. }
  change (a :: A) with ([a] ++ A). rewrite <- without_app, spent_app, (spent_one a C s o HC).
  rewrite IH; [|done|].
  - rewrite (gone_costs o a C s (without [a] s)); try done.
    + rewrite (spent_ext A s); [lia|]. intros b Hb. apply Hother. by intros ->.
    + right. rewrite without_lookup. by rewrite decide_True by by left.
  - intros b Hb. rewrite Hother by by intros ->. apply Hin. by right.
Qed.

Definition rootless (s : shared) : shared := Shared (root_pointer_lock s) PNull (nodes s) (next_addr s) (retired s).

(** Only the retired nodes are left. *)
Definition cleared (s : shared) : shared :=
  Shared (root_pointer_lock s) PNull (filter (λ x, x.1 ∈ retired s) (nodes s)) (next_addr s) (retired s).

Lemma cleared_lookup s a : nodes (cleared s) !! a = if decide (a ∈ retired s) then nodes s !! a else None.
Proof.
  cbn [cleared nodes]. rewrite map_lookup_filter. destruct (nodes s !! a); cbn [mbind option_bind]; [|by case_decide].
  case_decide; [by rewrite option_guard_True|by rewrite option_guard_False].
Qed.

Lemma cleared_costs o s : live_cost o (cleared s) = 0.
Proof.
  unfold live_cost. replace (costs o (cleared s)) with (∅ : gmap addr Z); [done|]. apply map_eq. intros a.
  rewrite lookup_empty, lookup_costs. cbn [cleared retired]. rewrite cleared_lookup. by case_decide.
Qed.

Lemma tree_without w A : inv w → quiet w → (∀ x, x ∈ A ↔ in_tree w x) → rootless (without A w.1) = cleared w.1.
Proof.
  intros Hi Hq Hin. unfold cleared, without, rootless. cbn. f_equal. apply map_eq. intros a.
  pose proof (cleared_lookup w.1 a) as Hc. cbn [cleared nodes] in Hc. rewrite Hc.
  pose proof (without_lookup A w.1 a) as Hx. cbn [without nodes] in Hx. rewrite Hx.
  destruct (nodes w.1 !! a) as [C|] eqn:HC; [|by repeat case_decide].
  pose proof (quiet_node w a Hi Hq ltac:(by eexists)) as Hn. rewrite <- Hin in Hn. repeat case_decide; tauto.
Qed.

(** The nodes in use are those of the tree. *)
Lemma tree_spent w A o : inv w → quiet w → NoDup A → (∀ x, x ∈ A ↔ in_tree w x) → spent A w.1 o = live_cost o w.1.
Proof.
  intros Hi Hq Hnd Hin. pose proof (cleared_costs o w.1) as Hy. rewrite <- (tree_without w A) in Hy by done.
  change (live_cost o (without A w.1) = 0) in Hy. rewrite without_costs in Hy; [lia|done|].
  intros a Ha%Hin. pose proof (in_tree_node w a Hi Ha) as Hs. split; [done|]. by apply (quiet_node w a).
Qed.

(** The nodes in the tree go, and what was counted for them. *)
Lemma root_deletes w q : inv w → quiet w → ∃ s' k q', (k ≤ 4 * clear_fuel w.1 + 1)%nat ∧
  ends k (delete_root_subtree (clear_fuel w.1)) w.1 q tt s' q' ∧ discounted (λ o, live_cost o w.1) q q' ∧
  rootless s' = cleared w.1.
Proof.
  intros Hi Hq. destruct (root_footprint w Hi Hq) as (A & Hnd & Hle & Hin & HA).
  pose proof (tree_without w A Hi Hq Hin) as Hst.
  assert (Hcost : ∀ o, spent A w.1 o = live_cost o w.1) by (intros o; by apply tree_spent).
  assert (Hload : perform true (LoadSlot RootSlot) w.1 = Some (root w.1, w.1)) by done.
  exists (without A w.1). destruct (root w.1) as [|a l|a t] eqn:Hr.
  - subst A. rewrite without_nil in *. exists 1%nat, q. split; [lia|]. split; [eapply ends_step; [exact Hload|apply ends_give]|].
    split; [|done]. eapply discounted_ext; [exact Hcost|apply discounted_none].
  - destruct (subtree_deletes _ _ A w.1 q HA Hnd) as (k & q' & Hk & He & Hd). exists (S k), q'. split; [lia|].
    split; [by eapply ends_step|]. split; [|done]. by eapply discounted_ext.
  - destruct (subtree_deletes _ _ A w.1 q HA Hnd) as (k & q' & Hk & He & Hd). exists (S k), q'. split; [lia|].
    split; [by eapply ends_step|]. split; [|done]. by eapply discounted_ext.
Qed.

(** What the counters are after [clear]. *)
Definition counters_cleared (s : shared) (q q' : stats) : Prop :=
  (∀ o, o ≠ Some LEAF → tally q' o = 0) ∧
  (∀ y, tally q (Some LEAF) = wrap64 y → tally q' (Some LEAF) = wrap64 (y - live_cost (Some LEAF) s)) ∧
  growing_inode_counts q' = growing_inode_counts q ∧ shrinking_inode_counts q' = shrinking_inode_counts q ∧
  key_prefix_splits q' = key_prefix_splits q.

Lemma clear_ends w q : inv w → quiet w → ∃ k q', (k < clear_steps w.1)%nat ∧
  ends k (olc_clear (clear_fuel w.1)) w.1 q tt (cleared w.1) q' ∧ counters_cleared w.1 q q'.
Proof.
  intros Hi Hq. destruct (root_deletes w q Hi Hq) as (s' & k & q1 & Hk & He & (Hd & Hg & Hs & Hp) & Hst).
  exists (k + 6)%nat. eexists. split; [unfold clear_steps, clear_fuel in *; lia|]. split.
  - unfold olc_clear. eapply ends_bind; [exact He|]. eapply (ends_step 5 (StoreSlot RootSlot PNull) _ _ _ _ (cleared w.1)); [rewrite <- Hst; done|].
    do 4 eapply ends_count. apply ends_count_last.
  - split_and!; try done; [|by intros y Hy%Hd].
    intros [[]|] Ht; try done.
Qed.

(** The tree has no position any more. *)
Definition treeless (g : ghost) : ghost := Ghost ∅ (owner g) (private g) (pend g) ∅ (gcalls g) (clock g).

Lemma cleared_inv w : inv w → quiet w → inv (cleared w.1, treeless w.2).
Proof.
  intros Hi Hq. pose proof Hq as (Ho & Hp & Hd). destruct (i_retired _ Hi) as [Hnd Hret].
  assert (Hword : ∀ l x, word (cleared w.1, treeless w.2) l = Some x → word w l = Some x ∧ (∀ a, l = NodeLock a → a ∈ retired w.1)).
  { intros [|a] x; [done|]. unfold word. cbn [fst lock_word]. rewrite cleared_lookup. case_decide as Ha; [|done].
    intros Hx. split; [done|]. by intros ? [= <-]. }
  assert (Hnone : ∀ a, ¬ in_tree (cleared w.1, treeless w.2) a) by (intros a (q & p & Ht & _); cbn in Ht; by rewrite lookup_empty in Ht).
  split; cbn [fst snd treeless tree owner private pend gbindings clock].
  - assert (Hr : logical_root (cleared w.1, treeless w.2) = PNull) by (unfold logical_root; cbn [snd treeless pend fst cleared root]; by rewrite Hd).
    rewrite Hr. split; try (intros *; rewrite lookup_empty; discriminate). by rewrite lookup_empty.
  - intros q p. by rewrite lookup_empty.
  - intros l x [Hx _]%Hword. by eapply (i_range _ Hi).
  - exact (i_root _ Hi).
  - intros a x [Hx Ha]%Hword _. unfold node_state. cbn [snd treeless owner]. rewrite Ho. right. specialize (Ha a eq_refl).
    rewrite (Hret a Ha) in Hx. injection Hx as <-. split; [done|]. split; [apply Hnone|exact Ha].
  - intros a n Hn Hpa. apply (i_wf _ Hi a n); [|done]. unfold inode_at in *. rewrite cleared_lookup in Hn. by case_decide.
  - intros a i. rewrite Hp. done.
  - intros l i. rewrite Ho. done.
  - intros l x. rewrite Hd. done.
  - intros a x q t l. rewrite Hd. done.
  - rewrite Hd. by intros [].
  - split; [exact Hnd|]. intros a Ha. specialize (Hret a Ha). unfold word in *. cbn [fst lock_word] in *. rewrite cleared_lookup. by rewrite decide_True.
  - intros a. rewrite cleared_lookup. case_decide; [|by intros []]. intros Hs. by apply (i_fresh _ Hi).
Qed.
End rest.
