(* ===== verification/OlcEdit.v ===== *)
(** What the thread's own steps do to the invariant and to the other threads:
    steps that change the contents of nodes, or the tree. *)

From S2P Require Import Prelude Words Threads ArtKey KeyPrefix SortedAssoc Simd InodeBase.
From S2P Require Import Heap Leaf InodeSpec Inode Db DbTrace OptimisticLock OlcState Olc OlcSystem OlcLogic OlcTree OlcSurgery OlcInv OlcSteps.

Section edit.
Context `{Target} (i : nat).
Implicit Types (w : gworld) (l : lock_ref) (n : inode olc_ptr).

(** No lock word changes. The contents of nodes that thread [i] has locked may
    change, and, with [pp], the prefix of one other node; its private nodes may be
    published; nodes whose lock it holds may leave the tree when they are obsolete,
    others only change their place, upwards, under a parent it has locked. *)
Record edit (pp : bool) w w' : Prop := {
  ed_clock : clock w'.2 = clock w.2 + 1;
  ed_word : ∀ l, word w' l = word w l;
  ed_retired : retired w'.1 = retired w.1;
  ed_next : next_addr w'.1 = next_addr w.1;
  ed_owner : ∀ l, owner w'.2 !! l = owner w.2 !! l ∨
    owner w.2 !! l = Some i ∧ owner w'.2 !! l = None ∧ ∃ a, l = NodeLock a ∧ a ∈ retired w.1 ∧ ¬ in_tree w' a;
  ed_private : ∀ a, private w'.2 !! a = private w.2 !! a ∨
    private w.2 !! a = Some i ∧ private w'.2 !! a = None ∧ in_tree w' a;
  ed_pend : ∀ l, pend w'.2 !! l = pend w.2 !! l ∨ owner w.2 !! l = Some i;
  ed_pend_owner : ∀ l, is_Some (pend w'.2 !! l) → is_Some (owner w'.2 !! l);
  ed_uncut : ∀ a x q t l, pend w'.2 !! NodeLock a = Some (Uncut x) → owner w.2 !! NodeLock a = Some i →
    tree w'.2 !! q = Some (PInode a t) → parent_lock w' q l → owner w'.2 !! l = owner w'.2 !! NodeLock a;
  ed_contents : ∀ a, contents_at w'.1 a = contents_at w.1 a ∨ ∃ n n', inode_at w.1 a = Some n ∧
    inode_at w'.1 a = Some n' ∧ type n' = type n ∧ node_wf n' ∧ private w.2 !! a = None ∧
    (owner w.2 !! NodeLock a = Some i ∨ (pp = true ∧ same_node n n'));
  ed_root : owner w.2 !! RootLock = Some i ∨ (root w'.1 = root w.1 ∧ tree w'.2 !! [] = tree w.2 !! []);
  ed_pend_root : is_Some (pend w'.2 !! RootLock) → root w'.1 ≠ PNull ∧ logical_root w' ≠ PNull;
  ed_tree : tree_ok (logical w') (tree w'.2) (logical_root w') (gbindings w'.2);
  ed_old : ∀ q p, tree w'.2 !! q = Some p → (∃ q0, tree w.2 !! q0 = Some p) ∨
    ∃ a, ptr_addr p = Some a ∧ private w.2 !! a = Some i ∧ private w'.2 !! a = None ∧ valid_ptr w' p;
  ed_kept : ∀ q p a, tree w.2 !! q = Some p → ptr_addr p = Some a → owner w.2 !! NodeLock a ≠ Some i →
    ∃ q', tree w'.2 !! q' = Some p ∧ q' `prefix_of` q ∧
      (∀ lp, parent_lock w q lp → owner w.2 !! lp ≠ Some i → q' = q) ∧
      (∀ n, inode_at w.1 a = Some n → ∃ n', inode_at w'.1 a = Some n' ∧ same_node n n' ∧ full q' n' = full q n ∧
        (pp = false ∨ q' = q → q' = q ∧ n' = n));
  ed_lost : ∀ q p a, tree w.2 !! q = Some p → ptr_addr p = Some a → owner w.2 !! NodeLock a = Some i →
    in_tree w' a ∨ word w (NodeLock a) = Some 1;
  ed_calls : ∀ j, j ≠ i → gcalls w'.2 !! j = gcalls w.2 !! j;
}.

Section edited.
Context (pp : bool) (w w' : gworld) (Hi : inv w) (He : edit pp w w').

Lemma ed_nodes a : is_Some (nodes w'.1 !! a) ↔ is_Some (nodes w.1 !! a).
Proof. pose proof (ed_word _ _ _ He (NodeLock a)) as Hw. unfold word in Hw. simpl in Hw. by rewrite <- !(fmap_is_Some node_lock), Hw. Qed.

Lemma ed_visible l : visible w l → visible w' l.
Proof.
  destruct l as [|a]; [done|]. intros [H1 H2]. split; [by apply ed_nodes|].
  destruct (ed_private _ _ _ He a) as [->|(? & ? & _)]; done.
Qed.

Lemma ed_valid p : valid_ptr w p → valid_ptr w' p.
Proof.
  intros Hv. destruct (ptr_addr p) as [a|] eqn:Ha; [|by destruct p].
  destruct (valid_contents _ _ _ Hv Ha) as (H1 & H2 & _).
  assert (Hp : private w'.2 !! a = None) by (destruct (ed_private _ _ _ He a) as [->|(? & ? & _)]; done).
  destruct p as [|b l|b t]; simpl in *; [done|..]; injection Ha as ->; (split; [done|]).
  - destruct Hv as [_ Hv]. destruct (ed_contents _ _ _ He a) as [->|(n & n' & Hn & _)]; [done|].
    apply inode_at_contents in Hn. congruence.
  - destruct Hv as (_ & n & Hn & Ht). destruct (ed_contents _ _ _ He a) as [Hc|(n0 & n' & Hn0 & Hn' & Ht' & _)].
    + exists n. split; [|done]. apply inode_at_contents. apply inode_at_contents in Hn. congruence.
    + exists n'. split; [done|]. congruence.
Qed.

Lemma undisturbed_other j l : j ≠ i → undisturbed j w w' l → owner w.2 !! l ≠ Some i.
Proof. intros Hj [Ho|[Ho _]] Hl; congruence. Qed.

Lemma ed_in_tree a : in_tree w' a → in_tree w a ∨ private w.2 !! a = Some i.
Proof.
  intros (q & p & Hq & Hp). destruct (ed_old _ _ _ He q p Hq) as [[q0 Hq0]|(b & Hb & ? & _)].
  - left. by exists q0, p.
  - right. congruence.
Qed.

Lemma edit_guar : guar i pp w w'.
Proof.
  intros j Hj. split.
  - apply ed_visible.
  - intros l x _ Hx. exists x. rewrite (ed_word _ _ _ He). split_and!; by try left.
  - intros l. destruct (ed_owner _ _ _ He l) as [->|(H1 & H2 & _)]; [done|]. rewrite H1, H2. split; congruence.
  - intros l _. apply (ed_word _ _ _ He).
  - intros l Hu. destruct (ed_pend _ _ _ He l) as [->|Ho]; [done|]. by destruct (undisturbed_other j l).
  - intros a _. by rewrite (ed_retired _ _ _ He).
  - intros a Ha [?|Hp]%ed_in_tree; [done|]. destruct (i_private _ Hi a i Hp) as (Hn & _). congruence.
  - apply ed_valid.
  - intros Hu. destruct (ed_root _ _ _ He) as [Ho|?]; [|done]. by destruct (undisturbed_other j RootLock).
  - intros q a l Hq Hu. destruct (ed_kept _ _ _ He q _ a Hq eq_refl) as (q' & Hq' & Hp & Hpar & _);
      [by apply (undisturbed_other j)|].
    exists q'. split_and!; [done..|]. intros lp Hlp Hul. apply (Hpar lp Hlp). by apply (undisturbed_other j).
  - intros q a t n Hq Hn Hu. destruct (ed_kept _ _ _ He q _ a Hq eq_refl) as (q' & Hq' & Hp & Hpar & Hc);
      [by apply (undisturbed_other j)|]. destruct (Hc n Hn) as (n' & Hn' & Hs & Hf & Hsame).
    exists q', n'. split_and!; try done.
    + intros Hpp. apply Hsame. by left.
    + intros lp Hlp Hul. apply Hsame. right. apply (Hpar lp Hlp). by apply (undisturbed_other j).
  - intros a. destruct (ed_private _ _ _ He a) as [->|(H1 & H2 & _)]; [done|]. rewrite H1, H2. split; congruence.
  - intros a Ha. pose proof (ed_word _ _ _ He (NodeLock a)) as Hw. unfold word in Hw. simpl in Hw.
    destruct (ed_contents _ _ _ He a) as [Hc|(n & n' & _ & _ & _ & _ & Hp & _)]; [|congruence].
    unfold contents_at in Hc. destruct (nodes w'.1 !! a) as [[]|], (nodes w.1 !! a) as [[]|]; simpl in *; congruence.
  - by apply (ed_calls _ _ _ He).
Qed.

Lemma published_pend a : private w.2 !! a = Some i → pend w'.2 !! NodeLock a = None.
Proof.
  intros Hp. destruct (i_private _ Hi a i Hp) as (Ho & _). destruct (ed_pend _ _ _ He (NodeLock a)) as [->|Ho']; [|congruence].
  destruct (pend w.2 !! NodeLock a) eqn:Hd; [|done]. apply (i_pend _ Hi) in Hd. rewrite Ho in Hd. by destruct Hd.
Qed.

Lemma edit_node a x : word w' (NodeLock a) = Some x → private w'.2 !! a = None → node_state w' a x.
Proof.
  rewrite (ed_word _ _ _ He). intros Hx Hp'.
  assert (Hret : retired w'.1 = retired w.1) by apply (ed_retired _ _ _ He).
  destruct (ed_private _ _ _ He a) as [Hp|(Hp & _ & Hin)]; [rewrite Hp in Hp'|].
  - pose proof (i_node _ Hi a x Hx Hp') as Hn. unfold node_state in *.
    assert (Hnt : ¬ in_tree w a → ¬ in_tree w' a) by (intros Hnt [?|?]%ed_in_tree; [done|congruence]).
    destruct (ed_owner _ _ _ He (NodeLock a)) as [->|(Ho & -> & b & [= <-] & Hb & Hn')].
    + destruct (owner w.2 !! NodeLock a) as [j|] eqn:Ho.
      * destruct Hn as [[Hm (q & p & Hq & Hpa)]| ->]; [|by right]. destruct (decide (j = i)) as [->|Hne].
        -- destruct (ed_lost _ _ _ He q p a Hq Hpa Ho) as [?|Hw]; [by left|right; congruence].
        -- left. split; [done|]. destruct (ed_kept _ _ _ He q p a Hq Hpa) as (q' & Hq' & _); [congruence|]. by exists q', p.
      * rewrite Hret. destruct Hn as [[Hm (q & p & Hq & Hpa)]|(-> & Hnin & Hin)]; [left|right; auto].
        split; [done|]. destruct (ed_kept _ _ _ He q p a Hq Hpa) as (q' & Hq' & _); [congruence|]. by exists q', p.
    + rewrite Ho, Hret in *. right. split_and!; try done.
      destruct (i_retired _ Hi) as [_ Hr]. rewrite (Hr a Hb) in Hx. by injection Hx.
  - destruct (i_private _ Hi a i Hp) as (Ho & _ & Hw). rewrite Hw in Hx. injection Hx as <-. unfold node_state.
    destruct (ed_owner _ _ _ He (NodeLock a)) as [->|(Ho' & _)]; [|congruence]. rewrite Ho. by left.
Qed.

(** The place of a node that another thread has locked, and what the tree has
    there. *)
Lemma foreign_owner j l : j ≠ i → owner w.2 !! l = Some j → owner w'.2 !! l = Some j.
Proof. intros Hj Ho. destruct (ed_owner _ _ _ He l) as [->|(? & _)]; congruence. Qed.

Lemma ed_full q a t n j : tree w.2 !! q = Some (PInode a t) → logical w a = Some (InodeC n) → owner w.2 !! NodeLock a = Some j → j ≠ i →
  ∃ q' n', tree w'.2 !! q' = Some (PInode a t) ∧ logical w' a = Some (InodeC n') ∧ full q' n' = full q n.
Proof.
  intros Hq Hn Ho Hj. destruct (ed_kept _ _ _ He q _ a Hq eq_refl) as (q' & Hq' & _ & Hpar & Hc); [congruence|].
  destruct (ed_pend _ _ _ He (NodeLock a)) as [Hpend|?]; [|congruence].
  destruct (contents_at w.1 a) as [[l|n0]|] eqn:Hca; unfold logical in Hn; rewrite Hca in Hn; try done. injection Hn as <-.
  destruct (Hc n0) as (n1 & Hn1 & Hs & Hf & Hsame); [by apply inode_at_contents|].
  exists q', (with_delayed (pend w.2 !! NodeLock a) n1). split; [done|]. split.
  { unfold logical. apply inode_at_contents in Hn1. by rewrite Hn1, Hpend. }
  destruct (pend w.2 !! NodeLock a) as [[s p|x]|] eqn:Hd; [|..|done].
  - cbn [with_delayed]. unfold full in *. by rewrite !get_key_prefix_slot_store.
  - assert (Hex : ∃ lp, parent_lock w q lp).
    { destruct (decide (q = [])) as [->|Hne]; [exists RootLock; by left|].
      destruct (t_up _ _ _ _ (i_tree _ Hi) q _ Hq Hne) as (q0 & y & t0 & m & b & ? & ? & ->).
      exists (NodeLock y). right. by exists q0, y, t0, m, b. }
    destruct Hex as [lp Hlp]. pose proof (i_uncut _ Hi a x q t lp Hd Hq Hlp) as Heq.
    destruct Hsame as [-> ->]; [right; apply (Hpar lp Hlp); congruence|done].
Qed.

Lemma parent_unique w0 q l l' : inv w0 → parent_lock w0 q l → parent_lock w0 q l' → l = l'.
Proof.
  intros Hi0 [[-> ->]|(q1 & x1 & t1 & n1 & b1 & H1 & Hn1 & -> & ->)] [[? ->]|(q2 & x2 & t2 & n2 & b2 & H2 & Hn2 & Heq & ->)];
    [done|by destruct (snoc_ne_nil (full q2 n2) b2)|by destruct (snoc_ne_nil (full q1 n1) b1)|].
  destruct (other_child _ _ _ _ (i_tree _ Hi0) _ _ _ _ _ _ _ _ _ _ H1 Hn1 H2 Hn2 Heq) as (-> & _). done.
Qed.

Lemma edit_uncut a x q t l : pend w'.2 !! NodeLock a = Some (Uncut x) → tree w'.2 !! q = Some (PInode a t) →
  parent_lock w' q l → owner w'.2 !! l = owner w'.2 !! NodeLock a.
Proof.
  intros Hd Hq Hl. destruct (decide (owner w.2 !! NodeLock a = Some i)) as [Ho|Hno]; [by apply (ed_uncut _ _ _ He a x q t)|].
  destruct (ed_pend _ _ _ He (NodeLock a)) as [Hpend|?]; [|done]. rewrite Hpend in Hd.
  destruct (i_pend _ Hi _ _ Hd) as [j Ho]. assert (Hj : j ≠ i) by congruence.
  rewrite (foreign_owner _ _ Hj Ho). destruct (ed_old _ _ _ He q _ Hq) as [[q0 Hq0]|(b & [= <-] & Hb & _)].
  2: { destruct (i_private _ Hi a i Hb) as (? & _). congruence. }
  destruct (ed_kept _ _ _ He q0 _ a Hq0 eq_refl Hno) as (q1 & Hq1 & _ & Hpar & _).
  pose proof (t_inj _ _ _ _ (ed_tree _ _ _ He) _ _ _ _ Hq Hq1 eq_refl) as <-.
  destruct (decide (q0 = [])) as [->|Hne].
  - assert (Hl0 : parent_lock w [] RootLock) by by left. pose proof (i_uncut _ Hi a x [] t _ Hd Hq0 Hl0) as Heq.
    rewrite (Hpar _ Hl0) in Hl by congruence. rewrite Ho in Heq.
    destruct Hl as [[_ ->]|(? & ? & ? & m & b & _ & _ & Hbad & _)]; [by apply foreign_owner|by destruct (snoc_ne_nil (full x0 m) b)].
  - destruct (t_up _ _ _ _ (i_tree _ Hi) q0 _ Hq0 Hne) as (qz & z & tz & nz & b & Hz & Hnz & ->).
    assert (Hl0 : parent_lock w (full qz nz ++ [b]) (NodeLock z)) by (right; by exists qz, z, tz, nz, b).
    pose proof (i_uncut _ Hi a x _ t _ Hd Hq0 Hl0) as Heq. rewrite Ho in Heq. rewrite (Hpar _ Hl0) in Hl by congruence.
    destruct (ed_full qz z tz nz j Hz Hnz Heq Hj) as (qz' & nz' & Hz' & Hnz' & Hf).
    destruct Hl as [[Hbad _]|(q2 & z2 & t2 & n2 & b2 & H2 & Hn2 & Heq2 & ->)]; [by destruct (snoc_ne_nil (full qz nz) b)|].
    rewrite <- Hf in Heq2.
    destruct (other_child _ _ _ _ (ed_tree _ _ _ He) _ _ _ _ _ _ _ _ _ _ Hz' Hnz' H2 Hn2 Heq2) as (<- & _).
    by apply foreign_owner.
Qed.

Lemma edit_wf a n : inode_at w'.1 a = Some n → private w'.2 !! a = None → node_wf n.
Proof.
  intros Hn Hp'. destruct (ed_contents _ _ _ He a) as [Hc|(n0 & n' & _ & Hn' & _ & Hw & _)]; [|congruence].
  assert (Hn0 : inode_at w.1 a = Some n) by (apply inode_at_contents; apply inode_at_contents in Hn; congruence).
  destruct (ed_private _ _ _ He a) as [Hp|(Hp & _ & (q & p & Hq & Hpa))]; [rewrite Hp in Hp'; by apply (i_wf _ Hi a)|].
  assert (Hl : logical w' a = Some (InodeC n)).
  { unfold logical. apply inode_at_contents in Hn. by rewrite Hn, published_pend. }
  pose proof (t_points _ _ _ _ (ed_tree _ _ _ He) q p Hq) as Hpt. destruct p as [|b l|b t]; [done|..]; injection Hpa as ->.
  - simpl in Hpt. congruence.
  - by destruct (t_inode _ _ _ _ (ed_tree _ _ _ He) q a t n Hq Hl).
Qed.

Lemma edit_inv : inv w'.
Proof.
  pose proof (ed_word _ _ _ He) as Hw.
  split.
  - apply (ed_tree _ _ _ He).
  - intros q p Hq. destruct (ed_old _ _ _ He q p Hq) as [[q0 Hq0]|(b & _ & _ & _ & ?)]; [|done].
    eapply ed_valid, (i_valid _ Hi), Hq0.
  - intros l x. rewrite Hw, (ed_clock _ _ _ He). intros Hx. apply (i_range _ Hi) in Hx. lia.
  - pose proof (Hw RootLock) as Hr. unfold word in Hr. simpl in Hr. injection Hr as ->.
    destruct (ed_owner _ _ _ He RootLock) as [->|(_ & _ & a & [=] & _)]. apply (i_root _ Hi).
  - apply edit_node.
  - apply edit_wf.
  - intros a j Ha. destruct (ed_private _ _ _ He a) as [Hp|(_ & Hp & _)]; [rewrite Hp in Ha|congruence].
    destruct (i_private _ Hi a j Ha) as (Ho & Hnin & Hw0). rewrite Hw. split_and!; [| |done].
    + destruct (ed_owner _ _ _ He (NodeLock a)) as [->|(? & ? & _)]; done.
    + intros (q & p & Hq & Hpa). destruct (ed_old _ _ _ He q p Hq) as [[q0 Hq0]|(b & Hb & _ & Hpb & _)].
      * apply Hnin. by exists q0, p.
      * rewrite Hpa in Hb. injection Hb as <-. congruence.
  - intros l j Hj. apply ed_visible. destruct (ed_owner _ _ _ He l) as [Ho|(_ & Ho & _)]; [|congruence].
    rewrite Ho in Hj. by apply (i_owner _ Hi l j).
  - intros l x Hx. apply (ed_pend_owner _ _ _ He). by eexists.
  - apply edit_uncut.
  - apply (ed_pend_root _ _ _ He).
  - rewrite (ed_retired _ _ _ He). destruct (i_retired _ Hi) as [Hnd Hr]. split; [done|]. intros a Ha. rewrite Hw. auto.
  - intros a Ha%ed_nodes. rewrite (ed_next _ _ _ He). by apply (i_fresh _ Hi).
Qed.
End edited.

(** ** Steps that change no prefix of a node that is not locked *)

(** What such a step does to the memory, *)
Record edit_memory w w' : Prop := {
  em_word : ∀ l, word w' l = word w l;
  em_retired : retired w'.1 = retired w.1;
  em_next : next_addr w'.1 = next_addr w.1;
  em_contents : ∀ a, contents_at w'.1 a = contents_at w.1 a ∨
    owner w.2 !! NodeLock a = Some i ∧ ∃ n n', inode_at w.1 a = Some n ∧ inode_at w'.1 a = Some n' ∧ type n' = type n ∧ node_wf n';
  em_root : owner w.2 !! RootLock = Some i ∨ root w'.1 = root w.1;
}.

(** and to the tree. *)
Record edit_ghost w w' : Prop := {
  eg_clock : clock w'.2 = clock w.2 + 1;
  eg_owner : ∀ l, owner w'.2 !! l = owner w.2 !! l ∨
    owner w.2 !! l = Some i ∧ owner w'.2 !! l = None ∧ ∃ a, l = NodeLock a ∧ a ∈ retired w.1 ∧ ¬ in_tree w' a;
  eg_private : ∀ a, private w'.2 !! a = private w.2 !! a ∨
    private w.2 !! a = Some i ∧ private w'.2 !! a = None ∧ in_tree w' a;
  eg_pend : ∀ l, pend w'.2 !! l = pend w.2 !! l ∨ owner w.2 !! l = Some i;
  eg_pend_owner : ∀ l, is_Some (pend w'.2 !! l) → is_Some (owner w'.2 !! l);
  eg_uncut : ∀ a x q t l, pend w'.2 !! NodeLock a = Some (Uncut x) → owner w.2 !! NodeLock a = Some i →
    tree w'.2 !! q = Some (PInode a t) → parent_lock w' q l → owner w'.2 !! l = owner w'.2 !! NodeLock a;
  eg_pend_root : owner w.2 !! RootLock = Some i → is_Some (pend w'.2 !! RootLock) → root w'.1 ≠ PNull ∧ logical_root w' ≠ PNull;
  eg_tree : tree_ok (logical w') (tree w'.2) (logical_root w') (gbindings w'.2);
  eg_old : ∀ q p, tree w'.2 !! q = Some p → (∃ q0, tree w.2 !! q0 = Some p) ∨
    ∃ a, ptr_addr p = Some a ∧ private w.2 !! a = Some i ∧ private w'.2 !! a = None ∧ valid_ptr w' p;
  eg_kept : ∀ q p a, tree w.2 !! q = Some p → ptr_addr p = Some a → owner w.2 !! NodeLock a ≠ Some i →
    tree w'.2 !! q = Some p ∨ ∃ (l : basic_leaf) q', p = PLeaf a l ∧ tree w'.2 !! q' = Some p ∧ q' `prefix_of` q ∧
      ∀ lp, parent_lock w q lp → owner w.2 !! lp = Some i;
  eg_lost : ∀ q p a, tree w.2 !! q = Some p → ptr_addr p = Some a → owner w.2 !! NodeLock a = Some i →
    in_tree w' a ∨ word w (NodeLock a) = Some 1;
  eg_calls : ∀ j, j ≠ i → gcalls w'.2 !! j = gcalls w.2 !! j;
}.

Lemma edit_of w w' : inv w → edit_memory w w' → edit_ghost w w' → edit false w w'.
Proof.
  intros Hi Hm Hg. split; try by apply Hm. all: try by apply Hg.
  - intros a. destruct (em_contents _ _ Hm a) as [?|(Ho & n & n' & ? & ? & ? & ?)]; [by left|right].
    exists n, n'. split_and!; try done; [|by left]. by destruct (i_owner _ Hi _ _ Ho).
  - destruct (em_root _ _ Hm) as [?|Hr]; [by left|]. destruct (eg_pend _ _ Hg RootLock) as [Hp|?]; [right|by left].
    split; [done|]. rewrite (t_root _ _ _ _ (eg_tree _ _ Hg)), (t_root _ _ _ _ (i_tree _ Hi)).
    unfold logical_root. by rewrite Hp, Hr.
  - destruct (decide (owner w.2 !! RootLock = Some i)) as [Ho|Ho]; [by apply (eg_pend_root _ _ Hg)|].
    destruct (em_root _ _ Hm) as [?|Hr]; [done|]. destruct (eg_pend _ _ Hg RootLock) as [Hp|?]; [|done].
    unfold logical_root. rewrite Hp, Hr. apply (i_pend_root _ Hi).
  - intros q p a Hq Ha Ho. destruct (eg_kept _ _ Hg q p a Hq Ha Ho) as [Hq'|(l & q' & -> & Hq' & Hpre & Hpar)].
    + exists q. split_and!; [done..|]. intros n Hn. exists n. split_and!; try done.
      destruct (em_contents _ _ Hm a) as [Hc|(? & _)]; [|done]. apply inode_at_contents. apply inode_at_contents in Hn. congruence.
    + exists q'. split_and!; [done..| |].
      * intros lp Hlp Hno. by destruct Hno, (Hpar lp).
      * intros n Hn%inode_at_contents. pose proof (i_valid _ Hi _ _ Hq) as [_ Hv]. congruence.
Qed.
End edit.
