(* ===== verification/OlcChanges.v ===== *)
(** The steps by which an operation changes the tree: each is a change of the
    tree in the sense of [OlcSurgery], and an edit in that of [OlcEdit]. *)

From S2P Require Import Prelude Words Threads ArtKey KeyPrefix SortedAssoc Simd InodeBase.
From S2P Require Import Heap Leaf InodeSpec Inode Db DbTrace OptimisticLock OlcState Olc OlcSystem OlcLogic OlcTree OlcSurgery OlcInv OlcFacts OlcSteps OlcEdit.

Section changes.
Context `{Target} (i : nat).
Implicit Types (w : gworld) (n : inode olc_ptr).

(** ** Memory *)

Lemma memory_set_inode w g a n n' : inode_at w.1 a = Some n → owner w.2 !! NodeLock a = Some i → type n' = type n → node_wf n' →
  edit_memory i w (set_inode a n' w.1, g).
Proof.
  intros Hn Ho Ht Hw. apply inode_at_contents in Hn as Hc. split; try done.
  - intros l. unfold word. cbn [fst]. apply lock_word_set_inode.
  - intros b. cbn [fst]. rewrite contents_set_inode, Hc. case_decide as Hd; [right|by left]. subst. split; [done|].
    exists n, n'. split_and!; try done. rewrite (inode_set_inode _ _ _ _ _ Hc). by rewrite decide_True.
  - by right.
Qed.

Definition store (r : slot_ref) (p : olc_ptr) (s : shared) : shared :=
  match r with
  | RootSlot => Shared (root_pointer_lock s) p (nodes s) (next_addr s) (retired s)
  | ChildSlot a j => match inode_at s a with Some n => set_inode a (slot_store n j p) s | None => s end
  end.

(** What the place of a child that is there has. *)
Lemma edge_child w a s p c : inv w → edge_at (ChildSlot a s) p c w →
  ∃ q t n b j, tree w.2 !! q = Some (PInode a t) ∧ inode_at w.1 a = Some n ∧ c = full q n ++ [b] ∧
    find_child n b = (j, Some s) ∧ assoc b (entries n) = Some p ∧ node_wf n ∧ is_byte b ∧ slot_load n s = Some p ∧
    child_at n j b p.
Proof.
  intros Hi (Hpend & q & t & n & b & j & Hq & Hn & Hc & Hf & Ha).
  destruct (t_inode _ _ _ _ (i_tree _ Hi) q a t n Hq (logical_inode _ _ _ Hn Hpend)) as (Hw & _ & _).
  assert (Hb : is_byte b).
  { pose proof (wf_bytes n Hw) as Hb. rewrite Forall_forall in Hb.
    apply assoc_elem in Ha; [|by apply wf_sorted]. by apply (Hb _ Ha). }
  pose proof (find_child_spec n b Hw Hb) as Hfs. change (InodeSpec.find_child n b) with (find_child n b) in Hfs.
  rewrite Ha, Hf in Hfs. destruct Hfs as (j' & s' & [= <- <-] & Hat & Hl).
  exists q, t, n, b, j. split_and!; done.
Qed.

Lemma store_stored w a s p c x : inv w → edge_at (ChildSlot a s) p c w → x ≠ PNull →
  ∃ n b, inode_at w.1 a = Some n ∧ node_wf (slot_store n s x) ∧ entries (slot_store n s x) = ins b x (entries n) ∧
    get_key_prefix (slot_store n s x) = get_key_prefix n ∧ type (slot_store n s x) = type n ∧ ∃ q, c = full q n ++ [b] ∧ ∃ t, tree w.2 !! q = Some (PInode a t).
Proof.
  intros Hi He Hx. destruct (edge_child w a s p c Hi He) as (q & t & n & b & j & Hq & Hn & -> & Hf & Ha & Hw & Hb & Hl & _).
  destruct (slot_store_spec n b j s x Hw Hb Hf) as (Hw' & He' & _); [by destruct x|].
  exists n, b. split_and!; try done; [apply get_key_prefix_slot_store|apply type_slot_store|]. exists q. split; [done|by exists t].
Qed.

Lemma memory_store w g r old c p : inv w → edge_at r old c w → owner w.2 !! slot_lock r = Some i → (p = PNull → r = RootSlot) →
  edit_memory i w (store r p w.1, g).
Proof.
  intros Hi He Ho Hp. destruct r as [|a s]; simpl in Ho.
  - split; try done; [by left|by left].
  - destruct (store_stored w a s old c p Hi He) as (n & b & Hn & Hw & _ & _ & Ht & _); [intros ->; by specialize (Hp eq_refl)|].
    cbn [store]. rewrite Hn. by eapply memory_set_inode.
Qed.

Lemma contents_store r p (s : shared) a : slot_lock r ≠ NodeLock a → contents_at (store r p s) a = contents_at s a.
Proof.
  destruct r as [|b j]; [done|]. simpl. intros Hne. destruct (inode_at s b) eqn:Hb; [|done].
  rewrite contents_set_inode. rewrite decide_False; [done|]. by intros ->.
Qed.

Lemma perform_store w r old c p av : inv w → edge_at r old c w → perform av (StoreSlot r p) w.1 = Some (tt, store r p w.1).
Proof.
  intros Hi He. destruct r as [|a s]; [done|].
  destruct (edge_child w a s old c Hi He) as (q & t & n & b & j & Hq & Hn & -> & Hf & Ha & Hw & Hb & Hl & _).
  unfold perform, on_inode, store. rewrite Hn. cbn [mbind option_bind]. by rewrite Hl.
Qed.

(** The logical tree after such a store. *)
Lemma logical_same w w' a : contents_at w'.1 a = contents_at w.1 a → pend w'.2 !! NodeLock a = pend w.2 !! NodeLock a →
  logical w' a = logical w a.
Proof. unfold logical. by intros -> ->. Qed.

Lemma logical_root_same w w' : root w'.1 = root w.1 → pend w'.2 !! RootLock = pend w.2 !! RootLock →
  logical_root w' = logical_root w.
Proof. unfold logical_root. by intros -> ->. Qed.

(** The place [r] has [p] in the tree after a step. *)
Definition placed w w' (r : slot_ref) (p : olc_ptr) : Prop :=
  match r with
  | RootSlot => logical_root w' = p
  | ChildSlot x s => logical_root w' = logical_root w ∧
      ∀ n, inode_at w.1 x = Some n → logical w' x = Some (InodeC (slot_store n s p))
  end.

Lemma store_placed w w' r old c p : inv w → edge_at r old c w →
  w'.1 = store r p w.1 → pend w'.2 !! slot_lock r = None →
  (r ≠ RootSlot → pend w'.2 !! RootLock = pend w.2 !! RootLock) → placed w w' r p.
Proof.
  intros Hi He Hw' Hpend Hroot. destruct r as [|x s]; simpl in Hpend |- *.
  - unfold logical_root. by rewrite Hpend, Hw'.
  - destruct (edge_child w x s old c Hi He) as (q & t & n & b & j & _ & Hn & _). cbn [store] in Hw'. rewrite Hn in Hw'. split.
    + apply logical_root_same; [by rewrite Hw'|by apply Hroot].
    + intros n0 Hn0. rewrite Hn in Hn0. injection Hn0 as <-. apply logical_inode; [|done]. rewrite Hw'.
      apply inode_at_contents in Hn. rewrite (inode_set_inode _ _ _ _ _ Hn). by rewrite decide_True.
Qed.

Lemma placed_swapped (X : addr → Prop) w w' r old c p : inv w → edge_at r old c w → p ≠ PNull → placed w w' r p →
  (∀ y, ¬ X y → slot_lock r ≠ NodeLock y → logical w' y = logical w y) →
  swapped (logical w) (tree w.2) (logical_root w) X c p (logical w') (logical_root w').
Proof.
  intros Hi He Hp Hpl Hrest. destruct r as [|x s].
  - left. destruct He as (_ & -> & _). split; [done|]. split; [done|]. intros y Hy. by apply Hrest.
  - right. pose proof He as (Hpd & _). destruct Hpl as [Hroot Hpl]. split; [done|].
    destruct (store_stored w x s old c p Hi He Hp) as (n & b & Hn & Hw & Hen & Hpre & _ & q & -> & t & Hq).
    exists q, x, t, n, (slot_store n s p), b. split_and!; try done.
    + by apply logical_inode.
    + by apply Hpl.
    + intros y Hyx Hy. apply Hrest; [done|]. by intros [= ->].
Qed.

(** Of the other nodes the tree has what it had. *)
Lemma logical_store w r p g y : slot_lock r ≠ NodeLock y → pend g !! NodeLock y = pend w.2 !! NodeLock y →
  logical (store r p w.1, g) y = logical w y.
Proof. intros Hne Hp. apply logical_same; [|done]. by apply contents_store. Qed.

(** ** The thread's own nodes *)

Lemma private_fresh w a : inv w → private w.2 !! a = Some i → fresh_in (tree w.2) a.
Proof. intros Hi Ha q p Hq Hp. destruct (i_private _ Hi a i Ha) as (_ & Hn & _). apply Hn. by exists q, p. Qed.

Lemma private_logical w w' a c : inv w → mine i a c w → contents_at w'.1 a = contents_at w.1 a →
  (pend w'.2 !! NodeLock a = pend w.2 !! NodeLock a ∨ owner w.2 !! NodeLock a = Some i) → logical w' a = Some c.
Proof.
  intros Hi [Hp Hc] Hcc Hpend. destruct (i_private _ Hi a i Hp) as (Ho & _). unfold logical. rewrite Hcc, Hc.
  destruct c as [l|n]; [done|]. destruct Hpend as [->|Ho']; [|congruence].
  destruct (pend w.2 !! NodeLock a) eqn:Hd; [|done]. apply (i_pend _ Hi) in Hd. rewrite Ho in Hd. by destruct Hd.
Qed.

Lemma owned_in_tree w a q p : inv w → tree w.2 !! q = Some p → ptr_addr p = Some a → private w.2 !! a = None.
Proof. intros Hi Hq Hp. by destruct (valid_contents _ _ _ (i_valid _ Hi _ _ Hq) Hp) as (? & _). Qed.

Lemma private_delete w a b :
  private w.2 !! a = Some i → (delete a (private w.2) !! b = private w.2 !! b ∨
    private w.2 !! b = Some i ∧ delete a (private w.2) !! b = None ∧ b = a).
Proof.
  intros Ha. destruct (decide (b = a)) as [->|Hne]; [right|left; by rewrite lookup_delete_ne].
  by rewrite lookup_delete_eq.
Qed.

Definition changed (T : gmap (list Z) olc_ptr) (o : gmap lock_ref nat) (p : gmap addr nat) (d : gmap lock_ref delayed)
    (b : gmap (list Z) (list Z)) (c : call_state * list answer) (g : ghost) : ghost :=
  Ghost T o p d b (<[i := c]> (gcalls g)) (clock g + 1).

(** No prefix is cut of which the tree does not know. *)
Definition tidy w : Prop := ∀ a x, owner w.2 !! NodeLock a = Some i → pend w.2 !! NodeLock a ≠ Some (Uncut x).

(** The parts of the world after a step. *)
Ltac seen := cbn [fst snd changed tree owner private pend gbindings gcalls clock] in *.

(** ** The first leaf *)

Lemma change_first w la l k v c :
  inv w → tidy w → edge_at RootSlot PNull [] w → owner w.2 !! RootLock = Some i → mine i la (LeafC l) w →
  leaf_holds l k v → length k = 8%nat →
  gbindings w.2 !! k = None ∧
  edit i false w (store RootSlot (PLeaf la l) w.1,
    changed {[ [] := PLeaf la l ]} (owner w.2) (delete la (private w.2)) (pend w.2) (<[k := v]> (gbindings w.2)) c w.2).
Proof.
  intros Hi Htidy He Ho Hm Hl Hk. destruct He as (Hpend & _ & Hroot).
  assert (Hrt : logical_root w = PNull) by (unfold logical_root; by rewrite Hpend).
  destruct (tree_empty _ _ _ _ (i_tree _ Hi) Hrt) as [HT _].
  set (w' := (_, _)).
  destruct (tree_first _ _ _ _ (i_tree _ Hi) (logical w') la l k v Hrt) as [Hnone Hok]; [|done..|].
  { apply (private_logical w); [done..|by left]. }
  split; [done|]. apply edit_of; [done|by apply (memory_store w _ RootSlot PNull [])|]. subst w'. split; seen; try done.
  - by left.
  - intros a. destruct (private_delete w la a (proj1 Hm)) as [?|(? & ? & ->)]; [by left|right].
    split_and!; [done..|]. exists [], (PLeaf la l). done.
  - by left.
  - intros l' [d Hd]. by apply (i_pend _ Hi) in Hd.
  - intros a0 x0 q0 t0 l0 Hd0 Ho0. by destruct (Htidy a0 x0 Ho0).
  - intros _ [d Hd]. simpl in Hd. congruence.
  - unfold logical_root. simpl. by rewrite Hpend.
  - intros q p [<- <-]%lookup_singleton_Some. right. exists la. destruct Hm as [Hp Hc]. split_and!; [done..| |].
    + apply lookup_delete_eq.
    + split; [apply lookup_delete_eq|done].
  - intros q p a Hq. by rewrite HT in Hq.
  - intros q p a Hq. by rewrite HT in Hq.
  - intros j Hj. simpl. by apply list_lookup_insert_ne.
Qed.

(** ** The last leaf *)

Lemma change_last w a l k v c :
  inv w → tidy w → edge_at RootSlot (PLeaf a l) [] w → owner w.2 !! RootLock = Some i → owner w.2 !! NodeLock a = Some i →
  word w (NodeLock a) = Some 1 → leaf_holds l k v →
  edit i false w (store RootSlot PNull w.1,
    changed ∅ (owner w.2) (private w.2) (pend w.2) (delete k (gbindings w.2)) c w.2).
Proof.
  intros Hi Htidy He Ho Hoa Hw Hl. pose proof He as (Hpend & _ & Hroot).
  assert (Hrt : logical_root w = PLeaf a l) by (unfold logical_root; by rewrite Hpend).
  destruct (tree_last _ _ _ _ (i_tree _ Hi) a l k v Hrt Hl) as [HT Hok].
  apply edit_of; [done|by apply (memory_store w _ RootSlot (PLeaf a l) [])|]. split; seen; try done.
  - by left.
  - by left.
  - by left.
  - intros l' [d Hd]. by apply (i_pend _ Hi) in Hd.
  - intros _ [d Hd]. simpl in Hd. congruence.
  - unfold logical_root. simpl. rewrite Hpend. eapply tree_ok_ext; [|exact Hok]. by intros q p b Hq.
  - intros q p b Hq Hp Hn. rewrite HT in Hq. apply lookup_singleton_Some in Hq as [<- <-]. simpl in Hp. congruence.
  - intros q p b Hq Hp _. rewrite HT in Hq. apply lookup_singleton_Some in Hq as [<- <-]. right. simpl in Hp. congruence.
  - intros j Hj. simpl. by apply list_lookup_insert_ne.
Qed.

(** ** A leaf more, or less, in a node *)

Lemma logical_set_inode w g a n n' : inode_at w.1 a = Some n → pend g !! NodeLock a = None →
  logical (set_inode a n' w.1, g) a = Some (InodeC n').
Proof.
  intros Hn%inode_at_contents Hp. apply logical_inode; [|done]. cbn [fst].
  rewrite (inode_set_inode _ _ _ _ _ Hn). by rewrite decide_True.
Qed.

Lemma logical_set_other w g a n' b : b ≠ a → pend g !! NodeLock b = pend w.2 !! NodeLock b →
  logical (set_inode a n' w.1, g) b = logical w b.
Proof. intros Hne Hp. apply logical_same; [|done]. cbn [fst]. rewrite contents_set_inode. by rewrite decide_False. Qed.

Lemma change_add w q a t n n' b la l k v c :
  inv w → tidy w → tree w.2 !! q = Some (PInode a t) → inode_at w.1 a = Some n → pend w.2 !! NodeLock a = None →
  owner w.2 !! NodeLock a = Some i → mine i la (LeafC l) w → node_wf n' → type n' = type n →
  get_key_prefix n' = get_key_prefix n → entries n' = ins b (PLeaf la l) (entries n) → assoc b (entries n) = None →
  leaf_holds l k v → length k = 8%nat → full q n ++ [b] `prefix_of` k →
  gbindings w.2 !! k = None ∧
  edit i false w (set_inode a n' w.1, changed (<[full q n ++ [b] := PLeaf la l]> (tree w.2)) (owner w.2)
    (delete la (private w.2)) (pend w.2) (<[k := v]> (gbindings w.2)) c w.2).
Proof.
  intros Hi Htidy Hq Hn Hpend Ho Hm Hw Ht Hpre He Hb Hl Hk Hpk.
  assert (Hne : la ≠ a). { intros ->. pose proof (owned_in_tree _ _ _ _ Hi Hq eq_refl). destruct Hm. congruence. }
  pose proof (logical_inode _ _ _ Hn Hpend) as Hln. set (w' := (_, _)).
  destruct (tree_add _ _ _ _ (i_tree _ Hi) q a t n n' (logical w') la l b k v) as [Hnone Hok]; try done.
  { by apply private_fresh; destruct Hm. }
  { by apply (logical_set_inode w _ a n). }
  { unfold w'. rewrite logical_set_other by done. apply (private_logical w); [done..|by left]. }
  { intros y Hy _. by apply logical_set_other. }
  split; [done|]. assert (Hempty : tree w.2 !! (full q n ++ [b]) = None).
  { rewrite <- Hb. symmetry. by apply (child_of _ _ _ _ (i_tree _ Hi) q a t n b). }
  apply edit_of; [done|by eapply memory_set_inode|]. subst w'. split; seen; try done.
  - by left.
  - intros a0. destruct (private_delete w la a0 (proj1 Hm)) as [?|(? & ? & ->)]; [by left|right].
    split_and!; [done..|]. exists (full q n ++ [b]), (PLeaf la l). seen. split; [apply lookup_insert_eq|done].
  - by left.
  - intros l' [d Hd]. by apply (i_pend _ Hi) in Hd.
  - intros a0 x0 q0 t0 l0 Hd0 Ho0. by destruct (Htidy a0 x0 Ho0).
  - intros _. apply (i_pend_root _ Hi).
  - intros q1 p [[<- <-]|[_ Hq1]]%lookup_insert_Some; [right|left; by exists q1]. exists la. destruct Hm as [Hp Hc].
    split_and!; [done..|apply lookup_delete_eq|]. split; [apply lookup_delete_eq|]. seen. rewrite contents_set_inode.
    by rewrite decide_False.
  - intros q1 p a1 Hq1 _ _. left. rewrite lookup_insert_ne; [done|congruence].
  - intros q1 p a1 Hq1 Hp1 _. left. exists q1, p. seen. rewrite lookup_insert_ne; [done|congruence].
  - intros j Hj. by apply list_lookup_insert_ne.
Qed.

Lemma change_remove w q a t n n' b la l k v c :
  inv w → tidy w → tree w.2 !! q = Some (PInode a t) → inode_at w.1 a = Some n → pend w.2 !! NodeLock a = None →
  owner w.2 !! NodeLock a = Some i → owner w.2 !! NodeLock la = Some i → word w (NodeLock la) = Some 1 →
  node_wf n' → type n' = type n → get_key_prefix n' = get_key_prefix n → entries n' = del b (entries n) →
  assoc b (entries n) = Some (PLeaf la l) → leaf_holds l k v →
  edit i false w (set_inode a n' w.1, changed (delete (full q n ++ [b]) (tree w.2)) (owner w.2)
    (private w.2) (pend w.2) (delete k (gbindings w.2)) c w.2).
Proof.
  intros Hi Htidy Hq Hn Hpend Ho Hol Hwl Hw Ht Hpre He Hb Hl.
  pose proof (logical_inode _ _ _ Hn Hpend) as Hln. set (w' := (_, _)).
  pose proof (tree_remove _ _ _ _ (i_tree _ Hi) q a t n n' (logical w') la l b k v Hq Hln) as Hok.
  assert (Hold : tree w.2 !! (full q n ++ [b]) = Some (PLeaf la l)).
  { rewrite <- Hb. symmetry. by apply (child_of _ _ _ _ (i_tree _ Hi) q a t n b). }
  apply edit_of; [done|by eapply memory_set_inode|]. subst w'. split; seen; try done.
  - by left.
  - by left.
  - by left.
  - intros l' [d Hd]. by apply (i_pend _ Hi) in Hd.
  - intros a0 x0 q0 t0 l0 Hd0 Ho0. by destruct (Htidy a0 x0 Ho0).
  - intros _. apply (i_pend_root _ Hi).
  - apply Hok; try done; [by apply (logical_set_inode w _ a n)|]. intros y Hy. by apply logical_set_other.
  - intros q1 p [_ Hq1]%lookup_delete_Some. left. by exists q1.
  - intros q1 p a1 Hq1 Hp1 Hno. left. rewrite lookup_delete_ne; [done|]. intros <-. rewrite Hold in Hq1.
    injection Hq1 as <-. simpl in Hp1. congruence.
  - intros q1 p a1 Hq1 Hp1 _. destruct (decide (q1 = full q n ++ [b])) as [->|Hne].
    + right. rewrite Hold in Hq1. injection Hq1 as <-. simpl in Hp1. congruence.
    + left. exists q1, p. seen. by rewrite lookup_delete_ne.
  - intros j Hj. by apply list_lookup_insert_ne.
Qed.

(** ** Changes that the tree and the memory do not share *)

(** The prefix of a locked node is cut; for the tree it is still there. *)
Lemma set_prefix_back (x : key_prefix) n : set_key_prefix (get_key_prefix n) (set_key_prefix x n) = n.
Proof. rewrite <- (set_prefix_get n) at 3. by destruct n. Qed.

Lemma change_prefix w r q a t n x :
  inv w → tidy w → edge_at r (PInode a t) q w → owner w.2 !! slot_lock r = Some i → inode_at w.1 a = Some n → pend w.2 !! NodeLock a = None →
  owner w.2 !! NodeLock a = Some i → prefix_wf x →
  edit i false w (set_inode a (set_key_prefix x n) w.1,
    Ghost (tree w.2) (owner w.2) (private w.2) (<[NodeLock a := Uncut (get_key_prefix n)]> (pend w.2))
      (gbindings w.2) (gcalls w.2) (clock w.2 + 1)).
Proof.
  intros Hi Htidy He Hor Hn Hpend Ho Hx. pose proof (edge_in_tree _ _ _ _ Hi He ltac:(done)) as Hq. pose proof (owned_in_tree _ _ _ _ Hi Hq eq_refl) as Hpr.
  apply edit_of; [done|eapply memory_set_inode; try done|].
  { by destruct n. }
  { destruct (set_prefix_spec n x (i_wf _ Hi a n Hn Hpr) Hx) as (Hw & _). exact Hw. }
  assert (Hlog : ∀ y, logical (set_inode a (set_key_prefix x n) w.1, Ghost (tree w.2) (owner w.2) (private w.2)
    (<[NodeLock a := Uncut (get_key_prefix n)]> (pend w.2)) (gbindings w.2) (gcalls w.2) (clock w.2 + 1)) y = logical w y).
  { intros y. destruct (decide (y = a)) as [->|Hne].
    + unfold logical at 1. cbn [fst snd pend]. rewrite lookup_insert_eq, contents_set_inode, decide_True by done.
      apply inode_at_contents in Hn as Hc. rewrite Hc. cbn [fmap option_fmap option_map with_delayed].
      rewrite set_prefix_back. unfold logical. by rewrite Hc, Hpend.
    + apply logical_set_other; [done|]. cbn [pend]. rewrite lookup_insert_ne; [done|]. by intros [= ->]. }
  split; seen; try done.
  - by left.
  - by left.
  - intros l. destruct (decide (l = NodeLock a)) as [->|Hne]; [by right|left; by rewrite lookup_insert_ne].
  - intros l [d Hd]. apply lookup_insert_Some in Hd as [[<- _]|[_ Hd]]; [by rewrite Ho|]. by apply (i_pend _ Hi) in Hd.
  - intros a1 x1 q1 t1 l1 [[[= <-] _]|[Hne1 Hd1]]%lookup_insert_Some Ho1 Hq1 Hl1; [|by destruct (Htidy a1 x1 Ho1)].
    rewrite Ho, <- Hor. f_equal. rewrite (t_inj _ _ _ _ (i_tree _ Hi) _ _ _ _ Hq1 Hq eq_refl) in Hl1.
    apply (parent_unique w q); [done| |by apply (edge_parent w r (PInode a t))].
    destruct Hl1 as [?|(q2 & z & t2 & n2 & b2 & ? & Hn2 & ?)]; [by left|right]. rewrite Hlog in Hn2. by exists q2, z, t2, n2, b2.
  - intros _. rewrite lookup_insert_ne by done. intros Hr. destruct (i_pend_root _ Hi Hr) as [H1 H2]. split; [done|].
    unfold logical_root in *. seen. by rewrite lookup_insert_ne.
  - unfold logical_root. seen. rewrite lookup_insert_ne by done. eapply tree_ok_ext; [|exact (i_tree _ Hi)].
    intros; apply Hlog.
  - intros q1 p Hq1. left. by exists q1.
  - intros q1 p a1 Hq1 _ _. by left.
  - intros q1 p a1 Hq1 Hp1 _. left. by exists q1, p.
Qed.

(** What is about to be stored is stored. *)
Definition pending (r : slot_ref) (p : olc_ptr) : gworld → Prop := λ w,
  p ≠ PNull ∧
  match r with
  | RootSlot => ∃ s, pend w.2 !! RootLock = Some (Stored s p)
  | ChildSlot a s => pend w.2 !! NodeLock a = Some (Stored s p) ∧
      ∃ n q t, inode_at w.1 a = Some n ∧ is_Some (slot_load n s) ∧ tree w.2 !! q = Some (PInode a t)
  end.

Lemma perform_pending w r p av : pending r p w → perform av (StoreSlot r p) w.1 = Some (tt, store r p w.1).
Proof.
  intros [Hp Hr]. destruct r as [|a s]; [done|]. destruct Hr as (_ & n & q & t & Hn & [old Hl] & _).
  unfold perform, on_inode, store. rewrite Hn. cbn [mbind option_bind]. by rewrite Hl.
Qed.

Lemma change_stored w r p :
  inv w → tidy w → pending r p w → owner w.2 !! slot_lock r = Some i →
  edit i false w (store r p w.1,
    Ghost (tree w.2) (owner w.2) (private w.2) (delete (slot_lock r) (pend w.2)) (gbindings w.2) (gcalls w.2) (clock w.2 + 1)).
Proof.
  intros Hi Htidy [Hp Hr] Ho.
  assert (Hlog : ∀ y, logical (store r p w.1, Ghost (tree w.2) (owner w.2) (private w.2) (delete (slot_lock r) (pend w.2))
    (gbindings w.2) (gcalls w.2) (clock w.2 + 1)) y = logical w y).
  { intros y. destruct (decide (slot_lock r = NodeLock y)) as [Heq|Hne].
    - destruct r as [|a s]; [done|]. injection Heq as ->. destruct Hr as (Hpend & n & _ & _ & Hn & _). cbn [store]. rewrite Hn.
      rewrite (logical_set_inode _ _ _ n) by (try done; apply lookup_delete_eq).
      unfold logical. apply inode_at_contents in Hn. by rewrite Hn, Hpend.
    - apply logical_store; [done|]. cbn [pend]. by rewrite lookup_delete_ne. }
  apply edit_of; [done| |].
  { destruct r as [|a s]; simpl in Ho; [split; try done; by left|].
    destruct Hr as (Hpend & n & q & t & Hn & _ & Hq). cbn [store]. rewrite Hn.
    eapply memory_set_inode; try done; [apply type_slot_store|].
    assert (Hl : logical w a = Some (InodeC (slot_store n s p))).
    { unfold logical. apply inode_at_contents in Hn. by rewrite Hn, Hpend. }
    by destruct (t_inode _ _ _ _ (i_tree _ Hi) q a t _ Hq Hl). }
  split; seen; try done.
  - by left.
  - by left.
  - intros l. destruct (decide (l = slot_lock r)) as [->|Hne]; [by right|left; by rewrite lookup_delete_ne].
  - intros l [d Hd]. apply lookup_delete_Some in Hd as [_ Hd]. by apply (i_pend _ Hi) in Hd.
  - intros a0 x0 q0 t0 l0 [_ Hd0]%lookup_delete_Some Ho0. by destruct (Htidy a0 x0 Ho0).
  - intros _ Hs. destruct r as [|a s]; [rewrite lookup_delete_eq in Hs; by destruct Hs|].
    cbn [slot_lock] in *. rewrite lookup_delete_ne in Hs by done. destruct (i_pend_root _ Hi Hs) as [H1 H2].
    destruct Hr as (_ & n & _ & _ & Hn & _). cbn [store]. rewrite Hn. split; [done|].
    unfold logical_root in *. seen. by rewrite lookup_delete_ne.
  - replace (logical_root _) with (logical_root w); [eapply tree_ok_ext; [|exact (i_tree _ Hi)]; by intros|].
    unfold logical_root. seen. destruct r as [|a s]; cbn [slot_lock].
    + rewrite lookup_delete_eq. destruct Hr as [s ->]. done.
    + rewrite lookup_delete_ne by done. destruct Hr as (_ & n & _ & _ & Hn & _). cbn [store]. by rewrite Hn.
  - intros q1 p1 Hq1. left. by exists q1.
  - intros q1 p1 a1 Hq1 _ _. by left.
  - intros q1 p1 a1 Hq1 Hp1 _. left. by exists q1, p1.
Qed.

(** ** A new node in the place of another one *)

Lemma edge_not_self w r p c a : inv w → edge_at r p c w → ptr_addr p = Some a → slot_lock r ≠ NodeLock a.
Proof.
  intros Hi He Hp. pose proof (edge_in_tree _ _ _ _ Hi He ltac:(by intros ->)) as Hc.
  destruct r as [|x s]; [done|]. intros [= ->]. destruct He as (_ & q & t & n & b & j & Hq & _ & -> & _).
  pose proof (t_inj _ _ _ _ (i_tree _ Hi) _ _ _ _ Hq Hc (eq_sym Hp)) as Heq. by apply (full_longer q n b).
Qed.

Lemma pend_root_store w r p old c g : inv w → edge_at r old c w → pend g !! RootLock = pend w.2 !! RootLock →
  is_Some (pend g !! RootLock) → root (store r p w.1) ≠ PNull ∧ logical_root (store r p w.1, g) ≠ PNull.
Proof.
  intros Hi He Hg Hs. rewrite Hg in Hs. destruct r as [|x s].
  - destruct He as (Hn & _). rewrite Hn in Hs. by destruct Hs.
  - destruct (edge_child w x s old c Hi He) as (q & t & n & b & j & _ & Hn & _). cbn [store]. rewrite Hn.
    destruct (i_pend_root _ Hi Hs) as [H1 H2]. split; [done|]. unfold logical_root in *. cbn [fst snd]. by rewrite Hg.
Qed.

Lemma owner_pend_delete w a l : inv w → owner w.2 !! NodeLock a = Some i →
  (delete (NodeLock a) (pend w.2) !! l = pend w.2 !! l ∨ owner w.2 !! l = Some i) ∧
  (is_Some (delete (NodeLock a) (pend w.2) !! l) → is_Some (owner w.2 !! l)).
Proof.
  intros Hi Ho. split.
  - destruct (decide (l = NodeLock a)) as [->|Hne]; [by right|left; by rewrite lookup_delete_ne].
  - intros [d Hd]. apply lookup_delete_Some in Hd as [_ Hd]. by apply (i_pend _ Hi) in Hd.
Qed.

Lemma private_delete2 w a b x : private w.2 !! a = Some i → private w.2 !! b = Some i →
  (delete a (delete b (private w.2)) !! x = private w.2 !! x ∨
    private w.2 !! x = Some i ∧ delete a (delete b (private w.2)) !! x = None ∧ (x = a ∨ x = b)).
Proof.
  intros Ha Hb. destruct (decide (x = a)) as [->|Hxa]; [right; rewrite lookup_delete_eq; by auto|].
  rewrite lookup_delete_ne by done. destruct (decide (x = b)) as [->|Hxb]; [right; rewrite lookup_delete_eq; by auto|].
  left. by rewrite lookup_delete_ne.
Qed.

Lemma change_split w r p pa q na n4 la l b1 b2 k v K c :
  inv w → (∀ a x, a ≠ pa → owner w.2 !! NodeLock a = Some i → pend w.2 !! NodeLock a ≠ Some (Uncut x)) → edge_at r p q w → ptr_addr p = Some pa → owner w.2 !! slot_lock r = Some i → owner w.2 !! NodeLock pa = Some i →
  mine i na (InodeC n4) w → mine i la (LeafC l) w → type n4 = I4 → node_wf n4 → (length (full q n4) < 8)%nat → b1 ≠ b2 →
  (∀ b, assoc b (entries n4) = if decide (b = b1) then Some p else if decide (b = b2) then Some (PLeaf la l) else None) →
  stretch (logical w) p q K → full q n4 ++ [b1] `prefix_of` K →
  match p with
  | PInode a _ => ∃ n n', logical w a = Some (InodeC n) ∧ inode_at w.1 a = Some n' ∧ node_wf n' ∧ entries n' = entries n ∧
      full (full q n4 ++ [b1]) n' = full q n
  | _ => True
  end →
  leaf_holds l k v → length k = 8%nat → full q n4 ++ [b2] `prefix_of` k →
  gbindings w.2 !! k = None ∧
  edit i false w (store r (PInode na I4) w.1,
    changed (<[q := PInode na I4]> (<[full q n4 ++ [b1] := p]> (<[full q n4 ++ [b2] := PLeaf la l]> (tree w.2))))
      (owner w.2) (delete na (delete la (private w.2))) (delete (NodeLock pa) (pend w.2)) (<[k := v]> (gbindings w.2)) c w.2).
Proof.
  intros Hi Htidy He Hpa Ho Hoa Hmn Hml Ht4 Hw4 Hl8 Hbb Hen HK HpK Hp Hl Hk Hpk.
  assert (Hpn : p ≠ PNull) by (by intros ->).
  pose proof (edge_in_tree _ _ _ _ Hi He Hpn) as Hq. pose proof (edge_not_self _ _ _ _ _ Hi He Hpa) as Hself.
  pose proof (no_position_inside _ _ _ _ (i_tree _ Hi) q p K n4 b1 Hq HK HpK) as Hfree.
  assert (Hnl : na ≠ la) by (intros ->; destruct Hmn as [_ H1], Hml as [_ H2]; congruence).
  pose proof (owned_in_tree _ _ _ _ Hi Hq Hpa) as Hpp.
  assert (Hna : na ≠ pa) by (intros ->; destruct Hmn; congruence). assert (Hla : la ≠ pa) by (intros ->; destruct Hml; congruence).
  assert (Hslot : ∀ a, private w.2 !! a = Some i → slot_lock r ≠ NodeLock a).
  { intros a Ha Heq. destruct (i_private _ Hi a i Ha) as (Hn & _). congruence. }
  set (w' := (_, _)).
  assert (Hown : ∀ a y, mine i a y w → logical w' a = Some y).
  { intros a y Hm. apply (private_logical w); [done..|apply contents_store, Hslot, Hm|]. by apply (owner_pend_delete w). }
  destruct (tree_split _ _ _ _ (i_tree _ Hi) q p na I4 n4 la l b1 b2 k v (logical w') (logical_root w') K) as [Hnone Hok]; try done.
  { apply private_fresh; [done|apply Hmn]. }
  { apply private_fresh; [done|apply Hml]. }
  { by apply Hown. }
  { by apply Hown. }
  { destruct p as [|a pl|a t]; [done|..]; injection Hpa as ->.
    - unfold logical, w'. cbn [fst]. rewrite contents_store by done.
      destruct (i_valid _ Hi _ _ Hq) as [_ Hv]. by rewrite Hv.
    - destruct Hp as (n & n' & Hn & Hn' & Hrest). exists n, n'. split_and!; try apply Hrest; try done.
      apply logical_inode; [|apply lookup_delete_eq]. apply inode_at_contents in Hn'. apply inode_at_contents. unfold w'.
      cbn [fst]. by rewrite contents_store. }
  { apply (placed_swapped _ w w' r p); try done.
    - apply (store_placed w w' r p q); try done; unfold w'; cbn [snd changed pend].
      + rewrite lookup_delete_ne by done. destruct r; apply He.
      + intros _. by rewrite lookup_delete_ne.
    - intros y Hy Hsl. apply logical_store; [done|]. cbn [pend changed]. rewrite lookup_delete_ne; [done|].
      intros [= ->]. apply Hy. tauto. }
  split; [done|]. apply edit_of; [done|by apply (memory_store w _ r p q)|]. subst w'. split; seen; try done.
  - by left.
  - intros a. destruct (private_delete2 w na la a (proj1 Hmn) (proj1 Hml)) as [?|(? & ? & Ha)]; [by left|right].
    split_and!; [done..|]. destruct Ha as [->| ->].
    + exists q, (PInode na I4). seen. by rewrite lookup_insert_eq.
    + exists (full q n4 ++ [b2]), (PLeaf la l). seen. rewrite lookup_insert_ne by (apply not_eq_sym, full_longer).
      rewrite lookup_insert_ne by (intros [_ ?]%snoc_inj; done). by rewrite lookup_insert_eq.
  - intros l'. by apply (owner_pend_delete w).
  - intros l'. by apply (owner_pend_delete w).
  - intros a0 x0 q0 t0 l0 [Hne0 Hd0]%lookup_delete_Some Ho0. destruct (Htidy a0 x0); [congruence|done..].
  - intros _ Hs. apply (pend_root_store w r _ p q); [done|done| |exact Hs]. seen. by rewrite lookup_delete_ne.
  - assert (Hpub : ∀ a y, mine i a y w → a = na ∨ a = la → delete na (delete la (private w.2)) !! a = None ∧
      contents_at (store r (PInode na I4) w.1) a = Some y).
    { intros a y Hm Ha. rewrite contents_store by apply Hslot, Hm. split; [|apply Hm].
      destruct (private_delete2 w na la a (proj1 Hmn) (proj1 Hml)) as [Heq|(_ & ? & _)]; [|done].
      destruct Ha as [->| ->]; [by rewrite lookup_delete_eq|rewrite lookup_delete_ne by done; apply lookup_delete_eq]. }
    intros q1 p1 [[<- <-]|[_ [[<- <-]|[_ [[<- <-]|[_ Hq1]]%lookup_insert_Some]]%lookup_insert_Some]]%lookup_insert_Some.
    + right. destruct (Hpub na _ Hmn (or_introl eq_refl)) as [H1 H2]. exists na. split_and!; [done|apply Hmn|done|].
      split; [done|]. exists n4. split; [by apply inode_at_contents|done].
    + left. by exists q.
    + right. destruct (Hpub la _ Hml (or_intror eq_refl)) as [H1 H2]. exists la. split_and!; [done|apply Hml|done|done].
    + left. by exists q1.
  - intros q1 p1 a1 Hq1 Ha1 Hno. left. rewrite !lookup_insert_ne; [done|..]; intros <-; [congruence..|].
    rewrite Hq in Hq1. congruence.
  - intros q1 p1 a1 Hq1 Ha1 _. left. destruct (decide (q1 = q)) as [->|Hne].
    + exists (full q n4 ++ [b1]), p1. seen. rewrite lookup_insert_ne by (apply not_eq_sym, full_longer).
      rewrite lookup_insert_eq. split; [congruence|done].
    + exists q1, p1. seen. rewrite !lookup_insert_ne; [done|congruence..].
  - intros j Hj. by apply list_lookup_insert_ne.
Qed.

(** ** A node is replaced by a larger or a smaller one *)

Lemma swapped_ext N T rt (X : addr → Prop) q p N' N'' rt' : swapped N T rt X q p N' rt' → (∀ y, ¬ X y → N'' y = N' y) →
  (∀ q0 x t, T !! q0 = Some (PInode x t) → ¬ X x) → swapped N T rt X q p N'' rt'.
Proof.
  intros [(-> & -> & HN)|(-> & q0 & x & t & n & n' & b & Hq0 & Hx & -> & Hx' & HN & Hw)] Hext HX; [left|right].
  - split_and!; [done..|]. intros y Hy. by rewrite Hext, HN.
  - split; [done|]. exists q0, x, t, n, n', b. split_and!; try done.
    + rewrite Hext; [done|by eapply HX].
    + intros y Hyx Hy. by rewrite Hext, HN.
    + by destruct Hw.
    + by destruct Hw as (_ & ? & _).
    + by destruct Hw as (_ & _ & ?).
Qed.

(** The new node takes the place of the old one, with the old contents. *)
Lemma replaced_tree w w' r a t q n na t' :
  inv w → edge_at r (PInode a t) q w → inode_at w.1 a = Some n → pend w.2 !! NodeLock a = None →
  private w.2 !! na = Some i → w'.1 = store r (PInode na t') w.1 → pend w'.2 = pend w.2 →
  tree_ok (λ y, if decide (y = na) then Some (InodeC n) else logical w' y) (<[q := PInode na t']> (tree w.2))
    (logical_root w') (gbindings w.2).
Proof.
  intros Hi He Hn Hpend Hna Hw' Hpend'. pose proof (edge_in_tree _ _ _ _ Hi He ltac:(done)) as Hq.
  pose proof (private_fresh _ _ Hi Hna) as Hfr.
  apply (tree_rename _ _ _ _ (i_tree _ Hi) q a t n na t'); try done.
  - by apply logical_inode.
  - cbn beta. by rewrite decide_True.
  - apply (swapped_ext _ _ _ _ _ _ (logical w')).
    + apply (placed_swapped _ w w' r (PInode a t)); try done.
      * apply (store_placed w w' r (PInode a t) q); try done; rewrite Hpend'; [destruct r; apply He|done].
      * intros y Hy Hsl. apply logical_same; [rewrite Hw'; by apply contents_store|by rewrite Hpend'].
    + intros y Hy. cbn beta. rewrite decide_False; [done|]. intros ->. by apply Hy.
    + intros q0 x t0 Hq0 <-. by apply (Hfr q0 _ Hq0).
Qed.

Lemma change_grow w r a t q n na t' n' la l b k v c :
  inv w → tidy w → edge_at r (PInode a t) q w → inode_at w.1 a = Some n → pend w.2 !! NodeLock a = None →
  owner w.2 !! slot_lock r = Some i → owner w.2 !! NodeLock a = Some i → word w (NodeLock a) = Some 1 → a ∈ retired w.1 →
  mine i na (InodeC n') w → mine i la (LeafC l) w → type n' = t' → node_wf n' → get_key_prefix n' = get_key_prefix n →
  entries n' = ins b (PLeaf la l) (entries n) → assoc b (entries n) = None →
  leaf_holds l k v → length k = 8%nat → full q n ++ [b] `prefix_of` k →
  gbindings w.2 !! k = None ∧
  edit i false w (store r (PInode na t') w.1,
    changed (<[full q n ++ [b] := PLeaf la l]> (<[q := PInode na t']> (tree w.2))) (delete (NodeLock a) (owner w.2))
      (delete na (delete la (private w.2))) (pend w.2) (<[k := v]> (gbindings w.2)) c w.2).
Proof.
  intros Hi Htidy He Hn Hpend Ho Hoa Hwa Hra Hmn Hml Ht' Hw' Hpre Hen Hb Hl Hk Hpk.
  pose proof (edge_in_tree _ _ _ _ Hi He ltac:(done)) as Hq. pose proof (edge_not_self _ _ _ _ _ Hi He eq_refl) as Hself.
  pose proof (owned_in_tree _ _ _ _ Hi Hq eq_refl) as Hpp.
  assert (Hnl : na ≠ la) by (intros ->; destruct Hmn as [_ H1], Hml as [_ H2]; congruence).
  assert (Hna : na ≠ a) by (intros ->; destruct Hmn; congruence). assert (Hla : la ≠ a) by (intros ->; destruct Hml; congruence).
  assert (Hslot : ∀ a, private w.2 !! a = Some i → slot_lock r ≠ NodeLock a).
  { intros a0 Ha Heq. destruct (i_private _ Hi a0 i Ha) as (Hno & _). congruence. }
  assert (Hfree : tree w.2 !! (full q n ++ [b]) = None).
  { rewrite <- Hb. symmetry. apply (child_of _ _ _ _ (i_tree _ Hi) q a t n b Hq). by apply logical_inode. }
  set (w' := (_, _)).
  assert (Hown : ∀ x y, mine i x y w → logical w' x = Some y).
  { intros x y Hm. apply (private_logical w); [done..|apply contents_store, Hslot, Hm|by left]. }
  pose proof (replaced_tree w w' r a t q n na t' Hi He Hn Hpend (proj1 Hmn) eq_refl eq_refl) as Hok1.
  destruct (tree_add _ _ _ _ Hok1 q na t' n n' (logical w') la l b k v) as [Hnone Hok]; try done.
  { apply lookup_insert_eq. }
  { by rewrite decide_True. }
  { intros q1 p1 [[<- <-]|[_ Hq1]]%lookup_insert_Some Hp1; [by injection Hp1 as ->|].
    by apply (private_fresh _ _ Hi (proj1 Hml) q1 p1). }
  { by apply Hown. }
  { by apply Hown. }
  { intros y Hy _. cbn beta. by rewrite decide_False. }
  split; [done|]. apply edit_of; [done|by apply (memory_store w _ r (PInode a t) q)|].
  assert (Hgone : ¬ in_tree w' a).
  { intros (q1 & p1 & Hq1 & Hp1). subst w'. seen.
    apply lookup_insert_Some in Hq1 as [[<- <-]|[_ [[<- <-]|[Hne Hq1]]%lookup_insert_Some]]; [simpl in Hp1; congruence..|].
    apply Hne. by apply (t_inj _ _ _ _ (i_tree _ Hi) q q1 _ p1 Hq Hq1). }
  subst w'. split; seen; try done.
  - intros l'. destruct (decide (l' = NodeLock a)) as [->|Hne]; [right|left; by rewrite lookup_delete_ne].
    split_and!; [done|by rewrite lookup_delete_eq|]. by exists a.
  - intros x. destruct (private_delete2 w na la x (proj1 Hmn) (proj1 Hml)) as [?|(? & ? & Hx)]; [by left|right].
    split_and!; [done..|]. destruct Hx as [->| ->].
    + exists q, (PInode na t'). seen. rewrite lookup_insert_ne by apply full_longer. by rewrite lookup_insert_eq.
    + exists (full q n ++ [b]), (PLeaf la l). seen. by rewrite lookup_insert_eq.
  - by left.
  - intros l' [d Hd]. destruct (decide (l' = NodeLock a)) as [->|Hne]; [congruence|]. rewrite lookup_delete_ne by done.
    by apply (i_pend _ Hi) in Hd.
  - intros a0 x0 q0 t0 l0 Hd0 Ho0. by destruct (Htidy a0 x0 Ho0).
  - intros _ Hs. by apply (pend_root_store w r _ (PInode a t) q).
  - assert (Hpub : ∀ a y, mine i a y w → a = na ∨ a = la → delete na (delete la (private w.2)) !! a = None ∧
      contents_at (store r (PInode na t') w.1) a = Some y).
    { intros x y Hm Ha. rewrite contents_store by apply Hslot, Hm. split; [|apply Hm].
      destruct Ha as [->| ->]; [by rewrite lookup_delete_eq|rewrite lookup_delete_ne by done; apply lookup_delete_eq]. }
    intros q1 p1 [[<- <-]|[_ [[<- <-]|[_ Hq1]]%lookup_insert_Some]]%lookup_insert_Some.
    + right. destruct (Hpub la _ Hml (or_intror eq_refl)) as [H1 H2]. exists la. split_and!; [done|apply Hml|done|done].
    + right. destruct (Hpub na _ Hmn (or_introl eq_refl)) as [H1 H2]. exists na. split_and!; [done|apply Hmn|done|].
      split; [done|]. exists n'. split; [by apply inode_at_contents|done].
    + left. by exists q1.
  - intros q1 p1 a1 Hq1 Ha1 Hno. left. rewrite !lookup_insert_ne; [done|..]; intros <-; [|congruence].
    rewrite Hq in Hq1. injection Hq1 as <-. simpl in Ha1. congruence.
  - intros q1 p1 a1 Hq1 Ha1 _. destruct (decide (q1 = q)) as [->|Hne].
    + right. rewrite Hq in Hq1. injection Hq1 as <-. simpl in Ha1. congruence.
    + left. exists q1, p1. seen. rewrite !lookup_insert_ne; [done|congruence..].
  - intros j Hj. by apply list_lookup_insert_ne.
Qed.

Lemma change_shrink w r a t q n na t' n' la l b k v c :
  inv w → tidy w → edge_at r (PInode a t) q w → inode_at w.1 a = Some n → pend w.2 !! NodeLock a = None →
  owner w.2 !! slot_lock r = Some i → owner w.2 !! NodeLock a = Some i → word w (NodeLock a) = Some 1 → a ∈ retired w.1 →
  owner w.2 !! NodeLock la = Some i → word w (NodeLock la) = Some 1 → la ∈ retired w.1 → pend w.2 !! NodeLock la = None →
  mine i na (InodeC n') w → type n' = t' → node_wf n' → get_key_prefix n' = get_key_prefix n →
  entries n' = del b (entries n) → assoc b (entries n) = Some (PLeaf la l) → leaf_holds l k v →
  edit i false w (store r (PInode na t') w.1,
    changed (delete (full q n ++ [b]) (<[q := PInode na t']> (tree w.2)))
      (delete (NodeLock a) (delete (NodeLock la) (owner w.2))) (delete na (private w.2)) (pend w.2)
      (delete k (gbindings w.2)) c w.2).
Proof.
  intros Hi Htidy He Hn Hpend Ho Hoa Hwa Hra Hol Hwl Hrl Hpl Hmn Ht' Hw' Hpre Hen Hb Hl.
  pose proof (edge_in_tree _ _ _ _ Hi He ltac:(done)) as Hq.
  pose proof (owned_in_tree _ _ _ _ Hi Hq eq_refl) as Hpp.
  assert (Hna : na ≠ a) by (intros ->; destruct Hmn; congruence).
  assert (Hslot : slot_lock r ≠ NodeLock na).
  { intros Heq. destruct (i_private _ Hi na i (proj1 Hmn)) as (Hno & _). congruence. }
  assert (Hold : tree w.2 !! (full q n ++ [b]) = Some (PLeaf la l)).
  { rewrite <- Hb. symmetry. apply (child_of _ _ _ _ (i_tree _ Hi) q a t n b Hq). by apply logical_inode. }
  assert (Hplq : q ≠ full q n ++ [b]) by (apply not_eq_sym, full_longer). set (w' := (_, _)).
  pose proof (replaced_tree w w' r a t q n na t' Hi He Hn Hpend (proj1 Hmn) eq_refl eq_refl) as Hok1.
  assert (Hown : logical w' na = Some (InodeC n')).
  { apply (private_logical w); [done..|by apply contents_store|by left]. }
  assert (Hok : tree_ok (logical w') (tree w'.2) (logical_root w') (gbindings w'.2)).
  { apply (tree_remove _ _ _ _ Hok1 q na t' n n' (logical w') la l b k v); try done.
    - apply lookup_insert_eq.
    - by rewrite decide_True.
    - intros y Hy. by rewrite decide_False. }
  assert (Hgone : ∀ q1 p1, tree w'.2 !! q1 = Some p1 → (q1 = q ∧ p1 = PInode na t') ∨ (q1 ≠ q ∧ q1 ≠ full q n ++ [b] ∧ tree w.2 !! q1 = Some p1)).
  { intros q1 p1 H1. unfold w' in H1. cbn [snd changed tree] in H1.
    apply lookup_delete_Some in H1 as [? [[<- <-]|[? ?]]%lookup_insert_Some]; [by left|right; auto]. }
  assert (Hstay : ∀ q1 p1, q1 ≠ q → q1 ≠ full q n ++ [b] → tree w.2 !! q1 = Some p1 → tree w'.2 !! q1 = Some p1).
  { intros q1 p1 H1 H2 H3. unfold w'. seen. by rewrite lookup_delete_ne, lookup_insert_ne by congruence. }
  assert (Hdrop : ∀ x, x = a ∨ x = la → ¬ in_tree w' x).
  { intros x Hx (q1 & p1 & [(-> & ->)|(H1 & H2 & H3)]%Hgone & Hp1).
    - injection Hp1 as ->. destruct Hx as [->| ->]; [done|]. pose proof (owned_in_tree _ _ _ _ Hi Hold eq_refl). destruct Hmn. congruence.
    - destruct Hx as [->| ->]; [by apply H1, (t_inj _ _ _ _ (i_tree _ Hi) _ _ _ _ H3 Hq)|].
      by apply H2, (t_inj _ _ _ _ (i_tree _ Hi) _ _ _ _ H3 Hold). }
  apply edit_of; [done|by apply (memory_store w _ r (PInode a t) q)|]. split; try done.
  - intros l'. unfold w'. seen. destruct (decide (l' = NodeLock a)) as [->|Hne].
    { right. split_and!; [done|by rewrite lookup_delete_eq|]. exists a. split_and!; try done. by apply Hdrop; left. }
    rewrite lookup_delete_ne by done. destruct (decide (l' = NodeLock la)) as [->|Hne']; [|left; by rewrite lookup_delete_ne].
    right. split_and!; [done|by rewrite lookup_delete_eq|]. exists la. split_and!; try done. by apply Hdrop; right.
  - intros x. destruct (private_delete w na x (proj1 Hmn)) as [?|(? & ? & ->)]; [by left|right].
    split_and!; [done..|]. exists q, (PInode na t'). unfold w'. seen. by rewrite lookup_delete_ne, lookup_insert_eq.
  - by left.
  - intros l' [d Hd]. unfold w' in *. seen. rewrite !lookup_delete_ne by congruence. by apply (i_pend _ Hi) in Hd.
  - intros a0 x0 q0 t0 l0 Hd0 Ho0. by destruct (Htidy a0 x0 Ho0).
  - intros _ Hs. by apply (pend_root_store w r _ (PInode a t) q).
  - intros q1 p1 [(-> & ->)|(H1 & H2 & H3)]%Hgone; [right|left; by exists q1]. exists na. unfold w'. seen.
    split_and!; [done|apply Hmn|apply lookup_delete_eq|]. split; [apply lookup_delete_eq|]. exists n'. split; [|done].
    apply inode_at_contents. cbn [fst]. rewrite contents_store by done. apply Hmn.
  - intros q1 p1 a1 Hq1 Ha1 Hno. left. apply Hstay; [..|done]; intros ->.
    + rewrite Hq in Hq1. injection Hq1 as <-. simpl in Ha1. congruence.
    + rewrite Hold in Hq1. injection Hq1 as <-. simpl in Ha1. congruence.
  - intros q1 p1 a1 Hq1 Ha1 _. destruct (decide (q1 = q)) as [->|Hne].
    + right. rewrite Hq in Hq1. injection Hq1 as <-. simpl in Ha1. congruence.
    + destruct (decide (q1 = full q n ++ [b])) as [->|Hne'].
      * right. rewrite Hold in Hq1. injection Hq1 as <-. simpl in Ha1. congruence.
      * left. exists q1, p1. split; [by apply Hstay|done].
  - intros j Hj. unfold w'. seen. by apply list_lookup_insert_ne.
Qed.

(** ** A node of two children is replaced by one of them *)

Section merge.
Context (w : gworld) (r : slot_ref) (a : addr) (t : node_type) (q : list Z) (n : inode olc_ptr) (x : olc_ptr) (b1 b2 : Z).
Context (la : addr) (l : basic_leaf) (k v : list Z).
Context (Hi : inv w) (He : edge_at r (PInode a t) q w) (Hn : inode_at w.1 a = Some n) (Hpend : pend w.2 !! NodeLock a = None).
Context (Ho : owner w.2 !! slot_lock r = Some i) (Hoa : owner w.2 !! NodeLock a = Some i) (Hwa : word w (NodeLock a) = Some 1).
Context (Hol : owner w.2 !! NodeLock la = Some i) (Hwl : word w (NodeLock la) = Some 1).
Context (Hb : b1 ≠ b2) (Hb1 : assoc b1 (entries n) = Some x) (Hb2 : assoc b2 (entries n) = Some (PLeaf la l)).
Context (Honly : ∀ b, is_Some (assoc b (entries n)) → b = b1 ∨ b = b2) (Hl : leaf_holds l k v).

Definition merged_tree : gmap (list Z) olc_ptr := <[q := x]> (delete (full q n ++ [b1]) (delete (full q n ++ [b2]) (tree w.2))).

Lemma merge_positions : tree w.2 !! q = Some (PInode a t) ∧ tree w.2 !! (full q n ++ [b1]) = Some x ∧
  tree w.2 !! (full q n ++ [b2]) = Some (PLeaf la l).
Proof.
  pose proof (edge_in_tree _ _ _ _ Hi He ltac:(done)) as Hq. split; [done|].
  rewrite <- Hb1, <- Hb2. split; symmetry; apply (child_of _ _ _ _ (i_tree _ Hi) q a t n _ Hq); by apply logical_inode.
Qed.

(** Where the pointers are afterwards. *)
Lemma merged_back q1 p1 : merged_tree !! q1 = Some p1 →
  (q1 = q ∧ p1 = x) ∨ (q1 ≠ q ∧ q1 ≠ full q n ++ [b1] ∧ q1 ≠ full q n ++ [b2] ∧ tree w.2 !! q1 = Some p1).
Proof.
  unfold merged_tree.
  intros [[<- <-]|[? [? [? ?]%lookup_delete_Some]%lookup_delete_Some]]%lookup_insert_Some; [by left|right]. split_and!; congruence.
Qed.

Lemma merged_forth q1 p1 : tree w.2 !! q1 = Some p1 →
  (q1 = q ∧ p1 = PInode a t) ∨ (q1 = full q n ++ [b2] ∧ p1 = PLeaf la l) ∨
  (q1 = full q n ++ [b1] ∧ p1 = x ∧ merged_tree !! q = Some x) ∨ (q1 ≠ full q n ++ [b1] ∧ merged_tree !! q1 = Some p1).
Proof.
  intros H1. destruct merge_positions as (Hq & Hc1 & Hc2). unfold merged_tree.
  destruct (decide (q1 = q)) as [->|Hn1]; [left; split; congruence|right].
  destruct (decide (q1 = full q n ++ [b2])) as [->|Hn2]; [left; split; congruence|right].
  destruct (decide (q1 = full q n ++ [b1])) as [->|Hn3]; [left|right].
  - split_and!; [done|congruence|apply lookup_insert_eq].
  - split; [done|]. by rewrite lookup_insert_ne, !lookup_delete_ne by congruence.
Qed.

Lemma merged_gone y : y = a ∨ y = la → ¬ ∃ q1 p1, merged_tree !! q1 = Some p1 ∧ ptr_addr p1 = Some y.
Proof.
  destruct merge_positions as (Hq & Hc1 & Hc2). intros Hy (q1 & p1 & H1 & Hp1).
  pose proof (t_inj _ _ _ _ (i_tree _ Hi)) as Hinj.
  destruct (merged_back q1 p1 H1) as [(-> & ->)|(Hn1 & Hn2 & Hn3 & Hold)].
  - destruct Hy as [->| ->]; [by apply (full_longer q n b1), (Hinj _ _ _ _ Hc1 Hq)|].
    pose proof (Hinj _ _ _ _ Hc1 Hc2 Hp1) as [_ Heq]%snoc_inj. done.
  - destruct Hy as [->| ->]; [by apply Hn1, (Hinj _ _ _ _ Hold Hq)|by apply Hn3, (Hinj _ _ _ _ Hold Hc2)].
Qed.

Lemma merge_parent lp : parent_lock w (full q n ++ [b1]) lp → lp = NodeLock a.
Proof.
  intros Hlp. apply (parent_unique w (full q n ++ [b1])); [done|done|]. right. exists q, a, t, n, b1.
  split_and!; [by apply merge_positions|by apply logical_inode|done..].
Qed.

Lemma change_merge_leaf y lx c : tidy w → x = PLeaf y lx → la ∈ retired w.1 → pend w.2 !! NodeLock la = None →
  edit i false w (store r x w.1,
    changed merged_tree (delete (NodeLock la) (owner w.2)) (private w.2) (pend w.2) (delete k (gbindings w.2)) c w.2).
Proof.
  intros Htidy Hx Hrl Hpl. destruct merge_positions as (Hq & Hc1 & Hc2). set (w' := (_, _)).
  assert (Hxn : x ≠ PNull) by (by rewrite Hx).
  assert (Hok : tree_ok (logical w') merged_tree (logical_root w') (delete k (gbindings w.2))).
  { apply (tree_merge _ _ _ _ (i_tree _ Hi) q a t n x b1 b2 la l k v (logical w') (logical_root w')); try done.
    - by apply logical_inode.
    - rewrite Hx. apply logical_store; [|done]. intros Hs. destruct r as [|y0 s]; [done|]. injection Hs as ->.
      destruct He as (_ & q0 & t0 & n0 & b0 & j0 & Hq0 & _). rewrite Hx in Hc1.
      pose proof (t_inj _ _ _ _ (i_tree _ Hi) _ _ _ _ Hq0 Hc1 eq_refl) as Heq.
      rewrite Heq, Hc1 in Hq0. discriminate Hq0.
    - apply (placed_swapped _ w w' r (PInode a t)); try done.
      + by apply (store_placed w w' r (PInode a t) q); try done; destruct r; apply He.
      + intros y' Hy Hs. by apply logical_store. }
  apply edit_of; [done|by apply (memory_store w _ r (PInode a t) q)|]. split; try done.
  - intros l'. unfold w'. seen. destruct (decide (l' = NodeLock la)) as [->|Hne]; [right|left; by rewrite lookup_delete_ne].
    split_and!; [done|by rewrite lookup_delete_eq|]. exists la. split_and!; try done. apply (merged_gone la). by right.
  - by left.
  - by left.
  - intros l' [d Hd]. unfold w' in *. seen. rewrite lookup_delete_ne by congruence. by apply (i_pend _ Hi) in Hd.
  - intros a0 x0 q0 t0 l0 Hd0 Ho0. by destruct (Htidy a0 x0 Ho0).
  - intros _ Hs. by apply (pend_root_store w r _ (PInode a t) q).
  - intros q1 p1 [(-> & ->)|(_ & _ & _ & ?)]%merged_back; [|left; by exists q1]. left. by exists (full q n ++ [b1]).
  - intros q1 p1 a1 Hq1 Ha1 Hno.
    destruct (merged_forth q1 p1 Hq1) as [(-> & ->)|[(-> & ->)|[(-> & -> & Hm)|(_ & Hm)]]];
      [simpl in Ha1; congruence..| |by left]. right. exists lx, q. split_and!; [|done|etrans; [apply full_prefix|by eexists]|].
    + rewrite Hx in Ha1. injection Ha1 as <-. done.
    + intros lp Hlp. by rewrite (merge_parent lp Hlp).
  - intros q1 p1 a1 Hq1 Ha1 _.
    destruct (merged_forth q1 p1 Hq1) as [(-> & ->)|[(-> & ->)|[(-> & -> & Hm)|(_ & Hm)]]]; [right; simpl in Ha1; congruence..|left|left].
    + by exists q, x.
    + by exists q1, p1.
  - intros j Hj. unfold w'. seen. by apply list_lookup_insert_ne.
Qed.

(** An inner node gets the prefix of the one above it before it gets its place. *)
Lemma change_merge_inode y ty nc z s c : tidy w → x = PInode y ty → inode_at w.1 y = Some nc → prefix_wf z →
  full q (set_key_prefix z nc) = full (full q n ++ [b1]) nc →
  match r with RootSlot => True | ChildSlot _ j => s = j end →
  edit i true w (set_inode y (set_key_prefix z nc) w.1,
    changed merged_tree (owner w.2) (private w.2) (<[slot_lock r := Stored s x]> (pend w.2)) (delete k (gbindings w.2)) c w.2).
Proof.
  intros Htidy Hx Hnc Hz Hfull Hs. destruct merge_positions as (Hq & Hc1 & Hc2). set (w' := (_, _)).
  rewrite Hx in Hc1. pose proof (t_inj _ _ _ _ (i_tree _ Hi)) as Hinj.
  pose proof (owned_in_tree _ _ _ _ Hi Hc1 eq_refl) as Hpy. pose proof (i_wf _ Hi y nc Hnc Hpy) as Hwc.
  assert (Hya : y ≠ a) by (intros ->; by apply (full_longer q n b1), (Hinj _ _ _ _ Hc1 Hq)).
  assert (Hyl : y ≠ la) by (intros ->; by pose proof (Hinj _ _ _ _ Hc1 Hc2 eq_refl) as [_ ?]%snoc_inj).
  assert (Hys : slot_lock r ≠ NodeLock y).
  { intros Hs'. destruct r as [|y0 s0]; [done|]. injection Hs' as ->.
    destruct He as (_ & q0 & t0 & n0 & b0 & j0 & Hq0 & _ & Hqq & _). pose proof (Hinj _ _ _ _ Hq0 Hc1 eq_refl) as ->.
    apply (f_equal length) in Hqq. rewrite length_snoc in Hqq. pose proof (full_le (full q n ++ [b1]) n0).
    rewrite length_snoc in *. pose proof (full_le q n). lia. }
  assert (Hdy : ∀ d, pend w.2 !! NodeLock y ≠ Some (Uncut d)).
  { intros d Hd. assert (Hpl : parent_lock w (full q n ++ [b1]) (NodeLock a)).
    { right. exists q, a, t, n, b1. split_and!; try done. by apply logical_inode. }
    pose proof (i_uncut _ Hi y d _ ty _ Hd Hc1 Hpl) as Heq. rewrite Hoa in Heq. by apply (Htidy y d). }
  set (d := pend w.2 !! NodeLock y) in *.
  assert (Hcy : contents_at w'.1 y = Some (InodeC (set_key_prefix z nc))).
  { unfold w'. cbn [fst]. apply inode_at_contents in Hnc. by rewrite contents_set_inode, Hnc, decide_True. }
  assert (Hco : ∀ y', y' ≠ y → contents_at w'.1 y' = contents_at w.1 y').
  { intros y' Hy'. unfold w'. cbn [fst]. by rewrite contents_set_inode, decide_False. }
  assert (Hly : logical w y = Some (InodeC (with_delayed d nc)) ∧
    logical w' y = Some (InodeC (set_key_prefix z (with_delayed d nc))) ∧ get_key_prefix (with_delayed d nc) = get_key_prefix nc).
  { unfold logical. rewrite Hcy. apply inode_at_contents in Hnc. rewrite Hnc. split; [done|].
    unfold w'. cbn [snd changed pend]. rewrite lookup_insert_ne by done. fold d.
    destruct d as [[s0 p0|d0]|]; [|by destruct (Hdy d0)|done]. cbn [with_delayed].
    split; [by destruct nc|apply get_key_prefix_slot_store]. }
  destruct Hly as (Hly & Hly' & Hpre).
  assert (Hrest : ∀ y', y' ≠ y → slot_lock r ≠ NodeLock y' → logical w' y' = logical w y').
  { intros y' Hy' Hsl. apply logical_same; [by apply Hco|]. unfold w'. cbn [snd changed pend]. by rewrite lookup_insert_ne. }
  assert (Hpl : placed w w' r x).
  { destruct r as [|x0 s0]; unfold placed, w'.
    - unfold logical_root. cbn [snd changed pend slot_lock]. by rewrite lookup_insert_eq.
    - subst s. split.
      + unfold logical_root. cbn [snd changed pend slot_lock]. by rewrite lookup_insert_ne.
      + intros n0 Hn0%inode_at_contents. unfold logical. fold w'. rewrite Hco by (intros ->; by apply Hys). rewrite Hn0.
        unfold w'. cbn [snd changed pend slot_lock]. by rewrite lookup_insert_eq. }
  assert (Hok : tree_ok (logical w') merged_tree (logical_root w') (delete k (gbindings w.2))).
  { destruct (t_inode _ _ _ _ (i_tree _ Hi) _ _ _ _ Hc1 Hly) as (Hwy & _).
    apply (tree_merge _ _ _ _ (i_tree _ Hi) q a t n x b1 b2 la l k v (logical w') (logical_root w')); try done.
    - by apply logical_inode.
    - rewrite Hx. exists (with_delayed d nc), (set_key_prefix z (with_delayed d nc)). split_and!; [done..| | |].
      + destruct (set_prefix_spec _ z Hwy Hz) as (Hw & _). exact Hw.
      + destruct (set_prefix_spec _ z Hwy Hz) as (_ & Hen & _). exact Hen.
      + revert Hfull. unfold full. rewrite Hpre. by destruct nc, d as [[]|].
    - apply (placed_swapped _ w w' r (PInode a t)); try done; [by rewrite Hx|].
      intros y' Hy' Hsl. apply Hrest; [|done]. intros ->. apply Hy'. right. right. by rewrite Hx. }
  assert (Hxn : x ≠ PNull) by by rewrite Hx.
  split; try done.
  - intros l'. unfold word, w'. cbn [fst]. apply lock_word_set_inode.
  - by left.
  - by left.
  - intros l'. unfold w'. seen. destruct (decide (l' = slot_lock r)) as [->|Hne]; [by right|left; by rewrite lookup_insert_ne].
  - intros l' [d' Hd']. unfold w' in *. seen. apply lookup_insert_Some in Hd' as [[<- _]|[_ Hd']]; [by rewrite Ho|].
    by apply (i_pend _ Hi) in Hd'.
  - intros a0 x0 q0 t0 l0 Hd0 Ho0. unfold w' in Hd0. cbn [snd changed pend] in Hd0.
    apply lookup_insert_Some in Hd0 as [[_ [=]]|[_ Hd0]]. by destruct (Htidy a0 x0 Ho0).
  - intros a0. destruct (decide (a0 = y)) as [->|Hne]; [right|left; by apply Hco]. exists nc, (set_key_prefix z nc).
    split_and!; [done|by apply inode_at_contents|by destruct nc| |done|right; split; [done|apply set_prefix_same]].
    destruct (set_prefix_spec nc z Hwc Hz) as (Hw & _). exact Hw.
  - destruct r as [|x0 s0]; [by left|right]. split; [done|]. unfold w', merged_tree. seen.
    destruct He as (_ & q0 & t0 & n0 & b0 & j0 & _ & _ & -> & _).
    by rewrite lookup_insert_ne, !lookup_delete_ne by (try apply not_eq_sym; apply snoc_ne_nil) || apply snoc_ne_nil.
  - intros Hs'. destruct r as [|x0 s0].
    + split; [|rewrite Hpl; done]. unfold w'. cbn [fst]. destruct He as (_ & _ & Hr).
      change (root w.1 ≠ PNull). by rewrite Hr.
    + unfold w' in Hs'. cbn [snd changed pend slot_lock] in Hs'. rewrite lookup_insert_ne in Hs' by done.
      destruct (i_pend_root _ Hi Hs') as [H1 H2]. split; [done|]. destruct Hpl as [-> _]. done.
  - intros q1 p1 [(-> & ->)|(_ & _ & _ & ?)]%merged_back; [|left; by exists q1]. left. exists (full q n ++ [b1]). by rewrite Hx.
  - intros q1 p1 a1 Hq1 Ha1 Hno.
    destruct (merged_forth q1 p1 Hq1) as [(-> & ->)|[(-> & ->)|[(-> & -> & Hm)|(Hne & Hm)]]]; [simpl in Ha1; congruence..| |].
    + exists q. split_and!; [done|etrans; [apply full_prefix|by eexists]| |].
      * intros lp Hlp Hlo. rewrite (merge_parent lp Hlp) in Hlo. done.
      * rewrite Hx in Ha1. injection Ha1 as <-. intros n0 Hn0. rewrite Hnc in Hn0. injection Hn0 as <-.
        exists (set_key_prefix z nc). split_and!; [by apply inode_at_contents|apply set_prefix_same|done|].
        intros [?|Heq]; [done|]. by destruct (full_longer q n b1).
    + exists q1. split_and!; [done..|]. intros n0 Hn0. exists n0.
      split_and!; try done. apply inode_at_contents. rewrite Hco; [by apply inode_at_contents|].
      intros ->. by apply Hne, (Hinj _ _ _ _ Hq1 Hc1).
  - intros q1 p1 a1 Hq1 Ha1 _.
    destruct (merged_forth q1 p1 Hq1) as [(-> & ->)|[(-> & ->)|[(-> & -> & Hm)|(_ & Hm)]]]; [right; simpl in Ha1; congruence..|left|left].
    + by exists q, x.
    + by exists q1, p1.
  - intros j Hj. unfold w'. seen. by apply list_lookup_insert_ne.
Qed.
End merge.
End changes.
