(* ===== verification/OlcRules.v ===== *)
(** Triples for programs over the shared memory, and a rule for each access: what
    a thread knows before and after its own steps, whatever the others do. *)

From ITree Require Import ITree.
From S2P Require Import Prelude Words Threads ArtKey KeyPrefix SortedAssoc Simd InodeBase.
From S2P Require Import Heap Leaf InodeSpec Inode Db DbMap DbTrace OptimisticLock OlcState Olc OlcSystem OlcLogic OlcTree OlcSurgery OlcInv OlcFacts OlcSteps OlcEdit.

#[local] Open Scope prog_scope.

(** ** What a step must keep to *)

Definition prepends {X} (e : access X) : bool := match e with PrependPrefix _ _ _ => true | _ => false end.
Definition waits {X} (e : access X) : bool := match e with TryReadLock _ => true | _ => false end.

(** The versions are far from their end. *)
Definition live (w : gworld) : Prop := clock w.2 < 2 ^ 62.

(** A step may note an answer that would be right now, or take effect; or it may
    note, for a scan, a binding that is there now. *)
Definition call_ok (i : nat) (w w' : gworld) : Prop :=
  (gcalls w'.2 = gcalls w.2 ∧ gbindings w'.2 = gbindings w.2) ∨
  (∃ o A, gcalls w.2 !! i = Some (Pending o, A) ∧ (spec_op o (gbindings w.2)).2 = gbindings w.2 ∧
     gcalls w'.2 = <[i := (Pending o, (spec_op o (gbindings w.2)).1 :: A)]> (gcalls w.2) ∧ gbindings w'.2 = gbindings w.2) ∨
  (∃ o A, gcalls w.2 !! i = Some (Pending o, A) ∧ gbindings w'.2 = (spec_op o (gbindings w.2)).2 ∧
     gcalls w'.2 = <[i := (Answered (Value (spec_op o (gbindings w.2)).1), A)]> (gcalls w.2)) ∨
  (∃ s notes k v A, gcalls w.2 !! i = Some (Scanning s notes, A) ∧ gbindings w.2 !! k = Some v ∧
     gcalls w'.2 = <[i := (Scanning s (notes ++ [(k, v)]), A)]> (gcalls w.2) ∧ gbindings w'.2 = gbindings w.2).

Section rules.
Context `{Target} (i : nat) (reading : bool).
Implicit Types (w : gworld) (P G : gworld → Prop).

(** A thread that waits for a lock holds none. *)
Definition step_ok (X : Type) (e : access X) w w' : Prop :=
  inv w' ∧ guar i (prepends e) w w' ∧ clock w'.2 = clock w.2 + 1 ∧ call_ok i w w' ∧
  (waits e = true → ∀ l, owner w.2 !! l ≠ Some i).

Abbreviation fact := (gworld → Prop).
Abbreviation lasting := (lasting i reading).

Definition triple {R} (P : fact) (t : prog R) (Q : R → fact) : Prop := ∀ n w,
  inv w → P w → safe (λ X, @perform _ X) (rely i reading) step_ok live n t (λ r w, inv w ∧ Q r w) w.

Lemma stable_inv P : lasting P → stable (rely i reading) (λ w, inv w ∧ P w).
Proof. intros HP w w' Hr [Hi Hp]. split; [apply Hr|by eapply HP]. Qed.

(** ** Rules for programs *)

Lemma triple_pre {R} P P' (t : prog R) Q : (∀ w, inv w → P w → P' w) → triple P' t Q → triple P t Q.
Proof. intros Hp Ht n w Hi Hw. apply Ht; auto. Qed.

Lemma triple_post {R} P (t : prog R) Q Q' : (∀ r w, inv w → Q r w → Q' r w) → triple P t Q → triple P t Q'.
Proof.
  intros Hq Ht n w Hi Hw. eapply safe_mono; [done| |by apply Ht]. intros r w' [Hi' Hr]. split; [done|]. by apply Hq.
Qed.

Lemma triple_bind {R T} P (t : prog R) (k : R → prog T) M Q :
  triple P t M → (∀ r, triple (M r) (k r) Q) → triple P (ITree.bind t k) Q.
Proof.
  intros Ht Hk n w Hi Hw. apply safe_bind. eapply safe_mono; [done| |by apply Ht]. intros r w' [Hi' Hr]. by apply Hk.
Qed.

Lemma triple_give {R} P (r : R) (Q : R → fact) : lasting P → (∀ w, inv w → P w → Q r w) → triple P (give r) Q.
Proof.
  intros HP Hq n w Hi Hw. destruct n as [|n]; [done|]. rewrite safe_S. intros w' Hr. unfold safe_now. simpl.
  destruct (stable_rtc _ _ _ _ (stable_inv _ HP) Hr (conj Hi Hw)) as [Hi' Hw']. auto.
Qed.

Lemma triple_iter {A R} (I : A → fact) (body : A → prog (A + R)) (Q : R → fact) :
  (∀ r, lasting (Q r)) → (∀ a, triple (I a) (body a) (λ r, match r with inl a => I a | inr r => Q r end)) →
  ∀ a, triple (I a) (ITree.iter body a) Q.
Proof.
  intros HQ Hb a n w Hi Hw. apply (safe_iter _ _ _ _ (λ a w, inv w ∧ I a w)); [|..|done].
  - intros r. by apply stable_inv.
  - intros m b w' [Hi' Hw']. eapply safe_mono; [done| |by apply Hb]. intros [b'|r] w2; done.
Qed.

Lemma triple_exists {R X} (P : X → fact) (t : prog R) Q : (∀ x, triple (P x) t Q) → triple (λ w, ∃ x, P x w) t Q.
Proof. intros Ht n w Hi [x Hw]. by apply (Ht x). Qed.

Lemma triple_pure {R} (φ : Prop) P (t : prog R) Q : (φ → triple P t Q) → triple (λ w, φ ∧ P w) t Q.
Proof. intros Ht n w Hi [Hφ Hw]. by apply (Ht Hφ). Qed.

Lemma triple_know {R} (φ : Prop) P (t : prog R) Q : (∀ w, inv w → P w → φ) → (φ → triple P t Q) → triple P t Q.
Proof. intros Hφ Ht n w Hi Hw. apply Ht; [by apply (Hφ w)|done|done]. Qed.

Lemma triple_or {R} P1 P2 (t : prog R) Q : triple P1 t Q → triple P2 t Q → triple (λ w, P1 w ∨ P2 w) t Q.
Proof. intros H1 H2 n w Hi [Hw|Hw]; [by apply H1|by apply H2]. Qed.

Lemma triple_of_opt {R T} P (o : option R) x (k : R → prog T) Q :
  o = Some x → lasting P → triple P (k x) Q → triple P (ITree.bind (of_opt o) k) Q.
Proof.
  intros -> HP Hk. apply (triple_bind _ _ _ (λ r w, r = x ∧ P w)).
  - by apply triple_give.
  - intros r. by apply triple_pure; intros ->.
Qed.

(** One access. *)
Lemma triple_do {X} P (e : access X) (Q : X → fact) : lasting P → (∀ x, lasting (Q x)) →
  (∀ w available, live w → inv w → P w → ∃ x s' g', perform available e w.1 = Some (x, s') ∧
     step_ok X e w (s', g') ∧ Q x (s', g')) →
  triple P (do e) Q.
Proof.
  intros HP HQ Hstep n w Hi Hw. destruct n as [|n]; [done|]. rewrite safe_S. intros w' Hr.
  destruct (stable_rtc _ _ _ _ (stable_inv _ HP) Hr (conj Hi Hw)) as [Hi' Hw'].
  unfold safe_now. cbn. intros Hlive av. destruct (Hstep w' av Hlive Hi' Hw') as (x & s' & g' & He & Hok & Hq).
  exists x, s'. split; [done|]. exists g'. split; [done|]. apply safe_give; [by apply stable_inv|]. split; [apply Hok|done].
Qed.

(** Counters are not part of what a thread knows. *)
Lemma triple_count P u : lasting P → triple P (do (Count u)) (λ _, P).
Proof.
  intros HP. apply triple_do; [done|done|]. intros w av _ Hi Hw. exists tt, w.1, (ticked w.2). split; [done|].
  assert (Hk : ∀ j, kept j false w (w.1, ticked w.2)) by (intros j; by apply tick_kept). split.
  - split_and!; [by apply tick_inv|by apply guar_kept; intros j _|done|by left|done].
  - apply (HP w); [done| |done]. split; [by apply tick_inv|]. by exists false.
Qed.

Lemma triple_count_then {R} P u (rest : prog R) Q : lasting P → triple P rest Q → triple P (do (Count u);; rest) Q.
Proof. intros HP Hr. eapply triple_bind; [by apply triple_count|]. by intros []. Qed.

(** The programs that keep the statistics. *)
Definition counts (t : prog unit) : Prop := ∀ P, lasting P → triple P t (λ _, P).

Lemma counts_two u1 u2 : counts (do (Count u1);; do (Count u2)).
Proof. intros P HP. apply triple_count_then; [done|]. by apply triple_count. Qed.

Lemma increment_leaf_counts size : counts (increment_leaf_count size).
Proof. apply counts_two. Qed.
Lemma decrement_leaf_counts size : counts (decrement_leaf_count size).
Proof. apply counts_two. Qed.
Lemma increment_inode_counts t : counts (increment_inode_count t).
Proof. apply counts_two. Qed.
Lemma decrement_inode_counts t : counts (decrement_inode_count t).
Proof. apply counts_two. Qed.

Lemma triple_counts {R} P t (rest : prog R) Q : counts t → lasting P → triple P rest Q → triple P (t;; rest) Q.
Proof. intros Ht HP Hr. eapply triple_bind; [by apply Ht|]. by intros []. Qed.

Lemma triple_then_counts P (t1 t2 : prog unit) Q : counts t2 → lasting Q → triple P t1 (λ _, Q) → triple P (t1;; t2) (λ _, Q).
Proof. intros Ht HQ H1. eapply triple_bind; [exact H1|]. intros []. by apply Ht. Qed.

(** ** What the thread's own steps leave alone *)

(** A step that leaves the tree as it is and at most takes locks. *)
Record own_move w w' : Prop := {
  om_shape : same_shape w w';
  om_retired : retired w'.1 = retired w.1;
  om_locks : ∀ l, visible w l →
    (word w' l = word w l ∧ owner w'.2 !! l = owner w.2 !! l) ∨
    (∃ v, word w l = Some v ∧ v mod 4 = 0 ∧ word w' l = Some (v + 2) ∧ owner w'.2 !! l = Some i);
}.

Definition robust (G : fact) : Prop := lasting G ∧ ∀ w w', inv w → own_move w w' → G w → G w'.

(** A fact of the tree and the contents of nodes alone. *)
Definition shaped (φ : fact) : Prop := ∀ w w', inv w → same_shape w w' → φ w → φ w'.

Lemma robust_pure (φ : Prop) : robust (λ _, φ).
Proof. split; [apply lasting_pure|done]. Qed.

Lemma robust_and (A B : fact) : robust A → robust B → robust (λ w, A w ∧ B w).
Proof. intros [A1 A2] [B1 B2]. split; [by apply lasting_and|]. intros w w' Hi Hm [??]. split; eauto. Qed.

Lemma robust_or (A B : fact) : robust A → robust B → robust (λ w, A w ∨ B w).
Proof. intros [A1 A2] [B1 B2]. split; [by apply lasting_or|]. intros w w' Hi Hm [?|?]; [left|right]; eauto. Qed.

Lemma robust_ex {X} (A : X → fact) : (∀ x, robust (A x)) → robust (λ w, ∃ x, A x w).
Proof. intros HA. split; [apply lasting_ex; intros x; apply HA|]. intros w w' Hi Hm [x Hx]. exists x. by eapply HA. Qed.

Lemma robust_imp (φ : Prop) (A : fact) : robust A → robust (λ w, φ → A w).
Proof.
  intros [A1 A2]. split.
  - intros w w' Hi Hr HA Hφ. eapply A1; eauto.
  - intros w w' Hi Hm HA Hφ. eapply A2; eauto.
Qed.

Lemma robust_shaped φ : lasting φ → shaped φ → robust φ.
Proof. intros H1 H2. split; [done|]. intros w w' Hi [Hs _ _]. by apply H2. Qed.

Lemma robust_valid p : robust (λ w, valid_ptr w p).
Proof. apply robust_shaped; [apply lasting_valid|]. intros w w' Hi Hs. by apply (sh_valid w w' Hs). Qed.

Lemma robust_seen l v : robust (seen l v).
Proof.
  split; [apply lasting_seen|]. intros w w' Hi [Hs _ Hm] (Hvis & Hv & H0 & x & Hx & Hle). split_and!; [|done..|].
  - by apply (sh_visible w w' Hs).
  - destruct (Hm l Hvis) as [[-> _]|(y & Hy & Hy4 & Hy' & _)]; [by exists x|]. exists (y + 2). split; [done|].
    rewrite Hx in Hy. injection Hy as ->. left. destruct Hle as [|Hy1]; [lia|]. subst y. discriminate Hy4.
Qed.

Lemma robust_given ls φ : steady i reading ls φ → shaped φ → robust (given i ls φ).
Proof.
  intros Hst Hsh. split; [by apply lasting_given|]. intros w w' Hi Hm [Hseen Hφ]. split.
  - eapply Forall_impl; [exact Hseen|]. intros [l v] Hl. by apply (proj2 (robust_seen l v) w w').
  - intros Hheld. apply (Hsh w w' Hi (om_shape _ _ Hm)), Hφ. unfold held in *. rewrite Forall_forall in *. intros [l v] Hx.
    specialize (Hheld _ Hx). destruct (Hseen _ Hx) as (Hvis & Hv & _). cbn [fst snd] in *.
    destruct (om_locks _ _ Hm l Hvis) as [[Hw Ho]|(y & Hy & Hy4 & Hy' & Ho)]; unfold holds in *.
    + by rewrite <- Hw, <- Ho.
    + left. rewrite Hy' in Hheld. destruct Hheld as [[= Heq]|[_ [= Heq]]].
      * subst v. rewrite Z.add_mod, Hy4 in Hv by lia. discriminate Hv.
      * rewrite Hy. f_equal. lia.
Qed.

(** What is known of the tree while the locks [ls] are the thread's own. *)
Definition owned (ls : list lock_ref) (φ : fact) : fact := λ w, Forall (λ l, owner w.2 !! l = Some i) ls ∧ φ w.

Lemma lasting_owned ls vs φ : steady i reading vs φ → (∀ x, x ∈ vs → x.1 ∈ ls) → lasting (owned ls φ).
Proof.
  intros Hst Hsub w w' Hi Hr [Ho Hφ]. split.
  - eapply Forall_impl; [exact Ho|]. intros l Hl. destruct Hr as (_ & pp & Hk & _). by apply (k_owner _ _ _ _ Hk).
  - apply (Hst w w' Hi Hr); [|done]. apply Forall_forall. intros x Hx. left. rewrite Forall_forall in Ho. auto.
Qed.

Lemma robust_owned ls vs φ : steady i reading vs φ → (∀ x, x ∈ vs → x.1 ∈ ls) → shaped φ → robust (owned ls φ).
Proof.
  intros Hst Hsub Hsh. split; [by eapply lasting_owned|]. intros w w' Hi Hm [Ho Hφ]. split; [|by apply (Hsh w w' Hi (om_shape _ _ Hm))].
  eapply Forall_impl; [exact Ho|]. intros l Hl. cbn beta in *.
  destruct (om_locks _ _ Hm l (i_owner _ Hi _ _ Hl)) as [[_ ->]|(_ & _ & _ & _ & ->)]; done.
Qed.

(** With the locks taken at the versions seen, the fact holds. *)
Lemma given_owned ls φ w : given i ls φ w → (∀ x, x ∈ ls → owner w.2 !! x.1 = Some i ∧ word w x.1 = Some (x.2 + 2)) →
  owned (ls.*1) φ w.
Proof.
  intros [_ Hφ] Ho. split.
  - apply Forall_forall. intros l (x & -> & Hx)%list_elem_of_fmap. by apply Ho.
  - apply Hφ, Forall_forall. intros x Hx. right. by apply Ho.
Qed.

Lemma owner_move w w' l : inv w → own_move w w' → owner w.2 !! l = Some i → owner w'.2 !! l = Some i.
Proof.
  intros Hi Hm Ho. destruct (om_locks _ _ Hm l (i_owner _ Hi _ _ Ho)) as [[_ ->]|(_ & _ & _ & _ & ->)]; done.
Qed.

Lemma robust_unretired a : robust (unretired i a).
Proof.
  split; [apply lasting_unretired|]. intros w w' Hi Hm [Ho Ha]. split; [by eapply owner_move|]. by rewrite (om_retired _ _ Hm).
Qed.

Lemma robust_is_retired a : robust (is_retired i a).
Proof.
  split; [apply lasting_is_retired|]. intros w w' Hi Hm [Ho Ha]. split; [by eapply owner_move|]. by rewrite (om_retired _ _ Hm).
Qed.

Lemma robust_gone a : robust (gone i a).
Proof.
  split; [apply lasting_gone|]. intros w w' Hi Hm [Ho Ha]. split; [by eapply owner_move|].
  by rewrite (sh_in_tree _ _ (om_shape _ _ Hm)).
Qed.

Lemma shaped_pure (φ : Prop) : shaped (λ _, φ).
Proof. by intros w w' _ _. Qed.

Lemma shaped_and (A B : fact) : shaped A → shaped B → shaped (λ w, A w ∧ B w).
Proof. intros HA HB w w' Hi Hs [??]. split; eauto. Qed.

Lemma shaped_ex {X} (A : X → fact) : (∀ x, shaped (A x)) → shaped (λ w, ∃ x, A x w).
Proof. intros HA w w' Hi Hs [x Hx]. exists x. by eapply HA. Qed.

Lemma shaped_edge r p c : shaped (edge_at r p c).
Proof.
  intros w w' Hi Hs. destruct r as [|a s]; simpl.
  - by rewrite (sh_pend _ _ Hs), (sh_root _ _ Hs).
  - intros (Hp & q & t & n & b & j & Hq & Hn & ?). rewrite (sh_pend _ _ Hs). split; [done|].
    exists q, t, n, b, j. rewrite (sh_tree _ _ Hs), (sh_inode w w' Hi Hs q a t Hq). done.
Qed.

Lemma shaped_node r a t c n : shaped (node_at r a t c n).
Proof.
  intros w w' Hi Hs [He Hn]. split; [by apply (shaped_edge _ _ _ w)|].
  by rewrite (sh_inode w w' Hi Hs c a t (edge_in_tree _ _ _ _ Hi He ltac:(done))).
Qed.

Lemma shaped_full a t c f n : shaped (full_at a t c f n).
Proof.
  intros w w' Hi Hs (Hp & q & n' & Hq & Hn & ?). split; [by rewrite (sh_pend _ _ Hs)|].
  exists q, n'. by rewrite (sh_tree _ _ Hs), (sh_inode w w' Hi Hs q a t Hq).
Qed.

Lemma shaped_leaf a l k : shaped (leaf_on_way a l k).
Proof. intros w w' Hi Hs (q & Hq & Hp). exists q. by rewrite (sh_tree _ _ Hs). Qed.

Lemma shaped_pos a t c o : shaped (inode_pos a t c o).
Proof.
  intros w w' Hi Hs (Hp & Hq & n & Hn & Ho). split; [by rewrite (sh_pend _ _ Hs)|].
  split; [by rewrite (sh_tree _ _ Hs)|]. exists n. by rewrite (sh_inode w w' Hi Hs c a t Hq).
Qed.

(** ** What a thread knows of itself *)

(** A lock it holds, its word, and what is delayed there. *)
Definition held_lock := (lock_ref * Z * option delayed)%type.

(** The call and the answers noted so far, the locks held, the nodes not
    published, and more. *)
Definition st (c : call_state) (A : list answer) (ls : list held_lock) (ps : list (addr * contents)) (G : fact) : fact := λ w,
  calling i c A w ∧ locks i (ls.*1.*1) w ∧ Forall (λ x, locked i x.1.1 x.1.2 x.2 w) ls ∧
  privates i (ps.*1) w ∧ Forall (λ x, mine i x.1 x.2 w) ps ∧ G w.

Lemma lasting_forall {X} (A : X → fact) (xs : list X) : (∀ x, lasting (A x)) → lasting (λ w, Forall (λ x, A x w) xs).
Proof. intros HA w w' Hi Hr Hx. eapply Forall_impl; [exact Hx|]. intros x. by apply HA. Qed.

Lemma lasting_st c A ls ps G : lasting G → lasting (st c A ls ps G).
Proof.
  intros HG. apply lasting_and; [apply lasting_calling|]. apply lasting_and; [apply lasting_locks|].
  apply lasting_and; [apply lasting_forall; intros; apply lasting_locked|].
  apply lasting_and; [apply lasting_privates|]. apply lasting_and; [|done]. apply lasting_forall. intros. apply lasting_mine.
Qed.

Lemma st_mono c A ls ps G G' w : (G w → G' w) → st c A ls ps G w → st c A ls ps G' w.
Proof. intros HG (? & ? & ? & ? & ? & ?). split_and!; auto. Qed.

Lemma st_perm c A ls ls' ps G w : ls ≡ₚ ls' → st c A ls ps G w → st c A ls' ps G w.
Proof.
  intros Hp (? & Hl & Hk & ? & ? & ?). split_and!; try done; [|by rewrite <- Hp].
  intros l. rewrite (Hl l). by rewrite (elem_of_Permutation_proper l _ _ (Permutation_map fst (Permutation_map fst Hp))).
Qed.

Definition extend (a : option answer) (A : list answer) : list answer := match a with Some a => a :: A | None => A end.

Lemma set_lock_same s l x : lock_word s l = Some x → set_lock_word l x s = s.
Proof.
  destruct s as [rl rt nd nx rd], l as [|a]; simpl; [by intros [= ->]|]. intros Ha. f_equal.
  apply map_eq. intros b. rewrite lookup_alter. case_decide as Hd; [subst|done].
  destruct (nd !! b) as [[x' c]|] eqn:Hb; simpl in *; [|done]. by injection Ha as ->.
Qed.

(** ** Steps that read *)

Lemma st_quiet {X} c A ls ps G (e : access X) (R : X → fact) (ans : X → option answer) :
  robust G → (∀ x, robust (R x)) → (waits e = true → ls = []) →
  (∀ w av, live w → inv w → st c A ls ps G w → ∃ x, perform av e w.1 = Some (x, w.1) ∧ R x w ∧
     (∀ a, ans x = Some a → ∃ o, c = Pending o ∧ spec_op o (gbindings w.2) = (a, gbindings w.2))) →
  triple (st c A ls ps G) (do e) (λ x, st c (extend (ans x) A) ls ps (λ w, G w ∧ R x w)).
Proof.
  intros HG HR Hwait Hstep. apply triple_do.
  { by apply lasting_st, HG. }
  { intros x. apply lasting_st, lasting_and; [apply HG|apply HR]. }
  intros w av Hlive Hi Hst. destruct (Hstep w av Hlive Hi Hst) as (x & He & Hx & Ha).
  pose proof Hst as (Hc & Hl & Hk & Hp & Hm & Hg). set (cs := <[i := (c, extend (ans x) A)]> (gcalls w.2)).
  exists x, w.1, (ticked (with_calls (gbindings w.2) cs w.2)). split; [done|].
  assert (Hmove : own_move w (w.1, ticked (with_calls (gbindings w.2) cs w.2))).
  { split; [apply shape_calls|done|]. intros l _. by left. }
  split; [split_and!|split_and!; try done].
  - by apply quiet_inv.
  - by apply quiet_guar.
  - done.
  - unfold call_ok. cbn [snd ticked with_calls gcalls gbindings]. destruct (ans x) as [a|] eqn:Hax.
    + right. left. destruct (Ha a eq_refl) as (o & -> & Hs). exists o, A. rewrite Hs. done.
    + left. split; [|done]. unfold cs. simpl. by apply list_insert_id.
  - intros Hw l Ho. apply Hl in Ho. rewrite (Hwait Hw) in Ho. by apply elem_of_nil in Ho.
  - unfold calling. cbn [snd ticked with_calls gcalls]. unfold cs. apply list_lookup_insert_eq. by eapply lookup_lt_Some.
  - by apply (proj2 HG w).
  - by apply (proj2 (HR x) w).
Qed.

(** A check of a version. *)
Lemma st_check c A ls ps G l v (e : access bool) (R : fact) (ans : option answer) :
  (e = Check l (Rcs true v) ∨ e = TryReadUnlock l (Rcs true v)) → robust G → robust R → (∀ w, G w → seen l v w) →
  (∀ w, inv w → st c A ls ps G w → word w l = Some v → R w ∧
     (∀ a, ans = Some a → ∃ o, c = Pending o ∧ spec_op o (gbindings w.2) = (a, gbindings w.2))) →
  triple (st c A ls ps G) (do e) (λ b, if b then st c (extend ans A) ls ps (λ w, G w ∧ R w) else st c A ls ps G).
Proof.
  intros He HG HR Hseen Hstep.
  apply (triple_post _ _ (λ b : bool, st c (extend (if b then ans else None) A) ls ps (λ w, G w ∧ (b = true → R w)))).
  { intros [] w Hi; apply st_mono; [intros [? HR']; split; [done|by apply HR']|by intros []]. }
  apply (st_quiet c A ls ps G e (λ b w, b = true → R w) (λ b, if b then ans else None)).
  - done.
  - intros b. by apply robust_imp.
  - by destruct He as [-> | ->].
  - intros w av _ Hi Hst. pose proof Hst as (_ & _ & _ & _ & _ & Hg).
    destruct (Hseen w Hg) as (_ & _ & _ & x & Hx & _). exists (v =? x). split.
    + unfold word in Hx. destruct He as [-> | ->]; cbn [perform]; unfold on_lock; rewrite Hx; cbn [mbind option_bind];
        by rewrite set_lock_same.
    + destruct (Z.eqb_spec v x) as [->|Hne]; [|by split].
      destruct (Hstep w Hi Hst Hx) as [HR' Ha]. split; [done|]. by apply Ha.
Qed.

(** ** Taking and giving back locks *)

Lemma visible_word w l : visible w l → is_Some (word w l).
Proof. destruct l as [|a]; [by eexists|]. intros [Ha _]. unfold word. simpl. by apply fmap_is_Some. Qed.

(** The section that a read lock opens, or the advice to start again. *)
Definition entered l (s : Olc.section) : fact := λ w,
  sec_lock s = l ∧ (sec_restart s = true ∨ ∃ v, s = Sec l (Rcs true v) ∧ seen l v w).

Lemma robust_entered l s : robust (entered l s).
Proof.
  apply robust_and; [apply robust_pure|]. apply robust_or; [apply robust_pure|]. apply robust_ex. intros v.
  apply robust_and; [apply robust_pure|apply robust_seen].
Qed.

Lemma st_read_lock c A ps G l : robust G → (∀ w, G w → visible w l) →
  triple (st c A [] ps G) (read_lock l) (λ s, st c A [] ps (λ w, G w ∧ entered l s w)).
Proof.
  intros HG Hvis. unfold read_lock.
  apply (triple_iter (λ _, st c A [] ps G) _ (λ s, st c A [] ps (λ w, G w ∧ entered l s w))).
  { intros s. apply lasting_st, lasting_and; [apply HG|apply robust_entered]. }
  intros _. eapply triple_bind.
  - apply (st_quiet c A [] ps G (TryReadLock l) (λ o w, match o with Some rcs => entered l (Sec l rcs) w | None => True end) (λ _, None)).
    + done.
    + intros [rcs|]; [apply robust_entered|apply robust_pure].
    + done.
    + intros w av _ Hi Hst. pose proof (Hvis w ltac:(apply Hst)) as Hv. destruct (visible_word w l Hv) as [x Hx].
      exists (try_read_lock x). split_and!; [|..|done].
      * unfold word in Hx. cbn [perform]. unfold on_lock. rewrite Hx. cbn [mbind option_bind]. by rewrite set_lock_same.
      * unfold try_read_lock. destruct (is_free x) eqn:Hf; [|by destruct (is_obsolete x); [split; [done|by left]|]].
        split; [done|]. right. exists x. split; [done|]. apply is_free_spec in Hf. apply (i_range _ Hi) in Hx as Hr.
        split_and!; [done..|lia|]. exists x. split; [done|lia].
  - cbn beta. intros [rcs|].
    + apply triple_give; [|done]. apply lasting_st, lasting_and; [apply HG|apply robust_entered].
    + apply triple_give; [|by intros w _; apply st_mono; intros []].
      apply lasting_st, lasting_and; [apply HG|apply lasting_pure].
Qed.

Lemma st_upgrade c A ls ps G l v : robust G → (∀ w, G w → seen l v w) →
  triple (st c A ls ps G) (write_guard (Sec l (Rcs true v)))
    (λ b, if b then λ w, l ∉ ls.*1.*1 ∧ st c A ((l, v + 2, None) :: ls) ps G w else st c A ls ps G).
Proof.
  intros HG Hseen. apply triple_do.
  { by apply lasting_st, HG. }
  { intros []; [apply lasting_and; [apply lasting_pure|]|]; apply lasting_st, HG. }
  intros w av Hlive Hi Hst. pose proof Hst as (Hc & Hl & Hk & Hp & Hm & Hg).
  destruct (Hseen w Hg) as (Hvis & Hv & H0 & x & Hx & Hle). cbn [perform sec_lock sec_rcs]. unfold word in Hx. unfold on_lock. rewrite Hx.
  fold (word w l) in Hx. cbn [sec_lock sec_rcs mbind option_bind].
  destruct (Z.eqb_spec x v) as [->|Hne].
  2: { exists false, w.1, (ticked (with_calls (gbindings w.2) (<[i := (c, A)]> (gcalls w.2)) w.2)).
    unfold try_lock_upgrade, try_upgrade_to_write_lock, cas_acquire. cbn [version]. rewrite (proj2 (Z.eqb_neq _ _)) by done.
    assert (Hsame : <[i := (c, A)]> (gcalls w.2) = gcalls w.2) by by apply list_insert_id.
    split; [by rewrite set_lock_same|]. split; [split_and!|]; try done.
    - by apply quiet_inv.
    - by apply quiet_guar.
    - left. by split.
    - rewrite Hsame. split_and!; try done. apply (proj2 HG w); [done| |done]. split; [apply shape_calls|done|]. intros l' _. by left. }
  pose proof (free_unowned w l v Hi Hvis Hx Hv) as Hfree. pose proof (i_range _ Hi l v Hx) as Hr.
  unfold live in Hlive.
  exists true, (set_lock_word l (v + 2) w.1), (ticked (with_owner (<[l := i]> (owner w.2)) w.2)).
  unfold try_lock_upgrade, try_upgrade_to_write_lock, cas_acquire. cbn [version rcs_lock]. rewrite Z.eqb_refl.
  unfold set_locked_bit. rewrite (wrap_small 64) by lia. split; [done|].
  assert (Hoth : ∀ l', l' ≠ l → <[l := i]> (owner w.2) !! l' = owner w.2 !! l') by (intros; by rewrite lookup_insert_ne).
  assert (Hmod : (v + 2) mod 4 = 2) by (rewrite Z.add_mod, Hv by lia; done).
  assert (Hpend : pend w.2 !! l = None).
  { destruct (pend w.2 !! l) eqn:Hd; [|done]. apply (i_pend _ Hi) in Hd. rewrite Hfree in Hd. by destruct Hd. }
  assert (Hw : ∀ l', lock_word (set_lock_word l (v + 2) w.1) l' = if decide (l' = l) then Some (v + 2) else word w l').
  { intros l'. unfold word in *. rewrite lock_word_set. case_decide; [|done]. by rewrite Hx. }
  split; [split_and!|split; [by intros ?%Hl; congruence|split_and!]]; try done.
  - apply (relock_inv w l v); try done; [lia|..].
    + destruct l as [|a]; [by rewrite lookup_insert_eq|]. split; [|rewrite lookup_insert_eq; left; split; [done|by eapply free_in_tree]].
      intros Hret. apply (i_retired _ Hi) in Hret. rewrite Hx in Hret. injection Hret as ->. discriminate Hv.
    + rewrite Hpend. by intros [].
    + intros a d Hd. right. apply (i_pend _ Hi) in Hd as [j ->]. by rewrite Hfree.
  - apply (relock_guar i w l v); try done; [left; lia|by intros ->|]. intros j Hj. rewrite Hfree, lookup_insert_eq. split; congruence.
  - by left.
  - intros l'. cbn [fmap list_fmap fst snd ticked with_owner owner]. rewrite elem_of_cons. destruct (decide (l' = l)) as [->|Hn].
    + rewrite lookup_insert_eq. naive_solver.
    + rewrite Hoth by done. rewrite (Hl l'). naive_solver.
  - constructor.
    + unfold locked, word. cbn [fst snd ticked with_owner owner pend]. rewrite lookup_insert_eq, Hw, decide_True by done. done.
    + eapply Forall_impl; [exact Hk|]. intros [[l' x'] o'] (Ho' & Hw' & Hp'). unfold locked, word in *.
      cbn [fst snd ticked with_owner owner pend] in *. assert (l' ≠ l) by congruence.
      by rewrite Hoth, Hw, decide_False by done.
  - eapply Forall_impl; [exact Hm|]. intros [a C] [Ha Hca]. split; [done|]. cbn [fst]. by rewrite contents_set_lock.
  - apply (proj2 HG w); [done| |done]. split; [apply shape_relock|by destruct l|]. intros l' Hvis'.
    unfold word. cbn [fst snd ticked with_owner owner]. rewrite Hw. case_decide as Hd; [right|left; by rewrite Hoth].
    subst. exists v. by rewrite lookup_insert_eq.
Qed.

(** A step about one lock, or the retirement of the node it protects. *)
Definition others l w w' : Prop := same_shape w w' ∧
  (∀ l', l' ≠ l → owner w'.2 !! l' = owner w.2 !! l' ∧ word w' l' = word w l') ∧
  (∀ a, NodeLock a ≠ l → a ∈ retired w'.1 ↔ a ∈ retired w.1).

Definition after (D : gworld → gworld → Prop) (G G' : fact) : Prop := ∀ w w', inv w → D w w' → G w → G' w'.

(** No lock of the list has an uncut prefix. *)
Definition tidy_locks (ls : list held_lock) : Prop := Forall (λ x, ∀ d, x.2 ≠ Some (Uncut d)) ls.

Lemma st_tidy c A ls ps G w : tidy_locks ls → st c A ls ps G w → ∀ a d, owner w.2 !! NodeLock a = Some i → pend w.2 !! NodeLock a ≠ Some (Uncut d).
Proof.
  intros Ht (_ & Hl & Hk & _) a d Ho%Hl Hd. apply list_elem_of_fmap in Ho as ([l x] & Heq & Hx).
  apply list_elem_of_fmap in Hx as ([[l' x'] o'] & [= -> ->] & Hx). simpl in Heq. subst l'.
  unfold tidy_locks in Ht. rewrite Forall_forall in Ht, Hk. specialize (Hk _ Hx) as (_ & _ & Hp). simpl in Hp. rewrite Hd in Hp.
  subst. by apply (Ht _ Hx d).
Qed.

(** The locks other than the first one of the list. *)
Lemma locked_others l x o (ls : list held_lock) w w' :
  locks i (((l, x, o) :: ls).*1.*1) w → NoDup ((l, x, o) :: ls).*1.*1 → others l w w' → Forall (λ x, locked i x.1.1 x.1.2 x.2 w) ls →
  Forall (λ x, locked i x.1.1 x.1.2 x.2 w') ls.
Proof.
  intros Hl Hnd (Hs & Ho & _) Hk. apply Forall_forall. intros y Hy. rewrite Forall_forall in Hk. destruct (Hk y Hy) as (H1 & H2 & H3).
  assert (y.1.1 ≠ l).
  { intros Heq. cbn [fmap list_fmap fst] in Hnd. apply NoDup_cons in Hnd as [Hni _]. apply Hni. rewrite <- Heq.
    apply list_elem_of_fmap. exists y.1. split; [done|]. apply list_elem_of_fmap. by exists y. }
  unfold locked. destruct (Ho y.1.1) as [-> ->]; [done|]. by rewrite (sh_pend _ _ Hs).
Qed.

Lemma mine_shape (ps : list (addr * contents)) w w' : (∀ a, private w'.2 !! a = private w.2 !! a) → (∀ a, contents_at w'.1 a = contents_at w.1 a) →
  Forall (λ x, mine i x.1 x.2 w) ps → Forall (λ x, mine i x.1 x.2 w') ps.
Proof. intros Hp Hc Hm. eapply Forall_impl; [exact Hm|]. intros x [H1 H2]. split; by rewrite ?Hp, ?Hc. Qed.

Lemma others_relock w l x x' o : word w l = Some x → (∀ l', l' ≠ l → o !! l' = owner w.2 !! l') →
  others l w (set_lock_word l x' w.1, ticked (with_owner o w.2)).
Proof.
  intros Hx Ho. split; [apply shape_relock|]. split.
  - intros l' Hne. unfold word. cbn [fst snd ticked with_owner owner]. by rewrite lock_word_set, decide_False, Ho.
  - intros a _. by destruct l.
Qed.

Lemma st_unlock c A l x ls ps G G' : lasting G → lasting G' → NoDup ((l, x, @None delayed) :: ls).*1.*1 → x mod 4 = 2 → tidy_locks ls →
  after (others l) G G' →
  triple (st c A ((l, x, None) :: ls) ps G) (do (Unlock l)) (λ _, st c A ls ps G').
Proof.
  intros HG HG' Hnd Hx4 Ht Haft. apply triple_do.
  { by apply lasting_st. }
  { intros _. by apply lasting_st. }
  intros w av Hlive Hi Hst. pose proof Hst as (Hc & Hl & Hk & Hp & Hm & Hg).
  assert (Htidy : ∀ a d, owner w.2 !! NodeLock a = Some i → pend w.2 !! NodeLock a ≠ Some (Uncut d)).
  { eapply st_tidy; [|exact Hst]. by constructor. }
  apply Forall_cons in Hk as [(Ho & Hx & Hpend) Hk]. cbn [fst snd] in *.
  pose proof (i_owner _ Hi _ _ Ho) as Hvis. pose proof (i_range _ Hi l x Hx) as Hr. unfold live in Hlive.
  exists tt, (set_lock_word l (x + 2) w.1), (ticked (with_owner (delete l (owner w.2)) w.2)).
  assert (Hmod : (x + 2) mod 4 = 0) by (rewrite Z.add_mod, Hx4 by lia; done).
  assert (Hoth : ∀ l', l' ≠ l → delete l (owner w.2) !! l' = owner w.2 !! l') by (intros; by rewrite lookup_delete_ne).
  pose proof (others_relock w l x (x + 2) _ Hx Hoth) as Hothers.
  split.
  { cbn [perform]. unfold on_lock. unfold word in Hx. rewrite Hx. cbn [mbind option_bind]. unfold write_unlock.
    by rewrite (wrap_small 64) by lia. }
  split; [split_and!|split_and!]; try done.
  - apply (relock_inv w l x); try done; [lia|..].
    + destruct l as [|a]; [by rewrite lookup_delete_eq|]. rewrite lookup_delete_eq. split.
      * intros Hret. apply (i_retired _ Hi) in Hret. rewrite Hx in Hret. injection Hret as ->. discriminate Hx4.
      * split; [done|]. pose proof (i_node _ Hi a x Hx (proj2 Hvis)) as Hn. unfold node_state in Hn. rewrite Ho in Hn.
        destruct Hn as [[_ ?]| ->]; [done|discriminate Hx4].
    + rewrite Hpend. by intros [].
    + intros a d Hd. right. intros Heq. rewrite Ho in Heq. by apply (Htidy a d).
  - apply (relock_guar i w l x); try done; [left; lia|by intros ->|]. intros j Hj. rewrite Ho, lookup_delete_eq. split; congruence.
  - by left.
  - intros l'. cbn [snd ticked with_owner owner]. destruct (decide (l' = l)) as [->|Hn].
    + rewrite lookup_delete_eq. apply NoDup_cons in Hnd as [Hni _]. naive_solver.
    + rewrite Hoth by done. rewrite (Hl l'). cbn [fmap list_fmap fst]. rewrite elem_of_cons. naive_solver.
  - by eapply locked_others.
  - eapply mine_shape; [..|exact Hm]; [done|]. intros a. apply contents_set_lock.
  - by apply (Haft w).
Qed.

Lemma st_obsolete c A a x ls ps G G' : lasting G → lasting G' → NoDup ((NodeLock a, x, @None delayed) :: ls).*1.*1 → x mod 4 = 2 →
  after (λ w w', others (NodeLock a) w w' ∧ owner w'.2 = owner w.2 ∧ retired w'.1 = retired w.1) G G' →
  triple (st c A ((NodeLock a, x, None) :: ls) ps G) (do (UnlockAndObsolete (NodeLock a)))
    (λ _, st c A ((NodeLock a, 1, None) :: ls) ps G').
Proof.
  intros HG HG' Hnd Hx4 Haft. apply triple_do.
  { by apply lasting_st. }
  { intros _. by apply lasting_st. }
  intros w av Hlive Hi Hst. pose proof Hst as (Hc & Hl & Hk & Hp & Hm & Hg). set (l := NodeLock a) in *.
  apply Forall_cons in Hk as [(Ho & Hx & Hpend) Hk]. cbn [fst snd] in *.
  pose proof (i_owner _ Hi _ _ Ho) as Hvis. pose proof (i_range _ Hi l x Hx) as Hr.
  exists tt, (set_lock_word l 1 w.1), (ticked (with_owner (owner w.2) w.2)).
  pose proof (others_relock w l x 1 (owner w.2) Hx (λ _ _, eq_refl)) as Hothers.
  split.
  { cbn [perform]. unfold on_lock. unfold word in Hx. by rewrite Hx. }
  split; [split_and!|split_and!]; try done.
  - apply (relock_inv w l x); try done; [lia|..].
    + unfold l in *. rewrite Ho. split; [|by right].
      intros Hret. apply (i_retired _ Hi) in Hret. rewrite Hx in Hret. injection Hret as ->. discriminate Hx4.
    + intros b d Hd. by left.
  - apply (relock_guar i w l x); try done; [by right|]. intros j Hj. change (owner w.2 !! l ≠ Some j ∧ owner w.2 !! l ≠ Some j). rewrite Ho. split; congruence.
  - by left.
  - constructor; [|by eapply locked_others]. unfold locked, word. cbn [fst snd ticked with_owner owner pend].
    unfold word in Hx. rewrite lock_word_set, decide_True, Hx by done. done.
  - eapply mine_shape; [..|exact Hm]; [done|]. intros b. apply contents_set_lock.
  - by apply (Haft w).
Qed.

(** ** Nodes that are not published *)

Lemma own_node_move w a o p : inv w → (private w.2 !! a = Some i ∨ nodes w.1 !! a = None) →
  (∀ b, b ≠ a → p !! b = private w.2 !! b) → own_move w (with_node a o w.1, ticked (with_private p w.2)).
Proof.
  intros Hi Ha Hp. split; [by eapply own_shape|done|]. intros l Hv. left. split; [|done].
  eapply own_word. intros ->. destruct Hv as [Hv1 Hv2]. destruct Hv1 as [x Hx]. destruct Ha; congruence.
Qed.

(** The node at one address comes, goes, or changes. *)
Lemma own_node_step {X} c A ls (ps ps' : list (addr * contents)) G (e : access X) w a o p :
  inv w → st c A ls ps G w → robust G → waits e = false → (private w.2 !! a = Some i ∨ nodes w.1 !! a = None) →
  (∀ b, b ≠ a → p !! b = private w.2 !! b) →
  match o with None => p !! a = None | Some x => p !! a = Some i ∧ node_lock x = 0 end →
  (∀ b, p !! b = Some i ↔ b ∈ ps'.*1) →
  (∀ b C, (b, C) ∈ ps' → (b ≠ a ∧ (b, C) ∈ ps) ∨ (b = a ∧ node_contents <$> o = Some C)) →
  step_ok X e w (with_node a o w.1, ticked (with_private p w.2)) ∧
  st c A ls ps' G (with_node a o w.1, ticked (with_private p w.2)).
Proof.
  intros Hi Hst HG Hwait Ha Hp Hpa Hps' Hin. pose proof Hst as (Hc & Hl & Hk & Hpr & Hm & Hg). split; [split_and!|].
  - by apply (own_inv i w a o p).
  - by apply own_guar.
  - done.
  - by left.
  - by rewrite Hwait.
  - split_and!; try done.
    + eapply Forall_impl; [exact Hk|]. intros [[l y] d] (Ho & Hw & Hd). unfold locked. split_and!; [done| |done].
      rewrite own_word; [done|]. cbn [fst] in *. intros ->. destruct (i_owner _ Hi _ _ Ho) as [[z Hz] Hv]. destruct Ha; congruence.
    + apply Forall_forall. intros [b C] Hb. destruct (Hin b C Hb) as [[Hne Hbp]|[-> HC]].
      * rewrite Forall_forall in Hm. destruct (Hm _ Hbp) as [H1 H2]. unfold mine, contents_at in *. cbn [fst snd ticked with_private private] in *.
        by rewrite Hp, with_node_ne.
      * unfold mine, contents_at. cbn [fst snd ticked with_private private]. rewrite with_node_eq. split; [|done].
        destruct o; [by destruct Hpa|done].
    + apply (proj2 HG w); [done| |done]. by apply own_node_move.
Qed.

Lemma st_new c A ls ps G (e : access (option addr)) C : (e = match C with LeafC l => NewLeaf l | InodeC n => NewInode n end) → robust G →
  triple (st c A ls ps G) (do e) (λ o, match o with Some a => st c A ls ((a, C) :: ps) G | None => st c A ls ps G end).
Proof.
  intros -> HG. apply triple_do.
  { by apply lasting_st, HG. }
  { intros []; apply lasting_st, HG. }
  intros w av Hlive Hi Hst. pose proof Hst as (Hc & Hl & Hk & Hpr & Hm & Hg). set (a := next_addr w.1).
  assert (Hna : nodes w.1 !! a = None).
  { destruct (nodes w.1 !! a) eqn:Ha; [|done]. assert (is_Some (nodes w.1 !! a)) as Hs by by rewrite Ha.
    apply (i_fresh _ Hi) in Hs. unfold a in Hs. lia. }
  assert (Hpa : private w.2 !! a = None).
  { destruct (private w.2 !! a) as [j|] eqn:Ha; [|done]. destruct (i_private _ Hi a j Ha) as (_ & _ & Hw).
    unfold word in Hw. simpl in Hw. by rewrite Hna in Hw. }
  destruct av.
  - exists (Some a), (with_node a (Some (Object 0 C)) w.1), (ticked (with_private (<[a := i]> (private w.2)) w.2)).
    split; [destruct C; cbn [perform]; by rewrite new_object_with_node|].
    apply (own_node_step c A ls ps ((a, C) :: ps)); try done.
    + by destruct C.
    + by right.
    + intros b Hne. by rewrite lookup_insert_ne.
    + by rewrite lookup_insert_eq.
    + intros b. cbn [fmap list_fmap fst]. rewrite elem_of_cons. destruct (decide (b = a)) as [->|Hne].
      * rewrite lookup_insert_eq. naive_solver.
      * rewrite lookup_insert_ne by done. rewrite (Hpr b). naive_solver.
    + intros b D [[= -> ->]|Hb]%elem_of_cons; [by right|left]. split; [|done]. intros ->.
      rewrite Forall_forall in Hm. destruct (Hm _ Hb) as [H1 _]. simpl in H1. congruence.
  - exists None, w.1, (ticked (with_calls (gbindings w.2) (<[i := (c, A)]> (gcalls w.2)) w.2)).
    assert (Hsame : <[i := (c, A)]> (gcalls w.2) = gcalls w.2) by by apply list_insert_id.
    split; [by destruct C|]. split; [split_and!|].
    + by apply quiet_inv.
    + by apply quiet_guar.
    + done.
    + left. by split.
    + by destruct C.
    + rewrite Hsame. split_and!; try done. apply (proj2 HG w); [done| |done]. split; [apply shape_calls|done|]. intros l' _. by left.
Qed.

Lemma st_free c A ls a C ps p G : robust G → NoDup ((a, C) :: ps).*1 → ptr_addr p = Some a → points_to p C = true →
  triple (st c A ls ((a, C) :: ps) G) (do (Free p)) (λ _, st c A ls ps G).
Proof.
  intros HG Hnd Ha Hp. apply triple_do.
  { by apply lasting_st, HG. }
  { intros _. apply lasting_st, HG. }
  intros w av Hlive Hi Hst. pose proof Hst as (Hc & Hl & Hk & Hpr & Hm & Hg).
  apply Forall_cons in Hm as [[Hpa Hca] Hm]. cbn [fst snd] in *.
  assert (Hna : is_Some (nodes w.1 !! a)) by (unfold contents_at in Hca; destruct (nodes w.1 !! a); [by eexists|done]).
  apply NoDup_cons in Hnd as [Hni Hnd].
  eexists tt, _, (ticked (with_private (delete a (private w.2)) w.2)). split.
  { cbn [perform]. destruct Hna as [o Ho]. rewrite Ha. cbn [mbind option_bind]. unfold contents_at in Hca. rewrite Ho in Hca |- *.
    cbn [mbind option_bind]. injection Hca as ->. rewrite Hp. rewrite (free_with_node w) by (try done; by eexists). done. }
  apply (own_node_step c A ls ((a, C) :: ps) ps); try done.
  - by left.
  - intros b Hne. by rewrite lookup_delete_ne.
  - by rewrite lookup_delete_eq.
  - intros b. destruct (decide (b = a)) as [->|Hne].
    + rewrite lookup_delete_eq. naive_solver.
    + rewrite lookup_delete_ne by done. rewrite (Hpr b). cbn [fmap list_fmap fst]. rewrite elem_of_cons. naive_solver.
  - intros b D Hb. left. split; [|apply elem_of_cons; by right]. intros ->. apply Hni. apply list_elem_of_fmap. by exists (a, D).
Qed.

Lemma st_init c A ls a C n ps G : robust G → NoDup ((a, C) :: ps).*1 → (∃ n0, C = InodeC n0 ∧ type n0 = type n) →
  triple (st c A ls ((a, C) :: ps) G) (do (InitInode a n)) (λ _, st c A ls ((a, InodeC n) :: ps) G).
Proof.
  intros HG Hnd (n0 & -> & Hty). apply triple_do.
  { by apply lasting_st, HG. }
  { intros _. apply lasting_st, HG. }
  intros w av Hlive Hi Hst. pose proof Hst as (Hc & Hl & Hk & Hpr & Hm & Hg).
  apply Forall_cons in Hm as [[Hpa Hca] Hm]. cbn [fst snd] in *. apply NoDup_cons in Hnd as [Hni Hnd].
  eexists tt, _, (ticked (with_private (private w.2) w.2)). split.
  { cbn [perform]. unfold on_inode. apply inode_at_contents in Hca. rewrite Hca. cbn [mbind option_bind].
    rewrite bool_decide_eq_true_2 by done. cbn [mbind option_bind]. by rewrite (set_inode_with_node i w). }
  apply (own_node_step c A ls ((a, InodeC n0) :: ps) ((a, InodeC n) :: ps)); try done.
  - by left.
  - intros b D [[= -> ->]|Hb]%elem_of_cons; [by right|left]. split; [|apply elem_of_cons; by right].
    intros ->. apply Hni. apply list_elem_of_fmap. by exists (a, D).
Qed.

(** ** Retirement *)

Lemma others_retire a o w : (∀ l, l ≠ NodeLock a → o !! l = owner w.2 !! l) →
  others (NodeLock a) w (retire a w.1, ticked (with_owner o w.2)).
Proof.
  intros Ho. split; [by split|]. split.
  - intros l Hne. split; [by apply Ho|done].
  - intros b Hne. cbn [fst retire retired]. rewrite elem_of_cons. split; [|by right]. intros [->|?]; done.
Qed.

(** A pointer that is valid is of the type of the node. *)
Lemma perform_retire w p a av : valid_ptr w p → ptr_addr p = Some a → perform av (Retire p) w.1 = Some (tt, retire a w.1).
Proof.
  intros Hv Ha. destruct (valid_contents _ _ _ Hv Ha) as (_ & [[x C] Ho] & _). cbn [perform]. rewrite Ha. cbn [mbind option_bind].
  rewrite Ho. cbn [mbind option_bind node_contents]. destruct p as [|b l|b t]; [done|..]; injection Ha as ->; destruct Hv as [_ Hc].
  - unfold contents_at in Hc. rewrite Ho in Hc. injection Hc as ->. cbn [points_to]. by rewrite bool_decide_eq_true_2.
  - destruct Hc as (n & Hn & Ht). unfold inode_at in Hn. rewrite Ho in Hn. destruct C as [|n']; [done|]. injection Hn as ->.
    cbn [points_to]. by rewrite bool_decide_eq_true_2.
Qed.

(** What hands a node to the reclamation. *)
Definition retiring (p : olc_ptr) : prog unit :=
  match p with PInode a t => retire_inode a t | _ => retire_leaf p end.

Lemma retiring_triple P p Q : p ≠ PNull → lasting Q → triple P (do (Retire p)) (λ _, Q) → triple P (retiring p) (λ _, Q).
Proof.
  intros Hp HQ Ht. destruct p as [|a l|a t]; [done|..]; (apply triple_then_counts; [|done|done]).
  - apply decrement_leaf_counts.
  - apply decrement_inode_counts.
Qed.

(** The lock stays the thread's while the node is in the tree, *)
Lemma st_retire c A p a ls ps G G' : lasting G → lasting G' → ptr_addr p = Some a → (∀ w, inv w → G w → valid_ptr w p) → (∀ w, G w → unretired i a w) →
  after (λ w w', others (NodeLock a) w w' ∧ owner w'.2 = owner w.2 ∧ retired w'.1 = a :: retired w.1) G G' →
  NoDup ((NodeLock a, 1, @None delayed) :: ls).*1.*1 →
  triple (st c A ((NodeLock a, 1, None) :: ls) ps G) (retiring p) (λ _, st c A ((NodeLock a, 1, None) :: ls) ps G').
Proof.
  intros HG HG' Hp Hv Hu Haft Hnd. apply retiring_triple; [by intros ->|by apply lasting_st|]. apply triple_do.
  { by apply lasting_st. }
  { intros _. by apply lasting_st. }
  intros w av Hlive Hi Hst. pose proof Hst as (Hc & Hl & Hk & Hpr & Hm & Hg).
  apply Forall_cons in Hk as [(Ho & Hx & Hpend) Hk]. cbn [fst snd] in *. destruct (Hu w Hg) as [_ Hnr].
  pose proof (others_retire a (owner w.2) w (λ _ _, eq_refl)) as Hoth.
  exists tt, (retire a w.1), (ticked (with_owner (owner w.2) w.2)). split.
  { apply perform_retire; [by apply Hv|done]. }
  split; [split_and!|split_and!]; try done.
  - apply (retire_inv i); try done. by left.
  - apply (retire_guar i); try done. by left.
  - by left.
  - constructor; [done|]. by eapply locked_others.
  - apply (Haft w); [done| |done]. by split_and!.
Qed.

(** and is given up when it is not. *)
Lemma st_retire_gone c A p a ls ps G G' : lasting G → lasting G' → ptr_addr p = Some a →
  (∀ w, G w → unretired i a w ∧ gone i a w ∧ valid_ptr w p) →
  after (others (NodeLock a)) G G' → NoDup ((NodeLock a, 1, @None delayed) :: ls).*1.*1 →
  triple (st c A ((NodeLock a, 1, None) :: ls) ps G) (retiring p) (λ _, st c A ls ps G').
Proof.
  intros HG HG' Hp Hu Haft Hnd. apply retiring_triple; [by intros ->|by apply lasting_st|]. apply triple_do.
  { by apply lasting_st. }
  { intros _. by apply lasting_st. }
  intros w av Hlive Hi Hst. pose proof Hst as (Hc & Hl & Hk & Hpr & Hm & Hg).
  apply Forall_cons in Hk as [(Ho & Hx & Hpend) Hk]. cbn [fst snd] in *. destruct (Hu w Hg) as ([_ Hnr] & [_ Hgone] & Hv).
  assert (Hd : ∀ l, l ≠ NodeLock a → delete (NodeLock a) (owner w.2) !! l = owner w.2 !! l) by (intros; by rewrite lookup_delete_ne).
  pose proof (others_retire a _ w Hd) as Hoth.
  exists tt, (retire a w.1), (ticked (with_owner (delete (NodeLock a) (owner w.2)) w.2)). split.
  { by apply perform_retire. }
  split; [split_and!|split_and!]; try done.
  - apply (retire_inv i); try done. right. by rewrite lookup_delete_eq.
  - apply (retire_guar i); try done. right. by rewrite lookup_delete_eq.
  - by left.
  - intros l. cbn [snd ticked with_owner owner]. destruct (decide (l = NodeLock a)) as [->|Hn].
    + rewrite lookup_delete_eq. apply NoDup_cons in Hnd as [Hni _]. naive_solver.
    + rewrite Hd by done. rewrite (Hl l). cbn [fmap list_fmap fst]. rewrite elem_of_cons. naive_solver.
  - by eapply locked_others.
  - by apply (Haft w).
Qed.

(** ** Changes *)

(** A change of the tree, and the state it leaves the thread in. *)
Lemma st_edit {X} c A ls ps G (e : access X) (Q : X → fact) : lasting G → (∀ x, lasting (Q x)) → waits e = false →
  (∀ w av, live w → inv w → st c A ls ps G w → ∃ x s' g', perform av e w.1 = Some (x, s') ∧
     edit i (prepends e) w (s', g') ∧ call_ok i w (s', g') ∧ Q x (s', g')) →
  triple (st c A ls ps G) (do e) Q.
Proof.
  intros HG HQ Hwait Hstep. apply triple_do; [by apply lasting_st|done|].
  intros w av Hlive Hi Hst. destruct (Hstep w av Hlive Hi Hst) as (x & s' & g' & He & Hed & Hc & Hq).
  exists x, s', g'. split; [done|]. split; [|done]. split_and!.
  - by eapply edit_inv.
  - by apply edit_guar.
  - apply (ed_clock _ _ _ _ Hed).
  - done.
  - by rewrite Hwait.
Qed.
End rules.
