(* ===== verification/OlcUse.v ===== *)
(** The rules of the logic in the forms in which the code uses them: entering a
    node, checking a version or starting again, taking two locks or three, and
    leaving. *)

From ITree Require Import ITree.
From S2P Require Import Prelude Words Threads ArtKey KeyPrefix SortedAssoc Simd InodeBase.
From S2P Require Import Heap Leaf InodeSpec Inode Db DbMap DbTrace OptimisticLock OlcState Olc OlcSystem OlcLogic OlcTree OlcSurgery OlcInv OlcFacts OlcSteps OlcEdit OlcChanges OlcRules.
#[local] Open Scope prog_scope.

Create HintDb olc.

(** Facts that survive, by their form; those with a name are in [olc]. *)
Ltac steady :=
  repeat first
    [ apply steady_pure | apply steady_pos; reflexivity | apply steady_leaf | match goal with |- context [edge_at ?r ?p ?c] => exact (steady_edge _ _ r p c _) end | apply steady_full
    | apply steady_node | apply steady_and | apply steady_ex; intros ? ].

Ltac shaped :=
  repeat first
    [ apply shaped_pure | apply shaped_pos | apply shaped_leaf | apply shaped_edge | apply shaped_full
    | apply shaped_node | apply shaped_and | apply shaped_ex; intros ? ].

Ltac robust :=
  repeat first
    [ assumption | solve [auto 1 with olc nocore] | apply robust_pure | apply robust_given; [steady|shaped] | apply robust_valid | apply robust_seen
    | apply robust_entered | apply robust_unretired | apply robust_is_retired | apply robust_gone | apply robust_and | apply robust_ex; intros ? ].

Section facts.
Context `{Target} (i : nat).
Implicit Types (w : gworld).

(** A version that is current belongs to a lock that nobody has. *)
Lemma current_pend w l v : inv w → seen l v w → word w l = Some v → owner w.2 !! l = None ∧ pend w.2 !! l = None.
Proof.
  intros Hi (Hvis & Hv & _) Hw. pose proof (free_unowned _ _ _ Hi Hvis Hw Hv) as Ho. split; [done|].
  destruct (pend w.2 !! l) eqn:Hd; [|done]. apply (i_pend _ Hi) in Hd. rewrite Ho in Hd. by destruct Hd.
Qed.

Lemma unlocked_word w l v : locks i [] w → holds i l v w → word w l = Some v.
Proof. intros Hl [?|[Ho _]]; [done|]. apply Hl in Ho. by apply elem_of_nil in Ho. Qed.

Lemma given_one w l v φ : given i [(l, v)] φ w → word w l = Some v → φ w.
Proof. intros [_ Hφ] Hw. apply Hφ. constructor; [by left|done]. Qed.

Lemma given_seen w l v φ : given i [(l, v)] φ w → seen l v w.
Proof. intros [Hs _]. by inversion Hs. Qed.

Lemma given_intro w l v (φ : gworld → Prop) : seen l v w → (holds i l v w → φ w) → given i [(l, v)] φ w.
Proof. intros Hs Hφ. split; [by constructor|]. intros Hh. apply Hφ. by inversion Hh. Qed.

(** What the tree says of a node with a current version. *)
Lemma pos_tree w a t c n : inv w → inode_pos a t c (Some n) w →
  tree w.2 !! c = Some (PInode a t) ∧ inode_at w.1 a = Some n ∧ logical w a = Some (InodeC n) ∧ node_wf n ∧ (length (full c n) < 8)%nat ∧
  ∀ b, assoc b (entries n) = tree w.2 !! (full c n ++ [b]).
Proof.
  intros Hi (Hp & Hq & n' & Hn & <-). pose proof (logical_inode _ _ _ Hn Hp) as Hl.
  destruct (t_inode _ _ _ _ (i_tree _ Hi) c a t n' Hq Hl) as (Hw & Hlen & Hch). done.
Qed.

Lemma visible_valid w p a : valid_ptr w p → ptr_addr p = Some a → visible w (NodeLock a).
Proof. intros Hv Hp. by destruct (valid_contents _ _ _ Hv Hp) as (? & ? & _). Qed.
End facts.

Section use.
Context `{Target} (i : nat) (reading : bool).

Abbreviation fact := (gworld → Prop).
Abbreviation triple := (triple i reading).
Abbreviation st := (st i).
Implicit Types (G : fact) (ls : list held_lock) (ps : list (addr * contents)) (l : lock_ref).

(** [if (cs.must_restart()) return] after [try_read_lock]. *)
Lemma st_enter {R} c A ps G l (fail : prog R) (rest : Olc.section → prog R) Q :
  robust i reading G → (∀ w, G w → visible w l) → triple (st c A [] ps G) fail Q →
  (∀ x, triple (st c A [] ps (λ w, G w ∧ seen l x w)) (rest (Sec l (Rcs true x))) Q) →
  triple (st c A [] ps G) (s <- read_lock l; if sec_restart s then fail else rest s) Q.
Proof.
  intros HG Hv Hf Hr. eapply triple_bind; [by apply st_read_lock|]. intros s. cbn beta.
  destruct (sec_restart s) eqn:Hs.
  - eapply triple_pre; [|exact Hf]. intros w _. apply st_mono. by intros [? _].
  - apply (triple_pre _ _ _ (λ w, ∃ x, s = Sec l (Rcs true x) ∧ st c A [] ps (λ w, G w ∧ seen l x w) w)).
    + intros w _ Hst. pose proof Hst as (_ & _ & _ & _ & _ & _ & _ & [Hd|(x & -> & Hx)]); [congruence|]. exists x. split; [done|].
      revert Hst. apply st_mono. tauto.
    + apply triple_exists. intros x. by apply triple_pure; intros ->.
Qed.

(** The same at a node that a pointer leads to. *)
Lemma st_enter_node {R} c A ps G node a (fail : prog R) (rest : Olc.section → prog R) Q : ptr_addr node = Some a →
  robust i reading G → (∀ w, G w → valid_ptr w node) → triple (st c A [] ps G) fail Q →
  (∀ x, triple (st c A [] ps (λ w, G w ∧ seen (NodeLock a) x w)) (rest (Sec (NodeLock a) (Rcs true x))) Q) →
  triple (st c A [] ps G) (l <- node_ptr_lock node; s <- read_lock l; if sec_restart s then fail else rest s) Q.
Proof.
  intros Ha HG Hv Hf Hr. unfold node_ptr_lock. apply (triple_of_opt _ _ _ _ (NodeLock a)); [by rewrite Ha|by apply lasting_st, HG|].
  apply st_enter; try done. intros w Hg. by apply (visible_valid w node), Ha; apply Hv.
Qed.

(** [if (!cs.check()) return]. *)
Lemma st_need {R} c A ls ps G l v (e : access bool) (φ : fact) (ans : option answer) (fail rest : prog R) Q :
  (e = Check l (Rcs true v) ∨ e = TryReadUnlock l (Rcs true v)) → robust i reading G → robust i reading φ → (∀ w, G w → seen l v w) →
  (∀ w, inv w → st c A ls ps G w → word w l = Some v → φ w ∧
     (∀ a, ans = Some a → ∃ o, c = Pending o ∧ spec_op o (gbindings w.2) = (a, gbindings w.2))) →
  triple (st c A ls ps G) fail Q → triple (st c (extend ans A) ls ps (λ w, G w ∧ φ w)) rest Q →
  triple (st c A ls ps G) (need do e else fail; rest) Q.
Proof. intros He HG Hφ Hs Hstep Hf Hr. eapply triple_bind; [by eapply st_check|]. by intros []. Qed.

(** [if (guard.must_restart()) return]. *)
Lemma st_take {R} c A ls ps G l v (fail rest : prog R) Q : robust i reading G → (∀ w, G w → seen l v w) →
  triple (st c A ls ps G) fail Q → (l ∉ ls.*1.*1 → triple (st c A ((l, v + 2, None) :: ls) ps G) rest Q) →
  triple (st c A ls ps G) (need write_guard (Sec l (Rcs true v)) else fail; rest) Q.
Proof. intros HG Hs Hf Hr. eapply triple_bind; [by apply st_upgrade|]. intros []; [by apply triple_pure|done]. Qed.

(** A guard is left behind, with what was known of its lock. *)
Lemma st_leave {R} c A l x ls ps G rcs (rest : prog R) Q : lasting i reading G → NoDup ((l, x, @None delayed) :: ls).*1.*1 → x mod 4 = 2 → tidy_locks ls →
  triple (st c A ls ps (λ _, True)) rest Q →
  triple (st c A ((l, x, None) :: ls) ps G) (guard_exit (Sec l rcs);; rest) Q.
Proof. intros HG Hnd Hx Ht Hr. eapply triple_bind; [by apply (st_unlock _ _ _ _ _ _ _ _ G (λ _, True)); [..|by intros w w']|]. by intros []. Qed.

Lemma mod_locked v : v mod 4 = 0 → (v + 2) mod 4 = 2.
Proof. intros Hv. by rewrite Z.add_mod, Hv by lia. Qed.

(** A lock of the list is held with the version it was taken at. *)
Lemma st_holds c A ls ps G l v d w : st c A ls ps G w → (l, v + 2, d) ∈ ls → holds i l v w.
Proof.
  intros (_ & _ & Hk & _) Hin. rewrite Forall_forall in Hk. destruct (Hk _ Hin) as (Ho & Hw & _). by right.
Qed.

(** ** Nodes of the thread's own *)

Lemma make_inode_ok c A ls ps G n : robust i reading G → triple (st c A ls ps G) (make_inode n)
  (λ r, match r with Value a => st c A ls ((a, InodeC n) :: ps) G | Thrown _ => st c A ls ps G end).
Proof.
  intros HG. unfold make_inode. eapply triple_bind; [by apply (st_new _ _ _ _ _ _ _ _ (InodeC n))|].
  intros [a|]; [apply triple_counts; [apply increment_inode_counts|by apply lasting_st, HG|]|];
    (apply triple_give; [by apply lasting_st, HG|done]).
Qed.

Lemma own_inode_fresh c A ls a n ps G w : (∀ b C, (b, C) ∈ ps → ∃ l : basic_leaf, C = LeafC l) → st c A ls ((a, InodeC n) :: ps) G w → a ∉ ps.*1.
Proof.
  intros Hps (_ & _ & _ & _ & Hm & _) ([b C] & -> & Hb)%list_elem_of_fmap. destruct (Hps b C Hb) as [l ->].
  apply Forall_cons in Hm as [[_ H1] Hm]. rewrite Forall_forall in Hm. destruct (Hm _ Hb) as [_ H2]. cbn [fst snd] in *. congruence.
Qed.

(** A new node is given up. *)
Lemma st_discard {R} c A ls a n ps G (rest : prog R) Q : robust i reading G → (∀ b C, (b, C) ∈ ps → ∃ l : basic_leaf, C = LeafC l) → NoDup ps.*1 →
  triple (st c A ls ps G) rest Q → triple (st c A ls ((a, InodeC n) :: ps) G) (free_inode a (type n);; rest) Q.
Proof.
  intros HG Hps Hnd Hr. apply (triple_know i reading (a ∉ ps.*1)); [intros w _; by apply own_inode_fresh|]. intros Ha.
  eapply (triple_bind _ _ _ _ _ (λ _, st c A ls ps G)); [|by intros []].
  apply triple_then_counts; [apply decrement_inode_counts|by apply lasting_st, HG|].
  apply st_free; [done|by constructor|done|]. cbn [points_to]. by apply bool_decide_eq_true.
Qed.

Lemma st_make {R} c A ls a n n' ps G (rest : prog R) Q : robust i reading G → (∀ b C, (b, C) ∈ ps → ∃ l : basic_leaf, C = LeafC l) → NoDup ps.*1 → type n = type n' →
  triple (st c A ls ((a, InodeC n') :: ps) G) rest Q → triple (st c A ls ((a, InodeC n) :: ps) G) (do (InitInode a n');; rest) Q.
Proof.
  intros HG Hps Hnd Hty Hr. apply (triple_know i reading (a ∉ ps.*1)); [intros w _; by apply own_inode_fresh|]. intros Ha.
  eapply triple_bind; [apply st_init; [done|by constructor|by exists n]|]. by intros [].
Qed.

Lemma lasting_st_true c A ls ps : lasting i reading (st c A ls ps (λ _, True)).
Proof. apply lasting_st, lasting_pure. Qed.

(** ** The lock of a node and that of the place of the pointer to it *)

Definition both (a : addr) (x : Z) (d : option delayed) (r : slot_ref) (v0 : Z) : list held_lock :=
  [(NodeLock a, x + 2, d); (slot_lock r, v0 + 2, None)].

Lemma both_nodup a x d r v0 : slot_lock r ≠ NodeLock a → NoDup (both a x d r v0).*1.*1.
Proof. intros Hne. repeat constructor; [intros Heq%list_elem_of_singleton; by apply Hne|apply not_elem_of_nil]. Qed.

Lemma take_both {R} c A ps G r v0 a x (fail1 fail2 rest : prog R) Q :
  robust i reading G → (∀ w, G w → seen (slot_lock r) v0 w ∧ seen (NodeLock a) x w) →
  triple (st c A [] ps G) fail1 Q → triple (st c A [] ps (λ _, True)) fail2 Q →
  (slot_lock r ≠ NodeLock a → triple (st c A (both a x None r v0) ps G) rest Q) →
  triple (st c A [] ps G)
    (need write_guard (Sec (slot_lock r) (Rcs true v0)) else fail1;
     need write_guard (Sec (NodeLock a) (Rcs true x)) else (guard_exit (Sec (slot_lock r) (Rcs true v0));; fail2); rest) Q.
Proof.
  intros HG Hs H1 H2 Hr. apply (triple_know i reading (v0 mod 4 = 0)).
  { intros w _ (_ & _ & _ & _ & _ & Hg). by destruct (Hs w Hg) as [(_ & ? & _) _]. }
  intros Hv. apply st_take; [done|by intros w [? _]%Hs|done|]. intros _. apply st_take; [done|by intros w [_ ?]%Hs| |].
  - apply st_leave; [apply HG|repeat constructor; apply not_elem_of_nil|by apply mod_locked|by constructor|done].
  - intros Hne. apply Hr. intros Heq. by apply Hne, list_elem_of_singleton.
Qed.

Lemma leave_both {R} c A a x r v0 G s1 s2 (rest : prog R) Q :
  lasting i reading G → slot_lock r ≠ NodeLock a → x mod 4 = 0 → v0 mod 4 = 0 → triple (st c A [] [] (λ _, True)) rest Q →
  triple (st c A (both a x None r v0) [] G) (guard_exit (Sec (NodeLock a) s1);; guard_exit (Sec (slot_lock r) s2);; rest) Q.
Proof.
  intros HG Hne Hx Hv Hr. apply st_leave; [done|by apply both_nodup|by apply mod_locked|by repeat constructor|].
  apply st_leave; [apply lasting_pure|repeat constructor; apply not_elem_of_nil|by apply mod_locked|by constructor|done].
Qed.

(** ** Arriving at a node *)

(** The pointer to follow, from a place whose lock had the version [v0]. *)
Definition arrived (r : slot_ref) (v0 : Z) (node : olc_ptr) (c : list Z) : fact := λ w,
  valid_ptr w node ∧ given i [(slot_lock r, v0)] (edge_at r node c) w.

Lemma robust_arrived r v0 node c : robust i reading (arrived r v0 node c).
Proof. unfold arrived. robust. Qed.

(** What holds of a node that was in the tree at [c], even if it has left. *)
Definition pos_ok (c : list Z) (node : olc_ptr) : Prop :=
  match node with
  | PNull => False
  | PLeaf _ l => ∃ k v, leaf_holds l k v ∧ length k = 8%nat ∧ c `prefix_of` k
  | PInode _ _ => (length c < 8)%nat
  end.

Lemma pos_ok_tree w c node : inv w → tree w.2 !! c = Some node → pos_ok c node.
Proof.
  intros Hi Hc. destruct node as [|a l|a t]; cbn [pos_ok].
  - by apply (t_pointed _ _ _ _ (i_tree _ Hi) c PNull).
  - destruct (t_leaf _ _ _ _ (i_tree _ Hi) c a l Hc) as (k & v & ? & ? & ? & _). by exists k, v.
  - destruct (t_inode_at _ _ _ _ (i_tree _ Hi) c a t Hc) as [n Hn].
    destruct (t_inode _ _ _ _ (i_tree _ Hi) c a t n Hc Hn) as (_ & Hl & _). pose proof (full_le c n). lia.
Qed.

Lemma pos_ok_addr c node : pos_ok c node → ∃ a, ptr_addr node = Some a.
Proof. destruct node; [done|by eexists..]. Qed.

(** What an inner node has, as long as neither its lock nor that of its place
    changed. *)
Definition read_at (r : slot_ref) (v0 : Z) (a : addr) (x : Z) (t : node_type) (c : list Z) (n : inode olc_ptr) : fact := λ w,
  node_wf n ∧ type n = t ∧ given i [(slot_lock r, v0); (NodeLock a, x)] (node_at r a t c n) w.

Lemma robust_read_at r v0 a x t c n : robust i reading (read_at r v0 a x t c n).
Proof.
  unfold read_at. apply robust_and; [apply robust_pure|]. apply robust_and; [apply robust_pure|].
  apply robust_given; [apply steady_node|apply shaped_node].
Qed.

(** A read, and what else it tells. *)
Lemma st_read_and c A ls ps G r v0 a x t c0 (φ : inode olc_ptr → fact) : robust i reading G → (∀ n, robust i reading (φ n)) →
  (∀ w, G w → arrived r v0 (PInode a t) c0 w ∧ seen (NodeLock a) x w) →
  (∀ w n, inv w → st c A ls ps G w → inode_at w.1 a = Some n → φ n w) →
  triple (st c A ls ps G) (do (ReadInode a)) (λ n, st c A ls ps (λ w, G w ∧ read_at r v0 a x t c0 n w ∧ φ n w)).
Proof.
  intros HG Hφ Hin Hn. apply (st_quiet i reading _ _ _ _ _ (ReadInode a) (λ n w, read_at r v0 a x t c0 n w ∧ φ n w) (λ _, None)); try done.
  { intros n. apply robust_and; [apply robust_read_at|done]. }
  intros w av _ Hi Hst. destruct (Hin w ltac:(apply Hst)) as [[(Hp & n & Hna & Ht) Hg] Hs].
  exists n. cbn [perform]. rewrite Hna. split; [done|]. split; [|done]. split; [|by apply Hn]. split; [by apply (i_wf _ Hi a)|].
  split; [done|]. split; [by apply Forall_cons; split; [eapply given_seen|apply Forall_singleton]|].
  intros Hh. apply Forall_cons in Hh as [Hh _]. split; [|done]. apply Hg. by constructor.
Qed.

Lemma st_read c A ls ps G r v0 a x t c0 : robust i reading G →
  (∀ w, G w → arrived r v0 (PInode a t) c0 w ∧ seen (NodeLock a) x w) →
  triple (st c A ls ps G) (do (ReadInode a)) (λ n, st c A ls ps (λ w, G w ∧ read_at r v0 a x t c0 n w)).
Proof.
  intros HG Hin. eapply triple_post; [|apply (st_read_and _ _ _ _ _ r v0 a x t c0 (λ _ _, True)); [done|intros; apply robust_pure|done|done]].
  intros n w _. apply st_mono. tauto.
Qed.

Lemma read_held r v0 a x t c n w : read_at r v0 a x t c n w → holds i (slot_lock r) v0 w → holds i (NodeLock a) x w → node_at r a t c n w.
Proof. intros (_ & _ & _ & Hg) H1 H2. apply Hg. apply Forall_cons. split; [done|]. by apply Forall_singleton. Qed.

(** Two reads of one state. *)
Lemma read_same r v0 a x t c n n' w : read_at r v0 a x t c n w → read_at r v0 a x t c n' w →
  holds i (slot_lock r) v0 w → holds i (NodeLock a) x w → n = n'.
Proof.
  intros Hn Hn' H1 H2. destruct (read_held _ _ _ _ _ _ _ _ Hn H1 H2) as [_ E1].
  destruct (read_held _ _ _ _ _ _ _ _ Hn' H1 H2) as [_ E2]. congruence.
Qed.

(** What a place holds is in the tree. *)
Lemma edge_child_tree w a s p c : inv w → edge_at (ChildSlot a s) p c w → tree w.2 !! c = Some p.
Proof.
  intros Hi (Hp & q & t & n & b & j & Hq & Hn & -> & _ & Ha).
  destruct (t_inode _ _ _ _ (i_tree _ Hi) q a t n Hq (logical_inode _ _ _ Hn Hp)) as (_ & _ & Hch). by rewrite <- Hch.
Qed.

(** Where a node is that a thread reads on its own, while its lock is as it was. *)
Definition read_alone (a : addr) (x : Z) (t : node_type) (n : inode olc_ptr) : fact :=
  given i [(NodeLock a, x)] (λ w, ∃ c f, full_at a t c f n w).

Lemma robust_read_alone a x t n : robust i reading (read_alone a x t n).
Proof.
  unfold read_alone. apply robust_given.
  - apply steady_ex. intros c. apply steady_ex. intros f. apply steady_full.
  - apply shaped_ex. intros c. apply shaped_ex. intros f. apply shaped_full.
Qed.

Lemma alone_now w a x t n : inv w → locks i [] w → seen (NodeLock a) x w → valid_ptr w (PInode a t) → inode_at w.1 a = Some n → read_alone a x t n w.
Proof.
  intros Hi Hl Hs (Hpr & n' & Hn' & Ht) Hn. rewrite Hn in Hn'. injection Hn' as <-. apply given_intro; [done|]. intros Hh.
  apply unlocked_word in Hh; [|done]. destruct (current_pend w _ _ Hi Hs Hh) as [_ Hp]. destruct Hs as (Hvis & Hx & _).
  destruct (free_in_tree w a x Hi Hvis Hh Hx) as (q & p & Hq & Hpa). exists q, (full q n). split; [done|]. exists q, n.
  pose proof (i_valid _ Hi _ _ Hq) as Hv. destruct p as [|b l|b t']; [done|..]; injection Hpa as ->.
  - destruct Hv as [_ Hv]. apply inode_at_contents in Hn. congruence.
  - destruct Hv as (_ & m & Hm & Ht'). rewrite Hn in Hm. injection Hm as <-. by split_and!; [congruence|..].
Qed.

(** ** Nodes that stay the thread's until they are out of the tree *)

Lemma after_owned (D : gworld → gworld → Prop) (ks : list lock_ref) (φ : fact) : shaped φ → (∀ w w', D w w' → same_shape w w' ∧ owner w'.2 = owner w.2) →
  after D (owned i ks φ) (owned i ks φ).
Proof. intros Hφ HD w w' Hi Hd [Ho Hp]. destruct (HD w w' Hd) as [Hs He]. split; [by rewrite He|by apply (Hφ w)]. Qed.

Lemma robust_node r a t c n : robust i reading (owned i [slot_lock r; NodeLock a] (node_at r a t c n)).
Proof.
  apply (robust_owned i reading _ [(slot_lock r, 0); (NodeLock a, 0)]); [apply steady_node| |apply shaped_node].
  intros y [->|[->|?%elem_of_nil]%elem_of_cons]%elem_of_cons; [by left|right; by left|done].
Qed.

Lemma both_held C A a x d r v0 ps G w : st C A (both a x d r v0) ps G w → holds i (slot_lock r) v0 w ∧ holds i (NodeLock a) x w.
Proof.
  intros Hst. split; (eapply st_holds; [exact Hst|]); apply elem_of_cons; [right; by apply list_elem_of_singleton|by left].
Qed.

(** A node whose lock was free is not retired. *)
Lemma locked_unretired w a x : inv w → locked i (NodeLock a) x None w → x ≠ 1 → unretired i a w.
Proof. intros Hi (Ho & Hw & _) Hx. split; [done|]. intros Hr. apply (i_retired _ Hi) in Hr. congruence. Qed.

(** ** The locks of a node, of its place and of a child of it *)

Definition three (ca : addr) (y : Z) (a : addr) (x : Z) (r : slot_ref) (v0 : Z) : list held_lock :=
  (NodeLock ca, y + 2, None) :: both a x None r v0.

(** The node and the child once they are obsolete. *)
Definition two_gone (ca a : addr) (r : slot_ref) (v0 : Z) : list held_lock :=
  [(NodeLock ca, 1, None); (NodeLock a, 1, None); (slot_lock r, v0 + 2, None)].

Lemma take_three {R} c A ps G r v0 a x ca y (fail1 fail2 fail3 rest : prog R) Q :
  robust i reading G → (∀ w, G w → seen (slot_lock r) v0 w ∧ seen (NodeLock a) x w ∧ seen (NodeLock ca) y w) →
  triple (st c A [] ps G) fail1 Q → triple (st c A [] ps (λ _, True)) fail2 Q → triple (st c A [] ps (λ _, True)) fail3 Q →
  (NoDup [NodeLock ca; NodeLock a; slot_lock r] → triple (st c A (three ca y a x r v0) ps G) rest Q) →
  triple (st c A [] ps G)
    (need write_guard (Sec (slot_lock r) (Rcs true v0)) else fail1;
     need write_guard (Sec (NodeLock a) (Rcs true x)) else (guard_exit (Sec (slot_lock r) (Rcs true v0));; fail2);
     need write_guard (Sec (NodeLock ca) (Rcs true y))
       else (guard_exit (Sec (NodeLock a) (Rcs true x));; guard_exit (Sec (slot_lock r) (Rcs true v0));; fail3); rest) Q.
Proof.
  intros HG Hs H1 H2 H3 Hr. apply (triple_know i reading (v0 mod 4 = 0 ∧ x mod 4 = 0)).
  { intros w _ (_ & _ & _ & _ & _ & Hg). by destruct (Hs w Hg) as ((_ & ? & _) & (_ & ? & _) & _). }
  intros [Hv Hx]. apply take_both; [done|by intros w (? & ? & _)%Hs|done|done|]. intros Hne.
  apply st_take; [done|by intros w (_ & _ & ?)%Hs| |].
  - apply st_leave; [apply HG|by apply both_nodup|by apply mod_locked|by repeat constructor|].
    apply st_leave; [apply lasting_pure|repeat constructor; apply not_elem_of_nil|by apply mod_locked|by constructor|done].
  - intros Hca. apply Hr. constructor; [exact Hca|exact (both_nodup a x None r v0 Hne)].
Qed.

(** What is known of the tree while the three locks are the thread's. *)
Definition tied (r : slot_ref) (a ca : addr) (φ : fact) : fact := λ w,
  owned i [slot_lock r; NodeLock a] φ w ∧ unretired i ca w ∧ unretired i a w.

Lemma robust_tied r a ca φ : (∀ v x, steady i reading [(slot_lock r, v); (NodeLock a, x)] φ) → shaped φ → robust i reading (tied r a ca φ).
Proof.
  intros Hst Hsh. apply robust_and; [|apply robust_and; apply robust_unretired].
  apply (robust_owned i reading _ [(slot_lock r, 0); (NodeLock a, 0)]); [apply Hst| |done].
  intros y [->|[->|?%elem_of_nil]%elem_of_cons]%elem_of_cons; [by left|right; by left|done].
Qed.

Lemma tied_obsolete l r a ca φ : shaped φ →
  after (λ w w', others l w w' ∧ owner w'.2 = owner w.2 ∧ retired w'.1 = retired w.1) (tied r a ca φ) (tied r a ca φ).
Proof.
  intros Hsh w w' Hi ((Hs & _) & Ho & Hr) [[H1 H2] [[H3 H4] [H5 H6]]].
  split; [split; [by rewrite Ho|by apply (Hsh w)]|]. by split; (split; [rewrite Ho|rewrite Hr]).
Qed.

(** The node and the child become obsolete. *)
Lemma obsolete_two {R} c A ca y a x r v0 ps G φ (rest : prog R) Q :
  (∀ v x, steady i reading [(slot_lock r, v); (NodeLock a, x)] φ) → shaped φ → NoDup [NodeLock ca; NodeLock a; slot_lock r] →
  x mod 4 = 0 → y mod 4 = 0 → (∀ w, inv w → st c A (three ca y a x r v0) ps G w → φ w) →
  triple (st c A (two_gone ca a r v0) ps (tied r a ca φ)) rest Q →
  triple (st c A (three ca y a x r v0) ps G)
    (obsolete (Sec (NodeLock a) (Rcs true x));; obsolete (Sec (NodeLock ca) (Rcs true y));; rest) Q.
Proof.
  intros Hst Hsh Hnd Hx Hy Hin Hr. pose proof (robust_tied r a ca φ Hst Hsh) as Ht.
  apply (triple_pre _ _ _ (st c A [(NodeLock a, x + 2, None); (NodeLock ca, y + 2, None); (slot_lock r, v0 + 2, None)] ps (tied r a ca φ))).
  { intros w Hi Hstw. apply (st_perm i _ _ (three ca y a x r v0)); [apply perm_swap|]. pose proof (Hin w Hi Hstw) as Hφ.
    destruct Hstw as (H1 & H2 & Hk & H4 & H5 & _). pose proof Hk as [Hc [Ha [Hr' _]%Forall_cons]%Forall_cons]%Forall_cons.
    split; [done|]. split; [done|]. split; [done|]. split; [done|]. split; [done|]. split; [split; [|done]|split].
    - constructor; [apply Hr'|]. constructor; [apply Ha|constructor].
    - eapply locked_unretired; [done|exact Hc|]. cbn [fst snd]. intros Heq. apply mod_locked in Hy. by rewrite Heq in Hy.
    - eapply locked_unretired; [done|exact Ha|]. cbn [fst snd]. intros Heq. apply mod_locked in Hx. by rewrite Heq in Hx. }
  apply NoDup_cons in Hnd as Hnd2. destruct Hnd2 as [Hc [Ha Hnr]%NoDup_cons].
  assert (Hnd' : NoDup [NodeLock a; NodeLock ca; slot_lock r]) by (by apply (NoDup_Permutation_proper _ _ (perm_swap (NodeLock ca) (NodeLock a) [slot_lock r]))).
  eapply triple_bind.
  { apply (st_obsolete i reading _ _ a (x + 2) _ _ _ (tied r a ca φ)); [apply Ht|apply Ht|exact Hnd'|by apply mod_locked|by apply tied_obsolete]. }
  intros []. eapply triple_pre; [intros w _; apply (st_perm i _ _ _ [(NodeLock ca, y + 2, None); (NodeLock a, 1, None); (slot_lock r, v0 + 2, None)]), perm_swap|].
  eapply triple_bind.
  { apply (st_obsolete i reading _ _ ca (y + 2) _ _ _ (tied r a ca φ)); [apply Ht|apply Ht|exact Hnd|by apply mod_locked|by apply tied_obsolete]. }
  by intros [].
Qed.

(** ** The place that is to be stored to *)

Lemma steady_pending r p v : steady i reading [(slot_lock r, v)] (pending r p).
Proof.
  intros w w' Hi (_ & pp & Hk & _) [Hu _]%Forall_cons [Hp Hr]. cbn [fst] in Hu. split; [done|].
  destruct r as [|a s]; cbn [slot_lock] in *.
  - by rewrite (k_pend _ _ _ _ Hk RootLock Hu).
  - destruct Hr as (Hd & n & q & t & Hn & Hs & Hq). rewrite (k_pend _ _ _ _ Hk _ Hu). split; [done|].
    destruct (k_inode _ _ _ _ Hk q a t n Hq Hn Hu) as (q' & n' & Hq' & Hn' & Hsame & _). exists n', q', t.
    split_and!; [done|by rewrite (same_slot_load _ _ _ Hsame)|done].
Qed.

Lemma shaped_pending r p : shaped (pending r p).
Proof.
  intros w w' Hi Hs [Hp Hr]. split; [done|]. destruct r as [|a s]; [by rewrite (sh_pend _ _ Hs)|].
  destruct Hr as (Hd & n & q & t & Hn & Hl & Hq). rewrite (sh_pend _ _ Hs). split; [done|]. exists n, q, t.
  by rewrite (sh_inode w w' Hi Hs q a t Hq), (sh_tree _ _ Hs).
Qed.

(** The prefix of a child, when its parent is the thread's. *)
Lemma child_full w a t q n b y ty nc : inv w → tidy i w → owner w.2 !! NodeLock a = Some i → tree w.2 !! q = Some (PInode a t) →
  logical w a = Some (InodeC n) → tree w.2 !! (full q n ++ [b]) = Some (PInode y ty) → inode_at w.1 y = Some nc →
  (length (full (full q n ++ [b]) nc) < 8)%nat.
Proof.
  intros Hi Htidy Ho Hq Hn Hy Hnc. set (d := pend w.2 !! NodeLock y).
  assert (Hd : ∀ u, d ≠ Some (Uncut u)).
  { intros u Hu. assert (Hpl : parent_lock w (full q n ++ [b]) (NodeLock a)) by (right; exists q, a, t, n, b; by split_and!).
    pose proof (i_uncut _ Hi y u _ ty _ Hu Hy Hpl) as Heq. rewrite Ho in Heq. by apply (Htidy y u). }
  assert (Hly : logical w y = Some (InodeC (with_delayed d nc))).
  { unfold logical. apply inode_at_contents in Hnc. by rewrite Hnc. }
  destruct (t_inode _ _ _ _ (i_tree _ Hi) _ _ _ _ Hy Hly) as (_ & Hl & _). revert Hl. unfold full.
  destruct d as [[s p|u]|]; [|by destruct (Hd u)|done]. cbn [with_delayed]. by rewrite get_key_prefix_slot_store.
Qed.
End use.



#[export] Hint Resolve robust_arrived robust_read_at robust_read_alone robust_node : olc.
