(* ===== verification/OlcWalk.v ===== *)
(** The step from a node to a child, for keys of eight bytes: what the bytes that
    a thread compares say about the key, and reads of nodes that may have changed
    in between.  The nodes that insertion and removal make, and where their children
    are: a node above two leaves, one above a node whose prefix a key leaves, and
    copies in the next larger or smaller type. *)

From ITree Require Import ITree.
From S2P Require Import Prelude Words Threads ArtKey KeyPrefix SortedAssoc Simd InodeBase.
From S2P Require Import Inode4 Inode16 Inode48 Inode256 Heap Leaf InodeSpec Inode OlcState Olc OlcTree OlcInv.

(** ** Integer keys *)

(** The bytes of a key, and the key without its first [d] bytes. *)
Definition int_bytes (z : Z) : list Z := le_bytes 8 z.

Lemma int_bytes_length z : length (int_bytes z) = 8%nat.
Proof. apply length_le_bytes. Qed.

Lemma int_shift z (d n : nat) : (n < 8)%nat → shift_right (shifted (KInt z) d) n = Some (shifted (KInt z) (d + n)).
Proof.
  intros Hn. cbn [shifted shift_right]. replace (n * 8 <? 64)%nat with true by (symmetry; apply Nat.ltb_lt; lia).
  do 2 f_equal. rewrite Z.shiftr_shiftr by lia. f_equal. lia.
Qed.

Lemma int_shift_none z : shifted (KInt z) 0 = KInt z.
Proof. cbn [shifted]. by rewrite Z.shiftr_0_r. Qed.

Definition int_byte z (d : nat) : Z := byte_at (z ≫ (8 * Z.of_nat d)) 0.

Lemma int_index z d : index (shifted (KInt z) d) 0 = Some (int_byte z d).
Proof. done. Qed.

Lemma int_byte_is_byte z d : is_byte (int_byte z d).
Proof. apply byte_at_is_byte. Qed.

Lemma int_byte_lookup z d : (d < 8)%nat → int_bytes z !! d = Some (int_byte z d).
Proof. intros Hd. unfold int_bytes, int_byte. rewrite lookup_le_bytes, byte_at_shiftr, Nat.add_0_r by done. done. Qed.

(** A prefix grows by the bytes that follow it. *)
Lemma prefix_grow (c p K : list Z) : c `prefix_of` K → (∀ j, (j < length p)%nat → K !! (length c + j)%nat = p !! j) → c ++ p `prefix_of` K.
Proof.
  intros [x ->] Hp. apply prefix_app. exists (drop (length p) x). rewrite <- (take_drop (length p) x) at 1. f_equal.
  apply list_eq. intros j. destruct (decide (j < length p)%nat) as [Hj|Hj].
  - rewrite lookup_take_lt by done. rewrite <- Hp by done. rewrite lookup_app_r by lia. f_equal. lia.
  - rewrite lookup_take_ge by lia. symmetry. apply lookup_ge_None. lia.
Qed.

Lemma prefix_byte (c p K : list Z) j b : c ++ p `prefix_of` K → p !! j = Some b → K !! (length c + j)%nat = Some b.
Proof.
  intros [x ->] Hj. apply lookup_lt_Some in Hj as Hl. rewrite <- app_assoc, lookup_app_r by lia.
  replace (length c + j - length c)%nat with j by lia. by rewrite lookup_app_l.
Qed.

Lemma int_prefix_snoc z (f : list Z) b : f `prefix_of` int_bytes z → (length f < 8)%nat → int_byte z (length f) = b → f ++ [b] `prefix_of` int_bytes z.
Proof.
  intros Hf Hl <-. apply prefix_grow; [done|]. intros [|j] Hj; [|cbn [length] in Hj; lia].
  by rewrite Nat.add_0_r, int_byte_lookup.
Qed.

(** ** Where a key leaves the prefix of a node *)

Section prefix.
Context (z : Z) (w : key_prefix) (c : list Z).
Context (Hz : 0 ≤ z < 2 ^ 64) (Hw : prefix_wf w) (Hc : c `prefix_of` int_bytes z).

Let len := prefix_length w.
Let sh := get_shared_length w (get_u64 (shifted (KInt z) (length c))).

Lemma shared_bytes : (sh ≤ len)%nat ∧ (∀ j, (j < sh)%nat → byte_at z (length c + j) = prefix_index w j) ∧
  ((sh < len)%nat → byte_at z (length c + sh) ≠ prefix_index w sh).
Proof.
  destruct Hw as [Hr Hl]. pose proof (get_u64_shifted_range (KInt z) (length c) Hz) as Hk.
  destruct (shared_len_clamped (get_u64 (shifted (KInt z) (length c))) w len) as (H1 & H2 & H3); [unfold len; lia|lia|lia|].
  fold sh in H1, H2, H3. cbn [shifted get_u64] in H2, H3. split_and!; [done|..].
  - intros j Hj. rewrite <- byte_at_shiftr. by apply H2.
  - intros Hlt. rewrite <- byte_at_shiftr. by apply H3.
Qed.

Lemma shared_prefix : (length c + sh ≤ 8)%nat → c ++ take sh (prefix_bytes w) `prefix_of` int_bytes z.
Proof.
  intros Hle. destruct shared_bytes as (H1 & H2 & _). apply prefix_grow; [done|].
  rewrite length_take, length_prefix_bytes. fold len. intros j Hj. unfold int_bytes. rewrite lookup_le_bytes by lia.
  rewrite lookup_take_lt by lia. rewrite lookup_prefix_bytes by (fold len; lia). f_equal. apply H2. lia.
Qed.

Lemma shared_all : sh = len → (length c + len ≤ 8)%nat → c ++ prefix_bytes w `prefix_of` int_bytes z.
Proof.
  intros He Hle. rewrite <- (take_ge (prefix_bytes w) sh) by (rewrite length_prefix_bytes; fold len; lia).
  apply shared_prefix. lia.
Qed.

Lemma shared_less : (sh < len)%nat → ¬ c ++ prefix_bytes w `prefix_of` int_bytes z.
Proof.
  intros Hlt Hp. destruct shared_bytes as (_ & _ & H3).
  pose proof (prefix_byte _ _ _ sh _ Hp (lookup_prefix_bytes w sh Hlt)) as Hb.
  apply lookup_lt_Some in Hb as Hl. rewrite int_bytes_length in Hl. unfold int_bytes in Hb. rewrite lookup_le_bytes in Hb by lia.
  injection Hb as Hb. by apply H3.
Qed.
End prefix.

(** A key that shares the whole prefix goes on behind it. *)
Lemma shared_through `{Target} z (n : inode olc_ptr) (c : list Z) : 0 ≤ z < 2 ^ 64 → node_wf n → c `prefix_of` int_bytes z →
  (prefix_length (get_key_prefix n) ≤ get_shared_length (get_key_prefix n) (get_u64 (shifted (KInt z) (length c))))%nat →
  (length (full c n) < 8)%nat → full c n `prefix_of` int_bytes z ∧
  full c n ++ [int_byte z (length c + prefix_length (get_key_prefix n))] `prefix_of` int_bytes z ∧
  int_bytes z !! (length c + prefix_length (get_key_prefix n))%nat = Some (int_byte z (length c + prefix_length (get_key_prefix n))).
Proof.
  intros Hz Hw Hc Hsh Hlen. pose proof (inode_prefix_wf n Hw) as Hp.
  assert (Hl : length (full c n) = (length c + prefix_length (get_key_prefix n))%nat) by (unfold full; by rewrite length_app, length_prefix_bytes).
  assert (Hf : full c n `prefix_of` int_bytes z).
  { apply shared_all; [done|done|done| |lia]. destruct (shared_bytes z _ c Hz Hp) as [? _]. lia. }
  split_and!; [done|by apply int_prefix_snoc; [| |rewrite Hl]|apply int_byte_lookup; lia].
Qed.

(** ** Slots of nodes that may have changed *)

Definition slots (t : node_type) : nat := match t with I4 => 4 | I16 => 16 | I48 => 48 | I256 => 256 | LEAF => 0 end.

Section slots.
Context `{Target}.
Implicit Types n : inode olc_ptr.

Lemma slot_defined n s : node_wf n → is_Some (slot_load n s) ↔ (s < slots (type n))%nat.
Proof.
  intros Hw. destruct n as [n|n|n|n]; cbn [type slots].
  - change (is_Some (i4_children n !! s) ↔ (s < 4)%nat). destruct Hw as [[_ <-] _]. apply lookup_lt_is_Some.
  - change (is_Some (i16_children n !! s) ↔ (s < 16)%nat). destruct Hw as [_ <-]. apply lookup_lt_is_Some.
  - change (is_Some (pointer_array n !! s) ↔ (s < 48)%nat). destruct Hw as [Hw _]. rewrite <- (w48_ptrs _ Hw). apply lookup_lt_is_Some.
  - change (is_Some (i256_children n !! s) ↔ (s < 256)%nat). destruct Hw as [<- _]. apply lookup_lt_is_Some.
Qed.

(** What was found in one state of a node is there in another state. *)
Lemma found_slot n n' b j s : node_wf n → node_wf n' → type n' = type n → is_byte b → find_child n b = (j, Some s) →
  is_Some (slot_load n' s).
Proof.
  intros Hw Hw' Ht Hb Hf. rewrite slot_defined, Ht, <- slot_defined by done.
  pose proof (find_child_spec n b Hw Hb) as Hs. change (InodeSpec.find_child n b) with (find_child n b) in Hs.
  rewrite Hf in Hs. destruct (assoc b (entries n)) as [c|]; [|done]. destruct Hs as (j' & s' & [= <- <-] & _ & Hl).
  by rewrite Hl.
Qed.

(** A search, whatever it finds. *)
Lemma find_cases n b : node_wf n → is_byte b →
  (∃ j s c, find_child n b = (j, Some s) ∧ assoc b (entries n) = Some c ∧ slot_load n s = Some c ∧ child_at n j b c) ∨
  (find_child n b = child_not_found ∧ assoc b (entries n) = None).
Proof.
  intros Hw Hb. pose proof (find_child_spec n b Hw Hb) as Hs. change (InodeSpec.find_child n b) with (find_child n b) in Hs.
  destruct (assoc b (entries n)) as [c|]; [left|by right]. destruct Hs as (j & s & ? & ? & ?). by exists j, s, c.
Qed.
End slots.

Lemma matches_key l z : matches l (KInt z) = true ↔ leaf_get_key_view l = int_bytes z.
Proof. unfold matches, leaf_cmp. rewrite cmp_compare, Z.eqb_eq, compare_zero. by split. Qed.

(** ** Nodes that insertion and removal make *)

Section nodes.
Context `{Target}.

(** The two entries of such a node. *)
Definition two_entries (n : inode olc_ptr) (b1 : Z) (p1 : olc_ptr) (b2 : Z) (p2 : olc_ptr) : Prop :=
  b1 ≠ b2 ∧ ∀ b, assoc b (entries n) = if decide (b = b1) then Some p1 else if decide (b = b2) then Some p2 else None.

Lemma two_entries_ins n b1 p1 b2 p2 : b1 ≠ b2 → entries n = ins b2 p2 [(b1, p1)] → two_entries n b1 p1 b2 p2.
Proof.
  intros Hb He. split; [done|]. intros b. rewrite He, assoc_ins by apply sorted_single.
  destruct (kcmp b b2) eqn:E2; [apply kcmp_eq in E2 as ->; by rewrite decide_False, decide_True by done|..];
    (rewrite (decide_False (P := b = b2)) by (intros ->; by rewrite kcmp_refl in E2));
    (case_decide as Hd; [subst; apply assoc_single_eq|by apply assoc_single_ne]).
Qed.

Lemma prefix_bytes_snoc (K p : list Z) b : p `prefix_of` K → K !! length p = Some b → p ++ [b] `prefix_of` K.
Proof. intros [x ->] Hb. apply prefix_snoc; [by rewrite take_app_length|done]. Qed.

(** Above a leaf with another key. *)
Lemma split_leaves e z c p q : is_bytes e → length e = 8%nat → 0 ≤ z < 2 ^ 64 → e ≠ int_bytes z →
  c `prefix_of` e → c `prefix_of` int_bytes z → p ≠ PNull → q ≠ PNull → is_leaf p = true → is_leaf q = true →
  ∃ new n b1 b2, new_for_leaves e (shifted (KInt z) (length c)) (Z.of_nat (length c)) = Some new ∧
    init_leaves new e (shifted (KInt z) (length c)) (Z.of_nat (length c)) p q = Some n ∧
    node_wf (N4 n) ∧ (length (full c (N4 n)) < 8)%nat ∧ two_entries (N4 n) b1 p b2 q ∧
    full c (N4 n) ++ [b1] `prefix_of` e ∧ full c (N4 n) ++ [b2] `prefix_of` int_bytes z.
Proof.
  intros He Hl Hz Hne Hce HcK Hp Hq Hlp Hlq.
  destruct (same_length_prefix_free e (int_bytes z)) as [d Hd]; [by rewrite int_bytes_length|done|].
  pose proof (diverge_length _ _ _ Hd) as [Hd1 Hd2]. pose proof (diverge_prefix _ _ _ _ Hce HcK Hd) as Hcd.
  replace d with (length c + (d - length c))%nat in Hd by lia. set (m := (d - length c)%nat) in *.
  destruct (i4_create_leaves e (KInt z) (length c) m p q) as (n & b1 & b2 & Hcr & Hw & H1 & H2 & Hb & Hen & Hpl & Hat);
    [done|done|done|lia|by rewrite Hl|by destruct p|by destruct q|].
  unfold create_leaves in Hcr. destruct (new_for_leaves _ _ _) as [new|] eqn:Hnew; [|done]. cbn [mbind option_bind] in Hcr.
  pose proof (prefix_at_take _ _ _ Hce Hat) as Ht.
  assert (Hfl : length (full c (N4 n)) = (length c + m)%nat).
  { unfold full. rewrite length_app, length_prefix_bytes. cbn [get_key_prefix]. lia. }
  assert (Hfe : full c (N4 n) `prefix_of` e).
  { unfold full. cbn [get_key_prefix]. rewrite <- Ht. apply prefix_take. }
  assert (HfK : full c (N4 n) `prefix_of` int_bytes z).
  { unfold full. cbn [get_key_prefix]. rewrite <- Ht, Hpl. destruct Hd as [-> _]. apply prefix_take. }
  exists new, n, b1, b2. split_and!; try done; [lia|by apply two_entries_ins|..].
  - apply prefix_bytes_snoc; [done|by rewrite Hfl].
  - apply prefix_bytes_snoc; [done|by rewrite Hfl].
Qed.

(** Above a node [n] at [c] whose prefix the key leaves after [sh] bytes. *)
Lemma split_prefix n z c a t q : node_wf n → (length (full c n) < 8)%nat → 0 ≤ z < 2 ^ 64 → c `prefix_of` int_bytes z →
  let w := get_key_prefix n in let sh := get_shared_length w (get_u64 (shifted (KInt z) (length c))) in
  (sh < prefix_length w)%nat → q ≠ PNull →
  let b2 := int_byte z (length c + sh) in
  let n4 := add_two_to_empty (raw_for_prefix n sh) (prefix_index w sh) (PInode a t) b2 q in
  node_wf (N4 n4) ∧ (length (full c (N4 n4)) < 8)%nat ∧ two_entries (N4 n4) (prefix_index w sh) (PInode a t) b2 q ∧
  full c (N4 n4) ++ [prefix_index w sh] `prefix_of` full c n ∧ full c (N4 n4) ++ [b2] `prefix_of` int_bytes z ∧
  full (full c (N4 n4) ++ [prefix_index w sh]) (set_key_prefix (cut w (sh + 1)) n) = full c n ∧
  int_bytes z !! (length c + sh)%nat = Some b2.
Proof.
  intros Hw Hlen Hz Hc w sh Hsh Hq b2 n4. pose proof (inode_prefix_wf n Hw) as Hpw. fold w in Hpw.
  destruct (shared_bytes z w c Hz Hpw) as (H1 & H2 & H3). fold sh in H1, H2, H3. specialize (H3 Hsh).
  unfold full in Hlen. rewrite length_app, length_prefix_bytes in Hlen. fold w in Hlen.
  assert (Hb2 : int_bytes z !! (length c + sh)%nat = Some b2) by (apply int_byte_lookup; lia).
  assert (Hne : prefix_index w sh ≠ b2).
  { intros Heq. apply H3. rewrite Heq. unfold b2, int_byte. by rewrite byte_at_shiftr, Nat.add_0_r. }
  pose proof Hpw as [Hwr Hwl].
  destruct (i4_add_two (Impl (prefix_of_source sh w) 2) (prefix_index w sh) (PInode a t) b2 q) as (Hn & Hen & Hi); try done.
  { apply prefix_of_source_wf. lia. }
  { apply byte_at_is_byte. }
  { apply int_byte_is_byte. }
  { by destruct q. }
  change (node_wf (N4 n4)) in Hn. change (entries (N4 n4) = ins b2 q [(prefix_index w sh, PInode a t)]) in Hen.
  change (i4_impl n4 = Impl (prefix_of_source sh w) 2) in Hi.
  assert (Hbytes : prefix_bytes (get_key_prefix (N4 n4)) = take sh (prefix_bytes w)).
  { change (prefix_bytes (k_prefix (i4_impl n4)) = take sh (prefix_bytes w)). rewrite Hi. cbn [k_prefix]. apply prefix_of_source_bytes; lia. }
  assert (Hpre : full c (N4 n4) = c ++ take sh (prefix_bytes w)) by (unfold full; by rewrite Hbytes).
  assert (Hfl : length (full c (N4 n4)) = (length c + sh)%nat).
  { rewrite Hpre, length_app, length_take, length_prefix_bytes. lia. }
  pose proof (lookup_prefix_bytes w sh Hsh) as Hlk.
  assert (Htd : take sh (prefix_bytes w) ++ prefix_index w sh :: drop (S sh) (prefix_bytes w) = prefix_bytes w) by by apply take_drop_middle.
  split_and!; [done|lia|by apply two_entries_ins|..].
  - rewrite Hpre. unfold full. fold w. rewrite <- Htd at 2. exists (drop (S sh) (prefix_bytes w)). by rewrite <- !app_assoc.
  - apply prefix_bytes_snoc; [|by rewrite Hfl]. rewrite Hpre. apply shared_prefix; [done|done|done|fold sh; lia].
  - unfold full at 1. rewrite get_set_prefix, cut_bytes by (done || lia). rewrite Hpre, Nat.add_1_r. unfold full. fold w.
    rewrite <- Htd at 3. by rewrite <- !app_assoc.
  - done.
Qed.

(** The copy made under the locks is the one made at once. *)
Lemma init_larger_create (n raw : inode olc_ptr) c depth : raw_larger n = Some raw → init_larger raw n c depth = create_larger n c depth.
Proof.
  intros Hr. destruct n as [n|n|n|n]; [..|done]; cbn [raw_larger] in Hr; pose proof (Some_inj _ _ Hr) as <-; cbn [init_larger create_larger].
  - unfold Inode16.create_from_4. exact eq_refl.
  - unfold Inode48.create_from_16. exact eq_refl.
  - unfold Inode256.create_from_48. exact eq_refl.
Qed.

Lemma raw_larger_some (n : inode olc_ptr) : type n ≠ I256 → ∃ raw, raw_larger n = Some raw.
Proof. destruct n; intros Ht; [by eexists..|done]. Qed.

Lemma init_smaller_create (n raw : inode olc_ptr) i : raw_smaller n = Some raw → init_smaller raw n i = create_smaller n i.
Proof.
  intros Hr. destruct n as [n|n|n|n]; [done|..]; cbn [raw_smaller] in Hr; pose proof (Some_inj _ _ Hr) as <-; cbn [init_smaller create_smaller].
  - unfold Inode4.create_from_16. set (r := Inode4.init_from_16 _ _ _). clearbody r. by destruct r as [[]|].
  - unfold Inode16.create_from_48. set (r := Inode16.init_from_48 _ _ _). clearbody r. by destruct r as [[]|].
  - unfold Inode48.create_from_256. set (r := Inode48.init_from_256 _ _ _). clearbody r. by destruct r as [[]|].
Qed.

Lemma raw_smaller_some (n : inode olc_ptr) : type n ≠ I4 → ∃ raw, raw_smaller n = Some raw.
Proof. destruct n; intros Ht; [done|by eexists..]. Qed.

(** Initialisation keeps the type of the node. *)
Lemma init_larger_type (m n n' : inode olc_ptr) c depth : init_larger m n c depth = Some n' → type n' = type m.
Proof.
  destruct m, n; cbn [init_larger]; intros Hi; try discriminate Hi; apply fmap_Some in Hi as (x & _ & ->); done.
Qed.

Lemma init_smaller_type (m n n' : inode olc_ptr) i c : init_smaller m n i = Some (n', c) → type n' = type m.
Proof.
  destruct m, n; cbn [init_smaller]; intros Hi; try discriminate Hi; apply bind_Some in Hi as (x & _ & [= <- _]); done.
Qed.

(** The child that is left takes the prefix of its parent and the byte that led to
    it. *)
Lemma merged_prefix q (n nc : inode olc_ptr) b : node_wf n → node_wf nc → is_byte b → (length (full (full q n ++ [b]) nc) < 8)%nat →
  let w := prepend (get_key_prefix nc) (get_key_prefix n) b in
  prefix_wf w ∧ full q (set_key_prefix w nc) = full (full q n ++ [b]) nc.
Proof.
  intros Hn Hnc Hb Hlen w. unfold full in Hlen. rewrite !length_app, !length_prefix_bytes in Hlen. cbn [length] in Hlen.
  destruct (prepend_wf_bytes (get_key_prefix nc) (get_key_prefix n) b) as [Hw Hbytes];
    [by apply inode_prefix_wf|by apply inode_prefix_wf|done|lia|].
  split; [done|]. unfold full. rewrite get_set_prefix. unfold w. rewrite Hbytes, <- !app_assoc. done.
Qed.

(** Of the two children of a node one goes and the other is left. *)
Lemma two_children n j s b ca l : node_wf (N4 n) → get_children_count (N4 n) = inode_min_size I4 → is_byte b →
  find_child (N4 n) b = (j, Some s) → assoc b (entries (N4 n)) = Some (PLeaf ca l) →
  let i := if j =? 0 then 1%nat else 0%nat in
  i4_children n !! Z.to_nat j = Some (PLeaf ca l) ∧ ∃ x, i4_children n !! i = Some x ∧ x ≠ PNull ∧ i4_keys n !!! i ≠ b ∧ is_byte (i4_keys n !!! i) ∧
    assoc (i4_keys n !!! i) (entries (N4 n)) = Some x ∧ ∀ b', is_Some (assoc b' (entries (N4 n))) → b' = i4_keys n !!! i ∨ b' = b.
Proof.
  intros Hw Hcnt Hb Hfc Hab i.
  destruct (find_cases (N4 n) b Hw Hb) as [(j' & s' & p & Hfc' & Hab' & _ & Hat)|[_ Hno]]; [|congruence].
  rewrite Hfc in Hfc'. injection Hfc' as <- <-. rewrite Hab in Hab'. injection Hab' as <-.
  destruct (i4_two_children n j b (PLeaf ca l) Hw Hcnt Hat) as (Hc & x & Hx & Hne & Hxe & Hdel). fold i in Hx, Hne, Hxe, Hdel.
  pose proof (wf_sorted (N4 n) Hw) as Hs. split; [done|]. exists x.
  assert (Hin : (i4_keys n !!! i, x) ∈ entries (N4 n)) by (by apply assoc_elem).
  pose proof (wf_bytes (N4 n) Hw) as Hbytes. pose proof (wf_nonnull (N4 n) Hw) as Hnn. rewrite Forall_forall in Hbytes, Hnn.
  split_and!; try done; [by specialize (Hnn _ Hin); destruct x|by apply (Hbytes _ Hin)|].
  intros b' Hb'. destruct (decide (b' = b)) as [|Hbb]; [by right|left]. rewrite <- (assoc_del_ne b b') in Hb' by done.
  change (entries (N4 n)) with (i4_entries n) in Hb'. rewrite Hdel in Hb'.
  destruct (decide (b' = i4_keys n !!! i)) as [|Hn']; [done|]. rewrite assoc_single_ne in Hb' by done. by destruct Hb'.
Qed.
End nodes.
