(* ===== verification/OlcGet.v ===== *)
(** Lookup in the index with optimistic lock coupling, and emptiness: each call
    answers what was right at some moment of the call. *)

From ITree Require Import ITree.
From S2P Require Import Prelude Words Threads ArtKey KeyPrefix SortedAssoc Simd InodeBase.
From S2P Require Import Heap Leaf InodeSpec Inode Db DbMap DbTrace OptimisticLock OlcState Olc OlcSystem OlcLogic OlcTree OlcSurgery OlcInv OlcFacts OlcSteps OlcEdit OlcChanges OlcRules OlcUse OlcWalk.
#[local] Open Scope prog_scope.

Section get.
Context `{Target} (i : nat) (key : key_arg) (z : Z).
Context (Hz : 0 ≤ z < 2 ^ 64) (Hkey : key_bytes key = int_bytes z).

Abbreviation fact := (gworld → Prop).
Abbreviation triple := (triple i true).
Let o := OpGet key.
Let K := int_bytes z.

(** The lookup goes on, or has an answer that was right. *)
Definition found (r : option (option (list Z))) : fact := λ w,
  ∃ A, st i (Pending o) A [] [] (λ _, ∀ x, r = Some x → Found x ∈ A) w.

Lemma lasting_found r : lasting i true (found r).
Proof. apply lasting_ex. intros A. apply lasting_st, lasting_pure. Qed.

Definition get_at (s : olc_ptr * Olc.section * art_key) : fact := λ w,
  let '(node, parent, rem) := s in ∃ A c r v,
  node ≠ PNull ∧ c `prefix_of` K ∧ parent = Sec (slot_lock r) (Rcs true v) ∧ rem = shifted (KInt z) (length c) ∧
  st i (Pending o) A [] [] (λ w, valid_ptr w node ∧ given i [(slot_lock r, v)] (edge_at r node c) w) w.

Lemma st_found A G (w : gworld) : st i (Pending o) A [] [] G w → found None w.
Proof. intros Hst. exists A. revert Hst. by apply st_mono. Qed.

(** The answer at a moment. *)
Lemma get_spec (w : gworld) x : gbindings w.2 !! K = x → spec_op o (gbindings w.2) = (Found x, gbindings w.2).
Proof. intros <-. unfold o. simpl. by rewrite Hkey. Qed.

(** What a turn of the loop leads to. *)
Definition get_next (r : olc_ptr * Olc.section * art_key + option (option (list Z))) : fact :=
  match r with inl s => get_at s | inr r => found r end.

(** A last check, and the answer. *)
Lemma get_answer A G l v x (e : access bool) : (e = Check l (Rcs true v) ∨ e = TryReadUnlock l (Rcs true v)) →
  robust i true G → (∀ w, G w → seen l v w) →
  (∀ w, inv w → st i (Pending o) A [] [] G w → word w l = Some v → gbindings w.2 !! K = x) →
  ∀ T (f : option (option (list Z)) → T) (Q : T → fact), (∀ r w, found r w → Q (f r) w) →
  triple (st i (Pending o) A [] [] G) (need do e else give (f None); give (f (Some x))) Q.
Proof.
  intros He HG Hs Hx T f Q HQ. eapply triple_bind.
  - apply (st_check i true _ _ _ _ _ l v e (λ _, True) (Some (Found x))); try done.
    intros w Hi Hst Hw. split; [done|]. intros a [= <-]. exists o. split; [done|]. by apply get_spec, (Hx w).
  - intros []; (apply triple_give; [apply lasting_st|]).
    + apply lasting_and; [apply HG|apply lasting_pure].
    + intros w _ Hst. apply HQ. exists (Found x :: A). revert Hst. apply st_mono. intros _ y [= <-]. by left.
    + apply HG.
    + intros w _ Hst. apply HQ. revert Hst. apply st_found.
Qed.

(** At a leaf. *)
Lemma get_leaf A a leaf v :
  triple (st i (Pending o) A [] [] (given i [(NodeLock a, v)] (leaf_on_way a leaf K)))
    (if matches leaf (KInt z) then
       need read_unlock (Sec (NodeLock a) (Rcs true v)) else give (inr None);
       give (inr (Some (Some (get_value_view leaf))))
     else
       need read_unlock (Sec (NodeLock a) (Rcs true v)) else give (inr None);
       give (inr (Some None))) get_next.
Proof.
  assert (Hans : ∀ x, (∀ w, inv w → leaf_on_way a leaf K w → gbindings w.2 !! K = x) →
    triple (st i (Pending o) A [] [] (given i [(NodeLock a, v)] (leaf_on_way a leaf K)))
      (need read_unlock (Sec (NodeLock a) (Rcs true v)) else give (inr None); give (inr (Some x))) get_next).
  { intros x Hx. apply (get_answer A _ (NodeLock a) v); [by right|robust|intros w; apply given_seen| |done].
    intros w Hi Hst Hw. apply Hx; [done|]. apply (given_one i w (NodeLock a) v); [apply Hst|done]. }
  destruct (matches leaf (KInt z)) eqn:Hm; apply Hans; intros w Hi (q & Hq & Hp);
    rewrite (walk_leaf _ _ _ _ (i_tree _ Hi) K q a leaf Hq Hp).
  - apply matches_key in Hm. by rewrite decide_True.
  - rewrite decide_False; [done|]. intros Hk. apply matches_key in Hk. congruence.
Qed.

(** What reads of an inner node tell while the version is current. *)
Definition node_read (a : addr) (t : node_type) (c : list Z) (v : Z) (n : inode olc_ptr) : fact := λ w,
  node_wf n ∧ type n = t ∧ given i [(NodeLock a, v)] (inode_pos a t c (Some n)) w.

Lemma robust_node_read a t c v n : robust i true (node_read a t c v n).
Proof. unfold node_read. robust. Qed.

Lemma get_read A G a t c v : robust i true G → (∀ w, G w → valid_ptr w (PInode a t) ∧ given i [(NodeLock a, v)] (inode_pos a t c None) w) →
  triple (st i (Pending o) A [] [] G) (do (ReadInode a)) (λ n, st i (Pending o) A [] [] (λ w, G w ∧ node_read a t c v n w)).
Proof.
  intros HG Hin. apply (st_quiet i true _ _ _ _ _ (ReadInode a) (λ n, node_read a t c v n) (λ _, None)); try done.
  { intros n. apply robust_node_read. }
  intros w av _ Hi Hst. destruct (Hin w ltac:(apply Hst)) as [(Hp & n & Hn & Ht) Hg].
  exists n. cbn [perform]. rewrite Hn. split; [done|]. split; [|done]. split; [by apply (i_wf _ Hi a)|]. split; [done|].
  destruct Hg as [Hs Hg]. split; [done|]. intros Hh. destruct (Hg Hh) as (? & ? & n' & Hn' & _). split_and!; [done..|].
  exists n'. split; [done|]. congruence.
Qed.

(** The key leaves the tree at a node. *)
Lemma get_absent A G a t c v n (e : access bool) :
  (e = Check (NodeLock a) (Rcs true v) ∨ e = TryReadUnlock (NodeLock a) (Rcs true v)) →
  c `prefix_of` K → robust i true G → (∀ w, G w → node_read a t c v n w) →
  (∀ w, inv w → G w → word w (NodeLock a) = Some v → full c n `prefix_of` K → ∀ b, K !! length (full c n) = Some b → assoc b (entries n) = None) →
  triple (st i (Pending o) A [] [] G) (need do e else give (inr None); give (inr (Some None))) get_next.
Proof.
  intros He Hc HG Hn Habs. apply (get_answer A G (NodeLock a) v); [done|done| | |done].
  { intros w Hg. destruct (Hn w Hg) as (_ & _ & Hgv). by eapply given_seen. }
  intros w Hi Hst Hw. assert (Hg : G w) by apply Hst. destruct (Hn w Hg) as (_ & _ & Hgv).
  pose proof (given_one i w _ _ _ Hgv Hw) as Hpos.
  destruct (pos_tree w a t c n Hi Hpos) as (Hq & _ & Hl & _).
  apply (walk_inode _ _ _ _ (i_tree _ Hi) K c a t n Hq Hl Hc). by apply (Habs w).
Qed.

(** Where the next step leads: the child, once the node is checked. *)
Lemma edge_next w a t c n b j s x : inode_pos a t c (Some n) w → find_child n b = (j, Some s) → assoc b (entries n) = Some x →
  edge_at (ChildSlot a s) x (full c n ++ [b]) w.
Proof.
  intros (Hp & Hq & n' & Hn & <-) Hf Ha. split; [done|]. exists c, t, n', b, j. done.
Qed.

(** The child, once the node is checked. *)
Lemma get_child A G a t c v n b s j x d : robust i true G → (∀ w, G w → node_read a t c v n w) → node_wf n → is_byte b →
  (∀ w, G w → valid_ptr w (PInode a t)) → find_child n b = (j, Some s) → assoc b (entries n) = Some x → slot_load n s = Some x →
  (∀ w, inv w → G w → word w (NodeLock a) = Some v → length (full c n) = d ∧ full c n ++ [b] `prefix_of` K) →
  triple (st i (Pending o) A [] [] G)
    (child <- do (LoadSlot (ChildSlot a s));
     remaining_key <- of_opt (shift_right (shifted (KInt z) d) 1);
     need checked (Sec (NodeLock a) (Rcs true v)) else give (inr None);
     give (inl (child, Sec (NodeLock a) (Rcs true v), remaining_key))) get_next.
Proof.
  intros HG Hn Hw Hb Hv Hf Ha Hl Hd. set (φ := λ y, given i [(NodeLock a, v)] (edge_at (ChildSlot a s) y (full c n ++ [b]))).
  assert (Hφ : ∀ y, robust i true (φ y)) by (intros y; apply robust_given; [steady|shaped]).
  eapply triple_bind.
  { apply (st_quiet i true _ _ _ _ G (LoadSlot (ChildSlot a s)) φ (λ _, None)); [done..|].
    intros w av _ Hi Hst. assert (Hg : G w) by apply Hst. destruct (Hn w Hg) as (_ & Ht & [Hs Hgv]).
    destruct (Hv w Hg) as (Hp & n' & Hn' & Ht').
    destruct (found_slot n n' b j s) as [y Hy]; [done|by apply (i_wf _ Hi a)|congruence|done..|].
    exists y. split; [|split; [|done]].
    - cbn [perform]. rewrite Hn'. cbn [mbind option_bind]. by rewrite Hy.
    - split; [done|]. intros Hh. pose proof (Hgv Hh) as Hpos. destruct (pos_tree w a t c n Hi Hpos) as (_ & Hn2 & _).
      apply (edge_next w a t c n b j s y Hpos Hf). congruence. }
  intros y. cbn beta. assert (HG' : robust i true (λ w, G w ∧ φ y w)) by by apply robust_and.
  apply (triple_of_opt _ _ _ _ (shifted (KInt z) (d + 1))); [apply int_shift; lia|apply lasting_st, HG'|].
  set (R := λ w, ((y ≠ PNull ∧ length (full c n) = d ∧ full c n ++ [b] `prefix_of` K) ∧ valid_ptr w y) ∧ φ y w).
  assert (HR : robust i true R) by (unfold R; apply robust_and; [robust|done]).
  eapply triple_bind.
  { apply (st_check i true _ _ _ _ _ (NodeLock a) v (Check (NodeLock a) (Rcs true v)) R None); [by left|done|done|..].
    { intros w [_ Hy]. by eapply given_seen. }
    intros w Hi (_ & _ & _ & _ & _ & Hg & Hy) Hcur. split; [|done]. split; [|done].
    destruct (Hn w Hg) as (_ & Ht & Hgv). destruct (pos_tree w a t c n Hi (given_one i w _ _ _ Hgv Hcur)) as (_ & _ & _ & _ & _ & Hch).
    pose proof (given_one i w _ _ _ Hy Hcur) as He. destruct (Hd w Hi Hg Hcur) as [Hlen Hpre].
    assert (Htree : tree w.2 !! (full c n ++ [b]) = Some y).
    { destruct (edge_child w a s y _ Hi He) as (q' & t' & m & b' & j' & Hq' & Hm & Heq & _ & Ha' & _).
      destruct He as (Hpd & _). pose proof (logical_inode _ _ _ Hm Hpd) as Hlm.
      destruct (t_inode _ _ _ _ (i_tree _ Hi) q' a t' m Hq' Hlm) as (_ & _ & Hch'). by rewrite Heq, <- Hch'. }
    split; [|by apply (i_valid _ Hi _ _ Htree)]. split_and!; [|done..]. by apply (t_pointed _ _ _ _ (i_tree _ Hi) _ _ Htree). }
  intros []; (apply triple_give; [apply lasting_st|]).
  - apply lasting_and; [apply HG'|apply HR].
  - intros w Hi Hst. assert (Hr : R w) by apply Hst. destruct Hr as [[(Hy & Hlen & Hpre) _] _].
    exists A, (full c n ++ [b]), (ChildSlot a s), v. split_and!; [done..| |].
    + by rewrite length_snoc, Hlen, Nat.add_1_r.
    + revert Hst. apply st_mono. intros [_ [[_ ?] ?]]. done.
  - apply HG'.
  - intros w _. apply st_found.
Qed.

(** At an inner node. *)
Lemma get_inode A a t c v : c `prefix_of` K →
  triple (st i (Pending o) A [] [] (λ w, valid_ptr w (PInode a t) ∧ given i [(NodeLock a, v)] (inode_pos a t c None) w))
    (inode <- do (ReadInode a);
      let key_prefix_length := prefix_length (get_key_prefix inode) in
      inode <- do (ReadInode a);
      let shared_key_prefix_length := get_shared_length (get_key_prefix inode) (get_u64 (shifted (KInt z) (length c))) in
      if (shared_key_prefix_length <? key_prefix_length)%nat then
        need read_unlock (Sec (NodeLock a) (Rcs true v)) else give (inr None);
        give (inr (Some None))
      else
        remaining_key <- of_opt (shift_right (shifted (KInt z) (length c)) key_prefix_length);
        key_byte <- of_opt (index remaining_key 0);
        inode <- do (ReadInode a);
        match (find_child inode key_byte).2 with
        | None =>
            need read_unlock (Sec (NodeLock a) (Rcs true v)) else give (inr None);
            give (inr (Some None))
        | Some s =>
            child <- do (LoadSlot (ChildSlot a s));
            remaining_key <- of_opt (shift_right remaining_key 1);
            need checked (Sec (NodeLock a) (Rcs true v)) else give (inr None);
            give (inl (child, Sec (NodeLock a) (Rcs true v), remaining_key))
        end) get_next.
Proof.
  intros Hc. eapply triple_bind; [eapply get_read; [robust|done]|]. intros n1. cbn beta zeta.
  eapply triple_bind; [eapply get_read; [robust; apply robust_node_read|by intros w [? _]]|]. intros n2. cbn beta zeta.
  set (G := λ w, (valid_ptr w (PInode a t) ∧ given i [(NodeLock a, v)] (inode_pos a t c None) w) ∧ node_read a t c v n1 w).
  assert (HG : robust i true (λ w, G w ∧ node_read a t c v n2 w)) by (unfold G; robust; apply robust_node_read).
  assert (H12 : ∀ w, inv w → G w ∧ node_read a t c v n2 w → word w (NodeLock a) = Some v → n1 = n2).
  { intros w Hi [(_ & _ & _ & H1) (_ & _ & H2)] Hw. apply (given_one i w) in H1 as (_ & _ & n & Hn & Hn1); [|done].
    apply (given_one i w) in H2 as (_ & _ & n' & Hn' & Hn2); [|done]. congruence. }
  destruct (Nat.ltb_spec (get_shared_length (get_key_prefix n2) (get_u64 (shifted (KInt z) (length c)))) (prefix_length (get_key_prefix n1))) as [Hsh|Hsh].
  { apply (get_absent A _ a t c v n2); [by right|done|done|by intros w [_ ?]|].
    intros w Hi Hg Hw Hp. rewrite (H12 w Hi Hg Hw) in Hsh. destruct Hg as [_ (Hw2 & _)].
    by destruct (shared_less z (get_key_prefix n2) c Hz (inode_prefix_wf n2 Hw2) Hsh). }
  apply (triple_know i true (node_wf n1)); [by intros w _ (_ & _ & _ & _ & _ & [[_ [? _]] _])|]. intros Hw1.
  pose proof (inode_prefix_wf n1 Hw1) as [_ Hl1]. set (d := (length c + prefix_length (get_key_prefix n1))%nat).
  apply (triple_of_opt _ _ _ _ (shifted (KInt z) d)); [apply int_shift; lia|apply lasting_st, HG|].
  apply (triple_of_opt _ _ _ _ (int_byte z d)); [apply int_index|apply lasting_st, HG|]. set (b := int_byte z d).
  eapply triple_bind; [eapply get_read; [done|by intros w [[? _] _]]|]. intros n3. cbn beta.
  assert (HG3 : robust i true (λ w, (G w ∧ node_read a t c v n2 w) ∧ node_read a t c v n3 w)) by (apply robust_and; [done|apply robust_node_read]).
  apply (triple_know i true (node_wf n3)); [by intros w _ (_ & _ & _ & _ & _ & [_ [? _]])|]. intros Hw3.
  assert (H13 : ∀ w, (G w ∧ node_read a t c v n2 w) ∧ node_read a t c v n3 w → word w (NodeLock a) = Some v → n1 = n3).
  { intros w [[[_ (_ & _ & H1)] _] (_ & _ & H2)] Hw. apply (given_one i w) in H1 as (_ & _ & n & Hn & Hn1); [|done].
    apply (given_one i w) in H2 as (_ & _ & n' & Hn' & Hn2); [|done]. congruence. }
  assert (Hlen : n1 = n3 → length (full c n3) = d) by (intros <-; unfold full, d; by rewrite length_app, length_prefix_bytes).
  destruct (find_cases n3 b Hw3 (int_byte_is_byte z d)) as [(j & s & x & Hf & Ha & Hl & Hat)|[Hf Ha]]; rewrite Hf; cbn [snd child_not_found].
  - apply (get_child A _ a t c v n3 b s j x d); [done|by intros w [_ ?]|done|apply int_byte_is_byte| |by rewrite Hf|done|done|].
    { by intros w [[[[? _] _] _] _]. }
    intros w Hi Hg Hw. pose proof (H13 w Hg Hw) as Heq. split; [by apply Hlen|].
    destruct Hg as [[Hg1 Hn2] _]. pose proof (H12 w Hi (conj Hg1 Hn2) Hw) as Heq2. destruct Hg1 as [_ (_ & _ & Hgv)].
    destruct (pos_tree w a t c n1 Hi (given_one i w _ _ _ Hgv Hw)) as (_ & _ & _ & _ & Hl8 & _).
    rewrite <- Heq. apply int_prefix_snoc; [|done|by rewrite Heq, Hlen].
    apply shared_all; [done|by apply inode_prefix_wf|done| |].
    + rewrite <- Heq2 in Hsh. destruct (shared_bytes z (get_key_prefix n1) c Hz (inode_prefix_wf n1 Hw1)) as [? _]. lia.
    + unfold full in Hl8. rewrite length_app, length_prefix_bytes in Hl8. lia.
  - apply (get_absent A _ a t c v n3); [by right|done|done|by intros w [_ ?]|]. intros w Hi Hg Hw _ b' Hb'.
    rewrite Hlen in Hb' by by apply (H13 w). apply lookup_lt_Some in Hb' as Hd. unfold K in Hd. rewrite int_bytes_length in Hd.
    unfold K in Hb'. rewrite int_byte_lookup in Hb' by done. injection Hb' as <-. done.
Qed.

(** What a node is once its parent was checked. *)
Definition node_reached (a : addr) (node : olc_ptr) (c : list Z) (v : Z) : fact :=
  match node with
  | PNull => λ _, False
  | PLeaf _ leaf => given i [(NodeLock a, v)] (leaf_on_way a leaf K)
  | PInode _ t => given i [(NodeLock a, v)] (inode_pos a t c None)
  end.

Lemma robust_reached a node c v : robust i true (node_reached a node c v).
Proof. destruct node; cbn [node_reached]; robust. Qed.

Lemma reached w r a node c v x : inv w → locks i [] w → given i [(slot_lock r, v)] (edge_at r node c) w → word w (slot_lock r) = Some v →
  ptr_addr node = Some a → c `prefix_of` K → seen (NodeLock a) x w → node_reached a node c x w.
Proof.
  intros Hi Hl Hg Hw Ha Hc Hs. pose proof (given_one i w _ _ _ Hg Hw) as He.
  assert (Hq : tree w.2 !! c = Some node) by (apply (edge_in_tree w r); [done|done|by intros ->]).
  pose proof (i_valid _ Hi _ _ Hq) as Hv.
  destruct node as [|b l|b t]; [done|..]; injection Ha as ->; (apply given_intro; [done|]); intros Hh.
  - by exists c.
  - apply unlocked_word in Hh; [|done]. destruct (current_pend w _ _ Hi Hs Hh) as [_ Hp]. destruct Hv as (_ & n & Hn & _).
    split_and!; [done..|]. by exists n.
Qed.

Lemma get_turn s : triple (get_at s) (get_step (KInt z) s) get_next.
Proof.
  destruct s as [[node parent] rem]. unfold get_at. apply triple_exists. intros A. apply triple_exists. intros c.
  apply triple_exists. intros r. apply triple_exists. intros v. do 4 (apply triple_pure; intros ?). subst parent rem.
  assert (Ha : ∃ a, ptr_addr node = Some a) by (destruct node; [done|by eexists..]). destruct Ha as [a Ha].
  assert (Hnone : ∀ G : fact, robust i true G → triple (st i (Pending o) A [] [] G) (give (inr None)) get_next).
  { intros G HG. apply triple_give; [apply lasting_st, HG|]. intros w _. apply st_found. }
  unfold get_step. apply (st_enter_node i true _ _ _ _ _ a); [done|robust|by intros w [? _]|apply Hnone; robust|].
  intros x. apply (st_need i true _ _ _ _ _ (slot_lock r) v _ (node_reached a node c x) None);
    [by right|robust|apply robust_reached| | |apply Hnone; robust|].
  { intros w [[_ Hg] _]. by eapply given_seen. }
  { intros w Hi (_ & Hl & _ & _ & _ & [_ Hg] & Hs) Hw. split; [|done]. by apply (reached w r a node c v x). }
  destruct node as [|b l|b t]; [done|..]; injection Ha as ->; cbn [extend].
  - eapply triple_pre; [|apply (get_leaf A a l x)]. intros w _. apply st_mono. by intros [_ ?].
  - eapply triple_pre; [|by apply (get_inode A a t c x)]. intros w _. apply st_mono. by intros [[[? _] _] ?].
Qed.

(** ** The call *)

Lemma try_get_ok : triple (found None) (try_get (KInt z)) found.
Proof.
  unfold found at 1. apply triple_exists. intros A. unfold try_get.
  assert (Hnone : ∀ G : fact, robust i true G → triple (st i (Pending o) A [] [] G) (give None) found).
  { intros G HG. apply triple_give; [apply lasting_st, HG|]. intros w _. apply st_found. }
  apply (st_enter i true); [robust|done|apply Hnone; robust|]. intros v.
  eapply triple_pre; [intros w _; by apply st_mono, proj2|].
  set (φ := λ p : olc_ptr, given i [(RootLock, v)] (edge_at RootSlot p [])).
  assert (Hφ : ∀ p, robust i true (φ p)).
  { intros p. apply robust_given; [apply (steady_edge i true RootSlot)|apply shaped_edge]. }
  eapply triple_bind.
  { apply (st_quiet i true _ _ _ _ (seen RootLock v) (LoadSlot RootSlot) φ (λ _, None)); [robust|done|done|].
    intros w av _ Hi (_ & Hl & _ & _ & _ & Hs). exists (root w.1). split_and!; [done| |done].
    apply given_intro; [done|]. intros Hh. apply unlocked_word in Hh; [|done].
    destruct (current_pend w _ _ Hi Hs Hh) as [_ Hp]. by split_and!. }
  intros p. cbn beta.
  assert (Hnext : p ≠ PNull → triple (st i (Pending o) A [] [] (λ w, seen RootLock v w ∧ φ p w))
    (need checked (Sec RootLock (Rcs true v)) else give None; ITree.iter (get_step (KInt z)) (p, Sec RootLock (Rcs true v), KInt z)) found).
  { intros Hp. assert (HG : robust i true (λ w, seen RootLock v w ∧ φ p w)) by (apply robust_and; [robust|done]).
    apply (st_need i true _ _ _ _ _ RootLock v _ (λ w, valid_ptr w p) None); [by left|done|robust|by intros w [? _]| |by apply Hnone|].
    - intros w Hi Hst Hw. split; [|done]. destruct Hst as (_ & _ & _ & _ & _ & _ & Hg). pose proof (given_one i w _ _ _ Hg Hw) as He.
      by apply (i_valid _ Hi []), (edge_in_tree w RootSlot).
    - eapply triple_pre; [|apply (triple_iter i true get_at); [intros; apply lasting_found|apply get_turn]].
      intros w _ Hst. exists A, [], RootSlot, v. split_and!; [done|apply prefix_nil|done|symmetry; apply int_shift_none|].
      revert Hst. apply st_mono. by intros [[_ ?] ?]. }
  destruct p as [|a l|a t]; [|by apply Hnext..].
  apply (get_answer A _ RootLock v None (TryReadUnlock RootLock (Rcs true v))) with (T := option (option (list Z))) (f := λ r, r); [by right|apply robust_and; [robust|done]|by intros w [? _]| |done].
  intros w Hi (_ & _ & _ & _ & _ & _ & Hg) Hw. destruct (given_one i w _ _ _ Hg Hw) as (Hp & _ & Hr).
  apply (walk_empty _ _ _ _ (i_tree _ Hi)). unfold logical_root. by rewrite Hp.
Qed.

Lemma get_internal_ok : triple (st i (Pending o) [] [] [] (λ _, True)) (get_internal (KInt z))
  (λ r w, ∃ A, st i (Pending o) A [] [] (λ _, Found r ∈ A) w).
Proof.
  unfold get_internal. eapply triple_pre; [|apply (triple_iter i true (λ _ : unit, found None))].
  - intros w _. apply st_found.
  - intros r. apply lasting_ex. intros A. apply lasting_st, lasting_pure.
  - intros _. eapply triple_bind; [apply try_get_ok|]. intros [r|].
    + apply triple_give; [apply lasting_found|]. intros w _ [A Hst]. exists A. revert Hst. apply st_mono. auto.
    + apply triple_give; [apply lasting_found|]. done.
Qed.
End get.

(** ** Emptiness *)

(** The root pointer is null exactly when the tree is empty: no thread stores null
    or the first leaf later than the tree has it. *)
Lemma root_bindings `{Target} (w : gworld) : inv w → root w.1 = PNull ↔ gbindings w.2 = ∅.
Proof.
  intros Hi. rewrite (tree_bindings _ _ _ _ (i_tree _ Hi)). unfold logical_root.
  destruct (pend w.2 !! RootLock) as [d|] eqn:Hd; [|done].
  destruct (i_pend_root _ Hi) as [H1 H2]; [by rewrite Hd|]. unfold logical_root in H2. rewrite Hd in H2. by destruct d.
Qed.

Lemma olc_empty_ok `{Target} i reading : OlcRules.triple i reading (st i (Pending OpEmpty) [] [] [] (λ _, True)) olc_empty
  (λ b w, ∃ A, st i (Pending OpEmpty) A [] [] (λ _, Bool b ∈ A) w).
Proof.
  eapply triple_bind.
  { apply (st_quiet i reading _ _ _ _ (λ _, True) (LoadSlot RootSlot) (λ _ _, True)
      (λ p, Some (Bool (match p with PNull => true | _ => false end)))); [apply robust_pure|intros; apply robust_pure|done|].
    intros w av _ Hi _. exists (root w.1). split; [done|]. split; [done|]. intros a [= <-]. eexists. split; [done|]. cbn [spec_op].
    f_equal. f_equal. pose proof (root_bindings w Hi) as Hb. case_bool_decide; destruct (root w.1); naive_solver. }
  intros p. apply triple_give.
  - apply lasting_st, lasting_and; apply lasting_pure.
  - intros w _ Hst. exists [Bool (match p with PNull => true | _ => false end)]. revert Hst. apply st_mono. intros _. by left.
Qed.
