(* ===== verification/OlcPositions.v ===== *)
(** Positions in internal nodes that others may change meanwhile: the iteration
    functions find one wherever they are called, and what is read at one is a
    pointer to a node as long as the version is current.  With it, lookups while
    prefixes change. *)

From ITree Require Import ITree.
From S2P Require Import Prelude Words Threads ArtKey KeyPrefix SortedAssoc Simd InodeBase.
From S2P Require Import Inode4 Inode16 Inode48 Inode256 Heap Leaf InodeSpec Inode Db DbMap DbTrace OptimisticLock OlcState Olc OlcIter OlcSystem.
From S2P Require Import OlcLogic OlcTree OlcSurgery OlcInv OlcFacts OlcSteps OlcEdit OlcChanges OlcRules OlcUse OlcWalk.
#[local] Open Scope prog_scope.

(** ** Child indexes *)

(** A child index that a node of the type may have. *)
Definition index_ok (t : node_type) (j : Z) : Prop := 0 ≤ j < match t with I4 => 4 | I16 => 16 | _ => 256 end.

Section nodes.
Context `{Target}.
Implicit Types n : inode olc_ptr.

Lemma get_child_total n j : node_wf n → index_ok (type n) j → is_Some (get_child n j).
Proof.
  intros Hw Hj. unfold index_ok in Hj. destruct n as [n|n|n|n]; cbn [type get_child] in *.
  - destruct Hw as [[_ Hl] _]. unfold Inode4.get_child. apply lookup_lt_is_Some. lia.
  - destruct Hw as [_ Hl]. unfold Inode16.get_child. apply lookup_lt_is_Some. lia.
  - destruct Hw as [Hw _]. unfold Inode48.get_child.
    destruct (lookup_lt_is_Some_2 (child_indexes n) (Z.to_nat j)) as [x Hx]; [rewrite (w48_indexes _ Hw); lia|].
    rewrite Hx. cbn [mbind option_bind]. destruct (Z.eqb_spec x empty_child) as [|He]; [by eexists|].
    destruct (w48_idx _ Hw _ _ Hx He) as (c & _ & Hc & _). by exists c.
  - destruct Hw as [Hl _]. unfold Inode256.get_child. apply lookup_lt_is_Some. lia.
Qed.

Lemma child_index_ok n j b c : node_wf n → child_at n j b c → index_ok (type n) j.
Proof.
  intros Hw Hat. unfold index_ok. destruct n as [n|n|n|n]; cbn [type].
  - pose proof (dense_at_bounds n j b c Hw Hat). pose proof (dw_count _ _ _ _ _ (proj1 Hw)). cbn in *. lia.
  - pose proof (dense_at_bounds n j b c Hw Hat). pose proof (dw_count _ _ _ _ _ Hw). cbn in *. lia.
  - destruct Hat as (-> & Hb & _). exact Hb.
  - destruct Hat as (-> & Hb & _). exact Hb.
Qed.

Lemma byte_index_up p a m e : byte_result (find_up p a m) = Some e → (a + m ≤ 256)%nat → 0 ≤ e.2 < 256.
Proof. unfold byte_result. destruct (find_up p a m) as [k|] eqn:Hk; [|done]. apply find_up_Some in Hk as [Hk _]. intros [= <-]. cbn. lia. Qed.

Lemma byte_index_down p m e : byte_result (find_down p m) = Some e → (m ≤ 256)%nat → 0 ≤ e.2 < 256.
Proof. unfold byte_result. destruct (find_down p m) as [k|] eqn:Hk; [|done]. apply find_down_Some in Hk as [Hk _]. intros [= <-]. cbn. lia. Qed.

(** ** What the iteration functions find *)

Definition finds_outermost (f : inode olc_ptr → option iter_pos) : Prop := ∀ n, node_wf n →
  ∃ e p, f n = Some e ∧ child_at n e.2 e.1 p.

Definition finds_bound (f : inode olc_ptr → Z → option iter_pos) : Prop := ∀ n b e, node_wf n → is_byte b → f n b = Some e →
  ∃ p, child_at n e.2 e.1 p.

Definition finds_sibling (f : inode olc_ptr → Z → option iter_pos) : Prop := ∀ n j e, node_wf n → index_ok (type n) j → f n j = Some e →
  index_ok (type n) e.2 ∧ ∀ b c, child_at n j b c → ∃ p, child_at n e.2 e.1 p.

Lemma pos_of_some n o e : pos_of n o (Some e) → ∃ p, child_at n e.2 e.1 p.
Proof. destruct o as [[b c]|]; [|done]. intros (i & [= ->] & Hc). by exists c. Qed.

Lemma outermost_of (f : inode olc_ptr → option iter_pos) (g : list (Z * olc_ptr) → option (Z * olc_ptr)) :
  (∀ l, l ≠ [] → is_Some (g l)) → (∀ n, node_wf n → pos_of n (g (entries n)) (f n)) → finds_outermost f.
Proof.
  intros Hg Hf n Hw. specialize (Hf n Hw). destruct (Hg _ (inode_nonempty n Hw)) as [[b c] Hb]. rewrite Hb in Hf.
  destruct Hf as (i & -> & Hc). by exists (b, i), c.
Qed.

Lemma begin_finds : finds_outermost Inode.begin.
Proof. apply (outermost_of _ head); [|intros n Hw; exact (begin_spec n Hw)]. by intros [|x l]; [|by eexists]. Qed.

Lemma last_finds : finds_outermost Inode.last.
Proof. apply (outermost_of _ list.last); [|intros n Hw; exact (last_spec n Hw)]. intros l Hl. by apply last_is_Some. Qed.

Lemma gte_finds : finds_bound gte_key_byte.
Proof. intros n b e Hw Hb He. eapply (pos_of_some n). rewrite <- He. exact (gte_spec n b Hw Hb). Qed.

Lemma lte_finds : finds_bound lte_key_byte.
Proof. intros n b e Hw Hb He. eapply (pos_of_some n). rewrite <- He. exact (lte_spec n b Hw Hb). Qed.

Lemma next_finds : finds_sibling Inode.next.
Proof.
  intros n j e Hw Hj He. split.
  - unfold index_ok in *. destruct n as [n|n|n|n]; cbn [type Inode.next] in *.
    + pose proof (dw_count _ _ _ _ _ (proj1 Hw)). unfold Inode4.next in He. rewrite wrap_small in He by lia.
      destruct (Z.leb_spec (children_count (i4_impl n)) (j + 1)); [done|]. injection He as <-. cbn. lia.
    + pose proof (dw_count _ _ _ _ _ Hw). unfold Inode16.next in He. rewrite wrap_small in He by lia.
      destruct (Z.leb_spec (children_count (i16_impl n)) (j + 1)); [done|]. injection He as <-. cbn. lia.
    + apply byte_index_up in He; [done|lia].
    + apply byte_index_up in He; [done|lia].
  - intros b c Hc. eapply (pos_of_some n). rewrite <- He. exact (next_spec n j b c Hw Hc).
Qed.

Lemma prior_finds : finds_sibling Inode.prior.
Proof.
  intros n j e Hw Hj He. split.
  - unfold index_ok in *. destruct n as [n|n|n|n]; cbn [type Inode.prior] in *.
    + unfold Inode4.prior in He. destruct (Z.eqb_spec j 0); [done|]. rewrite wrap_small in He by lia. injection He as <-. cbn. lia.
    + unfold Inode16.prior in He. destruct (Z.eqb_spec j 0); [done|]. rewrite wrap_small in He by lia. injection He as <-. cbn. lia.
    + apply byte_index_down in He; [done|lia].
    + apply byte_index_down in He; [done|lia].
  - intros b c Hc. eapply (pos_of_some n). rewrite <- He. exact (prior_spec n j b c Hw Hc).
Qed.
End nodes.

(** ** Facts about positions *)

Section positions.
Context `{Target} (i : nat).
Implicit Types (w : gworld) (n : inode olc_ptr).

Abbreviation fact := (gworld → Prop).
Abbreviation robust := (robust i false).
Abbreviation triple := (triple i false).
Abbreviation st := (st i).

Lemma robust_forall {X} (A : X → fact) (xs : list X) : (∀ x, robust (A x)) → robust (λ w, Forall (λ x, A x w) xs).
Proof.
  intros HA. split; [apply lasting_forall; intros x; apply HA|]. intros w w' Hi Hm Hx. eapply Forall_impl; [exact Hx|].
  intros x. by apply (HA x).
Qed.

Lemma given_mono w ls φ ψ : (φ w → ψ w) → given i ls φ w → given i ls ψ w.
Proof. intros Hφ [Hs Hg]. split; [done|]. intros Hh. by apply Hφ, Hg. Qed.

Lemma given_both w ls φ ψ : given i ls φ w → given i ls ψ w → given i ls (λ w, φ w ∧ ψ w) w.
Proof. intros [Hs H1] [_ H2]. split; [done|]. intros Hh. split; auto. Qed.

(** A pointer that leads to a node if the lock has not changed. *)
Definition pointed (l : lock_ref) (v : Z) (p : olc_ptr) : fact := given i [(l, v)] (λ w, valid_ptr w p).

Lemma robust_pointed l v p : robust (pointed l v p).
Proof.
  apply robust_given; [|intros w w' Hi Hs; by apply (sh_valid w w' Hs)].
  intros w w' Hi Hr _. by apply (lasting_valid i false p w w').
Qed.

Lemma pointed_valid w l v p : seen l v w → valid_ptr w p → pointed l v p w.
Proof. intros Hs Hv. by apply given_intro. Qed.

(** A node of the tree has a child at an index; *)
Definition child_idx (a : addr) (t : node_type) (j : Z) : fact := λ w,
  pend w.2 !! NodeLock a = None ∧
  ∃ q n b p, tree w.2 !! q = Some (PInode a t) ∧ inode_at w.1 a = Some n ∧ child_at n j b p.

Lemma same_child_at n n' j b p : same_node n n' → child_at n j b p → child_at n' j b p.
Proof.
  intros Hs. rewrite <- (same_node_by (λ n, child_at n) n n'); [done| |done]. by intros [].
Qed.

Lemma steady_child_idx a t j v : steady i false [(NodeLock a, v)] (child_idx a t j).
Proof.
  intros w w' Hi (_ & pp & Hk & _) [Hu _]%Forall_cons (Hp & q & n & b & p & Hq & Hn & Hc). cbn [fst] in Hu.
  split; [by rewrite (k_pend _ _ _ _ Hk)|].
  destruct (k_inode _ _ _ _ Hk q a t n Hq Hn Hu) as (q' & n' & Hq' & Hn' & Hs & _).
  exists q', n', b, p. split_and!; [done..|by eapply same_child_at].
Qed.

Lemma shaped_child_idx a t j : shaped (child_idx a t j).
Proof.
  intros w w' Hi Hs (Hp & q & n & b & p & Hq & Hn & Hc). split; [by rewrite (sh_pend _ _ Hs)|].
  exists q, n, b, p. by rewrite (sh_tree _ _ Hs), (sh_inode w w' Hi Hs q a t Hq).
Qed.

(** a position of it, as the iterator keeps it. *)
Definition position (a : addr) (x : Z) (t : node_type) (j : Z) : fact := λ w,
  index_ok t j ∧ given i [(NodeLock a, x)] (child_idx a t j) w.

Lemma robust_position a x t j : robust (position a x t j).
Proof. apply robust_and; [apply robust_pure|]. apply robust_given; [apply steady_child_idx|apply shaped_child_idx]. Qed.

Lemma position_seen w a x t j : position a x t j w → seen (NodeLock a) x w.
Proof. intros [_ Hg]. by eapply given_seen. Qed.

(** What a read of a node tells. *)
Definition read_of (a : addr) (x : Z) (t : node_type) n : fact := λ w,
  node_wf n ∧ type n = t ∧ read_alone i a x t n w.

Lemma robust_read_of a x t n : robust (read_of a x t n).
Proof. unfold read_of. robust. Qed.

(** The position of a child that is in what was read. *)
Lemma child_position w a x t n j b p : read_of a x t n w → child_at n j b p → position a x t j w.
Proof.
  intros (Hw & <- & Hr) Hc. split; [by eapply child_index_ok|]. revert Hr. apply given_mono.
  intros (c & f & Hp & q & n' & Hq & Hn & Hs & _). split; [done|]. exists q, n', b, p. split_and!; [done..|by eapply same_child_at].
Qed.

(** A sibling's. *)
Lemma sibling_position f w a x t n j e : finds_sibling f → read_of a x t n w → position a x t j w → f n j = Some e → position a x t e.2 w.
Proof.
  intros Hf (Hw & Ht & Hr) [Hj Hg] He. rewrite <- Ht in Hj. destruct (Hf n j e Hw Hj He) as [He2 Hsib]. rewrite Ht in He2.
  split; [done|]. generalize (given_both w _ _ _ Hr Hg). apply given_mono.
  intros [(c & g & Hp & q & n' & Hq & Hn & Hs & _) (_ & q0 & n0 & b & p & _ & Hn0 & Hc)]. rewrite Hn in Hn0. injection Hn0 as <-.
  destruct (Hsib b p) as [p' Hp']; [by apply (same_child_at n')|]. split; [done|].
  exists q, n', e.1, p'. split_and!; [done..|by eapply same_child_at].
Qed.

(** The child of a node at a position is in the tree. *)
Lemma child_in_tree w a t n j b p : inv w → pend w.2 !! NodeLock a = None → (∃ q, tree w.2 !! q = Some (PInode a t)) → inode_at w.1 a = Some n →
  child_at n j b p → valid_ptr w p.
Proof.
  intros Hi Hp [q Hq] Hn Hc. destruct (t_inode _ _ _ _ (i_tree _ Hi) q a t n Hq (logical_inode _ _ _ Hn Hp)) as (Hw & _ & Hch).
  apply (i_valid _ Hi (full q n ++ [b])). rewrite <- Hch. by apply (child_at_entry n j b p).
Qed.

(** ** Rules *)

Lemma st_read_of c A ps G a t x : robust G → (∀ w, G w → valid_ptr w (PInode a t) ∧ seen (NodeLock a) x w) →
  triple (st c A [] ps G) (do (ReadInode a)) (λ n, st c A [] ps (λ w, G w ∧ read_of a x t n w)).
Proof.
  intros HG Hin. apply (st_quiet i false _ _ _ _ _ (ReadInode a) (λ n, read_of a x t n) (λ _, None)); try done.
  { intros n. apply robust_read_of. }
  intros w av _ Hi Hst. destruct (Hin w ltac:(apply Hst)) as [Hv Hs]. pose proof Hv as (Hpr & n & Hn & Ht).
  exists n. cbn [perform]. rewrite Hn. split; [done|]. split; [|done]. split; [by apply (i_wf _ Hi a)|]. split; [done|].
  apply alone_now; [done|apply Hst|done..].
Qed.

Lemma load_child_ok c A ps G a t x j : robust G → (∀ w, G w → valid_ptr w (PInode a t) ∧ position a x t j w) →
  triple (st c A [] ps G) (load_child a j) (λ p, st c A [] ps (λ w, G w ∧ pointed (NodeLock a) x p w)).
Proof.
  intros HG Hin.
  set (R := λ n w, (node_wf n ∧ type n = t) ∧ ∀ p, get_child n j = Some p → pointed (NodeLock a) x p w).
  assert (HR : ∀ n, robust (R n)).
  { intros n. unfold R. apply robust_and; [apply robust_pure|]. split.
    - intros w w' Hi Hr Hg p Hp. apply (proj1 (robust_pointed (NodeLock a) x p) w w' Hi Hr). by apply Hg.
    - intros w w' Hi Hr Hg p Hp. apply (proj2 (robust_pointed (NodeLock a) x p) w w' Hi Hr). by apply Hg. }
  unfold load_child. eapply triple_bind.
  { apply (st_quiet i false _ _ _ _ G (ReadInode a) R (λ _, None)); try done.
    intros w av _ Hi Hst. pose proof Hst as (_ & Hl & _ & _ & _ & Hg). destruct (Hin w Hg) as [(Hpr & n & Hn & Ht) [Hj Hgv]].
    exists n. cbn [perform]. rewrite Hn. split; [done|]. split; [|done]. split; [split; [by apply (i_wf _ Hi a)|done]|].
    intros p Hp. revert Hgv. apply given_mono. intros (Hpe & q & n' & b & p' & Hq & Hn' & Hc). rewrite Hn in Hn'. injection Hn' as <-.
    assert (p' = p) as ->. { pose proof (get_child_at n j b p' (i_wf _ Hi a n Hn Hpr) Hc) as Hgc. change (get_child n j = Some p') in Hgc. congruence. }
    apply (child_in_tree w a t n j b p Hi Hpe); [by exists q|done..]. }
  intros n. cbn beta. assert (HG' : robust (λ w, G w ∧ R n w)) by by apply robust_and.
  apply (triple_know i false (is_Some (get_child n j))).
  { intros w Hi Hst. assert (Hg : G w ∧ R n w) by apply Hst. destruct Hg as [Hg [[Hw Ht] _]]. apply get_child_total; [done|].
    rewrite Ht. apply (Hin w Hg). }
  intros [p Hp]. rewrite Hp. apply triple_give; [apply lasting_st, HG'|].
  intros w _. apply st_mono. intros [Hg [_ Hr]]. split; [done|by apply Hr].
Qed.

(** The pointer behind the result of a search. *)
Lemma load_slot_ok c A ps G a t x n b j k p : robust G → (∀ w, G w → valid_ptr w (PInode a t) ∧ read_of a x t n w) → is_byte b →
  find_child n b = (j, Some k) → slot_load n k = Some p → child_at n j b p →
  triple (st c A [] ps G) (do (LoadSlot (ChildSlot a k))) (λ y, st c A [] ps (λ w, G w ∧ pointed (NodeLock a) x y w)).
Proof.
  intros HG Hin Hb Hf Hl Hc. apply (st_quiet i false _ _ _ _ G (LoadSlot (ChildSlot a k)) (λ y, pointed (NodeLock a) x y) (λ _, None)); try done.
  { intros y. apply robust_pointed. }
  intros w av _ Hi Hst. destruct (Hin w ltac:(apply Hst)) as [(Hpr & n' & Hn & Ht) (Hw & Ht' & Hr)].
  destruct (found_slot n n' b j k) as [y Hy]; [done|by apply (i_wf _ Hi a)|congruence|done..|].
  exists y. split; [cbn [perform]; rewrite Hn; cbn [mbind option_bind]; by rewrite Hy|]. split; [|done].
  revert Hr. apply given_mono. intros (f & g & Hp & q & n0 & Hq & Hn0 & Hs & _). rewrite Hn in Hn0. injection Hn0 as <-.
  rewrite (same_slot_load _ _ _ Hs), Hl in Hy. injection Hy as <-.
  apply (child_in_tree w a t n' j b p Hi Hp); [by exists q|done|by eapply same_child_at].
Qed.

(** The root, if there is one. *)
Lemma load_root_ok c A ps G v : robust G → (∀ w, G w → seen RootLock v w) →
  triple (st c A [] ps G) (do (LoadSlot RootSlot)) (λ p, st c A [] ps (λ w, G w ∧ (p ≠ PNull → pointed RootLock v p w))).
Proof.
  intros HG Hin. apply (st_quiet i false _ _ _ _ G (LoadSlot RootSlot) (λ p w, p ≠ PNull → pointed RootLock v p w) (λ _, None)); try done.
  { intros p. apply robust_imp, robust_pointed. }
  intros w av _ Hi Hst. pose proof Hst as (_ & Hl & _ & _ & _ & Hg). pose proof (Hin w Hg) as Hs.
  exists (root w.1). split; [done|]. split; [|done]. intros Hp. apply given_intro; [done|]. intros Hh. apply unlocked_word in Hh; [|done].
  destruct (current_pend w _ _ Hi Hs Hh) as [_ Hpe]. apply (i_valid _ Hi []), (edge_in_tree w RootSlot); [done|by split_and!|done].
Qed.

(** [if (!cs.check()) return false;] before a pointer is used. *)
Lemma st_valid {R} c A ps G l v p (e : access bool) (fail rest : prog R) Q :
  (e = Check l (Rcs true v) ∨ e = TryReadUnlock l (Rcs true v)) → robust G → (∀ w, G w → pointed l v p w) →
  triple (st c A [] ps G) fail Q → triple (st c A [] ps (λ w, G w ∧ valid_ptr w p)) rest Q →
  triple (st c A [] ps G) (need do e else fail; rest) Q.
Proof.
  intros He HG Hg Hf Hr. apply (st_need i false c A [] ps G l v e (λ w, valid_ptr w p) None); try done.
  - apply robust_valid.
  - intros w Hw. by eapply given_seen, Hg.
  - intros w Hi Hst Hw. split; [|done]. apply (given_one i w l v); [|done]. apply Hg. apply Hst.
Qed.

(** A check that tells nothing. *)
Lemma st_still {R} c A ps G l v (e : access bool) (fail rest : prog R) Q :
  (e = Check l (Rcs true v) ∨ e = TryReadUnlock l (Rcs true v)) → robust G → (∀ w, G w → seen l v w) →
  triple (st c A [] ps G) fail Q → triple (st c A [] ps G) rest Q →
  triple (st c A [] ps G) (need do e else fail; rest) Q.
Proof.
  intros He HG Hg Hf Hr. apply (st_need i false c A [] ps G l v e (λ _, True) None); try done.
  - eapply triple_pre; [|exact Hr]. intros w _. apply st_mono. by intros [? _].
Qed.

(** The lock of a leaf is as it was: what the leaf holds is in the index now, and is
    noted. *)
Lemma st_note s notes A G a l v : robust G → (∀ w, G w → seen (NodeLock a) v w ∧ valid_ptr w (PLeaf a l)) →
  triple (st (Scanning s notes) A [] [] G) (do (TryReadUnlock (NodeLock a) (Rcs true v)))
    (λ (ok : bool) w, if ok then ∃ k u, leaf_holds l k u ∧ st (Scanning s (notes ++ [(k, u)])) A [] [] G w
      else st (Scanning s notes) A [] [] G w).
Proof.
  intros HG Hin. apply triple_do.
  { by apply lasting_st, HG. }
  { intros [|]; [|by apply lasting_st, HG]. apply lasting_ex. intros k. apply lasting_ex. intros u.
    apply lasting_and; [apply lasting_pure|apply lasting_st, HG]. }
  intros w av Hlive Hi Hst. pose proof Hst as (Hc & Hl & Hk & Hp & Hm & Hg). destruct (Hin w Hg) as [Hs Hv].
  destruct Hs as (Hvis & Hv4 & H0 & x & Hx & Hle).
  assert (Hstep : ∀ c' : call_state, call_ok i w (w.1, ticked (with_calls (gbindings w.2) (<[i := (c', A)]> (gcalls w.2)) w.2)) →
    step_ok i bool (TryReadUnlock (NodeLock a) (Rcs true v)) w (w.1, ticked (with_calls (gbindings w.2) (<[i := (c', A)]> (gcalls w.2)) w.2)) ∧
    st c' A [] [] G (w.1, ticked (with_calls (gbindings w.2) (<[i := (c', A)]> (gcalls w.2)) w.2))).
  { intros c' Hok. split.
    - split_and!; [by apply quiet_inv|by apply quiet_guar|done|done|done].
    - split_and!; try done.
      + unfold calling. cbn [snd ticked with_calls gcalls]. apply list_lookup_insert_eq. by eapply lookup_lt_Some.
      + apply (proj2 HG w); [done| |done]. split; [apply shape_calls|done|]. intros l' _. by left. }
  assert (Hperf : perform av (TryReadUnlock (NodeLock a) (Rcs true v)) w.1 = Some (v =? x, w.1)).
  { cbn [perform]. unfold on_lock. unfold word in Hx. rewrite Hx. cbn [mbind option_bind]. by rewrite set_lock_same. }
  destruct (Z.eqb_spec v x) as [<-|Hne].
  - destruct (free_in_tree w a v Hi Hvis Hx Hv4) as (q & p & Hq & Hpa). pose proof (i_valid _ Hi _ _ Hq) as Hvp.
    destruct p as [|b l'|b t]; [done|..]; injection Hpa as ->.
    + assert (l' = l) as -> by (destruct Hv as [_ Hv], Hvp as [_ Hvp]; congruence).
      destruct (t_leaf _ _ _ _ (i_tree _ Hi) q a l Hq) as (k & u & Hlh & _ & _ & Hb).
      destruct (Hstep (Scanning s (notes ++ [(k, u)]))) as [Ho Hst'].
      { right. right. right. exists s, notes, k, u, A. done. }
      eexists true, _, _. split; [exact Hperf|]. split; [exact Ho|]. by exists k, u.
    + destruct Hvp as (_ & n & Hn & _), Hv as [_ Hv]. apply inode_at_contents in Hn. congruence.
  - destruct (Hstep (Scanning s notes)) as [Ho Hst'].
    { left. split; [|done]. cbn [snd ticked with_calls gcalls]. by apply list_insert_id. }
    eexists false, _, _. split; [exact Hperf|]. split; [exact Ho|done].
Qed.
End positions.

#[export] Hint Resolve robust_pointed robust_position robust_read_of : olc.

(** ** Lookups while prefixes change

    A lookup that does not rule out that a prefix is put before that of a node it
    is at: its accesses are still defined, whatever it answers. *)

Section lookup.
Context `{Target} (i : nat) (o : op).
Implicit Types (w : gworld) (n : inode olc_ptr).

Abbreviation fact := (gworld → Prop).
Abbreviation robust := (robust i false).
Abbreviation triple := (triple i false).
Abbreviation st := (st i (Pending o) [] [] []).

Definition underway : fact := st (λ _, True).

Lemma lasting_underway : lasting i false underway.
Proof. apply lasting_st, lasting_pure. Qed.

Lemma leave {R} (G : fact) (r : R) (Q : R → fact) : robust G → (∀ w, underway w → Q r w) → triple (st G) (give r) Q.
Proof. intros HG HQ. apply triple_give; [apply lasting_st, HG|]. intros w _ Hst. apply HQ. revert Hst. by apply st_mono. Qed.

(** At a node, with the rest of a key. *)
Definition walk_at (x : olc_ptr * Olc.section * art_key) : fact := λ w, let '(node, parent, rem) := x in
  ∃ l v z, parent = Sec l (Rcs true v) ∧ rem = KInt z ∧ st (λ w, valid_ptr w node ∧ seen l v w) w.

Definition walk_next (r : olc_ptr * Olc.section * art_key + option (option (list Z))) : fact :=
  match r with inl x => walk_at x | inr _ => underway end.

(** [if (!cs.try_read_unlock()) return {}; return answer;] *)
Lemma last_check {R} (G : fact) a x (r1 r2 : R) (Q : R → fact) : robust G → (∀ w, G w → seen (NodeLock a) x w) →
  (∀ w, underway w → Q r1 w ∧ Q r2 w) →
  triple (st G) (need read_unlock (Sec (NodeLock a) (Rcs true x)) else give r1; give r2) Q.
Proof.
  intros HG Hs HQ. apply (st_still i _ _ _ _ (NodeLock a) x (TryReadUnlock (NodeLock a) (Rcs true x))); [by right|done|done|..];
    (apply leave; [done|]); intros w Hw; by destruct (HQ w Hw).
Qed.

Lemma walk_inode_ok a t x z :
  triple (st (λ w, valid_ptr w (PInode a t) ∧ seen (NodeLock a) x w))
    (inode <- do (ReadInode a);
      let key_prefix_length := prefix_length (get_key_prefix inode) in
      inode <- do (ReadInode a);
      let shared_key_prefix_length := get_shared_length (get_key_prefix inode) (get_u64 (KInt z)) in
      if (shared_key_prefix_length <? key_prefix_length)%nat then
        need read_unlock (Sec (NodeLock a) (Rcs true x)) else give (inr None);
        give (inr (Some None))
      else
        remaining_key <- of_opt (shift_right (KInt z) key_prefix_length);
        key_byte <- of_opt (index remaining_key 0);
        inode <- do (ReadInode a);
        match (find_child inode key_byte).2 with
        | None =>
            need read_unlock (Sec (NodeLock a) (Rcs true x)) else give (inr None);
            give (inr (Some None))
        | Some s =>
            child <- do (LoadSlot (ChildSlot a s));
            remaining_key <- of_opt (shift_right remaining_key 1);
            need checked (Sec (NodeLock a) (Rcs true x)) else give (inr None);
            give (inl (child, Sec (NodeLock a) (Rcs true x), remaining_key))
        end) walk_next.
Proof.
  set (G := λ w, valid_ptr w (PInode a t) ∧ seen (NodeLock a) x w). assert (HG : robust G) by (unfold G; robust).
  eapply triple_bind; [by apply (st_read_of i _ _ _ _ a t x HG)|]. intros n1. cbn beta zeta.
  assert (HG1 : robust (λ w, G w ∧ read_of i a x t n1 w)) by robust.
  apply (triple_know i false (node_wf n1)); [by intros w _ (_ & _ & _ & _ & _ & _ & ? & _)|]. intros Hw1.
  pose proof (inode_prefix_wf n1 Hw1) as [_ Hlen].
  eapply triple_bind; [apply (st_read_of i _ _ _ _ a t x HG1); by intros w [? _]|]. intros n2. cbn beta zeta.
  assert (HG2 : robust (λ w, (G w ∧ read_of i a x t n1 w) ∧ read_of i a x t n2 w)) by robust.
  destruct (_ <? _)%nat; [by apply last_check; [|intros w [[[_ ?] _] _]|]|].
  eapply (triple_of_opt i false); [|apply lasting_st, HG2|].
  { cbn [shift_right]. rewrite (proj2 (Nat.ltb_lt _ 64)) by lia. done. }
  eapply (triple_of_opt i false); [done|apply lasting_st, HG2|]. set (b := byte_at _ 0).
  assert (Hb : is_byte b) by apply byte_at_is_byte.
  eapply triple_bind; [apply (st_read_of i _ _ _ _ a t x HG2); by intros w [[? _] _]|]. intros n3. cbn beta.
  assert (HG3 : robust (λ w, ((G w ∧ read_of i a x t n1 w) ∧ read_of i a x t n2 w) ∧ read_of i a x t n3 w)) by robust.
  apply (triple_know i false (node_wf n3)); [by intros w _ (_ & _ & _ & _ & _ & _ & ? & _)|]. intros Hw3.
  destruct (find_cases n3 b Hw3 Hb) as [(j & k & p & Hf & _ & Hl & Hat)|[Hf _]]; rewrite Hf; cbn [snd child_not_found].
  2: by apply last_check; [|intros w [[[[_ ?] _] _] _]|].
  eapply triple_bind; [apply (load_slot_ok i _ _ _ _ a t x n3 b j k p HG3); [|done..]; intros w [[[[Hv _] _] _] Hr]; by split|].
  intros child. cbn beta.
  assert (HGc : robust (λ w, (((G w ∧ read_of i a x t n1 w) ∧ read_of i a x t n2 w) ∧ read_of i a x t n3 w) ∧ pointed i (NodeLock a) x child w)) by robust.
  eapply (triple_of_opt i false); [done|apply lasting_st, HGc|].
  apply (st_valid i _ _ _ _ (NodeLock a) x child (Check (NodeLock a) (Rcs true x))); [by left|done|by intros w [_ ?]|by apply leave|].
  apply triple_give; [apply lasting_st, robust_and; [done|apply robust_valid]|]. intros w _ Hst.
  eexists (NodeLock a), x, _. split; [done|]. split; [done|]. revert Hst. apply st_mono. intros [[[[[[_ ?] _] _] _] _] ?]. done.
Qed.

Lemma walk_turn k x : triple (walk_at x) (get_step k x) walk_next.
Proof.
  destruct x as [[node parent] rem]. apply triple_exists. intros l. apply triple_exists. intros v. apply triple_exists. intros z.
  do 2 (apply triple_pure; intros ?). subst parent rem. apply (triple_know i false (∃ a, ptr_addr node = Some a)).
  { intros w _ (_ & _ & _ & _ & _ & Hv & _). destruct node; [done|by eexists..]. }
  intros [a Ha]. unfold get_step. set (G := λ w, valid_ptr w node ∧ seen l v w). assert (HG : robust G) by (unfold G; robust).
  apply (st_enter_node i false _ _ _ _ _ a); [done|done|by intros w [? _]|by apply leave|]. intros x.
  assert (HGx : robust (λ w, G w ∧ seen (NodeLock a) x w)) by robust.
  apply (st_still i _ _ _ _ l v (TryReadUnlock l (Rcs true v))); [by right|done|by intros w [[_ ?] _]|by apply leave|].
  destruct node as [|b leaf|b t]; [done|..]; injection Ha as ->.
  - destruct (matches leaf k); (apply last_check; [done|by intros w [_ ?]|done]).
  - eapply triple_pre; [intros w _; apply (st_mono i _ _ _ _ _ (λ w, valid_ptr w (PInode a t) ∧ seen (NodeLock a) x w)); by intros [[? _] ?]|].
    apply walk_inode_ok.
Qed.

Lemma lookup_defined z : triple underway (get_internal (KInt z)) (λ _, underway).
Proof.
  apply (triple_iter i false (λ _, underway)); [intros; apply lasting_underway|]. intros [].
  eapply triple_bind with (M := λ _, underway); [|intros [r|]; (apply triple_give; [apply lasting_underway|done])].
  unfold try_get. apply (st_enter i false); [apply robust_pure|done|by apply leave; [apply robust_pure|]|]. intros v.
  eapply triple_pre; [intros w _; by apply (st_mono i _ _ _ _ _ (seen RootLock v)), proj2|].
  eapply triple_bind; [apply (load_root_ok i _ _ _ _ v); [robust|done]|]. intros p. cbn beta.
  set (G := λ w, seen RootLock v w ∧ (p ≠ PNull → pointed i RootLock v p w)).
  assert (HG : robust G) by (unfold G; apply robust_and; [robust|apply robust_imp, robust_pointed]).
  assert (Hgo : p ≠ PNull → triple (st G) (need checked (Sec RootLock (Rcs true v)) else give None; ITree.iter (get_step (KInt z)) (p, Sec RootLock (Rcs true v), KInt z)) (λ _, underway)).
  { intros Hp. apply (st_valid i _ _ _ _ RootLock v p (Check RootLock (Rcs true v))); [by left|done|by intros w [_ ?]; auto|by apply leave|].
    eapply triple_pre; [|apply (triple_iter i false walk_at); [intros; apply lasting_underway|apply walk_turn]].
    intros w _ Hst. exists RootLock, v, z. split; [done|]. split; [done|]. revert Hst. apply st_mono. by intros [[? _] ?]. }
  destruct p as [|a l|a t]; [|by apply Hgo..].
  apply (st_still i _ _ _ _ RootLock v (TryReadUnlock RootLock (Rcs true v))); [by right|done|by intros w [? _]|by apply leave..].
Qed.
End lookup.
