(* ===== verification/OlcScan.v ===== *)
(** Scans of the index with optimistic lock coupling, while other threads insert
    and remove: every access of the iterator is defined, and what the caller's
    function is shown was in the index at some moment of the scan. *)

From ITree Require Import ITree.
From S2P Require Import Prelude Words Threads ArtKey KeyPrefix SortedAssoc Simd InodeBase.
From S2P Require Import Heap Leaf InodeSpec Inode Db DbMap DbTrace OptimisticLock OlcState Olc OlcIter OlcSystem.
From S2P Require Import OlcLogic OlcTree OlcSurgery OlcInv OlcFacts OlcSteps OlcEdit OlcChanges OlcRules OlcUse OlcWalk OlcPositions.
#[local] Open Scope prog_scope.

(** What a scan has shown when it ends: bindings that were noted, of those that it
    wants. *)
Definition may_show (s : scan_request) (notes shown : list binding) : Prop :=
  shown `sublist_of` notes ∧ Forall (λ e : binding, scan_wants s e.1 = true) shown.

Section scan.
Context `{Target} (i : nat) (s : scan_request).
Implicit Types (w : gworld) (it : iterator) (shown notes : list binding).

Abbreviation fact := (gworld → Prop).
Abbreviation robust := (robust i false).
Abbreviation triple := (triple i false).

(** A scan with the bindings noted so far. *)
Abbreviation stn notes := (st i (Scanning s notes) [] [] []).

Definition scan_finished (shown : list binding) : fact := λ w, ∃ notes, may_show s notes shown ∧ stn notes (λ _, True) w.

(** ** The iterator *)

Definition entry_ok (e : stack_entry) : fact := λ w,
  match e_node e with
  | PNull => False
  | PLeaf a l => valid_ptr w (PLeaf a l) ∧ seen (NodeLock a) (e_version e) w
  | PInode a t => valid_ptr w (PInode a t) ∧ position i a (e_version e) t (e_child_index e) w
  end.

Lemma robust_entry e : robust (entry_ok e).
Proof. unfold entry_ok. destruct (e_node e); robust. Qed.

Definition stack_ok (st : list stack_entry) : fact := λ w, Forall (λ e, entry_ok e w) st.

Lemma robust_stack st : robust (stack_ok st).
Proof. apply robust_forall. intros e. apply robust_entry. Qed.

#[local] Hint Resolve robust_entry robust_stack : olc.

(** The iterator is at its end, or at a leaf that was in the index after the last
    binding was shown. *)
Definition landed shown notes (st : list stack_entry) : Prop :=
  match st with
  | [] => True
  | e :: _ => ∃ a l k u, e_node e = PLeaf a l ∧ leaf_holds l k u ∧ shown ++ [(k, u)] `sublist_of` notes
  end.

(** Before and after a member that may ask to be called again. *)
Definition at_it (F : fact) shown it : fact := λ w, ∃ notes, shown `sublist_of` notes ∧
  stn notes (λ w, stack_ok (stack_ it) w ∧ F w) w.

Definition done_it (F : fact) shown (r : bool * iterator) : fact := λ w, ∃ notes, shown `sublist_of` notes ∧
  (r.1 = true → landed shown notes (stack_ r.2)) ∧ stn notes (λ w, stack_ok (stack_ r.2) w ∧ F w) w.

Lemma lasting_done F shown r : robust F → lasting i false (done_it F shown r).
Proof.
  intros HF. apply lasting_ex. intros notes. repeat (apply lasting_and; [apply lasting_pure|]). apply lasting_st.
  apply lasting_and; [apply robust_stack|apply HF].
Qed.

Lemma lasting_at F shown it : robust F → lasting i false (at_it F shown it).
Proof.
  intros HF. apply lasting_ex. intros notes. apply lasting_and; [apply lasting_pure|]. apply lasting_st.
  apply lasting_and; [apply robust_stack|apply HF].
Qed.

Lemma done_at F shown r w : done_it F shown r w → at_it F shown r.2 w.
Proof. intros (notes & Hs & _ & Hst). by exists notes. Qed.

(** A member asks to be called again. *)
Lemma fails {T} (x : T) (Q : T → fact) F shown notes it (G : fact) : shown `sublist_of` notes → robust G →
  (∀ w, G w → stack_ok (stack_ it) w ∧ F w) → (∀ w, done_it F shown (false, it) w → Q x w) →
  triple (stn notes G) (give x) Q.
Proof.
  intros Hs HG Hin HQ. apply triple_give; [apply lasting_st, HG|]. intros w _ Hst. apply HQ. exists notes.
  split; [done|]. split; [done|]. revert Hst. apply st_mono, Hin.
Qed.

Lemma stack_push_leaf w a l c it v : stack_ok (stack_ it) w → valid_ptr w (PLeaf a l) → seen (NodeLock a) v w →
  version (sec_rcs c) = v → stack_ok (stack_ (try_push_leaf (PLeaf a l) c it)) w.
Proof. intros Hs Hv Hseen <-. apply Forall_cons. split; [by split|done]. Qed.

Lemma stack_push w a t b j x c it v : stack_ok (stack_ it) w → valid_ptr w (PInode a t) → position i a v t j w →
  version (sec_rcs c) = v → stack_ok (stack_ (try_push_inode (PInode a t) b j x c it)) w.
Proof. intros Hs Hv Hp <-. apply Forall_cons. split; [by split|done]. Qed.

Lemma stack_pop w it : stack_ok (stack_ it) w → stack_ok (stack_ (pop it)) w.
Proof. unfold pop. destruct (stack_ it) as [|e st] eqn:He; [by rewrite He|]. by intros [_ ?]%Forall_cons. Qed.

(** At a leaf that was noted. *)
Lemma noted F shown notes it (G : fact) a l k u ok w : shown `sublist_of` notes → (∀ w, G w → stack_ok (stack_ it) w ∧ F w) →
  (∃ e st, stack_ it = e :: st ∧ e_node e = PLeaf a l) → leaf_holds l k u → stn (notes ++ [(k, u)]) G w → done_it F shown (ok, it) w.
Proof.
  intros Hs Hin (e & st & Hst & He) Hl Hw. exists (notes ++ [(k, u)]). split; [by apply sublist_inserts_r|]. split.
  - intros _. cbn [snd]. rewrite Hst. exists a, l, k, u. split_and!; [done..|]. by apply sublist_app.
  - revert Hw. apply st_mono, Hin.
Qed.

(** At a leaf whose lock is as it was. *)
Lemma lands {T} (x : bool → T) (Q : T → fact) F shown notes it (G : fact) a l v : shown `sublist_of` notes → robust G →
  (∀ w, G w → (stack_ok (stack_ it) w ∧ F w) ∧ valid_ptr w (PLeaf a l) ∧ seen (NodeLock a) v w) →
  (∃ e st, stack_ it = e :: st ∧ e_node e = PLeaf a l) → (∀ ok w, done_it F shown (ok, it) w → Q (x ok) w) →
  triple (stn notes G) (ok <- read_unlock (Sec (NodeLock a) (Rcs true v)); give (x ok)) Q.
Proof.
  intros Hs HG Hin Htop HQ. assert (Hin' : ∀ w, G w → stack_ok (stack_ it) w ∧ F w) by (intros w Hg; by destruct (Hin w Hg)).
  eapply triple_bind.
  { apply (st_note i s notes [] G a l v HG). intros w Hg. by destruct (Hin w Hg) as (_ & ? & ?). }
  intros [|]; cbn beta iota.
  - apply triple_exists. intros k. apply triple_exists. intros u. apply triple_pure. intros Hlh.
    apply triple_give; [apply lasting_st, HG|]. intros w _ Hw. apply HQ. by apply (noted F shown notes it G a l k u).
  - apply (fails _ _ F shown notes it); [done..|by apply HQ].
Qed.

(** ** Traversal *)

Definition tr_inv F shown (x : iterator * olc_ptr * Olc.section) : fact := λ w, let '(it, node, parent) := x in
  ∃ l v notes, parent = Sec l (Rcs true v) ∧ shown `sublist_of` notes ∧
    stn notes (λ w, (stack_ok (stack_ it) w ∧ F w) ∧ valid_ptr w node ∧ seen l v w) w.

Definition tr_next F shown (r : iterator * olc_ptr * Olc.section + bool * iterator) : fact :=
  match r with inl x => tr_inv F shown x | inr r => done_it F shown r end.

Lemma traversal_turn f F shown x : finds_outermost f → robust F →
  triple (tr_inv F shown x) (traversal_step f x) (tr_next F shown).
Proof.
  intros Hf HF. destruct x as [[it node] parent]. apply triple_exists. intros l. apply triple_exists. intros v.
  apply triple_exists. intros notes. apply triple_pure. intros ->. apply triple_pure. intros Hsub.
  apply (triple_know i false (∃ a, ptr_addr node = Some a)).
  { intros w _ (_ & _ & _ & _ & _ & _ & Hv & _). destruct node; [done|by eexists..]. }
  intros [a Ha]. unfold traversal_step. cbn beta iota.
  set (G := λ w, (stack_ok (stack_ it) w ∧ F w) ∧ valid_ptr w node ∧ seen l v w).
  assert (HG : robust G) by (unfold G; robust).
  assert (Hfail : ∀ G', robust G' → (∀ w, G' w → G w) → triple (stn notes G') (give (inr (false, it))) (tr_next F shown)).
  { intros G' HG' Hin. apply (fails _ _ F shown notes it); [done|done| |done]. intros w Hg. by apply (Hin w Hg). }
  apply (st_enter_node i false _ _ _ _ _ a); [done|done|by intros w (_ & ? & _)|by apply Hfail|]. intros x.
  assert (HGx : robust (λ w, G w ∧ seen (NodeLock a) x w)) by robust.
  apply (st_still i _ _ _ _ l v (TryReadUnlock l (Rcs true v))); [by right|done|by intros w ((_ & _ & ?) & _)|apply Hfail; [done|by intros w [? _]]|].
  destruct node as [|b leaf|b t]; [done|..]; injection Ha as ->.
  - apply (lands (λ ok, inr (ok, try_push_leaf (PLeaf a leaf) (Sec (NodeLock a) (Rcs true x)) it)) _ F shown notes
      (try_push_leaf (PLeaf a leaf) (Sec (NodeLock a) (Rcs true x)) it) _ a leaf x); [done|done| |by eexists _, _|done].
    intros w [((Hst & Hfr) & Hv & _) Hx]. split; [|done]. split; [|done]. by eapply stack_push_leaf.
  - eapply triple_bind; [apply (st_read_of i _ _ _ _ a t x HGx); by intros w ((_ & ? & _) & ?)|]. intros n. cbn beta.
    assert (HGn : robust (λ w, (G w ∧ seen (NodeLock a) x w) ∧ read_of i a x t n w)) by robust.
    apply (triple_know i false (node_wf n)); [by intros w _ (_ & _ & _ & _ & _ & _ & ? & _)|]. intros Hw.
    destruct (Hf n Hw) as (e & p & He & Hc). rewrite He. apply (triple_of_opt i false _ _ e); [done|apply lasting_st, HGn|].
    apply (st_still i _ _ _ _ (NodeLock a) x (Check (NodeLock a) (Rcs true x))); [by left|done|by intros w [[_ ?] _]|apply Hfail; [done|by intros w [[? _] _]]|].
    set (it' := try_push (PInode a t) n e (Sec (NodeLock a) (Rcs true x)) it).
    assert (Hin : ∀ w, (G w ∧ seen (NodeLock a) x w) ∧ read_of i a x t n w → (stack_ok (stack_ it') w ∧ F w) ∧ valid_ptr w (PInode a t) ∧ position i a x t e.2 w).
    { intros w [[((Hst & Hfr) & Hv & _) _] Hr]. assert (Hp : position i a x t e.2 w) by by eapply child_position.
      split; [|done]. split; [|done]. by eapply stack_push. }
    eapply triple_bind; [apply (load_child_ok i _ _ _ _ a t x e.2 HGn); intros w Hg; by destruct (Hin w Hg)|]. intros child. cbn beta.
    assert (HGc : robust (λ w, ((G w ∧ seen (NodeLock a) x w) ∧ read_of i a x t n w) ∧ pointed i (NodeLock a) x child w)) by robust.
    apply (st_valid i _ _ _ _ (NodeLock a) x child (Check (NodeLock a) (Rcs true x))); [by left|done|by intros w [_ ?]| |].
    + apply (fails _ _ F shown notes it'); [done|done| |done]. intros w [Hg _]. by destruct (Hin w Hg).
    + apply triple_give; [apply lasting_st, robust_and; [done|apply robust_valid]|]. intros w _ Hst.
      exists (NodeLock a), x, notes. split; [done|]. split; [done|]. revert Hst. apply st_mono.
      intros [[Hg _] Hv]. destruct (Hin w Hg) as [? _]. by destruct Hg as [[_ ?] _].
Qed.

(** What may be said of a member that descends from a pointer. *)
Definition descends (d : olc_ptr → Olc.section → iterator → prog (bool * iterator)) : Prop := ∀ F shown it l v node, robust F →
  triple (at_it (λ w, pointed i l v node w ∧ F w) shown it) (d node (Sec l (Rcs true v)) it) (done_it F shown).

Lemma traversal_ok f : finds_outermost f → descends (try_traversal f).
Proof.
  intros Hf F shown it l v node HF. apply triple_exists. intros notes. apply triple_pure. intros Hsub.
  unfold try_traversal. assert (HG : robust (λ w, stack_ok (stack_ it) w ∧ pointed i l v node w ∧ F w)) by robust.
  apply (st_valid i _ _ _ _ l v node (Check l (Rcs true v))); [by left|done|by intros w (_ & ? & _)| |].
  - apply (fails _ _ F shown notes it); [done|done|by intros w (? & _ & ?)|done].
  - eapply triple_pre; [|apply (triple_iter i false (tr_inv F shown)); [intros r; by apply lasting_done|intros x; by apply traversal_turn]].
    intros w _ Hst. exists l, v, notes. split; [done|]. split; [done|]. revert Hst. apply st_mono.
    intros [(? & Hp & ?) Hv]. split; [done|]. split; [done|]. by eapply given_seen.
Qed.

Lemma left_most_ok : descends try_left_most_traversal.
Proof. apply traversal_ok, begin_finds. Qed.

Lemma right_most_ok : descends try_right_most_traversal.
Proof. apply traversal_ok, last_finds. Qed.

(** ** The entries of the stack *)

Lemma entry_seen w e a : entry_ok e w → ptr_addr (e_node e) = Some a → seen (NodeLock a) (e_version e) w.
Proof. unfold entry_ok. destruct (e_node e) as [|b l|b t]; [done|..]; intros [_ Hs] [= ->]; [done|by eapply position_seen]. Qed.

Lemma entry_addr w e : entry_ok e w → ∃ a, ptr_addr (e_node e) = Some a.
Proof. unfold entry_ok. destruct (e_node e); [done|by eexists..]. Qed.

Lemma stack_top w it e st : stack_ it = e :: st → stack_ok (stack_ it) w → entry_ok e w.
Proof. intros ->. by intros [? _]%Forall_cons. Qed.

Lemma st_entry {R} notes (G : fact) e a (rest : Olc.section → prog R) Q : ptr_addr (e_node e) = Some a → robust G →
  triple (stn notes G) (rest (Sec (NodeLock a) (Rcs true (e_version e)))) Q →
  triple (stn notes G) (c <- entry_section e; rest c) Q.
Proof.
  intros Ha HG Hr. apply (triple_bind _ _ _ _ _ (λ c w, c = Sec (NodeLock a) (Rcs true (e_version e)) ∧ stn notes G w)).
  - unfold entry_section, node_ptr_lock. rewrite Ha. apply (triple_of_opt i false _ _ (NodeLock a)); [done|apply lasting_st, HG|].
    apply triple_give; [apply lasting_st, HG|done].
  - intros c. apply triple_pure. by intros ->.
Qed.

(** The top is left behind. *)
Lemma pops {T} (x y : T) (Q : T → fact) F shown notes it (G : fact) l v : shown `sublist_of` notes → robust G →
  (∀ w, G w → (stack_ok (stack_ it) w ∧ F w) ∧ seen l v w) →
  (∀ w, done_it F shown (false, pop it) w → Q x w) → (∀ w, at_it F shown (pop it) w → Q y w) →
  triple (stn notes G) (need read_unlock (Sec l (Rcs true v)) else give x; give y) Q.
Proof.
  intros Hs HG Hin HQ1 HQ2. assert (Hpop : ∀ w, G w → stack_ok (stack_ (pop it)) w ∧ F w).
  { intros w Hg. destruct (Hin w Hg) as [[Hst Hf] _]. split; [by apply stack_pop|done]. }
  apply (st_still i _ _ _ _ l v (TryReadUnlock l (Rcs true v))); [by right|done|intros w Hg; by apply Hin|by apply (fails _ _ F shown notes (pop it))|].
  apply triple_give; [apply lasting_st, HG|]. intros w _ Hst. apply HQ2. exists notes. split; [done|]. revert Hst. apply st_mono, Hpop.
Qed.

(** Down from a child of a node, after its version was checked. *)
Lemma descend_child {T} (f : bool * iterator → T) (Q : T → fact) d F shown notes it (G : fact) l x child :
  descends d → robust F → shown `sublist_of` notes → robust G →
  (∀ w, G w → (stack_ok (stack_ it) w ∧ F w) ∧ pointed i l x child w) → (∀ r w, done_it F shown r w → Q (f r) w) →
  triple (stn notes G) (r <- d child (Sec l (Rcs true x)) it; give (f r)) Q.
Proof.
  intros Hd HF Hs HG Hin HQ. eapply triple_bind.
  - eapply triple_pre; [|by apply (Hd F shown it l x child)]. intros w _ Hst. exists notes. split; [done|].
    revert Hst. apply st_mono. intros Hg. by destruct (Hin w Hg) as [[? ?] ?].
  - intros r. apply triple_give; [by apply lasting_done|]. intros w _. apply HQ.
Qed.

(** A turn of a loop that pops entries. *)
Definition popped F shown (r : iterator + bool * iterator) : fact :=
  match r with inl it => at_it F shown it | inr r => done_it F shown r end.

Lemma step_over_turn sibling d F shown it : finds_sibling sibling → descends d → robust F →
  triple (at_it F shown it) (step_over sibling d it) (popped F shown).
Proof.
  intros Hsib Hd HF. apply triple_exists. intros notes. apply triple_pure. intros Hsub. unfold step_over.
  set (G := λ w, stack_ok (stack_ it) w ∧ F w). assert (HG : robust G) by (unfold G; robust).
  destruct (stack_ it) as [|e st] eqn:Hstack.
  { apply triple_give; [apply lasting_st, HG|]. intros w _ Hst. exists notes. split; [done|]. cbn [snd]. rewrite Hstack. by split. }
  assert (Htop : ∀ w, G w → entry_ok e w) by (intros w [Hs _]; by inversion Hs).
  assert (Hst : ∀ w, G w → stack_ok (stack_ it) w ∧ F w) by (intros w; by rewrite Hstack).
  apply (triple_know i false (∃ a, ptr_addr (e_node e) = Some a)).
  { intros w _ (_ & _ & _ & _ & _ & Hg). by apply (entry_addr w), Htop. }
  intros [a Ha]. apply (st_entry _ _ _ a); [done..|]. set (x := e_version e).
  assert (Hseen : ∀ w, G w → seen (NodeLock a) x w) by (intros w Hg; by eapply entry_seen; [apply Htop|]).
  apply (st_still i _ _ _ _ (NodeLock a) x (Check (NodeLock a) (Rcs true x))); [by left|done|done|by apply (fails _ _ F shown notes it)|].
  unfold entry_ok in Htop. destruct (e_node e) as [|b leaf|b t] eqn:Hnode; [done|..]; injection Ha as ->.
  { apply (pops _ _ _ F shown notes it); try done. intros w Hg. split; [by apply Hst|by apply Hseen]. }
  eapply triple_bind; [apply (st_read_of i _ _ _ _ a t x HG); intros w Hg; split; [by apply Htop|by apply Hseen]|].
  intros n. cbn beta zeta. assert (HGn : robust (λ w, G w ∧ read_of i a x t n w)) by robust.
  apply (st_still i _ _ _ _ (NodeLock a) x (Check (NodeLock a) (Rcs true x)));
    [by left|done|intros w [Hg _]; by apply Hseen|apply (fails _ _ F shown notes it); [done|done| |done]; intros w [Hg _]; by apply Hst|].
  destruct (sibling n (e_child_index e)) as [e2|] eqn:He2.
  2: { apply (pops _ _ _ F shown notes it); try done. intros w [Hg _]. split; [by apply Hst|by apply Hseen]. }
  set (it' := try_push (PInode a t) n e2 (Sec (NodeLock a) (Rcs true x)) (pop it)).
  assert (Hin : ∀ w, G w ∧ read_of i a x t n w → (stack_ok (stack_ it') w ∧ F w) ∧ valid_ptr w (PInode a t) ∧ position i a x t e2.2 w).
  { intros w [Hg Hr]. destruct (Htop w Hg) as [Hv Hp]. assert (Hp2 : position i a x t e2.2 w) by by eapply sibling_position.
    split; [|done]. split; [|apply Hg]. eapply stack_push; [apply stack_pop, Hst, Hg|done..]. }
  eapply triple_bind; [apply (load_child_ok i _ _ _ _ a t x e2.2 HGn); intros w Hg; by destruct (Hin w Hg)|]. intros child. cbn beta.
  assert (HGc : robust (λ w, (G w ∧ read_of i a x t n w) ∧ pointed i (NodeLock a) x child w)) by robust.
  apply (st_still i _ _ _ _ (NodeLock a) x (Check (NodeLock a) (Rcs true x)));
    [by left|done|intros w [[Hg _] _]; by apply Hseen|apply (fails _ _ F shown notes it'); [done|done| |done]; intros w [Hg _]; by apply (Hin w)|].
  apply (descend_child inr _ d F shown notes it'); try done. intros w [Hg Hp]. split; [by apply Hin|done].
Qed.

(** A member that may ask to be called again, from any state of the iterator. *)
Definition member_ok (m : iterator → prog (bool * iterator)) : Prop := ∀ shown it,
  triple (at_it (λ _, True) shown it) (m it) (done_it (λ _, True) shown).

Lemma over_ok sibling d : finds_sibling sibling → descends d → member_ok (ITree.iter (step_over sibling d)).
Proof.
  intros Hs Hd shown it. apply (triple_iter i false (at_it (λ _, True) shown)).
  - intros r. apply lasting_done, robust_pure.
  - intros it'. apply step_over_turn; [done..|apply robust_pure].
Qed.

Lemma try_next_ok : member_ok try_next.
Proof. apply over_ok; [apply next_finds|apply left_most_ok]. Qed.

Lemma try_prior_ok : member_ok try_prior.
Proof. apply over_ok; [apply prior_finds|apply right_most_ok]. Qed.

(** ** From the root *)

(** At the end of the index. *)
Lemma at_end {T} (x : bool → T) (Q : T → fact) shown notes it (G : fact) l v : shown `sublist_of` notes → robust G →
  (∀ w, G w → seen l v w) → stack_ it = [] → (∀ ok w, done_it (λ _, True) shown (ok, it) w → Q (x ok) w) →
  triple (stn notes G) (ok <- read_unlock (Sec l (Rcs true v)); give (x ok)) Q.
Proof.
  intros Hs HG Hin Hst HQ.
  assert (Hend : ∀ ok w, stn notes G w → Q (x ok) w).
  { intros ok w Hw. apply HQ. exists notes. cbn [snd]. rewrite Hst. split; [done|]. split; [done|]. revert Hw. apply st_mono.
    intros _. split; [by constructor|done]. }
  eapply triple_bind; [apply (st_check i false _ _ _ _ G l v _ (λ _, True) None); [by right|done|apply robust_pure|done|done]|].
  intros [|]; (apply triple_give; [apply lasting_st|]).
  - apply lasting_and; [apply HG|apply lasting_pure].
  - intros w _ Hw. apply Hend. revert Hw. apply st_mono. by intros [? _].
  - apply HG.
  - intros w _. apply Hend.
Qed.

(** The beginning of such a member. *)
Lemma from_root {T} (x : bool → T) (again : T) (rest : olc_ptr → Olc.section → prog T) (Q : T → fact) shown it :
  (∀ w, done_it (λ _, True) shown (false, invalidate it) w → Q again w) →
  (∀ ok w, done_it (λ _, True) shown (ok, invalidate it) w → Q (x ok) w) →
  (∀ notes v node, shown `sublist_of` notes → node ≠ PNull →
    triple (stn notes (pointed i RootLock v node)) (rest node (Sec RootLock (Rcs true v))) Q) →
  triple (at_it (λ _, True) shown it)
    (parent_critical_section <- read_lock RootLock;
     if sec_restart parent_critical_section then give again else
     node <- do (LoadSlot RootSlot);
     match node with
     | PNull => ok <- read_unlock parent_critical_section; give (x ok)
     | _ => rest node parent_critical_section
     end) Q.
Proof.
  intros Hagain Hok Hrest. apply triple_exists. intros notes. apply triple_pure. intros Hsub.
  apply (triple_pre _ _ _ (stn notes (λ _, True))); [intros w _; by apply st_mono|].
  apply (st_enter i false); [robust|done| |].
  { apply (fails _ _ (λ _, True) shown notes (invalidate it)); [done|robust| |done]. intros w _. split; [by constructor|done]. }
  intros v. assert (HG : robust (λ w, True ∧ seen RootLock v w)) by robust.
  eapply triple_bind; [apply (load_root_ok i _ _ _ _ v HG); by intros w [_ ?]|]. intros node. cbn beta.
  assert (HGp : robust (λ w, (True ∧ seen RootLock v w) ∧ (node ≠ PNull → pointed i RootLock v node w))).
  { apply robust_and; [done|]. apply robust_imp, robust_pointed. }
  assert (Hgo : node ≠ PNull → triple (stn notes (λ w, (True ∧ seen RootLock v w) ∧ (node ≠ PNull → pointed i RootLock v node w)))
    (rest node (Sec RootLock (Rcs true v))) Q).
  { intros Hn. eapply triple_pre; [|by apply (Hrest notes v node)]. intros w _. apply st_mono. intros [_ Hp]. by apply Hp. }
  destruct node as [|a l|a t]; [|by apply Hgo..].
  apply (at_end x Q shown notes (invalidate it) _ RootLock v); [done|done|by intros w [[_ ?] _]|done|done].
Qed.

Lemma outermost_ok d : descends d → member_ok (try_outermost d).
Proof.
  intros Hd shown it. unfold try_outermost.
  apply (from_root (λ ok, (ok, invalidate it)) (false, invalidate it) (λ node c, d node c (invalidate it))); [done|done|].
  intros notes v node Hsub _. eapply triple_pre; [|apply (Hd (λ _, True)); apply robust_pure].
  intros w _ Hst. exists notes. split; [done|]. revert Hst. apply st_mono. intros Hp. split; [by constructor|done].
Qed.

Lemma try_first_ok : member_ok try_first.
Proof. apply outermost_ok, left_most_ok. Qed.

Lemma try_last_ok : member_ok try_last.
Proof. apply outermost_ok, right_most_ok. Qed.

(** Until it does not ask. *)
Lemma until_done_ok m shown it : member_ok m →
  triple (at_it (λ _, True) shown it) (until_done m it) (λ it, done_it (λ _, True) shown (true, it)).
Proof.
  intros Hm. assert (HL : ∀ r, lasting i false (done_it (λ _, True) shown r)) by (intros r; apply lasting_done, robust_pure).
  apply (triple_iter i false (at_it (λ _, True) shown)); [done|]. intros it'.
  eapply triple_bind; [apply Hm|]. intros [[|] it2]; (apply triple_give; [done|]); [done|]. intros w _. apply (done_at _ _ (false, it2)).
Qed.

(** ** Seeking *)

Lemma unlock_ok shown a x r : triple (done_it (seen (NodeLock a) x) shown r) (unlock_and_return (Sec (NodeLock a) (Rcs true x)) r)
  (done_it (λ _, True) shown).
Proof.
  apply triple_exists. intros notes. apply triple_pure. intros Hsub. apply triple_pure. intros Hl.
  assert (HG : robust (λ w, stack_ok (stack_ r.2) w ∧ seen (NodeLock a) x w)) by robust.
  assert (Hend : ∀ ok w, (ok = true → r.1 = true) → stn notes (λ w, stack_ok (stack_ r.2) w ∧ seen (NodeLock a) x w) w → done_it (λ _, True) shown (ok, r.2) w).
  { intros ok w Hok Hw. exists notes. split; [done|]. split; [intros Ht; by apply Hl, Hok|]. revert Hw. apply st_mono. by intros [? _]. }
  unfold unlock_and_return.
  eapply triple_bind; [apply (st_check i false _ _ _ _ _ (NodeLock a) x _ (λ _, True) None); [by right|done|apply robust_pure|by intros w [_ ?]|done]|].
  intros [|]; (apply triple_give; [apply lasting_st|]).
  - apply lasting_and; [apply HG|apply lasting_pure].
  - intros w _ Hw. apply Hend; [done|]. revert Hw. apply st_mono. by intros [? _].
  - apply HG.
  - intros w _. by apply Hend.
Qed.

Lemma and_then_ok shown r m : member_ok m → triple (done_it (λ _, True) shown r) (and_then r m) (done_it (λ _, True) shown).
Proof.
  intros Hm. unfold and_then. destruct r as [[|] it]; cbn [fst snd].
  - eapply triple_pre; [|apply Hm]. intros w _. apply (done_at _ _ (true, it)).
  - apply triple_give; [apply lasting_done, robust_pure|done].
Qed.

(** Down from a node whose prefix the key leaves, and over it. *)
Lemma mismatch_ok cmp_ fwd shown notes it node l v a x : shown `sublist_of` notes →
  triple (stn notes (λ w, stack_ok (stack_ it) w ∧ (valid_ptr w node ∧ seen l v w) ∧ seen (NodeLock a) x w))
    (seek_mismatch cmp_ fwd node (Sec l (Rcs true v)) (Sec (NodeLock a) (Rcs true x)) it) (done_it (λ _, True) shown).
Proof.
  intros Hsub. set (P := stn notes _).
  assert (Hdown : ∀ d, descends d → triple P (d node (Sec l (Rcs true v)) it) (done_it (seen (NodeLock a) x) shown)).
  { intros d Hd. eapply triple_pre; [|apply Hd; robust]. intros w _ Hst. exists notes. split; [done|].
    revert Hst. apply st_mono. intros (? & [Hv Hl] & ?). split; [done|]. split; [by apply pointed_valid|done]. }
  assert (Hgo : ∀ d, descends d → triple P (r <- d node (Sec l (Rcs true v)) it; unlock_and_return (Sec (NodeLock a) (Rcs true x)) r) (done_it (λ _, True) shown)).
  { intros d Hd. eapply triple_bind; [by apply Hdown|]. intros r. apply unlock_ok. }
  assert (Hover : ∀ d m, descends d → member_ok m → triple P (r <- d node (Sec l (Rcs true v)) it;
    r <- unlock_and_return (Sec (NodeLock a) (Rcs true x)) r; and_then r m) (done_it (λ _, True) shown)).
  { intros d m Hd Hm. eapply triple_bind; [by apply Hdown|]. intros r. eapply triple_bind; [apply unlock_ok|].
    intros r'. by apply and_then_ok. }
  unfold seek_mismatch. destruct fwd, (cmp_ <? 0).
  - apply Hgo, left_most_ok.
  - apply Hover; [apply right_most_ok|apply try_next_ok].
  - apply Hover; [apply left_most_ok|apply try_prior_ok].
  - apply Hgo, right_most_ok.
Qed.

(** While a search goes down, only internal nodes are on the stack. *)
Definition inner (st : list stack_entry) : Prop :=
  Forall (λ e, match e_node e with PInode _ _ => True | _ => False end) st.

Lemma inner_pop it : inner (stack_ it) → inner (stack_ (pop it)).
Proof. unfold pop. destruct (stack_ it) as [|e st] eqn:He; [by rewrite He|]. by intros [_ ?]%Forall_cons. Qed.

Definition climbed shown (r : iterator + bool * iterator) : fact :=
  match r with inl it => λ w, inner (stack_ it) ∧ at_it (λ _, True) shown it w | inr r => done_it (λ _, True) shown r end.

Lemma climb_turn sibling d shown it : descends d → inner (stack_ it) →
  triple (at_it (λ _, True) shown it) (climb_step sibling d it) (climbed shown).
Proof.
  intros Hd Hinner. apply triple_exists. intros notes. apply triple_pure. intros Hsub. unfold climb_step.
  set (G := λ w, stack_ok (stack_ it) w ∧ True). assert (HG : robust G) by (unfold G; robust).
  pose proof (inner_pop it Hinner) as Hpop.
  destruct (stack_ it) as [|e st] eqn:Hstack.
  { apply triple_give; [apply lasting_st, HG|]. intros w _ Hst. exists notes. split; [done|]. cbn [snd]. rewrite Hstack. by split. }
  assert (Htop : ∀ w, G w → entry_ok e w) by (intros w [Hs _]; by inversion Hs).
  assert (Hst : ∀ w, G w → stack_ok (stack_ it) w ∧ True) by (intros w; by rewrite Hstack).
  apply Forall_cons in Hinner as [Hnode _]. destruct (e_node e) as [|b leaf|a t] eqn:He; [done..|].
  apply (st_entry _ _ _ a); [by rewrite He|done|]. set (x := e_version e).
  assert (Hin : ∀ w, G w → valid_ptr w (PInode a t) ∧ position i a x t (e_child_index e) w).
  { intros w Hg. pose proof (Htop w Hg) as Ht. unfold entry_ok in Ht. by rewrite He in Ht. }
  assert (Hseen : ∀ w, G w → seen (NodeLock a) x w) by (intros w Hg; by eapply position_seen, Hin).
  assert (Hfail : ∀ G', robust G' → (∀ w, G' w → G w) → triple (stn notes G') (give (inr (false, it))) (climbed shown)).
  { intros G' HG' Hsubs. apply (fails _ _ (λ _, True) shown notes it); [done|done| |done]. intros w Hg. by apply Hst, Hsubs. }
  apply (st_still i _ _ _ _ (NodeLock a) x (Check (NodeLock a) (Rcs true x))); [by left|done|done|by apply Hfail|].
  eapply triple_bind; [apply (st_read_of i _ _ _ _ a t x HG); intros w Hg; split; [by apply Hin|by apply Hseen]|].
  intros n. cbn beta. assert (HGn : robust (λ w, G w ∧ read_of i a x t n w)) by robust.
  destruct (sibling n (e_child_index e)).
  - eapply triple_bind; [apply (load_child_ok i _ _ _ _ a t x (e_child_index e) HGn); intros w [Hg _]; by apply Hin|].
    intros child. cbn beta. assert (HGc : robust (λ w, (G w ∧ read_of i a x t n w) ∧ pointed i (NodeLock a) x child w)) by robust.
    apply (st_still i _ _ _ _ (NodeLock a) x (Check (NodeLock a) (Rcs true x)));
      [by left|done|intros w [[Hg _] _]; by apply Hseen|apply Hfail; [done|by intros w [[? _] _]]|].
    apply (descend_child inr _ d (λ _, True) shown notes it); try done. intros w [[Hg _] Hp]. split; [by apply Hst|done].
  - apply (pops _ _ _ (λ _, True) shown notes it); try done. intros w [Hg _]. split; [by apply Hst|by apply Hseen].
Qed.

Lemma climb_ok sibling d shown it : descends d → inner (stack_ it) →
  triple (at_it (λ _, True) shown it) (ITree.iter (climb_step sibling d) it) (done_it (λ _, True) shown).
Proof.
  intros Hd Hi. eapply triple_pre; [|apply (triple_iter i false (λ it w, inner (stack_ it) ∧ at_it (λ _, True) shown it w))].
  - intros w _ Hw. by split.
  - intros r. apply lasting_done, robust_pure.
  - intros it'. apply triple_pure. intros Hi'. eapply triple_post; [|by apply climb_turn]. by intros [it2|r].
Qed.

Lemma inner_pop_nonempty it : inner (stack_ it) → inner (stack_ (pop_nonempty it)).
Proof. unfold pop_nonempty. destruct (valid it); [apply inner_pop|done]. Qed.

Lemma stack_pop_nonempty w it : stack_ok (stack_ it) w → stack_ok (stack_ (pop_nonempty it)) w.
Proof. unfold pop_nonempty. destruct (valid it); [apply stack_pop|done]. Qed.

Lemma beyond_ok bound sibling d shown notes it l v a t x b : finds_bound bound → descends d → is_byte b → inner (stack_ it) → shown `sublist_of` notes →
  triple (stn notes (λ w, stack_ok (stack_ it) w ∧ (valid_ptr w (PInode a t) ∧ seen l v w) ∧ seen (NodeLock a) x w))
    (seek_beyond bound sibling d (PInode a t) a b (Sec l (Rcs true v)) (Sec (NodeLock a) (Rcs true x)) it) (done_it (λ _, True) shown).
Proof.
  intros Hbound Hd Hb Hi Hsub. set (G := λ w, stack_ok (stack_ it) w ∧ _). assert (HG : robust G) by (unfold G; robust).
  unfold seek_beyond. eapply triple_bind; [apply (st_read_of i _ _ _ _ a t x HG); by intros w (_ & [? _] & ?)|].
  intros n. cbn beta. assert (HGn : robust (λ w, G w ∧ read_of i a x t n w)) by robust.
  apply (triple_know i false (node_wf n)); [by intros w _ (_ & _ & _ & _ & _ & _ & ? & _)|]. intros Hw.
  assert (Hfail : ∀ G', robust G' → (∀ w, G' w → G w) → triple (stn notes G') (give (false, it)) (done_it (λ _, True) shown)).
  { intros G' HG' Hin. apply (fails _ _ (λ _, True) shown notes it); [done|done| |done]. intros w Hg. split; [by apply (Hin w Hg)|done]. }
  destruct (bound n b) as [tmp|] eqn:Htmp.
  - destruct (Hbound n b tmp Hw Hb Htmp) as [p Hp].
    assert (Hpos : ∀ w, G w ∧ read_of i a x t n w → valid_ptr w (PInode a t) ∧ position i a x t tmp.2 w).
    { intros w [(_ & [Hv _] & _) Hr]. split; [done|]. by eapply child_position. }
    eapply triple_bind; [by apply (load_child_ok i _ _ _ _ a t x tmp.2 HGn)|]. intros child. cbn beta.
    assert (HGc : robust (λ w, (G w ∧ read_of i a x t n w) ∧ pointed i (NodeLock a) x child w)) by robust.
    apply (st_still i _ _ _ _ (NodeLock a) x (Check (NodeLock a) (Rcs true x)));
      [by left|done|by intros w [[(_ & _ & ?) _] _]|apply Hfail; [done|by intros w [[? _] _]]|].
    apply (st_still i _ _ _ _ l v (TryReadUnlock l (Rcs true v)));
      [by right|done|by intros w [[(_ & [_ ?] & _) _] _]|apply Hfail; [done|by intros w [[? _] _]]|].
    set (it' := try_push_inode _ _ _ _ _ _). eapply triple_pre; [|apply (Hd (λ _, True) shown it' (NodeLock a) x child); robust].
    intros w _ Hst. exists notes. split; [done|]. revert Hst. apply st_mono. intros [Hg Hp']. destruct (Hpos w Hg) as [Hv Hps].
    split; [|by split]. eapply stack_push; [apply Hg|done..].
  - apply (st_still i _ _ _ _ l v (TryReadUnlock l (Rcs true v)));
      [by right|done|by intros w [(_ & [_ ?] & _) _]|apply Hfail; [done|by intros w [? _]]|].
    apply (st_still i _ _ _ _ (NodeLock a) x (TryReadUnlock (NodeLock a) (Rcs true x)));
      [by right|done|by intros w [(_ & _ & ?) _]|apply Hfail; [done|by intros w [? _]]|].
    eapply triple_pre; [|apply climb_ok; [done|by apply inner_pop_nonempty]]. intros w _ Hst. exists notes. split; [done|].
    revert Hst. apply st_mono. intros [[? _] _]. split; [by apply stack_pop_nonempty|done].
Qed.

Lemma no_child_ok fwd shown notes it l v a t x b : is_byte b → inner (stack_ it) → shown `sublist_of` notes →
  triple (stn notes (λ w, stack_ok (stack_ it) w ∧ (valid_ptr w (PInode a t) ∧ seen l v w) ∧ seen (NodeLock a) x w))
    (seek_no_child fwd (PInode a t) a b (Sec l (Rcs true v)) (Sec (NodeLock a) (Rcs true x)) it) (done_it (λ _, True) shown).
Proof.
  intros Hb Hi Hs. unfold seek_no_child. destruct fwd; (apply beyond_ok; [|..|done|done|done]).
  - apply gte_finds.
  - apply left_most_ok.
  - apply lte_finds.
  - apply right_most_ok.
Qed.

(** What [try_seek] gives. *)
Definition sought_it shown (r : bool * iterator * bool) : fact := done_it (λ _, True) shown r.1.

Lemma lasting_sought shown r : lasting i false (sought_it shown r).
Proof. apply lasting_done, robust_pure. Qed.

Lemma seek_leaf_ok k fwd shown notes it a leaf l v x : shown `sublist_of` notes →
  triple (stn notes (λ w, stack_ok (stack_ it) w ∧ (valid_ptr w (PLeaf a leaf) ∧ seen l v w) ∧ seen (NodeLock a) x w))
    (seek_leaf k fwd (PLeaf a leaf) leaf (Sec l (Rcs true v)) (Sec (NodeLock a) (Rcs true x)) it) (sought_it shown).
Proof.
  intros Hsub. set (G := λ w, stack_ok (stack_ it) w ∧ _). assert (HG : robust G) by (unfold G; robust). unfold seek_leaf.
  apply (st_still i _ _ _ _ l v (TryReadUnlock l (Rcs true v))); [by right|done|by intros w (_ & [_ ?] & _)| |].
  { apply (fails _ _ (λ _, True) shown notes it); [done|done| |done]. intros w Hg. split; [apply Hg|done]. }
  set (it' := try_push_leaf _ _ it). assert (Hin : ∀ w, G w → stack_ok (stack_ it') w ∧ True).
  { intros w (Hst & [Hv _] & Hx). split; [|done]. by eapply stack_push_leaf. }
  eapply triple_bind; [apply (st_note i s notes [] G a leaf x HG); by intros w (_ & [? _] & ?)|].
  intros [|]; cbn beta iota zeta; [|by apply (fails _ _ (λ _, True) shown notes it')].
  apply triple_exists. intros k0. apply triple_exists. intros u. apply triple_pure. intros Hlh.
  assert (Hdone : ∀ w, stn (notes ++ [(k0, u)]) G w → done_it (λ _, True) shown (true, it') w).
  { intros w. apply (noted (λ _, True) shown notes it' G a leaf k0 u); [done|done|by eexists _, _|done]. }
  assert (Hover : ∀ (b : bool) m, member_ok m → triple (stn (notes ++ [(k0, u)]) G)
    (r <- (if b then give (true, it') else m it'); give (r, false)) (sought_it shown)).
  { intros b m Hm. eapply triple_bind with (M := done_it (λ _, True) shown).
    - destruct b; [apply triple_give; [apply lasting_st, HG|intros w _; apply Hdone]|].
      eapply triple_pre; [|apply Hm]. intros w _ Hw. by apply (done_at _ _ (true, it')), Hdone.
    - intros r. apply triple_give; [apply lasting_done, robust_pure|done]. }
  destruct (leaf_cmp leaf k =? 0).
  { apply triple_give; [apply lasting_st, HG|]. intros w _. apply Hdone. }
  destruct fwd; apply Hover; [apply try_next_ok|apply try_prior_ok].
Qed.

Definition seek_inv shown (x : iterator * olc_ptr * Olc.section * art_key) : fact := λ w, let '(it, node, parent, rem) := x in
  ∃ l v z notes, parent = Sec l (Rcs true v) ∧ rem = KInt z ∧ inner (stack_ it) ∧ shown `sublist_of` notes ∧
    stn notes (λ w, stack_ok (stack_ it) w ∧ valid_ptr w node ∧ seen l v w) w.

Definition seek_next shown (r : iterator * olc_ptr * Olc.section * art_key + bool * iterator * bool) : fact :=
  match r with inl x => seek_inv shown x | inr r => sought_it shown r end.

(** At a node in which the search goes on. *)
Lemma seek_inode_ok fwd shown notes it l v a t x z : inner (stack_ it) → shown `sublist_of` notes →
  triple (stn notes (λ w, stack_ok (stack_ it) w ∧ (valid_ptr w (PInode a t) ∧ seen l v w) ∧ seen (NodeLock a) x w))
    (n <- do (ReadInode a);
     let key_prefix := get_key_prefix n in
     let key_prefix_length := prefix_length key_prefix in
     let shared_length := snapshot_get_shared_length key_prefix (get_u64 (KInt z)) in
     if (shared_length <? key_prefix_length)%nat then
       key_byte <- of_opt (index (KInt z) shared_length);
       r <- seek_mismatch (key_byte - prefix_index key_prefix shared_length) fwd (PInode a t)
         (Sec l (Rcs true v)) (Sec (NodeLock a) (Rcs true x)) it;
       give (inr (r, false))
     else
       remaining_key <- of_opt (shift_right (KInt z) key_prefix_length);
       key_byte <- of_opt (index remaining_key 0);
       n <- do (ReadInode a);
       match find_child n key_byte with
       | (_, None) =>
           r <- seek_no_child fwd (PInode a t) a key_byte (Sec l (Rcs true v)) (Sec (NodeLock a) (Rcs true x)) it;
           give (inr (r, false))
       | (child_index, Some s) =>
           let it := try_push_inode (PInode a t) key_byte child_index key_prefix (Sec (NodeLock a) (Rcs true x)) it in
           child <- do (LoadSlot (ChildSlot a s));
           remaining_key <- of_opt (shift_right remaining_key 1);
           need checked (Sec (NodeLock a) (Rcs true x)) else give (inr (false, it, false));
           give (inl (it, child, Sec (NodeLock a) (Rcs true x), remaining_key))
       end) (seek_next shown).
Proof.
  intros Hinner Hsub. set (G := λ w, stack_ok (stack_ it) w ∧ _). assert (HG : robust G) by (unfold G; robust).
  assert (Hend : ∀ r, triple (done_it (λ _, True) shown r) (give (inr (r, false))) (seek_next shown)).
  { intros r. apply triple_give; [apply lasting_done, robust_pure|done]. }
  eapply triple_bind; [apply (st_read_of i _ _ _ _ a t x HG); by intros w (_ & [? _] & ?)|]. intros n. cbn beta zeta.
  assert (HGn : robust (λ w, G w ∧ read_of i a x t n w)) by robust.
  apply (triple_know i false (node_wf n)); [by intros w _ (_ & _ & _ & _ & _ & _ & ? & _)|]. intros Hw.
  pose proof (inode_prefix_wf n Hw) as [_ Hlen].
  destruct (Nat.ltb_spec (snapshot_get_shared_length (get_key_prefix n) (get_u64 (KInt z))) (prefix_length (get_key_prefix n))) as [Hsh|_].
  { eapply (triple_of_opt i false).
    - cbn [index]. rewrite (proj2 (Nat.ltb_lt _ 8)) by lia. done.
    - apply lasting_st, HGn.
    - eapply triple_bind; [|apply Hend]. eapply triple_pre; [intros w _; apply st_mono, proj1|]. by apply mismatch_ok. }
  eapply (triple_of_opt i false); [|apply lasting_st, HGn|].
  { cbn [shift_right]. rewrite (proj2 (Nat.ltb_lt _ 64)) by lia. done. }
  eapply (triple_of_opt i false); [done|apply lasting_st, HGn|]. set (b := byte_at _ 0).
  assert (Hb : is_byte b) by apply byte_at_is_byte.
  eapply triple_bind; [apply (st_read_of i _ _ _ _ a t x HGn); by intros w [(_ & [? _] & ?) _]|]. intros n2. cbn beta.
  assert (HG2 : robust (λ w, (G w ∧ read_of i a x t n w) ∧ read_of i a x t n2 w)) by robust.
  apply (triple_know i false (node_wf n2)); [by intros w _ (_ & _ & _ & _ & _ & _ & ? & _)|]. intros Hw2.
  destruct (find_cases n2 b Hw2 Hb) as [(j & k & p & Hf & _ & Hl & Hat)|[Hf _]]; rewrite Hf; cbn iota beta.
  2: { eapply triple_bind; [|apply Hend]. eapply triple_pre; [intros w _; apply st_mono; intros [[Hg _] _]; exact Hg|].
       by apply no_child_ok. }
  cbn zeta. set (it' := try_push_inode _ _ _ _ _ _).
  assert (Hin : ∀ w, (G w ∧ read_of i a x t n w) ∧ read_of i a x t n2 w → stack_ok (stack_ it') w).
  { intros w [[(Hst & [Hv _] & _) _] Hr]. eapply stack_push; [done|done| |done]. by eapply child_position. }
  eapply triple_bind; [apply (load_slot_ok i _ _ _ _ a t x n2 b j k p HG2); [|done..]; intros w [[(_ & [Hv _] & _) _] Hr]; by split|].
  intros child. cbn beta.
  assert (HGc : robust (λ w, ((G w ∧ read_of i a x t n w) ∧ read_of i a x t n2 w) ∧ pointed i (NodeLock a) x child w)) by robust.
  eapply (triple_of_opt i false); [done|apply lasting_st, HGc|].
  apply (st_valid i _ _ _ _ (NodeLock a) x child (Check (NodeLock a) (Rcs true x))); [by left|done|by intros w [_ ?]| |].
  - apply (fails _ _ (λ _, True) shown notes it'); [done|done| |done]. intros w [Hg _]. split; [by apply Hin|done].
  - apply triple_give; [apply lasting_st, robust_and; [done|apply robust_valid]|]. intros w _ Hst.
    eexists (NodeLock a), x, _, notes. split; [done|]. split; [done|]. split; [by apply Forall_cons|]. split; [done|].
    revert Hst. apply st_mono. intros [[Hg _] Hv]. split; [by apply Hin|]. split; [done|]. by destruct Hg as [[(_ & _ & ?) _] _].
Qed.

Lemma seek_turn k fwd shown x : triple (seek_inv shown x) (seek_step k fwd x) (seek_next shown).
Proof.
  destruct x as [[[it node] parent] rem]. apply triple_exists. intros l. apply triple_exists. intros v.
  apply triple_exists. intros z. apply triple_exists. intros notes. do 4 (apply triple_pure; intros ?). subst parent rem.
  apply (triple_know i false (∃ a, ptr_addr node = Some a)).
  { intros w _ (_ & _ & _ & _ & _ & _ & Hv & _). destruct node; [done|by eexists..]. }
  intros [a Ha]. unfold seek_step.
  set (G := λ w, stack_ok (stack_ it) w ∧ valid_ptr w node ∧ seen l v w). assert (HG : robust G) by (unfold G; robust).
  assert (Hfail : ∀ G', robust G' → (∀ w, G' w → G w) → triple (stn notes G') (give (inr (false, it, false))) (seek_next shown)).
  { intros G' HG' Hin. apply (fails _ _ (λ _, True) shown notes it); [done|done| |done]. intros w Hg. split; [by apply (Hin w Hg)|done]. }
  apply (st_enter_node i false _ _ _ _ _ a); [done|done|by intros w (_ & ? & _)|by apply Hfail|]. intros x.
  assert (HGx : robust (λ w, G w ∧ seen (NodeLock a) x w)) by robust.
  apply (st_still i _ _ _ _ l v (Check l (Rcs true v))); [by left|done|by intros w [(_ & _ & ?) _]|apply Hfail; [done|by intros w [? _]]|].
  eapply triple_pre; [intros w _; apply (st_mono i _ _ _ _ _ (λ w, stack_ok (stack_ it) w ∧ (valid_ptr w node ∧ seen l v w) ∧ seen (NodeLock a) x w)); by intros [(? & ? & ?) ?]|].
  destruct node as [|b leaf|b t]; [done|..]; injection Ha as ->.
  - eapply triple_bind; [by apply seek_leaf_ok|]. intros r. apply triple_give; [apply lasting_sought|done].
  - by apply seek_inode_ok.
Qed.

Lemma try_seek_ok z fwd shown it : triple (at_it (λ _, True) shown it) (try_seek (KInt z) fwd it) (sought_it shown).
Proof.
  unfold try_seek.
  apply (from_root (λ ok, (ok, invalidate it, false)) (false, invalidate it, false)
    (λ node c, need checked c else give (false, invalidate it, false);
      ITree.iter (seek_step (KInt z) fwd) (invalidate it, node, c, KInt z))); [done|done|].
  intros notes v node Hsub Hn.
  apply (st_valid i _ _ _ _ RootLock v node (Check RootLock (Rcs true v))); [by left|robust|done| |].
  - apply (fails _ _ (λ _, True) shown notes (invalidate it)); [done|robust| |done]. intros w _. split; [by constructor|done].
  - eapply triple_pre; [|apply (triple_iter i false (seek_inv shown)); [apply lasting_sought|apply seek_turn]].
    intros w _ Hst. exists RootLock, v, z, notes. do 2 (split; [done|]). split; [by constructor|]. split; [done|]. revert Hst. apply st_mono.
    intros [Hp Hv]. split; [by constructor|]. split; [done|]. by eapply given_seen.
Qed.

Lemma seek_member_ok z fwd : member_ok (λ it, r <- try_seek (KInt z) fwd it; give r.1).
Proof.
  intros shown it. eapply triple_bind; [apply try_seek_ok|]. intros r. apply triple_give; [apply lasting_sought|done].
Qed.

(** ** From one entry to the next *)

Lemma again_turn z fwd m shown it : member_ok m →
  triple (at_it (λ _, True) shown it) (step_again (KInt z) fwd m it)
    (λ r, match r with inl it => at_it (λ _, True) shown it | inr it => done_it (λ _, True) shown (true, it) end).
Proof.
  intros Hm. unfold step_again. eapply triple_bind; [apply try_seek_ok|]. intros [[[|] it'] [|]]; cbn [negb].
  - eapply triple_bind; [eapply triple_pre; [|apply Hm]; intros w _; apply (done_at _ _ (true, it'))|].
    intros [[|] it2]; (apply triple_give; [apply lasting_done, robust_pure|]); [done|]. intros w _. apply (done_at _ _ (false, it2)).
  - apply triple_give; [apply lasting_sought|done].
  - apply triple_give; [apply lasting_sought|]. intros w _. apply (done_at _ _ (false, it')).
  - apply triple_give; [apply lasting_sought|]. intros w _. apply (done_at _ _ (false, it')).
Qed.

Lemma from_leaf_ok fwd m shown it leaf : member_ok m → current_leaf it = Some leaf →
  triple (at_it (λ _, True) shown it) (step_from_leaf true fwd m it) (λ it, done_it (λ _, True) shown (true, it)).
Proof.
  intros Hm Hl. assert (HL : ∀ r, lasting i false (done_it (λ _, True) shown r)) by (intros r; apply lasting_done, robust_pure).
  unfold step_from_leaf. rewrite Hl. unfold current_leaf in Hl. destruct (current_node it); [done| |done].
  apply (triple_of_opt i false _ _ leaf); [done|apply lasting_at, robust_pure|]. cbn zeta.
  eapply triple_bind; [apply Hm|]. intros [[|] it']; cbn [fst snd].
  - by apply triple_give.
  - eapply triple_pre; [intros w _; apply (done_at _ _ (false, it'))|].
    apply (triple_iter i false (at_it (λ _, True) shown)); [done|]. intros it2. by apply again_turn.
Qed.

(** ** The scans *)

(** The part of a scan that is left once the iterator has been positioned. *)
Definition at_entry (x : iterator * list binding) : fact := λ w,
  Forall (λ e : binding, scan_wants s e.1 = true) x.2 ∧ done_it (λ _, True) x.2 (true, x.1) w.

Definition entry_next (r : iterator * list binding + list binding) : fact :=
  match r with inl x => at_entry x | inr shown => scan_finished shown end.

(** The test of the loop is for an entry that is wanted. *)
Definition wanted (continues : iterator → option bool) : Prop := ∀ it leaf, current_leaf it = Some leaf →
  ∃ b, continues it = Some b ∧ (b = true → ∀ k u, leaf_holds leaf k u → scan_wants s k = true).

Definition steps_on (step : iterator → prog iterator) : Prop := ∀ shown it leaf, current_leaf it = Some leaf →
  triple (at_it (λ _, True) shown it) (step it) (λ it, done_it (λ _, True) shown (true, it)).

Lemma next_steps : steps_on (next true).
Proof. intros shown it leaf. apply from_leaf_ok, try_next_ok. Qed.

Lemma prior_steps : steps_on (prior true).
Proof. intros shown it leaf. apply from_leaf_ok, try_prior_ok. Qed.

Lemma lasting_scanned shown : lasting i false (scan_finished shown).
Proof. apply lasting_ex. intros notes. apply lasting_and; [apply lasting_pure|]. apply lasting_st, lasting_pure. Qed.

Lemma finish w shown notes (G : fact) : Forall (λ e : binding, scan_wants s e.1 = true) shown → shown `sublist_of` notes →
  stn notes G w → scan_finished shown w.
Proof. intros Hw Hs Hst. exists notes. split; [by split|]. revert Hst. by apply st_mono. Qed.

Lemma entry_turn stops continues step x : wanted continues → steps_on step →
  triple (at_entry x) (scan_turn (collect stops) continues step x) entry_next.
Proof.
  intros Hc Hstep. destruct x as [it shown]. unfold at_entry. cbn [fst snd]. apply triple_pure. intros Hwant.
  apply triple_exists. intros notes. apply triple_pure. intros Hsub. apply triple_pure. intros Hl. specialize (Hl eq_refl).
  cbn [snd] in *. set (G := λ w, stack_ok (stack_ it) w ∧ True). assert (HG : robust G) by (unfold G; robust).
  assert (Hend : triple (stn notes G) (give (inr shown)) entry_next).
  { apply triple_give; [apply lasting_st, HG|]. intros w _. by apply (finish w shown notes). }
  unfold scan_turn, valid. destruct (stack_ it) as [|e st] eqn:Hst; [done|]. destruct Hl as (a & leaf & k & u & He & Hlh & Hsh).
  assert (Hcur : current_leaf it = Some leaf) by (unfold current_leaf, current_node; by rewrite Hst, He).
  destruct (Hc it leaf Hcur) as (b & Hb & Hwk). rewrite Hb. apply (triple_of_opt i false _ _ b); [done|apply lasting_st, HG|].
  destruct b; [|done]. unfold get_key, get_val. rewrite Hcur.
  apply (triple_of_opt i false _ _ (leaf_get_key_view leaf)); [done|apply lasting_st, HG|].
  apply (triple_of_opt i false _ _ (get_value_view leaf)); [done|apply lasting_st, HG|].
  rewrite (leaf_holds_key _ _ _ Hlh), (leaf_holds_value _ _ _ Hlh). unfold collect. set (shown' := shown ++ [(k, u)]).
  assert (Hwant' : Forall (λ e : binding, scan_wants s e.1 = true) shown').
  { apply Forall_app. split; [done|]. constructor; [by apply (Hwk eq_refl k u)|constructor]. }
  destruct (stops shown').
  - apply triple_give; [apply lasting_st, HG|]. intros w _. by apply (finish w shown' notes).
  - eapply triple_bind.
    + eapply triple_pre; [|by apply (Hstep shown' it leaf)]. intros w _ Hw. exists notes. split; [done|]. by rewrite Hst.
    + intros it'. apply triple_give; [apply lasting_done, robust_pure|]. intros w _ Hw. by split.
Qed.

Lemma loop_ok stops continues step it : wanted continues → steps_on step →
  triple (done_it (λ _, True) [] (true, it)) (scan_loop (collect stops) continues step it []) scan_finished.
Proof.
  intros Hc Hstep. unfold scan_loop. eapply triple_pre; [|apply (triple_iter i false at_entry); [apply lasting_scanned|]].
  - intros w _ Hw. split; [by constructor|done].
  - intros x. by apply entry_turn.
Qed.

(** A scan from where a member puts the iterator. *)
Lemma positioned stops m continues step : member_ok m → wanted continues → steps_on step →
  triple (stn [] (λ _, True)) (it <- until_done m new_iterator; scan_loop (collect stops) continues step it []) scan_finished.
Proof.
  intros Hm Hc Hstep. eapply triple_bind; [|intros it; by apply loop_ok].
  eapply triple_pre; [|by apply until_done_ok]. intros w _ Hst. exists []. split; [done|]. revert Hst. apply st_mono.
  intros _. split; [by constructor|done].
Qed.

Lemma wanted_always : (∀ k, scan_wants s k = true) → wanted always.
Proof. intros Hw it leaf _. exists true. split; [done|]. intros _ k u _. apply Hw. Qed.
End scan.

Section programs.
Context `{Target} (i : nat).

(** The end of a range, for both directions. *)
Lemma wanted_before from_key to_key (fwd : bool) :
  lex (key_bytes (IntKey from_key)) (key_bytes (IntKey to_key)) = (if fwd then Lt else Gt) →
  wanted (ScanRange from_key to_key)
    (λ it, (λ c, if fwd then c <? 0 else 0 <? c) <$> cmp it (art_key_of (IntKey to_key))).
Proof.
  intros Hlex it leaf Hl. unfold cmp. rewrite Hl. cbn [fmap option_fmap option_map]. eexists. split; [done|].
  intros Hc k u Hlh. rewrite (leaf_holds_key _ _ _ Hlh), compare_lex in Hc. unfold scan_wants. rewrite Hlex.
  change (get_key_view (art_key_of (IntKey to_key))) with (key_bytes (IntKey to_key)) in Hc.
  destruct fwd, (lex k (key_bytes (IntKey to_key))); done.
Qed.

Lemma scan_program_ok s stops : triple i false (st i (Scanning s []) [] [] [] (λ _, True)) (scan_program s stops) (scan_finished i s).
Proof.
  destruct s as [fwd|from_key fwd|from_key to_key]; cbn [scan_program].
  - unfold OlcIter.scan. destruct fwd; apply positioned; try (by apply wanted_always).
    + apply try_first_ok.
    + apply next_steps.
    + apply try_last_ok.
    + apply prior_steps.
  - unfold scan_from, seek. cbn [art_key_of art_key_of_int]. destruct fwd; apply positioned; try (by apply wanted_always).
    + apply seek_member_ok.
    + apply next_steps.
    + apply seek_member_ok.
    + apply prior_steps.
  - unfold scan_range, seek. cbn [art_key_of]. rewrite cmp_key_bytes.
    apply (triple_of_opt i false _ _ (comparison_sign (lex (key_bytes (IntKey from_key)) (key_bytes (IntKey to_key)))));
      [done|apply lasting_st, lasting_pure|].
    destruct (lex (key_bytes (IntKey from_key)) (key_bytes (IntKey to_key))) eqn:Hlex; cbn [comparison_sign Z.eqb Z.ltb Z.compare].
    + apply triple_give; [apply lasting_st, lasting_pure|]. intros w _. by apply (finish i _ w [] []).
    + apply positioned; [apply seek_member_ok|by apply (wanted_before from_key to_key true)|apply next_steps].
    + apply positioned; [apply seek_member_ok|by apply (wanted_before from_key to_key false)|apply prior_steps].
Qed.
End programs.
