(* ===== verification/OlcInsert.v ===== *)
(** Insertion in the index with optimistic lock coupling: each call takes effect at
    one of its steps, or answers what was right at some moment of the call. *)

From ITree Require Import ITree.
From S2P Require Import Prelude Words Threads ArtKey KeyPrefix SortedAssoc Simd InodeBase.
From S2P Require Import Inode4 Heap Leaf InodeSpec Inode Db DbMap DbTrace OptimisticLock OlcState Olc OlcSystem OlcLogic OlcTree OlcSurgery OlcInv OlcFacts OlcSteps OlcEdit OlcChanges OlcRules OlcUse OlcWalk.
#[local] Open Scope prog_scope.

Section insert.
Context `{Target} (i : nat) (key : key_arg) (z : Z) (v : list Z).
Context (Hz : 0 ≤ z < 2 ^ 64) (Hkey : art_key_of key = KInt z).

Abbreviation fact := (gworld → Prop).
Abbreviation triple := (triple i false).
Abbreviation st := (st i).
Let o := OpInsert key v.
Let K := int_bytes z.
Let L := leaf_of (KInt z) v.

Lemma insert_spec (m : gmap (list Z) (list Z)) : spec_op o m = match m !! K with Some _ => (Bool false, m) | None => (Bool true, <[K := v]> m) end.
Proof. unfold o. cbn [spec_op]. unfold key_bytes. by rewrite Hkey. Qed.

(** ** The cached leaf *)

Definition fits : Prop := Z.of_nat (length v) < 2 ^ 32.

Definition leaf_ok (cl : option olc_ptr) : Prop :=
  match cl with Some p => fits ∧ ∃ la, p = PLeaf la L | None => True end.

Definition kept_leaf (cl : option olc_ptr) : list (addr * contents) :=
  match cl with Some (PLeaf la l) => [(la, LeafC l)] | _ => [] end.

Lemma new_leaf_holds : fits → leaf_holds L K v.
Proof. intros Hf. apply (leaf_of_holds (KInt z)); done. Qed.

Lemma kept_leaves cl b C : leaf_ok cl → (b, C) ∈ kept_leaf cl → ∃ l : basic_leaf, C = LeafC l.
Proof. destruct cl as [p|]; [intros (_ & la & ->) [= -> ->]%list_elem_of_singleton; by eexists|by intros _ ?%elem_of_nil]. Qed.

Lemma kept_nodup cl : NoDup (kept_leaf cl).*1.
Proof. destruct cl as [[]|]; repeat constructor; apply not_elem_of_nil. Qed.

(** The ends of a try, with what is left of the cached leaf. *)
Definition tried (r : insert_result) : fact := λ w, ∃ A,
  match r with
  | (Value (Some true), cl) => cl = None ∧ st (Answered (Value (Bool true))) A [] [] (λ _, True) w
  | (Value (Some false), cl) => cl = None ∧ st (Pending o) A [] [] (λ _, Bool false ∈ A) w
  | (_, cl) => leaf_ok cl ∧ st (Pending o) A [] (kept_leaf cl) (λ _, True) w
  end.

Lemma lasting_tried r : lasting i false (tried r).
Proof.
  apply lasting_ex. intros A. destruct r as [[[[]|]|e] cl]; (apply lasting_and; [apply lasting_pure|apply lasting_st, lasting_pure]).
Qed.

Definition gives_up (r : outcome (option bool)) : Prop := match r with Value (Some _) => False | _ => True end.

Lemma ends_here A G cl r : gives_up r → leaf_ok cl → robust i false G → triple (st (Pending o) A [] (kept_leaf cl) G) (give (r, cl)) tried.
Proof.
  intros Hr Hcl HG. apply triple_give; [apply lasting_st, HG|]. intros w _ Hst. exists A.
  destruct r as [[b|]|e]; [by destruct Hr|..]; (split; [done|]; revert Hst; by apply st_mono).
Qed.

Lemma create_leaf_ok A G cl : robust i false G → leaf_ok cl →
  triple (st (Pending o) A [] (kept_leaf cl) G) (create_leaf_if_needed cl (KInt z) v)
    (λ r w, match r with
      | Value p => leaf_ok (Some p) ∧ st (Pending o) A [] (kept_leaf (Some p)) G w
      | Thrown _ => st (Pending o) A [] (kept_leaf cl) G w
      end).
Proof.
  intros HG Hcl. destruct cl as [p|]; cbn [create_leaf_if_needed].
  { apply triple_give; [by apply lasting_st, HG|done]. }
  unfold make_leaf. destruct (Z.ltb_spec max_value_size (Z.of_nat (length v))) as [Hlt|Hle].
  { apply triple_give; [by apply lasting_st, HG|done]. }
  eapply triple_bind; [by apply (st_new _ _ _ _ _ _ _ _ (LeafC L))|].
  intros [a|]; [apply triple_counts; [apply increment_leaf_counts|by apply lasting_st, HG|]|];
    (apply triple_give; [by apply lasting_st, HG|]); intros w _ Hst; [|done].
  split; [|done]. split; [unfold max_value_size in Hle; unfold fits; lia|]. by exists a.
Qed.

Lemma free_leaf_ok A G cl : robust i false G → leaf_ok cl →
  triple (st (Pending o) A [] (kept_leaf cl) G) (free_leaf cl) (λ _, st (Pending o) A [] [] G).
Proof.
  intros HG Hcl. destruct cl as [p|]; cbn [free_leaf]; [|by apply triple_give; [by apply lasting_st, HG|]].
  destruct Hcl as (_ & la & ->). apply triple_then_counts; [apply decrement_leaf_counts|by apply lasting_st, HG|].
  apply st_free; [done|apply (kept_nodup (Some (PLeaf la L)))|done|]. by apply bool_decide_eq_true.
Qed.

(** ** A new node above another one *)

Lemma split_step A a x v0 d r node c na n4 la b1 b2 KK G :
  lasting i false G → ptr_addr node = Some a → slot_lock r ≠ NodeLock a →
  node_wf (N4 n4) → (length (full c (N4 n4)) < 8)%nat → two_entries (N4 n4) b1 node b2 (PLeaf la L) → fits →
  full c (N4 n4) ++ [b2] `prefix_of` K → full c (N4 n4) ++ [b1] `prefix_of` KK →
  (∀ w, inv w → st (Pending o) A (both a x d r v0) [(na, InodeC (N4 n4)); (la, LeafC L)] G w →
    edge_at r node c w ∧ stretch (logical w) node c KK ∧
    match node with
    | PInode a _ => ∃ n n', logical w a = Some (InodeC n) ∧ inode_at w.1 a = Some n' ∧ node_wf n' ∧ entries n' = entries n ∧
        full (full c (N4 n4) ++ [b1]) n' = full c n
    | _ => True
    end) →
  triple (st (Pending o) A (both a x d r v0) [(na, InodeC (N4 n4)); (la, LeafC L)] G) (do (StoreSlot r (PInode na I4)))
    (λ _, st (Answered (Value (Bool true))) A (both a x None r v0) [] (λ _, True)).
Proof.
  intros HG Ha Hne Hw Hlen [Hb Hen] Hf HpK HpKK Hstep.
  apply (st_edit i false); [done|intros _; apply lasting_st_true|done|]. intros w av _ Hi Hst.
  destruct (Hstep w Hi Hst) as (He & HKK & Hm). pose proof Hst as (Hc & Hl & Hk & Hp & Hmi & Hg).
  apply Forall_cons in Hk as [(Hoa & Hwa & Hpa) [(Hor & Hwr & Hpr) _]%Forall_cons].
  apply Forall_cons in Hmi as [Hmn [Hml _]%Forall_cons]. cbn [fst snd] in *.
  destruct (change_split i w r node a c na (N4 n4) la L b1 b2 K v KK (Answered (Value (Bool true)), A)) as [Hnone Hed];
    [done| |done..|by apply new_leaf_holds|apply int_bytes_length|done|].
  { intros a' x' Hne' Ho'. apply Hl in Ho'. apply elem_of_cons in Ho' as [[= ->]|Ho']; [done|].
    apply list_elem_of_singleton in Ho'. cbn [fst] in Ho'. by rewrite Ho', Hpr. }
  eexists tt, _, _. split; [by eapply perform_store|]. split; [exact Hed|]. split.
  { right. right. left. exists o, A. rewrite insert_spec, Hnone. done. }
  pose proof (ed_word _ _ _ _ Hed) as Hword. split_and!; try done.
  - unfold calling. cbn [snd changed gcalls]. apply list_lookup_insert_eq. by eapply lookup_lt_Some.
  - repeat constructor; cbn [fst snd]; rewrite ?Hword; try done; cbn [snd changed pend].
    + apply lookup_delete_eq.
    + by rewrite lookup_delete_ne.
  - intros b. cbn [snd changed private]. rewrite elem_of_nil. split; [|done]. intros Hb'.
    apply lookup_delete_Some in Hb' as [H1 [H2 Hb']%lookup_delete_Some]. apply Hp in Hb'. cbn [fmap list_fmap fst] in Hb'.
    apply elem_of_cons in Hb' as [?|?%list_elem_of_singleton]; congruence.
Qed.

(** ** At a leaf *)

Lemma gives_up_restart : gives_up (Value None).
Proof. done. Qed.

Lemma insert_at_leaf_ok A cl c r v0 a leaf x :
  leaf_ok cl → pos_ok c (PLeaf a leaf) → c `prefix_of` K →
  triple (st (Pending o) A [] (kept_leaf cl) (λ w, arrived i r v0 (PLeaf a leaf) c w ∧ seen (NodeLock a) x w))
    (insert_at_leaf (KInt z) v leaf (Sec (NodeLock a) (Rcs true x))
       (InsertState (PLeaf a leaf) (Sec (slot_lock r) (Rcs true v0)) r (Z.of_nat (length c)) (shifted (KInt z) (length c)) cl)) tried.
Proof.
  intros Hcl (e & v' & Hl & He & Hce) HcK. unfold insert_at_leaf. cbn [ins_parent ins_leaf ins_key ins_depth ins_slot ins_node].
  set (G := λ w, arrived i r v0 (PLeaf a leaf) c w ∧ seen (NodeLock a) x w).
  assert (HG : robust i false G) by (apply robust_and; [apply robust_arrived|robust]).
  rewrite (leaf_holds_key _ _ _ Hl), cmp_compare. destruct (Z.eqb_spec (compare (get_key_view (KInt z)) e) 0) as [Heq|Hne].
  - apply compare_zero in Heq. change (K = e) in Heq. set (φ := given i [(NodeLock a, x)] (leaf_on_way a leaf K)).
    assert (Hφ : robust i false φ) by (unfold φ; robust).
    apply (st_need i false _ _ _ _ _ (slot_lock r) v0 _ φ None); [by right|done|done| | |by apply ends_here|].
    { intros w [[_ Hg] _]. by eapply given_seen. }
    { intros w Hi (_ & _ & _ & _ & _ & [[_ Hg] Hs]) Hw. split; [|done]. apply given_intro; [done|]. intros _. exists c.
      split; [|done]. apply (edge_in_tree w r); [done|by apply (given_one i w _ _ _ Hg)|done]. }
    apply (st_need i false _ _ _ _ _ (NodeLock a) x _ (λ _, True) (Some (Bool false)));
      [by right|robust|robust|intros w [_ Hg]; by eapply given_seen| |apply ends_here; [done..|robust]|].
    { intros w Hi (_ & _ & _ & _ & _ & [_ Hg]) Hw. split; [done|]. intros b [= <-]. exists o. split; [done|].
      destruct (given_one i w _ _ _ Hg Hw) as (q & Hq & Hqk). pose proof (walk_leaf _ _ _ _ (i_tree _ Hi) K q a leaf Hq Hqk) as Hm.
      rewrite insert_spec, Hm, (leaf_holds_key _ _ _ Hl), decide_True by done. done. }
    eapply triple_bind; [apply free_leaf_ok; [robust|done]|]. intros [].
    apply triple_give; [apply lasting_st; robust|].
    intros w _ Hst. exists (extend (Some (Bool false)) A). split; [done|]. revert Hst. apply st_mono. intros _. by left.
  - rewrite compare_zero in Hne. eapply triple_bind; [by apply create_leaf_ok|]. intros [cached|ex].
    2: { by apply ends_here. }
    apply triple_pure. intros Hcl'. pose proof Hcl' as (Hf & la & ->).
    destruct (split_leaves e z c (PLeaf a leaf) (PLeaf la L)) as (new & n & b1 & b2 & Hnew & Hinit & Hw & Hlen & Htwo & H1 & H2);
      [by destruct Hl as (_ & _ & _ & ? & _)|done|done|by apply not_eq_sym|done..|].
    apply (triple_of_opt _ _ _ _ new); [done|apply lasting_st, HG|].
    eapply triple_bind; [by apply make_inode_ok|]. intros [na|ex].
    2: { by apply (ends_here _ _ (Some (PLeaf la L))). }
    assert (Hps : ∀ b C, (b, C) ∈ kept_leaf (Some (PLeaf la L)) → ∃ l : basic_leaf, C = LeafC l) by (intros; by eapply kept_leaves).
    pose proof (kept_nodup (Some (PLeaf la L))) as Hnd.
    apply take_both; [done| | | |].
    { intros w [[_ Hg] ?]. split; [by eapply given_seen|done]. }
    { apply st_discard; [done..|]. by apply (ends_here _ _ (Some (PLeaf la L))). }
    { apply st_discard; [robust|done..|]. apply (ends_here _ _ (Some (PLeaf la L))); [done..|robust]. }
    intros Hself. apply (triple_of_opt _ _ _ _ n); [done|apply lasting_st, HG|].
    apply st_make; [done..|].
    assert (Hedge : ∀ d c' ps w, st c' A (both a x d r v0) ps G w → edge_at r (PLeaf a leaf) c w).
    { intros d c' ps w Hst. pose proof Hst as (_ & _ & _ & _ & _ & [[_ [_ Hg]] _]). apply Hg. constructor; [|done].
      eapply st_holds; [exact Hst|]. apply elem_of_cons. right. by left. }
    apply (triple_know i false (x mod 4 = 0 ∧ v0 mod 4 = 0)).
    { intros w Hi (_ & _ & _ & _ & _ & [[_ Hg] (_ & ? & _)]). apply given_seen in Hg as (_ & ? & _). done. }
    intros (Hx4 & Hv4). eapply triple_bind.
    { apply (split_step A a x v0 None r (PLeaf a leaf) c na n la b1 b2 e G); try done; [apply HG|].
      intros w Hi Hst. split; [by eapply Hedge|]. split; [|done]. cbn [stretch]. by rewrite (leaf_holds_key _ _ _ Hl). }
    intros []. apply leave_both; [apply lasting_pure|done..|]. apply triple_count_then; [apply lasting_st_true|].
    apply triple_give; [apply lasting_st_true|]. intros w _ Hst. by exists A.
Qed.

(** ** At a node whose prefix the key leaves *)

(** The prefix is cut before the place of the node is changed. *)
Lemma cut_step C A a x v0 r t c n len ps G : slot_lock r ≠ NodeLock a → prefix_wf (cut (get_key_prefix n) len) → lasting i false G →
  (∀ w, inv w → st C A (both a x None r v0) ps G w → node_at r a t c n w) →
  triple (st C A (both a x None r v0) ps G) (do (CutPrefix a len))
    (λ _, st C A (both a x (Some (Uncut (get_key_prefix n))) r v0) ps
      (owned i [slot_lock r; NodeLock a] (node_at r a t c (set_key_prefix (cut (get_key_prefix n) len) n)))).
Proof.
  intros Hne Hy HG Hin. apply (st_edit i false); [done|intros _; apply lasting_st, robust_node|done|].
  intros w av _ Hi Hst. destruct (Hin w Hi Hst) as [He Hn].
  assert (Htidy : tidy i w). { intros b y. eapply st_tidy; [|exact Hst]. by repeat constructor. }
  pose proof Hst as (Hc & Hl & Hk & Hp & Hmi & Hg).
  apply Forall_cons in Hk as [(Hoa & Hwa & Hpa) [(Hor & Hwr & Hpr) _]%Forall_cons]. cbn [fst snd] in *.
  pose proof (change_prefix i w r c a t n _ Hi Htidy He Hor Hn Hpa Hoa Hy) as Hed.
  pose proof (ed_word _ _ _ _ Hed) as Hword. pose proof (proj1 (inode_at_contents _ _ _) Hn) as Hcn.
  eexists tt, _, _. split.
  { cbn [perform]. unfold on_inode. rewrite Hn. cbn [mbind option_bind]. done. }
  split; [exact Hed|]. split; [by left|]. split; [done|]. split; [done|]. split; [|split; [done|]]; [|split].
  - constructor; [|constructor; [|done]]; (split_and!; cbn [fst snd]; [done|by rewrite Hword|cbn [snd pend]]).
    + apply lookup_insert_eq.
    + by rewrite lookup_insert_ne.
  - eapply Forall_impl; [exact Hmi|]. intros [b D] [Hb HD]. split; [done|]. cbn [fst snd] in *.
    rewrite contents_set_inode. rewrite decide_False; [done|]. intros ->.
    pose proof (edge_in_tree _ _ _ _ Hi He ltac:(done)) as Hq. pose proof (owned_in_tree _ _ _ _ Hi Hq eq_refl). congruence.
  - split; [constructor; [done|constructor; [done|constructor]]|]. split.
    + destruct r as [|b j]; unfold edge_at in *; cbn [fst snd pend slot_lock tree] in *; (rewrite lookup_insert_ne by done; split; [done|]); [apply He|].
      destruct He as (_ & q & t' & m & b' & j' & Hq & Hm & Hrest). exists q, t', m, b', j'. split; [done|]. split; [|done].
      apply inode_at_contents. rewrite contents_set_inode, decide_False by (intros ->; by apply Hne). by apply inode_at_contents.
    + cbn [fst]. rewrite (inode_set_inode _ _ _ _ _ Hcn). by rewrite decide_True.
Qed.

(** Under both locks, what was read is what is there. *)
Definition reads r v0 a x t c n1 n2 : fact := λ w,
  ((arrived i r v0 (PInode a t) c w ∧ seen (NodeLock a) x w) ∧ read_at i r v0 a x t c n1 w) ∧ read_at i r v0 a x t c n2 w.

Lemma robust_reads r v0 a x t c n1 n2 : robust i false (reads r v0 a x t c n1 n2).
Proof. unfold reads. robust. Qed.
#[local] Hint Resolve robust_reads : olc.

Lemma reads_seen r v0 a x t c n1 n2 w : reads r v0 a x t c n1 n2 w → seen (slot_lock r) v0 w ∧ seen (NodeLock a) x w.
Proof. intros [[[[_ Hg] ?] _] _]. split; [by eapply given_seen|done]. Qed.

Lemma insert_above_ok A cl c r v0 a t x n1 n2 :
  let sh := get_shared_length (get_key_prefix n2) (get_u64 (shifted (KInt z) (length c))) in
  leaf_ok cl → c `prefix_of` K → (sh < prefix_length (get_key_prefix n1))%nat →
  triple (st (Pending o) A [] (kept_leaf cl) (reads r v0 a x t c n1 n2))
    (insert_above (KInt z) v a sh (Sec (NodeLock a) (Rcs true x))
       (InsertState (PInode a t) (Sec (slot_lock r) (Rcs true v0)) r (Z.of_nat (length c)) (shifted (KInt z) (length c)) cl)) tried.
Proof.
  intros sh Hcl HcK Hsh. unfold insert_above. cbn [ins_parent ins_leaf ins_key ins_depth ins_slot ins_node].
  set (G := reads r v0 a x t c n1 n2). pose proof (robust_reads r v0 a x t c n1 n2) as HG. fold G in HG.
  eapply triple_bind; [by apply create_leaf_ok|]. intros [cached|ex]; [|by apply ends_here].
  apply triple_pure. intros Hcl'. pose proof Hcl' as (Hf & la & ->).
  eapply triple_bind; [apply st_read; [done|by intros w [[? _] _]]|]. intros n3. cbn beta zeta.
  set (G3 := λ w, G w ∧ read_at i r v0 a x t c n3 w).
  assert (HG3 : robust i false G3) by (unfold G3; robust).
  eapply triple_bind; [by apply make_inode_ok|]. intros [na|ex]; [|by apply (ends_here _ _ (Some (PLeaf la L)))].
  assert (Hps : ∀ b C, (b, C) ∈ kept_leaf (Some (PLeaf la L)) → ∃ l : basic_leaf, C = LeafC l) by (intros; by eapply kept_leaves).
  pose proof (kept_nodup (Some (PLeaf la L))) as Hnd.
  apply take_both; [done| | | |].
  { intros w [Hg _]. by eapply reads_seen. }
  { apply st_discard; [done..|]. by apply (ends_here _ _ (Some (PLeaf la L))). }
  { apply st_discard; [robust|done..|]. apply (ends_here _ _ (Some (PLeaf la L))); [done..|robust]. }
  intros Hself. assert (Hnode : ∀ C ps w, st C A (both a x None r v0) ps G3 w → n1 = n2 ∧ n3 = n2 ∧ node_at r a t c n2 w).
  { intros C ps w Hst. destruct (both_held _ _ _ _ _ _ _ _ _ _ _ Hst) as [H1 H2]. destruct Hst as (_ & _ & _ & _ & _ & [[[_ Hr1] Hr2] Hr3]).
    split_and!; [by eapply read_same|by eapply read_same|by eapply read_held]. }
  apply (triple_know i false (x mod 4 = 0 ∧ v0 mod 4 = 0 ∧ n1 = n2 ∧ n3 = n2 ∧ node_wf n2 ∧ (length (full c n2) < 8)%nat)).
  { intros w Hi Hst. destruct (Hnode _ _ _ Hst) as (H12 & H32 & [He Hn]). destruct Hst as (_ & Hl & Hk & _ & _ & [Hg _]).
    pose proof (reads_seen _ _ _ _ _ _ _ _ _ Hg) as [(_ & ? & _) (_ & ? & _)]. pose proof (edge_in_tree _ _ _ _ Hi He ltac:(done)) as Hq.
    apply Forall_cons in Hk as [(_ & _ & Hp) _].
    destruct (t_inode _ _ _ _ (i_tree _ Hi) c a t n2 Hq (logical_inode _ _ _ Hn Hp)) as (? & ? & _).
    by split_and!. }
  intros (Hx4 & Hv4 & -> & -> & Hw & Hlen).
  destruct (split_prefix n2 z c a t (PLeaf la L) Hw Hlen Hz HcK Hsh ltac:(done)) as (Hw4 & Hl4 & Htwo & H1 & H2 & Hfull & Hb2).
  fold sh in Hw4, Hl4, Htwo, H1, H2, Hfull, Hb2. set (n4 := add_two_to_empty _ _ _ _ _) in Hw4, Hl4, Htwo, H1, H2, Hfull.
  eapply triple_bind with (M := λ _, st (Pending o) A (both a x (Some (Uncut (get_key_prefix n2))) r v0) [(na, InodeC (N4 n4)); (la, LeafC L)]
    (owned i [slot_lock r; NodeLock a] (node_at r a t c (set_key_prefix (cut (get_key_prefix n2) (sh + 1)) n2)))).
  { unfold init_above. eapply triple_bind; [apply st_read; [exact HG3|by intros w [[[? _] _] _]]|]. intros n5. cbn beta zeta.
    apply (triple_know i false (n5 = n2)).
    { intros w Hi Hst. destruct (both_held _ _ _ _ _ _ _ _ _ _ _ Hst) as [H3 H4]. destruct Hst as (_ & _ & _ & _ & _ & [[_ Hr2] Hr5]).
      by eapply read_same. }
    intros ->. eapply triple_bind.
    { apply (cut_step _ A a x v0 r t c n2 (sh + 1)); [done|by apply cut_wf, inode_prefix_wf|apply lasting_and; [apply HG3|apply robust_read_at]|].
      intros w _ (H3 & H4 & H5 & H6 & H7 & H8 & _). eapply Hnode. split_and!; [exact H3|exact H4|exact H5|exact H6|exact H7|exact H8]. }
    intros []. apply (triple_of_opt _ _ _ _ (int_byte z (length c + sh))).
    { cbn [leaf_key_view]. change (leaf_get_key_view L !! Z.to_nat (depth_add (Z.of_nat (length c)) (Z.of_nat sh)) = Some (int_byte z (length c + sh))).
      rewrite (leaf_holds_key _ _ _ (new_leaf_holds Hf)). unfold depth_add. apply lookup_lt_Some in Hb2 as Hlt. rewrite int_bytes_length in Hlt.
      rewrite (wrap_small 32) by lia. replace (Z.to_nat _) with (length c + sh)%nat by lia. done. }
    { apply lasting_st, robust_node. }
    apply (triple_know i false (na ∉ (kept_leaf (Some (PLeaf la L))).*1)); [intros w _; by apply own_inode_fresh|]. intros Hna.
    apply st_init; [apply robust_node|by constructor|by eexists]. }
  intros []. eapply triple_bind.
  { apply (split_step A a x v0 _ r (PInode a t) c na n4 la (prefix_index (get_key_prefix n2) sh) (int_byte z (length c + sh)) (full c n2)); try done.
    { apply robust_node. }
    intros w Hi (_ & _ & Hk & _ & _ & _ & [He Hn]). split; [done|]. apply Forall_cons in Hk as [(_ & _ & Hp) _].
    assert (Hlog : logical w a = Some (InodeC n2)).
    { unfold logical. apply inode_at_contents in Hn. cbn [fst snd] in Hp. rewrite Hn, Hp. cbn [with_delayed]. by rewrite set_prefix_back. }
    split; [by exists n2|]. exists n2, (set_key_prefix (cut (get_key_prefix n2) (sh + 1)) n2).
    destruct (set_prefix_spec n2 (cut (get_key_prefix n2) (sh + 1)) Hw) as (H3 & H4 & _); [by apply cut_wf, inode_prefix_wf|].
    split_and!; done. }
  intros []. apply leave_both; [apply lasting_pure|done..|].
  apply triple_count_then; [apply lasting_st_true|]. apply triple_count_then; [apply lasting_st_true|].
  apply triple_give; [apply lasting_st_true|]. intros w _ Hst. by exists A.
Qed.

(** ** A new leaf in a node *)

Lemma add_step A a x t c f n b la count G : type n = t → fits →
  K !! length f = Some b → f ++ [b] `prefix_of` K → assoc b (entries n) = None →
  get_children_count n = count → count ≠ inode_capacity t → lasting i false G →
  (∀ w, inv w → st (Pending o) A [(NodeLock a, x + 2, None)] [(la, LeafC L)] G w → full_at a t c f n w) →
  triple (st (Pending o) A [(NodeLock a, x + 2, None)] [(la, LeafC L)] G)
    (do (AddToNonfull a (PLeaf la L) (Z.of_nat (length f)) count))
    (λ _, st (Answered (Value (Bool true))) A [(NodeLock a, x + 2, None)] [] (λ _, True)).
Proof.
  intros Ht Hf Hb HfK Hab Hcnt Hnf HG Hin. apply (st_edit i false); [done|intros _; apply lasting_st_true|done|]. intros w av _ Hi Hst.
  destruct (Hin w Hi Hst) as (Hpend & q & n' & Hq & Hn & Hs & Hfull & _).
  assert (Htidy : tidy i w). { intros y d. eapply st_tidy; [|exact Hst]. by repeat constructor. }
  pose proof Hst as (Hc & Hl & Hk & Hp & Hmi & Hg).
  apply Forall_cons in Hk as [(Hoa & Hwa & Hpa) _]. apply Forall_cons in Hmi as [Hml _]. cbn [fst snd] in *.
  assert (Hw : node_wf n') by (by destruct (t_inode _ _ _ _ (i_tree _ Hi) q a t n' Hq (logical_inode _ _ _ Hn Hpend))).
  destruct (inode_add n' (PLeaf la L) (Z.of_nat (length f)) b) as (n2 & Hadd & Hw2 & He2 & Hp2 & Ht2); [done|..|done| |].
  { by rewrite (same_count _ _ Hs), (same_type _ _ Hs), Hcnt, Ht. }
  { rewrite Nat2Z.id. cbn [leaf_key_view]. change (leaf_get_key_view L !! length f = Some b). by rewrite (leaf_holds_key _ _ _ (new_leaf_holds Hf)). }
  { assert (Hby : is_bytes K) by apply (get_key_view_is_bytes (KInt z) Hz). by eapply Forall_lookup_1 in Hby. }
  { by rewrite (same_entries _ _ Hs). }
  destruct (change_add i w q a t n' n2 b la L K v (Answered (Value (Bool true)), A)) as [Hnone Hed];
    [done..|by rewrite (same_entries _ _ Hs)|by apply new_leaf_holds|apply int_bytes_length|by rewrite Hfull|].
  pose proof (ed_word _ _ _ _ Hed) as Hword. eexists tt, _, _. split.
  { cbn [perform]. unfold on_inode. rewrite Hn. cbn [mbind option_bind]. rewrite <- Hcnt, <- (same_count _ _ Hs), Hadd. done. }
  split; [exact Hed|]. split.
  { right. right. left. exists o, A. rewrite insert_spec, Hnone. done. }
  split_and!; try done.
  - unfold calling. cbn [snd changed gcalls]. apply list_lookup_insert_eq. by eapply lookup_lt_Some.
  - constructor; [|done]. split_and!; cbn [fst snd]; [done|by rewrite Hword|done].
  - intros y. cbn [snd changed private]. rewrite elem_of_nil. split; [|done]. intros [H1 Hy]%lookup_delete_Some.
    apply Hp in Hy. apply list_elem_of_singleton in Hy. by apply H1.
Qed.

(** What the four reads of the node told, while its lock and its parent's are as
    they were, the key byte and where it is in the key. *)
Definition reads4 r v0 a x t c n1 n2 n3 n4 : fact := λ w,
  (reads r v0 a x t c n1 n2 w ∧ read_at i r v0 a x t c n3 w) ∧ read_at i r v0 a x t c n4 w.

Lemma robust_reads4 r v0 a x t c n1 n2 n3 n4 : robust i false (reads4 r v0 a x t c n1 n2 n3 n4).
Proof. unfold reads4. robust. Qed.
#[local] Hint Resolve robust_reads4 : olc.

Lemma reads4_same r v0 a x t c n1 n2 n3 n4 w : reads4 r v0 a x t c n1 n2 n3 n4 w → holds i (slot_lock r) v0 w → holds i (NodeLock a) x w →
  n1 = n2 ∧ n3 = n2 ∧ n4 = n2 ∧ node_at r a t c n2 w.
Proof.
  intros [[[[_ H1] H2] H3] H4] Hr Ha.
  split_and!; [by eapply read_same|by eapply read_same|by eapply read_same|by eapply read_held].
Qed.

Lemma reads4_node r v0 a x t c n1 n2 n3 n4 w : inv w → reads4 r v0 a x t c n1 n2 n3 n4 w → holds i (slot_lock r) v0 w → holds i (NodeLock a) x w →
  pend w.2 !! NodeLock a = None → node_wf n2 ∧ type n2 = t ∧ (length (full c n2) < 8)%nat.
Proof.
  intros Hi Hr H1 H2 Hp. destruct (reads4_same _ _ _ _ _ _ _ _ _ _ _ Hr H1 H2) as (_ & _ & _ & He & Hn).
  pose proof (edge_in_tree _ _ _ _ Hi He ltac:(done)) as Hq. destruct Hr as [[[_ (_ & Ht & _)] _] _].
  by destruct (t_inode _ _ _ _ (i_tree _ Hi) c a t n2 Hq (logical_inode _ _ _ Hn Hp)) as (? & ? & _).
Qed.

(** What comes of the attempt to add the leaf to the node. *)
Definition added (r : outcome (option (option nat)) * option olc_ptr) : fact :=
  match r with
  | (Thrown e, cl) => tried (Thrown e, cl)
  | (Value None, cl) => tried (Value None, cl)
  | (Value (Some None), cl) => tried (Value (Some true), cl)
  | (Value (Some (Some _)), _) => λ _, False
  end.

Definition stops (r : outcome (option (option nat))) : Prop := match r with Value (Some _) => False | _ => True end.

Lemma add_stops A G cl r : stops r → leaf_ok cl → robust i false G → triple (st (Pending o) A [] (kept_leaf cl) G) (give (r, cl)) added.
Proof.
  intros Hr Hcl HG. apply triple_give; [apply lasting_st, HG|]. intros w _ Hst.
  destruct r as [[b|]|e]; [by destruct Hr|..]; exists A; (split; [done|]; revert Hst; by apply st_mono).
Qed.

(** In place, when the node has room. *)
Lemma add_leaf_ok A la c r v0 a t x n1 n2 n3 n4 :
  let d := (length c + prefix_length (get_key_prefix n1))%nat in
  fits → c `prefix_of` K →
  (prefix_length (get_key_prefix n1) ≤ get_shared_length (get_key_prefix n2) (get_u64 (shifted (KInt z) (length c))))%nat →
  assoc (int_byte z d) (entries n3) = None → get_children_count n4 ≠ inode_capacity t →
  triple (st (Pending o) A [] (kept_leaf (Some (PLeaf la L))) (reads4 r v0 a x t c n1 n2 n3 n4))
    (need write_guard (Sec (NodeLock a) (Rcs true x)) else give (Value None, Some (PLeaf la L));
     need read_unlock (Sec (slot_lock r) (Rcs true v0))
       else (guard_exit (Sec (NodeLock a) (Rcs true x));; give (Value None, Some (PLeaf la L)));
     do (AddToNonfull a (PLeaf la L) (Z.of_nat d) (get_children_count n4));;
     guard_exit (Sec (NodeLock a) (Rcs true x));;
     give (Value (Some None), None))
    added.
Proof.
  intros d Hf HcK Hsh Hab Hnf. set (G := reads4 r v0 a x t c n1 n2 n3 n4).
  pose proof (robust_reads4 r v0 a x t c n1 n2 n3 n4) as HG. fold G in HG.
  assert (Hcl : leaf_ok (Some (PLeaf la L))) by (split; [done|by exists la]).
  assert (Hx : ∀ w, G w → seen (slot_lock r) v0 w ∧ seen (NodeLock a) x w) by (intros w [[Hg _] _]; by eapply reads_seen).
  apply (triple_know i false (x mod 4 = 0)); [intros w _ (_ & _ & _ & _ & _ & Hg); by destruct (Hx w Hg) as [_ (_ & ? & _)]|]. intros Hx4.
  apply st_take; [done|by intros w [_ ?]%Hx|by apply (add_stops _ _ (Some (PLeaf la L)))|]. intros _.
  set (φ := given i [(NodeLock a, x)] (λ w, full_at a t c (full c n2) n2 w ∧ n1 = n2 ∧ n3 = n2 ∧ n4 = n2)).
  assert (Hφ : robust i false φ).
  { apply robust_given; [apply steady_and; [apply steady_full|apply steady_pure]|apply shaped_and; [apply shaped_full|apply shaped_pure]]. }
  assert (Hexit : ∀ G, robust i false G → triple (st (Pending o) A [(NodeLock a, x + 2, None)] (kept_leaf (Some (PLeaf la L))) G)
    (guard_exit (Sec (NodeLock a) (Rcs true x));; give (Value None, Some (PLeaf la L)))
    added).
  { intros G' HG'. apply st_leave; [apply HG'|repeat constructor; apply not_elem_of_nil|by apply mod_locked|by constructor|apply (add_stops _ _ (Some (PLeaf la L))); [done..|robust]]. }
  apply (st_need i false _ _ _ _ G (slot_lock r) v0 _ (λ w, φ w ∧ n1 = n2 ∧ n3 = n2 ∧ n4 = n2 ∧ node_wf n2 ∧ type n2 = t ∧ (length (full c n2) < 8)%nat) None);
    [by right|done|robust|by intros w [? _]%Hx| |by apply Hexit|].
  { intros w Hi Hst Hw. assert (Hh : holds i (NodeLock a) x w) by (eapply st_holds; [exact Hst|by left]).
    destruct Hst as (_ & _ & Hk & _ & _ & Hg). apply Forall_cons in Hk as [(_ & _ & Hp) _].
    destruct (reads4_same _ _ _ _ _ _ _ _ _ _ _ Hg (or_introl Hw) Hh) as (-> & -> & -> & He & Hn).
    destruct (reads4_node _ _ _ _ _ _ _ _ _ _ _ Hi Hg (or_introl Hw) Hh Hp) as (? & ? & ?).
    split; [|done]. split; [|done]. apply given_intro; [by apply Hx|]. intros _. split; [|done]. split; [done|]. exists c, n2.
    split_and!; try done. by apply (edge_in_tree w r). }
  apply (triple_know i false (n1 = n2 ∧ n3 = n2 ∧ n4 = n2 ∧ node_wf n2 ∧ type n2 = t ∧ (length (full c n2) < 8)%nat)).
  { by intros w _ (_ & _ & _ & _ & _ & _ & _ & ?). }
  intros (-> & -> & -> & Hw & Ht & Hlen). destruct (shared_through z n2 c Hz Hw HcK Hsh Hlen) as (HfK & HfbK & Hb).
  assert (Hl : length (full c n2) = d) by (unfold full, d; by rewrite length_app, length_prefix_bytes). fold d in HfbK, Hb.
  eapply triple_bind.
  { rewrite <- Hl. apply (add_step A a x t c (full c n2) n2 (int_byte z d)); try done; [by rewrite Hl| |].
    - apply lasting_and; [apply HG|robust].
    - intros w Hi Hst. assert (Hh : holds i (NodeLock a) x w) by (eapply st_holds; [exact Hst|by left]).
      destruct Hst as (_ & _ & _ & _ & _ & _ & [_ Hg] & _). apply Hg. by apply Forall_singleton. }
  intros []. apply st_leave; [apply lasting_pure|repeat constructor; apply not_elem_of_nil|by apply mod_locked|by constructor|].
  apply triple_give; [apply lasting_st_true|]. intros w _ Hst. by exists A.
Qed.

(** In a larger copy, which takes the place of the node. *)
Lemma grow_step A a v0 r t c n na n' t' b la G : slot_lock r ≠ NodeLock a → fits →
  type n' = t' → node_wf n' → get_key_prefix n' = get_key_prefix n → entries n' = ins b (PLeaf la L) (entries n) →
  assoc b (entries n) = None → full c n ++ [b] `prefix_of` K → lasting i false G →
  (∀ w, G w → node_at r a t c n w ∧ is_retired i a w) →
  triple (st (Pending o) A [(NodeLock a, 1, None); (slot_lock r, v0 + 2, None)] [(na, InodeC n'); (la, LeafC L)] G)
    (do (StoreSlot r (PInode na t')))
    (λ _, st (Answered (Value (Bool true))) A [(slot_lock r, v0 + 2, None)] [] (λ _, True)).
Proof.
  intros Hne Hf Ht Hw Hpre Hen Hab HK HG Hin. apply (st_edit i false); [done|intros _; apply lasting_st_true|done|].
  intros w av _ Hi Hst. assert (Htidy : tidy i w) by (intros y d; eapply st_tidy; [|exact Hst]; by repeat constructor).
  pose proof Hst as (Hc & Hl & Hk & Hp & Hmi & Hg). destruct (Hin w Hg) as [[He Hn] [_ Hret]].
  apply Forall_cons in Hk as [(Hoa & Hwa & Hpa) [(Hor & Hwr & Hpr) _]%Forall_cons].
  apply Forall_cons in Hmi as [Hmn [Hml _]%Forall_cons]. cbn [fst snd] in *.
  destruct (change_grow i w r a t c n na t' n' la L b K v (Answered (Value (Bool true)), A)) as [Hnone Hed];
    [done..|by apply new_leaf_holds|apply int_bytes_length|done|].
  pose proof (ed_word _ _ _ _ Hed) as Hword. eexists tt, _, _. split; [by eapply perform_store|]. split; [exact Hed|]. split.
  { right. right. left. exists o, A. rewrite insert_spec, Hnone. done. }
  split_and!; try done.
  - unfold calling. cbn [snd changed gcalls]. apply list_lookup_insert_eq. by eapply lookup_lt_Some.
  - intros l. cbn [snd changed owner fmap list_fmap fst]. rewrite list_elem_of_singleton. split.
    + intros [Hd Ho]%lookup_delete_Some. apply Hl in Ho. apply elem_of_cons in Ho as [?|Ho%list_elem_of_singleton]; [by subst|done].
    + intros ->. by rewrite lookup_delete_ne.
  - constructor; [|done]. split_and!; cbn [fst snd changed owner pend]; [by rewrite lookup_delete_ne|by rewrite Hword|done].
  - intros y. cbn [snd changed private]. rewrite elem_of_nil. split; [|done]. intros Hy.
    apply lookup_delete_Some in Hy as [H1 [H2 Hy]%lookup_delete_Some]. apply Hp in Hy. cbn [fmap list_fmap fst] in Hy.
    apply elem_of_cons in Hy as [?|?%list_elem_of_singleton]; congruence.
Qed.

(** The node is copied while it is obsolete and still in place. *)
Lemma init_from_smaller_ok A a x v0 r t c n raw na n' la depth G :
  raw_larger n = Some raw → create_larger n (PLeaf la L) depth = Some n' → slot_lock r ≠ NodeLock a → x mod 4 = 0 → lasting i false G →
  (∀ w, inv w → st (Pending o) A (both a x None r v0) [(na, InodeC raw); (la, LeafC L)] G w → node_at r a t c n w) →
  triple (st (Pending o) A (both a x None r v0) [(na, InodeC raw); (la, LeafC L)] G)
    (init_from_smaller na raw a (Sec (NodeLock a) (Rcs true x)) (PLeaf la L) depth)
    (λ _, st (Pending o) A [(NodeLock a, 1, None); (slot_lock r, v0 + 2, None)] [(na, InodeC n'); (la, LeafC L)]
      (λ w, owned i [slot_lock r; NodeLock a] (node_at r a t c n) w ∧ is_retired i a w)).
Proof.
  intros Hraw Hcr Hne Hx HG Hin. unfold init_from_smaller.
  set (φ := owned i [slot_lock r; NodeLock a] (node_at r a t c n)). assert (Hφ : robust i false φ) by apply robust_node.
  set (G' := λ w, φ w ∧ unretired i a w). assert (HG' : robust i false G') by (unfold G'; robust).
  assert (Hps : ∀ b C, (b, C) ∈ [(la, LeafC L)] → ∃ l : basic_leaf, C = LeafC l) by (intros b C [= -> ->]%list_elem_of_singleton; by eexists).
  assert (Hnd : NoDup ([(la, LeafC L)] : list (addr * contents)).*1) by (repeat constructor; apply not_elem_of_nil).
  apply (triple_pre _ _ _ (st (Pending o) A (both a x None r v0) [(na, InodeC raw); (la, LeafC L)] G')).
  { intros w Hi Hst. pose proof (Hin w Hi Hst) as Hn. destruct Hst as (? & ? & Hk & ? & ? & _). split_and!; try done.
    apply Forall_cons in Hk as [Ha [Hr _]%Forall_cons]. split.
    - split; [|done]. constructor; [apply Hr|]. constructor; [apply Ha|constructor].
    - eapply locked_unretired; [done|exact Ha|]. cbn [fst snd]. intros He. apply mod_locked in Hx. by rewrite He in Hx. }
  eapply triple_bind.
  { apply (st_obsolete i false _ _ a (x + 2) _ _ G' G'); [apply HG'|apply HG'|by apply both_nodup|by apply mod_locked|].
    intros w w' Hi (Hs & Ho & Hr) [H1 [H2 H3]]. split.
    - apply (after_owned i (λ w w', others (NodeLock a) w w' ∧ owner w'.2 = owner w.2) _ _ (shaped_node _ _ _ _ _)) with w; try done.
      by intros ? ? [[? _] ?].
    - split; [by rewrite Ho|by rewrite Hr]. }
  intros []. eapply triple_bind.
  { apply (st_quiet i false _ _ _ _ G' (ReadInode a) (λ m _, m = n) (λ _, None)); [done|intros; apply robust_pure|done|].
    intros w av _ _ (_ & _ & _ & _ & _ & [[_ [_ Hn]] _]). exists n. cbn [perform]. by rewrite Hn. }
  intros m. cbn beta. apply (triple_know i false (m = n)); [by intros w _ (_ & _ & _ & _ & _ & _ & ?)|]. intros ->.
  eapply triple_pre; [intros w _; by apply st_mono, proj1|].
  apply (triple_of_opt _ _ _ _ n'); [by rewrite (init_larger_create n)|apply lasting_st, HG'|].
  assert (Hini : init_larger raw n (PLeaf la L) depth = Some n') by by rewrite (init_larger_create n).
  apply st_make; [done|done|done|by rewrite (init_larger_type _ _ _ _ _ Hini)|].
  apply (st_retire i false _ _ (PInode a (type n)) a _ _ G'); [apply HG'|apply lasting_and; [apply Hφ|apply lasting_is_retired]|done| |by intros w [_ ?]| |exact (both_nodup a x None r v0 Hne)].
  { intros w Hi [[_ [He Hn]] _]. by eapply node_at_valid. }
  intros w w' Hi ((Hs & _) & Ho & Hr) [H1 [H2 H3]]. split.
  - apply (after_owned i (λ w w', same_shape w w' ∧ owner w'.2 = owner w.2) _ _ (shaped_node _ _ _ _ _)) with w; try done.
  - split; [by rewrite Ho|]. rewrite Hr. apply elem_of_cons. by left.
Qed.

Lemma grow_ok A la c r v0 a t x n1 n2 n3 n4 :
  let d := (length c + prefix_length (get_key_prefix n1))%nat in
  fits → c `prefix_of` K →
  (prefix_length (get_key_prefix n1) ≤ get_shared_length (get_key_prefix n2) (get_u64 (shifted (KInt z) (length c))))%nat →
  assoc (int_byte z d) (entries n3) = None → t ≠ I256 → get_children_count n4 = inode_capacity t →
  triple (st (Pending o) A [] (kept_leaf (Some (PLeaf la L))) (reads4 r v0 a x t c n1 n2 n3 n4))
    (n <- do (ReadInode a);
     raw <- of_opt (raw_larger n);
     larger_node <- make_inode raw;
     match larger_node with
     | Thrown e => give (Thrown e, Some (PLeaf la L))
     | Value larger_node =>
         need write_guard (Sec (slot_lock r) (Rcs true v0)) else (free_inode larger_node (type raw);; give (Value None, Some (PLeaf la L)));
         need write_guard (Sec (NodeLock a) (Rcs true x))
           else (guard_exit (Sec (slot_lock r) (Rcs true v0));; free_inode larger_node (type raw);; give (Value None, Some (PLeaf la L)));
         init_from_smaller larger_node raw a (Sec (NodeLock a) (Rcs true x)) (PLeaf la L) (Z.of_nat d);;
         do (StoreSlot r (PInode larger_node (larger_type t)));;
         guard_exit (Sec (slot_lock r) (Rcs true v0));;
         account_growing_inode (larger_type t);;
         give (Value (Some None), None)
     end) added.
Proof.
  intros d Hf HcK Hsh Hab Ht Hfull. set (G := reads4 r v0 a x t c n1 n2 n3 n4).
  pose proof (robust_reads4 r v0 a x t c n1 n2 n3 n4) as HG. fold G in HG.
  assert (Hcl : leaf_ok (Some (PLeaf la L))) by (split; [done|by exists la]).
  assert (Hx : ∀ w, G w → seen (slot_lock r) v0 w ∧ seen (NodeLock a) x w) by (intros w [[Hg _] _]; by eapply reads_seen).
  eapply triple_bind; [apply st_read; [exact HG|by intros w [[[[? _] _] _] _]]|]. intros n5. cbn beta.
  apply (triple_know i false (type n5 = t)); [by intros w _ (_ & _ & _ & _ & _ & _ & _ & ? & _)|]. intros Ht5.
  destruct (raw_larger_some n5) as [raw Hraw]; [congruence|].
  set (G5 := λ w, G w ∧ read_at i r v0 a x t c n5 w).
  assert (HG5 : robust i false G5) by (unfold G5; robust).
  apply (triple_of_opt _ _ _ _ raw); [done|apply lasting_st, HG5|].
  eapply triple_bind; [by apply make_inode_ok|]. intros [na|ex]; [|by apply (add_stops _ _ (Some (PLeaf la L)))].
  assert (Hps : ∀ b C, (b, C) ∈ kept_leaf (Some (PLeaf la L)) → ∃ l : basic_leaf, C = LeafC l) by (intros; by eapply kept_leaves).
  pose proof (kept_nodup (Some (PLeaf la L))) as Hnd.
  apply take_both; [done|intros w [Hg _]; by apply Hx| | |].
  { apply st_discard; [done..|]. by apply (add_stops _ _ (Some (PLeaf la L))). }
  { apply st_discard; [robust|done..|]. apply (add_stops _ _ (Some (PLeaf la L))); [done..|robust]. }
  intros Hself. assert (Hnode : ∀ C ps w, st C A (both a x None r v0) ps G5 w → n1 = n2 ∧ n3 = n2 ∧ n4 = n2 ∧ n5 = n2 ∧ node_at r a t c n2 w).
  { intros C ps w Hst. destruct (both_held _ _ _ _ _ _ _ _ _ _ _ Hst) as [Hh1 Hh2]. destruct Hst as (_ & _ & _ & _ & _ & [Hg H5]).
    destruct (reads4_same _ _ _ _ _ _ _ _ _ _ _ Hg Hh1 Hh2) as (? & ? & ? & ?). split_and!; try done.
    destruct Hg as [[[_ Hr2] _] _]. by eapply read_same. }
  apply (triple_know i false (x mod 4 = 0 ∧ v0 mod 4 = 0 ∧ (n1 = n2 ∧ n3 = n2 ∧ n4 = n2 ∧ n5 = n2) ∧ node_wf n2 ∧ (length (full c n2) < 8)%nat)).
  { intros w Hi Hst. destruct (Hnode _ _ _ Hst) as (? & ? & ? & ? & [He Hn]). destruct (both_held _ _ _ _ _ _ _ _ _ _ _ Hst) as [Hh1 Hh2].
    destruct Hst as (_ & Hl & Hk & _ & _ & [Hg _]). pose proof (Hx _ Hg) as [(_ & ? & _) (_ & ? & _)].
    apply Forall_cons in Hk as [(_ & _ & Hp) _]. destruct (reads4_node _ _ _ _ _ _ _ _ _ _ _ Hi Hg Hh1 Hh2 Hp) as (? & ? & ?).
    by split_and!. }
  intros (Hx4 & Hv4 & (-> & -> & -> & ->) & Hw & Hlen).
  destruct (shared_through z n2 c Hz Hw HcK Hsh Hlen) as (HfK & HfbK & Hb). fold d in HfbK, Hb.
  destruct (inode_grow n2 (PLeaf la L) (Z.of_nat d) (int_byte z d) Hw) as (n' & Hcr & Hw' & He' & Hp' & Ht');
    [congruence|by rewrite Ht5| |apply int_byte_is_byte|done|done|].
  { rewrite Nat2Z.id. cbn [leaf_key_view]. change (leaf_get_key_view L !! d = Some (int_byte z d)). by rewrite (leaf_holds_key _ _ _ (new_leaf_holds Hf)). }
  eapply triple_bind.
  { apply (init_from_smaller_ok A a x v0 r t c n2 raw na n' la _ G5); [done..|apply HG5|]. intros w _ Hst. by eapply Hnode. }
  intros []. eapply triple_bind.
  { apply (grow_step A a v0 r t c n2 na n' _ (int_byte z d) la); try done; [congruence|apply lasting_and; [apply robust_node|apply lasting_is_retired]|].
    by intros w [[_ ?] ?]. }
  intros []. apply st_leave; [apply lasting_pure|repeat constructor; apply not_elem_of_nil|by apply mod_locked|by constructor|].
  apply triple_count_then; [apply lasting_st_true|].
  apply triple_give; [apply lasting_st_true|]. intros w _ Hst. by exists A.
Qed.

Definition chosen A cl r v0 a x t c n1 n2 d (res : outcome (option (option nat)) * option olc_ptr) : fact :=
  match res with
  | (Value (Some (Some s)), cl') => λ w, cl' = cl ∧ ∃ n3 j y,
      (find_child n3 (int_byte z d) = (j, Some s) ∧ assoc (int_byte z d) (entries n3) = Some y ∧ slot_load n3 s = Some y) ∧
      st (Pending o) A [] (kept_leaf cl) (λ w, reads r v0 a x t c n1 n2 w ∧ read_at i r v0 a x t c n3 w) w
  | res => added res
  end.

Lemma chosen_added A cl r v0 a x t c n1 n2 d res w : added res w → chosen A cl r v0 a x t c n1 n2 d res w.
Proof. by destruct res as [[[[s|]|]|e] cl']. Qed.

Lemma add_or_choose_ok A cl c r v0 a t x n1 n2 :
  let d := (length c + prefix_length (get_key_prefix n1))%nat in
  leaf_ok cl → c `prefix_of` K →
  (prefix_length (get_key_prefix n1) ≤ get_shared_length (get_key_prefix n2) (get_u64 (shifted (KInt z) (length c))))%nat →
  triple (st (Pending o) A [] (kept_leaf cl) (reads r v0 a x t c n1 n2))
    (add_or_choose_subtree a t (int_byte z d) (KInt z) v (Z.of_nat d) (Sec (NodeLock a) (Rcs true x)) r (Sec (slot_lock r) (Rcs true v0)) cl)
    (chosen A cl r v0 a x t c n1 n2 d).
Proof.
  intros d Hcl HcK Hsh. unfold add_or_choose_subtree.
  pose proof (robust_reads r v0 a x t c n1 n2) as HG.
  eapply triple_bind; [apply st_read; [exact HG|by intros w [[? _] _]]|]. intros n3. cbn beta.
  assert (HG3 : robust i false (λ w, reads r v0 a x t c n1 n2 w ∧ read_at i r v0 a x t c n3 w)) by (robust).
  apply (triple_know i false (node_wf n3)); [by intros w _ (_ & _ & _ & _ & _ & _ & ? & _)|]. intros Hw3.
  destruct (find_cases n3 (int_byte z d) Hw3 (int_byte_is_byte z d)) as [(j & s & y & Hfc & Hy & Hl & Hat)|[Hfc Hab]]; rewrite Hfc; cbn [snd child_not_found].
  { apply triple_give; [apply lasting_st, HG3|]. intros w _ Hst. split; [done|]. exists n3, j, y. by split. }
  eapply triple_post; [intros res w _; apply chosen_added|].
  eapply triple_bind; [by apply create_leaf_ok|]. intros [leaf|ex]; [|by apply add_stops].
  apply triple_pure. intros (Hf & la & ->).
  eapply triple_bind; [apply st_read; [exact HG3|by intros w [[[? _] _] _]]|]. intros n4. cbn beta zeta.
  apply (triple_know i false (node_wf n4 ∧ type n4 = t)); [by intros w _ (_ & _ & _ & _ & _ & _ & ? & ? & _)|]. intros [Hw4 Ht4].
  destruct (negb (bool_decide (t = I256)) && (get_children_count n4 =? inode_capacity t)) eqn:Hfull.
  - apply andb_prop in Hfull as [H1 H2%Z.eqb_eq]. apply negb_true_iff, bool_decide_eq_false in H1. by apply grow_ok.
  - apply add_leaf_ok; try done. apply andb_false_iff in Hfull as [H1|H2%Z.eqb_neq]; [|done].
    apply negb_false_iff, bool_decide_eq_true in H1. rewrite <- Ht4. apply inode_256_not_full; [done|congruence].
Qed.

(** ** The loop *)

Definition insert_at (s : insert_state) : fact := λ w, ∃ A c r v0,
  (pos_ok c (ins_node s) ∧ c `prefix_of` K ∧ leaf_ok (ins_leaf s) ∧
    ins_parent s = Sec (slot_lock r) (Rcs true v0) ∧ ins_slot s = r ∧ ins_depth s = Z.of_nat (length c) ∧
    ins_key s = shifted (KInt z) (length c)) ∧
  st (Pending o) A [] (kept_leaf (ins_leaf s)) (arrived i r v0 (ins_node s) c) w.

Definition insert_next (r : insert_state + insert_result) : fact := match r with inl s => insert_at s | inr r => tried r end.

Lemma next_gives_up A G cl r : gives_up r → leaf_ok cl → robust i false G → triple (st (Pending o) A [] (kept_leaf cl) G) (give (inr (r, cl))) insert_next.
Proof.
  intros Hr Hcl HG. apply triple_give; [apply lasting_st, HG|]. intros w _ Hst. exists A.
  destruct r as [[b|]|e]; [by destruct Hr|..]; (split; [done|]; revert Hst; by apply st_mono).
Qed.

(** Down to the child. *)
Lemma insert_down A cl c r v0 a t x n1 n2 n3 s j y :
  let d := (length c + prefix_length (get_key_prefix n1))%nat in let b := int_byte z d in
  leaf_ok cl → c `prefix_of` K →
  (prefix_length (get_key_prefix n1) ≤ get_shared_length (get_key_prefix n2) (get_u64 (shifted (KInt z) (length c))))%nat →
  find_child n3 b = (j, Some s) → assoc b (entries n3) = Some y → slot_load n3 s = Some y →
  triple (st (Pending o) A [] (kept_leaf cl) (λ w, reads r v0 a x t c n1 n2 w ∧ read_at i r v0 a x t c n3 w))
    (need read_unlock (Sec (slot_lock r) (Rcs true v0)) else give (inr (Value None, cl));
     child <- do (LoadSlot (ChildSlot a s));
     remaining_key <- of_opt (shift_right (shifted (KInt z) d) 1);
     need checked (Sec (NodeLock a) (Rcs true x)) else give (inr (Value None, cl));
     give (inl (InsertState child (Sec (NodeLock a) (Rcs true x)) (ChildSlot a s) (depth_inc (Z.of_nat d)) remaining_key cl))) insert_next.
Proof.
  intros d b Hcl HcK Hsh Hfc Hy Hl. set (G := λ w, reads r v0 a x t c n1 n2 w ∧ read_at i r v0 a x t c n3 w).
  assert (HG : robust i false G) by (unfold G; robust).
  set (φ := given i [(NodeLock a, x)] (λ w, full_at a t c (full c n3) n3 w ∧ n1 = n2 ∧ n3 = n2)).
  assert (Hφ : robust i false φ).
  { apply robust_given; [apply steady_and; [apply steady_full|apply steady_pure]|apply shaped_and; [apply shaped_full|apply shaped_pure]]. }
  apply (st_need i false _ _ _ _ G (slot_lock r) v0 _ φ None); [by right|done|done|by intros w [Hg _]; eapply reads_seen| |by apply next_gives_up|].
  { intros w Hi (_ & Hlk & _ & _ & _ & [Hg H3]) Hw. split; [|done]. pose proof (reads_seen _ _ _ _ _ _ _ _ _ Hg) as [_ Hs].
    apply given_intro; [done|]. intros Hh. destruct Hg as [[_ H1] H2].
    assert (Hr : holds i (slot_lock r) v0 w) by by left.
    destruct (read_held _ _ _ _ _ _ _ _ _ H3 Hr Hh) as [He Hn]. split; [|split; by eapply read_same].
    apply unlocked_word in Hh; [|done]. destruct (current_pend w _ _ Hi Hs Hh) as [_ Hp].
    split; [done|]. exists c, n3. split_and!; try done. by apply (edge_in_tree w r). }
  cbn [extend]. set (ψ := λ p, given i [(NodeLock a, x)] (edge_at (ChildSlot a s) p (full c n3 ++ [b]))).
  assert (Hψ : ∀ p, robust i false (ψ p)) by (intros p; apply robust_given; [steady|shaped]).
  eapply triple_bind.
  { apply (st_quiet i false _ _ _ _ (λ w, G w ∧ φ w) (LoadSlot (ChildSlot a s)) ψ (λ _, None)); [robust|done..|].
    intros w av _ Hi (_ & _ & _ & _ & _ & [[[[[[Hv _] Hs] _] _] (Hw3 & Ht3 & _)] [_ Hf]]). destruct Hv as (Hp & n' & Hn' & Ht').
    destruct (found_slot n3 n' b j s) as [p Hp']; [done|by apply (i_wf _ Hi a)|congruence|apply int_byte_is_byte|done|].
    exists p. split; [|split; [|done]].
    - cbn [perform]. rewrite Hn'. cbn [mbind option_bind]. by rewrite Hp'.
    - split; [by apply Forall_singleton|]. intros Hh. destruct (Hf Hh) as ((Hpd & q & n & Hq & Hn & Hsame & Hfull & _) & _ & _).
      rewrite Hn in Hn'. injection Hn' as ->. split; [done|]. exists q, t, n', b, j. split_and!; try done.
      + by rewrite Hfull.
      + by rewrite (same_find_child _ _ _ Hsame).
      + rewrite (same_entries _ _ Hsame). rewrite (same_slot_load _ _ _ Hsame) in Hp'. congruence. }
  intros child. cbn beta.
  apply (triple_of_opt _ _ _ _ (shifted (KInt z) (d + 1))); [apply int_shift; lia|apply lasting_st; apply lasting_and; [robust|apply Hψ]; by apply lasting_and; [apply HG|apply Hφ]|].
  set (R := λ w, (pos_ok (full c n3 ++ [b]) child ∧ length (full c n3) = d ∧ full c n3 ++ [b] `prefix_of` K ∧ (d < 8)%nat) ∧ valid_ptr w child).
  assert (HR : robust i false R) by (unfold R; robust).
  assert (HGψ : robust i false (λ w, (G w ∧ φ w) ∧ ψ child w)) by (robust; apply Hψ).
  apply (st_need i false _ _ _ _ (λ w, (G w ∧ φ w) ∧ ψ child w) (NodeLock a) x _ R None);
    [by left|done|done|intros w [_ Hg]; by eapply given_seen| |by apply next_gives_up|].
  { intros w Hi (_ & _ & _ & _ & _ & [[[_ (Hw3 & _)] Hf] He]) Hw. split; [|done].
    destruct (given_one i w _ _ _ Hf Hw) as ((Hpd & q & n & Hq & Hn & Hsame & Hfull & _) & -> & H32).
    pose proof (given_one i w _ _ _ He Hw) as Hed. pose proof (logical_inode _ _ _ Hn Hpd) as Hlog.
    destruct (t_inode _ _ _ _ (i_tree _ Hi) q a t n Hq Hlog) as (Hwn & Hlen & Hch).
    assert (Hchild : tree w.2 !! (full c n3 ++ [b]) = Some child).
    { rewrite <- Hfull, <- Hch. destruct Hed as (_ & q' & t' & m & b' & j' & Hq' & Hm & Heq & _ & Ha). rewrite Hn in Hm. injection Hm as <-.
      rewrite <- Hfull in Heq. pose proof (t_inj _ _ _ _ (i_tree _ Hi) _ _ _ _ Hq Hq' eq_refl) as ->. apply snoc_inj in Heq as [_ ->]. done. }
    rewrite Hfull in Hlen. subst n3. destruct (shared_through z n2 c Hz Hw3 HcK Hsh Hlen) as (_ & HfbK & _).
    split; [|by apply (i_valid _ Hi _ _ Hchild)]. split_and!; [by eapply pos_ok_tree|unfold full, d; by rewrite length_app, length_prefix_bytes|done|].
    unfold full in Hlen. rewrite length_app, length_prefix_bytes in Hlen. done. }
  apply triple_give; [apply lasting_st; apply lasting_and; [apply HGψ|apply HR]|].
  intros w Hi Hst. assert (Hr : R w) by apply Hst. destruct Hr as [(Hpos & Hlen & Hpre & Hd8) _].
  exists A, (full c n3 ++ [b]), (ChildSlot a s), x. cbn [ins_node ins_leaf ins_parent ins_slot ins_depth ins_key]. split; [split_and!; try done|].
  - rewrite length_snoc, Hlen. unfold depth_inc. rewrite (wrap_small 32) by lia. lia.
  - by rewrite length_snoc, Hlen, Nat.add_1_r.
  - revert Hst. apply st_mono. intros [[_ ?] [_ ?]]. done.
Qed.

Lemma insert_turn s : triple (insert_at s) (insert_step (KInt z) v s) insert_next.
Proof.
  destruct s as [node parent slot depth rem cl]. unfold insert_at. apply triple_exists. intros A. apply triple_exists. intros c.
  apply triple_exists. intros r. apply triple_exists. intros v0. cbn [ins_node ins_leaf ins_parent ins_slot ins_depth ins_key].
  apply triple_pure. intros (Hpos & HcK & Hcl & -> & -> & -> & ->). destruct (pos_ok_addr _ _ Hpos) as [a Ha].
  pose proof (robust_arrived i false r v0 node c) as HG.
  unfold insert_step. cbn [ins_node ins_leaf ins_parent ins_key ins_slot ins_depth].
  apply (st_enter_node i false _ _ _ _ _ a); [done|done|by intros w [? _]|by apply next_gives_up|]. intros x.
  assert (Hlift : ∀ P (p : prog insert_result), triple P p tried → triple P (r <- p; give (inr r)) insert_next).
  { intros P p Hp. eapply triple_bind; [exact Hp|]. intros res. apply triple_give; [apply lasting_tried|done]. }
  destruct node as [|b leaf|b t]; [done|..]; injection Ha as ->.
  { by apply Hlift, insert_at_leaf_ok. }
  assert (HGs : robust i false (λ w, arrived i r v0 (PInode a t) c w ∧ seen (NodeLock a) x w)) by robust.
  eapply triple_bind; [by apply st_read|]. intros n1. cbn beta zeta.
  eapply triple_bind; [apply st_read; [robust|by intros w [? _]]|]. intros n2. cbn beta zeta.
  change (λ w, ((arrived i r v0 (PInode a t) c w ∧ seen (NodeLock a) x w) ∧ read_at i r v0 a x t c n1 w) ∧ read_at i r v0 a x t c n2 w)
    with (reads r v0 a x t c n1 n2). pose proof (robust_reads r v0 a x t c n1 n2) as HR.
  destruct (Nat.ltb_spec (get_shared_length (get_key_prefix n2) (get_u64 (shifted (KInt z) (length c)))) (prefix_length (get_key_prefix n1))) as [Hsh|Hsh].
  { by apply Hlift, insert_above_ok. }
  apply (triple_know i false (node_wf n1)); [by intros w _ (_ & _ & _ & _ & _ & [[_ [? _]] _])|]. intros Hw1.
  pose proof (inode_prefix_wf n1 Hw1) as [_ Hl1]. pose proof (prefix_le _ _ HcK) as Hlc. unfold K in Hlc. rewrite int_bytes_length in Hlc.
  set (d := (length c + prefix_length (get_key_prefix n1))%nat).
  assert (Hd : depth_add (Z.of_nat (length c)) (Z.of_nat (prefix_length (get_key_prefix n1))) = Z.of_nat d).
  { unfold depth_add, d. rewrite (wrap_small 32) by lia. lia. }
  rewrite Hd. apply (triple_of_opt _ _ _ _ (shifted (KInt z) d)); [apply int_shift; lia|apply lasting_st, HR|].
  apply (triple_of_opt _ _ _ _ (int_byte z d)); [apply int_index|apply lasting_st, HR|].
  eapply triple_bind; [by apply add_or_choose_ok|]. intros [[[[s|]|]|e] cl']; cbn [chosen added].
  - apply triple_pure. intros ->. apply triple_exists. intros n3. apply triple_exists. intros j. apply triple_exists. intros y.
    apply triple_pure. intros (Hfc & Hy & Hl). by apply (insert_down A cl c r v0 a t x n1 n2 n3 s j y).
  - apply triple_give; [apply lasting_tried|done].
  - apply triple_give; [apply lasting_tried|done].
  - apply triple_give; [apply lasting_tried|done].
Qed.

(** The first leaf. *)
Lemma first_step A la v0 G : fits → lasting i false G →
  (∀ w, st (Pending o) A [(RootLock, v0 + 2, None)] [(la, LeafC L)] G w → edge_at RootSlot PNull [] w) →
  triple (st (Pending o) A [(RootLock, v0 + 2, None)] [(la, LeafC L)] G) (do (StoreSlot RootSlot (PLeaf la L)))
    (λ _, st (Answered (Value (Bool true))) A [(RootLock, v0 + 2, None)] [] (λ _, True)).
Proof.
  intros Hf HG Hin. apply (st_edit i false); [done|intros _; apply lasting_st_true|done|]. intros w av _ Hi Hst.
  assert (Htidy : tidy i w) by (intros y d; eapply st_tidy; [|exact Hst]; by repeat constructor).
  pose proof (Hin w Hst) as He. pose proof Hst as (Hc & Hl & Hk & Hp & Hmi & Hg).
  apply Forall_cons in Hk as [(Ho & Hw & Hpd) _]. apply Forall_cons in Hmi as [Hml _]. cbn [fst snd] in *.
  destruct (change_first i w la L K v (Answered (Value (Bool true)), A)) as [Hnone Hed];
    [done..|by apply new_leaf_holds|apply int_bytes_length|].
  pose proof (ed_word _ _ _ _ Hed) as Hword. eexists tt, _, _. split; [done|]. split; [exact Hed|]. split.
  { right. right. left. exists o, A. rewrite insert_spec, Hnone. done. }
  split_and!; try done.
  - unfold calling. cbn [snd changed gcalls]. apply list_lookup_insert_eq. by eapply lookup_lt_Some.
  - constructor; [|done]. split_and!; cbn [fst snd]; [done|by rewrite Hword|done].
  - intros y. cbn [snd changed private]. rewrite elem_of_nil. split; [|done]. intros [H1 Hy]%lookup_delete_Some.
    apply Hp in Hy. apply list_elem_of_singleton in Hy. by apply H1.
Qed.

Lemma try_insert_ok cl : triple (tried (Value None, cl)) (try_insert (KInt z) v cl) tried.
Proof.
  unfold tried at 1. apply triple_exists. intros A. apply triple_pure. intros Hcl. unfold try_insert.
  apply (st_enter i false); [robust|done|by apply ends_here; [..|robust]|]. intros v0.
  eapply triple_pre; [intros w _; by apply st_mono, proj2|].
  set (φ := λ p : olc_ptr, given i [(RootLock, v0)] (edge_at RootSlot p [])).
  assert (Hφ : ∀ p, robust i false (φ p)).
  { intros p. apply robust_given; [apply (steady_edge i false RootSlot)|apply shaped_edge]. }
  eapply triple_bind.
  { apply (st_quiet i false _ _ _ _ (seen RootLock v0) (LoadSlot RootSlot) φ (λ _, None)); [robust|done|done|].
    intros w av _ Hi (_ & Hl & _ & _ & _ & Hs). exists (root w.1). split_and!; [done| |done].
    apply given_intro; [done|]. intros Hh. apply unlocked_word in Hh; [|done].
    destruct (current_pend w _ _ Hi Hs Hh) as [_ Hp]. by split_and!. }
  intros p. cbn beta. assert (HG : robust i false (λ w, seen RootLock v0 w ∧ φ p w)) by (robust; apply Hφ).
  assert (Hnext : p ≠ PNull → triple (st (Pending o) A [] (kept_leaf cl) (λ w, seen RootLock v0 w ∧ φ p w))
    (need checked (Sec RootLock (Rcs true v0)) else give (Value None, cl);
     ITree.iter (insert_step (KInt z) v) (InsertState p (Sec RootLock (Rcs true v0)) RootSlot 0 (KInt z) cl)) tried).
  { intros Hp. apply (st_need i false _ _ _ _ (λ w, seen RootLock v0 w ∧ φ p w) RootLock v0 _ (λ w, valid_ptr w p ∧ pos_ok [] p) None);
      [by left|done|robust|by intros w [? _]| |by apply ends_here|].
    { intros w Hi (_ & _ & _ & _ & _ & [_ Hg]) Hw. split; [|done]. pose proof (given_one i w _ _ _ Hg Hw) as He.
      pose proof (edge_in_tree w RootSlot p [] Hi He Hp) as Hq. split; [by apply (i_valid _ Hi [])|by eapply pos_ok_tree]. }
    eapply triple_pre; [|apply (triple_iter i false insert_at _ tried); [intros; apply lasting_tried|apply insert_turn]].
    intros w _ Hst. exists A, [], RootSlot, v0. cbn [ins_node ins_leaf ins_parent ins_slot ins_depth ins_key]. split.
    - split_and!; [by destruct Hst as (_ & _ & _ & _ & _ & _ & _ & ?)|apply prefix_nil|done|done|done|done|symmetry; apply int_shift_none].
    - revert Hst. apply st_mono. by intros [[_ ?] [? _]]. }
  destruct p as [|a l|a t].
  { eapply triple_bind; [by apply create_leaf_ok|]. intros [leaf|ex]; [|by apply ends_here].
    apply triple_pure. intros Hcl'. pose proof Hcl' as (Hf & la & ->).
    apply st_take; [done|by intros w [? _]|by apply (ends_here _ _ (Some (PLeaf la L)))|]. intros _.
    apply (triple_know i false (v0 mod 4 = 0)); [by intros w _ (_ & _ & _ & _ & _ & (_ & ? & _) & _)|]. intros Hv0.
    eapply triple_bind; [apply (first_step A la v0 (λ w, seen RootLock v0 w ∧ φ PNull w)); [done|apply HG|]|].
    - intros w Hst. assert (Hh : holds i RootLock v0 w) by (eapply st_holds; [exact Hst|by left]).
      destruct Hst as (_ & _ & _ & _ & _ & _ & [_ Hg]). apply Hg. by apply Forall_singleton.
    - intros []. apply st_leave; [apply lasting_pure|repeat constructor; apply not_elem_of_nil|by apply mod_locked|by constructor|].
      apply triple_give; [apply lasting_st_true|]. intros w _ Hst. by exists A. }
  all: by apply Hnext.
Qed.

(** ** The call *)

(** Its answer, and the state of the call. *)
Definition returned (r : outcome bool) : fact := λ w, ∃ A,
  match r with
  | Value true => st (Answered (Value (Bool true))) A [] [] (λ _, True) w
  | Value false => st (Pending o) A [] [] (λ _, Bool false ∈ A) w
  | Thrown _ => st (Pending o) A [] [] (λ _, True) w
  end.

Lemma insert_internal_ok : triple (st (Pending o) [] [] [] (λ _, True)) (insert_internal (KInt z) v) returned.
Proof.
  assert (Hlast : ∀ r, lasting i false (returned r)).
  { intros r. apply lasting_ex. intros A. destruct r as [[]|]; apply lasting_st, lasting_pure. }
  unfold insert_internal. eapply triple_pre; [|apply (triple_iter i false (λ cl, tried (Value None, cl)) _ returned Hlast)].
  - intros w _ Hst. exists []. by split.
  - intros cl. eapply triple_bind; [apply try_insert_ok|]. intros [[[b|]|e] cl'].
    + eapply triple_bind with (M := λ _, returned (Value b)); [|intros []; apply triple_give; [apply Hlast|done]].
      apply triple_exists. intros A. destruct b; apply triple_pure; intros ->; (apply triple_give; [apply lasting_st, lasting_pure|]);
        intros w _ Hst; by exists A.
    + apply triple_give; [apply lasting_tried|done].
    + apply triple_exists. intros A. apply triple_pure. intros Hcl. eapply triple_bind; [apply free_leaf_ok; [robust|done]|]. intros [].
      apply triple_give; [apply lasting_st_true|]. intros w _ Hst. by exists A.
Qed.
End insert.
