(* ===== verification/OlcRemove.v ===== *)
(** Removal from the index with optimistic lock coupling: each call takes effect at
    one of its steps, or answers what was right at some moment of the call. *)

From ITree Require Import ITree.
From S2P Require Import Prelude Words Threads ArtKey KeyPrefix SortedAssoc Simd InodeBase.
From S2P Require Import Inode4 Heap Leaf InodeSpec Inode Db DbMap DbTrace OptimisticLock OlcState Olc OlcSystem OlcLogic OlcTree OlcSurgery OlcInv OlcFacts OlcSteps OlcEdit OlcChanges OlcRules OlcUse OlcWalk.
#[local] Open Scope prog_scope.

Section remove.
Context `{Target} (i : nat) (key : key_arg) (z : Z).
Context (Hz : 0 ≤ z < 2 ^ 64) (Hkey : art_key_of key = KInt z).

Abbreviation fact := (gworld → Prop).
Abbreviation triple := (triple i false).
Abbreviation st := (st i).
Let o := OpRemove key.
Let K := int_bytes z.

Lemma remove_spec (m : gmap (list Z) (list Z)) :
  spec_op o m = match m !! K with None => (Bool false, m) | Some _ => (Bool true, delete K m) end.
Proof. unfold o. cbn [spec_op]. unfold key_bytes. by rewrite Hkey. Qed.

(** ** Ends of a try *)

Definition tried (r : outcome (option bool)) : fact := λ w, ∃ A,
  match r with
  | Value (Some true) => st (Answered (Value (Bool true))) A [] [] (λ _, True) w
  | Value (Some false) => st (Pending o) A [] [] (λ _, Bool false ∈ A) w
  | _ => st (Pending o) A [] [] (λ _, True) w
  end.

Lemma lasting_try r : lasting i false (tried r).
Proof. apply lasting_ex. intros A. destruct r as [[[]|]|e]; apply lasting_st, lasting_pure. Qed.

Definition choice_result (c : remove_choice) : option (option bool) :=
  match c with Restart => Some None | Absent => Some (Some false) | Removed => Some (Some true) | Descend _ _ _ => None end.

(** What comes of the attempt to take the leaf out of the node. *)
Definition chose (r : outcome remove_choice) : fact :=
  match r with
  | Value c => match choice_result c with Some b => tried (Value b) | None => λ _, False end
  | Thrown e => tried (Thrown e)
  end.

Lemma give_restart A G : robust i false G → triple (st (Pending o) A [] [] G) (give (Value Restart)) chose.
Proof. intros HG. apply triple_give; [apply lasting_st, HG|]. intros w _ Hst. exists A. revert Hst. by apply st_mono. Qed.

Lemma give_removed A G : lasting i false G → triple (st (Answered (Value (Bool true))) A [] [] G) (give (Value Removed)) chose.
Proof. intros HG. apply triple_give; [by apply lasting_st|]. intros w _ Hst. exists A. revert Hst. by apply st_mono. Qed.

(** ** On the way *)

(** The node to go on with, and how much of the key leads to it: what holds of
    its place depends on the version of that place's lock. *)
Definition here r v0 a t c e x : fact := λ w,
  (valid_ptr w (PInode a t) ∧ given i [(slot_lock r, v0)] (λ w, edge_at r (PInode a t) c w ∧ c `prefix_of` K ∧ e = length c) w) ∧
  seen (NodeLock a) x w.

Lemma robust_here r v0 a t c e x : robust i false (here r v0 a t c e x).
Proof. unfold here. robust. Qed.
#[local] Hint Resolve robust_here : olc.

Lemma here_arrived r v0 a t c e x w : here r v0 a t c e x w → arrived i r v0 (PInode a t) c w ∧ seen (NodeLock a) x w.
Proof. intros [[Hv [Hs Hg]] Hx]. split; [|done]. split; [done|]. split; [done|]. intros Hh. by apply Hg. Qed.

Lemma here_seen r v0 a t c e x w : here r v0 a t c e x w → seen (slot_lock r) v0 w ∧ seen (NodeLock a) x w.
Proof. intros [[_ Hg] Hx]. split; [by eapply given_seen|done]. Qed.

(** The node as three reads found it. *)
Definition reads3 r v0 a t c e x n1 n2 n3 : fact := λ w,
  ((here r v0 a t c e x w ∧ read_at i r v0 a x t c n1 w) ∧ read_at i r v0 a x t c n2 w) ∧ read_at i r v0 a x t c n3 w.

Lemma robust_reads3 r v0 a t c e x n1 n2 n3 : robust i false (reads3 r v0 a t c e x n1 n2 n3).
Proof. unfold reads3. robust. Qed.
#[local] Hint Resolve robust_reads3 : olc.

(** What they have in common. *)
Definition agree (c : list Z) (e : nat) (n1 n2 n3 : inode olc_ptr) : Prop := n1 = n2 ∧ n3 = n2 ∧ c `prefix_of` K ∧ e = length c.

Lemma reads3_same r v0 a t c e x n1 n2 n3 w : reads3 r v0 a t c e x n1 n2 n3 w → holds i (slot_lock r) v0 w → holds i (NodeLock a) x w →
  agree c e n1 n2 n3 ∧ node_at r a t c n3 w.
Proof.
  intros [[[[[_ [_ Hg]] _] H1] H2] H3] Hr Ha. assert (Hh : held i [(slot_lock r, v0)] w) by by apply Forall_singleton.
  destruct (Hg Hh) as (_ & ? & ?). split; [split_and!; try done; by eapply read_same|by eapply read_held].
Qed.

(** The position behind the node's prefix, while the node's lock is as it was. *)
Definition behind a t c e n1 n2 n3 : fact := λ w, full_at a t c (full c n3) n3 w ∧ agree c e n1 n2 n3.

Lemma robust_behind a t c e n1 n2 n3 x : robust i false (given i [(NodeLock a, x)] (behind a t c e n1 n2 n3)).
Proof. apply robust_given; [apply steady_and; [apply steady_full|apply steady_pure]|apply shaped_and; [apply shaped_full|apply shaped_pure]]. Qed.
#[local] Hint Resolve robust_behind : olc.

(** Once the parent is checked. *)
Lemma checked_behind r v0 a t c e x n1 n2 n3 w : inv w → locks i [] w → reads3 r v0 a t c e x n1 n2 n3 w → word w (slot_lock r) = Some v0 →
  given i [(NodeLock a, x)] (behind a t c e n1 n2 n3) w.
Proof.
  intros Hi Hl Hr Hw. pose proof Hr as [[[Hh _] _] _]. destruct (here_seen _ _ _ _ _ _ _ _ Hh) as [_ Hs].
  apply given_intro; [done|]. intros Ha. destruct (reads3_same _ _ _ _ _ _ _ _ _ _ _ Hr (or_introl Hw) Ha) as [Hag [He Hn]].
  split; [|done]. apply unlocked_word in Ha; [|done]. destruct (current_pend w _ _ Hi Hs Ha) as [_ Hp].
  split; [done|]. exists c, n3. split_and!; try done. by apply (edge_in_tree w r).
Qed.

(** The tree at the node then. *)
Lemma behind_tree a t c e n1 n2 n3 w : inv w → behind a t c e n1 n2 n3 w →
  ∃ q n, tree w.2 !! q = Some (PInode a t) ∧ inode_at w.1 a = Some n ∧ pend w.2 !! NodeLock a = None ∧ same_node n3 n ∧ full q n = full c n3 ∧
    q `prefix_of` c ∧ node_wf n ∧ (length (full c n3) < 8)%nat ∧ (∀ b, assoc b (entries n3) = tree w.2 !! (full c n3 ++ [b])) ∧
    length (full c n3) = (e + prefix_length (get_key_prefix n1))%nat.
Proof.
  intros Hi ((Hp & q & n & Hq & Hn & Hs & Hf & Hqc) & -> & -> & _ & ->). exists q, n.
  destruct (t_inode _ _ _ _ (i_tree _ Hi) q a t n Hq (logical_inode _ _ _ Hn Hp)) as (Hw & Hl & Hch). rewrite Hf in Hl.
  split_and!; try done.
  - intros b. by rewrite <- Hf, <- Hch, (same_entries _ _ Hs).
  - unfold full. by rewrite length_app, length_prefix_bytes.
Qed.

(** The key does not lead on: not through the prefix, *)
Lemma absent_prefix a t c e n1 n2 w : inv w → behind a t c e n1 n2 n2 w → node_wf n2 →
  (get_shared_length (get_key_prefix n2) (get_u64 (shifted (KInt z) e)) < prefix_length (get_key_prefix n1))%nat →
  gbindings w.2 !! K = None.
Proof.
  intros Hi Hb Hw Hsh. destruct (behind_tree _ _ _ _ _ _ _ _ Hi Hb) as (q & n & Hq & Hn & Hp & Hs & Hf & Hqc & _).
  destruct Hb as (_ & -> & _ & HcK & ->). pose proof (logical_inode _ _ _ Hn Hp) as Hlog.
  apply (walk_inode _ _ _ _ (i_tree _ Hi) K q a t n Hq Hlog); [by etrans|]. rewrite Hf. intros Hfk.
  by destruct (shared_less z (get_key_prefix n2) c Hz (inode_prefix_wf n2 Hw) Hsh).
Qed.

(** or there is no child for its next byte. *)
Lemma absent_child a t c e n1 n2 n3 w : inv w → behind a t c e n1 n2 n3 w →
  assoc (int_byte z (e + prefix_length (get_key_prefix n1))) (entries n3) = None → gbindings w.2 !! K = None.
Proof.
  intros Hi Hb Hab. destruct (behind_tree _ _ _ _ _ _ _ _ Hi Hb) as (q & n & Hq & Hn & Hp & Hs & Hf & Hqc & _ & Hl & _ & Hlen).
  destruct Hb as (_ & -> & -> & HcK & ->). pose proof (logical_inode _ _ _ Hn Hp) as Hlog.
  apply (walk_inode _ _ _ _ (i_tree _ Hi) K q a t n Hq Hlog); [by etrans|]. rewrite Hf, Hlen. intros _ b Hb.
  rewrite Hlen in Hl. unfold K in Hb. rewrite int_byte_lookup in Hb by lia. injection Hb as <-. by rewrite (same_entries _ _ Hs).
Qed.

(** Its next byte leads on. *)
Lemma behind_key a t c e n1 n2 n3 w : inv w → behind a t c e n1 n2 n3 w → node_wf n3 →
  (prefix_length (get_key_prefix n1) ≤ get_shared_length (get_key_prefix n2) (get_u64 (shifted (KInt z) e)))%nat →
  full c n3 ++ [int_byte z (e + prefix_length (get_key_prefix n1))] `prefix_of` K.
Proof.
  intros Hi Hb Hw Hsh. destruct (behind_tree _ _ _ _ _ _ _ _ Hi Hb) as (q & n & _ & _ & _ & _ & _ & _ & _ & Hl & _ & Hlen).
  destruct Hb as (_ & -> & -> & HcK & ->). by apply shared_through.
Qed.

(** Two checks, and the answer that there is nothing to remove. *)
Lemma absent_ok {T} A r v0 a t c e x n1 n2 n3 (none no : T) Q :
  (∀ A G, robust i false G → triple (st (Pending o) A [] [] G) (give none) Q) →
  (∀ A G, robust i false G → Bool false ∈ A → triple (st (Pending o) A [] [] G) (give no) Q) →
  (∀ w, inv w → behind a t c e n1 n2 n3 w → gbindings w.2 !! K = None) →
  triple (st (Pending o) A [] [] (reads3 r v0 a t c e x n1 n2 n3))
    (need read_unlock (Sec (slot_lock r) (Rcs true v0)) else give none;
     need read_unlock (Sec (NodeLock a) (Rcs true x)) else give none;
     give no) Q.
Proof.
  intros Hnone Hno Habs. set (G := reads3 r v0 a t c e x n1 n2 n3). pose proof (robust_reads3 r v0 a t c e x n1 n2 n3) as HG. fold G in HG.
  set (φ := given i [(NodeLock a, x)] (behind a t c e n1 n2 n3)). pose proof (robust_behind a t c e n1 n2 n3 x) as Hφ. fold φ in Hφ.
  apply (st_need i false _ _ _ _ G (slot_lock r) v0 _ φ None); [by right|done|done| | |by apply Hnone|].
  { intros w [[[Hh _] _] _]. by eapply here_seen. }
  { intros w Hi (_ & Hl & _ & _ & _ & Hg) Hw. split; [|done]. by eapply checked_behind. }
  apply (st_need i false _ _ _ _ (λ w, G w ∧ φ w) (NodeLock a) x _ (λ _, True) (Some (Bool false)));
    [by right|robust|robust|intros w [_ Hg]; by eapply given_seen| |apply Hnone; robust|apply Hno; [robust|by left]].
  intros w Hi (_ & _ & _ & _ & _ & [_ Hg]) Hw. split; [done|]. intros b [= <-]. exists o. split; [done|].
  by rewrite remove_spec, (Habs w Hi (given_one i w _ _ _ Hg Hw)).
Qed.

Lemma give_absent A G : robust i false G → Bool false ∈ A → triple (st (Pending o) A [] [] G) (give (Value Absent)) chose.
Proof. intros HG Ha. apply triple_give; [apply lasting_st, HG|]. intros w _ Hst. exists A. revert Hst. by apply st_mono. Qed.

(** ** The child *)

(** The child that was loaded, and where it is in the tree. *)
Definition loaded r v0 a x s child p : fact := λ w,
  given i [(slot_lock r, v0); (NodeLock a, x)] (edge_at (ChildSlot a s) child p) w ∧
  given i [(NodeLock a, x)] (λ w, ∃ p, edge_at (ChildSlot a s) child p w) w.

Lemma robust_loaded r v0 a x s child p : robust i false (loaded r v0 a x s child p).
Proof.
  apply robust_and; apply robust_given.
  - apply (steady_weaken i false [(NodeLock a, x)]); [intros y ->%list_elem_of_singleton; right; by left|]. exact (steady_edge i false (ChildSlot a s) child p x).
  - apply shaped_edge.
  - apply steady_ex. intros q. exact (steady_edge i false (ChildSlot a s) child q x).
  - apply shaped_ex. intros q. apply shaped_edge.
Qed.
#[local] Hint Resolve robust_loaded : olc.

Lemma load_child A r v0 a t c e x n1 n2 n3 b j s y G :
  robust i false G → (∀ w, G w → reads3 r v0 a t c e x n1 n2 n3 w ∧ read_alone i a x t n3 w) → is_byte b →
  find_child n3 b = (j, Some s) → assoc b (entries n3) = Some y → slot_load n3 s = Some y →
  triple (st (Pending o) A [] [] G) (do (LoadSlot (ChildSlot a s)))
    (λ child, st (Pending o) A [] [] (λ w, G w ∧ loaded r v0 a x s child (full c n3 ++ [b]) w)).
Proof.
  intros HG Hin Hb Hfc Hy Hl. apply (st_quiet i false _ _ _ _ G (LoadSlot (ChildSlot a s)) _ (λ _, None)); [done|intros; apply robust_loaded|done|].
  intros w av _ Hi (_ & Hlk & _ & _ & _ & Hg). destruct (Hin w Hg) as [Hr Hal]. pose proof Hr as [[[Hh _] _] (Hw3 & Ht3 & _)].
  pose proof (here_seen _ _ _ _ _ _ _ _ Hh) as [Hs1 Hs2]. destruct Hh as [[(Hp & n' & Hn' & Ht') _] _].
  destruct (found_slot n3 n' b j s) as [child Hc]; [done|by apply (i_wf _ Hi a)|congruence|done..|].
  exists child. split; [|split; [|done]].
  { cbn [perform]. rewrite Hn'. cbn [mbind option_bind]. by rewrite Hc. }
  split.
  - split; [by apply Forall_cons; split; [|apply Forall_singleton]|]. intros [Hh1 [Hh2 _]%Forall_cons]%Forall_cons.
    destruct (reads3_same _ _ _ _ _ _ _ _ _ _ _ Hr Hh1 Hh2) as [_ [He Hn]]. cbn [fst snd] in *. rewrite Hn in Hn'. injection Hn' as <-.
    apply unlocked_word in Hh2; [|done]. destruct (current_pend w _ _ Hi Hs2 Hh2) as [_ Hpd]. split; [done|].
    exists c, t, n3, b, j. split_and!; try done; [by apply (edge_in_tree w r)|congruence].
  - apply given_intro; [done|]. intros Hh2. destruct Hal as [_ Hal].
    destruct Hal as (c' & f' & Hpd & q & n & Hq & Hn & Hs & Hf & _); [by apply Forall_singleton|]. rewrite Hn in Hn'. injection Hn' as ->.
    exists (full q n' ++ [b]). split; [done|]. exists q, t, n', b, j. split_and!; try done.
    + by rewrite (same_find_child _ _ _ Hs).
    + rewrite (same_entries _ _ Hs). rewrite (same_slot_load _ _ _ Hs) in Hc. congruence.
Qed.

(** Once the node is checked the child is a node. *)
Lemma checked_child r v0 a x s child p w : inv w → loaded r v0 a x s child p w → word w (NodeLock a) = Some x → valid_ptr w child.
Proof.
  intros Hi [_ Hg] Hw. destruct (given_one i w _ _ _ Hg Hw) as [q He]. by apply (i_valid _ Hi q), (edge_child_tree w a s).
Qed.

(** ** The leaf goes *)

(** A leaf in the tree whose key is the searched one. *)
Lemma leaf_entry w q a l : inv w → tree w.2 !! q = Some (PLeaf a l) → matches l (KInt z) = true →
  ∃ v, leaf_holds l K v ∧ gbindings w.2 !! K = Some v.
Proof.
  intros Hi Hq Hm. apply matches_key in Hm. destruct (t_leaf _ _ _ _ (i_tree _ Hi) q a l Hq) as (k & v & Hl & _ & _ & Hkv).
  rewrite (leaf_holds_key _ _ _ Hl) in Hm. subst k. by exists v.
Qed.

(** The entry of a child, in the node as it is now. *)
Lemma child_entry w a t c f n3 s p b : inv w → full_at a t c f n3 w → edge_at (ChildSlot a s) p (f ++ [b]) w →
  ∃ q n, tree w.2 !! q = Some (PInode a t) ∧ inode_at w.1 a = Some n ∧ pend w.2 !! NodeLock a = None ∧ same_node n3 n ∧ full q n = f ∧
    node_wf n ∧ assoc b (entries n) = Some p ∧ tree w.2 !! (f ++ [b]) = Some p.
Proof.
  intros Hi (Hp & q & n & Hq & Hn & Hs & Hf & _) He. exists q, n. pose proof (edge_child_tree _ _ _ _ _ Hi He) as Ht.
  destruct (t_inode _ _ _ _ (i_tree _ Hi) q a t n Hq (logical_inode _ _ _ Hn Hp)) as (Hw & _ & Hch).
  split_and!; try done. by rewrite Hch, Hf.
Qed.

Lemma unlink_step A a x t c f n3 s ca l b j : find_child n3 b = (j, Some s) → is_byte b → matches l (KInt z) = true →
  get_children_count n3 ≠ inode_min_size t → type n3 = t →
  let ls := [(NodeLock ca, 1, @None delayed); (NodeLock a, x + 2, None)] in
  triple (st (Pending o) A ls [] (λ w, owned i [NodeLock a] (λ w, full_at a t c f n3 w ∧ edge_at (ChildSlot a s) (PLeaf ca l) (f ++ [b]) w) w ∧ unretired i ca w))
    (do (RemoveChild a j)) (λ p, st (Answered (Value (Bool true))) A ls [] (λ w, p = PLeaf ca l ∧ unretired i ca w ∧ gone i ca w ∧ valid_ptr w (PLeaf ca l))).
Proof.
  intros Hfc Hb Hm Hcnt Ht ls. apply (st_edit i false).
  { apply lasting_and; [|apply lasting_unretired]. apply (lasting_owned i false _ [(NodeLock a, 0)]).
    - apply steady_and; [apply steady_full|]. exact (steady_edge i false (ChildSlot a s) (PLeaf ca l) (f ++ [b]) 0).
    - intros y ->%list_elem_of_singleton. by left. }
  { intros p. apply lasting_st, lasting_and; [apply lasting_pure|]. apply lasting_and; [apply lasting_unretired|]. apply lasting_and; [apply lasting_gone|apply lasting_valid]. }
  { done. }
  intros w av _ Hi Hst. assert (Htidy : tidy i w) by (intros y d; eapply st_tidy; [|exact Hst]; by repeat constructor).
  pose proof Hst as (Hc & Hl & Hk & Hp & Hmi & [[_ [Hfull He]] [Hou Hnr]]).
  apply Forall_cons in Hk as [(Hoc & Hwc & Hpc) [(Hoa & Hwa & Hpa) _]%Forall_cons]. cbn [fst snd] in *.
  destruct (child_entry _ _ _ _ _ _ _ _ _ Hi Hfull He) as (q & n & Hq & Hn & Hpd & Hs & Hf & Hw & Hab & Htr).
  destruct (leaf_entry _ _ _ _ Hi Htr Hm) as (v & Hlv & Hkv).
  rewrite <- (same_find_child _ _ _ Hs) in Hfc.
  destruct (find_cases n b Hw Hb) as [(j' & s' & p' & Hfc' & Hab' & _ & Hat)|[_ Hno]]; [|congruence].
  rewrite Hfc in Hfc'. injection Hfc' as <- <-. rewrite Hab in Hab'. injection Hab' as <-.
  destruct (inode_remove n j b (PLeaf ca l) Hw) as (n' & Hrem & Hw' & He' & Hp' & Ht'); [|done|].
  { unfold is_min_size. rewrite (same_count _ _ Hs), (same_type _ _ Hs), Ht. by apply Z.eqb_neq. }
  pose proof (change_remove i w q a t n n' b ca l K v (Answered (Value (Bool true)), A) Hi Htidy Hq Hn Hpd Hoa Hoc Hwc Hw' Ht' Hp' He' Hab Hlv) as Hed.
  pose proof (ed_word _ _ _ _ Hed) as Hword. eexists (PLeaf ca l), _, _. split.
  { cbn [perform]. unfold on_inode. rewrite Hn. cbn [mbind option_bind]. by rewrite Hrem. }
  split; [exact Hed|]. split.
  { right. right. left. exists o, A. rewrite remove_spec, Hkv. done. }
  split_and!; try done.
  - unfold calling. cbn [snd changed gcalls]. apply list_lookup_insert_eq. by eapply lookup_lt_Some.
  - constructor; [|constructor; [|done]]; split_and!; cbn [fst snd]; rewrite ?Hword; done.
  - split; [done|]. intros (q' & p & Hq' & Hpa'). cbn [snd changed tree] in Hq'. apply lookup_delete_Some in Hq' as [H1 Hq']. apply H1. rewrite Hf.
    by apply (t_inj _ _ _ _ (i_tree _ Hi) _ _ _ _ Htr Hq').
  - apply (ed_valid _ _ _ _ Hed). by apply (i_valid _ Hi _ _ Htr).
Qed.

(** What is known when the leaf to remove is found. *)
Definition at_leaf r v0 a t c e x n1 n2 n3 s ca l y n4 : fact := λ w,
  (reads3 r v0 a t c e x n1 n2 n3 w ∧
    loaded r v0 a x s (PLeaf ca l) (full c n3 ++ [int_byte z (e + prefix_length (get_key_prefix n1))]) w) ∧
  seen (NodeLock ca) y w ∧ read_at i r v0 a x t c n4 w.

Lemma robust_at_leaf r v0 a t c e x n1 n2 n3 s ca l y n4 : robust i false (at_leaf r v0 a t c e x n1 n2 n3 s ca l y n4).
Proof. unfold at_leaf. robust. Qed.
#[local] Hint Resolve robust_at_leaf : olc.

Lemma at_leaf_seen r v0 a t c e x n1 n2 n3 s ca l y n4 w : at_leaf r v0 a t c e x n1 n2 n3 s ca l y n4 w →
  seen (slot_lock r) v0 w ∧ seen (NodeLock a) x w ∧ seen (NodeLock ca) y w.
Proof. intros [[[[[Hh _] _] _] _] [? _]]. apply here_seen in Hh as [??]. by split_and!. Qed.

Lemma at_leaf_same r v0 a t c e x n1 n2 n3 s ca l y n4 w : at_leaf r v0 a t c e x n1 n2 n3 s ca l y n4 w →
  holds i (slot_lock r) v0 w → holds i (NodeLock a) x w →
  agree c e n1 n2 n3 ∧ n4 = n3 ∧ node_at r a t c n3 w ∧
  edge_at (ChildSlot a s) (PLeaf ca l) (full c n3 ++ [int_byte z (e + prefix_length (get_key_prefix n1))]) w.
Proof.
  intros [[Hr [[_ Hl] _]] [_ H4]] Hh1 Hh2. destruct (reads3_same _ _ _ _ _ _ _ _ _ _ _ Hr Hh1 Hh2) as [Hag Hn].
  split_and!; try apply Hag; try apply Hn.
  - destruct Hr as [_ H3]. by eapply read_same.
  - apply Hl. apply Forall_cons. split; [done|]. by apply Forall_singleton.
Qed.

Lemma remove_in_place_ok A r v0 a t c e x n1 n2 n3 s ca l y n4 j :
  let b := int_byte z (e + prefix_length (get_key_prefix n1)) in
  find_child n3 b = (j, Some s) → matches l (KInt z) = true → get_children_count n4 ≠ inode_min_size t → type n3 = t →
  triple (st (Pending o) A [] [] (at_leaf r v0 a t c e x n1 n2 n3 s ca l y n4))
    (remove_in_place a j (Sec (slot_lock r) (Rcs true v0)) (Sec (NodeLock a) (Rcs true x)) (Sec (NodeLock ca) (Rcs true y))) chose.
Proof.
  intros b Hfc Hm Hcnt Ht. set (G := at_leaf r v0 a t c e x n1 n2 n3 s ca l y n4).
  pose proof (robust_at_leaf r v0 a t c e x n1 n2 n3 s ca l y n4) as HG. fold G in HG.
  assert (Hseen : ∀ w, G w → seen (slot_lock r) v0 w ∧ seen (NodeLock a) x w ∧ seen (NodeLock ca) y w) by apply at_leaf_seen.
  set (ψ := λ w, full_at a t c (full c n3) n3 w ∧ edge_at (ChildSlot a s) (PLeaf ca l) (full c n3 ++ [b]) w).
  assert (Hst : ∀ x, steady i false [(NodeLock a, x)] ψ).
  { intros x'. apply steady_and; [apply steady_full|]. exact (steady_edge i false (ChildSlot a s) (PLeaf ca l) (full c n3 ++ [b]) x'). }
  assert (Hsh : shaped ψ) by (apply shaped_and; [apply shaped_full|apply shaped_edge]).
  set (φ := given i [(NodeLock a, x)] (λ w, ψ w ∧ n4 = n3)).
  assert (Hφ : robust i false φ).
  { apply robust_given; [apply steady_and; [done|apply steady_pure]|apply shaped_and; [done|apply shaped_pure]]. }
  unfold remove_in_place. apply (st_need i false _ _ _ _ G (slot_lock r) v0 _ φ None); [by right|done|done|apply Hseen| |by apply give_restart|].
  { intros w Hi (_ & Hlk & _ & _ & _ & Hg) Hw. split; [|done]. pose proof (Hseen w Hg) as (_ & Hs & _). apply given_intro; [done|]. intros Hh.
    destruct (at_leaf_same _ _ _ _ _ _ _ _ _ _ _ _ _ _ _ _ Hg (or_introl Hw) Hh) as (_ & -> & [He Hn] & Hed).
    split; [|done]. split; [|done]. split; [by destruct Hed as (? & _)|]. exists c, n3. split_and!; try done. by apply (edge_in_tree w r). }
  cbn [extend]. apply (triple_know i false (x mod 4 = 0 ∧ y mod 4 = 0)).
  { intros w _ (_ & _ & _ & _ & _ & [Hg _]). by destruct (Hseen w Hg) as (_ & (_ & ? & _) & (_ & ? & _)). }
  intros [Hx4 Hy4].
  apply st_take; [robust|intros w [Hg _]; apply (Hseen w Hg)|apply give_restart; robust|]. intros _.
  apply st_take; [robust|intros w [Hg _]; apply (Hseen w Hg)| |].
  { apply st_leave; [by apply lasting_and; [apply HG|apply Hφ]|repeat constructor; apply not_elem_of_nil|by apply mod_locked|by constructor|].
    apply give_restart. robust. }
  intros Hne. assert (Hca : NodeLock ca ≠ NodeLock a) by (intros Heq; by apply Hne, list_elem_of_singleton).
  set (G' := λ w, owned i [NodeLock a] ψ w ∧ unretired i ca w).
  assert (HG' : lasting i false G').
  { apply lasting_and; [|apply lasting_unretired]. apply (lasting_owned i false _ [(NodeLock a, 0)]); [apply Hst|].
    intros u ->%list_elem_of_singleton. by left. }
  apply (triple_pre _ _ _ (λ w, n4 = n3 ∧ st (Pending o) A [(NodeLock ca, y + 2, None); (NodeLock a, x + 2, None)] [] G' w)).
  { intros w Hi (Hq1 & Hq2 & Hk & Hq3 & Hq4 & [_ [_ Hg]]). pose proof Hk as [Hkc [Hka _]%Forall_cons]%Forall_cons. cbn [fst snd] in *.
    destruct Hg as [Hp ->]; [apply Forall_singleton; right; split; apply Hka|]. split; [done|]. split; [done|]. split; [done|]. split; [done|]. split; [done|].
    split; [done|]. split; [split; [apply Forall_singleton, Hka|done]|]. eapply locked_unretired; [done|exact Hkc|]. intros Heq. apply mod_locked in Hy4. by rewrite Heq in Hy4. }
  apply triple_pure. intros ->. assert (Hnd : NoDup [NodeLock ca; NodeLock a]) by (repeat constructor; [by intros ?%list_elem_of_singleton|apply not_elem_of_nil]).
  eapply triple_bind.
  { apply (st_obsolete i false _ _ ca (y + 2) _ _ G' G'); [done|done|exact Hnd|by apply mod_locked|].
    intros w w' Hi (Hs & Ho & Hr) [H1 [H2 H3]]. split.
    - apply (after_owned i (λ w w', others (NodeLock ca) w w' ∧ owner w'.2 = owner w.2) _ _ Hsh) with w; try done. by intros ? ? [[? _] ?].
    - split; [by rewrite Ho|by rewrite Hr]. }
  intros []. eapply triple_bind; [by apply (unlink_step A a x t c (full c n3) n3 s ca l b j); [|apply int_byte_is_byte|..]|].
  intros p. cbn beta. apply (triple_know i false (p = PLeaf ca l)); [by intros w _ (_ & _ & _ & _ & _ & ? & _)|]. intros ->.
  eapply triple_bind.
  { apply (st_retire_gone i false _ _ (PLeaf ca l) ca _ _ _ (λ _, True)); [|apply lasting_pure|done|by intros w (_ & ?)|by intros w w'|exact Hnd].
    apply lasting_and; [apply lasting_pure|]. apply lasting_and; [apply lasting_unretired|]. apply lasting_and; [apply lasting_gone|apply lasting_valid]. }
  intros []. apply st_leave; [apply lasting_pure|repeat constructor; apply not_elem_of_nil|by apply mod_locked|by constructor|].
  apply give_removed, lasting_pure.
Qed.

(** ** A smaller copy of the node *)

(** The node and the leaf under the locks. *)
Definition node_and_leaf r a t c n s ca l b : fact := λ w,
  node_at r a t c n w ∧ edge_at (ChildSlot a s) (PLeaf ca l) (full c n ++ [b]) w.

Lemma steady_node_and_leaf r a t c n s ca l b v x : steady i false [(slot_lock r, v); (NodeLock a, x)] (node_and_leaf r a t c n s ca l b).
Proof.
  apply steady_and; [apply steady_node|]. apply (steady_weaken i false [(NodeLock a, x)]); [intros y ->%list_elem_of_singleton; right; by left|].
  exact (steady_edge i false (ChildSlot a s) (PLeaf ca l) (full c n ++ [b]) x).
Qed.

Lemma shaped_node_and_leaf r a t c n s ca l b : shaped (node_and_leaf r a t c n s ca l b).
Proof. apply shaped_and; [apply shaped_node|apply shaped_edge]. Qed.

Lemma lasting_node_and_leaf r a t c n s ca l b : lasting i false (owned i [slot_lock r; NodeLock a] (node_and_leaf r a t c n s ca l b)).
Proof.
  apply (lasting_owned i false _ [(slot_lock r, 0); (NodeLock a, 0)]); [apply steady_node_and_leaf|].
  intros y [->|[->|?%elem_of_nil]%elem_of_cons]%elem_of_cons; [by left|right; by left|done].
Qed.

(** What the tree says then. *)
Lemma node_and_leaf_tree w r a t c n s ca l b : inv w → node_and_leaf r a t c n s ca l b w →
  edge_at r (PInode a t) c w ∧ inode_at w.1 a = Some n ∧ pend w.2 !! NodeLock a = None ∧ tree w.2 !! c = Some (PInode a t) ∧
  tree w.2 !! (full c n ++ [b]) = Some (PLeaf ca l) ∧ node_wf n ∧ (length (full c n) < 8)%nat ∧ assoc b (entries n) = Some (PLeaf ca l).
Proof.
  intros Hi [[He Hn] Hc]. pose proof (edge_in_tree _ _ _ _ Hi He ltac:(done)) as Hq. pose proof Hc as (Hp & _).
  pose proof (edge_child_tree _ _ _ _ _ Hi Hc) as Hl.
  destruct (t_inode _ _ _ _ (i_tree _ Hi) c a t n Hq (logical_inode _ _ _ Hn Hp)) as (Hw & Hlen & Hch).
  split_and!; try done. by rewrite Hch.
Qed.

Definition both_retired r a t c n s ca l b : fact := λ w,
  owned i [slot_lock r; NodeLock a] (node_and_leaf r a t c n s ca l b) w ∧ is_retired i ca w ∧ is_retired i a w.

Lemma lasting_both_retired r a t c n s ca l b : lasting i false (both_retired r a t c n s ca l b).
Proof. apply lasting_and; [apply lasting_node_and_leaf|]. apply lasting_and; apply lasting_is_retired. Qed.

Lemma shrink_step A a v0 r t c n s ca l b na n' t' : NoDup [NodeLock ca; NodeLock a; slot_lock r] → matches l (KInt z) = true →
  type n' = t' → node_wf n' → get_key_prefix n' = get_key_prefix n → entries n' = del b (entries n) →
  triple (st (Pending o) A (two_gone ca a r v0) [(na, InodeC n')] (both_retired r a t c n s ca l b)) (do (StoreSlot r (PInode na t')))
    (λ _, st (Answered (Value (Bool true))) A [(slot_lock r, v0 + 2, None)] [] (λ _, True)).
Proof.
  intros Hnd Hm Ht Hw Hpre Hen. apply (st_edit i false); [apply lasting_both_retired|intros _; apply lasting_st_true|done|].
  intros w av _ Hi Hst. assert (Htidy : tidy i w) by (intros y d; eapply st_tidy; [|exact Hst]; by repeat constructor).
  pose proof Hst as (Hc & Hl & Hk & Hp & Hmi & [[_ Hnl] [[_ Hrc] [_ Hra]]]).
  destruct (node_and_leaf_tree _ _ _ _ _ _ _ _ _ _ Hi Hnl) as (He & Hn & Hpd & Hq & Htr & _ & _ & Hab).
  destruct (leaf_entry _ _ _ _ Hi Htr Hm) as (v & Hlv & Hkv).
  apply Forall_cons in Hk as [(Hoc & Hwc & Hpc) [(Hoa & Hwa & Hpa) [(Hor & Hwr & Hpr) _]%Forall_cons]%Forall_cons].
  apply Forall_cons in Hmi as [Hmn _]. cbn [fst snd] in *.
  pose proof (change_shrink i w r a t c n na t' n' ca l b K v (Answered (Value (Bool true)), A) Hi Htidy He Hn Hpd Hor Hoa Hwa Hra Hoc Hwc Hrc Hpc
    Hmn Ht Hw Hpre Hen Hab Hlv) as Hed.
  pose proof (ed_word _ _ _ _ Hed) as Hword. eexists tt, _, _. split; [by eapply perform_store|]. split; [exact Hed|]. split.
  { right. right. left. exists o, A. rewrite remove_spec, Hkv. done. }
  apply NoDup_cons in Hnd as [Hn1 [Hn2 _]%NoDup_cons].
  assert (Hr : slot_lock r ≠ NodeLock ca ∧ slot_lock r ≠ NodeLock a).
  { split; intros Heq; [apply Hn1|apply Hn2]; rewrite <- Heq; [right; by left|by left]. }
  split_and!; try done.
  - unfold calling. cbn [snd changed gcalls]. apply list_lookup_insert_eq. by eapply lookup_lt_Some.
  - intros k. cbn [snd changed owner fmap list_fmap fst]. rewrite list_elem_of_singleton. split.
    + intros [H1 [H2 Ho]%lookup_delete_Some]%lookup_delete_Some. apply Hl in Ho. cbn [fmap list_fmap fst two_gone] in Ho.
      apply elem_of_cons in Ho as [?|[?|Ho%list_elem_of_singleton]%elem_of_cons]; congruence.
    + intros ->. by rewrite !lookup_delete_ne by (apply not_eq_sym, Hr).
  - constructor; [|done]. split_and!; cbn [fst snd changed owner pend]; [|by rewrite Hword|done].
    by rewrite !lookup_delete_ne by (apply not_eq_sym, Hr).
  - intros y. cbn [snd changed private]. rewrite elem_of_nil. split; [|done]. intros [H1 Hy]%lookup_delete_Some.
    apply Hp in Hy. apply list_elem_of_singleton in Hy. by apply H1.
Qed.

(** The leaf and the node are retired while they are still in the tree. *)
Lemma retire_two A a v0 r t c n s ca l b ps : NoDup [NodeLock ca; NodeLock a; slot_lock r] →
  triple (st (Pending o) A (two_gone ca a r v0) ps (tied i r a ca (node_and_leaf r a t c n s ca l b)))
    (retire_leaf (PLeaf ca l);; retire_inode a (type n))
    (λ _, st (Pending o) A (two_gone ca a r v0) ps (both_retired r a t c n s ca l b)).
Proof.
  intros Hnd. set (φ := node_and_leaf r a t c n s ca l b). assert (Hsh : shaped φ) by apply shaped_node_and_leaf.
  pose proof (lasting_node_and_leaf r a t c n s ca l b) as Hlast. fold φ in Hlast.
  apply NoDup_cons in Hnd as Hnd2. destruct Hnd2 as [Hca _].
  assert (Hne : NodeLock ca ≠ NodeLock a) by (intros Heq; apply Hca; rewrite Heq; by left).
  assert (Hnd' : NoDup [NodeLock a; NodeLock ca; slot_lock r]) by (by apply (NoDup_Permutation_proper _ _ (perm_swap (NodeLock ca) (NodeLock a) [slot_lock r]))).
  set (G' := λ w, owned i [slot_lock r; NodeLock a] φ w ∧ is_retired i ca w ∧ unretired i a w).
  assert (HG' : lasting i false G').
  { apply lasting_and; [done|]. apply lasting_and; [apply lasting_is_retired|apply lasting_unretired]. }
  eapply triple_bind.
  { apply (st_retire i false _ _ (PLeaf ca l) ca _ _ _ G'); [apply robust_tied; [intros; apply steady_node_and_leaf|done]|done|done| |by intros w (_ & ? & _)| |exact Hnd].
    { intros w Hi [[_ [_ He]] _]. by eapply edge_valid. }
    intros w w' Hi ((Hs & _ & Hiff) & Ho & Hr) [[H1 H2] [[H3 H4] [H5 H6]]]. split; [split; [by rewrite Ho|by apply (Hsh w)]|].
    split; (split; [by rewrite Ho|]); [rewrite Hr; by left|]. by rewrite Hiff by congruence. }
  intros []. eapply triple_pre; [intros w _; apply (st_perm i _ _ _ [(NodeLock a, 1, None); (NodeLock ca, 1, None); (slot_lock r, v0 + 2, None)]), perm_swap|].
  eapply triple_post; [intros u w _; apply (st_perm i _ _ [(NodeLock a, 1, None); (NodeLock ca, 1, None); (slot_lock r, v0 + 2, None)]), perm_swap|].
  apply (st_retire i false _ _ (PInode a (type n)) a _ _ G'); [done|apply lasting_both_retired|done| |by intros w (_ & _ & ?)| |exact Hnd'].
  { intros w Hi [[_ [[He Hn] _]] _]. by eapply node_at_valid. }
  intros w w' Hi ((Hs & _ & Hiff) & Ho & Hr) [[H1 H2] [[H3 H4] [H5 H6]]]. split; [split; [by rewrite Ho|by apply (Hsh w)]|].
  split; (split; [by rewrite Ho|]); [by rewrite Hiff by congruence|rewrite Hr; by left].
Qed.

Lemma three_held C A a x r v0 ca y ps G w : st C A (three ca y a x r v0) ps G w → holds i (slot_lock r) v0 w ∧ holds i (NodeLock a) x w.
Proof. intros Hst. split; (eapply st_holds; [exact Hst|]); [right; right; by left|right; by left]. Qed.

(** Under the three locks the node is what was read, and has the leaf. *)
Lemma three_node C A r v0 a t c e x n1 n2 n3 s ca l y n4 ps G w : (∀ w, G w → at_leaf r v0 a t c e x n1 n2 n3 s ca l y n4 w) →
  inv w → st C A (three ca y a x r v0) ps G w →
  n4 = n3 ∧ node_and_leaf r a t c n3 s ca l (int_byte z (e + prefix_length (get_key_prefix n1))) w.
Proof.
  intros HG Hi Hst. destruct (three_held _ _ _ _ _ _ _ _ _ _ _ Hst) as [H1 H2]. destruct Hst as (_ & _ & _ & _ & _ & Hg).
  by destruct (at_leaf_same _ _ _ _ _ _ _ _ _ _ _ _ _ _ _ _ (HG w Hg) H1 H2) as (_ & -> & ? & ?).
Qed.

(** A reader of its own node, *)
Lemma read_own C A ls ps G a n : lasting i false G → (∀ w, st C A ls ps G w → inode_at w.1 a = Some n) → robust i false G →
  triple (st C A ls ps G) (do (ReadInode a)) (λ m w, m = n ∧ st C A ls ps G w).
Proof.
  intros HG Hin HR. eapply triple_post; [|apply (st_quiet i false C A ls ps G (ReadInode a) (λ m _, m = n) (λ _, None)); [done|intros; apply robust_pure|done|]].
  - intros m w _ Hst. split; [by destruct Hst as (_ & _ & _ & _ & _ & _ & ?)|]. revert Hst. apply st_mono. tauto.
  - intros w av _ _ Hst. exists n. cbn [perform]. by rewrite (Hin w Hst).
Qed.

Lemma init_from_larger_ok A r v0 a t c x n s ca l y b j raw na n' G :
  NoDup [NodeLock ca; NodeLock a; slot_lock r] → x mod 4 = 0 → y mod 4 = 0 → robust i false G → raw_smaller n = Some raw →
  create_smaller n j = Some (n', PLeaf ca l) →
  (∀ w, inv w → st (Pending o) A (three ca y a x r v0) [(na, InodeC raw)] G w → node_and_leaf r a t c n s ca l b w) →
  triple (st (Pending o) A (three ca y a x r v0) [(na, InodeC raw)] G)
    (init_from_larger na raw a (Sec (NodeLock a) (Rcs true x)) j (Sec (NodeLock ca) (Rcs true y)))
    (λ _, st (Pending o) A (two_gone ca a r v0) [(na, InodeC n')] (both_retired r a t c n s ca l b)).
Proof.
  intros Hnd Hx Hy HG Hraw Hcr Hin. set (φ := node_and_leaf r a t c n s ca l b).
  assert (Ht : robust i false (tied i r a ca φ)) by (apply robust_tied; [intros; apply steady_node_and_leaf|apply shaped_node_and_leaf]).
  unfold init_from_larger. apply (obsolete_two i false _ _ ca y a x r v0 _ G φ); [intros; apply steady_node_and_leaf|apply shaped_node_and_leaf|done..|].
  eapply triple_bind; [apply (read_own _ _ _ _ _ a n); [apply Ht|by intros w (_ & _ & _ & _ & _ & [[_ [[_ Hn] _]] _])|done]|].
  intros m. apply triple_pure. intros ->.
  assert (Hini : init_smaller raw n j = Some (n', PLeaf ca l)) by by rewrite (init_smaller_create n).
  apply (triple_of_opt _ _ _ _ (n', PLeaf ca l)); [done|apply lasting_st, Ht|].
  apply st_make; [done|by intros b' C ?%elem_of_nil|by apply NoDup_nil|exact (eq_sym (init_smaller_type _ _ _ _ _ Hini))|]. by apply retire_two.
Qed.

Lemma remove_and_shrink_ok A r v0 a t c e x n1 n2 n3 s ca l y n4 j :
  let b := int_byte z (e + prefix_length (get_key_prefix n1)) in
  find_child n3 b = (j, Some s) → matches l (KInt z) = true → get_children_count n4 = inode_min_size t → type n3 = t → t ≠ I4 →
  triple (st (Pending o) A [] [] (λ w, at_leaf r v0 a t c e x n1 n2 n3 s ca l y n4 w))
    (remove_and_shrink a t j r (Sec (slot_lock r) (Rcs true v0)) (Sec (NodeLock a) (Rcs true x)) (Sec (NodeLock ca) (Rcs true y))) chose.
Proof.
  intros b Hfc Hm Hcnt Ht Ht4. set (G := at_leaf r v0 a t c e x n1 n2 n3 s ca l y n4).
  pose proof (robust_at_leaf r v0 a t c e x n1 n2 n3 s ca l y n4) as HG. fold G in HG.
  unfold remove_and_shrink. eapply triple_bind; [apply (st_read i false _ _ _ _ G r v0 a x t c); [done|]|].
  { intros w [[[[[Hh _] _] _] _] _]. by apply here_arrived in Hh. }
  intros n5. cbn beta. apply (triple_know i false (type n5 = t)); [by intros w _ (_ & _ & _ & _ & _ & _ & _ & ? & _)|]. intros Ht5.
  destruct (raw_smaller_some n5) as [raw Hraw]; [congruence|].
  set (G5 := λ w, G w ∧ read_at i r v0 a x t c n5 w). assert (HG5 : robust i false G5) by (unfold G5; robust).
  apply (triple_of_opt _ _ _ _ raw); [done|apply lasting_st, HG5|].
  assert (Hend : ∀ e G, robust i false G → triple (st (Pending o) A [] [] G) (give (Thrown e)) chose).
  { intros ex G' HG'. apply triple_give; [apply lasting_st, HG'|]. intros w _ Hst. exists A. revert Hst. by apply st_mono. }
  eapply triple_bind; [by apply make_inode_ok|]. intros [na|ex]; [|by apply Hend].
  assert (Hnl : ∀ b C, (b, C) ∈ ([] : list (addr * contents)) → ∃ l : basic_leaf, C = LeafC l) by (by intros ? ? ?%elem_of_nil).
  assert (Hseen : ∀ w, G5 w → seen (slot_lock r) v0 w ∧ seen (NodeLock a) x w ∧ seen (NodeLock ca) y w) by (intros w [Hg _]; by eapply at_leaf_seen).
  apply take_three; [done|done|..].
  { apply st_discard; [done|done|constructor|by apply give_restart]. }
  { apply st_discard; [robust|done|constructor|apply give_restart; robust]. }
  { apply st_discard; [robust|done|constructor|apply give_restart; robust]. }
  intros Hnd. assert (Hnode : ∀ C ps w, inv w → st C A (three ca y a x r v0) ps G5 w → n4 = n3 ∧ n5 = n3 ∧ node_and_leaf r a t c n3 s ca l b w).
  { intros C ps w Hi Hst. destruct (three_node C A r v0 a t c e x n1 n2 n3 s ca l y n4 ps G5 w (λ w Hg, proj1 Hg) Hi Hst) as [-> Hn].
    split_and!; try done. destruct (three_held _ _ _ _ _ _ _ _ _ _ _ Hst) as [H1 H2]. destruct Hst as (_ & _ & _ & _ & _ & [[[[_ H3] _] _] H5]).
    by eapply read_same. }
  apply (triple_know i false ((v0 mod 4 = 0 ∧ x mod 4 = 0 ∧ y mod 4 = 0) ∧ (n4 = n3 ∧ n5 = n3) ∧ node_wf n3 ∧ child_at n3 j b (PLeaf ca l))).
  { intros w Hi Hst. destruct (Hnode _ _ _ Hi Hst) as (? & ? & Hn). destruct Hst as (_ & _ & _ & _ & _ & Hg).
    destruct (Hseen w Hg) as ((_ & ? & _) & (_ & ? & _) & (_ & ? & _)).
    destruct (node_and_leaf_tree _ _ _ _ _ _ _ _ _ _ Hi Hn) as (_ & _ & _ & _ & _ & Hw & _ & Hab). split_and!; try done.
    destruct (find_cases n3 b Hw (int_byte_is_byte _ _)) as [(j' & s' & p & Hfc' & Hab' & _ & Hat)|[_ Hno]]; [|congruence].
    rewrite Hfc in Hfc'. injection Hfc' as <- <-. congruence. }
  intros ((Hv4 & Hx4 & Hy4) & (-> & ->) & Hw & Hat).
  destruct (inode_shrink n3 j b (PLeaf ca l) Hw) as (n' & Hcr & Hw' & He' & Hp' & Ht'); [congruence| |done|].
  { unfold is_min_size. rewrite Ht. by apply Z.eqb_eq. }
  eapply triple_bind.
  { apply (init_from_larger_ok A r v0 a t c x n3 s ca l y b j raw na n' G5); try done. intros w Hi Hst. by eapply Hnode. }
  intros []. eapply triple_bind; [apply (shrink_step A a v0 r t c n3 s ca l b na n'); try done; congruence|].
  intros []. apply st_leave; [apply lasting_pure|repeat constructor; apply not_elem_of_nil|by apply mod_locked|by constructor|].
  apply triple_count_then; [apply lasting_st_true|].
  apply give_removed, lasting_pure.
Qed.

(** ** The other child takes the place of the node *)

Definition out (p : olc_ptr) (a : addr) : fact := λ w, unretired i a w ∧ gone i a w ∧ valid_ptr w p.

Lemma lasting_out p a : lasting i false (out p a).
Proof. apply lasting_and; [apply lasting_unretired|]. apply lasting_and; [apply lasting_gone|apply lasting_valid]. Qed.

Lemma out_after p a l : NodeLock a ≠ l → after (others l) (out p a) (out p a).
Proof.
  intros Hne w w' Hi (Hs & Ho & Hr) ([H1 H2] & [_ H3] & H4). destruct (Ho (NodeLock a) Hne) as [Ho' _].
  split; [|split]; [split; [by rewrite Ho'|by rewrite Hr]|split; [by rewrite Ho'|by rewrite (sh_in_tree _ _ Hs)]|].
  by apply (sh_valid w w' Hs).
Qed.

Section merge.
Context (A : list answer) (r : slot_ref) (v0 : Z) (a : addr) (c : list Z) (n : inode_4 olc_ptr) (s : nat) (ca : addr) (l : basic_leaf) (b : Z).
Context (x : olc_ptr) (b1 : Z).
Context (Hnd : NoDup [NodeLock ca; NodeLock a; slot_lock r]) (Hm : matches l (KInt z) = true).
Context (Hne : b1 ≠ b) (Hx : assoc b1 (entries (N4 n)) = Some x) (Hxn : x ≠ PNull) (Hb1 : is_byte b1).
Context (Honly : ∀ b', is_Some (assoc b' (entries (N4 n))) → b' = b1 ∨ b' = b).

Let φ := node_and_leaf r a I4 c (N4 n) s ca l b.
Let node_only : list held_lock := [(NodeLock a, 1, None); (slot_lock r, v0 + 2, None)].

Lemma locks_differ : NodeLock ca ≠ NodeLock a ∧ slot_lock r ≠ NodeLock ca ∧ slot_lock r ≠ NodeLock a.
Proof.
  apply NoDup_cons in Hnd as [H1 [H2 _]%NoDup_cons]. split_and!.
  - intros Heq. apply H1. rewrite Heq. by left.
  - intros Heq. apply H1. rewrite Heq. right. by left.
  - intros Heq. apply H2. rewrite Heq. by left.
Qed.

(** A leaf is stored in the place of the node. *)
Lemma merge_leaf_step : is_leaf x = true →
  triple (st (Pending o) A (two_gone ca a r v0) [] (λ w, owned i [slot_lock r; NodeLock a] φ w ∧ is_retired i ca w ∧ unretired i a w))
    (do (StoreSlot r x)) (λ _, st (Answered (Value (Bool true))) A node_only [] (out (PInode a I4) a)).
Proof.
  intros Hleaf. destruct locks_differ as (Hd1 & Hd2 & Hd3). apply (st_edit i false).
  { apply lasting_and; [apply lasting_node_and_leaf|]. apply lasting_and; [apply lasting_is_retired|apply lasting_unretired]. }
  { intros _. apply lasting_st, lasting_out. }
  { done. }
  intros w av _ Hi Hst. assert (Htidy : tidy i w) by (intros y d; eapply st_tidy; [|exact Hst]; by repeat constructor).
  pose proof Hst as (Hc & Hl & Hk & Hp & Hmi & [[_ Hnl] [[_ Hrc] [_ Hnr]]]).
  destruct (node_and_leaf_tree _ _ _ _ _ _ _ _ _ _ Hi Hnl) as (He & Hn & Hpd & Hq & Htr & _ & _ & Hab).
  destruct (leaf_entry _ _ _ _ Hi Htr Hm) as (v & Hlv & Hkv).
  apply Forall_cons in Hk as [(Hoc & Hwc & Hpc) [(Hoa & Hwa & Hpa) [(Hor & Hwr & Hpr) _]%Forall_cons]%Forall_cons]. cbn [fst snd] in *.
  assert (Hy : ∃ y lx, x = PLeaf y lx) by (destruct x; [done|by do 2 eexists|done]). destruct Hy as (y & lx & Hy).
  pose proof (change_merge_leaf i w r a I4 c (N4 n) x b1 b ca l K v Hi He Hn Hpd Hor Hoa Hwa Hoc Hwc Hne Hx Hab Honly Hlv y lx
    (Answered (Value (Bool true)), A) Htidy Hy Hrc Hpc) as Hed.
  pose proof (ed_word _ _ _ _ Hed) as Hword. eexists tt, _, _. split; [by eapply perform_store|]. split; [exact Hed|]. split.
  { right. right. left. exists o, A. rewrite remove_spec, Hkv. done. }
  split; [|split; [|split; [|split; [|split; [|split]]]]]; try done.
  - unfold calling. cbn [snd changed gcalls]. apply list_lookup_insert_eq. by eapply lookup_lt_Some.
  - intros k. cbn [snd changed owner fmap list_fmap fst]. split.
    + intros [H1 Ho]%lookup_delete_Some. apply Hl in Ho. by apply elem_of_cons in Ho as [?|Ho].
    + intros Hk. rewrite lookup_delete_ne; [apply Hl; by right|]. intros <-. apply NoDup_cons in Hnd as [H1 _]. done.
  - constructor; [|constructor; [|done]]; split_and!; cbn [fst snd changed owner pend]; rewrite ?Hword; try done;
      by rewrite lookup_delete_ne by (done || by apply not_eq_sym).
  - split; cbn [snd changed owner]; [by rewrite lookup_delete_ne|by rewrite (ed_retired _ _ _ _ Hed)].
  - split; [|apply (ed_valid _ _ _ _ Hed), (i_valid _ Hi _ _ Hq)]. split; cbn [snd changed owner]; [by rewrite lookup_delete_ne|].
    apply (merged_gone w r a I4 c (N4 n) x b1 b ca l Hi He Hn Hpd Hne Hx Hab a). by left.
Qed.

(** An inner node gets the longer prefix first: that is the moment of the removal. *)
Definition slot_of : nat := match r with ChildSlot _ j => j | RootSlot => 0%nat end.

Definition to_store : fact := λ w, owned i [slot_lock r] (pending r x) w ∧ out (PLeaf ca l) ca w ∧ out (PInode a I4) a w.

Lemma lasting_to_store : lasting i false to_store.
Proof.
  apply lasting_and; [|apply lasting_and; apply lasting_out].
  apply (lasting_owned i false _ [(slot_lock r, 0)]); [apply steady_pending|]. intros y ->%list_elem_of_singleton. by left.
Qed.

(** The place is still a place of the tree. *)
Lemma merged_pending w y ty nc z' u : inv w → φ w → x = PInode y ty → inode_at w.1 y = Some nc → y ≠ a → slot_lock r ≠ NodeLock y → slot_lock r ≠ NodeLock a →
  pending r x (set_inode y (set_key_prefix z' nc) w.1,
    changed i (merged_tree w c (N4 n) x b1 b) (owner w.2) (private w.2) (<[slot_lock r := Stored slot_of x]> (pend w.2)) (delete K (gbindings w.2)) u w.2).
Proof.
  intros Hi Hnl Hy Hnc Hya Hry Hra. split; [done|].
  destruct (node_and_leaf_tree _ _ _ _ _ _ _ _ _ _ Hi Hnl) as (He & Hn & Hpd & Hq & Htr & _ & _ & Hab).
  unfold slot_of. destruct r as [|x0 j]; cbn [snd changed pend slot_lock] in *; [exists 0%nat; by rewrite lookup_insert_eq|].
  split; [by rewrite lookup_insert_eq|]. destruct (edge_child _ _ _ _ _ Hi He) as (q0 & t0 & n0 & b0 & j0 & Hq0 & Hn0 & _ & _ & _ & _ & _ & Hl0 & _).
  assert (Hx0 : inode_at (set_inode y (set_key_prefix z' nc) w.1) x0 = Some n0).
  { apply inode_at_contents. rewrite contents_set_inode, decide_False by (intros ->; by apply Hry). by apply inode_at_contents. }
  destruct (merged_forth w (ChildSlot x0 j) a I4 c (N4 n) x b1 b ca l Hi He Hn Hpd Hx Hab q0 _ Hq0) as [(_ & [=])|[(_ & [=])|[(_ & Hxx & Hmt)|(_ & Hmt)]]].
  - subst x0. by destruct Hra.
  - exists n0, c, t0. rewrite Hxx. by split_and!.
  - exists n0, q0, t0. by split_and!.
Qed.

Lemma merge_inode_step y ty : x = PInode y ty →
  triple (st (Pending o) A (two_gone ca a r v0) [] (tied i r a ca φ)) (do (PrependPrefix y (k_prefix (i4_impl n)) b1))
    (λ _, st (Answered (Value (Bool true))) A [(NodeLock ca, 1, None); (NodeLock a, 1, None); (slot_lock r, v0 + 2, Some (Stored slot_of x))] [] to_store).
Proof.
  intros Hy. destruct locks_differ as (Hd1 & Hd2 & Hd3). apply (st_edit i false).
  { apply robust_tied; [intros; apply steady_node_and_leaf|apply shaped_node_and_leaf]. }
  { intros _. apply lasting_st, lasting_to_store. }
  { done. }
  intros w av _ Hi Hst. assert (Htidy : tidy i w) by (intros u d; eapply st_tidy; [|exact Hst]; by repeat constructor).
  pose proof Hst as (Hc & Hl & Hk & Hp & Hmi & [[_ Hnl] [[_ Hnrc] [_ Hnr]]]).
  destruct (node_and_leaf_tree _ _ _ _ _ _ _ _ _ _ Hi Hnl) as (He & Hn & Hpd & Hq & Htr & Hw & Hlen & Hab).
  destruct (leaf_entry _ _ _ _ Hi Htr Hm) as (v & Hlv & Hkv).
  apply Forall_cons in Hk as [(Hoc & Hwc & Hpc) [(Hoa & Hwa & Hpa) [(Hor & Hwr & Hpr) _]%Forall_cons]%Forall_cons]. cbn [fst snd] in *.
  destruct (merge_positions w r a I4 c (N4 n) x b1 b ca l Hi He Hn Hpd Hx Hab) as (_ & Hty & _).
  pose proof (i_valid _ Hi _ _ Hty) as Hv. rewrite Hy in Hv, Hty. destruct Hv as (Hpy & nc & Hnc & _).
  pose proof (logical_inode _ _ _ Hn Hpd) as Hln. pose proof (i_wf _ Hi y nc Hnc Hpy) as Hwc'.
  pose proof (child_full i w a I4 c (N4 n) b1 y ty nc Hi Htidy Hoa Hq Hln Hty Hnc) as Hcl.
  destruct (merged_prefix c (N4 n) nc b1 Hw Hwc' Hb1 Hcl) as [Hpw Hfull].
  assert (Hya : y ≠ a) by (intros ->; by apply (full_longer c (N4 n) b1), (t_inj _ _ _ _ (i_tree _ Hi) _ _ _ _ Hty Hq)).
  assert (Hry : slot_lock r ≠ NodeLock y).
  { intros Heq. destruct r as [|x0 j]; [done|]. injection Heq as ->.
    destruct (edge_child _ _ _ _ _ Hi He) as (q0 & t0 & n0 & b0 & j0 & Hq0 & _ & Hqq & _).
    pose proof (t_inj _ _ _ _ (i_tree _ Hi) _ _ _ _ Hq0 Hty eq_refl) as ->. apply (f_equal length) in Hqq. rewrite length_snoc in Hqq.
    pose proof (full_le (full c (N4 n) ++ [b1]) n0). rewrite length_snoc in *. pose proof (full_le c (N4 n)). lia. }
  pose proof (change_merge_inode i w r a I4 c (N4 n) x b1 b ca l K v Hi He Hn Hpd Hor Hoa Hwa Hoc Hwc Hne Hx Hab Honly Hlv y ty nc _ slot_of
    (Answered (Value (Bool true)), A) Htidy Hy Hnc Hpw Hfull ltac:(unfold slot_of; by destruct r)) as Hed.
  pose proof (ed_word _ _ _ _ Hed) as Hword. eexists tt, _, _. split.
  { cbn [perform]. unfold on_inode. rewrite Hnc. cbn [mbind option_bind]. done. }
  split; [exact Hed|]. split.
  { right. right. left. exists o, A. rewrite remove_spec, Hkv. done. }
  split; [|split; [|split; [|split; [|split; [|split]]]]]; try done.
  - unfold calling. cbn [snd changed gcalls]. apply list_lookup_insert_eq. by eapply lookup_lt_Some.
  - constructor; [|constructor; [|constructor; [|done]]]; split_and!; cbn [fst snd changed owner pend]; rewrite ?Hword; try done;
      (by rewrite lookup_insert_ne) || apply lookup_insert_eq.
  - split; [by apply Forall_singleton|]. by apply (merged_pending w y ty nc).
  - match type of Hed with edit _ _ _ ?u => set (w' := u) in * end.
    assert (Hret : ∀ y', y' ∉ retired w.1 → owner w.2 !! NodeLock y' = Some i → y' = a ∨ y' = ca → unretired i y' w' ∧ gone i y' w').
    { intros y' Hny Hoy Hyy. split; (split; [done|]); [by rewrite (ed_retired _ _ _ _ Hed)|].
      by apply (merged_gone w r a I4 c (N4 n) x b1 b ca l Hi He Hn Hpd Hne Hx Hab y'). }
    assert (Hval : ∀ q p, tree w.2 !! q = Some p → valid_ptr w' p) by (intros q p Hqp; apply (ed_valid _ _ _ _ Hed), (i_valid _ Hi _ _ Hqp)).
    split; (split; [apply Hret; auto|split; [apply Hret; auto|]]); [by apply (Hval _ _ Htr)|by apply (Hval _ _ Hq)].
Qed.
(** What holds between the departure of the leaf and the store. *)
Definition left_last : fact :=
  if is_leaf x then st (Pending o) A (two_gone ca a r v0) [] (λ w, owned i [slot_lock r; NodeLock a] φ w ∧ is_retired i ca w ∧ unretired i a w)
  else st (Answered (Value (Bool true))) A [(NodeLock a, 1, None); (slot_lock r, v0 + 2, Some (Stored slot_of x))] []
    (λ w, owned i [slot_lock r] (pending r x) w ∧ out (PInode a I4) a w).

Lemma lasting_owned_pending : lasting i false (owned i [slot_lock r] (pending r x)).
Proof.
  apply (lasting_owned i false _ [(slot_lock r, 0)]); [apply steady_pending|]. intros y ->%list_elem_of_singleton. by left.
Qed.

Lemma lasting_left_last : lasting i false left_last.
Proof.
  unfold left_last. destruct (is_leaf x); apply lasting_st.
  - apply lasting_and; [apply lasting_node_and_leaf|]. apply lasting_and; [apply lasting_is_retired|apply lasting_unretired].
  - apply lasting_and; [apply lasting_owned_pending|apply lasting_out].
Qed.

(** The leaf is retired. *)
Lemma retire_left : is_leaf x = true →
  triple (st (Pending o) A (two_gone ca a r v0) [] (tied i r a ca φ)) (retire_leaf (PLeaf ca l)) (λ _, left_last).
Proof.
  intros Hleaf. unfold left_last. rewrite Hleaf. cbn [retire_leaf]. destruct locks_differ as (Hd1 & Hd2 & Hd3).
  assert (Hsh : shaped φ) by apply shaped_node_and_leaf.
  apply (st_retire i false _ _ (PLeaf ca l) ca _ _ (tied i r a ca φ)).
  - apply robust_tied; [intros; apply steady_node_and_leaf|done].
  - apply lasting_and; [apply lasting_node_and_leaf|]. apply lasting_and; [apply lasting_is_retired|apply lasting_unretired].
  - done.
  - intros w Hi [[_ [_ He]] _]. by eapply edge_valid.
  - by intros w (_ & ? & _).
  - intros w w' Hi ((Hs & _ & Hiff) & Ho & Hr) [[H1 H2] [[H3 H4] [H5 H6]]]. split; [split; [by rewrite Ho|by apply (Hsh w)]|].
    split; (split; [by rewrite Ho|]); [rewrite Hr; by left|]. by rewrite Hiff by congruence.
  - exact Hnd.
Qed.

Lemma retire_merged : is_leaf x = false →
  triple (st (Answered (Value (Bool true))) A [(NodeLock ca, 1, None); (NodeLock a, 1, None); (slot_lock r, v0 + 2, Some (Stored slot_of x))] [] to_store)
    (retire_leaf (PLeaf ca l)) (λ _, left_last).
Proof.
  intros Hleaf. unfold left_last. rewrite Hleaf. cbn [retire_leaf]. destruct locks_differ as (Hd1 & Hd2 & Hd3).
  apply (st_retire_gone i false _ _ (PLeaf ca l) ca _ _ to_store).
  - apply lasting_to_store.
  - apply lasting_and; [apply lasting_owned_pending|apply lasting_out].
  - done.
  - intros w (_ & [[? ?] [[? ?] ?]] & _). done.
  - intros w w' Hi Ho ([H1 H2] & _ & H3). split; [|by apply (out_after (PInode a I4) a (NodeLock ca) (not_eq_sym Hd1) w w')].
    destruct Ho as (Hs & Ho & _). split; [|by apply (shaped_pending r x w)].
    apply Forall_singleton. apply Forall_cons in H1 as [H1 _]. by destruct (Ho (slot_lock r) Hd2) as [-> _].
  - exact Hnd.
Qed.

Lemma store_left : triple left_last (do (StoreSlot r x)) (λ _, st (Answered (Value (Bool true))) A node_only [] (out (PInode a I4) a)).
Proof.
  destruct (is_leaf x) eqn:Hleaf; unfold left_last; rewrite Hleaf; [by apply merge_leaf_step|].
  destruct locks_differ as (_ & _ & Hd3). apply (st_edit i false).
  { apply lasting_and; [apply lasting_owned_pending|apply lasting_out]. }
  { intros _. apply lasting_st, lasting_out. }
  { done. }
  intros w av _ Hi Hst. assert (Htidy : tidy i w) by (intros u d; eapply st_tidy; [|exact Hst]; constructor; [done|constructor; [by intros ?|constructor]]).
  pose proof Hst as (Hc & Hl & Hk & Hp & Hmi & [[_ Hpend] ([Hu1 Hu2] & [_ Hg] & Hval)]).
  apply Forall_cons in Hk as [(Hoa & Hwa & Hpa) [(Hor & Hwr & Hpr) _]%Forall_cons]. cbn [fst snd] in *.
  pose proof (change_stored i w r x Hi Htidy Hpend Hor) as Hed. pose proof (ed_word _ _ _ _ Hed) as Hword.
  eexists tt, _, _. split; [by apply perform_pending|]. split; [exact Hed|]. split; [by left|].
  match type of Hed with edit _ _ _ ?u => set (w' := u) in * end.
  split; [done|]. split; [done|]. split; [|split; [done|split; [done|]]].
  - constructor; [|constructor; [|done]]; split_and!; cbn [fst snd]; rewrite ?Hword; try done; unfold w'; cbn [snd pend].
    + by rewrite lookup_delete_ne.
    + apply lookup_delete_eq.
  - split; [split; [done|by rewrite (ed_retired _ _ _ _ Hed)]|split; [by split|by apply (ed_valid _ _ _ _ Hed)]].
Qed.

Lemma finish_merge rcs : v0 mod 4 = 0 → triple (st (Answered (Value (Bool true))) A node_only [] (out (PInode a I4) a))
  (retire_inode a I4;; guard_exit (Sec (slot_lock r) rcs);; account_shrinking_inode I4;; give (Value Removed)) chose.
Proof.
  intros Hv4. apply NoDup_cons in Hnd as Hnd2. destruct Hnd2 as [_ Hnd2]. eapply triple_bind.
  { apply (st_retire_gone i false _ _ (PInode a I4) a _ _ (out (PInode a I4) a) (λ _, True)); [apply lasting_out|apply lasting_pure|done|done|by intros w w'|exact Hnd2]. }
  intros []. apply st_leave; [apply lasting_pure|repeat constructor; apply not_elem_of_nil|by apply mod_locked|by constructor|].
  apply triple_count_then; [apply lasting_st_true|].
  apply give_removed, lasting_pure.
Qed.
End merge.

Lemma leave_last_child_ok A r v0 a c n s ca l b j x b1 :
  NoDup [NodeLock ca; NodeLock a; slot_lock r] → matches l (KInt z) = true → b1 ≠ b → assoc b1 (entries (N4 n)) = Some x → x ≠ PNull → is_byte b1 →
  (∀ b', is_Some (assoc b' (entries (N4 n))) → b' = b1 ∨ b' = b) → i4_children n !! Z.to_nat j = Some (PLeaf ca l) →
  let k := if j =? 0 then 1%nat else 0%nat in i4_children n !! k = Some x → i4_keys n !!! k = b1 →
  triple (st (Pending o) A (two_gone ca a r v0) [] (tied i r a ca (node_and_leaf r a I4 c (N4 n) s ca l b)))
    (leave_last_child a j) (λ p w, p = x ∧ left_last A r v0 a c n s ca l b x w).
Proof.
  intros Hnd Hm Hne Hx Hxn Hb1 Honly Hc k Hk Hkey1. set (φ := node_and_leaf r a I4 c (N4 n) s ca l b).
  assert (Ht : robust i false (tied i r a ca φ)) by (apply robust_tied; [intros; apply steady_node_and_leaf|apply shaped_node_and_leaf]).
  unfold leave_last_child. eapply triple_bind; [apply (read_own _ _ _ _ _ a (N4 n)); [apply Ht|by intros w (_ & _ & _ & _ & _ & [[_ [[_ Hn] _]] _])|done]|].
  intros m. apply triple_pure. intros ->. apply (triple_of_opt _ _ _ _ (PLeaf ca l)); [done|apply lasting_st, Ht|].
  apply (triple_of_opt _ _ _ _ x); [done|apply lasting_st, Ht|]. fold k. rewrite Hkey1.
  assert (Hend : ∀ P, triple P (retire_leaf (PLeaf ca l)) (λ _, left_last A r v0 a c n s ca l b x) →
    triple P (retire_leaf (PLeaf ca l);; give x) (λ p w, p = x ∧ left_last A r v0 a c n s ca l b x w)).
  { intros P HP. eapply triple_bind; [exact HP|]. intros []. by apply triple_give; [apply lasting_left_last|]. }
  destruct x as [|y ly|y ty] eqn:Hxe; [done|..].
  - eapply triple_bind; [apply (triple_give i false _ tt (λ _, st (Pending o) A (two_gone ca a r v0) [] (tied i r a ca φ))); [apply lasting_st, Ht|done]|].
    intros []. by apply Hend, retire_left.
  - eapply triple_bind; [by eapply (merge_inode_step A r v0 a c n s ca l b (PInode y ty) b1)|]. intros []. by apply Hend, retire_merged.
Qed.

Lemma remove_and_leave_last_ok A r v0 a c e x n1 n2 n3 s ca l y n4 j :
  let b := int_byte z (e + prefix_length (get_key_prefix n1)) in
  find_child n3 b = (j, Some s) → matches l (KInt z) = true → get_children_count n4 = inode_min_size I4 → type n3 = I4 →
  triple (st (Pending o) A [] [] (at_leaf r v0 a I4 c e x n1 n2 n3 s ca l y n4))
    (remove_and_leave_last a j r (Sec (slot_lock r) (Rcs true v0)) (Sec (NodeLock a) (Rcs true x)) (Sec (NodeLock ca) (Rcs true y))) chose.
Proof.
  intros b Hfc Hm Hcnt Ht. set (G := at_leaf r v0 a I4 c e x n1 n2 n3 s ca l y n4).
  pose proof (robust_at_leaf r v0 a I4 c e x n1 n2 n3 s ca l y n4) as HG. fold G in HG.
  assert (Hseen : ∀ w, G w → seen (slot_lock r) v0 w ∧ seen (NodeLock a) x w ∧ seen (NodeLock ca) y w) by apply at_leaf_seen.
  apply take_three; [done|done|by apply give_restart|apply give_restart; robust|apply give_restart; robust|]. intros Hnd.
  destruct n3 as [n|n|n|n]; try done. set (φ := node_and_leaf r a I4 c (N4 n) s ca l b).
  assert (Hnode : ∀ w, inv w → st (Pending o) A (three ca y a x r v0) [] G w → n4 = N4 n ∧ φ w).
  { intros w Hi Hst. by eapply (three_node _ _ _ _ _ _ _ _ _ _ _ _ _ _ _ _ _ _ G). }
  apply (triple_know i false ((v0 mod 4 = 0 ∧ x mod 4 = 0 ∧ y mod 4 = 0) ∧ n4 = N4 n ∧ node_wf (N4 n) ∧ assoc b (entries (N4 n)) = Some (PLeaf ca l))).
  { intros w Hi Hst. destruct (Hnode w Hi Hst) as [-> Hn]. destruct Hst as (_ & _ & _ & _ & _ & Hg).
    destruct (Hseen w Hg) as ((_ & ? & _) & (_ & ? & _) & (_ & ? & _)).
    by destruct (node_and_leaf_tree _ _ _ _ _ _ _ _ _ _ Hi Hn) as (_ & _ & _ & _ & _ & Hw & _ & Hab). }
  intros ((Hv4 & Hx4 & Hy4) & -> & Hw & Hab).
  destruct (two_children n j s b ca l) as (Hc & xp & Hxc & Hxn & Hne & Hb1 & Hxe & Honly); [done..|apply int_byte_is_byte|done|done|].
  apply (obsolete_two i false _ _ ca y a x r v0 _ G φ); [intros; apply steady_node_and_leaf|apply shaped_node_and_leaf|done..|by intros w Hi Hst; apply Hnode|].
  eapply triple_bind; [by apply (leave_last_child_ok A r v0 a c n s ca l b j xp (i4_keys n !!! (if j =? 0 then 1%nat else 0%nat)))|].
  intros p. apply triple_pure. intros ->.
  eapply triple_bind; [by eapply (store_left A r v0 a c n s ca l b xp _ Hnd Hm Hne)|].
  intros []. by apply (finish_merge A r v0 a ca).
Qed.
(** ** The three ways to go on from a child *)

(** The node to go on with. *)
Definition reached (a : addr) (x : Z) (e : nat) (r : outcome remove_choice) : fact :=
  match r with
  | Value (Descend s cs child) => λ w, ∃ A c ca t y, (child = PInode ca t ∧ cs = Sec (NodeLock ca) (Rcs true y)) ∧
      st (Pending o) A [] [] (here (ChildSlot a s) x ca t c e y) w
  | r => chose r
  end.

Lemma chose_reached a x e r w : chose r w → reached a x e r w.
Proof. by destruct r as [[]|]. Qed.

(** A child under the node, and the lock of the child. *)
Definition at_child r v0 a t c e x n1 n2 n3 s child p ca y : fact := λ w,
  ((reads3 r v0 a t c e x n1 n2 n3 w ∧ loaded r v0 a x s child p w) ∧ valid_ptr w child) ∧ seen (NodeLock ca) y w.

Lemma robust_at_child r v0 a t c e x n1 n2 n3 s child p ca y : robust i false (at_child r v0 a t c e x n1 n2 n3 s child p ca y).
Proof. unfold at_child. robust. Qed.
#[local] Hint Resolve robust_at_child : olc.

Lemma at_child_seen r v0 a t c e x n1 n2 n3 s child p ca y w : at_child r v0 a t c e x n1 n2 n3 s child p ca y w →
  seen (slot_lock r) v0 w ∧ seen (NodeLock a) x w ∧ seen (NodeLock ca) y w.
Proof. intros [[[[[[Hh _] _] _] _] _] Hs]. apply here_seen in Hh as [??]. by split_and!. Qed.

(** Once the parent is checked, for as long as the node stays as it is. *)
Definition child_behind a t c e n1 n2 n3 s child p : fact := λ w, behind a t c e n1 n2 n3 w ∧ edge_at (ChildSlot a s) child p w.

Lemma robust_child_behind a t c e n1 n2 n3 s child p x : robust i false (given i [(NodeLock a, x)] (child_behind a t c e n1 n2 n3 s child p)).
Proof.
  apply robust_given.
  - apply steady_and; [apply steady_and; [apply steady_full|apply steady_pure]|]. exact (steady_edge i false (ChildSlot a s) child p x).
  - apply shaped_and; [apply shaped_and; [apply shaped_full|apply shaped_pure]|apply shaped_edge].
Qed.
#[local] Hint Resolve robust_child_behind : olc.

Lemma checked_child_behind r v0 a t c e x n1 n2 n3 s child p ca y w : inv w → locks i [] w → at_child r v0 a t c e x n1 n2 n3 s child p ca y w →
  word w (slot_lock r) = Some v0 → given i [(NodeLock a, x)] (child_behind a t c e n1 n2 n3 s child p) w.
Proof.
  intros Hi Hl [[[Hr [[_ He] _]] _] _] Hw. destruct (checked_behind _ _ _ _ _ _ _ _ _ _ _ Hi Hl Hr Hw) as [Hs Hb].
  split; [done|]. intros Hh. split; [by apply Hb|]. apply He. apply Forall_cons. split; [by left|done].
Qed.

(** Down to an inner node. *)
Lemma descend_ok A r v0 a t c e x n1 n2 n3 s ca ct y :
  let d := (e + prefix_length (get_key_prefix n1))%nat in let p := full c n3 ++ [int_byte z d] in
  node_wf n3 → (prefix_length (get_key_prefix n1) ≤ get_shared_length (get_key_prefix n2) (get_u64 (shifted (KInt z) e)))%nat →
  triple (st (Pending o) A [] [] (at_child r v0 a t c e x n1 n2 n3 s (PInode ca ct) p ca y))
    (need read_unlock (Sec (slot_lock r) (Rcs true v0)) else give (Value Restart);
     give (Value (Descend s (Sec (NodeLock ca) (Rcs true y)) (PInode ca ct)))) (reached a x (d + 1)).
Proof.
  intros d p Hw3 Hsh. set (G := at_child r v0 a t c e x n1 n2 n3 s (PInode ca ct) p ca y).
  pose proof (robust_at_child r v0 a t c e x n1 n2 n3 s (PInode ca ct) p ca y) as HG. fold G in HG.
  set (φ := here (ChildSlot a s) x ca ct p (d + 1) y). assert (Hφ : robust i false φ) by apply robust_here.
  apply (st_need i false _ _ _ _ G (slot_lock r) v0 _ φ None); [by right|done|done|intros w Hg; by apply at_child_seen in Hg as [? _]| | |].
  - intros w Hi (_ & Hl & _ & _ & _ & Hg) Hw. split; [|done]. pose proof (at_child_seen _ _ _ _ _ _ _ _ _ _ _ _ _ _ _ _ Hg) as (_ & Hs1 & Hs2).
    destruct (checked_child_behind _ _ _ _ _ _ _ _ _ _ _ _ _ _ _ _ Hi Hl Hg Hw) as [Hs Hb]. destruct Hg as [[_ Hv] _].
    split; [|done]. split; [done|]. split; [done|]. intros Hh. destruct (Hb Hh) as [Hbe He]. split; [done|].
    split; [by apply (behind_key a t c e n1 n2 n3 w)|].
    destruct (behind_tree _ _ _ _ _ _ _ _ Hi Hbe) as (q & n & _ & _ & _ & _ & _ & _ & _ & _ & _ & Hlen).
    unfold p, d. rewrite length_snoc, Hlen. lia.
  - by eapply triple_post; [intros res w _; apply chose_reached|apply give_restart].
  - apply triple_give; [apply lasting_st, lasting_and; [apply HG|apply Hφ]|]. intros w _ Hst. exists A, p, ca, ct, y.
    split; [done|]. revert Hst. apply st_mono. by intros [_ ?].
Qed.

(** Another leaf is where the key leads. *)
Lemma other_leaf_ok A r v0 a t c e x n1 n2 n3 s ca l y :
  let d := (e + prefix_length (get_key_prefix n1))%nat in let p := full c n3 ++ [int_byte z d] in
  node_wf n3 → (prefix_length (get_key_prefix n1) ≤ get_shared_length (get_key_prefix n2) (get_u64 (shifted (KInt z) e)))%nat → matches l (KInt z) = false →
  triple (st (Pending o) A [] [] (at_child r v0 a t c e x n1 n2 n3 s (PLeaf ca l) p ca y))
    (need read_unlock (Sec (slot_lock r) (Rcs true v0)) else give (Value Restart);
     need read_unlock (Sec (NodeLock a) (Rcs true x)) else give (Value Restart);
     need read_unlock (Sec (NodeLock ca) (Rcs true y)) else give (Value Restart);
     give (Value Absent)) chose.
Proof.
  intros d p Hw3 Hsh Hm. set (G := at_child r v0 a t c e x n1 n2 n3 s (PLeaf ca l) p ca y).
  pose proof (robust_at_child r v0 a t c e x n1 n2 n3 s (PLeaf ca l) p ca y) as HG. fold G in HG.
  assert (Hseen : ∀ w, G w → seen (slot_lock r) v0 w ∧ seen (NodeLock a) x w ∧ seen (NodeLock ca) y w) by apply at_child_seen.
  set (φ := given i [(NodeLock a, x)] (child_behind a t c e n1 n2 n3 s (PLeaf ca l) p)).
  assert (Hφ : robust i false φ) by apply robust_child_behind.
  apply (st_need i false _ _ _ _ G (slot_lock r) v0 _ φ None); [by right|done|done|apply Hseen| |by apply give_restart|].
  { intros w Hi (_ & Hl & _ & _ & _ & Hg) Hw. split; [|done]. by eapply checked_child_behind. }
  apply (st_need i false _ _ _ _ (λ w, G w ∧ φ w) (NodeLock a) x _ (λ _, True) (Some (Bool false)));
    [by right|robust|robust|intros w [Hg _]; apply (Hseen w Hg)| |apply give_restart; robust|].
  { intros w Hi (_ & _ & _ & _ & _ & [_ Hg]) Hw. split; [done|]. intros b [= <-]. exists o. split; [done|]. rewrite remove_spec.
    destruct (given_one i w _ _ _ Hg Hw) as [Hbe He]. pose proof (behind_key a t c e n1 n2 n3 w Hi Hbe Hw3 Hsh) as Hp. fold d p in Hp.
    rewrite (walk_leaf _ _ _ _ (i_tree _ Hi) K p ca l (edge_child_tree _ _ _ _ _ Hi He) Hp).
    destruct (decide (leaf_get_key_view l = K)) as [Heq%matches_key|]; [congruence|done]. }
  apply (st_need i false _ _ _ _ (λ w, (G w ∧ φ w) ∧ True) (NodeLock ca) y _ (λ _, True) None);
    [by right|robust|robust|intros w [[Hg _] _]; apply (Hseen w Hg)|done|apply give_restart; robust|apply give_absent; [robust|by left]].
Qed.
(** A matching leaf goes in one of three ways. *)
Lemma matching_leaf_ok A r v0 a t c e x n1 n2 n3 s ca l y j :
  let b := int_byte z (e + prefix_length (get_key_prefix n1)) in
  find_child n3 b = (j, Some s) → matches l (KInt z) = true → type n3 = t →
  triple (st (Pending o) A [] [] (at_child r v0 a t c e x n1 n2 n3 s (PLeaf ca l) (full c n3 ++ [b]) ca y))
    (n <- do (ReadInode a);
     let is_node_min_size := get_children_count n =? inode_min_size t in
     if negb is_node_min_size then
       remove_in_place a j (Sec (slot_lock r) (Rcs true v0)) (Sec (NodeLock a) (Rcs true x)) (Sec (NodeLock ca) (Rcs true y))
     else if bool_decide (t = I4) then
       remove_and_leave_last a j r (Sec (slot_lock r) (Rcs true v0)) (Sec (NodeLock a) (Rcs true x)) (Sec (NodeLock ca) (Rcs true y))
     else
       remove_and_shrink a t j r (Sec (slot_lock r) (Rcs true v0)) (Sec (NodeLock a) (Rcs true x)) (Sec (NodeLock ca) (Rcs true y))) chose.
Proof.
  intros b Hfc Hm Ht. eapply triple_bind; [apply (st_read i false _ _ _ _ _ r v0 a x t c); [apply robust_at_child|]|].
  { intros w [[[[[[Hh _] _] _] _] _] _]. by apply here_arrived in Hh. }
  intros n4. cbn beta zeta.
  eapply triple_pre with (P' := st (Pending o) A [] [] (at_leaf r v0 a t c e x n1 n2 n3 s ca l y n4)).
  { intros w _. apply st_mono. intros [[[Hr _] Hs] H4]. by split. }
  destruct (Z.eqb_spec (get_children_count n4) (inode_min_size t)) as [Hc|Hc]; cbn [negb]; [|by apply remove_in_place_ok].
  case_bool_decide as Ht4; [subst; rewrite Ht4 in *; by apply remove_and_leave_last_ok|by apply remove_and_shrink_ok].
Qed.

Lemma remove_or_choose_ok A r v0 a t c e x n1 n2 :
  let d := (e + prefix_length (get_key_prefix n1))%nat in
  (prefix_length (get_key_prefix n1) ≤ get_shared_length (get_key_prefix n2) (get_u64 (shifted (KInt z) e)))%nat →
  triple (st (Pending o) A [] [] (λ w, (here r v0 a t c e x w ∧ read_at i r v0 a x t c n1 w) ∧ read_at i r v0 a x t c n2 w))
    (remove_or_choose_subtree a t (int_byte z d) (KInt z) (Sec (slot_lock r) (Rcs true v0)) (Sec (NodeLock a) (Rcs true x)) r)
    (reached a x (d + 1)).
Proof.
  intros d Hsh. set (b := int_byte z d). unfold remove_or_choose_subtree.
  set (G2 := λ w, (here r v0 a t c e x w ∧ read_at i r v0 a x t c n1 w) ∧ read_at i r v0 a x t c n2 w).
  assert (HG2 : robust i false G2) by (unfold G2; robust).
  eapply triple_bind.
  { apply (st_read_and i false _ _ _ _ G2 r v0 a x t c (read_alone i a x t)); [done|intros; apply robust_read_alone|..].
    - intros w [[Hh _] _]. by apply here_arrived in Hh.
    - intros w n Hi (_ & Hl & _ & _ & _ & [[Hh _] _]) Hn. apply here_arrived in Hh as [[Hv _] Hs]. by apply alone_now. }
  intros n3. cbn beta. set (G := λ w, reads3 r v0 a t c e x n1 n2 n3 w ∧ read_alone i a x t n3 w).
  apply (triple_pre _ _ _ (st (Pending o) A [] [] G)); [intros w _; apply st_mono; intros [? [? ?]]; by split|].
  assert (HG : robust i false G) by (unfold G; robust).
  apply (triple_know i false (node_wf n3 ∧ type n3 = t)); [by intros w _ (_ & _ & _ & _ & _ & [[_ (? & ? & _)] _])|]. intros [Hw3 Ht3].
  assert (Hlift : ∀ P (p : prog (outcome remove_choice)), triple P p chose → triple P p (reached a x (d + 1))).
  { intros P p. apply triple_post. intros res w _. apply chose_reached. }
  destruct (find_cases n3 b Hw3 (int_byte_is_byte z d)) as [(j & s & p & Hfc & Hab & Hl & _)|[Hfc Hab]]; rewrite Hfc.
  2: { apply Hlift. eapply triple_pre; [intros w _; apply st_mono; by intros [? _]|].
    apply absent_ok; [apply give_restart|apply give_absent|]. intros w Hi Hb. by eapply absent_child. }
  eapply triple_bind; [by apply (load_child A r v0 a t c e x n1 n2 n3 b j s p G); [..|apply int_byte_is_byte| | |]|]. intros child.
  set (R := loaded r v0 a x s child (full c n3 ++ [b])). assert (HR : robust i false R) by apply robust_loaded.
  assert (Hsn : ∀ w, G w → seen (NodeLock a) x w) by (intros w [[[[Hh _] _] _] _]; by apply here_seen in Hh as [_ ?]).
  apply (st_need i false _ _ _ _ (λ w, G w ∧ R w) (NodeLock a) x _ (λ w, valid_ptr w child) None);
    [by left|robust|robust|intros w [Hg _]; by apply Hsn| |apply Hlift, give_restart; robust|].
  { intros w Hi (_ & _ & _ & _ & _ & [_ Hr]) Hw. split; [|done]. by eapply checked_child. }
  cbn [extend]. apply (triple_know i false (child ≠ PNull)); [intros w _ (_ & _ & _ & _ & _ & [_ Hv]); by intros ->|]. intros Hnn.
  assert (Haddr : ∃ ca, ptr_addr child = Some ca) by (destruct child; [done|by eexists..]). destruct Haddr as [ca Hca].
  apply (st_enter_node i false _ _ _ _ child ca); [done|robust|by intros w [_ ?]|apply Hlift, give_restart; robust|].
  intros y. apply (triple_pre _ _ _ (st (Pending o) A [] [] (at_child r v0 a t c e x n1 n2 n3 s child (full c n3 ++ [b]) ca y))).
  { intros w _. apply st_mono. intros [[[[? _] ?] ?] ?]. by split. }
  destruct child as [|ca' l|ca' ct]; [done|..]; injection Hca as ->.
  - destruct (matches l (KInt z)) eqn:Hm; cbn [negb]; apply Hlift; [by apply matching_leaf_ok|by apply other_leaf_ok].
  - by apply descend_ok.
Qed.
(** ** The loop *)

Definition remove_at (s : remove_state) : fact := λ w, ∃ A r v0 a t c e x,
  (rem_node s = PInode a t ∧ rem_parent s = Sec (slot_lock r) (Rcs true v0) ∧ rem_section s = Sec (NodeLock a) (Rcs true x) ∧
    rem_slot s = r ∧ rem_key s = shifted (KInt z) e) ∧
  st (Pending o) A [] [] (here r v0 a t c e x) w.

Definition remove_next (r : remove_state + outcome (option bool)) : fact := match r with inl s => remove_at s | inr r => tried r end.

Lemma give_tried {T} (f : outcome (option bool) → T) (Q : T → fact) A G r : (∀ r w, tried r w → Q (f r) w) → robust i false G →
  match r with Value (Some true) => False | Value (Some false) => Bool false ∈ A | _ => True end →
  triple (st (Pending o) A [] [] G) (give (f r)) Q.
Proof.
  intros HQ HG Hr. apply triple_give; [apply lasting_st, HG|]. intros w _ Hst. apply HQ. exists A.
  destruct r as [[[]|]|ex]; [done|..]; revert Hst; by apply st_mono.
Qed.

Lemma remove_turn s : triple (remove_at s) (remove_step (KInt z) s) remove_next.
Proof.
  destruct s as [node parent sec slot depth rem]. unfold remove_at. cbn [rem_node rem_parent rem_section rem_slot rem_key].
  apply triple_exists. intros A. apply triple_exists. intros r. apply triple_exists. intros v0. apply triple_exists. intros a.
  apply triple_exists. intros t. apply triple_exists. intros c. apply triple_exists. intros e. apply triple_exists. intros x.
  apply triple_pure. intros (-> & -> & -> & -> & ->). unfold remove_step. cbn [rem_node rem_parent rem_section rem_slot rem_key rem_depth].
  assert (Hin : ∀ w, here r v0 a t c e x w → arrived i r v0 (PInode a t) c w ∧ seen (NodeLock a) x w) by (intros w; apply here_arrived).
  eapply triple_bind; [apply st_read; [apply robust_here|exact Hin]|]. intros n1. cbn beta zeta.
  eapply triple_bind; [apply st_read; [robust|by intros w [?%Hin _]]|]. intros n2. cbn beta zeta.
  set (G := λ w, (here r v0 a t c e x w ∧ read_at i r v0 a x t c n1 w) ∧ read_at i r v0 a x t c n2 w).
  assert (HG : robust i false G) by (unfold G; robust).
  assert (Hgive : ∀ A G res, robust i false G → match res with Value (Some true) => False | Value (Some false) => Bool false ∈ A | _ => True end →
    triple (st (Pending o) A [] [] G) (give (inr res)) remove_next).
  { intros A' G' res. by apply (give_tried (@inr remove_state (outcome (option bool)))). }
  apply (triple_know i false (node_wf n1 ∧ node_wf n2)).
  { by intros w _ (_ & _ & _ & _ & _ & [[_ [? _]] [? _]]). }
  intros [Hw1 Hw2].
  destruct (Nat.ltb_spec (get_shared_length (get_key_prefix n2) (get_u64 (shifted (KInt z) e))) (prefix_length (get_key_prefix n1))) as [Hsh|Hsh].
  { eapply triple_pre; [intros w _; apply (st_mono i _ _ _ _ _ (reads3 r v0 a t c e x n1 n2 n2)); intros [? ?]; by split|].
    apply absent_ok; [intros; by apply Hgive|intros; by apply Hgive|]. intros w Hi Hb. by eapply absent_prefix. }
  set (d := (e + prefix_length (get_key_prefix n1))%nat). pose proof (inode_prefix_wf n1 Hw1) as [_ Hl1].
  apply (triple_of_opt _ _ _ _ (shifted (KInt z) d)); [apply int_shift; lia|apply lasting_st, HG|].
  apply (triple_of_opt _ _ _ _ (int_byte z d)); [apply int_index|apply lasting_st, HG|].
  eapply triple_bind; [by apply remove_or_choose_ok|]. intros [[| | |s cs child]|ex]; cbn [reached chose choice_result].
  1-3: by apply triple_give; [apply lasting_try|].
  2: by apply triple_give; [apply lasting_try|].
  do 5 (apply triple_exists; intros ?). apply triple_pure. intros [-> ->].
  assert (HL : ∀ A r v0 a t c e x, lasting i false (st (Pending o) A [] [] (here r v0 a t c e x))) by (intros; apply lasting_st, robust_here).
  apply (triple_of_opt _ _ _ _ (shifted (KInt z) (d + 1))); [apply int_shift; lia|apply HL|].
  apply triple_give; [apply HL|]. intros w _ Hst. do 8 eexists. split; [|exact Hst]. by split_and!.
Qed.

(** ** The leaf at the root *)

Lemma last_step A a v0 l : matches l (KInt z) = true →
  triple (st (Pending o) A [(NodeLock a, 1, None); (RootLock, v0 + 2, None)] [] (λ w, owned i [RootLock; NodeLock a] (edge_at RootSlot (PLeaf a l) []) w ∧ unretired i a w))
    (do (StoreSlot RootSlot PNull)) (λ _, st (Answered (Value (Bool true))) A [(NodeLock a, 1, None); (RootLock, v0 + 2, None)] [] (out (PLeaf a l) a)).
Proof.
  intros Hm. apply (st_edit i false).
  { apply lasting_and; [|apply lasting_unretired]. apply (lasting_owned i false _ [(RootLock, 0)]); [apply (steady_edge i false RootSlot)|].
    intros y ->%list_elem_of_singleton. by left. }
  { intros _. apply lasting_st, lasting_out. }
  { done. }
  intros w av _ Hi Hst. assert (Htidy : tidy i w) by (intros y d; eapply st_tidy; [|exact Hst]; by repeat constructor).
  pose proof Hst as (Hc & Hl & Hk & Hp & Hmi & [[_ He] [_ Hnr]]).
  destruct (leaf_entry w [] a l Hi (edge_in_tree w RootSlot _ _ Hi He ltac:(done)) Hm) as (v & Hlv & Hkv).
  apply Forall_cons in Hk as [(Hoa & Hwa & Hpa) [(Hor & Hwr & Hpr) _]%Forall_cons]. cbn [fst snd] in *.
  pose proof (change_last i w a l K v (Answered (Value (Bool true)), A) Hi Htidy He Hor Hoa Hwa Hlv) as Hed.
  pose proof (ed_word _ _ _ _ Hed) as Hword. eexists tt, _, _. split; [done|]. split; [exact Hed|]. split.
  { right. right. left. exists o, A. rewrite remove_spec, Hkv. done. }
  split; [|split; [done|split; [|split; [done|split; [done|]]]]].
  - unfold calling. cbn [snd changed gcalls]. apply list_lookup_insert_eq. by eapply lookup_lt_Some.
  - constructor; [|constructor; [|done]]; split_and!; cbn [fst snd]; rewrite ?Hword; done.
  - split; [done|]. split; [|by apply (ed_valid _ _ _ _ Hed), (edge_valid w RootSlot _ [])].
    split; [done|]. intros (q & p & Hq & _). cbn [snd changed tree] in Hq. by rewrite lookup_empty in Hq.
Qed.

Lemma remove_root_leaf_ok A a l v0 x : (matches l (KInt z) = false → Bool false ∈ A) →
  triple (st (Pending o) A [] [] (λ w, arrived i RootSlot v0 (PLeaf a l) [] w ∧ seen (NodeLock a) x w))
    (remove_root_leaf (KInt z) (PLeaf a l) l (Sec RootLock (Rcs true v0)) (Sec (NodeLock a) (Rcs true x))) tried.
Proof.
  intros Hno. set (G := λ w, arrived i RootSlot v0 (PLeaf a l) [] w ∧ seen (NodeLock a) x w). assert (HG : robust i false G) by (unfold G; robust).
  assert (Hgive : ∀ A G res, robust i false G → match res with Value (Some true) => False | Value (Some false) => Bool false ∈ A | _ => True end →
    triple (st (Pending o) A [] [] G) (give res) tried) by (intros ? ? res; by apply (give_tried id)).
  assert (Hseen : ∀ w, G w → seen RootLock v0 w ∧ seen (NodeLock a) x w) by (intros w [[_ Hg] Hx]; split; [by eapply given_seen|done]).
  unfold remove_root_leaf. destruct (matches l (KInt z)) eqn:Hm.
  2: { apply (st_need i false _ _ _ _ G (NodeLock a) x _ (λ _, True) None); [by right|done|robust|apply Hseen|done|by apply Hgive|].
    apply Hgive; [robust|by apply Hno]. }
  apply (take_both i false _ _ _ G RootSlot v0 a x); [done|done|by apply Hgive|apply Hgive; [robust|done]|]. intros Hne.
  apply (triple_know i false (x mod 4 = 0 ∧ v0 mod 4 = 0)).
  { intros w _ (_ & _ & _ & _ & _ & Hg). by destruct (Hseen w Hg) as [(_ & ? & _) (_ & ? & _)]. }
  intros [Hx Hv]. set (ψ := λ w, owned i [RootLock; NodeLock a] (edge_at RootSlot (PLeaf a l) []) w ∧ unretired i a w).
  assert (Hψ : lasting i false ψ).
  { apply lasting_and; [|apply lasting_unretired]. apply (lasting_owned i false _ [(RootLock, 0)]); [apply (steady_edge i false RootSlot)|].
    intros y ->%list_elem_of_singleton. by left. }
  apply (triple_pre _ _ _ (st (Pending o) A (both a x None RootSlot v0) [] ψ)).
  { intros w Hi Hst. destruct (both_held _ _ _ _ _ _ _ _ _ _ _ Hst) as [Hh _]. destruct Hst as (H1 & H2 & Hk & H4 & H5 & [[_ Hg] _]).
    pose proof Hk as [Ha [Hr _]%Forall_cons]%Forall_cons. split; [done|]. split; [done|]. split; [done|]. split; [done|]. split; [done|].
    split; [split|].
    - constructor; [apply Hr|]. constructor; [apply Ha|constructor].
    - apply Hg. by apply Forall_singleton.
    - eapply locked_unretired; [done|exact Ha|]. cbn [fst snd]. intros Heq. apply mod_locked in Hx. by rewrite Heq in Hx. }
  eapply triple_bind.
  { apply (st_obsolete i false _ _ a (x + 2) _ _ ψ ψ); [done|done|by apply (both_nodup a x None RootSlot v0)|by apply mod_locked|].
    intros w w' Hi ((Hs & _) & Ho & Hr) [[H1 H2] [H3 H4]]. split; [split; [by rewrite Ho|by apply (shaped_edge RootSlot _ _ w)]|].
    split; [by rewrite Ho|by rewrite Hr]. }
  intros []. eapply triple_bind; [by apply last_step|]. intros []. eapply triple_bind.
  { apply (st_retire_gone i false _ _ (PLeaf a l) a _ _ (out (PLeaf a l) a) (λ _, True)); [apply lasting_out|apply lasting_pure|done|done|by intros w w'|].
    exact (both_nodup a x None RootSlot v0 Hne). }
  intros []. apply st_leave; [apply lasting_pure|repeat constructor; apply not_elem_of_nil|by apply mod_locked|by constructor|].
  apply triple_give; [apply lasting_st_true|]. intros w _ Hst. by exists A.
Qed.
Lemma try_remove_ok : triple (tried (Value None)) (try_remove (KInt z)) tried.
Proof.
  unfold tried at 1. apply triple_exists. intros A. unfold try_remove.
  assert (Hgive : ∀ A G res, robust i false G → match res with Value (Some true) => False | Value (Some false) => Bool false ∈ A | _ => True end →
    triple (st (Pending o) A [] [] G) (give res) tried) by (intros ? ? res; by apply (give_tried id)).
  apply (st_enter i false); [robust|done|apply Hgive; [robust|done]|]. intros v0.
  eapply triple_pre; [intros w _; by apply st_mono, proj2|].
  set (φ := λ p : olc_ptr, given i [(RootLock, v0)] (edge_at RootSlot p [])).
  assert (Hφ : ∀ p, robust i false (φ p)).
  { intros p. apply robust_given; [apply (steady_edge i false RootSlot)|apply shaped_edge]. }
  eapply triple_bind.
  { apply (st_quiet i false _ _ _ _ (seen RootLock v0) (LoadSlot RootSlot) φ (λ _, None)); [robust|done|done|].
    intros w av _ Hi (_ & Hl & _ & _ & _ & Hs). exists (root w.1). split_and!; [done| |done].
    apply given_intro; [done|]. intros Hh. apply unlocked_word in Hh; [|done].
    destruct (current_pend w _ _ Hi Hs Hh) as [_ Hp]. by split_and!. }
  intros p. cbn beta. assert (HG : robust i false (λ w, seen RootLock v0 w ∧ φ p w)) by (robust; apply Hφ).
  set (ans := match p with PNull => Some (Bool false) | PLeaf _ l => if matches l (KInt z) then None else Some (Bool false) | PInode _ _ => None end).
  apply (st_need i false _ _ _ _ (λ w, seen RootLock v0 w ∧ φ p w) RootLock v0 _ (λ w, p ≠ PNull → valid_ptr w p) ans);
    [by left|done|apply robust_imp; robust|by intros w [? _]| |by apply Hgive|].
  { intros w Hi (_ & _ & _ & _ & _ & [_ Hg]) Hw. pose proof (given_one i w _ _ _ Hg Hw) as He. split.
    - intros Hp. by apply (i_valid _ Hi []), (edge_in_tree w RootSlot).
    - intros b Hb. exists o. split; [done|]. assert (gbindings w.2 !! K = None ∧ b = Bool false) as [Hnone ->]; [|by rewrite remove_spec, Hnone].
      unfold ans in Hb. destruct p as [|a l|a t]; [| |done].
      + injection Hb as <-. split; [|done]. destruct He as (Hp & _ & Hr). apply (walk_empty _ _ _ _ (i_tree _ Hi)). unfold logical_root. by rewrite Hp.
      + destruct (matches l (KInt z)) eqn:Hm; [done|]. injection Hb as <-. split; [|done].
        rewrite (walk_leaf _ _ _ _ (i_tree _ Hi) K [] a l (edge_in_tree w RootSlot _ _ Hi He ltac:(done)) (prefix_nil _)).
        destruct (decide (leaf_get_key_view l = K)) as [Heq%matches_key|]; [congruence|done]. }
  assert (HG' : robust i false (λ w, (seen RootLock v0 w ∧ φ p w) ∧ (p ≠ PNull → valid_ptr w p))) by (apply robust_and; [done|apply robust_imp; robust]).
  destruct p as [|a l|a t]; [apply Hgive; [done|by left]|..];
    (apply (st_enter_node i false _ _ _ _ _ a); [done|done|by intros w [_ Hv]; apply Hv|by apply Hgive|]); intros x.
  - eapply triple_pre; [|apply (remove_root_leaf_ok (extend ans A) a l v0 x)].
    + intros w _. apply st_mono. intros [[[_ Hg] Hv] Hx]. split; [|done]. split; [by apply Hv|done].
    + intros Hm. unfold ans. rewrite Hm. by left.
  - eapply triple_pre; [|apply (triple_iter i false remove_at _ tried); [intros; apply lasting_try|apply remove_turn]].
    intros w _ Hst. exists A, RootSlot, v0, a, t, [], 0%nat, x. split; [split_and!; try done; symmetry; apply int_shift_none|].
    revert Hst. apply st_mono. intros [[[_ [Hs Hg]] Hv] Hx]. split; [|done]. split; [by apply Hv|]. split; [done|].
    intros Hh. split_and!; [by apply Hg|apply prefix_nil|done].
Qed.

(** ** The call *)

Definition removed (r : outcome bool) : fact := λ w, ∃ A,
  match r with
  | Value true => st (Answered (Value (Bool true))) A [] [] (λ _, True) w
  | Value false => st (Pending o) A [] [] (λ _, Bool false ∈ A) w
  | Thrown _ => st (Pending o) A [] [] (λ _, True) w
  end.

Lemma remove_internal_ok : triple (st (Pending o) [] [] [] (λ _, True)) (remove_internal (KInt z)) removed.
Proof.
  assert (Hlast : ∀ r, lasting i false (removed r)).
  { intros r. apply lasting_ex. intros A. destruct r as [[]|]; apply lasting_st, lasting_pure. }
  unfold remove_internal. eapply triple_pre; [|apply (triple_iter i false (λ _ : unit, tried (Value None)) _ removed Hlast)].
  - intros w _ Hst. by exists [].
  - intros _. eapply triple_bind; [apply try_remove_ok|]. intros res. apply triple_give; [apply lasting_try|].
    intros w _ [A Hst]. destruct res as [[[]|]|ex]; by exists A.
Qed.
End remove.
