(* ===== verification/OlcSolo.v ===== *)
(** Lookups and scans of the index with optimistic lock coupling that no other
    thread disturbs: they end, and do what those of the single-threaded index do. *)

From Stdlib Require Import Sorted.
From stdpp Require Import sorting.
From ITree Require Import ITree.
From S2P Require Import Prelude Words Threads ArtKey KeyPrefix SortedAssoc Simd InodeBase Inode4 Inode16 Inode48 Inode256 Heap Stats Leaf InodeSpec Inode Tree.
From S2P Require Import Db DbMap DbTrace Iterator IterSpec ScanSpec OptimisticLock OlcState Olc OlcIter OlcSystem OlcTree OlcInv OlcFacts OlcClear OlcWalk OlcGet.
#[local] Open Scope prog_scope.

(** ** Programs that only read *)

Section returns.
Context `{Target}.

(** Alone, the program ends with the result and leaves memory and counters. *)
Definition returns {R} (p : prog R) (s : shared) (r : R) : Prop := ∀ q, ∃ k, ends k p s q r s q.

Lemma returns_give {R} (r : R) s : returns (give r) s r.
Proof. intros q. exists 0%nat. apply ends_give. Qed.

Lemma returns_of_opt {R} (o : option R) r s : o = Some r → returns (of_opt o) s r.
Proof. intros ->. apply returns_give. Qed.

Lemma returns_seq {R T} (p : prog R) (f : R → prog T) s r r' : returns p s r → returns (f r) s r' → returns (ITree.bind p f) s r'.
Proof.
  intros Hp Hf q. destruct (Hp q) as [k1 H1]. destruct (Hf q) as [k2 H2]. exists (k1 + k2)%nat. by eapply ends_bind.
Qed.

Lemma returns_do {X} (e : access X) s x : perform true e s = Some (x, s) → (∀ q, counted e q = q) → returns (do e) s x.
Proof. intros He Hc q. exists 1%nat. rewrite <- (Hc q) at 2. by apply ends_do. Qed.

Lemma returns_more {A R} (body : A → prog (A + R)) a a1 r s :
  returns (body a) s (inl a1) → returns (ITree.iter body a1) s r → returns (ITree.iter body a) s r.
Proof.
  intros Hb Hi q. destruct (Hb q) as [k1 H1]. destruct (Hi q) as [k2 H2]. exists (k1 + S k2)%nat. by eapply ends_iter_more.
Qed.

Lemma returns_done {A R} (body : A → prog (A + R)) a r s : returns (body a) s (inr r) → returns (ITree.iter body a) s r.
Proof. intros Hb q. destruct (Hb q) as [k Hk]. exists k. by apply ends_iter_done. Qed.

Lemma returns_alone {R} (p : prog R) s r q : returns p s r → ∃ fuel, alone fuel p s q = Some (r, s, q).
Proof. intros Hp. destruct (Hp q) as [k Hk]. exists (S k). eapply ends_alone; [exact Hk|lia]. Qed.

(** ** Locks that nobody has *)

(** The lock is free, with the version of a section. *)
Definition free_at (s : shared) (c : section) : Prop :=
  ∃ x, sec_rcs c = Rcs true x ∧ lock_word s (sec_lock c) = Some x ∧ is_free x = true.

Lemma on_lock_same {A} l (f : Z → A * Z) s x a : lock_word s l = Some x → f x = (a, x) → on_lock l f s = Some (a, s).
Proof.
  intros Hl Hf. unfold on_lock. rewrite Hl. cbn [mbind option_bind]. rewrite Hf. do 2 f_equal. destruct l as [|b]; cbn in *.
  - injection Hl as <-. by destruct s.
  - destruct s as [w r ns na rd]. cbn in *. f_equal. rewrite alter_id; [done|]. intros o Ho. rewrite Ho in Hl. injection Hl as <-. by destruct o.
Qed.

Lemma returns_read_lock s c : free_at s c → returns (read_lock (sec_lock c)) s c.
Proof.
  intros (x & Hc & Hl & Hf). apply returns_done. eapply returns_seq.
  - apply (returns_do _ _ (Some (Rcs true x))); [|done]. eapply on_lock_same; [exact Hl|]. unfold try_read_lock. by rewrite Hf.
  - destruct c as [l rcs]. cbn in *. subst. apply returns_give.
Qed.

Lemma free_goes_on s c : free_at s c → sec_restart c = false.
Proof. intros (x & Hc & _). unfold sec_restart. by rewrite Hc. Qed.

Lemma returns_need {R} (m : prog bool) (p rest : prog R) s r : returns m s true → returns p s r →
  returns (ITree.bind m (λ ok : bool, if ok then p else rest)) s r.
Proof. intros Hm Hp. by eapply returns_seq. Qed.

Lemma returns_checked s c : free_at s c → returns (checked c) s true.
Proof.
  intros (x & Hc & Hl & _). apply returns_do; [|done]. eapply on_lock_same; [exact Hl|]. rewrite Hc. cbn.
  unfold check, lock_check, version_eqb. cbn. by rewrite Z.eqb_refl.
Qed.

Lemma returns_unlock s c : free_at s c → returns (read_unlock c) s true.
Proof.
  intros (x & Hc & Hl & _). apply returns_do; [|done]. eapply on_lock_same; [exact Hl|]. rewrite Hc. cbn.
  unfold try_read_unlock, lock_try_read_unlock, lock_check, version_eqb. cbn. by rewrite Z.eqb_refl.
Qed.

Lemma returns_read_inode s a n : inode_at s a = Some n → returns (do (ReadInode a)) s n.
Proof. intros Hn. apply returns_do; [|done]. cbn [perform]. by rewrite Hn. Qed.

Lemma returns_load s a n i p : inode_at s a = Some n → slot_load n i = Some p → returns (do (LoadSlot (ChildSlot a i))) s p.
Proof. intros Hn Hp. apply returns_do; [|done]. cbn [perform]. rewrite Hn. cbn [mbind option_bind]. by rewrite Hp. Qed.

Lemma returns_root s : returns (do (LoadSlot RootSlot)) s (root s).
Proof. by apply returns_do. Qed.

Lemma returns_load_child s a n j p : inode_at s a = Some n → Inode.get_child n j = Some p → returns (load_child a j) s p.
Proof. intros Hn Hp. eapply returns_seq; [by apply returns_read_inode|]. by apply returns_of_opt. Qed.

Lemma returns_child s a (n : inode olc_ptr) b j p : inode_at s a = Some n → node_wf n → child_at n j b p → returns (load_child a j) s p.
Proof. intros Hn Hw Hat. eapply returns_load_child; [done|]. exact (get_child_at n j b p Hw Hat). Qed.
End returns.

(** ** The entries below a node *)

Section scans.
Context `{Target} (s : shared) (fwd : bool).
Implicit Types (n : inode olc_ptr) (it : OlcIter.iterator).

(** In the order of the scan; no node is locked. *)
Inductive below : olc_ptr → list kv → Prop :=
  | below_leaf a l k v x : free_at s (Sec (NodeLock a) (Rcs true x)) → leaf_holds l k v → below (PLeaf a l) [(k, v)]
  | below_inode a t n x kvs : free_at s (Sec (NodeLock a) (Rcs true x)) → inode_at s a = Some n → node_wf n →
      all_below (in_order fwd (entries n)) kvs → below (PInode a t) kvs
with all_below : list (Z * olc_ptr) → list kv → Prop :=
  | all_below_nil : all_below [] []
  | all_below_cons b p es kvs1 kvs2 : below p kvs1 → all_below es kvs2 → all_below ((b, p) :: es) (kvs1 ++ kvs2).

Scheme below_mind := Minimality for below Sort Prop with all_below_mind := Minimality for all_below Sort Prop.

Definition outermost : inode olc_ptr → option iter_pos := if fwd then Inode.begin else Inode.last.
Definition sibling : inode olc_ptr → Z → option iter_pos := if fwd then Inode.next else Inode.prior.

Lemma outermost_entry n b c es : node_wf n → in_order fwd (entries n) = (b, c) :: es →
  ∃ j, outermost n = Some (b, j) ∧ child_at n j b c.
Proof.
  intros Hw He. unfold outermost. destruct fwd; cbn [in_order] in He.
  - pose proof (begin_spec n Hw : pos_of n (head (entries n)) (Inode.begin n)) as Hp. by rewrite He in Hp.
  - pose proof (last_spec n Hw : pos_of n (list.last (entries n)) (Inode.last n)) as Hp. by rewrite <- head_reverse, He in Hp.
Qed.

Lemma sibling_entry n j b c es1 es2 : node_wf n → in_order fwd (entries n) = es1 ++ (b, c) :: es2 → child_at n j b c →
  pos_of n (head es2) (sibling n j).
Proof.
  intros Hw He Hat. pose proof (wf_sorted n Hw) as Hs. unfold sibling. destruct fwd; cbn [in_order] in He.
  - pose proof (next_spec n j b c Hw Hat : pos_of n _ (Inode.next n j)) as Hp. rewrite He in Hp, Hs. by rewrite filter_above in Hp.
  - assert (He' : entries n = reverse es2 ++ (b, c) :: reverse es1).
    { rewrite <- (reverse_involutive (entries n)), He, reverse_app, reverse_cons, <- app_assoc. done. }
    pose proof (prior_spec n j b c Hw Hat : pos_of n _ (Inode.prior n j)) as Hp. rewrite He' in Hp, Hs.
    rewrite filter_below in Hp by done. by rewrite last_reverse in Hp.
Qed.

(** ** Where an iterator stands *)

(** The path leads past these nodes, and those entries are still to come. *)
Inductive path : list OlcIter.stack_entry → list kv → Prop :=
  | path_nil : path [] []
  | path_cons a t n x b j c w es1 es2 kvs stk todo :
      free_at s (Sec (NodeLock a) (Rcs true x)) → inode_at s a = Some n → node_wf n → child_at n j b c →
      in_order fwd (entries n) = es1 ++ (b, c) :: es2 → all_below es2 kvs → path stk todo →
      path (StackEntry (PInode a t) b j w x :: stk) (kvs ++ todo).

Definition stands it (todo : list kv) : Prop :=
  match todo with
  | [] => OlcIter.stack_ it = []
  | e :: todo => ∃ a l x stk, OlcIter.stack_ it = StackEntry (PLeaf a l) 0xFF 0xFF 0 x :: stk ∧
      free_at s (Sec (NodeLock a) (Rcs true x)) ∧ leaf_holds l e.1 e.2 ∧ path stk todo
  end.

Lemma returns_lock_of {R} p a (f : lock_ref → prog R) r : ptr_addr p = Some a → returns (f (NodeLock a)) s r →
  returns (ITree.bind (node_ptr_lock p) f) s r.
Proof. intros Ha Hf. eapply returns_seq; [|exact Hf]. apply returns_of_opt. by rewrite Ha. Qed.

Lemma returns_enter {R} c l (f : Olc.section → prog R) r : l = sec_lock c → free_at s c → returns (f c) s r → returns (ITree.bind (read_lock l) f) s r.
Proof. intros -> Hc Hf. eapply returns_seq; [by apply returns_read_lock|done]. Qed.

(** Down to the nearest leaf. *)
Lemma traversal_returns p kvs : below p kvs → ∀ it parent stk todo, OlcIter.stack_ it = stk → free_at s parent → path stk todo →
  ∃ it', returns (ITree.iter (traversal_step outermost) (it, p, parent)) s (true, it') ∧ stands it' (kvs ++ todo).
Proof.
  revert p kvs. apply (below_mind (λ p kvs, ∀ it parent stk todo, OlcIter.stack_ it = stk → free_at s parent → path stk todo →
    ∃ it', returns (ITree.iter (traversal_step outermost) (it, p, parent)) s (true, it') ∧ stands it' (kvs ++ todo))
    (λ es kvs, match es with [] => True | (b, p) :: es' => ∃ kvs1 kvs2, kvs = kvs1 ++ kvs2 ∧ all_below es' kvs2 ∧
       ∀ it parent stk todo, OlcIter.stack_ it = stk → free_at s parent → path stk todo →
       ∃ it', returns (ITree.iter (traversal_step outermost) (it, p, parent)) s (true, it') ∧ stands it' (kvs1 ++ todo) end)).
  - intros a l k v x Hfree Hl it parent stk todo Hit Hpar Hpath. eexists. split.
    + apply returns_done. unfold traversal_step. eapply returns_lock_of; [done|].
      eapply (returns_enter (Sec (NodeLock a) (Rcs true x))); [done|done|]. rewrite (free_goes_on s _ Hfree).
      apply returns_need; [by apply returns_unlock|]. eapply returns_seq; [by apply returns_unlock|]. apply returns_give.
    + exists a, l, x, stk. split; [cbn; by rewrite Hit|]. by split_and!.
  - intros a t n x kvs Hfree Hn Hw Hall IH it parent stk todo Hit Hpar Hpath.
    destruct (in_order fwd (entries n)) as [|[b c] es] eqn:He.
    { exfalso. apply (inode_nonempty n Hw). unfold in_order in He. destruct fwd; [done|]. by apply (f_equal reverse) in He; rewrite reverse_involutive in He. }
    destruct IH as (kvs1 & kvs2 & -> & Hes & IH). destruct (outermost_entry n b c es Hw He) as (j & Hout & Hat).
    destruct (IH (try_push (PInode a t) n (b, j) (Sec (NodeLock a) (Rcs true x)) it) (Sec (NodeLock a) (Rcs true x)) _ (kvs2 ++ todo) eq_refl Hfree) as (it' & Hret & Hst).
    { cbn. rewrite Hit. by eapply (path_cons a t n x b j c _ [] es). }
    exists it'. split; [|by rewrite <- app_assoc]. eapply returns_more; [|exact Hret]. unfold traversal_step. eapply returns_lock_of; [done|].
    eapply (returns_enter (Sec (NodeLock a) (Rcs true x))); [done|done|]. rewrite (free_goes_on s _ Hfree).
    apply returns_need; [by apply returns_unlock|]. eapply returns_seq; [by apply returns_read_inode|].
    eapply returns_seq; [by apply returns_of_opt|]. apply returns_need; [by apply returns_checked|]. cbv zeta.
    eapply returns_seq; [by eapply returns_child|]. apply returns_need; [by apply returns_checked|]. apply returns_give.
  - done.
  - intros b p es kvs1 kvs2 _ IH Hes _. by exists kvs1, kvs2.
Qed.

Lemma descend_returns p kvs it parent todo : below p kvs → free_at s parent → path (OlcIter.stack_ it) todo →
  ∃ it', returns (try_traversal outermost p parent it) s (true, it') ∧ stands it' (kvs ++ todo).
Proof.
  intros Hp Hpar Hpath. destruct (traversal_returns p kvs Hp it parent _ todo eq_refl Hpar Hpath) as (it' & Hret & Hst).
  exists it'. split; [|done]. apply returns_need; [by apply returns_checked|done].
Qed.

(** ** The next entry *)

Definition try_step : OlcIter.iterator → prog (bool * OlcIter.iterator) := ITree.iter (step_over sibling (try_traversal outermost)).

Lemma climb_returns stk todo : path stk todo → ∀ it, OlcIter.stack_ it = stk → ∃ it', returns (try_step it) s (true, it') ∧ stands it' todo.
Proof.
  induction 1 as [|a t n x b j c w es1 es2 kvs stk todo Hfree Hn Hw Hat He Hes Hpath IH]; intros it Hit.
  - exists it. split; [|done]. apply returns_done. unfold step_over. rewrite Hit. apply returns_give.
  - pose proof (sibling_entry n j b c es1 es2 Hw He Hat) as Hsib.
    assert (Hstep : ∀ r it', returns (match sibling n j with
        | None => let it := pop it in need read_unlock (Sec (NodeLock a) (Rcs true x)) else give (inr (false, it)); give (inl it)
        | Some e2 => let it := try_push (PInode a t) n e2 (Sec (NodeLock a) (Rcs true x)) (pop it) in
            child <- load_child a e2.2; need checked (Sec (NodeLock a) (Rcs true x)) else give (inr (false, it));
            r <- try_traversal outermost child (Sec (NodeLock a) (Rcs true x)) it; give (inr r) end) s r →
      match r with inl it1 => returns (try_step it1) s (true, it') | inr y => y = (true, it') end → returns (try_step it) s (true, it')).
    { intros r it' Hr Hend. assert (Hbody : returns (step_over sibling (try_traversal outermost) it) s r).
      { unfold step_over. rewrite Hit. cbn [e_node e_version e_child_index]. unfold entry_section.
        eapply returns_seq; [eapply returns_lock_of; [done|apply returns_give]|]. apply returns_need; [by apply returns_checked|].
        eapply returns_seq; [by apply returns_read_inode|]. cbv zeta. by apply returns_need; [apply returns_checked|]. }
      destruct r as [it1|y]; [by eapply returns_more|]. subst y. by apply returns_done. }
    destruct Hes as [|b2 c2 es3 kvs1 kvs2 Hb Hes].
    + cbn [head pos_of] in Hsib. destruct (IH (pop it)) as (it' & Hret & Hst); [unfold pop; by rewrite Hit|].
      exists it'. split; [|done]. apply (Hstep (inl (pop it)) it'); [|done]. rewrite Hsib. cbv zeta.
      apply returns_need; [by apply returns_unlock|apply returns_give].
    + destruct Hsib as (j2 & Hsib & Hat2). 
      destruct (descend_returns c2 kvs1 (try_push (PInode a t) n (b2, j2) (Sec (NodeLock a) (Rcs true x)) (pop it)) (Sec (NodeLock a) (Rcs true x)) (kvs2 ++ todo))
        as (it' & Hret & Hst); [done|done| |].
      { cbn. unfold pop. rewrite Hit. cbn [OlcIter.stack_]. eapply (path_cons a t n x b2 j2 c2 _ (es1 ++ [(b, c)]) es3); try done. by rewrite <- app_assoc. }
      exists it'. split; [|by rewrite <- app_assoc]. apply (Hstep (inr (true, it')) it'); [|done]. rewrite Hsib. cbv zeta.
      eapply returns_seq; [by eapply returns_child|]. apply returns_need; [by apply returns_checked|].
      eapply returns_seq; [exact Hret|]. apply returns_give.
Qed.

Lemma step_returns it e todo : stands it (e :: todo) → ∃ it', returns (try_step it) s (true, it') ∧ stands it' todo.
Proof.
  intros (a & l & x & stk & Hit & Hfree & _ & Hpath). destruct (climb_returns stk todo Hpath (pop it)) as (it' & Hret & Hst); [unfold pop; by rewrite Hit|].
  exists it'. split; [|done]. eapply returns_more; [|exact Hret]. unfold step_over. rewrite Hit. cbn [e_node e_version]. unfold entry_section.
  eapply returns_seq; [eapply returns_lock_of; [done|apply returns_give]|]. apply returns_need; [by apply returns_checked|]. cbv zeta.
  apply returns_need; [by apply returns_unlock|apply returns_give].
Qed.

(** ** The scan *)

Definition step_entry (fixed : bool) : OlcIter.iterator → prog OlcIter.iterator := if fwd then OlcIter.next fixed else OlcIter.prior fixed.

Lemma entry_returns fixed it e todo : stands it (e :: todo) → ∃ it', returns (step_entry fixed it) s it' ∧ stands it' todo.
Proof.
  intros Hst. destruct (step_returns it e todo Hst) as (it' & Hret & Hst'). exists it'. split; [|done].
  destruct Hst as (a & l & x & stk & Hit & _). 
  assert (Hf : ∀ f, returns (step_from_leaf fixed f try_step it) s it').
  { intros f. unfold step_from_leaf, current_node, current_leaf, current_node. rewrite Hit. cbn [e_node].
    eapply returns_seq; [by apply returns_of_opt|]. cbv zeta. eapply returns_seq; [exact Hret|]. apply returns_give. }
  unfold step_entry, OlcIter.next, OlcIter.prior. unfold try_step, sibling, outermost in Hf. destruct fwd; apply Hf.
Qed.

Lemma loop_returns {F} (fn : list Z → list Z → F → bool * F) fixed todo : ∀ it f, stands it todo →
  returns (OlcIter.scan_loop fn OlcIter.always (step_entry fixed) it f) s (visit fn todo f).
Proof.
  induction todo as [|e todo IH]; intros it f Hst.
  - apply returns_done. unfold scan_turn, OlcIter.valid. cbn in Hst. rewrite Hst. apply returns_give.
  - destruct (entry_returns fixed it e todo Hst) as (it' & Hret & Hst'). destruct Hst as (a & l & x & stk & Hit & _ & Hl & _).
    assert (Hleaf : OlcIter.current_leaf it = Some l) by (unfold OlcIter.current_leaf, current_node; by rewrite Hit).
    assert (Hturn : ∀ r, returns (let '(stop, f) := fn e.1 e.2 f in if stop then give (inr f) else it <- step_entry fixed it; give (inl (it, f))) s r →
      returns (scan_turn fn OlcIter.always (step_entry fixed) (it, f)) s r).
    { intros r Hr. unfold scan_turn, OlcIter.valid. rewrite Hit. eapply returns_seq; [by apply returns_of_opt|]. cbn match.
      eapply returns_seq; [apply returns_of_opt; unfold OlcIter.get_key; by rewrite Hleaf|].
      eapply returns_seq; [apply returns_of_opt; unfold OlcIter.get_val; by rewrite Hleaf|].
      rewrite (leaf_holds_key _ _ _ Hl), (leaf_holds_value _ _ _ Hl). exact Hr. }
    cbn [visit]. destruct (fn e.1 e.2 f) as [[] f'] eqn:Hfn.
    + apply returns_done, Hturn, returns_give.
    + eapply returns_more; [apply Hturn; eapply returns_seq; [exact Hret|apply returns_give]|]. by apply IH.
Qed.

(** From the root, if any. *)
Lemma scan_returns {F} (fn : list Z → list Z → F → bool * F) fixed x kvs f : free_at s (Sec RootLock (Rcs true x)) →
  match root s with PNull => kvs = [] | p => below p kvs end → returns (OlcIter.scan fixed fn fwd f) s (visit fn kvs f).
Proof.
  intros Hfree Hroot. assert (Hfirst : ∃ it, returns (try_outermost (try_traversal outermost) new_iterator) s (true, it) ∧ stands it kvs).
  { assert (Hr : ∀ p, p = root s → ∃ it, returns (match p with
        | PNull => ok <- read_unlock (Sec RootLock (Rcs true x)); give (ok, invalidate new_iterator)
        | _ => try_traversal outermost p (Sec RootLock (Rcs true x)) (invalidate new_iterator) end) s (true, it) ∧ stands it kvs).
    { intros p Hp. rewrite <- Hp in Hroot. destruct p as [|a l|a t].
      - exists (invalidate new_iterator). split; [eapply returns_seq; [by apply returns_unlock|apply returns_give]|]. by rewrite Hroot.
      - rewrite <- (app_nil_r kvs). by apply descend_returns; [..|apply path_nil].
      - rewrite <- (app_nil_r kvs). by apply descend_returns; [..|apply path_nil]. }
    destruct (Hr (root s) eq_refl) as (it & Hret & Hst). exists it. split; [|done]. unfold try_outermost.
    eapply (returns_enter (Sec RootLock (Rcs true x))); [done|done|]. rewrite (free_goes_on s _ Hfree).
    eapply returns_seq; [apply returns_root|exact Hret]. }
  destruct Hfirst as (it & Hret & Hst). 
  assert (Hall : returns (it <- until_done (try_outermost (try_traversal outermost)) new_iterator; OlcIter.scan_loop fn OlcIter.always (step_entry fixed) it f) s (visit fn kvs f)).
  { eapply returns_seq; [|by apply loop_returns]. apply returns_done. eapply returns_seq; [exact Hret|]. apply returns_give. }
  unfold OlcIter.scan, OlcIter.first, OlcIter.last. unfold step_entry, outermost in Hall. destruct fwd; exact Hall.
Qed.
End scans.

(** ** The index at rest *)

Section at_rest.
Context `{Target}.
Implicit Types (w : gworld).

Lemma quiet_root_free w : inv w → quiet w → ∃ x, free_at w.1 (Sec RootLock (Rcs true x)).
Proof.
  intros Hi (Ho & _). exists (root_pointer_lock w.1), (root_pointer_lock w.1). split_and!; [done|done|].
  pose proof (i_root _ Hi) as Hr. rewrite Ho in Hr. by apply is_free_spec.
Qed.

Lemma quiet_free w q p a : inv w → quiet w → tree w.2 !! q = Some p → ptr_addr p = Some a → ∃ x, free_at w.1 (Sec (NodeLock a) (Rcs true x)).
Proof.
  intros Hi Hq Ht Ha. destruct (in_tree_node w a Hi) as [C HC]; [by exists q, p|].
  assert (Hw : word w (NodeLock a) = Some (node_lock C)) by (unfold word; cbn; by rewrite HC).
  exists (node_lock C), (node_lock C). split_and!; [done|exact Hw|].
  pose proof (i_node _ Hi a _ Hw (proj1 (proj2 Hq) a)) as Hn. unfold node_state in Hn. rewrite (proj1 Hq) in Hn.
  destruct Hn as [[H4 _]|(_ & Hno & _)]; [by apply is_free_spec|]. by destruct Hno; exists q, p.
Qed.

(** The bindings are what the leaves hold. *)
Lemma quiet_binding w k v : inv w → quiet w → gbindings w.2 !! k = Some v ↔ ∃ a l, reachable w.1 (PLeaf a l) ∧ leaf_holds l k v.
Proof.
  intros Hi Hq. split.
  - intros Hkv. destruct (t_map _ _ _ _ (i_tree _ Hi) k v Hkv) as (q & a & l & Ht & Hl). exists a, l. split; [|done].
    apply (reachable_tree w _ Hi Hq). by exists q.
  - intros (a & l & [q Ht]%(reachable_tree w _ Hi Hq) & Hl). destruct (t_leaf _ _ _ _ (i_tree _ Hi) q a l Ht) as (k' & v' & Hl' & _ & _ & Hm).
    by destruct (leaf_holds_inj _ _ _ _ _ Hl Hl') as [-> ->].
Qed.

(** A lookup alone: from the root to where the key leads. *)
Lemma walk_returns w z : inv w → quiet w → 0 ≤ z < 2 ^ 64 → ∀ h q p parent, tree w.2 !! q = Some p → q `prefix_of` int_bytes z →
  (8 - length q < h)%nat → free_at w.1 parent →
  returns (ITree.iter (get_step (KInt z)) (p, parent, shifted (KInt z) (length q))) w.1 (Some (gbindings w.2 !! int_bytes z)).
Proof.
  intros Hi Hq Hz. induction h as [|h IH]; intros q p parent Ht Hp Hh Hpar; [lia|]. pose proof (i_valid _ Hi _ _ Ht) as Hv.
  destruct p as [|a l|a t]; [done|..]; destruct (quiet_free w q _ a Hi Hq Ht eq_refl) as [x Hx];
    pose proof (free_goes_on _ _ Hx) as Hgo; pose proof (returns_unlock _ _ Hx) as Hun.
  - apply returns_done. unfold get_step. eapply returns_lock_of; [done|]. eapply (returns_enter w.1 (Sec (NodeLock a) (Rcs true x))); [done|exact Hx|]. rewrite Hgo.
    apply returns_need; [by apply returns_unlock|]. rewrite (walk_leaf _ _ _ _ (i_tree _ Hi) (int_bytes z) q a l Ht Hp).
    destruct (matches l (KInt z)) eqn:Hm; (apply returns_need; [done|]).
    + apply matches_key in Hm. rewrite decide_True by done. apply returns_give.
    + rewrite decide_False; [apply returns_give|]. intros Hk. apply matches_key in Hk. congruence.
  - destruct Hv as (_ & n & Hn & _). pose proof (quiet_logical w a n Hq Hn) as Hlog.
    destruct (t_inode _ _ _ _ (i_tree _ Hi) q a t n Ht Hlog) as (Hw & Hl & Hch). pose proof (inode_prefix_wf n Hw) as [_ Hl1].
    set (d := (length q + prefix_length (get_key_prefix n))%nat).
    assert (Hlen : length (full q n) = d) by (unfold full, d; by rewrite length_app, length_prefix_bytes).
    pose proof (returns_read_inode _ _ _ Hn) as Hread.
    assert (Hgone : (full q n `prefix_of` int_bytes z → ∀ b, int_bytes z !! length (full q n) = Some b → assoc b (entries n) = None) →
      returns (need read_unlock (Sec (NodeLock a) (Rcs true x)) else give (inr None); give (inr (Some None) : olc_ptr * Olc.section * art_key + option (option (list Z)))) w.1
        (inr (Some (gbindings w.2 !! int_bytes z)))).
    { intros Habs. apply returns_need; [exact Hun|]. rewrite (walk_inode _ _ _ _ (i_tree _ Hi) (int_bytes z) q a t n Ht Hlog Hp Habs). apply returns_give. }
    assert (Hstep : ∀ r, returns (if (get_shared_length (get_key_prefix n) (get_u64 (shifted (KInt z) (length q))) <? prefix_length (get_key_prefix n))%nat then
          need read_unlock (Sec (NodeLock a) (Rcs true x)) else give (inr None); give (inr (Some None))
        else match (find_child n (int_byte z d)).2 with
          | None => need read_unlock (Sec (NodeLock a) (Rcs true x)) else give (inr None); give (inr (Some None))
          | Some s => child <- do (LoadSlot (ChildSlot a s)); remaining_key <- of_opt (shift_right (shifted (KInt z) d) 1);
              need checked (Sec (NodeLock a) (Rcs true x)) else give (inr None); give (inl (child, Sec (NodeLock a) (Rcs true x), remaining_key)) end) w.1 r →
      returns (get_step (KInt z) (PInode a t, parent, shifted (KInt z) (length q))) w.1 r).
    { intros r Hr. unfold get_step. eapply returns_lock_of; [done|]. eapply (returns_enter w.1 (Sec (NodeLock a) (Rcs true x))); [done|exact Hx|]. rewrite Hgo.
      apply returns_need; [by apply returns_unlock|]. eapply returns_seq; [exact Hread|]. cbv zeta. eapply returns_seq; [exact Hread|].
      destruct (_ <? _)%nat; [exact Hr|]. eapply returns_seq; [apply returns_of_opt, int_shift; lia|].
      eapply returns_seq; [apply returns_of_opt, int_index|]. eapply returns_seq; [exact Hread|exact Hr]. }
    destruct (Nat.ltb_spec (get_shared_length (get_key_prefix n) (get_u64 (shifted (KInt z) (length q)))) (prefix_length (get_key_prefix n))) as [Hsh|Hsh].
    { apply returns_done, Hstep, Hgone. intros Hf. by destruct (shared_less z (get_key_prefix n) q Hz (inode_prefix_wf n Hw) Hsh). }
    destruct (shared_through z n q Hz Hw Hp Hsh Hl) as (_ & Hpb & Hbyte). fold d in Hpb, Hbyte.
    destruct (find_cases n (int_byte z d) Hw (int_byte_is_byte z d)) as [(j & sl & c & Hf & Ha & Hload & _)|[Hf Ha]]; rewrite Hf in Hstep; cbn [snd child_not_found] in Hstep.
    + eapply returns_more.
      * apply Hstep. eapply returns_seq; [by eapply returns_load|]. eapply returns_seq; [apply returns_of_opt, int_shift; lia|].
        apply returns_need; [by apply returns_checked|apply returns_give].
      * replace (d + 1)%nat with (length (full q n ++ [int_byte z d])) by (rewrite length_snoc; lia).
        apply IH; [by rewrite <- Hch|exact Hpb| |exact Hx]. rewrite length_snoc. lia.
    + apply returns_done, Hstep, Hgone. intros _ b Hb. rewrite Hlen in Hb. congruence.
Qed.

Lemma quiet_get w z : inv w → quiet w → 0 ≤ z < 2 ^ 64 → returns (get_internal (KInt z)) w.1 (gbindings w.2 !! int_bytes z).
Proof.
  intros Hi Hq Hz. destruct (quiet_root_free w Hi Hq) as [x Hx]. apply returns_done. apply (returns_seq _ _ _ (Some (gbindings w.2 !! int_bytes z))); [|apply returns_give].
  unfold try_get. eapply (returns_enter w.1 (Sec RootLock (Rcs true x))); [done|exact Hx|]. rewrite (free_goes_on _ _ Hx). eapply returns_seq; [apply returns_root|].
  pose proof (t_root _ _ _ _ (i_tree _ Hi)) as Hroot. rewrite (quiet_root w Hq) in Hroot.
  destruct (decide (root w.1 = PNull)) as [Hr|Hr].
  - rewrite Hr. apply returns_need; [by apply returns_unlock|]. rewrite (walk_empty _ _ _ _ (i_tree _ Hi)); [apply returns_give|by rewrite (quiet_root w Hq)].
  - assert (Ht : tree w.2 !! [] = Some (root w.1)) by (rewrite Hroot; by destruct (root w.1)).
    assert (Hloop : returns (need checked (Sec RootLock (Rcs true x)) else give None; ITree.iter (get_step (KInt z)) (root w.1, Sec RootLock (Rcs true x), KInt z))
      w.1 (Some (gbindings w.2 !! int_bytes z))).
    { apply returns_need; [by apply returns_checked|]. rewrite <- (int_shift_none z). rewrite int_shift_none at 1.
      apply (walk_returns w z Hi Hq Hz 9 [] _ _ Ht (prefix_nil _)); [cbn; lia|exact Hx]. }
    destruct (root w.1); [done|exact Hloop..].
Qed.

Variable fwd : bool.

(** The order of the scan. *)
Definition ahead (x y : kv) : Prop := lex x.1 y.1 = if fwd then Lt else Gt.

(** The bindings at a position and below it. *)
Definition bound_beneath w (q : list Z) (e : kv) : Prop :=
  ∃ q' a l, q `prefix_of` q' ∧ tree w.2 !! q' = Some (PLeaf a l) ∧ leaf_holds l e.1 e.2.

Lemma bound_key w q e : inv w → bound_beneath w q e → q `prefix_of` e.1.
Proof.
  intros Hi (q' & a & l & Hp & Ht & Hl). destruct (t_leaf _ _ _ _ (i_tree _ Hi) q' a l Ht) as (k & v & Hl' & _ & Hk & _).
  destruct (leaf_holds_inj _ _ _ _ _ Hl Hl') as [-> _]. by etrans.
Qed.

Lemma entries_in_order (n : inode olc_ptr) : node_wf n → StronglySorted (λ x y, if fwd then x.1 < y.1 else y.1 < x.1) (in_order fwd (entries n)).
Proof.
  intros Hw%wf_sorted. unfold sorted in Hw. destruct fwd; cbn [in_order].
  - eapply sorted_impl; [|exact Hw]. intros x y Hxy. by apply Z.compare_lt_iff.
  - apply sorted_reverse in Hw. eapply sorted_impl; [|exact Hw]. intros x y Hxy. by apply Z.compare_lt_iff.
Qed.

Lemma in_order_elem {A} (l : list A) x : x ∈ in_order fwd l ↔ x ∈ l.
Proof. destruct fwd; [done|]. apply elem_of_reverse. Qed.

Lemma ahead_branch q b b' (x y : kv) : q ++ [b] `prefix_of` x.1 → q ++ [b'] `prefix_of` y.1 → (if fwd then b < b' else b' < b) → ahead x y.
Proof.
  intros [x' Hx] [y' Hy] Hb. unfold ahead. rewrite Hx, Hy, <- !app_assoc. destruct fwd.
  - by apply lex_lt_branch.
  - rewrite lex_antisym. cbn [app]. by rewrite (lex_lt_branch q b' b y' x' Hb : lex _ _ = Lt).
Qed.

(** The entries of siblings, one after the other. *)
Lemma siblings_below w base es : inv w → StronglySorted (λ x y : Z * olc_ptr, if fwd then x.1 < y.1 else y.1 < x.1) es →
  (∀ b p, (b, p) ∈ es → ∃ kvs, below w.1 fwd p kvs ∧ StronglySorted ahead kvs ∧ ∀ e, e ∈ kvs ↔ bound_beneath w (base ++ [b]) e) →
  ∃ kvs, all_below w.1 fwd es kvs ∧ StronglySorted ahead kvs ∧ ∀ e, e ∈ kvs ↔ ∃ b p, (b, p) ∈ es ∧ bound_beneath w (base ++ [b]) e.
Proof.
  intros Hi Hs. induction Hs as [|[b p] es Hs IH Hb]; intros Hes.
  - exists []. split; [constructor|]. split; [constructor|]. intros e. split; [by intros ?%elem_of_nil|]. by intros (? & ? & ?%elem_of_nil & _).
  - destruct (Hes b p ltac:(by left)) as (kvs1 & Hb1 & Hs1 & Hin1).
    destruct IH as (kvs2 & Hb2 & Hs2 & Hin2); [intros b' p' Hin; apply Hes; by right|].
    exists (kvs1 ++ kvs2). split; [by constructor|]. split.
    + apply StronglySorted_app_2; [|done..]. intros x y Hx%Hin1 (b' & p' & Hin & Hy)%Hin2. rewrite Forall_forall in Hb.
      apply (ahead_branch base b b'); [by apply bound_key in Hx|by apply bound_key in Hy|]. exact (Hb (b', p') Hin).
    + intros e. rewrite elem_of_app, Hin1, Hin2. split.
      * intros [He|(b' & p' & Hin & He)]; [exists b, p; split; [by left|done]|exists b', p'; split; [by right|done]].
      * intros (b' & p' & [[= -> ->]|Hin]%elem_of_cons & He); [by left|right; by exists b', p'].
Qed.

Lemma bound_leaf w q a l k v : inv w → tree w.2 !! q = Some (PLeaf a l) → leaf_holds l k v → ∀ e, e ∈ [(k, v)] ↔ bound_beneath w q e.
Proof.
  intros Hi Ht Hl e. rewrite list_elem_of_singleton. split; [intros ->; by exists q, a, l|]. intros (q' & a' & l' & Hp & Hq' & Hl').
  destruct (tree_path _ _ _ _ (i_tree _ Hi) q (PLeaf a l) q' _ q' Ht Hq' Hp ltac:(done) (prefix_le _ _ Hp)) as [<-|(? & ? & ? & ? & [=] & _)].
  rewrite Ht in Hq'. injection Hq' as <- <-. destruct e. cbn in *. by destruct (leaf_holds_inj _ _ _ _ _ Hl Hl') as [-> ->].
Qed.

Lemma bound_inode w q a t n : inv w → quiet w → tree w.2 !! q = Some (PInode a t) → inode_at w.1 a = Some n →
  ∀ e, bound_beneath w q e ↔ ∃ b p, (b, p) ∈ entries n ∧ bound_beneath w (full q n ++ [b]) e.
Proof.
  intros Hi Hq Ht Hn e. destruct (quiet_children w q a t n Hi Hq Ht Hn) as [_ Hch]. split.
  - intros (q' & a' & l & Hp & Hq' & Hl).
    destruct (tree_path _ _ _ _ (i_tree _ Hi) q _ q' _ q' Ht Hq' Hp ltac:(done) (prefix_le _ _ Hp)) as [<-|(a1 & t1 & n1 & b & [= <- <-] & Hn1 & Hb & _ & [c Hc])].
    + rewrite Ht in Hq'. discriminate Hq'.
    + rewrite (quiet_logical w a n Hq Hn) in Hn1. injection Hn1 as <-. exists b, c. split; [by apply Hch|by exists q', a', l].
  - intros (b & c & _ & (q' & a' & l & Hp & ? & ?)). exists q', a', l. split; [|done].
    etrans; [apply (full_prefix q n)|]. etrans; [|exact Hp]. by eexists.
Qed.

Lemma tree_below w : inv w → quiet w → ∀ h q p, tree w.2 !! q = Some p → (8 - length q < h)%nat →
  ∃ kvs, below w.1 fwd p kvs ∧ StronglySorted ahead kvs ∧ ∀ e, e ∈ kvs ↔ bound_beneath w q e.
Proof.
  intros Hi Hq. induction h as [|h IH]; intros q p Ht Hh; [lia|]. pose proof (i_valid _ Hi _ _ Ht) as Hv.
  destruct p as [|a l|a t]; [done|..]; destruct (quiet_free w q _ a Hi Hq Ht eq_refl) as [x Hx].
  - destruct (t_leaf _ _ _ _ (i_tree _ Hi) q a l Ht) as (k & v & Hl & _). exists [(k, v)]. split; [by econstructor|].
    split; [repeat constructor|]. by eapply bound_leaf.
  - destruct Hv as (_ & n & Hn & _). destruct (quiet_children w q a t n Hi Hq Ht Hn) as [Hlen Hch].
    assert (Hw : node_wf n) by (apply (i_wf _ Hi a n Hn), Hq).
    destruct (siblings_below w (full q n) (in_order fwd (entries n)) Hi (entries_in_order n Hw)) as (kvs & Hb & Hs & Hin).
    { intros b p Hin%in_order_elem%Hch. apply (IH (full q n ++ [b]) p Hin). rewrite length_snoc. pose proof (full_le q n). lia. }
    exists kvs. split; [by econstructor|]. split; [done|]. intros e. rewrite Hin, (bound_inode w q a t n Hi Hq Ht Hn).
    by setoid_rewrite in_order_elem.
Qed.

(** A scan alone shows the bindings in the order of their keys. *)
Lemma quiet_scan w : inv w → quiet w → ∃ kvs, StronglySorted ahead kvs ∧
  (∀ e, e ∈ kvs ↔ ∃ a l, reachable w.1 (PLeaf a l) ∧ leaf_holds l e.1 e.2) ∧
  ∀ F (fn : list Z → list Z → F → bool * F) fixed f, returns (OlcIter.scan fixed fn fwd f) w.1 (visit fn kvs f).
Proof.
  intros Hi Hq. destruct (quiet_root_free w Hi Hq) as [x Hx].
  assert (Hbound : ∀ e, bound_beneath w [] e ↔ ∃ a l, reachable w.1 (PLeaf a l) ∧ leaf_holds l e.1 e.2).
  { intros e. split.
    - intros (q & a & l & _ & Ht & Hl). exists a, l. split; [|done]. apply (reachable_tree w _ Hi Hq). by exists q.
    - intros (a & l & [q Ht]%(reachable_tree w _ Hi Hq) & Hl). exists q, a, l. split; [apply prefix_nil|done]. }
  enough (Hkvs : ∃ kvs, StronglySorted ahead kvs ∧ (∀ e, e ∈ kvs ↔ bound_beneath w [] e) ∧
    match root w.1 with PNull => kvs = [] | p => below w.1 fwd p kvs end).
  { destruct Hkvs as (kvs & Hs & Hin & Hroot). exists kvs. split; [done|]. split; [intros e; by rewrite Hin|].
    intros F fn fixed f. by eapply scan_returns. }
  pose proof (t_root _ _ _ _ (i_tree _ Hi)) as Hroot. rewrite (quiet_root w Hq) in Hroot.
  destruct (decide (root w.1 = PNull)) as [Hr|Hr].
  - exists []. split; [constructor|]. split; [|by rewrite Hr]. intros e. split; [by intros ?%elem_of_nil|].
    intros (a & l & Hreach & _)%Hbound. assert (Hno : ∀ p, ¬ reachable w.1 p) by (induction 1; [congruence|done]). by destruct (Hno (PLeaf a l)).
  - assert (Ht : tree w.2 !! [] = Some (root w.1)) by (rewrite Hroot; by destruct (root w.1)).
    destruct (tree_below w Hi Hq 9 [] _ Ht ltac:(cbn; lia)) as (kvs & Hb & Hs & Hin). exists kvs. split_and!; [done|done|]. by destruct (root w.1).
Qed.
End at_rest.
