(* ===== verification/OlcPool.v ===== *)
(** All threads together: the invariant of the concurrent index, kept by every
    event of an execution with integer keys; and the atomic index that goes along,
    with the lookups when no thread puts a prefix before that of a node while
    another is looking up a key, and without them otherwise. *)

From ITree Require Import ITree.
From S2P Require Import Prelude Words Threads ArtKey KeyPrefix SortedAssoc Simd InodeBase.
From S2P Require Import Heap Leaf InodeSpec Inode Db DbMap DbTrace OptimisticLock OlcState Olc OlcSystem OlcLogic OlcClear OlcTree OlcInv OlcFacts OlcSteps OlcRules OlcUse OlcGet OlcInsert OlcRemove OlcScan OlcWalk OlcPositions.

(** ** The executions *)

(** No call is in flight. *)
Definition at_rest (c : config) : Prop := Forall (λ t, t = Idle) (olc_threads c).

(** Calls with integer keys, and those without a key. *)
Definition int_key (k : key_arg) : bool := match k with IntKey _ => true | ViewKey _ _ => false end.
Definition int_op (o : op) : bool :=
  match o with OpGet k | OpInsert k _ | OpRemove k => int_key k | OpEmpty | OpClear => true end.

Definition is_get (o : op) : bool := match o with OpGet _ => true | _ => false end.
Definition looking_up (t : thread) : bool := match t with Busy o _ => is_get o | _ => false end.

(** Whether the next step of a thread is an access with a property. *)
Definition next_is (f : ∀ X, access X → bool) (t : thread) : bool :=
  match t with
  | Busy _ p => match observe p with VisF e _ => f _ e | _ => false end
  | Scans _ p => match observe p with VisF e _ => f _ e | _ => false end
  | Idle => false
  end.

(** Integer keys only. *)
Definition int_calls (e : nat * move) (c : config) : bool := match e.2 with Invoke o => int_op o | _ => true end.

(** No prefix is put before that of a node while a lookup is in flight. *)
Definition spares_lookups (e : nat * move) (c : config) : bool :=
  match e.2 with
  | Step _ =>
      negb (match olc_threads c !! e.1 with Some t => next_is (@prepends) t | None => false end)
      || negb (existsb looking_up (olc_threads c))
  | _ => true
  end.

Definition calm (e : nat * move) (c : config) : bool := int_calls e c && spares_lookups e c.

(** The history of all that is not a lookup. *)
Definition is_found (r : outcome answer) : bool := match r with Value (Found _) => true | _ => false end.
Definition is_lookup (l : label) : bool := match l with Invoked o => is_get o | Returned r => is_found r | _ => false end.
Definition without_lookups (h : list (nat * label)) : list (nat * label) := filter (λ e, is_lookup e.2 = false) h.

(** What follows is about executions over integer keys.  With [strict], no prefix is
    put before that of a node while a lookup is in flight, and lookups are part of
    the history that is explained; without, they are only known to be defined. *)
Section pool.
Context `{Target} (strict : bool).
Implicit Types (w : gworld) (i : nat).

Definition traced (o : op) : bool := strict || negb (is_get o).

(** ** A call *)

(** What a call has done when its program ends. *)
Definition finished i (o : op) (r : outcome answer) : gworld → Prop := λ w, is_found r = is_get o ∧ ∃ A,
  match r with
  | Value a => st i (Answered (Value a)) A [] [] (λ _, True) w ∨ st i (Pending o) A [] [] (λ _, traced o = true → a ∈ A) w
  | Thrown _ => st i (Pending o) A [] [] (λ _, may_throw o = true) w
  end.

Lemma lasting_finished i reading o r : lasting i reading (finished i o r).
Proof.
  apply lasting_and; [apply lasting_pure|]. apply lasting_ex. intros A. destruct r; [apply lasting_or|]; apply lasting_st, lasting_pure.
Qed.

Lemma triple_map i reading {A B} (f : A → B) P (p : prog A) (Q : B → gworld → Prop) :
  (∀ b, lasting i reading (Q b)) → triple i reading P p (λ a, Q (f a)) → triple i reading P (ITree.map f p) Q.
Proof.
  intros HQ Hp. unfold ITree.map. eapply triple_bind; [exact Hp|]. intros a. apply triple_give; [apply HQ|done].
Qed.

Lemma int_key_of k : int_key k = true → ∃ z, art_key_of k = KInt z ∧ 0 ≤ z < 2 ^ 64.
Proof. destruct k as [k|]; [|done]. intros _. eexists. split; [done|]. apply (art_key_of_int_wf k). Qed.

Lemma program_ok i o p : int_op o = true → program o = Some p →
  triple i (strict && is_get o) (st i (Pending o) [] [] [] (λ _, True)) p (finished i o).
Proof.
  intros Ho Hp. destruct o as [k|k v|k| |]; try done; cbn [program int_op is_get] in *; injection Hp as <-;
    try (destruct (int_key_of k Ho) as (z & Hk & Hz)); rewrite ?andb_false_r, ?andb_true_r; (apply triple_map; [intros; apply lasting_finished|]).
  - unfold olc_get. rewrite Hk. assert (Hb : key_bytes k = int_bytes z) by (unfold key_bytes; by rewrite Hk).
    unfold finished, traced. cbn [is_found is_get negb]. destruct strict.
    + eapply triple_post; [|by apply (get_internal_ok i k z Hz)]. intros r w _ [A Hst]. split; [done|]. exists A. right.
      revert Hst. by apply st_mono.
    + eapply triple_post; [|apply lookup_defined]. intros r w _ Hst. split; [done|]. exists []. right. revert Hst. by apply st_mono.
  - unfold olc_insert. rewrite Hk. eapply triple_post; [|by apply insert_internal_ok].
    intros [[]|e] w _ [A Hst]; (split; [done|]); exists A; [by left|right|]; revert Hst; by apply st_mono.
  - unfold olc_remove. rewrite Hk. eapply triple_post; [|by apply remove_internal_ok].
    intros [[]|e] w _ [A Hst]; (split; [done|]); exists A; [by left|right|]; revert Hst; by apply st_mono.
  - eapply triple_post; [|by apply olc_empty_ok]. intros r w _ [A Hst]. split; [done|]. exists A. right. revert Hst. by apply st_mono.
Qed.

(** ** All threads *)

(** The rest of a thread's program is safe for the next [k] steps, or the thread
    has nothing. *)
Definition thread_ok (k : nat) i (t : option thread) : gworld → Prop :=
  match t with
  | None => λ w, locks i [] w ∧ privates i [] w
  | Some Idle => st i NoCall [] [] [] (λ _, True)
  | Some (Busy o p) => safe (λ X, @perform _ X) (rely i (strict && is_get o)) (step_ok i) live k p (λ r w, inv w ∧ finished i o r w)
  | Some (Scans s p) => safe (λ X, @perform _ X) (rely i false) (step_ok i) live k p (λ r w, inv w ∧ scan_finished i s r w)
  end.

(** The calls that are not explained. *)
Definition hidden (c : call_state) : bool :=
  negb strict && match c with Pending o => is_get o | Answered r => is_found r | _ => false end.

(** The atomic index can be where a call has already taken effect, if it was
    noted that it could, and where a scan has shown some of what was noted. *)
Definition may_be (x : call_state * list answer) (c : call_state) : Prop :=
  match x.1 with
  | Scanning s notes => ∃ shown, c = Scanning s shown ∧ may_show s notes shown
  | _ => c = x.1 ∨ ∃ o a, x.1 = Pending o ∧ a ∈ x.2 ∧ c = Answered (Value a)
  end.

Definition could_be (x : call_state * list answer) (c : call_state) : Prop :=
  if hidden x.1 then c = NoCall else may_be x c.

Lemma could_be_hidden x c : hidden x.1 = true → could_be x c ↔ c = NoCall.
Proof. unfold could_be. by intros ->. Qed.

Lemma could_be_open x c : hidden x.1 = false → could_be x c ↔ may_be x c.
Proof. unfold could_be. by intros ->. Qed.

Lemma could_be_nocall A : could_be (NoCall, A) NoCall.
Proof. apply could_be_open; [apply andb_false_r|]. by left. Qed.

Lemma could_be_none c : could_be (NoCall, []) c → c = NoCall.
Proof. intros Hc. apply could_be_open in Hc; [|apply andb_false_r]. destruct Hc as [->|(? & ? & [=] & _)]. done. Qed.

(** The part of the history that is explained. *)
Definition noted (h : list (nat * label)) : list (nat * label) := if strict then h else without_lookups h.

Lemma noted_cons i l h : noted ((i, l) :: h) = if negb strict && is_lookup l then noted h else (i, l) :: noted h.
Proof.
  unfold noted, without_lookups. destruct strict; [done|]. cbn [negb andb]. rewrite filter_cons. cbn [snd].
  destruct (is_lookup l); [by rewrite decide_False|by rewrite decide_True].
Qed.

Lemma spec_found (o : op) b : is_found (Value (spec_op o b).1) = is_get o.
Proof. destruct o as [k|k v|k| |]; cbn [spec_op]; try done; by destruct (b !! key_bytes k). Qed.

Lemma spec_get (o : op) (b : gmap (list Z) (list Z)) : is_get o = true → (spec_op o b).2 = b.
Proof. by destruct o. Qed.

Definition explained n (h : list (nat * label)) (g : ghost) : Prop := ∀ cs, Forall2 could_be (gcalls g) cs →
  ∃ es, run atomic_step es (atomic_initial n) = Some (AtomicConfig (gbindings g) cs h).

Definition pool (n k : nat) (c : config) (g : ghost) : Prop :=
  inv (mem c, g) ∧ length (olc_threads c) = n ∧ length (gcalls g) = n ∧
  (∀ i, thread_ok k i (olc_threads c !! i) (mem c, g)) ∧ explained n (noted (history c)) g.

(** ** The atomic index goes along *)

Lemma explained_step n h h' (g g' : ghost) i c0 c1 A0 A1 : length (gcalls g) = n → gcalls g !! i = Some (c0, A0) →
  gcalls g' = <[i := (c1, A1)]> (gcalls g) → explained n h g →
  (∀ cs c, cs !! i = Some c → could_be (c1, A1) c → ∃ c', could_be (c0, A0) c' ∧ ∀ es0,
     run atomic_step es0 (atomic_initial n) = Some (AtomicConfig (gbindings g) (<[i := c']> cs) h) →
     ∃ es, run atomic_step es (atomic_initial n) = Some (AtomicConfig (gbindings g') cs h')) →
  explained n h' g'.
Proof.
  intros Hlen Hi Hg Hex Hstep cs Hcs. rewrite Hg in Hcs. assert (Hlt : (i < length (gcalls g))%nat) by by eapply lookup_lt_Some.
  destruct (Forall2_lookup_l _ _ _ i (c1, A1) Hcs) as (c & Hc & Hcb); [by apply list_lookup_insert_eq|].
  destruct (Hstep cs c Hc Hcb) as (c' & Hcb' & Hrun). destruct (Hex (<[i := c']> cs)) as [es0 Hes0]; [|by eapply Hrun].
  replace (gcalls g) with (<[i := (c0, A0)]> (<[i := (c1, A1)]> (gcalls g))).
  - by apply Forall2_insert.
  - rewrite list_insert_insert_eq. by apply list_insert_id.
Qed.

Lemma explained_same n h g g' : gcalls g' = gcalls g → gbindings g' = gbindings g → explained n h g → explained n h g'.
Proof. intros Hc Hb Hex cs. rewrite Hc, Hb. apply Hex. Qed.

(** One more atomic move. *)
Lemma one_more n es0 b cs h i c c' m b' ls : cs !! i = Some c →
  run atomic_step es0 (atomic_initial n) = Some (AtomicConfig b (<[i := c']> cs) h) → call_step m c' b = Some (c, b', ls) →
  ∃ es, run atomic_step es (atomic_initial n) = Some (AtomicConfig b' cs (((λ l, (i, l)) <$> ls) ++ h)).
Proof.
  intros Hc Hrun Hs. exists (es0 ++ [(i, m)]). rewrite run_app, Hrun. cbn [run]. unfold atomic_step. cbn [fst snd calls bindings atomic_history].
  rewrite list_lookup_insert_eq by by eapply lookup_lt_Some. cbn [mbind option_bind]. rewrite Hs. cbn [mbind option_bind].
  rewrite list_insert_insert_eq. by rewrite list_insert_id.
Qed.

Lemma explained_call n h i w w' : length (gcalls w.2) = n → call_ok i w w' → explained n h w.2 → explained n h w'.2.
Proof.
  intros Hlen Hok Hex. destruct Hok as [[Hc Hb]|[(o & A & Hi & Hs & Hc & Hb)|[(o & A & Hi & Hb & Hc)|(s & notes & k & v & A & Hi & Hk & Hc & Hb)]]];
    [by apply (explained_same n h w.2)|..];
    (eapply explained_step; [done|exact Hi|exact Hc|exact Hex|]); intros cs c Hci Hcb; rewrite Hb.
  - destruct (hidden (Pending o)) eqn:Hh.
    { apply could_be_hidden in Hcb as ->; [|done]. exists NoCall. split; [by apply could_be_hidden|]. intros es0.
      rewrite list_insert_id by done. by exists es0. }
    apply could_be_open in Hcb; [|done]. destruct Hcb as [->|(o' & a & [= <-] & Ha & ->)].
    { exists (Pending o). split; [apply could_be_open; [done|by left]|]. intros es0. cbn [fst]. rewrite list_insert_id by done. by exists es0. }
    apply elem_of_cons in Ha as [->|Ha].
    + exists (Pending o). split; [apply could_be_open; [done|by left]|]. intros es0 Hes0.
      apply (one_more n es0 _ cs h i _ _ ATakeEffect _ [] Hci Hes0). cbn [call_step]. by rewrite Hs.
    + exists (Answered (Value a)). split; [apply could_be_open; [done|right; by exists o, a]|]. intros es0.
      rewrite list_insert_id by done. by exists es0.
  - assert (Hsame : hidden (Answered (Value (spec_op o (gbindings w.2)).1)) = hidden (Pending o)) by (unfold hidden; by rewrite spec_found).
    destruct (hidden (Pending o)) eqn:Hh.
    { apply could_be_hidden in Hcb as ->; [|done]. exists NoCall. split; [by apply could_be_hidden|]. intros es0.
      apply andb_true_iff in Hh as [_ Hget]. rewrite (spec_get _ _ Hget), list_insert_id by done. by exists es0. }
    apply could_be_open in Hcb; [|done]. exists (Pending o). split; [apply could_be_open; [done|by left]|]. intros es0 Hes0.
    destruct Hcb as [->|(? & ? & [=] & _)]. by apply (one_more n es0 _ cs h i _ _ ATakeEffect _ [] Hci Hes0).
  - apply could_be_open in Hcb; [|apply andb_false_r]. destruct Hcb as (shown & -> & Hsub & Hw).
    apply sublist_app_r in Hsub as (l1 & l2 & -> & H1 & H2).
    apply Forall_app in Hw as [Hw1 Hw2]. apply sublist_cons_r in H2 as [->%sublist_nil_r|(l3 & -> & ->%sublist_nil_r)].
    + exists (Scanning s l1). split; [apply could_be_open; [apply andb_false_r|by exists l1]|]. intros es0.
      rewrite app_nil_r in Hci. rewrite list_insert_id by done. by exists es0.
    + apply Forall_cons in Hw2 as [Hkw _]. exists (Scanning s l1). split; [apply could_be_open; [apply andb_false_r|by exists l1]|]. intros es0 Hes0.
      apply (one_more n es0 _ cs h i _ _ (AShow k) _ [] Hci Hes0). cbn [call_step fst] in *. rewrite Hk. cbn [mbind option_bind].
      by rewrite Hkw.
Qed.

(** ** One event *)

(** A thread in the middle of a call, or of a scan: the rest of its program, and
    what the program is to end with. *)
Definition runs {R} i (wrap : prog R → thread) (reading : bool) (Q : R → gworld → Prop) : Prop :=
  (∀ k p, thread_ok k i (Some (wrap p)) =
     safe (λ X, @perform _ X) (rely i reading) (step_ok i) live k p (λ r w, inv w ∧ Q r w)) ∧
  (∀ f p, next_is f (wrap p) = match observe p with VisF e _ => f _ e | _ => false end) ∧
  (∀ p, strict && looking_up (wrap p) = reading).

Lemma busy_runs i o : runs i (Busy o) (strict && is_get o) (finished i o).
Proof. done. Qed.

Lemma scans_runs i s : runs i (Scans s) false (scan_finished i s).
Proof. split; [done|]. split; [done|]. intros p. apply andb_false_r. Qed.

(** The step of one thread, for the others. *)
Lemma thread_keeps k j t pp w w' : inv w → inv w' → kept j pp w w' → (pp = true → ∀ u, t = Some u → strict && looking_up u = false) →
  thread_ok (S k) j t w → thread_ok k j t w'.
Proof.
  intros Hi Hi' Hk Hr Ht.
  assert (Hruns : ∀ R (wrap : prog R → thread) reading Q p, runs j wrap reading Q → t = Some (wrap p) → thread_ok k j t w').
  { intros R wrap reading Q p (Hok & _ & Hread) ->. rewrite Hok in *.
    apply (safe_rely (λ X, @perform _ X) (rely j reading) (step_ok j) live k p _ w).
    + apply rtc_once. split; [done|]. exists pp. split; [done|]. intros Hpp. rewrite <- (Hread p). exact (Hr Hpp _ eq_refl).
    + eapply (safe_mono _ _ _ _ (S k)); [lia| |exact Ht]. done. }
  destruct t as [[|o p|s p]|].
  - apply (lasting_st j false _ _ _ _ (λ _, True) (lasting_pure j false True) w w' Hi); [|done]. split; [done|]. by exists pp.
  - by apply (Hruns _ _ _ _ p (busy_runs j o)).
  - by apply (Hruns _ _ _ _ p (scans_runs j s)).
  - destruct Ht as [Hl Hp]. assert (Hrel : rely j false w w') by (split; [done|by exists pp]).
    split; [by apply (lasting_locks j false [] w)|by apply (lasting_privates j false [] w)].
Qed.

(** One thread does something, and the others keep what they know. *)
Lemma pool_event n k c g i t t' s' g' h pp : pool n (S k) c g → olc_threads c !! i = Some t → inv (s', g') →
  length (gcalls g') = n → guar i pp (mem c, g) (s', g') →
  (pp = true → ∀ u, u ∈ olc_threads c → strict && looking_up u = false) → thread_ok k i (Some t') (s', g') → explained n (noted h) g' →
  pool n k (Config s' (counters c) (<[i := t']> (olc_threads c)) h) g'.
Proof.
  intros (Hi & Hlen & Hgl & Hts & _) Ht Hi' Hgl' Hg Hpp Ht' Hex. split; [done|]. cbn [olc_threads history mem].
  split; [by rewrite length_insert|]. split; [done|]. split; [|done]. intros j. destruct (decide (j = i)) as [->|Hne].
  - rewrite list_lookup_insert_eq; [done|]. by eapply lookup_lt_Some.
  - rewrite list_lookup_insert_ne by done. apply (thread_keeps k j _ pp (mem c, g)); [done|done|by apply Hg| |apply Hts].
    intros Hp u Hu. apply (Hpp Hp). by eapply list_elem_of_lookup_2.
Qed.

(** The state of one call changes, with an event of the history. *)
Lemma pool_call n k c g i t t' c0 c1 A l : pool n (S k) c g → olc_threads c !! i = Some t → gcalls g !! i = Some (c0, A) →
  let g' := ticked (with_calls (gbindings g) (<[i := (c1, [])]> (gcalls g)) g) in
  (inv (mem c, g') → calling i c1 [] (mem c, g') → thread_ok k i (Some t') (mem c, g')) →
  (∀ cs c', cs !! i = Some c' → could_be (c1, []) c' → ∃ c2, could_be (c0, A) c2 ∧ ∀ es0,
     run atomic_step es0 (atomic_initial n) = Some (AtomicConfig (gbindings g) (<[i := c2]> cs) (noted (history c))) →
     ∃ es, run atomic_step es (atomic_initial n) = Some (AtomicConfig (gbindings g) cs (noted ((i, l) :: history c)))) →
  pool n k (Config (mem c) (counters c) (<[i := t']> (olc_threads c)) ((i, l) :: history c)) g'.
Proof.
  intros Hpool Ht Hcall g' Hok Hstep. pose proof Hpool as (Hi & Hlen & Hgl & Hts & Hex).
  assert (Hi' : inv (mem c, g')) by exact (quiet_inv (mem c, g) _ Hi).
  apply (pool_event n k c g i t _ _ _ _ false); try done.
  - cbn [g' ticked with_calls gcalls]. by rewrite length_insert.
  - exact (quiet_guar i (mem c, g) (gbindings g) (c1, []) false Hi).
  - apply Hok; [done|]. unfold calling. cbn [snd g' ticked with_calls gcalls]. apply list_lookup_insert_eq. by eapply lookup_lt_Some.
  - by apply (explained_step n (noted (history c)) _ g g' i c0 c1 A []).
Qed.

(** A call begins, *)
Lemma pool_invoke n k c g i o p : pool n (S k) c g → olc_threads c !! i = Some Idle → int_op o = true → program o = Some p →
  ∃ g', clock g' = clock g + 1 ∧ pool n k (Config (mem c) (counters c) (<[i := Busy o p]> (olc_threads c)) ((i, Invoked o) :: history c)) g'.
Proof.
  intros Hpool Ht Ho Hp. pose proof (proj1 (proj2 (proj2 (proj2 Hpool))) i) as Hti. rewrite Ht in Hti.
  destruct Hti as (Hcall & Hl & _ & Hpr & _). eexists. split; [|apply (pool_call n k c g i Idle _ NoCall (Pending o) []); [done|done|exact Hcall|..]]; [done| |].
  - intros Hi' Hc. apply (program_ok i o p Ho Hp k _ Hi'). by split_and!.
  - intros cs c0 Hc Hcb. exists NoCall. split; [apply could_be_nocall|]. intros es0. rewrite noted_cons. cbn [is_lookup].
    destruct (hidden (Pending o)) eqn:Hh.
    + apply could_be_hidden in Hcb as ->; [|done]. unfold hidden in Hh. rewrite Hh, list_insert_id by done. by exists es0.
    + apply could_be_open in Hcb; [|done]. unfold hidden in Hh. rewrite Hh. intros Hes0.
      destruct Hcb as [->|(? & a & _ & Ha & _)]; [|by apply elem_of_nil in Ha].
      by apply (one_more n es0 _ cs (noted (history c)) i _ _ (AInvoke o) _ [Invoked o] Hc Hes0).
Qed.

(** or a scan. *)
Lemma pool_scan n k c g i s stops : pool n (S k) c g → olc_threads c !! i = Some Idle →
  ∃ g', clock g' = clock g + 1 ∧
    pool n k (Config (mem c) (counters c) (<[i := Scans s (scan_program s stops)]> (olc_threads c)) ((i, ScanInvoked s) :: history c)) g'.
Proof.
  intros Hpool Ht. pose proof (proj1 (proj2 (proj2 (proj2 Hpool))) i) as Hti. rewrite Ht in Hti.
  destruct Hti as (Hcall & Hl & _ & Hpr & _). eexists. split; [|apply (pool_call n k c g i Idle _ NoCall (Scanning s []) []); [done|done|exact Hcall|..]]; [done| |].
  - intros Hi' Hc. apply (scan_program_ok i s stops k _ Hi'). by split_and!.
  - intros cs c0 Hc Hcb. apply could_be_open in Hcb; [|apply andb_false_r]. destruct Hcb as (shown & -> & ->%sublist_nil_r & _).
    exists NoCall. split; [apply could_be_nocall|]. intros es0. rewrite noted_cons, andb_false_r. intros Hes0.
    by apply (one_more n es0 _ cs (noted (history c)) i _ _ (AScan s) _ [ScanInvoked s] Hc Hes0).
Qed.

(** The end of a program. *)
Lemma at_return {R} n k c g i (wrap : prog R → thread) reading Q p r : runs i wrap reading Q → pool n (S k) c g →
  olc_threads c !! i = Some (wrap p) → observe p = RetF r → Q r (mem c, g).
Proof.
  intros (Hok & _) Hpool Ht Hp. pose proof (proj1 (proj2 (proj2 (proj2 Hpool))) i) as Hti. rewrite Ht, Hok, safe_S in Hti.
  specialize (Hti _ (rtc_refl _ _)). unfold safe_now in Hti. rewrite Hp in Hti. apply Hti.
Qed.

(** What the atomic index did before a call ends. *)
Lemma answer_noted n g cs h i o r cst A : cs !! i = Some NoCall → is_found r = is_get o →
  cst = Answered r ∨ (cst = Pending o ∧ ((∃ a, r = Value a ∧ (traced o = true → a ∈ A)) ∨ ∃ e, r = Thrown e ∧ may_throw o = true)) →
  ∃ c2, could_be (cst, A) c2 ∧ ∀ es0, run atomic_step es0 (atomic_initial n) = Some (AtomicConfig (gbindings g) (<[i := c2]> cs) h) →
    ∃ es, run atomic_step es (atomic_initial n) = Some (AtomicConfig (gbindings g) cs (if negb strict && is_found r then h else (i, Returned r) :: h)).
Proof.
  intros Hc Hfound Hr. assert (Hh : hidden cst = negb strict && is_found r).
  { destruct Hr as [->|[-> _]]; [done|]. by rewrite Hfound. }
  destruct (negb strict && is_found r) eqn:Hs.
  { exists NoCall. split; [by apply could_be_hidden|]. intros es0. rewrite list_insert_id by done. by exists es0. }
  assert (Hret : ∀ es0, run atomic_step es0 (atomic_initial n) = Some (AtomicConfig (gbindings g) (<[i := Answered r]> cs) h) →
    ∃ es, run atomic_step es (atomic_initial n) = Some (AtomicConfig (gbindings g) cs ((i, Returned r) :: h))).
  { intros es0 Hes0. by apply (one_more n es0 _ cs h i _ _ AReturn _ [Returned r] Hc Hes0). }
  destruct Hr as [->|[-> [(a & -> & Ha)|(e & -> & Hm)]]].
  - exists (Answered r). split; [apply could_be_open; [done|by left]|done].
  - exists (Answered (Value a)). split; [apply could_be_open; [done|right; exists o, a]|done]. split; [done|]. split; [|done]. apply Ha.
    unfold traced. rewrite Hfound in Hs. by destruct strict, (is_get o).
  - exists (Pending o). split; [apply could_be_open; [done|by left]|]. intros es0 Hes0.
    assert (Hlt : (i < length cs)%nat) by by eapply lookup_lt_Some.
    destruct (one_more n es0 (gbindings g) (<[i := Answered (Thrown e)]> cs) h i (Answered (Thrown e)) (Pending o) (AThrow e) (gbindings g) []) as [es1 Hes1].
    + by apply list_lookup_insert_eq.
    + by rewrite list_insert_insert_eq.
    + cbn [call_step]. by rewrite Hm.
    + by apply (Hret es1).
Qed.

(** A call ends, *)
Lemma pool_return n k c g i o p r : pool n (S k) c g → olc_threads c !! i = Some (Busy o p) → observe p = RetF r →
  ∃ g', clock g' = clock g + 1 ∧ pool n k (Config (mem c) (counters c) (<[i := Idle]> (olc_threads c)) ((i, Returned r) :: history c)) g'.
Proof.
  intros Hpool Ht Hp. destruct (at_return n k c g i _ _ _ p r (busy_runs i o) Hpool Ht Hp) as [Hfound [A Hfin]].
  assert (Hst : ∃ cst, gcalls g !! i = Some (cst, A) ∧ locks i [] (mem c, g) ∧ privates i [] (mem c, g) ∧
    (cst = Answered r ∨ (cst = Pending o ∧ ((∃ a, r = Value a ∧ (traced o = true → a ∈ A)) ∨ ∃ e, r = Thrown e ∧ may_throw o = true)))).
  { destruct r as [a|e]; [destruct Hfin as [Hf|Hf]|]; (destruct Hfin as (? & ? & _ & ? & _ & ?) || destruct Hf as (? & ? & _ & ? & _ & ?)); eexists; (split; [done|]); (split; [done|]); (split; [done|]);
      [by left|right; split; [done|]; left; by eexists|right; split; [done|]; right; by eexists]. }
  destruct Hst as (cst & Hcall & Hl & Hpr & Hr).
  eexists. split; [|apply (pool_call n k c g i (Busy o p) _ cst NoCall A); [done|done|exact Hcall|..]]; [done| |].
  - intros _ Hc. by split_and!.
  - intros cs c0 Hc ->%could_be_none. rewrite noted_cons. cbn [is_lookup]. apply (answer_noted n g cs (noted (history c)) i o r cst A); try done.
Qed.

(** or a scan. *)
Lemma pool_scanned n k c g i s p shown : pool n (S k) c g → olc_threads c !! i = Some (Scans s p) → observe p = RetF shown →
  ∃ g', clock g' = clock g + 1 ∧ pool n k (Config (mem c) (counters c) (<[i := Idle]> (olc_threads c)) ((i, Scanned shown) :: history c)) g'.
Proof.
  intros Hpool Ht Hp. destruct (at_return n k c g i _ _ _ p shown (scans_runs i s) Hpool Ht Hp) as (notes & Hshow & Hcall & Hl & _ & Hpr & _).
  eexists. split; [|apply (pool_call n k c g i (Scans s p) _ (Scanning s notes) NoCall []); [done|done|exact Hcall|..]]; [done| |].
  - intros _ Hc. by split_and!.
  - intros cs c0 Hc ->%could_be_none. rewrite noted_cons, andb_false_r.
    exists (Scanning s shown). split; [apply could_be_open; [apply andb_false_r|by exists shown]|]. intros es0 Hes0.
    by apply (one_more n es0 _ cs (noted (history c)) i _ _ AScanned _ [Scanned shown] Hc Hes0).
Qed.

(** The events of the executions that are spoken of. *)
Definition allowed_event (e : nat * move) (c : config) : bool := int_calls e c && (negb strict || spares_lookups e c).

(** An access: it is defined, and the pool goes on. *)
Lemma pool_access {R} n k c g i (wrap : prog R → thread) reading Q p X (e : access X) (f : X → prog R) av : runs i wrap reading Q →
  pool n (S k) c g → clock g < 2 ^ 62 → olc_threads c !! i = Some (wrap p) → observe p = VisF e f → allowed_event (i, Step av) c = true →
  ∃ x s' g', perform av e (mem c) = Some (x, s') ∧ clock g' = clock g + 1 ∧
    pool n k (Config s' (counters c) (<[i := wrap (f x)]> (olc_threads c)) (history c)) g'.
Proof.
  intros (Hok & Hnext & _) Hpool Hclk Ht Hp Hcalm. pose proof Hpool as (Hi & Hlen & Hgl & Hts & Hex). pose proof (Hts i) as Hti.
  rewrite Ht, Hok, safe_S in Hti. specialize (Hti _ (rtc_refl _ _)). unfold safe_now in Hti. rewrite Hp in Hti.
  destruct (Hti Hclk av) as (x & s' & Hperf & g' & (Hi' & Hg & Hclk' & Hcall & _) & Hsafe). exists x, s', g'.
  split; [done|]. split; [done|]. apply (pool_event n k c g i (wrap p) _ _ _ _ (prepends e)); try done.
  - destruct Hcall as [[Hc _]|[(? & ? & _ & _ & Hc & _)|[(? & ? & _ & _ & Hc)|(? & ? & ? & ? & ? & _ & _ & Hc & _)]]]; cbn [snd] in Hc; rewrite Hc; by rewrite ?length_insert.
  - intros Hpre u Hu. apply andb_true_iff in Hcalm as [_ Hcalm]. destruct strict; [|done]. cbn [negb orb andb] in *.
    unfold spares_lookups in Hcalm. cbn [fst snd] in Hcalm. rewrite Ht, Hnext, Hp, Hpre in Hcalm.
    cbn [negb orb] in Hcalm. apply negb_true_iff in Hcalm. destruct (looking_up u) eqn:Hl; [|done].
    rewrite (proj2 (existsb_exists looking_up (olc_threads c))) in Hcalm; [done|]. exists u. split; [by apply list_elem_of_In|done].
  - by rewrite Hok.
  - by apply (explained_call n (noted (history c)) i (mem c, g) (s', g')).
Qed.

Lemma pool_tau {R} n k c g i (wrap : prog R → thread) reading Q p q : runs i wrap reading Q → pool n (S k) c g →
  olc_threads c !! i = Some (wrap p) → observe p = TauF q → pool n k (Config (mem c) (counters c) (<[i := wrap q]> (olc_threads c)) (history c)) g.
Proof.
  intros (Hok & _) Hpool Ht Hp. pose proof Hpool as (Hi & Hlen & Hgl & Hts & Hex). pose proof (Hts i) as Hti.
  rewrite Ht, Hok, safe_S in Hti. specialize (Hti _ (rtc_refl _ _)). unfold safe_now in Hti. rewrite Hp in Hti.
  split; [done|]. cbn [olc_threads history mem]. split; [by rewrite length_insert|]. split; [done|]. split; [|done].
  intros j. destruct (decide (j = i)) as [->|Hne].
  - rewrite list_lookup_insert_eq; [by rewrite Hok|]. by eapply lookup_lt_Some.
  - rewrite list_lookup_insert_ne by done. pose proof (Hts j) as Htj. destruct (olc_threads c !! j) as [[|o' p'|s' p']|]; [done|..|done];
      (eapply (safe_mono _ _ _ _ (S k)); [lia| |exact Htj]); done.
Qed.

(** ** The index at rest *)

Lemma rest_nothing n k c g i : pool n k c g → at_rest c → locks i [] (mem c, g) ∧ privates i [] (mem c, g).
Proof.
  intros (_ & _ & _ & Hts & _) Hrest. pose proof (Hts i) as Ht. destruct (olc_threads c !! i) as [t|] eqn:Hi; [|done].
  unfold at_rest in Hrest. rewrite Forall_forall in Hrest. rewrite (Hrest t) in Ht by by eapply list_elem_of_lookup_2.
  destruct Ht as (_ & ? & _ & ? & _). done.
Qed.

Lemma rest_quiet n k c g : pool n k c g → at_rest c → quiet (mem c, g).
Proof.
  intros Hpool Hrest. assert (Ho : ∀ l, owner g !! l = None).
  { intros l. destruct (owner g !! l) as [i|] eqn:Hl; [|done]. apply (rest_nothing _ _ _ _ i Hpool Hrest) in Hl. by apply elem_of_nil in Hl. }
  split; [done|]. split; cbn [snd].
  - intros a. destruct (private g !! a) as [i|] eqn:Ha; [|done]. apply (rest_nothing _ _ _ _ i Hpool Hrest) in Ha. by apply elem_of_nil in Ha.
  - intros l. destruct (pend g !! l) as [d|] eqn:Hl; [|done]. apply (i_pend _ (proj1 Hpool)) in Hl. cbn [snd] in Hl. rewrite Ho in Hl. by destruct Hl.
Qed.

Lemma idle_at_rest c : forallb is_idle (olc_threads c) = true ↔ at_rest c.
Proof.
  unfold at_rest. rewrite forallb_forall, Forall_forall. split; intros Hall t Ht.
  - apply list_elem_of_In in Ht. specialize (Hall t Ht). by destruct t.
  - apply list_elem_of_In in Ht. by rewrite (Hall t Ht).
Qed.

(** [clear] ends, and leaves the retired nodes. *)
Lemma clear_step_spec n k c g i : pool n k c g → at_rest c → ∃ q', counters_cleared (mem c) (counters c) q' ∧
  clear_step i c = Some (Config (cleared (mem c)) q' (olc_threads c) ((i, Returned (Value Done)) :: (i, Invoked OpClear) :: history c)).
Proof.
  intros Hpool Hrest. pose proof (rest_quiet _ _ _ _ Hpool Hrest) as Hq.
  destruct (clear_ends (mem c, g) (counters c) (proj1 Hpool) Hq) as (steps & q' & Hk & He & Hc). cbn [fst] in *. exists q'. split; [done|].
  unfold clear_step. rewrite (proj2 (idle_at_rest c) Hrest). by rewrite (ends_alone _ _ _ _ _ _ _ _ He Hk).
Qed.

Lemma clear_explained n h i g : length (gcalls g) = n → gcalls g !! i = Some (NoCall, []) → explained n (noted h) g →
  explained n (noted ((i, Returned (Value Done)) :: (i, Invoked OpClear) :: h)) (treeless g).
Proof.
  intros Hlen Hi Hex. rewrite !noted_cons. cbn [is_lookup is_found is_get]. rewrite !andb_false_r.
  apply (explained_step n (noted h) _ g _ i NoCall NoCall [] []); try done; [by rewrite list_insert_id|].
  intros cs c Hc ->%could_be_none. exists NoCall. split; [apply could_be_nocall|]. intros es0 Hes0.
  assert (Hlt : (i < length cs)%nat) by by eapply lookup_lt_Some.
  destruct (one_more n es0 (gbindings g) (<[i := Pending OpClear]> cs) (noted h) i (Pending OpClear) NoCall (AInvoke OpClear) (gbindings g) [Invoked OpClear])
    as [es1 H1]; [by apply list_lookup_insert_eq|by rewrite list_insert_insert_eq|done|].
  destruct (one_more n es1 (gbindings g) (<[i := Answered (Value Done)]> cs) _ i (Answered (Value Done)) (Pending OpClear) ATakeEffect ∅ [] ltac:(by apply list_lookup_insert_eq)
    ltac:(by rewrite list_insert_insert_eq) ltac:(done)) as [es2 H2].
  by apply (one_more n es2 ∅ cs _ i NoCall (Answered (Value Done)) AReturn ∅ [Returned (Value Done)] Hc).
Qed.

Lemma pool_clear n k c g i t c' : pool n (S k) c g → olc_threads c !! i = Some t → clear_step i c = Some c' → pool n k c' (treeless g).
Proof.
  intros Hpool Ht Hs. pose proof Hpool as (Hi & Hlen & Hgl & Hts & Hex).
  assert (Hrest : at_rest c) by (apply idle_at_rest; unfold clear_step in Hs; by destruct (forallb _ _)).
  destruct (clear_step_spec _ _ _ _ i Hpool Hrest) as (q' & _ & Hs'). rewrite Hs' in Hs. injection Hs as <-.
  assert (Hidle : ∀ j u, olc_threads c !! j = Some u → u = Idle).
  { intros j u Hu. unfold at_rest in Hrest. rewrite Forall_forall in Hrest. apply Hrest. by eapply list_elem_of_lookup_2. }
  split; [exact (cleared_inv (mem c, g) Hi (rest_quiet _ _ _ _ Hpool Hrest))|]. cbn [olc_threads history]. split; [done|]. split; [done|]. split.
  - intros j. specialize (Hts j). destruct (olc_threads c !! j) as [u|] eqn:Hu; [|exact Hts].
    rewrite (Hidle j u Hu) in *. destruct Hts as (Hc & Hl & _ & Hp & _). split_and!; [exact Hc|exact Hl|constructor|exact Hp|constructor|done].
  - apply clear_explained; [done| |done]. specialize (Hts i). rewrite Ht, (Hidle i t Ht) in Hts. apply Hts.
Qed.

(** ** A step *)

(** A step of a program. *)
Lemma pool_moves {R} n k c g i (wrap : prog R → thread) reading Q p av t' s' ls : runs i wrap reading Q → pool n (S k) c g → clock g < 2 ^ 62 →
  olc_threads c !! i = Some (wrap p) → allowed_event (i, Step av) c = true →
  match observe p with
  | RetF _ => None
  | TauF p' => Some (wrap p', mem c, [])
  | VisF e f => r ← perform av e (mem c); let '(x, s1) := r in Some (wrap (f x), s1, [])
  end = Some (t', s', ls) →
  ∃ g', pool n k (Config s' (counters c) (<[i := t']> (olc_threads c)) (((λ l, (i, l)) <$> ls) ++ history c)) g' ∧ clock g' ≤ clock g + 1.
Proof.
  intros Hr Hpool Hclk Ht Hcalm Hs. destruct (observe p) as [r|q|X e f] eqn:Hp; [done|..].
  - injection Hs as <- <- <-. exists g. split; [by eapply pool_tau|lia].
  - destruct (pool_access n k c g i wrap reading Q p X e f av Hr Hpool Hclk Ht Hp Hcalm) as (x & s1 & g' & Hperf & Hclk' & Hpool').
    rewrite Hperf in Hs. cbn [mbind option_bind] in Hs. injection Hs as <- <- <-. exists g'. split; [done|lia].
Qed.

Lemma pool_step n k c g e c' : pool n (S k) c g → clock g < 2 ^ 62 → allowed_event e c = true → olc_step e c = Some c' →
  ∃ g', pool n k c' g' ∧ clock g' ≤ clock g + 1.
Proof.
  intros Hpool Hclk Hcalm Hs. destruct e as [i m]. unfold olc_step in Hs. cbn [fst snd] in Hs.
  destruct (olc_threads c !! i) as [t|] eqn:Ht; [|done]. cbn [mbind option_bind] in Hs.
  destruct (is_clear m); [exists (treeless g); split; [by eapply pool_clear|cbn; lia]|].
  destruct (thread_step m t (mem c)) as [[[t' s'] ls]|] eqn:Hts; [|done]. cbn [mbind option_bind] in Hs. injection Hs as <-.
  assert (Hone : ∀ c', (∃ g', clock g' = clock g + 1 ∧ pool n k c' g') → ∃ g', pool n k c' g' ∧ clock g' ≤ clock g + 1).
  { intros c' (g' & ? & ?). exists g'. split; [done|lia]. }
  destruct m as [o|s stops|av|], t as [|o' p|s0 p]; try done; cbn [thread_step] in Hts.
  - destruct (program o) as [p|] eqn:Hp; [|done]. injection Hts as <- <- <-. apply andb_true_iff in Hcalm as [Hint _]. by apply Hone, pool_invoke.
  - injection Hts as <- <- <-. by apply Hone, pool_scan.
  - by apply (pool_moves n k c g i _ _ _ p av t' s' ls (busy_runs i o')).
  - by apply (pool_moves n k c g i _ _ _ p av t' s' ls (scans_runs i s0)).
  - destruct (observe p) as [r|q|X e f] eqn:Hp; [|done..]. injection Hts as <- <- <-. by eapply Hone, pool_return.
  - destruct (observe p) as [r|q|X e f] eqn:Hp; [|done..]. injection Hts as <- <- <-. by eapply Hone, pool_scanned.
Qed.

(** ** Executions *)

Definition ghost_initial (n : nat) : ghost := Ghost ∅ ∅ ∅ ∅ ∅ (replicate n (NoCall, [])) 0.

Lemma initial_inv n : inv (new_olc_db, ghost_initial n).
Proof.
  split; cbn [fst snd ghost_initial tree owner private pend gbindings clock].
  - split; try (intros *; rewrite lookup_empty; discriminate). by rewrite lookup_empty.
  - intros q p. by rewrite lookup_empty.
  - intros [|a] x; unfold word; cbn; [intros [= <-]; lia|]. by rewrite lookup_empty.
  - by rewrite lookup_empty.
  - intros a x. unfold word. cbn. by rewrite lookup_empty.
  - intros a n0. unfold inode_at. cbn. by rewrite lookup_empty.
  - intros a i. by rewrite lookup_empty.
  - intros l i. by rewrite lookup_empty.
  - intros l x. by rewrite lookup_empty.
  - intros a x q t l. by rewrite lookup_empty.
  - rewrite lookup_empty. by intros [].
  - split; [constructor|]. intros a Ha. by apply elem_of_nil in Ha.
  - intros a. cbn. rewrite lookup_empty. by intros [].
Qed.

Lemma initial_pool n k : pool n k (olc_initial n) (ghost_initial n).
Proof.
  split; [apply initial_inv|]. cbn [olc_initial ghost_initial mem olc_threads history gcalls]. rewrite !length_replicate.
  split; [done|]. split; [done|]. split.
  - intros i. assert (Hl : locks i [] (new_olc_db, ghost_initial n)).
    { intros l. cbn. rewrite lookup_empty, elem_of_nil. done. }
    assert (Hp : privates i [] (new_olc_db, ghost_initial n)).
    { intros l. cbn. rewrite lookup_empty, elem_of_nil. done. }
    destruct (replicate n Idle !! i) as [t|] eqn:Ht; [|done]. apply lookup_replicate in Ht as [-> Hlt].
    split_and!; try done. unfold calling. cbn. by apply lookup_replicate_2.
  - intros cs Hcs. exists []. cbn [run history]. replace (noted []) with (@nil (nat * label)) by (unfold noted; by destruct strict). unfold atomic_initial. do 2 f_equal.
    cbn [gcalls gbindings ghost_initial] in *. revert cs Hcs. induction n as [|n IH]; intros cs Hcs; inversion Hcs as [|? ? ? ? Hx Hcs']; subst; [done|].
    apply could_be_none in Hx as ->. cbn [replicate]. f_equal. by apply IH.
Qed.

(** What holds after every execution. *)
Lemma reachable_pool n es c k : run olc_step es (olc_initial n) = Some c → along olc_step allowed_event es (olc_initial n) = true →
  Z.of_nat (length es) < 2 ^ 62 → ∃ g, pool n k c g ∧ clock g ≤ Z.of_nat (length es).
Proof.
  intros Hrun Hcalm Hlen.
  enough (Hgen : ∀ es c0 g0, pool n (length es + k) c0 g0 → clock g0 + Z.of_nat (length es) < 2 ^ 62 → run olc_step es c0 = Some c →
    along olc_step allowed_event es c0 = true → ∃ g, pool n k c g ∧ clock g ≤ clock g0 + Z.of_nat (length es)).
  { destruct (Hgen es _ (ghost_initial n) (initial_pool n _)) as (g & ? & ?); [done..|]. by exists g. }
  clear. induction es as [|e es IH]; intros c0 g0 Hpool Hclk Hrun Hcalm; cbn [run along length] in *.
  - injection Hrun as ->. exists g0. split; [done|lia].
  - destruct (allowed_event e c0) eqn:He; [|done]. destruct (olc_step e c0) as [c1|] eqn:Hs; [|done]. cbn [andb] in Hcalm.
    destruct (pool_step n (length es + k) c0 g0 e c1) as (g1 & Hp1 & Hc1); [done|lia|done|done|].
    destruct (IH c1 g1 Hp1) as (g & ? & ?); [lia|done|done|]. exists g. split; [done|lia].
Qed.
End pool.

(** What holds after an execution with integer keys, and after a calm one. *)
Section reachable.
Context `{Target}.

Lemma allowed_ints es c : along olc_step int_calls es c = true → along olc_step (allowed_event false) es c = true.
Proof. apply along_mono. intros e c'. unfold allowed_event. by intros ->. Qed.

Lemma reachable_ints n es c k : run olc_step es (olc_initial n) = Some c → along olc_step int_calls es (olc_initial n) = true →
  Z.of_nat (length es) < 2 ^ 62 → ∃ g, pool false n k c g ∧ clock g ≤ Z.of_nat (length es).
Proof. intros Hrun Hints. apply reachable_pool; [done|by apply allowed_ints]. Qed.

Lemma reachable_calm n es c k : run olc_step es (olc_initial n) = Some c → along olc_step calm es (olc_initial n) = true →
  Z.of_nat (length es) < 2 ^ 62 → ∃ g, pool true n k c g ∧ clock g ≤ Z.of_nat (length es).
Proof. intros Hrun Hcalm. apply reachable_pool; [done|]. revert Hcalm. by apply along_mono. Qed.
End reachable.
