(* ===== verification/OlcCount.v ===== *)
(** The counters of the concurrent index: at every moment they lag behind the
    nodes in use by what the calls in flight have yet to count, so that they are
    exact when no call is in flight. *)

From stdpp Require Import functions.
From ITree Require Import ITree.
From S2P Require Import Prelude Words Threads ArtKey KeyPrefix SortedAssoc Simd InodeBase Heap Stats Leaf InodeSpec Inode Tree.
From S2P Require Import Db DbTrace OptimisticLock OlcState Olc OlcSystem OlcLogic OlcCounters OlcTree OlcInv OlcClear OlcPool.

Section count.
Context `{Target} (o : option node_type).

(** ** What the calls in flight owe *)

(** The thread owes [d], and settles it before its call ends. *)
Definition owes (k : nat) (t : thread) (d : Z) : Prop :=
  match t with
  | Idle => d = 0
  | Busy _ p => settles o k p (λ _ d', d' = 0) d
  | Scans _ p => settles o k p (λ _ d', d' = 0) d
  end.

Lemma owes_mono k m t d : (m ≤ k)%nat → owes k t d → owes m t d.
Proof. intros Hm. destruct t; [done|..]; by apply settles_mono. Qed.

Definition books (k : nat) (c : config) : Prop := ∃ ds, Forall2 (owes k) (olc_threads c) ds ∧
  tally (counters c) o = wrap64 (live_cost o (mem c) - sum ds).

Lemma sum_insert (ds : list Z) i d d' : ds !! i = Some d → sum (<[i := d']> ds) = sum ds - d + d'.
Proof.
  intros Hi. rewrite (insert_take_drop ds i d') by by eapply lookup_lt_Some.
  rewrite <- (take_drop_middle ds i d Hi) at 3. rewrite !sum_app. cbn [sum foldr]. unfold sum. lia.
Qed.

Lemma sum_zero (ds : list Z) : Forall (λ d, d = 0) ds → sum ds = 0.
Proof. induction 1 as [|d ds -> _ IH]; [done|]. cbn [sum foldr]. unfold sum in IH. lia. Qed.

(** ** One step *)

(** One thread goes on, with what it owes then. *)
Lemma books_event k c i t t' s' q' h x : olc_threads c !! i = Some t → books (S k) c →
  (∀ d, owes (S k) t d → ∃ y, owes k t' (d + x - y) ∧ live_cost o s' = live_cost o (mem c) + x ∧
     ∀ z, tally (counters c) o = wrap64 z → tally q' o = wrap64 (z + y)) →
  books k (Config s' q' (<[i := t']> (olc_threads c)) h).
Proof.
  intros Ht (ds & Hds & Hq) Hstep. destruct (Forall2_lookup_l _ _ _ i t Hds Ht) as (d & Hd & Ho).
  destruct (Hstep d Ho) as (y & Ho' & Hlive & Htally). exists (<[i := d + x - y]> ds). cbn [olc_threads counters mem]. split.
  - apply Forall2_insert; [|done]. eapply Forall2_impl; [exact Hds|]. intros u e. apply owes_mono. lia.
  - rewrite (Htally _ Hq), Hlive, (sum_insert ds i d _ Hd). f_equal. lia.
Qed.

(** A step of a program. *)
Lemma books_moves {R} k c i (wrap : prog R → thread) p av t' s' ls h :
  (∀ k p d, owes k (wrap p) d ↔ settles o k p (λ _ d', d' = 0) d) → mem_ok (mem c) → mem_ok s' →
  olc_threads c !! i = Some (wrap p) → books (S k) c →
  match observe p with
  | RetF _ => None
  | TauF p' => Some (wrap p', mem c, [])
  | VisF e f => r ← perform av e (mem c); let '(x, s1) := r in Some (wrap (f x), s1, [])
  end = Some (t', s', ls : list label) →
  books k (Config s' (next_counted p (counters c)) (<[i := t']> (olc_threads c)) h).
Proof.
  intros Hw Hok Hok' Ht Hb Hs. unfold next_counted. destruct (observe p) as [r|q|X e f] eqn:Hp; [done|..].
  - injection Hs as <- <- <-. eapply (books_event k c i (wrap p) _ _ _ _ 0); [done|done|]. intros d. rewrite Hw, settles_S.
    unfold settles_now. rewrite Hp. intros Hd. exists 0. rewrite Hw. replace (d + 0 - 0) with d by lia.
    split; [done|]. split; [lia|]. unfold id. intros z ->. f_equal. lia.
  - destruct (perform av e (mem c)) as [[x s1]|] eqn:He; [|done]. cbn [mbind option_bind] in Hs. injection Hs as <- <- <-.
    eapply (books_event k c i (wrap p) _ _ _ _ (moved o e x)); [done|done|]. intros d. rewrite Hw, settles_S.
    unfold settles_now. rewrite Hp. intros [Hc Hd]. specialize (Hd x). exists (moved o e x - due o e x). rewrite Hw.
    replace (d + moved o e x - (moved o e x - due o e x)) with (d + due o e x) by lia. split; [done|].
    split; [by eapply perform_costs|]. intros z Hz. unfold due.
    destruct e; cbn [counted]; try (unfold id; rewrite Hz; f_equal; cbn [moved]; lia).
    rewrite (count_one_tally _ _ o z Hc Hz). f_equal. cbn [moved]. lia.
Qed.

Lemma pool_mem_ok n k c g : pool false n k c g → mem_ok (mem c).
Proof.
  intros (Hi & _). destruct (i_retired _ Hi) as [Hnd Hret]. split; [exact Hnd|]. split; [|exact (i_fresh _ Hi)].
  intros a Ha%Hret. unfold word in Ha. cbn in Ha. destruct (nodes (mem c) !! a); [by eexists|done].
Qed.

Lemma rest_books k c : at_rest c → books k c → tally (counters c) o = wrap64 (live_cost o (mem c)).
Proof.
  intros Hrest (ds & Hds & ->). rewrite sum_zero; [by rewrite Z.sub_0_r|].
  apply Forall_forall. intros d [i Hd]%list_elem_of_lookup. destruct (Forall2_lookup_r _ _ _ i d Hds Hd) as (t & Ht & Ho).
  unfold at_rest in Hrest. rewrite Forall_forall in Hrest. by rewrite (Hrest t) in Ho by by eapply list_elem_of_lookup_2.
Qed.

Lemma books_clear n k c g i c' : pool false n (S k) c g → clear_step i c = Some c' → books (S k) c → books k c'.
Proof.
  intros Hpool Hs Hb. assert (Hrest : at_rest c) by (apply idle_at_rest; unfold clear_step in Hs; by destruct (forallb _ _)).
  destruct (clear_step_spec false _ _ _ _ i Hpool Hrest) as (q' & (Hzero & Hleaf & _) & Hs'). rewrite Hs' in Hs. injection Hs as <-.
  pose proof (rest_books _ c Hrest Hb) as Hq. destruct Hb as (ds & Hds & _).
  exists ds. cbn [olc_threads counters mem]. split; [eapply Forall2_impl; [exact Hds|]; intros u e; apply owes_mono; lia|].
  rewrite cleared_costs, sum_zero.
  - destruct (decide (o = Some LEAF)) as [->|Hne]; [|by apply Hzero]. rewrite (Hleaf _ Hq). f_equal. lia.
  - apply Forall_forall. intros d [j Hd]%list_elem_of_lookup. destruct (Forall2_lookup_r _ _ _ j d Hds Hd) as (t & Ht & Ho).
    unfold at_rest in Hrest. rewrite Forall_forall in Hrest. by rewrite (Hrest t) in Ho by by eapply list_elem_of_lookup_2.
Qed.

(** A new call owes nothing. *)
Lemma books_invoke k c i t' h : olc_threads c !! i = Some Idle → (∀ d, d = 0 → owes k t' d) → books (S k) c →
  books k (Config (mem c) (counters c) (<[i := t']> (olc_threads c)) h).
Proof.
  intros Ht Hn Hb. eapply (books_event k c i Idle t' _ _ h 0); [done|done|]. intros d ->. exists 0.
  split; [by apply Hn|]. split; [lia|]. intros z ->. f_equal. lia.
Qed.

(** Nor does one that has ended. *)
Lemma books_return {R} k c i (wrap : prog R → thread) p r h : (∀ k p d, owes k (wrap p) d ↔ settles o k p (λ _ d', d' = 0) d) →
  olc_threads c !! i = Some (wrap p) → observe p = RetF r → books (S k) c →
  books k (Config (mem c) (counters c) (<[i := Idle]> (olc_threads c)) h).
Proof.
  intros Hw Ht Hp Hb. eapply (books_event k c i (wrap p) Idle _ _ h 0); [done|done|]. intros d. rewrite Hw, settles_S.
  unfold settles_now. rewrite Hp. intros ->. exists 0. split; [done|]. split; [lia|]. intros z ->. f_equal. lia.
Qed.

Lemma books_step n k c g e c' g' : pool false n (S k) c g → pool false n k c' g' → olc_step e c = Some c' → books (S k) c → books k c'.
Proof.
  intros Hpool Hpool' Hs Hb. pose proof (pool_mem_ok _ _ _ _ Hpool) as Hok. pose proof (pool_mem_ok _ _ _ _ Hpool') as Hok'.
  destruct e as [i m]. unfold olc_step in Hs. cbn [fst snd] in Hs.
  destruct (olc_threads c !! i) as [t|] eqn:Ht; [|done]. cbn [mbind option_bind] in Hs.
  destruct (is_clear m); [by eapply books_clear|].
  destruct (thread_step m t (mem c)) as [[[t' s'] ls]|] eqn:Hts; [|done]. cbn [mbind option_bind] in Hs. injection Hs as <-.
  destruct m as [op|s stops|av|], t as [|op' p|s0 p]; try done; cbn [thread_step thread_counted] in *.
  - destruct (program op) as [p|] eqn:Hp; [|done]. injection Hts as <- <- <-. apply books_invoke; [done| |done].
    intros d ->. by apply (program_settled o op).
  - injection Hts as <- <- <-. apply books_invoke; [done| |done]. intros d ->. by apply (scan_settled o).
  - by eapply (books_moves k c i (Busy op')).
  - by eapply (books_moves k c i (Scans s0)).
  - destruct (observe p) as [r|q|X e f] eqn:Hp; [|done..]. injection Hts as <- <- <-. by eapply (books_return k c i (Busy op')).
  - destruct (observe p) as [r|q|X e f] eqn:Hp; [|done..]. injection Hts as <- <- <-. by eapply (books_return k c i (Scans s0)).
Qed.

(** ** Executions *)

Lemma initial_books n k : books k (olc_initial n).
Proof.
  exists (replicate n 0). cbn [olc_initial olc_threads counters mem]. split.
  - induction n as [|n IH]; constructor; [done|exact IH].
  - rewrite sum_zero by by apply Forall_replicate. by destruct o as [[]|].
Qed.

Lemma reachable_books n es c k : run olc_step es (olc_initial n) = Some c → along olc_step int_calls es (olc_initial n) = true →
  Z.of_nat (length es) < 2 ^ 62 → books k c.
Proof.
  intros Hrun Hints Hlen.
  enough (Hgen : ∀ es c0 g0, pool false n (length es + k) c0 g0 → clock g0 + Z.of_nat (length es) < 2 ^ 62 → run olc_step es c0 = Some c →
    along olc_step (allowed_event false) es c0 = true → books (length es + k) c0 → books k c).
  { apply (Hgen es (olc_initial n) (ghost_initial n)); [apply initial_pool|done|done|by apply allowed_ints|apply initial_books]. }
  clear. induction es as [|e es IH]; intros c0 g0 Hpool Hclk Hrun Hints Hb; cbn [run along length] in *.
  - by injection Hrun as ->.
  - destruct (allowed_event false e c0) eqn:He; [|done]. destruct (olc_step e c0) as [c1|] eqn:Hs; [|done]. cbn [andb] in Hints.
    destruct (pool_step false n (length es + k) c0 g0 e c1) as (g1 & Hp1 & Hc1); [done|lia|done|done|].
    apply (IH c1 g1 Hp1); [lia|done|done|]. by eapply books_step.
Qed.
End count.

(** ** The nodes that the root leads to *)

Lemma live_nodes `{Target} w : inv w → quiet w → ∃ L, NoDup L ∧ (∀ p, p ∈ L ↔ reachable w.1 p) ∧
  ∀ o, live_cost o w.1 = sum ((λ p, ptr_cost p o) <$> L).
Proof.
  intros Hi Hq. destruct (root_footprint w Hi Hq) as (A & Hnd & _ & Hin & _).
  assert (Hsum : ∀ o, spent A w.1 o = live_cost o w.1) by (intros o; by apply tree_spent).
  enough (Hgen : ∃ L, NoDup L ∧ (∀ p, p ∈ L ↔ ∃ a, a ∈ A ∧ ptr_addr p = Some a ∧ ∃ q, tree w.2 !! q = Some p) ∧
    ∀ o, spent A w.1 o = sum ((λ p, ptr_cost p o) <$> L)).
  { destruct Hgen as (L & HL & HinL & Hcost). exists L. split; [done|]. split; [|intros o; by rewrite <- Hsum]. intros p. rewrite HinL, (reachable_tree w p Hi Hq).
    split; [by intros (_ & _ & _ & Ht)|]. intros [q Ht]. assert (Ha : ∃ a, ptr_addr p = Some a).
    { pose proof (i_valid _ Hi _ _ Ht) as Hv. destruct p; [done|by eexists..]. }
    destruct Ha as [a Ha]. exists a. split; [apply Hin; by exists q, p|]. split; [done|by exists q]. }
  assert (Htree : ∀ a, a ∈ A → in_tree w a) by (intros a; apply Hin). clear Hin Hsum. induction A as [|a A IH].
  - exists []. split; [constructor|]. split; [|done]. intros p. split; [by intros ?%elem_of_nil|]. by intros (? & ?%elem_of_nil & _).
  - apply NoDup_cons in Hnd as [Ha Hnd]. destruct IH as (L & HL & Hin & Hcost); [done|intros b Hb; apply Htree; by right|].
    destruct (Htree a ltac:(by left)) as (q & p & Hqp & Hp). exists (p :: L). split_and!.
    + apply NoDup_cons. split; [|done]. intros (b & Hb & Hpb & _)%Hin. congruence.
    + intros p'. rewrite elem_of_cons, Hin. split.
      * intros [->|(b & Hb & ?)]; [exists a; split; [by left|]; split; [done|by exists q]|exists b; split; [by right|done]].
      * intros (b & [->|Hb]%elem_of_cons & Hpb & q' & Hq'); [left|right; exists b; split; [done|]; split; [done|by exists q']].
        assert (q' = q) as -> by (apply (t_inj _ _ _ _ (i_tree _ Hi) q' q p' p Hq' Hqp); congruence). rewrite Hqp in Hq'. by injection Hq'.
    + intros o. specialize (Hcost o). cbn [fmap list_fmap sum foldr spent]. unfold sum, spent in Hcost. rewrite Hcost. f_equal.
      destruct (in_tree_node w a Hi (Htree a ltac:(by left))) as [C HC]. rewrite HC. cbn.
      apply points_to_cost. eapply (valid_points_to w); [by eapply (i_valid _ Hi)|done..].
Qed.
