(* ===== verification/OlcTheorems.v ===== *)
(** What the index with optimistic lock coupling promises to the threads that use
    it: histories that an atomic index explains, defined accesses only, locks that
    nobody waits with, and memory that is either in the tree or retired. *)

From Stdlib Require Import Sorted.
From ITree Require Import ITree.
From S2P Require Import Prelude Words Threads ArtKey KeyPrefix SortedAssoc Simd InodeBase.
From S2P Require Import Heap Stats Leaf InodeSpec Inode Tree Db DbMap DbTrace ScanSpec OptimisticLock OlcState Olc OlcIter OlcSystem OlcLost OlcLogic OlcClear OlcCounters.
From S2P Require Import OlcTree OlcInv OlcFacts OlcSteps OlcClear OlcRules OlcUse OlcScan OlcWalk OlcSolo OlcPool OlcCount Samples.

(** ** When no call is in flight *)

Section rest.
Context `{Target}.

(** A write-locked word is that of a lock somebody has. *)
Lemma write_locked_owned w l x : inv w → word w l = Some x → is_write_locked x = true → owner w.2 !! l ≠ None.
Proof.
  intros Hi Hw Hx Ho. rewrite is_write_locked_spec in Hx. apply Z.testbit_true in Hx; [|lia]. change (2 ^ 1) with 2 in Hx.
  assert (x mod 4 = 0 ∨ x = 1) as [H4|H1].
  { destruct l as [|a].
    - left. pose proof (i_root _ Hi) as Hr. rewrite Ho in Hr. unfold word in Hw. cbn in Hw. congruence.
    - destruct (private w.2 !! a) as [i|] eqn:Hp.
      + left. destruct (i_private _ Hi a i Hp) as (_ & _ & Hz). rewrite Hw in Hz. by injection Hz as ->.
      + pose proof (i_node _ Hi a x Hw Hp) as Hn. unfold node_state in Hn. rewrite Ho in Hn. destruct Hn as [[? _]|(-> & _)]; [by left|by right]. }
  - pose proof (Z.div_mod x 4 ltac:(lia)) as Hd. rewrite H4, Z.add_0_r in Hd. rewrite Hd in Hx.
    replace (4 * (x / 4)) with ((2 * (x / 4)) * 2) in Hx by lia. rewrite Z.div_mul in Hx by lia. rewrite Z.mul_comm, Z.mod_mul in Hx by lia. done.
  - by rewrite H1 in Hx.
Qed.

(** A call that is at its end has no lock. *)
Lemma finished_nothing strict i o r w : finished strict i o r w → locks i [] w.
Proof. intros [_ [A Hf]]. destruct r; [destruct Hf as [Hf|Hf]|]; apply Hf. Qed.
End rest.

(** ** What a scan of the atomic index was shown *)

(** Each binding was there when the scan was shown it, and the scan wanted it. *)
Definition was_there (n : nat) (es : list (nat * atomic_move)) (i : nat) (shown : list binding) : Prop :=
  ∀ k v, (k, v) ∈ shown → ∃ es1 es2 a s earlier, es = es1 ++ (i, AShow k) :: es2 ∧
    run atomic_step es1 (atomic_initial n) = Some a ∧ calls a !! i = Some (Scanning s earlier) ∧
    bindings a !! k = Some v ∧ scan_wants s k = true.

Lemma was_there_more n es e i shown : was_there n es i shown → was_there n (es ++ [e]) i shown.
Proof.
  intros Hw k v Hin. destruct (Hw k v Hin) as (es1 & es2 & a & s & l & -> & ?). exists es1, (es2 ++ [e]), a, s, l.
  by rewrite <- app_assoc.
Qed.

Lemma scans_saw n es a : run atomic_step es (atomic_initial n) = Some a →
  (∀ i s shown, calls a !! i = Some (Scanning s shown) → was_there n es i shown) ∧
  (∀ i shown, (i, Scanned shown) ∈ atomic_history a → was_there n es i shown).
Proof.
  revert a. induction es as [|[j m] es IH] using rev_ind; intros a Hrun.
  { injection Hrun as <-. split; [intros i s shown [Hs _]%lookup_replicate; done|intros i shown Hin; by apply elem_of_nil in Hin]. }
  rewrite run_app in Hrun. destruct (run atomic_step es (atomic_initial n)) as [a0|] eqn:Hr0; [|done].
  cbn [run] in Hrun. destruct (atomic_step (j, m) a0) as [a1|] eqn:Hs; [|done]. injection Hrun as <-.
  destruct (IH a0 eq_refl) as [IHc IHh]. destruct (atomic_step_spec _ _ _ _ Hs) as (c & c' & ls & Hc & Hc' & Hcs & Hh).
  split.
  - intros i s shown Hi. rewrite Hc' in Hi. destruct (decide (i = j)) as [->|Hne].
    + rewrite list_lookup_insert_eq in Hi by by eapply lookup_lt_Some. injection Hi as ->.
      destruct m, c; try discriminate Hcs; cbn [call_step] in Hcs; try (destruct (may_throw o); [|discriminate Hcs]).
      all: try (injection Hcs as [=]; done).
      * injection Hcs as -> <- _ _. intros k v Hin. by apply elem_of_nil in Hin.
      * destruct (bindings a0 !! key) as [value|] eqn:Hb; [|done]. cbn [mbind option_bind] in Hcs.
        destruct (scan_wants s0 key) eqn:Hw; [|done]. injection Hcs as -> <- _ _.
        intros k v [Hin|[= -> ->]%list_elem_of_singleton]%elem_of_app; [exact (was_there_more n es _ j shown0 (IHc j s shown0 Hc) k v Hin)|].
        exists es, [], a0, s, shown0. by split_and!.
    + rewrite list_lookup_insert_ne in Hi by done. by eapply was_there_more, IHc.
  - intros i shown Hin. rewrite Hh in Hin. apply elem_of_app in Hin as [Hin|Hin]; [|by apply was_there_more, IHh].
    destruct m, c; try discriminate Hcs; cbn [call_step] in Hcs; try (destruct (may_throw o); [|discriminate Hcs]);
      try (destruct (bindings a0 !! key); [|done]; cbn [mbind option_bind] in Hcs; destruct (scan_wants s key); [|done]);
      injection Hcs as _ _ <-; cbn in Hin; try (by apply elem_of_nil in Hin);
      apply list_elem_of_singleton in Hin; try discriminate Hin.
    injection Hin as -> ->. by eapply was_there_more, IHc.
Qed.

(** ** An execution *)

(** Two threads call; the first goes ahead, then they step in turn until it has its
    answer, and then the second goes on alone. *)
Definition race_moves (m1 m2 : move) (ahead together alone : nat) : list (nat * move) :=
  [(0%nat, m1); (1%nat, m2)] ++ replicate ahead (0%nat, Step true) ++ concat (replicate together [(0%nat, Step true); (1%nat, Step true)]) ++
  (0%nat, Return) :: replicate alone (1%nat, Step true) ++ [(1%nat, Return)].

Definition race (o1 o2 : op) : nat → nat → nat → list (nat * move) := race_moves (Invoke o1) (Invoke o2).

(** Two first insertions, one of which has to start again; an insertion while a key
    is looked up; and a removal that merges two nodes while a third key goes in. *)
Definition olc_schedule : list (nat * move) :=
  race (OpInsert key_X [1]) (OpInsert key_Y [2]) 0 8 13 ++ race (OpInsert key_L [3]) (OpGet key_X) 4 19 19 ++
  race (OpRemove key_L) (OpInsert (IntKey 0x103) [4]) 10 17 14.

(** Then a scan while a key goes in. *)
Definition scan_schedule : list (nat * move) :=
  olc_schedule ++ race_moves (Invoke (OpInsert (IntKey 0x204) [7])) (InvokeScan (ScanRange 0x101 0x300) (λ _, false)) 0 23 71.

(** ** The theorems *)

(** The executions with integer keys: any number of threads, any interleaving and
    any allocation failures, with fewer steps than would make a version of a lock
    overflow. *)
Section theorems.
Context `{Target} (n : nat) (es : list (nat * move)) (c : config).
Context (Hrun : run olc_step es (olc_initial n) = Some c) (Hints : along olc_step int_calls es (olc_initial n) = true)
  (Hcalm : along olc_step calm es (olc_initial n) = true) (Hlen : Z.of_nat (length es) < 2 ^ 62).

(** The least that can be said of a call: for a scan, that it has shown nothing. *)
Definition least (strict : bool) (x : call_state * list answer) : call_state :=
  if hidden strict x.1 then NoCall else match x.1 with Scanning s _ => Scanning s [] | c => c end.

Lemma could_be_least strict x : could_be strict x (least strict x).
Proof.
  unfold least. destruct (hidden strict x.1) eqn:Hh; [by apply could_be_hidden|]. apply could_be_open; [done|].
  destruct x as [[|o|r|s notes] A]; try by left. exists []. split; [done|]. split; [apply sublist_nil_l|constructor].
Qed.

Lemma explained_history strict k g : pool strict n k c g →
  ∃ es' a, run atomic_step es' (atomic_initial n) = Some a ∧ atomic_history a = noted strict (history c).
Proof using.
  intros (_ & _ & _ & _ & Hex). destruct (Hex (least strict <$> gcalls g)) as [es' Hes'].
  - apply Forall2_fmap_r, Forall_Forall2_diag, Forall_forall. intros x _. apply could_be_least.
  - by exists es', (AtomicConfig (gbindings g) (least strict <$> gcalls g) (noted strict (history c))).
Qed.

(** C3: threads that insert, remove, look up integer keys and scan in any
    interleaving, and clear the index while no call is in flight, see an index whose
    every call takes effect at one moment between its invocation and its return, and
    whose scans show only bindings that are in the index at a moment of the scan and
    that lie before the end of its range, provided that no node gets a prefix put
    before its own while a lookup is in flight. *)
Theorem olc_linearizable : linearizable n (history c).
Proof using Hrun Hcalm Hlen.
  destruct (reachable_calm n es c 0 Hrun Hcalm Hlen) as (g & Hpool & _). exact (explained_history true 0 g Hpool).
Qed.

(** C5: in every execution with integer keys, what a scan shows was in the index: an
    atomic index with the same history, but for the lookups, had each binding that
    the caller's function was given at a moment when the scan was in progress, with
    a key before the end of the scan's range. *)
Theorem olc_scan_shows_present i shown : (i, Scanned shown) ∈ history c →
  ∃ es' a, run atomic_step es' (atomic_initial n) = Some a ∧ atomic_history a = without_lookups (history c) ∧ was_there n es' i shown.
Proof using Hrun Hints Hlen.
  intros Hin. destruct (reachable_ints n es c 0 Hrun Hints Hlen) as (g & Hpool & _).
  destruct (explained_history false 0 g Hpool) as (es' & a & Hrun' & Hh). exists es', a. split; [done|]. split; [done|].
  apply (scans_saw n es' a Hrun'). rewrite Hh. by apply list_elem_of_filter.
Qed.

(** What a program in the middle of a call does next. *)
Lemma next_access {R} k i (wrap : prog R → thread) reading Q p g : runs false i wrap reading Q → olc_threads c !! i = Some (wrap p) →
  pool false n (S k) c g → clock g < 2 ^ 62 →
  match observe p with
  | RetF r => Q r (mem c, g)
  | TauF _ => True
  | VisF e f => (waits e = true → ∀ l, owner g !! l ≠ Some i) ∧ ∀ available, is_Some (perform available e (mem c))
  end.
Proof using.
  intros (Hok & _) Ht (_ & _ & _ & Hts & _) Hclk. specialize (Hts i). rewrite Ht, Hok, safe_S in Hts.
  specialize (Hts _ (rtc_refl _ _)). unfold safe_now in Hts. destruct (observe p) as [r|q|X e f]; [apply Hts|done|].
  assert (Hlive : live (mem c, g)) by exact Hclk. split.
  - destruct (Hts Hlive true) as (y & s' & _ & g' & (_ & _ & _ & _ & Hw) & _). exact Hw.
  - intros av. destruct (Hts Hlive av) as (y & s' & Hp & _). by exists (y, s').
Qed.

(** C4: in every execution with integer keys, no call and no scan ever reads or
    writes a node that is not there, or is of another kind, or a slot it does not have, or a key past its end: one that has
    not ended can make its next step, whatever the allocator answers. *)
Theorem olc_never_stuck i t available : olc_threads c !! i = Some t → t ≠ Idle →
  is_Some (olc_step (i, Step available) c) ∨ is_Some (olc_step (i, Return) c).
Proof using Hrun Hints Hlen.
  intros Ht Hbusy. destruct (reachable_ints n es c 1 Hrun Hints Hlen) as (g & Hpool & Hclk).
  unfold olc_step. cbn [fst snd]. rewrite Ht. cbn [mbind option_bind]. destruct t as [|o p|s p]; [done|..]; cbn [thread_step].
  - pose proof (next_access 0 i _ _ _ p g (busy_runs false i o) Ht Hpool ltac:(lia)) as Hn.
    destruct (observe p) as [r|q|X e f]; [by right; eexists|by left; eexists|left].
    destruct (proj2 Hn available) as [[y s'] Hy]. rewrite Hy. by eexists.
  - pose proof (next_access 0 i _ _ _ p g (scans_runs false i s) Ht Hpool ltac:(lia)) as Hn.
    destruct (observe p) as [r|q|X e f]; [by right; eexists|by left; eexists|left].
    destruct (proj2 Hn available) as [[y s'] Hy]. rewrite Hy. by eexists.
Qed.

(** C11: in every execution with integer keys, the threads do not wait for each other: while a lock is write-locked, there
    is a call that can make its next step and that step is not the attempt to
    read-lock with which threads wait. *)
Theorem olc_no_deadlock l x : lock_word (mem c) l = Some x → is_write_locked x = true →
  ∃ i t, olc_threads c !! i = Some t ∧ next_is (@waits) t = false ∧ ∀ available, is_Some (olc_step (i, Step available) c).
Proof using Hrun Hints Hlen.
  intros Hl Hx. destruct (reachable_ints n es c 1 Hrun Hints Hlen) as (g & Hpool & Hclk).
  pose proof Hpool as (Hi & _ & _ & Hts & _).
  destruct (owner g !! l) as [i|] eqn:Ho; [|by destruct (write_locked_owned (mem c, g) l x)].
  assert (Hnone : locks i [] (mem c, g) → False) by (intros Hk; apply Hk in Ho; by apply elem_of_nil in Ho).
  assert (Hgo : ∀ R (wrap : prog R → thread) reading Q p, runs false i wrap reading Q → olc_threads c !! i = Some (wrap p) →
    (∀ r w, Q r w → locks i [] w) →
    next_is (@waits) (wrap p) = false ∧ ∀ available, ∃ y, match observe p with
      | RetF _ => None | TauF q => Some (wrap q, mem c, []) | VisF e f => r ← perform available e (mem c); let '(x, s1) := r in Some (wrap (f x), s1, [])
      end = Some (y : thread * shared * list label)).
  { intros R wrap reading Q p Hr Ht HQ. pose proof (next_access 0 i wrap reading Q p g Hr Ht Hpool ltac:(lia)) as Hn.
    rewrite (proj1 (proj2 Hr)). destruct (observe p) as [r|q|X e f].
    - by destruct Hnone; apply HQ in Hn.
    - by split; [|eexists].
    - destruct Hn as [Hw Hp]. split; [destruct (waits e); [by destruct (Hw eq_refl l)|done]|].
      intros av. destruct (Hp av) as [[y s'] Hy]. rewrite Hy. by eexists. }
  exists i. specialize (Hts i). unfold olc_step. cbn [fst snd]. destruct (olc_threads c !! i) as [[|o p|s p]|] eqn:Ht.
  - by destruct Hnone; apply Hts.
  - destruct (Hgo _ _ _ _ p (busy_runs false i o) eq_refl (finished_nothing false i o)) as [H1 H2]. exists (Busy o p). split; [done|]. split; [done|].
    intros av. destruct (H2 av) as [[[t' s'] ls] Hy]. cbn [mbind option_bind thread_step]. rewrite Hy. by eexists.
  - destruct (Hgo _ _ _ _ p (scans_runs false i s) eq_refl) as [H1 H2]; [by intros r w (? & _ & _ & ? & _)|].
    exists (Scans s p). split; [done|]. split; [done|].
    intros av. destruct (H2 av) as [[[t' s'] ls] Hy]. cbn [mbind option_bind thread_step]. rewrite Hy. by eexists.
  - by destruct Hnone; apply Hts.
Qed.

(** C6: in every execution with integer keys, nodes are handed to the reclamation once, obsolete and with their lock, and
    when no call is in flight every node is either retired or in the tree: none
    leaks, and none that can be reached from the root is retired. *)
Theorem olc_memory : NoDup (retired (mem c)) ∧ (∀ a, a ∈ retired (mem c) → lock_word (mem c) (NodeLock a) = Some 1) ∧
  (at_rest c → ∀ a, is_Some (nodes (mem c) !! a) →
    (a ∈ retired (mem c) ∧ ∀ p, reachable (mem c) p → ptr_addr p ≠ Some a) ∨
    (a ∉ retired (mem c) ∧ ∃ p, reachable (mem c) p ∧ ptr_addr p = Some a)).
Proof using Hrun Hints Hlen.
  destruct (reachable_ints n es c 0 Hrun Hints Hlen) as (g & Hpool & _). pose proof (proj1 Hpool) as Hi.
  destruct (i_retired _ Hi) as [Hnd Hret]. split; [exact Hnd|]. split; [exact Hret|]. intros Hrest a [[x C] Ha].
  pose proof (rest_quiet _ _ _ _ _ Hpool Hrest) as Hquiet. pose proof Hquiet as (Ho & Hpr & Hpe). assert (Hw : word (mem c, g) (NodeLock a) = Some x) by (unfold word; cbn; by rewrite Ha).
  pose proof (i_node _ Hi a x Hw (Hpr a)) as Hn. unfold node_state in Hn. cbn [snd] in Hn. rewrite Ho in Hn.
  assert (Htree : ∀ p, reachable (mem c) p ↔ ∃ q, tree g !! q = Some p) by (intros p; by apply (reachable_tree (mem c, g))).
  destruct Hn as [[Hx (q & p & Hq & Hp)]|(-> & Hno & Hr)]; [right|left].
  - split; [|exists p; split; [apply Htree; by exists q|done]]. intros Hr%Hret. cbn [fst] in Hr. unfold word in *. rewrite Hr in Hw. by injection Hw as <-.
  - split; [done|]. intros p [q Hq]%Htree Hp. apply Hno. by exists q, p.
Qed.

(** C13: in every execution with integer keys, when no call is in flight, every pointer that the root leads to is tagged
    with what it points to: a leaf with a key of eight bytes, or an internal node of
    that type, well-formed, with an unlocked lock. *)
Theorem olc_pointers_typed : at_rest c → ∀ p, reachable (mem c) p →
  match p with
  | PNull => False
  | PLeaf a l => contents_at (mem c) a = Some (LeafC l) ∧ length (leaf_get_key_view l) = 8%nat
  | PInode a t => ∃ nd, inode_at (mem c) a = Some nd ∧ type nd = t ∧ node_wf nd
  end ∧ ∃ a x, ptr_addr p = Some a ∧ lock_word (mem c) (NodeLock a) = Some x ∧ is_free x = true.
Proof using Hrun Hints Hlen.
  intros Hrest p Hp. destruct (reachable_ints n es c 0 Hrun Hints Hlen) as (g & Hpool & _). pose proof (proj1 Hpool) as Hi.
  pose proof (rest_quiet _ _ _ _ _ Hpool Hrest) as Hquiet. pose proof Hquiet as (Ho & Hpr & Hpe).
  destruct (proj1 (reachable_tree (mem c, g) p Hi Hquiet) Hp) as [q Hq]. pose proof (i_valid _ Hi q p Hq) as Hv.
  assert (Ha : ∃ a, ptr_addr p = Some a) by (destruct p; [done|by eexists..]). destruct Ha as [a Ha]. split.
  - destruct p as [|b l|b t]; [done|..].
    + destruct (t_leaf _ _ _ _ (i_tree _ Hi) q b l Hq) as (k & v & Hl & Hk & _). split; [apply Hv|]. by rewrite (leaf_holds_key _ _ _ Hl).
    + destruct Hv as (_ & nd & Hnd & Ht). exists nd. split_and!; [done|done|]. by apply (i_wf _ Hi b nd).
  - destruct (valid_contents _ _ _ Hv Ha) as (_ & [[x C] Hx] & _). exists a, x. split; [done|]. cbn in Hx.
    assert (Hw : word (mem c, g) (NodeLock a) = Some x) by (unfold word; cbn; by rewrite Hx). split; [exact Hw|].
    pose proof (i_node _ Hi a x Hw (Hpr a)) as Hn. unfold node_state in Hn. cbn [snd] in Hn. rewrite Ho in Hn.
    destruct Hn as [[H4 _]|(_ & Hno & _)]; [by apply is_free_spec|]. by destruct Hno; exists q, p.
Qed.

(** C12: in every execution with integer keys, when no call is in flight, the leaves
    that the root leads to are the bindings that an atomic index has whose history is
    the same but for the lookups: those are left out, since they can miss what is
    there. *)
Theorem olc_content : at_rest c → ∃ es' b, run atomic_step es' (atomic_initial n) = Some (AtomicConfig b (replicate n NoCall) (without_lookups (history c))) ∧
  ∀ k v, b !! k = Some v ↔ ∃ a l, reachable (mem c) (PLeaf a l) ∧ leaf_holds l k v.
Proof using Hrun Hints Hlen.
  intros Hrest. destruct (reachable_ints n es c 0 Hrun Hints Hlen) as (g & Hpool & _). pose proof Hpool as (Hi & Htl & Hgl & Hts & Hex).
  pose proof (rest_quiet _ _ _ _ _ Hpool Hrest) as Hquiet. pose proof Hquiet as (Ho & Hpr & Hpe).
  destruct (Hex (replicate n NoCall)) as [es' Hes'].
  { apply Forall2_same_length_lookup_2; [by rewrite length_replicate|]. intros i y z Hy [-> Hlt]%lookup_replicate.
    specialize (Hts i). destruct (lookup_lt_is_Some_2 (olc_threads c) i) as [t Ht]; [lia|]. rewrite Ht in Hts.
    unfold at_rest in Hrest. rewrite Forall_forall in Hrest. rewrite (Hrest t) in Hts by by eapply list_elem_of_lookup_2.
    destruct Hts as [Hc _]. unfold calling in Hc. cbn [snd] in Hc. rewrite Hy in Hc. injection Hc as ->. apply could_be_nocall. }
  exists es', (gbindings g). split; [done|]. intros k v. by apply (quiet_binding (mem c, g)).
Qed.

(** C7: in every execution with integer keys, when no call is in flight, the counters are exact: the memory use is the size
    of the nodes that the root leads to, each counted once, and the count of each
    node type is the number of such nodes of that type; in 64 bits. *)
Theorem olc_statistics_exact : at_rest c → ∃ L, NoDup L ∧ (∀ p, p ∈ L ↔ reachable (mem c) p) ∧
  tally_is (counters c) (λ o, sum ((λ p, ptr_cost p o) <$> L)).
Proof using Hrun Hints Hlen.
  intros Hrest. destruct (reachable_ints n es c 0 Hrun Hints Hlen) as (g & Hpool & _).
  destruct (live_nodes (mem c, g) (proj1 Hpool) (rest_quiet _ _ _ _ _ Hpool Hrest)) as (L & Hnd & Hin & Hcost).
  exists L. split; [done|]. split; [exact Hin|]. intros o. cbn [fst] in Hcost. rewrite <- Hcost.
  apply (rest_books o 0 c Hrest). by apply (reachable_books o n es c 0).
Qed.

(** C8: in every execution with integer keys, when no call is in flight, [clear] and the destructor end, having released
    every node that the root leads to, once, and no other: what is left are the nodes
    that the reclamation has yet to free.  Afterwards nothing is counted in use; the
    counts of growth, shrinking and prefix splits stay. *)
Theorem olc_clear_releases i t : at_rest c → olc_threads c !! i = Some t →
  let left a := if decide (a ∈ retired (mem c)) then nodes (mem c) !! a else None in
  (∃ c', olc_step (i, Invoke OpClear) c = Some c' ∧ root (mem c') = PNull ∧ (∀ a, nodes (mem c') !! a = left a) ∧
     (∀ o, tally (counters c') o = 0) ∧ growing_inode_counts (counters c') = growing_inode_counts (counters c) ∧
     shrinking_inode_counts (counters c') = shrinking_inode_counts (counters c) ∧ key_prefix_splits (counters c') = key_prefix_splits (counters c)) ∧
  ∃ s q, alone (clear_steps (mem c)) (olc_destroy (clear_fuel (mem c))) (mem c) (counters c) = Some (tt, s, q) ∧
    (∀ a, nodes s !! a = left a) ∧ ∀ o, tally q o = 0.
Proof using Hrun Hints Hlen.
  intros Hrest Ht left. destruct (reachable_ints n es c 0 Hrun Hints Hlen) as (g & Hpool & _).
  assert (Hexact : ∀ o, tally (counters c) o = wrap64 (live_cost o (mem c))).
  { intros o. apply (rest_books o 0 c Hrest). by apply (reachable_books o n es c 0). }
  split.
  - destruct (clear_step_spec false _ _ _ _ i Hpool Hrest) as (q & (Hzero & Hleaf & Hgrow) & Hs). eexists.
    split; [unfold olc_step; cbn [fst snd]; rewrite Ht; exact Hs|]. cbn [mem counters]. split; [done|]. split; [exact (cleared_lookup (mem c))|].
    split; [|exact Hgrow]. intros o. destruct (decide (o = Some LEAF)) as [->|Hne]; [|by apply Hzero].
    rewrite (Hleaf _ (Hexact _)). by rewrite Z.sub_diag.
  - destruct (root_deletes (mem c, g) (counters c) (proj1 Hpool) (rest_quiet _ _ _ _ _ Hpool Hrest)) as (s & k & q & Hk & He & (Hd & _) & Hst).
    cbn [fst] in *. exists s, q. split; [apply (ends_alone k); [exact He|unfold clear_steps, clear_fuel in *; lia]|]. split.
    + intros a. change (nodes s) with (nodes (rootless s)). rewrite Hst. apply cleared_lookup.
    + intros o. rewrite (Hd o _ (Hexact o)). by rewrite Z.sub_diag.
Qed.

(** C10: in every execution with integer keys, when no call is in flight, a lookup of an integer key that no other thread
    disturbs ends, with the value of the leaf that the root leads to under the key,
    or with none when there is no such leaf, and changes nothing. *)
Theorem olc_get_alone k : at_rest c → int_key k = true → ∃ fuel r,
  alone fuel (olc_get k) (mem c) (counters c) = Some (r, mem c, counters c) ∧
  ∀ v, r = Some v ↔ ∃ a l, reachable (mem c) (PLeaf a l) ∧ leaf_holds l (key_bytes k) v.
Proof using Hrun Hints Hlen.
  intros Hrest Hk. destruct (reachable_ints n es c 0 Hrun Hints Hlen) as (g & Hpool & _). pose proof (rest_quiet _ _ _ _ _ Hpool Hrest) as Hq.
  destruct (int_key_of k Hk) as (z & Hz & Hr). assert (Hb : key_bytes k = int_bytes z) by (unfold key_bytes; by rewrite Hz).
  destruct (returns_alone _ _ _ (counters c) (quiet_get (mem c, g) z (proj1 Hpool) Hq Hr)) as [fuel Hf].
  exists fuel, (gbindings g !! int_bytes z). unfold olc_get. rewrite Hz. split; [exact Hf|]. intros v. rewrite Hb.
  apply (quiet_binding (mem c, g) _ v (proj1 Hpool) Hq).
Qed.

(** C9: in every execution with integer keys, when no call is in flight, a scan of the whole index that no other thread
    disturbs ends, having shown to the caller's function the bindings of the leaves
    that the root leads to, each once, in the order of their keys or its reverse,
    until asked to stop, and changes nothing. *)
Theorem olc_scan_alone fwd : at_rest c → ∃ kvs, StronglySorted (ahead fwd) kvs ∧
  (∀ e, e ∈ kvs ↔ ∃ a l, reachable (mem c) (PLeaf a l) ∧ leaf_holds l e.1 e.2) ∧
  ∀ F (fn : list Z → list Z → F → bool * F) f, ∃ fuel,
    alone fuel (scan true fn fwd f) (mem c) (counters c) = Some (visit fn kvs f, mem c, counters c).
Proof using Hrun Hints Hlen.
  intros Hrest. destruct (reachable_ints n es c 0 Hrun Hints Hlen) as (g & Hpool & _).
  destruct (quiet_scan fwd (mem c, g) (proj1 Hpool) (rest_quiet _ _ _ _ _ Hpool Hrest)) as (kvs & Hs & Hin & Hret).
  exists kvs. split; [exact Hs|]. split; [exact Hin|]. intros F fn f. by apply returns_alone.
Qed.
End theorems.

(** ** The theorems at that execution *)

(** The part of the execution in which the first insertion has the root locked and
    the second is about to try to. *)
Definition olc_locked : list (nat * move) := take 13 olc_schedule.

(** The execution ends with three keys under one node of four. *)
Lemma olc_schedule_runs : ∃ c, run (@olc_step sse) olc_schedule (olc_initial 2) = Some c ∧ at_rest c ∧ retired (mem c) = [4%nat; 3%nat] ∧
  root (mem c) ≠ PNull ∧ (tally (counters c) <$> [None; Some LEAF; Some I4; Some I16]) = [152; 3; 1; 0] ∧ length (olc_threads c) = 2%nat.
Proof.
  assert (Hc : match run (@olc_step sse) olc_schedule (olc_initial 2) with
    | Some c => forallb is_idle (olc_threads c) && bool_decide (retired (mem c) = [4%nat; 3%nat] ∧ root (mem c) ≠ PNull ∧
        (tally (counters c) <$> [None; Some LEAF; Some I4; Some I16]) = [152; 3; 1; 0] ∧ length (olc_threads c) = 2%nat)
    | None => false end = true) by (vm_compute; reflexivity).
  destruct (run (@olc_step sse) olc_schedule (olc_initial 2)) as [c|]; [|done]. apply andb_prop in Hc as [H1 H2%bool_decide_eq_true].
  exists c. split; [done|]. by split; [apply idle_at_rest|].
Qed.

Lemma olc_locked_runs : ∃ c o p, run (@olc_step sse) olc_locked (olc_initial 2) = Some c ∧ lock_word (mem c) RootLock = Some 2 ∧
  olc_threads c !! 1%nat = Some (Busy o p).
Proof.
  assert (Hc : match run (@olc_step sse) olc_locked (olc_initial 2) with
    | Some c => (root_pointer_lock (mem c) =? 2) && match olc_threads c !! 1%nat with Some (Busy _ _) => true | _ => false end | None => false end = true)
    by (vm_compute; reflexivity).
  destruct (run (@olc_step sse) olc_locked (olc_initial 2)) as [c|]; [|done]. apply andb_prop in Hc as [H1%Z.eqb_eq H2].
  destruct (olc_threads c !! 1%nat) as [[|o p|]|] eqn:Ht; try done. exists c, o, p. split; [done|]. split; [|done]. cbn. by rewrite H1.
Qed.

Lemma olc_linearizable_witness :
  (history <$> run (@olc_step sse) olc_schedule (olc_initial 2)) = Some
    [(1%nat, Returned (Value (Bool true))); (0%nat, Returned (Value (Bool true)));
     (1%nat, Invoked (OpInsert (IntKey 0x103) [4])); (0%nat, Invoked (OpRemove key_L));
     (1%nat, Returned (Value (Found (Some [1])))); (0%nat, Returned (Value (Bool true)));
     (1%nat, Invoked (OpGet key_X)); (0%nat, Invoked (OpInsert key_L [3]));
     (1%nat, Returned (Value (Bool true))); (0%nat, Returned (Value (Bool true)));
     (1%nat, Invoked (OpInsert key_Y [2])); (0%nat, Invoked (OpInsert key_X [1]))] ∧
  ∃ c, run (@olc_step sse) olc_schedule (olc_initial 2) = Some c ∧ linearizable 2 (history c).
Proof.
  split; [vm_compute; reflexivity|]. destruct olc_schedule_runs as (c & Hrun & _). exists c. split; [done|].
  apply (olc_linearizable 2 olc_schedule c Hrun); vm_compute; reflexivity.
Defined.

Lemma olc_never_stuck_witness : ∃ c, run (@olc_step sse) olc_locked (olc_initial 2) = Some c ∧
  (is_Some (@olc_step sse (1%nat, Step false) c) ∨ is_Some (@olc_step sse (1%nat, Return) c)).
Proof.
  destruct olc_locked_runs as (c & o & p & Hrun & _ & Ht). exists c. split; [done|].
  apply (olc_never_stuck 2 olc_locked c Hrun ltac:(vm_compute; reflexivity) ltac:(vm_compute; reflexivity) 1%nat (Busy o p) false Ht ltac:(done)).
Defined.

Lemma olc_no_deadlock_witness : ∃ c, run (@olc_step sse) olc_locked (olc_initial 2) = Some c ∧ is_write_locked 2 = true ∧
  ∃ i t, olc_threads c !! i = Some t ∧ next_is (@waits) t = false ∧ ∀ available, is_Some (@olc_step sse (i, Step available) c).
Proof.
  destruct olc_locked_runs as (c & o & p & Hrun & Hl & _). exists c. split; [done|]. split; [reflexivity|].
  apply (olc_no_deadlock 2 olc_locked c Hrun ltac:(vm_compute; reflexivity) ltac:(vm_compute; reflexivity) RootLock 2 Hl). reflexivity.
Defined.

Lemma olc_memory_witness : ∃ c, run (@olc_step sse) olc_schedule (olc_initial 2) = Some c ∧ at_rest c ∧ retired (mem c) = [4%nat; 3%nat] ∧
  NoDup (retired (mem c)).
Proof.
  destruct olc_schedule_runs as (c & Hrun & Hrest & Hret & _). exists c. split; [done|]. split; [done|]. split; [done|].
  apply (olc_memory 2 olc_schedule c Hrun); vm_compute; reflexivity.
Defined.

Lemma olc_pointers_typed_witness : ∃ c, run (@olc_step sse) olc_schedule (olc_initial 2) = Some c ∧ at_rest c ∧
  root (mem c) ≠ PNull ∧ ∃ a x, ptr_addr (root (mem c)) = Some a ∧ lock_word (mem c) (NodeLock a) = Some x ∧ is_free x = true.
Proof.
  destruct olc_schedule_runs as (c & Hrun & Hrest & _ & Hroot & _ & Hlen). exists c. split; [done|]. split; [done|]. split; [done|].
  apply (olc_pointers_typed 2 olc_schedule c Hrun ltac:(vm_compute; reflexivity) ltac:(vm_compute; reflexivity) Hrest _ (reach_root _ Hroot)).
Defined.

(** The execution in which a lookup misses a key ends with no call in flight. *)
Lemma lost_get_rests : ∃ c, run (@olc_step sse) lost_get (olc_initial 2) = Some c ∧ at_rest c.
Proof.
  assert (Hc : match run (@olc_step sse) lost_get (olc_initial 2) with Some c => forallb is_idle (olc_threads c) | None => false end = true)
    by (vm_compute; reflexivity).
  destruct (run (@olc_step sse) lost_get (olc_initial 2)) as [c|]; [|done]. exists c. split; [done|]. by apply idle_at_rest.
Qed.

(** There, as elsewhere, the leaves are those of an atomic index. *)
Lemma olc_content_witness : ∃ c, run (@olc_step sse) lost_get (olc_initial 2) = Some c ∧
  ∃ es' b, run atomic_step es' (atomic_initial 2) = Some (AtomicConfig b (replicate 2 NoCall) (without_lookups (history c))) ∧
  ∀ k v, b !! k = Some v ↔ ∃ a l, @reachable sse (mem c) (PLeaf a l) ∧ leaf_holds l k v.
Proof.
  destruct lost_get_rests as (c & Hrun & Hrest). exists c. split; [done|].
  apply (olc_content 2 lost_get c Hrun); [vm_compute; reflexivity|vm_compute; reflexivity|exact Hrest].
Defined.

Lemma scan_schedule_runs : ∃ c, run (@olc_step sse) scan_schedule (olc_initial 2) = Some c ∧
  head (history c) = Some (1%nat, Scanned [(key_bytes key_X, [1]); (key_bytes key_Y, [2]); (key_bytes (IntKey 0x103), [4]); (key_bytes (IntKey 0x204), [7])]).
Proof.
  assert (Hc : match run (@olc_step sse) scan_schedule (olc_initial 2) with
    | Some c => bool_decide (head (history c) = Some (1%nat, Scanned [(key_bytes key_X, [1]); (key_bytes key_Y, [2]); (key_bytes (IntKey 0x103), [4]); (key_bytes (IntKey 0x204), [7])]))
    | None => false end = true) by (vm_compute; reflexivity).
  destruct (run (@olc_step sse) scan_schedule (olc_initial 2)) as [c|]; [|done]. exists c. split; [done|]. by apply bool_decide_eq_true in Hc.
Qed.

Lemma olc_scan_shows_present_witness : ∃ c shown, run (@olc_step sse) scan_schedule (olc_initial 2) = Some c ∧ length shown = 4%nat ∧
  ∃ es' a, run atomic_step es' (atomic_initial 2) = Some a ∧ atomic_history a = without_lookups (history c) ∧ was_there 2 es' 1 shown.
Proof.
  destruct scan_schedule_runs as (c & Hrun & Hh). eexists c, _. split; [done|]. split; [|apply (olc_scan_shows_present 2 scan_schedule c Hrun)].
  2,3: vm_compute; reflexivity.
  2: { destruct (history c); [done|]. injection Hh as ->. by left. }
  done.
Defined.

Lemma olc_statistics_exact_witness : ∃ c, run (@olc_step sse) olc_schedule (olc_initial 2) = Some c ∧ at_rest c ∧
  (tally (counters c) <$> [None; Some LEAF; Some I4; Some I16]) = [152; 3; 1; 0] ∧
  ∃ L, NoDup L ∧ (∀ p, p ∈ L ↔ @reachable sse (mem c) p) ∧ tally_is (counters c) (λ o, sum ((λ p, ptr_cost p o) <$> L)).
Proof.
  destruct olc_schedule_runs as (c & Hrun & Hrest & _ & _ & Hcounts & _). exists c. split; [done|]. split; [done|]. split; [done|].
  apply (olc_statistics_exact 2 olc_schedule c Hrun); [vm_compute; reflexivity..|done].
Defined.

Lemma olc_clear_releases_witness : ∃ c, run (@olc_step sse) olc_schedule (olc_initial 2) = Some c ∧ root (mem c) ≠ PNull ∧
  ∃ c', @olc_step sse (0%nat, Invoke OpClear) c = Some c' ∧ root (mem c') = PNull ∧ ∀ o, tally (counters c') o = 0.
Proof.
  destruct olc_schedule_runs as (c & Hrun & Hrest & _ & Hroot & _ & Hlen). exists c. split; [done|]. split; [done|].
  destruct (lookup_lt_is_Some_2 (olc_threads c) 0) as [t Ht]; [rewrite Hlen; apply Nat.lt_0_succ|].
  destruct (olc_clear_releases 2 olc_schedule c Hrun ltac:(vm_compute; reflexivity) ltac:(vm_compute; reflexivity) 0%nat t Hrest Ht) as [(c' & Hs & Hr & _ & Hq & _) _].
  exact (ex_intro _ c' (conj Hs (conj Hr Hq))).
Defined.

Lemma olc_get_alone_witness : ∃ c, run (@olc_step sse) olc_schedule (olc_initial 2) = Some c ∧
  ∃ fuel r, @alone sse _ fuel (@olc_get sse key_Y) (mem c) (counters c) = Some (r, mem c, counters c) ∧
  ∀ v, r = Some v ↔ ∃ a l, @reachable sse (mem c) (PLeaf a l) ∧ leaf_holds l (key_bytes key_Y) v.
Proof.
  destruct olc_schedule_runs as (c & Hrun & Hrest & _). exists c. split; [done|].
  apply (olc_get_alone 2 olc_schedule c Hrun ltac:(vm_compute; reflexivity) ltac:(vm_compute; reflexivity) key_Y Hrest). reflexivity.
Defined.

Lemma olc_scan_alone_witness : ∃ c, run (@olc_step sse) olc_schedule (olc_initial 2) = Some c ∧
  ∃ kvs, StronglySorted (ahead false) kvs ∧ (∀ e, e ∈ kvs ↔ ∃ a l, @reachable sse (mem c) (PLeaf a l) ∧ leaf_holds l e.1 e.2) ∧
  ∀ F (fn : list Z → list Z → F → bool * F) f, ∃ fuel,
    @alone sse _ fuel (@scan sse F true fn false f) (mem c) (counters c) = Some (visit fn kvs f, mem c, counters c).
Proof.
  destruct olc_schedule_runs as (c & Hrun & Hrest & _). exists c. split; [done|].
  apply (olc_scan_alone 2 olc_schedule c Hrun); [vm_compute; reflexivity..|exact Hrest].
Defined.
