(* ===== verification/DbTheorems.v ===== *)
(** What the index promises to its callers. *)

From S2P Require Import Heap.
From S2P Require Import Prelude Words ArtKey KeyPrefix SortedAssoc Simd InodeBase.
From S2P Require Import Inode4 Inode16 Inode48 Inode256 Heap Stats Leaf.
From S2P Require Import InodeSpec Inode Tree Db DbLookup DbInsert DbRemove DbMap DbCount DbTrace Samples.

(** C1: with 64-bit integer keys and an allocator that does not fail, any
    sequence of [get], [insert], [remove], [empty] and [clear] calls on a new
    index returns exactly the answers of a finite map; in particular no call
    throws, runs into undefined behaviour or fails to end. *)
Theorem int_index_is_map `{Target, Allocator} (os : list op) (h : heap) :
  reliable → Forall int_op os → Forall op_fits os →
  (run_ops os (new_db h)).1 = Ret <$> spec_answers os ∅.
Proof.
  intros Hrel Hos Hfit. apply (run_ops_reliable Hrel); [done..|apply int_map_empty|apply new_db_repr].
Qed.

Lemma int_index_is_map_witness :
  (@run_ops sse plenty (sample_ops ++ [OpGet (IntKey 0x104); OpRemove (IntKey 0x105); OpEmpty]) (new_db fresh_heap)).1 =
  Ret <$> [Bool true; Bool true; Bool true; Bool true; Bool true; Bool true; Found (Some [4; 4]); Bool true; Bool false].
Proof.
  rewrite (@int_index_is_map sse plenty); [vm_compute; reflexivity|done|by repeat constructor..].
Defined.

(** C2: the same with an allocator that fails at any set of allocations, armed
    failure injection included, and with values that may be too long: every call
    ends; a call answers as the map does, or it is an insertion of a new key or
    the removal of a stored one that throws, and then the index holds the same
    map as before.  [std::length_error] is thrown exactly when the value is too
    long. *)
Theorem int_index_survives_faults `{Target, Allocator} (os : list op) (h : heap) :
  Forall int_op os →
  ∃ rs w' m', run_ops os (new_db h) = (rs, w') ∧ spec_run os ∅ rs m' ∧ db_repr w' m'.
Proof. intros Hos. apply run_ops_int; [done|apply int_map_empty|apply new_db_repr]. Qed.

Lemma int_index_survives_faults_witness :
  ∃ rs w' m', @run_ops sse debug sample_ops (new_db (Heap (Injector 0 3 false) 0)) = (rs, w') ∧
    spec_run sample_ops ∅ rs m' ∧ @db_repr sse w' m'.
Proof. apply (@int_index_survives_faults sse debug), sample_int. Defined.

(** [get] returns the value stored under the key and changes nothing, for
    integer keys and for byte strings that are not proper prefixes of stored
    keys. *)
Theorem get_returns_stored `{Target} (w : world) (m : gmap (list Z) (list Z)) (k : key_arg) :
  db_repr w m → key_contract k m → db_get k w = (Ret (m !! key_bytes k), w).
Proof. apply db_get_repr. Qed.

Lemma get_returns_stored_witness :
  @db_get sse (IntKey 0x102) sample_db = (Ret (Some [2]), sample_db) ∧
  @db_get sse (IntKey 0x106) sample_db = (Ret None, sample_db).
Proof.
  split; rewrite (@get_returns_stored sse _ sample_map);
    [vm_compute; reflexivity|apply sample_repr|by apply int_key_contract, sample_repr
    |vm_compute; reflexivity|apply sample_repr|by apply int_key_contract, sample_repr].
Defined.

(** C14: [insert] of a key that is stored returns [false] and changes nothing.
    Otherwise it returns [true] and the index holds the new entry besides the old
    ones, with the statistics of the new tree; or it throws, [std::length_error]
    if and only if the key or the value is too long and [std::bad_alloc]
    otherwise, and then the tree is literally the old one and the statistics are
    still those of the tree.  The key set must fit node prefixes of seven bytes. *)
Theorem insert_adds `{Target, Allocator} (w : world) (m : gmap (list Z) (list Z)) (k : key_arg) (v : list Z) :
  db_repr w m → key_contract k m → compact_map (<[key_bytes k := v]> m) →
  ∃ r w', db_insert k v w = (r, w') ∧
    match m !! key_bytes k with
    | Some _ => r = Ret false ∧ w' = w
    | None =>
        (r = Ret true ∧ allowed (art_key_of k) v ∧ db_repr w' (<[key_bytes k := v]> m)) ∨
        (∃ x, r = Throw x ∧ (x = length_error ↔ ¬ allowed (art_key_of k) v) ∧ slot w' = slot w ∧ db_repr w' m)
    end.
Proof. apply db_insert_repr. Qed.

Lemma insert_adds_witness :
  let k := ViewKey 0 [7; 8; 9] in
  ∃ r w', @db_insert portable debug k [1] (new_db fresh_heap) = (r, w') ∧
    ((r = Ret true ∧ allowed (art_key_of k) [1] ∧ @db_repr portable w' (<[key_bytes k := [1]]> ∅)) ∨
     (∃ x, r = Throw x ∧ (x = length_error ↔ ¬ allowed (art_key_of k) [1]) ∧ slot w' = Null ∧ @db_repr portable w' ∅)).
Proof.
  intros k. destruct (@insert_adds portable debug (new_db fresh_heap) ∅ k [1]) as (r & w' & Hrun & Hcase).
  - apply new_db_repr.
  - split; [by repeat constructor|]. intros e [? He]. by rewrite lookup_empty in He.
  - apply short_keys_compact. vm_compute. repeat constructor.
  - rewrite lookup_empty in Hcase. by exists r, w'.
Defined.

(** C15: [remove] of a key that is not stored returns [false] and changes nothing.
    Otherwise it returns [true] and the index holds the other entries, nodes
    shrunk and single children merged upwards; or the allocation of a smaller
    node throws [std::bad_alloc] and the tree is literally the old one. *)
Theorem remove_deletes `{Target, Allocator} (w : world) (m : gmap (list Z) (list Z)) (k : key_arg) :
  db_repr w m → key_contract k m → compact_map (delete (key_bytes k) m) →
  ∃ r w', db_remove k w = (r, w') ∧
    match m !! key_bytes k with
    | None => r = Ret false ∧ w' = w
    | Some _ =>
        (r = Ret true ∧ db_repr w' (delete (key_bytes k) m)) ∨
        (r = Throw bad_alloc ∧ slot w' = slot w ∧ db_repr w' m)
    end.
Proof. apply db_remove_repr. Qed.

Lemma remove_deletes_witness :
  ∃ r w', @db_remove sse debug (IntKey 0x103) sample_db = (r, w') ∧
    ((r = Ret true ∧ @db_repr sse w' (delete (key_bytes (IntKey 0x103)) sample_map)) ∨
     (r = Throw bad_alloc ∧ slot w' = slot sample_db ∧ @db_repr sse w' sample_map)).
Proof.
  destruct (@remove_deletes sse debug sample_db sample_map (IntKey 0x103)) as (r & w' & Hrun & Hcase).
  - apply sample_repr.
  - by apply int_key_contract, sample_repr.
  - apply int_map_compact, int_map_delete, sample_repr.
  - exists r, w'. split; [done|].
    assert (Hl : sample_map !! key_bytes (IntKey 0x103) = Some [3]) by (vm_compute; reflexivity).
    by rewrite Hl in Hcase.
Defined.

(** C17: the deletion of the tree with which [clear] begins, and which is all that
    the destructor does, takes every node out of the counters by itself: memory in
    use, leaf count and the count of each type of internal node go from those of the
    tree to zero, before anything is assigned.  [clear] leaves an empty index with all
    of them at zero, the leaf count that it does not assign included. *)
Theorem clear_resets `{Target} (w : world) (m : gmap (list Z) (list Z)) :
  db_repr w m →
  (∃ e', delete_root_subtree w = (Ret tt, World (slot w) e') ∧ ∀ o, tally (env_stats e') o = 0) ∧
  ∃ w', clear w = (Ret tt, w') ∧ slot w' = Null ∧ db_repr w' ∅ ∧ ∀ o, tally (env_stats (wenv w')) o = 0.
Proof. split; [by eapply delete_root_tally|by eapply db_clear_repr]. Qed.

Lemma clear_resets_witness :
  ((current_memory_use (env_stats (wenv sample_db)), node_counts (env_stats (wenv sample_db)) LEAF) = (328, 6) ∧
   ∃ e', delete_root_subtree sample_db = (Ret tt, World (slot sample_db) e') ∧ ∀ o, tally (env_stats e') o = 0) ∧
  ∃ w', clear sample_db = (Ret tt, w') ∧ slot w' = Null ∧ @db_repr sse w' ∅ ∧
    ∀ o, tally (env_stats (wenv w')) o = 0.
Proof.
  destruct (@clear_resets sse sample_db sample_map (proj1 sample_repr)) as [Hd Hc].
  split; [split; [vm_compute; reflexivity|exact Hd]|exact Hc].
Defined.

(** The destructor deletes every node exactly once: with all of them gone the
    counters of memory and nodes read zero, which is what the code asserts of the
    leaf count. *)
Theorem destructor_frees_all `{Target} (w : world) (m : gmap (list Z) (list Z)) :
  db_repr w m →
  ∃ e', db_destroy w = (Ret tt, World (slot w) e') ∧ ∀ o, tally (env_stats e') o = 0.
Proof. apply delete_root_tally. Qed.

Lemma destructor_frees_all_witness :
  ∃ e', db_destroy sample_db = (Ret tt, World (slot sample_db) e') ∧ ∀ o, tally (env_stats e') o = 0.
Proof. apply (@destructor_frees_all sse sample_db sample_map), sample_repr. Defined.

(** C16: the statistics are exact after any sequence of [get], [insert], [remove],
    [empty] and [clear] calls with integer keys on a new index, whatever allocations
    fail: each counter is that of the nodes of the tree; the leaf count is the number
    of entries that the calls have left, there are fewer internal nodes than entries
    (none without entries), and the memory in use is the bytes of the leaves, 11 more
    than key and value each, and of the counted nodes. The calls are fewer than 2^64. *)
Theorem statistics_exact `{Target, Allocator} (os : list op) (h : heap) :
  Forall int_op os → Z.of_nat (length os) < 2 ^ 64 →
  ∃ rs w' m', run_ops os (new_db h) = (rs, w') ∧ spec_run os ∅ rs m' ∧
    let s := env_stats (wenv w') in
    (∀ o, tally s o = wrap64 (total o (slot w'))) ∧
    node_counts s LEAF = Z.of_nat (size m') ∧
    (∀ t, 0 ≤ node_counts s t) ∧
    node_counts s I4 + node_counts s I16 + node_counts s I48 + node_counts s I256 ≤ Z.of_nat (size m' - 1) ∧
    current_memory_use s = wrap64 (entries_bytes (map_to_list m') + 48 * node_counts s I4 +
      160 * node_counts s I16 + 656 * node_counts s I48 + 2064 * node_counts s I256).
Proof.
  intros Hos Hlen. destruct (run_ops_int os (new_db h) ∅ Hos int_map_empty (new_db_repr h)) as (rs & w' & m' & Hrun & Hspec & Hw).
  exists rs, w', m'. split; [done|]. split; [done|]. split; [exact (db_repr_tally w' m' Hw)|].
  apply db_repr_counts; [done|]. pose proof (spec_run_size _ _ _ _ Hspec) as Hsize. rewrite map_size_empty in Hsize. lia.
Qed.

Lemma statistics_exact_witness :
  ∃ rs w' m', @run_ops sse plenty (sample_ops ++ [OpRemove (IntKey 0x103)]) (new_db fresh_heap) = (rs, w') ∧
    spec_run (sample_ops ++ [OpRemove (IntKey 0x103)]) ∅ rs m' ∧
    node_counts (env_stats (wenv w')) LEAF = Z.of_nat (size m').
Proof.
  destruct (@statistics_exact sse plenty (sample_ops ++ [OpRemove (IntKey 0x103)]) fresh_heap) as (rs & w' & m' & Hrun & Hspec & _ & Hleaf & _).
  - apply Forall_app. split; [exact sample_int|by repeat constructor].
  - vm_compute. reflexivity.
  - exists rs, w', m'. split; [exact Hrun|]. split; [exact Hspec|exact Hleaf].
Defined.
