(* ===== verification/Findings.v ===== *)
(** Inputs the documentation admits, or the code does not guard against, on which
    the index and the encoder do not do what their comments say, by runs of the
    model on such inputs. *)

From ITree Require Import ITree.
From S2P Require Import Prelude Words Threads ArtKey KeyPrefix SortedAssoc Simd InodeBase.
From S2P Require Import Inode4 Inode16 Inode48 Inode256 Heap Stats Leaf.
From S2P Require Import InodeSpec Inode Tree Db DbInsert DbMap DbTrace Buffer KeyCodec CodecSpec CodecOrder Samples.
From S2P Require Import OlcState Olc OlcIter OlcSystem Iterator.

(** A byte string as the key of a call. *)
Definition view (bytes : list Z) : key_arg := ViewKey 0 bytes.

(** The outcomes of a client's calls on a new index of the x86-64 release build. *)
Definition outcomes (os : list op) : list (res answer) := (@run_ops sse plenty os (new_db fresh_heap)).1.

(** ** Key prefixes hold seven bytes *)

(** Keys that agree on eight bytes and then differ. *)
Definition long_a : list Z := replicate 8 0 ++ [1].
Definition long_b : list Z := replicate 8 0 ++ [2].

(** Two keys that differ after fifteen bytes, and one that parts from them after
    seven, so that all bytes fit the prefixes of two nodes. *)
Definition merged_a : list Z := replicate 7 1 ++ [2] ++ replicate 7 1 ++ [1].
Definition merged_b : list Z := replicate 7 1 ++ [2] ++ replicate 7 1 ++ [2].
Definition merged_c : list Z := replicate 7 1 ++ [3].

(** The prefix of the node for two keys with eight bytes in common: seven of them. *)
Lemma make_u64_same q a b : is_bytes a → is_bytes b → (8 ≤ length a)%nat → take 8 a = take 8 b →
  ∃ w, make_u64 a (KView (Span q b)) 0 = Some w ∧ prefix_wf w ∧ prefix_length w = 7%nat ∧
    ∀ i, (i < 7)%nat → default 0 (a !! i) = prefix_index w i.
Proof.
  intros Ha Hb Hlen Heq. set (k := KView (Span q b)). assert (Hk : key_wf k) by exact Hb.
  unfold make_u64. rewrite (proj2 (Z.ltb_ge _ _)) by lia. change (Z.to_nat 0) with 0%nat. rewrite drop_0.
  set (u := Z.land (get_u64_view a) key_bytes_mask).
  assert (Hu : 0 ≤ u < 2 ^ 64) by (apply land_range; [lia|]; unfold key_bytes_mask; lia).
  assert (Hub : ∀ i, (i < 7)%nat → byte_at u i = default 0 (a !! i)).
  { intros i Hi. unfold u. change key_bytes_mask with (Z.ones (8 * Z.of_nat 7)).
    by rewrite byte_at_ones, decide_True, byte_at_get_u64_view, decide_True by (done || lia). }
  assert (Hs : shared_len u (get_u64 k) key_prefix_capacity = 7%nat).
  { pose proof (get_u64_shifted_range k 0 Hk) as Hr. rewrite shifted_0 in Hr.
    destruct (shared_len_clamped u (get_u64 k) key_prefix_capacity) as (H1 & _ & H3);
      [unfold key_prefix_capacity; lia..|]. unfold key_prefix_capacity in *.
    set (n := shared_len _ _ _) in *. destruct (decide (n < 7)%nat) as [Hlt|]; [|lia]. destruct (H3 Hlt).
    rewrite Hub by done. rewrite <- (shifted_0 k), byte_at_get_u64_shifted by (done || lia).
    change (get_key_view k) with b. rewrite <- (lookup_take_lt a 8), <- (lookup_take_lt b 8) by lia. by rewrite Heq. }
  rewrite Hs. eexists. split; [done|].
  replace u with (Z.land u key_bytes_mask) by (unfold u; by rewrite <- Z.land_assoc, Z.land_diag).
  split; [by apply with_length_wf|]. split; [by apply prefix_length_length_to_word|].
  intros i Hi. unfold prefix_index. rewrite byte_at_with_length by lia. by rewrite Hub.
Qed.

(** That node has both leaves under the same byte, the second one first. *)
Lemma create_leaves_same `{Target} q a b (c1 c2 : node_ptr) : is_bytes a → is_bytes b → (8 ≤ length a)%nat → take 8 a = take 8 b →
  ∃ n x, Inode4.create_leaves a (KView (Span q b)) 0 c1 c2 = Some n ∧ prefix_wf (k_prefix (i4_impl n)) ∧
    prefix_length (k_prefix (i4_impl n)) = 7%nat ∧
    (∀ i, (i < 7)%nat → default 0 (a !! i) = prefix_index (k_prefix (i4_impl n)) i) ∧
    a !! 7%nat = Some x ∧ b !! 7%nat = Some x ∧ Inode4.find_child n x = (0, Some 0%nat) ∧ i4_children n !! 0%nat = Some c2.
Proof.
  intros Ha Hb Hlen Heq. destruct (make_u64_same q a b Ha Hb Hlen Heq) as (w & Hw & Hwf & Hl & Hi).
  destruct (lookup_lt_is_Some_2 a 7) as [x Hx]; [lia|].
  assert (Hy : b !! 7%nat = Some x) by (rewrite <- Hx, <- (lookup_take_lt a 8), <- (lookup_take_lt b 8) by lia; by rewrite Heq).
  assert (Hbx : is_byte x) by exact (Forall_lookup_1 _ _ _ _ Ha Hx).
  unfold Inode4.create_leaves, new_for_leaves. rewrite Hw. cbn [mbind option_bind]. unfold init_leaves.
  cbn [i4_impl raw_inode_4 k_prefix]. rewrite Hl. change (Z.to_nat (depth_add 0 (Z.of_nat 7))) with 7%nat. rewrite Hx.
  cbn [mbind option_bind]. replace (index (KView (Span q b)) 7) with (Some x) by (symmetry; exact Hy). cbn [mbind option_bind].
  eexists _, x. split; [done|]. unfold add_two_to_empty. rewrite Z.ltb_irrefl. cbn [i4_impl k_prefix raw_inode_4 i4_keys i4_children].
  split_and!; [exact Hwf|exact Hl|exact Hi|done|exact Hy| |done].
  pose proof uninit_byte_is_byte as Hun.
  rewrite i4_find_child_bytes; cbn [i4_keys i4_children i4_impl children_count].
  - match goal with |- context [take (Z.to_nat 2) ?l] => replace (take (Z.to_nat 2) l) with [x; x] by (by destruct x86_64) end.
    cbn. by rewrite Z.eqb_refl.
  - by destruct x86_64.
  - destruct x86_64; cbn; repeat constructor; (done || unfold is_byte, unused_key_byte in *; lia).
  - lia.
  - exact Hbx.
Qed.

(** A search key whose padding with zero bytes agrees with a prefix shares all of it. *)
Lemma padded_key_shares w addr k : prefix_wf w → is_bytes k →
  (∀ i, (i < prefix_length w)%nat → default 0 (k !! i) = prefix_index w i) →
  (prefix_length w ≤ get_shared_length w (get_u64 (KView (Span addr k))))%nat.
Proof.
  intros [Hw Hl] Hk Heq. pose proof (get_u64_shifted_range (KView (Span addr k)) 0 Hk) as Hr. rewrite shifted_0 in Hr.
  destruct (shared_len_clamped (get_u64 (KView (Span addr k))) w (prefix_length w)) as (Hle & _ & Hne); [lia..|].
  fold (get_shared_length w (get_u64 (KView (Span addr k)))) in Hle, Hne.
  set (n := get_shared_length _ _) in *. destruct (decide (n < prefix_length w)%nat) as [Hlt|]; [|lia].
  destruct (Hne Hlt). rewrite <- (shifted_0 (KView (Span addr k))), byte_at_get_u64_shifted by (done || lia). by apply Heq.
Qed.

(** The insertions that lead to it. *)
Lemma first_insertion `{Target, Allocator} k v e w : Db.insert_internal k v (World Null e) = (Ret true, w) →
  allowed k v ∧ slot w = LeafP (leaf_of k v).
Proof.
  unfold Db.insert_internal, bind at 1, get_slot. cbn [slot]. destruct (make_leaf_cases k v e) as (r & e1 & Hm & Hcase).
  rewrite (lift_bind _ _ _ _ _ _ Hm). destruct Hcase as [(-> & Hal & _)|(x & -> & _)]; [|done]. intros [= <-]. done.
Qed.

Lemma second_insertion `{Target, Allocator} q a b va vb l e w : is_bytes a → is_bytes b → (8 ≤ length a)%nat → take 8 a = take 8 b →
  leaf_holds l a va → Db.insert_internal (KView (Span q b)) vb (World (LeafP l) e) = (Ret true, w) →
  allowed (KView (Span q b)) vb ∧ a ≠ b ∧
  ∃ n, Inode4.create_leaves a (KView (Span q b)) 0 (LeafP l) (LeafP (leaf_of (KView (Span q b)) vb)) = Some n ∧ slot w = InodeP (N4 n).
Proof.
  intros Ha Hb Hlen Heq Hl. set (k := KView (Span q b)). unfold Db.insert_internal, bind at 1, get_slot. cbn [slot].
  unfold loop_fuel. cbn [Db.insert_loop]. unfold bind at 1, get_slot. cbn [slot].
  rewrite cmp_compare, (leaf_holds_key _ _ _ Hl). change (get_key_view k) with b.
  destruct (Z.eqb_spec (compare b a) 0) as [|Hne]; [done|]. rewrite compare_zero in Hne.
  destruct (split_cases k vb (LeafP l) e (λ leaf, Inode4.create_leaves a k 0 (LeafP l) (LeafP leaf))
    (lift (with_stats (Stats.account_growing_inode I4));; ret true)%monad) as (r & p' & e' & Hrun & Hcase).
  { intros _. destruct (create_leaves_same q a b (LeafP l) (LeafP (leaf_of k vb)) Ha Hb Hlen Heq) as (n & x & Hn & _). exists n. exact Hn. }
  { apply counting_cases; [intros s x; apply tally_growing|apply ret_cases]. }
  rewrite Hrun. intros [= -> <-]. destruct Hcase as [(_ & Hal & (n & Hn & ->) & _)|(x & [=] & _)].
  split; [done|]. split; [by intros ->|]. by exists n.
Qed.

Lemma bind_some {S A B} (a : A) (f : A → M S B) s : bind (of_option (Some a)) f s = f a s.
Proof. done. Qed.

Lemma two_calls `{Target, Allocator} o1 o2 r1 r2 w w2 : run_ops [o1; o2] w = ([r1; r2], w2) →
  ∃ w1, run_op o1 w = (r1, w1) ∧ run_op o2 w1 = (r2, w2).
Proof.
  cbn [run_ops]. destruct (run_op o1 w) as [x w1] eqn:E1. destruct (run_op o2 w1) as [y w3] eqn:E2.
  intros [= <- <- <-]. by exists w1.
Qed.

Lemma inserts `{Target, Allocator} k v w w' : run_op (OpInsert k v) w = (Ret (Bool true), w') →
  Db.insert_internal (Db.art_key_of k) v w = (Ret true, w').
Proof.
  cbn [run_op]. unfold bind, db_insert. destruct (Db.insert_internal _ _ w) as [r w1]. destruct r; [|done..].
  by intros [= -> ->].
Qed.

(** A lookup of either key goes to the second leaf. *)
Lemma lookup_goes_to_second `{Target} (w : world) n x addr k l : slot w = InodeP (N4 n) → prefix_wf (k_prefix (i4_impl n)) →
  prefix_length (k_prefix (i4_impl n)) = 7%nat → is_bytes k → k !! 7%nat = Some x →
  (∀ i, (i < 7)%nat → default 0 (k !! i) = prefix_index (k_prefix (i4_impl n)) i) →
  Inode4.find_child n x = (0, Some 0%nat) → i4_children n !! 0%nat = Some (LeafP l) →
  db_get (ViewKey addr k) w = (Ret (if matches l (KView (Span addr k)) then Some (get_value_view l) else None), w).
Proof.
  intros Hslot Hwf Hlen Hk Hx Hi Hf Hc. destruct w as [root e]. cbn [slot] in Hslot. subst root.
  pose proof (lookup_lt_Some _ _ _ Hx) as Hlt. pose proof (padded_key_shares _ addr k Hwf Hk) as Hsh. rewrite Hlen in Hsh. specialize (Hsh Hi).
  unfold db_get, Db.get_internal, bind at 1, get_slot. cbn [slot art_key_of]. unfold art_key_of_view, loop_fuel.
  cbn [key_size_of span_bytes]. destruct (length k) as [|m] eqn:Hm; [lia|]. cbn [Db.get_loop].
  change (get_key_prefix (N4 n)) with (k_prefix (i4_impl n)). rewrite Hlen, (proj2 (Nat.ltb_ge _ _) Hsh).
  assert (Hs1 : shift_right (KView (Span addr k)) 7 = Some (KView (subspan (Span addr k) 7))).
  { unfold shift_right. cbn [span_bytes]. by rewrite (proj2 (Nat.leb_le 7 (length k))) by lia. }
  assert (Hs2 : index (KView (subspan (Span addr k) 7)) 0 = Some x) by (cbn; by rewrite lookup_drop).
  assert (Hs3 : shift_right (KView (subspan (Span addr k) 7)) 1 = Some (KView (subspan (subspan (Span addr k) 7) 1))).
  { unfold shift_right. cbn [subspan span_bytes]. by rewrite (proj2 (Nat.leb_le 1 _)) by (rewrite length_drop; lia). }
  rewrite Hs1, bind_some, Hs2, bind_some.
  change (Inode.find_child (N4 n) x) with (Inode4.find_child n x). rewrite Hf. cbn [snd].
  change (slot_load (N4 n) 0) with (i4_children n !! 0%nat). rewrite Hc, bind_some, Hs3, bind_some.
  destruct m; [lia|]. done.
Qed.

(** C37: view keys, none a prefix of another, can get lost. Whenever the two first
    insertions on a new index are of keys with eight bytes in common, and succeed,
    the first key is not found after them: the node of the two leaves gets a prefix of
    seven bytes and both leaves under the same byte after it. And there are three keys
    of which two are found until the third is removed, which merges two nodes with
    prefixes of seven bytes each, whose concatenation with the byte between them does
    not fit, and neither is found after it. *)
Theorem long_shared_prefixes_lose_keys :
  (∀ `{Target, Allocator} (p q : Z) (a b va vb : list Z) (h : heap) (w : world),
     is_bytes a → is_bytes b → (8 ≤ length a)%nat → take 8 a = take 8 b →
     run_ops [OpInsert (ViewKey p a) va; OpInsert (ViewKey q b) vb] (new_db h) = ([Ret (Bool true); Ret (Bool true)], w) →
     a ≠ b ∧ db_get (ViewKey p a) w = (Ret None, w) ∧ db_get (ViewKey q b) w = (Ret (Some vb), w)) ∧
  prefix_free long_a long_b ∧
  outcomes [OpInsert (view long_a) [1]; OpInsert (view long_b) [2]; OpGet (view long_a); OpGet (view long_b)] =
    [Ret (Bool true); Ret (Bool true); Ret (Found None); Ret (Found (Some [2]))] ∧
  outcomes [OpInsert (view merged_a) [1]; OpInsert (view merged_c) [3]; OpInsert (view merged_b) [2];
            OpGet (view merged_a); OpGet (view merged_b); OpRemove (view merged_c);
            OpGet (view merged_a); OpGet (view merged_b); OpEmpty] =
    [Ret (Bool true); Ret (Bool true); Ret (Bool true);
     Ret (Found (Some [1])); Ret (Found (Some [2])); Ret (Bool true);
     Ret (Found None); Ret (Found None); Ret (Bool false)].
Proof.
  split; [|split; [exists 8%nat; split; [done|]; by exists 1, 2|split; vm_compute; reflexivity]].
  intros T A p q a b va vb h w Ha Hb Hlen Heq (w1 & E1%inserts & E2%inserts)%two_calls.
  apply first_insertion in E1 as [Hal1 Hs1]. destruct w1 as [root e1]. cbn [slot] in Hs1. subst root.
  pose proof (leaf_of_holds (KView (Span p a)) va Ha (proj1 Hal1) (proj2 Hal1)) as Hl1. apply (second_insertion q a b va vb _ _ _ Ha Hb Hlen Heq Hl1) in E2 as (Hal2 & Hne & n & Hn & Hs2).
  pose proof (leaf_of_holds (KView (Span q b)) vb Hb (proj1 Hal2) (proj2 Hal2)) as Hl2.
  destruct (create_leaves_same q a b (LeafP (leaf_of (KView (Span p a)) va)) (LeafP (leaf_of (KView (Span q b)) vb)) Ha Hb Hlen Heq)
    as (n' & x & Hn' & Hwf & Hpl & Hi & Hx & Hy & Hf & Hc). rewrite Hn in Hn'. injection Hn' as <-.
  split; [exact Hne|]. split.
  - rewrite (lookup_goes_to_second w n x p a _ Hs2 Hwf Hpl Ha Hx Hi Hf Hc). pose proof (leaf_holds_matches _ _ _ (KView (Span p a)) Hl2) as Hm.
    destruct (matches _ _); [|done]. by destruct Hne; apply Hm.
  - assert (Hib : ∀ i, (i < 7)%nat → default 0 (b !! i) = prefix_index (k_prefix (i4_impl n)) i).
    { intros i Hlt. rewrite <- Hi by done. rewrite <- (lookup_take_lt a 8), <- (lookup_take_lt b 8) by lia. by rewrite Heq. }
    rewrite (lookup_goes_to_second w n x q b _ Hs2 Hwf Hpl Hb Hy Hib Hf Hc). pose proof (leaf_holds_matches _ _ _ (KView (Span q b)) Hl2) as Hm.
    destruct (matches _ _); [|discriminate (proj2 Hm eq_refl)]. by rewrite (leaf_holds_value _ _ _ Hl2).
Qed.

(** C38: a lookup is undefined behaviour whenever the root is a node with a prefix
    that the search key, padded with zero bytes, agrees with, and the search key is
    shorter than that prefix: it cuts the key past its end.  Two keys that begin with
    two zero bytes and a search key of one make it so. *)
Theorem short_search_key_is_undefined :
  (∀ `{Target} (w : world) (n : inode node_ptr) (addr : Z) (k : list Z),
     slot w = InodeP n → node_wf n → is_bytes k → (length k < prefix_length (get_key_prefix n))%nat →
     (∀ i, (i < prefix_length (get_key_prefix n))%nat → default 0 (k !! i) = prefix_index (get_key_prefix n) i) →
     db_get (ViewKey addr k) w = (UB, w)) ∧
  outcomes [OpInsert (view [0; 0; 1]) [1]; OpInsert (view [0; 0; 2]) [1]; OpGet (view [0])] =
    [Ret (Bool true); Ret (Bool true); UB].
Proof.
  split; [|vm_compute; reflexivity]. intros ? w n addr k Hslot Hn Hk Hlen Heq.
  destruct w as [root e]. cbn [slot] in Hslot. subst root.
  unfold db_get, Db.get_internal, bind, get_slot. cbn [slot art_key_of art_key_of_view Db.get_loop loop_fuel].
  rewrite (proj2 (Nat.ltb_ge _ _)) by (apply padded_key_shares; [by apply inode_prefix_wf|done..]).
  unfold bind, art_key_of_view, shift_right. cbn [span_bytes]. by rewrite (proj2 (Nat.leb_gt _ _) Hlen).
Qed.

(** ** Comparison of keys *)

(** Two views with the same bytes at different addresses compare as different,
    and views of different bytes compare by their addresses. *)
Theorem view_keys_compare_by_address :
  cmp_key (KView (Span 16 [1])) (KView (Span 32 [1])) = Some (-1) ∧
  cmp_key (KView (Span 16 [2])) (KView (Span 32 [1])) = Some (-1).
Proof. by vm_compute. Qed.

(** ** Encoded text *)

(** With bytes of zero inside, the encoding of one text is a proper prefix of the
    encoding of another, and does not keep the order. *)
Theorem text_with_nul_is_not_prefix_free :
  (∃ rest, rest ≠ [] ∧ field_bytes (Text [1; 0; 255; 251]) = field_bytes (Text [1]) ++ rest) ∧
  lex [1] [1; 0; 1] = Lt ∧ lex (field_bytes (Text [1])) (field_bytes (Text [1; 0; 1])) = Gt.
Proof. split; [exists [0; 255; 248]; split; [done|]; by vm_compute|by vm_compute]. Qed.

(** ** Scans from a key *)

(** An index with the given integer keys, and the keys a scan of it meets. *)
Definition index_of (ks : list Z) : world :=
  (@run_ops sse plenty ((λ k, OpInsert (IntKey k) []) <$> ks) (new_db fresh_heap)).2.
Definition scanned_from (k : Z) (fwd : bool) (ks : list Z) : res unit * list (list Z) :=
  let '(r, (_, seen)) := @scan_from sse plenty _ (λ k _ seen, (false, seen ++ [k])) (IntKey k) fwd (index_of ks, []) in
  (r, seen).
Definition bytes_of (k : Z) : list Z := get_key_view (art_key_of (IntKey k)).

(** One thread that has an index with optimistic lock coupling to itself makes its
    calls one after the other, each from its invocation to its return. *)
Fixpoint olc_finish (fuel : nat) (c : config) : option config :=
  match fuel with
  | O => None
  | S fuel =>
      match @olc_step sse (0%nat, Return) c with
      | Some c => Some c
      | None => c ← @olc_step sse (0%nat, Step true) c; olc_finish fuel c
      end
  end.
Fixpoint olc_calls (ms : list move) (c : config) : option config :=
  match ms with
  | [] => Some c
  | m :: ms => c ← @olc_step sse (0%nat, m) c; c ← olc_finish 400 c; olc_calls ms c
  end.

(** The keys that a scan of an index with the given integer keys is shown. *)
Definition olc_scanned_from (k : Z) (fwd : bool) (ks : list Z) : option (list (list Z)) :=
  c ← olc_calls (((λ k, Invoke (OpInsert (IntKey k) [])) <$> ks) ++ [InvokeScan (ScanFrom k fwd) (λ _, false)]) (olc_initial 1);
  match history c with (_, Scanned shown) :: _ => Some shown.*1 | _ => None end.

(** C39: with integer keys, a scan from a key that is not stored can miss entries
    at or beyond the key, in either direction, and can visit entries before it:
    when the node the search ends in has no child beyond the key, [seek] takes the
    entry of the node's own parent off the stack and then goes down the child it
    came from instead of that child's sibling.  The index with optimistic lock
    coupling does the same, with no other thread about. *)
Theorem scan_from_goes_astray :
  scanned_from 0x105 true [0x100; 0x101; 0x200] = (Ret tt, []) ∧
  scanned_from 0x200 false [0x100; 0x201; 0x202] = (Ret tt, []) ∧
  scanned_from 0x10105 true [0x10000; 0x10100; 0x10101; 0x10200; 0x20000] =
    (Ret tt, bytes_of <$> [0x10000; 0x10100; 0x10101; 0x10200; 0x20000]) ∧
  olc_scanned_from 0x105 true [0x100; 0x101; 0x200] = Some [] ∧
  olc_scanned_from 0x200 false [0x100; 0x201; 0x202] = Some [] ∧
  olc_scanned_from 0x10105 true [0x10000; 0x10100; 0x10101; 0x10200; 0x20000] =
    Some (bytes_of <$> [0x10000; 0x10100; 0x10101; 0x10200; 0x20000]).
Proof. by vm_compute. Qed.

(** the key buffer of an iterator does not hold the key it is on: each step
    takes as many bytes off the buffer as a node has prefix bytes, and leaves one for
    the key byte that was pushed with them. *)
Theorem key_buffer_keeps_old_bytes :
  let it := @new_iterator sse (slot (index_of [0x100; 0x101; 0x102])) fresh_heap in
  let m := (bind (@first sse plenty) (λ _, bind (@next sse plenty) (λ _, @next sse plenty))) in
  (m it).1 = Ret tt ∧ (get_key (m it).2).1 = Ret (bytes_of 0x102) ∧
  buffer_view (keybuf_ (m it).2) = [0; 0] ++ bytes_of 0x102.
Proof. by vm_compute. Qed.
